(* ===== verification/_CoqProject ===== *)
-Q . S2P
Prelude.v
Utf8.v
Text.v
WorkerNames.v
Worker.v
ProviderErrors.v
RetryAfter.v
Retry.v
Circuit.v
Sse.v
DnsName.v
DnsTxt.v
DnsMessage.v
DnsCompression.v
DnsService.v
ActiveWork.v
Admission.v
Coordinator.v
Approval.v
Glob.v
Patch.v
NetAddr.v
Ssrf.v
Segmentation.v
Authorization.v
Identity.v
Pairing.v
Events.v
GatewaySession.v
Goals.v
GoalDisk.v
GoalStore.v
GoalRecovery.v
GoalHistory.v
GoalService.v
GoalTasks.v
Commands.v
GoalCommands.v
Ranking.v
MemorySession.v
MemoryBudget.v
MemoryVector.v
MemoryRetrieval.v
MemoryContext.v
Json.v
ToolSchema.v
Permissions.v
SandboxPath.v
ToolRegistry.v
NativeTools.v
Composition.v
CompositionGraph.v
CompositionHost.v
CompositionAuthority.v
CompositionEgress.v
CompositionService.v
TurnState.v
TurnStream.v
TurnPorts.v
TurnTools.v
TurnLoop.v
TurnProtocol.v
TurnEnding.v
Suspension.v
