(* ===== verification/Prelude.v ===== *)
(** * GTA-Claw: a verification library

    GTA-Claw is an agent gateway written in Rust: a daemon that serves model
    providers, tools and messaging channels, made of some thirty crates. This
    library models the crates' own decision logic (state machines, codecs, parsers,
    policies), each component in a file of its own, and proves what makes each of
    them correct. This file is the shared prelude; the rest of this comment
    documents the whole.

    ** The parts and where they are modelled

    _Model-provider SDK_ ([crates/claw-provider-sdk/src]): what happens around one
    request to a provider. An upstream failure becomes a [ProviderError]
    ([error.rs]: [ProviderErrors]), possibly with the server's Retry-After hint
    ([error.rs]: [RetryAfter]); the retry executor ([retry.rs]: [Retry]) decides
    whether and when to try again; the circuit breaker ([circuit.rs]: [Circuit])
    decides whether to try at all, from the same error kinds; the answer's byte
    stream goes through the incremental decoders ([sse.rs]: [Sse]).

    _Service discovery_ ([crates/claw-discovery/src/dnssd]): DNS names ([name.rs]:
    [DnsName]), TXT records ([txt.rs]: [DnsTxt]), the message codec with name
    compression ([message.rs]: [DnsMessage] for the codec and its safety,
    [DnsCompression] for the round trip), and services: announcing, resolving
    within a zone, renaming on conflict ([service.rs]: [DnsService]).

    _Host suspension_ ([crates/claw-platform/src/suspend]): the admission fence every
    unit of root work passes ([admission.rs]: [Admission]), the inventory of work in
    flight ([active_work.rs]: [ActiveWork]) and the coordinator that pauses the
    scheduler, checks that the host is idle and holds the fence under a lease
    ([coordinator.rs]: [Coordinator], which calls the other two). The runtime's own
    handshake, which stops admitting turns, drains those in flight and hands out a lease
    ([crates/claw-runtime/src/suspend.rs]), is [Suspension].

    _Worker admission_ ([crates/claw-worker/src]): identifiers, method names and
    secrets ([identity.rs], [allowlist.rs], [secret.rs]: [WorkerNames]); generation
    fencing, tickets and the controller that redeems tickets into sessions and
    screens calls ([fencing.rs], [ticket.rs], [limits.rs], [error.rs],
    [controller.rs]: [Worker]).

    _Tool approval_ ([crates/claw-runtime/src/approval.rs], with the values of
    [crates/claw-application/src/model]): the broker that makes a tool call wait for
    an operator ([Approval]).

    _Turns_ ([crates/claw-runtime/src], with the values and ports of
    [crates/claw-application/src/model] and [.../ports]): the session states and their
    machine ([session.rs]: [TurnState]); the assembly of a provider's stream
    ([stream.rs]: [TurnStream]); the ports a turn calls and the monad it runs in
    ([TurnPorts]); the tool executor and the authorized goal tool ([tool.rs],
    [goal_tool.rs]: [TurnTools]); the turn itself ([runtime.rs], [TurnExecution]:
    [TurnLoop], which calls the others); its four protocols ([TurnProtocol]) and its end
    ([TurnEnding]).

    _Security primitives_ ([crates/claw-security/src]): the policy that keeps
    outbound requests off private networks ([ssrf.rs]: [Ssrf], over the addresses of
    [NetAddr]); roles, scopes and the audited decision ([authorization.rs],
    [audit.rs]: [Authorization]); device fingerprints and the signed encodings
    ([identity.rs]: [Identity]); the pairing reducer that uses all of them
    ([pairing.rs]: [Pairing]).

    _Gateway_ ([crates/claw-gateway/src]): the event bus that fans published events
    out to connections through bounded queues ([events.rs]: [Events]); the device
    directory, the re-validation of a live session and the numbering of the frames
    it is written ([authority.rs], [connection.rs], and the client's tracker in
    [crates/claw-protocol/src/gateway/codec.rs]: [GatewaySession]).

    _Agent tools_ ([crates/claw-tools/src]): the schema a payload is validated against
    and what an audit record shows of it ([schema.rs], [audit.rs]: [ToolSchema], over the
    JSON values of [Json]); the ledger of capability grants ([permission.rs]:
    [Permissions]); the lexical policy of workspace paths ([sandbox.rs]: [SandboxPath]);
    the registry every invocation passes through ([registry.rs], [tool.rs], [clock.rs],
    [error.rs]: [ToolRegistry], which calls the first two); the daemon's native tools,
    which grant one call what it prepared and run it through the registry
    ([apps/gta-claw-daemon/src/adapters/native_tools.rs], with the caller claims of
    [crates/claw-application/src/ports/tool.rs]: [NativeTools]); glob patterns
    ([fs/glob.rs]: [Glob]) and unified diffs ([fs/patch.rs]: [Patch]).

    _Durable goals_ ([crates/claw-goals/src], with the values of
    [crates/claw-application/src/model/goal.rs]): statuses, budgets and the file
    format ([transition.rs], [budget.rs], [wire.rs]: [Goals]); the store that keeps
    one file per goal and one index per session ([store.rs]: [GoalStore], over the
    disk of [GoalDisk]); the invariant that every operation keeps at every point
    where it can be cut short ([GoalRecovery]); histories of processes, failures and
    power cuts ([GoalHistory]); the service that sets, advances and closes the goals
    of a session over the store's port ([crates/claw-runtime/src/goal.rs], with the
    conflict handling of [retry.rs] and [tool.rs]: [GoalService]) and its operations
    running together ([GoalTasks]).

    _Operator input_ ([crates/claw-runtime/src/command.rs]: [Commands]): slash
    commands, from their scopes and registry to the effect they lower to, and inline
    directives; [crates/claw-goals/src/command.rs] ([GoalCommands]) carries the goal
    commands out on the goal service.

    _Conversation memory_ ([crates/claw-memory/src]): sessions and the documents they
    are restored from ([session.rs]: [MemorySession]); token budgets and the rules that
    truncate a history ([budget.rs]: [MemoryBudget]); embeddings and the exact index
    ([vector.rs]: [MemoryVector]); records, lexical and vector retrieval and the store
    ([retrieval.rs], [store.rs]: [MemoryRetrieval]); the assembly of a model's input
    and the compaction of a session ([context.rs], [summarize.rs]: [MemoryContext],
    which calls the others). [Ranking] holds the stable sort and the orders they share.

    _Daemon composition_ ([crates/claw-application/src/composition]): subsystem names, the
    life cycle with its epoch gate, and errors ([id.rs], [lifecycle.rs], [subsystem.rs],
    [error.rs]: [Composition]); the plan that orders subsystems by dependency ([graph.rs]:
    [CompositionGraph]); the host that starts them, drains them and survives being dropped
    half way ([host.rs]: [CompositionHost], which calls both); single-use grants and the
    issuer ([authority.rs], [clock.rs]: [CompositionAuthority]); the guard every outbound
    destination passes ([egress.rs]: [CompositionEgress]); the session service that runs a
    turn over the ports ([service.rs], [session.rs], [ports.rs]: [CompositionService], which
    calls the last two).

    _Channel SDK_ ([crates/claw-channel-sdk/src/segmentation.rs]): splitting a
    message for a transport with a length limit ([Segmentation]).

    [Utf8] and [Text] model what the sources use of Rust strings (UTF-8 encoding and
    decoding, lossy decoding, UTF-16 lengths, white space, trimming, splitting,
    prefixes, searching), [NetAddr] what they use of IP addresses.

    ** How the source is represented

    Structs are records, enums inductive types, with the source's names; a function
    is one definition, a loop a [Fixpoint] over its data or its iteration count. A
    [Result] is [result] below with stdpp's bind for [?]; a method on [&mut self]
    returns the next state. Unsigned integers are [Z]; the width appears where the
    source's operation depends on it ([sat_add], [wrap_add], [checked_add],
    conversions). Bytes are Stdlib's [byte]; a string the source handles by
    characters is a list of scalar values ([Utf8]), one it handles by bytes the list
    of its UTF-8 bytes. [BTreeMap], [BTreeSet] and [HashSet] are [gmap] and [gset].
    Time is an argument wherever the source takes it or reads a clock. [f64] (the
    retry jitter) is the binary64 specification float of the Standard Library; [f32]
    (similarity scores) is a pattern of 32 bits with the arithmetic of specification
    floats and the order of [total_cmp].

    Panics are modelled where the source can reach one: string slicing
    ([RetryAfter], the [Parse] type) and [expect] ([Worker], the [Outcome] type).

    Concurrency: the fence and the circuit breaker hold their mutex for a whole
    method, so a method is one atomic function and callers interleave as steps
    ([step] in [Circuit] and [Admission]) or operations ([apply] in [Worker]). The
    coordinator holds its own mutex but calls ports and the fence in between, so its
    operations are programs ([Prog] in [Coordinator]) and other threads act on the
    fence between any two of their calls (they begin and drop work and start a restart
    drain; only the coordinator suspends the fence, as in the repository). An approval request is an async function:
    a waiter ([Phase], [advance] in [Approval]) that moves from one locked section or
    await to the next and may be dropped at an await. The event bus publishes under
    its lock while receivers and byte counters move without it, and a session's
    re-check loads its counter without the directory's lock: their models are
    machines ([act] in [Events] and in [GatewaySession]) whose steps are the atomic
    sections, run under arbitrary schedules.

    The goal store's operations are programs over file-system calls ([Prog] in
    [GoalDisk]). A directory is what has reached the disk and a log of changes that
    may not have; any call can fail, a program can be cut short between any two
    calls, and a power cut keeps any sub-list of the log, with arbitrary contents for
    files that were not flushed. The two directories themselves are created by the first
    [open] and never flushed ([Made]), so a power cut may take them as well. [safe] is
    the logic for them: an invariant at every such point, a postcondition where the
    program returns. Histories are restricted in two ways the code does not enforce
    ([valid_event]): records handed to [save] decode again and keep to the session of
    their goal, and no power cut takes a directory; Examples show what happens otherwise
    ([undecodable_save_blocks_reopening], [first_use_lost]). The store's mutex and
    advisory lock make operations of different instances follow one another, so a
    history is a sequence; directory flushes are those of Unix. The goal service
    only reaches the store through port calls, so its operations are trees of those
    calls ([Task] in [GoalService]); [GoalTasks] interleaves any number of them at
    their calls, over several open stores, with everything a history has. Its logic
    ([asked], [good]) says what a task may save, given the goals it knows.

    The host and the session service are monads over a log of calls ([M] in
    [CompositionHost] and [CompositionService]): an oracle answers the [i]-th call or drops
    the future there. Between the host's operations anything may drop or resume them; the
    service reads the gate and the clock as calls, since both move while it waits, and runs
    an arbitrary finite engine ([EngineProg]). [CompositionAuthority] runs issuing and
    redemption interleaved with life-cycle moves ([step], [run]).

    A turn is the same kind of program ([M] in [TurnPorts]): every port call, every signal it
    polls and every [select!] is a call; what the source passes by [&mut] is a variable that
    survives an early return. [wpt] is its logic, with a condition where the program
    returns and one where it is cut short, and no panic. [At] in [TurnProtocol] is the
    assertion its steps are proved with: where the four protocols are after the log, and
    what the variables hold.

    A tool of the registry is a tree of what it asks the gate and what it does outside
    ([ToolProg] in [ToolRegistry]); the broker, the audit sink, the clock and the outside
    are classes with arbitrary instances, and an invocation leaves a trace of everything
    they were asked, over which its theorems are stated.

    Code outside the repository is a parameter or an environment: the scheduler,
    clock, inspector and identifier source of the coordinator answer arbitrarily
    ([Answers]); the operation, cancellation token and jitter source of the retry
    executor are the [AttemptEnv] of each attempt; [serde_json] parsers and values
    are parameters of [Worker] and [Events]. They answer arbitrarily; a theorem that
    needs a port to succeed says so in its hypotheses. Some libraries are classes
    whose fields are the calls and their documented laws: the [url] crate
    ([UrlLib] in [Ssrf]), SHA-256 and Ed25519 ([Crypto] in [Identity]), the
    bounded channel of tokio ([Channel] in [Events]), and for the goal store
    [serde_json] on its two file types ([GoalJson], [IndexJson]: what was printed
    parses back) and the file-name digest ([Digest]: collision freedom, idealised as
    injectivity); Unicode's letter tables ([CharTables] in [MemoryVector]), the
    envelope of a direct tool call ([ToolJson] in [Commands]) and the token counter of
    the host ([TokenCounter] in [MemoryBudget]); each has an instance.

    ** Fuel and bounds

    The name walk of the DNS decoder ([name_loop]) follows pointers, so it has fuel:
    [NAME_FUEL] is 256, and [name_walk_terminates] proves that the walk never runs
    out, since each step consumes a label of at least two bytes from a 255-byte
    budget or one of 128 pointer hops. The suffix search of [conflict_loop] runs
    over the source's own range; the TXT decoder recurses with its length as fuel,
    which each string decreases. The loops of [CompositionGraph] ([kahn],
    [visit]) have the fuel their specification shows sufficient ([plan_exact] decides every
    input). The rounds of a turn have [max_rounds] as fuel, and running out is an [expect] that
    [session_moves_durable] shows unreachable; its stream and pause loops wait for others,
    so they have a bound on polls, past which the run is cut short; [turn_ends_recorded] shows
    that a stream and a pause that end within the bound let the turn end.
    [decimal] prints 20 digits, enough for 64 bits.
    The coordinator's programs are finite trees, so running one needs no fuel. The
    backtracking glob scan has the fuel [scan_bound], proved enough
    ([glob_scan_terminates]); the segmentation loops have the fuel their theorems
    show sufficient ([segmentation_contract] states that a result is produced).

    ** What the theorems show

    - [Coordinator]: under every interleaving the scheduler is never paused while
      the fence admits work, and the coordinator's state matches the fence unless a
      restart drain has taken it over; the
      contracts of [prepare] and [resume]; an abandoned lease is released by [poll]
      once it expires. [Admission]: the fence's invariant; a superseded lease can no
      longer move the fence; a held fence admits nothing; draining is one-way.
      [Suspension]: a suspended runtime has no work in flight and stays suspended until
      its lease is presented or expires; a drain has one owner, whose drop hands the
      runtime back; no wake-up is lost.
      [ActiveWork]: the idle decision and the report agree.
    - [Approval]: under every interleaving a tool call is approved only by an
      operator's answer to it, or by a standing answer for its session and tool when
      the caller is not authenticated; nothing authenticated is remembered; no
      pending entry outlives its waiter; a prompt is dismissed exactly once.
    - [TurnProtocol], over every run of a turn, wherever it is cut short: each state is stored
      before it is announced and is a legal move from the last one ([session_moves_durable]);
      the journal names a provider round before it is sent and every update of it is one
      the store accepts ([rounds_accounted_ahead]); the calls of a message are answered in
      order, and only calls that were asked for are made ([calls_answered_in_order]); what a
      tool or a goal change does comes after its description, binding, approval and audit
      ([effects_are_cleared]). [TurnEnding]: the turn ends and its record is the last thing
      saved. [TurnStream]: the assembler accepts exactly the streams that keep the contract,
      keeps interleaved calls apart and resumes where it was interrupted. [TurnState]: the
      machine follows the table and never forgets where a pause came from.
    - [Worker]: the controller refines a log of its grants: each answer is decided
      by the log alone. From it: a fenced generation never acts again, nothing is
      granted twice, an honest worker is served, refusals change nothing.
      [WorkerNames]: validation is exact, the hex form of secrets a bijection.
    - [DnsMessage]: the name decoder implements the wire format, terminates, and an
      accepted message is well formed with bounded expansion. [DnsCompression]: a
      message of the kind [decode] returns, once encoded, decodes to an equivalent one
      when no label contains a dot, and can decode to another otherwise. [DnsService]: resolution only uses live
      records of the zone; an announcement resolves to what it announces. [DnsName],
      [DnsTxt]: round trips.
    - [Circuit]: the probe budget over every interleaving, inertness of permits of
      an older epoch, the open window, refinement of a failure counter, recovery.
      [Retry]: the executor's contract for every environment, the delay windows and
      the schedule. [RetryAfter]: calendar arithmetic and dates. [Sse]: independence
      of chunk boundaries and of line endings, bounded memory, event round trip.
      [ProviderErrors]: sanitized text carries no control character.

    - [Ssrf]: an accepted target is an allowed scheme, host and port, and no address
      it resolves to is a special-use one; the address tables are exactly the
      documented ranges. [Pairing]: a device is paired only after a fresh challenge
      was signed by the key it is bound to and an authorized operator approved it;
      failures leave it unpaired; guesses are bounded. [Identity]: the signed
      handshake encoding is injective. [Authorization]: the decision's gates.
    - [Events]: under every schedule a connection receives the events offered to it
      in order and without a silent gap, and is told when it lagged; queues stay
      within their bounds; an event reaches only connections entitled to it.
      [GatewaySession]: a re-checked session acts within the grant in force, a lease
      dies with its grant, the frames written are accepted by the client's tracker.
    - [ToolRegistry]: whatever the tool, the broker, the sink and the clock do, an effect
      comes after a grant and its durable record, further resources are granted at a fresh
      time and recorded, and every result is on record. [Permissions]: the ledger answers
      what the history of its operations entitles to. [NativeTools]: a native call is
      granted nothing but what it prepared, for two minutes, and an error that invites a
      retry means that nothing happened. [ToolSchema]: validation is exact; an audit
      record cannot tell payloads apart that differ in withheld content or credentials,
      and is bounded. [SandboxPath]: the path policy is exact and canonical texts are
      stable.
    - [Glob]: the scanning matcher decides the declarative meaning of a pattern.
      [Patch]: application is exactly the declarative meaning of a diff on the lines of
      the file, down to the terminators written, refusals are classified, an inverted
      diff undoes it, printed diffs parse back.
    - [GoalHistory]: over every history of openings, operations, failing calls,
      deaths and power cuts within [valid_event], a goal whose save was acknowledged is listed again after
      the store is opened, opening succeeds and adopts whatever is on disk, the
      numbers in identifiers are not reissued; a save decides by revision and budget
      alone and stays within the ceilings; compaction removes only old progress.
      [Goals]: the file format round-trips and re-validates, the status machine.
    - [GoalTasks]: under every interleaving of service operations, with failures,
      dropped tasks and power cuts, replacing a session's goal never leaves the
      session without one, as long as it is not replaced or closed through the goal tool
      ([valid_request]); the service follows the status machine. [GoalService]:
      progress stays within its bound and loses no count.
    - [Commands]: whatever the built-in registry accepts lowers to an effect whose
      scope the caller holds; a command line, its words plain or quoted, parses back to
      what was written, refusals in their documented order;
      directives grant no authority and a direct tool call comes alone.
      [GoalCommands]: no line reaches the goal service without the write scope.
    - [MemorySession]: sessions keep their invariant whatever they were decoded from and
      whatever is done to them, and identifiers are never reused. [MemoryContext]: an
      assembled context costs what it says, fits the allowance, holds every anchor, a
      contiguous recent window that does not open on a tool result, the newest summaries
      and the best retrieved items, each until the next would not fit, and reports which
      messages and items it left out; compaction removes exactly the
      messages the summarizer was given, keeps anchors and recent messages and changes
      nothing on failure; the extractive summarizer never fails it. [MemoryRetrieval]:
      bounded buffers give the same answer as ranking everything, and a report that
      says it is complete is.
    - [CompositionGraph]: the plan exists exactly when the declared dependencies are
      resolvable and acyclic, its order is the lowest-index-first topological order, and a
      refusal names a real defect. [CompositionHost]: over every sequence of starts and
      shutdowns, each dropped anywhere, ingress is quiesced first, nothing is stopped before
      what depends on it, nothing twice and nothing untouched; a shutdown that is not
      dropped completes; startup is all or nothing and reports the first failure. [CompositionAuthority]: a grant is redeemed
      at most once, in the run it was minted in, before it expires, for the action that was
      allowed. [CompositionEgress]: the guard admits exactly the destinations its policy
      describes. [CompositionService]: every action of a turn is preceded by its own
      authorization, and a turn is recorded exactly when it is reported.
    - [Segmentation]: segments fit the limit, carry the text in order, keep clusters,
      line endings and code fences whole; the lazy and the eager form agree.

    Some theorems record where the code departs from its documentation or intent
    ([compression_confuses_dotted_labels], [non_ascii_date_panics],
    [impossible_date_accepted], [failed_pause_answers_recovering_unfenced],
    [busy_rollback_resumes_draining_host], [cancelled_backoff_hides_cancellation],
    [shutdown_reports_timeout], [clock_overflow_unaudited],
    [gateway_payload_ambiguous], [removed_comment_refused], [last_blank_line_lost],
    [untouched_ending_rewritten], [empty_queue_refuses],
    [dropping_the_replaced_subscription_ends_the_new_one],
    [targeted_event_breaks_sequence], [adopted_orphan_lost],
    [orphan_blocks_new_goal], [undecodable_save_blocks_reopening], [first_use_lost],
    [expired_lease_is_granted], [conflict_repair_strands_session],
    [adoption_strands_session], [entry_with_backslash], [redact_keeps_keys],
    [failed_startup_stops], [quiesce_is_repeated], [guard_is_weaker],
    [bracketed_literal_is_looked_up], [refused_completion_is_recorded]).

    ** Not modelled

    Network, file-system, terminal and user-interface code (channels, HTTP and
    WebSocket adapters, the apps), vendored engines (the WebAssembly host, the
    embedded database), telemetry, serde derivations and [Display] texts.

    Planned next, in this order: the conversation registry of claw-runtime; the provider
    rate limiter and jitter generator; the gateway handshake (claw-protocol). *)

From stdpp Require Export base tactics list numbers option relations gmap.
From Stdlib Require Export Strings.Byte.
From Stdlib Require Strings.String.
Export String.StringSyntax.

#[global] Open Scope Z_scope.

(** ** Machine integers

    Unsigned integers of the source are [Z] values; the width appears where the
    source's operation depends on it: [saturating_add], wrapping [+=] and
    conversions. *)

Definition u8_max : Z := 2 ^ 8 - 1.
Definition u16_max : Z := 2 ^ 16 - 1.
Definition u32_max : Z := 2 ^ 32 - 1.
Definition u64_max : Z := 2 ^ 64 - 1.

(** [x.saturating_add(y)] at the width whose largest value is [m]. *)
Definition sat_add (m x y : Z) : Z := Z.min (x + y) m.

(** [x.saturating_sub(y)] on any unsigned width. *)
Definition sat_sub (x y : Z) : Z := Z.max 0 (x - y).

(** [x += y] in a release build: the sum modulo the width. *)
Definition wrap_add (m x y : Z) : Z := (x + y) mod (m + 1).

(** [Vec::len], as the [usize] it is. *)
Definition len {A} (l : list A) : Z := Z.of_nat (length l).

(** ** Results

    Rust's [Result]; the error type comes first so that [result E] is a monad
    and stdpp's bind notation [x ← c; k] is the source's [?]. *)

Inductive result (E A : Type) : Type :=
| Ok (a : A)
| Err (e : E).
Arguments Ok {E A} a.
Arguments Err {E A} e.

#[export] Instance result_ret {E} : MRet (result E) := fun A a => Ok a.
#[export] Instance result_bind {E} : MBind (result E) :=
  fun A B k r => match r with Ok a => k a | Err e => Err e end.
#[export] Instance result_fmap {E} : FMap (result E) :=
  fun A B f r => match r with Ok a => Ok (f a) | Err e => Err e end.

Definition is_ok {E A} (r : result E A) : bool :=
  match r with Ok _ => true | Err _ => false end.

(** [opt.ok_or(e)] *)
Definition ok_or {E A} (e : E) (o : option A) : result E A :=
  match o with Some a => Ok a | None => Err e end.

(** [if b { return Err(e) }] *)
Definition ensure {E} (b : bool) (e : E) : result E unit :=
  if b then Ok tt else Err e.

Lemma bind_Ok {E A B} (r : result E A) (k : A → result E B) b :
  r ≫= k = Ok b ↔ ∃ a, r = Ok a ∧ k a = Ok b.
Proof.
  destruct r as [a|e]; cbn; split.
  - by exists a.
  - by intros (? & [= ->] & ?).
  - done.
  - by intros (? & ? & ?).
Qed.

Lemma ok_or_Ok {E A} (e : E) (o : option A) a : ok_or e o = Ok a ↔ o = Some a.
Proof. destruct o; naive_solver. Qed.

Lemma ensure_Ok {E} b (e : E) u : ensure b e = Ok u ↔ b = true.
Proof. destruct b, u; naive_solver. Qed.

(** ** Bytes

    [u8] is Stdlib's [byte]; [u8] below is its numeric value. A Rust [String]
    that the source only handles bytewise is the list of its UTF-8 bytes. *)

#[export] Instance byte_eq_decision : EqDecision byte := Byte.byte_eq_dec.

Abbreviation bytes := (list byte).

Definition u8 (b : byte) : Z := Z.of_N (Byte.to_N b).

(** [u8::try_from] where the source has bounded the argument: values outside
    [0, 255] do not occur and are sent to the null byte. *)
Definition byte_of (z : Z) : byte := default x00 (Byte.of_N (Z.to_N z)).

(** A string or byte-string literal. *)
Definition lit (s : String.string) : bytes := String.list_byte_of_string s.
Arguments lit s%_string_scope.

Lemma u8_range b : 0 ≤ u8 b ≤ 255.
Proof. unfold u8. pose proof (Byte.to_N_bounded b). lia. Qed.

Lemma byte_of_u8 b : byte_of (u8 b) = b.
Proof. unfold byte_of, u8. by rewrite N2Z.id, Byte.of_to_N. Qed.

Lemma u8_inj b c : u8 b = u8 c → b = c.
Proof. intros H. by rewrite <- (byte_of_u8 b), H, byte_of_u8. Qed.

Lemma u8_byte_of z : 0 ≤ z ≤ 255 → u8 (byte_of z) = z.
Proof.
  intros Hz. unfold byte_of, u8.
  destruct (Byte.of_N (Z.to_N z)) as [b|] eqn:E; simpl.
  - apply Byte.to_of_N in E. lia.
  - apply Byte.of_N_None_iff in E. lia.
Qed.

#[export] Program Instance byte_countable : Countable byte :=
  inj_countable' u8 byte_of byte_of_u8.

(** [u8::to_ascii_lowercase] and [u8::eq_ignore_ascii_case]. *)
Definition to_ascii_lowercase (b : byte) : byte :=
  if (65 <=? u8 b) && (u8 b <=? 90) then byte_of (u8 b + 32) else b.

Definition eq_ignore_ascii_case (a b : byte) : bool :=
  Byte.eqb (to_ascii_lowercase a) (to_ascii_lowercase b).

(** [u8::is_ascii_digit] *)
Definition is_ascii_digit (b : byte) : bool := (48 <=? u8 b) && (u8 b <=? 57).

(** The value of a string of ASCII digits. *)
Definition digits_value (value : bytes) : Z :=
  foldl (λ n b, n * 10 + (u8 b - 48)) 0 value.

(** [u32] and [u64] in decimal, as [{}] prints them; 20 digits are enough. *)
Fixpoint decimal_digits (fuel : nat) (z : Z) : bytes :=
  match fuel with
  | O => []
  | S fuel =>
      if z <? 10 then [byte_of (48 + z)]
      else decimal_digits fuel (z / 10) ++ [byte_of (48 + z mod 10)]
  end.

Definition decimal (z : Z) : bytes := decimal_digits 20 z.

(** ** Automation *)

Create HintDb claw.
Create Rewrite HintDb claw.

#[export] Hint Rewrite @bind_Ok @ok_or_Ok @ensure_Ok : claw.

(** Destruct every conjunction, existential and pair equation in the context,
    and open the binds of a computation known to have returned [Ok]. *)
Ltac inv_ok :=
  repeat match goal with
  | H : _ ≫= _ = Ok _ |- _ => apply bind_Ok in H
  | H : ok_or _ _ = Ok _ |- _ => apply ok_or_Ok in H
  | H : ensure _ _ = Ok _ |- _ => apply ensure_Ok in H
  | H : Ok _ = Ok _ |- _ => apply (inj Ok) in H
  | H : ∃ _, _ |- _ => destruct H
  | H : _ ∧ _ |- _ => destruct H
  end; simplify_eq/=.

#[export] Instance Ok_inj {E A} : Inj (=) (=) (@Ok E A).
Proof. by intros ?? [=]. Qed.

(** Case on the scrutinee of a [match] or [if] in the goal, with an equation. *)
Ltac split_match :=
  match goal with
  | |- context [match ?x with _ => _ end] => destruct x eqn:?
  end.

(** Turn boolean comparisons of hypotheses into propositions for [lia]. *)
Ltac boolify :=
  repeat match goal with
  | H : (_ && _) = true |- _ => apply andb_true_iff in H; destruct H
  | H : (_ || _) = false |- _ => apply orb_false_iff in H; destruct H
  | H : negb _ = true |- _ => apply negb_true_iff in H
  | H : negb _ = false |- _ => apply negb_false_iff in H
  | H : (_ <? _) = true |- _ => apply Z.ltb_lt in H
  | H : (_ <? _) = false |- _ => apply Z.ltb_ge in H
  | H : (_ <=? _) = true |- _ => apply Z.leb_le in H
  | H : (_ <=? _) = false |- _ => apply Z.leb_gt in H
  | H : (_ =? _) = true |- _ => apply Z.eqb_eq in H
  | H : (_ =? _) = false |- _ => apply Z.eqb_neq in H
  end.

(** ** Generic lemmas *)

Lemma len_nonneg {A} (l : list A) : 0 ≤ len l.
Proof. unfold len. lia. Qed.

Lemma len_app {A} (l k : list A) : len (l ++ k) = len l + len k.
Proof. unfold len. rewrite length_app. lia. Qed.

Lemma len_cons {A} (x : A) l : len (x :: l) = 1 + len l.
Proof. unfold len. simpl. lia. Qed.

Lemma len_nil {A} : len (@nil A) = 0.
Proof. done. Qed.

#[export] Hint Rewrite @len_app @len_cons @len_nil : claw.
#[export] Hint Resolve len_nonneg u8_range : claw.

Lemma byte_eqb_eq a b : Byte.eqb a b = true ↔ a = b.
Proof.
  split; [apply Byte.byte_dec_bl|]. intros ->. by apply Byte.byte_dec_lb.
Qed.

Lemma byte_eqb_neq a b : Byte.eqb a b = false ↔ a ≠ b.
Proof. rewrite <- byte_eqb_eq. destruct (Byte.eqb a b); naive_solver. Qed.

Lemma byte_eqb_refl b : Byte.eqb b b = true.
Proof. by apply byte_eqb_eq. Qed.

#[export] Hint Rewrite byte_eqb_refl : claw.

(** Decimal printing inverts [digits_value]. *)
Lemma digits_value_snoc l b : digits_value (l ++ [b]) = digits_value l * 10 + (u8 b - 48).
Proof. unfold digits_value. by rewrite foldl_app. Qed.

Lemma decimal_digits_ok fuel z :
  0 ≤ z < 10 ^ Z.of_nat fuel →
  digits_value (decimal_digits fuel z) = z ∧
  Forall (λ b, is_ascii_digit b = true) (decimal_digits fuel z) ∧
  (length (decimal_digits fuel z) ≤ fuel)%nat ∧ (z < 1 ∧ fuel = 0%nat ∨ decimal_digits fuel z ≠ []).
Proof.
  revert z. induction fuel as [|fuel IH]; intros z Hz; [cbn in *; split_and!; (done || lia || left; lia)|].
  assert (∀ d, 0 ≤ d < 10 → is_ascii_digit (byte_of (48 + d)) = true ∧ u8 (byte_of (48 + d)) - 48 = d) as Hd.
  { intros d Hd. unfold is_ascii_digit. rewrite u8_byte_of by lia. split; lia. }
  cbn [decimal_digits]. destruct (z <? 10) eqn:E; boolify.
  - destruct (Hd z) as [H1 H2]; [lia|]. split_and!; [cbn; lia|by constructor|cbn; lia|by right].
  - pose proof (Z.div_mod z 10 ltac:(done)). pose proof (Z.mod_pos_bound z 10 ltac:(done)).
    destruct (Hd (z mod 10)) as [H1 H2]; [lia|].
    destruct (IH (z / 10)) as (Hv & Hf & Hl & _).
    { replace (Z.of_nat (S fuel)) with (1 + Z.of_nat fuel) in Hz by lia.
      rewrite Z.pow_add_r in Hz by lia. change (10 ^ 1) with 10 in Hz.
      split; [apply Z.div_pos; lia|]. apply Z.div_lt_upper_bound; lia. }
    rewrite digits_value_snoc, Hv. split_and!; [lia| | |].
    + apply Forall_app. split; [done|]. by constructor.
    + rewrite length_app. cbn. lia.
    + right. by destruct (decimal_digits fuel (z / 10)).
Qed.

Lemma decimal_ok z :
  0 ≤ z ≤ u64_max →
  digits_value (decimal z) = z ∧ Forall (λ b, is_ascii_digit b = true) (decimal z) ∧
  (length (decimal z) ≤ 20)%nat ∧ decimal z ≠ [].
Proof.
  intros Hz. unfold decimal. destruct (decimal_digits_ok 20 z) as (H1 & H2 & H3 & [[_ ?]|H4]);
    [|done|done]. change (10 ^ Z.of_nat 20) with 100000000000000000000.
  change u64_max with 18446744073709551615 in Hz. lia.
Qed.

(** Where an element of [h ++ [x]] is. *)
Lemma snoc_split {A} (h : list A) x a y b :
  h ++ [x] = a ++ y :: b → (b = [] ∧ h = a ∧ x = y) ∨ ∃ b', b = b' ++ [x] ∧ h = a ++ y :: b'.
Proof.
  intros Heq. induction b as [|z b _] using rev_ind.
  - left. by apply app_inj_tail in Heq as [-> ->].
  - right. exists b. rewrite app_comm_cons, app_assoc in Heq. by apply app_inj_tail in Heq as [-> ->].
Qed.

Lemma filter_id {A} (P : A → Prop) `{!∀ x, Decision (P x)} (l : list A) : (∀ x, x ∈ l → P x) → filter P l = l.
Proof.
  induction l as [|x l IH]; intros Hl; [done|]. rewrite filter_cons, decide_True by (apply Hl; left).
  f_equal. apply IH. intros y Hy. apply Hl. by right.
Qed.
