(* ===== verification/Utf8.v ===== *)
(** * Text

    What the sources use of Rust's text types: [char] as its Unicode scalar
    value, [str] as a list of [char]s where the code iterates over characters,
    and as its UTF-8 bytes where the code is bytewise. [utf8_decode] is
    [String::from_utf8]: it accepts exactly the well-formed sequences of the
    Unicode standard (no overlong forms, no surrogates, nothing above
    U+10FFFF). *)

From S2P Require Import Prelude.

Abbreviation str := (list Z).

(** The code points a [char] may hold. *)
Definition is_scalar (c : Z) : bool :=
  ((0 <=? c) && (c <? 0xD800)) || ((0xE000 <=? c) && (c <=? 0x10FFFF)).

(** [char::encode_utf8] *)
Definition encode_char (c : Z) : bytes :=
  if c <? 0x80 then [byte_of c]
  else if c <? 0x800 then [byte_of (0xC0 + c / 64); byte_of (0x80 + c mod 64)]
  else if c <? 0x10000 then
    [byte_of (0xE0 + c / 4096); byte_of (0x80 + c / 64 mod 64); byte_of (0x80 + c mod 64)]
  else
    [byte_of (0xF0 + c / 262144); byte_of (0x80 + c / 4096 mod 64);
     byte_of (0x80 + c / 64 mod 64); byte_of (0x80 + c mod 64)].

(** [str::as_bytes] *)
Definition as_bytes (s : str) : bytes := concat (encode_char <$> s).

Definition in_range (lo hi : Z) (b : byte) : bool := (lo <=? u8 b) && (u8 b <=? hi).

Definition is_cont (b : byte) : bool := in_range 0x80 0xBF b.

Definition cont_bits (b : byte) : Z := u8 b - 0x80.

(** The second byte of a three- or four-byte sequence, by its lead byte. *)
Definition second3_ok (lead second : byte) : bool :=
  if u8 lead =? 0xE0 then in_range 0xA0 0xBF second
  else if u8 lead =? 0xED then in_range 0x80 0x9F second
  else is_cont second.

Definition second4_ok (lead second : byte) : bool :=
  if u8 lead =? 0xF0 then in_range 0x90 0xBF second
  else if u8 lead =? 0xF4 then in_range 0x80 0x8F second
  else is_cont second.

Fixpoint utf8_decode (s : bytes) : option str :=
  match s with
  | [] => Some []
  | b :: r =>
      if u8 b <? 0x80 then cons (u8 b) <$> utf8_decode r
      else if in_range 0xC2 0xDF b then
        match r with
        | b1 :: r1 =>
            if is_cont b1 then
              cons ((u8 b - 0xC0) * 64 + cont_bits b1) <$> utf8_decode r1
            else None
        | _ => None
        end
      else if in_range 0xE0 0xEF b then
        match r with
        | b1 :: b2 :: r2 =>
            if second3_ok b b1 && is_cont b2 then
              cons ((u8 b - 0xE0) * 4096 + cont_bits b1 * 64 + cont_bits b2) <$> utf8_decode r2
            else None
        | _ => None
        end
      else if in_range 0xF0 0xF4 b then
        match r with
        | b1 :: b2 :: b3 :: r3 =>
            if second4_ok b b1 && is_cont b2 && is_cont b3 then
              cons ((u8 b - 0xF0) * 262144 + cont_bits b1 * 4096 + cont_bits b2 * 64
                    + cont_bits b3) <$> utf8_decode r3
            else None
        | _ => None
        end
      else None
  end.

(** [String::from_utf8(bytes).is_ok()] *)
Definition utf8_valid (s : bytes) : bool :=
  match utf8_decode s with Some _ => true | None => false end.

(** The UTF-8 form of U+FFFD. *)
Definition REPLACEMENT : bytes := [xef; xbf; xbd].

(** [String::from_utf8_lossy]: each maximal ill-formed part becomes U+FFFD. *)
Fixpoint from_utf8_lossy (s : bytes) : bytes :=
  match s with
  | [] => []
  | b :: r =>
      if u8 b <? 0x80 then b :: from_utf8_lossy r
      else if in_range 0xC2 0xDF b then
        match r with
        | b1 :: r1 =>
            if is_cont b1 then b :: b1 :: from_utf8_lossy r1 else REPLACEMENT ++ from_utf8_lossy r
        | [] => REPLACEMENT
        end
      else if in_range 0xE0 0xEF b then
        match r with
        | b1 :: r1 =>
            if second3_ok b b1 then
              match r1 with
              | b2 :: r2 =>
                  if is_cont b2 then b :: b1 :: b2 :: from_utf8_lossy r2
                  else REPLACEMENT ++ from_utf8_lossy r1
              | [] => REPLACEMENT
              end
            else REPLACEMENT ++ from_utf8_lossy r
        | [] => REPLACEMENT
        end
      else if in_range 0xF0 0xF4 b then
        match r with
        | b1 :: r1 =>
            if second4_ok b b1 then
              match r1 with
              | b2 :: r2 =>
                  if is_cont b2 then
                    match r2 with
                    | b3 :: r3 =>
                        if is_cont b3 then b :: b1 :: b2 :: b3 :: from_utf8_lossy r3
                        else REPLACEMENT ++ from_utf8_lossy r2
                    | [] => REPLACEMENT
                    end
                  else REPLACEMENT ++ from_utf8_lossy r1
              | [] => REPLACEMENT
              end
            else REPLACEMENT ++ from_utf8_lossy r
        | [] => REPLACEMENT
        end
      else REPLACEMENT ++ from_utf8_lossy r
  end.

(** [char::len_utf16] *)
Definition len_utf16 (c : Z) : Z := if c <? 0x10000 then 1 else 2.

(** [char::is_whitespace]: the Unicode White_Space property. *)
Definition is_whitespace (c : Z) : bool :=
  ((0x09 <=? c) && (c <=? 0x0D)) || (c =? 0x20) || (c =? 0x85) || (c =? 0xA0)
  || (c =? 0x1680) || ((0x2000 <=? c) && (c <=? 0x200A)) || (c =? 0x2028) || (c =? 0x2029)
  || (c =? 0x202F) || (c =? 0x205F) || (c =? 0x3000).

(** [char::is_control]: the general category Cc. *)
Definition is_control (c : Z) : bool :=
  ((0 <=? c) && (c <=? 0x1F)) || ((0x7F <=? c) && (c <=? 0x9F)).

Fixpoint trim_start (s : str) : str :=
  match s with
  | c :: s' => if is_whitespace c then trim_start s' else s
  | [] => []
  end.

(** [str::trim] *)
Definition trim (s : str) : str := reverse (trim_start (reverse (trim_start s))).

(** Trimming keeps a sublist. *)
Lemma trim_start_suffix s : ∃ pre, s = pre ++ trim_start s.
Proof.
  induction s as [|c s [pre IH]]; cbn; [by exists []|].
  destruct (is_whitespace c); [exists (c :: pre); cbn; by rewrite <- IH|by exists []].
Qed.

Lemma trim_infix s : ∃ pre post, s = pre ++ trim s ++ post.
Proof.
  destruct (trim_start_suffix s) as [pre Hpre].
  destruct (trim_start_suffix (reverse (trim_start s))) as [post Hpost].
  exists pre, (reverse post). unfold trim.
  rewrite <- reverse_app, <- Hpost, reverse_involutive. done.
Qed.

Lemma Forall_trim (P : Z → Prop) s : Forall P s → Forall P (trim s).
Proof.
  destruct (trim_infix s) as (pre & post & Hs). rewrite Hs at 1. rewrite !Forall_app. tauto.
Qed.

Lemma len_trim s : len (trim s) ≤ len s.
Proof.
  destruct (trim_infix s) as (pre & post & Hs). rewrite Hs at 2. rewrite !len_app.
  pose proof (len_nonneg pre). pose proof (len_nonneg post). lia.
Qed.

(** An ASCII literal as characters. *)
Definition chars (s : String.string) : str := u8 <$> lit s.
Arguments chars s%_string_scope.

(** ** Encoding and decoding *)

Lemma is_scalar_range c :
  is_scalar c = true → 0 ≤ c ≤ 0x10FFFF ∧ ¬ (0xD800 ≤ c < 0xE000).
Proof. unfold is_scalar. lia. Qed.

Lemma u8_0x80_add z : 0 ≤ z < 64 → u8 (byte_of (0x80 + z)) = 0x80 + z.
Proof. intros. apply u8_byte_of. lia. Qed.

Lemma decode_encode_char c s :
  is_scalar c = true →
  utf8_decode (encode_char c ++ s) = cons c <$> utf8_decode s.
Proof.
  intros Hc%is_scalar_range.
  assert (0 ≤ c mod 64 < 64) by (apply Z.mod_pos_bound; lia).
  assert (0 ≤ c / 64 mod 64 < 64) by (apply Z.mod_pos_bound; lia).
  assert (0 ≤ c / 4096 mod 64 < 64) by (apply Z.mod_pos_bound; lia).
  pose proof (Z.div_mod c 64 ltac:(lia)) as D1.
  pose proof (Z.div_mod (c / 64) 64 ltac:(lia)) as D2.
  pose proof (Z.div_mod (c / 4096) 64 ltac:(lia)) as D3.
  rewrite Z.div_div in D2 by lia. rewrite Z.div_div in D3 by lia. change (64 * 64) with 4096 in D2. change (4096 * 64) with 262144 in D3.
  unfold encode_char.
  destruct (c <? 0x80) eqn:E1; [|destruct (c <? 0x800) eqn:E2;
    [|destruct (c <? 0x10000) eqn:E3]]; boolify; simpl;
    rewrite ?u8_0x80_add by lia; rewrite !u8_byte_of by lia;
    unfold in_range, second3_ok, second4_ok, is_cont, in_range, cont_bits;
    rewrite ?u8_0x80_add by lia; rewrite ?u8_byte_of by lia.
  - by replace (c <? 0x80) with true by lia.
  - replace (_ <? 0x80) with false by lia.
    replace (_ && _) with true by lia. replace (_ && _) with true by lia.
    f_equal. f_equal. lia.
  - replace (_ <? 0x80) with false by lia.
    replace ((0xC2 <=? _) && _) with false by lia.
    replace ((0xE0 <=? _) && _) with true by lia.
    replace (_ && _) with true.
    { f_equal. f_equal. lia. }
    symmetry. rewrite !andb_true_iff.
    destruct (0xE0 + c / 4096 =? 0xE0) eqn:?; [|destruct (0xE0 + c / 4096 =? 0xED) eqn:?];
      lia.
  - replace (_ <? 0x80) with false by lia.
    replace ((0xC2 <=? _) && _) with false by lia.
    replace ((0xE0 <=? _) && _) with false by lia.
    replace ((0xF0 <=? _) && _) with true by lia.
    replace (_ && _) with true.
    { f_equal. f_equal. lia. }
    symmetry. rewrite !andb_true_iff.
    destruct (0xF0 + c / 262144 =? 0xF0) eqn:?; [|destruct (0xF0 + c / 262144 =? 0xF4) eqn:?];
      lia.
Qed.

Lemma utf8_decode_app_Some s t x :
  utf8_decode s = Some x → utf8_decode (s ++ t) = (app x) <$> utf8_decode t.
Proof.
  remember (length s) as n eqn:Hn. assert (length s ≤ n)%nat as Hle by lia. clear Hn.
  revert s x Hle. induction n as [|n IH]; intros s x Hle.
  { destruct s; simpl in *; [|lia]. intros [= <-]. by destruct (utf8_decode t). }
  assert (∀ s' x' c, (length s' ≤ n)%nat → cons c <$> utf8_decode s' = Some x' →
    cons c <$> utf8_decode (s' ++ t) = app x' <$> utf8_decode t) as Hstep.
  { intros s' x' c Hl. destruct (utf8_decode s') eqn:E; simpl; [|done]. intros [= <-].
    rewrite (IH s' _ Hl E). by destruct (utf8_decode t). }
  destruct s as [|b r]; simpl; [intros [= <-]; by destruct (utf8_decode t)|]. simpl in Hle.
  repeat case_match; simplify_eq/=; try congruence; intros; eapply Hstep; simpl; try done; lia.
Qed.

(** [String::from_utf8] of the bytes of a string gives the string back. *)
Lemma decode_as_bytes (s : str) :
  Forall (λ c, is_scalar c = true) s → utf8_decode (as_bytes s) = Some s.
Proof.
  induction 1 as [|c s Hc _ IH]; [done|].
  change (as_bytes (c :: s)) with (encode_char c ++ as_bytes s).
  by rewrite decode_encode_char, IH.
Qed.

Lemma utf8_valid_app s t : utf8_valid s = true → utf8_valid (s ++ t) = utf8_valid t.
Proof.
  unfold utf8_valid. destruct (utf8_decode s) eqn:E; [|done]. intros _.
  rewrite (utf8_decode_app_Some _ _ _ E). by destruct (utf8_decode t).
Qed.

Lemma utf8_valid_ascii s : Forall (λ b, u8 b < 0x80) s → utf8_valid s = true.
Proof.
  unfold utf8_valid. induction 1 as [|b s Hb _ IH]; [done|]. simpl.
  replace (u8 b <? 0x80) with true by lia. by destruct (utf8_decode s).
Qed.
