(* ===== verification/Text.v ===== *)
(** * Text operations

    What the sources use of [str]'s searching and splitting methods, on any list:
    a [str] handled by characters or by bytes alike. *)

From S2P Require Import Prelude Utf8.

(** A character takes between one and four bytes. *)
Lemma len_encode_char c : 1 ≤ len (encode_char c) ≤ 4.
Proof. unfold encode_char, len. repeat case_match; cbn; lia. Qed.

Lemma len_as_bytes (s : str) : len s ≤ len (as_bytes s) ≤ 4 * len s.
Proof.
  unfold as_bytes. induction s as [|c s IH]; [done|]. rewrite fmap_cons. cbn [concat].
  rewrite len_app, len_cons. pose proof (len_encode_char c). lia.
Qed.

Section Split.
Context {A : Type}.
Implicit Types (sep : A → bool) (s acc : list A).

(** [s.split(pattern)] for a pattern that is a set of characters: one piece more
    than there are separators. [acc] is the current piece, reversed. *)
Fixpoint split_loop sep acc s : list (list A) :=
  match s with
  | [] => [reverse acc]
  | c :: s => if sep c then reverse acc :: split_loop sep [] s else split_loop sep (c :: acc) s
  end.

Definition split sep s : list (list A) := split_loop sep [] s.

(** [s.split_once(c)] *)
Fixpoint split_once sep s : option (list A * list A) :=
  match s with
  | [] => None
  | c :: s =>
      if sep c then Some ([], s)
      else match split_once sep s with Some (a, b) => Some (c :: a, b) | None => None end
  end.

(** [iter.any(p)] and [iter.all(p)] on the elements. *)
Definition any (p : A → bool) s : bool := existsb p s.
Definition all (p : A → bool) s : bool := forallb p s.

Lemma any_true p s : any p s = true ↔ ∃ x, x ∈ s ∧ p x = true.
Proof.
  unfold any. rewrite existsb_exists. setoid_rewrite list_elem_of_In. done.
Qed.

Lemma any_false p s : any p s = false ↔ Forall (λ x, p x = false) s.
Proof.
  induction s as [|x s IH]; cbn; [by split; [constructor|]|].
  rewrite orb_false_iff, Forall_cons. unfold any in IH. by rewrite IH.
Qed.

Lemma all_true p s : all p s = true ↔ Forall (λ x, p x = true) s.
Proof.
  induction s as [|x s IH]; cbn; [by split; [constructor|]|].
  rewrite andb_true_iff, Forall_cons. unfold all in IH. by rewrite IH.
Qed.

(** A property of every character holds in every piece. *)
Lemma split_loop_Forall sep (P : A → Prop) s acc :
  Forall P s → Forall P acc → Forall (λ p, Forall P p) (split_loop sep acc s).
Proof.
  revert acc. induction s as [|c s IH]; intros acc Hs Ha; cbn.
  { constructor; [|done]. by apply Forall_reverse. }
  apply Forall_cons in Hs as [Hc Hs].
  destruct (sep c); [constructor; [by apply Forall_reverse|by apply IH]|].
  apply IH; [done|]. by constructor.
Qed.

Lemma split_Forall sep (P : A → Prop) s : Forall P s → Forall (λ p, Forall P p) (split sep s).
Proof. intros. by apply split_loop_Forall. Qed.

(** No piece contains a separator. *)
Lemma split_loop_no_sep sep s acc :
  Forall (λ c, sep c = false) acc →
  Forall (λ p, Forall (λ c, sep c = false) p) (split_loop sep acc s).
Proof.
  revert acc. induction s as [|c s IH]; intros acc Ha; cbn.
  { constructor; [|done]. by apply Forall_reverse. }
  destruct (sep c) eqn:E; [constructor; [by apply Forall_reverse|by apply IH]|].
  apply IH. by constructor.
Qed.

Lemma split_no_sep sep s : Forall (λ p, Forall (λ c, sep c = false) p) (split sep s).
Proof. by apply split_loop_no_sep. Qed.

Lemma split_loop_length sep s acc : (1 ≤ length (split_loop sep acc s))%nat.
Proof.
  revert acc. induction s as [|c s IH]; intros acc; cbn; [lia|].
  destruct (sep c); cbn; [lia|apply IH].
Qed.

(** Pieces and the separators between them are the string. *)
Lemma split_loop_size sep s acc :
  (list_sum (length <$> split_loop sep acc s) + length (split_loop sep acc s)
   = S (length acc + length s))%nat.
Proof.
  revert acc. induction s as [|c s IH]; intros acc; cbn [split_loop].
  { cbn. rewrite length_reverse. lia. }
  destruct (sep c); [|rewrite IH; cbn; lia].
  specialize (IH []). rewrite fmap_cons. cbn [list_sum foldr length] in *.
  rewrite length_reverse. unfold list_sum in *. lia.
Qed.

(** What holds of every piece holds of every character that is no separator. *)
Lemma split_loop_Forall_inv sep (P : A → Prop) s acc :
  Forall (Forall P) (split_loop sep acc s) → Forall (λ c, sep c = true ∨ P c) s ∧ Forall P acc.
Proof.
  revert acc. induction s as [|c s IH]; intros acc; cbn [split_loop].
  { rewrite Forall_singleton, Forall_reverse. by split; [constructor|]. }
  destruct (sep c) eqn:E.
  - rewrite Forall_cons, Forall_reverse. intros [Ha Hs]. split; [|done].
    constructor; [by left|by apply (IH [])].
  - intros [Hs [Hc Ha]%Forall_cons]%IH. split; [|done]. constructor; [by right|done].
Qed.

Lemma split_Forall_inv sep (P : A → Prop) s :
  Forall (Forall P) (split sep s) → Forall (λ c, sep c = true ∨ P c) s.
Proof. intros H. by apply (split_loop_Forall_inv sep P s []). Qed.

(** A trailing separator leaves an empty piece. *)
Lemma split_loop_trailing sep s c acc : sep c = true → [] ∈ split_loop sep acc (s ++ [c]).
Proof.
  intros Hc. revert acc. induction s as [|d s IH]; intros acc; cbn.
  - rewrite Hc. apply list_elem_of_further. by apply list_elem_of_here.
  - destruct (sep d); [apply list_elem_of_further|]; apply IH.
Qed.

Lemma split_piece_length sep s i p :
  split sep s !! i = Some p → (length p ≤ length s)%nat.
Proof.
  intros Hp. pose proof (split_loop_size sep s []) as Hs. fold (split sep s) in Hs.
  apply list_elem_of_lookup_2, list_elem_of_split in Hp as (l1 & l2 & Hp). rewrite Hp in Hs.
  rewrite fmap_app, list_sum_app, length_app in Hs. cbn in Hs. lia.
Qed.

Lemma split_loop_sep_free sep s acc :
  Forall (λ c, sep c = false) s → split_loop sep acc s = [reverse acc ++ s].
Proof.
  revert acc. induction s as [|c s IH]; intros acc Hs; cbn; [by rewrite app_nil_r|].
  apply Forall_cons in Hs as [-> Hs]. rewrite IH by done.
  by rewrite reverse_cons, <- app_assoc.
Qed.

Lemma split_loop_app sep s t c acc :
  Forall (λ c, sep c = false) s → sep c = true →
  split_loop sep acc (s ++ c :: t) = (reverse acc ++ s) :: split sep t.
Proof.
  revert acc. induction s as [|d s IH]; intros acc Hs Hc; cbn.
  { rewrite Hc. by rewrite app_nil_r. }
  apply Forall_cons in Hs as [-> Hs]. rewrite IH by done.
  by rewrite reverse_cons, <- app_assoc.
Qed.

Lemma split_app sep s t c :
  Forall (λ c, sep c = false) s → sep c = true → split sep (s ++ c :: t) = s :: split sep t.
Proof. intros. unfold split at 1. by rewrite split_loop_app. Qed.

Lemma split_once_Some sep s a b :
  split_once sep s = Some (a, b) →
  ∃ c, s = a ++ c :: b ∧ sep c = true ∧ Forall (λ c, sep c = false) a.
Proof.
  revert a. induction s as [|d s IH]; intros a; cbn; [done|].
  destruct (sep d) eqn:E; [intros [= <- <-]; by exists d|].
  destruct (split_once sep s) as [[a' b']|]; [|done]. intros [= <- ->].
  destruct (IH a' eq_refl) as (c & -> & Hc & Ha). exists c. split_and!; [done|done|by constructor].
Qed.

Lemma split_once_None sep s : split_once sep s = None ↔ Forall (λ c, sep c = false) s.
Proof.
  induction s as [|d s IH]; cbn; [by split; [constructor|]|]. rewrite Forall_cons.
  destruct (sep d) eqn:E; [by split; [|intros []]|].
  destruct (split_once sep s) as [[a b]|]; rewrite <- IH; naive_solver.
Qed.

(** Searching for a separator stops at the first one. *)
Lemma split_once_first sep a c b :
  Forall (λ c, sep c = false) a → sep c = true → split_once sep (a ++ c :: b) = Some (a, b).
Proof.
  intros Ha Hc. induction Ha as [|d a Hd Ha IH]; cbn; [by rewrite Hc|]. by rewrite Hd, IH.
Qed.

Lemma split_loop_snoc sep s c acc : sep c = true → split_loop sep acc (s ++ [c]) = split_loop sep acc s ++ [[]].
Proof.
  intros Hc. revert acc. induction s as [|d s IH]; intros acc; cbn; [by rewrite Hc|].
  destruct (sep d); cbn; by rewrite IH.
Qed.

Lemma split_snoc sep s c : sep c = true → split sep (s ++ [c]) = split sep s ++ [[]].
Proof. apply split_loop_snoc. Qed.

End Split.

(** [s.starts_with(prefix)], [s.strip_prefix(prefix)], [s.ends_with(suffix)] and
    [s.contains(needle)], for strings compared exactly. *)
Section Search.
Context {A : Type} `{!EqDecision A}.
Implicit Types s p : list A.

Fixpoint strip_prefix p s : option (list A) :=
  match p, s with
  | [], _ => Some s
  | c :: p, d :: s => if decide (c = d) then strip_prefix p s else None
  | _ :: _, [] => None
  end.

Definition starts_with p s : bool := bool_decide (is_Some (strip_prefix p s)).

Definition strip_suffix p s : option (list A) := reverse <$> strip_prefix (reverse p) (reverse s).

Definition ends_with p s : bool := bool_decide (is_Some (strip_suffix p s)).

Lemma strip_prefix_Some p s t : strip_prefix p s = Some t ↔ s = p ++ t.
Proof.
  revert s. induction p as [|c p IH]; intros [|d s]; cbn; try naive_solver.
  destruct (decide (c = d)) as [->|]; [rewrite IH|]; naive_solver.
Qed.

Lemma strip_suffix_Some p s t : strip_suffix p s = Some t ↔ s = t ++ p.
Proof.
  unfold strip_suffix. rewrite fmap_Some. setoid_rewrite strip_prefix_Some. split.
  - intros (x & Hx & ->). apply (f_equal reverse) in Hx.
    by rewrite reverse_involutive, reverse_app, reverse_involutive in Hx.
  - intros ->. exists (reverse t). by rewrite reverse_app, reverse_involutive.
Qed.

Lemma starts_with_true p s : starts_with p s = true ↔ ∃ t, s = p ++ t.
Proof.
  unfold starts_with. rewrite bool_decide_eq_true. unfold is_Some.
  by setoid_rewrite strip_prefix_Some.
Qed.

Lemma ends_with_true p s : ends_with p s = true ↔ ∃ t, s = t ++ p.
Proof.
  unfold ends_with. rewrite bool_decide_eq_true. unfold is_Some.
  by setoid_rewrite strip_suffix_Some.
Qed.

(** [s.find(needle)], as the text before and after the first occurrence. *)
Fixpoint find_str (needle s : list A) : option (list A * list A) :=
  match strip_prefix needle s with
  | Some rest => Some ([], rest)
  | None =>
      match s with
      | [] => None
      | c :: s => match find_str needle s with Some (a, b) => Some (c :: a, b) | None => None end
      end
  end.

Lemma find_str_Some needle s a b : find_str needle s = Some (a, b) → s = a ++ needle ++ b.
Proof.
  revert a. induction s as [|c s IH]; intros a; cbn.
  - destruct (strip_prefix needle []) as [r|] eqn:E; [|done]. intros [= <- <-].
    by apply strip_prefix_Some in E.
  - destruct (strip_prefix needle (c :: s)) as [r|] eqn:E; [intros [= <- <-]; by apply strip_prefix_Some in E|].
    destruct (find_str needle s) as [[a' b']|]; [|done]. intros [= <- ->]. cbn. by rewrite (IH a').
Qed.

Lemma find_str_None needle s a b : find_str needle s = None → s ≠ a ++ needle ++ b.
Proof.
  revert a. induction s as [|c s IH]; intros a; cbn.
  - destruct (strip_prefix needle []) eqn:E; [done|]. intros _ Hs.
    symmetry in Hs. apply app_eq_nil in Hs as [_ [-> ->]%app_eq_nil]. done.
  - destruct (strip_prefix needle (c :: s)) eqn:E; [done|].
    destruct (find_str needle s) as [[]|]; [done|]. intros _ Hs. destruct a as [|d a]; cbn in Hs.
    + apply strip_prefix_Some in Hs. congruence.
    + injection Hs as -> Hs. by apply (IH a).
Qed.

Lemma strip_prefix_head c p d s : c ≠ d → strip_prefix (c :: p) (d :: s) = None.
Proof. intros H. cbn. by rewrite decide_False. Qed.

Lemma find_str_first c n a b :
  Forall (λ d, d ≠ c) a → find_str (c :: n) (a ++ (c :: n) ++ b) = Some (a, b).
Proof.
  induction 1 as [|d a Hd Ha IH].
  - assert (strip_prefix (c :: n) ((c :: n) ++ b) = Some b) as E by by apply strip_prefix_Some.
    cbn [app] in *. cbn [find_str]. by rewrite E.
  - cbn [app find_str]. rewrite strip_prefix_head by congruence. cbn [app] in IH. by rewrite IH.
Qed.

End Search.

(** [trim] removes the white space around a text that starts and ends without. *)
Lemma trim_start_pad pre s :
  Forall (λ c, is_whitespace c = true) pre → trim_start (pre ++ s) = trim_start s.
Proof. induction 1 as [|c pre Hc _ IH]; cbn; [done|]. by rewrite Hc. Qed.

Lemma trim_start_solid s : (∀ c t, s = c :: t → is_whitespace c = false) → trim_start s = s.
Proof. destruct s as [|c t]; [done|]. intros H. cbn. by rewrite (H c t). Qed.

Lemma trim_start_nil s : trim_start s = [] ↔ Forall (λ c, is_whitespace c = true) s.
Proof.
  induction s as [|c s IH]; cbn; [by split; [constructor|]|]. rewrite Forall_cons.
  destruct (is_whitespace c); naive_solver.
Qed.

Lemma trim_pad pre s post :
  Forall (λ c, is_whitespace c = true) pre → Forall (λ c, is_whitespace c = true) post →
  (∀ c t, s = c :: t → is_whitespace c = false) → (∀ c t, s = t ++ [c] → is_whitespace c = false) →
  trim (pre ++ s ++ post) = s.
Proof.
  intros Hpre Hpost Hhead Hlast. unfold trim. rewrite trim_start_pad by done.
  destruct s as [|c s].
  { cbn. rewrite (proj2 (trim_start_nil post)) by done. done. }
  rewrite (trim_start_solid ((c :: s) ++ post)) by (intros d t Ht; cbn in Ht; injection Ht as <- _; by eapply Hhead).
  rewrite reverse_app, trim_start_pad by by apply Forall_reverse.
  rewrite trim_start_solid; [by rewrite reverse_involutive|].
  intros d t Hd. apply (Hlast d (reverse t)). apply (f_equal reverse) in Hd.
  by rewrite reverse_involutive, reverse_cons in Hd.
Qed.

Lemma trim_nonempty s c : c ∈ s → is_whitespace c = false → trim s ≠ [].
Proof.
  intros Hc Hw Ht. assert (Forall (λ c, is_whitespace c = true) s) as Hall.
  { unfold trim in Ht. apply (f_equal reverse) in Ht. rewrite reverse_involutive in Ht.
    apply trim_start_nil in Ht. rewrite Forall_reverse in Ht.
    clear Hc. induction s as [|d s IH]; [constructor|]. cbn [trim_start] in Ht.
    destruct (is_whitespace d) eqn:E; [constructor; [done|by apply IH]|].
    apply Forall_cons in Ht as [Ht _]. congruence. }
  rewrite Forall_forall in Hall. specialize (Hall c Hc). congruence.
Qed.

(** ** Numbers *)

(** [value.parse::<u64>()]: decimal digits after an optional [+]. *)
Definition parse_usize (value : str) : option Z :=
  let digits := default value (strip_prefix [0x2B] value) in
  let n := foldl (λ n c, n * 10 + (c - 48)) 0 digits in
  if bool_decide (digits ≠ []) && all (λ c, (48 <=? c) && (c <=? 57)) digits && (n <=? u64_max)
  then Some n else None.

(** [format!("{n}")] *)
Definition dec (n : Z) : str := u8 <$> decimal n.

Lemma dec_digits n : 0 ≤ n ≤ u64_max → Forall (λ c, 48 ≤ c ≤ 57) (dec n) ∧ dec n ≠ [] ∧ parse_usize (dec n) = Some n.
Proof.
  intros Hn. destruct (decimal_ok n Hn) as (Hv & Hd & _ & Hne).
  assert (Forall (λ c, 48 ≤ c ≤ 57) (dec n)) as Hf.
  { apply Forall_fmap. eapply Forall_impl; [exact Hd|]. intros b Hb. unfold is_ascii_digit in Hb.
    cbn. boolify. lia. }
  assert (dec n ≠ []) as Hne' by (unfold dec; by destruct (decimal n)).
  split_and!; [done|done|]. unfold parse_usize.
  assert (strip_prefix [0x2B] (dec n) = None) as ->.
  { destruct (dec n) as [|c t]; [done|]. apply strip_prefix_head. apply Forall_cons in Hf as [Hf _].
    lia. }
  change (default (dec n) None) with (dec n).
  assert (∀ l a, foldl (λ n c, n * 10 + (c - 48)) a (u8 <$> l) = foldl (λ n b, n * 10 + (u8 b - 48)) a l) as Hfold.
  { induction l as [|b l IH]; intros a; [done|]. rewrite fmap_cons. cbn [foldl]. apply IH. }
  assert (foldl (λ n c, n * 10 + (c - 48)) 0 (dec n) = n) as ->
    by (unfold dec; by rewrite Hfold; fold (digits_value (decimal n))).
  rewrite bool_decide_true by done. rewrite (proj2 (all_true _ _)).
  - cbn [andb]. by rewrite (proj2 (Z.leb_le n u64_max) (proj2 Hn)).
  - eapply Forall_impl; [exact Hf|]. intros c Hc. cbn beta in *. lia.
Qed.

Lemma parse_usize_range v n : parse_usize v = Some n → n ≤ u64_max ∧ 0 ≤ n.
Proof.
  unfold parse_usize. set (d := default v _). destruct (_ && _) eqn:E; [|done]. intros [= <-].
  apply andb_true_iff in E as [E Hn]. apply andb_true_iff in E as [_ Hd]. boolify. split; [done|].
  apply all_true in Hd. assert (∀ a, 0 ≤ a → 0 ≤ foldl (λ n c, n * 10 + (c - 48)) a d) as H; [|by apply H].
  clear Hn. induction Hd as [|c d Hc _ IH]; intros a Ha; [done|]. cbn [foldl]. apply IH. boolify. lia.
Qed.

(** [trim] of a trimmed text. *)
Lemma trim_start_head s c t : trim_start s = c :: t → is_whitespace c = false.
Proof.
  induction s as [|d s IH]; [done|]. cbn [trim_start]. destruct (is_whitespace d) eqn:E; [done|].
  by intros [= <- _].
Qed.

Lemma trim_idem s : trim (trim s) = trim s.
Proof.
  unfold trim. set (u := trim_start s).
  assert (trim_start (reverse (trim_start (reverse u))) = reverse (trim_start (reverse u))) as H.
  { apply trim_start_solid. intros c t Ht.
    destruct (trim_start_suffix (reverse u)) as [pre Hpre]. apply (f_equal reverse) in Hpre.
    rewrite reverse_involutive, reverse_app, Ht in Hpre. by apply (trim_start_head s c (t ++ reverse pre)). }
  rewrite H, reverse_involutive. f_equal. apply trim_start_solid. intros c t. apply trim_start_head.
Qed.
