(* ===== verification/WorkerNames.v ===== *)
(** * Names and secrets of the worker protocol

    [crates/claw-worker/src]: [identity.rs] (identifiers), [allowlist.rs] (method
    names and closed method sets) and [secret.rs] (admission secrets and their hex
    wire form). The source validates strings byte by byte, so a string is the list
    of its UTF-8 bytes. *)

From S2P Require Import Prelude.

Module Names.

(** ** Identifiers *)

Definition MAX_IDENTIFIER_BYTES : Z := 128.

Inductive IdentifierError :=
| IdEmpty
| IdTooLong (limit actual : Z)
| IdForbiddenByte (index : Z) (byte : byte).

(** [u8::is_ascii_lowercase] and [u8::is_ascii_alphanumeric] *)
Definition is_ascii_lowercase (b : byte) : bool := (97 <=? u8 b) && (u8 b <=? 122).

Definition is_ascii_alphanumeric (b : byte) : bool :=
  is_ascii_digit b || is_ascii_lowercase b || ((65 <=? u8 b) && (u8 b <=? 90)).

Definition DASH : byte := x2d.
Definition UNDERSCORE : byte := x5f.
Definition PERIOD : byte := x2e.
Definition COLON : byte := x3a.

Definition id_byte (b : byte) : bool :=
  is_ascii_alphanumeric b || Byte.eqb b DASH || Byte.eqb b UNDERSCORE || Byte.eqb b PERIOD
  || Byte.eqb b COLON.

(** The loop over [value.bytes().enumerate()]. *)
Fixpoint first_forbidden (accepted : byte → bool) (index : Z) (value : bytes)
    : option (Z * byte) :=
  match value with
  | [] => None
  | byte :: value =>
      if accepted byte then first_forbidden accepted (index + 1) value else Some (index, byte)
  end.

Definition validate (value : bytes) : result IdentifierError unit :=
  if len value =? 0 then Err IdEmpty
  else if MAX_IDENTIFIER_BYTES <? len value then
    Err (IdTooLong MAX_IDENTIFIER_BYTES (len value))
  else
    match first_forbidden id_byte 0 value with
    | Some (index, byte) => Err (IdForbiddenByte index byte)
    | None => Ok tt
    end.

(** The [new] of [WorkerId], [TicketId] and [CallId]. *)
Definition identifier_new (value : bytes) : result IdentifierError bytes :=
  _ ← validate value; Ok value.

(** ** Method names *)

Definition MAX_METHOD_NAME_BYTES : Z := 128.

Definition WORKER_PROTOCOL_METHODS : list bytes :=
  [lit "worker.heartbeat"; lit "worker.lease.renew"; lit "worker.task.claim";
   lit "worker.task.complete"; lit "worker.task.fail"; lit "worker.task.progress"].

Inductive MethodNameError :=
| MethodEmpty
| MethodTooLong (limit actual : Z)
| MethodEmptySegment (segment : Z)
| MethodForbiddenByte (index : Z) (byte : byte).

Definition method_byte (b : byte) : bool :=
  is_ascii_lowercase b || is_ascii_digit b || Byte.eqb b PERIOD || Byte.eqb b UNDERSCORE.

(** [value.split('.')] *)
Fixpoint split_dots (value : bytes) : list bytes :=
  match value with
  | [] => [[]]
  | byte :: value =>
      match split_dots value with
      | part :: parts => if Byte.eqb byte PERIOD then [] :: part :: parts else (byte :: part) :: parts
      | [] => []
      end
  end.

Fixpoint first_empty (segment : Z) (parts : list bytes) : option Z :=
  match parts with
  | [] => None
  | [] :: _ => Some segment
  | _ :: parts => first_empty (segment + 1) parts
  end.

Definition method_name_new (value : bytes) : result MethodNameError bytes :=
  if len value =? 0 then Err MethodEmpty
  else if MAX_METHOD_NAME_BYTES <? len value then
    Err (MethodTooLong MAX_METHOD_NAME_BYTES (len value))
  else
    match first_forbidden method_byte 0 value with
    | Some (index, byte) => Err (MethodForbiddenByte index byte)
    | None =>
        match first_empty 0 (split_dots value) with
        | Some segment => Err (MethodEmptySegment segment)
        | None => Ok value
        end
    end.

(** [MethodAllowlist]: a [BTreeSet] of method names. *)
Abbreviation MethodAllowlist := (gset bytes).

Definition closed_set (methods : list bytes) : MethodAllowlist := list_to_set methods.

Fixpoint parse_closed_loop (names : list bytes) (methods : MethodAllowlist)
    : result MethodNameError MethodAllowlist :=
  match names with
  | [] => Ok methods
  | name :: names =>
      method ← method_name_new name; parse_closed_loop names ({[method]} ∪ methods)
  end.

Definition parse_closed (names : list bytes) : result MethodNameError MethodAllowlist :=
  parse_closed_loop names ∅.

(** [MethodAllowlist::worker_protocol]; [None] is its panic. *)
Definition worker_protocol : option MethodAllowlist :=
  match parse_closed WORKER_PROTOCOL_METHODS with Ok methods => Some methods | Err _ => None end.

Definition admits (allowed : MethodAllowlist) (method : bytes) : bool :=
  bool_decide (method ∈ allowed).

(** ** Secrets *)

Definition ADMISSION_SECRET_BYTES : nat := 32.
Definition TICKET_ID_BYTES : nat := 16.

(** [AdmissionSecret], its 32 bytes. *)
Definition AdmissionSecret : Type := bytes.

Inductive SecretParseError :=
| BadLength (expected actual : Z)
| NonHexByte (index : Z) (byte : byte).

Definition hex_value (b : byte) : option Z :=
  if is_ascii_digit b then Some (u8 b - 48)
  else if (97 <=? u8 b) && (u8 b <=? 102) then Some (u8 b - 97 + 10)
  else None.

Definition DIGITS : bytes := lit "0123456789abcdef".

(** [DIGITS[i]], where the source's index is a nibble. *)
Definition hex_digit (i : Z) : byte := default x00 (DIGITS !! Z.to_nat i).

Fixpoint encode_hex (bs : bytes) : bytes :=
  match bs with
  | [] => []
  | b :: bs => hex_digit (Z.shiftr (u8 b) 4) :: hex_digit (Z.land (u8 b) 0x0f) :: encode_hex bs
  end.

(** The loop over [chunks_exact(2)]; the length has been checked to be even. *)
Fixpoint parse_pairs (index : Z) (value : bytes) : result SecretParseError bytes :=
  match value with
  | b0 :: b1 :: value =>
      high ← ok_or (NonHexByte (index * 2) b0) (hex_value b0);
      low ← ok_or (NonHexByte (index * 2 + 1) b1) (hex_value b1);
      bs ← parse_pairs (index + 1) value;
      Ok (byte_of (Z.lor (Z.shiftl high 4) low) :: bs)
  | _ => Ok []
  end.

(** [AdmissionSecret::parse] *)
Definition parse (value : bytes) : result SecretParseError AdmissionSecret :=
  let expected := Z.of_nat ADMISSION_SECRET_BYTES * 2 in
  if negb (len value =? expected) then Err (BadLength expected (len value))
  else parse_pairs 0 value.

Definition to_wire_string (secret : AdmissionSecret) : bytes := encode_hex secret.

(** ** Lemmas *)

Lemma first_forbidden_None accepted index value :
  first_forbidden accepted index value = None ↔ Forall (λ b, accepted b = true) value.
Proof.
  revert index. induction value as [|b value IH]; intros index; cbn; [by split|].
  rewrite Forall_cons. destruct (accepted b) eqn:E; [rewrite IH; naive_solver|].
  split; [done|]. by intros [? _].
Qed.

Lemma first_forbidden_Some accepted index value i b :
  first_forbidden accepted index value = Some (i, b) →
  ∃ k : nat, i = index + Z.of_nat k ∧ value !! k = Some b ∧ accepted b = false ∧
             Forall (λ b, accepted b = true) (take k value).
Proof.
  revert index. induction value as [|c value IH]; intros index; cbn; [done|].
  destruct (accepted c) eqn:E.
  - intros (k & -> & Hk & Hb & Ht)%IH. exists (S k). split; [lia|]. split_and!; try done.
    cbn. by constructor.
  - intros [= <- <-]. exists 0%nat. split; [lia|]. by split_and!.
Qed.

(** No two adjacent dots, none at either end. *)
Definition dotted (value : bytes) : Prop :=
  Forall (λ part, part ≠ []) (split_dots value).

Lemma first_empty_None k parts : first_empty k parts = None ↔ Forall (λ part, part ≠ []) parts.
Proof.
  revert k. induction parts as [|[|b part] parts IH]; intros k; cbn.
  - by split.
  - rewrite Forall_cons. split; [done|]. by intros [? _].
  - rewrite Forall_cons, IH. naive_solver.
Qed.

(** Joining the parts with dots gives the value back. *)
Fixpoint join_dots (parts : list bytes) : bytes :=
  match parts with
  | [] => []
  | [part] => part
  | part :: parts => part ++ PERIOD :: join_dots parts
  end.

Lemma split_dots_join value :
  join_dots (split_dots value) = value ∧ split_dots value ≠ [] ∧
  Forall (λ part, PERIOD ∉ part) (split_dots value).
Proof.
  induction value as [|b value (IHj & IHn & IHf)]; cbn [split_dots].
  { split; [done|]. split; [done|]. by repeat constructor; apply not_elem_of_nil. }
  destruct (split_dots value) as [|part parts] eqn:Es; [done|].
  apply Forall_cons in IHf as [Hp Hf]. destruct (Byte.eqb b PERIOD) eqn:Eb.
  - apply byte_eqb_eq in Eb as ->. split; [by rewrite <- IHj|]. split; [done|].
    constructor; [apply not_elem_of_nil|]. by constructor.
  - apply byte_eqb_neq in Eb. split; [|split; [done|]].
    + rewrite <- IHj. by destruct parts.
    + constructor; [|done]. rewrite not_elem_of_cons. split; [congruence|done].
Qed.

Lemma method_name_new_Ok value v :
  method_name_new value = Ok v ↔
  v = value ∧ 0 < len value ≤ MAX_METHOD_NAME_BYTES ∧
  Forall (λ b, method_byte b = true) value ∧ dotted value.
Proof.
  unfold method_name_new, dotted. pose proof (len_nonneg value).
  destruct (len value =? 0) eqn:E0; boolify; [split; [done|lia]|].
  destruct (_ <? len value) eqn:E1; boolify; [split; [done|lia]|].
  rewrite <- (first_forbidden_None method_byte 0), <- (first_empty_None 0).
  destruct (first_forbidden _ _ _) as [[i b]|]; [split; [done|]; by intros (_ & _ & ? & _)|].
  destruct (first_empty _ _) as [k|]; [split; [done|]; by intros (_ & _ & _ & ?)|].
  split; [intros [= <-]; split_and!; (done || lia)|]. by intros (-> & _).
Qed.

Lemma parse_closed_loop_Ok names methods allowed :
  parse_closed_loop names methods = Ok allowed ↔
  (∀ n, n ∈ names → method_name_new n = Ok n) ∧ allowed = list_to_set names ∪ methods.
Proof.
  revert methods. induction names as [|n names IH]; intros methods; cbn.
  { split; [intros [= <-]; split; [set_solver|set_solver]|]. intros [_ ->]. f_equal. set_solver. }
  rewrite bind_Ok. setoid_rewrite IH. split.
  - intros (m & Hm & Hn & ->). pose proof (proj1 (proj1 (method_name_new_Ok _ _) Hm)) as ->.
    split; [|set_solver]. intros n' [->|Hin]%elem_of_cons; [done|]. by apply Hn.
  - intros [Hn ->]. exists n. split; [apply Hn; set_solver|]. split; [set_solver|set_solver].
Qed.

Lemma identifier_new_Ok value v :
  identifier_new value = Ok v ↔
  v = value ∧ 0 < len value ≤ MAX_IDENTIFIER_BYTES ∧ Forall (λ b, id_byte b = true) value.
Proof.
  unfold identifier_new, validate. pose proof (len_nonneg value).
  destruct (len value =? 0) eqn:E0; boolify; [split; [done|lia]|].
  destruct (_ <? len value) eqn:E1; boolify; [split; [done|lia]|].
  rewrite <- (first_forbidden_None id_byte 0).
  destruct (first_forbidden _ _ _) as [[i b]|]; cbn; [split; [done|]; by intros (_ & _ & ?)|].
  split; [intros [= <-]; split_and!; (done || lia)|]. by intros (-> & _).
Qed.

(** Identifiers are closed: exactly the strings of 1 to 128 bytes over the
    accepted alphabet pass, and a refusal for a byte names the first byte outside
    the alphabet and its offset. *)
Theorem identifier_alphabet value :
  (∀ v, identifier_new value = Ok v ↔
     v = value ∧ 0 < len value ≤ MAX_IDENTIFIER_BYTES ∧ Forall (λ b, id_byte b = true) value) ∧
  (∀ i b, identifier_new value = Err (IdForbiddenByte i b) →
     ∃ k : nat, i = Z.of_nat k ∧ value !! k = Some b ∧ id_byte b = false ∧
                Forall (λ b, id_byte b = true) (take k value)).
Proof.
  split; [apply identifier_new_Ok|]. unfold identifier_new, validate. intros i b.
  destruct (len value =? 0); [done|]. destruct (_ <? len value); [done|].
  destruct (first_forbidden _ _ _) as [[i' b']|] eqn:E; [|done]. intros [= <- <-].
  apply first_forbidden_Some in E as (k & -> & Hk). by exists k.
Qed.

(** A method allowlist is closed: it is built only when every name is valid
    (1 to 128 bytes of lowercase letters, digits, underscores and dots, no empty
    segment, so no wildcard), and it then admits exactly the listed names; the six
    pinned names of the protocol are valid, so [worker_protocol] does not panic. *)
Theorem allowlist_closed names :
  (∀ allowed, parse_closed names = Ok allowed →
     ∀ m, admits allowed m = true ↔ m ∈ names) ∧
  (∀ allowed m, parse_closed names = Ok allowed → admits allowed m = true →
     0 < len m ≤ MAX_METHOD_NAME_BYTES ∧ Forall (λ b, method_byte b = true) m ∧
     Forall (λ part, part ≠ []) (split_dots m) ∧ join_dots (split_dots m) = m) ∧
  (is_ok (parse_closed names) = true ↔ ∀ n, n ∈ names → is_ok (method_name_new n) = true) ∧
  worker_protocol = Some (closed_set WORKER_PROTOCOL_METHODS).
Proof.
  unfold parse_closed, admits. split_and!.
  - intros allowed [_ ->]%parse_closed_loop_Ok m. rewrite bool_decide_eq_true. set_solver.
  - intros allowed m [Hv ->]%parse_closed_loop_Ok Hm%bool_decide_eq_true.
    assert (m ∈ names) as Hin by set_solver.
    apply Hv, method_name_new_Ok in Hin as (_ & ? & ? & ?). do 3 (split; [done|]). apply split_dots_join.
  - assert (∀ n, is_ok (method_name_new n) = true ↔ method_name_new n = Ok n) as Hn.
    { intros n. split; [|by intros ->]. destruct (method_name_new n) as [v|] eqn:E; [|done].
      by pose proof (proj1 (method_name_new_Ok _ _) E) as [-> _]. }
    split.
    + destruct (parse_closed_loop names ∅) as [allowed|] eqn:E; [|done]. intros _ n Hin.
      apply parse_closed_loop_Ok in E as [Hv _]. by apply Hn, Hv.
    + intros Hv. rewrite (proj2 (parse_closed_loop_Ok names ∅ (list_to_set names ∪ ∅))); [done|]. split; [|done].
      intros n Hin. by apply Hn, Hv.
  - unfold worker_protocol, parse_closed, closed_set.
    rewrite (proj2 (parse_closed_loop_Ok _ ∅ (list_to_set WORKER_PROTOCOL_METHODS))); [done|].
    split; [|by rewrite (right_id_L ∅ (∪))]. apply Forall_forall. unfold WORKER_PROTOCOL_METHODS.
    repeat (constructor; [vm_compute; reflexivity|]). constructor.
Qed.

(** ** Hex *)

Definition nibbles (b : byte) : bool :=
  bool_decide (hex_value (hex_digit (Z.shiftr (u8 b) 4)) = Some (Z.shiftr (u8 b) 4)) &&
  bool_decide (hex_value (hex_digit (Z.land (u8 b) 0x0f)) = Some (Z.land (u8 b) 0x0f)) &&
  Byte.eqb (byte_of (Z.lor (Z.shiftl (Z.shiftr (u8 b) 4) 4) (Z.land (u8 b) 0x0f))) b.

Lemma nibbles_ok b : nibbles b = true.
Proof. destruct b; vm_compute; reflexivity. Qed.

Lemma hex_value_digit b v : hex_value b = Some v → hex_digit v = b ∧ 0 ≤ v < 16.
Proof. destruct b; vm_compute; intros [= <-] || done; done. Qed.

Lemma encode_hex_len bs : len (encode_hex bs) = 2 * len bs.
Proof. induction bs as [|b bs IH]; cbn [encode_hex]; [done|]. rewrite !len_cons, IH. lia. Qed.

Lemma parse_pairs_encode index bs : parse_pairs index (encode_hex bs) = Ok bs.
Proof.
  revert index. induction bs as [|b bs IH]; intros index; cbn [encode_hex parse_pairs]; [done|].
  pose proof (nibbles_ok b) as [[H1 H2]%andb_true_iff H3]%andb_true_iff.
  rewrite (bool_decide_eq_true_1 _ H1), (bool_decide_eq_true_1 _ H2). cbn [ok_or mbind result_bind].
  rewrite IH. cbn [mbind result_bind]. by apply byte_eqb_eq in H3 as ->.
Qed.

Lemma nibble_split h l :
  0 ≤ h < 16 → 0 ≤ l < 16 →
  let v := Z.lor (Z.shiftl h 4) l in 0 ≤ v ≤ 255 ∧ Z.shiftr v 4 = h ∧ Z.land v 0x0f = l.
Proof.
  intros Hh Hl v.
  assert (Forall (λ h, Forall (λ l, 0 ≤ Z.lor (Z.shiftl h 4) l ≤ 255 ∧
    Z.shiftr (Z.lor (Z.shiftl h 4) l) 4 = h ∧ Z.land (Z.lor (Z.shiftl h 4) l) 0x0f = l)
    (seqZ 0 16)) (seqZ 0 16)) as H
    by (apply (bool_decide_unpack _); vm_compute; exact I).
  assert (h ∈ seqZ 0 16) as Hh' by (apply elem_of_seqZ; lia).
  assert (l ∈ seqZ 0 16) as Hl' by (apply elem_of_seqZ; lia).
  rewrite Forall_forall in H. specialize (H h Hh'). rewrite Forall_forall in H. by apply H.
Qed.

Lemma parse_pairs_sound index value bs k :
  length value = (2 * k)%nat → parse_pairs index value = Ok bs →
  length bs = k ∧ encode_hex bs = value.
Proof.
  revert index value bs. induction k as [|k IH]; intros index value bs Hk.
  { destruct value; [|done]. cbn. by intros [= <-]. }
  destruct value as [|b0 [|b1 value]]; cbn in Hk; try lia. cbn [parse_pairs]. intros Hp. inv_ok.
  repeat match goal with H : hex_value _ = Some _ |- _ => apply hex_value_digit in H as [<- ?] end.
  match goal with H : parse_pairs _ _ = Ok _ |- _ => apply IH in H as [<- <-]; [|lia] end.
  split; [done|]. cbn [encode_hex].
  match goal with |- context [Z.lor (Z.shiftl ?h 4) ?l] =>
    destruct (nibble_split h l) as (? & Hs & Hl); [lia..|] end.
  rewrite !u8_byte_of by done. by rewrite Hs, Hl.
Qed.

(** The hex wire form of a secret is a bijection: every 32-byte secret parses
    back from its wire string, and every string that parses is the wire string of
    the secret it parses to (so uppercase and alternative spellings are refused);
    and the hex of the 16 random bytes of a ticket is always a valid identifier,
    so issuing cannot panic there. *)
Theorem secret_hex_roundtrip :
  (∀ secret, length secret = ADMISSION_SECRET_BYTES → parse (to_wire_string secret) = Ok secret) ∧
  (∀ value secret, parse value = Ok secret →
     length secret = ADMISSION_SECRET_BYTES ∧ to_wire_string secret = value) ∧
  (∀ bs, length bs = TICKET_ID_BYTES → identifier_new (encode_hex bs) = Ok (encode_hex bs)).
Proof.
  split_and!.
  - intros secret Hs. unfold parse, to_wire_string. rewrite encode_hex_len. unfold len.
    rewrite Hs. cbn -[parse_pairs]. apply parse_pairs_encode.
  - intros value secret. unfold parse. destruct (len value =? _) eqn:E; boolify; [|done].
    cbn [negb]. apply parse_pairs_sound. unfold len in E. lia.
  - intros bs Hb. apply identifier_new_Ok. split; [done|].
    rewrite encode_hex_len. unfold len. rewrite Hb. split; [by vm_compute|]. clear Hb.
    induction bs as [|b bs IH]; cbn [encode_hex]; [constructor|].
    constructor; [destruct b; by vm_compute|]. constructor; [destruct b; by vm_compute|done].
Qed.

End Names.
