(* ===== verification/Worker.v ===== *)
(** * Closed worker admission

    [crates/claw-worker/src]: [fencing.rs] (the generation ledger), [ticket.rs],
    [limits.rs], [error.rs] and [controller.rs] (the controller that mints tickets,
    redeems them into sessions and screens calls). The clock and the randomness
    source are ports: what they answer is an argument of the operation that asks.
    [serde_json] is not part of the source: the payload type and the two frame
    parsers are parameters.

    The specification is a log of what the controller granted; [represents] says
    how the controller's maps follow from the log, and every answer is a function
    of the log alone. *)

From S2P Require Import Prelude WorkerNames.
Import Names.

Module Worker.

(** ** Fencing *)

Inductive FencingError :=
| ZeroGeneration
| NeverAdmitted (worker : bytes)
| Stale (presented current : Z)
| FromFuture (presented current : Z)
| GenerationOverflow (worker : bytes).

(** [FencingToken::new]: zero is reserved. *)
Definition token_new (generation : Z) : option Z :=
  if generation =? 0 then None else Some generation.

Abbreviation GenerationLedger := (gmap bytes Z).

(** [u64::checked_add] *)
Definition checked_add (x y : Z) : option Z :=
  if x + y <=? u64_max then Some (x + y) else None.

Definition open_generation (ledger : GenerationLedger) (worker : bytes)
    : GenerationLedger * result FencingError Z :=
  let opened :=
    match ledger !! worker with
    | Some current =>
        next ← ok_or (GenerationOverflow worker) (checked_add current 1);
        ok_or ZeroGeneration (token_new next)
    | None => ok_or ZeroGeneration (token_new 1)
    end in
  match opened with
  | Ok token => (<[worker := token]> ledger, Ok token)
  | Err e => (ledger, Err e)
  end.

Definition verify (ledger : GenerationLedger) (worker : bytes) (presented : Z)
    : result FencingError unit :=
  current ← ok_or (NeverAdmitted worker) (ledger !! worker);
  match presented ?= current with
  | Eq => Ok tt
  | Lt => Err (Stale presented current)
  | Gt => Err (FromFuture presented current)
  end.

(** ** Limits and tickets *)

Definition DEFAULT_MAX_ADMISSION_BYTES : Z := 8 * 1024.
Definition DEFAULT_MAX_CALL_BYTES : Z := 256 * 1024.

Record PayloadLimits := mkLimits { max_admission_bytes : Z; max_call_bytes : Z }.

Inductive LimitError := ZeroLimit (name : bytes).

Definition default_limits : PayloadLimits :=
  mkLimits DEFAULT_MAX_ADMISSION_BYTES DEFAULT_MAX_CALL_BYTES.

Definition validate_limits (l : PayloadLimits) : result LimitError unit :=
  if max_admission_bytes l =? 0 then Err (ZeroLimit (lit "max_admission_bytes"))
  else if max_call_bytes l =? 0 then Err (ZeroLimit (lit "max_call_bytes"))
  else Ok tt.

Record AdmissionTicket := mkTicket {
  ticket_id : bytes;
  worker_id : bytes;
  fencing_token : Z;
  issued_at_ms : Z;
  expires_at_ms : Z;
  allowed_methods : MethodAllowlist;
}.

(** [IssuedAdmission], and the controller's [PendingTicket] with the same fields. *)
Record IssuedAdmission := mkIssued { ticket : AdmissionTicket; secret : AdmissionSecret }.

Record AdmissionRequest := mkRequest {
  req_ticket_id : bytes;
  req_worker_id : bytes;
  req_fencing_token : Z;
  req_secret : AdmissionSecret;
}.

Definition request (i : IssuedAdmission) : AdmissionRequest :=
  mkRequest (ticket_id (ticket i)) (worker_id (ticket i)) (fencing_token (ticket i)) (secret i).

(** ** Rejections *)

Inductive AdmissionRejection :=
| AdmissionTooLarge (limit actual : Z)
| AdmissionMalformed (message : bytes)
| UnknownTicket (id : bytes)
| TicketAlreadyRedeemed (id : bytes)
| SecretMismatch (id : bytes)
| WorkerIdentityMismatch (expected presented : bytes)
| NotYetValid (issued_at now : Z)
| Expired (expires_at now : Z)
| Fenced (e : FencingError).

Inductive CallRejection :=
| CallTooLarge (limit actual : Z)
| CallMalformed (message : bytes)
| UnknownSession (session : Z)
| SessionClosed (session : Z)
| SessionFenced (e : FencingError)
| SessionExpired (expires_at now : Z)
| DuplicateCall (id : bytes)
| MethodNotAllowed (method : bytes).

Inductive IssueError :=
| ZeroTimeToLive
| ExpiryOverflow (now ttl : Z)
| Fencing (e : FencingError)
| SecretSource
| TicketIdCollision (id : bytes)
| Limit (e : LimitError).

(** [map_err] through the [From] instances. *)
Definition map_err {E E' A} (f : E → E') (r : result E A) : result E' A :=
  match r with Ok a => Ok a | Err e => Err (f e) end.

(** A call that returned, or panicked. *)
Inductive Outcome (E A : Type) := Returned (r : result E A) | Panicked.
Arguments Returned {E A} r.
Arguments Panicked {E A}.

(** ** The controller *)

Record SessionState := mkSession {
  s_worker_id : bytes;
  s_fencing_token : Z;
  s_allowed_methods : MethodAllowlist;
  s_expires_at_ms : Z;
  accepted_calls : gset bytes;
  closed : bool;
}.

Record AdmittedSession := mkAdmitted {
  session : Z;
  a_worker_id : bytes;
  a_fencing_token : Z;
  a_expires_at_ms : Z;
  a_allowed_methods : MethodAllowlist;
}.

Record AdmissionController := mkController {
  limits : PayloadLimits;
  generations : GenerationLedger;
  pending : gmap bytes IssuedAdmission;
  redeemed : gset bytes;
  sessions : gmap Z SessionState;
  next_session : Z;
}.

Definition new (l : PayloadLimits) : result LimitError AdmissionController :=
  _ ← validate_limits l; Ok (mkController l ∅ ∅ ∅ ∅ 1).

Definition current_generation (c : AdmissionController) (worker : bytes) : option Z :=
  generations c !! worker.

Definition set_generations (c : AdmissionController) (g : GenerationLedger) :=
  mkController (limits c) g (pending c) (redeemed c) (sessions c) (next_session c).

Definition set_sessions (c : AdmissionController) (s : gmap Z SessionState) :=
  mkController (limits c) (generations c) (pending c) (redeemed c) s (next_session c).

(** [issue]; [now] is the clock's answer, [identity_fill] and [secret_fill] are the
    buffers the randomness source filled, or [None] where it failed. *)
Definition issue (c : AdmissionController) (now : Z) (identity_fill secret_fill : option bytes)
    (worker : bytes) (ttl_ms : Z) (allowed : MethodAllowlist)
    : AdmissionController * Outcome IssueError IssuedAdmission :=
  let fail e := (c, Returned (Err e)) in
  if ttl_ms =? 0 then fail ZeroTimeToLive
  else
    match checked_add now ttl_ms with
    | None => fail (ExpiryOverflow now ttl_ms)
    | Some expires_at =>
        match identity_fill with
        | None => fail SecretSource
        | Some identity_bytes =>
            match identifier_new (encode_hex identity_bytes) with
            | Err _ => (c, Panicked)
            | Ok id =>
                if bool_decide (is_Some (pending c !! id)) || bool_decide (id ∈ redeemed c) then
                  fail (TicketIdCollision id)
                else
                  match secret_fill with
                  | None => fail SecretSource
                  | Some secret =>
                      match open_generation (generations c) worker with
                      | (_, Err e) => fail (Fencing e)
                      | (generations, Ok token) =>
                          let issued :=
                            mkIssued (mkTicket id worker token now expires_at allowed) secret in
                          (mkController (limits c) generations (<[id := issued]> (pending c))
                             (redeemed c) (sessions c) (next_session c),
                           Returned (Ok issued))
                      end
                  end
            end
        end
    end.

Definition fence (c : AdmissionController) (worker : bytes)
    : AdmissionController * result FencingError Z :=
  let '(g, r) := open_generation (generations c) worker in (set_generations c g, r).

(** The checks of [AdmissionController::admit], up to the redemption. *)
Definition screen_admission (c : AdmissionController) (now : Z) (r : AdmissionRequest)
    : result AdmissionRejection IssuedAdmission :=
  let id := req_ticket_id r in
  _ ← ensure (negb (bool_decide (id ∈ redeemed c))) (TicketAlreadyRedeemed id);
  p ← ok_or (UnknownTicket id) (pending c !! id);
  _ ← ensure (bool_decide (secret p = req_secret r)) (SecretMismatch id);
  let t := ticket p in
  _ ← ensure (bool_decide (worker_id t = req_worker_id r))
        (WorkerIdentityMismatch (worker_id t) (req_worker_id r));
  _ ← ensure (issued_at_ms t <=? now) (NotYetValid (issued_at_ms t) now);
  _ ← ensure (now <? expires_at_ms t) (Expired (expires_at_ms t) now);
  _ ← map_err Fenced (verify (generations c) (worker_id t) (req_fencing_token r));
  _ ← map_err Fenced (verify (generations c) (worker_id t) (fencing_token t));
  Ok p.

(** [AdmissionController::admit] *)
Definition admit_request (c : AdmissionController) (now : Z) (r : AdmissionRequest)
    : AdmissionController * Outcome AdmissionRejection AdmittedSession :=
  match screen_admission c now r with
  | Err e => (c, Returned (Err e))
  | Ok p =>
      let t := ticket p in
      let id := req_ticket_id r in
      let s := next_session c in
      let c := mkController (limits c) (generations c) (delete id (pending c))
                 ({[id]} ∪ redeemed c) (sessions c) (next_session c) in
      match checked_add s 1 with
      | None => (c, Panicked)
      | Some next =>
          (mkController (limits c) (generations c) (pending c) (redeemed c)
             (<[s := mkSession (worker_id t) (fencing_token t) (allowed_methods t)
                       (expires_at_ms t) ∅ false]> (sessions c)) next,
           Returned (Ok (mkAdmitted s (worker_id t) (fencing_token t) (expires_at_ms t)
                           (allowed_methods t))))
      end
  end.

Section payloads.
(** [serde_json::Value] and the frame parsers of [serde_json]. *)
Context {Value : Type}.

Record WorkerCall := mkCall { call_id : bytes; method : bytes; payload : Value }.

Record CallAccepted := mkAccepted {
  acc_session : Z;
  acc_call_id : bytes;
  acc_method : bytes;
  acc_payload : Value;
}.

Definition call (c : AdmissionController) (now : Z) (s : Z) (w : WorkerCall)
    : AdmissionController * result CallRejection CallAccepted :=
  match sessions c !! s with
  | None => (c, Err (UnknownSession s))
  | Some st =>
      let checks :=
        _ ← ensure (negb (closed st)) (SessionClosed s);
        _ ← map_err SessionFenced (verify (generations c) (s_worker_id st) (s_fencing_token st));
        _ ← ensure (now <? s_expires_at_ms st) (SessionExpired (s_expires_at_ms st) now);
        _ ← ensure (negb (bool_decide (call_id w ∈ accepted_calls st))) (DuplicateCall (call_id w));
        ensure (admits (s_allowed_methods st) (method w)) (MethodNotAllowed (method w)) in
      match checks with
      | Err e => (c, Err e)
      | Ok _ =>
          (set_sessions c
             (<[s := mkSession (s_worker_id st) (s_fencing_token st) (s_allowed_methods st)
                       (s_expires_at_ms st) ({[call_id w]} ∪ accepted_calls st) (closed st)]>
                (sessions c)),
           Ok (mkAccepted s (call_id w) (method w) (payload w)))
      end
  end.

Definition close (c : AdmissionController) (s : Z) : AdmissionController * bool :=
  match sessions c !! s with
  | Some st =>
      if negb (closed st) then
        (set_sessions c
           (<[s := mkSession (s_worker_id st) (s_fencing_token st) (s_allowed_methods st)
                     (s_expires_at_ms st) (accepted_calls st) true]> (sessions c)), true)
      else (c, false)
  | None => (c, false)
  end.

Definition is_open (c : AdmissionController) (s : Z) : bool :=
  match sessions c !! s with Some st => negb (closed st) | None => false end.

Context (parse_admission : bytes → result bytes AdmissionRequest).
Context (parse_call : bytes → result bytes WorkerCall).

Definition admit_encoded (c : AdmissionController) (now : Z) (frame : bytes)
    : AdmissionController * Outcome AdmissionRejection AdmittedSession :=
  let limit := max_admission_bytes (limits c) in
  if limit <? len frame then (c, Returned (Err (AdmissionTooLarge limit (len frame))))
  else
    match parse_admission frame with
    | Err message => (c, Returned (Err (AdmissionMalformed message)))
    | Ok r => admit_request c now r
    end.

Definition call_encoded (c : AdmissionController) (now : Z) (s : Z) (frame : bytes)
    : AdmissionController * result CallRejection CallAccepted :=
  let limit := max_call_bytes (limits c) in
  if limit <? len frame then (c, Err (CallTooLarge limit (len frame)))
  else
    match parse_call frame with
    | Err message => (c, Err (CallMalformed message))
    | Ok w => call c now s w
    end.

End payloads.
Arguments WorkerCall : clear implicits.
Arguments CallAccepted : clear implicits.

(** ** The log *)

(** What the controller grants, as it happens. *)
Inductive Event :=
| EIssued (i : IssuedAdmission)
| EFenced (worker : bytes) (token : Z)
| EAdmitted (session : Z) (t : AdmissionTicket) (now : Z)
| EAccepted (session : Z) (call method : bytes) (now : Z)
| EClosed (session : Z).

(** The operations of the controller, with the answers of its ports. *)
Inductive Op {Value : Type} :=
| OIssue (now : Z) (identity secret : option bytes) (worker : bytes) (ttl : Z)
    (allowed : MethodAllowlist)
| OFence (worker : bytes)
| OAdmit (now : Z) (r : AdmissionRequest)
| OCall (now s : Z) (w : WorkerCall Value)
| OClose (s : Z).
Arguments Op : clear implicits.

(** One operation: the next controller and the log, newest event first; [None] is
    a panic. *)
Definition apply {V} (op : Op V) (c : AdmissionController) (log : list Event)
    : option (AdmissionController * list Event) :=
  match op with
  | OIssue now identity secret worker ttl allowed =>
      match issue c now identity secret worker ttl allowed with
      | (c, Returned (Ok i)) => Some (c, EIssued i :: log)
      | (c, Returned (Err _)) => Some (c, log)
      | (_, Panicked) => None
      end
  | OFence worker =>
      match fence c worker with
      | (c, Ok token) => Some (c, EFenced worker token :: log)
      | (c, Err _) => Some (c, log)
      end
  | OAdmit now r =>
      match screen_admission c now r, admit_request c now r with
      | Ok p, (c, Returned (Ok a)) => Some (c, EAdmitted (session a) (ticket p) now :: log)
      | _, (c, Returned (Err _)) => Some (c, log)
      | _, _ => None
      end
  | OCall now s w =>
      match call c now s w with
      | (c, Ok a) => Some (c, EAccepted (acc_session a) (acc_call_id a) (acc_method a) now :: log)
      | (c, Err _) => Some (c, log)
      end
  | OClose s =>
      match close c s with
      | (c, true) => Some (c, EClosed s :: log)
      | (c, false) => Some (c, log)
      end
  end.

(** The [u64] arguments are not negative. *)
Definition op_ok {V} (op : Op V) : Prop :=
  match op with OIssue now _ _ _ ttl _ => 0 ≤ now ∧ 0 ≤ ttl | _ => True end.

Inductive reachable {V} (l : PayloadLimits) : AdmissionController → list Event → Prop :=
| reach_new c : new l = Ok c → reachable l c []
| reach_op (op : Op V) c log c' log' :
    reachable l c log → op_ok op → apply op c log = Some (c', log') → reachable l c' log'.

(** ** What the log says *)

Fixpoint generation (log : list Event) (w : bytes) : option Z :=
  match log with
  | [] => None
  | EIssued i :: log =>
      if bool_decide (worker_id (ticket i) = w) then Some (fencing_token (ticket i))
      else generation log w
  | EFenced w' g :: log => if bool_decide (w' = w) then Some g else generation log w
  | _ :: log => generation log w
  end.

Fixpoint issued (log : list Event) (id : bytes) : option IssuedAdmission :=
  match log with
  | [] => None
  | EIssued i :: log =>
      if bool_decide (ticket_id (ticket i) = id) then Some i else issued log id
  | _ :: log => issued log id
  end.

Definition redeemed_in (log : list Event) (id : bytes) : bool :=
  existsb (λ e, match e with EAdmitted _ t _ => bool_decide (ticket_id t = id) | _ => false end) log.

Fixpoint session_ticket (log : list Event) (s : Z) : option AdmissionTicket :=
  match log with
  | [] => None
  | EAdmitted s' t _ :: log => if bool_decide (s' = s) then Some t else session_ticket log s
  | _ :: log => session_ticket log s
  end.

Definition closed_in (log : list Event) (s : Z) : bool :=
  existsb (λ e, match e with EClosed s' => bool_decide (s' = s) | _ => false end) log.

Definition accepted_in (log : list Event) (s : Z) (id : bytes) : bool :=
  existsb (λ e, match e with
                | EAccepted s' id' _ _ => bool_decide (s' = s ∧ id' = id)
                | _ => false
                end) log.

Definition is_admission (e : Event) : bool :=
  match e with EAdmitted _ _ _ => true | _ => false end.

Definition admissions (log : list Event) : Z := len (List.filter is_admission log).

(** The admissions the log allows. *)
Definition may_admit (log : list Event) (now : Z) (r : AdmissionRequest) (t : AdmissionTicket) : Prop :=
  issued log (req_ticket_id r) = Some (mkIssued t (req_secret r)) ∧
  redeemed_in log (req_ticket_id r) = false ∧
  worker_id t = req_worker_id r ∧ issued_at_ms t ≤ now < expires_at_ms t ∧
  fencing_token t = req_fencing_token r ∧ generation log (worker_id t) = Some (fencing_token t).

(** The calls the log allows. *)
Definition may_call (log : list Event) (now s : Z) (id m : bytes) (t : AdmissionTicket) : Prop :=
  session_ticket log s = Some t ∧ closed_in log s = false ∧
  generation log (worker_id t) = Some (fencing_token t) ∧ now < expires_at_ms t ∧
  accepted_in log s id = false ∧ m ∈ allowed_methods t.

(** The controller's maps, from the log. *)
Definition session_represents (log : list Event) (s : Z) (st : SessionState) (t : AdmissionTicket) : Prop :=
  s_worker_id st = worker_id t ∧ s_fencing_token st = fencing_token t ∧
  s_allowed_methods st = allowed_methods t ∧ s_expires_at_ms st = expires_at_ms t ∧
  closed st = closed_in log s ∧ (∀ id, id ∈ accepted_calls st ↔ accepted_in log s id = true).

Record represents (c : AdmissionController) (log : list Event) : Prop := {
  r_generations : ∀ w, generations c !! w = generation log w;
  r_pending : ∀ id, pending c !! id = if redeemed_in log id then None else issued log id;
  r_redeemed : ∀ id, id ∈ redeemed c ↔ redeemed_in log id = true;
  r_sessions : ∀ s,
    match session_ticket log s with
    | Some t => ∃ st, sessions c !! s = Some st ∧ session_represents log s st t
    | None => sessions c !! s = None
    end;
  r_next : next_session c = 1 + admissions log;
}.

(** Why an event is in the log, given the older part. *)
Definition justified (log : list Event) (e : Event) : Prop :=
  match e with
  | EIssued i =>
      issued log (ticket_id (ticket i)) = None ∧
      fencing_token (ticket i) = 1 + default 0 (generation log (worker_id (ticket i))) ∧
      issued_at_ms (ticket i) < expires_at_ms (ticket i) ≤ u64_max
  | EFenced w g => g = 1 + default 0 (generation log w)
  | EAdmitted s t now =>
      s = 1 + admissions log ∧ ∃ r, may_admit log now r t ∧ req_ticket_id r = ticket_id t
  | EAccepted s id m now => ∃ t, may_call log now s id m t
  | EClosed s => is_Some (session_ticket log s) ∧ closed_in log s = false
  end.

Inductive audited : list Event → Prop :=
| audited_nil : audited []
| audited_cons e log : justified log e → audited log → audited (e :: log).

(** ** Lemmas on the log *)

Lemma issued_key log id i : issued log id = Some i → ticket_id (ticket i) = id.
Proof.
  induction log as [|[i'| | | |] log IH]; cbn; try done. case_bool_decide; [|done]. by intros [= <-].
Qed.

Lemma admissions_cons e log :
  admissions (e :: log) = (if is_admission e then 1 else 0) + admissions log.
Proof. unfold admissions. cbn [List.filter]. destruct (is_admission e); [apply len_cons|lia]. Qed.

Lemma admissions_nonneg log : 0 ≤ admissions log.
Proof. apply len_nonneg. Qed.

Lemma audited_session log s t :
  audited log → session_ticket log s = Some t → 1 ≤ s ≤ admissions log.
Proof.
  induction 1 as [|e log He _ IH]; [done|]. rewrite admissions_cons.
  destruct e; cbn [session_ticket is_admission]; try done. pose proof (admissions_nonneg log).
  case_bool_decide as E; [|intros ?%IH; lia]. intros [= <-]. destruct He as [-> _]. lia.
Qed.

Lemma audited_uses log s :
  audited log → session_ticket log s = None →
  closed_in log s = false ∧ ∀ id, accepted_in log s id = false.
Proof.
  induction 1 as [|e log He _ IH]; [done|]. intros Hs.
  assert (session_ticket log s = None) as Hs'.
  { destruct e; cbn in Hs; try done. by case_bool_decide. }
  destruct (IH Hs') as [Hc Ha]. unfold closed_in, accepted_in in *. cbn [existsb].
  rewrite Hc. split; [|intros id; rewrite (Ha id)]; destruct e; try done;
    rewrite orb_false_r; apply bool_decide_eq_false; [intros ->|intros [-> _]].
  - destruct He as [[t Ht] _]. congruence.
  - destruct He as (t & Ht & _). congruence.
Qed.

Lemma audited_app newer older : audited (newer ++ older) → audited older.
Proof. induction newer as [|e newer IH]; [done|]. inversion_clear 1. by apply IH. Qed.

Lemma audited_issued newer older id i :
  audited (newer ++ older) → issued older id = Some i → issued (newer ++ older) id = Some i.
Proof.
  induction newer as [|e newer IH]; [done|]. inversion_clear 1 as [|? ? Hj Ha]. intros Hi.
  specialize (IH Ha Hi). destruct e; cbn; try done. case_bool_decide as E; [|done].
  destruct Hj as [Hn _]. congruence.
Qed.

Lemma audited_session_app newer older s t :
  audited (newer ++ older) → session_ticket older s = Some t →
  session_ticket (newer ++ older) s = Some t.
Proof.
  induction newer as [|e newer IH]; [done|]. inversion_clear 1 as [|? ? Hj Ha]. intros Hs.
  specialize (IH Ha Hs). destruct e; cbn; try done. case_bool_decide as E; [|done].
  destruct Hj as [-> _]. apply audited_session in IH; [|done]. lia.
Qed.

(** The generation of a worker never goes back. *)
Lemma audited_generation newer older w g :
  audited (newer ++ older) → generation older w = Some g →
  ∃ g', generation (newer ++ older) w = Some g' ∧ g ≤ g'.
Proof.
  induction newer as [|e newer IH]; [intros _ ?; by exists g|].
  inversion_clear 1 as [|? ? Hj Ha]. intros Hg. destruct (IH Ha Hg) as (g' & Hg' & Hle).
  destruct e as [i|w' k| | |]; cbn [app generation]; eauto; case_bool_decide as E; eauto.
  - destruct Hj as (_ & Ht & _). rewrite E, Hg' in Ht. cbn in Ht. eexists. split; [done|]. lia.
  - cbn in Hj. rewrite E, Hg' in Hj. cbn in Hj. eexists. split; [done|]. lia.
Qed.

(** ** The controller follows the log *)

Lemma verify_Ok ledger w g u : verify ledger w g = Ok u ↔ ledger !! w = Some g.
Proof.
  unfold verify. destruct (ledger !! w) as [k|]; cbn; [|done].
  destruct (Z.compare_spec g k), u; naive_solver lia.
Qed.

Lemma map_err_Ok {E E' A} (f : E → E') (r : result E A) a : map_err f r = Ok a ↔ r = Ok a.
Proof. destruct r; naive_solver. Qed.

Lemma open_generation_Ok ledger w ledger' g :
  open_generation ledger w = (ledger', Ok g) →
  ledger' = <[w := g]> ledger ∧ g = 1 + default 0 (ledger !! w) ∧ g ≤ u64_max.
Proof.
  unfold open_generation, checked_add, token_new. destruct (ledger !! w) as [k|]; cbn.
  - destruct (_ <=? _) eqn:E; cbn; [|done]. destruct (_ =? 0); cbn; [done|]. intros [= <- <-].
    boolify. split_and!; [done|lia|done].
  - intros [= <- <-]. by vm_compute.
Qed.

Lemma open_generation_Err ledger w ledger' e :
  open_generation ledger w = (ledger', Err e) → ledger' = ledger.
Proof. unfold open_generation. intros H. case_match; by injection H. Qed.

Lemma screen_admission_Ok c log now r p :
  represents c log →
  screen_admission c now r = Ok p ↔
  may_admit log now r (ticket p) ∧ secret p = req_secret r.
Proof.
  intros [Hg Hp Hr _ _]. unfold screen_admission, may_admit.
  split.
  - intros H. inv_ok. boolify.
    repeat match goal with
    | H : map_err _ _ = Ok _ |- _ => apply map_err_Ok, verify_Ok in H; rewrite Hg in H
    | H : bool_decide _ = true |- _ => apply bool_decide_eq_true in H
    | H : bool_decide _ = false |- _ => apply bool_decide_eq_false in H
    end.
    rewrite Hr, not_true_iff_false in *. rewrite Hp in *.
    destruct (redeemed_in log (req_ticket_id r)); [done|]. destruct p as [t sec]; cbn in *.
    subst sec. split_and!; (done || lia || congruence).
  - intros ((Hi & Hn & Hw & Ht & Hf & Hgen) & Hs).
    rewrite (bool_decide_eq_false_2 (_ ∈ redeemed c)) by (by rewrite Hr, Hn).
    rewrite Hp, Hn, Hi. cbn. rewrite bool_decide_eq_true_2 by done. cbn.
    rewrite bool_decide_eq_true_2 by done. cbn.
    replace (issued_at_ms (ticket p) <=? now) with true by lia.
    replace (now <? expires_at_ms (ticket p)) with true by lia. cbn.
    rewrite (proj2 (verify_Ok _ _ _ tt)) by (by rewrite Hg, Hgen, Hf). cbn.
    rewrite (proj2 (verify_Ok _ _ _ tt)) by (by rewrite Hg, Hgen, Hf). cbn.
    rewrite <- Hs. by destruct p.
Qed.

(** The checks of [call] pass exactly when the log allows the call. *)
Lemma call_Ok {V} c log now s (w : WorkerCall V) c' a :
  represents c log →
  call c now s w = (c', Ok a) ↔
  ∃ t st, may_call log now s (call_id w) (method w) t ∧ sessions c !! s = Some st ∧
    c' = set_sessions c
      (<[s := mkSession (s_worker_id st) (s_fencing_token st) (s_allowed_methods st)
                (s_expires_at_ms st) ({[call_id w]} ∪ accepted_calls st) (closed st)]>
         (sessions c)) ∧
    a = mkAccepted s (call_id w) (method w) (payload w).
Proof.
  intros [Hg _ _ Hs _]. specialize (Hs s). unfold call, may_call.
  destruct (session_ticket log s) as [t|].
  2: { rewrite Hs. split; [done|]. by intros (? & ? & (? & _) & _). }
  destruct Hs as (st & -> & Hw & Ht & Hm & He & Hc & Ha). split.
  - destruct (_ ≫= _) eqn:E; [|done]. intros [= <- <-]. inv_ok. boolify.
    repeat match goal with
    | H : map_err _ _ = Ok _ |- _ => apply map_err_Ok, verify_Ok in H; rewrite Hg in H
    | H : admits _ _ = true |- _ => apply bool_decide_eq_true in H
    | H : bool_decide _ = false |- _ => apply bool_decide_eq_false in H
    end.
    rewrite Ha, not_true_iff_false in *.
    exists t, st. split_and!; try done; congruence.
  - intros (t' & st' & ([= <-] & H1 & H2 & H3 & H4 & H5) & [= <-] & -> & ->).
    rewrite Hc, H1. cbn. rewrite (proj2 (verify_Ok _ _ _ tt)) by (by rewrite Hg, Hw, Ht, H2). cbn.
    rewrite He. replace (now <? expires_at_ms t) with true by lia. cbn.
    rewrite bool_decide_eq_false_2 by (rewrite Ha; by rewrite H4). cbn. unfold admits.
    rewrite bool_decide_eq_true_2 by (by rewrite Hm). cbn. by rewrite <- He.
Qed.

Lemma call_Err {V} c now s (w : WorkerCall V) c' e : call c now s w = (c', Err e) → c' = c.
Proof. unfold call. intros H. repeat case_match; by injection H. Qed.

(** What each granted operation does to the state. *)
Lemma issue_Ok c now f1 f2 w ttl allowed c' i :
  issue c now f1 f2 w ttl allowed = (c', Returned (Ok i)) →
  ttl ≠ 0 ∧ now + ttl ≤ u64_max ∧ pending c !! ticket_id (ticket i) = None ∧
  ticket_id (ticket i) ∉ redeemed c ∧ worker_id (ticket i) = w ∧
  issued_at_ms (ticket i) = now ∧ expires_at_ms (ticket i) = now + ttl ∧
  open_generation (generations c) w = (generations c', Ok (fencing_token (ticket i))) ∧
  pending c' = <[ticket_id (ticket i) := i]> (pending c) ∧ redeemed c' = redeemed c ∧
  sessions c' = sessions c ∧ next_session c' = next_session c.
Proof.
  unfold issue, checked_add. destruct (ttl =? 0) eqn:E0; [done|].
  destruct (_ <=? u64_max) eqn:E1; [|done]. destruct f1 as [b|]; [|done].
  destruct (identifier_new _) as [id|]; [|done].
  destruct (_ || _) eqn:E2; [done|]. destruct f2 as [sec|]; [|done].
  destruct (open_generation _ w) as [g [token|]] eqn:E3; [|done]. intros [= <- <-]. cbn. boolify.
  repeat match goal with H : bool_decide _ = false |- _ => apply bool_decide_eq_false in H end.
  split_and!; try done. by apply eq_None_not_Some.
Qed.

Lemma issue_Err c now f1 f2 w ttl allowed c' e :
  issue c now f1 f2 w ttl allowed = (c', Returned (Err e)) → c' = c.
Proof. unfold issue. intros H. repeat case_match; simplify_eq; done. Qed.

Lemma admit_request_Ok c now r p c' a :
  screen_admission c now r = Ok p → admit_request c now r = (c', Returned (Ok a)) →
  let t := ticket p in
  a = mkAdmitted (next_session c) (worker_id t) (fencing_token t) (expires_at_ms t)
        (allowed_methods t) ∧
  c' = mkController (limits c) (generations c) (delete (req_ticket_id r) (pending c))
         ({[req_ticket_id r]} ∪ redeemed c)
         (<[next_session c := mkSession (worker_id t) (fencing_token t) (allowed_methods t)
                                (expires_at_ms t) ∅ false]> (sessions c)) (next_session c + 1).
Proof.
  intros Hp. unfold admit_request, checked_add. rewrite Hp. destruct (_ <=? u64_max); [|done].
  by intros [= <- <-].
Qed.

(** A session's own record only depends on what the log says of it. *)
Lemma session_represents_frame log log' s st t :
  closed_in log' s = closed_in log s → (∀ id, accepted_in log' s id = accepted_in log s id) →
  session_represents log s st t → session_represents log' s st t.
Proof.
  intros Hc Ha (H1 & H2 & H3 & H4 & H5 & H6). split_and!; try done; [by rewrite Hc|].
  intros id. by rewrite Ha.
Qed.

Lemma represents_issued c log now f1 f2 w ttl allowed c' i :
  represents c log → 0 ≤ now ∧ 0 ≤ ttl →
  issue c now f1 f2 w ttl allowed = (c', Returned (Ok i)) →
  justified log (EIssued i) ∧ represents c' (EIssued i :: log).
Proof.
  intros [Hg Hp Hr Hs Hn] Hop
    (H0 & H1 & Hpn & Hrn & Hw & Hi & He & Ho & Hp' & Hr' & Hs' & Hn')%issue_Ok.
  apply open_generation_Ok in Ho as (Hg' & Ht & Hmax). rewrite Hg in Ht.
  rewrite Hr, not_true_iff_false in Hrn. rewrite Hp, Hrn in Hpn.
  split; [by split_and!; rewrite ?Hw; try lia|]. constructor.
  - intros w'. rewrite Hg'. cbn. rewrite Hw. case_bool_decide as E.
    + subst w'. by rewrite lookup_insert_eq.
    + by rewrite lookup_insert_ne, Hg.
  - intros id. rewrite Hp'. change (redeemed_in (EIssued i :: log) id) with (redeemed_in log id).
    cbn [issued]. case_bool_decide as E.
    + subst id. by rewrite lookup_insert_eq, Hrn.
    + by rewrite lookup_insert_ne, Hp.
  - intros id. by rewrite Hr', Hr.
  - intros s. rewrite Hs'. apply (Hs s).
  - rewrite Hn', Hn, admissions_cons. done.
Qed.

Lemma represents_fenced c log w c' g :
  represents c log → fence c w = (c', Ok g) →
  justified log (EFenced w g) ∧ represents c' (EFenced w g :: log).
Proof.
  intros [Hg Hp Hr Hs Hn]. unfold fence.
  destruct (open_generation _ w) as [ledger [k|]] eqn:E; [|done]. intros [= <- <-].
  apply open_generation_Ok in E as (-> & Hk & _). rewrite Hg in Hk. split; [done|].
  constructor; cbn; try done.
  intros w'. case_bool_decide as E; [subst; by rewrite lookup_insert_eq|].
  by rewrite lookup_insert_ne, Hg.
Qed.

Lemma represents_admitted c log now r p c' a :
  represents c log → audited log → screen_admission c now r = Ok p →
  admit_request c now r = (c', Returned (Ok a)) →
  justified log (EAdmitted (session a) (ticket p) now) ∧
  represents c' (EAdmitted (session a) (ticket p) now :: log).
Proof.
  intros Hrep Hau Hp [-> ->]%(admit_request_Ok _ _ _ _ _ _ Hp). cbn [session].
  apply (screen_admission_Ok _ log) in Hp as [Hm Hsec]; [|done].
  pose proof Hm as (Hi & Hnr & _). apply issued_key in Hi as Hk. cbn in Hk.
  destruct Hrep as [Hg Hpe Hr Hs Hn].
  split; [split; [done|]; by exists r|]. constructor; cbn [generations pending redeemed sessions next_session].
  - apply Hg.
  - intros id. cbn [issued]. unfold redeemed_in. cbn [existsb]. fold (redeemed_in log id).
    rewrite Hk. case_bool_decide as E.
    + subst id. by rewrite lookup_delete_eq.
    + by rewrite lookup_delete_ne, Hpe.
  - intros id. unfold redeemed_in. cbn [existsb]. fold (redeemed_in log id).
    rewrite elem_of_union, elem_of_singleton, Hr, orb_true_iff, bool_decide_eq_true, Hk.
    naive_solver.
  - intros s. cbn [session_ticket]. case_bool_decide as E.
    + subst s. rewrite lookup_insert_eq. eexists. split; [done|].
      assert (session_ticket log (next_session c) = None) as Hnone.
      { destruct (session_ticket log _) eqn:E; [|done]. apply audited_session in E; [lia|done]. }
      apply audited_uses in Hnone as [Hc Ha]; [|done]. split_and!; try done.
      intros id. unfold accepted_in. cbn [existsb]. fold (accepted_in log (next_session c) id).
      rewrite Ha. set_solver.
    + rewrite lookup_insert_ne by done. apply (Hs s).
  - rewrite admissions_cons. cbn. lia.
Qed.

(** Changing one session in a way the log records. *)
Lemma represents_session c log e s st st' t :
  represents c log → session_ticket log s = Some t → sessions c !! s = Some st →
  (∀ w, generation (e :: log) w = generation log w) →
  (∀ id, issued (e :: log) id = issued log id) →
  (∀ id, redeemed_in (e :: log) id = redeemed_in log id) →
  (∀ s', session_ticket (e :: log) s' = session_ticket log s') → is_admission e = false →
  (∀ s', s' ≠ s → closed_in (e :: log) s' = closed_in log s') →
  (∀ s' id, s' ≠ s → accepted_in (e :: log) s' id = accepted_in log s' id) →
  session_represents (e :: log) s st' t →
  represents (set_sessions c (<[s := st']> (sessions c))) (e :: log).
Proof.
  intros [Hg Hp Hr Hs Hn] Ht Hst H1 H2 H3 H4 H5 H6 H7 Hst'.
  constructor; cbn [set_sessions generations pending redeemed sessions next_session].
  - intros w. by rewrite H1.
  - intros id. by rewrite H2, H3.
  - intros id. by rewrite H3.
  - intros s'. rewrite H4. destruct (decide (s' = s)) as [->|Hne].
    + rewrite Ht, lookup_insert_eq. by eexists.
    + rewrite lookup_insert_ne by done. specialize (Hs s').
      destruct (session_ticket log s') as [t'|]; [|done]. destruct Hs as (st1 & Hl & Hrep).
      exists st1. split; [done|]. eapply session_represents_frame; [..|done]; [by apply H6|].
      intros id. by apply H7.
  - by rewrite admissions_cons, H5.
Qed.

Lemma represents_accepted {V} c log now s (w : WorkerCall V) c' a :
  represents c log → call c now s w = (c', Ok a) →
  let e := EAccepted (acc_session a) (acc_call_id a) (acc_method a) now in
  justified log e ∧ represents c' (e :: log).
Proof.
  intros Hrep Hc. apply (call_Ok _ log) in Hc as (t & st & Hm & Hst & -> & ->); [|done].
  cbn [acc_session acc_call_id acc_method]. split; [by exists t|].
  pose proof Hm as (Ht & _). pose proof (r_sessions _ _ Hrep s) as Hs. rewrite Ht in Hs.
  destruct Hs as (st0 & Hst0 & H1 & H2 & H3 & H4 & H5 & H6). simplify_eq.
  eapply represents_session; try done.
  - intros s' id Hne. unfold accepted_in. cbn [existsb].
    rewrite bool_decide_eq_false_2; [done|]. intros [? _]. congruence.
  - split_and!; try done. intros id. unfold accepted_in. cbn [existsb accepted_calls].
    fold (accepted_in log s id). rewrite orb_true_iff, bool_decide_eq_true, <- H6. set_solver.
Qed.

Lemma represents_closed c log s c' :
  represents c log → close c s = (c', true) →
  justified log (EClosed s) ∧ represents c' (EClosed s :: log).
Proof.
  intros Hrep. unfold close. pose proof (r_sessions _ _ Hrep s) as Hs.
  destruct (sessions c !! s) as [st|] eqn:Hst; [|done].
  destruct (session_ticket log s) as [t|] eqn:Ht; [|done].
  destruct Hs as (st0 & [= <-] & H1 & H2 & H3 & H4 & H5 & H6).
  destruct (closed st) eqn:E; [done|]. intros [= <-]. split; [by split|].
  eapply represents_session; try done.
  - intros s' Hne. unfold closed_in. cbn [existsb]. rewrite bool_decide_eq_false_2; [done|].
    congruence.
  - split_and!; try done. cbn. unfold closed_in. cbn [existsb]. by rewrite bool_decide_eq_true_2.
Qed.

Lemma apply_ok {V} (op : Op V) c log c' log' :
  represents c log → audited log → op_ok op → apply op c log = Some (c', log') →
  represents c' log' ∧ audited log'.
Proof.
  intros Hrep Hau Hop. assert (∀ e c', justified log e ∧ represents c' (e :: log) →
    represents c' (e :: log) ∧ audited (e :: log)) as Hc.
  { intros e c1 [Hj Hr]. split; [done|]. by constructor. }
  destruct op as [now f1 f2 w ttl allowed|w|now r|now s w|s]; cbn [apply].
  - destruct (issue _ _ _ _ _ _ _) as [c1 [[i|e]|]] eqn:E; intros [= <- <-] || done.
    + by eapply Hc, represents_issued.
    + by apply issue_Err in E as ->.
  - destruct (fence c w) as [c1 [g|e]] eqn:E; intros [= <- <-].
    + by eapply Hc, represents_fenced.
    + unfold fence in E. destruct (open_generation _ w) eqn:E'. injection E as <- ->.
      apply open_generation_Err in E' as ->. by destruct c.
  - destruct (screen_admission c now r) as [p|e] eqn:Es.
    + destruct (admit_request c now r) as [c1 [[a|e]|]] eqn:Ea; intros [= <- <-] || done.
      * by eapply Hc, represents_admitted.
      * unfold admit_request in Ea. rewrite Es in Ea. by case_match.
    + unfold admit_request. rewrite Es. by intros [= <- <-].
  - destruct (call c now s w) as [c1 [a|e]] eqn:E; intros [= <- <-].
    + by eapply Hc, represents_accepted.
    + by apply call_Err in E as ->.
  - destruct (close c s) as [c1 []] eqn:E; intros [= <- <-].
    + by eapply Hc, represents_closed.
    + unfold close in E. repeat case_match; by simplify_eq.
Qed.

Lemma reachable_ok {V} l c log : reachable (V := V) l c log → represents c log ∧ audited log.
Proof.
  induction 1 as [c Hc|op c log c' log' _ [IH1 IH2] Hop Ha]; [|by eapply apply_ok].
  unfold new in Hc. inv_ok. by split; constructor; cbn.
Qed.

(** ** Theorems *)

(** C26. The controller refines its log. In every reachable state the answers are
    functions of what was granted before: a request is admitted exactly when its
    ticket was issued with that secret to that worker, is unredeemed, inside its
    validity window and of the worker's live generation; a call is accepted exactly
    when its session is open, of the live generation, unexpired, the call identifier
    fresh and the method granted; and every grant in the log was justified that way
    when it was made. Admission panics only when session handles are exhausted. *)
Theorem controller_refines_log {V} l c log :
  reachable (V := V) l c log →
  audited log ∧
  (∀ w, current_generation c w = generation log w) ∧
  (∀ s, is_open c s = bool_decide (is_Some (session_ticket log s)) && negb (closed_in log s)) ∧
  (∀ now r, match (admit_request c now r).2 with
            | Returned (Ok a) => ∃ t, may_admit log now r t ∧
                a = mkAdmitted (1 + admissions log) (worker_id t) (fencing_token t)
                      (expires_at_ms t) (allowed_methods t)
            | Returned (Err _) => ∀ t, ¬ may_admit log now r t
            | Panicked => u64_max - 1 ≤ admissions log
            end) ∧
  (∀ now s (w : WorkerCall V), is_ok (call c now s w).2 = true ↔
     ∃ t, may_call log now s (call_id w) (method w) t).
Proof.
  intros [Hrep Hau]%reachable_ok. split; [done|]. split; [apply Hrep|]. split; [|split].
  - intros s. unfold is_open. pose proof (r_sessions _ _ Hrep s) as Hs.
    destruct (session_ticket log s) as [t|].
    + destruct Hs as (st & -> & _ & _ & _ & _ & -> & _). done.
    + by rewrite Hs.
  - intros now r. destruct (screen_admission c now r) as [p|e] eqn:E.
    + destruct (admit_request c now r) as [c' [[a|e]|]] eqn:Ea; cbn [snd].
      * destruct (admit_request_Ok _ _ _ _ _ _ E Ea) as [-> _].
        apply (screen_admission_Ok _ log) in E as [Hm _]; [|done]. exists (ticket p).
        by rewrite (r_next _ _ Hrep).
      * unfold admit_request in Ea. rewrite E in Ea. by case_match.
      * unfold admit_request, checked_add in Ea. rewrite E in Ea.
        destruct (_ <=? u64_max) eqn:El; [done|]. boolify.
        pose proof (r_next _ _ Hrep). lia.
    + unfold admit_request. rewrite E. cbn [snd]. intros t Ht.
      assert (screen_admission c now r = Ok (mkIssued t (req_secret r))) as H; [|congruence].
      by apply (screen_admission_Ok _ log).
  - intros now s w. destruct (call c now s w) as [c' [a|e]] eqn:E; cbn [snd is_ok].
    + apply (call_Ok _ log) in E as (t & _ & Hm & _); [|done]. split; [|done]. intros _. by exists t.
    + split; [done|]. intros (t & Hm). pose proof (r_sessions _ _ Hrep s) as Hs.
      pose proof Hm as (Ht & _). rewrite Ht in Hs. destruct Hs as (st & Hst & _).
      match goal with |- _ => pose proof (proj2 (call_Ok c log now s w _ _ Hrep)
        (ex_intro _ t (ex_intro _ st (conj Hm (conj Hst (conj eq_refl eq_refl)))))) end.
      congruence.
Qed.

(** Opening a generation: by a ticket or by an eviction. *)
Definition opens (e : Event) : option (bytes * Z) :=
  match e with
  | EIssued i => Some (worker_id (ticket i), fencing_token (ticket i))
  | EFenced w g => Some (w, g)
  | _ => None
  end.

(** The ticket on whose authority an event happened. *)
Definition authority (log : list Event) (e : Event) : option AdmissionTicket :=
  match e with
  | EAdmitted _ t _ => Some t
  | EAccepted s _ _ _ => session_ticket log s
  | _ => None
  end.

Lemma opens_generation e log w g : opens e = Some (w, g) → generation (e :: log) w = Some g.
Proof. destruct e; cbn; try done; intros [= <- <-]; by rewrite bool_decide_eq_true_2. Qed.

(** A justified grant is of the generation that is live when it is made. *)
Lemma justified_live newer log e t :
  audited (newer ++ e :: log) → authority (newer ++ e :: log) e = Some t →
  generation log (worker_id t) = Some (fencing_token t).
Proof.
  intros Hau Ht. apply audited_app in Hau as Hau'. inversion_clear Hau' as [|? ? Hj Hl].
  destruct e as [| |s t' now|s id m now|]; cbn in Ht; try done.
  - injection Ht as ->. by destruct Hj as (_ & r & (_ & _ & _ & _ & _ & ?) & _).
  - destruct Hj as (t' & Hs & _ & Hg & _).
    assert (session_ticket (newer ++ EAccepted s id m now :: log) s = Some t') as Hs'
      by (by apply audited_session_app).
    congruence.
Qed.

(** Split-brain safety: once a generation of a worker has been opened, by a new
    ticket or by an eviction, every later admission and every later accepted call
    of that worker, whatever its session and whenever that was admitted, is of that
    generation or a newer one. *)
Theorem split_brain_fenced {V} l c log newer e older w g :
  reachable (V := V) l c log → log = newer ++ e :: older → opens e = Some (w, g) →
  ∀ e' t, e' ∈ newer → authority log e' = Some t → worker_id t = w → g ≤ fencing_token t.
Proof.
  intros [_ Hau]%reachable_ok -> He e' t (n1 & n2 & ->)%list_elem_of_split Ht Hw.
  rewrite <- (assoc_L app), <- app_comm_cons in Hau, Ht.
  apply justified_live in Ht as Hg; [|done]. apply (opens_generation _ older) in He.
  apply audited_app in Hau. inversion_clear Hau as [|? ? _ Hn].
  destruct (audited_generation n2 (e :: older) w g Hn He) as (g' & Hg' & Hle).
  rewrite Hw in Hg. congruence.
Qed.

Definition admitted_of (e : Event) : option (Z * bytes) :=
  match e with EAdmitted s t _ => Some (s, ticket_id t) | _ => None end.

Definition accepted_of (e : Event) : option (Z * bytes) :=
  match e with EAccepted s id _ _ => Some (s, id) | _ => None end.

(** Nothing is granted twice: over any history a ticket is redeemed at most
    once, a session handle is handed out at most once, and a call identifier is
    accepted at most once in a session; and after a session is closed none of its
    calls is accepted. *)
Theorem grants_are_single_use {V} l c log :
  reachable (V := V) l c log →
  NoDup (omap admitted_of log).*2 ∧ NoDup (omap admitted_of log).*1 ∧
  NoDup (omap accepted_of log) ∧
  (∀ newer s older id m now,
     log = newer ++ EClosed s :: older → EAccepted s id m now ∉ newer).
Proof.
  intros [_ Hau]%reachable_ok.
  assert (∀ log, audited log → (∀ id, id ∈ (omap admitted_of log).*2 → redeemed_in log id = true) ∧
    (∀ s, s ∈ (omap admitted_of log).*1 → 1 ≤ s ≤ admissions log) ∧
    (∀ s id, (s, id) ∈ omap accepted_of log → accepted_in log s id = true)) as Hin.
  { clear. induction 1 as [|e log Hj _ (IH1 & IH2 & IH3)]; [set_solver|].
    rewrite admissions_cons. unfold redeemed_in, accepted_in in *. cbn [existsb].
    pose proof (admissions_nonneg log).
    destruct e as [i|w g|s' t now|s' id' m now|s']; cbn -[Z.add]; split_and!; try done.
    - intros id [->|Hid]%elem_of_cons; [by rewrite bool_decide_eq_true_2|].
      rewrite IH1 by done. apply orb_true_r.
    - destruct Hj as [-> _]. intros s [->|Hs%IH2]%elem_of_cons; cbn; lia.
    - intros s id [[= -> ->]|Hid]%elem_of_cons; [by rewrite bool_decide_eq_true_2|].
      rewrite IH3 by done. apply orb_true_r. }
  split_and!.
  - induction Hau as [|e log Hj Ha IH]; [constructor|]. destruct e; cbn; try done.
    constructor; [|done]. intros H%(proj1 (Hin _ Ha)).
    destruct Hj as (_ & r & (_ & Hr & _) & Hk). congruence.
  - induction Hau as [|e log Hj Ha IH]; [constructor|]. destruct e; cbn; try done.
    constructor; [|done]. intros H%(proj1 (proj2 (Hin _ Ha))). destruct Hj as [-> _]. lia.
  - induction Hau as [|e log Hj Ha IH]; [constructor|]. destruct e; cbn; try done.
    constructor; [|done]. intros H%(proj2 (proj2 (Hin _ Ha))).
    destruct Hj as (t & _ & _ & _ & _ & Hf & _). congruence.
  - intros newer s older id m now -> (n1 & n2 & ->)%list_elem_of_split.
    rewrite <- (assoc_L app), <- app_comm_cons in Hau. apply audited_app in Hau.
    inversion_clear Hau as [|? ? Hj _]. destruct Hj as (t & _ & Hc & _).
    unfold closed_in in Hc. rewrite existsb_app in Hc. cbn in Hc.
    rewrite bool_decide_eq_true_2 in Hc by done. by rewrite orb_true_r in Hc.
Qed.

Lemma generation_quiet newer log w :
  Forall (λ e, fst <$> opens e ≠ Some w) newer → generation (newer ++ log) w = generation log w.
Proof.
  induction 1 as [|e newer He _ IH]; [done|].
  destruct e; cbn in *; try done; (rewrite bool_decide_eq_false_2; [done|congruence]).
Qed.

Lemma audited_redeemed log id :
  audited log → redeemed_in log id = true → is_Some (issued log id).
Proof.
  induction 1 as [|e log Hj _ IH]; [done|]. unfold redeemed_in in *. cbn [existsb].
  rewrite orb_true_iff. intros [He|Hl%IH]; destruct e as [i| |s t now| |]; try done.
  - apply bool_decide_eq_true in He as <-. destruct Hj as (_ & r & (Hi & _) & Hk).
    cbn. rewrite <- Hk, Hi. done.
  - cbn. by case_bool_decide.
Qed.

Lemma admit_request_complete c log now r t :
  represents c log → may_admit log now r t → admissions log < u64_max - 1 →
  ∃ c', admit_request c now r = (c', Returned (Ok (mkAdmitted (1 + admissions log) (worker_id t)
          (fencing_token t) (expires_at_ms t) (allowed_methods t)))) ∧
        (audited log → represents c' (EAdmitted (1 + admissions log) t now :: log)).
Proof.
  intros Hrep Hm Hn.
  assert (screen_admission c now r = Ok (mkIssued t (req_secret r))) as Hs
    by (by apply (screen_admission_Ok _ log)).
  destruct (admit_request c now r) as [c' o] eqn:Ea. pose proof Ea as Ea'.
  unfold admit_request, checked_add in Ea. rewrite Hs, (r_next _ _ Hrep) in Ea.
  replace (1 + admissions log + 1 <=? u64_max) with true in Ea by lia.
  injection Ea as _ <-. exists c'. split; [done|]. intros Hau.
  exact (proj2 (represents_admitted _ _ _ _ _ _ _ Hrep Hau Hs Ea')).
Qed.

(** An honest worker is served: the frame built from an issued ticket is
    admitted at any time in the ticket's window, whatever else happened since, as
    long as no newer generation was opened for the worker and the ticket was not
    redeemed; and the session admitted can at once call every granted method until
    the ticket's expiry. *)
Theorem honest_worker_served {V} l c newer i older now :
  let t := ticket i in
  let log := newer ++ EIssued i :: older in
  reachable (V := V) l c log →
  Forall (λ e, fst <$> opens e ≠ Some (worker_id t)) newer →
  redeemed_in newer (ticket_id t) = false → issued_at_ms t ≤ now < expires_at_ms t →
  admissions log < u64_max - 1 →
  ∃ c' s, admit_request c now (request i) =
      (c', Returned (Ok (mkAdmitted s (worker_id t) (fencing_token t) (expires_at_ms t)
                           (allowed_methods t)))) ∧
    ∀ now' (w : WorkerCall V), now' < expires_at_ms t → method w ∈ allowed_methods t →
      (call c' now' s w).2 = Ok (mkAccepted s (call_id w) (method w) (payload w)).
Proof.
  intros t log [Hrep Hau]%reachable_ok Hq Hr Hnow Hadm.
  pose proof Hau as Hau'. apply audited_app in Hau'. inversion_clear Hau' as [|? ? Hj Hold].
  assert (may_admit log now (request i) t) as Hm.
  { unfold log, t. split_and!; cbn; try done.
    - rewrite (audited_issued newer _ _ i); [by destruct i|done|]. cbn. by rewrite bool_decide_eq_true_2.
    - unfold t, redeemed_in in *. rewrite existsb_app, Hr. cbn.
      destruct (existsb _ older) eqn:E; [|done]. apply audited_redeemed in E as [? E]; [|done].
      destruct Hj as [? _]. congruence.
    - apply Hnow.
    - apply Hnow.
    - rewrite generation_quiet by done. cbn. by rewrite bool_decide_eq_true_2. }
  destruct (admit_request_complete _ _ _ _ _ Hrep Hm Hadm) as (c' & Hc' & Hrep').
  specialize (Hrep' Hau). exists c', (1 + admissions log). split; [done|]. intros now' w Hn Hw.
  assert (session_ticket log (1 + admissions log) = None) as Hnone.
  { destruct (session_ticket log _) eqn:E; [|done]. apply audited_session in E; [lia|done]. }
  apply audited_uses in Hnone as [Hc Ha]; [|done].
  assert (may_call (EAdmitted (1 + admissions log) t now :: log) now' (1 + admissions log)
            (call_id w) (method w) t) as Hcall.
  { split_and!; try done; [cbn; by rewrite bool_decide_eq_true_2|apply Hm|].
    unfold accepted_in. cbn [existsb]. apply Ha. }
  pose proof (r_sessions _ _ Hrep' (1 + admissions log)) as Hs. rewrite (proj1 Hcall) in Hs.
  destruct Hs as (st & Hst & _).
  pose proof (proj2 (call_Ok _ _ now' _ w _ _ Hrep')
    (ex_intro _ t (ex_intro _ st (conj Hcall (conj Hst (conj eq_refl eq_refl)))))) as H.
  by rewrite H.
Qed.

(** A refusal leaves no trace: every operation that answers an error, or closes
    nothing, leaves the controller exactly as it was, so neither a ticket nor a call
    identifier is consumed; and a frame over its cap is refused whatever the parser
    would have done with it. *)
Theorem refusals_change_nothing {V} c now :
  (∀ f1 f2 w ttl allowed e c', issue c now f1 f2 w ttl allowed = (c', Returned (Err e)) → c' = c) ∧
  (∀ w e c', fence c w = (c', Err e) → c' = c) ∧
  (∀ r e c', admit_request c now r = (c', Returned (Err e)) → c' = c) ∧
  (∀ s (w : WorkerCall V) e c', call c now s w = (c', Err e) → c' = c) ∧
  (∀ s c', close c s = (c', false) → c' = c) ∧
  (∀ parse frame, max_admission_bytes (limits c) < len frame →
     admit_encoded parse c now frame =
       (c, Returned (Err (AdmissionTooLarge (max_admission_bytes (limits c)) (len frame))))) ∧
  (∀ (parse : bytes → result bytes (WorkerCall V)) s frame, max_call_bytes (limits c) < len frame →
     call_encoded parse c now s frame =
       (c, Err (CallTooLarge (max_call_bytes (limits c)) (len frame)))).
Proof.
  split_and!.
  - intros. by eapply issue_Err.
  - intros w e c'. unfold fence. destruct (open_generation _ w) eqn:E. intros [= <- ->].
    apply open_generation_Err in E as ->. by destruct c.
  - intros r e c'. unfold admit_request. intros H. repeat case_match; by simplify_eq.
  - intros. by eapply call_Err.
  - intros s c'. unfold close. intros H. repeat case_match; by simplify_eq.
  - intros parse frame H. unfold admit_encoded. by replace (_ <? _) with true by lia.
  - intros parse s frame H. unfold call_encoded. by replace (_ <? _) with true by lia.
Qed.

(** ** A concrete history *)

Definition run_ops {V} (ops : list (Op V)) (start : AdmissionController * list Event)
    : option (AdmissionController * list Event) :=
  foldl (λ st op, '(c, log) ← st; apply op c log) (Some start) ops.

Lemma run_ops_reachable {V} l (ops : list (Op V)) c log c' log' :
  reachable (V := V) l c log → Forall op_ok ops → run_ops ops (c, log) = Some (c', log') →
  reachable (V := V) l c' log'.
Proof.
  unfold run_ops. intros Hr Hf. revert c log Hr.
  induction Hf as [|op ops Ho _ IH]; intros c log Hr; cbn; [by intros [= <- <-]|].
  destruct (apply op c log) as [[c1 log1]|] eqn:E.
  - apply IH. by eapply reach_op.
  - intros H. exfalso. clear -H. induction ops as [|o ops IH]; [done|]. by apply IH.
Qed.

Definition sample_id : bytes := encode_hex (replicate 16 x01).
Definition sample_secret : AdmissionSecret := replicate 32 x07.
Definition sample_methods : MethodAllowlist := {[lit "worker.heartbeat"]}.
Definition sample_ticket : AdmissionTicket :=
  mkTicket sample_id (lit "w-1") 1 1000 61000 sample_methods.

(** A ticket is issued, redeemed and used; then the worker is evicted. *)
Definition sample_ops : list (Op unit) :=
  [OIssue 1000 (Some (replicate 16 x01)) (Some sample_secret) (lit "w-1") 60000 sample_methods;
   OAdmit 2000 (request (mkIssued sample_ticket sample_secret));
   OCall 3000 1 (mkCall (lit "c-1") (lit "worker.heartbeat") tt);
   OCall 3001 1 (mkCall (lit "c-1") (lit "worker.heartbeat") tt);
   OFence (lit "w-1");
   OCall 3002 1 (mkCall (lit "c-2") (lit "worker.heartbeat") tt)].

Definition sample_start : AdmissionController := mkController default_limits ∅ ∅ ∅ ∅ 1.

Definition sample_after (n : nat) : AdmissionController * list Event :=
  default (sample_start, []) (run_ops (take n sample_ops) (sample_start, [])).

Lemma sample_reachable n :
  (n ≤ 6)%nat → reachable (V := unit) default_limits (sample_after n).1 (sample_after n).2.
Proof.
  intros Hn. unfold sample_after.
  destruct (run_ops (take n sample_ops) (sample_start, [])) as [[c log]|] eqn:E; cbn [default from_option id fst snd].
  - eapply run_ops_reachable; [by apply reach_new| |done].
    apply Forall_take. by repeat constructor.
  - by apply reach_new.
Qed.

Definition sample_log : list Event :=
  [EFenced (lit "w-1") 2;
   EAccepted 1 (lit "c-1") (lit "worker.heartbeat") 3000;
   EAdmitted 1 sample_ticket 2000;
   EIssued (mkIssued sample_ticket sample_secret)].

Lemma sample_logs :
  (sample_after 6).2 = sample_log ∧ (sample_after 1).2 = drop 3 sample_log.
Proof. split; vm_compute; reflexivity. Qed.

Lemma controller_refines_log_witness :
  audited (sample_after 6).2 ∧ length (sample_after 6).2 = 4%nat.
Proof.
  split; [|vm_compute; reflexivity].
  refine (proj1 (controller_refines_log (V := unit) default_limits (sample_after 6).1
                   (sample_after 6).2 _)).
  apply sample_reachable. lia.
Defined.

Lemma split_brain_fenced_witness : ∃ e, e ∈ sample_log ∧ opens e = Some (lit "w-1", 1) ∧
  1 ≤ fencing_token sample_ticket.
Proof.
  exists (EIssued (mkIssued sample_ticket sample_secret)). split; [do 3 right; left|].
  split; [vm_compute; reflexivity|].
  refine (split_brain_fenced (V := unit) default_limits (sample_after 6).1 sample_log
    (take 3 sample_log) (EIssued (mkIssued sample_ticket sample_secret)) [] (lit "w-1") 1
    _ eq_refl eq_refl (EAdmitted 1 sample_ticket 2000) sample_ticket _ eq_refl eq_refl).
  - rewrite <- (proj1 sample_logs). apply sample_reachable. lia.
  - right. right. left.
Defined.

Lemma grants_are_single_use_witness :
  NoDup (omap admitted_of (sample_after 6).2).*2 ∧ omap accepted_of (sample_after 6).2 = [(1, lit "c-1")].
Proof.
  split; [|vm_compute; reflexivity].
  refine (proj1 (grants_are_single_use (V := unit) default_limits (sample_after 6).1
                   (sample_after 6).2 _)).
  apply sample_reachable. lia.
Defined.

Lemma honest_worker_served_witness :
  ∃ c' s, admit_request (sample_after 1).1 60999 (request (mkIssued sample_ticket sample_secret)) =
    (c', Returned (Ok (mkAdmitted s (lit "w-1") 1 61000 sample_methods))) ∧
    ∀ now' (w : WorkerCall unit), now' < 61000 → method w ∈ sample_methods →
      (call c' now' s w).2 = Ok (mkAccepted s (call_id w) (method w) (payload w)).
Proof.
  apply (honest_worker_served (V := unit) default_limits (sample_after 1).1 []
           (mkIssued sample_ticket sample_secret) [] 60999).
  - change ([] ++ [EIssued (mkIssued sample_ticket sample_secret)]) with (drop 3 sample_log).
    rewrite <- (proj2 sample_logs). apply sample_reachable. lia.
  - constructor.
  - reflexivity.
  - cbn. lia.
  - by vm_compute.
Defined.

End Worker.
