(* ===== verification/ProviderErrors.v ===== *)
(** * Provider error taxonomy

    [crates/claw-provider-sdk/src/error.rs]: the closed classification of
    provider failures and the two predicates the reliability policies (the
    circuit breaker of [Circuit.v] and the retry executor of [Retry.v]) act on. *)

From S2P Require Import Prelude Utf8.

Inductive ErrorKind :=
| Authentication
| RateLimit
| Quota
| Transport
| Protocol
| Server
| InvalidRequest
| Cancelled
| Timeout
| CircuitOpen
| Unsupported.

#[export] Instance ErrorKind_eq_dec : EqDecision ErrorKind.
Proof. solve_decision. Defined.

Definition is_retryable (k : ErrorKind) : bool :=
  match k with
  | RateLimit | Transport | Server | Timeout => true
  | _ => false
  end.

Definition trips_circuit (k : ErrorKind) : bool :=
  match k with
  | Transport | Server | Timeout | Protocol => true
  | _ => false
  end.

Inductive FailureClass :=
| FcAuthentication
| FcRateLimited
| FcQuota
| FcUnavailable
| FcInvalidResponse
| FcInvalidRequest
| FcCancelled
| FcUnsupported.

Definition failure_class (k : ErrorKind) : FailureClass :=
  match k with
  | Authentication => FcAuthentication
  | RateLimit => FcRateLimited
  | Quota => FcQuota
  | Transport | Server | Timeout | CircuitOpen => FcUnavailable
  | Protocol => FcInvalidResponse
  | InvalidRequest => FcInvalidRequest
  | Cancelled => FcCancelled
  | Unsupported => FcUnsupported
  end.

(** [ProviderError::kind_for_status] *)
Definition kind_for_status (status : Z) : ErrorKind :=
  if (status =? 401) || (status =? 403) then Authentication
  else if status =? 402 then Quota
  else if status =? 408 then Timeout
  else if status =? 429 then RateLimit
  else if (500 <=? status) && (status <=? 599) then Server
  else InvalidRequest.

Inductive Operation :=
| OpStartup | OpPing | OpComplete | OpStreamCompletion | OpEmbed | OpListModels | OpAuthorize
| OpTransport.

Definition MAX_DETAIL_CHARS : Z := 512.

Definition SPACE_CHAR : Z := 32.
Definition ELLIPSIS : Z := 0x2026.

(** [out.ends_with(' ')] *)
Definition ends_with_space (out : str) : bool := bool_decide (last out = Some SPACE_CHAR).

(** The loop of [sanitize]: the text kept, and whether it was cut. *)
Fixpoint sanitize_loop (value : str) (max_chars : Z) (out : str) (kept : Z) : str * bool :=
  match value with
  | [] => (out, false)
  | c :: value =>
      if max_chars <=? kept then (out, true)
      else if is_control c then
        if negb (ends_with_space out) && bool_decide (out ≠ []) then
          sanitize_loop value max_chars (out ++ [SPACE_CHAR]) (kept + 1)
        else sanitize_loop value max_chars out kept
      else sanitize_loop value max_chars (out ++ [c]) (kept + 1)
  end.

Definition sanitize (value : str) (max_chars : Z) : str :=
  let '(out, truncated) := sanitize_loop value max_chars [] 0 in
  let out := trim out in
  if truncated then out ++ [ELLIPSIS] else out.

Record ProviderError := mkError {
  kind : ErrorKind;
  provider : str;
  operation : Operation;
  detail : str;
  status : option Z;
  upstream_code : option str;
  retry_after : option Z;
}.

(** [ProviderError::new] *)
Definition new_error (kind : ErrorKind) (provider : str) (operation : Operation) (detail : str)
    : ProviderError :=
  mkError kind (sanitize provider 128) operation (sanitize detail MAX_DETAIL_CHARS) None None None.

Definition with_status (e : ProviderError) (status : Z) : ProviderError :=
  mkError (kind e) (provider e) (operation e) (detail e) (Some status) (upstream_code e)
    (retry_after e).

Definition with_upstream_code (e : ProviderError) (code : str) : ProviderError :=
  mkError (kind e) (provider e) (operation e) (detail e) (status e) (Some (sanitize code 128))
    (retry_after e).

Definition with_retry_after (e : ProviderError) (retry_after : Z) : ProviderError :=
  mkError (kind e) (provider e) (operation e) (detail e) (status e) (upstream_code e)
    (Some retry_after).

Definition error_is_retryable (e : ProviderError) : bool := is_retryable (kind e).

(** ** Sanitized text *)

Definition no_control (s : str) : Prop := Forall (λ c, is_control c = false) s.

Lemma sanitize_loop_ok value max out kept :
  0 ≤ kept → len out = kept → kept ≤ max → no_control out →
  no_control (sanitize_loop value max out kept).1 ∧ len (sanitize_loop value max out kept).1 ≤ max.
Proof.
  unfold no_control. revert out kept.
  induction value as [|c value IH]; intros out kept Hk Hl Hm Hout; cbn [sanitize_loop]; [cbn; lia || by split; [|lia]|].
  destruct (max <=? kept) eqn:E; [by split; [|cbn; lia]|]. boolify.
  destruct (is_control c) eqn:Ec; [destruct (_ && _)|].
  - apply IH; [lia| |lia|]; [rewrite len_app; unfold len at 2; cbn; lia|].
    apply Forall_app. split; [done|]. by constructor.
  - by apply IH.
  - apply IH; [lia| |lia|]; [rewrite len_app; unfold len at 2; cbn; lia|].
    apply Forall_app. split; [done|]. by constructor.
Qed.

Lemma sanitize_loop_plain value max out kept :
  no_control value → kept + len value ≤ max →
  sanitize_loop value max out kept = (out ++ value, false).
Proof.
  unfold no_control. intros Hv. revert out kept.
  induction Hv as [|c value Hc Hv IH]; intros out kept Hm; cbn [sanitize_loop].
  - by rewrite app_nil_r.
  - rewrite len_cons in Hm. pose proof (len_nonneg value).
    replace (max <=? kept) with false by lia. rewrite Hc, IH by lia. by rewrite <- app_assoc.
Qed.

(** Sanitizing untrusted text: the result holds no control character, so no
    line break that could forge a log line, and at most one character (the
    ellipsis) more than the bound, whatever the input; text that has no control
    characters and fits is kept, trimmed. *)
Theorem sanitize_safe value max_chars :
  0 ≤ max_chars →
  Forall (λ c, is_control c = false) (sanitize value max_chars) ∧
  len (sanitize value max_chars) ≤ max_chars + 1 ∧
  (no_control value → len value ≤ max_chars → sanitize value max_chars = trim value).
Proof.
  intros Hm. destruct (sanitize_loop_ok value max_chars [] 0) as [Hc Hl]; [done|done|done|constructor|].
  split_and!.
  - unfold sanitize. destruct (sanitize_loop _ _ _ _) as [out cut]. cbn in Hc.
    pose proof (Forall_trim _ _ Hc). destruct cut; [|done]. apply Forall_app. split; [done|]. by constructor.
  - unfold sanitize. destruct (sanitize_loop _ _ _ _) as [out cut]. cbn in Hl.
    pose proof (len_trim out). destruct cut; [|lia]. rewrite len_app. unfold len at 2. cbn. lia.
  - intros Hn Hv. unfold sanitize. by rewrite sanitize_loop_plain.
Qed.

Lemma sanitize_safe_witness :
  sanitize (chars "bad" ++ [10; 13] ++ chars "line") 6 = chars "bad li" ++ [ELLIPSIS] ∧
  len (sanitize (chars "bad" ++ [10; 13] ++ chars "line") 6) ≤ 7.
Proof.
  split; [vm_compute; reflexivity|].
  exact (proj1 (proj2 (sanitize_safe (chars "bad" ++ [10; 13] ++ chars "line") 6 ltac:(lia)))).
Defined.
