(* ===== verification/RetryAfter.v ===== *)
(** * Retry-After

    The second half of [crates/claw-provider-sdk/src/error.rs]:
    [parse_retry_after], its IMF-fixdate parser and [days_from_civil]. The parser
    slices a [str] by byte positions, which panics off a character boundary; a
    computation here is therefore rejected, parsed or panicking. *)

From S2P Require Import Prelude Utf8.

Module RetryAfter.

Inductive Parse (A : Type) :=
| Panics
| Rejected
| Parsed (a : A).
Arguments Panics {A}.
Arguments Rejected {A}.
Arguments Parsed {A} a.

#[export] Instance parse_bind : MBind Parse := λ A B k p,
  match p with Panics => Panics | Rejected => Rejected | Parsed a => k a end.

Definition reject_if (b : bool) : Parse unit := if b then Rejected else Parsed tt.

(** [str::is_char_boundary] *)
Definition is_char_boundary (s : bytes) (i : nat) : bool :=
  bool_decide (i = 0%nat) || bool_decide (i = length s)
  || match s !! i with Some b => negb (is_cont b) | None => false end.

(** [&value[i..j]] *)
Definition str_slice (s : bytes) (i j : nat) : Parse bytes :=
  if bool_decide (i ≤ j)%nat && is_char_boundary s i && is_char_boundary s j
  then Parsed (take (j - i) (drop i s)) else Panics.

(** [bytes[i]] *)
Definition byte_at (s : bytes) (i : nat) : Parse byte :=
  match s !! i with Some b => Parsed b | None => Panics end.

Definition expect (s : bytes) (i : nat) (b : byte) : Parse bool :=
  c ← byte_at s i; Parsed (Byte.eqb c b).

(** [parse::<u32>] on digits, which the callers limit to four. *)
Definition parse_fixed_number (s : bytes) : Parse Z :=
  if bool_decide (s = []) || negb (forallb is_ascii_digit s) then Rejected
  else if digits_value s <=? u32_max then Parsed (digits_value s) else Rejected.

Definition parse_month (s : bytes) : Parse Z :=
  if bool_decide (s = lit "Jan") then Parsed 1
  else if bool_decide (s = lit "Feb") then Parsed 2
  else if bool_decide (s = lit "Mar") then Parsed 3
  else if bool_decide (s = lit "Apr") then Parsed 4
  else if bool_decide (s = lit "May") then Parsed 5
  else if bool_decide (s = lit "Jun") then Parsed 6
  else if bool_decide (s = lit "Jul") then Parsed 7
  else if bool_decide (s = lit "Aug") then Parsed 8
  else if bool_decide (s = lit "Sep") then Parsed 9
  else if bool_decide (s = lit "Oct") then Parsed 10
  else if bool_decide (s = lit "Nov") then Parsed 11
  else if bool_decide (s = lit "Dec") then Parsed 12
  else Rejected.

(** [days_from_civil]; [div_euclid] by a positive divisor is [Z]'s division, and
    the other divisions have non-negative dividends. *)
Definition days_from_civil (year month day : Z) : Z :=
  let year := if month <=? 2 then year - 1 else year in
  let era := year / 400 in
  let year_of_era := year - era * 400 in
  let day_of_year := (153 * (month + if 2 <? month then -3 else 9) + 2) / 5 + day - 1 in
  let day_of_era := year_of_era * 365 + year_of_era / 4 - year_of_era / 100 + day_of_year in
  era * 146097 + day_of_era - 719468.

Definition SPACE : byte := x20.
Definition COLON : byte := x3a.
Definition COMMA : byte := x2c.

(** [value.ends_with(" GMT")] *)
Definition ends_with_gmt (s : bytes) : bool :=
  bool_decide (drop (length s - 4) s = lit " GMT").

Definition parse_imf_fixdate (value : bytes) : Parse Z :=
  _ ← reject_if (bool_decide (length value ≠ 29%nat) || negb (ends_with_gmt value));
  c3 ← expect value 3 COMMA;
  c4 ← expect value 4 SPACE;
  _ ← reject_if (negb c3 || negb c4);
  s ← str_slice value 5 7;
  day ← parse_fixed_number s;
  c7 ← expect value 7 SPACE;
  c11 ← expect value 11 SPACE;
  c16 ← expect value 16 SPACE;
  _ ← reject_if (negb c7 || negb c11 || negb c16);
  s ← str_slice value 8 11;
  month ← parse_month s;
  s ← str_slice value 12 16;
  year ← parse_fixed_number s;
  c19 ← expect value 19 COLON;
  c22 ← expect value 22 COLON;
  _ ← reject_if (negb c19 || negb c22);
  s ← str_slice value 17 19;
  hour ← parse_fixed_number s;
  s ← str_slice value 20 22;
  minute ← parse_fixed_number s;
  s ← str_slice value 23 25;
  second ← parse_fixed_number s;
  _ ← reject_if ((day =? 0) || (31 <? day) || (23 <? hour) || (59 <? minute) || (60 <? second)
                 || (year <? 1970));
  let seconds := days_from_civil year month day * 86400 + (hour * 3600 + minute * 60 + second) in
  if (0 <=? seconds) && (seconds <=? u64_max) then Parsed seconds else Rejected.

Definition NANOS_PER_SEC : Z := 1000000000.

(** [parse_retry_after]; [now] is a [SystemTime] in nanoseconds since the epoch,
    and the result a [Duration] in seconds. *)
Definition parse_retry_after (value : str) (now : Z) : Parse Z :=
  let value := as_bytes (trim value) in
  if bool_decide (value = []) then Rejected
  else if forallb is_ascii_digit value then
    if digits_value value <=? u64_max then Parsed (digits_value value) else Rejected
  else
    target ← parse_imf_fixdate value;
    if now <? 0 then Rejected else Parsed (sat_sub target (now / NANOS_PER_SEC)).

(** ** The calendar *)

Definition is_leap (y : Z) : bool :=
  (y mod 4 =? 0) && (negb (y mod 100 =? 0) || (y mod 400 =? 0)).

Definition days_in_month (y m : Z) : Z :=
  if m =? 2 then if is_leap y then 29 else 28
  else if (m =? 4) || (m =? 6) || (m =? 9) || (m =? 11) then 30 else 31.

Definition civil_ok (y m d : Z) : Prop := 1 ≤ m ≤ 12 ∧ 1 ≤ d ≤ days_in_month y m.

(** The day after. *)
Definition next_day (y m d : Z) : Z * Z * Z :=
  if d <? days_in_month y m then (y, m, d + 1)
  else if m <? 12 then (y, m + 1, 1) else (y + 1, 1, 1).

(** The era arithmetic is the usual count of leap days. *)
Lemma days_from_civil_flat y m d :
  days_from_civil y m d =
  let y' := if m <=? 2 then y - 1 else y in
  365 * y' + y' / 4 - y' / 100 + y' / 400
  + (153 * (m + if 2 <? m then -3 else 9) + 2) / 5 + d - 1 - 719468.
Proof.
  unfold days_from_civil. cbv zeta. set (y' := if m <=? 2 then y - 1 else y).
  pose proof (Z.div_mod y' 400 ltac:(done)). pose proof (Z.mod_pos_bound y' 400).
  replace (y' - y' / 400 * 400) with (y' mod 400) by lia.
  set (q := y' / 400) in *. set (r := y' mod 400) in *.
  assert (y' / 4 = r / 4 + 100 * q) as -> by (rewrite <- Z.div_add by lia; f_equal; lia).
  assert (y' / 100 = r / 100 + 4 * q) as -> by (rewrite <- Z.div_add by lia; f_equal; lia).
  lia.
Qed.

Lemma leap_days y :
  (y / 4 - y / 100 + y / 400) - ((y - 1) / 4 - (y - 1) / 100 + (y - 1) / 400) =
  if is_leap y then 1 else 0.
Proof.
  assert (∀ k, 0 < k → y / k - (y - 1) / k = if y mod k =? 0 then 1 else 0) as H.
  { intros k Hk. pose proof (Z.div_mod y k ltac:(lia)). pose proof (Z.mod_pos_bound y k Hk).
    destruct (y mod k =? 0) eqn:E; boolify.
    - rewrite <- (Z.div_unique (y - 1) k (y / k - 1) (k - 1)) by lia. lia.
    - rewrite <- (Z.div_unique (y - 1) k (y / k) (y mod k - 1)) by lia. lia. }
  pose proof (H 4 eq_refl). pose proof (H 100 eq_refl). pose proof (H 400 eq_refl). unfold is_leap.
  assert (y mod 100 = 0 → y mod 4 = 0) as H4.
  { intros E. rewrite (Znumtheory.Zmod_div_mod 4 100 y); [by rewrite E|done|done|by exists 25]. }
  assert (y mod 400 = 0 → y mod 100 = 0) as H100.
  { intros E. rewrite (Znumtheory.Zmod_div_mod 100 400 y); [by rewrite E|done|done|by exists 4]. }
  destruct (y mod 4 =? 0) eqn:E4, (y mod 100 =? 0) eqn:E100, (y mod 400 =? 0) eqn:E400; cbn [andb orb negb];
    boolify; lia || (exfalso; tauto).
Qed.

Lemma days_in_month_pos y m : 28 ≤ days_in_month y m ≤ 31.
Proof.
  unfold days_in_month. destruct (m =? 2); [destruct (is_leap y); lia|]. destruct (_ || _); lia.
Qed.

(** Evaluate the day offset of a concrete month. *)
Ltac month_offsets :=
  repeat match goal with
  | |- context [(153 * ?e + 2) / 5] =>
      let r := eval vm_compute in ((153 * e + 2) / 5) in change ((153 * e + 2) / 5) with r
  end.

Lemma next_day_days y m d :
  civil_ok y m d →
  let '(y', m', d') := next_day y m d in
  civil_ok y' m' d' ∧ days_from_civil y' m' d' = days_from_civil y m d + 1.
Proof.
  intros [Hm Hd]. unfold next_day. destruct (d <? days_in_month y m) eqn:E; boolify.
  { split; [split; lia|]. rewrite !days_from_civil_flat. cbv zeta. lia. }
  assert (d = days_in_month y m) as -> by lia. clear E Hd.
  pose proof (leap_days y) as Hleap.
  destruct (m <? 12) eqn:E; boolify.
  - pose proof (days_in_month_pos y (m + 1)). split; [split; lia|].
    rewrite !days_from_civil_flat. unfold days_in_month.
    assert (m = 1 ∨ m = 2 ∨ m = 3 ∨ m = 4 ∨ m = 5 ∨ m = 6 ∨ m = 7 ∨ m = 8 ∨ m = 9 ∨ m = 10 ∨ m = 11)
      as Hc by lia.
    destruct Hc as [->|[->|[->|[->|[->|[->|[->|[->|[->|[->| ->]]]]]]]]]];
      (match goal with |- context [?k + 1 <=? 2] =>
         let r := eval vm_compute in (k + 1) in change (k + 1) with r end);
      cbn -[Z.div Z.mul is_leap]; month_offsets; try destruct (is_leap y); lia.
  - assert (m = 12) as -> by lia. pose proof (days_in_month_pos (y + 1) 1). split; [split; lia|].
    rewrite !days_from_civil_flat. cbn -[Z.div Z.mul]. month_offsets.
    replace (y + 1 - 1) with y by lia. lia.
Qed.

(** [days_from_civil] counts days: it is 0 on 1970-01-01 and grows by exactly
    one from any date of the proleptic Gregorian calendar to the next, across month
    ends, leap days and centuries, in every year, also before the epoch. *)
Theorem days_from_civil_calendar y m d :
  days_from_civil 1970 1 1 = 0 ∧
  (civil_ok y m d →
   let '(y', m', d') := next_day y m d in
   civil_ok y' m' d' ∧ days_from_civil y' m' d' = days_from_civil y m d + 1).
Proof. split; [reflexivity|apply next_day_days]. Qed.

(** ** Printing dates *)

Definition two (n : Z) : bytes := [byte_of (48 + n / 10); byte_of (48 + n mod 10)].
Definition four (n : Z) : bytes := two (n / 100) ++ two (n mod 100).

Definition month_name (m : Z) : bytes :=
  nth (Z.to_nat (m - 1))
    [lit "Jan"; lit "Feb"; lit "Mar"; lit "Apr"; lit "May"; lit "Jun"; lit "Jul"; lit "Aug";
     lit "Sep"; lit "Oct"; lit "Nov"; lit "Dec"] [].

(** The IMF-fixdate of RFC 9110, after the three letters of the weekday. *)
Definition imf_fixdate (weekday : bytes) (y m d hour minute second : Z) : bytes :=
  weekday ++ [COMMA; SPACE] ++ two d ++ [SPACE] ++ month_name m ++ [SPACE] ++ four y
  ++ [SPACE] ++ two hour ++ [COLON] ++ two minute ++ [COLON] ++ two second ++ lit " GMT".

Lemma digit_not_cont b : is_ascii_digit b = true → is_cont b = false.
Proof. unfold is_ascii_digit, is_cont, in_range. intros H. boolify. apply andb_false_iff. left. lia. Qed.

Lemma digit_byte z : 0 ≤ z ≤ 9 → is_ascii_digit (byte_of (48 + z)) = true ∧ u8 (byte_of (48 + z)) = 48 + z.
Proof.
  intros Hz. assert (u8 (byte_of (48 + z)) = 48 + z) as E by (apply u8_byte_of; lia).
  split; [|done]. unfold is_ascii_digit. rewrite E. apply andb_true_iff. lia.
Qed.

(** Any two-digit field. *)
Lemma two_digits n :
  0 ≤ n ≤ 99 → ∃ a b, two n = [a; b] ∧ is_ascii_digit a = true ∧ is_ascii_digit b = true ∧
    digits_value [a; b] = n.
Proof.
  intros Hn. pose proof (Z.div_mod n 10 ltac:(done)). pose proof (Z.mod_pos_bound n 10 eq_refl).
  assert (0 ≤ n / 10 ≤ 9) by (split; [apply Z.div_pos; lia|apply Z.lt_succ_r, Z.div_lt_upper_bound; lia]).
  destruct (digit_byte (n / 10)) as [Ha Hau]; [done|].
  destruct (digit_byte (n mod 10)) as [Hb Hbu]; [lia|].
  eexists _, _. split_and!; [done|done|done|]. cbn [digits_value foldl]. rewrite Hau, Hbu. lia.
Qed.

Lemma parse_digits s :
  s ≠ [] → forallb is_ascii_digit s = true → digits_value s ≤ u32_max →
  parse_fixed_number s = Parsed (digits_value s).
Proof.
  intros Hne Hd Hv. unfold parse_fixed_number. rewrite bool_decide_eq_false_2, Hd by done. cbn [orb negb].
  by replace (digits_value s <=? u32_max) with true by lia.
Qed.

Lemma slice_ok s i j a b :
  s !! i = Some a → is_cont a = false → s !! j = Some b → is_cont b = false → (i ≤ j)%nat →
  str_slice s i j = Parsed (take (j - i) (drop i s)).
Proof.
  intros Ha Ca Hb Cb Hij. unfold str_slice, is_char_boundary. rewrite Ha, Hb, Ca, Cb.
  rewrite bool_decide_eq_true_2 by done. cbn [negb]. by rewrite !orb_true_r.
Qed.

(** The fields of a date of the right shape. *)
Lemma parse_imf_shape w1 w2 w3 d1 d2 m1 m2 m3 y1 y2 y3 y4 h1 h2 i1 i2 s1 s2 day month year hour minute second :
  Forall (λ b, is_ascii_digit b = true) [d1; d2; y1; y2; y3; y4; h1; h2; i1; i2; s1; s2] →
  is_cont m1 = false → parse_month [m1; m2; m3] = Parsed month →
  digits_value [d1; d2] = day → digits_value [y1; y2; y3; y4] = year →
  digits_value [h1; h2] = hour → digits_value [i1; i2] = minute → digits_value [s1; s2] = second →
  1 ≤ day ≤ 31 → 1970 ≤ year ≤ 9999 → 0 ≤ hour ≤ 23 → 0 ≤ minute ≤ 59 → 0 ≤ second ≤ 60 →
  let seconds := days_from_civil year month day * 86400 + (hour * 3600 + minute * 60 + second) in
  0 ≤ seconds ≤ u64_max →
  parse_imf_fixdate ([w1; w2; w3; COMMA; SPACE; d1; d2; SPACE; m1; m2; m3; SPACE; y1; y2; y3; y4;
    SPACE; h1; h2; COLON; i1; i2; COLON; s1; s2] ++ lit " GMT") = Parsed seconds.
Proof.
  rewrite !Forall_cons. intros (D1 & D2 & Y1 & Y2 & Y3 & Y4 & H1 & H2 & I1 & I2 & S1 & S2 & _) M1 HM
    Ed Ey Eh Ei Es Hd Hy Hh Hi Hs seconds Hsec.
  change (lit " GMT") with [x20; x47; x4d; x54]. cbn [app]. set (v := w1 :: _).
  apply digit_not_cont in D1 as D1'. apply digit_not_cont in Y1 as Y1'. apply digit_not_cont in H1 as H1'.
  apply digit_not_cont in I1 as I1'. apply digit_not_cont in S1 as S1'.
  assert (str_slice v 5 7 = Parsed [d1; d2]) as E5 by (apply (slice_ok v 5 7 d1 SPACE); done || lia).
  assert (str_slice v 8 11 = Parsed [m1; m2; m3]) as E8 by (apply (slice_ok v 8 11 m1 SPACE); done || lia).
  assert (str_slice v 12 16 = Parsed [y1; y2; y3; y4]) as E12 by (apply (slice_ok v 12 16 y1 SPACE); done || lia).
  assert (str_slice v 17 19 = Parsed [h1; h2]) as E17 by (apply (slice_ok v 17 19 h1 COLON); done || lia).
  assert (str_slice v 20 22 = Parsed [i1; i2]) as E20 by (apply (slice_ok v 20 22 i1 COLON); done || lia).
  assert (str_slice v 23 25 = Parsed [s1; s2]) as E23 by (apply (slice_ok v 23 25 s1 SPACE); done || lia).
  assert (∀ s, s ≠ [] → forallb is_ascii_digit s = true → digits_value s ≤ 9999 →
            parse_fixed_number s = Parsed (digits_value s)) as Hnum
    by (intros; apply parse_digits; [done|done|change u32_max with 4294967295; lia]).
  unfold parse_imf_fixdate.
  change (reject_if (bool_decide (length v ≠ 29%nat) || negb (ends_with_gmt v))) with (Parsed tt).
  change (expect v 3 COMMA) with (Parsed true). change (expect v 4 SPACE) with (Parsed true).
  change (expect v 7 SPACE) with (Parsed true). change (expect v 11 SPACE) with (Parsed true).
  change (expect v 16 SPACE) with (Parsed true). change (expect v 19 COLON) with (Parsed true).
  change (expect v 22 COLON) with (Parsed true).
  rewrite E5, E8, E12, E17, E20, E23. cbn [mbind parse_bind negb orb reject_if].
  rewrite (Hnum [d1; d2]), Ed; [|done|cbn; by rewrite D1, D2|lia]. cbn [mbind parse_bind].
  rewrite HM. cbn [mbind parse_bind].
  rewrite (Hnum [y1; y2; y3; y4]), Ey; [|done|cbn; by rewrite Y1, Y2, Y3, Y4|lia]. cbn [mbind parse_bind].
  rewrite (Hnum [h1; h2]), Eh; [|done|cbn; by rewrite H1, H2|lia]. cbn [mbind parse_bind].
  rewrite (Hnum [i1; i2]), Ei; [|done|cbn; by rewrite I1, I2|lia]. cbn [mbind parse_bind].
  rewrite (Hnum [s1; s2]), Es; [|done|cbn; by rewrite S1, S2|lia]. cbn [mbind parse_bind].
  replace ((day =? 0) || _ || _ || _ || _ || _) with false by lia. cbn [reject_if]. fold seconds.
  by replace ((0 <=? seconds) && (seconds <=? u64_max)) with true by lia.
Qed.

Lemma month_name_parse m :
  1 ≤ m ≤ 12 → ∃ a b c, month_name m = [a; b; c] ∧ is_cont a = false ∧ parse_month [a; b; c] = Parsed m.
Proof.
  intros Hm.
  assert (m = 1 ∨ m = 2 ∨ m = 3 ∨ m = 4 ∨ m = 5 ∨ m = 6 ∨ m = 7 ∨ m = 8 ∨ m = 9 ∨ m = 10 ∨ m = 11 ∨ m = 12)
    as Hc by lia.
  destruct Hc as [->|[->|[->|[->|[->|[->|[->|[->|[->|[->|[->| ->]]]]]]]]]]];
    eexists _, _, _; (split; [reflexivity|]); split; vm_compute; reflexivity.
Qed.

Lemma days_from_civil_range y m d :
  1970 ≤ y ≤ 9999 → 1 ≤ m ≤ 12 → 1 ≤ d ≤ 31 → 0 ≤ days_from_civil y m d ≤ 4000000.
Proof.
  intros Hy Hm Hd. rewrite days_from_civil_flat. cbv zeta.
  set (y' := if m <=? 2 then y - 1 else y). set (k := m + if 2 <? m then -3 else 9).
  assert (1969 ≤ y' ≤ 9999 ∧ 0 ≤ k ≤ 11 ∧ (y' = 1969 → 10 ≤ k)) as (Hy' & Hk & H69).
  { unfold y', k. destruct (m <=? 2) eqn:E1, (2 <? m) eqn:E2; boolify; lia. }
  pose proof (Z.div_mod y' 4 ltac:(done)). pose proof (Z.mod_pos_bound y' 4 eq_refl).
  pose proof (Z.div_mod y' 100 ltac:(done)). pose proof (Z.mod_pos_bound y' 100 eq_refl).
  pose proof (Z.div_mod y' 400 ltac:(done)). pose proof (Z.mod_pos_bound y' 400 eq_refl).
  pose proof (Z.div_mod (153 * k + 2) 5 ltac:(done)). pose proof (Z.mod_pos_bound (153 * k + 2) 5 eq_refl).
  destruct (decide (y' = 1969)) as [E|Hne]; lia.
Qed.

(** Date round trip: an IMF-fixdate printed from any valid civil date and time
    from 1970 to 9999, leap second included, parses to its seconds since the
    epoch. *)
Theorem imf_fixdate_roundtrip weekday y m d hour minute second :
  length weekday = 3%nat → 1970 ≤ y ≤ 9999 → civil_ok y m d →
  0 ≤ hour ≤ 23 → 0 ≤ minute ≤ 59 → 0 ≤ second ≤ 60 →
  parse_imf_fixdate (imf_fixdate weekday y m d hour minute second) =
  Parsed (days_from_civil y m d * 86400 + (hour * 3600 + minute * 60 + second)).
Proof.
  intros Hw Hy [Hm Hd] Hh Hi Hs. pose proof (days_in_month_pos y m).
  destruct weekday as [|w1 [|w2 [|w3 [|]]]]; try done.
  destruct (two_digits d) as (d1 & d2 & Ed & D1 & D2 & Vd); [lia|].
  destruct (two_digits hour) as (h1 & h2 & Eh & H1 & H2 & Vh); [lia|].
  destruct (two_digits minute) as (i1 & i2 & Ei & I1 & I2 & Vi); [lia|].
  destruct (two_digits second) as (s1 & s2 & Es & S1 & S2 & Vs); [lia|].
  pose proof (Z.div_mod y 100 ltac:(done)). pose proof (Z.mod_pos_bound y 100 eq_refl).
  destruct (two_digits (y / 100)) as (y1 & y2 & Ey & Y1 & Y2 & Vy); [lia|].
  destruct (two_digits (y mod 100)) as (y3 & y4 & Ez & Y3 & Y4 & Vz); [lia|].
  destruct (month_name_parse m Hm) as (m1 & m2 & m3 & Em & M1 & Vm).
  pose proof (days_from_civil_range y m d Hy Hm ltac:(lia)).
  unfold imf_fixdate, four. rewrite Ed, Em, Ey, Ez, Eh, Ei, Es.
  apply (parse_imf_shape w1 w2 w3 d1 d2 m1 m2 m3 y1 y2 y3 y4 h1 h2 i1 i2 s1 s2); try done; try lia.
  - by repeat constructor.
  - cbn [digits_value foldl] in *. lia.
  - change u64_max with 18446744073709551615. lia.
Qed.

Lemma imf_fixdate_roundtrip_witness :
  imf_fixdate (lit "Sun") 1994 11 6 8 49 37 = lit "Sun, 06 Nov 1994 08:49:37 GMT" ∧
  parse_imf_fixdate (lit "Sun, 06 Nov 1994 08:49:37 GMT") = Parsed 784111777.
Proof.
  split; [vm_compute; reflexivity|].
  exact (imf_fixdate_roundtrip (lit "Sun") 1994 11 6 8 49 37 eq_refl ltac:(lia)
    ltac:(split; [lia|]; vm_compute; split; discriminate) ltac:(lia) ltac:(lia) ltac:(lia)).
Defined.

(** ** Header values *)

Lemma ascii_slice s i j :
  Forall (λ b, u8 b < 128) s → (i ≤ j)%nat → (j ≤ length s)%nat → str_slice s i j ≠ Panics.
Proof.
  intros Ha Hij Hj. unfold str_slice.
  assert (∀ k, (k ≤ length s)%nat → is_char_boundary s k = true) as Hb.
  { intros k Hk. unfold is_char_boundary. destruct (decide (k = length s)) as [->|Hne].
    - rewrite (bool_decide_eq_true_2 (length s = length s)) by done. by rewrite orb_true_r.
    - destruct (lookup_lt_is_Some_2 s k) as [b Hb]; [lia|]. rewrite Hb.
      eapply Forall_lookup_1 in Hb; [|done]. cbn in Hb.
      replace (is_cont b) with false; [by rewrite orb_true_r|].
      symmetry. unfold is_cont, in_range. apply andb_false_iff. left. lia. }
  rewrite !Hb, bool_decide_eq_true_2 by (done || lia). done.
Qed.

Lemma parse_bind_no_panic {A B} (p : Parse A) (k : A → Parse B) :
  p ≠ Panics → (∀ a, k a ≠ Panics) → p ≫= k ≠ Panics.
Proof. intros Hp Hk. destruct p; [done|done|apply Hk]. Qed.

Lemma byte_at_no_panic s i : (i < length s)%nat → byte_at s i ≠ Panics.
Proof. intros Hi. unfold byte_at. by destruct (lookup_lt_is_Some_2 s i Hi) as [c ->]. Qed.

Lemma parse_fixed_number_no_panic s : parse_fixed_number s ≠ Panics.
Proof. unfold parse_fixed_number. destruct (_ || _); [done|]. by destruct (_ <=? _). Qed.

Lemma parse_month_no_panic s : parse_month s ≠ Panics.
Proof. unfold parse_month. repeat (case_bool_decide; [done|]). done. Qed.

Lemma parse_imf_no_panic value :
  Forall (λ b, u8 b < 128) value → parse_imf_fixdate value ≠ Panics.
Proof.
  intros Ha. unfold parse_imf_fixdate.
  destruct (decide (length value = 29%nat)) as [Hl|Hl].
  2:{ rewrite bool_decide_eq_true_2 by done. done. }
  rewrite bool_decide_eq_false_2 by tauto.
  repeat (apply parse_bind_no_panic; [|intros ?]);
    try done; try (apply byte_at_no_panic; lia); try (apply ascii_slice; [done|lia|lia]);
    try apply parse_fixed_number_no_panic; try apply parse_month_no_panic;
    try (unfold reject_if; match goal with |- context [if ?b then _ else _] => destruct b end; done).
Qed.

(** A Retry-After value: a count of seconds is taken exactly, up to 64 bits; an
    HTTP date yields the time left until it, zero when it is past; ASCII values
    never panic; and a clock before the epoch yields nothing for a date. *)
Theorem retry_after_contract value now :
  let text := as_bytes (trim value) in
  (forallb is_ascii_digit text = true → text ≠ [] →
     parse_retry_after value now =
     if digits_value text <=? u64_max then Parsed (digits_value text) else Rejected) ∧
  (∀ t, parse_imf_fixdate text = Parsed t → forallb is_ascii_digit text = false → 0 ≤ now →
     parse_retry_after value now = Parsed (Z.max 0 (t - now / NANOS_PER_SEC))) ∧
  (Forall (λ b, u8 b < 128) text → parse_retry_after value now ≠ Panics).
Proof.
  intros text. unfold parse_retry_after. fold text. split_and!.
  - intros Hd Hne. by rewrite bool_decide_eq_false_2, Hd.
  - intros t Ht Hd Hn. case_bool_decide as He; [by rewrite He in Hd|].
    rewrite Hd, Ht. cbn. by replace (now <? 0) with false by lia.
  - intros Ha. case_bool_decide; [done|]. destruct (forallb _ _); [by destruct (_ <=? _)|].
    apply parse_bind_no_panic; [by apply parse_imf_no_panic|]. intros t. by destruct (now <? 0).
Qed.

(** ** Where the parser departs from its documentation *)

(** A header value of 29 bytes whose sixth and seventh are one character. *)
Definition hostile_date : str :=
  chars "Sun, 0" ++ [0xE9] ++ chars "Nov 1994 08:49:37 GMT".

(** A header value can panic the parser: a 29-byte value with the right fixed
    bytes whose day field ends inside a two-byte character is sliced off a
    character boundary, where the documentation promises that any other input
    returns [None]. *)
Theorem non_ascii_date_panics :
  length (as_bytes (trim hostile_date)) = 29%nat ∧
  Forall (λ c, is_scalar c = true) hostile_date ∧
  parse_retry_after hostile_date 0 = Panics.
Proof. split_and!; [vm_compute; reflexivity|repeat constructor|vm_compute; reflexivity]. Qed.

(** A date that does not exist is accepted and read as a later one: the day is
    only checked against 31, so 31 February 1995 is taken for 3 March 1995. *)
Theorem impossible_date_accepted :
  ¬ civil_ok 1995 2 31 ∧
  parse_imf_fixdate (lit "Fri, 31 Feb 1995 00:00:00 GMT") =
    parse_imf_fixdate (lit "Fri, 03 Mar 1995 00:00:00 GMT") ∧
  parse_imf_fixdate (lit "Fri, 31 Feb 1995 00:00:00 GMT") =
    Parsed (days_from_civil 1995 3 3 * 86400).
Proof.
  split_and!; [|vm_compute; reflexivity..].
  intros [_ [_ H]]. vm_compute in H. by apply H.
Qed.

End RetryAfter.
