(* ===== verification/Retry.v ===== *)
(** * Retrying

    [crates/claw-provider-sdk/src/retry.rs]: the backoff schedule, the jittered
    delay and the executor. A [Duration] is its nanoseconds. The jitter samples are
    [f64]s, modelled as the IEEE 754 specification floats of the Standard Library
    at binary64; what a caller of the executor supplies (the operation, the
    cancellation token, the jitter source) is an environment giving, for each
    attempt, what those answer. *)

From Stdlib Require Import Floats.SpecFloat.
From S2P Require Import Prelude Utf8 ProviderErrors.

Module Retry.

Definition NANOS_PER_SEC : Z := 1000000000.
Definition u128_max : Z := 2 ^ 128 - 1.

(** The largest [Duration]. *)
Definition duration_max : Z := u64_max * NANOS_PER_SEC + (NANOS_PER_SEC - 1).

Inductive JitterMode := NoJitter | Full | Equal.

Record RetryPolicy := mkPolicy {
  max_attempts : Z;
  initial_backoff : Z;
  max_backoff : Z;
  multiplier_centi : Z;
  jitter : JitterMode;
  respect_retry_after : bool;
  max_retry_after : Z;
}.

Definition default_policy : RetryPolicy :=
  mkPolicy 4 (500 * 1000000) (30 * NANOS_PER_SEC) 200 Full true (120 * NANOS_PER_SEC).

(** [RetryPolicy::never] *)
Definition never : RetryPolicy := mkPolicy 1 0 0 100 NoJitter false 0.

(** One step of the schedule: [saturating_mul] on [u128], then the division. *)
Definition scaled (p : RetryPolicy) (delay : Z) : Z :=
  Z.min (delay * multiplier_centi p) u128_max / 100.

(** The loop of [base_backoff], [n] iterations left. *)
Fixpoint backoff_loop (p : RetryPolicy) (n : nat) (delay : Z) : Z :=
  match n with
  | O => Z.min delay (max_backoff p)
  | S n =>
      let s := scaled p delay in
      if max_backoff p <=? s then max_backoff p
      else if s =? delay then Z.min delay (max_backoff p)
      else backoff_loop p n (Z.min s u64_max)
  end.

Definition base_backoff (p : RetryPolicy) (attempt : Z) : Z :=
  if attempt =? 0 then 0 else backoff_loop p (Z.to_nat (attempt - 1)) (initial_backoff p).

(** ** Floats *)

Abbreviation f64 := spec_float.

Definition f64_zero : f64 := S754_zero false.
Definition f64_one : f64 := binary_normalize 53 1024 1 0 false.

(** 0.5, as the jitter source of the tests answers. *)
Definition f64_half : f64 := SFdiv 53 1024 f64_one (binary_normalize 53 1024 2 0 false).

Definition is_finite (f : f64) : bool :=
  match f with S754_zero _ | S754_finite _ _ _ => true | _ => false end.

(** [z as f64] *)
Definition f64_of (z : Z) : f64 := binary_normalize 53 1024 z 0 false.

(** [Duration::as_secs_f64] *)
Definition as_secs_f64 (d : Z) : f64 :=
  SFadd 53 1024 (f64_of (d / NANOS_PER_SEC))
    (SFdiv 53 1024 (f64_of (d mod NANOS_PER_SEC)) (f64_of NANOS_PER_SEC)).

(** The quotient rounded to the nearest integer, ties to even. *)
Definition round_half_even (n d : Z) : Z :=
  let q := n / d in
  let r := n mod d in
  if 2 * r <? d then q
  else if d <? 2 * r then q + 1
  else if Z.even q then q else q + 1.

(** [Duration::try_from_secs_f64] *)
Definition try_from_secs_f64 (f : f64) : option Z :=
  match f with
  | S754_zero _ => Some 0
  | S754_finite false m e =>
      let nanos :=
        if 0 <=? e then Zpos m * 2 ^ e * NANOS_PER_SEC
        else round_half_even (Zpos m * NANOS_PER_SEC) (2 ^ (- e)) in
      if nanos <=? duration_max then Some nanos else None
  | _ => None
  end.

Definition scale (duration : Z) (fraction : f64) : Z :=
  if negb (is_finite fraction) || SFleb fraction f64_zero then 0
  else if SFleb f64_one fraction then duration
  else
    Z.min (default duration (try_from_secs_f64 (SFmul 53 1024 (as_secs_f64 duration) fraction)))
      duration.

Definition delay_for (p : RetryPolicy) (attempt : Z) (retry_after : option Z) (sample : f64) : Z :=
  match respect_retry_after p, retry_after with
  | true, Some hint => Z.min hint (max_retry_after p)
  | _, _ =>
      let base := base_backoff p attempt in
      match jitter p with
      | NoJitter => base
      | Full => scale base sample
      | Equal => let half := base / 2 in half + scale half sample
      end
  end.

(** ** The executor *)

Section executor.
Context {T : Type}.

(** What the caller's token, operation and jitter source answer at one attempt. *)
Record AttemptEnv := mkEnv {
  cancelled_before : bool;
  outcome : result ProviderError T;
  sample : f64;
  cancelled_after : bool;
  cancelled_in_sleep : bool;
}.

Inductive Event := Attempted (attempt : Z) | Slept (delay : Z).

Definition cancelled (provider : str) (op : Operation) (detail : str) : ProviderError :=
  new_error Cancelled provider op detail.

(** The loop of [RetryExecutor::run], [n] attempts left after [last_error]; the
    events are what the operation and the clock saw. *)
Fixpoint run_loop (p : RetryPolicy) (provider : str) (op : Operation) (env : Z → AttemptEnv)
    (n : nat) (attempt attempts : Z) (last_error : option ProviderError)
    : result ProviderError T * list Event :=
  let exhausted := Err (default (cancelled provider op (chars "cancelled during backoff")) last_error) in
  match n with
  | O => (exhausted, [])
  | S n =>
      let e := env attempt in
      if cancelled_before e then
        (Err (cancelled provider op (chars "cancelled before attempt")), [])
      else
        match outcome e with
        | Ok value => (Ok value, [Attempted attempt])
        | Err error =>
            if negb (error_is_retryable error && (attempt <? attempts)) then
              (Err error, [Attempted attempt])
            else
              let delay := delay_for p attempt (retry_after error) (sample e) in
              if cancelled_after e then (Err error, [Attempted attempt])
              else if negb (delay =? 0) && cancelled_in_sleep e then (Err error, [Attempted attempt])
              else
                let '(r, events) :=
                  run_loop p provider op env n (attempt + 1) attempts (Some error) in
                (r, Attempted attempt :: (if delay =? 0 then [] else [Slept delay]) ++ events)
        end
  end.

Definition run (p : RetryPolicy) (provider : str) (op : Operation) (env : Z → AttemptEnv)
    : result ProviderError T * list Event :=
  let attempts := Z.max (max_attempts p) 1 in
  run_loop p provider op env (Z.to_nat attempts) 1 attempts None.

End executor.
Arguments AttemptEnv : clear implicits.

(** ** The schedule *)

Definition policy_ok (p : RetryPolicy) : Prop :=
  0 ≤ initial_backoff p ≤ duration_max ∧ 0 ≤ max_backoff p ≤ duration_max ∧
  0 ≤ multiplier_centi p ≤ u32_max ∧ 0 ≤ max_retry_after p ≤ duration_max.

Lemma backoff_loop_range p n delay :
  policy_ok p → 0 ≤ delay → 0 ≤ backoff_loop p n delay ≤ max_backoff p.
Proof.
  intros (Hi & Hx & Hm & _). revert delay. induction n as [|n IH]; intros delay Hd; cbn [backoff_loop]; [lia|].
  destruct (max_backoff p <=? _); [lia|]. destruct (_ =? delay); [lia|]. apply IH.
  assert (0 ≤ u64_max) by (by vm_compute).
  assert (0 ≤ scaled p delay); [|lia]. unfold scaled. apply Z.div_pos; [|done].
  assert (0 ≤ u128_max) by (by vm_compute). nia.
Qed.

(** The schedule without its early exits: [k] steps from the initial delay. *)
Definition grow (p : RetryPolicy) (d : Z) : Z := d * multiplier_centi p / 100.

Fixpoint grown (p : RetryPolicy) (k : nat) (d : Z) : Z :=
  match k with O => d | S k => grown p k (grow p d) end.

Lemma grow_ge p d : 100 ≤ multiplier_centi p → 0 ≤ d → d ≤ grow p d.
Proof. intros Hm Hd. unfold grow. apply Z.div_le_lower_bound; nia. Qed.

Lemma grown_ge p k d : 100 ≤ multiplier_centi p → 0 ≤ d → d ≤ grown p k d.
Proof.
  intros Hm. revert d. induction k as [|k IH]; intros d Hd; cbn; [lia|].
  pose proof (grow_ge p d Hm Hd). etrans; [|apply IH; lia]. done.
Qed.

Lemma grown_fixed p k d : grow p d = d → grown p k d = d.
Proof. intros H. induction k as [|k IH]; cbn; [done|]. by rewrite H. Qed.

Lemma scaled_grow p d :
  0 ≤ d ≤ duration_max → 0 ≤ multiplier_centi p ≤ u32_max → scaled p d = grow p d.
Proof.
  intros Hd Hm. unfold scaled, grow. rewrite Z.min_l; [done|].
  change duration_max with 18446744073709551615999999999 in Hd. change u32_max with 4294967295 in Hm.
  change u128_max with 340282366920938463463374607431768211455. nia.
Qed.

Lemma backoff_loop_grown p n delay :
  policy_ok p → 100 ≤ multiplier_centi p → max_backoff p ≤ u64_max → 0 ≤ delay ≤ duration_max →
  backoff_loop p n delay = Z.min (grown p n delay) (max_backoff p).
Proof.
  intros Hok Hm Hx. pose proof Hok as (Hi & Hxx & Hmm & _). revert delay.
  induction n as [|n IH]; intros delay Hd; cbn [backoff_loop grown]; [done|].
  rewrite scaled_grow by done. pose proof (grow_ge p delay Hm ltac:(lia)).
  pose proof (grown_ge p n (grow p delay) Hm ltac:(lia)).
  destruct (max_backoff p <=? grow p delay) eqn:E1; boolify; [lia|].
  destruct (grow p delay =? delay) eqn:E2; boolify.
  - by rewrite E2, grown_fixed.
  - rewrite Z.min_l by lia. apply IH. change duration_max with 18446744073709551615999999999.
    change u64_max with 18446744073709551615 in Hx. lia.
Qed.

(** The backoff schedule: the delay never exceeds [max_backoff]; with a
    multiplier of at least 1.0 it is exactly the exponential schedule clamped to
    [max_backoff], the loop's early exits notwithstanding, and never shrinks from
    one attempt to the next. *)
Theorem backoff_schedule p attempt :
  policy_ok p → 1 ≤ attempt →
  0 ≤ base_backoff p attempt ≤ max_backoff p ∧
  (100 ≤ multiplier_centi p → max_backoff p ≤ u64_max →
   base_backoff p attempt =
     Z.min (grown p (Z.to_nat (attempt - 1)) (initial_backoff p)) (max_backoff p) ∧
   base_backoff p attempt ≤ base_backoff p (attempt + 1)).
Proof.
  intros Hok Ha. pose proof Hok as (Hi & Hx & Hm & _). unfold base_backoff.
  replace (attempt =? 0) with false by lia. replace (attempt + 1 =? 0) with false by lia.
  split; [apply backoff_loop_range; [done|lia]|]. intros Hc Hu.
  rewrite !backoff_loop_grown by done. split; [done|].
  replace (Z.to_nat (attempt + 1 - 1)) with (S (Z.to_nat (attempt - 1))) by lia.
  enough (∀ k d, 0 ≤ d → grown p k d ≤ grown p (S k) d) as H by (specialize (H (Z.to_nat (attempt - 1)) (initial_backoff p)); lia).
  intros k. induction k as [|k IH]; intros d Hd.
  - by apply grow_ge.
  - apply (IH (grow p d)). pose proof (grow_ge p d Hc Hd). lia.
Qed.

Lemma backoff_schedule_witness :
  base_backoff default_policy 3 = 2000000000 ∧ base_backoff default_policy 9 = 30000000000 ∧
  base_backoff default_policy 3 ≤ base_backoff default_policy (3 + 1).
Proof.
  split; [vm_compute; reflexivity|]. split; [vm_compute; reflexivity|].
  refine (proj2 (proj2 (backoff_schedule default_policy 3 _ _) _ _)); try (vm_compute; discriminate).
  repeat split; vm_compute; discriminate.
Defined.

(** ** The delay *)

Lemma round_half_even_nonneg n d : 0 ≤ n → 0 < d → 0 ≤ round_half_even n d.
Proof.
  intros Hn Hd. pose proof (Z.div_pos n d Hn Hd). unfold round_half_even.
  repeat case_match; lia.
Qed.

Lemma try_from_secs_f64_nonneg f z : try_from_secs_f64 f = Some z → 0 ≤ z.
Proof.
  destruct f as [s|s| |[] m e]; cbn [try_from_secs_f64]; try done; [by intros [= <-]|].
  destruct (Z.leb_spec 0 e) as [He|He]; destruct (_ <=? duration_max); try done; intros [= <-].
  - assert (0 < 2 ^ e) by (by apply Z.pow_pos_nonneg). unfold NANOS_PER_SEC. nia.
  - apply round_half_even_nonneg; [unfold NANOS_PER_SEC; lia|]. apply Z.pow_pos_nonneg; lia.
Qed.

Lemma scale_range d f : 0 ≤ d → 0 ≤ scale d f ≤ d.
Proof.
  intros Hd. unfold scale. destruct (_ || _); [lia|]. destruct (SFleb f64_one f); [lia|].
  destruct (try_from_secs_f64 _) as [z|] eqn:E; cbn [from_option id]; [|lia].
  apply try_from_secs_f64_nonneg in E. unfold id. lia.
Qed.

(** The delay before the next attempt, whatever the jitter source answers
    (negative, infinite and NaN samples included): a respected server hint wins and
    is clamped to [max_retry_after]; otherwise the delay stays inside the jitter
    mode's window around the exponential delay, and a sample outside [0, 1] is
    folded to an end of that window. *)
Theorem delay_window p attempt hint sample :
  policy_ok p → 1 ≤ attempt →
  let base := base_backoff p attempt in
  let delay := delay_for p attempt hint sample in
  (∀ h, respect_retry_after p = true → hint = Some h → delay = Z.min h (max_retry_after p)) ∧
  (respect_retry_after p = false ∨ hint = None →
   match jitter p with
   | NoJitter => delay = base
   | Full =>
       0 ≤ delay ≤ base ∧
       (is_finite sample = false ∨ SFleb sample f64_zero = true → delay = 0) ∧
       (is_finite sample = true → SFleb sample f64_zero = false → SFleb f64_one sample = true →
        delay = base)
   | Equal => base / 2 ≤ delay ≤ base
   end ∧ delay ≤ max_backoff p).
Proof.
  intros Hok Ha base delay. split.
  { intros h Hr ->. unfold delay, delay_for. by rewrite Hr. }
  intros Hno. pose proof Hok as (Hi & Hx & Hm & _).
  assert (0 ≤ base ≤ max_backoff p) as Hb.
  { unfold base, base_backoff. replace (attempt =? 0) with false by lia.
    apply backoff_loop_range; [done|lia]. }
  pose proof (scale_range base sample (proj1 Hb)).
  pose proof (Z.div_pos base 2 (proj1 Hb) ltac:(done)).
  pose proof (Z.mul_div_le base 2 ltac:(done)).
  pose proof (scale_range (base / 2) sample ltac:(done)).
  assert (delay = match jitter p with
    | NoJitter => base | Full => scale base sample
    | Equal => base / 2 + scale (base / 2) sample end) as ->.
  { unfold delay, delay_for. destruct Hno as [Hn | Hn]; rewrite Hn; [done|].
    by destruct (respect_retry_after p). }
  destruct (jitter p); (split; [|lia]); [done| |lia]. split; [lia|].
  unfold scale. split.
  - intros [Hf | Hf]; rewrite Hf; [done|]. by rewrite orb_true_r.
  - by intros -> -> ->.
Qed.

Lemma delay_window_witness :
  delay_for default_policy 2 (Some (3600 * NANOS_PER_SEC)) f64_one = 120 * NANOS_PER_SEC ∧
  delay_for default_policy 2 None S754_nan = 0 ∧
  delay_for default_policy 2 None f64_half = 500000000 ∧
  delay_for default_policy 2 None f64_half ≤ base_backoff default_policy 2.
Proof.
  split; [vm_compute; reflexivity|]. split; [vm_compute; reflexivity|].
  split; [vm_compute; reflexivity|].
  refine (proj2 (proj1 (proj1 (proj2 (delay_window default_policy 2 None _ _ _) (or_intror eq_refl)))));
    [|done]. repeat split; vm_compute; discriminate.
Defined.

(** ** The executor's contract *)

Section contract.
#[local] Coercion Z.of_nat : nat >-> Z.
Context {T : Type} (p : RetryPolicy) (provider : str) (op : Operation) (env : Z → AttemptEnv T).

(** An attempt that was made and failed in a way worth another one. *)
Definition retried (i : Z) : Prop :=
  cancelled_before (env i) = false ∧
  ∃ e, outcome (env i) = Err e ∧ error_is_retryable e = true.

(** What the operation and the clock see of an attempt that was backed off. *)
Definition backed_off (i : Z) : list Event :=
  Attempted i ::
  match outcome (env i) with
  | Ok _ => []
  | Err e =>
      let delay := delay_for p i (retry_after e) (sample (env i)) in
      if delay =? 0 then [] else [Slept delay]
  end.

(** Why a failed attempt [i] was the last one. *)
Definition gave_up (i attempts : Z) (e : ProviderError) : Prop :=
  error_is_retryable e = false ∨ i = attempts ∨
  cancelled_after (env i) = true ∨ cancelled_in_sleep (env i) = true.

(** The run from attempt [a] of [a + n]: [j] attempts are backed off, then the
    token is seen fired or attempt [a + j] settles the call. *)
Definition executed (a : Z) (n : nat) (r : result ProviderError T) (events : list Event) : Prop :=
  ∃ j : nat, (j ≤ n)%nat ∧ (∀ i, a ≤ i < a + j → retried i) ∧
    let last := a + j in
    (cancelled_before (env last) = true ∧
     r = Err (cancelled provider op (chars "cancelled before attempt")) ∧
     events = seqZ a j ≫= backed_off
     ∨ cancelled_before (env last) = false ∧ r = outcome (env last) ∧
       (∀ e, r = Err e → gave_up last (a + n) e) ∧
       events = (seqZ a j ≫= backed_off) ++ [Attempted last]).

Lemma executed_next a n r events :
  retried a → executed (a + 1) n r events → executed a (S n) r (backed_off a ++ events).
Proof.
  intros Ha (j & Hj & Hr & Hlast). exists (S j). split; [lia|]. split.
  { intros i Hi. destruct (decide (i = a)) as [->|]; [done|]. apply Hr. lia. }
  cbn beta zeta in *. replace (a + S j) with (a + 1 + j) by lia.
  replace (a + S n) with (a + 1 + n) by lia.
  replace (seqZ a (S j)) with (a :: seqZ (a + 1) j)
    by (rewrite (seqZ_cons a (Z.of_nat (S j))) by lia; do 2 f_equal; lia).
  rewrite bind_cons.
  destruct Hlast as [(? & ? & ->) | (? & ? & ? & ->)]; [left | right];
    rewrite <- ?(assoc_L app); done.
Qed.

Lemma executed_cancelled a n :
  cancelled_before (env a) = true →
  executed a n (Err (cancelled provider op (chars "cancelled before attempt"))) [].
Proof.
  intros Hb. exists 0%nat. split; [lia|]. split; [lia|]. rewrite Z.add_0_r. by left.
Qed.

Lemma executed_last a (n : nat) r :
  cancelled_before (env a) = false → outcome (env a) = r →
  (∀ e, r = Err e → gave_up a (a + n) e) → executed a n r [Attempted a].
Proof.
  intros Hb Ho Hg. exists 0%nat. split; [lia|]. split; [lia|]. rewrite Z.add_0_r. by right.
Qed.

Lemma run_loop_executed (n : nat) a last_error :
  ∃ r events, run_loop p provider op env (S n) a (a + n) last_error = (r, events) ∧
              executed a n r events.
Proof.
  revert a last_error. induction n as [|n IH]; intros a last_error; [|remember (S n) as m eqn:Hm];
    cbn [run_loop];
    (destruct (cancelled_before (env a)) eqn:Hb; [by eauto using executed_cancelled|]);
    (destruct (outcome (env a)) as [v|e] eqn:Ho; [do 2 eexists; split; [done|]; by apply executed_last|]).
  - rewrite (proj2 (Z.ltb_ge a (a + 0%nat))) by lia. rewrite andb_false_r. cbn [negb].
    do 2 eexists; split; [done|]. apply executed_last; [done..|].
    intros e' _. right. left. lia.
  - rewrite (proj2 (Z.ltb_lt a (a + m))) by lia. rewrite andb_true_r.
    destruct (error_is_retryable e) eqn:Hr; cbn [negb].
    2: { do 2 eexists; split; [done|]. apply executed_last; [done..|]. intros e' [= <-]. by left. }
    destruct (cancelled_after (env a)) eqn:Hc.
    { do 2 eexists; split; [done|]. apply executed_last; [done..|]. intros e' _. right. right. by left. }
    destruct (negb _ && cancelled_in_sleep (env a)) eqn:Hs.
    { apply andb_true_iff in Hs as [_ Hs]. do 2 eexists; split; [done|].
      apply executed_last; [done..|]. intros e' _. right. right. by right. }
    destruct (IH (a + 1) (Some e)) as (r & ev & Hrun & Hex).
    replace (a + 1 + n) with (a + m) in Hrun by lia. rewrite Hrun.
    do 2 eexists; split; [done|].
    assert (retried a) as Ht by (split; [done|]; by exists e).
    pose proof (executed_next a n r ev Ht Hex) as Hx. rewrite <- Hm in Hx. unfold backed_off in Hx.
    by rewrite Ho in Hx.
Qed.

End contract.

(** The executor makes attempts 1, 2, ... in order and stops at the first
    one that succeeds, fails for good, exhausts [max_attempts] (at least one attempt
    is allowed) or is interrupted: every earlier attempt failed retryably and was
    followed by exactly [delay_for] of sleep; the answer is the last attempt's own
    outcome, or the cancellation error when the token had fired before an attempt.
    No other answer is possible, so the error the source builds for a cancellation
    during backoff is never returned. *)
Theorem executor_contract {T} p provider op (env : Z → AttemptEnv T) :
  ∃ r events, run p provider op env = (r, events) ∧
    executed p provider op env 1 (Z.to_nat (Z.max (max_attempts p) 1 - 1)) r events.
Proof.
  unfold run. set (n := Z.to_nat (Z.max (max_attempts p) 1 - 1)).
  replace (Z.to_nat (Z.max (max_attempts p) 1)) with (S n) by lia.
  replace (Z.max (max_attempts p) 1) with (1 + Z.of_nat n) by lia. apply run_loop_executed.
Qed.

(** A token that fires while the executor is about to back off ends the call
    with the operation's own retryable error, not with an [ErrorKind::Cancelled]
    one. *)
Theorem cancelled_backoff_hides_cancellation {T} p provider op (env : Z → AttemptEnv T) e :
  2 ≤ max_attempts p → cancelled_before (env 1) = false → outcome (env 1) = Err e →
  error_is_retryable e = true → cancelled_after (env 1) = true →
  run p provider op env = (Err e, [Attempted 1]) ∧ kind e ≠ Cancelled.
Proof.
  intros Hm Hb Ho Hr Hc. unfold run.
  replace (Z.to_nat (Z.max (max_attempts p) 1)) with (S (Z.to_nat (max_attempts p - 1))) by lia.
  cbn [run_loop]. rewrite Hb, Ho, Hr, Hc. replace (1 <? _) with true by lia. split; [done|].
  intros Hk. unfold error_is_retryable in Hr. by rewrite Hk in Hr.
Qed.

Lemma cancelled_backoff_hides_cancellation_witness :
  let e := new_error RateLimit (chars "p") OpComplete (chars "slow down") in
  let env := λ _ : Z, mkEnv (T := unit) false (Err e) f64_one true false in
  run default_policy (chars "p") OpComplete env = (Err e, [Attempted 1]) ∧ kind e ≠ Cancelled.
Proof.
  intros e env.
  apply (cancelled_backoff_hides_cancellation default_policy (chars "p") OpComplete env e);
    vm_compute; done.
Defined.

End Retry.
