(* ===== verification/Circuit.v ===== *)
(** * The provider circuit breaker

    [crates/claw-provider-sdk/src/circuit.rs]. A breaker is one
    [BreakerState] behind a mutex; every method of the source is one critical
    section, so each is a function on the state. Permits carry the admission
    they were minted with; a permit is consumed by [success] or [failure], or
    dropped, and the step relation at the end interleaves any number of live
    permits in any order. *)

From S2P Require Import Prelude ProviderErrors.

Module CircuitBreaker.

(** Durations are nanoseconds; [as_millis] truncates. *)
Definition as_millis (d : Z) : Z := d / 1000000.

Record CircuitBreakerConfig := mkConfig {
  failure_threshold : Z;
  open_duration : Z;
  half_open_probes : Z;
  success_threshold : Z;
}.

Definition default_config : CircuitBreakerConfig := mkConfig 5 30000000000 1 1.

Inductive CircuitState := Closed | Open | HalfOpen.

#[export] Instance CircuitState_eq_dec : EqDecision CircuitState.
Proof. solve_decision. Defined.

Record BreakerState := mkBreaker {
  state : CircuitState;
  consecutive_failures : Z;
  consecutive_successes : Z;
  opened_at_millis : Z;
  probes_in_flight : Z;
  probe_epoch : Z;
}.

Record PermitAdmission := mkAdmission {
  probe : bool;
  adm_epoch : Z;
}.

#[export] Instance PermitAdmission_eq_dec : EqDecision PermitAdmission.
Proof. solve_decision. Defined.

(** [CircuitBreaker::new] *)
Definition new_breaker : BreakerState := mkBreaker Closed 0 0 0 0 0.

Section Operations.
Context (config : CircuitBreakerConfig).

(** The open window, saturated to [u64]. *)
Definition window : Z := Z.min (as_millis (open_duration config)) u64_max.

Definition refresh (inner : BreakerState) (now : Z) : BreakerState :=
  if bool_decide (state inner = Open) then
    if window <=? sat_sub now (opened_at_millis inner) then
      mkBreaker HalfOpen (consecutive_failures inner) 0 (opened_at_millis inner) 0
        (sat_add u64_max (probe_epoch inner) 1)
    else inner
  else inner.

(** [CircuitBreaker::state]: the reported state, and the refreshed breaker. *)
Definition observe (inner : BreakerState) (now : Z) : BreakerState * CircuitState :=
  let inner := refresh inner now in (inner, state inner).

Inductive Rejection := HalfOpenProbeBudgetExhausted | CircuitIsOpen.

(** [CircuitBreaker::admit], the body of both [acquire] and [acquire_owned]. *)
Definition admit_permit (inner : BreakerState) (now : Z)
    : BreakerState * result Rejection PermitAdmission :=
  let inner := refresh inner now in
  match state inner with
  | Closed => (inner, Ok (mkAdmission false (probe_epoch inner)))
  | HalfOpen =>
      if half_open_probes config <=? probes_in_flight inner then
        (inner, Err HalfOpenProbeBudgetExhausted)
      else
        (mkBreaker HalfOpen (consecutive_failures inner) (consecutive_successes inner)
           (opened_at_millis inner) (wrap_add u32_max (probes_in_flight inner) 1)
           (probe_epoch inner),
         Ok (mkAdmission true (probe_epoch inner)))
  | Open => (inner, Err CircuitIsOpen)
  end.

Definition record_success (inner : BreakerState) (now : Z) : BreakerState :=
  let inflight := sat_sub (probes_in_flight inner) 1 in
  match state inner with
  | HalfOpen =>
      let successes := wrap_add u32_max (consecutive_successes inner) 1 in
      if success_threshold config <=? successes then
        mkBreaker Closed 0 0 (opened_at_millis inner) 0 (probe_epoch inner)
      else
        mkBreaker HalfOpen 0 successes (opened_at_millis inner) inflight (probe_epoch inner)
  | Closed =>
      mkBreaker Closed 0 0 (opened_at_millis inner) inflight (probe_epoch inner)
  | Open =>
      mkBreaker Open 0 (consecutive_successes inner) (opened_at_millis inner) inflight
        (probe_epoch inner)
  end.

Definition record_failure (inner : BreakerState) (kind : ErrorKind) (now : Z) : BreakerState :=
  let inflight := sat_sub (probes_in_flight inner) 1 in
  if negb (trips_circuit kind) then
    mkBreaker (state inner) (consecutive_failures inner) (consecutive_successes inner)
      (opened_at_millis inner) inflight (probe_epoch inner)
  else
    match state inner with
    | HalfOpen => mkBreaker Open (consecutive_failures inner) 0 now 0 (probe_epoch inner)
    | Closed =>
        let failures := wrap_add u32_max (consecutive_failures inner) 1 in
        if failure_threshold config <=? failures then
          mkBreaker Open 0 0 now inflight (probe_epoch inner)
        else
          mkBreaker Closed failures 0 (opened_at_millis inner) inflight (probe_epoch inner)
    | Open => mkBreaker Open (consecutive_failures inner) 0 now inflight (probe_epoch inner)
    end.

Definition permit_success (inner : BreakerState) (admission : PermitAdmission) (now : Z)
    : BreakerState :=
  if probe admission && bool_decide (state inner = HalfOpen)
     && (probe_epoch inner =? adm_epoch admission) then
    let inflight := sat_sub (probes_in_flight inner) 1 in
    let successes := sat_add u32_max (consecutive_successes inner) 1 in
    if success_threshold config <=? successes then
      mkBreaker Closed 0 0 (opened_at_millis inner) 0 (probe_epoch inner)
    else
      mkBreaker HalfOpen 0 successes (opened_at_millis inner) inflight (probe_epoch inner)
  else if negb (probe admission) && bool_decide (state inner = Closed)
          && (probe_epoch inner =? adm_epoch admission) then
    mkBreaker Closed 0 0 (opened_at_millis inner) (probes_in_flight inner) (probe_epoch inner)
  else inner.

Definition permit_failure (inner : BreakerState) (admission : PermitAdmission)
    (kind : ErrorKind) (now : Z) : BreakerState :=
  if probe admission then
    if negb (bool_decide (state inner = HalfOpen))
       || negb (probe_epoch inner =? adm_epoch admission) then inner
    else
      let inflight := sat_sub (probes_in_flight inner) 1 in
      if negb (trips_circuit kind) then
        mkBreaker (state inner) (consecutive_failures inner) (consecutive_successes inner)
          (opened_at_millis inner) inflight (probe_epoch inner)
      else
        mkBreaker Open (consecutive_failures inner) 0 now 0 (probe_epoch inner)
  else if negb (bool_decide (state inner = Closed))
          || negb (probe_epoch inner =? adm_epoch admission)
          || negb (trips_circuit kind) then inner
  else
    let failures := sat_add u32_max (consecutive_failures inner) 1 in
    if failure_threshold config <=? failures then
      mkBreaker Open 0 0 now (probes_in_flight inner) (probe_epoch inner)
    else
      mkBreaker Closed failures 0 (opened_at_millis inner) (probes_in_flight inner)
        (probe_epoch inner).

(** Dropping an unreported permit. *)
Definition abandon_probe (inner : BreakerState) (admission : PermitAdmission) : BreakerState :=
  if probe admission && bool_decide (state inner = HalfOpen)
     && (probe_epoch inner =? adm_epoch admission) then
    mkBreaker (state inner) (consecutive_failures inner) (consecutive_successes inner)
      (opened_at_millis inner) (sat_sub (probes_in_flight inner) 1) (probe_epoch inner)
  else inner.

End Operations.

(** ** Interleaved permits

    A world is the breaker and the permits callers still hold. Every caller
    action is one step; time never has to advance between steps. *)

Record World := mkWorld {
  breaker : BreakerState;
  permits : list PermitAdmission;
}.

Definition initial : World := mkWorld new_breaker [].

Inductive step (config : CircuitBreakerConfig) : World → World → Prop :=
| step_observe b ps now :
    step config (mkWorld b ps) (mkWorld (observe config b now).1 ps)
| step_admitted b ps now b' a :
    admit_permit config b now = (b', Ok a) →
    step config (mkWorld b ps) (mkWorld b' (a :: ps))
| step_rejected b ps now b' e :
    admit_permit config b now = (b', Err e) →
    step config (mkWorld b ps) (mkWorld b' ps)
| step_success b ps qs a now :
    step config (mkWorld b (ps ++ a :: qs))
                (mkWorld (permit_success config b a now) (ps ++ qs))
| step_failure b ps qs a kind now :
    step config (mkWorld b (ps ++ a :: qs))
                (mkWorld (permit_failure config b a kind now) (ps ++ qs))
| step_drop b ps qs a :
    step config (mkWorld b (ps ++ a :: qs))
                (mkWorld (abandon_probe b a) (ps ++ qs)).

Definition reachable (config : CircuitBreakerConfig) : World → Prop :=
  rtc (step config) initial.

(** A permit that can still move the half-open probe accounting. *)
Definition live_probe (b : BreakerState) (a : PermitAdmission) : bool :=
  probe a && (adm_epoch a =? probe_epoch b).

Definition live_probes (w : World) : Z :=
  len (filter (λ a, live_probe (breaker w) a = true) (permits w)).

(** ** Invariant *)

Definition config_wf (config : CircuitBreakerConfig) : Prop :=
  0 ≤ failure_threshold config ≤ u32_max ∧ 0 ≤ half_open_probes config ≤ u32_max ∧
  0 ≤ success_threshold config ≤ u32_max.

Record inv (config : CircuitBreakerConfig) (w : World) : Prop := {
  inv_counters :
    0 ≤ consecutive_failures (breaker w) ∧ 0 ≤ consecutive_successes (breaker w) ∧
    0 ≤ probes_in_flight (breaker w) ∧ 0 ≤ probe_epoch (breaker w) ≤ u64_max;
  inv_closed :
    state (breaker w) = Closed →
    consecutive_failures (breaker w) = 0 ∨
    consecutive_failures (breaker w) < failure_threshold config;
  inv_half_open :
    state (breaker w) = HalfOpen →
    consecutive_successes (breaker w) = 0 ∨
    consecutive_successes (breaker w) < success_threshold config;
  inv_epochs : Forall (λ a, adm_epoch a ≤ probe_epoch (breaker w)) (permits w);
  inv_probes :
    probe_epoch (breaker w) < u64_max → state (breaker w) = HalfOpen →
    live_probes w = probes_in_flight (breaker w) ∧
    probes_in_flight (breaker w) ≤ half_open_probes config;
}.

Lemma live_probes_nil b : live_probes (mkWorld b []) = 0.
Proof. done. Qed.

Lemma live_probes_cons b a ps :
  live_probes (mkWorld b (a :: ps)) =
  live_probes (mkWorld b ps) + (if live_probe b a then 1 else 0).
Proof.
  unfold live_probes. simpl. rewrite filter_cons.
  destruct (live_probe b a); case_decide; simpl in *; try done.
  all: autorewrite with claw; lia.
Qed.

Lemma live_probes_remove b a ps qs :
  live_probes (mkWorld b (ps ++ a :: qs)) =
  live_probes (mkWorld b (ps ++ qs)) + (if live_probe b a then 1 else 0).
Proof.
  induction ps as [|p ps IH]; simpl; rewrite !live_probes_cons; [done|]. lia.
Qed.

(** Only the epoch of the breaker matters to the count of live probes. *)
Lemma live_probes_epoch b b' ps :
  probe_epoch b = probe_epoch b' →
  live_probes (mkWorld b ps) = live_probes (mkWorld b' ps).
Proof.
  intros Heq. induction ps as [|p ps IH]; [done|].
  rewrite !live_probes_cons, IH. unfold live_probe. by rewrite Heq.
Qed.

(** A fresh epoch has no live probes. *)
Lemma live_probes_fresh b ps :
  Forall (λ a, adm_epoch a < probe_epoch b) ps → live_probes (mkWorld b ps) = 0.
Proof.
  induction 1 as [|a ps Ha _ IH]; [done|].
  rewrite live_probes_cons, IH. unfold live_probe.
  replace (adm_epoch a =? probe_epoch b) with false by lia.
  by rewrite andb_false_r.
Qed.

Lemma Forall_remove {A} (P : A → Prop) ps a qs :
  Forall P (ps ++ a :: qs) → Forall P (ps ++ qs).
Proof. rewrite !Forall_app, Forall_cons. tauto. Qed.

Lemma inv_initial config : inv config initial.
Proof. split; simpl; [by unfold u64_max | by left | done | constructor | done]. Qed.

Lemma inv_refresh config b ps now :
  inv config (mkWorld b ps) → config_wf config →
  inv config (mkWorld (refresh config b now) ps).
Proof.
  intros H Hwf. unfold refresh.
  case_bool_decide as Ho; [|done]. destruct (window config <=? _) eqn:Hw; [|done].
  destruct H as [Hc Hcl Hh He Hp]. unfold config_wf in Hwf. simpl in *.
  split; simpl; try done.
  - unfold sat_add. unfold u64_max. lia.
  - intros _. by left.
  - eapply Forall_impl; [exact He|]. simpl. intros a Ha. unfold sat_add, u64_max in *. lia.
  - intros Hlt _. split; [|lia]. apply live_probes_fresh. simpl.
    eapply Forall_impl; [exact He|]. simpl. intros a Ha. unfold sat_add in *. lia.
Qed.

Lemma inv_admit config b ps now b' r :
  inv config (mkWorld b ps) → config_wf config →
  admit_permit config b now = (b', r) →
  inv config (mkWorld b' (match r with Ok a => a :: ps | Err _ => ps end)).
Proof.
  intros H Hwf. pose proof (inv_refresh config b ps now H Hwf) as H'. clear H.
  unfold admit_permit. generalize dependent (refresh config b now). clear b. intros b H.
  destruct (state b) eqn:Hs; pose proof H as [Hc Hcl Hh He Hp]; simpl in *.
  - intros [= <- <-]. split; simpl; try done. constructor; [simpl; lia|done].
  - by intros [= <- <-].
  - destruct (half_open_probes config <=? probes_in_flight b) eqn:Hb;
      intros [= <- <-]; [done|]. boolify.
    assert (wrap_add u32_max (probes_in_flight b) 1 = probes_in_flight b + 1) as Hadd.
    { unfold wrap_add. apply Z.mod_small. unfold config_wf in Hwf. lia. }
    rewrite Hadd. split; simpl; try done; [lia | by intros _; apply Hh | constructor; [simpl; lia|done] | ].
    + intros Hlt _. destruct (Hp Hlt Hs) as [Hl _].
      rewrite live_probes_cons.
      rewrite (live_probes_epoch _ b) by done. unfold live_probe. simpl.
      rewrite Z.eqb_refl. lia.
Qed.

(** The bookkeeping shared by every way of giving up a permit: the breaker keeps
    its epoch, and in the half-open state loses one probe slot exactly when the
    permit was a live probe. *)
Lemma inv_release config b b' a ps qs :
  inv config (mkWorld b (ps ++ a :: qs)) →
  probe_epoch b' = probe_epoch b →
  0 ≤ consecutive_failures b' → 0 ≤ consecutive_successes b' → 0 ≤ probes_in_flight b' →
  (state b' = Closed → consecutive_failures b' = 0 ∨
     consecutive_failures b' < failure_threshold config) →
  (state b' = HalfOpen → consecutive_successes b' = 0 ∨
     consecutive_successes b' < success_threshold config) →
  (state b' = HalfOpen → state b = HalfOpen ∧
     probes_in_flight b' =
       sat_sub (probes_in_flight b) (if live_probe b a then 1 else 0)) →
  inv config (mkWorld b' (ps ++ qs)).
Proof.
  intros [Hc Hcl Hh He Hp] Hep Hf Hs Hi Hcl' Hh' Hpr. simpl in *.
  split; simpl; try done; [lia| |].
  - rewrite Hep. by eapply Forall_remove.
  - intros Hlt Hst. destruct (Hpr Hst) as [Hst0 Hin]. rewrite Hep in Hlt.
    destruct (Hp Hlt Hst0) as [Hlive Hle].
    rewrite (live_probes_epoch b' b) by done. rewrite live_probes_remove in Hlive.
    assert (0 ≤ live_probes (mkWorld b (ps ++ qs))) by apply len_nonneg.
    rewrite Hin. unfold sat_sub. destruct (live_probe b a); lia.
Qed.

(** The three shapes of a reported or dropped permit: a live probe in the
    half-open state, a current permit in the closed state, or no effect. *)
Lemma half_open_guard b a :
  probe a && bool_decide (state b = HalfOpen) && (probe_epoch b =? adm_epoch a) = true ↔
  state b = HalfOpen ∧ live_probe b a = true.
Proof.
  unfold live_probe. rewrite !andb_true_iff, bool_decide_eq_true, (Z.eqb_sym (adm_epoch a)).
  tauto.
Qed.

Lemma half_open_guard_false b a :
  probe a && bool_decide (state b = HalfOpen) && (probe_epoch b =? adm_epoch a) = false ↔
  (state b = HalfOpen → live_probe b a = false).
Proof.
  rewrite <- not_true_iff_false, half_open_guard, <- (not_true_iff_false (live_probe b a)).
  destruct (decide (state b = HalfOpen)); tauto.
Qed.

Ltac case_half_open_guard :=
  match goal with
  | |- context [probe ?a && bool_decide (state ?b = HalfOpen) && ?e] =>
      let E := fresh "Eg" in
      destruct (probe a && bool_decide (state b = HalfOpen) && e) eqn:E;
      [apply half_open_guard in E; destruct E as [Hstate Hlive]
      |rewrite half_open_guard_false in E]
  end.

(** An operation that leaves the breaker alone releases nothing a probe owned. *)
Lemma inv_release_noop config b a ps qs :
  inv config (mkWorld b (ps ++ a :: qs)) →
  (state b = HalfOpen → live_probe b a = false) →
  inv config (mkWorld b (ps ++ qs)).
Proof.
  intros H Hl. pose proof H as [Hc Hcl Hh _ _]. simpl in *.
  apply (inv_release config b b a); try (done || lia).
  intros Hs. split; [done|]. rewrite (Hl Hs). unfold sat_sub. lia.
Qed.

(** Close the side conditions of [inv_release]. *)
Ltac release b a :=
  apply (inv_release _ b _ a); simpl; auto with lia; try discriminate;
  try (unfold sat_sub, sat_add, u32_max in *; lia);
  try (intros _; match goal with H : live_probe _ _ = _ |- _ => by rewrite H end).

Lemma inv_success config b a ps qs now :
  inv config (mkWorld b (ps ++ a :: qs)) →
  inv config (mkWorld (permit_success config b a now) (ps ++ qs)).
Proof.
  intros H. pose proof H as [Hc Hcl Hh _ _]. simpl in *.
  unfold permit_success. case_half_open_guard.
  - destruct (success_threshold config <=? _) eqn:Ht; boolify; release b a.
  - destruct (negb (probe a) && _ && _) eqn:Hg; [|by eapply inv_release_noop].
    boolify. release b a.
Qed.

Lemma inv_drop config b a ps qs :
  inv config (mkWorld b (ps ++ a :: qs)) →
  inv config (mkWorld (abandon_probe b a) (ps ++ qs)).
Proof.
  intros H. pose proof H as [Hc Hcl Hh _ _]. simpl in *.
  unfold abandon_probe. case_half_open_guard; [|by eapply inv_release_noop].
  release b a.
Qed.

Lemma inv_failure config b a ps qs kind now :
  inv config (mkWorld b (ps ++ a :: qs)) →
  inv config (mkWorld (permit_failure config b a kind now) (ps ++ qs)).
Proof.
  intros H. pose proof H as [Hc Hcl Hh _ _]. simpl in *.
  unfold permit_failure. destruct (probe a) eqn:Hp.
  - case_bool_decide as Hs; simpl.
    2:{ eapply inv_release_noop; [done|]. done. }
    destruct (probe_epoch b =? adm_epoch a) eqn:He; simpl.
    2:{ eapply inv_release_noop; [done|]. intros _. unfold live_probe.
        by rewrite Z.eqb_sym, He, andb_false_r. }
    assert (live_probe b a = true) as Hlive
      by (unfold live_probe; by rewrite Z.eqb_sym, He, Hp).
    destruct (trips_circuit kind); simpl; release b a.
  - assert (live_probe b a = false) as Hlive by (unfold live_probe; by rewrite Hp).
    destruct (_ || _ || _) eqn:Hg; [by eapply inv_release_noop|]. boolify.
    destruct (failure_threshold config <=? _) eqn:Ht; boolify; release b a.
Qed.

Lemma inv_step config w w' : config_wf config → step config w w' → inv config w → inv config w'.
Proof.
  intros Hwf Hs. destruct Hs; intros Hi.
  - by apply inv_refresh.
  - by eapply (inv_admit _ _ _ _ _ (Ok a)).
  - by eapply (inv_admit _ _ _ _ _ (Err e)).
  - by apply inv_success.
  - by apply inv_failure.
  - by apply inv_drop.
Qed.

Lemma inv_reachable config w : config_wf config → reachable config w → inv config w.
Proof.
  intros Hwf. apply (rtc_ind_r (inv config)); [apply inv_initial|].
  intros. by eapply inv_step.
Qed.

(** ** Properties *)

(** In every reachable interleaving of callers, while the breaker is
    half-open the number of permits that can still influence recovery (probe
    permits of the current epoch) is exactly [probes_in_flight] and never
    exceeds [half_open_probes]; the epoch counter has not saturated. *)
Theorem half_open_probe_budget config w :
  config_wf config → reachable config w →
  probe_epoch (breaker w) < u64_max → state (breaker w) = HalfOpen →
  live_probes w = probes_in_flight (breaker w) ∧ live_probes w ≤ half_open_probes config.
Proof.
  intros Hwf Hr He Hs. destruct (inv_probes _ _ (inv_reachable config w Hwf Hr) He Hs).
  lia.
Qed.

(** A permit admitted in another epoch is inert: reporting success,
    reporting any failure, or dropping it leaves the breaker as it was. *)
Theorem stale_permit_inert config b a kind now :
  adm_epoch a ≠ probe_epoch b →
  permit_success config b a now = b ∧ permit_failure config b a kind now = b ∧
  abandon_probe b a = b.
Proof.
  intros Hne.
  assert ((probe_epoch b =? adm_epoch a) = false) as He by lia.
  unfold permit_success, permit_failure, abandon_probe. rewrite He, !andb_false_r.
  simpl. rewrite !orb_true_r. simpl. by destruct (probe a).
Qed.

(** While open, every request before the window has elapsed is rejected and
    changes nothing; the first request at or after it becomes a probe of a fresh
    epoch (when any probe is configured). *)
Theorem open_window_admission config b now :
  state b = Open → config_wf config → 0 < half_open_probes config →
  admit_permit config b now =
    if sat_sub now (opened_at_millis b) <? window config then (b, Err CircuitIsOpen)
    else
      (mkBreaker HalfOpen (consecutive_failures b) 0 (opened_at_millis b) 1
         (sat_add u64_max (probe_epoch b) 1),
       Ok (mkAdmission true (sat_add u64_max (probe_epoch b) 1))).
Proof.
  intros Hs Hwf Hp. unfold admit_permit, refresh.
  rewrite bool_decide_eq_true_2 by done. rewrite Z.ltb_antisym.
  destruct (window config <=? _); simpl.
  - replace (half_open_probes config <=? 0) with false by lia. done.
  - by rewrite Hs.
Qed.

(** What one caller reports through a permit of the closed state. *)
Inductive Outcome := Succeeded | Failed (kind : ErrorKind).

Definition report config (e : Z) (b : BreakerState) (o : Outcome * Z) : BreakerState :=
  match o.1 with
  | Succeeded => permit_success config b (mkAdmission false e) o.2
  | Failed kind => permit_failure config b (mkAdmission false e) kind o.2
  end.

(** The abstract specification: the current streak of tripping failures, which a
    success resets and a non-tripping failure neither extends nor breaks. *)
Definition streak_step (n : Z) (o : Outcome * Z) : Z :=
  match o.1 with
  | Succeeded => 0
  | Failed kind => if trips_circuit kind then n + 1 else n
  end.

Fixpoint trips (threshold n : Z) (os : list (Outcome * Z)) : option Z :=
  match os with
  | [] => None
  | o :: os =>
      if (n <? streak_step n o) && (threshold <=? streak_step n o) then Some o.2
      else trips threshold (streak_step n o) os
  end.

Lemma report_closed config e b o :
  state b = Closed → probe_epoch b = e → 0 ≤ consecutive_failures b → config_wf config →
  consecutive_failures b = 0 ∨ consecutive_failures b < failure_threshold config →
  let n := consecutive_failures b in
  if (n <? streak_step n o) && (failure_threshold config <=? streak_step n o) then
    state (report config e b o) = Open ∧ opened_at_millis (report config e b o) = o.2 ∧
    probe_epoch (report config e b o) = e
  else
    state (report config e b o) = Closed ∧
    consecutive_failures (report config e b o) = streak_step n o ∧
    probe_epoch (report config e b o) = e.
Proof.
  intros Hs He H0 Hwf Hn. unfold report, streak_step. destruct o as [[|kind] now]; simpl.
  - unfold permit_success. simpl. rewrite He, Z.eqb_refl, bool_decide_eq_true_2 by done.
    simpl. replace (consecutive_failures b <? 0) with false by lia. done.
  - unfold permit_failure. simpl. rewrite He, Z.eqb_refl, bool_decide_eq_true_2 by done.
    destruct (trips_circuit kind); simpl.
    + replace (_ <? _) with true by lia. simpl.
      assert (sat_add u32_max (consecutive_failures b) 1 = consecutive_failures b + 1) as ->.
      { unfold sat_add, config_wf, u32_max in *. lia. }
      by destruct (failure_threshold config <=? _).
    + by rewrite Z.ltb_irrefl.
Qed.

(** Once open, the permits of the closed state change nothing. *)
Lemma report_open config e b os :
  state b = Open → foldl (report config e) b os = b.
Proof.
  intros Hs. induction os as [|o os IH]; simpl; [done|].
  assert (report config e b o = b) as ->; [|done].
  unfold report. destruct o as [[|kind] now]; simpl.
  - unfold permit_success. simpl. by rewrite bool_decide_eq_false_2 by (by rewrite Hs).
  - unfold permit_failure. simpl. by rewrite bool_decide_eq_false_2 by (by rewrite Hs).
Qed.

(** A closed breaker refines the abstract failure counter: it opens at the
    report whose streak of tripping failures reaches [failure_threshold], records
    that report's time, and otherwise is closed with the streak as its counter.
    Successes reset the streak and non-tripping failures are ignored. *)
Theorem closed_breaker_refines_streak config b os :
  state b = Closed → 0 ≤ consecutive_failures b → config_wf config →
  consecutive_failures b = 0 ∨ consecutive_failures b < failure_threshold config →
  let b' := foldl (report config (probe_epoch b)) b os in
  match trips (failure_threshold config) (consecutive_failures b) os with
  | Some t => state b' = Open ∧ opened_at_millis b' = t
  | None =>
      state b' = Closed ∧
      consecutive_failures b' = foldl streak_step (consecutive_failures b) os
  end.
Proof.
  intros Hs H0 Hwf Hn. set (e := probe_epoch b). assert (probe_epoch b = e) as He by done.
  clearbody e. revert b Hs H0 Hn He.
  induction os as [|o os IH]; intros b Hs H0 Hn He; [done|].
  pose proof (report_closed config e b o Hs He H0 Hwf Hn) as Hstep. simpl in *.
  destruct (_ && _) eqn:Hg in Hstep; rewrite Hg.
  - destruct Hstep as (Ho & Ht & _). by rewrite report_open.
  - destruct Hstep as (Hc & Hf & He'). rewrite <- Hf.
    apply IH; [done | | | done]; rewrite Hf.
    + unfold streak_step. destruct o as [[|k] t]; simpl; [lia|]. destruct (trips_circuit k); lia.
    + apply andb_false_iff in Hg as [Hg|Hg]; boolify; [|lia].
      revert Hg. unfold streak_step. destruct o as [[|k] t]; simpl; [lia|].
      destruct (trips_circuit k); lia.
Qed.

(** One probe admitted and reported successful. *)
Definition probe_round config (b : BreakerState) (now : Z) : BreakerState :=
  match admit_permit config b now with
  | (b', Ok a) => permit_success config b' a now
  | (b', Err _) => b'
  end.

Lemma probe_round_half_open config b now :
  state b = HalfOpen → probes_in_flight b = 0 → config_wf config →
  0 < half_open_probes config → 0 ≤ consecutive_successes b →
  consecutive_successes b < Z.max 1 (success_threshold config) →
  let b' := probe_round config b now in
  if success_threshold config <=? consecutive_successes b + 1 then
    state b' = Closed ∧ consecutive_failures b' = 0
  else state b' = HalfOpen ∧ probes_in_flight b' = 0 ∧
       consecutive_successes b' = consecutive_successes b + 1.
Proof.
  intros Hs Hp Hwf Hh H0 Hlt. unfold probe_round, admit_permit, refresh.
  rewrite bool_decide_eq_false_2 by (by rewrite Hs). rewrite Hs, Hp.
  replace (half_open_probes config <=? 0) with false by lia.
  unfold permit_success. simpl. rewrite Z.eqb_refl. simpl.
  assert (sat_add u32_max (consecutive_successes b) 1 = consecutive_successes b + 1) as ->.
  { unfold sat_add, config_wf, u32_max in *. lia. }
  by destruct (success_threshold config <=? _).
Qed.

(** Short of the threshold, successful probes keep the breaker half-open with
    every slot free and the successes counted. *)
Lemma recovery_progress config b now (n : nat) :
  state b = HalfOpen → probes_in_flight b = 0 → consecutive_successes b = 0 →
  config_wf config → 0 < half_open_probes config →
  Z.of_nat n < Z.max 1 (success_threshold config) →
  let b' := Nat.iter n (λ b, probe_round config b now) b in
  state b' = HalfOpen ∧ probes_in_flight b' = 0 ∧ consecutive_successes b' = Z.of_nat n.
Proof.
  intros Hs Hp Hc Hwf Hh. induction n as [|n IHn]; intros Hn; [done|]. simpl Nat.iter.
  destruct IHn as (Hs' & Hp' & Hc'); [lia|].
  pose proof (probe_round_half_open config _ now Hs' Hp' Hwf Hh) as H.
  rewrite Hc' in H. specialize (H ltac:(lia) ltac:(lia)). cbv zeta in H.
  replace (success_threshold config <=? Z.of_nat n + 1) with false in H by lia.
  destruct H as (? & ? & ?). split_and!; [done|done|lia].
Qed.

(** Recovery terminates: from a freshly half-open breaker, exactly
    [max 1 success_threshold] successful probes close the circuit; after fewer it
    is still half-open with that many successes counted. *)
Theorem recovery_closes config b now (n : nat) :
  state b = HalfOpen → probes_in_flight b = 0 → consecutive_successes b = 0 →
  config_wf config → 0 < half_open_probes config →
  Z.of_nat n ≤ Z.max 1 (success_threshold config) →
  let b' := Nat.iter n (λ b, probe_round config b now) b in
  if Z.of_nat n =? Z.max 1 (success_threshold config) then state b' = Closed
  else state b' = HalfOpen ∧ consecutive_successes b' = Z.of_nat n.
Proof.
  intros Hs Hp Hc Hwf Hh Hn. cbv zeta.
  destruct (Z.eqb_spec (Z.of_nat n) (Z.max 1 (success_threshold config))) as [Heq|Hne].
  - destruct n as [|n]; [lia|].
    destruct (recovery_progress config b now n) as (Hs' & Hp' & Hc'); [done..|lia|].
    pose proof (probe_round_half_open config _ now Hs' Hp' Hwf Hh) as H.
    rewrite Hc' in H. specialize (H ltac:(lia) ltac:(lia)). cbv zeta in H.
    replace (success_threshold config <=? Z.of_nat n + 1) with true in H by lia. apply H.
  - destruct (recovery_progress config b now n) as (? & _ & ?); [done..|lia|done].
Qed.

(** ** Witnesses *)

Definition tight_config : CircuitBreakerConfig := mkConfig 1 5000000 1 2.

Lemma tight_config_wf : config_wf tight_config.
Proof. unfold config_wf, u32_max. simpl. lia. Qed.

(** A trip, an elapsed window, and one probe in flight beside a stale permit. *)
Definition probing_world : World :=
  mkWorld (mkBreaker HalfOpen 0 0 10 1 1) [mkAdmission true 1; mkAdmission false 0].

Lemma probing_world_reachable : reachable tight_config probing_world.
Proof.
  eapply rtc_l; [apply (step_admitted _ _ _ 0); reflexivity|].
  eapply rtc_l; [apply (step_admitted _ _ _ 3); reflexivity|].
  eapply rtc_l; [apply (step_failure _ _ [] [mkAdmission false 0] _ Transport 10)|].
  eapply rtc_l; [apply (step_admitted _ _ _ 15); reflexivity|].
  apply rtc_refl.
Qed.

Lemma half_open_probe_budget_witness :
  live_probes probing_world = 1 ∧ live_probes probing_world ≤ half_open_probes tight_config.
Proof.
  exact (half_open_probe_budget tight_config probing_world tight_config_wf
           probing_world_reachable eq_refl eq_refl).
Defined.

Lemma stale_permit_inert_witness :
  permit_success tight_config (breaker probing_world) (mkAdmission false 0) 20 =
  breaker probing_world.
Proof.
  apply (stale_permit_inert tight_config (breaker probing_world) (mkAdmission false 0)
           Transport 20). discriminate.
Defined.

Lemma open_window_admission_witness :
  admit_permit default_config (mkBreaker Open 0 0 100 0 3) 30099 =
    (mkBreaker Open 0 0 100 0 3, Err CircuitIsOpen) ∧
  admit_permit default_config (mkBreaker Open 0 0 100 0 3) 30100 =
    (mkBreaker HalfOpen 0 0 100 1 4, Ok (mkAdmission true 4)).
Proof.
  assert (config_wf default_config) as Hwf by (unfold config_wf, u32_max; simpl; lia).
  split.
  - refine (eq_trans (open_window_admission _ (mkBreaker Open 0 0 100 0 3) _ eq_refl Hwf eq_refl) _).
    reflexivity.
  - refine (eq_trans (open_window_admission _ (mkBreaker Open 0 0 100 0 3) _ eq_refl Hwf eq_refl) _).
    reflexivity.
Defined.

Lemma closed_breaker_refines_streak_witness :
  state (foldl (report (mkConfig 2 0 1 1) 0) new_breaker
           [(Failed Timeout, 1); (Succeeded, 2); (Failed Server, 3); (Failed Quota, 4);
            (Failed Protocol, 5)]) = Open.
Proof.
  apply (closed_breaker_refines_streak (mkConfig 2 0 1 1) new_breaker
           [(Failed Timeout, 1); (Succeeded, 2); (Failed Server, 3); (Failed Quota, 4);
            (Failed Protocol, 5)]); simpl; [done|lia|unfold config_wf, u32_max; simpl; lia|lia].
Defined.

Lemma recovery_closes_witness :
  state (Nat.iter 2 (λ b, probe_round tight_config b 15) (mkBreaker HalfOpen 0 0 10 0 1)) =
  Closed.
Proof.
  apply (recovery_closes tight_config (mkBreaker HalfOpen 0 0 10 0 1) 15 2);
    simpl; [done|done|done|exact tight_config_wf|lia|lia].
Defined.

End CircuitBreaker.
