(* ===== verification/Sse.v ===== *)
(** * Incremental stream decoders

    [crates/claw-provider-sdk/src/sse.rs]: the [text/event-stream] decoder and
    the newline-delimited decoder. Both are byte machines, so strings are their
    UTF-8 bytes; a decoder error leaves the decoder as the source leaves it. *)

From S2P Require Import Prelude Utf8.

Module Sse.

Definition DEFAULT_MAX_LINE_BYTES : Z := 1048576.
Definition DEFAULT_MAX_EVENT_BYTES : Z := 8388608.

Definition BOM : bytes := [xef; xbb; xbf].

Definition LF : byte := x0a.
Definition CR : byte := x0d.
Definition COLON : byte := x3a.
Definition SPACE : byte := x20.

Inductive StreamDecodeError :=
| LineTooLong (limit : Z)
| EventTooLarge (limit : Z)
| InvalidUtf8.

(** [retry] durations are milliseconds, the unit of the [retry:] field. *)
Record SseEvent := mkEvent {
  ev_event : bytes;
  ev_data : bytes;
  ev_id : option bytes;
  ev_retry : option Z;
}.

Record SseDecoder := mkDecoder {
  line : bytes;
  data : bytes;
  event : bytes;
  last_id : option bytes;
  retry : option Z;
  saw_data_field : bool;
  pending_cr : bool;
  checked_bom : bool;
  bom_progress : nat;
  max_line_bytes : Z;
  max_event_bytes : Z;
}.

Definition set_line (d : SseDecoder) (l : bytes) : SseDecoder :=
  mkDecoder l (data d) (event d) (last_id d) (retry d) (saw_data_field d) (pending_cr d)
    (checked_bom d) (bom_progress d) (max_line_bytes d) (max_event_bytes d).
Definition set_data (d : SseDecoder) (v : bytes) (saw : bool) : SseDecoder :=
  mkDecoder (line d) v (event d) (last_id d) (retry d) saw (pending_cr d)
    (checked_bom d) (bom_progress d) (max_line_bytes d) (max_event_bytes d).
Definition set_event (d : SseDecoder) (v : bytes) : SseDecoder :=
  mkDecoder (line d) (data d) v (last_id d) (retry d) (saw_data_field d) (pending_cr d)
    (checked_bom d) (bom_progress d) (max_line_bytes d) (max_event_bytes d).
Definition set_last_id (d : SseDecoder) (v : option bytes) : SseDecoder :=
  mkDecoder (line d) (data d) (event d) v (retry d) (saw_data_field d) (pending_cr d)
    (checked_bom d) (bom_progress d) (max_line_bytes d) (max_event_bytes d).
Definition set_retry (d : SseDecoder) (v : option Z) : SseDecoder :=
  mkDecoder (line d) (data d) (event d) (last_id d) v (saw_data_field d) (pending_cr d)
    (checked_bom d) (bom_progress d) (max_line_bytes d) (max_event_bytes d).
Definition set_pending_cr (d : SseDecoder) (v : bool) : SseDecoder :=
  mkDecoder (line d) (data d) (event d) (last_id d) (retry d) (saw_data_field d) v
    (checked_bom d) (bom_progress d) (max_line_bytes d) (max_event_bytes d).
Definition set_bom (d : SseDecoder) (checked : bool) (progress : nat) : SseDecoder :=
  mkDecoder (line d) (data d) (event d) (last_id d) (retry d) (saw_data_field d) (pending_cr d)
    checked progress (max_line_bytes d) (max_event_bytes d).

(** [SseDecoder::with_limits] and [SseDecoder::new] *)
Definition with_limits (max_line max_event : Z) : SseDecoder :=
  mkDecoder [] [] [] None None false false false 0 (Z.max max_line 1) (Z.max max_event 1).

Definition new_decoder : SseDecoder :=
  with_limits DEFAULT_MAX_LINE_BYTES DEFAULT_MAX_EVENT_BYTES.

(** [SseDecoder::dispatch] *)
Definition dispatch (d : SseDecoder) (events : list SseEvent) : SseDecoder * list SseEvent :=
  let name := match event d with [] => lit "message" | e => e end in
  (set_event (set_data d [] false) [],
   events ++ [mkEvent name (data d) (last_id d) (retry d)]).

(** [str::split_once(':')], bytewise since [:] is ASCII. *)
Fixpoint split_once (sep : byte) (s : bytes) : option (bytes * bytes) :=
  match s with
  | [] => None
  | b :: r =>
      if Byte.eqb b sep then Some ([], r)
      else match split_once sep r with
           | Some (f, v) => Some (b :: f, v)
           | None => None
           end
  end.

(** [value.strip_prefix(' ').unwrap_or(value)] *)
Definition strip_space (value : bytes) : bytes :=
  match value with
  | b :: r => if Byte.eqb b SPACE then r else value
  | [] => []
  end.

(** [str::parse::<u64>] of a non-empty string of ASCII digits. *)
Definition parse_u64 (value : bytes) : option Z :=
  if digits_value value <=? u64_max then Some (digits_value value) else None.

Definition field_and_value (l : bytes) : bytes * bytes :=
  match split_once COLON l with
  | Some (field, value) => (field, strip_space value)
  | None => (l, [])
  end.

Definition bytes_eqb (a b : bytes) : bool := bool_decide (a = b).

(** [SseDecoder::end_line] *)
Definition end_line (d : SseDecoder) (events : list SseEvent)
    : SseDecoder * result StreamDecodeError (list SseEvent) :=
  let l := line d in
  let d := set_line d [] in
  if negb (utf8_valid l) then (d, Err InvalidUtf8)
  else if bytes_eqb l [] then
    if saw_data_field d then let (d, events) := dispatch d events in (d, Ok events)
    else (set_event d [], Ok events)
  else if bool_decide (head l = Some COLON) then (d, Ok events)
  else
    let (field, value) := field_and_value l in
    if bytes_eqb field (lit "event") then (set_event d value, Ok events)
    else if bytes_eqb field (lit "data") then
      if max_event_bytes d <? len (data d) + len value + 1 then
        (d, Err (EventTooLarge (max_event_bytes d)))
      else
        (set_data d ((if saw_data_field d then data d ++ [LF] else data d) ++ value) true,
         Ok events)
    else if bytes_eqb field (lit "id") then
      (if existsb (Byte.eqb x00) value then d else set_last_id d (Some value), Ok events)
    else if bytes_eqb field (lit "retry") then
      (if negb (bytes_eqb value []) && forallb is_ascii_digit value then
         match parse_u64 value with
         | Some millis => set_retry d (Some millis)
         | None => d
         end
       else d, Ok events)
    else (d, Ok events).

(** [SseDecoder::strip_byte_order_mark]: the loop over the chunk. *)
Definition bom_done (d : SseDecoder) : SseDecoder :=
  if bool_decide (bom_progress d = length BOM) then set_bom d true (bom_progress d) else d.

Fixpoint strip_loop (d : SseDecoder) (chunk : bytes) : SseDecoder * bytes :=
  match chunk with
  | [] => (bom_done d, [])
  | b :: rest =>
      if bool_decide (bom_progress d < length BOM)%nat then
        if bool_decide (BOM !! bom_progress d = Some b) then
          strip_loop (set_bom d (checked_bom d) (S (bom_progress d))) rest
        else
          (set_line (set_bom d true 0) (line d ++ take (bom_progress d) BOM), chunk)
      else (bom_done d, chunk)
  end.

Definition strip_byte_order_mark (d : SseDecoder) (chunk : bytes) : SseDecoder * bytes :=
  if checked_bom d then (d, chunk) else strip_loop d chunk.

(** One iteration of the loop of [SseDecoder::push]. *)
Definition push_byte (d : SseDecoder) (byte : byte) (events : list SseEvent)
    : SseDecoder * result StreamDecodeError (list SseEvent) :=
  if pending_cr d && Byte.eqb byte LF then (set_pending_cr d false, Ok events)
  else
    let d := set_pending_cr d false in
    if Byte.eqb byte CR then end_line (set_pending_cr d true) events
    else if Byte.eqb byte LF then end_line d events
    else if max_line_bytes d <=? len (line d) then (d, Err (LineTooLong (max_line_bytes d)))
    else (set_line d (line d ++ [byte]), Ok events).

Fixpoint push_loop (d : SseDecoder) (chunk : bytes) (events : list SseEvent)
    : SseDecoder * result StreamDecodeError (list SseEvent) :=
  match chunk with
  | [] => (d, Ok events)
  | b :: rest =>
      match push_byte d b events with
      | (d, Ok events) => push_loop d rest events
      | (d, Err e) => (d, Err e)
      end
  end.

(** [SseDecoder::push] *)
Definition push (d : SseDecoder) (chunk : bytes)
    : SseDecoder * result StreamDecodeError (list SseEvent) :=
  let (d, chunk) := strip_byte_order_mark d chunk in push_loop d chunk [].

(** [SseDecoder::finish] *)
Definition finish (d : SseDecoder) : SseDecoder * list SseEvent :=
  let d := set_line d [] in
  if saw_data_field d then dispatch d [] else (d, []).

(** A caller's loop: push every chunk, collect the events, stop at an error. *)
Fixpoint push_all (d : SseDecoder) (chunks : list bytes) (events : list SseEvent)
    : SseDecoder * result StreamDecodeError (list SseEvent) :=
  match chunks with
  | [] => (d, Ok events)
  | c :: cs =>
      match push d c with
      | (d, Ok more) => push_all d cs (events ++ more)
      | (d, Err e) => (d, Err e)
      end
  end.

(** ** The newline-delimited decoder *)

Record LineDecoder := mkLineDecoder {
  buffer : bytes;
  ld_max_line_bytes : Z;
}.

Definition new_line_decoder (max_line : Z) : LineDecoder := mkLineDecoder [] (Z.max max_line 1).

(** [line.trim_end_matches('\r')] *)
Fixpoint trim_start_cr (s : bytes) : bytes :=
  match s with
  | b :: r => if Byte.eqb b CR then trim_start_cr r else s
  | [] => []
  end.

Definition trim_end_cr (s : bytes) : bytes := reverse (trim_start_cr (reverse s)).

Fixpoint ld_push (d : LineDecoder) (chunk : bytes) (lines : list bytes)
    : LineDecoder * result StreamDecodeError (list bytes) :=
  match chunk with
  | [] => (d, Ok lines)
  | b :: rest =>
      if Byte.eqb b LF then
        let l := buffer d in
        let d := mkLineDecoder [] (ld_max_line_bytes d) in
        if negb (utf8_valid l) then (d, Err InvalidUtf8)
        else
          let trimmed := trim_end_cr l in
          ld_push d rest (if bytes_eqb trimmed [] then lines else lines ++ [trimmed])
      else if ld_max_line_bytes d <=? len (buffer d) then
        (d, Err (LineTooLong (ld_max_line_bytes d)))
      else ld_push (mkLineDecoder (buffer d ++ [b]) (ld_max_line_bytes d)) rest lines
  end.

(** [LineDecoder::finish] *)
Definition ld_finish (d : LineDecoder) : LineDecoder * result StreamDecodeError (option bytes) :=
  match buffer d with
  | [] => (d, Ok None)
  | l =>
      let d := mkLineDecoder [] (ld_max_line_bytes d) in
      if negb (utf8_valid l) then (d, Err InvalidUtf8)
      else
        let trimmed := trim_end_cr l in
        (d, Ok (if bytes_eqb trimmed [] then None else Some trimmed))
  end.

Fixpoint ld_push_all (d : LineDecoder) (chunks : list bytes) (lines : list bytes)
    : LineDecoder * result StreamDecodeError (list bytes) :=
  match chunks with
  | [] => (d, Ok lines)
  | c :: cs =>
      match ld_push d c [] with
      | (d, Ok more) => ld_push_all d cs (lines ++ more)
      | (d, Err e) => (d, Err e)
      end
  end.

(** ** Chunk boundaries *)

(** Sequencing of decoder runs: what [?] and the event vector do. *)
Definition then_push (r : SseDecoder * result StreamDecodeError (list SseEvent))
    (k : SseDecoder → SseDecoder * result StreamDecodeError (list SseEvent))
    : SseDecoder * result StreamDecodeError (list SseEvent) :=
  match r with
  | (d, Ok events) => let (d, r) := k d in (d, app events <$> r)
  | (d, Err e) => (d, Err e)
  end.

Lemma then_push_nil d k : then_push (d, Ok []) k = k d.
Proof. simpl. by destruct (k d) as [? [|]]. Qed.

(** Every path through [end_line]. *)
Ltac end_line_cases :=
  unfold end_line, dispatch; simpl;
  repeat (case_match; simplify_eq/=); rewrite ?app_nil_r; try done;
  match goal with |- context [field_and_value ?l] => destruct (field_and_value l) end;
  repeat case_match; simplify_eq/=; by rewrite ?app_nil_r.

(** What [end_line] leaves alone: the framing state and the limits. *)
Definition framing (d : SseDecoder) : bool * bool * nat * Z * Z :=
  (pending_cr d, checked_bom d, bom_progress d, max_line_bytes d, max_event_bytes d).

Lemma end_line_framing d events :
  framing (end_line d events).1 = framing d ∧ line (end_line d events).1 = [].
Proof. end_line_cases. Qed.

Lemma end_line_events d events :
  end_line d events = then_push (d, Ok events) (λ d, end_line d []).
Proof. end_line_cases. Qed.

Lemma push_byte_events d b events :
  push_byte d b events = then_push (d, Ok events) (λ d, push_byte d b []).
Proof.
  unfold push_byte. simpl.
  destruct (pending_cr d && _); simpl; [by rewrite app_nil_r|].
  destruct (Byte.eqb b CR); [by rewrite end_line_events|].
  destruct (Byte.eqb b LF); [by rewrite end_line_events|].
  destruct (_ <=? _); simpl; by rewrite ?app_nil_r.
Qed.

Lemma push_loop_events d chunk events :
  push_loop d chunk events = then_push (d, Ok events) (λ d, push_loop d chunk []).
Proof.
  revert d events. induction chunk as [|b chunk IH]; intros d events; simpl.
  { by rewrite app_nil_r. }
  rewrite push_byte_events. simpl. destruct (push_byte d b []) as [d' [more|e]]; simpl; [|done].
  rewrite IH, (IH d' more). simpl.
  destruct (push_loop d' chunk []) as [? [|]]; simpl; by rewrite ?app_assoc.
Qed.

Lemma push_loop_app d a b :
  push_loop d (a ++ b) [] = then_push (push_loop d a []) (λ d, push_loop d b []).
Proof.
  revert d. induction a as [|x a IH]; intros d; simpl.
  { by destruct (push_loop d b []) as [? [|]]. }
  destruct (push_byte d x []) as [d' [more|e]]; simpl; [|done].
  rewrite (push_loop_events d' (a ++ b)), (push_loop_events d' a). simpl. rewrite IH.
  destruct (push_loop d' a []) as [d2 [ev2|e2]]; simpl; [|done].
  destruct (push_loop d2 b []) as [? [|]]; simpl; by rewrite ?app_assoc.
Qed.

(** The byte-order-mark detector is still running, or has finished for good. *)
Definition bom_ok (d : SseDecoder) : Prop :=
  checked_bom d = false → (bom_progress d < length BOM)%nat.

Definition bom_state (d : SseDecoder) : bool * nat := (checked_bom d, bom_progress d).

Lemma end_line_bom d events : bom_state (end_line d events).1 = bom_state d.
Proof.
  destruct (end_line_framing d events) as [[= _ Hc Hb _ _] _]. unfold bom_state. congruence.
Qed.

Lemma push_byte_bom d b events : bom_state (push_byte d b events).1 = bom_state d.
Proof.
  unfold push_byte. repeat (case_match; simplify_eq/=); try done; by rewrite end_line_bom.
Qed.

Lemma push_loop_bom d chunk events : bom_state (push_loop d chunk events).1 = bom_state d.
Proof.
  revert d events. induction chunk as [|b chunk IH]; intros d events; simpl; [done|].
  pose proof (push_byte_bom d b events) as Hb.
  destruct (push_byte d b events) as [d' [more|e]]; simpl in *; [|done]. by rewrite IH.
Qed.

(** Stripping a split chunk: either the detector finished inside the first part,
    or it consumed all of it and carries on with the second. *)
Lemma strip_loop_app d a b :
  checked_bom d = false → (bom_progress d < length BOM)%nat →
  let (d1, rest) := strip_loop d a in
  strip_loop d (a ++ b) =
    if checked_bom d1 then (d1, rest ++ b) else strip_loop d1 b.
Proof.
  revert d. induction a as [|x a IH]; intros d Hc Hp; simpl.
  { unfold bom_done. rewrite bool_decide_eq_false_2 by lia. by rewrite Hc. }
  rewrite bool_decide_eq_true_2 by done.
  case_bool_decide as Hx; [|done].
  destruct (decide (S (bom_progress d) < length BOM)%nat) as [Hlt|Hge].
  { by apply IH. }
  change (length BOM) with 3%nat in *.
  assert (bom_progress d = 2)%nat as Hp2 by lia.
  destruct a as [|y a]; simpl; unfold bom_done; simpl; rewrite Hp2; simpl; [|done].
  by destruct b.
Qed.

Lemma strip_loop_unchecked d a d1 rest :
  strip_loop d a = (d1, rest) → checked_bom d1 = false → checked_bom d = false →
  (bom_progress d < length BOM)%nat → rest = [] ∧ (bom_progress d1 < length BOM)%nat.
Proof.
  revert d. induction a as [|x a IH]; intros d; simpl.
  { unfold bom_done. intros Hs Hc1 Hc Hp. change (length BOM) with 3%nat in *.
    rewrite bool_decide_eq_false_2 in Hs by lia.
    by injection Hs as <- <-. }
  intros Hs Hc1 Hc Hp. rewrite bool_decide_eq_true_2 in Hs by done.
  destruct (bool_decide (BOM !! _ = _)); [|by injection Hs as <- _].
  destruct (decide (S (bom_progress d) < length BOM)%nat) as [Hlt|Hge].
  { by eapply IH. }
  change (length BOM) with 3%nat in *.
  assert (bom_progress d = 2)%nat as Hp2 by lia. exfalso.
  destruct a as [|y a]; simpl in Hs; unfold bom_done in Hs; simpl in Hs; rewrite Hp2 in Hs;
    simpl in Hs; by injection Hs as <- <-.
Qed.

Lemma push_checked d c : checked_bom d = true → push d c = push_loop d c [].
Proof. intros Hc. unfold push, strip_byte_order_mark. by rewrite Hc. Qed.

Lemma push_app d a b :
  bom_ok d → push d (a ++ b) = then_push (push d a) (λ d, push d b).
Proof.
  intros Hok. destruct (checked_bom d) eqn:Hc.
  { rewrite !push_checked, push_loop_app by done.
    pose proof (push_loop_bom d a []) as Hb. unfold bom_state in Hb.
    destruct (push_loop d a []) as [d' [ev|e]]; simpl in *; [|done].
    rewrite push_checked by congruence. done. }
  specialize (Hok Hc). unfold push at 1 2, strip_byte_order_mark. rewrite Hc.
  pose proof (strip_loop_app d a b Hc Hok) as Hs.
  destruct (strip_loop d a) as [d1 rest] eqn:E. rewrite Hs.
  destruct (checked_bom d1) eqn:Hc1.
  - rewrite push_loop_app. pose proof (push_loop_bom d1 rest []) as Hb. unfold bom_state in Hb.
    destruct (push_loop d1 rest []) as [d' [ev|e]]; simpl in *; [|done].
    rewrite push_checked by congruence. done.
  - destruct (strip_loop_unchecked d a d1 rest E Hc1 Hc Hok) as [-> Hp1]. simpl.
    unfold push, strip_byte_order_mark. rewrite Hc1.
    destruct (strip_loop d1 b) as [d2 r2]. by destruct (push_loop d2 r2 []) as [? [|]].
Qed.

Lemma strip_loop_bom_ok d a d1 rest :
  strip_loop d a = (d1, rest) → checked_bom d = false →
  (bom_progress d < length BOM)%nat → bom_ok d1.
Proof.
  intros Hs Hc Hp Hc1. by destruct (strip_loop_unchecked d a d1 rest).
Qed.

Lemma push_bom_ok d c : bom_ok d → bom_ok (push d c).1.
Proof.
  intros Hok. unfold push, strip_byte_order_mark.
  destruct (if checked_bom d then (d, c) else strip_loop d c) as [d1 r] eqn:E.
  assert (bom_ok d1) as Hok1.
  { destruct (checked_bom d) eqn:Hc; [by injection E as <- _|].
    eapply strip_loop_bom_ok; eauto. }
  pose proof (push_loop_bom d1 r []) as [= Hb Hp]. unfold bom_ok. rewrite Hb, Hp. done.
Qed.

(** Chunk-boundary independence: feeding any split of a byte stream to the
    event decoder, chunk by chunk, ends in the same decoder with the same result
    (the same events, or the same error) as feeding the concatenation at once.
    Boundaries may fall anywhere, including inside the byte-order mark, a code
    point or a CRLF pair. *)
Theorem sse_chunk_independence d (chunks : list bytes) :
  bom_ok d → chunks ≠ [] → push_all d chunks [] = push d (concat chunks).
Proof.
  intros Hok Hne.
  assert (∀ cs d ev c, bom_ok d →
    push_all d (c :: cs) ev = then_push (d, Ok ev) (λ d, push d (c ++ concat cs))) as Hall.
  { clear. induction cs as [|c' cs IH]; intros d ev c Hok.
    - simpl. rewrite app_nil_r. by destruct (push d c) as [? [|]].
    - change (concat (c' :: cs)) with (c' ++ concat cs). simpl then_push.
      rewrite push_app by done. pose proof (push_bom_ok d c Hok) as Hok'.
      change (push_all d (c :: c' :: cs) ev) with
        (match push d c with (d, Ok more) => push_all d (c' :: cs) (ev ++ more)
                           | (d, Err e) => (d, Err e) end).
      destruct (push d c) as [d' [more|e]]; [|done]. simpl in Hok'.
      rewrite IH by done. simpl. destruct (push d' _) as [? [|]]; simpl; by rewrite ?app_assoc. }
  destruct chunks as [|c cs]; [done|]. rewrite Hall by done. by rewrite then_push_nil.
Qed.

(** ** Bounded memory *)

(** What a decoder may hold under its limits; a byte-order-mark candidate that
    turns out to be data is replayed into the line buffer without a check, which
    is why the line bound is at least two. *)
Record mem_ok (ml me : Z) (d : SseDecoder) : Prop := {
  mem_limits : max_line_bytes d = ml ∧ max_event_bytes d = me;
  mem_line : len (line d) ≤ Z.max ml 2;
  mem_data : 0 ≤ len (data d) ≤ me;
  mem_event : len (event d) ≤ Z.max ml 2;
  mem_id : ∀ i, last_id d = Some i → len i ≤ Z.max ml 2;
}.

Lemma split_once_len sep s f v :
  split_once sep s = Some (f, v) → len f + len v < len s.
Proof.
  revert f v. induction s as [|b s IH]; simpl; intros f v; [done|].
  destruct (Byte.eqb b sep); [intros [= <- <-]; autorewrite with claw; lia|].
  destruct (split_once sep s) as [[f' v']|]; [|done]. intros [= <- <-].
  specialize (IH f' v' eq_refl). autorewrite with claw. lia.
Qed.

Lemma field_and_value_len l : len (field_and_value l).2 ≤ len l.
Proof.
  unfold field_and_value. destruct (split_once COLON l) as [[f v]|] eqn:E; simpl.
  - apply split_once_len in E. pose proof (len_nonneg f).
    destruct v as [|b v]; simpl; [lia|]. destruct (Byte.eqb b SPACE);
      autorewrite with claw in *; lia.
  - pose proof (len_nonneg l). rewrite len_nil. lia.
Qed.

Lemma mem_ok_end_line ml me d events :
  0 ≤ ml → 0 < me → mem_ok ml me d → mem_ok ml me (end_line d events).1.
Proof.
  intros Hml Hme [[Hm1 Hm2] Hl Hd He Hi].
  assert (mem_ok ml me (set_line d [])) as H0.
  { split; simpl; try done. rewrite len_nil. lia. }
  assert (∀ e, len e ≤ Z.max ml 2 → mem_ok ml me (set_event (set_line d []) e)) as Hev.
  { intros e Hle. destruct H0. by split. }
  unfold end_line. cbv zeta.
  destruct (negb _); [done|]. destruct (bytes_eqb _ _).
  { unfold dispatch. case_match; simpl; [|apply Hev; rewrite len_nil; lia].
    split; simpl; try done; unfold len; simpl; lia. }
  destruct (bool_decide _); [done|].
  pose proof (field_and_value_len (line d)) as Hlen.
  destruct (field_and_value (line d)) as [f v]; simpl in Hlen.
  repeat match goal with |- context [if bytes_eqb f ?x then _ else _] =>
    destruct (bytes_eqb f x) end; simpl; try done.
  - apply Hev. lia.
  - destruct (_ <? _) eqn:Hb; [done|]. boolify. split; simpl in *; try done; [rewrite len_nil; lia|].
    destruct (saw_data_field d); autorewrite with claw in *; pose proof (len_nonneg v); lia.
  - destruct (existsb _ _); [done|]. destruct H0. split; simpl in *; try done.
    intros i [= <-]. lia.
  - destruct (_ && _); [|done]. destruct (parse_u64 v); [|done]. destruct H0. by split.
Qed.

Lemma mem_ok_push_byte ml me d b events :
  0 < ml → 0 < me → mem_ok ml me d → mem_ok ml me (push_byte d b events).1.
Proof.
  intros Hml Hme H.
  assert (∀ v, mem_ok ml me (set_pending_cr d v)) as Hp by (intros v; by destruct H).
  unfold push_byte. destruct (_ && _); [apply Hp|].
  destruct (Byte.eqb b CR); [apply mem_ok_end_line; [lia|done|]; by destruct H|].
  destruct (Byte.eqb b LF); [apply mem_ok_end_line; [lia|done|apply Hp]|].
  destruct (_ <=? _) eqn:Hb; [apply Hp|]. boolify. simpl in *.
  destruct H as [[Hm1 Hm2] Hl Hd He Hi]. split; simpl; try done.
  rewrite len_app, len_cons, len_nil. lia.
Qed.

Lemma mem_ok_push_loop ml me d chunk events :
  0 < ml → 0 < me → mem_ok ml me d → mem_ok ml me (push_loop d chunk events).1.
Proof.
  intros Hml Hme. revert d events.
  induction chunk as [|b chunk IH]; intros d events H; simpl; [done|].
  pose proof (mem_ok_push_byte ml me d b events Hml Hme H) as Hb.
  destruct (push_byte d b events) as [d' [more|e]]; simpl in *; [by apply IH|done].
Qed.

(** Before the mark has been ruled in or out nothing is buffered. *)
Definition pristine (d : SseDecoder) : Prop := checked_bom d = false → line d = [].

Lemma mem_ok_strip_loop ml me d chunk :
  0 < ml → mem_ok ml me d → line d = [] → (bom_progress d ≤ length BOM)%nat →
  mem_ok ml me (strip_loop d chunk).1 ∧ pristine (strip_loop d chunk).1.
Proof.
  intros Hml. revert d. induction chunk as [|b chunk IH]; intros d H Hl Hp; simpl.
  { unfold bom_done. destruct (bool_decide _); destruct H; split; try done; by intros _. }
  case_bool_decide.
  2:{ unfold bom_done. destruct (bool_decide _); destruct H; split; try done; by intros _. }
  destruct (bool_decide (BOM !! _ = _)); simpl.
  { apply IH; simpl; [by destruct H|done|lia]. }
  split; [|by intros ?]. destruct H as [Hm Hl' Hd He Hi]. split; simpl; try done.
  rewrite Hl. simpl. unfold len. rewrite length_take. change (length BOM) with 3%nat in *. lia.
Qed.

Lemma mem_ok_push ml me d chunk :
  0 < ml → 0 < me → mem_ok ml me d → pristine d → bom_ok d →
  mem_ok ml me (push d chunk).1 ∧ pristine (push d chunk).1.
Proof.
  intros Hml Hme H Hpr Hok. unfold push, strip_byte_order_mark.
  destruct (checked_bom d) eqn:Hc.
  - split; [by apply mem_ok_push_loop|].
    pose proof (push_loop_bom d chunk []) as [= Hb _]. intros ?. congruence.
  - pose proof (mem_ok_strip_loop ml me d chunk Hml H (Hpr Hc)
                  (Nat.lt_le_incl _ _ (Hok Hc))) as [H1 Hp1].
    destruct (strip_loop d chunk) as [d1 rest] eqn:E. simpl in H1, Hp1.
    split; [by apply mem_ok_push_loop|].
    destruct (checked_bom d1) eqn:Hc1.
    + pose proof (push_loop_bom d1 rest []) as [= Hb _]. intros ?. congruence.
    + destruct (strip_loop_unchecked d chunk d1 rest E Hc1 Hc (Hok Hc)) as [-> _]. done.
Qed.

(** Bounded memory: whatever the peer sends, in however many chunks and
    whether or not the decoder fails, the unterminated-line buffer holds at most
    [max_line_bytes] bytes (two, if the limit is one) and the accumulated payload
    at most [max_event_bytes]; the event name and last id are bounded by the line. *)
Theorem sse_bounded_memory max_line max_event (chunks : list bytes) :
  let d := (push_all (with_limits max_line max_event) chunks []).1 in
  len (line d) ≤ Z.max max_line 2 ∧ len (data d) ≤ Z.max max_event 1 ∧
  len (event d) ≤ Z.max max_line 2 ∧
  (∀ i, last_id d = Some i → len i ≤ Z.max max_line 2).
Proof.
  cbv zeta. set (ml := Z.max max_line 1). set (me := Z.max max_event 1).
  assert (∀ d ev, mem_ok ml me d → pristine d → bom_ok d →
    mem_ok ml me (push_all d chunks ev).1) as Hall.
  { induction chunks as [|c cs IH]; intros d ev H Hp Hok; simpl; [done|].
    destruct (mem_ok_push ml me d c) as [H' Hp']; [lia|lia|done..|].
    pose proof (push_bom_ok d c Hok) as Hok'.
    destruct (push d c) as [d' [more|e]]; simpl in *; [by apply IH|done]. }
  destruct (Hall (with_limits max_line max_event) []) as [_ Hl Hd He Hi].
  - split; simpl; try done; unfold len; simpl; lia.
  - done.
  - intros _. simpl. lia.
  - replace (Z.max ml 2) with (Z.max max_line 2) in * by lia. split_and!; [done|lia|done|done].
Qed.

(** ** Line endings *)

Inductive Terminator := TLf | TCrLf | TCr.

Definition term_bytes (t : Terminator) : bytes :=
  match t with TLf => [LF] | TCrLf => [CR; LF] | TCr => [CR] end.

Definition render (t : Terminator) (ls : list bytes) : bytes :=
  concat ((λ l, l ++ term_bytes t) <$> ls).

(** The reference semantics of a sequence of lines. *)
Fixpoint feed_lines (d : SseDecoder) (ls : list bytes)
    : SseDecoder * result StreamDecodeError (list SseEvent) :=
  match ls with
  | [] => (d, Ok [])
  | l :: ls => then_push (end_line (set_line d l) []) (λ d, feed_lines d ls)
  end.

Definition plain (l : bytes) : Prop := Forall (λ b, b ≠ CR ∧ b ≠ LF) l.

(** Forget the CR-pending flag, which no line of the stream depends on. *)
Definition erase (r : SseDecoder * result StreamDecodeError (list SseEvent))
    : SseDecoder * result StreamDecodeError (list SseEvent) :=
  (set_pending_cr r.1 false, r.2).

Lemma set_pending_cr_id d : set_pending_cr d (pending_cr d) = d.
Proof. by destruct d. Qed.

Lemma end_line_pending_cr d v events :
  end_line (set_pending_cr d v) events =
  (set_pending_cr (end_line d events).1 v, (end_line d events).2).
Proof. end_line_cases. Qed.

(** Text without terminators only grows the line buffer. *)
Lemma push_loop_plain d l :
  plain l → len (line d) + len l ≤ max_line_bytes d →
  push_loop d l [] =
  (set_line (if l then d else set_pending_cr d false) (line d ++ l), Ok []).
Proof.
  intros Hp. revert d. induction Hp as [|b l [Hcr Hlf] Hp IH]; intros d Hlen; simpl.
  { rewrite app_nil_r. by destruct d. }
  autorewrite with claw in Hlen. pose proof (len_nonneg l).
  unfold push_byte. apply byte_eqb_neq in Hcr. apply byte_eqb_neq in Hlf.
  rewrite Hcr, Hlf, andb_false_r. simpl.
  replace (max_line_bytes d <=? len (line d)) with false by lia.
  rewrite IH by (simpl; rewrite len_app, len_cons, len_nil; lia).
  simpl. rewrite <- app_assoc. by destruct l, d.
Qed.

(** One rendered line is one reference line, up to the CR-pending flag. *)
Lemma push_loop_line t d l :
  plain l → len l ≤ max_line_bytes d → line d = [] →
  (pending_cr d = false ∨ t ≠ TLf) →
  erase (push_loop d (l ++ term_bytes t) []) =
    erase (end_line (set_line (set_pending_cr d false) l) []) ∧
  ∀ d' evs, push_loop d (l ++ term_bytes t) [] = (d', Ok evs) →
    line d' = [] ∧ max_line_bytes d' = max_line_bytes d ∧ (pending_cr d' = false ∨ t ≠ TLf).
Proof.
  intros Hp Hl Hd Ht. rewrite push_loop_app, push_loop_plain by (done || rewrite Hd; done).
  rewrite Hd, then_push_nil. simpl app.
  set (d0 := set_line (if l then d else set_pending_cr d false) l).
  assert (∀ v, set_pending_cr d0 v = set_pending_cr (set_line (set_pending_cr d false) l) v)
    as Hd0 by (intros v; unfold d0; by destruct l, d).
  assert (pending_cr d0 = false ∨ t ≠ TLf) as Ht0 by (unfold d0; by destruct l; [|left]).
  assert (max_line_bytes d0 = max_line_bytes d) as Hm0 by (unfold d0; by destruct l).
  clearbody d0. set (d1 := set_line (set_pending_cr d false) l) in *.
  assert (set_pending_cr d1 false = d1) as Hd1 by (unfold d1; by destruct d).
  destruct (end_line_framing d1 []) as [HF HL]. unfold framing in HF. simpl in HF.
  destruct t; simpl; unfold push_byte; simpl.
  - destruct Ht0 as [Ht0|?]; [|done]. rewrite Ht0. simpl. rewrite Hd0, Hd1.
    destruct (end_line d1 []) as [d' [ev|e]]; simpl in *; [|by split].
    split; [done|]. intros ? ? [= <- <-]. simplify_eq. by split_and!; [| |left].
  - rewrite andb_false_r. simpl.
    change (set_pending_cr (set_pending_cr d0 false) true) with (set_pending_cr d0 true).
    rewrite Hd0, end_line_pending_cr.
    destruct (end_line d1 []) as [d' [ev|e]]; simpl in *; [|by split].
    split; [done|]. intros ? ? [= <- <-]. simplify_eq. by split_and!; [| |left].
  - rewrite andb_false_r. simpl.
    change (set_pending_cr (set_pending_cr d0 false) true) with (set_pending_cr d0 true).
    rewrite Hd0, end_line_pending_cr.
    destruct (end_line d1 []) as [d' [ev|e]]; simpl in *; [|by split].
    split; [done|]. intros ? ? [= <- <-]. simplify_eq. by split_and!; [| |right].
Qed.

Lemma then_push_erase r k k' :
  (∀ d ev, r = (d, Ok ev) → erase (k d) = k' (set_pending_cr d false)) →
  (∀ d, erase (k' d) = k' d) →
  erase (then_push r k) = then_push (erase r) k'.
Proof.
  intros Hk Hk'. destruct r as [d [ev|e]]; [|done]. specialize (Hk d ev eq_refl).
  simpl. rewrite <- Hk. by destruct (k d) as [? [|]].
Qed.

(** A rendered stream is processed line by line, whatever the terminator. *)
Lemma push_render t d (ls : list bytes) :
  checked_bom d = true → pending_cr d = false → line d = [] →
  Forall (λ l, plain l ∧ len l ≤ max_line_bytes d) ls →
  erase (push d (render t ls)) = erase (feed_lines d ls).
Proof.
  intros Hc Hp Hl Hls. rewrite push_checked by done.
  assert (∀ d0, line d0 = [] → max_line_bytes d0 = max_line_bytes d →
    (pending_cr d0 = false ∨ t ≠ TLf) →
    erase (push_loop d0 (render t ls) []) = erase (feed_lines (set_pending_cr d0 false) ls))
    as Hall.
  { clear Hc Hp Hl. generalize dependent (max_line_bytes d). clear d. intros m Hls.
    induction Hls as [|l ls [Hpl Hle] Hls IH]; intros d Hl Hm Ht; [by destruct d|].
    change (render t (l :: ls)) with ((l ++ term_bytes t) ++ render t ls).
    rewrite push_loop_app. simpl feed_lines.
    destruct (push_loop_line t d l Hpl ltac:(congruence) Hl Ht) as [Heq Hk].
    rewrite (then_push_erase _ _ (λ d, erase (feed_lines d ls))).
    - rewrite Heq. set (d1 := set_line (set_pending_cr d false) l).
      change (set_line _ l) with d1.
      destruct (end_line_framing d1 []) as [[= Hp _ _ _ _] _].
      destruct (end_line d1 []) as [d' [ev|e]]; [|done]. simpl in *.
      assert (set_pending_cr d' false = d') as -> by (rewrite <- Hp; apply set_pending_cr_id).
      by destruct (feed_lines d' ls) as [? [|]].
    - intros d' ev Hr. destruct (Hk d' ev Hr) as (Hl' & Hm' & Ht'). apply IH; congruence || done.
    - done. }
  rewrite Hall by (done || by left). by rewrite <- Hp at 1; rewrite set_pending_cr_id.
Qed.

(** Line endings: the same lines terminated throughout by LF, by CRLF or by a
    lone CR give the same events (or the same error) and leave the same decoder,
    the CR-pending flag apart. *)
Theorem sse_line_endings t t' d (ls : list bytes) :
  checked_bom d = true → pending_cr d = false → line d = [] →
  Forall (λ l, plain l ∧ len l ≤ max_line_bytes d) ls →
  erase (push d (render t ls)) = erase (push d (render t' ls)).
Proof. intros. by rewrite !push_render. Qed.


(** ** Round trip *)

Fixpoint join_lf (ls : list bytes) : bytes :=
  match ls with
  | [] => []
  | [l] => l
  | l :: ls => l ++ LF :: join_lf ls
  end.

(** The wire form of an event: its name, one [data:] line per payload line, and
    the blank line that dispatches it. *)
Definition event_lines (name : bytes) (ls : list bytes) : list bytes :=
  (lit "event: " ++ name) :: ((app (lit "data: ")) <$> ls) ++ [[]].

Definition encode_event (name : bytes) (ls : list bytes) : bytes :=
  render TLf (event_lines name ls).

(** A well-formed field line reaches the field dispatch. *)
Lemma end_line_field d l field value events :
  utf8_valid l = true → l ≠ [] → head l ≠ Some COLON → field_and_value l = (field, value) →
  end_line (set_line d l) events =
    let d := set_line d [] in
    if bytes_eqb field (lit "event") then (set_event d value, Ok events)
    else if bytes_eqb field (lit "data") then
      if max_event_bytes d <? len (data d) + len value + 1 then
        (d, Err (EventTooLarge (max_event_bytes d)))
      else
        (set_data d ((if saw_data_field d then data d ++ [LF] else data d) ++ value) true,
         Ok events)
    else if bytes_eqb field (lit "id") then
      (if existsb (Byte.eqb x00) value then d else set_last_id d (Some value), Ok events)
    else if bytes_eqb field (lit "retry") then
      (if negb (bytes_eqb value []) && forallb is_ascii_digit value then
         match parse_u64 value with
         | Some millis => set_retry d (Some millis)
         | None => d
         end
       else d, Ok events)
    else (d, Ok events).
Proof.
  intros Hv Hne Hh Hf. unfold end_line. change (line (set_line d l)) with l.
  change (set_line (set_line d l) []) with (set_line d []).
  rewrite Hv. unfold bytes_eqb at 1. rewrite !bool_decide_eq_false_2 by done.
  by rewrite Hf.
Qed.

Lemma set_line_nil d : line d = [] → set_line d [] = d.
Proof. destruct d. simpl. by intros ->. Qed.

Lemma end_line_data d l :
  line d = [] → utf8_valid l = true →
  len (data d) + len l + 1 ≤ max_event_bytes d →
  end_line (set_line d (lit "data: " ++ l)) [] =
  (set_data d ((if saw_data_field d then data d ++ [LF] else data d) ++ l) true, Ok []).
Proof.
  intros Hl Hv Hlen. rewrite (end_line_field _ _ (lit "data") l); [|by rewrite utf8_valid_app|done..].
  rewrite set_line_nil by done. cbv zeta.
  replace (max_event_bytes d <? _) with false by lia. done.
Qed.

Lemma end_line_event d name :
  line d = [] → utf8_valid name = true →
  end_line (set_line d (lit "event: " ++ name)) [] = (set_event d name, Ok []).
Proof.
  intros Hl Hv.
  rewrite (end_line_field _ _ (lit "event") name); [|by rewrite utf8_valid_app|done..].
  by rewrite set_line_nil.
Qed.

Lemma feed_data_lines d ls :
  ls ≠ [] → line d = [] → data d = [] → saw_data_field d = false →
  Forall (λ l, utf8_valid l = true) ls → len (join_lf ls) + 1 ≤ max_event_bytes d →
  feed_lines d (((app (lit "data: ")) <$> ls) ++ [[]]) =
  then_push (end_line (set_data d (join_lf ls) true) []) (λ d, (d, Ok [])).
Proof.
  intros Hne Hl Hd Hs Hv Hlen.
  assert (∀ ls d, line d = [] → saw_data_field d = true → Forall (λ l, utf8_valid l = true) ls →
    len (data d) + len (concat (cons LF <$> ls)) + 1 ≤ max_event_bytes d →
    feed_lines d (((app (lit "data: ")) <$> ls) ++ [[]]) =
    then_push (end_line (set_data d (data d ++ concat (cons LF <$> ls)) true) [])
      (λ d, (d, Ok []))) as Hmore.
  { clear. induction ls as [|l ls IH]; intros d Hl Hs Hv Hlen.
    - simpl. rewrite app_nil_r.
      replace (set_line d []) with (set_data d (data d) true); [done|].
      destruct d; simpl in *; by subst.
    - apply Forall_cons in Hv as [Hv Hvs].
      change (concat (cons LF <$> l :: ls)) with (LF :: l ++ concat (cons LF <$> ls)) in *.
      autorewrite with claw in Hlen. pose proof (len_nonneg (concat (cons LF <$> ls))).
      change (feed_lines d (((app (lit "data: ")) <$> l :: ls) ++ [[]])) with
        (then_push (end_line (set_line d (lit "data: " ++ l)) [])
           (λ d, feed_lines d (((app (lit "data: ")) <$> ls) ++ [[]]))).
      rewrite end_line_data, then_push_nil by (done || lia). rewrite Hs.
      rewrite IH by (simpl; autorewrite with claw; done || lia).
      simpl. by rewrite <- !app_assoc. }
  destruct ls as [|l ls]; [done|]. apply Forall_cons in Hv as [Hv Hvs].
  assert (join_lf (l :: ls) = l ++ concat (cons LF <$> ls)) as Hj.
  { clear. revert l. induction ls as [|l' ls IH]; intros l; [by rewrite app_nil_r|].
    change (join_lf (l :: l' :: ls)) with (l ++ LF :: join_lf (l' :: ls)).
    by rewrite IH. }
  rewrite Hj in *. autorewrite with claw in Hlen.
  pose proof (len_nonneg (concat (cons LF <$> ls))).
  change (feed_lines d (((app (lit "data: ")) <$> l :: ls) ++ [[]])) with
    (then_push (end_line (set_line d (lit "data: " ++ l)) [])
       (λ d, feed_lines d (((app (lit "data: ")) <$> ls) ++ [[]]))).
  rewrite end_line_data, then_push_nil by (rewrite ?Hd, ?len_nil; done || lia).
  rewrite Hs, Hd. rewrite Hmore by (simpl; done || lia). done.
Qed.

(** Round trip: the wire form of a named event with any number of payload
    lines, decoded by a fresh decoder whose limits admit it, yields exactly that
    event, with the payload lines joined by newlines. *)
Theorem sse_event_roundtrip max_line max_event name (ls : list bytes) :
  name ≠ [] → ls ≠ [] → utf8_valid name = true → plain name →
  Forall (λ l, utf8_valid l = true ∧ plain l ∧ 6 + len l ≤ max_line) ls →
  7 + len name ≤ max_line → len (join_lf ls) + 1 ≤ max_event →
  (push (with_limits max_line max_event) (encode_event name ls)).2 =
  Ok [mkEvent name (join_lf ls) None None].
Proof.
  intros Hn Hls Hv Hp Hl Hlen Hme.
  set (d0 := set_bom (with_limits max_line max_event) true 0).
  assert (push (with_limits max_line max_event) (encode_event name ls) =
          push d0 (encode_event name ls)) as -> by done.
  pose proof (len_nonneg name).
  change (push d0 _) with (push d0 (render TLf (event_lines name ls))).
  assert ((push d0 (render TLf (event_lines name ls))).2 =
          (feed_lines d0 (event_lines name ls)).2) as ->.
  { refine (f_equal snd (_ : erase _ = erase _)).
    apply push_render; [done..|]. unfold event_lines. simpl max_line_bytes.
    apply Forall_cons. split; [|apply Forall_app; split; [apply Forall_fmap|]].
    - split; [apply Forall_app; split; [|done]|].
      + by repeat constructor.
      + autorewrite with claw. change (len (lit "event: ")) with 7. lia.
    - eapply Forall_impl; [exact Hl|]. intros l (_ & Hpl & Hll). split.
      + apply Forall_app; split; [by repeat constructor|done].
      + unfold compose. autorewrite with claw. change (len (lit "data: ")) with 6. lia.
    - repeat constructor. rewrite len_nil. lia. }
  change (feed_lines d0 (event_lines name ls)) with
    (then_push (end_line (set_line d0 (lit "event: " ++ name)) [])
       (λ d, feed_lines d (((app (lit "data: ")) <$> ls) ++ [[]]))).
  rewrite end_line_event, then_push_nil by done.
  rewrite feed_data_lines; [|done..| |].
  - unfold end_line. simpl. by destruct name.
  - eapply Forall_impl; [exact Hl|]. by intros ? [? _].
  - simpl. lia.
Qed.

(** ** The newline-delimited decoder *)

Lemma ld_push_lines d chunk lines :
  ld_push d chunk lines =
  let (d', r) := ld_push d chunk [] in (d', app lines <$> r).
Proof.
  revert d lines. induction chunk as [|b chunk IH]; intros d lines; simpl.
  { by rewrite app_nil_r. }
  destruct (Byte.eqb b LF); [destruct (negb _); [done|]|destruct (_ <=? _); [done|apply IH]].
  rewrite (IH _ (if bytes_eqb _ _ then lines else _)), (IH _ (if bytes_eqb _ _ then [] else _)).
  destruct (ld_push _ chunk []) as [? [|]]; simpl; [|done]. destruct (bytes_eqb _ _); simpl; [done|].
  by rewrite <- app_assoc.
Qed.

Lemma ld_push_app d a b lines :
  ld_push d (a ++ b) lines =
  match ld_push d a lines with
  | (d, Ok lines) => ld_push d b lines
  | (d, Err e) => (d, Err e)
  end.
Proof.
  revert d lines. induction a as [|x a IH]; intros d lines; simpl; [done|].
  destruct (Byte.eqb x LF); [by destruct (negb _)|by destruct (_ <=? _)].
Qed.

(** The newline-delimited decoder is chunk-boundary independent and bounded:
    any split of the stream gives the lines (or the error) of the whole stream,
    and the pending line never exceeds the limit. *)
Theorem line_decoder_chunk_independence max_line (chunks : list bytes) :
  ld_push_all (new_line_decoder max_line) chunks [] =
    ld_push (new_line_decoder max_line) (concat chunks) [] ∧
  len (buffer (ld_push_all (new_line_decoder max_line) chunks []).1) ≤ Z.max max_line 1.
Proof.
  assert (∀ d lines, ld_push_all d chunks lines = ld_push d (concat chunks) lines) as Hall.
  { induction chunks as [|c cs IH]; intros d lines; simpl; [done|].
    rewrite ld_push_app, (ld_push_lines d c lines).
    destruct (ld_push d c []) as [? [|]]; simpl; [apply IH|done]. }
  rewrite Hall. split; [done|].
  assert (∀ m s d lines, 0 < m → ld_max_line_bytes d = m → len (buffer d) ≤ m →
    len (buffer (ld_push d s lines).1) ≤ m) as Hb.
  { clear. intros m s. induction s as [|b s IH]; intros d lines Hm Hd Hl; simpl; [done|].
    destruct (Byte.eqb b LF).
    - destruct (negb _); simpl; [unfold len; simpl; lia|].
      apply IH; simpl; [done|done|unfold len; simpl; lia].
    - destruct (_ <=? _) eqn:E; [done|]. boolify.
      apply IH; simpl; [done|done|]. rewrite len_app, len_cons, len_nil. lia. }
  apply Hb; [lia|done|]. unfold len. simpl. lia.
Qed.

(** ** Witnesses *)

Lemma sse_chunk_independence_witness :
  push_all new_decoder [[xef; xbb]; [xbf]; lit "data: h"; lit "i"; [CR]; [LF; CR; LF]] [] =
  push new_decoder (concat [[xef; xbb]; [xbf]; lit "data: h"; lit "i"; [CR]; [LF; CR; LF]]).
Proof.
  apply (sse_chunk_independence new_decoder); [|discriminate].
  intros _. apply Nat.ltb_lt. reflexivity.
Defined.

Lemma sse_line_endings_witness :
  erase (push (set_bom new_decoder true 0) (render TCrLf [lit "data: a"; []])) =
  erase (push (set_bom new_decoder true 0) (render TCr [lit "data: a"; []])).
Proof.
  apply (sse_line_endings TCrLf TCr); [reflexivity..|].
  repeat constructor; try discriminate; vm_compute; discriminate.
Defined.

Lemma sse_event_roundtrip_witness :
  (push (with_limits 64 64) (encode_event (lit "delta") [lit "one"; []; lit "two"])).2 =
  Ok [mkEvent (lit "delta") (join_lf [lit "one"; []; lit "two"]) None None].
Proof.
  apply (sse_event_roundtrip 64 64); try discriminate; try reflexivity;
    try (vm_compute; discriminate); repeat constructor; try discriminate; try reflexivity;
    vm_compute; discriminate.
Defined.

End Sse.
