(* ===== verification/DnsName.v ===== *)
(** * Domain names

    [crates/claw-discovery/src/dnssd/mod.rs] (the error type) and [name.rs]:
    names as decoded labels, their presentation form, and DNS name equality,
    which is ASCII case-insensitive and therefore coarser than [=]. *)

From S2P Require Import Prelude.

Module Dns.

Inductive DnsSdError :=
| EmptyLabel
| LabelTooLong (length : Z)
| NameTooLong (length : Z)
| BadEscape
| CharacterStringTooLong (length : Z)
| InvalidTxtKey (key : bytes)
| EmptyTxtRdata
| Truncated
| TrailingBytes
| MessageTooLarge (actual limit : Z)
| ImpossibleSectionCounts (questions records available : Z)
| BadPointer
| CompressionPointerLimit (limit : Z)
| DecodeWorkLimit (limit : Z)
| BadRdata (record_type : Z)
| SectionTooLarge (length : Z)
| NotAResponse
| OutOfBailiwick (name : bytes)
| MissingRecord (owner : bytes) (record_type : Z)
| ConflictingRecords (owner : bytes) (record_type : Z)
| NoFreeInstanceName (desired : bytes).

Definition MAX_LABEL_BYTES : Z := 63.
Definition MAX_NAME_BYTES : Z := 255.

Definition DOT : byte := x2e.
Definition BACKSLASH : byte := x5c.

Record Name := mkName { labels : list bytes }.

#[export] Instance Name_eq_dec : EqDecision Name.
Proof. solve_decision. Defined.

Definition root : Name := mkName [].

Definition label_count (n : Name) : nat := length (labels n).

Definition is_root (n : Name) : bool := bool_decide (labels n = []).

Definition labels_len (ls : list bytes) : Z := foldr (λ l acc, len l + 1 + acc) 0 ls.

Definition encoded_len (n : Name) : Z := labels_len (labels n) + 1.

Fixpoint validate_labels (ls : list bytes) : result DnsSdError unit :=
  match ls with
  | [] => Ok tt
  | l :: ls =>
      if bool_decide (l = []) then Err EmptyLabel
      else if MAX_LABEL_BYTES <? len l then Err (LabelTooLong (len l))
      else validate_labels ls
  end.

Definition validate (n : Name) : result DnsSdError unit :=
  _ ← validate_labels (labels n);
  if MAX_NAME_BYTES <? encoded_len n then Err (NameTooLong (encoded_len n)) else Ok tt.

Definition from_labels (ls : list bytes) : result DnsSdError Name :=
  let n := mkName ls in
  _ ← validate n; Ok n.

(** [Name::parent] *)
Definition parent (n : Name) (count : nat) : Name :=
  mkName (drop (Nat.min count (length (labels n))) (labels n)).

Definition prepend (n : Name) (label : bytes) : result DnsSdError Name :=
  let n := mkName (label :: labels n) in
  _ ← validate n; Ok n.

Fixpoint zip_all {A B} (f : A → B → bool) (l : list A) (k : list B) : bool :=
  match l, k with
  | a :: l, b :: k => f a b && zip_all f l k
  | _, _ => true
  end.

Definition labels_equal (left right : bytes) : bool :=
  bool_decide (length left = length right) && zip_all eq_ignore_ascii_case left right.

(** [PartialEq for Name] *)
Definition name_eqb (n m : Name) : bool :=
  bool_decide (length (labels n) = length (labels m))
  && zip_all labels_equal (labels n) (labels m).

Definition is_within (n ancestor : Name) : bool :=
  if bool_decide (length (labels n) < length (labels ancestor))%nat then false
  else
    let offset := (length (labels n) - length (labels ancestor))%nat in
    zip_all labels_equal (drop offset (labels n)) (labels ancestor).

(** [decode_escape] past its first byte: the value of a [\DDD] escape. *)
Definition decode_escape (first second third : byte) : result DnsSdError byte :=
  if negb (is_ascii_digit second) || negb (is_ascii_digit third) then Err BadEscape
  else
    let value := (u8 first - 48) * 100 + (u8 second - 48) * 10 + (u8 third - 48) in
    if value <=? u8_max then Ok (byte_of value) else Err BadEscape.

(** The loop of [Name::parse]; an escape consumes two or four bytes. *)
Fixpoint parse_loop (text : bytes) (current : bytes) (ls : list bytes) (ended_with_dot : bool)
    : result DnsSdError (list bytes) :=
  match text with
  | [] => Ok (if ended_with_dot then ls else ls ++ [current])
  | byte :: rest =>
      if Byte.eqb byte DOT then parse_loop rest [] (ls ++ [current]) true
      else if Byte.eqb byte BACKSLASH then
        match rest with
        | [] => Err BadEscape
        | first :: rest1 =>
            if negb (is_ascii_digit first) then parse_loop rest1 (current ++ [first]) ls false
            else
              match rest1 with
              | second :: third :: rest3 =>
                  match decode_escape first second third with
                  | Ok value => parse_loop rest3 (current ++ [value]) ls false
                  | Err e => Err e
                  end
              | _ => Err BadEscape
              end
        end
      else parse_loop rest (current ++ [byte]) ls false
  end.

Definition parse (text : bytes) : result DnsSdError Name :=
  if bool_decide (text = []) || bool_decide (text = [DOT]) then Ok root
  else ls ← parse_loop text [] [] false; from_labels ls.

(** One byte of [escape_label]: [{other:03}] is three zero-padded digits. *)
Definition digit (z : Z) : byte := byte_of (48 + z).

Definition escape_byte (b : byte) : bytes :=
  if Byte.eqb b DOT then [BACKSLASH; DOT]
  else if Byte.eqb b BACKSLASH then [BACKSLASH; BACKSLASH]
  else if (0x20 <=? u8 b) && (u8 b <=? 0x7e) then [b]
  else [BACKSLASH; digit (u8 b / 100); digit (u8 b / 10 mod 10); digit (u8 b mod 10)].

Definition escape_label (label : bytes) : bytes := concat (escape_byte <$> label).

(** [Display for Name] *)
Definition to_string (n : Name) : bytes :=
  match labels n with
  | [] => [DOT]
  | ls => concat ((λ l, escape_label l ++ [DOT]) <$> ls)
  end.

(** ** Validity *)

Definition label_ok (l : bytes) : Prop := 0 < len l ≤ MAX_LABEL_BYTES.

(** What [validate] checks. *)
Definition name_ok (n : Name) : Prop :=
  Forall label_ok (labels n) ∧ encoded_len n ≤ MAX_NAME_BYTES.

Lemma validate_labels_Ok ls u : validate_labels ls = Ok u ↔ Forall label_ok ls.
Proof.
  destruct u. induction ls as [|l ls IH]; simpl; [by split; [constructor|]|].
  rewrite Forall_cons, <- IH. unfold label_ok.
  case_bool_decide as Hl; [subst; split; [done|unfold len; simpl; lia]|].
  assert (0 < len l) by (destruct l; [done|unfold len; simpl; lia]).
  destruct (MAX_LABEL_BYTES <? len l) eqn:E; boolify; split; try done; lia || tauto.
Qed.

Lemma validate_Ok n u : validate n = Ok u ↔ name_ok n.
Proof.
  destruct u. unfold validate, name_ok. rewrite bind_Ok. setoid_rewrite validate_labels_Ok.
  destruct (MAX_NAME_BYTES <? encoded_len n) eqn:E; boolify; split.
  - by intros (? & ? & ?).
  - lia.
  - intros (? & ? & ?). by split; [|lia].
  - intros [? ?]. by exists tt.
Qed.

Lemma from_labels_Ok ls n : from_labels ls = Ok n ↔ n = mkName ls ∧ name_ok n.
Proof.
  unfold from_labels. rewrite bind_Ok. setoid_rewrite validate_Ok. split.
  - by intros (? & ? & [= <-]).
  - intros [-> H]. by exists tt.
Qed.

Lemma prepend_Ok n l m : prepend n l = Ok m ↔ m = mkName (l :: labels n) ∧ name_ok m.
Proof. apply from_labels_Ok. Qed.

(** ** Name equality *)

Definition lower (l : bytes) : bytes := to_ascii_lowercase <$> l.

Lemma labels_equal_spec l k : labels_equal l k = true ↔ lower l = lower k.
Proof.
  unfold labels_equal. rewrite andb_true_iff, bool_decide_eq_true.
  revert k. induction l as [|a l IH]; intros [|b k]; simpl.
  - done.
  - by split; [intros []|].
  - by split; [intros []|].
  - rewrite andb_true_iff. unfold eq_ignore_ascii_case. rewrite byte_eqb_eq.
    unfold lower in *. simpl. split.
    + intros (Hl & Ha & Hz). f_equal; [done|]. apply IH. split; [lia|done].
    + intros [= Ha Hl]. apply IH in Hl as [? ?]. split_and!; [lia|done|done].
Qed.

Lemma zip_labels_equal_spec ls ks :
  length ls = length ks → zip_all labels_equal ls ks = true ↔ lower <$> ls = lower <$> ks.
Proof.
  revert ks. induction ls as [|l ls IH]; intros [|k ks]; simpl; try done.
  intros [= Hlen]. rewrite andb_true_iff, labels_equal_spec, (IH ks Hlen). split.
  - intros [Hl Hls]. change (lower l :: (lower <$> ls) = lower k :: (lower <$> ks)). congruence.
  - by intros [= -> Hls].
Qed.

#[export] Instance Name_equiv : Equiv Name := λ n m, lower <$> labels n = lower <$> labels m.

#[export] Instance Name_equivalence : Equivalence (≡@{Name}).
Proof. split; [done|by intros ??|]. intros ??? H1 H2. by unfold equiv, Name_equiv in *; rewrite H1. Qed.

Lemma name_eqb_spec n m : name_eqb n m = true ↔ n ≡ m.
Proof.
  unfold name_eqb. rewrite andb_true_iff, bool_decide_eq_true. split.
  - intros [Hl Hz]. by apply zip_labels_equal_spec in Hz.
  - intros H. assert (length (labels n) = length (labels m)) as Hl.
    { apply (f_equal length) in H. by rewrite !length_fmap in H. }
    split; [done|]. by apply zip_labels_equal_spec.
Qed.

(** [is_within] is containment of label sequences at the root end. *)
Lemma is_within_spec n z :
  is_within n z = true ↔
  ∃ pre, lower <$> labels n = pre ++ (lower <$> labels z).
Proof.
  unfold is_within. case_bool_decide as Hlt.
  - split; [done|]. intros [pre H]. apply (f_equal length) in H.
    rewrite length_app, !length_fmap in H. lia.
  - rewrite zip_labels_equal_spec by (rewrite length_drop; lia).
    rewrite fmap_drop. set (k := (length (labels n) - _)%nat). split.
    + intros H. exists (take k (lower <$> labels n)). by rewrite <- H, take_drop.
    + intros [pre H]. assert (length pre = k) as Hk.
      { apply (f_equal length) in H. rewrite length_app, !length_fmap in H. lia. }
      by rewrite H, <- Hk, drop_app_length.
Qed.

#[export] Instance is_within_proper : Proper ((≡) ==> (≡) ==> (=)) is_within.
Proof.
  intros n n' Hn z z' Hz. apply eq_true_iff_eq. rewrite !is_within_spec.
  unfold equiv, Name_equiv in *. by rewrite Hn, Hz.
Qed.

#[export] Instance name_eqb_proper : Proper ((≡) ==> (≡) ==> (=)) name_eqb.
Proof.
  intros n n' Hn z z' Hz. apply eq_true_iff_eq. rewrite !name_eqb_spec.
  by rewrite Hn, Hz.
Qed.

Lemma is_within_trans n m z : is_within n m = true → is_within m z = true → is_within n z = true.
Proof.
  rewrite !is_within_spec. intros [p Hp] [q Hq]. exists (p ++ q).
  by rewrite Hp, Hq, app_assoc.
Qed.

(** ** Presentation form *)

Lemma parse_escape_byte b rest current ls dot :
  parse_loop (escape_byte b ++ rest) current ls dot = parse_loop rest (current ++ [b]) ls false.
Proof. destruct b; reflexivity. Qed.

Lemma parse_escape_label l rest current ls dot :
  l ≠ [] →
  parse_loop (escape_label l ++ DOT :: rest) current ls dot =
  parse_loop rest [] (ls ++ [current ++ l]) true.
Proof.
  unfold escape_label. revert current dot.
  induction l as [|b l IH]; intros current dot Hne; [done|].
  change (concat (escape_byte <$> b :: l)) with (escape_byte b ++ concat (escape_byte <$> l)).
  rewrite <- app_assoc, parse_escape_byte.
  destruct l as [|b' l]; [done|]. rewrite IH by done. by rewrite <- app_assoc.
Qed.

Lemma parse_print_labels ks ls dot :
  Forall label_ok ks → ks ≠ [] →
  parse_loop (concat ((λ l, escape_label l ++ [DOT]) <$> ks)) [] ls dot = Ok (ls ++ ks).
Proof.
  intros Hok. revert ls dot. induction Hok as [|k ks Hk Hok IH]; intros ls dot Hne; [done|].
  change (concat ((λ l, escape_label l ++ [DOT]) <$> k :: ks)) with
    ((escape_label k ++ [DOT]) ++ concat ((λ l, escape_label l ++ [DOT]) <$> ks)).
  rewrite <- app_assoc. simpl. rewrite parse_escape_label.
  2:{ intros ->. unfold label_ok, len in Hk. simpl in Hk. lia. }
  destruct ks as [|k' ks]; [done|]. rewrite IH by done. by rewrite <- app_assoc.
Qed.

(** The printed form of a non-root name is longer than one byte. *)
Lemma to_string_not_root n :
  Forall label_ok (labels n) → labels n ≠ [] → to_string n ≠ [] ∧ to_string n ≠ [DOT].
Proof.
  unfold to_string. destruct (labels n) as [|[|b l] ks]; [done| |].
  - rewrite Forall_cons. intros [[H _] _]. unfold len in H. simpl in H. lia.
  - intros _ _. by destruct b.
Qed.

Lemma parse_to_string n : name_ok n → parse (to_string n) = Ok n.
Proof.
  intros Hok. destruct n as [ls]. pose proof Hok as [Hl _]. simpl in Hl.
  destruct (decide (ls = [])) as [->|Hne]; [done|].
  destruct (to_string_not_root (mkName ls) Hl Hne) as [H1 H2].
  unfold parse. rewrite !bool_decide_eq_false_2 by done. simpl.
  replace (to_string (mkName ls)) with (concat ((λ l, escape_label l ++ [DOT]) <$> ls))
    by (unfold to_string; simpl; by destruct ls).
  rewrite parse_print_labels by done. cbn. by apply from_labels_Ok.
Qed.

Lemma parse_name_ok text n : parse text = Ok n → name_ok n.
Proof.
  unfold parse. destruct (_ || _).
  - intros [= <-]. split; [constructor|]. by vm_compute.
  - intros (ls & _ & Hn)%bind_Ok. by apply from_labels_Ok in Hn as [-> ?].
Qed.

(** Presentation round trip: a name, printed with the escapes of RFC 1035 and
    parsed again, is the same name (labels may contain dots, backslashes and
    arbitrary bytes), and parsing only ever produces valid names: labels of 1 to
    63 bytes, at most 255 bytes encoded. *)
Theorem name_presentation_roundtrip n :
  (name_ok n → parse (to_string n) = Ok n) ∧ (∀ text, parse text = Ok n → name_ok n).
Proof. split; [apply parse_to_string|intros text; apply parse_name_ok]. Qed.

(** Bailiwick containment respects DNS name equality (case-insensitive), is
    reflexive and transitive, contains everything under the root, and holds of a
    name with any label prepended. *)
Theorem is_within_ordering n m z l :
  is_within n n = true ∧ is_within n root = true ∧
  (is_within n m = true → is_within m z = true → is_within n z = true) ∧
  (is_within n m = true → is_within m n = true → n ≡ m) ∧
  (is_within n z = true → is_within (mkName (l :: labels n)) z = true).
Proof.
  split_and!.
  - apply is_within_spec. by exists [].
  - apply is_within_spec. exists (lower <$> labels n). by rewrite app_nil_r.
  - apply is_within_trans.
  - rewrite !is_within_spec. intros [p Hp] [q Hq]. unfold equiv, Name_equiv.
    rewrite Hq, app_assoc in Hp. apply (f_equal length) in Hp as Hlen.
    rewrite !length_app, !length_fmap in Hlen.
    rewrite Hq. destruct q; [done|]. simpl in *. lia.
  - rewrite !is_within_spec. intros [p Hp]. exists (lower l :: p).
    change (lower l :: (lower <$> labels n) = lower l :: p ++ (lower <$> labels z)).
    by rewrite Hp.
Qed.

End Dns.
