(* ===== verification/DnsTxt.v ===== *)
(** * DNS-SD TXT records

    [crates/claw-discovery/src/dnssd/txt.rs]: the key/value contract of RFC 6763
    section 6 and its length-prefixed wire form. [TxtRecord::keys], which folds
    case with the full Unicode tables, is not modelled. *)

From S2P Require Import Prelude Utf8 DnsName.
Import Dns.

Module Txt.

Definition MAX_CHARACTER_STRING_BYTES : Z := 255.

Definition EQUALS : byte := x3d.

Inductive TxtValue :=
| Boolean
| Empty
| Present (value : bytes).

(** [TxtValue::bytes] and [TxtValue::as_text] *)
Definition value_bytes (v : TxtValue) : bytes :=
  match v with Boolean | Empty => [] | Present value => value end.

Definition as_text (v : TxtValue) : option bytes :=
  if utf8_valid (value_bytes v) then Some (value_bytes v) else None.

Record TxtRecord := mkTxt { strings : list bytes }.

#[global] Instance TxtRecord_eq_dec : EqDecision TxtRecord.
Proof. solve_decision. Defined.

Definition new_txt : TxtRecord := mkTxt [].

Definition push_raw (t : TxtRecord) (string : bytes) : result DnsSdError TxtRecord :=
  if MAX_CHARACTER_STRING_BYTES <? len string then Err (CharacterStringTooLong (len string))
  else Ok (mkTxt (strings t ++ [string])).

Definition printable_and_not_equals (b : byte) : bool :=
  (0x20 <=? u8 b) && (u8 b <=? 0x7e) && negb (Byte.eqb b EQUALS).

Definition validate_key (key : bytes) : result DnsSdError unit :=
  if bool_decide (key = []) then Err (InvalidTxtKey key)
  else if forallb printable_and_not_equals key then Ok tt
  else Err (InvalidTxtKey key).

Definition push_pair (t : TxtRecord) (key value : bytes) : result DnsSdError TxtRecord :=
  _ ← validate_key key; push_raw t (key ++ EQUALS :: value).

Definition push_flag (t : TxtRecord) (key : bytes) : result DnsSdError TxtRecord :=
  _ ← validate_key key; push_raw t key.

(** [split_string]: the key, and the value when there is an [=]. *)
Fixpoint split_string (string : bytes) : bytes * option bytes :=
  match string with
  | [] => ([], None)
  | b :: rest =>
      if Byte.eqb b EQUALS then ([], Some rest)
      else let (key, value) := split_string rest in (b :: key, value)
  end.

Definition txt_value (value : option bytes) : TxtValue :=
  match value with
  | None => Boolean
  | Some [] => Empty
  | Some bytes => Present bytes
  end.

Fixpoint get_strings (ss : list bytes) (key : bytes) : option TxtValue :=
  match ss with
  | [] => None
  | string :: rest =>
      let (candidate, value) := split_string string in
      if bool_decide (length candidate ≠ length key) then get_strings rest key
      else if negb (zip_all eq_ignore_ascii_case candidate key) then get_strings rest key
      else Some (txt_value value)
  end.

Definition get (t : TxtRecord) (key : bytes) : option TxtValue := get_strings (strings t) key.

(** [TxtRecord::encode] *)
Definition encode_string (string : bytes) : bytes :=
  let length := Z.min (len string) u8_max in
  byte_of length :: take (Z.to_nat length) string.

Definition encode (t : TxtRecord) : bytes :=
  match strings t with
  | [] => [x00]
  | ss => concat (encode_string <$> ss)
  end.

(** The loop of [TxtRecord::decode]. [fuel] bounds the number of strings; each
    takes at least its length byte, so the number of bytes is enough. *)
Fixpoint decode_loop (fuel : nat) (rest : bytes) (ss : list bytes)
    : result DnsSdError (list bytes) :=
  match rest with
  | [] => Ok ss
  | b :: rest =>
      match fuel with
      | O => Err Truncated
      | S fuel =>
          let length := Z.to_nat (u8 b) in
          if bool_decide (List.length rest < length)%nat then Err Truncated
          else decode_loop fuel (drop length rest) (ss ++ [take length rest])
      end
  end.

Definition decode (body : bytes) : result DnsSdError TxtRecord :=
  if bool_decide (body = []) then Err EmptyTxtRdata
  else
    ss ← decode_loop (length body) body [];
    Ok (mkTxt (if bool_decide (ss = [[]]) then [] else ss)).

(** ** Wire form *)

(** What [push_raw] guarantees of every string. *)
Definition txt_ok (t : TxtRecord) : Prop :=
  Forall (λ s, len s ≤ MAX_CHARACTER_STRING_BYTES) (strings t).

Lemma encode_string_ok s :
  len s ≤ MAX_CHARACTER_STRING_BYTES → encode_string s = byte_of (len s) :: s.
Proof.
  intros H. unfold encode_string. rewrite Z.min_l by (unfold u8_max, MAX_CHARACTER_STRING_BYTES in *; lia).
  unfold len. rewrite Nat2Z.id. by rewrite take_ge by lia.
Qed.

Lemma decode_encode_strings fuel ks ss :
  Forall (λ s, len s ≤ MAX_CHARACTER_STRING_BYTES) ks →
  (length (concat (encode_string <$> ks)) ≤ fuel)%nat →
  decode_loop fuel (concat (encode_string <$> ks)) ss = Ok (ss ++ ks).
Proof.
  intros Hk. revert fuel ss. induction Hk as [|k ks Hk Hks IH]; intros fuel ss Hf.
  { simpl. rewrite app_nil_r. by destruct fuel. }
  change (concat (encode_string <$> k :: ks)) with
    (encode_string k ++ concat (encode_string <$> ks)) in *.
  rewrite (encode_string_ok k) in * by done.
  rewrite <- app_comm_cons in *. cbn [length] in Hf.
  destruct fuel as [|fuel]; [lia|]. cbn [decode_loop]. rewrite length_app in Hf.
  rewrite u8_byte_of by (unfold MAX_CHARACTER_STRING_BYTES, len in *; lia).
  unfold len. rewrite Nat2Z.id, length_app.
  rewrite bool_decide_eq_false_2 by lia.
  rewrite drop_app_length, take_app_length, IH by lia. by rewrite <- app_assoc.
Qed.

Lemma decode_loop_encode fuel body ss ks :
  (length body ≤ fuel)%nat → decode_loop fuel body ss = Ok ks →
  ∃ ts, ks = ss ++ ts ∧ body = concat (encode_string <$> ts) ∧
        Forall (λ s, len s ≤ MAX_CHARACTER_STRING_BYTES) ts.
Proof.
  revert body ss ks. induction fuel as [|fuel IH]; intros [|b body] ss ks Hf; simpl in *; try lia.
  1,2: intros [= <-]; exists []; by rewrite app_nil_r.
  pose proof (u8_range b) as Hb. case_bool_decide as Hlt; [done|].
  set (n := Z.to_nat (u8 b)) in *. intros (ts & -> & Hbody & Hts)%IH.
  2:{ rewrite length_drop. lia. }
  assert (len (take n body) = u8 b) as Hlen.
  { unfold len. rewrite length_take. lia. }
  exists (take n body :: ts). split_and!.
  - by rewrite <- app_assoc.
  - change (concat (encode_string <$> take n body :: ts)) with
      (encode_string (take n body) ++ concat (encode_string <$> ts)).
    rewrite <- Hbody, encode_string_ok by (unfold MAX_CHARACTER_STRING_BYTES; lia).
    rewrite Hlen, byte_of_u8. simpl. by rewrite take_drop.
  - constructor; [unfold MAX_CHARACTER_STRING_BYTES; lia|done].
Qed.

Lemma decode_encode t : txt_ok t → strings t ≠ [[]] → decode (encode t) = Ok t.
Proof.
  intros Hok Hne. destruct t as [[|s ss]]; [reflexivity|].
  unfold decode. rewrite bool_decide_eq_false_2 by done.
  change (encode (mkTxt (s :: ss))) with (concat (encode_string <$> s :: ss)).
  rewrite decode_encode_strings by done. cbn. by rewrite bool_decide_eq_false_2.
Qed.

Lemma decode_ok body t : decode body = Ok t → txt_ok t ∧ strings t ≠ [[]].
Proof.
  unfold decode. case_bool_decide as Hne; [done|].
  intros (ss & Hss & [= <-])%bind_Ok.
  apply decode_loop_encode in Hss as (ts & -> & Hbody & Hts); [|lia]. unfold txt_ok. simpl.
  by case_bool_decide.
Qed.

(** TXT wire round trip: a record built through the API decodes to itself,
    the one exception being a record holding a single empty string, which is the
    wire form of the empty record; and any accepted body is exactly the encoding
    of the record it decodes to, so decoding is injective. *)
Theorem txt_wire_roundtrip t body :
  (txt_ok t → decode (encode t) = Ok (if bool_decide (strings t = [[]]) then new_txt else t)) ∧
  (decode body = Ok t → encode t = body ∧ txt_ok t).
Proof.
  split.
  - intros Hok. case_bool_decide as Hs; [|by apply decode_encode].
    destruct t as [ss]. simpl in Hs. by subst ss.
  - unfold decode. case_bool_decide as Hne; [done|].
    intros (ss & Hss & [= <-])%bind_Ok.
    apply decode_loop_encode in Hss as (ts & -> & Hbody & Hts); [|lia]. simpl in *.
    case_bool_decide as Hs.
    + subst ts. rewrite Hbody. split; [done|constructor].
    + split; [|done]. rewrite Hbody. unfold encode. simpl.
      destruct ts; [|done]. by rewrite Hbody in Hne.
Qed.

(** ** Keys *)

Lemma split_string_key key value :
  forallb printable_and_not_equals key = true →
  split_string (key ++ EQUALS :: value) = (key, Some value) ∧ split_string key = (key, None).
Proof.
  induction key as [|b key IH]; simpl; [done|].
  unfold printable_and_not_equals at 1. intros [[_ Hb]%andb_true_iff Hk]%andb_true_iff.
  apply negb_true_iff in Hb. rewrite Hb. destruct (IH Hk) as [-> ->]. done.
Qed.

Lemma get_strings_app ss ks key :
  get_strings (ss ++ ks) key =
  match get_strings ss key with Some v => Some v | None => get_strings ks key end.
Proof.
  induction ss as [|s ss IH]; simpl; [done|]. destruct (split_string s) as [c v].
  destruct (bool_decide _); [apply IH|]. destruct (negb _); [apply IH|done].
Qed.

Lemma get_strings_single s key :
  get_strings [s] key =
  if labels_equal (split_string s).1 key then Some (txt_value (split_string s).2) else None.
Proof.
  simpl. unfold labels_equal. destruct (split_string s) as [c v]. simpl.
  case_bool_decide as Hne; case_bool_decide as Heq; try done.
  by destruct (zip_all _ _ _).
Qed.

(** TXT insert/lookup: after a successful [push_pair] or [push_flag], looking
    up a key finds the earlier value if there was one (first occurrence wins), and
    otherwise the pushed value exactly when the keys match case-insensitively;
    the four states (absent, boolean, empty, present) are told apart. *)
Theorem txt_push_get t key value t' probe :
  push_pair t key value = Ok t' →
  get t' probe =
    match get t probe with
    | Some v => Some v
    | None =>
        if labels_equal key probe then
          Some (if bool_decide (value = []) then Empty else Present value)
        else None
    end.
Proof.
  unfold push_pair, push_raw, validate_key.
  intros (u & Hk & Hp)%bind_Ok.
  destruct (bool_decide (key = [])); [done|].
  destruct (forallb _ key) eqn:Hf; [|done].
  destruct (_ <? _); [done|]. injection Hp as <-.
  unfold get. simpl. rewrite get_strings_app, get_strings_single.
  destruct (split_string_key key value Hf) as [-> _]. simpl.
  destruct (get_strings (strings t) probe); [done|].
  destruct (labels_equal key probe); [|done]. by destruct value.
Qed.

Lemma txt_push_get_witness :
  get (mkTxt [lit "path=/ws"]) (lit "PATH") = Some (Present (lit "/ws")).
Proof.
  refine (eq_trans (txt_push_get new_txt (lit "path") (lit "/ws") _ (lit "PATH") eq_refl) _).
  vm_compute. reflexivity.
Defined.

End Txt.
