(* ===== verification/DnsMessage.v ===== *)
(** * DNS messages

    [crates/claw-discovery/src/dnssd/message.rs]: the records, the compressing
    encoder and the decoder with its pointer, name-length and work limits, and
    the theorems on the decoder. The wire format is also given as a relation
    [name_at], independent of the decoder's loop, which the decoder is shown to
    implement exactly.

    Positions in a message are [nat]; every length the source adds to a position
    is bounded by the slice length, so its [checked_add]s on [usize] cannot fail
    and are plain additions here. *)

From S2P Require Import Prelude Utf8 DnsName DnsTxt.
Import Dns.

Module Wire.

Definition CLASS_IN : Z := 1.
Definition CACHE_FLUSH : Z := 0x8000.
Definition UNICAST_RESPONSE : Z := 0x8000.
Definition FLAG_RESPONSE : Z := 0x8000.
Definition FLAG_AUTHORITATIVE : Z := 0x0400.
Definition FLAG_TRUNCATED : Z := 0x0200.

Definition TYPE_A : Z := 1.
Definition TYPE_PTR : Z := 12.
Definition TYPE_TXT : Z := 16.
Definition TYPE_AAAA : Z := 28.
Definition TYPE_SRV : Z := 33.
Definition TYPE_ANY : Z := 255.

Definition POINTER_MASK : Z := 0xc0.
Definition MAX_POINTER_OFFSET : Z := 0x3fff.
Definition MAX_COMPRESSION_POINTER_HOPS : Z := 128.
Definition DECODE_WORK_PER_MESSAGE_BYTE : Z := 16.
Definition DECODE_WORK_PER_LABEL : Z := 8.
Definition MIN_QUESTION_WIRE_BYTES : Z := 5.
Definition MIN_RECORD_WIRE_BYTES : Z := 11.
Definition MAX_MESSAGE_BYTES : Z := 65535.

(** An [Ipv4Addr] is its 4 octets and an [Ipv6Addr] its 16; [data_ok] states the
    lengths the Rust types enforce. *)
Inductive RecordData :=
| A (octets : bytes)
| Aaaa (octets : bytes)
| Ptr (target : Name)
| Srv (priority weight port : Z) (target : Name)
| Txt (txt : Txt.TxtRecord)
| Other (record_type : Z) (rdata : bytes).

#[export] Instance RecordData_eq_dec : EqDecision RecordData.
Proof. solve_decision. Defined.

Definition data_type (d : RecordData) : Z :=
  match d with
  | A _ => TYPE_A
  | Aaaa _ => TYPE_AAAA
  | Ptr _ => TYPE_PTR
  | Srv _ _ _ _ => TYPE_SRV
  | Txt _ => TYPE_TXT
  | Other record_type _ => record_type
  end.

Record ResourceRecord := mkRecord {
  name : Name;
  class : Z;
  cache_flush : bool;
  ttl : Z;
  data : RecordData;
}.

#[export] Instance ResourceRecord_eq_dec : EqDecision ResourceRecord.
Proof. solve_decision. Defined.

Definition record_type (r : ResourceRecord) : Z := data_type (data r).

Record Question := mkQuestion {
  q_name : Name;
  query_type : Z;
  query_class : Z;
  unicast_response : bool;
}.

Record Message := mkMessage {
  id : Z;
  flags : Z;
  questions : list Question;
  answers : list ResourceRecord;
  authorities : list ResourceRecord;
  additionals : list ResourceRecord;
}.

Definition is_response (m : Message) : bool := negb (Z.land (flags m) FLAG_RESPONSE =? 0).
Definition is_truncated (m : Message) : bool := negb (Z.land (flags m) FLAG_TRUNCATED =? 0).

(** [Message::records] and [Message::iter_records] *)
Definition records (m : Message) : list ResourceRecord :=
  answers m ++ authorities m ++ additionals m.

(** ** Encoding *)

(** [u16::to_be_bytes], [u32::to_be_bytes] and the [from_be_bytes]. *)
Definition be16 (z : Z) : bytes := [byte_of (Z.land (Z.shiftr z 8) 255); byte_of (Z.land z 255)].
Definition be32 (z : Z) : bytes := be16 (Z.land (Z.shiftr z 16) 65535) ++ be16 (Z.land z 65535).

Definition from_be16 (a b : byte) : Z := u8 a * 256 + u8 b.
Definition from_be32 (a b c d : byte) : Z := from_be16 a b * 65536 + from_be16 c d.

Definition section_count (value : nat) : result DnsSdError Z :=
  if Z.of_nat value <=? u16_max then Ok (Z.of_nat value) else Err (SectionTooLarge (Z.of_nat value)).

Definition ensure_message_size (length : Z) : result DnsSdError unit :=
  if MAX_MESSAGE_BYTES <? length then Err (MessageTooLarge length MAX_MESSAGE_BYTES) else Ok tt.

Fixpoint suffix_key (ls : list bytes) : bytes :=
  match ls with
  | [] => []
  | label :: ls => (to_ascii_lowercase <$> label) ++ DOT :: suffix_key ls
  end.

Abbreviation Offsets := (gmap bytes Z).

Fixpoint encode_labels (out : bytes) (ls : list bytes) (offsets : Offsets) : bytes * Offsets :=
  match ls with
  | [] => (out ++ [x00], offsets)
  | label :: rest =>
      let suffix := suffix_key ls in
      match offsets !! suffix with
      | Some offset => (out ++ be16 (Z.lor offset 0xc000), offsets)
      | None =>
          let offsets :=
            if len out <=? MAX_POINTER_OFFSET then <[suffix := Z.min (len out) u16_max]> offsets
            else offsets in
          let length := Z.min (len label) u8_max in
          encode_labels (out ++ byte_of length :: label) rest offsets
      end
  end.

Definition encode_name (out : bytes) (n : Name) (offsets : Offsets) : bytes * Offsets :=
  encode_labels out (labels n) offsets.

(** The [match &record.data] of [encode_record]. *)
Definition encode_rdata (out : bytes) (d : RecordData) (offsets : Offsets) : bytes * Offsets :=
  match d with
  | A octets | Aaaa octets => (out ++ octets, offsets)
  | Ptr target => encode_name out target offsets
  | Srv priority weight port target =>
      ((encode_name (out ++ be16 priority ++ be16 weight ++ be16 port) target ∅).1, offsets)
  | Txt txt => (out ++ Txt.encode txt, offsets)
  | Other _ rdata => (out ++ rdata, offsets)
  end.

(** [out[position..position + bytes.len()].copy_from_slice(bytes)] *)
Definition copy_into (out : bytes) (position : nat) (bs : bytes) : bytes :=
  take position out ++ bs ++ drop (position + length bs) out.

Definition encode_record (out : bytes) (record : ResourceRecord) (offsets : Offsets)
    : result DnsSdError (bytes * Offsets) :=
  let '(out, offsets) := encode_name out (name record) offsets in
  let out := out ++ be16 (record_type record) in
  let out := out ++ be16 (Z.lor (class record) (if cache_flush record then CACHE_FLUSH else 0)) in
  let out := out ++ be32 (ttl record) in
  let length_position := length out in
  let out := out ++ [x00; x00] in
  let '(out, offsets) := encode_rdata out (data record) offsets in
  let rdata_len := len out - Z.of_nat length_position - 2 in
  if rdata_len <=? u16_max then Ok (copy_into out length_position (be16 rdata_len), offsets)
  else Err (SectionTooLarge rdata_len).

Definition encode_question (out : bytes) (question : Question) (offsets : Offsets)
    : bytes * Offsets :=
  let '(out, offsets) := encode_name out (q_name question) offsets in
  let class := Z.lor (query_class question)
                 (if unicast_response question then UNICAST_RESPONSE else 0) in
  (out ++ be16 (query_type question) ++ be16 class, offsets).

Fixpoint encode_questions (out : bytes) (qs : list Question) (offsets : Offsets)
    : result DnsSdError (bytes * Offsets) :=
  match qs with
  | [] => Ok (out, offsets)
  | q :: qs =>
      let '(out, offsets) := encode_question out q offsets in
      _ ← ensure_message_size (len out);
      encode_questions out qs offsets
  end.

Fixpoint encode_records (out : bytes) (rs : list ResourceRecord) (offsets : Offsets)
    : result DnsSdError (bytes * Offsets) :=
  match rs with
  | [] => Ok (out, offsets)
  | r :: rs =>
      '(out, offsets) ← encode_record out r offsets;
      _ ← ensure_message_size (len out);
      encode_records out rs offsets
  end.

(** [Message::encode] *)
Definition encode (m : Message) : result DnsSdError bytes :=
  let out := be16 (id m) ++ be16 (flags m) in
  qd ← section_count (length (questions m));
  an ← section_count (length (answers m));
  ns ← section_count (length (authorities m));
  ar ← section_count (length (additionals m));
  let out := out ++ be16 qd ++ be16 an ++ be16 ns ++ be16 ar in
  '(out, offsets) ← encode_questions out (questions m) ∅;
  '(out, _) ← encode_records out (records m) offsets;
  Ok out.

(** ** Decoding *)

Record DecodeWork := mkWork { limit : Z; remaining : Z }.

Definition usize_max : Z := u64_max.

Definition work_new (message_bytes : Z) : DecodeWork :=
  let limit := Z.min (message_bytes * DECODE_WORK_PER_MESSAGE_BYTE) usize_max in
  mkWork limit limit.

Definition consume (w : DecodeWork) (units : Z) : result DnsSdError DecodeWork :=
  if units <=? remaining w then Ok (mkWork (limit w) (remaining w - units))
  else Err (DecodeWorkLimit (limit w)).

(** [bytes[start..end]] where the source has checked the bounds. *)
Definition slice (bs : bytes) (start count : nat) : bytes := take count (drop start bs).

(** The [loop] of [decode_name]: [None] is out of fuel; otherwise the labels, the
    caller's cursor and the work left, or the error. *)
Fixpoint name_loop (fuel : nat) (bs : bytes) (cursor position : nat) (followed_pointer : bool)
    (budget pointer_hops : Z) (w : DecodeWork) (ls : list bytes)
    : option (result DnsSdError (list bytes * nat * DecodeWork)) :=
  match fuel with
  | O => None
  | S fuel =>
      match bs !! position with
      | None => Some (Err Truncated)
      | Some length_byte =>
          match consume w 1 with
          | Err e => Some (Err e)
          | Ok w =>
              if Z.land (u8 length_byte) POINTER_MASK =? POINTER_MASK then
                match bs !! (position + 1)%nat with
                | None => Some (Err Truncated)
                | Some second =>
                    match consume w 1 with
                    | Err e => Some (Err e)
                    | Ok w =>
                        let pointer_hops := pointer_hops + 1 in
                        if MAX_COMPRESSION_POINTER_HOPS <? pointer_hops then
                          Some (Err (CompressionPointerLimit MAX_COMPRESSION_POINTER_HOPS))
                        else
                          let target :=
                            Z.to_nat (Z.land (u8 length_byte) (255 - POINTER_MASK) * 256
                                      + u8 second) in
                          if bool_decide (position ≤ target)%nat then Some (Err BadPointer)
                          else
                            let cursor :=
                              if followed_pointer then cursor else (position + 2)%nat in
                            name_loop fuel bs cursor target true budget pointer_hops w ls
                    end
                end
              else if negb (Z.land (u8 length_byte) POINTER_MASK =? 0) then Some (Err BadPointer)
              else
                let length := Z.to_nat (u8 length_byte) in
                if bool_decide (length = 0%nat) then
                  let cursor := if followed_pointer then cursor else (position + 1)%nat in
                  Some (Ok (ls, cursor, w))
                else
                  match consume w (Z.of_nat length + DECODE_WORK_PER_LABEL) with
                  | Err e => Some (Err e)
                  | Ok w =>
                      if budget <? Z.of_nat length + 1 then
                        Some (Err (NameTooLong (MAX_NAME_BYTES + 1)))
                      else
                        let budget := budget - (Z.of_nat length + 1) in
                        let start := (position + 1)%nat in
                        let end_ := (start + length)%nat in
                        if bool_decide (List.length bs < end_)%nat then Some (Err Truncated)
                        else
                          name_loop fuel bs cursor end_ followed_pointer budget pointer_hops w
                            (ls ++ [slice bs start length])
                  end
          end
      end
  end.

(** At most 128 pointers and 127 labels are followed before the walk ends
    ([name_loop_fuel] below), so the fuel never runs out. *)
Definition NAME_FUEL : nat := 256.

Definition decode_name (bs : bytes) (cursor : nat) (w : DecodeWork)
    : result DnsSdError (Name * nat * DecodeWork) :=
  '(ls, cursor, w) ←
    default (Err (DecodeWorkLimit (limit w)))
      (name_loop NAME_FUEL bs cursor cursor false MAX_NAME_BYTES 0 w []);
  n ← from_labels ls;
  Ok (n, cursor, w).

Arguments decode_name : simpl never.

Definition read_u16 (bs : bytes) (cursor : nat) : result DnsSdError (Z * nat) :=
  match slice bs cursor 2 with
  | [a; b] => Ok (from_be16 a b, (cursor + 2)%nat)
  | _ => Err Truncated
  end.

Definition read_u32 (bs : bytes) (cursor : nat) : result DnsSdError (Z * nat) :=
  match slice bs cursor 4 with
  | [a; b; c; d] => Ok (from_be32 a b c d, (cursor + 4)%nat)
  | _ => Err Truncated
  end.

Definition decode_rdata (message : bytes) (record_type : Z) (rdata : bytes) (rdata_start : nat)
    (w : DecodeWork) : result DnsSdError (RecordData * DecodeWork) :=
  if record_type =? TYPE_A then
    if bool_decide (length rdata = 4%nat) then Ok (A rdata, w) else Err (BadRdata TYPE_A)
  else if record_type =? TYPE_AAAA then
    if bool_decide (length rdata = 16%nat) then Ok (Aaaa rdata, w) else Err (BadRdata TYPE_AAAA)
  else if record_type =? TYPE_PTR then
    '(target, inner, w) ← decode_name message rdata_start w;
    if bool_decide (inner ≠ (rdata_start + length rdata)%nat) then Err (BadRdata TYPE_PTR)
    else Ok (Ptr target, w)
  else if record_type =? TYPE_SRV then
    match rdata with
    | p1 :: p2 :: w1 :: w2 :: o1 :: o2 :: _ :: _ =>
        '(target, inner, w) ← decode_name message (rdata_start + 6) w;
        if bool_decide (inner ≠ (rdata_start + length rdata)%nat) then Err (BadRdata TYPE_SRV)
        else Ok (Srv (from_be16 p1 p2) (from_be16 w1 w2) (from_be16 o1 o2) target, w)
    | _ => Err (BadRdata TYPE_SRV)
    end
  else if record_type =? TYPE_TXT then
    txt ← Txt.decode rdata; Ok (Txt txt, w)
  else Ok (Other record_type rdata, w).

(** One iteration of [decode_records]. *)
Definition decode_record (bs : bytes) (cursor : nat) (w : DecodeWork)
    : result DnsSdError (ResourceRecord * nat * DecodeWork) :=
  '(n, cursor, w) ← decode_name bs cursor w;
  '(record_type, cursor) ← read_u16 bs cursor;
  '(raw_class, cursor) ← read_u16 bs cursor;
  '(ttl, cursor) ← read_u32 bs cursor;
  '(rdata_len, cursor) ← read_u16 bs cursor;
  let rdata_len := Z.to_nat rdata_len in
  let rdata_end := (cursor + rdata_len)%nat in
  if bool_decide (length bs < rdata_end)%nat then Err Truncated
  else
    '(data, w) ← decode_rdata bs record_type (slice bs cursor rdata_len) cursor w;
    Ok (mkRecord n (Z.land raw_class (u16_max - CACHE_FLUSH))
          (negb (Z.land raw_class CACHE_FLUSH =? 0)) ttl data, rdata_end, w).

Fixpoint decode_records (bs : bytes) (cursor : nat) (count : nat) (w : DecodeWork)
    : result DnsSdError (list ResourceRecord * nat * DecodeWork) :=
  match count with
  | O => Ok ([], cursor, w)
  | S count =>
      '(r, cursor, w) ← decode_record bs cursor w;
      '(rs, cursor, w) ← decode_records bs cursor count w;
      Ok (r :: rs, cursor, w)
  end.

(** One iteration of the question loop of [Message::decode], and the loop. *)
Definition decode_question (bs : bytes) (cursor : nat) (w : DecodeWork)
    : result DnsSdError (Question * nat * DecodeWork) :=
  '(n, cursor, w) ← decode_name bs cursor w;
  '(query_type, cursor) ← read_u16 bs cursor;
  '(raw_class, cursor) ← read_u16 bs cursor;
  Ok (mkQuestion n query_type (Z.land raw_class (u16_max - UNICAST_RESPONSE))
        (negb (Z.land raw_class UNICAST_RESPONSE =? 0)), cursor, w).

Fixpoint decode_questions (bs : bytes) (cursor : nat) (count : nat) (w : DecodeWork)
    : result DnsSdError (list Question * nat * DecodeWork) :=
  match count with
  | O => Ok ([], cursor, w)
  | S count =>
      '(q, cursor, w) ← decode_question bs cursor w;
      '(qs, cursor, w) ← decode_questions bs cursor count w;
      Ok (q :: qs, cursor, w)
  end.

Definition validate_declared_counts (qd an ns ar available : Z) : result DnsSdError unit :=
  let checked z := if z <=? usize_max then Ok z else Err (SectionTooLarge usize_max) in
  records ← (z ← checked (an + ns); checked (z + ar));
  minimum ← (size ← checked (qd * MIN_QUESTION_WIRE_BYTES);
             record_size ← checked (records * MIN_RECORD_WIRE_BYTES);
             checked (size + record_size));
  if available <? minimum then Err (ImpossibleSectionCounts qd records available) else Ok tt.

(** [Message::decode] *)
Definition decode (bs : bytes) : result DnsSdError Message :=
  _ ← ensure_message_size (len bs);
  match bs with
  | b0 :: b1 :: b2 :: b3 :: b4 :: b5 :: b6 :: b7 :: b8 :: b9 :: b10 :: b11 :: _ =>
      let id := from_be16 b0 b1 in
      let flags := from_be16 b2 b3 in
      let qd := from_be16 b4 b5 in
      let an := from_be16 b6 b7 in
      let ns := from_be16 b8 b9 in
      let ar := from_be16 b10 b11 in
      _ ← validate_declared_counts qd an ns ar (len bs - 12);
      let w := work_new (len bs) in
      '(questions, cursor, w) ← decode_questions bs 12 (Z.to_nat qd) w;
      '(answers, cursor, w) ← decode_records bs cursor (Z.to_nat an) w;
      '(authorities, cursor, w) ← decode_records bs cursor (Z.to_nat ns) w;
      '(additionals, cursor, w) ← decode_records bs cursor (Z.to_nat ar) w;
      if bool_decide (cursor ≠ length bs) then Err TrailingBytes
      else Ok (mkMessage id flags questions answers authorities additionals)
  | _ => Err Truncated
  end.

(** ** The wire format of names

    [name_at bs p ls h e]: the bytes at [p] spell the labels [ls]; reading them
    follows [h] compression pointers and leaves the cursor at [e], just after the
    root byte or after the first pointer. A pointer leads strictly backwards. *)
Inductive name_at (bs : bytes) : nat → list bytes → nat → nat → Prop :=
| at_root p :
    bs !! p = Some x00 → name_at bs p [] 0 (p + 1)
| at_label p b l ls h e :
    bs !! p = Some b → u8 b = len l → label_ok l →
    slice bs (p + 1) (length l) = l →
    name_at bs (p + 1 + length l) ls h e →
    name_at bs p (l :: ls) h e
| at_pointer p b second ls h e :
    bs !! p = Some b → bs !! (p + 1)%nat = Some second → 192 ≤ u8 b →
    (Z.to_nat ((u8 b - 192) * 256 + u8 second) < p)%nat →
    name_at bs (Z.to_nat ((u8 b - 192) * 256 + u8 second)) ls h e →
    name_at bs p ls (S h) (p + 2).

(** Work units spent on reading it. *)
Definition labels_work (ls : list bytes) : Z :=
  foldr (λ l acc, len l + 1 + DECODE_WORK_PER_LABEL + acc) 0 ls.

Definition name_work (ls : list bytes) (h : nat) : Z := 1 + 2 * Z.of_nat h + labels_work ls.

(** The outcome of charging [units]. *)
Definition charge {R} (w : DecodeWork) (units : Z) (k : DecodeWork → R) : result DnsSdError R :=
  if units <=? remaining w then Ok (k (mkWork (limit w) (remaining w - units)))
  else Err (DecodeWorkLimit (limit w)).

Lemma pointer_bits b :
  (Z.land (u8 b) POINTER_MASK =? POINTER_MASK) = (192 <=? u8 b) ∧
  (Z.land (u8 b) POINTER_MASK =? 0) = (u8 b <? 64) ∧
  (192 ≤ u8 b → Z.land (u8 b) (255 - POINTER_MASK) = u8 b - 192).
Proof. destruct b; vm_compute; (split_and!; done). Qed.

(** What each kind of step adds to the work. *)
Lemma name_work_label l ls h :
  name_work (l :: ls) h = 1 + (len l + DECODE_WORK_PER_LABEL + name_work ls h).
Proof. unfold name_work. cbn. fold (labels_work ls). unfold DECODE_WORK_PER_LABEL. lia. Qed.

Lemma name_work_pointer ls h : name_work ls (S h) = 1 + (1 + name_work ls h).
Proof. unfold name_work. lia. Qed.

Lemma labels_len_cons l ls : labels_len (l :: ls) = len l + 1 + labels_len ls.
Proof. done. Qed.

Lemma labels_work_nonneg ls : 0 ≤ labels_work ls.
Proof.
  induction ls as [|l ls IH]; simpl; [lia|]. pose proof (len_nonneg l).
  unfold DECODE_WORK_PER_LABEL in *. lia.
Qed.

Lemma name_work_pos ls h : 1 ≤ name_work ls h.
Proof. unfold name_work. pose proof (labels_work_nonneg ls). lia. Qed.

Lemma labels_len_nonneg ls : 0 ≤ labels_len ls.
Proof. induction ls as [|l ls IH]; simpl; [lia|]. pose proof (len_nonneg l). lia. Qed.

Lemma labels_len_count ls : Forall label_ok ls → 2 * Z.of_nat (length ls) ≤ labels_len ls.
Proof. induction 1 as [|l ls [Hl _] _ IH]; simpl; [done|]. lia. Qed.

Lemma name_at_labels bs p ls h e : name_at bs p ls h e → Forall label_ok ls.
Proof. induction 1; eauto. Qed.

(** Charging in two steps is charging the sum. *)
Lemma consume_charge {R} w a b (k : DecodeWork → R) f :
  0 ≤ a → 0 ≤ b →
  (∀ r, 0 ≤ r → f (mkWork (limit w) r) = Some (charge (mkWork (limit w) r) b k)) →
  match consume w a with Ok w => f w | Err e => Some (Err e) end = Some (charge w (a + b) k).
Proof.
  intros Ha Hb Hf. unfold consume. destruct (a <=? remaining w) eqn:E; boolify.
  - rewrite Hf by lia. unfold charge. cbn [remaining limit].
    destruct (b <=? remaining w - a) eqn:E'; boolify.
    + replace (a + b <=? remaining w) with true by lia. do 4 f_equal. lia.
    + by replace (a + b <=? remaining w) with false by lia.
  - unfold charge. by replace (a + b <=? remaining w) with false by lia.
Qed.

Lemma slice_bound bs p l : slice bs p (length l) = l → l ≠ [] → (p + length l ≤ length bs)%nat.
Proof.
  intros Hs Hl. apply (f_equal length) in Hs. unfold slice in Hs.
  rewrite length_take, length_drop in Hs. destruct l; [done|]. cbn [length] in *. lia.
Qed.

Lemma label_ok_nonempty l : label_ok l → l ≠ [].
Proof. intros [Hl _] ->. unfold len in Hl. simpl in Hl. lia. Qed.

(** The walk reads any name of the wire format, charging exactly its work. *)
Lemma name_loop_complete bs p ls h e :
  name_at bs p ls h e → ∀ fuel cursor followed budget hops w acc,
  (length ls + h < fuel)%nat → labels_len ls ≤ budget →
  hops + Z.of_nat h ≤ MAX_COMPRESSION_POINTER_HOPS →
  name_loop fuel bs cursor p followed budget hops w acc =
  Some (charge w (name_work ls h) (λ w, (acc ++ ls, if followed : bool then cursor else e, w))).
Proof.
  induction 1 as [p Hp|p b l ls h e Hp Hb Hl Hs Hn IH|p b c ls h e Hp Hc Hb Ht Hn IH];
    intros fuel cursor followed budget hops w acc Hf Hbud Hh;
    (destruct fuel as [|fuel]; [lia|]); cbn [name_loop length] in *; rewrite Hp.
  - apply (consume_charge w 1 0); [done..|]. intros r Hr. unfold charge.
    rewrite app_nil_r. cbn. rewrite Z.sub_0_r. replace (0 <=? r) with true by lia.
    by destruct followed.
  - pose proof (name_work_pos ls h). pose proof (labels_len_nonneg ls).
    rewrite labels_len_cons in Hbud. rewrite name_work_label.
    apply label_ok_nonempty in Hl as Hne.
    unfold label_ok, MAX_LABEL_BYTES in Hl.
    apply consume_charge; [done|unfold DECODE_WORK_PER_LABEL; lia|]. intros r Hr.
    destruct (pointer_bits b) as (-> & -> & _). rewrite Hb.
    replace (192 <=? len l) with false by lia. replace (len l <? 64) with true by lia.
    replace (Z.to_nat (len l)) with (length l) by (unfold len; lia). cbn [negb].
    rewrite bool_decide_eq_false_2 by (unfold len in *; lia). fold (len l).
    apply (consume_charge (mkWork _ _)); [unfold DECODE_WORK_PER_LABEL; lia|lia|].
    intros r' Hr'. replace (budget <? len l + 1) with false by lia.
    apply slice_bound in Hs as Hend; [|done].
    rewrite bool_decide_eq_false_2 by lia. rewrite Hs, IH by lia. by rewrite <- app_assoc.
  - pose proof (name_work_pos ls h). rewrite name_work_pointer.
    apply consume_charge; [lia..|]. intros r Hr.
    destruct (pointer_bits b) as (-> & _ & Hland). replace (192 <=? u8 b) with true by lia.
    rewrite Hland, Hc by done. apply (consume_charge (mkWork _ _)); [lia..|]. intros r' Hr'.
    unfold MAX_COMPRESSION_POINTER_HOPS in *. replace (128 <? hops + 1) with false by lia.
    rewrite bool_decide_eq_false_2 by lia. by rewrite IH by lia.
Qed.

(** Conversely, whatever the walk returns is in the wire format. *)
Lemma name_loop_sound fuel bs cursor p followed budget hops w acc ls' c' w' :
  hops ≤ MAX_COMPRESSION_POINTER_HOPS → 0 ≤ budget →
  name_loop fuel bs cursor p followed budget hops w acc = Some (Ok (ls', c', w')) →
  ∃ ls h e, ls' = acc ++ ls ∧ name_at bs p ls h e ∧
    c' = (if followed : bool then cursor else e) ∧
    labels_len ls ≤ budget ∧ hops + Z.of_nat h ≤ MAX_COMPRESSION_POINTER_HOPS ∧
    name_work ls h ≤ remaining w ∧ w' = mkWork (limit w) (remaining w - name_work ls h).
Proof.
  revert cursor p followed budget hops w acc.
  induction fuel as [|fuel IH]; intros cursor p followed budget hops w acc Hh Hbud; [done|].
  cbn [name_loop]. destruct (bs !! p) as [b|] eqn:Hp; [|done].
  unfold consume at 1. destruct (1 <=? remaining w) eqn:E1; [|done].
  destruct (pointer_bits b) as (-> & -> & Hland). pose proof (u8_range b) as Hb.
  destruct (192 <=? u8 b) eqn:E192; [|destruct (u8 b <? 64) eqn:E64; [cbn [negb]|done]].
  - destruct (bs !! (p + 1)%nat) as [c|] eqn:Hc; [|done].
    unfold consume. cbn [remaining limit]. destruct (1 <=? remaining w - 1) eqn:E2; [|done].
    destruct (MAX_COMPRESSION_POINTER_HOPS <? hops + 1) eqn:E3; [done|].
    case_bool_decide as Ht; [done|]. boolify. rewrite Hland in * by done.
    intros (ls & h & e & -> & Hn & -> & Hl & Hh' & Hw & ->)%IH; [|done..].
    exists ls, (S h), (p + 2)%nat. cbn [remaining limit] in *. rewrite name_work_pointer.
    split_and!; [done| |by destruct followed|done|lia|lia|f_equal; lia].
    eapply at_pointer; eauto; lia.
  - case_bool_decide as H0.
    + intros [= <- <- <-]. exists [], 0%nat, (p + 1)%nat. rewrite app_nil_r. boolify.
      split_and!; [done| |done|done|lia|done|done].
      constructor. rewrite Hp. f_equal. apply u8_inj. change (u8 x00) with 0. lia.
    + unfold consume. cbn [remaining limit].
      destruct (_ <=? remaining w - 1) eqn:E2; [|done].
      destruct (budget <? _) eqn:E3; [done|]. case_bool_decide as Hend; [done|]. boolify.
      set (l := slice bs (p + 1) (Z.to_nat (u8 b))) in *.
      assert (length l = Z.to_nat (u8 b)) as Hll.
      { unfold l, slice. rewrite length_take, length_drop. lia. }
      assert (len l = u8 b) as Hlen by (unfold len; lia).
      intros (ls & h & e & -> & Hn & -> & Hl & Hh' & Hw & ->)%IH; [|done|lia].
      exists (l :: ls), h, e. cbn [remaining limit] in *.
      rewrite name_work_label, labels_len_cons, Hlen.
      rewrite Z2Nat.id in * by lia.
      split_and!; [by rewrite <- app_assoc| |done|lia|done|lia|f_equal; lia].
      eapply at_label; [done|lia|unfold label_ok, MAX_LABEL_BYTES; lia|by rewrite Hll|by rewrite Hll].
Qed.

(** The walk takes at most [127 - |acc|] labels and [128 - hops] pointers. *)
Lemma name_loop_fuel fuel bs cursor p followed budget hops w acc :
  0 ≤ budget → 0 ≤ hops ≤ MAX_COMPRESSION_POINTER_HOPS →
  budget / 2 + (MAX_COMPRESSION_POINTER_HOPS - hops) < Z.of_nat fuel →
  is_Some (name_loop fuel bs cursor p followed budget hops w acc).
Proof.
  revert cursor p followed budget hops w acc.
  induction fuel as [|fuel IH]; intros cursor p followed budget hops w acc Hb Hh Hf.
  { pose proof (Z.div_pos budget 2). lia. }
  cbn [name_loop]. destruct (bs !! p) as [b|]; [|by eexists].
  destruct (consume w 1) as [w1|]; [|by eexists].
  destruct (_ =? POINTER_MASK); [|destruct (negb _); [by eexists|]].
  - destruct (bs !! (p + 1)%nat); [|by eexists]. destruct (consume w1 1); [|by eexists].
    destruct (_ <? _) eqn:E; [by eexists|]. case_bool_decide; [by eexists|].
    boolify. apply IH; lia.
  - case_bool_decide; [by eexists|]. destruct (consume _ _); [|by eexists].
    destruct (budget <? _) eqn:E; [by eexists|]. case_bool_decide; [by eexists|].
    boolify. apply IH; [lia|lia|].
    enough ((budget - (Z.of_nat (Z.to_nat (u8 b)) + 1)) / 2 + 1 ≤ budget / 2) by lia.
    rewrite <- Z.div_add by lia. apply Z.div_le_mono; lia.
Qed.

Lemma name_loop_mono fuel fuel' bs cursor p followed budget hops w acc o :
  (fuel ≤ fuel')%nat → name_loop fuel bs cursor p followed budget hops w acc = Some o →
  name_loop fuel' bs cursor p followed budget hops w acc = Some o.
Proof.
  revert fuel' cursor p followed budget hops w acc.
  induction fuel as [|fuel IH]; intros [|fuel'] cursor p followed budget hops w acc Hf;
    [done|done|lia|]. cbn [name_loop].
  repeat (case_match; try done); apply IH; lia.
Qed.

(** ** Names read by the decoder *)

Lemma decode_name_charge bs c ls h e w :
  name_at bs c ls h e → Z.of_nat h ≤ MAX_COMPRESSION_POINTER_HOPS →
  encoded_len (mkName ls) ≤ MAX_NAME_BYTES →
  decode_name bs c w = charge w (name_work ls h) (λ w, (mkName ls, e, w)).
Proof.
  intros Hn Hh Hl. pose proof (name_at_labels _ _ _ _ _ Hn) as Hok.
  pose proof (labels_len_count ls Hok). unfold encoded_len in Hl. cbn [labels] in Hl.
  unfold MAX_NAME_BYTES, MAX_COMPRESSION_POINTER_HOPS in *.
  unfold decode_name. rewrite (name_loop_complete _ _ _ _ _ Hn)
    by (unfold NAME_FUEL, MAX_NAME_BYTES, MAX_COMPRESSION_POINTER_HOPS; lia).
  unfold charge. destruct (_ <=? remaining w); [|done]. cbn -[from_labels].
  by rewrite (proj2 (from_labels_Ok ls (mkName ls))).
Qed.

Lemma decode_name_Ok bs c w n c' w' :
  decode_name bs c w = Ok (n, c', w') ↔
  ∃ h, name_at bs c (labels n) h c' ∧ Z.of_nat h ≤ MAX_COMPRESSION_POINTER_HOPS ∧
       encoded_len n ≤ MAX_NAME_BYTES ∧ name_work (labels n) h ≤ remaining w ∧
       w' = mkWork (limit w) (remaining w - name_work (labels n) h).
Proof.
  split.
  - unfold decode_name. destruct (name_loop _ _ _ _ _ _ _ _ _) as [[[[ls cur] w1]|]|] eqn:E; [|done..].
    cbn. intros (n' & Hn & [= <- <- <-])%bind_Ok. apply from_labels_Ok in Hn as [-> [_ Hlen]].
    apply name_loop_sound in E as (ls' & h & e & -> & Hat & -> & _ & Hh & Hw & ->); [|done..].
    by exists h.
  - intros (h & Hat & Hh & Hl & Hw & ->). destruct n as [ls]. cbn [labels] in *.
    erewrite decode_name_charge by done. unfold charge. by replace (_ <=? _) with true by lia.
Qed.

(** ** What a decoded message satisfies *)

Definition u16_range (z : Z) : Prop := 0 ≤ z ≤ u16_max.

(** A class without the top bit, which the source keeps in a flag of its own. *)
Definition class_range (z : Z) : Prop := 0 ≤ z < 0x8000.

Definition known_type (t : Z) : bool :=
  (t =? TYPE_A) || (t =? TYPE_AAAA) || (t =? TYPE_PTR) || (t =? TYPE_SRV) || (t =? TYPE_TXT).

Definition data_ok (d : RecordData) : Prop :=
  match d with
  | A octets => length octets = 4%nat
  | Aaaa octets => length octets = 16%nat
  | Ptr target => name_ok target
  | Srv priority weight port target =>
      u16_range priority ∧ u16_range weight ∧ u16_range port ∧ name_ok target
  | Txt txt => Txt.txt_ok txt ∧ Txt.strings txt ≠ [[]]
  | Other t rdata => u16_range t ∧ known_type t = false
  end.

Definition record_ok (r : ResourceRecord) : Prop :=
  name_ok (name r) ∧ class_range (class r) ∧ 0 ≤ ttl r ≤ u32_max ∧ data_ok (data r).

Definition question_ok (q : Question) : Prop :=
  name_ok (q_name q) ∧ u16_range (query_type q) ∧ class_range (query_class q).

(** The messages that the wire can carry as they are, which are those that [decode]
    returns ([decode_Ok]): numbers within their fields, classes without the top bit,
    addresses of their length, no [Other] record of a type that has a constructor of
    its own, and no TXT record of a single empty string, which is how the empty one is
    written. The fields of the source's types are public and [encode] takes others. *)
Definition message_ok (m : Message) : Prop :=
  u16_range (id m) ∧ u16_range (flags m) ∧
  Forall question_ok (questions m) ∧ Forall record_ok (records m).

(** Every name a message holds. *)
Definition data_names (d : RecordData) : list Name :=
  match d with Ptr target | Srv _ _ _ target => [target] | _ => [] end.

Definition record_names (r : ResourceRecord) : list Name := name r :: data_names (data r).

Definition message_names (m : Message) : list Name :=
  (q_name <$> questions m) ++ concat (record_names <$> records m).

Definition total_len (ns : list Name) : Z := foldr (λ n acc, encoded_len n + acc) 0 ns.

Lemma total_len_app ns ms : total_len (ns ++ ms) = total_len ns + total_len ms.
Proof. induction ns as [|n ns IH]; cbn; [done|]. fold (total_len ns) (total_len (ns ++ ms)). lia. Qed.

Lemma name_work_encoded ls h : encoded_len (mkName ls) ≤ name_work ls h.
Proof.
  unfold encoded_len, name_work. cbn [labels].
  enough (labels_len ls ≤ labels_work ls) by lia.
  induction ls as [|l ls IH]; cbn; [done|].
  fold (labels_len ls) (labels_work ls). unfold DECODE_WORK_PER_LABEL. lia.
Qed.

(** Work [w] turned into [w'] while the names [ns] were read. *)
Definition spent (w w' : DecodeWork) (ns : list Name) : Prop :=
  0 ≤ remaining w → total_len ns + remaining w' ≤ remaining w ∧ 0 ≤ remaining w'.

Lemma spent_app w w1 w2 ns ms : spent w w1 ns → spent w1 w2 ms → spent w w2 (ns ++ ms).
Proof. unfold spent. intros H1 H2 Hw. rewrite total_len_app. lia. Qed.

Lemma spent_nil w : spent w w [].
Proof. unfold spent. cbn. lia. Qed.

Lemma decode_name_spent bs c w n c' w' :
  decode_name bs c w = Ok (n, c', w') → name_ok n ∧ spent w w' [n].
Proof.
  intros (h & Hat & _ & Hl & Hw & ->)%decode_name_Ok. split.
  - split; [by eapply name_at_labels|done].
  - unfold spent, total_len. cbn. pose proof (name_work_encoded (labels n) h) as H.
    destruct n; cbn in *. lia.
Qed.

Lemma from_be16_range a b : u16_range (from_be16 a b).
Proof.
  unfold u16_range, from_be16. pose proof (u8_range a). pose proof (u8_range b).
  change u16_max with 65535. lia.
Qed.

Lemma read_u16_range bs c z c' : read_u16 bs c = Ok (z, c') → u16_range z ∧ c' = (c + 2)%nat.
Proof.
  unfold read_u16. destruct (slice bs c 2) as [|a [|b [|? ?]]]; try done.
  intros [= <- <-]. split; [apply from_be16_range|done].
Qed.

Lemma read_u32_range bs c z c' : read_u32 bs c = Ok (z, c') → 0 ≤ z ≤ u32_max.
Proof.
  unfold read_u32. destruct (slice bs c 4) as [|a [|b [|x [|y [|? ?]]]]]; try done.
  intros [= <- <-]. pose proof (from_be16_range a b). pose proof (from_be16_range x y).
  unfold from_be32, u16_range in *. change u32_max with 4294967295.
  change u16_max with 65535 in *. lia.
Qed.

Lemma class_mask_range z mask : mask = Z.ones 15 → class_range (Z.land z mask).
Proof.
  intros ->. unfold class_range.
  rewrite Z.land_ones by done. apply Z.mod_pos_bound. done.
Qed.

#[local] Hint Resolve from_be16_range spent_nil : core.

Lemma decode_rdata_ok bs t rdata start w d w' :
  u16_range t → decode_rdata bs t rdata start w = Ok (d, w') →
  data_ok d ∧ data_type d = t ∧ spent w w' (data_names d).
Proof.
  intros Ht. unfold decode_rdata. destruct (t =? TYPE_A) eqn:EA.
  { case_bool_decide; [|done]. intros [= <- <-]. boolify. by split_and!. }
  destruct (t =? TYPE_AAAA) eqn:E6.
  { case_bool_decide; [|done]. intros [= <- <-]. boolify. by split_and!. }
  destruct (t =? TYPE_PTR) eqn:EP.
  { intros ([[n c] w1] & Hn & H)%bind_Ok. case_bool_decide; [done|].
    injection H as <- <-. apply decode_name_spent in Hn as [? ?]. boolify. by split_and!. }
  destruct (t =? TYPE_SRV) eqn:ES.
  { do 7 (destruct rdata as [|? rdata]; [done|]).
    intros ([[n c] w1] & Hn & H)%bind_Ok. case_bool_decide; [done|].
    injection H as <- <-. apply decode_name_spent in Hn as [? ?]. boolify.
    split_and!; [cbn; split_and!; eauto|done|done]. }
  destruct (t =? TYPE_TXT) eqn:ET.
  { intros (txt & Hx & [= <- <-])%bind_Ok. boolify. apply Txt.decode_ok in Hx. by split_and!. }
  intros [= <- <-]. split_and!; [|done|done]. split; [done|].
  unfold known_type. by rewrite EA, E6, EP, ES, ET.
Qed.

Lemma decode_record_ok bs c w r c' w' :
  decode_record bs c w = Ok (r, c', w') → record_ok r ∧ spent w w' (record_names r).
Proof.
  unfold decode_record. intros ([[n c1] w1] & Hn & H)%bind_Ok.
  apply bind_Ok in H as ([t c2] & Ht & H). apply bind_Ok in H as ([cl c3] & _ & H).
  apply bind_Ok in H as ([tt c4] & Htt & H). apply bind_Ok in H as ([rl c5] & _ & H).
  case_bool_decide; [done|]. apply bind_Ok in H as ([d w2] & Hd & [= <- <- <-]).
  apply decode_name_spent in Hn as [Hn Hw1]. apply read_u16_range in Ht as [Ht _].
  apply decode_rdata_ok in Hd as (Hd & _ & Hw2); [|done]. apply read_u32_range in Htt.
  split; [exact (conj Hn (conj (class_mask_range cl _ eq_refl) (conj Htt Hd)))|].
  by apply (spent_app w w1 w2 [n]).
Qed.

Lemma decode_records_ok bs c k w rs c' w' :
  decode_records bs c k w = Ok (rs, c', w') →
  length rs = k ∧ Forall record_ok rs ∧ spent w w' (concat (record_names <$> rs)).
Proof.
  revert c w rs. induction k as [|k IH]; intros c w rs; cbn [decode_records].
  - intros [= <- <- <-]. by split_and!.
  - intros ([[r c1] w1] & Hr & H)%bind_Ok. apply bind_Ok in H as ([[rs1 c2] w2] & Hrs & [= <- <- <-]).
    apply decode_record_ok in Hr as [Hr Hw1]. apply IH in Hrs as (<- & Hrs & Hw2).
    split_and!; [done|by constructor|]. by apply (spent_app w w1 w2).
Qed.

Lemma decode_question_ok bs c w q c' w' :
  decode_question bs c w = Ok (q, c', w') → question_ok q ∧ spent w w' [q_name q].
Proof.
  unfold decode_question. intros ([[n c1] w1] & Hn & H)%bind_Ok.
  apply bind_Ok in H as ([t c2] & Ht & H). apply bind_Ok in H as ([cl c3] & _ & [= <- <- <-]).
  apply decode_name_spent in Hn as [Hn Hw1]. apply read_u16_range in Ht as [Ht _].
  split; [|done]. exact (conj Hn (conj Ht (class_mask_range cl _ eq_refl))).
Qed.

Lemma decode_questions_ok bs c k w qs c' w' :
  decode_questions bs c k w = Ok (qs, c', w') →
  length qs = k ∧ Forall question_ok qs ∧ spent w w' (q_name <$> qs).
Proof.
  revert c w qs. induction k as [|k IH]; intros c w qs; cbn [decode_questions].
  - intros [= <- <- <-]. by split_and!.
  - intros ([[q c1] w1] & Hq & H)%bind_Ok. apply bind_Ok in H as ([[qs1 c2] w2] & Hqs & [= <- <- <-]).
    apply IH in Hqs as (<- & Hqs & Hw2). apply decode_question_ok in Hq as [Hq Hw1].
    split_and!; [done|by constructor|]. by apply (spent_app w w1 w2 [q_name q]).
Qed.

(** The checked arithmetic on section counts cannot overflow. *)
Lemma validate_declared_counts_eq qd an ns ar available :
  u16_range qd → u16_range an → u16_range ns → u16_range ar →
  validate_declared_counts qd an ns ar available =
  if available <? MIN_QUESTION_WIRE_BYTES * qd + MIN_RECORD_WIRE_BYTES * (an + ns + ar)
  then Err (ImpossibleSectionCounts qd (an + ns + ar) available) else Ok tt.
Proof.
  unfold u16_range, validate_declared_counts, MIN_QUESTION_WIRE_BYTES, MIN_RECORD_WIRE_BYTES.
  change u16_max with 65535. change usize_max with 18446744073709551615. intros.
  replace (an + ns <=? _) with true by lia. cbn -[Z.leb Z.ltb Z.add Z.mul].
  replace (an + ns + ar <=? _) with true by lia. cbn -[Z.leb Z.ltb Z.add Z.mul].
  replace (qd * 5 <=? _) with true by lia. cbn -[Z.leb Z.ltb Z.add Z.mul].
  replace ((an + ns + ar) * 11 <=? _) with true by lia. cbn -[Z.leb Z.ltb Z.add Z.mul].
  replace (qd * 5 + _ <=? _) with true by lia. cbn -[Z.leb Z.ltb Z.add Z.mul].
  by rewrite (Z.mul_comm qd), (Z.mul_comm (an + ns + ar)).
Qed.

Lemma decode_Ok bs m :
  decode bs = Ok m →
  len bs ≤ MAX_MESSAGE_BYTES ∧
  12 + MIN_QUESTION_WIRE_BYTES * len (questions m) + MIN_RECORD_WIRE_BYTES * len (records m)
    ≤ len bs ∧
  message_ok m ∧ total_len (message_names m) ≤ DECODE_WORK_PER_MESSAGE_BYTE * len bs.
Proof.
  unfold decode. intros (u & Hsize & H)%bind_Ok.
  unfold ensure_message_size in Hsize. destruct (_ <? len bs) eqn:Esize; [done|]. clear Hsize.
  do 12 (destruct bs as [|? bs]; [done|]). set (bs' := _ :: _ :: _) in *. clearbody bs'.
  apply bind_Ok in H as (? & Hcounts & H).
  apply bind_Ok in H as ([[qs c1] w1] & Hqs & H). apply bind_Ok in H as ([[an c2] w2] & Han & H).
  apply bind_Ok in H as ([[ns c3] w3] & Hns & H). apply bind_Ok in H as ([[ar c4] w4] & Har & H).
  case_bool_decide; [done|]. injection H as <-. boolify.
  apply decode_questions_ok in Hqs as (Hq & Hqok & Hqw).
  apply decode_records_ok in Han as (Ha & Haok & Haw).
  apply decode_records_ok in Hns as (Hn & Hnok & Hnw).
  apply decode_records_ok in Har as (Hr & Hrok & Hrw).
  rewrite validate_declared_counts_eq in Hcounts by auto.
  destruct (_ <? _) eqn:E in Hcounts; [done|]. boolify.
  pose proof (from_be16_range b3 b4). pose proof (from_be16_range b5 b6).
  pose proof (from_be16_range b7 b8). pose proof (from_be16_range b9 b10).
  unfold u16_range, records, len, MIN_QUESTION_WIRE_BYTES, MIN_RECORD_WIRE_BYTES in *.
  cbn [questions answers authorities additionals] in *.
  rewrite !length_app. split_and!; [done|lia| |].
  - refine (conj (from_be16_range _ _) (conj (from_be16_range _ _) (conj Hqok _))).
    unfold records. by rewrite !Forall_app.
  - pose proof (spent_app _ _ _ _ _ Hqw (spent_app _ _ _ _ _ Haw (spent_app _ _ _ _ _ Hnw Hrw))) as Hw.
    unfold message_names, records. cbn [questions answers authorities additionals].
    rewrite !fmap_app, !concat_app. destruct Hw as [Hw Hpos].
    + cbn [remaining work_new]. change usize_max with 18446744073709551615.
      unfold DECODE_WORK_PER_MESSAGE_BYTE. lia.
    + cbn [remaining work_new] in Hw. lia.
Qed.

(** Termination of name expansion: whatever the bytes, the walk over labels
    and compression pointers ends after at most 256 steps (128 pointers, 127
    labels and the final one), whatever work budget it is given; more fuel never
    changes its outcome. *)
Theorem name_walk_terminates bs cursor w :
  ∃ outcome, ∀ fuel, (NAME_FUEL ≤ fuel)%nat →
    name_loop fuel bs cursor cursor false MAX_NAME_BYTES 0 w [] = Some outcome.
Proof.
  destruct (name_loop_fuel NAME_FUEL bs cursor cursor false MAX_NAME_BYTES 0 w []) as [o Ho];
    [done|done|by vm_compute|].
  exists o. intros fuel Hf. eapply name_loop_mono in Ho; eauto.
Qed.

(** The name decoder implements the wire format: it returns a name exactly
    when the bytes at the cursor spell it through strictly backward pointers, at
    most 128 of them, the whole expansion is at most 255 bytes, and the work it
    costs is within the budget, which is charged exactly that work; the cursor it
    leaves is past the root byte or past the first pointer. *)
Theorem decode_name_refines bs cursor w n cursor' w' :
  decode_name bs cursor w = Ok (n, cursor', w') ↔
  ∃ h, name_at bs cursor (labels n) h cursor' ∧
       Z.of_nat h ≤ MAX_COMPRESSION_POINTER_HOPS ∧ encoded_len n ≤ MAX_NAME_BYTES ∧
       name_work (labels n) h ≤ remaining w ∧
       w' = mkWork (limit w) (remaining w - name_work (labels n) h).
Proof. apply decode_name_Ok. Qed.

(** Safety of the message decoder: an accepted message is at most 65535 bytes,
    declared no more entries than its bytes can hold, holds only valid names,
    rdata and fields within their widths (the class without its flag bit), and the
    names expanded from it total at most 16 bytes per message byte, compression
    pointers notwithstanding. *)
Theorem decode_safety bs m :
  decode bs = Ok m →
  len bs ≤ MAX_MESSAGE_BYTES ∧
  12 + MIN_QUESTION_WIRE_BYTES * len (questions m) + MIN_RECORD_WIRE_BYTES * len (records m)
    ≤ len bs ∧
  message_ok m ∧ total_len (message_names m) ≤ DECODE_WORK_PER_MESSAGE_BYTE * len bs.
Proof. apply decode_Ok. Qed.

(** A response naming [a.local] whose [PTR] target is [b] before a pointer to the
    [local] of the owner name. *)
Definition sample_response : bytes :=
  be16 0 ++ be16 FLAG_RESPONSE ++ be16 0 ++ be16 1 ++ be16 0 ++ be16 0 ++
  [x01; x61; x05; x6c; x6f; x63; x61; x6c; x00] ++
  be16 TYPE_PTR ++ be16 CLASS_IN ++ be32 120 ++ be16 4 ++ [x01; x62; xc0; x0e].

Definition sample_message : Message :=
  mkMessage 0 FLAG_RESPONSE []
    [mkRecord (mkName [lit "a"; lit "local"]) CLASS_IN false 120
       (Ptr (mkName [lit "b"; lit "local"]))] [] [].

Lemma decode_safety_witness :
  decode sample_response = Ok sample_message ∧
  total_len (message_names sample_message) ≤ DECODE_WORK_PER_MESSAGE_BYTE * len sample_response.
Proof.
  assert (decode sample_response = Ok sample_message) as H by (vm_compute; reflexivity).
  split; [exact H|]. exact (proj2 (proj2 (proj2 (decode_safety _ _ H)))).
Defined.


End Wire.
