(* ===== verification/DnsCompression.v ===== *)
(** * Name compression and the message round trip

    The encoder of [crates/claw-discovery/src/dnssd/message.rs] against its
    decoder: what [encode_name] appends spells the name, compression pointers
    included, and a whole encoded message decodes to an equal one. Names are equal
    up to ASCII case, as [PartialEq for Name] has it: a compressed suffix comes
    back with the case it was first written in. *)

From S2P Require Import Prelude Utf8 DnsName DnsTxt DnsMessage.
Import Dns Wire.

Module Compression.

(** ** Appending to the buffer *)

Lemma slice_app_l (bs ext : bytes) p n :
  (p + n ≤ length bs)%nat → slice (bs ++ ext) p n = slice bs p n.
Proof.
  intros H. unfold slice. rewrite drop_app_le by lia.
  by rewrite take_app_le by (rewrite length_drop; lia).
Qed.

Lemma slice_mid (pre bs post : bytes) :
  slice (pre ++ bs ++ post) (length pre) (length bs) = bs.
Proof. unfold slice. by rewrite drop_app_length, take_app_length. Qed.

Lemma name_at_app bs ext p ls h e : name_at bs p ls h e → name_at (bs ++ ext) p ls h e.
Proof.
  induction 1 as [p Hp|p b l ls h e Hp Hb Hl Hs Hn IH|p b c ls h e Hp Hc Hb Ht Hn IH].
  - constructor. by apply lookup_app_l_Some.
  - apply slice_bound in Hs as Hle; [|by apply label_ok_nonempty].
    eapply at_label; [by apply lookup_app_l_Some|done|done|by rewrite slice_app_l|done].
  - by eapply at_pointer; [apply lookup_app_l_Some..| | |].
Qed.

(** ** Fields *)

Lemma lor_disjoint (a k m : Z) : 0 ≤ a < 2 ^ k → 0 ≤ k → Z.land (Z.ones k) m = 0 → Z.lor a m = a + m.
Proof.
  intros Ha Hk Hm. pose proof (Z.add_lor_land a m) as H.
  replace (Z.land a m) with 0 in H; [lia|].
  rewrite <- (Z.mod_small a (2 ^ k)), <- Z.land_ones by lia.
  by rewrite <- Z.land_assoc, Hm, Z.land_0_r.
Qed.

Lemma be16_bytes z :
  u16_range z → be16 z = [byte_of (z / 256); byte_of (z mod 256)] ∧
  u8 (byte_of (z / 256)) = z / 256 ∧ u8 (byte_of (z mod 256)) = z mod 256.
Proof.
  unfold u16_range, be16. change u16_max with 65535. intros Hz.
  change 255 with (Z.ones 8). rewrite !Z.land_ones, Z.shiftr_div_pow2 by done.
  change (2 ^ 8) with 256. rewrite (Z.mod_small (z / 256)) by (split; [apply Z.div_pos|apply Z.div_lt_upper_bound]; lia).
  pose proof (Z.mod_pos_bound z 256). split_and!; [done|apply u8_byte_of..].
  - split; [apply Z.div_pos; lia|]. apply Z.lt_succ_r, Z.div_lt_upper_bound; lia.
  - lia.
Qed.

Lemma be16_from z : u16_range z → ∃ a b, be16 z = [a; b] ∧ from_be16 a b = z.
Proof.
  intros Hz. destruct (be16_bytes z Hz) as (-> & H1 & H2). eexists _, _. split; [done|].
  unfold from_be16. rewrite H1, H2. pose proof (Z.div_mod z 256). lia.
Qed.

Lemma read_u16_be16 pre z post :
  u16_range z → read_u16 (pre ++ be16 z ++ post) (length pre) = Ok (z, (length pre + 2)%nat).
Proof.
  intros Hz. unfold read_u16. rewrite (slice_mid pre (be16 z) post : slice _ _ 2 = _).
  by destruct (be16_from z Hz) as (a & b & -> & ->).
Qed.

Lemma read_u32_be32 pre z post :
  0 ≤ z ≤ u32_max →
  read_u32 (pre ++ be32 z ++ post) (length pre) = Ok (z, (length pre + 4)%nat).
Proof.
  change u32_max with 4294967295. intros Hz.
  unfold read_u32. rewrite (slice_mid pre (be32 z) post : slice _ _ 4 = _).
  unfold be32. change 65535 with (Z.ones 16).
  rewrite !Z.land_ones, Z.shiftr_div_pow2 by done. change (2 ^ 16) with 65536.
  assert (0 ≤ z / 65536 < 65536) by (split; [apply Z.div_pos|apply Z.div_lt_upper_bound]; lia).
  rewrite (Z.mod_small (z / 65536)) by done.
  pose proof (Z.mod_pos_bound z 65536). pose proof (Z.div_mod z 65536).
  destruct (be16_bytes (z / 65536)) as (-> & E1 & E2); [unfold u16_range; change u16_max with 65535; lia|].
  destruct (be16_bytes (z mod 65536)) as (-> & E3 & E4); [unfold u16_range; change u16_max with 65535; lia|].
  cbn [app]. unfold from_be32, from_be16. rewrite E1, E2, E3, E4.
  do 2 f_equal. pose proof (Z.div_mod (z / 65536) 256).
  pose proof (Z.div_mod (z mod 65536) 256). lia.
Qed.

(** A class and its flag bit share a field and are told apart again. *)
Lemma class_flag z (flag : bool) :
  class_range z →
  u16_range (Z.lor z (if flag then 0x8000 else 0)) ∧
  Z.land (Z.lor z (if flag then 0x8000 else 0)) (u16_max - 0x8000) = z ∧
  negb (Z.land (Z.lor z (if flag then 0x8000 else 0)) 0x8000 =? 0) = flag.
Proof.
  unfold class_range, u16_range. intros Hz.
  assert (Z.land z 0x8000 = 0) as H0.
  { rewrite <- (Z.mod_small z (2 ^ 15)), <- Z.land_ones by lia. by rewrite <- Z.land_assoc, Z.land_0_r. }
  rewrite !Z.land_lor_distr_l, H0. change (u16_max - 0x8000) with (Z.ones 15).
  rewrite (Z.land_ones z) by done. rewrite Z.mod_small by lia.
  destruct flag; cbn -[Z.lor u16_max]; rewrite ?Z.lor_0_r, ?(lor_disjoint z 15) by done;
    change u16_max with 65535; split_and!; try done; lia.
Qed.

(** ** Keys *)

Definition dot_free (l : bytes) : Prop := DOT ∉ l.

Lemma lower_dot b : to_ascii_lowercase b = DOT → b = DOT.
Proof. by destruct b. Qed.

Lemma lower_dot_free l : dot_free l → DOT ∉ lower l.
Proof.
  unfold dot_free, lower. rewrite list_elem_of_fmap. intros H (b & Hb & Hin).
  apply H. symmetry in Hb. apply lower_dot in Hb. by subst.
Qed.

(** A byte that does not occur delimits unambiguously. *)
Lemma app_delim_inj (x : byte) l l' k k' :
  x ∉ l → x ∉ l' → l ++ x :: k = l' ++ x :: k' → l = l' ∧ k = k'.
Proof.
  revert l'. induction l as [|a l IH]; intros [|a' l'] Hl Hl' H; cbn in H.
  - by simplify_eq.
  - simplify_eq. set_solver.
  - simplify_eq. set_solver.
  - injection H as -> H. apply IH in H as [-> ->]; [done|set_solver..].
Qed.

Lemma suffix_key_inj ls ls' :
  Forall dot_free ls → Forall dot_free ls' →
  suffix_key ls = suffix_key ls' → lower <$> ls = lower <$> ls'.
Proof.
  intros Hls. revert ls'. induction Hls as [|l ls Hl Hls IH]; intros ls' Hls' H.
  - destruct ls' as [|l' ls']; [done|]. by apply app_cons_not_nil in H.
  - destruct Hls' as [|l' ls' Hl' Hls']; [by symmetry in H; apply app_cons_not_nil in H|].
    apply app_delim_inj in H as [Heq H]; [|by apply lower_dot_free..].
    change (lower l :: (lower <$> ls) = lower l' :: (lower <$> ls')).
    f_equal; [done|by apply IH].
Qed.

Lemma suffix_key_length l ls : (length (suffix_key ls) < length (suffix_key (l :: ls)))%nat.
Proof. cbn [suffix_key]. rewrite length_app. cbn [length]. lia. Qed.

(** ** Offsets

    An entry [key ↦ off] is sound in a buffer when the name written at [off] is,
    up to case, one whose suffix key is [key], and starts with a label. *)
Definition key_sound (out key : bytes) (off : Z) : Prop :=
  ∃ ls ls' h e, key = suffix_key ls ∧ Forall dot_free ls ∧
    lower <$> ls' = lower <$> ls ∧ name_at out (Z.to_nat off) ls' h e ∧
    (h < length ls)%nat ∧ 0 ≤ off ≤ MAX_POINTER_OFFSET ∧ off < len out.

Definition offsets_sound (out : bytes) (offsets : Offsets) : Prop :=
  ∀ key off, offsets !! key = Some off → key_sound out key off.

Lemma key_sound_app out ext key off : key_sound out key off → key_sound (out ++ ext) key off.
Proof.
  intros (ls & ls' & h & e & -> & Hd & Hl & Hn & Hh & Ho & Hlt).
  exists ls, ls', h, e. rewrite len_app. pose proof (len_nonneg ext).
  split_and!; try done; [by apply name_at_app|lia..].
Qed.

Lemma offsets_sound_app out ext offs : offsets_sound out offs → offsets_sound (out ++ ext) offs.
Proof. intros H key off Hk. apply key_sound_app. by apply H. Qed.

Lemma name_at_pointer out off ls h e :
  0 ≤ off ≤ MAX_POINTER_OFFSET → off < len out → name_at out (Z.to_nat off) ls h e →
  name_at (out ++ be16 (Z.lor off 0xc000)) (length out) ls (S h) (length out + 2).
Proof.
  unfold MAX_POINTER_OFFSET. intros Hoff Hlt Hn.
  rewrite (lor_disjoint off 14) by (done || lia).
  destruct (be16_bytes (off + 0xc000)) as (-> & H1 & H2).
  { unfold u16_range. change u16_max with 65535. lia. }
  revert H1 H2. generalize (byte_of ((off + 0xc000) / 256)) as b.
  generalize (byte_of ((off + 0xc000) mod 256)) as c. intros c b H1 H2.
  assert (Z.to_nat ((u8 b - 192) * 256 + u8 c) = Z.to_nat off) as Ht.
  { rewrite H1, H2. pose proof (Z.div_mod (off + 0xc000) 256). f_equal. lia. }
  eapply at_pointer with (b := b) (second := c).
  - by rewrite lookup_app_r, Nat.sub_diag by lia.
  - rewrite lookup_app_r by lia. by replace (length out + 1 - length out)%nat with 1%nat by lia.
  - rewrite H1. apply Z.div_le_lower_bound; lia.
  - rewrite Ht. unfold len in Hlt. lia.
  - rewrite Ht. by apply name_at_app.
Qed.

Lemma name_at_label out l rest ls h e :
  label_ok l → name_at (out ++ byte_of (len l) :: l ++ rest) (length out + 1 + length l) ls h e →
  name_at (out ++ byte_of (len l) :: l ++ rest) (length out) (l :: ls) h e.
Proof.
  intros Hl Hn. eapply at_label; [|apply u8_byte_of; unfold label_ok, MAX_LABEL_BYTES in Hl; lia|done| |done].
  - by rewrite lookup_app_r, Nat.sub_diag by lia.
  - pose proof (slice_mid (out ++ [byte_of (len l)]) l rest) as H.
    rewrite <- app_assoc, length_app in H. exact H.
Qed.

(** Entries for keys longer than the suffix being written are never consulted, so
    the invariant may exclude the ones the current name has just added. *)
Lemma encode_labels_sound ls out offs out' offs' :
  Forall label_ok ls → Forall dot_free ls →
  (∀ key off, offs !! key = Some off → (length key ≤ length (suffix_key ls))%nat →
              key_sound out key off) →
  encode_labels out ls offs = (out', offs') →
  ∃ ext ls' h, out' = out ++ ext ∧ lower <$> ls' = lower <$> ls ∧
    name_at out' (length out) ls' h (length out') ∧ (h ≤ length ls)%nat ∧
    ∀ key off, offs' !! key = Some off → offs !! key = Some off ∨ key_sound out' key off.
Proof.
  revert out offs. induction ls as [|l ls IH]; intros out offs Hok Hd Hs.
  { intros [= <- <-]. exists [x00], [], 0%nat. rewrite length_app.
    split_and!; [done|done| |done|by left].
    constructor. by rewrite lookup_app_r, Nat.sub_diag by lia. }
  apply Forall_cons in Hok as [Hl Hok]. pose proof Hd as [Hdl Hds]%Forall_cons.
  cbn [encode_labels]. destruct (offs !! suffix_key (l :: ls)) as [off|] eqn:Elook.
  { intros [= <- <-]. destruct (Hs _ _ Elook) as (ks & ks' & h & e & Hk & Hkd & Hlow & Hn & Hh & Ho & Hlt);
      [done|]. apply suffix_key_inj in Hk; [|done..].
    eexists _, ks', (S h). split_and!; [done|by rewrite Hlow, Hk| | |by left].
    - rewrite length_app. by eapply name_at_pointer.
    - apply (f_equal length) in Hk. rewrite !length_fmap in Hk. lia. }
  set (offs1 := if _ : bool then _ else _). rewrite Z.min_l
    by (unfold label_ok, MAX_LABEL_BYTES in Hl; change u8_max with 255; lia).
  intros (ext & ls' & h & -> & Hlow & Hn & Hh & Hnew)%IH; [|done|done|].
  2:{ intros key off Hkey Hlen. apply key_sound_app, Hs.
      - unfold offs1 in Hkey. destruct (_ <=? _); [|done].
        apply lookup_insert_Some in Hkey as [[<- _]|[_ ?]]; [|done].
        pose proof (suffix_key_length l ls). lia.
      - pose proof (suffix_key_length l ls). lia. }
  rewrite <- app_assoc in *. cbn [app] in *. rewrite length_app in Hn. cbn [length] in Hn.
  replace (length out + S (length l))%nat with (length out + 1 + length l)%nat in Hn by lia.
  apply name_at_label in Hn; [|done].
  eexists _, (l :: ls'), h. split_and!; [done| |done|cbn; lia|].
  { change (lower l :: (lower <$> ls') = lower l :: (lower <$> ls)). by rewrite Hlow. }
  intros key off [Hkey|Hkey]%Hnew; [|by right]. unfold offs1 in Hkey.
  destruct (len out <=? MAX_POINTER_OFFSET) eqn:Emax; [|by left]. boolify.
  apply lookup_insert_Some in Hkey as [[<- <-]|[_ ?]]; [right|by left].
  unfold MAX_POINTER_OFFSET in Emax. rewrite Z.min_l by (change u16_max with 65535; lia).
  exists (l :: ls), (l :: ls'), h, (length (out ++ byte_of (len l) :: l ++ ext)).
  pose proof (len_nonneg out). rewrite len_app, len_cons. pose proof (len_nonneg (l ++ ext)).
  split_and!; [done|done| | |cbn; lia|lia|done|lia].
  - change (lower l :: (lower <$> ls') = lower l :: (lower <$> ls)). by rewrite Hlow.
  - unfold len at 2. by rewrite Nat2Z.id.
Qed.

(** ** Names *)

Definition name_dot_free (n : Name) : Prop := Forall dot_free (labels n).

(** The most work reading a name can cost, however it is compressed. *)
Definition name_max_work (n : Name) : Z := name_work (labels n) (length (labels n)).

Lemma lower_sizes ls ls' :
  lower <$> ls' = lower <$> ls →
  length ls' = length ls ∧ labels_len ls' = labels_len ls ∧ labels_work ls' = labels_work ls.
Proof.
  revert ls'. induction ls as [|l ls IH]; intros [|l' ls'] H; try done.
  injection H as Hl H. destruct (IH _ H) as (H1 & H2 & H3). apply (f_equal length) in Hl.
  unfold lower in Hl. rewrite !length_fmap in Hl. cbn.
  fold (labels_len ls) (labels_len ls') (labels_work ls) (labels_work ls').
  unfold len. rewrite H1, H2, H3, Hl. done.
Qed.

Lemma name_at_inside bs p ls h e : name_at bs p ls h e → (p < length bs)%nat.
Proof. by destruct 1; eapply lookup_lt_Some. Qed.

Lemma encode_name_decodes n out offs out' offs' :
  name_ok n → name_dot_free n → offsets_sound out offs →
  encode_name out n offs = (out', offs') →
  ∃ ext n' wk, out' = out ++ ext ∧ ext ≠ [] ∧ n' ≡ n ∧ 1 ≤ wk ≤ name_max_work n ∧
    offsets_sound out' offs' ∧
    ∀ more w, decode_name (out' ++ more) (length out) w = charge w wk (λ w, (n', length out', w)).
Proof.
  intros [Hok Hlen] Hd Hs He. unfold encode_name in He.
  apply encode_labels_sound in He as (ext & ls' & h & -> & Hlow & Hn & Hh & Hnew); [|done|done|].
  2:{ intros key off Hk _. by apply Hs. }
  destruct (lower_sizes _ _ Hlow) as (H1 & H2 & H3).
  exists ext, (mkName ls'), (name_work ls' h).
  split_and!; [done| |done|apply name_work_pos| | |].
  - intros ->. apply name_at_inside in Hn. rewrite app_nil_r in Hn. lia.
  - unfold name_max_work, name_work. rewrite H3. lia.
  - intros key off [Hk|Hk]%Hnew; [|done]. by apply key_sound_app, Hs.
  - intros more w. apply decode_name_charge.
    + by apply name_at_app.
    + pose proof (labels_len_count _ Hok). unfold encoded_len, MAX_NAME_BYTES in Hlen.
      unfold MAX_COMPRESSION_POINTER_HOPS. lia.
    + unfold encoded_len in *. cbn [labels]. lia.
Qed.

(** ** Records *)

Lemma charge_bind {R S} w a b (k : DecodeWork → R) (f : R → result DnsSdError S) k' :
  0 ≤ a → 0 ≤ b →
  (∀ r, 0 ≤ r → f (k (mkWork (limit w) r)) = charge (mkWork (limit w) r) b k') →
  charge w a k ≫= f = charge w (a + b) k'.
Proof.
  intros Ha Hb Hf. unfold charge at 1. destruct (a <=? remaining w) eqn:E; boolify; cbn.
  - rewrite Hf by lia. unfold charge. cbn [remaining limit].
    destruct (b <=? remaining w - a) eqn:E'; boolify.
    + replace (a + b <=? remaining w) with true by lia. do 3 f_equal. lia.
    + by replace (a + b <=? remaining w) with false by lia.
  - unfold charge. by replace (a + b <=? remaining w) with false by lia.
Qed.

Lemma charge_0 {R} w (k : DecodeWork → R) : 0 ≤ remaining w → charge w 0 k = Ok (k w).
Proof.
  intros Hw. unfold charge. replace (0 <=? remaining w) with true by lia.
  rewrite Z.sub_0_r. by destruct w.
Qed.

Lemma charge_bind_ret {R S} w a (k : DecodeWork → R) (f : R → result DnsSdError S) k' :
  0 ≤ a → (∀ w, f (k w) = Ok (k' w)) → charge w a k ≫= f = charge w a k'.
Proof.
  intros Ha Hf. unfold charge. destruct (a <=? remaining w); [|done]. apply Hf.
Qed.

(** Derived [PartialEq]: structural, with name equality at the names. *)
#[export] Instance RecordData_equiv : Equiv RecordData := λ d d',
  match d, d' with
  | Ptr t, Ptr t' => t ≡ t'
  | Srv p w o t, Srv p' w' o' t' => p = p' ∧ w = w' ∧ o = o' ∧ t ≡ t'
  | _, _ => d = d'
  end.

#[export] Instance RecordData_refl : Reflexive (≡@{RecordData}).
Proof. by intros []. Qed.

#[export] Instance ResourceRecord_equiv : Equiv ResourceRecord := λ r r',
  name r ≡ name r' ∧ class r = class r' ∧ cache_flush r = cache_flush r' ∧
  ttl r = ttl r' ∧ data r ≡ data r'.

#[export] Instance Question_equiv : Equiv Question := λ q q',
  q_name q ≡ q_name q' ∧ query_type q = query_type q' ∧ query_class q = query_class q' ∧
  unicast_response q = unicast_response q'.

#[export] Instance Message_equiv : Equiv Message := λ m m',
  id m = id m' ∧ flags m = flags m' ∧ Forall2 (≡) (questions m) (questions m') ∧
  Forall2 (≡) (answers m) (answers m') ∧ Forall2 (≡) (authorities m) (authorities m') ∧
  Forall2 (≡) (additionals m) (additionals m').

Definition names_work (ns : list Name) : Z := foldr (λ n acc, name_max_work n + acc) 0 ns.

Lemma names_work_app ns ms : names_work (ns ++ ms) = names_work ns + names_work ms.
Proof. induction ns as [|n ns IH]; cbn; [done|]. fold (names_work ns) (names_work (ns ++ ms)). lia. Qed.

Lemma names_work_nonneg ns : 0 ≤ names_work ns.
Proof.
  induction ns as [|n ns IH]; cbn; [done|]. fold (names_work ns).
  pose proof (name_work_pos (labels n) (length (labels n))). unfold name_max_work. lia.
Qed.

(** What a step of the encoder appends, at least [k] bytes of it, and how the
    decoder reads it back: as a value related to [x] by [R], charging at most the
    work of the names [ns]. *)
Definition decodes {X} (R : relation X) (out out' : bytes) (offs' : Offsets) (x : X) (k : Z)
    (ns : list Name)
    (dec : bytes → nat → DecodeWork → result DnsSdError (X * nat * DecodeWork)) : Prop :=
  ∃ ext x' wk, out' = out ++ ext ∧ R x' x ∧ 0 ≤ wk ≤ names_work ns ∧ k ≤ len ext ∧
    offsets_sound out' offs' ∧
    ∀ more w, 0 ≤ remaining w →
      dec (out' ++ more) (length out) w = charge w wk (λ w, (x', length out', w)).

Lemma decode_srv p wt po rest bs start w wk n' :
  u16_range p → u16_range wt → u16_range po → rest ≠ [] → 0 ≤ wk →
  (∀ r, decode_name bs (start + 6) (mkWork (limit w) r) =
        charge (mkWork (limit w) r) wk (λ w, (n', (start + 6 + length rest)%nat, w))) →
  decode_rdata bs TYPE_SRV (be16 p ++ be16 wt ++ be16 po ++ rest) start w =
  charge w wk (λ w, (Srv p wt po n', w)).
Proof.
  intros Hp Hwt Hpo Hne Hwk Hdec.
  destruct (be16_from p Hp) as (p1 & p2 & -> & <-).
  destruct (be16_from wt Hwt) as (w1 & w2 & -> & <-).
  destruct (be16_from po Hpo) as (o1 & o2 & -> & <-).
  destruct rest as [|b rest]; [done|]. destruct w as [lim rem]. cbn in *. rewrite Hdec.
  apply charge_bind_ret; [lia|]. intros w. by rewrite bool_decide_eq_false_2 by lia.
Qed.

Lemma encode_rdata_decodes d out offs out' offs' :
  data_ok d → Forall name_dot_free (data_names d) → offsets_sound out offs →
  encode_rdata out d offs = (out', offs') →
  ∃ rd d' wk, out' = out ++ rd ∧ d' ≡ d ∧ 0 ≤ wk ≤ names_work (data_names d) ∧
    offsets_sound out' offs' ∧
    ∀ more w, 0 ≤ remaining w →
      decode_rdata (out' ++ more) (data_type d) rd (length out) w = charge w wk (λ w, (d', w)).
Proof.
  intros Hok Hd Hs. destruct d as [o|o|t|p wt po t|t|ty rd]; cbn [encode_rdata data_names] in *.
  1,2,6: intros [= <- <-]; eexists _, _, 0; split_and!;
    [done|reflexivity|done|done|by apply offsets_sound_app|]; intros more w Hw; rewrite charge_0 by done.
  - cbn in *. by rewrite bool_decide_eq_true_2.
  - cbn in *. by rewrite bool_decide_eq_true_2.
  - destruct Hok as [_ Hk]. unfold known_type in Hk. repeat apply orb_false_iff in Hk as [Hk ?].
    unfold decode_rdata. cbn [data_type]. by destruct (ty =? TYPE_A), (ty =? TYPE_AAAA), (ty =? TYPE_PTR), (ty =? TYPE_SRV), (ty =? TYPE_TXT).
  - apply Forall_cons in Hd as [Hd _].
    intros (ext & n' & wk & -> & _ & Hn & Hwk & Hs' & Hdec)%encode_name_decodes; [|done..].
    exists ext, (Ptr n'), wk. split_and!; [done|done|lia|cbn; lia|done|].
    intros more w Hw. cbn. rewrite Hdec. apply charge_bind_ret; [lia|]. intros w'.
    by rewrite length_app, bool_decide_eq_false_2 by tauto.
  - apply Forall_cons in Hd as [Hd _]. destruct Hok as (Hp & Hwt & Hpo & Hok).
    destruct (encode_name _ t ∅) as [o1 f1] eqn:E. intros [= <- <-].
    apply encode_name_decodes in E as (ext & n' & wk & -> & Hne & Hn & Hwk & _ & Hdec); [|done|done|done].
    rewrite <- !app_assoc in *.
    eexists _, (Srv p wt po n'), wk. split_and!; [reflexivity|done|lia|cbn; lia|by apply offsets_sound_app|].
    intros more w Hw. apply decode_srv; [done..|lia|]. intros r.
    specialize (Hdec more (mkWork (limit w) r)). rewrite !length_app, <- !app_assoc in *.
    cbn [length be16] in *. replace (length out + 6)%nat with (length out + (2 + (2 + 2)))%nat by lia.
    rewrite Hdec. by replace (length out + _)%nat with (length out + (2 + (2 + 2)) + length ext)%nat by lia.
  - destruct Hok as [Htx Hne]. intros [= <- <-]. exists (Txt.encode t), (Txt t), 0.
    split_and!; [done|done|done|done|by apply offsets_sound_app|].
    intros more w Hw. rewrite charge_0 by done. cbn. by rewrite Txt.decode_encode.
Qed.

(** What the encoder appends depends on the buffer only through its length, so the
    placeholder for the rdata length can be replaced afterwards. *)
Lemma encode_labels_shift ls offs n :
  ∃ ext offs', ∀ out, length out = n → encode_labels out ls offs = (out ++ ext, offs').
Proof.
  revert offs n. induction ls as [|l ls IH]; intros offs n.
  { by exists [x00], offs. }
  cbn [encode_labels]. destruct (offs !! suffix_key (l :: ls)) as [off|]; [by eexists _, _|].
  set (offs1 := if Z.of_nat n <=? MAX_POINTER_OFFSET
                then <[suffix_key (l :: ls) := Z.min (Z.of_nat n) u16_max]> offs else offs).
  destruct (IH offs1 (n + S (length l))%nat) as (ext & offs' & H).
  exists (byte_of (Z.min (len l) u8_max) :: l ++ ext), offs'. intros out Hout.
  unfold len at 1 2 3. rewrite Hout. fold offs1. rewrite H by (rewrite length_app; cbn; lia).
  by rewrite <- app_assoc.
Qed.

Lemma encode_rdata_shift d offs n :
  ∃ ext offs', ∀ out, length out = n → encode_rdata out d offs = (out ++ ext, offs').
Proof.
  destruct d as [o|o|t|p wt po t|t|ty rd]; cbn [encode_rdata]; try by eexists _, _.
  - apply encode_labels_shift.
  - destruct (encode_labels_shift (labels t) ∅ (n + 6)) as (ext & offs' & H).
    exists (be16 p ++ be16 wt ++ be16 po ++ ext), offs. intros out Hout.
    unfold encode_name. rewrite H by (rewrite !length_app; cbn; lia). cbn [fst].
    by rewrite <- !app_assoc.
Qed.

Lemma copy_into_app (pre bs new post : bytes) :
  length new = length bs → copy_into (pre ++ bs ++ post) (length pre) new = pre ++ new ++ post.
Proof.
  intros H. unfold copy_into. rewrite take_app_length, H.
  rewrite <- length_app, (app_assoc pre bs post). by rewrite drop_app_length.
Qed.

(** The fixed fields of a record, before its rdata. *)
Definition record_fields (r : ResourceRecord) (rdata_len : Z) : bytes :=
  be16 (record_type r)
  ++ be16 (Z.lor (class r) (if cache_flush r then CACHE_FLUSH else 0))
  ++ be32 (ttl r) ++ be16 rdata_len.

Lemma encode_record_layout out r offs out' offs' :
  encode_record out r offs = Ok (out', offs') →
  ∃ o1 f1 rd, encode_name out (name r) offs = (o1, f1) ∧ len rd ≤ u16_max ∧
    out' = (o1 ++ record_fields r (len rd)) ++ rd ∧
    encode_rdata (o1 ++ record_fields r (len rd)) (data r) f1 = (out', offs').
Proof.
  unfold encode_record. destruct (encode_name out (name r) offs) as [o1 f1].
  set (pre := ((o1 ++ _) ++ _) ++ _).
  destruct (encode_rdata_shift (data r) f1 (length pre + 2)) as (rd & f2 & H).
  rewrite H by (rewrite length_app; done). rewrite !len_app.
  replace (len pre + _ + len rd - _ - 2) with (len rd) by (unfold len; cbn; lia).
  destruct (len rd <=? u16_max) eqn:E; [|done]. boolify. intros [= <- <-].
  exists o1, f1, rd. rewrite <- app_assoc, copy_into_app by done.
  assert (o1 ++ record_fields r (len rd) = pre ++ be16 (len rd)) as ->.
  { unfold pre, record_fields. by rewrite <- !app_assoc. }
  split_and!; [done|done|by rewrite <- app_assoc|].
  rewrite H by (rewrite length_app; done). by rewrite <- app_assoc.
Qed.

Lemma read_u16_at bs c pre z post :
  bs = pre ++ be16 z ++ post → c = length pre → u16_range z →
  read_u16 bs c = Ok (z, (c + 2)%nat).
Proof. intros -> -> Hz. by apply read_u16_be16. Qed.

Lemma read_u32_at bs c pre z post :
  bs = pre ++ be32 z ++ post → c = length pre → 0 ≤ z ≤ u32_max →
  read_u32 bs c = Ok (z, (c + 4)%nat).
Proof. intros -> -> Hz. by apply read_u32_be32. Qed.

Ltac solve_pre :=
  rewrite ?length_app, <- ?app_assoc; cbn [length be16 be32 app]; (reflexivity || lia).

Lemma data_type_range d : data_ok d → u16_range (data_type d).
Proof. by destruct d as [| | | | |t rd]; [..|intros [? _]]. Qed.

Lemma decode_record_fields r rd o1 w bs more n' d' wk1 wk2 c :
  record_ok r → len rd ≤ u16_max → 0 ≤ wk1 → 0 ≤ wk2 →
  bs = (o1 ++ record_fields r (len rd)) ++ rd ++ more →
  decode_name bs c w = charge w wk1 (λ w, (n', length o1, w)) →
  (∀ w, 0 ≤ remaining w →
     decode_rdata bs (record_type r) rd (length (o1 ++ record_fields r (len rd))) w =
     charge w wk2 (λ w, (d', w))) →
  decode_record bs c w =
  charge w (wk1 + wk2) (λ w, (mkRecord n' (class r) (cache_flush r) (ttl r) d',
                              length ((o1 ++ record_fields r (len rd)) ++ rd), w)).
Proof.
  intros (Hn & Hc & Ht & Hd) Hrd H1 H2 Hbs Hname Hdata. unfold decode_record. rewrite Hname.
  apply charge_bind; [done..|]. intros rem Hrem.
  destruct (class_flag (class r) (cache_flush r) Hc) as (Hr & Hland & Hflag).
  change 0x8000 with CACHE_FLUSH in *.
  assert (length (o1 ++ record_fields r (len rd)) = length o1 + 2 + 2 + 4 + 2)%nat as Hpos
    by (rewrite length_app; unfold record_fields; cbn; lia).
  assert (slice bs (length o1 + 2 + 2 + 4 + 2) (length rd) = rd) as Hslice
    by (rewrite <- Hpos, Hbs; apply slice_mid).
  assert (length o1 + 2 + 2 + 4 + 2 + length rd ≤ length bs)%nat as Hfit
    by (rewrite Hbs, !length_app in *; lia).
  rewrite length_app, Hpos. unfold record_fields in Hbs. rewrite <- !app_assoc in Hbs.
  set (raw := Z.lor _ _) in *.
  erewrite (read_u16_at _ _ o1); [|exact Hbs|done|by apply data_type_range]. cbn [mbind result_bind].
  erewrite (read_u16_at _ _ (o1 ++ be16 (record_type r))); [|rewrite Hbs; solve_pre|solve_pre|done].
  cbn [mbind result_bind].
  erewrite (read_u32_at _ _ (o1 ++ be16 (record_type r) ++ be16 raw)); [|rewrite Hbs; solve_pre|solve_pre|done].
  cbn [mbind result_bind].
  erewrite (read_u16_at _ _ (o1 ++ be16 (record_type r) ++ be16 raw ++ be32 (ttl r)) (len rd));
    [|rewrite Hbs; solve_pre|solve_pre|split; [apply len_nonneg|done]].
  cbn [mbind result_bind]. replace (Z.to_nat (len rd)) with (length rd) by (unfold len; lia).
  rewrite bool_decide_eq_false_2 by lia. rewrite Hslice, <- Hpos, Hdata by done.
  apply charge_bind_ret; [done|]. intros w'. by rewrite Hland, Hflag.
Qed.

Lemma encode_record_decodes r out offs out' offs' :
  record_ok r → Forall name_dot_free (record_names r) → offsets_sound out offs →
  encode_record out r offs = Ok (out', offs') →
  decodes (≡) out out' offs' r MIN_RECORD_WIRE_BYTES (record_names r) decode_record.
Proof.
  intros Hok Hd Hs (o1 & f1 & rd & Hname & Hrd & Hout & Hdata)%encode_record_layout.
  pose proof Hok as (Hn & _ & _ & Hdok). apply Forall_cons in Hd as [Hnd Hdd].
  apply encode_name_decodes in Hname as (ext & n' & wk1 & -> & Hext & Hneq & Hwk1 & Hs1 & Hdec1); [|done..].
  apply encode_rdata_decodes in Hdata as (rd' & d' & wk2 & Hout' & Hdeq & Hwk2 & Hs2 & Hdec2);
    [|done|done|by apply offsets_sound_app].
  rewrite Hout in Hout'. apply (inj (app _)) in Hout'. subst rd'.
  exists (ext ++ record_fields r (len rd) ++ rd), (mkRecord n' (class r) (cache_flush r) (ttl r) d'),
    (wk1 + wk2).
  split_and!; [by rewrite Hout, <- !app_assoc|done|lia| | |done|].
  { cbn. fold (names_work (data_names (data r))). lia. }
  { unfold MIN_RECORD_WIRE_BYTES, len, record_fields. rewrite !length_app. cbn [length be16 be32 app].
    destruct ext; [done|]. cbn [length]. lia. }
  intros more w Hw. subst out'.
  eapply decode_record_fields; [done|done|lia|lia|by rewrite <- !app_assoc| |].
  - specialize (Hdec1 ((record_fields r (len rd) ++ rd) ++ more) w). by rewrite <- !app_assoc in *.
  - intros w0 Hw0. by apply Hdec2.
Qed.

(** ** Sections *)

Lemma encode_question_decodes q out offs out' offs' :
  question_ok q → name_dot_free (q_name q) → offsets_sound out offs →
  encode_question out q offs = (out', offs') →
  decodes (≡) out out' offs' q MIN_QUESTION_WIRE_BYTES [q_name q] decode_question.
Proof.
  intros (Hn & Ht & Hc) Hd Hs. unfold encode_question.
  destruct (encode_name out (q_name q) offs) as [o1 f1] eqn:E. intros [= <- <-].
  apply encode_name_decodes in E as (ext & n' & wk & -> & Hext & Hneq & Hwk & Hs1 & Hdec); [|done..].
  destruct (class_flag (query_class q) (unicast_response q) Hc) as (Hr & Hland & Hflag).
  change 0x8000 with UNICAST_RESPONSE in *. set (raw := Z.lor _ _) in *.
  exists (ext ++ be16 (query_type q) ++ be16 raw),
    (mkQuestion n' (query_type q) (query_class q) (unicast_response q)), wk.
  split_and!; [by rewrite <- !app_assoc|done|lia|cbn; lia| |by apply offsets_sound_app|].
  { unfold MIN_QUESTION_WIRE_BYTES, len. rewrite !length_app. cbn [length be16].
    destruct ext; [done|]. cbn [length]. lia. }
  intros more w Hw. unfold decode_question. rewrite <- app_assoc. rewrite Hdec.
  apply charge_bind_ret; [lia|]. intros w'.
  erewrite (read_u16_at _ _ (out ++ ext)); [|solve_pre|done|done]. cbn [mbind result_bind].
  erewrite (read_u16_at _ _ ((out ++ ext) ++ be16 (query_type q))); [|solve_pre|solve_pre|done].
  cbn [mbind result_bind]. rewrite Hland, Hflag. do 3 f_equal. solve_pre.
Qed.

(** Reading two pieces one after the other. *)
Lemma decodes_cons {X} (R : relation X) out o1 o2 f1 f2 x xs k kn ns ms dec decs
    (dec_cons : bytes → nat → DecodeWork → result DnsSdError (list X * nat * DecodeWork)) :
  decodes R out o1 f1 x k ns dec → decodes (Forall2 R) o1 o2 f2 xs kn ms decs →
  (∀ bs c w, dec_cons bs c w =
     '(y, c, w) ← dec bs c w; '(ys, c, w) ← decs bs c w; Ok (y :: ys, c, w)) →
  decodes (Forall2 R) out o2 f2 (x :: xs) (k + kn) (ns ++ ms) dec_cons.
Proof.
  intros (e1 & x' & w1 & -> & Hx & Hw1 & Hk1 & Hs1 & H1) (e2 & xs' & w2 & -> & Hxs & Hw2 & Hk2 & Hs2 & H2) Hc.
  exists (e1 ++ e2), (x' :: xs'), (w1 + w2). rewrite names_work_app, len_app.
  split_and!; [by rewrite app_assoc|by constructor|lia|lia|lia|done|].
  intros more w Hw. rewrite Hc, <- (app_assoc _ e2 more), H1 by done.
  apply charge_bind; [lia..|]. intros r Hr. rewrite (app_assoc _ e2 more), H2 by done.
  by apply charge_bind_ret; [lia|].
Qed.

Lemma decodes_nil {X} (R : relation X) out offs :
  offsets_sound out offs →
  decodes (Forall2 R) out out offs [] 0 [] (λ bs c w, Ok ([], c, w)).
Proof.
  intros Hs. exists [], [], 0. rewrite app_nil_r. split_and!; [done|constructor|done..|].
  intros more w Hw. by rewrite charge_0.
Qed.

Lemma encode_questions_decodes qs out offs out' offs' :
  Forall question_ok qs → Forall name_dot_free (q_name <$> qs) → offsets_sound out offs →
  len out ≤ MAX_MESSAGE_BYTES → encode_questions out qs offs = Ok (out', offs') →
  len out' ≤ MAX_MESSAGE_BYTES ∧
  decodes (Forall2 (≡)) out out' offs' qs (MIN_QUESTION_WIRE_BYTES * len qs) (q_name <$> qs)
    (λ bs c w, decode_questions bs c (length qs) w).
Proof.
  intros Hok. revert out offs. induction Hok as [|q qs Hq Hok IH]; intros out offs Hd Hs Hlen.
  { intros [= <- <-]. split; [done|]. by apply decodes_nil. }
  apply Forall_cons in Hd as [Hdq Hd]. cbn [encode_questions].
  destruct (encode_question out q offs) as [o1 f1] eqn:E.
  intros (u & Hsz & H)%bind_Ok. unfold ensure_message_size in Hsz.
  destruct (_ <? len o1) eqn:Esz; [done|]. boolify.
  apply encode_question_decodes in E; [|done..].
  pose proof E as (_ & _ & _ & _ & _ & _ & _ & Hs1 & _).
  apply IH in H as [Hlen' H]; [|done..]. split; [done|]. rewrite len_cons.
  replace (MIN_QUESTION_WIRE_BYTES * (1 + len qs))
    with (MIN_QUESTION_WIRE_BYTES + MIN_QUESTION_WIRE_BYTES * len qs) by lia.
  by eapply (decodes_cons _ _ _ _ _ _ _ _ _ _ [q_name q]).
Qed.

Lemma encode_records_decodes rs out offs out' offs' :
  Forall record_ok rs → Forall name_dot_free (concat (record_names <$> rs)) →
  offsets_sound out offs →
  len out ≤ MAX_MESSAGE_BYTES → encode_records out rs offs = Ok (out', offs') →
  len out' ≤ MAX_MESSAGE_BYTES ∧
  decodes (Forall2 (≡)) out out' offs' rs (MIN_RECORD_WIRE_BYTES * len rs)
    (concat (record_names <$> rs)) (λ bs c w, decode_records bs c (length rs) w).
Proof.
  intros Hok. revert out offs. induction Hok as [|r rs Hr Hok IH]; intros out offs Hd Hs Hlen.
  { intros [= <- <-]. split; [done|]. by apply decodes_nil. }
  change (concat (record_names <$> r :: rs)) with
    (record_names r ++ concat (record_names <$> rs)) in *.
  apply Forall_app in Hd as [Hdr Hd]. cbn [encode_records].
  intros ([o1 f1] & E & H)%bind_Ok. apply bind_Ok in H as (u & Hsz & H).
  unfold ensure_message_size in Hsz. destruct (_ <? len o1) eqn:Esz; [done|]. boolify.
  apply encode_record_decodes in E; [|done..].
  pose proof E as (_ & _ & _ & _ & _ & _ & _ & Hs1 & _).
  apply IH in H as [Hlen' H]; [|done..]. split; [done|]. rewrite len_cons.
  replace (MIN_RECORD_WIRE_BYTES * (1 + len rs))
    with (MIN_RECORD_WIRE_BYTES + MIN_RECORD_WIRE_BYTES * len rs) by lia.
  by eapply decodes_cons.
Qed.

Lemma encode_records_app a b out offs out' offs' :
  encode_records out (a ++ b) offs = Ok (out', offs') ↔
  ∃ o f, encode_records out a offs = Ok (o, f) ∧ encode_records o b f = Ok (out', offs').
Proof.
  revert out offs. induction a as [|r a IH]; intros out offs; cbn [encode_records app].
  - split; [by eexists _, _|]. by intros (? & ? & [= <- <-] & ?).
  - destruct (encode_record out r offs) as [[o1 f1]|]; [|by split; [|intros (? & ? & ? & ?)]].
    cbn. destruct (ensure_message_size (len o1)); [|by split; [|intros (? & ? & ? & ?)]]. apply IH.
Qed.

(** ** Messages *)

Definition header (m : Message) : bytes :=
  be16 (id m) ++ be16 (flags m) ++ be16 (len (questions m)) ++ be16 (len (answers m))
  ++ be16 (len (authorities m)) ++ be16 (len (additionals m)).

Lemma section_count_Ok n z : section_count n = Ok z ↔ z = Z.of_nat n ∧ u16_range z.
Proof.
  unfold section_count, u16_range. destruct (_ <=? _) eqn:E; boolify; split; try done.
  - intros [= <-]. lia.
  - by intros [-> _].
  - lia.
Qed.

Lemma encode_sections m bs :
  encode m = Ok bs →
  u16_range (len (questions m)) ∧ u16_range (len (answers m)) ∧
  u16_range (len (authorities m)) ∧ u16_range (len (additionals m)) ∧
  ∃ o1 f1 o2 f2 o3 f3 f4,
    encode_questions (header m) (questions m) ∅ = Ok (o1, f1) ∧
    encode_records o1 (answers m) f1 = Ok (o2, f2) ∧
    encode_records o2 (authorities m) f2 = Ok (o3, f3) ∧
    encode_records o3 (additionals m) f3 = Ok (bs, f4).
Proof.
  unfold encode. intros (qd & (-> & Hq)%section_count_Ok & H)%bind_Ok.
  apply bind_Ok in H as (an & (-> & Ha)%section_count_Ok & H).
  apply bind_Ok in H as (ns & (-> & Hn)%section_count_Ok & H).
  apply bind_Ok in H as (ar & (-> & Hr)%section_count_Ok & H).
  apply bind_Ok in H as ([o1 f1] & H1 & H). apply bind_Ok in H as ([o f4] & H2 & [= ->]).
  rewrite <- app_assoc in H1. change (encode_questions (header m) (questions m) ∅ = Ok (o1, f1)) in H1.
  apply encode_records_app in H2 as (o2 & f2 & H2 & H3).
  apply encode_records_app in H3 as (o3 & f3 & H3 & H4).
  do 4 (split; [done|]). by exists o1, f1, o2, f2, o3, f3, f4.
Qed.

(** [decode] past the header of [m]. *)
Lemma decode_header m rest :
  u16_range (id m) → u16_range (flags m) → u16_range (len (questions m)) →
  u16_range (len (answers m)) → u16_range (len (authorities m)) →
  u16_range (len (additionals m)) → len (header m ++ rest) ≤ MAX_MESSAGE_BYTES →
  MIN_QUESTION_WIRE_BYTES * len (questions m) + MIN_RECORD_WIRE_BYTES * len (records m)
    ≤ len rest →
  decode (header m ++ rest) =
    ('(questions, cursor, w) ← decode_questions (header m ++ rest) (length (header m))
        (length (questions m)) (work_new (len (header m ++ rest)));
     '(answers, cursor, w) ← decode_records (header m ++ rest) cursor (length (answers m)) w;
     '(authorities, cursor, w) ← decode_records (header m ++ rest) cursor (length (authorities m)) w;
     '(additionals, cursor, w) ← decode_records (header m ++ rest) cursor (length (additionals m)) w;
     if bool_decide (cursor ≠ length (header m ++ rest)) then Err TrailingBytes
     else Ok (mkMessage (id m) (flags m) questions answers authorities additionals)).
Proof.
  intros Hid Hfl Hq Ha Hn Hr Hsz Hmin. unfold decode.
  unfold ensure_message_size at 1. replace (MAX_MESSAGE_BYTES <? _) with false by lia.
  cbn [mbind result_bind].
  assert (len (header m ++ rest) - 12 = len rest) as Hrest
    by (rewrite len_app; unfold header, len; rewrite !length_app; cbn; lia).
  unfold records in Hmin. rewrite !len_app in Hmin.
  rewrite <- (Nat2Z.id (length (questions m))), <- (Nat2Z.id (length (answers m))).
  rewrite <- (Nat2Z.id (length (authorities m))), <- (Nat2Z.id (length (additionals m))).
  fold (len (questions m)) (len (answers m)) (len (authorities m)) (len (additionals m)).
  revert Hrest. unfold header.
  destruct (be16_from _ Hid) as (a1 & a2 & -> & Eid). destruct (be16_from _ Hfl) as (b1 & b2 & -> & Efl).
  destruct (be16_from _ Hq) as (c1 & c2 & -> & Eq). destruct (be16_from _ Ha) as (d1 & d2 & -> & Ea).
  destruct (be16_from _ Hn) as (e1 & e2 & -> & En). destruct (be16_from _ Hr) as (g1 & g2 & -> & Er).
  cbn [app length]. intros Hrest. rewrite Eid, Efl, Eq, Ea, En, Er, Hrest.
  rewrite validate_declared_counts_eq by done.
  replace (len rest <? _) with false by lia. done.
Qed.

Definition message_dot_free (m : Message) : Prop := Forall name_dot_free (message_names m).

Lemma encode_decode m bs :
  message_ok m → message_dot_free m → encode m = Ok bs →
  len bs ≤ MAX_MESSAGE_BYTES ∧
  ∃ m' wk, m' ≡ m ∧ 0 ≤ wk ≤ names_work (message_names m) ∧
    decode bs = if wk <=? DECODE_WORK_PER_MESSAGE_BYTE * len bs then Ok m'
                else Err (DecodeWorkLimit (DECODE_WORK_PER_MESSAGE_BYTE * len bs)).
Proof.
  intros (Hid & Hfl & Hqok & Hrok) Hd (Hq & Ha & Hn & Hr & o1 & f1 & o2 & f2 & o3 & f3 & f4 & H1 & H2 & H3 & H4)%encode_sections.
  unfold message_dot_free, message_names, records in *.
  rewrite !fmap_app, !concat_app, !Forall_app in Hd. destruct Hd as (Hdq & Hda & Hdn & Hdr).
  rewrite !Forall_app in Hrok. destruct Hrok as (Haok & Hnok & Hrok).
  apply encode_questions_decodes in H1 as [Hl1 (e1 & qs & w1 & -> & Hqs & Hw1 & Hk1 & Hs1 & D1)]; [|done|done|done|by vm_compute].
  apply encode_records_decodes in H2 as [Hl2 (e2 & an & w2 & -> & Han & Hw2 & Hk2 & Hs2 & D2)]; [|done..].
  apply encode_records_decodes in H3 as [Hl3 (e3 & ns & w3 & -> & Hns & Hw3 & Hk3 & Hs3 & D3)]; [|done..].
  apply encode_records_decodes in H4 as [Hl4 (e4 & ar & w4 & -> & Har & Hw4 & Hk4 & Hs4 & D4)]; [|done..].
  split; [exact Hl4|]. exists (mkMessage (id m) (flags m) qs an ns ar), (w1 + (w2 + (w3 + w4))).
  split; [done|]. split.
  { unfold message_names, records. rewrite !fmap_app, !concat_app, !names_work_app. lia. }
  set (bs := (((header m ++ e1) ++ e2) ++ e3) ++ e4) in *.
  assert (bs = header m ++ e1 ++ e2 ++ e3 ++ e4) as Hbs by (unfold bs; by rewrite <- !app_assoc).
  assert (work_new (len bs) = mkWork (DECODE_WORK_PER_MESSAGE_BYTE * len bs)
            (DECODE_WORK_PER_MESSAGE_BYTE * len bs)) as Hwork.
  { unfold work_new. rewrite Z.min_l, Z.mul_comm; [done|]. unfold MAX_MESSAGE_BYTES in Hl4.
    change usize_max with 18446744073709551615. unfold DECODE_WORK_PER_MESSAGE_BYTE. lia. }
  rewrite Hbs, decode_header, <- Hbs, Hwork; [|done..| |].
  2:{ by rewrite <- Hbs. }
  2:{ unfold records. rewrite !len_app. lia. }
  transitivity (charge (mkWork (DECODE_WORK_PER_MESSAGE_BYTE * len bs)
      (DECODE_WORK_PER_MESSAGE_BYTE * len bs)) (w1 + (w2 + (w3 + w4)))
      (λ _, mkMessage (id m) (flags m) qs an ns ar)); [|done].
  specialize (D1 (e2 ++ e3 ++ e4)). specialize (D2 (e3 ++ e4)). specialize (D3 e4).
  specialize (D4 []). rewrite app_nil_r in D4. fold bs in D3, D4.
  replace ((header m ++ e1) ++ _) with bs in D1 by (unfold bs; by rewrite <- !app_assoc).
  replace (((header m ++ e1) ++ e2) ++ _) with bs in D2 by (unfold bs; by rewrite <- !app_assoc).
  pose proof (len_nonneg bs). unfold DECODE_WORK_PER_MESSAGE_BYTE in *.
  rewrite D1 by (cbn [remaining]; lia). apply charge_bind; [lia..|]. intros r1 Hr1.
  rewrite D2 by done. apply charge_bind; [lia..|]. intros r2 Hr2.
  rewrite D3 by done. apply charge_bind; [lia..|]. intros r3 Hr3.
  rewrite D4 by done. apply charge_bind_ret; [lia|]. intros w.
  by rewrite bool_decide_eq_false_2 by tauto.
Qed.

(** C33. Message round trip. Take a message whose labels contain no dot and that is of
    the kind [decode] itself returns: numbers within their fields, names within their
    limits, classes without the top bit, addresses of their length, no record of type
    Other with a type that has a constructor of its own and no TXT record of a single
    empty string (Example not_carried_as_they_are: [encode] accepts these too, and
    they do not come back). Once encoded, compression included, it takes at most 65535
    bytes and decodes to an equal message, names compared as DNS names; the only
    alternative is that reading its names costs more than the decoder's budget of 16
    units per message byte, which is then the error. *)
Theorem message_roundtrip m bs :
  message_ok m → message_dot_free m → encode m = Ok bs →
  len bs ≤ MAX_MESSAGE_BYTES ∧
  ((∃ m', decode bs = Ok m' ∧ m' ≡ m) ∨
   (decode bs = Err (DecodeWorkLimit (DECODE_WORK_PER_MESSAGE_BYTE * len bs)) ∧
    DECODE_WORK_PER_MESSAGE_BYTE * len bs < names_work (message_names m))).
Proof.
  intros Hok Hd He. destruct (encode_decode m bs Hok Hd He) as (Hlen & m' & wk & Hm & Hwk & ->). split; [done|].
  destruct (wk <=? _) eqn:E; boolify; [left; by exists m'|right; split; [done|lia]].
Qed.

Definition round_trip_sample : Message :=
  mkMessage 0 (FLAG_RESPONSE + FLAG_AUTHORITATIVE)
    [mkQuestion (mkName [lit "_claw"; lit "_tcp"; lit "local"]) TYPE_PTR CLASS_IN true]
    [mkRecord (mkName [lit "_CLAW"; lit "_tcp"; lit "local"]) CLASS_IN false 4500
       (Ptr (mkName [lit "node"; lit "_claw"; lit "_tcp"; lit "local"]))]
    []
    [mkRecord (mkName [lit "node"; lit "_claw"; lit "_tcp"; lit "local"]) CLASS_IN true 120
       (Srv 0 0 18789 (mkName [lit "host"; lit "local"]));
     mkRecord (mkName [lit "host"; lit "local"]) CLASS_IN true 120 (A [x0a; x00; x00; x01])].

#[local] Instance dot_free_dec l : Decision (dot_free l).
Proof. unfold dot_free. apply _. Defined.

Lemma message_roundtrip_witness :
  match encode round_trip_sample with
  | Ok bs => ∃ m', decode bs = Ok m' ∧ m' ≡ round_trip_sample
  | Err _ => False
  end.
Proof.
  destruct (encode round_trip_sample) as [bs|e] eqn:E; [|vm_compute in E; discriminate E].
  destruct (message_roundtrip round_trip_sample bs) as [_ [H|[_ H]]]; [| |exact E|exact H|].
  - unfold message_ok, round_trip_sample. repeat constructor; vm_compute; congruence.
  - unfold message_dot_free, message_names, round_trip_sample, name_dot_free, dot_free. cbn.
    repeat constructor; apply (bool_decide_unpack _); vm_compute; exact I.
  - exfalso. vm_compute in E. injection E as <-. vm_compute in H. discriminate H.
Defined.

(** Messages that [encode] accepts and that come back as something else: a TXT record
    of one empty string, a record of type Other that says A, and a class with the top
    bit set. *)
Definition one_record (d : RecordData) (class : Z) : Message :=
  mkMessage 0 FLAG_RESPONSE [] [mkRecord (mkName [lit "local"]) class false 120 d] [] [].

Example not_carried_as_they_are :
  (bs ← encode (one_record (Txt (Txt.mkTxt [[]])) CLASS_IN); decode bs) = Ok (one_record (Txt (Txt.mkTxt [])) CLASS_IN) ∧
  is_ok (encode (one_record (Other TYPE_A [x00]) CLASS_IN)) = true ∧
  (bs ← encode (one_record (Other TYPE_A [x00]) CLASS_IN); decode bs) = Err (BadRdata TYPE_A) ∧
  (bs ← encode (one_record (A [x0a; x00; x00; x01]) 0x8001); decode bs) ≠ Ok (one_record (A [x0a; x00; x00; x01]) 0x8001).
Proof. vm_compute. split_and!; congruence. Qed.

(** A label with a dot in it, next to the name that splits there. *)
Definition dotted_name : Name := mkName [lit "a.b"; lit "local"].
Definition split_name : Name := mkName [lit "a"; lit "b"; lit "local"].

Definition pointing_message (n : Name) : Message :=
  mkMessage 0 FLAG_RESPONSE [] [mkRecord dotted_name CLASS_IN false 120 (Ptr n)] [] [].

(** Labels may contain dots, and then compression confuses names: the keys of
    the compression table join labels with unescaped dots, so after [a.b.local]
    (two labels) has been written, the three-label name [a], [b], [local] is
    written as a pointer to it and decodes as the two-label name. The encoded
    message is accepted, and is not the message that was sent. *)
Theorem compression_confuses_dotted_labels :
  name_eqb dotted_name split_name = false ∧
  suffix_key (labels dotted_name) = suffix_key (labels split_name) ∧
  message_ok (pointing_message split_name) ∧
  encode (pointing_message split_name) = encode (pointing_message dotted_name) ∧
  (bs ← encode (pointing_message split_name); decode bs) = Ok (pointing_message dotted_name).
Proof.
  split_and!; [vm_compute; reflexivity..| |vm_compute; reflexivity|vm_compute; reflexivity].
  unfold message_ok. repeat constructor; vm_compute; congruence.
Qed.

End Compression.
