(* ===== verification/DnsService.v ===== *)
(** * DNS-SD services

    [crates/claw-discovery/src/dnssd/service.rs]: announcing a service instance,
    resolving the instances a response carries, and naming conflicts. The
    theorems state the bailiwick rule of the resolver (every piece of a result
    comes from a live record inside the queried zone, owned by the name the
    previous hop pointed at), that an announcement resolves to the service it
    announces, and the contract of the conflict suffix. *)

From stdpp Require Import sorting.
From S2P Require Import Prelude Utf8 DnsName DnsTxt DnsMessage DnsCompression.
Import Dns Wire Compression.

Module Service.

Definition SHARED_RECORD_TTL : Z := 4500.
Definition UNIQUE_RECORD_TTL : Z := 120.

Inductive IpAddr := V4 (octets : bytes) | V6 (octets : bytes).

#[export] Instance IpAddr_eq_dec : EqDecision IpAddr.
Proof. solve_decision. Defined.

(** [instance] is the UTF-8 of the source's [String]. *)
Record ServiceAdvertisement := mkAdvertisement {
  instance : bytes;
  service_type : Name;
  host : Name;
  port : Z;
  priority : Z;
  weight : Z;
  txt : Txt.TxtRecord;
  addresses : list IpAddr;
}.

Definition instance_name (a : ServiceAdvertisement) : result DnsSdError Name :=
  prepend (service_type a) (instance a).

Definition address_data (address : IpAddr) : RecordData :=
  match address with V4 value => A value | V6 value => Aaaa value end.

Definition announcement_with_ttls (a : ServiceAdvertisement) (shared unique : Z)
    : result DnsSdError Message :=
  i ← instance_name a;
  let answers :=
    [mkRecord (service_type a) CLASS_IN false shared (Ptr i);
     mkRecord i CLASS_IN true unique (Srv (priority a) (weight a) (port a) (host a));
     mkRecord i CLASS_IN true unique (Txt (txt a))] in
  let answers :=
    answers ++ ((λ address, mkRecord (host a) CLASS_IN true unique (address_data address))
                <$> addresses a) in
  Ok (mkMessage 0 (Z.lor FLAG_RESPONSE FLAG_AUTHORITATIVE) [] answers [] []).

Definition announcement (a : ServiceAdvertisement) : result DnsSdError Message :=
  announcement_with_ttls a SHARED_RECORD_TTL UNIQUE_RECORD_TTL.

Definition goodbye (a : ServiceAdvertisement) : result DnsSdError Message :=
  announcement_with_ttls a 0 0.

Definition browse_query (service_type : Name) (unicast_response : bool) : Message :=
  mkMessage 0 0 [mkQuestion service_type TYPE_PTR CLASS_IN unicast_response] [] [] [].

Definition resolve_query (i : Name) : Message :=
  mkMessage 0 0 [mkQuestion i TYPE_ANY CLASS_IN false] [] [] [].

Record ResolvedService := mkResolved {
  r_instance : Name;
  r_instance_label : bytes;
  r_instance_label_is_lossy : bool;
  r_host : Name;
  r_port : Z;
  r_priority : Z;
  r_weight : Z;
  r_txt : Txt.TxtRecord;
  r_addresses : list IpAddr;
}.

(** The filter of [resolve_services]. *)
Definition is_usable (zone : Name) (record : ResourceRecord) : bool :=
  is_within (name record) zone && (0 <? ttl record).

(** The first loop: the instances the browse pointers name. *)
Fixpoint collect_instances (service_type : Name) (usable : list ResourceRecord)
    (instances : list Name) : result DnsSdError (list Name) :=
  match usable with
  | [] => Ok instances
  | record :: usable =>
      match data record with
      | Ptr target =>
          if negb (name_eqb (name record) service_type) then
            collect_instances service_type usable instances
          else if negb (is_within target service_type)
                  || bool_decide (label_count target ≠ label_count service_type + 1)%nat then
            Err (OutOfBailiwick (to_string target))
          else
            collect_instances service_type usable
              (if existsb (name_eqb target) instances then instances else instances ++ [target])
      | _ => collect_instances service_type usable instances
      end
  end.

(** The value of an SRV record: priority, weight, port and target. *)
Abbreviation SrvValue := (Z * Z * Z * Name)%type.

Definition srv_eqb (x y : SrvValue) : bool :=
  let '(p, w, o, t) := x in
  let '(p', w', o', t') := y in
  (p =? p') && (w =? w') && (o =? o') && name_eqb t t'.

(** The SRV and TXT records of one instance. *)
Fixpoint collect_service (i : Name) (usable : list ResourceRecord)
    (service : option SrvValue) (txt : option Txt.TxtRecord)
    : result DnsSdError (option SrvValue * option Txt.TxtRecord) :=
  match usable with
  | [] => Ok (service, txt)
  | record :: usable =>
      if negb (name_eqb (name record) i) then collect_service i usable service txt
      else
        match data record with
        | Srv priority weight port target =>
            let candidate := (priority, weight, port, target) in
            match service with
            | Some held =>
                if negb (srv_eqb held candidate) then
                  Err (ConflictingRecords (to_string i) TYPE_SRV)
                else collect_service i usable (Some candidate) txt
            | None => collect_service i usable (Some candidate) txt
            end
        | Txt value =>
            match txt with
            | Some held =>
                if bool_decide (held ≠ value) then
                  Err (ConflictingRecords (to_string i) TYPE_TXT)
                else collect_service i usable service (Some value)
            | None => collect_service i usable service (Some value)
            end
        | _ => collect_service i usable service txt
        end
  end.

(** The addresses of the SRV target; [seen] is the source's [BTreeSet]. *)
Fixpoint collect_addresses (host : Name) (usable : list ResourceRecord)
    (v4 v6 seen : list IpAddr) : list IpAddr * list IpAddr :=
  match usable with
  | [] => (v4, v6)
  | record :: usable =>
      if negb (name_eqb (name record) host) then collect_addresses host usable v4 v6 seen
      else
        match data record with
        | A octets =>
            let address := V4 octets in
            if bool_decide (address ∈ seen) then collect_addresses host usable v4 v6 seen
            else collect_addresses host usable (v4 ++ [address]) v6 (address :: seen)
        | Aaaa octets =>
            let address := V6 octets in
            if bool_decide (address ∈ seen) then collect_addresses host usable v4 v6 seen
            else collect_addresses host usable v4 (v6 ++ [address]) (address :: seen)
        | _ => collect_addresses host usable v4 v6 seen
        end
  end.

Definition instance_label (i : Name) : bytes * bool :=
  match labels i with
  | [] => ([], false)
  | label :: _ => if utf8_valid label then (label, false) else (from_utf8_lossy label, true)
  end.

(** The body of the second loop. *)
Definition resolve_instance (usable : list ResourceRecord) (zone i : Name)
    : result DnsSdError ResolvedService :=
  '(service, txt) ← collect_service i usable None None;
  '(priority, weight, port, host) ← ok_or (MissingRecord (to_string i) TYPE_SRV) service;
  txt ← ok_or (MissingRecord (to_string i) TYPE_TXT) txt;
  if negb (is_within host zone) then Err (OutOfBailiwick (to_string host))
  else
    let '(v4, v6) := collect_addresses host usable [] [] [] in
    if bool_decide (v4 = []) && bool_decide (v6 = []) then
      Err (MissingRecord (to_string host) TYPE_A)
    else
      let '(label, lossy) := instance_label i in
      Ok (mkResolved i label lossy host port priority weight txt (v4 ++ v6)).

Fixpoint resolve_instances (usable : list ResourceRecord) (zone : Name) (instances : list Name)
    : result DnsSdError (list ResolvedService) :=
  match instances with
  | [] => Ok []
  | i :: instances =>
      r ← resolve_instance usable zone i;
      rs ← resolve_instances usable zone instances;
      Ok (r :: rs)
  end.

(** [Ord for String] is lexicographic on bytes. *)
Fixpoint bytes_leb (a b : bytes) : bool :=
  match a, b with
  | [], _ => true
  | _ :: _, [] => false
  | x :: a, y :: b => (u8 x <? u8 y) || ((u8 x =? u8 y) && bytes_leb a b)
  end.

(** [sort_by_key], a stable sort. *)
Definition sort_key (r : ResolvedService) : bytes := to_string (r_instance r).

Fixpoint insert_sorted (r : ResolvedService) (rs : list ResolvedService) : list ResolvedService :=
  match rs with
  | [] => [r]
  | x :: rs' => if bytes_leb (sort_key r) (sort_key x) then r :: rs else x :: insert_sorted r rs'
  end.

Definition sort_services (rs : list ResolvedService) : list ResolvedService :=
  foldr insert_sorted [] rs.

Definition resolve_services (message : Message) (service_type zone : Name)
    : result DnsSdError (list ResolvedService) :=
  if negb (is_response message) then Err NotAResponse
  else if negb (is_within service_type zone) then Err (OutOfBailiwick (to_string service_type))
  else
    let usable := List.filter (is_usable zone) (records message) in
    instances ← collect_instances service_type usable [];
    resolved ← resolve_instances usable zone instances;
    Ok (sort_services resolved).

Definition addresses_for (message : Message) (host zone : Name) : list IpAddr :=
  if negb (is_within host zone) then []
  else
    concat ((λ record,
      if negb (name_eqb (name record) host) || (ttl record =? 0)
         || negb (is_within (name record) zone) then []
      else match data record with
           | A octets => [V4 octets]
           | Aaaa octets => [V6 octets]
           | _ => []
           end) <$> records message).

(** ** Naming conflicts *)

Definition str_eq_ignore_ascii_case (a b : bytes) : bool := labels_equal a b.

Definition is_free (taken : list bytes) (candidate : bytes) : bool :=
  negb (existsb (λ entry, str_eq_ignore_ascii_case entry candidate) taken).

(** [format!("{desired} ({index})")] *)
Definition suffixed (desired : bytes) (index : Z) : bytes :=
  desired ++ lit " (" ++ decimal index ++ lit ")".

(** [for index in start..=limit], [count] of them. *)
Fixpoint conflict_loop (desired : bytes) (taken : list bytes) (count : nat) (index : Z)
    : option bytes :=
  match count with
  | O => None
  | S count =>
      let candidate := suffixed desired index in
      if (len candidate <=? MAX_LABEL_BYTES) && is_free taken candidate then Some candidate
      else conflict_loop desired taken count (index + 1)
  end.

Definition resolve_instance_conflict (desired : bytes) (taken : list bytes) (limit : Z)
    : result DnsSdError bytes :=
  if (len desired <=? MAX_LABEL_BYTES) && is_free taken desired then Ok desired
  else ok_or (NoFreeInstanceName desired) (conflict_loop desired taken (Z.to_nat (limit - 1)) 2).

(** ** Where a resolved service comes from *)

(** A record of the message that is inside the zone and not expiring. *)
Definition live (m : Message) (zone : Name) (r : ResourceRecord) : Prop :=
  r ∈ records m ∧ is_within (name r) zone = true ∧ 0 < ttl r.

Record backed (m : Message) (st zone : Name) (s : ResolvedService) : Prop := {
  backed_instance : is_within (r_instance s) st = true ∧
                    label_count (r_instance s) = S (label_count st);
  backed_host : is_within (r_host s) zone = true;
  backed_ptr : ∃ r, live m zone r ∧ name r ≡ st ∧ data r = Ptr (r_instance s);
  backed_srv : ∃ r, live m zone r ∧ name r ≡ r_instance s ∧
                    data r = Srv (r_priority s) (r_weight s) (r_port s) (r_host s);
  backed_srv_unique : ∀ r p w o t, live m zone r → name r ≡ r_instance s →
    data r = Srv p w o t → p = r_priority s ∧ w = r_weight s ∧ o = r_port s ∧ t ≡ r_host s;
  backed_txt : ∃ r, live m zone r ∧ name r ≡ r_instance s ∧ data r = Txt (r_txt s);
  backed_txt_unique : ∀ r t, live m zone r → name r ≡ r_instance s →
    data r = Txt t → t = r_txt s;
  backed_addresses : ∀ a, a ∈ r_addresses s ↔
    ∃ r, live m zone r ∧ name r ≡ r_host s ∧ data r = address_data a;
  backed_reachable : r_addresses s ≠ [] ∧ NoDup (r_addresses s);
}.

Lemma live_usable m zone r :
  live m zone r ↔ r ∈ List.filter (is_usable zone) (records m).
Proof.
  unfold live, is_usable. by rewrite !list_elem_of_In, filter_In, andb_true_iff, Z.ltb_lt.
Qed.

(** Equal names have one canonical form. *)
Definition canonical (n : Name) : list bytes := lower <$> labels n.

(** The browse pointers of a record list. *)
Definition ptr_target (st : Name) (r : ResourceRecord) : option Name :=
  match data r with
  | Ptr target => if name_eqb (name r) st then Some target else None
  | _ => None
  end.

Lemma ptr_target_Some st (usable : list ResourceRecord) t :
  t ∈ omap (ptr_target st) usable ↔ ∃ r, r ∈ usable ∧ name r ≡ st ∧ data r = Ptr t.
Proof.
  rewrite list_elem_of_omap. unfold ptr_target. setoid_rewrite <- name_eqb_spec.
  apply exist_proper. intros r. destruct (data r); destruct (name_eqb (name r) st); naive_solver.
Qed.

Lemma existsb_name_eqb t ins : existsb (name_eqb t) ins = true ↔ ∃ i, i ∈ ins ∧ i ≡ t.
Proof.
  rewrite existsb_exists. setoid_rewrite <- list_elem_of_In. setoid_rewrite name_eqb_spec.
  apply exist_proper. intros i. by rewrite (symmetry_iff _ t i).
Qed.

(** The instances collected are the browse targets, each a child of the service
    type, once each up to name equality. *)
Lemma collect_instances_Ok st usable acc ins :
  collect_instances st usable acc = Ok ins →
  Forall (λ t, is_within t st = true ∧ label_count t = S (label_count st))
    (omap (ptr_target st) usable) ∧
  (∀ i, i ∈ ins → i ∈ acc ∨ i ∈ omap (ptr_target st) usable) ∧
  (∀ i, i ∈ acc ∨ i ∈ omap (ptr_target st) usable → ∃ j, j ∈ ins ∧ j ≡ i) ∧
  (NoDup (canonical <$> acc) → NoDup (canonical <$> ins)).
Proof.
  revert acc. induction usable as [|r usable IH]; intros acc.
  { intros [= ->]. split_and!; [constructor|by left| |done].
    intros i [Hi|Hi]; [by exists i|by apply elem_of_nil in Hi]. }
  cbn [collect_instances omap list_omap].
  destruct (ptr_target st r) as [t|] eqn:Et; unfold ptr_target in Et; cycle 1.
  { destruct (data r); try apply IH. destruct (name_eqb (name r) st); [done|apply IH]. }
  destruct (data r) as [| |t'| | |]; try done.
  destruct (name_eqb (name r) st); [|done]. injection Et as ->. cbn [negb].
  destruct (is_within t st) eqn:Ew; cbn [negb orb]; [|done].
  case_bool_decide as Hc; [done|]. intros (H1 & H2 & H3 & H4)%IH.
  destruct (existsb (name_eqb t) acc) eqn:Ex.
  - apply existsb_name_eqb in Ex as (j & Hj & Hjt). split_and!; [|set_solver| |done].
    + constructor; [split; [done|lia]|done].
    + intros i [Hi|[->|Hi]%elem_of_cons]; [by apply H3; left| |by apply H3; right].
      destruct (H3 j) as (k & Hk & Hkj); [by left|]. exists k. split; [done|by trans j].
  - split_and!; [|set_solver|set_solver|].
    + constructor; [split; [done|lia]|done].
    + intros Hacc. apply H4. rewrite fmap_app. apply NoDup_app. split_and!; [done| |apply NoDup_singleton].
      intros c Hc1 ->%list_elem_of_singleton. apply list_elem_of_fmap in Hc1 as (i & Hi & Hin).
      apply not_true_iff_false in Ex. apply Ex. apply existsb_name_eqb. by exists i.
Qed.

(** The values of the SRV and TXT records an instance owns. *)
Definition srv_of (i : Name) (r : ResourceRecord) : option SrvValue :=
  if name_eqb (name r) i then
    match data r with Srv p w o t => Some (p, w, o, t) | _ => None end
  else None.

Definition txt_of (i : Name) (r : ResourceRecord) : option Txt.TxtRecord :=
  if name_eqb (name r) i then match data r with Txt t => Some t | _ => None end else None.

Definition srv_equiv (x y : SrvValue) : Prop := x.1 = y.1 ∧ x.2 ≡ y.2.

Lemma srv_eqb_spec x y : srv_eqb x y = true ↔ srv_equiv x y.
Proof.
  destruct x as [[[p w] o] t], y as [[[p' w'] o'] t']. unfold srv_eqb, srv_equiv. cbn.
  rewrite !andb_true_iff, !Z.eqb_eq, name_eqb_spec. intuition congruence.
Qed.

#[local] Instance srv_equiv_equivalence : Equivalence srv_equiv.
Proof.
  split; unfold srv_equiv.
  - by intros x.
  - intros x y [-> ->]. done.
  - intros x y z [-> Hxy] [-> Hyz]. split; [done|by rewrite Hxy].
Qed.

Lemma collect_service_cons i r usable s0 t0 :
  collect_service i (r :: usable) s0 t0 =
  match srv_of i r with
  | Some x =>
      if match s0 with Some held => srv_eqb held x | None => true end
      then collect_service i usable (Some x) t0
      else Err (ConflictingRecords (to_string i) TYPE_SRV)
  | None =>
      match txt_of i r with
      | Some x =>
          if match t0 with Some held => bool_decide (held = x) | None => true end
          then collect_service i usable s0 (Some x)
          else Err (ConflictingRecords (to_string i) TYPE_TXT)
      | None => collect_service i usable s0 t0
      end
  end.
Proof.
  cbn [collect_service]. unfold srv_of, txt_of. destruct (name_eqb (name r) i); [cbn [negb]|done].
  destruct (data r) as [| | |p w o h|x|]; try done.
  - destruct s0 as [held|]; [|done]. by destruct (srv_eqb held _).
  - destruct t0 as [held|]; [|done]. rewrite bool_decide_not. by destruct (bool_decide _).
Qed.

Lemma srv_of_txt_of i r x : srv_of i r = Some x → txt_of i r = None.
Proof. unfold srv_of, txt_of. destruct (name_eqb _ _); [|done]. by destruct (data r). Qed.

(** What is held at the end is the last one read, and all of them agree with it. *)
Lemma collect_service_Ok i usable s0 t0 s t :
  collect_service i usable s0 t0 = Ok (s, t) →
  (∀ x, s0 = Some x ∨ x ∈ omap (srv_of i) usable → ∃ y, s = Some y ∧ srv_equiv x y) ∧
  (∀ y, s = Some y → s0 = Some y ∨ y ∈ omap (srv_of i) usable) ∧
  (∀ x, t0 = Some x ∨ x ∈ omap (txt_of i) usable → t = Some x) ∧
  (∀ y, t = Some y → t0 = Some y ∨ y ∈ omap (txt_of i) usable).
Proof.
  revert s0 t0. induction usable as [|r usable IH]; intros s0 t0.
  { intros [= <- <-]. split_and!; [|by left|by intros x [?|?%elem_of_nil]|by left].
    intros x [->|?%elem_of_nil]; [by exists x|done]. }
  rewrite collect_service_cons. cbn [omap list_omap].
  destruct (srv_of i r) as [x|] eqn:Es; [rewrite (srv_of_txt_of _ _ _ Es)|destruct (txt_of i r) as [x|] eqn:Et; [|apply IH]].
  - destruct (match s0 with Some _ => _ | None => _ end) eqn:Eh; [|done].
    intros (H1 & H2 & H3 & H4)%IH. split_and!; [|set_solver|done|done].
    destruct (H1 x) as (y & -> & Hy); [by left|]. intros x' [->|[->|Hx]%elem_of_cons].
    + apply srv_eqb_spec in Eh. exists y. split; [done|by trans x].
    + by exists y.
    + apply H1. by right.
  - destruct (match t0 with Some _ => _ | None => _ end) eqn:Eh; [|done].
    intros (H1 & H2 & H3 & H4)%IH. split_and!; [done|done| |set_solver].
    intros x' [->|[->|Hx]%elem_of_cons]; [|by apply H3; left|by apply H3; right].
    apply bool_decide_eq_true in Eh as ->. apply H3. by left.
Qed.

(** The addresses a host owns. *)
Definition address_of (h : Name) (r : ResourceRecord) : option IpAddr :=
  if name_eqb (name r) h then
    match data r with A o => Some (V4 o) | Aaaa o => Some (V6 o) | _ => None end
  else None.

Definition is_v4 (a : IpAddr) : bool := match a with V4 _ => true | V6 _ => false end.

(** IPv4 before IPv6, each in order of first appearance, without duplicates. *)
Definition dedup (seen l : list IpAddr) : list IpAddr :=
  foldr (λ a k s, if bool_decide (a ∈ s) then k s else a :: k (a :: s)) (λ _, []) l seen.

Lemma collect_addresses_dedup h usable v4 v6 seen :
  collect_addresses h usable v4 v6 seen =
  (v4 ++ List.filter is_v4 (dedup seen (omap (address_of h) usable)),
   v6 ++ List.filter (negb ∘ is_v4) (dedup seen (omap (address_of h) usable))).
Proof.
  revert v4 v6 seen. induction usable as [|r usable IH]; intros v4 v6 seen.
  { by rewrite !app_nil_r. }
  cbn [collect_addresses omap list_omap].
  destruct (address_of h r) as [a|] eqn:Ea; unfold address_of in Ea; cycle 1.
  { destruct (name_eqb (name r) h); [|apply IH]. cbn. by destruct (data r); try apply IH. }
  destruct (name_eqb (name r) h); [cbn [negb]|done].
  destruct (data r) as [o|o| | | |]; try done; injection Ea as <-; cbn [dedup foldr].
  1,2: case_bool_decide; [apply IH|]; rewrite IH; cbn; by rewrite <- app_assoc.
Qed.

Lemma dedup_spec seen l :
  (∀ a, a ∈ dedup seen l ↔ a ∈ l ∧ a ∉ seen) ∧ NoDup (dedup seen l).
Proof.
  revert seen. induction l as [|a l IH]; intros seen; cbn [dedup foldr].
  - split; [set_solver|constructor].
  - fold (dedup seen l) (dedup (a :: seen) l). case_bool_decide as Ha.
    + destruct (IH seen) as [H1 H2]. split; [|done]. intros b. rewrite H1. set_solver.
    + destruct (IH (a :: seen)) as [H1 H2]. split.
      * intros b. rewrite elem_of_cons, H1. destruct (decide (b = a)); set_solver.
      * constructor; [|done]. rewrite H1. set_solver.
Qed.

Lemma srv_of_Some i (usable : list ResourceRecord) p w o t :
  (p, w, o, t) ∈ omap (srv_of i) usable ↔
  ∃ r, r ∈ usable ∧ name r ≡ i ∧ data r = Srv p w o t.
Proof.
  rewrite list_elem_of_omap. unfold srv_of. setoid_rewrite <- name_eqb_spec.
  apply exist_proper. intros r.
  destruct (data r); destruct (name_eqb (name r) i); split; intros H; destruct_and?; simplify_eq; done.
Qed.

Lemma txt_of_Some i (usable : list ResourceRecord) t :
  t ∈ omap (txt_of i) usable ↔ ∃ r, r ∈ usable ∧ name r ≡ i ∧ data r = Txt t.
Proof.
  rewrite list_elem_of_omap. unfold txt_of. setoid_rewrite <- name_eqb_spec.
  apply exist_proper. intros r.
  destruct (data r); destruct (name_eqb (name r) i); split; intros H; destruct_and?; simplify_eq; done.
Qed.

Lemma address_of_Some h (usable : list ResourceRecord) a :
  a ∈ omap (address_of h) usable ↔ ∃ r, r ∈ usable ∧ name r ≡ h ∧ data r = address_data a.
Proof.
  rewrite list_elem_of_omap. unfold address_of. setoid_rewrite <- name_eqb_spec.
  apply exist_proper. intros r. destruct a; cbn.
  all: destruct (data r); destruct (name_eqb (name r) h); split; intros H; destruct_and?; simplify_eq; done.
Qed.

Lemma filter_parts (f : IpAddr → bool) l a :
  a ∈ List.filter f l ++ List.filter (negb ∘ f) l ↔ a ∈ l.
Proof.
  rewrite elem_of_app, !list_elem_of_In, !filter_In. unfold compose. destruct (f a); cbn; tauto.
Qed.

Lemma NoDup_filter_parts (f : IpAddr → bool) l :
  NoDup l → NoDup (List.filter f l ++ List.filter (negb ∘ f) l).
Proof.
  intros H. apply NoDup_app. rewrite !NoDup_ListNoDup in *. split_and!.
  - by apply List.NoDup_filter.
  - intros a. rewrite !list_elem_of_In, !filter_In. unfold compose. destruct (f a); cbn; intuition done.
  - by apply List.NoDup_filter.
Qed.

(** The addresses reported for a host. *)
Definition host_addresses (h : Name) (usable : list ResourceRecord) : list IpAddr :=
  let d := dedup [] (omap (address_of h) usable) in
  List.filter is_v4 d ++ List.filter (negb ∘ is_v4) d.

Lemma host_addresses_spec h usable :
  (∀ a, a ∈ host_addresses h usable ↔
        ∃ r, r ∈ usable ∧ name r ≡ h ∧ data r = address_data a) ∧
  NoDup (host_addresses h usable).
Proof.
  destruct (dedup_spec [] (omap (address_of h) usable)) as [H1 H2].
  split; [|by apply NoDup_filter_parts]. intros a. unfold host_addresses.
  rewrite filter_parts, H1, address_of_Some. set_solver.
Qed.

Lemma resolve_instance_Ok usable zone i s :
  resolve_instance usable zone i = Ok s →
  r_instance s = i ∧ is_within (r_host s) zone = true ∧
  (∃ t, collect_service i usable None None =
     Ok (Some (r_priority s, r_weight s, r_port s, r_host s), Some t) ∧ t = r_txt s) ∧
  r_addresses s = host_addresses (r_host s) usable ∧ r_addresses s ≠ [].
Proof.
  unfold resolve_instance. intros ([so to] & Hc & H)%bind_Ok.
  apply bind_Ok in H as ([[[p w] o] h] & ->%ok_or_Ok & H).
  apply bind_Ok in H as (t & ->%ok_or_Ok & H).
  destruct (is_within h zone) eqn:Eh; [cbn [negb] in H|done].
  rewrite collect_addresses_dedup in H. cbn [app] in H.
  destruct (_ && _) eqn:Ee; [done|]. destruct (instance_label i) as [label lossy].
  injection H as <-. cbn. split_and!; [done|done|by exists t|done|].
  intros [H1 H2]%app_nil. rewrite !bool_decide_eq_true_2 in Ee by done. done.
Qed.

Lemma resolve_instances_Ok usable zone ins rs :
  resolve_instances usable zone ins = Ok rs →
  Forall2 (λ i s, resolve_instance usable zone i = Ok s) ins rs.
Proof.
  revert rs. induction ins as [|i ins IH]; intros rs; cbn [resolve_instances].
  - intros [= <-]. constructor.
  - intros (r & Hr & H)%bind_Ok. apply bind_Ok in H as (rs' & Hrs & [= <-]). by constructor; [|apply IH].
Qed.

Lemma sort_services_perm rs : sort_services rs ≡ₚ rs.
Proof.
  induction rs as [|r rs IH]; [done|]. cbn. fold (sort_services rs). rewrite <- IH at 2.
  generalize (sort_services rs). intros l. induction l as [|x l IHl]; [done|]. cbn.
  destruct (bytes_leb _ _); [done|]. rewrite IHl. apply perm_swap.
Qed.

Lemma bytes_leb_total a b : bytes_leb a b = false → bytes_leb b a = true.
Proof.
  revert b. induction a as [|x a IH]; intros [|y b]; cbn; try done.
  rewrite orb_false_iff, andb_false_iff, orb_true_iff, andb_true_iff.
  intros [H1 [H2|H2]]; boolify.
  - left. apply Z.ltb_lt. lia.
  - destruct (Z.lt_trichotomy (u8 x) (u8 y)) as [H|[H|H]]; [lia| |left; by apply Z.ltb_lt].
    right. split; [apply Z.eqb_eq; lia|by apply IH].
Qed.

Definition key_le (a b : ResolvedService) : Prop := bytes_leb (sort_key a) (sort_key b) = true.

Lemma sort_services_sorted rs : Sorted key_le (sort_services rs).
Proof.
  induction rs as [|r rs IH]; cbn; [constructor|]. fold (sort_services rs).
  induction IH as [|x l Hl IHl Hx]; cbn; [by repeat constructor|].
  destruct (bytes_leb (sort_key r) (sort_key x)) eqn:E; [by repeat constructor|].
  constructor; [done|]. apply bytes_leb_total in E.
  destruct l as [|y l]; cbn; [by constructor|].
  destruct (bytes_leb (sort_key r) (sort_key y)); constructor; [done|]. by inversion Hx.
Qed.

Lemma resolve_services_Ok m st zone rs :
  resolve_services m st zone = Ok rs →
  is_response m = true ∧ is_within st zone = true ∧
  ∃ ins rs', let usable := List.filter (is_usable zone) (records m) in
    collect_instances st usable [] = Ok ins ∧
    Forall2 (λ i s, resolve_instance usable zone i = Ok s) ins rs' ∧ rs = sort_services rs'.
Proof.
  unfold resolve_services. destruct (is_response m); [|done]. destruct (is_within st zone); [|done].
  cbn [negb]. intros (ins & Hi & H)%bind_Ok. apply bind_Ok in H as (rs' & Hr & [= <-]).
  do 2 (split; [done|]). exists ins, rs'. by split_and!; [|apply resolve_instances_Ok|].
Qed.

Lemma backed_intro m st zone i s :
  let usable := List.filter (is_usable zone) (records m) in
  i ∈ omap (ptr_target st) usable → is_within i st = true ∧ label_count i = S (label_count st) →
  resolve_instance usable zone i = Ok s → backed m st zone s.
Proof.
  intros usable Hi Hin (<- & Hh & (t & Hc & ->) & Ha & Hne)%resolve_instance_Ok.
  apply collect_service_Ok in Hc as (H1 & H2 & H3 & H4).
  split; [done|done| | | | | | |].
  - apply ptr_target_Some in Hi as (r & Hr & ?). exists r. by rewrite live_usable.
  - destruct (H2 _ eq_refl) as [?|(r & Hr & ?)%srv_of_Some]; [done|]. exists r. by rewrite live_usable.
  - intros r p w o t Hr%live_usable Hn Hd. destruct (H1 (p, w, o, t)) as (y & [= <-] & He).
    { right. apply srv_of_Some. by exists r. }
    destruct He as [[= -> -> ->] He]. by cbn in He.
  - destruct (H4 _ eq_refl) as [?|(r & Hr & ?)%txt_of_Some]; [done|]. exists r. by rewrite live_usable.
  - intros r t Hr%live_usable Hn Hd.
    enough (Some (r_txt s) = Some t) as [= ->] by done. apply H3. right. apply txt_of_Some. by exists r.
  - intros a. rewrite Ha. setoid_rewrite live_usable. apply host_addresses_spec.
  - split; [done|]. rewrite Ha. apply host_addresses_spec.
Qed.

(** Bailiwick safety and completeness of resolution. A resolved service is
    backed, hop by hop, by live records inside the queried zone: a browse pointer
    owned by the service type names the instance, one level below it; its port,
    target and TXT are those of records the instance owns, all such records
    agreeing; the host is inside the zone and its addresses are exactly those the
    host's records carry, at least one, without duplicates. Every live browse
    pointer is resolved, no instance twice, and the result is sorted by name. *)
Theorem resolve_bailiwick m st zone rs :
  resolve_services m st zone = Ok rs →
  is_response m = true ∧ is_within st zone = true ∧ Forall (backed m st zone) rs ∧
  (∀ r t, live m zone r → name r ≡ st → data r = Ptr t → ∃ s, s ∈ rs ∧ r_instance s ≡ t) ∧
  NoDup (canonical ∘ r_instance <$> rs) ∧ Sorted key_le rs.
Proof.
  intros (Hr & Hw & ins & rs' & Hi & Hrs & ->)%resolve_services_Ok.
  apply collect_instances_Ok in Hi as (H1 & H2 & H3 & H4).
  assert (r_instance <$> rs' = ins) as Hins.
  { clear -Hrs. induction Hrs as [|i s ins rs' Hs _ IH]; [done|].
    apply resolve_instance_Ok in Hs as [<- _]. by rewrite <- IH. }
  split_and!; [done|done| | | |apply sort_services_sorted].
  - rewrite sort_services_perm. eapply Forall2_Forall_r; [exact Hrs|].
    apply Forall_forall. intros i Hi s Hs. destruct (H2 i Hi) as [?%elem_of_nil|Hp]; [done|].
    rewrite Forall_forall in H1. by eapply backed_intro; eauto.
  - intros r t Hlive Hn Hd. destruct (H3 t) as (j & Hj & Hjt).
    { right. apply ptr_target_Some. exists r. by rewrite <- live_usable. }
    rewrite <- Hins in Hj. apply list_elem_of_fmap in Hj as (s & -> & Hs).
    exists s. by rewrite sort_services_perm.
  - rewrite sort_services_perm, list_fmap_compose, Hins. apply H4. constructor.
Qed.

(** ** Announcements *)

(** The address records at the end of an announcement. *)
Definition address_records (h : Name) (unique : Z) (l : list IpAddr) : list ResourceRecord :=
  (λ address, mkRecord h CLASS_IN true unique (address_data address)) <$> l.

Lemma collect_instances_addresses h unique l st ins :
  collect_instances st (address_records h unique l) ins = Ok ins.
Proof. induction l as [|[] l IH]; [done|apply IH..]. Qed.

Lemma collect_service_addresses h unique l i s t :
  collect_service i (address_records h unique l) s t = Ok (s, t).
Proof.
  induction l as [|x l IH]; [done|]. cbn. destruct (name_eqb h i); [|apply IH].
  destruct x; apply IH.
Qed.

Lemma name_eqb_refl n : name_eqb n n = true.
Proof. by apply name_eqb_spec. Qed.

Lemma address_of_addresses h unique l : omap (address_of h) (address_records h unique l) = l.
Proof.
  induction l as [|x l IH]; [done|]. cbn. unfold address_of at 1. cbn. rewrite name_eqb_refl.
  destruct x; cbn; f_equal; apply IH.
Qed.

Lemma address_of_skip h r us :
  (∀ x, data r ≠ address_data x) →
  omap (address_of h) (r :: us) = omap (address_of h) us.
Proof.
  intros Hr. cbn. unfold address_of at 1. destruct (name_eqb (name r) h); [|done].
  destruct (data r) as [o|o| | | |]; try done; [by destruct (Hr (V4 o))|by destruct (Hr (V6 o))].
Qed.

Lemma within_prepended i l zone :
  is_within i zone = true → is_within (mkName (l :: labels i)) zone = true.
Proof. rewrite !is_within_spec. intros [p Hp]. exists (lower l :: p). cbn. by rewrite Hp. Qed.

Lemma announcement_shape a shared unique m :
  announcement_with_ttls a shared unique = Ok m →
  let i := mkName (instance a :: labels (service_type a)) in
  is_response m = true ∧ name_ok i ∧
  records m =
    [mkRecord (service_type a) CLASS_IN false shared (Ptr i);
     mkRecord i CLASS_IN true unique (Srv (priority a) (weight a) (port a) (host a));
     mkRecord i CLASS_IN true unique (Txt (txt a))]
    ++ address_records (host a) unique (addresses a).
Proof.
  unfold announcement_with_ttls, instance_name.
  intros (i & [-> Hi]%prepend_Ok & [= <-])%bind_Ok. split_and!; [done|apply Hi..|].
  unfold records. cbn [answers authorities additionals]. by rewrite !app_nil_r.
Qed.

Lemma usable_all zone rs : forallb (is_usable zone) rs = true → List.filter (is_usable zone) rs = rs.
Proof. induction rs as [|r rs IH]; cbn; [done|]. intros [-> H]%andb_true_iff. by rewrite IH. Qed.

Lemma usable_none zone rs :
  Forall (λ r, ttl r = 0) rs → List.filter (is_usable zone) rs = [].
Proof.
  induction 1 as [|r rs Hr _ IH]; [done|]. cbn. unfold is_usable at 1. by rewrite Hr, andb_false_r.
Qed.

Lemma usable_addresses zone h unique l :
  forallb (is_usable zone) (address_records h unique l) =
  bool_decide (l = []) || is_within h zone && (0 <? unique).
Proof.
  induction l as [|x l IH]; [done|]. cbn. fold (address_records h unique l). rewrite IH.
  unfold is_usable at 1. cbn. destruct (is_within h zone), (0 <? unique), (bool_decide (l = [])); done.
Qed.

(** Resolving what an announcement carries. *)
Lemma resolve_announced a shared unique m zone :
  announcement_with_ttls a shared unique = Ok m → 0 < shared → 0 < unique →
  is_within (service_type a) zone = true → is_within (host a) zone = true → addresses a ≠ [] →
  let i := mkName (instance a :: labels (service_type a)) in
  let d := dedup [] (addresses a) in
  resolve_services m (service_type a) zone =
  Ok [mkResolved i (instance_label i).1 (instance_label i).2 (host a) (port a) (priority a)
        (weight a) (txt a) (List.filter is_v4 d ++ List.filter (negb ∘ is_v4) d)].
Proof.
  intros (Hresp & Hi & Hrec)%announcement_shape Hs Hu Hst Hh Hne i d.
  unfold resolve_services. rewrite Hresp, Hst. cbn [negb]. rewrite Hrec, usable_all; cycle 1.
  { rewrite forallb_app, usable_addresses, Hh. unfold is_usable. cbn [forallb name ttl].
    rewrite Hst, (within_prepended _ _ _ Hst). replace (0 <? shared) with true by lia.
    replace (0 <? unique) with true by lia. by rewrite orb_true_r. }
  fold i. set (us := _ ++ address_records _ _ _).
  assert (collect_instances (service_type a) us [] = Ok [i]) as ->.
  { unfold us. cbn [app collect_instances data name]. rewrite name_eqb_refl. cbn [negb].
    assert (is_within i (service_type a) = true) as ->
      by (apply within_prepended, is_within_spec; by exists []).
    rewrite bool_decide_eq_false_2; [apply collect_instances_addresses|].
    unfold label_count, i. cbn. lia. }
  cbn [mbind result_bind resolve_instances].
  assert (collect_service i us None None =
          Ok (Some (priority a, weight a, port a, host a), Some (txt a))) as Hserv.
  { unfold us. cbn [app collect_service data name]. rewrite name_eqb_refl. cbn [negb].
    rewrite collect_service_addresses. by destruct (negb _). }
  assert (omap (address_of (host a)) us = addresses a) as Haddr.
  { trans (omap (address_of (host a)) (address_records (host a) unique (addresses a)));
      [|apply address_of_addresses]. unfold us. cbn [app].
    do 3 (rewrite address_of_skip by (by intros [])). done. }
  unfold resolve_instance. rewrite Hserv. cbn [mbind result_bind ok_or]. rewrite Hh. cbn [negb].
  rewrite collect_addresses_dedup, Haddr. cbn [app]. fold d.
  destruct (instance_label i) as [label lossy].
  destruct (_ && _) eqn:Ee; [|done]. exfalso.
  apply andb_true_iff in Ee as [E1%bool_decide_eq_true E2%bool_decide_eq_true].
  destruct (addresses a) as [|x l] eqn:Ea; [done|].
  assert (x ∈ List.filter is_v4 d ++ List.filter (negb ∘ is_v4) d) as Hx.
  { apply filter_parts, dedup_spec. set_solver. }
  rewrite E1, E2 in Hx. by apply elem_of_nil in Hx.
Qed.

(** An announcement resolves to the service it announces: the same instance,
    host, port, priority, weight and TXT, and its addresses, IPv4 first and
    without duplicates; and after the goodbye the same query resolves to nothing. *)
Theorem announcement_resolves a m g zone :
  announcement a = Ok m → goodbye a = Ok g →
  is_within (service_type a) zone = true → is_within (host a) zone = true → addresses a ≠ [] →
  let i := mkName (instance a :: labels (service_type a)) in
  let d := dedup [] (addresses a) in
  resolve_services m (service_type a) zone =
    Ok [mkResolved i (instance_label i).1 (instance_label i).2 (host a) (port a) (priority a)
          (weight a) (txt a) (List.filter is_v4 d ++ List.filter (negb ∘ is_v4) d)] ∧
  resolve_services g (service_type a) zone = Ok [].
Proof.
  intros Hm (Hresp & Hi & Hrec)%announcement_shape Hst Hh Hne i d. split.
  { by eapply resolve_announced. }
  unfold resolve_services. rewrite Hresp, Hst. cbn [negb].
  replace (List.filter (is_usable zone) (records g)) with (@nil ResourceRecord); [done|].
  symmetry. apply usable_none. rewrite Hrec. repeat (constructor; [done|]).
  apply Forall_fmap, Forall_true. done.
Qed.

Definition sample_advertisement : ServiceAdvertisement :=
  mkAdvertisement (lit "Claw 1.0") (mkName [lit "_claw"; lit "_tcp"; lit "local"])
    (mkName [lit "host"; lit "local"]) 18789 0 0 Txt.new_txt
    [V6 (repeat x01 16); V4 [x0a; x00; x00; x01]; V6 (repeat x01 16)].

Lemma announcement_resolves_witness :
  match announcement sample_advertisement, goodbye sample_advertisement with
  | Ok m, Ok g =>
      resolve_services m (service_type sample_advertisement) (mkName [lit "local"]) =
        Ok [mkResolved (mkName (lit "Claw 1.0" :: labels (service_type sample_advertisement)))
              (lit "Claw 1.0") false (host sample_advertisement) 18789 0 0 Txt.new_txt
              [V4 [x0a; x00; x00; x01]; V6 (repeat x01 16)]] ∧
      resolve_services g (service_type sample_advertisement) (mkName [lit "local"]) = Ok []
  | _, _ => False
  end.
Proof.
  destruct (announcement sample_advertisement) as [m|] eqn:Em; [|vm_compute in Em; discriminate Em].
  destruct (goodbye sample_advertisement) as [g|] eqn:Eg; [|vm_compute in Eg; discriminate Eg].
  exact (announcement_resolves sample_advertisement m g (mkName [lit "local"]) Em Eg
           eq_refl eq_refl ltac:(discriminate)).
Defined.

Lemma resolve_bailiwick_witness :
  match announcement sample_advertisement with
  | Ok m => ∃ rs, resolve_services m (service_type sample_advertisement) (mkName [lit "local"]) = Ok rs ∧
      length rs = 1%nat ∧
      Forall (backed m (service_type sample_advertisement) (mkName [lit "local"])) rs
  | Err _ => False
  end.
Proof.
  destruct (announcement sample_advertisement) as [m|] eqn:Em; [|vm_compute in Em; discriminate Em].
  vm_compute in Em. injection Em as <-. eexists. split; [vm_compute; reflexivity|].
  split; [reflexivity|]. eapply resolve_bailiwick. vm_compute. reflexivity.
Defined.

(** ** Conflict suffixes *)

Lemma conflict_loop_spec desired taken count start :
  match conflict_loop desired taken count start with
  | Some c => ∃ k, start ≤ k < start + Z.of_nat count ∧ c = suffixed desired k ∧
      len c ≤ MAX_LABEL_BYTES ∧ is_free taken c = true ∧
      ∀ j, start ≤ j < k → MAX_LABEL_BYTES < len (suffixed desired j) ∨
                           is_free taken (suffixed desired j) = false
  | None => ∀ j, start ≤ j < start + Z.of_nat count →
      MAX_LABEL_BYTES < len (suffixed desired j) ∨ is_free taken (suffixed desired j) = false
  end.
Proof.
  revert start. induction count as [|count IH]; intros start; cbn [conflict_loop]; [lia|].
  destruct (_ && _) eqn:E.
  - boolify. exists start. split_and!; try done; lia.
  - specialize (IH (start + 1)).
    assert (MAX_LABEL_BYTES < len (suffixed desired start) ∨
            is_free taken (suffixed desired start) = false) as Hs
      by (apply andb_false_iff in E as [E|E]; boolify; [by left|by right]).
    destruct (conflict_loop _ _ _ _).
    + destruct IH as (k & Hk & H). exists k. split; [lia|]. destruct H as (-> & Hl & Hf & Hj).
      split_and!; [done..|]. intros j Hj'. destruct (decide (j = start)) as [->|]; [done|]. apply Hj; lia.
    + intros j Hj. destruct (decide (j = start)) as [->|]; [done|]. apply IH. lia.
Qed.

(** The conflict suffix: a name returned is free (compared case-insensitively
    with the taken ones) and fits a label; it is the desired name when that is
    usable and otherwise the first usable [name (k)] with [2 <= k <= limit]; the
    error means that neither the desired name nor any suffix up to [limit] is
    usable. *)
Theorem conflict_suffix_contract desired taken limit :
  match resolve_instance_conflict desired taken limit with
  | Ok c =>
      is_free taken c = true ∧ len c ≤ MAX_LABEL_BYTES ∧
      (c = desired ∨
       ∃ k, 2 ≤ k ≤ limit ∧ c = suffixed desired k ∧
         (MAX_LABEL_BYTES < len desired ∨ is_free taken desired = false) ∧
         ∀ j, 2 ≤ j < k → MAX_LABEL_BYTES < len (suffixed desired j) ∨
                          is_free taken (suffixed desired j) = false)
  | Err e =>
      e = NoFreeInstanceName desired ∧
      (MAX_LABEL_BYTES < len desired ∨ is_free taken desired = false) ∧
      ∀ j, 2 ≤ j ≤ limit → MAX_LABEL_BYTES < len (suffixed desired j) ∨
                           is_free taken (suffixed desired j) = false
  end.
Proof.
  unfold resolve_instance_conflict. destruct (_ && _) eqn:E.
  { boolify. split_and!; [done|done|by left]. }
  assert (MAX_LABEL_BYTES < len desired ∨ is_free taken desired = false) as Hd
    by (apply andb_false_iff in E as [E|E]; boolify; [by left|by right]).
  pose proof (conflict_loop_spec desired taken (Z.to_nat (limit - 1)) 2) as H.
  destruct (conflict_loop _ _ _ _) as [c|]; cbn.
  - destruct H as (k & Hk & -> & Hl & Hf & Hj). split_and!; [done|done|].
    right. exists k. split_and!; [lia|lia|done|done|done].
  - split_and!; [done|done|]. intros j Hj. apply H. lia.
Qed.

End Service.
