(* ===== verification/ActiveWork.v ===== *)
(** * The activity snapshot

    [crates/claw-platform/src/suspend/active_work.rs]: the thirteen counters that
    decide whether a host is idle and the blockers reported when it is not.
    Strings are lists of characters ([str]). *)

From S2P Require Import Prelude Utf8.

Module ActiveWork.

Definition MAX_REPORTED_TASK_BLOCKERS : nat := 8.
Definition MAX_REPORTED_TASK_TITLE_UTF16 : Z := 80.

Inductive TaskRuntime := Subagent | Acp | Cli | Cron.

Definition runtime_as_str (r : TaskRuntime) : str :=
  match r with
  | Subagent => chars "subagent"
  | Acp => chars "acp"
  | Cli => chars "cli"
  | Cron => chars "cron"
  end.

Record TaskBlocker := mkTask {
  task_id : str;
  runtime : TaskRuntime;
  run_id : option str;
  label : option str;
  title : option str;
}.

Definition new_task (task_id : str) (runtime : TaskRuntime) : TaskBlocker :=
  mkTask task_id runtime None None None.

Definition with_run_id (t : TaskBlocker) (run_id : str) : TaskBlocker :=
  mkTask (task_id t) (runtime t) (Some run_id) (label t) (title t).

Definition with_label (t : TaskBlocker) (label : str) : TaskBlocker :=
  mkTask (task_id t) (runtime t) (run_id t) (Some label) (title t).

Definition with_title (t : TaskBlocker) (title : str) : TaskBlocker :=
  mkTask (task_id t) (runtime t) (run_id t) (label t) (Some title).

(** [truncate_utf16]: [units] code units have been taken so far. *)
Fixpoint truncate_utf16_from (units : Z) (input : str) (limit : Z) : str :=
  match input with
  | [] => []
  | c :: input =>
      let next := units + len_utf16 c in
      if limit <? next then [] else c :: truncate_utf16_from next input limit
  end.

Definition truncate_utf16 (input : str) (limit : Z) : str := truncate_utf16_from 0 input limit.

(** [parts.join(" ")] *)
Fixpoint join (sep : str) (parts : list str) : str :=
  match parts with
  | [] => []
  | [part] => part
  | part :: parts => part ++ sep ++ join sep parts
  end.

(** [opt.as_deref().filter(|value| !value.is_empty())] mapped to a part. *)
Definition part_of (prefix : str) (value : option str) (render : str → str) : list str :=
  match value with
  | Some ((_ :: _) as v) => [prefix ++ render v]
  | _ => []
  end.

Definition describe (t : TaskBlocker) : str :=
  join (chars " ")
    ([chars "taskId=" ++ task_id t]
     ++ part_of (chars "runId=") (run_id t) (λ v, v)
     ++ [chars "status=running"; chars "runtime=" ++ runtime_as_str (runtime t)]
     ++ part_of (chars "label=") (label t) (λ v, v)
     ++ part_of (chars "title=") (title t) (λ v, truncate_utf16 v MAX_REPORTED_TASK_TITLE_UTF16)).

Inductive BlockerKind :=
| Queue | Reply | EmbeddedRun | BackgroundExec | CronRun | Task | RootRequest
| SessionAdmission | SessionMutation | ChatRun | QueuedTurn | TerminalPersistence
| TerminalSession.

#[export] Instance BlockerKind_eq_dec : EqDecision BlockerKind.
Proof. solve_decision. Defined.

Definition kind_as_str (k : BlockerKind) : str :=
  match k with
  | Queue => chars "queue"
  | Reply => chars "reply"
  | EmbeddedRun => chars "embedded-run"
  | BackgroundExec => chars "background-exec"
  | CronRun => chars "cron-run"
  | Task => chars "task"
  | RootRequest => chars "root-request"
  | SessionAdmission => chars "session-admission"
  | SessionMutation => chars "session-mutation"
  | ChatRun => chars "chat-run"
  | QueuedTurn => chars "queued-turn"
  | TerminalPersistence => chars "terminal-persistence"
  | TerminalSession => chars "terminal-session"
  end.

Record Blocker := mkBlocker {
  kind : BlockerKind;
  count : Z;
  message : str;
  task : option TaskBlocker;
}.

Record ActiveWorkCounts := mkCounts {
  queue_size : Z;
  pending_replies : Z;
  embedded_runs : Z;
  background_exec_sessions : Z;
  cron_runs : Z;
  active_tasks : Z;
  root_requests : Z;
  session_admissions : Z;
  session_mutations : Z;
  chat_runs : Z;
  queued_turns : Z;
  terminal_persistence : Z;
  terminal_sessions : Z;
}.

Definition no_work : ActiveWorkCounts := mkCounts 0 0 0 0 0 0 0 0 0 0 0 0 0.

(** The addition order of [total_active]. *)
Definition counters (c : ActiveWorkCounts) : list Z :=
  [queue_size c; pending_replies c; embedded_runs c; background_exec_sessions c; cron_runs c;
   active_tasks c; root_requests c; session_admissions c; session_mutations c; chat_runs c;
   queued_turns c; terminal_persistence c; terminal_sessions c].

Definition total_active (c : ActiveWorkCounts) : Z :=
  foldl (sat_add u64_max) 0 (counters c).

Definition counts_is_idle (c : ActiveWorkCounts) : bool := total_active c =? 0.

(** The port the host implements. *)
Class ActiveWorkInspector (I : Type) := {
  counts : I → ActiveWorkCounts;
  task_blockers : I → list TaskBlocker;
}.

(** [IdleInspector], with the default [task_blockers] of the trait. *)
Inductive IdleInspector := mkIdleInspector.

#[export] Instance idle_inspector : ActiveWorkInspector IdleInspector := {|
  counts := λ _, no_work;
  task_blockers := λ _, [];
|}.

Record ActiveWorkSnapshot := mkSnapshot {
  snapshot_counts : ActiveWorkCounts;
  blockers : list Blocker;
}.

Definition show (n : Z) : str := u8 <$> decimal n.

(** The closure [push] of [capture]: what it appends. *)
Definition push (count : Z) (kind : BlockerKind) (message : str) : list Blocker :=
  if 0 <? count then [mkBlocker kind count (show count ++ message) None] else [].

Definition task_row (t : TaskBlocker) : Blocker := mkBlocker Task 1 (describe t) (Some t).

Definition append_task_blockers (active_tasks : Z) (tasks : list TaskBlocker) : list Blocker :=
  match tasks with
  | [] => [mkBlocker Task active_tasks (show active_tasks ++ chars " active background task run(s)") None]
  | _ =>
      let shown := Nat.min (length tasks) MAX_REPORTED_TASK_BLOCKERS in
      let rows := task_row <$> take shown tasks in
      let omitted := sat_sub active_tasks (Z.of_nat shown) in
      rows ++
      (if 0 <? omitted then
         [mkBlocker Task omitted
            (show omitted ++ chars " additional active background task run(s)") None]
       else [])
  end.

Section capture.
Context {I : Type} `{ActiveWorkInspector I}.

Definition capture (inspector : I) : ActiveWorkSnapshot :=
  let c := counts inspector in
  mkSnapshot c
    (push (queue_size c) Queue (chars " queued or active operation(s)")
     ++ push (pending_replies c) Reply (chars " pending reply delivery operation(s)")
     ++ push (embedded_runs c) EmbeddedRun (chars " active embedded run(s)")
     ++ push (background_exec_sessions c) BackgroundExec
          (chars " active background exec session(s)")
     ++ push (cron_runs c) CronRun (chars " active cron run(s)")
     ++ push (root_requests c) RootRequest (chars " active gateway request(s)")
     ++ push (session_admissions c) SessionAdmission (chars " admitted session turn(s)")
     ++ push (session_mutations c) SessionMutation
          (chars " active session lifecycle mutation(s)")
     ++ push (chat_runs c) ChatRun (chars " active chat run(s)")
     ++ push (queued_turns c) QueuedTurn (chars " queued chat turn(s)")
     ++ push (terminal_persistence c) TerminalPersistence
          (chars " pending terminal session write(s)")
     ++ push (terminal_sessions c) TerminalSession (chars " open terminal session(s)")
     ++ (if 0 <? active_tasks c then
           append_task_blockers (active_tasks c) (task_blockers inspector)
         else [])).

End capture.

Definition active_count (s : ActiveWorkSnapshot) : Z := total_active (snapshot_counts s).
Definition is_idle (s : ActiveWorkSnapshot) : bool := counts_is_idle (snapshot_counts s).

(** ** Counters *)

Definition counts_ok (c : ActiveWorkCounts) : Prop := Forall (λ n, 0 ≤ n ≤ u64_max) (counters c).

(** Saturation never hides work: the aggregate is the exact sum, capped. *)
Lemma total_active_sum c :
  counts_ok c → total_active c = Z.min (foldr Z.add 0 (counters c)) u64_max.
Proof.
  unfold counts_ok, total_active. generalize (counters c). intros l Hl.
  assert (∀ acc, 0 ≤ acc ≤ u64_max →
    foldl (sat_add u64_max) acc l = Z.min (acc + foldr Z.add 0 l) u64_max) as H; [|by apply H].
  induction Hl as [|n l Hn Hl IH]; intros acc Hacc; cbn; [lia|].
  assert (0 ≤ foldr Z.add 0 l) by (clear -Hl; induction Hl; cbn; lia).
  unfold sat_add at 2. rewrite IH by (unfold sat_add; lia). lia.
Qed.

Lemma counts_is_idle_spec c :
  counts_ok c → counts_is_idle c = true ↔ Forall (λ n, n = 0) (counters c).
Proof.
  intros Hok. unfold counts_is_idle. rewrite Z.eqb_eq, (total_active_sum c Hok).
  assert (0 < u64_max) by (by vm_compute). unfold counts_ok in Hok.
  revert Hok. generalize (counters c). intros l Hl.
  assert (foldr Z.add 0 l = 0 ↔ Forall (λ n, n = 0) l) as <-; [|lia].
  induction Hl as [|n l Hn Hl IH]; cbn; [by split; [constructor|]|].
  rewrite Forall_cons, <- IH.
  assert (0 ≤ foldr Z.add 0 l) by (clear -Hl; induction Hl; cbn; lia). lia.
Qed.

(** ** Blockers *)

Lemma push_nil n k m : 0 ≤ n → push n k m = [] ↔ n = 0.
Proof. unfold push. intros Hn. destruct (0 <? n) eqn:E; boolify; split; try done; lia. Qed.

Lemma append_task_blockers_nonempty n tasks :
  0 < n → append_task_blockers n tasks ≠ [].
Proof. intros Hn. by destruct tasks as [|t tasks]. Qed.

(** Evaluate the comparisons of concrete kinds. *)
Ltac decide_kinds :=
  repeat match goal with
  | |- context [bool_decide (?a = ?b)] =>
      let r := eval vm_compute in (bool_decide (a = b)) in change (bool_decide (a = b)) with r; cbv iota
  end.

(** The units a list of blockers reports for one kind. *)
Definition reported (k : BlockerKind) (bs : list Blocker) : Z :=
  foldr (λ b acc, (if bool_decide (kind b = k) then count b else 0) + acc) 0 bs.

Lemma reported_app k bs cs : reported k (bs ++ cs) = reported k bs + reported k cs.
Proof. induction bs as [|b bs IH]; cbn; [done|]. fold (reported k bs) (reported k (bs ++ cs)). lia. Qed.

Lemma reported_push k n k' m :
  0 ≤ n → reported k (push n k' m) = if bool_decide (k' = k) then n else 0.
Proof.
  intros Hn. unfold push. destruct (0 <? n) eqn:E; boolify; cbn; case_bool_decide; lia.
Qed.

Lemma reported_rows k l :
  reported k (task_row <$> l) = if bool_decide (Task = k) then Z.of_nat (length l) else 0.
Proof.
  induction l as [|x l IH]; [by case_bool_decide|].
  change (reported k (task_row <$> x :: l))
    with ((if bool_decide (Task = k) then 1 else 0) + reported k (task_row <$> l)).
  rewrite IH. cbn [length]. case_bool_decide; lia.
Qed.

Lemma reported_tasks n tasks k :
  0 < n →
  reported k (append_task_blockers n tasks) =
  if bool_decide (Task = k) then Z.max n (Z.of_nat (Nat.min (length tasks) MAX_REPORTED_TASK_BLOCKERS)) else 0.
Proof.
  intros Hn. unfold append_task_blockers. destruct tasks as [|t tasks]; [cbn; case_bool_decide; lia|].
  set (shown := Nat.min _ _). rewrite reported_app.
  rewrite reported_rows, length_take.
  unfold shown, MAX_REPORTED_TASK_BLOCKERS in *.
  unfold sat_sub. destruct (0 <? _) eqn:E; boolify; cbn -[Nat.min length Z.of_nat];
    case_bool_decide; lia.
Qed.

(** The counter behind each kind. *)
Definition counter_of (k : BlockerKind) (c : ActiveWorkCounts) : Z :=
  match k with
  | Queue => queue_size c
  | Reply => pending_replies c
  | EmbeddedRun => embedded_runs c
  | BackgroundExec => background_exec_sessions c
  | CronRun => cron_runs c
  | Task => active_tasks c
  | RootRequest => root_requests c
  | SessionAdmission => session_admissions c
  | SessionMutation => session_mutations c
  | ChatRun => chat_runs c
  | QueuedTurn => queued_turns c
  | TerminalPersistence => terminal_persistence c
  | TerminalSession => terminal_sessions c
  end.

Section capture_spec.
Context {I : Type} `{ActiveWorkInspector I}.

Lemma counters_nonneg c k : counts_ok c → 0 ≤ counter_of k c.
Proof.
  unfold counts_ok, counters. rewrite !Forall_cons. intros Hc. destruct k; cbn; tauto || lia.
Qed.

Lemma idle_no_blockers (i : I) :
  counts_ok (counts i) → is_idle (capture i) = true ↔ blockers (capture i) = [].
Proof.
  intros Hok. unfold is_idle. rewrite counts_is_idle_spec by done. unfold capture. cbn.
  pose proof (λ k, counters_nonneg (counts i) k Hok) as Hn.
  unfold counters. rewrite !Forall_cons. rewrite !app_nil.
  rewrite (push_nil _ Queue _ (Hn Queue)), (push_nil _ Reply _ (Hn Reply)),
    (push_nil _ EmbeddedRun _ (Hn EmbeddedRun)), (push_nil _ BackgroundExec _ (Hn BackgroundExec)),
    (push_nil _ CronRun _ (Hn CronRun)), (push_nil _ RootRequest _ (Hn RootRequest)),
    (push_nil _ SessionAdmission _ (Hn SessionAdmission)),
    (push_nil _ SessionMutation _ (Hn SessionMutation)), (push_nil _ ChatRun _ (Hn ChatRun)),
    (push_nil _ QueuedTurn _ (Hn QueuedTurn)),
    (push_nil _ TerminalPersistence _ (Hn TerminalPersistence)),
    (push_nil _ TerminalSession _ (Hn TerminalSession)).
  pose proof (Hn Task) as Ht. cbn in Ht.
  destruct (0 <? active_tasks (counts i)) eqn:E; boolify.
  - pose proof (append_task_blockers_nonempty _ (task_blockers i) E). intuition lia.
  - intuition (lia || constructor).
Qed.

(** The idle decision and its report agree: the host is idle exactly when every
    counter is zero, exactly when the blocker list is empty; every kind of work is
    reported with its exact counter (a saturated total never hides work), and for
    tasks, whose first eight are listed one by one, the listed and the folded rows
    together never report fewer than the counter. *)
Theorem snapshot_reports_all_work (i : I) :
  counts_ok (counts i) →
  (is_idle (capture i) = true ↔ blockers (capture i) = []) ∧
  (is_idle (capture i) = true ↔ ∀ k, counter_of k (counts i) = 0) ∧
  (∀ k, k ≠ Task → reported k (blockers (capture i)) = counter_of k (counts i)) ∧
  (active_tasks (counts i) ≤ reported Task (blockers (capture i))) ∧
  ((length (task_blockers i) ≤ Z.to_nat (active_tasks (counts i)))%nat →
   reported Task (blockers (capture i)) = active_tasks (counts i)).
Proof.
  intros Hok. pose proof (λ k, counters_nonneg (counts i) k Hok) as Hn.
  assert (∀ k, reported k (blockers (capture i)) =
    (if bool_decide (Task = k) then 0 else counter_of k (counts i)) +
    if 0 <? active_tasks (counts i)
    then reported k (append_task_blockers (active_tasks (counts i)) (task_blockers i)) else 0) as Hrep.
  { intros k. unfold capture. cbn [blockers]. rewrite !reported_app.
    pose proof (Hn Queue). pose proof (Hn Reply). pose proof (Hn EmbeddedRun).
    pose proof (Hn BackgroundExec). pose proof (Hn CronRun). pose proof (Hn RootRequest).
    pose proof (Hn SessionAdmission). pose proof (Hn SessionMutation). pose proof (Hn ChatRun).
    pose proof (Hn QueuedTurn). pose proof (Hn TerminalPersistence). pose proof (Hn TerminalSession).
    cbn in *. rewrite !reported_push by done.
    destruct (0 <? active_tasks (counts i)), k; decide_kinds; cbn [counter_of reported foldr]; lia. }
  split_and!.
  - by apply idle_no_blockers.
  - unfold is_idle. rewrite counts_is_idle_spec by done. unfold capture, counters. cbn.
    rewrite !Forall_cons. split.
    + intros Hz k. destruct k; cbn; tauto || (destruct_and!; assumption).
    + intros Hz. split_and!; [apply (Hz Queue)|apply (Hz Reply)|apply (Hz EmbeddedRun)
      |apply (Hz BackgroundExec)|apply (Hz CronRun)|apply (Hz Task)|apply (Hz RootRequest)
      |apply (Hz SessionAdmission)|apply (Hz SessionMutation)|apply (Hz ChatRun)
      |apply (Hz QueuedTurn)|apply (Hz TerminalPersistence)|apply (Hz TerminalSession)|constructor].
  - intros k Hk. rewrite Hrep. rewrite bool_decide_eq_false_2 by congruence.
    destruct (0 <? _) eqn:E; boolify; [|lia]. rewrite reported_tasks by done.
    rewrite bool_decide_eq_false_2 by congruence. lia.
  - rewrite Hrep. pose proof (Hn Task) as Ht. cbn [counter_of] in Ht.
    destruct (0 <? _) eqn:E; boolify; rewrite ?reported_tasks by done; decide_kinds; lia.
  - intros Hl. rewrite Hrep. pose proof (Hn Task) as Ht. cbn [counter_of] in Ht.
    destruct (0 <? _) eqn:E; boolify; rewrite ?reported_tasks by done; decide_kinds; lia.
Qed.

End capture_spec.

(** A host with an embedded run and ten background tasks. *)
Inductive SampleHost := mkSampleHost.

#[export] Instance sample_host : ActiveWorkInspector SampleHost := {|
  counts := λ _, mkCounts 0 0 1 0 0 10 0 0 0 0 0 0 0;
  task_blockers := λ _, repeat (with_title (new_task (chars "t") Cron) (chars "nightly")) 10;
|}.

Lemma snapshot_reports_all_work_witness :
  reported EmbeddedRun (blockers (capture mkSampleHost)) = 1 ∧
  reported Task (blockers (capture mkSampleHost)) = 10 ∧
  length (blockers (capture mkSampleHost)) = 10%nat.
Proof.
  destruct (snapshot_reports_all_work mkSampleHost) as (_ & _ & Hk & _ & Ht).
  { repeat constructor; vm_compute; discriminate. }
  split; [exact (Hk EmbeddedRun ltac:(discriminate))|].
  split; [apply Ht; vm_compute; lia|vm_compute; reflexivity].
Defined.

(** ** Titles *)

Definition utf16_units (s : str) : Z := foldr (λ c acc, len_utf16 c + acc) 0 s.

Lemma len_utf16_pos c : 1 ≤ len_utf16 c ≤ 2.
Proof. unfold len_utf16. destruct (_ <? _); lia. Qed.

Lemma truncate_utf16_from_spec units s limit :
  ∃ rest, s = truncate_utf16_from units s limit ++ rest ∧
    (units ≤ limit → units + utf16_units (truncate_utf16_from units s limit) ≤ limit) ∧
    (rest = [] ∨ ∃ c rest', rest = c :: rest' ∧
       limit < units + utf16_units (truncate_utf16_from units s limit) + len_utf16 c).
Proof.
  revert units. induction s as [|c s IH]; intros units; cbn.
  { exists []. split_and!; [done|lia|by left]. }
  destruct (limit <? units + len_utf16 c) eqn:E; boolify.
  - exists (c :: s). cbn. split_and!; [done|lia|right; exists c, s; split; [done|lia]].
  - destruct (IH (units + len_utf16 c)) as (rest & Heq & Hle & Hmax).
    exists rest. cbn. fold (utf16_units (truncate_utf16_from (units + len_utf16 c) s limit)).
    split_and!; [by rewrite <- Heq|lia|].
    destruct Hmax as [->|(c' & rest' & -> & Hlt)]; [by left|right; exists c', rest'; split; [done|lia]].
Qed.

(** A reported title is the longest prefix of the title, in whole characters,
    that fits in 80 UTF-16 code units: no surrogate pair is split, nothing that
    fits is dropped, and a title that fits is reported whole. *)
Theorem truncate_longest_prefix s limit :
  0 ≤ limit →
  let t := truncate_utf16 s limit in
  utf16_units t ≤ limit ∧ (utf16_units s ≤ limit → t = s) ∧
  ∃ rest, s = t ++ rest ∧
    (rest = [] ∨ ∃ c rest', rest = c :: rest' ∧ limit < utf16_units (t ++ [c])).
Proof.
  intros Hl t. unfold t, truncate_utf16.
  destruct (truncate_utf16_from_spec 0 s limit) as (rest & Heq & Hle & Hmax).
  set (u := truncate_utf16_from 0 s limit) in *.
  assert (∀ a b, utf16_units (a ++ b) = utf16_units a + utf16_units b) as Happ.
  { intros a b. induction a as [|c a IH]; cbn; [done|].
    fold (utf16_units a) (utf16_units (a ++ b)). lia. }
  split_and!; [lia| |].
  - intros Hfit. destruct Hmax as [->|(c & rest' & -> & Hlt)]; [by rewrite app_nil_r in Heq|].
    rewrite Heq, Happ in Hfit. cbn in Hfit. fold (utf16_units rest') in Hfit.
    assert (0 ≤ utf16_units rest').
    { clear. induction rest' as [|c' r IH]; cbn; [done|]. pose proof (len_utf16_pos c').
      fold (utf16_units r). lia. }
    lia.
  - exists rest. split; [done|].
    destruct Hmax as [->|(c & rest' & -> & Hlt)]; [by left|right; exists c, rest'].
    split; [done|]. rewrite Happ. cbn. lia.
Qed.

Lemma truncate_longest_prefix_witness :
  truncate_utf16 (chars "ab" ++ [0x1F600]) 3 = chars "ab" ∧
  utf16_units (truncate_utf16 (chars "ab" ++ [0x1F600]) 3) ≤ 3.
Proof.
  split; [vm_compute; reflexivity|].
  exact (proj1 (truncate_longest_prefix (chars "ab" ++ [0x1F600]) 3 ltac:(lia))).
Defined.

End ActiveWork.
