(* ===== verification/Admission.v ===== *)
(** * The admission fence

    [crates/claw-platform/src/suspend/admission.rs]: the process-wide fence that
    admits or refuses root work, its root leases and its generation-fenced suspend
    leases. Each method holds the mutex for its whole body, so it is one atomic
    function of the state; what the callers own (the leases not yet dropped) is
    part of the [World] whose steps are the calls, in any order. *)

From S2P Require Import Prelude Utf8.

Module Admission.

Definition ROOT_WORK_RETRY_AFTER_MS : Z := 1000.

Definition SUSPEND_CONTROL_METHODS : list str :=
  [chars "gateway.suspend.prepare"; chars "gateway.suspend.status";
   chars "gateway.suspend.resume"].

Definition is_method_allowed_during_suspension (method : str) : bool :=
  bool_decide (method ∈ SUSPEND_CONTROL_METHODS).

Inductive AdmissionPhase := Accepting | Preparing | Prepared.

#[export] Instance AdmissionPhase_eq_dec : EqDecision AdmissionPhase.
Proof. solve_decision. Defined.

Definition phase_is_closed (p : AdmissionPhase) : bool :=
  match p with Accepting => false | _ => true end.

Inductive RefusalReason := GatewaySuspending | GatewayRestarting.

Definition is_reversible (r : RefusalReason) : bool :=
  match r with GatewaySuspending => true | GatewayRestarting => false end.

Record AdmissionRefusal := mkRefusal {
  reason : RefusalReason;
  refusal_phase : AdmissionPhase;
  retry_after_ms : Z;
}.

Record AdmissionState := mkState {
  phase : AdmissionPhase;
  restart_draining : bool;
  suspend_generation : Z;
  next_root_id : Z;
  active_root_work : gset Z;
}.

Definition refusal (s : AdmissionState) : option AdmissionRefusal :=
  if restart_draining s then
    Some (mkRefusal GatewayRestarting (phase s) ROOT_WORK_RETRY_AFTER_MS)
  else if phase_is_closed (phase s) then
    Some (mkRefusal GatewaySuspending (phase s) ROOT_WORK_RETRY_AFTER_MS)
  else None.

(** [WorkAdmission::new] *)
Definition new : AdmissionState := mkState Accepting false 0 1 ∅.

Definition is_closed (s : AdmissionState) : bool :=
  match refusal s with Some _ => true | None => false end.

(** [count_of] saturates at [u64::MAX]. *)
Definition count_of (n : nat) : Z := Z.min (Z.of_nat n) u64_max.

Definition active_root_count (s : AdmissionState) : Z := count_of (size (active_root_work s)).

Definition active_root_work_excluding (s : AdmissionState) (id : Z) : Z :=
  if bool_decide (id ∈ active_root_work s) then sat_sub (active_root_count s) 1
  else active_root_count s.

Definition mark_restart_draining (s : AdmissionState) : AdmissionState :=
  if phase_is_closed (phase s) then
    mkState Accepting true (wrap_add u64_max (suspend_generation s) 1) (next_root_id s)
      (active_root_work s)
  else mkState (phase s) true (suspend_generation s) (next_root_id s) (active_root_work s).

Definition try_begin_root_work (s : AdmissionState)
    : result AdmissionRefusal Z * AdmissionState :=
  match refusal s with
  | Some refusal => (Err refusal, s)
  | None =>
      let id := next_root_id s in
      (Ok id, mkState (phase s) (restart_draining s) (suspend_generation s)
                (wrap_add u64_max id 1) ({[id]} ∪ active_root_work s))
  end.

Definition try_begin_suspend (s : AdmissionState) : option Z * AdmissionState :=
  if restart_draining s || phase_is_closed (phase s) then (None, s)
  else
    let generation := wrap_add u64_max (suspend_generation s) 1 in
    (Some generation,
     mkState Preparing (restart_draining s) generation (next_root_id s) (active_root_work s)).

(** [release_root_work], run by the drop of a [RootWorkLease]. *)
Definition release_root_work (s : AdmissionState) (id : Z) : AdmissionState :=
  mkState (phase s) (restart_draining s) (suspend_generation s) (next_root_id s)
    (active_root_work s ∖ {[id]}).

Definition transition (s : AdmissionState) (generation : Z) (expected next : AdmissionPhase)
    : bool * AdmissionState :=
  if negb (suspend_generation s =? generation) || bool_decide (phase s ≠ expected) then (false, s)
  else (true, mkState next (restart_draining s) (suspend_generation s) (next_root_id s)
                (active_root_work s)).

Definition is_generation_active (s : AdmissionState) (generation : Z) : bool :=
  (suspend_generation s =? generation) && phase_is_closed (phase s).

(** The methods of [SuspendLease], which holds its generation. *)
Definition commit (s : AdmissionState) (lease : Z) : bool * AdmissionState :=
  transition s lease Preparing Prepared.

Definition rollback (s : AdmissionState) (lease : Z) : bool * AdmissionState :=
  transition s lease Preparing Accepting.

Definition release (s : AdmissionState) (lease : Z) : bool * AdmissionState :=
  transition s lease Prepared Accepting.

Definition is_active (s : AdmissionState) (lease : Z) : bool := is_generation_active s lease.

(** [Drop for SuspendLease] *)
Definition drop_lease (s : AdmissionState) (lease : Z) : AdmissionState :=
  let '(released, s) := release s lease in
  if negb released then (rollback s lease).2 else s.

(** ** The callers *)

(** The leases handed out and not yet dropped. *)
Record World := mkWorld {
  fence : AdmissionState;
  roots : list Z;
  leases : list Z;
}.

Definition init : World := mkWorld new [] [].

Inductive step : World → World → Prop :=
| step_root_admitted w id s :
    try_begin_root_work (fence w) = (Ok id, s) →
    step w (mkWorld s (id :: roots w) (leases w))
| step_root_refused w r s :
    try_begin_root_work (fence w) = (Err r, s) → step w (mkWorld s (roots w) (leases w))
| step_root_dropped w id pre post :
    roots w = pre ++ id :: post →
    step w (mkWorld (release_root_work (fence w) id) (pre ++ post) (leases w))
| step_suspend w g s :
    try_begin_suspend (fence w) = (Some g, s) →
    step w (mkWorld s (roots w) (g :: leases w))
| step_suspend_refused w s :
    try_begin_suspend (fence w) = (None, s) → step w (mkWorld s (roots w) (leases w))
| step_commit w g :
    g ∈ leases w → step w (mkWorld (commit (fence w) g).2 (roots w) (leases w))
| step_rollback w g :
    g ∈ leases w → step w (mkWorld (rollback (fence w) g).2 (roots w) (leases w))
| step_release w g :
    g ∈ leases w → step w (mkWorld (release (fence w) g).2 (roots w) (leases w))
| step_lease_dropped w g pre post :
    leases w = pre ++ g :: post →
    step w (mkWorld (drop_lease (fence w) g) (roots w) (pre ++ post))
| step_drain w :
    step w (mkWorld (mark_restart_draining (fence w)) (roots w) (leases w)).

(** Reachable in [n] calls; [n] bounds the counters, which wrap at 64 bits. *)
Inductive reachable : nat → World → Prop :=
| reach_init : reachable 0 init
| reach_step n w w' : reachable n w → step w w' → reachable (S n) w'.

(** ** Invariant *)

Record inv (n : nat) (w : World) : Prop := {
  inv_gen : 0 ≤ suspend_generation (fence w) ≤ Z.of_nat n;
  inv_next : 1 ≤ next_root_id (fence w) ≤ Z.of_nat n + 1;
  inv_count : (length (roots w) ≤ n)%nat;
  inv_roots : active_root_work (fence w) = list_to_set (roots w) ∧ NoDup (roots w) ∧
              Forall (λ id, id < next_root_id (fence w)) (roots w);
  inv_leases : NoDup (leases w) ∧ Forall (λ g, g ≤ suspend_generation (fence w)) (leases w);
  inv_owner : phase_is_closed (phase (fence w)) = true → suspend_generation (fence w) ∈ leases w;
  inv_drain : restart_draining (fence w) = true → phase (fence w) = Accepting;
}.

Lemma wrap_add_small x : 0 ≤ x < u64_max → wrap_add u64_max x 1 = x + 1.
Proof. intros H. unfold wrap_add. by rewrite Z.mod_small by lia. Qed.

(** A transition moves the phase of the current generation or nothing. *)
Lemma transition_cases s g expected next :
  transition s g expected next = (false, s) ∨
  suspend_generation s = g ∧ phase s = expected ∧
  transition s g expected next =
    (true, mkState next (restart_draining s) (suspend_generation s) (next_root_id s)
             (active_root_work s)).
Proof.
  unfold transition. destruct (_ =? _) eqn:E; [|by left]. cbn [negb orb].
  case_bool_decide as Hp; [by left|right]. boolify.
  split_and!; [done| |done]. by destruct (decide (phase s = expected)).
Qed.

Lemma transition_inv n w g expected next :
  inv n w → g ∈ leases w → expected ≠ Accepting →
  inv n (mkWorld (transition (fence w) g expected next).2 (roots w) (leases w)).
Proof.
  intros Hinv Hg Hne. destruct (transition_cases (fence w) g expected next) as [->|(Hgen & Hp & ->)].
  { by destruct w. }
  destruct Hinv as [H1 H2 H2' H3 H4 H5 H6]. split; cbn in *; try done.
  - intros _. by rewrite Hgen.
  - intros Hd. rewrite H6 in Hp by done. by subst.
Qed.

(** Dropping a lease reopens the fence if the lease still owns it. *)
Lemma drop_lease_eq s g :
  drop_lease s g =
  if is_active s g then
    mkState Accepting (restart_draining s) (suspend_generation s) (next_root_id s)
      (active_root_work s)
  else s.
Proof.
  unfold drop_lease, release, rollback, transition, is_active, is_generation_active.
  destruct (_ =? _) eqn:E; cbn [negb orb andb].
  - destruct (phase s) eqn:Ep; repeat (case_bool_decide; try done; cbn; rewrite ?E, ?Ep; cbn; try done).
  - cbn. by rewrite E.
Qed.

Lemma inv_mono n w : inv n w → inv (S n) w.
Proof. intros []. split; try done; lia. Qed.

Lemma step_inv n w w' : Z.of_nat (S n) < u64_max → inv n w → step w w' → inv (S n) w'.
Proof.
  intros Hn Hinv Hstep. pose proof Hinv as [[Hg0 Hg1] [Hx0 Hx1] Hct (Hr & Hnd & Hlt) (Hnl & Hle) Hown Hdr].
  inversion Hstep as [? id s E|? r s E|? id pre post E|? g s E|? s E|? g E|? g E|? g E|? g pre post E|?]; subst.
  - unfold try_begin_root_work in E. destruct (refusal (fence w)); [done|]. injection E as <- <-.
    rewrite wrap_add_small by lia. split; cbn; try done; try lia.
    split_and!; [by rewrite Hr| |].
    + constructor; [|done]. intros Hin. rewrite Forall_forall in Hlt. specialize (Hlt _ Hin). lia.
    + constructor; [lia|]. eapply Forall_impl; [done|]. cbn. lia.
  - unfold try_begin_root_work in E. destruct (refusal (fence w)); [|done]. injection E as <- <-.
    apply inv_mono. by destruct w.
  - rewrite E in Hr, Hnd, Hlt, Hct. rewrite length_app in Hct. cbn [length] in Hct.
    split; cbn; rewrite ?length_app; try done; try lia.
    apply NoDup_app in Hnd as (Hpre & Hdis & Hpost%NoDup_cons). destruct Hpost as [Hnin Hpost].
    apply Forall_app in Hlt as [Hlt1 [_ Hlt2]%Forall_cons]. split_and!.
    + rewrite Hr. rewrite list_to_set_app_L, list_to_set_cons, list_to_set_app_L.
      assert (id ∉ pre) by (intros Hp; by eapply Hdis; [done|left]). set_solver.
    + apply NoDup_app. split_and!; [done|set_solver|done].
    + by apply Forall_app.
  - unfold try_begin_suspend in E. destruct (restart_draining (fence w)) eqn:Ed; [done|].
    destruct (phase_is_closed _) eqn:Ec; [done|]. injection E as <- <-.
    rewrite wrap_add_small by lia. split; cbn; try done; try lia.
    + split.
      * constructor; [|done]. intros Hin. rewrite Forall_forall in Hle. specialize (Hle _ Hin). lia.
      * constructor; [lia|]. eapply Forall_impl; [done|]. cbn. lia.
    + set_solver.
  - unfold try_begin_suspend in E. destruct (_ || _); [|done]. injection E as <-.
    apply inv_mono. by destruct w.
  - by apply inv_mono, transition_inv.
  - by apply inv_mono, transition_inv.
  - by apply inv_mono, transition_inv.
  - rewrite E in *. rewrite drop_lease_eq. unfold is_active, is_generation_active.
    apply NoDup_app in Hnl as (Hpre & Hdis & [Hnin Hpost]%NoDup_cons).
    apply Forall_app in Hle as [Hle1 [Hleg Hle2]%Forall_cons].
    assert (NoDup (pre ++ post)) by (apply NoDup_app; split_and!; [done|set_solver|done]).
    assert (Forall (λ g, g ≤ suspend_generation (fence w)) (pre ++ post)) by (by apply Forall_app).
    destruct (suspend_generation (fence w) =? g) eqn:Eg; boolify; cbn [andb].
    + destruct (phase_is_closed (phase (fence w))) eqn:Ec; split; cbn; try done; try lia.
      by rewrite Ec.
    + split; cbn; try done; try lia. intros Hc. apply Hown in Hc.
      apply elem_of_app. apply elem_of_app in Hc as [?|[?|?]%elem_of_cons]; [by left|done|by right].
  - unfold mark_restart_draining. destruct (phase_is_closed (phase (fence w))) eqn:Ec.
    + rewrite wrap_add_small by lia. split; cbn; try done; try lia. split; [done|].
      eapply Forall_impl; [done|]. cbn. lia.
    + split; cbn; try done; try lia; [by rewrite Ec|].
      intros _. revert Ec. by destruct (phase (fence w)).
Qed.

Lemma reachable_inv n w : reachable n w → Z.of_nat n < u64_max → inv n w.
Proof.
  induction 1 as [|n w w' Hr IH Hs]; intros Hn.
  - split; cbn; try done; try lia; split_and!; done || constructor.
  - eapply step_inv; [|apply IH|done]; lia.
Qed.

(** C24. The fence invariant, over any interleaving of calls and drops. The
    outstanding root work is exactly the set of root leases not yet dropped, each
    counted once; the fence is closed only while a live suspend lease owns it, so
    a host whose suspend leases are all gone is never left fenced; a draining host
    has no suspension. *)
Theorem fence_invariant n w :
  reachable n w → Z.of_nat n < u64_max →
  active_root_work (fence w) = list_to_set (roots w) ∧
  active_root_count (fence w) = len (roots w) ∧
  (phase_is_closed (phase (fence w)) = true →
     suspend_generation (fence w) ∈ leases w ∧ restart_draining (fence w) = false) ∧
  (leases w = [] → refusal (fence w) =
     if restart_draining (fence w)
     then Some (mkRefusal GatewayRestarting Accepting ROOT_WORK_RETRY_AFTER_MS) else None).
Proof.
  intros Hr Hn. destruct (reachable_inv n w Hr Hn) as [Hg Hx Hct (Hset & Hnd & Hlt) Hl Hown Hdr].
  split_and!; [done| | |].
  - unfold active_root_count, count_of, len. rewrite Hset, size_list_to_set by done. lia.
  - intros Hc. split; [by apply Hown|]. destruct (restart_draining (fence w)); [|done].
    rewrite Hdr in Hc by done. done.
  - intros Hl0. unfold refusal. destruct (restart_draining (fence w)) eqn:Ed; [by rewrite Hdr|].
    destruct (phase_is_closed _) eqn:Ec; [|done]. rewrite Hl0 in Hown.
    by specialize (Hown eq_refl) as ?%elem_of_nil.
Qed.

Lemma fence_invariant_witness :
  let w := mkWorld (mkState Preparing false 1 2 {[1]}) [1] [1] in
  reachable 2 w ∧ active_root_count (fence w) = 1 ∧
  suspend_generation (fence w) ∈ leases w.
Proof.
  intros w.
  assert (reachable 2 w) as Hw.
  { eapply (reach_step 1 (mkWorld (mkState Accepting false 0 2 {[1]}) [1] [])).
    - eapply reach_step; [apply reach_init|]. exact (step_root_admitted init _ _ eq_refl).
    - exact (step_suspend (mkWorld (mkState Accepting false 0 2 {[1]}) [1] []) _ _ eq_refl). }
  destruct (fence_invariant 2 w Hw eq_refl) as (_ & Hc & Ho & _).
  split; [exact Hw|]. split; [exact Hc|]. exact (proj1 (Ho eq_refl)).
Defined.

(** The phase of a state moved, everything else kept. *)
Definition set_phase (s : AdmissionState) (p : AdmissionPhase) : AdmissionState :=
  mkState p (restart_draining s) (suspend_generation s) (next_root_id s) (active_root_work s).

(** What a call can do to the fence. *)
Lemma step_fence w w' :
  step w w' →
  fence w' = fence w ∨
  (refusal (fence w) = None ∧ fence w' = (try_begin_root_work (fence w)).2) ∨
  (∃ id, fence w' = release_root_work (fence w) id) ∨
  (restart_draining (fence w) = false ∧ phase_is_closed (phase (fence w)) = false ∧
   fence w' = (try_begin_suspend (fence w)).2) ∨
  (phase_is_closed (phase (fence w)) = true ∧ ∃ p, fence w' = set_phase (fence w) p) ∨
  fence w' = mark_restart_draining (fence w).
Proof.
  assert (∀ g e n, phase_is_closed e = true →
    (transition (fence w) g e n).2 = fence w ∨
    phase_is_closed (phase (fence w)) = true ∧ (transition (fence w) g e n).2 = set_phase (fence w) n) as Ht.
  { intros g e n He. destruct (transition_cases (fence w) g e n) as [->|(_ & -> & ->)]; auto. }
  intros Hstep.
  inversion Hstep as [? id s E|? r s E|? id pre post E|? g s E|? s E|? g E|? g E|? g E|? g pre post E|?];
    subst; cbn [fence].
  - rewrite E. unfold try_begin_root_work in E. destruct (refusal _); [done|]. by right; left.
  - unfold try_begin_root_work in E. destruct (refusal _); [|done]. injection E as _ <-. by left.
  - right; right; left. by exists id.
  - rewrite E. unfold try_begin_suspend in E. destruct (restart_draining _), (phase_is_closed _); try done.
    by do 3 right; left.
  - unfold try_begin_suspend in E. destruct (_ || _); [|done]. injection E as <-. by left.
  - destruct (Ht g Preparing Prepared eq_refl) as [H|[Hc H]]; [by left|]. do 4 right; left. by split; [|eexists].
  - destruct (Ht g Preparing Accepting eq_refl) as [H|[Hc H]]; [by left|]. do 4 right; left. by split; [|eexists].
  - destruct (Ht g Prepared Accepting eq_refl) as [H|[Hc H]]; [by left|]. do 4 right; left. by split; [|eexists].
  - rewrite drop_lease_eq. destruct (is_active (fence w) g) eqn:Ea; [|by left].
    apply andb_true_iff in Ea as [_ Hc]. do 4 right; left. split; [done|]. by exists Accepting.
  - by do 5 right.
Qed.

(** ** Generation fencing *)

Lemma step_generation n w w' :
  Z.of_nat (S n) < u64_max → inv n w → step w w' →
  (suspend_generation (fence w') = suspend_generation (fence w) ∧
   (phase_is_closed (phase (fence w')) = true → phase_is_closed (phase (fence w)) = true)) ∨
  suspend_generation (fence w') = suspend_generation (fence w) + 1.
Proof.
  intros Hn [[Hg0 Hg1] _ _ _ _ _ _] Hstep.
  destruct (step_fence w w' Hstep) as [->|[[Hr ->]|[[id ->]|[(Hd & Hc & ->)|[[Hc [p ->]]| ->]]]]].
  - by left.
  - left. unfold try_begin_root_work. by rewrite Hr.
  - by left.
  - right. unfold try_begin_suspend. rewrite Hd, Hc. cbn. apply wrap_add_small. lia.
  - by left.
  - unfold mark_restart_draining. destruct (phase_is_closed (phase (fence w))) eqn:Ec; [right|left].
    + cbn. apply wrap_add_small. lia.
    + cbn. by rewrite Ec.
Qed.

(** A lease that does not own the fence never owns it again. *)
Lemma stale_step n w w' g :
  Z.of_nat (S n) < u64_max → inv n w → step w w' → g ≤ suspend_generation (fence w) →
  is_active (fence w) g = false →
  g ≤ suspend_generation (fence w') ∧ is_active (fence w') g = false.
Proof.
  intros Hn Hinv Hs Hg Ha. destruct (step_generation n w w' Hn Hinv Hs) as [[Heq Hc]|Heq]; rewrite Heq.
  - split; [done|]. unfold is_active, is_generation_active in *. rewrite Heq.
    destruct (_ =? g); [|done]. cbn in *. destruct (phase_is_closed (phase (fence w'))); [|done].
    by rewrite Hc in Ha.
  - split; [lia|]. unfold is_active, is_generation_active. rewrite Heq.
    by replace (_ =? g) with false by lia.
Qed.

Lemma stale_steps n k w w' g :
  reachable n w → nsteps step k w w' → Z.of_nat (n + k) < u64_max →
  g ≤ suspend_generation (fence w) → is_active (fence w) g = false →
  is_active (fence w') g = false.
Proof.
  intros Hr Hsteps. revert n Hr. induction Hsteps as [w|k w w1 w' Hs Hsteps IH]; intros n Hr Hn Hg Ha; [done|].
  destruct (stale_step n w w1 g) as [Hg1 Ha1]; [lia|by apply reachable_inv; [|lia]|done..|].
  apply (IH (S n)); [by eapply reach_step|lia|done|done].
Qed.

Lemma inactive_inert s g :
  is_active s g = false →
  commit s g = (false, s) ∧ rollback s g = (false, s) ∧ release s g = (false, s) ∧
  drop_lease s g = s.
Proof.
  intros Ha. rewrite drop_lease_eq, Ha. unfold is_active, is_generation_active in Ha.
  unfold commit, rollback, release, transition.
  destruct (_ =? g); [|done]. cbn in *. destruct (phase s); [|done..].
  rewrite !bool_decide_eq_true_2 by done. done.
Qed.

(** Generation fencing: once a suspend lease has lost the fence, to a restart
    drain or by rolling back or releasing, then whatever calls follow, in any
    order and by any owner, it never owns it again; committing, rolling back,
    releasing or dropping it changes nothing, so it cannot reopen or close a fence
    that belongs to a later suspension. *)
Theorem superseded_lease_inert n k w w' g :
  reachable n w → nsteps step k w w' → Z.of_nat (n + k) < u64_max →
  g ∈ leases w → is_active (fence w) g = false →
  is_active (fence w') g = false ∧ commit (fence w') g = (false, fence w') ∧
  rollback (fence w') g = (false, fence w') ∧ release (fence w') g = (false, fence w') ∧
  drop_lease (fence w') g = fence w'.
Proof.
  intros Hr Hs Hn Hg Ha. destruct (reachable_inv n w Hr) as [_ _ _ _ [_ Hle] _ _]; [lia|].
  rewrite Forall_forall in Hle. assert (is_active (fence w') g = false) as Ha'.
  { eapply stale_steps; eauto. }
  split; [done|]. by apply inactive_inert.
Qed.

(** A lease superseded by a drain, seen after a root request was refused. *)
Lemma superseded_lease_inert_witness :
  let w := mkWorld (mkState Accepting true 2 1 ∅) [] [1] in
  reachable 2 w ∧ release (fence w) 1 = (false, fence w) ∧ drop_lease (fence w) 1 = fence w.
Proof.
  intros w.
  assert (reachable 2 w) as Hw.
  { eapply (reach_step 1 (mkWorld (mkState Preparing false 1 1 ∅) [] [1])).
    - eapply reach_step; [apply reach_init|]. exact (step_suspend init _ _ eq_refl).
    - exact (step_drain (mkWorld (mkState Preparing false 1 1 ∅) [] [1])). }
  destruct (superseded_lease_inert 2 0 w w 1) as (_ & _ & _ & Hrel & Hdrop);
    [exact Hw|constructor|reflexivity|left|reflexivity|].
  split; [exact Hw|]. split; [exact Hrel|exact Hdrop].
Defined.

(** ** Refusing work *)

Lemma closed_step w w' :
  step w w' → is_closed (fence w) = true →
  active_root_work (fence w') ⊆ active_root_work (fence w).
Proof.
  unfold is_closed. intros Hstep Hc.
  destruct (step_fence w w' Hstep) as [->|[[Hr ->]|[[id ->]|[(Hd & Ho & ->)|[[Ho [p ->]]| ->]]]]].
  - done.
  - by rewrite Hr in Hc.
  - cbn. set_solver.
  - unfold try_begin_suspend. by rewrite Hd, Ho.
  - done.
  - unfold mark_restart_draining. by destruct (phase_is_closed _).
Qed.

Lemma step_keeps_draining w w' :
  step w w' → restart_draining (fence w) = true → restart_draining (fence w') = true.
Proof.
  intros Hstep Hd.
  destruct (step_fence w w' Hstep) as [->|[[Hr ->]|[[id ->]|[(Hd' & Ho & ->)|[[Ho [p ->]]| ->]]]]]; try done.
  - unfold try_begin_root_work. by rewrite Hr.
  - by rewrite Hd in Hd'.
  - unfold mark_restart_draining. by destruct (phase_is_closed _).
Qed.

Lemma active_closed s g : is_active s g = true → is_closed s = true.
Proof.
  unfold is_active, is_generation_active, is_closed, refusal. intros [_ ->]%andb_true_iff.
  by destruct (restart_draining s).
Qed.

(** Refuse-only suspension: while a lease owns the fence, from any moment at
    which it does to any later moment at which it still does, no root work is
    admitted; the outstanding work can only finish. *)
Theorem fenced_window_admits_nothing n k w w' g :
  reachable n w → nsteps step k w w' → Z.of_nat (n + k) < u64_max →
  g ∈ leases w → is_active (fence w) g = true → is_active (fence w') g = true →
  active_root_work (fence w') ⊆ active_root_work (fence w).
Proof.
  intros Hr Hsteps Hn Hg Ha Ha'.
  assert (g ≤ suspend_generation (fence w)) as Hle.
  { apply andb_true_iff in Ha as [Hgen _]. boolify. lia. }
  clear Hg. revert n Hr Hn Ha Ha' Hle.
  induction Hsteps as [w|k w w1 w' Hs Hsteps IH]; intros n Hr Hn Ha Ha' Hle; [done|].
  etrans; [|apply (closed_step w w1 Hs); by eapply active_closed].
  assert (reachable (S n) w1) as Hr1 by (by eapply reach_step).
  assert (g ≤ suspend_generation (fence w1)) as Hle1.
  { destruct (step_generation n w w1) as [[-> _]| ->]; [lia|by apply reachable_inv; [|lia]|done|done|lia]. }
  destruct (is_active (fence w1) g) eqn:E1; [apply (IH (S n)); done || lia|].
  rewrite (stale_steps (S n) k w1 w' g) in Ha'; [done|done|done|lia|done|done].
Qed.

Lemma fenced_window_admits_nothing_witness :
  let w := mkWorld (mkState Preparing false 1 2 {[1]}) [1] [1] in
  let w' := mkWorld (mkState Preparing false 1 2 ∅) [] [1] in
  step w w' ∧ active_root_work (fence w') ⊆ active_root_work (fence w).
Proof.
  intros w w'.
  assert (reachable 2 w) as Hw.
  { eapply (reach_step 1 (mkWorld (mkState Accepting false 0 2 {[1]}) [1] [])).
    - eapply reach_step; [apply reach_init|]. exact (step_root_admitted init _ _ eq_refl).
    - exact (step_suspend (mkWorld (mkState Accepting false 0 2 {[1]}) [1] []) _ _ eq_refl). }
  assert (step w w') as Hs by exact (step_root_dropped w 1 [] [] eq_refl).
  split; [exact Hs|].
  apply (fenced_window_admits_nothing 2 1 w w' 1);
    [exact Hw|exact (nsteps_once _ _ Hs)|reflexivity|left|reflexivity|reflexivity].
Defined.

(** Restart draining is one-way: once marked, whatever follows, root work is
    refused as restarting, no suspension begins, and no root work is added. *)
Theorem restart_drain_one_way w w' :
  restart_draining (fence w) = true → rtc step w w' →
  restart_draining (fence w') = true ∧
  active_root_work (fence w') ⊆ active_root_work (fence w) ∧
  (try_begin_root_work (fence w')).1 =
    Err (mkRefusal GatewayRestarting (phase (fence w')) ROOT_WORK_RETRY_AFTER_MS) ∧
  (try_begin_suspend (fence w')).1 = None.
Proof.
  intros Hd Hsteps.
  assert (restart_draining (fence w') = true ∧
          active_root_work (fence w') ⊆ active_root_work (fence w)) as [Hd' Hsub].
  { induction Hsteps as [w|w w1 w' Hs _ IH]; [done|].
    assert (restart_draining (fence w1) = true) as Hd1 by (by eapply step_keeps_draining).
    destruct (IH Hd1) as [H1 H2]. split; [done|]. etrans; [done|].
    apply (closed_step w w1 Hs). unfold is_closed, refusal. by rewrite Hd. }
  split_and!; [done|done| |].
  - unfold try_begin_root_work, refusal. by rewrite Hd'.
  - unfold try_begin_suspend. by rewrite Hd'.
Qed.

Lemma restart_drain_one_way_witness :
  (try_begin_root_work (mark_restart_draining new)).1 =
    Err (mkRefusal GatewayRestarting Accepting ROOT_WORK_RETRY_AFTER_MS).
Proof.
  exact (proj1 (proj2 (proj2 (restart_drain_one_way
    (mkWorld (mark_restart_draining new) [] []) _ eq_refl (rtc_refl _ _))))).
Defined.

End Admission.
