(* ===== verification/Coordinator.v ===== *)
(** * The suspension coordinator

    [crates/claw-platform/src/suspend/coordinator.rs] over the admission fence.
    An operation of the coordinator holds the coordinator's mutex for its whole
    body, but between its calls to the fence, the scheduler, the clock and the
    inspector other threads run: they admit and drop root work and may start a
    restart drain. An operation is therefore a program ([Prog]) that performs one
    call at a time, and [run] executes it against an interleaving: a list of other
    threads' actions and of turns, each turn carrying what the ports would answer.

    The ghost field [paused] of the world records whether the scheduler was last
    successfully paused or resumed. *)

From S2P Require Import Prelude Utf8 ActiveWork Admission.
Import ActiveWork Admission.

Module Coordinator.

Definition SUSPEND_TTL_MS : Z := 2 * 60000.
Definition SUSPEND_RETRY_AFTER_MS : Z := 20000.
Definition SCHEDULER_RECOVERY_RETRY_MS : Z := 1000.
Definition MAX_SUSPENSION_TOKEN_LEN : Z := 128.

Record SchedulerError := mkSchedulerError { error_message : str }.

Definition is_valid_suspension_token (token : str) : bool :=
  let length := utf16_units token in
  (1 <=? length) && (length <=? MAX_SUSPENSION_TOKEN_LEN)
  && existsb (λ c, negb (is_whitespace c)) token.

(** ** Ports and programs *)

(** The traits [Clock], [Scheduler], [ActiveWorkInspector] and [SuspensionIds]. *)
Inductive Port := Now | Pause | Resume | Inspect | NextId.

Definition PAns (p : Port) : Type :=
  match p with
  | Now => Z
  | Pause | Resume => result SchedulerError unit
  | Inspect => (ActiveWorkCounts * list TaskBlocker)%type
  | NextId => str
  end.

(** The methods of the fence and of the suspend lease. *)
Inductive FenceOp :=
| BeginSuspend
| Commit (lease : Z)
| Rollback (lease : Z)
| Release (lease : Z)
| IsActive (lease : Z)
| DropLease (lease : Z).

Definition FAns (f : FenceOp) : Type :=
  match f with
  | BeginSuspend => option Z
  | Commit _ | Rollback _ | Release _ | IsActive _ => bool
  | DropLease _ => unit
  end.

Definition fence_op (f : FenceOp) (s : AdmissionState) : FAns f * AdmissionState :=
  match f with
  | BeginSuspend => try_begin_suspend s
  | Commit g => commit s g
  | Rollback g => rollback s g
  | Release g => release s g
  | IsActive g => (is_active s g, s)
  | DropLease g => (tt, drop_lease s g)
  end.

Inductive Prog (A : Type) :=
| Ret (a : A)
| Ask (p : Port) (k : PAns p → Prog A)
| Fence (f : FenceOp) (k : FAns f → Prog A).
Arguments Ret {A} a.
Arguments Ask {A} p k.
Arguments Fence {A} f k.

#[export] Instance prog_ret : MRet Prog := λ A a, Ret a.

Fixpoint prog_bind_def {A B} (k : A → Prog B) (p : Prog A) : Prog B :=
  match p with
  | Ret a => k a
  | Ask p h => Ask p (λ a, prog_bind_def k (h a))
  | Fence f h => Fence f (λ a, prog_bind_def k (h a))
  end.

#[export] Instance prog_bind : MBind Prog := @prog_bind_def.

Definition ask (p : Port) : Prog (PAns p) := Ask p Ret.
Definition fence (f : FenceOp) : Prog (FAns f) := Fence f Ret.

(** ** Data *)

Inductive BusyReason := ActiveWork | GatewayDraining.

Inductive PrepareOutcome :=
| PReady (suspension_id : str) (expires_at_ms active_count : Z) (blockers : list Blocker)
| PBusy (reason : BusyReason) (retry_after_ms active_count : Z) (blockers : list Blocker)
| PConflict (expires_at_ms : Z)
| PRecovering (retry_after_ms : Z).

Inductive StatusOutcome :=
| SRunning
| SReady (expires_at_ms : Z)
| SConflict (expires_at_ms : Z)
| SRecovering (retry_after_ms : Z).

Inductive ResumeOutcome :=
| Resumed
| AlreadyRunning
| Mismatch
| RRecovering (retry_after_ms : Z).

Definition is_running (r : ResumeOutcome) : bool :=
  match r with Resumed | AlreadyRunning => true | _ => false end.

Record HeldSuspension := mkHeld {
  request_id : str;
  suspension_id : str;
  expires_at_ms : Z;
  snapshot : ActiveWorkSnapshot;
  lease : Z;
}.

Inductive CoordinatorState :=
| Idle
| Held (held : HeldSuspension)
| Recovering (lease : Z) (retry_at_ms : Z).

(** ** Operations *)

#[export] Instance read_inspector : ActiveWorkInspector (ActiveWorkCounts * list TaskBlocker) := {|
  counts := fst;
  task_blockers := snd;
|}.

Definition capture_snapshot : Prog ActiveWorkSnapshot :=
  reading ← ask Inspect; Ret (capture reading).

Definition enter_recovery (lease : Z) : Prog CoordinatorState :=
  now ← ask Now; Ret (Recovering lease (sat_add u64_max now SCHEDULER_RECOVERY_RETRY_MS)).

Definition busy (reason : BusyReason) (s : ActiveWorkSnapshot) : PrepareOutcome :=
  PBusy reason SUSPEND_RETRY_AFTER_MS (active_count s) (blockers s).

(** [normalize]: the next state and whether the coordinator is usable. A lease
    that the source lets go out of scope is dropped explicitly. *)
Definition normalize (state : CoordinatorState) : Prog (CoordinatorState * bool) :=
  match state with
  | Idle => Ret (Idle, true)
  | Recovering lease retry_at_ms =>
      active ← fence (IsActive lease);
      if negb active then
        _ ← fence (DropLease lease); Ret (Idle, true)
      else
        now ← ask Now;
        if now <? retry_at_ms then Ret (Recovering lease retry_at_ms, false)
        else
          r ← ask Resume;
          match r with
          | Ok _ =>
              _ ← fence (Release lease);
              _ ← fence (DropLease lease);
              Ret (Idle, true)
          | Err _ => next ← enter_recovery lease; Ret (next, false)
          end
  | Held held =>
      active ← fence (IsActive (lease held));
      if negb active then
        _ ← fence (DropLease (lease held)); Ret (Idle, true)
      else
        now ← ask Now;
        if expires_at_ms held <=? now then
          r ← ask Resume;
          match r with
          | Ok _ =>
              _ ← fence (Release (lease held));
              _ ← fence (DropLease (lease held));
              Ret (Idle, true)
          | Err _ => next ← enter_recovery (lease held); Ret (next, false)
          end
        else Ret (Held held, true)
  end.

(** The part of [prepare] after the fence is free to be claimed. *)
Definition prepare_fresh (ttl_ms : Z) (request_id : str)
    : Prog (PrepareOutcome * CoordinatorState) :=
  claimed ← fence BeginSuspend;
  match claimed with
  | None => snapshot ← capture_snapshot; Ret (busy GatewayDraining snapshot, Idle)
  | Some lease =>
      p ← ask Pause;
      match p with
      | Err _ =>
          _ ← fence (Rollback lease);
          _ ← fence (DropLease lease);
          Ret (PRecovering SCHEDULER_RECOVERY_RETRY_MS, Idle)
      | Ok _ =>
          snapshot ← capture_snapshot;
          if negb (is_idle snapshot) then
            r ← ask Resume;
            match r with
            | Err _ =>
                state ← enter_recovery lease;
                Ret (PRecovering SCHEDULER_RECOVERY_RETRY_MS, state)
            | Ok _ =>
                _ ← fence (Rollback lease);
                _ ← fence (DropLease lease);
                Ret (busy ActiveWork snapshot, Idle)
            end
          else
            committed ← fence (Commit lease);
            if negb committed then
              _ ← fence (DropLease lease);
              Ret (busy GatewayDraining snapshot, Idle)
            else
              suspension_id ← ask NextId;
              now ← ask Now;
              let expires_at_ms := sat_add u64_max now ttl_ms in
              Ret (PReady suspension_id expires_at_ms (active_count snapshot) (blockers snapshot),
                   Held (mkHeld request_id suspension_id expires_at_ms snapshot lease))
      end
  end.

Definition prepare (ttl_ms : Z) (state : CoordinatorState) (request : str)
    : Prog (PrepareOutcome * CoordinatorState) :=
  let request := trim request in
  '(state, usable) ← normalize state;
  if negb usable then Ret (PRecovering SCHEDULER_RECOVERY_RETRY_MS, state)
  else
    match state with
    | Held held =>
        if bool_decide (request_id held ≠ request) then
          Ret (PConflict (expires_at_ms held), state)
        else
          now ← ask Now;
          let expires := sat_add u64_max now ttl_ms in
          Ret (PReady (suspension_id held) expires (active_count (snapshot held))
                 (blockers (snapshot held)),
               Held (mkHeld (request_id held) (suspension_id held) expires (snapshot held)
                       (lease held)))
    | _ => prepare_fresh ttl_ms request
    end.

Definition status (state : CoordinatorState) (id : str)
    : Prog (StatusOutcome * CoordinatorState) :=
  let id := trim id in
  '(state, usable) ← normalize state;
  if negb usable then Ret (SRecovering SCHEDULER_RECOVERY_RETRY_MS, state)
  else
    match state with
    | Held held =>
        if bool_decide (suspension_id held = id) then Ret (SReady (expires_at_ms held), state)
        else Ret (SConflict (expires_at_ms held), state)
    | _ => Ret (SRunning, state)
    end.

Definition resume (state : CoordinatorState) (id : str)
    : Prog (ResumeOutcome * CoordinatorState) :=
  let id := trim id in
  '(state, usable) ← normalize state;
  if negb usable then Ret (RRecovering SCHEDULER_RECOVERY_RETRY_MS, state)
  else
    match state with
    | Held held =>
        if bool_decide (suspension_id held = id) then
          r ← ask Resume;
          match r with
          | Ok _ =>
              _ ← fence (Release (lease held));
              _ ← fence (DropLease (lease held));
              Ret (Resumed, Idle)
          | Err _ =>
              state ← enter_recovery (lease held);
              Ret (RRecovering SCHEDULER_RECOVERY_RETRY_MS, state)
          end
        else Ret (Mismatch, state)
    | _ => Ret (AlreadyRunning, state)
    end.

Definition poll (state : CoordinatorState) : Prog (bool * CoordinatorState) :=
  '(state, usable) ← normalize state; Ret (usable, state).

Definition is_recovering (state : CoordinatorState) : bool :=
  match state with Recovering _ _ => true | _ => false end.

(** ** Interleavings *)

Record World := mkWorld { wfence : AdmissionState; paused : bool }.

(** What other threads do to the fence: they begin and drop root work and start a
    restart drain. They do not suspend it: the fence is shared and its
    [try_begin_suspend] is public, but the coordinator is the only code of the
    repository that calls it outside tests, and the theorems assume it stays so. *)
Inductive OtherOp := OBeginRoot | ODropRoot (id : Z) | ODrain.

Definition other (o : OtherOp) (w : World) : World :=
  mkWorld
    match o with
    | OBeginRoot => (try_begin_root_work (wfence w)).2
    | ODropRoot id => release_root_work (wfence w) id
    | ODrain => mark_restart_draining (wfence w)
    end (paused w).

(** What each port would answer at one turn. *)
Record Answers := mkAnswers {
  a_now : Z;
  a_pause : result SchedulerError unit;
  a_resume : result SchedulerError unit;
  a_inspect : ActiveWorkCounts * list TaskBlocker;
  a_id : str;
}.

Definition answer (p : Port) (a : Answers) : PAns p :=
  match p with
  | Now => a_now a
  | Pause => a_pause a
  | Resume => a_resume a
  | Inspect => a_inspect a
  | NextId => a_id a
  end.

(** The effect of a port's answer on the world. *)
Definition port_effect (p : Port) : PAns p → World → World :=
  match p with
  | Pause => λ a w, if is_ok a then mkWorld (wfence w) true else w
  | Resume => λ a w, if is_ok a then mkWorld (wfence w) false else w
  | _ => λ _ w, w
  end.

Inductive Stim := Other (o : OtherOp) | Turn (a : Answers).

(** The result, the final world and every world visited; [None] when the
    interleaving ends too early or goes on after the program has returned a value
    to a turn. *)
Fixpoint run {A} (env : list Stim) (p : Prog A) (w : World) : option (A * World * list World) :=
  let visit (r : option (A * World * list World)) :=
    match r with Some (a, w', ws) => Some (a, w', w :: ws) | None => None end in
  match env with
  | [] => match p with Ret a => Some (a, w, [w]) | _ => None end
  | Other o :: env => visit (run env p (other o w))
  | Turn a :: env =>
      match p with
      | Ret _ => None
      | Ask port k =>
          let ans := answer port a in
          visit (run env (k ans) (port_effect port ans w))
      | Fence f k =>
          let '(ans, s) := fence_op f (wfence w) in
          visit (run env (k ans) (mkWorld s (paused w)))
      end
  end.

(** ** Reasoning under interference

    [safe p Q w]: from [w], whatever other threads do between its calls and
    whatever the ports answer, [p] visits only worlds satisfying [Inv] and returns
    in one satisfying [Q]. Assertions used in proofs are [stable]: other threads
    preserve them. *)
Section safety.
Context (Inv : World → Prop).

Fixpoint safe {A} (p : Prog A) (Q : A → World → Prop) (w : World) : Prop :=
  ∀ os, let w := foldl (λ w o, other o w) w os in
  Inv w ∧
  match p with
  | Ret a => Q a w
  | Ask port k => ∀ ans, safe (k ans) Q (port_effect port ans w)
  | Fence f k =>
      let '(ans, s) := fence_op f (wfence w) in safe (k ans) Q (mkWorld s (paused w))
  end.

Lemma safe_other {A} (p : Prog A) Q w o : safe p Q w → safe p Q (other o w).
Proof. destruct p; intros H os; exact (H (o :: os)). Qed.

Lemma safe_run {A} env (p : Prog A) Q w a w' ws :
  safe p Q w → run env p w = Some (a, w', ws) → Q a w' ∧ Forall Inv ws.
Proof.
  revert p w ws. induction env as [|[o|t] env IH]; intros p w ws Hs; cbn [run].
  - destruct p; [|done..]. intros [= <- <- <-]. destruct (Hs []) as [HI HQ]. by split; [|constructor].
  - destruct (run env p (other o w)) as [[[a1 w1] ws1]|] eqn:E; [|done]. intros [= <- <- <-].
    apply IH in E as [HQ HI]; [|by apply safe_other]. split; [done|]. constructor; [|done].
    by destruct p; destruct (Hs []).
  - destruct p as [b|port k|f k]; [done| |].
    + destruct (run env _ _) as [[[a1 w1] ws1]|] eqn:E; [|done]. intros [= <- <- <-].
      destruct (Hs []) as [HI Hk]. apply IH in E as [HQ HI']; [|apply Hk]. by split; [|constructor].
    + destruct (Hs []) as [HI Hk]. cbn [foldl] in Hk. destruct (fence_op f (wfence w)) as [ans s].
      destruct (run env _ _) as [[[a1 w1] ws1]|] eqn:E; [|done]. intros [= <- <- <-].
      apply IH in E as [HQ HI']; [|apply Hk]. by split; [|constructor].
Qed.

Definition stable (P : World → Prop) : Prop := ∀ o w, P w → P (other o w).

Lemma stable_foldl P os w : stable P → P w → P (foldl (λ w o, other o w) w os).
Proof. intros HP. revert w. induction os as [|o os IH]; intros w Hw; [done|]. by apply IH, HP. Qed.

Lemma safe_ret {A} (P : World → Prop) (a : A) (Q : A → World → Prop) w :
  stable P → P w → (∀ w, P w → Inv w ∧ Q a w) → safe (Ret a) Q w.
Proof. intros HP Hw H os. by apply H, stable_foldl. Qed.

Lemma safe_ask {A} (P : World → Prop) port (k : PAns port → Prog A) Q w :
  stable P → P w → (∀ w, P w → Inv w) →
  (∀ w ans, P w → safe (k ans) Q (port_effect port ans w)) → safe (Ask port k) Q w.
Proof. intros HP Hw HI H os. split; [by apply HI, stable_foldl|]. intros ans. by apply H, stable_foldl. Qed.

Lemma safe_fence {A} (P : World → Prop) f (k : FAns f → Prog A) Q w :
  stable P → P w → (∀ w, P w → Inv w) →
  (∀ w, P w → let '(ans, s) := fence_op f (wfence w) in safe (k ans) Q (mkWorld s (paused w))) →
  safe (Fence f k) Q w.
Proof. intros HP Hw HI H os. split; [by apply HI, stable_foldl|]. by apply H, stable_foldl. Qed.

Lemma safe_bind {A B} (p : Prog A) (k : A → Prog B) Q w :
  safe p (λ a w, safe (k a) Q w) w → safe (p ≫= k) Q w.
Proof.
  revert w. induction p as [a|port h IH|f h IH]; intros w Hs.
  - destruct (Hs []) as [_ H]. exact H.
  - intros os. destruct (Hs os) as [HI H]. split; [done|]. intros ans. apply IH, H.
  - intros os. destruct (Hs os) as [HI H]. split; [done|]. cbn in *.
    destruct (fence_op f _) as [ans s]. by apply IH.
Qed.

Lemma safe_mono {A} (p : Prog A) (Q Q' : A → World → Prop) w :
  (∀ a w, Q a w → Q' a w) → safe p Q w → safe p Q' w.
Proof.
  intros HQ. revert w. induction p as [a|port h IH|f h IH]; intros w Hs os.
  - destruct (Hs os) as [HI H]. split; [done|]. by apply HQ.
  - destruct (Hs os) as [HI H]. split; [done|]. intros ans. apply IH, H.
  - destruct (Hs os) as [HI H]. split; [done|]. destruct (fence_op f _) as [ans s]. by apply IH.
Qed.

End safety.

Arguments safe : simpl never.

(** ** The coordinator's invariant *)

(** The scheduler is never left paused behind an open fence. *)
Definition schedulable (w : World) : Prop := paused w = true → is_closed (wfence w) = true.

(** A restart drain has taken the fence. *)
Definition drained (w : World) : Prop :=
  restart_draining (wfence w) = true ∧ phase (wfence w) = Accepting.

(** The lease [g] owns the fence in phase [p], the scheduler as given. *)
Definition owned (g : Z) (p : AdmissionPhase) (sched : bool) (w : World) : Prop :=
  suspend_generation (wfence w) = g ∧ phase (wfence w) = p ∧
  restart_draining (wfence w) = false ∧ paused w = sched ∧ p ≠ Accepting.

(** The fence is open and the scheduler runs. *)
Definition serving (w : World) : Prop :=
  phase (wfence w) = Accepting ∧ restart_draining (wfence w) = false ∧ paused w = false.

Definition ok_state (cs : CoordinatorState) (w : World) : Prop :=
  match cs with
  | Idle => serving w ∨ drained w
  | Held h => owned (lease h) Prepared true w ∨ drained w
  | Recovering g _ => (∃ p, owned g p true w) ∨ drained w
  end.

Lemma other_frame o w :
  paused (other o w) = paused w ∧
  (drained (other o w) ∨
   phase (wfence (other o w)) = phase (wfence w) ∧
   suspend_generation (wfence (other o w)) = suspend_generation (wfence w) ∧
   restart_draining (wfence (other o w)) = restart_draining (wfence w)).
Proof.
  split; [done|]. destruct o; cbn.
  - right. unfold try_begin_root_work. by destruct (refusal (wfence w)).
  - by right.
  - left. unfold drained, other, mark_restart_draining. cbn [wfence].
    destruct (phase (wfence w)) eqn:E; cbn; by rewrite ?E.
Qed.

(** What holds unless a drain takes over is stable. *)
Lemma stable_or_drained (P : World → Prop) :
  (∀ w w', P w → paused w' = paused w → phase (wfence w') = phase (wfence w) →
           suspend_generation (wfence w') = suspend_generation (wfence w) →
           restart_draining (wfence w') = restart_draining (wfence w) → P w') →
  stable (λ w, P w ∨ drained w).
Proof.
  intros HP o w. destruct (other_frame o w) as [Hp [Hd|(H1 & H2 & H3)]]; [by right|].
  intros [Hw|[Hd Ha]]; [left; by eapply HP|right]. unfold drained. by rewrite H1, H3.
Qed.

Lemma stable_drained : stable drained.
Proof.
  intros o w [Hd Ha]. destruct (other_frame o w) as [Hp [?|(H1 & H2 & H3)]]; [done|].
  unfold drained. by rewrite H1, H3.
Qed.

Lemma owned_stable g p sched : stable (λ w, owned g p sched w ∨ drained w).
Proof. apply stable_or_drained. intros w w' H E1 E2 E3 E4. unfold owned in *. by rewrite E1, E2, E3, E4. Qed.

Lemma serving_stable : stable (λ w, serving w ∨ drained w).
Proof. apply stable_or_drained. intros w w' H E1 E2 E3 E4. unfold serving in *. by rewrite E1, E2, E4. Qed.

Lemma recovering_stable g : stable (λ w, (∃ p, owned g p true w) ∨ drained w).
Proof.
  apply stable_or_drained. intros w w' [p H] E1 E2 E3 E4. exists p. unfold owned in *.
  by rewrite E1, E2, E3, E4.
Qed.

Lemma ok_state_stable cs : stable (ok_state cs).
Proof. destruct cs; [apply serving_stable|apply owned_stable|apply recovering_stable]. Qed.

Lemma drained_schedulable w : drained w → schedulable w.
Proof. intros [Hd _] _. unfold is_closed, refusal. by rewrite Hd. Qed.

Lemma owned_schedulable g p sched w : owned g p sched w ∨ drained w → schedulable w.
Proof.
  intros [(_ & Hp & Hd & _ & Hne)|Hd]; [|by apply drained_schedulable].
  intros _. unfold is_closed, refusal. rewrite Hd, Hp. by destruct p.
Qed.

Lemma serving_schedulable w : serving w ∨ drained w → schedulable w.
Proof. intros [(_ & _ & Hp)|Hd]; [|by apply drained_schedulable]. unfold schedulable. by rewrite Hp. Qed.

Lemma ok_state_schedulable cs w : ok_state cs w → schedulable w.
Proof.
  destruct cs as [|h|g t]; cbn.
  - apply serving_schedulable.
  - apply owned_schedulable.
  - intros [[p H]|H]; [by eapply (owned_schedulable g p true); left|by apply drained_schedulable].
Qed.

(** ** Letting a lease go *)

(** The scheduler runs again; the lease [g] may still own the fence. *)
Definition letting_go (g : Z) (w : World) : Prop := serving w ∨ ∃ p, owned g p false w.

Lemma letting_go_stable g : stable (λ w, letting_go g w ∨ drained w).
Proof.
  apply stable_or_drained. intros w w' H E1 E2 E3 E4. unfold letting_go, serving, owned in *.
  by rewrite E1, E2, E3, E4.
Qed.

Lemma letting_go_schedulable g w : letting_go g w ∨ drained w → schedulable w.
Proof.
  intros [[H|[p H]]|H].
  - apply serving_schedulable. by left.
  - eapply owned_schedulable. by left.
  - by apply drained_schedulable.
Qed.

Lemma transition_accepting s g e n :
  phase s = Accepting → e ≠ Accepting → transition s g e n = (false, s).
Proof.
  intros Hp He. destruct (transition_cases s g e n) as [H|(_ & H & _)]; [done|congruence].
Qed.

(** Releasing or rolling back keeps [letting_go]; dropping ends it. *)
Lemma letting_go_transition g e w :
  e ≠ Accepting → letting_go g w ∨ drained w →
  let w' := mkWorld (transition (wfence w) g e Accepting).2 (paused w) in
  letting_go g w' ∨ drained w'.
Proof.
  intros He Hw w'. unfold w'.
  destruct (transition_cases (wfence w) g e Accepting) as [->|(Hg & Hp & ->)]; [by destruct w|].
  destruct Hw as [[(Ha & _)|[p (_ & _ & Hd & Hpa & _)]]|[_ Ha]]; [congruence| |congruence].
  left. left. by split_and!.
Qed.

Lemma letting_go_drop g w :
  letting_go g w ∨ drained w →
  let w' := mkWorld (drop_lease (wfence w) g) (paused w) in serving w' ∨ drained w'.
Proof.
  intros Hw w'. unfold w'. rewrite drop_lease_eq. unfold is_active, is_generation_active.
  destruct Hw as [[(Ha & Hd & Hp)|[p (Hg & Ha & Hd & Hp & Hne)]]|[Hd Ha]].
  - rewrite Ha, andb_false_r. left. by destruct w.
  - rewrite Hg, Z.eqb_refl, Ha. left. by destruct p.
  - rewrite Ha, andb_false_r. right. by destruct w.
Qed.

Lemma safe_drop {A} g (k : Prog A) Q w :
  letting_go g w ∨ drained w →
  (∀ w, serving w ∨ drained w → safe schedulable k Q w) →
  safe schedulable (Fence (DropLease g) (λ _, k)) Q w.
Proof.
  intros Hw Hk. eapply safe_fence; [apply (letting_go_stable g)|done|apply letting_go_schedulable|].
  intros w' Hw'. apply Hk. by apply letting_go_drop.
Qed.

Lemma safe_release_drop {A} g (k : Prog A) Q w :
  letting_go g w ∨ drained w →
  (∀ w, serving w ∨ drained w → safe schedulable k Q w) →
  safe schedulable (Fence (Release g) (λ _, Fence (DropLease g) (λ _, k))) Q w.
Proof.
  intros Hw Hk. eapply safe_fence; [apply (letting_go_stable g)|done|apply letting_go_schedulable|].
  intros w' Hw'. pose proof (letting_go_transition g Prepared w' ltac:(done) Hw') as H.
  cbn [fence_op]. unfold release. destruct (transition _ _ _ _) as [b s]. by apply safe_drop.
Qed.

Lemma safe_rollback_drop {A} g (k : Prog A) Q w :
  letting_go g w ∨ drained w →
  (∀ w, serving w ∨ drained w → safe schedulable k Q w) →
  safe schedulable (Fence (Rollback g) (λ _, Fence (DropLease g) (λ _, k))) Q w.
Proof.
  intros Hw Hk. eapply safe_fence; [apply (letting_go_stable g)|done|apply letting_go_schedulable|].
  intros w' Hw'. pose proof (letting_go_transition g Preparing w' ltac:(done) Hw') as H.
  cbn [fence_op]. unfold rollback. destruct (transition _ _ _ _) as [b s]. by apply safe_drop.
Qed.

(** Returning a state that is in order. *)
Lemma safe_ret_ok {A} cs (a : A) Q w :
  ok_state cs w → (∀ w, ok_state cs w → Q a w) → safe schedulable (Ret a) Q w.
Proof.
  intros Hw HQ. apply (safe_ret _ (ok_state cs)); [apply ok_state_stable|done|].
  intros w' Hw'. split; [by eapply ok_state_schedulable|by apply HQ].
Qed.

(** A port that does not touch the world, asked while a state is in order. *)
Lemma safe_ask_ok {A} cs port (k : PAns port → Prog A) Q w :
  (∀ ans w, port_effect port ans w = w) → ok_state cs w →
  (∀ ans w, ok_state cs w → safe schedulable (k ans) Q w) →
  safe schedulable (Ask port k) Q w.
Proof.
  intros Hp Hw Hk. eapply safe_ask; [apply (ok_state_stable cs)|done|apply ok_state_schedulable|].
  intros w' ans Hw'. rewrite Hp. by apply Hk.
Qed.

(** Asking the scheduler to resume while a lease owns the fence: on success the
    lease can be let go, on failure it still owns it. *)
Lemma safe_resume {A} g (k : result SchedulerError unit → Prog A) Q w :
  (∃ p, owned g p true w) ∨ drained w →
  (∀ u w, letting_go g w ∨ drained w → safe schedulable (k (Ok u)) Q w) →
  (∀ e w, (∃ p, owned g p true w) ∨ drained w → safe schedulable (k (Err e)) Q w) →
  safe schedulable (Ask Resume k) Q w.
Proof.
  intros Hw Hok Herr.
  eapply safe_ask; [apply (recovering_stable g)|done|exact (ok_state_schedulable (Recovering g 0))|].
  intros w' [u|e] Hw'; cbn; [|by apply Herr]. apply Hok.
  destruct Hw' as [[p (Hg & Hp & Hd & _ & Hne)]|Hd]; [left; right; exists p|by right]. by split_and!.
Qed.

(** ** [normalize] *)

(** What [normalize] may turn a state into. *)
Definition normalized (cs cs' : CoordinatorState) (usable : bool) : Prop :=
  usable = negb (is_recovering cs') ∧
  match cs' with
  | Idle => True
  | Held h => cs = Held h
  | Recovering g _ => match cs with Held h => lease h = g | Recovering g' _ => g' = g | Idle => False end
  end.

Lemma normalize_safe cs w :
  ok_state cs w →
  safe schedulable (normalize cs)
    (λ r w', ok_state r.1 w' ∧ normalized cs r.1 r.2) w.
Proof.
  intros Hok. destruct cs as [|h|g t]; cbn [normalize].
  - by apply (safe_ret_ok Idle).
  - cbn. eapply safe_fence; [apply (ok_state_stable (Held h))|done|apply ok_state_schedulable|].
    intros w1 Hw1. cbn [fence_op]. destruct (is_active (wfence w1) (lease h)) eqn:Ea; cbn [negb].
    + assert (ok_state (Held h) (mkWorld (wfence w1) (paused w1))) as Hw1' by (by destruct w1).
      apply (safe_ask_ok (Held h)); [done|exact Hw1'|]. intros now w2 Hw2. destruct (expires_at_ms h <=? now).
      * apply (safe_resume (lease h)).
        { destruct Hw2 as [H|H]; [left; by exists Prepared|by right]. }
        -- intros u w3 Hw3. apply safe_release_drop; [done|]. intros w4 Hw4.
           by apply (safe_ret_ok Idle).
        -- intros e w3 Hw3. apply (safe_ask_ok (Recovering (lease h) 0)); [done|done|].
           intros r w4 Hw4. by apply (safe_ret_ok (Recovering (lease h) 0)).
      * by apply (safe_ret_ok (Held h)).
    + apply safe_drop; [|intros w2 Hw2; by apply (safe_ret_ok Idle)].
      destruct Hw1 as [(Hg & Hp & _)|Hd]; [|by right].
      unfold is_active, is_generation_active in Ea. by rewrite Hg, Hp, Z.eqb_refl in Ea.
  - cbn. eapply safe_fence; [apply (ok_state_stable (Recovering g t))|done|apply ok_state_schedulable|].
    intros w1 Hw1. cbn [fence_op]. destruct (is_active (wfence w1) g) eqn:Ea; cbn [negb].
    + assert (ok_state (Recovering g t) (mkWorld (wfence w1) (paused w1))) as Hw1' by (by destruct w1).
      apply (safe_ask_ok (Recovering g t)); [done|exact Hw1'|]. intros now w2 Hw2. destruct (now <? t).
      * by apply (safe_ret_ok (Recovering g t)).
      * apply (safe_resume g); [done| |].
        -- intros u w3 Hw3. apply safe_release_drop; [done|]. intros w4 Hw4.
           by apply (safe_ret_ok Idle).
        -- intros e w3 Hw3. apply (safe_ask_ok (Recovering g 0)); [done|done|].
           intros r w4 Hw4. by apply (safe_ret_ok (Recovering g 0)).
    + apply safe_drop; [|intros w2 Hw2; by apply (safe_ret_ok Idle)].
      destruct Hw1 as [[p (Hg & Hp & _ & _ & Hne)]|Hd]; [|by right].
      unfold is_active, is_generation_active in Ea. rewrite Hg, Hp, Z.eqb_refl in Ea. by destruct p.
Qed.

(** ** The operations *)

(** A held suspension was found idle when it was fenced. *)
Definition held_idle (cs : CoordinatorState) : Prop :=
  match cs with Held h => is_idle (snapshot h) = true | _ => True end.

(** What each outcome of [prepare] for [request] from [cs] says about the state
    and the world it leaves. *)
Definition prepared (cs : CoordinatorState) (request : str)
    (r : PrepareOutcome * CoordinatorState) (w : World) : Prop :=
  let '(out, cs') := r in
  ok_state cs' w ∧ held_idle cs' ∧
  match out with
  | PReady id expires n bs =>
      n = 0 ∧ ∃ h, cs' = Held h ∧ request_id h = trim request ∧ suspension_id h = id ∧
        expires_at_ms h = expires ∧ bs = blockers (snapshot h)
  | PBusy ActiveWork retry n bs => cs' = Idle ∧ retry = SUSPEND_RETRY_AFTER_MS ∧ n ≠ 0
  | PBusy GatewayDraining retry n bs =>
      cs' = Idle ∧ retry = SUSPEND_RETRY_AFTER_MS ∧ drained w
  | PConflict expires =>
      ∃ h, cs = Held h ∧ cs' = Held h ∧ request_id h ≠ trim request ∧ expires = expires_at_ms h
  | PRecovering retry =>
      retry = SCHEDULER_RECOVERY_RETRY_MS ∧ (cs' = Idle ∨ is_recovering cs' = true)
  end.

(** Between [try_begin_suspend] and [commit], the scheduler as given. *)
Lemma owned_preparing_commit g w :
  owned g Preparing true w ∨ drained w →
  let '(ok, s) := commit (wfence w) g in
  let w' := mkWorld s (paused w) in
  (ok = true ∧ owned g Prepared true w') ∨ (ok = false ∧ drained w').
Proof.
  unfold commit. intros [(Hg & Hp & Hd & Hs & _)|[Hd Hp]].
  - unfold transition. rewrite Hg, Z.eqb_refl, Hp. rewrite bool_decide_eq_false_2 by tauto.
    left. by split_and!.
  - rewrite transition_accepting by done. right. split; [done|]. by destruct w.
Qed.

Lemma begin_suspend_cases w :
  serving w ∨ drained w →
  let '(r, s) := try_begin_suspend (wfence w) in
  let w' := mkWorld s (paused w) in
  match r with Some g => owned g Preparing false w' | None => drained w' end.
Proof.
  unfold try_begin_suspend. intros [(Hp & Hd & Hs)|[Hd Hp]]; rewrite Hd, Hp; cbn [orb phase_is_closed].
  - by split_and!.
  - by split_and!.
Qed.

(** While drained, asking a port changes nothing that matters. *)
Lemma safe_ask_drained {A} port (k : PAns port → Prog A) Q w :
  drained w → (∀ ans w, drained w → safe schedulable (k ans) Q w) →
  safe schedulable (Ask port k) Q w.
Proof.
  intros Hw Hk. eapply safe_ask; [apply stable_drained|done|apply drained_schedulable|].
  intros w' ans Hw'. apply Hk. destruct port; cbn; try done; by destruct ans.
Qed.

Lemma safe_ret_drained {A} (a : A) (Q : A → World → Prop) w :
  drained w → (∀ w, drained w → Q a w) → safe schedulable (Ret a) Q w.
Proof.
  intros Hw HQ. apply (safe_ret _ drained); [apply stable_drained|done|].
  intros w' Hw'. split; [by apply drained_schedulable|by apply HQ].
Qed.

Lemma safe_drop_drained {A} g (k : Prog A) Q w :
  drained w → (∀ w, drained w → safe schedulable k Q w) →
  safe schedulable (Fence (DropLease g) (λ _, k)) Q w.
Proof.
  intros Hw Hk. eapply safe_fence; [apply stable_drained|done|apply drained_schedulable|].
  intros w' [Hd Hp]. apply Hk. rewrite drop_lease_eq. unfold is_active, is_generation_active.
  rewrite Hp, andb_false_r. by split.
Qed.

Lemma idle_active_count s : is_idle s = true ↔ active_count s = 0.
Proof. unfold is_idle, counts_is_idle, active_count. by rewrite Z.eqb_eq. Qed.

Lemma prepare_fresh_safe ttl cs request w :
  serving w ∨ drained w →
  safe schedulable (prepare_fresh ttl (trim request)) (prepared cs request) w.
Proof.
  intros Hw. unfold prepare_fresh, capture_snapshot, enter_recovery, ask, fence.
  cbn [mbind prog_bind prog_bind_def].
  eapply safe_fence; [apply serving_stable|done|apply serving_schedulable|].
  intros w1 Hw1. apply begin_suspend_cases in Hw1. cbn [fence_op].
  destruct (try_begin_suspend (wfence w1)) as [[g|] s1]; cycle 1.
  { apply safe_ask_drained; [done|]. intros reading w2 Hw2.
    apply safe_ret_drained; [done|]. intros w3 Hw3. by split_and!; [right|..]. }
  eapply safe_ask; [apply (owned_stable g Preparing false)|by left|apply owned_schedulable|].
  intros w2 [u|e] Hw2; cbn [port_effect is_ok]; cycle 1.
  { apply safe_rollback_drop.
    - destruct Hw2 as [H|H]; [left; right; by exists Preparing|by right].
    - intros w3 Hw3. apply (safe_ret_ok Idle); [done|]. intros w4 Hw4. by split_and!; [..|left]. }
  assert (owned g Preparing true (mkWorld (wfence w2) true) ∨ drained (mkWorld (wfence w2) true)) as Hw2'.
  { destruct Hw2 as [(Hg & Hp & Hd & _)|Hd]; [left; by split_and!|by right]. }
  eapply safe_ask; [apply (owned_stable g Preparing true)|exact Hw2'|apply owned_schedulable|].
  intros w3 reading Hw3. cbn [port_effect]. set (snap := capture reading).
  destruct (is_idle snap) eqn:Ei; cbn [negb].
  - eapply safe_fence; [apply (owned_stable g Preparing true)|done|apply owned_schedulable|].
    intros w4 Hw4. apply owned_preparing_commit in Hw4. cbn [fence_op].
    destruct (commit (wfence w4) g) as [ok s4]. destruct Hw4 as [[-> Hw4]|[-> Hw4]]; cbn [negb].
    + set (h := mkHeld [] [] 0 snap g).
      apply (safe_ask_ok (Held h)); [done|by left|]. intros id w5 Hw5.
      apply (safe_ask_ok (Held h)); [done|done|]. intros now w6 Hw6.
      apply (safe_ret_ok (Held h)); [done|]. intros w7 Hw7.
      split_and!; [exact Hw7|exact Ei|by apply idle_active_count|].
      eexists. by split_and!.
    + apply safe_drop_drained; [done|]. intros w5 Hw5. apply safe_ret_drained; [done|].
      intros w6 Hw6. by split_and!; [right|..].
  - apply (safe_resume g).
    { destruct Hw3 as [H|H]; [left; by exists Preparing|by right]. }
    + intros u' w4 Hw4. apply safe_rollback_drop; [done|]. intros w5 Hw5.
      apply (safe_ret_ok Idle); [done|]. intros w6 Hw6. split_and!; [done..|].
      unfold busy. split_and!; [done..|]. intros H. apply idle_active_count in H. by rewrite Ei in H.
    + intros e w4 Hw4. apply (safe_ask_ok (Recovering g 0)); [done|done|]. intros t w5 Hw5.
      apply (safe_ret_ok (Recovering g 0)); [done|]. intros w6 Hw6. by split_and!; [..|right].
Qed.

Lemma prepare_safe ttl cs request w :
  ok_state cs w → held_idle cs →
  safe schedulable (prepare ttl cs request) (prepared cs request) w.
Proof.
  intros Hok Hidle. unfold prepare. apply safe_bind.
  eapply safe_mono; [|by apply normalize_safe].
  intros [cs' usable] w1 Hn. cbn [fst snd] in Hn. destruct Hn as [Hok1 [-> Hcs']].
  destruct cs' as [|h|g t]; cbn [is_recovering negb].
  - by apply prepare_fresh_safe.
  - subst cs. case_bool_decide as Hr.
    + apply (safe_ret_ok (Held h)); [done|]. intros w2 Hw2. split_and!; [done|done|by exists h].
    + apply (safe_ask_ok (Held h)); [done|done|]. intros now w2 Hw2.
      apply (safe_ret_ok (Held h)); [done|]. intros w3 Hw3.
      split_and!; [done|done|by apply idle_active_count|].
      eexists. by split_and!.
  - apply (safe_ret_ok (Recovering g t)); [done|]. intros w2 Hw2. by split_and!; [..|right].
Qed.

(** What [status] and [resume] may answer. *)
Definition status_reported (cs : CoordinatorState) (id : str)
    (r : StatusOutcome * CoordinatorState) (w : World) : Prop :=
  let '(out, cs') := r in
  ok_state cs' w ∧ held_idle cs' ∧
  match out with
  | SRunning => cs' = Idle
  | SReady expires =>
      ∃ h, cs = Held h ∧ cs' = Held h ∧ suspension_id h = trim id ∧ expires = expires_at_ms h
  | SConflict expires =>
      ∃ h, cs = Held h ∧ cs' = Held h ∧ suspension_id h ≠ trim id ∧ expires = expires_at_ms h
  | SRecovering _ => is_recovering cs' = true
  end.

Definition resumed (cs : CoordinatorState) (id : str)
    (r : ResumeOutcome * CoordinatorState) (w : World) : Prop :=
  let '(out, cs') := r in
  ok_state cs' w ∧ held_idle cs' ∧
  match out with
  | Resumed => cs' = Idle ∧ ∃ h, cs = Held h ∧ suspension_id h = trim id
  | AlreadyRunning => cs' = Idle
  | Mismatch => ∃ h, cs = Held h ∧ cs' = Held h ∧ suspension_id h ≠ trim id
  | RRecovering _ => is_recovering cs' = true
  end.

Lemma status_safe cs id w :
  ok_state cs w → held_idle cs → safe schedulable (status cs id) (status_reported cs id) w.
Proof.
  intros Hok Hidle. unfold status. apply safe_bind.
  eapply safe_mono; [|by apply normalize_safe].
  intros [cs' usable] w1 Hn. cbn [fst snd] in Hn. destruct Hn as [Hok1 [-> Hcs']].
  destruct cs' as [|h|g t]; cbn [is_recovering negb].
  - apply (safe_ret_ok Idle); [done|]. intros w2 Hw2. by split_and!.
  - subst cs. case_bool_decide as Hr; (apply (safe_ret_ok (Held h)); [done|]);
      intros w2 Hw2; split_and!; try done; by exists h.
  - apply (safe_ret_ok (Recovering g t)); [done|]. intros w2 Hw2. by split_and!.
Qed.

Lemma resume_safe cs id w :
  ok_state cs w → held_idle cs → safe schedulable (resume cs id) (resumed cs id) w.
Proof.
  intros Hok Hidle. unfold resume. apply safe_bind.
  eapply safe_mono; [|by apply normalize_safe].
  intros [cs' usable] w1 Hn. cbn [fst snd] in Hn. destruct Hn as [Hok1 [-> Hcs']].
  destruct cs' as [|h|g t]; cbn [is_recovering negb].
  - apply (safe_ret_ok Idle); [done|]. intros w2 Hw2. by split_and!.
  - subst cs. case_bool_decide as Hr.
    + unfold ask, fence, enter_recovery. cbn [mbind prog_bind prog_bind_def].
      apply (safe_resume (lease h)).
      { destruct Hok1 as [H|H]; [left; by exists Prepared|by right]. }
      * intros u w2 Hw2. apply safe_release_drop; [done|]. intros w3 Hw3.
        apply (safe_ret_ok Idle); [done|]. intros w4 Hw4. split_and!; try done. by exists h.
      * intros e w2 Hw2. apply (safe_ask_ok (Recovering (lease h) 0)); [done|done|].
        intros t w3 Hw3. apply (safe_ret_ok (Recovering (lease h) 0)); [done|].
        intros w4 Hw4. by split_and!.
    + apply (safe_ret_ok (Held h)); [done|]. intros w2 Hw2. split_and!; try done. by exists h.
  - apply (safe_ret_ok (Recovering g t)); [done|]. intros w2 Hw2. by split_and!.
Qed.

Lemma poll_safe cs w :
  ok_state cs w → held_idle cs →
  safe schedulable (poll cs)
    (λ r w', ok_state r.2 w' ∧ held_idle r.2 ∧ r.1 = negb (is_recovering r.2)) w.
Proof.
  intros Hok Hidle. unfold poll. apply safe_bind.
  eapply safe_mono; [|by apply normalize_safe].
  intros [cs' usable] w1 Hn. cbn [fst snd] in Hn. destruct Hn as [Hok1 [-> Hcs']].
  apply (safe_ret_ok cs'); [done|]. intros w2 Hw2. split_and!; [done| |done].
  destruct cs' as [|h|g t]; try done. by subst cs.
Qed.

(** ** The running system

    [reach ttl cs w ws]: from a fresh fence and an idle coordinator, some sequence
    of operations and of other threads' actions, interleaved in any way, leads to
    [cs] and [w], visiting the worlds [ws]. *)
Inductive reach (ttl : Z) : CoordinatorState → World → list World → Prop :=
| reach_start : reach ttl Idle (mkWorld new false) [mkWorld new false]
| reach_other cs w ws o :
    reach ttl cs w ws → reach ttl cs (other o w) (other o w :: ws)
| reach_prepare cs w ws env request out cs' w' vs :
    reach ttl cs w ws → run env (prepare ttl cs request) w = Some ((out, cs'), w', vs) →
    reach ttl cs' w' (vs ++ ws)
| reach_status cs w ws env id out cs' w' vs :
    reach ttl cs w ws → run env (status cs id) w = Some ((out, cs'), w', vs) →
    reach ttl cs' w' (vs ++ ws)
| reach_resume cs w ws env id out cs' w' vs :
    reach ttl cs w ws → run env (resume cs id) w = Some ((out, cs'), w', vs) →
    reach ttl cs' w' (vs ++ ws)
| reach_poll cs w ws env out cs' w' vs :
    reach ttl cs w ws → run env (poll cs) w = Some ((out, cs'), w', vs) →
    reach ttl cs' w' (vs ++ ws).

Lemma reach_ok ttl cs w ws :
  reach ttl cs w ws → ok_state cs w ∧ held_idle cs ∧ Forall schedulable ws.
Proof.
  induction 1 as [|cs w ws o H (IH1 & IH2 & IH3)
    |cs w ws env rq out cs' w' vs H (IH1 & IH2 & IH3) E
    |cs w ws env rq out cs' w' vs H (IH1 & IH2 & IH3) E
    |cs w ws env rq out cs' w' vs H (IH1 & IH2 & IH3) E
    |cs w ws env out cs' w' vs H (IH1 & IH2 & IH3) E].
  - split_and!; [by left|done|]. constructor; [|done]. by intros ?.
  - assert (ok_state cs (other o w)) by (by apply ok_state_stable).
    split_and!; [done|done|]. constructor; [by eapply ok_state_schedulable|done].
  - eapply safe_run in E as [Hq HI]; [|by apply prepare_safe].
    destruct Hq as (H1 & H2 & _). by rewrite Forall_app.
  - eapply safe_run in E as [Hq HI]; [|by apply status_safe].
    destruct Hq as (H1 & H2 & _). by rewrite Forall_app.
  - eapply safe_run in E as [Hq HI]; [|by apply resume_safe].
    destruct Hq as (H1 & H2 & _). by rewrite Forall_app.
  - eapply safe_run in E as [Hq HI]; [|by apply poll_safe].
    destruct Hq as (H1 & H2 & _). by rewrite Forall_app.
Qed.

(** C11. The coordinator's safety, under every behaviour of scheduler, clock and
    inspector and every interleaving with other threads that begin and drop root work
    and start a restart drain (the coordinator being the only one that suspends the
    fence, as in this repository): in no world visited, also in the middle of an
    operation, is the scheduler paused while the fence admits work. Between
    operations the coordinator's state matches the fence, unless a restart drain has
    taken the fence over: idle means serving, a held lease owns the fence in the
    prepared phase with the scheduler paused, and a recovering lease owns the fence,
    not accepting, with the scheduler paused. *)
Theorem coordinator_safety ttl cs w ws :
  reach ttl cs w ws →
  Forall (λ v, paused v = true → is_closed (wfence v) = true) ws ∧
  match cs with
  | Idle => serving w ∨ drained w
  | Held h => owned (lease h) Prepared true w ∨ drained w
  | Recovering g _ => (∃ p, owned g p true w) ∨ drained w
  end.
Proof. intros (H1 & _ & H3)%reach_ok. done. Qed.

(** Answers of ports that work: the time is [t], the host has the given work. *)
Definition fine (t : Z) (c : ActiveWorkCounts) : Answers :=
  mkAnswers t (Ok tt) (Ok tt) (c, []) (chars "s-1").

(** Ports whose scheduler refuses to pause. *)
Definition unpausable : Answers :=
  mkAnswers 0 (Err (mkSchedulerError (chars "busy"))) (Ok tt) (no_work, []) (chars "s-1").

(** A preparation during which other threads try to start and drop root work. *)
Definition quiet_prepare : list Stim :=
  [Other OBeginRoot; Turn (fine 5 no_work); Other OBeginRoot; Turn (fine 5 no_work);
   Other (ODropRoot 1); Turn (fine 6 no_work); Turn (fine 6 no_work); Other OBeginRoot;
   Turn (fine 7 no_work); Turn (fine 8 no_work)].

Definition after_prepare : option ((PrepareOutcome * CoordinatorState) * World * list World) :=
  run quiet_prepare (prepare 1000 Idle (chars " op ")) (mkWorld new false).

Lemma coordinator_safety_witness :
  match after_prepare with
  | Some ((_, cs), w, vs) =>
      (∃ h, cs = Held h ∧ (owned (lease h) Prepared true w ∨ drained w)) ∧
      Forall (λ v, paused v = true → is_closed (wfence v) = true) vs
  | None => False
  end.
Proof.
  destruct after_prepare as [[[[out cs] w] vs]|] eqn:E; [|vm_compute in E; discriminate E].
  pose proof (reach_prepare 1000 _ _ _ _ _ _ _ _ _ (reach_start 1000) E) as Hr.
  destruct (coordinator_safety 1000 cs w _ Hr) as [Hs Hc].
  split; [|by apply Forall_app in Hs as [? _]].
  destruct cs as [|h|g t]; [vm_compute in E; discriminate E| |vm_compute in E; discriminate E].
  by exists h.
Defined.

(** The contract of [prepare] from any reachable state: [Ready] means this
    request holds the lease, with no active work counted; [Busy] for active work
    means work was counted and the coordinator is idle again; [Busy] for draining
    is answered only when a restart drain has taken the fence; [Conflict] leaves
    the other request's lease untouched. *)
Theorem prepare_contract ttl cs w ws env request out cs' w' vs :
  reach ttl cs w ws → run env (prepare ttl cs request) w = Some ((out, cs'), w', vs) →
  match out with
  | PReady id expires n bs =>
      n = 0 ∧ ∃ h, cs' = Held h ∧ request_id h = trim request ∧ suspension_id h = id ∧
        expires_at_ms h = expires ∧ bs = blockers (snapshot h) ∧
        (owned (lease h) Prepared true w' ∨ drained w')
  | PBusy ActiveWork retry n bs =>
      cs' = Idle ∧ retry = SUSPEND_RETRY_AFTER_MS ∧ n ≠ 0 ∧ (serving w' ∨ drained w')
  | PBusy GatewayDraining retry n bs => cs' = Idle ∧ retry = SUSPEND_RETRY_AFTER_MS ∧ drained w'
  | PConflict expires =>
      ∃ h, cs = Held h ∧ cs' = Held h ∧ request_id h ≠ trim request ∧ expires = expires_at_ms h
  | PRecovering retry =>
      retry = SCHEDULER_RECOVERY_RETRY_MS ∧ (cs' = Idle ∨ is_recovering cs' = true)
  end.
Proof.
  intros (H1 & H2 & _)%reach_ok E.
  eapply safe_run in E as [Hq _]; [|by apply prepare_safe]. destruct Hq as (Hok & _ & Hp).
  destruct out as [id ex n bs|[] rt n bs|ex|rt]; try done.
  - destruct Hp as (? & h & -> & ?). split; [done|]. exists h. split; [done|]. tauto.
  - destruct Hp as (-> & ? & ?). by split_and!.
Qed.

Lemma prepare_contract_witness :
  match after_prepare with
  | Some ((PReady id expires n bs, cs), w, _) =>
      id = chars "s-1" ∧ expires = 1008 ∧ n = 0 ∧
      ∃ h, cs = Held h ∧ request_id h = chars "op" ∧ phase (wfence w) = Prepared
  | _ => False
  end.
Proof.
  destruct after_prepare as [[[[out cs] w] vs]|] eqn:E; [|vm_compute in E; discriminate E].
  pose proof (prepare_contract 1000 _ _ _ _ _ out cs w vs (reach_start 1000) E) as H.
  vm_compute in E. injection E as <- <- <- <-. destruct H as (_ & h & Hh & Hr & _).
  split; [reflexivity|]. split; [reflexivity|]. split; [reflexivity|].
  exists h. split; [exact Hh|]. split; [exact Hr|reflexivity].
Defined.

(** The contract of [resume] from any reachable state: [Resumed] and
    [AlreadyRunning] leave the coordinator idle and the host serving, unless it is
    restart-draining; only the identifier of the held suspension resumes it, any
    other leaves the suspension as it was. *)
Theorem resume_contract ttl cs w ws env id out cs' w' vs :
  reach ttl cs w ws → run env (resume cs id) w = Some ((out, cs'), w', vs) →
  (is_running out = true → cs' = Idle ∧ (serving w' ∨ drained w')) ∧
  (out = Resumed → ∃ h, cs = Held h ∧ suspension_id h = trim id) ∧
  (out = Mismatch → ∃ h, cs = Held h ∧ cs' = Held h ∧ suspension_id h ≠ trim id ∧
                         (owned (lease h) Prepared true w' ∨ drained w')) ∧
  (is_running out = false → out ≠ Mismatch → is_recovering cs' = true).
Proof.
  intros (H1 & H2 & _)%reach_ok E.
  eapply safe_run in E as [Hq _]; [|by apply resume_safe]. destruct Hq as (Hok & _ & Hr).
  destruct out; cbn.
  - destruct Hr as [-> Hr]. by split_and!.
  - subst cs'. by split_and!.
  - destruct Hr as (h & -> & -> & Hne). split_and!; try done. intros _. by exists h.
  - by split_and!.
Qed.

Lemma resume_contract_witness :
  match after_prepare with
  | Some ((_, cs), w, _) =>
      match run (repeat (Turn (fine 9 no_work)) 5) (resume cs (chars "s-1")) w with
      | Some ((out, cs'), w', _) => out = Resumed ∧ cs' = Idle ∧ (serving w' ∨ drained w')
      | None => False
      end
  | None => False
  end.
Proof.
  destruct after_prepare as [[[[out cs] w] vs]|] eqn:E; [|vm_compute in E; discriminate E].
  pose proof (reach_prepare 1000 _ _ _ _ _ _ _ _ _ (reach_start 1000) E) as Hr.
  destruct (run _ (resume cs (chars "s-1")) w) as [[[[o cs'] w'] vs']|] eqn:E2;
    [|vm_compute in E; injection E as <- <- <- <-; vm_compute in E2; discriminate E2].
  destruct (resume_contract 1000 cs w _ _ _ o cs' w' vs' Hr E2) as [H _].
  assert (o = Resumed) as ->
    by (vm_compute in E; injection E as <- <- <- <-; vm_compute in E2; injection E2 as <- <- <- <-; reflexivity).
  split; [reflexivity|]. exact (H eq_refl).
Defined.

(** ** Progress *)

(** [n] turns with no other thread running, answered in order from [k]. *)
Fixpoint turns (answers : nat → Answers) (k n : nat) : list Stim :=
  match n with
  | O => []
  | S n => Turn (answers k) :: turns answers (S k) n
  end.

(** Every program returns, whatever the ports answer. *)
Lemma run_returns {A} (p : Prog A) w (answers : nat → Answers) k :
  ∃ n r, run (turns answers k n) p w = Some r.
Proof.
  revert w k. induction p as [a|port h IH|f h IH]; intros w k.
  - by exists 0%nat, (a, w, [w]).
  - destruct (IH (answer port (answers k)) (port_effect port (answer port (answers k)) w) (S k))
      as (n & [[a w'] ws] & Hr). exists (S n), (a, w', w :: ws).
    cbn [turns run]. by rewrite Hr.
  - destruct (fence_op f (wfence w)) as [ans s] eqn:E.
    destruct (IH ans (mkWorld s (paused w)) (S k)) as (n & [[a w'] ws] & Hr).
    exists (S n), (a, w', w :: ws). cbn [turns run]. by rewrite E, Hr.
Qed.

Lemma run_turn_fence {A} a env f (k : FAns f → Prog A) w ans s r w' ws :
  fence_op f (wfence w) = (ans, s) → run env (k ans) (mkWorld s (paused w)) = Some (r, w', ws) →
  run (Turn a :: env) (Fence f k) w = Some (r, w', w :: ws).
Proof. intros E H. cbn [run]. by rewrite E, H. Qed.

Lemma run_turn_ask {A} a env port (k : PAns port → Prog A) w r w' ws :
  run env (k (answer port a)) (port_effect port (answer port a) w) = Some (r, w', ws) →
  run (Turn a :: env) (Ask port k) w = Some (r, w', w :: ws).
Proof. intros H. cbn [run]. by rewrite H. Qed.

(** Progress: every operation returns, whatever the ports answer; and the lease
    is a deadline: a held suspension that nobody resumes is ended by the first poll
    at or after its expiry once the scheduler resumes, leaving the host serving. *)
Theorem abandoned_lease_expires ttl h w ws :
  reach ttl (Held h) w ws →
  (∀ (answers : nat → Answers), ∃ n r,
     run (turns answers 0 n) (poll (Held h)) w = Some r) ∧
  (∀ a, restart_draining (wfence w) = false → expires_at_ms h ≤ a_now a → a_resume a = Ok tt →
     ∃ w' vs, run (repeat (Turn a) 5) (poll (Held h)) w = Some ((true, Idle), w', vs) ∧
              serving w').
Proof.
  intros (Hok & _ & _)%reach_ok. split; [intros answers; apply run_returns|].
  intros a Hd Hexp Hres. destruct Hok as [(Hg & Hp & _ & Hs & _)|[Hd' _]]; [|congruence].
  assert (is_active (wfence w) (lease h) = true) as Ha
    by (unfold is_active, is_generation_active; by rewrite Hg, Hp, Z.eqb_refl).
  set (s' := set_phase (wfence w) Accepting).
  assert (release (wfence w) (lease h) = (true, s')) as Hrel.
  { unfold release, transition. rewrite Hg, Z.eqb_refl, Hp. rewrite bool_decide_eq_false_2 by tauto.
    unfold s', set_phase. by rewrite Hg. }
  eexists (mkWorld s' false), _. split; [|by split_and!]. cbn [repeat].
  eapply run_turn_fence; [cbn [fence_op]; by rewrite Ha|]. cbn [negb].
  apply run_turn_ask. cbn [answer port_effect]. replace (expires_at_ms h <=? a_now a) with true by lia.
  apply run_turn_ask. cbn [answer]. rewrite Hres. cbn [port_effect is_ok].
  eapply run_turn_fence; [exact Hrel|].
  eapply run_turn_fence; [cbn [fence_op]|]; [|reflexivity].
  cbn [wfence]. unfold drop_lease. unfold release at 1.
  rewrite transition_accepting by done. unfold rollback. cbn [negb].
  by rewrite transition_accepting by done.
Qed.

Lemma abandoned_lease_expires_witness :
  match after_prepare with
  | Some ((_, Held h), w, _) =>
      ∃ w' vs, run (repeat (Turn (fine 2000 no_work)) 5) (poll (Held h)) w =
               Some ((true, Idle), w', vs) ∧ serving w'
  | _ => False
  end.
Proof.
  destruct after_prepare as [[[[out [|h|g t]] w] vs]|] eqn:E; try (vm_compute in E; discriminate E).
  pose proof (reach_prepare 1000 _ _ _ _ _ _ _ _ _ (reach_start 1000) E) as Hr.
  destruct (abandoned_lease_expires 1000 h w _ Hr) as [_ H]. apply H.
  - vm_compute in E. injection E as <- <- <- <-. reflexivity.
  - vm_compute in E. injection E as <- <- <- <-. vm_compute. discriminate.
  - reflexivity.
Defined.

(** ** Where the code departs from its documentation *)

(** When the scheduler refuses to pause, [prepare] answers [Recovering], which
    the documentation of [PrepareOutcome] describes as the host staying fenced; but
    the fence has been rolled back: the coordinator is idle, not recovering, and
    the fence admits root work. *)
Theorem failed_pause_answers_recovering_unfenced :
  ∃ w' vs,
    run (repeat (Turn unpausable) 4) (prepare SUSPEND_TTL_MS Idle (chars "op")) (mkWorld new false) =
      Some ((PRecovering SCHEDULER_RECOVERY_RETRY_MS, Idle), w', vs) ∧
    is_recovering Idle = false ∧ is_closed (wfence w') = false ∧
    is_ok (try_begin_root_work (wfence w')).1 = true.
Proof. eexists _, _. split; [vm_compute; reflexivity|]. split_and!; reflexivity. Qed.

(** A host with one queued operation. *)
Definition one_queued : ActiveWorkCounts := mkCounts 1 0 0 0 0 0 0 0 0 0 0 0 0.

(** A restart drain that lands while [prepare] inspects a busy host: the
    scheduler of a host that is being shut down is resumed on the way out, although
    the drain is documented to leave the scheduler paused, and the answer is [Busy]
    for active work rather than for draining. *)
Theorem busy_rollback_resumes_draining_host :
  ∃ w' vs n bs,
    run [Turn (fine 0 one_queued); Turn (fine 0 one_queued); Other ODrain;
         Turn (fine 0 one_queued); Turn (fine 0 one_queued); Turn (fine 0 one_queued);
         Turn (fine 0 one_queued)]
      (prepare SUSPEND_TTL_MS Idle (chars "op")) (mkWorld new false) =
      Some ((PBusy ActiveWork SUSPEND_RETRY_AFTER_MS n bs, Idle), w', vs) ∧
    n = 1 ∧ restart_draining (wfence w') = true ∧ paused w' = false ∧
    existsb paused vs = true.
Proof. eexists _, _, _, _. split; [vm_compute; reflexivity|]. split_and!; reflexivity. Qed.

End Coordinator.
