(* ===== verification/Approval.v ===== *)
(** * The approval broker

    [crates/claw-runtime/src/approval.rs]: the broker that makes a tool call wait
    for an operator's decision, with the values of
    [crates/claw-application/src/model/approval.rs].

    The broker's mutex is held for short sections, and [request] is an async
    function that may be suspended or dropped at its awaits. So a call of [request]
    is a waiter that advances from one atomic section to the next, and waiters,
    operators, shutdown, cancellation and revocation interleave as the steps of a
    [World]. What outlives a section is shared state: the broker's maps, and one
    cell per request for its oneshot channel and its [decision_accepted] flag, where
    the calls made to the presentation port are recorded too. The clock is read as
    an arbitrary time. [select!] is modelled without its branch priority: any ready
    branch may be taken, since a branch may become ready between two polls. *)

From S2P Require Import Prelude Utf8.

Module Approval.

(** ** Values *)

Inductive ApprovalScope := Once | Session.
Inductive ApprovalVerdict := Approve | Deny.

Definition is_remembered (s : ApprovalScope) : bool :=
  match s with Session => true | Once => false end.

Record ApprovalDecision := mkDecision { verdict : ApprovalVerdict; scope : ApprovalScope }.

Definition approve_once : ApprovalDecision := mkDecision Approve Once.
Definition approve_for_session : ApprovalDecision := mkDecision Approve Session.
Definition deny_once : ApprovalDecision := mkDecision Deny Once.
Definition deny_for_session : ApprovalDecision := mkDecision Deny Session.

Record ApprovalRequest := mkReq {
  approval_id : str;
  session_id : str;
  turn : Z;
  call_id : str;
  tool_name : str;
  arguments : str;
  requested_at : Z;
  expires_at : Z;
}.

Inductive ApprovalWithdrawal := TimedOut | Cancelled.

Inductive ApprovalOutcome :=
| Decided (decision : ApprovalDecision) (remembered : bool)
| Withdrawn (reason : ApprovalWithdrawal).

Definition is_approved (o : ApprovalOutcome) : bool :=
  match o with Decided (mkDecision Approve _) _ => true | _ => false end.

Inductive PortError :=
| Unavailable (m : str) | Conflict (m : str) | NotFound (m : str) | Invalid (m : str)
| CommittedButNotDurable (m : str) | OutcomeUnknown (m : str) | PortCancelled.

Inductive ApprovalError :=
| Port (e : PortError)
| Unknown (id : str)
| DeadlineOverflow
| Identifier (reason : str).

Inductive InvocationAccess := ReadOnly | Execute | Owner.

Inductive InvocationSource := Gateway | Http | Mcp | Channel.

(** [InvocationAuthority]; the host's revocation signal is the handle of a signal. *)
Record InvocationAuthority := mkAuthority {
  source : InvocationSource;
  subject : str;
  account : option str;
  access : InvocationAccess;
  generation : Z;
  revocation : option Z;
}.

Record ToolBinding := mkBinding { identity : str; revision : Z; resource : option str }.

Record ApprovalTicket := mkTicket {
  t_session_id : str;
  t_turn : Z;
  t_call_id : str;
  t_tool_name : str;
  t_arguments : str;
}.

(** The signals that have fired: cancellation tokens and revocations, by handle. *)
Record Signals := mkSignals { fired : gset Z; revoked : gset Z }.

Definition is_revoked (s : Signals) (a : InvocationAuthority) : bool :=
  match revocation a with Some h => bool_decide (h ∈ revoked s) | None => false end.

Definition can_execute (s : Signals) (a : InvocationAuthority) : bool :=
  negb (match access a with ReadOnly => true | _ => false end) && negb (is_revoked s a).

Definition is_cancelled (s : Signals) (token : Z) : bool := bool_decide (token ∈ fired s).

(** [authority.as_ref().is_some_and(f)] *)
Definition some_and {A} (f : A → bool) (o : option A) : bool :=
  match o with Some a => f a | None => false end.

(** [parse_identifier] of [model/ids.rs]; the error is its reason. *)
Definition MAX_IDENTIFIER_BYTES : Z := 128.

Definition parse_identifier (value : str) : result str str :=
  let trimmed := trim value in
  if bool_decide (trimmed = []) then Err (chars "must not be empty")
  else if MAX_IDENTIFIER_BYTES <? len (as_bytes trimmed) then Err (chars "is too long")
  else if existsb is_control trimmed then Err (chars "must not contain control characters")
  else Ok trimmed.

(** [format!("approval-{ordinal}")] *)
Definition approval_text (ordinal : Z) : str := chars "approval-" ++ (u8 <$> decimal ordinal).

Definition i64_max : Z := 2 ^ 63 - 1.

(** [Timestamp::checked_add]; [timeout] in milliseconds. *)
Definition checked_add (t timeout : Z) : option Z :=
  if i64_max <? timeout then None
  else if t + timeout <=? i64_max then Some (t + timeout) else None.

(** ** The broker *)

(** A pending entry; its channel and its flag are the cell of the same key. *)
Record Pending := mkPending {
  request : ApprovalRequest;
  authority : option InvocationAuthority;
  binding : option ToolBinding;
  binding_token : option str;
  cancellation : Z;
}.

Record BrokerState := mkBroker {
  pending : gmap str Pending;
  remembered : gmap str (gmap str ApprovalDecision);
  next_id : Z;
}.

Definition recall (b : BrokerState) (session tool : str) : option ApprovalDecision :=
  tools ← remembered b !! session; tools !! tool.

Definition forget (b : BrokerState) (session tool : str) : BrokerState * bool :=
  match remembered b !! session with
  | None => (b, false)
  | Some tools =>
      let forgotten := bool_decide (is_Some (tools !! tool)) in
      let tools := delete tool tools in
      (mkBroker (pending b)
         (if bool_decide (tools = ∅) then delete session (remembered b)
          else <[session := tools]> (remembered b)) (next_id b),
       forgotten)
  end.

Definition forget_session (b : BrokerState) (session : str) : BrokerState * Z :=
  (mkBroker (pending b) (delete session (remembered b)) (next_id b),
   match remembered b !! session with Some tools => Z.of_nat (size tools) | None => 0 end).

(** [state.remembered.entry(session).or_default().insert(tool, decision)] *)
Definition remember (m : gmap str (gmap str ApprovalDecision)) (session tool : str)
    (d : ApprovalDecision) : gmap str (gmap str ApprovalDecision) :=
  <[session := <[tool := d]> (default ∅ (m !! session))]> m.

(** The locked section of [resolve_inner]: the entry it removed and the decision it
    will send, or the error. [closed] is [responder.is_closed()]. *)
Definition resolve_inner (b : BrokerState) (s : Signals) (now : Z) (closed : bool) (id : str)
    (d : ApprovalDecision) (token : option str) : BrokerState * result ApprovalError Pending :=
  match pending b !! id with
  | None => (b, Err (Unknown id))
  | Some p =>
      if is_cancelled s (cancellation p) || some_and (λ a, negb (can_execute s a)) (authority p)
         || closed || (expires_at (request p) <=? now) then (b, Err (Unknown id))
      else if some_and (λ _, true) (authority p) && is_remembered (scope d) then
        (b, Err (Port (Invalid (chars "authenticated tool approvals are restricted to this invocation"))))
      else if bool_decide (binding_token p ≠ token) then (b, Err (Unknown id))
      else
        (mkBroker (delete id (pending b))
           (if is_remembered (scope d) then
              remember (remembered b) (session_id (request p)) (tool_name (request p)) d
            else remembered b) (next_id b),
         Ok p)
  end.

(** [resolve] and [resolve_bound] *)
Definition resolve b s now closed id d := resolve_inner b s now closed id d None.
Definition resolve_bound b s now closed id d token := resolve_inner b s now closed id d (Some token).

(** The locked section of [withdraw_all]. *)
Definition drain (b : BrokerState) : BrokerState * gset str :=
  (mkBroker ∅ (remembered b) (next_id b), dom (pending b)).

(** [discard] *)
Definition discard (b : BrokerState) (id : str) : BrokerState * bool :=
  (mkBroker (delete id (pending b)) (remembered b) (next_id b),
   bool_decide (is_Some (pending b !! id))).

(** The counter bump and the identifier of [request_inner]. *)
Definition mint (b : BrokerState) : BrokerState * result ApprovalError str :=
  if next_id b + 1 <=? u64_max then
    (mkBroker (pending b) (remembered b) (next_id b + 1),
     match parse_identifier (approval_text (next_id b + 1)) with
     | Ok id => Ok id
     | Err reason => Err (Identifier reason)
     end)
  else (b, Err (Identifier (chars "the broker has exhausted its identifier space"))).

Definition insert_pending (b : BrokerState) (p : Pending) : BrokerState :=
  mkBroker (<[approval_id (request p) := p]> (pending b)) (remembered b) (next_id b).

(** The test on a preview token: 64 hexadecimal digits. *)
Definition is_ascii_hexdigit (b : byte) : bool :=
  is_ascii_digit b || ((65 <=? u8 b) && (u8 b <=? 70)) || ((97 <=? u8 b) && (u8 b <=? 102)).

Definition token_ok (token : str) : bool :=
  (len (as_bytes token) =? 64) && forallb is_ascii_hexdigit (as_bytes token).

(** ** Waiters *)

(** Where a call of [request_inner] is. The guard is armed from [Inserted] to
    [Selecting]; [Presenting], [Selecting], [Notifying] and [Settling] are awaits. *)
Inductive Phase :=
| Starting
| Recalling
| Timing
| Minting (requested expires : Z)
| Binding (r : ApprovalRequest)
| Inserting (r : ApprovalRequest) (token : option str)
| Inserted (r : ApprovalRequest)
| Presenting (r : ApprovalRequest)
| Failing (r : ApprovalRequest) (e : PortError)
| Selecting (r : ApprovalRequest)
| Withdrawing (r : ApprovalRequest)
| Judging (r : ApprovalRequest) (still_pending : bool)
| Notifying (r : ApprovalRequest) (reason : ApprovalWithdrawal)
| Settling (r : ApprovalRequest) (d : ApprovalDecision)
| Finished (r : option ApprovalRequest) (answer : result ApprovalError ApprovalOutcome)
| Dropped (r : ApprovalRequest).

Record Waiter := mkWaiter {
  ticket : ApprovalTicket;
  w_authority : option InvocationAuthority;
  w_binding : option ToolBinding;
  cancel : Z;
  phase : Phase;
}.

Definition at_phase (w : Waiter) (p : Phase) : Waiter :=
  mkWaiter (ticket w) (w_authority w) (w_binding w) (cancel w) p.

(** The oneshot channel of a request: nothing sent, a decision taken by [resolve]
    and about to be sent, or sent. *)
Inductive Delivery := Unsent | Taken (d : ApprovalDecision) | Sent (d : ApprovalDecision).

(** The calls made to the presentation port to dismiss a request. *)
Inductive Notice := Settled | WithdrawnNotice (reason : ApprovalWithdrawal) | Abandoned.

(** What is shared about one request: its channel, [decision_accepted], whether
    [withdraw_all] still has to notify it, and the dismissals made. *)
Record Cell := mkCell {
  delivery : Delivery;
  decision_accepted : bool;
  queued : option ApprovalWithdrawal;
  notices : list Notice;
}.

Definition new_cell : Cell := mkCell Unsent false None [].

(** An answer the broker accepted: the request it was for, with its claims. *)
Record Answer := mkAnswer {
  ans_pending : Pending;
  ans_decision : ApprovalDecision;
  ans_token : option str;
  ans_now : Z;
}.

Record World := mkWorld {
  broker : BrokerState;
  cells : gmap str Cell;
  waiters : list Waiter;
  signals : Signals;
  answers : list Answer;
}.

Definition set_phase (w : World) (k : nat) (x : Waiter) (p : Phase) : World :=
  mkWorld (broker w) (cells w) (<[k := at_phase x p]> (waiters w)) (signals w) (answers w).

Definition set_broker (w : World) (b : BrokerState) : World :=
  mkWorld b (cells w) (waiters w) (signals w) (answers w).

Definition set_cell (w : World) (id : str) (f : Cell → Cell) : World :=
  mkWorld (broker w) (alter f id (cells w)) (waiters w) (signals w) (answers w).

Definition notice (n : Notice) (c : Cell) : Cell :=
  mkCell (delivery c) (decision_accepted c) (queued c) (n :: notices c).

(** The request a waiter has minted. *)
Definition minted (p : Phase) : option ApprovalRequest :=
  match p with
  | Binding r | Inserting r _ | Inserted r | Presenting r | Failing r _ | Selecting r
  | Withdrawing r | Judging r _ | Notifying r _ | Settling r _ | Dropped r => Some r
  | Finished r _ => r
  | _ => None
  end.

(** The receiver lives until the [select!] is over. *)
Definition receiving (p : Phase) : bool :=
  match p with
  | Binding _ | Inserting _ _ | Inserted _ | Presenting _ | Failing _ _ | Selecting _ => true
  | _ => false
  end.

(** [responder.is_closed()] *)
Definition receiver_closed (w : World) (id : str) : bool :=
  negb (existsb (λ x, receiving (phase x) &&
          some_and (λ r, bool_decide (approval_id r = id)) (minted (phase x))) (waiters w)).

Definition withdrawal_reason (s : Signals) (x : Waiter) : ApprovalWithdrawal :=
  if is_cancelled s (cancel x) || some_and (is_revoked s) (w_authority x) then Cancelled
  else TimedOut.

Definition finish_ok (w : World) k x r (o : ApprovalOutcome) : World :=
  set_phase w k x (Finished (Some r) (Ok o)).

(** The [Drop] of an armed [PendingGuard]. *)
Definition guard_drop (w : World) (id : str) (c : Cell) : World :=
  let '(b, removed) := discard (broker w) id in
  set_broker (if removed || decision_accepted c then set_cell w id (notice Abandoned) else w) b.

(** One atomic section of waiter [k]; [now] is what the clock answers and [port]
    what the presentation port answers, where the section asks them. *)
Inductive advance (timeout : Z) (k : nat) (x : Waiter) : World → World → Prop :=
| adv_refused w :
    phase x = Starting →
    is_cancelled (signals w) (cancel x)
    || some_and (λ a, negb (can_execute (signals w) a)) (w_authority x) = true →
    advance timeout k x w (set_phase w k x (Finished None (Ok (Withdrawn Cancelled))))
| adv_checked w :
    phase x = Starting →
    is_cancelled (signals w) (cancel x)
    || some_and (λ a, negb (can_execute (signals w) a)) (w_authority x) = false →
    advance timeout k x w (set_phase w k x Recalling)
| adv_recalled w d :
    phase x = Recalling → w_authority x = None →
    recall (broker w) (t_session_id (ticket x)) (t_tool_name (ticket x)) = Some d →
    advance timeout k x w (set_phase w k x (Finished None (Ok (Decided d true))))
| adv_not_recalled w :
    phase x = Recalling →
    w_authority x ≠ None ∨
    recall (broker w) (t_session_id (ticket x)) (t_tool_name (ticket x)) = None →
    advance timeout k x w (set_phase w k x Timing)
| adv_deadline w now expires :
    phase x = Timing → checked_add now timeout = Some expires →
    advance timeout k x w (set_phase w k x (Minting now expires))
| adv_overflow w now :
    phase x = Timing → checked_add now timeout = None →
    advance timeout k x w (set_phase w k x (Finished None (Err DeadlineOverflow)))
| adv_mint w b id requested expires :
    phase x = Minting requested expires → mint (broker w) = (b, Ok id) →
    let t := ticket x in
    let r := mkReq id (t_session_id t) (t_turn t) (t_call_id t) (t_tool_name t) (t_arguments t)
               requested expires in
    advance timeout k x w
      (mkWorld b (<[id := new_cell]> (cells w)) (<[k := at_phase x (Binding r)]> (waiters w))
         (signals w) (answers w))
| adv_mint_failed w b e requested expires :
    phase x = Minting requested expires → mint (broker w) = (b, Err e) →
    advance timeout k x w (set_phase (set_broker w b) k x (Finished None (Err e)))
| adv_unbound w r :
    phase x = Binding r → w_binding x = None →
    advance timeout k x w (set_phase w k x (Inserting r None))
| adv_bound w r token :
    phase x = Binding r → w_binding x ≠ None → token_ok token = true →
    advance timeout k x w (set_phase w k x (Inserting r (Some token)))
| adv_bad_token w r token :
    phase x = Binding r → w_binding x ≠ None → token_ok token = false →
    advance timeout k x w
      (set_phase w k x (Finished (Some r)
         (Err (Port (Invalid (chars "approval binding token is not a 256-bit encoded value"))))))
| adv_no_token w r e :
    phase x = Binding r → w_binding x ≠ None →
    advance timeout k x w (set_phase w k x (Finished (Some r) (Err (Port e))))
| adv_insert w r token :
    phase x = Inserting r token →
    advance timeout k x w
      (set_phase (set_broker w (insert_pending (broker w)
         (mkPending r (w_authority x) (w_binding x) token (cancel x)))) k x (Inserted r))
| adv_present w r :
    phase x = Inserted r → advance timeout k x w (set_phase w k x (Presenting r))
| adv_presented w r :
    phase x = Presenting r → advance timeout k x w (set_phase w k x (Selecting r))
| adv_not_presented w r e :
    phase x = Presenting r → advance timeout k x w (set_phase w k x (Failing r e))
| adv_fail w r e :
    phase x = Failing r e →
    advance timeout k x w
      (set_phase (set_broker w (discard (broker w) (approval_id r)).1) k x
         (Finished (Some r) (Err (Port e))))
| adv_cancelled w r :
    phase x = Selecting r →
    is_cancelled (signals w) (cancel x) || some_and (is_revoked (signals w)) (w_authority x) = true →
    advance timeout k x w (set_phase w k x (Withdrawing r))
| adv_decided w r c d :
    phase x = Selecting r → cells w !! approval_id r = Some c → delivery c = Sent d →
    advance timeout k x w
      (set_phase (set_cell w (approval_id r) (notice Settled)) k x (Settling r d))
| adv_sender_gone w r c :
    phase x = Selecting r → cells w !! approval_id r = Some c → delivery c = Unsent →
    pending (broker w) !! approval_id r = None →
    advance timeout k x w (set_phase w k x (Withdrawing r))
| adv_timed_out w r now :
    phase x = Selecting r → expires_at r ≤ now →
    advance timeout k x w (set_phase w k x (Withdrawing r))
| adv_discard w r :
    phase x = Withdrawing r →
    advance timeout k x w
      (set_phase (set_broker w (discard (broker w) (approval_id r)).1) k x
         (Judging r (discard (broker w) (approval_id r)).2))
| adv_notify w r still c :
    phase x = Judging r still → cells w !! approval_id r = Some c →
    still || decision_accepted c = true →
    let reason := withdrawal_reason (signals w) x in
    advance timeout k x w
      (set_phase (set_cell w (approval_id r) (notice (WithdrawnNotice reason))) k x
         (Notifying r reason))
| adv_silent w r still c :
    phase x = Judging r still → cells w !! approval_id r = Some c →
    still || decision_accepted c = false →
    advance timeout k x w (finish_ok w k x r (Withdrawn (withdrawal_reason (signals w) x)))
| adv_notified w r reason :
    phase x = Notifying r reason →
    advance timeout k x w (finish_ok w k x r (Withdrawn reason))
| adv_notify_failed w r reason e :
    phase x = Notifying r reason →
    advance timeout k x w (set_phase w k x (Finished (Some r) (Err (Port e))))
| adv_settled w r d :
    phase x = Settling r d → advance timeout k x w (finish_ok w k x r (Decided d false))
| adv_settle_failed w r d e :
    phase x = Settling r d →
    advance timeout k x w (set_phase w k x (Finished (Some r) (Err (Port e))))
(** The future is dropped at an await; the guard runs while it is armed. *)
| adv_dropped_armed w r c :
    phase x = Presenting r ∨ phase x = Selecting r → cells w !! approval_id r = Some c →
    advance timeout k x w (set_phase (guard_drop w (approval_id r) c) k x (Dropped r))
| adv_dropped w r reason d :
    phase x = Notifying r reason ∨ phase x = Settling r d →
    advance timeout k x w (set_phase w k x (Dropped r)).

Inductive step (timeout : Z) : World → World → Prop :=
| step_request w t a b token :
    step timeout w (mkWorld (broker w) (cells w) (waiters w ++ [mkWaiter t a b token Starting])
                      (signals w) (answers w))
| step_advance w w' k x : waiters w !! k = Some x → advance timeout k x w w' → step timeout w w'
| step_resolve w id d token now b p c :
    resolve_inner (broker w) (signals w) now (receiver_closed w id) id d token = (b, Ok p) →
    cells w !! id = Some c →
    step timeout w
      (mkWorld b (<[id := mkCell (Taken d) true (queued c) (notices c)]> (cells w)) (waiters w)
         (signals w) (mkAnswer p d token now :: answers w))
| step_send w id c d :
    cells w !! id = Some c → delivery c = Taken d →
    step timeout w (set_cell w id (λ c, mkCell (Sent d) (decision_accepted c) (queued c) (notices c)))
| step_withdraw_all w reason :
    let '(b, ids) := drain (broker w) in
    step timeout w
      (mkWorld b
         (map_imap (λ id c, Some (if bool_decide (id ∈ ids)
                                  then mkCell (delivery c) (decision_accepted c) (Some reason) (notices c)
                                  else c)) (cells w))
         (waiters w) (signals w) (answers w))
| step_drained w id c reason :
    cells w !! id = Some c → queued c = Some reason →
    step timeout w
      (set_cell w id (λ c, mkCell (delivery c) (decision_accepted c) None
                             (WithdrawnNotice reason :: notices c)))
| step_forget w session tool :
    step timeout w (set_broker w (forget (broker w) session tool).1)
| step_forget_session w session :
    step timeout w (set_broker w (forget_session (broker w) session).1)
| step_signal w s :
    fired (signals w) ⊆ fired s → revoked (signals w) ⊆ revoked s →
    step timeout w (mkWorld (broker w) (cells w) (waiters w) s (answers w)).

Definition initial : World := mkWorld (mkBroker ∅ ∅ 0) ∅ [] (mkSignals ∅ ∅) [].

Definition reachable (timeout : Z) : World → Prop := rtc (step timeout) initial.

(** ** Invariant *)

(** The dismissals of a request, the one still owed by [withdraw_all] included. *)
Definition dismissals (c : Cell) : nat :=
  length (notices c) + (if queued c then 1 else 0).

(** An accepted answer to the request of a waiter. *)
Definition answered (log : list Answer) (x : Waiter) (r : ApprovalRequest) (d : ApprovalDecision) : Prop :=
  ∃ a, a ∈ log ∧ request (ans_pending a) = r ∧ authority (ans_pending a) = w_authority x ∧
       ans_decision a = d.

(** The three situations of a registered request: waiting, answered, withdrawn by
    [withdraw_all]. *)
Inductive registered (log : list Answer) (x : Waiter) (r : ApprovalRequest) : option Pending → Cell → Prop :=
| reg_waiting p :
    request p = r → authority p = w_authority x → registered log x r (Some p) new_cell
| reg_answered d c :
    delivery c = Taken d ∨ delivery c = Sent d → answered log x r d → decision_accepted c = true →
    dismissals c = 0%nat → registered log x r None c
| reg_drained c :
    delivery c = Unsent → decision_accepted c = false → dismissals c = 1%nat →
    registered log x r None c.

Definition phase_ok (log : list Answer) (x : Waiter) (r : ApprovalRequest) (p : option Pending) (c : Cell) : Prop :=
  match phase x with
  | Binding _ | Inserting _ _ => p = None ∧ c = new_cell
  | Inserted _ | Presenting _ | Failing _ _ | Selecting _ | Withdrawing _ => registered log x r p c
  | Judging _ still =>
      p = None ∧ if still then c = new_cell else registered log x r None c
  | Notifying _ _ | Dropped _ | Finished _ (Ok (Withdrawn _)) => p = None ∧ dismissals c = 1%nat
  | Settling _ d | Finished _ (Ok (Decided d false)) =>
      p = None ∧ delivery c = Sent d ∧ answered log x r d ∧ dismissals c = 1%nat
  | Finished _ (Ok (Decided _ true)) => False
  | Finished _ (Err _) => p = None ∧ (dismissals c ≤ 1)%nat
  | _ => False
  end.

(** A request is its waiter's ticket. *)
Definition of_ticket (t : ApprovalTicket) (r : ApprovalRequest) : Prop :=
  session_id r = t_session_id t ∧ turn r = t_turn t ∧ call_id r = t_call_id t ∧
  tool_name r = t_tool_name t ∧ arguments r = t_arguments t.

(** An operator's standing decision for a session and a tool. *)
Definition standing (log : list Answer) (session tool : str) (d : ApprovalDecision) : Prop :=
  scope d = Session ∧ ∃ a, a ∈ log ∧ authority (ans_pending a) = None ∧ ans_decision a = d ∧
    session_id (request (ans_pending a)) = session ∧ tool_name (request (ans_pending a)) = tool.

Definition owner (w : World) (k : nat) (x : Waiter) (r : ApprovalRequest) : Prop :=
  waiters w !! k = Some x ∧ minted (phase x) = Some r.

(** What holds of the answer of a waiter that never minted a request. *)
Definition unminted_ok (log : list Answer) (x : Waiter) : Prop :=
  match phase x with
  | Finished None (Ok (Decided d remembered)) =>
      remembered = true ∧ w_authority x = None ∧
      standing log (t_session_id (ticket x)) (t_tool_name (ticket x)) d
  | _ => True
  end.

Definition answer_ok (a : Answer) : Prop :=
  ans_now a < expires_at (request (ans_pending a)) ∧
  binding_token (ans_pending a) = ans_token a ∧
  (authority (ans_pending a) ≠ None → scope (ans_decision a) = Once).

Record inv (w : World) : Prop := {
  inv_next : 0 ≤ next_id (broker w) ≤ u64_max;
  inv_ids : ∀ k x r, owner w k x r →
    ∃ o, 1 ≤ o ≤ next_id (broker w) ∧ approval_id r = approval_text o;
  inv_unique : ∀ k k' x x' r r', owner w k x r → owner w k' x' r' →
    approval_id r = approval_id r' → k = k';
  inv_phase : ∀ k x r, owner w k x r →
    of_ticket (ticket x) r ∧
    ∃ c, cells w !! approval_id r = Some c ∧
         phase_ok (answers w) x r (pending (broker w) !! approval_id r) c;
  inv_owned : ∀ id p, pending (broker w) !! id = Some p →
    ∃ k x r, owner w k x r ∧ approval_id r = id;
  inv_unminted : ∀ k x, waiters w !! k = Some x → unminted_ok (answers w) x;
  inv_answers : ∀ a, a ∈ answers w → answer_ok a ∧
    (∃ k x r, owner w k x r ∧ approval_id r = approval_id (request (ans_pending a))) ∧
    ∃ c, cells w !! approval_id (request (ans_pending a)) = Some c ∧ decision_accepted c = true;
  inv_answers_once : NoDup ((λ a, approval_id (request (ans_pending a))) <$> answers w);
  inv_remembered : ∀ session tools tool d,
    remembered (broker w) !! session = Some tools → tools !! tool = Some d →
    standing (answers w) session tool d;
}.

(** ** Identifiers *)

Lemma digit_char b : is_ascii_digit b = true → 48 ≤ u8 b ≤ 57.
Proof. unfold is_ascii_digit. intros H. boolify. lia. Qed.

Lemma approval_text_chars o :
  0 ≤ o ≤ u64_max →
  Forall (λ c, c = 45 ∨ 48 ≤ c ≤ 57 ∨ 97 ≤ c ≤ 122) (approval_text o) ∧
  (length (approval_text o) ≤ 29)%nat ∧
  ∃ c s, approval_text o = s ++ [c] ∧ 48 ≤ c ≤ 57.
Proof.
  intros Ho. destruct (decimal_ok o Ho) as (_ & Hd & Hl & Hn). unfold approval_text.
  split; [|split].
  - apply Forall_app. split.
    { change (chars "approval-") with [97; 112; 112; 114; 111; 118; 97; 108; 45].
      repeat (constructor; [lia|]). constructor. }
    apply Forall_fmap.
    eapply Forall_impl; [done|]. intros b Hb%digit_char. right. left. done.
  - rewrite length_app, length_fmap. change (length (chars "approval-")) with 9%nat. lia.
  - destruct (decimal o) as [|b l _] using rev_ind; [done|].
    apply Forall_app in Hd as [_ Hd]. apply Forall_cons in Hd as [Hb%digit_char _].
    exists (u8 b), (chars "approval-" ++ (u8 <$> l)). rewrite fmap_app, (assoc_L app). done.
Qed.

Lemma as_bytes_ascii s : Forall (λ c, 0 ≤ c < 128) s → len (as_bytes s) = len s.
Proof.
  unfold as_bytes. induction 1 as [|c s Hc _ IH]; [done|]. rewrite fmap_cons. cbn [concat].
  rewrite len_app, IH, len_cons. unfold encode_char. by replace (c <? 0x80) with true by lia.
Qed.

Lemma mint_identifier o :
  0 ≤ o ≤ u64_max → parse_identifier (approval_text o) = Ok (approval_text o).
Proof.
  intros Ho. destruct (approval_text_chars o Ho) as (Hf & Hl & c & s & Hs & Hc).
  assert (trim (approval_text o) = approval_text o) as Ht.
  { unfold trim.
    assert (trim_start (approval_text o) = approval_text o) as -> by done.
    assert (is_whitespace c = false) as Hw.
    { unfold is_whitespace. rewrite !orb_false_iff, !andb_false_iff. lia. }
    rewrite Hs, reverse_snoc. cbn [trim_start]. by rewrite Hw, reverse_cons, reverse_involutive. }
  unfold parse_identifier. rewrite Ht.
  rewrite bool_decide_eq_false_2 by (rewrite Hs; by destruct s).
  rewrite as_bytes_ascii by (eapply Forall_impl; [done|]; cbn; lia).
  replace (MAX_IDENTIFIER_BYTES <? _) with false by (unfold len, MAX_IDENTIFIER_BYTES; lia).
  assert (existsb is_control (approval_text o) = false) as ->; [|done].
  clear -Hf. induction Hf as [|c s Hc _ IH]; [done|]. cbn [existsb]. rewrite IH, orb_false_r.
  unfold is_control. apply orb_false_iff. rewrite !andb_false_iff. lia.
Qed.

Lemma approval_text_inj o o' :
  0 ≤ o ≤ u64_max → 0 ≤ o' ≤ u64_max → approval_text o = approval_text o' → o = o'.
Proof.
  intros Ho Ho' H%(inj (app _)). 
  assert (decimal o = decimal o') as Hd by (eapply (list_fmap_eq_inj u8); [|done]; exact u8_inj).
  destruct (decimal_ok o Ho) as [<- _]. rewrite Hd. by apply decimal_ok.
Qed.

Lemma mint_Ok b b' id :
  mint b = (b', Ok id) → 0 ≤ next_id b ≤ u64_max →
  id = approval_text (next_id b + 1) ∧ next_id b + 1 ≤ u64_max ∧
  b' = mkBroker (pending b) (remembered b) (next_id b + 1).
Proof.
  unfold mint. intros H Hb. destruct (_ <=? u64_max) eqn:E; boolify; [|done].
  rewrite mint_identifier in H by lia. by injection H as <- <-.
Qed.

Lemma mint_Err b b' e :
  mint b = (b', Err e) → 0 ≤ next_id b ≤ u64_max → b' = b.
Proof.
  unfold mint. intros H Hb. destruct (_ <=? u64_max) eqn:E; boolify; [|by injection H].
  by rewrite mint_identifier in H by lia.
Qed.

(** ** Preservation *)

Lemma owner_set w k x p (w' : World) :
  waiters w !! k = Some x → waiters w' = <[k := at_phase x p]> (waiters w) →
  ∀ k' x' r, owner w' k' x' r ↔
    (k' = k ∧ x' = at_phase x p ∧ minted p = Some r) ∨ (k' ≠ k ∧ owner w k' x' r).
Proof.
  intros Hk Hw k' x' r. unfold owner. rewrite Hw. apply lookup_lt_Some in Hk as Hlt.
  destruct (decide (k' = k)) as [->|Hne].
  - rewrite list_lookup_insert_eq by done. split.
    + intros [[= <-] Hm]. by left.
    + intros [(_ & -> & Hm)|[? _]]; done.
  - rewrite list_lookup_insert_ne by done. naive_solver.
Qed.

(** A waiter without a request moves to a phase without a request. *)
Lemma inv_move_unminted w k x p :
  inv w → waiters w !! k = Some x → minted (phase x) = None → minted p = None →
  unminted_ok (answers w) (at_phase x p) → inv (set_phase w k x p).
Proof.
  intros [H1 H2 H3 H4 H5 H6 H7 H8 H9] Hk Hm Hp Hok.
  pose proof (owner_set w k x p (set_phase w k x p) Hk eq_refl) as Ho.
  assert (∀ k' x' r, owner (set_phase w k x p) k' x' r ↔ owner w k' x' r) as Heq.
  { intros k' x' r. rewrite Ho, Hp. split; [naive_solver|]. intros Hw. right. split; [|done].
    intros ->. destruct Hw as [Hw Hr]. congruence. }
  constructor; cbn [set_phase broker cells answers]; try done.
  - intros k' x' r ?%Heq. by eapply H2.
  - intros k1 k2 x1 x2 r1 r2 ?%Heq ?%Heq. by eapply H3.
  - intros k' x' r ?%Heq. by eapply H4.
  - intros id p' (k' & x' & r & ?%Heq & ?)%H5. eauto.
  - intros k' x'. cbn. destruct (decide (k' = k)) as [->|Hne].
    + rewrite list_lookup_insert_eq by (by eapply lookup_lt_Some). by intros [= <-].
    + rewrite list_lookup_insert_ne by done. apply H6.
  - intros a (? & (k' & x' & r & ?%Heq & ?) & ?)%H7. split; [done|]. split; [|done]. eauto.
Qed.

(** A waiter moves with its request, touching only what is keyed by its identifier. *)
Lemma inv_move w w' k x p r :
  inv w → waiters w !! k = Some x → minted (phase x) = Some r → minted p = Some r →
  waiters w' = <[k := at_phase x p]> (waiters w) → answers w' = answers w →
  next_id (broker w') = next_id (broker w) → remembered (broker w') = remembered (broker w) →
  (∀ id, id ≠ approval_id r → pending (broker w') !! id = pending (broker w) !! id) →
  (∀ id, id ≠ approval_id r → cells w' !! id = cells w !! id) →
  (∀ c, cells w !! approval_id r = Some c →
     phase_ok (answers w) x r (pending (broker w) !! approval_id r) c →
     ∃ c', cells w' !! approval_id r = Some c' ∧
           (decision_accepted c = true → decision_accepted c' = true) ∧
           phase_ok (answers w) (at_phase x p) r (pending (broker w') !! approval_id r) c') →
  inv w'.
Proof.
  intros [H1 H2 H3 H4 H5 H6 H7 H8 H9] Hk Hm Hp Hw Ha Hn Hr Hpe Hce Hok.
  pose proof (owner_set w k x p w' Hk Hw) as Ho.
  assert (owner w k x r) as Hx by done. destruct (H4 _ _ _ Hx) as (Hti & c & Hc & Hph).
  destruct (Hok c Hc Hph) as (c' & Hc' & Hacc & Hph').
  assert (∀ k' x' r', owner w' k' x' r' → ∃ x'', owner w k' x'' r') as Hback.
  { intros k' x' r' [(-> & -> & Hm')|[_ Hw']]%Ho; [|by eauto]. exists x. split; [done|]. congruence. }
  assert (∀ k' x' r', owner w k' x' r' → ∃ x'', owner w' k' x'' r') as Hforth.
  { intros k' x' r' Hw'. destruct (decide (k' = k)) as [->|Hne].
    - exists (at_phase x p). apply Ho. left. destruct Hw' as [? ?]. split_and!; congruence.
    - exists x'. apply Ho. by right. }
  constructor; rewrite ?Ha, ?Hn, ?Hr; try done.
  - intros k' x' r' (x'' & Hw')%Hback. by eapply H2.
  - intros k1 k2 x1 x2 r1 r2 (x1' & Hw1)%Hback (x2' & Hw2)%Hback. by eapply H3.
  - intros k' x' r' [(-> & -> & Hm')|[Hne Hw']]%Ho.
    + assert (r' = r) as -> by congruence. split; [done|]. by exists c'.
    + destruct (H4 _ _ _ Hw') as (? & c1 & Hc1 & Hph1). split; [done|].
      assert (approval_id r' ≠ approval_id r) as Hid by (intros E; apply Hne; by eapply H3).
      exists c1. by rewrite Hce, Hpe by done.
  - intros id p' Hp'. destruct (decide (id = approval_id r)) as [->|Hne].
    + exists k, (at_phase x p), r. split; [|done]. apply Ho. by left.
    + rewrite Hpe in Hp' by done. destruct (H5 _ _ Hp') as (k' & x' & r' & Hw' & ?).
      apply Hforth in Hw' as [x'' ?]. eauto.
  - intros k' x'. rewrite Hw. destruct (decide (k' = k)) as [->|Hne].
    + rewrite list_lookup_insert_eq by (by eapply lookup_lt_Some). intros [= <-].
      unfold unminted_ok. cbn. destruct p; try done. by destruct answer as [[[] ?|]|], r0.
    + rewrite list_lookup_insert_ne by done. apply H6.
  - intros a (? & (k' & x' & r' & Hw' & ?) & c1 & Hc1 & Hacc1)%H7. split; [done|]. split.
    + apply Hforth in Hw' as [x'' ?]. eauto.
    + destruct (decide (approval_id (request (ans_pending a)) = approval_id r)) as [E|Hne].
      * rewrite E in *. exists c'. split; [done|]. apply Hacc. congruence.
      * exists c1. by rewrite Hce by done.
Qed.

Lemma registered_at log x r p c ph :
  registered log x r p c → registered log (at_phase x ph) r p c.
Proof. destruct 1; [by apply reg_waiting|by eapply reg_answered|by apply reg_drained]. Qed.

Lemma registered_none log x r c :
  registered log x r None c → (dismissals c ≤ 1)%nat ∧
  (decision_accepted c = true ∧ dismissals c = 0%nat ∨ decision_accepted c = false ∧ dismissals c = 1%nat).
Proof. inversion_clear 1; split; (lia || tauto). Qed.

(** Removing the pending entry of a registered request. *)
Lemma registered_discard log x r p c :
  registered log x r p c →
  (is_Some p ∧ c = new_cell) ∨ (p = None ∧ registered log x r None c).
Proof. inversion 1; subst; [left; by split|right; by split..]. Qed.

Lemma inv_move_same w k x p r :
  inv w → waiters w !! k = Some x → minted (phase x) = Some r → minted p = Some r →
  (∀ P c, phase_ok (answers w) x r P c → phase_ok (answers w) (at_phase x p) r P c) →
  inv (set_phase w k x p).
Proof.
  intros Hi Hk Hm Hp Hok. eapply (inv_move w _ k x p r); try done.
  intros c Hc Hph. exists c. eauto.
Qed.

Lemma inv_discard w k x p r b removed :
  inv w → waiters w !! k = Some x → minted (phase x) = Some r → minted p = Some r →
  discard (broker w) (approval_id r) = (b, removed) →
  (∀ c, phase_ok (answers w) x r (pending (broker w) !! approval_id r) c →
        phase_ok (answers w) (at_phase x p) r None c) →
  inv (set_phase (set_broker w b) k x p).
Proof.
  intros Hi Hk Hm Hp [= <- <-] Hok. eapply (inv_move w _ k x p r); try done.
  - intros id Hne. cbn. by rewrite lookup_delete_ne.
  - intros c Hc Hph. exists c. split; [done|]. split; [done|]. cbn. rewrite lookup_delete_eq. auto.
Qed.

Lemma dismissals_notice n c : dismissals (notice n c) = S (dismissals c).
Proof. done. Qed.

Lemma inv_mint w k x b id requested expires :
  inv w → waiters w !! k = Some x → phase x = Minting requested expires →
  mint (broker w) = (b, Ok id) →
  let t := ticket x in
  let r := mkReq id (t_session_id t) (t_turn t) (t_call_id t) (t_tool_name t) (t_arguments t)
             requested expires in
  inv (mkWorld b (<[id := new_cell]> (cells w)) (<[k := at_phase x (Binding r)]> (waiters w))
         (signals w) (answers w)).
Proof.
  intros [H1 H2 H3 H4 H5 H6 H7 H8 H9] Hk Hph Hmint t r.
  apply mint_Ok in Hmint as (-> & Hmax & ->); [|done].
  set (w' := mkWorld _ _ _ _ _).
  pose proof (owner_set w k x (Binding r) w' Hk eq_refl) as Ho.
  assert (∀ k' x' r', owner w k' x' r' → k' ≠ k ∧ approval_id r' ≠ approval_text (next_id (broker w) + 1)) as Hfresh.
  { intros k' x' r' Hw'. split.
    - intros ->. destruct Hw' as [? Hm]. simplify_eq. by rewrite Hph in Hm.
    - destruct (H2 _ _ _ Hw') as (o & Ho1 & ->). intros E%approval_text_inj; lia. }
  assert (pending (broker w) !! approval_text (next_id (broker w) + 1) = None) as Hnone.
  { destruct (pending (broker w) !! _) eqn:E; [|done].
    apply H5 in E as (k' & x' & r' & Hw' & E). by destruct (Hfresh _ _ _ Hw'). }
  assert (∀ k' x' r', owner w k' x' r' → owner w' k' x' r') as Hforth.
  { intros k' x' r' Hw'. apply Ho. right. split; [|done]. by destruct (Hfresh _ _ _ Hw'). }
  constructor; cbn [w' broker cells answers next_id remembered pending]; try done; [lia| | | | | |].
  - intros k' x' r' [(-> & -> & [= <-])|[_ Hw']]%Ho; [by exists (next_id (broker w) + 1); split; [lia|]|].
    destruct (H2 _ _ _ Hw') as (o & ? & ?). exists o. split; [lia|done].
  - intros k1 k2 x1 x2 r1 r2 [(-> & -> & [= <-])|[_ Hw1]]%Ho [(-> & -> & [= <-])|[_ Hw2]]%Ho E.
    + done.
    + symmetry in E. by destruct (Hfresh _ _ _ Hw2).
    + by destruct (Hfresh _ _ _ Hw1).
    + by eapply H3.
  - intros k' x' r' [(-> & -> & [= <-])|[_ Hw']]%Ho.
    + split; [done|]. exists new_cell.
      change (approval_id r) with (approval_text (next_id (broker w) + 1)).
      rewrite lookup_insert_eq, Hnone. by split.
    + destruct (H4 _ _ _ Hw') as (? & c & Hc & ?). split; [done|]. exists c.
      rewrite lookup_insert_ne; [done|]. intros E. by destruct (Hfresh _ _ _ Hw').
  - intros id p (k' & x' & r' & ?%Hforth & ?)%H5. eauto.
  - intros k' x'. cbn. destruct (decide (k' = k)) as [->|Hne].
    + rewrite list_lookup_insert_eq by (by eapply lookup_lt_Some). by intros [= <-].
    + rewrite list_lookup_insert_ne by done. apply H6.
  - intros a (? & (k' & x' & r' & Hw' & E) & c & Hc & ?)%H7. split; [done|].
    split; [by eauto 10|]. exists c. rewrite lookup_insert_ne; [done|]. rewrite <- E.
    intros E'. by destruct (Hfresh _ _ _ Hw').
Qed.

Lemma inv_insert w k x r token :
  inv w → waiters w !! k = Some x → phase x = Inserting r token →
  inv (set_phase (set_broker w (insert_pending (broker w)
         (mkPending r (w_authority x) (w_binding x) token (cancel x)))) k x (Inserted r)).
Proof.
  intros Hi Hk Hph. eapply (inv_move w _ k x (Inserted r) r); try done; [by rewrite Hph|..].
  - intros id Hne. cbn. by rewrite lookup_insert_ne.
  - intros c Hc Hok. exists c. split; [done|]. split; [done|]. cbn. rewrite lookup_insert_eq.
    unfold phase_ok in Hok. rewrite Hph in Hok. destruct Hok as [_ ->]. by constructor.
Qed.

(** A step that only moves the phase, by what the two phases require. *)
Ltac move_same Hph :=
  eapply inv_move_same; try done; [by rewrite Hph|];
  unfold phase_ok; cbn [phase at_phase]; rewrite Hph;
  let P := fresh in let c := fresh in let Hok := fresh in
  intros P c Hok; intuition eauto using registered_at; subst; cbn; (done || lia).

Ltac move_unminted Hph :=
  apply inv_move_unminted; try done; by rewrite Hph.

(** The dismissal of a waiter's own request, by a notice. *)
Lemma inv_notice w k x p r n :
  inv w → waiters w !! k = Some x → minted (phase x) = Some r → minted p = Some r →
  (∀ P c, cells w !! approval_id r = Some c → phase_ok (answers w) x r P c →
          phase_ok (answers w) (at_phase x p) r P (notice n c)) →
  inv (set_phase (set_cell w (approval_id r) (notice n)) k x p).
Proof.
  intros Hi Hk Hm Hp Hok. eapply (inv_move w _ k x p r); try done.
  - intros id Hne. cbn. by rewrite lookup_alter_ne.
  - intros c Hc Hph. exists (notice n c). cbn. rewrite lookup_alter_eq, Hc. cbn. auto.
Qed.

Lemma inv_decided w k x r c d :
  inv w → waiters w !! k = Some x → phase x = Selecting r →
  cells w !! approval_id r = Some c → delivery c = Sent d →
  inv (set_phase (set_cell w (approval_id r) (notice Settled)) k x (Settling r d)).
Proof.
  intros Hi Hk Hph Hc Hd. eapply inv_notice; try done; [by rewrite Hph|].
  intros P c' Hc'. assert (c' = c) as -> by congruence. unfold phase_ok. cbn [phase at_phase]. rewrite Hph.
  inversion 1 as [|d' ? Hd' Ha Hac Hdis|]; subst; [done| |congruence].
  assert (d' = d) as -> by (destruct Hd'; congruence).
  rewrite dismissals_notice, Hdis. by split_and!.
Qed.

Lemma inv_judged w k x r still c :
  inv w → waiters w !! k = Some x → phase x = Judging r still →
  cells w !! approval_id r = Some c →
  let reason := withdrawal_reason (signals w) x in
  inv (if still || decision_accepted c
       then set_phase (set_cell w (approval_id r) (notice (WithdrawnNotice reason))) k x
              (Notifying r reason)
       else finish_ok w k x r (Withdrawn reason)).
Proof.
  intros Hi Hk Hph Hc reason. destruct (still || decision_accepted c) eqn:E.
  - eapply inv_notice; try done; [by rewrite Hph|]. intros P c' Hc'. assert (c' = c) as -> by congruence.
    unfold phase_ok. cbn [phase at_phase]. rewrite Hph, dismissals_notice.
    intros [-> Hs]. split; [done|]. destruct still; [by rewrite Hs|].
    apply registered_none in Hs as [_ [[_ ->]|[Hf _]]]; [done|]. cbn in E. congruence.
  - apply orb_false_iff in E as [-> E]. eapply (inv_move w _ k x (Finished (Some r) (Ok (Withdrawn reason))) r);
      try done; [by rewrite Hph|].
    intros c' Hc'. assert (c' = c) as -> by congruence. unfold phase_ok. cbn [phase at_phase]. rewrite Hph.
    intros [Hp Hs]. exists c. split; [done|]. split; [done|]. split; [exact Hp|].
    apply registered_none in Hs as [_ [[Hf _]|[_ ->]]]; [congruence|done].
Qed.

(** A waiter dropped at an await while its guard is armed. *)
Lemma inv_dropped_armed w k x r c :
  inv w → waiters w !! k = Some x → phase x = Presenting r ∨ phase x = Selecting r →
  cells w !! approval_id r = Some c →
  inv (set_phase (guard_drop w (approval_id r) c) k x (Dropped r)).
Proof.
  intros Hi Hk Hph Hc. unfold guard_drop. cbn [discard]. set (acts := _ || decision_accepted c).
  assert (minted (phase x) = Some r) as Hm by (by destruct Hph as [-> | ->]).
  eapply (inv_move w _ k x (Dropped r) r); try done.
  1-2: by destruct acts.
  - intros id Hne. cbn. by rewrite lookup_delete_ne.
  - intros id Hne. destruct acts; cbn; [by rewrite lookup_alter_ne|done].
  - intros c' Hc' Hok. assert (c' = c) as -> by congruence.
    exists (if acts then notice Abandoned c else c).
    split; [destruct acts; cbn; by rewrite ?lookup_alter_eq, Hc|]. split; [by destruct acts|].
    cbn [broker set_broker set_phase pending]. rewrite lookup_delete_eq.
    assert (registered (answers w) x r (pending (broker w) !! approval_id r) c) as Hr
      by (unfold phase_ok in Hok; by destruct Hph as [E|E]; rewrite E in Hok).
    split; [done|]. unfold acts.
    apply registered_discard in Hr as [[Hs ->]|[Hs Hr]].
    + by rewrite bool_decide_eq_true_2.
    + rewrite Hs. rewrite bool_decide_eq_false_2 by (by intros [? ?]). cbn [orb].
      apply registered_none in Hr as [_ [[-> Hd]|[-> Hd]]]; [by rewrite dismissals_notice, Hd|done].
Qed.

Lemma inv_advance timeout k x w w' :
  inv w → waiters w !! k = Some x → advance timeout k x w w' → inv w'.
Proof.
  intros Hi Hk Ha. destruct Ha as
    [w Hph _|w Hph _|w d Hph Hau Hre|w Hph _|w now e Hph _|w now Hph _|w b id q e Hph Hm t r
    |w b e q f Hph Hm|w r Hph Hb|w r tk Hph Hb _|w r tk Hph Hb _|w r e Hph Hb|w r tk Hph|w r Hph
    |w r Hph|w r e Hph|w r e Hph|w r Hph _|w r c d Hph Hc Hd|w r c Hph Hc Hd _|w r now Hph _|w r Hph
    |w r still c Hph Hc Hs reason|w r still c Hph Hc Hs|w r reason Hph|w r reason e Hph|w r d Hph
    |w r d e Hph|w r c Hph Hc|w r reason d Hph].
  - move_unminted Hph.
  - move_unminted Hph.
  - apply inv_move_unminted; try done; [by rewrite Hph|]. cbn. split; [done|]. split; [done|].
    unfold recall in Hre. destruct (remembered (broker w) !! _) as [tools|] eqn:E; [|done].
    by eapply (inv_remembered w Hi).
  - move_unminted Hph.
  - move_unminted Hph.
  - move_unminted Hph.
  - by eapply inv_mint.
  - apply mint_Err in Hm as ->; [|by apply Hi]. destruct w. by move_unminted Hph.
  - move_same Hph.
  - move_same Hph.
  - move_same Hph.
  - move_same Hph.
  - by eapply inv_insert.
  - move_same Hph.
  - move_same Hph.
  - move_same Hph.
  - eapply inv_discard; try done; [by rewrite Hph|]. intros c. unfold phase_ok. cbn [phase at_phase].
    rewrite Hph. intros [[_ ->]|[_ [Hr _]%registered_none]]%registered_discard; split; (done || cbn; lia).
  - move_same Hph.
  - by eapply inv_decided.
  - move_same Hph.
  - move_same Hph.
  - eapply inv_discard; try done; [by rewrite Hph|]. intros c. unfold phase_ok. cbn [phase at_phase].
    rewrite Hph. intros [[Hs ->]|[Hs Hr]]%registered_discard; (split; [done|]); cbn [discard snd].
    + by rewrite bool_decide_eq_true_2.
    + rewrite Hs, bool_decide_eq_false_2 by (by intros [? ?]). by apply registered_at.
  - pose proof (inv_judged w k x r still c Hi Hk Hph Hc) as H. cbn zeta in H. by rewrite Hs in H.
  - pose proof (inv_judged w k x r still c Hi Hk Hph Hc) as H. cbn zeta in H. by rewrite Hs in H.
  - move_same Hph.
  - move_same Hph.
  - move_same Hph.
  - move_same Hph.
  - by eapply inv_dropped_armed.
  - destruct Hph as [Hph|Hph]; move_same Hph.
Qed.

(** A step outside the waiters that accepts no answer. *)
Lemma inv_shared w w' :
  inv w → waiters w' = waiters w → answers w' = answers w →
  next_id (broker w') = next_id (broker w) →
  (∀ session tools tool d, remembered (broker w') !! session = Some tools → tools !! tool = Some d →
     ∃ tools', remembered (broker w) !! session = Some tools' ∧ tools' !! tool = Some d) →
  pending (broker w') ⊆ pending (broker w) →
  (∀ id c, cells w !! id = Some c → ∃ c', cells w' !! id = Some c' ∧
     (decision_accepted c = true → decision_accepted c' = true) ∧
     ∀ x r, phase_ok (answers w) x r (pending (broker w) !! id) c →
            phase_ok (answers w) x r (pending (broker w') !! id) c') →
  inv w'.
Proof.
  intros [H1 H2 H3 H4 H5 H6 H7 H8 H9] Hw Ha Hn Hr Hp Hc.
  assert (∀ k x r, owner w' k x r ↔ owner w k x r) as Ho by (intros; unfold owner; by rewrite Hw).
  constructor; rewrite ?Ha, ?Hn; try done.
  - intros k x r ?%Ho. by eapply H2.
  - intros k1 k2 x1 x2 r1 r2 ?%Ho ?%Ho. by eapply H3.
  - intros k x r Hx%Ho. destruct (H4 _ _ _ Hx) as (? & c & Hcc & Hok). split; [done|].
    destruct (Hc _ _ Hcc) as (c' & ? & _ & Hok'). exists c'. eauto.
  - intros id p Hid. eapply lookup_weaken in Hid; [|done].
    destruct (H5 _ _ Hid) as (k & x & r & ? & ?). exists k, x, r. by rewrite Ho.
  - intros k x. rewrite Hw. apply H6.
  - intros a (? & (k & x & r & ? & ?) & c & Hcc & Hacc)%H7. split; [done|]. split.
    + exists k, x, r. by rewrite Ho.
    + destruct (Hc _ _ Hcc) as (c' & ? & ? & _). exists c'. auto.
  - intros session tools tool d Hs Ht. destruct (Hr _ _ _ _ Hs Ht) as (tools' & ? & ?). by eapply H9.
Qed.

(** Changing a cell in a way no phase notices. *)
Lemma inv_alter w id f :
  inv w →
  (∀ c, cells w !! id = Some c → decision_accepted (f c) = decision_accepted c ∧
     dismissals (f c) = dismissals c ∧ c ≠ new_cell ∧
     (delivery (f c) = delivery c ∨ ∃ d, delivery c = Taken d ∧ delivery (f c) = Sent d)) →
  inv (set_cell w id f).
Proof.
  intros Hi Hf. apply (inv_shared w); try done; [by eauto|]. intros id' c Hc. cbn [set_cell cells broker].
  destruct (decide (id' = id)) as [->|Hne].
  2: { exists c. by rewrite lookup_alter_ne. }
  exists (f c). rewrite lookup_alter_eq, Hc. destruct (Hf c Hc) as (Ha & Hd & Hne & Hdel).
  split; [done|]. split; [by rewrite Ha|]. intros x r.
  assert (∀ P, registered (answers w) x r P c → registered (answers w) x r P (f c)) as Hreg.
  { intros P. inversion 1 as [p Hp1 Hp2|d c' Hd' Hans Hacc Hdis|c' Hd' Hacc Hdis]; subst.
    - done.
    - eapply reg_answered; rewrite ?Ha, ?Hd; try done.
      destruct Hdel as [->|(d' & Hd1 & ->)]; [done|]. right. destruct Hd'; congruence.
    - eapply reg_drained; rewrite ?Ha, ?Hd; try done.
      destruct Hdel as [->|(d' & Hd1 & _)]; [done|congruence]. }
  unfold phase_ok. rewrite ?Hd.
  assert (∀ d, delivery c = Sent d → delivery (f c) = Sent d) as Hsent.
  { intros d E. destruct Hdel as [->|(d' & E' & _)]; [done|congruence]. }
  destruct (phase x); try done; try (by intros [? ?]); try apply Hreg;
    repeat (case_match; try done); intuition eauto.
Qed.

Lemma inv_withdraw_all w reason b ids :
  inv w → drain (broker w) = (b, ids) →
  inv (mkWorld b
         (map_imap (λ id c, Some (if bool_decide (id ∈ ids)
                                  then mkCell (delivery c) (decision_accepted c) (Some reason) (notices c)
                                  else c)) (cells w))
         (waiters w) (signals w) (answers w)).
Proof.
  intros Hi [= <- <-]. apply (inv_shared w); try done; [by eauto|apply map_empty_subseteq|].
  intros id c Hc. cbn [cells broker pending]. rewrite map_lookup_imap, Hc. cbn.
  eexists. split; [done|]. split; [by case_bool_decide|]. intros x r.
  rewrite lookup_empty. case_bool_decide as Hid.
  - apply elem_of_dom in Hid as [p Hp]. rewrite Hp. unfold phase_ok.
    destruct (phase x); try done; try (by intros [? ?]);
      try (intros Hr; inversion Hr; subst; by apply reg_drained).
    repeat (case_match; try done); by intros [? ?].
  - apply not_elem_of_dom in Hid. by rewrite Hid.
Qed.

Lemma answered_mono log a x r d : answered log x r d → answered (a :: log) x r d.
Proof. intros (a' & ? & ?). exists a'. split; [by right|done]. Qed.

Lemma standing_mono log a s t d : standing log s t d → standing (a :: log) s t d.
Proof. intros (? & a' & ? & ?). split; [done|]. exists a'. split; [by right|done]. Qed.

Lemma registered_mono log a x r p c : registered log x r p c → registered (a :: log) x r p c.
Proof.
  destruct 1; [by apply reg_waiting|eapply reg_answered; eauto using answered_mono|by apply reg_drained].
Qed.

Lemma phase_ok_mono log a x r p c : phase_ok log x r p c → phase_ok (a :: log) x r p c.
Proof.
  unfold phase_ok. destruct (phase x); try done; eauto using registered_mono;
    repeat (case_match; try done); intuition eauto using registered_mono, answered_mono.
Qed.

Lemma resolve_inner_Ok b s now closed id d token b' p :
  resolve_inner b s now closed id d token = (b', Ok p) →
  pending b !! id = Some p ∧ now < expires_at (request p) ∧ binding_token p = token ∧
  closed = false ∧ is_cancelled s (cancellation p) = false ∧
  some_and (λ a, negb (can_execute s a)) (authority p) = false ∧
  (authority p ≠ None → scope d = Once) ∧
  b' = mkBroker (delete id (pending b))
         (if is_remembered (scope d) then
            remember (remembered b) (session_id (request p)) (tool_name (request p)) d
          else remembered b) (next_id b).
Proof.
  unfold resolve_inner. destruct (pending b !! id) as [p'|]; [|done].
  destruct (_ || _) eqn:E1; [done|]. boolify. destruct (_ && _) eqn:E2; [done|].
  destruct (bool_decide (binding_token p' ≠ token)) eqn:E3; [done|]. intros [= <- <-].
  apply bool_decide_eq_false, dec_stable in E3. split_and!; try done.
  intros Ha. destruct (authority p'); [|done]. cbn in E2. by destruct (scope d).
Qed.

(** Only a registered, waiting request has a pending entry. *)
Lemma phase_ok_pending log x r p c :
  phase_ok log x r (Some p) c →
  c = new_cell ∧ request p = r ∧ authority p = w_authority x ∧
  ∀ c', registered log x r None c' → phase_ok log x r None c'.
Proof.
  unfold phase_ok. destruct (phase x); try done; try (by intros [? ?]);
    try (inversion 1; subst; by split_and!).
  repeat (case_match; try done); by intros [? ?].
Qed.

Lemma inv_resolve w id d token now b p c :
  inv w →
  resolve_inner (broker w) (signals w) now (receiver_closed w id) id d token = (b, Ok p) →
  cells w !! id = Some c →
  inv (mkWorld b (<[id := mkCell (Taken d) true (queued c) (notices c)]> (cells w)) (waiters w)
         (signals w) (mkAnswer p d token now :: answers w)).
Proof.
  intros [H1 H2 H3 H4 H5 H6 H7 H8 H9] Hres Hc.
  apply resolve_inner_Ok in Hres as (Hp & Hnow & Htok & _ & _ & _ & Hau & ->).
  destruct (H5 _ _ Hp) as (k0 & x0 & r0 & Hx0 & Hid).
  destruct (H4 _ _ _ Hx0) as (_ & c0 & Hc0 & Hok0). subst id.
  assert (c0 = c) as -> by congruence.
  set (a := mkAnswer p d token now).
  rewrite Hp in Hok0. apply (phase_ok_mono _ a), phase_ok_pending in Hok0 as (-> & Hreq & Haut & Hstep).
  constructor; cbn [broker cells waiters answers next_id]; try done.
  - intros k x r Hx. destruct (H4 _ _ _ Hx) as (? & c & Hcc & Hok). split; [done|].
    destruct (decide (approval_id r = approval_id r0)) as [E|Hne].
    + assert (k = k0) as -> by (by eapply H3). destruct Hx as [Hx Hm], Hx0 as [Hx0 Hm0].
      cbn in Hx. assert (x = x0) as -> by congruence. assert (r = r0) as -> by congruence.
      eexists. rewrite lookup_insert_eq. split; [done|]. cbn. rewrite lookup_delete_eq.
      apply Hstep. eapply reg_answered; [by left| |done|done]. exists a. split; [left|done].
    + exists c. rewrite lookup_insert_ne by done. split; [done|]. cbn.
      rewrite lookup_delete_ne by done. by apply phase_ok_mono.
  - cbn. intros id p' [_ Hp']%lookup_delete_Some. by eapply H5.
  - intros k x Hx. specialize (H6 _ _ Hx). unfold unminted_ok in *.
    repeat (case_match; try done). destruct H6 as (? & ? & ?). eauto using standing_mono.
  - intros a' [->|Ha]%elem_of_cons.
    + split; [by split_and!|]. cbn. rewrite Hreq. split; [by exists k0, x0, r0|].
      eexists. by rewrite lookup_insert_eq.
    + destruct (H7 _ Ha) as (? & ? & c & Hcc & Hacc). split; [done|]. split; [done|].
      destruct (decide (approval_id (request (ans_pending a')) = approval_id r0)) as [E|Hne].
      * eexists. rewrite E, lookup_insert_eq. done.
      * exists c. by rewrite lookup_insert_ne.
  - cbn. constructor; [|done]. intros (a' & E & Ha)%list_elem_of_fmap.
    destruct (H7 _ Ha) as (_ & _ & c & Hcc & Hacc). rewrite <- E, Hreq in Hcc. simplify_eq.
  - cbn. intros session tools tool d'. destruct (is_remembered (scope d)) eqn:Esc.
    2: { intros ? ?. eauto using standing_mono. }
    unfold remember. rewrite lookup_insert_Some. intros [[<- <-]|[_ Hs]] Ht; [|eauto using standing_mono].
    apply lookup_insert_Some in Ht as [[<- <-]|[_ Ht]].
    + split; [by destruct (scope d)|]. exists a. split; [left|]. cbn. split_and!; try done.
      destruct (authority p) eqn:E; [|done]. by rewrite Hau in Esc by done.
    + apply standing_mono. destruct (remembered (broker w) !! _) as [tools|] eqn:E; [|done].
      by eapply H9.
Qed.

Lemma inv_request w t a b token :
  inv w →
  inv (mkWorld (broker w) (cells w) (waiters w ++ [mkWaiter t a b token Starting]) (signals w) (answers w)).
Proof.
  intros [H1 H2 H3 H4 H5 H6 H7 H8 H9]. set (w' := mkWorld _ _ _ _ _).
  assert (∀ k x r, owner w' k x r ↔ owner w k x r) as Ho.
  { intros k x r. unfold owner. cbn. split.
    - intros [[Hx|[_ Hx]]%lookup_app_Some Hm]; [done|]. destruct (k - _)%nat; [|done].
      cbn in Hx. by simplify_eq.
    - intros [Hx Hm]. split; [|done]. by apply lookup_app_l_Some. }
  constructor; try done.
  - intros k x r ?%Ho. by eapply H2.
  - intros k1 k2 x1 x2 r1 r2 ?%Ho ?%Ho. by eapply H3.
  - intros k x r ?%Ho. by eapply H4.
  - intros id p (k & x & r & ? & ?)%H5. exists k, x, r. by rewrite Ho.
  - intros k x. cbn. intros [Hx|[_ Hx]]%lookup_app_Some; [by eapply H6|].
    destruct (k - _)%nat; [|done]. cbn in Hx. by simplify_eq.
  - intros a' (? & (k & x & r & ? & ?) & ?)%H7. split; [done|]. split; [|done].
    exists k, x, r. by rewrite Ho.
Qed.

Lemma broker_inv_step timeout w w' : inv w → step timeout w w' → inv w'.
Proof.
  intros Hi Hs. destruct Hs as [w t a b token|w w' k x Hk Ha|w id d token now b p c Hr Hc
    |w id c d Hc Hd|w reason|w id c reason Hc Hq|w session tool|w session|w s _ _].
  - by apply inv_request.
  - by eapply inv_advance.
  - by eapply inv_resolve.
  - apply inv_alter; [done|]. intros c' Hc'. simplify_eq. cbn. split_and!; try done; [by intros ->|by eauto].
  - by apply inv_withdraw_all.
  - apply inv_alter; [done|]. intros c' Hc'. simplify_eq. unfold dismissals. rewrite Hq. cbn [decision_accepted queued notices delivery length].
    split_and!; try done; [lia|by intros ->|by left].
  - apply (inv_shared w); try done; unfold forget; destruct (remembered (broker w) !! session) as [tools|] eqn:E;
      cbn; try done; [|by eauto..].
    intros s' tools' tool' d. case_bool_decide.
    + intros [_ ?]%lookup_delete_Some ?. eauto.
    + intros [[<- <-]|[_ ?]]%lookup_insert_Some Ht; [|by eauto].
      apply lookup_delete_Some in Ht as [_ ?]. eauto.
  - apply (inv_shared w); try done; [|by eauto]. cbn. intros s' tools tool d [_ ?]%lookup_delete_Some ?. eauto.
  - apply (inv_shared w); try done; by eauto.
Qed.

Lemma broker_inv_reachable timeout w : reachable timeout w → inv w.
Proof.
  revert w. apply (rtc_ind_r (λ w, inv w) initial).
  - assert (∀ k x r, ¬ owner initial k x r) as Hn by (by intros k x r [? _]).
    constructor; try done; try set_solver; [by intros ??? ?%Hn..|constructor].
  - intros y z _ Hs Hy. by eapply broker_inv_step.
Qed.

(** ** Theorems *)

(** C1. No tool call is approved without an operator. Under every interleaving, a
    request that ends approved was either answered itself, by an accepted answer
    for that very request (same session, tool and arguments, before its deadline,
    with the preview token it was bound to, and for this call only when the caller
    was authenticated), or it came from an unauthenticated caller and an operator
    had approved the same tool for the same session with session scope. *)
Theorem approval_needs_operator timeout w k x r outcome :
  reachable timeout w → waiters w !! k = Some x → phase x = Finished r (Ok outcome) →
  is_approved outcome = true →
  (∃ req a, r = Some req ∧ of_ticket (ticket x) req ∧ a ∈ answers w ∧
     request (ans_pending a) = req ∧ authority (ans_pending a) = w_authority x ∧
     verdict (ans_decision a) = Approve ∧ answer_ok a)
  ∨ (r = None ∧ w_authority x = None ∧
     ∃ d, verdict d = Approve ∧
          standing (answers w) (t_session_id (ticket x)) (t_tool_name (ticket x)) d).
Proof.
  intros Hi%broker_inv_reachable Hk Hph Hap. destruct outcome as [d rem|reason]; [|done].
  assert (verdict d = Approve) as Hv by (by destruct d as [[] ?]). destruct r as [req|].
  - left. destruct (inv_phase _ Hi k x req) as (Ht & c & _ & Hok); [split; [done|by rewrite Hph]|].
    unfold phase_ok in Hok. rewrite Hph in Hok. destruct rem; [done|].
    destruct Hok as (_ & _ & (a & Ha & Hr & Hau & <-) & _). exists req, a.
    split_and!; try done; apply (inv_answers _ Hi a Ha).
  - right. pose proof (inv_unminted _ Hi k x Hk) as Hu. unfold unminted_ok in Hu.
    rewrite Hph in Hu. destruct Hu as (_ & ? & ?). by eauto.
Qed.

(** Authenticated decisions are never remembered: whatever the broker remembers
    was given with session scope to an unauthenticated request of that session and
    tool, each request is answered at most once, and every accepted answer came
    before the deadline with the request's own preview token. *)
Theorem memory_is_unauthenticated timeout w :
  reachable timeout w →
  (∀ session tool d, recall (broker w) session tool = Some d →
     standing (answers w) session tool d) ∧
  (∀ a, a ∈ answers w → answer_ok a) ∧
  NoDup ((λ a, approval_id (request (ans_pending a))) <$> answers w).
Proof.
  intros Hi%broker_inv_reachable. split_and!; [|apply Hi|apply Hi].
  intros session tool d. unfold recall. destruct (remembered (broker w) !! session) eqn:E; [|done].
  by apply (inv_remembered _ Hi).
Qed.

(** No orphans: a pending entry always belongs to exactly one waiter that is
    still in its waiting window and asks for exactly that request; so once a waiter
    has returned or has been dropped, whatever the point, its entry is gone and an
    answer to it is refused as unknown. *)
Theorem no_orphaned_request timeout w :
  reachable timeout w →
  (∀ id p, pending (broker w) !! id = Some p →
     ∃ k x, waiters w !! k = Some x ∧ minted (phase x) = Some (request p) ∧
       approval_id (request p) = id ∧ authority p = w_authority x ∧
       of_ticket (ticket x) (request p) ∧
       (∀ r, phase x ≠ Dropped r) ∧ (∀ r a, phase x ≠ Finished r a) ∧
       ∀ k' x' r', waiters w !! k' = Some x' → minted (phase x') = Some r' →
         approval_id r' = id → k' = k) ∧
  (∀ k x r answer s now closed d token, waiters w !! k = Some x →
     phase x = Dropped r ∨ phase x = Finished (Some r) answer →
     resolve_inner (broker w) s now closed (approval_id r) d token =
       (broker w, Err (Unknown (approval_id r)))).
Proof.
  intros Hi%broker_inv_reachable. split.
  - intros id p Hp. destruct (inv_owned _ Hi _ _ Hp) as (k & x & r & Hx & <-).
    destruct (inv_phase _ Hi _ _ _ Hx) as (Ht & c & _ & Hok). rewrite Hp in Hok.
    destruct (phase_ok_pending _ _ _ _ _ Hok) as (_ & -> & Hau & _).
    destruct Hx as [Hk Hm]. exists k, x. split_and!; try done.
    + intros r' E. unfold phase_ok in Hok. rewrite E in Hok. by destruct Hok.
    + intros r' a E. unfold phase_ok in Hok. rewrite E in Hok.
      by destruct a as [[? []|]|]; destruct Hok.
    + intros k' x' r' Hk' Hm' E. eapply (inv_unique _ Hi); [by split|split; [exact Hk|exact Hm]|done].
  - intros k x r answer s now closed d token Hk Hph. unfold resolve_inner.
    assert (minted (phase x) = Some r) as Hm by (by destruct Hph as [-> | ->]).
    destruct (inv_phase _ Hi k x r (conj Hk Hm)) as (_ & c & _ & Hok).
    assert (pending (broker w) !! approval_id r = None) as ->; [|done].
    unfold phase_ok in Hok. destruct Hph as [E|E]; rewrite E in Hok; [apply Hok|].
    by destruct answer as [[? []|]|]; destruct Hok.
Qed.

(** One dismissal per prompt: over any history the presentation port is told at
    most once that a request is over (settled, withdrawn or abandoned, a withdrawal
    still owed by a shutdown included); and when a request was presented and its
    waiter returned an outcome or was dropped, exactly once, so no prompt is left
    on a screen. *)
Theorem one_dismissal_per_prompt timeout w k x r :
  reachable timeout w → waiters w !! k = Some x → minted (phase x) = Some r →
  ∃ c, cells w !! approval_id r = Some c ∧ (dismissals c ≤ 1)%nat ∧
    ((∃ o, phase x = Finished (Some r) (Ok o)) ∨ phase x = Dropped r → dismissals c = 1%nat).
Proof.
  intros Hi%broker_inv_reachable Hk Hm. destruct (inv_phase _ Hi k x r (conj Hk Hm)) as (_ & c & Hc & Hok).
  exists c. split; [done|]. unfold phase_ok in Hok.
  assert (∀ p, registered (answers w) x r p c → (dismissals c ≤ 1)%nat) as Hreg.
  { intros p. inversion 1; subst; cbn; lia. }
  split.
  - destruct (phase x) as [| | | |?|?|?|?|?|?|?|? []|?|?|? [[? []|]|]|?]; try done;
      try (by eapply Hreg); destruct Hok; subst; cbn; try lia; intuition (eauto || lia).
  - intros [[o E]|E]; rewrite E in Hok; [|apply Hok]. destruct o as [? []|]; [done|apply Hok..].
Qed.

(** ** A concrete history *)

Definition sample_waiter (p : Phase) : Waiter :=
  mkWaiter (mkTicket (chars "s-1") 0 (chars "call-1") (chars "shell") (chars "{}")) None None 7 p.

Definition sample_request : ApprovalRequest :=
  mkReq (approval_text 1) (chars "s-1") 0 (chars "call-1") (chars "shell") (chars "{}") 100 1100.

Definition sample_pending : Pending := mkPending sample_request None None None 7.

Definition sample_broker (registered : bool) : BrokerState :=
  let b := mkBroker ∅ ∅ 1 in if registered then insert_pending b sample_pending else b.

Definition sample_world (b : BrokerState) (c : Cell) (p : Phase) (log : list Answer) : World :=
  mkWorld b (<[approval_text 1 := c]> ∅) [sample_waiter p] (mkSignals ∅ ∅) log.

Lemma sample_advance w p w' :
  waiters w = [sample_waiter p] → reachable 1000 w →
  advance 1000 0 (sample_waiter p) w w' → reachable 1000 w'.
Proof.
  intros Hw Hr Ha. eapply rtc_r; [done|]. apply (step_advance _ _ _ 0 (sample_waiter p)); [|done].
  by rewrite Hw.
Qed.

(** A request is made, registered, presented and waits. *)
Lemma sample_waiting : reachable 1000 (sample_world (sample_broker true) new_cell (Selecting sample_request) []).
Proof.
  apply (sample_advance (sample_world (sample_broker true) new_cell (Presenting sample_request) [])
           (Presenting sample_request)); [done| |by refine (adv_presented 1000 0 _ _ sample_request _)].
  apply (sample_advance (sample_world (sample_broker true) new_cell (Inserted sample_request) [])
           (Inserted sample_request)); [done| |by refine (adv_present 1000 0 _ _ sample_request _)].
  apply (sample_advance (sample_world (sample_broker false) new_cell (Inserting sample_request None) [])
           (Inserting sample_request None)); [done| |by refine (adv_insert 1000 0 _ _ sample_request None _)].
  apply (sample_advance (sample_world (sample_broker false) new_cell (Binding sample_request) [])
           (Binding sample_request)); [done| |by refine (adv_unbound 1000 0 _ _ sample_request _ _)].
  set (start p := mkWorld (mkBroker ∅ ∅ 0) ∅ [sample_waiter p] (mkSignals ∅ ∅) []).
  apply (sample_advance (start (Minting 100 1100)) (Minting 100 1100)); [done| |].
  2: { by refine (adv_mint 1000 0 _ _ (sample_broker false) (approval_text 1) 100 1100 _ _). }
  apply (sample_advance (start Timing) Timing); [done| |by refine (adv_deadline 1000 0 _ _ 100 1100 _ _)].
  apply (sample_advance (start Recalling) Recalling); [done| |by refine (adv_not_recalled 1000 0 _ _ _ (or_intror _))].
  apply (sample_advance (start Starting) Starting); [done| |by refine (adv_checked 1000 0 _ _ _ _)].
  eapply rtc_once. apply (step_request 1000 initial).
Qed.

Lemma pair_snd {A B} (q : A * B) b : q.2 = b → q = (q.1, b).
Proof. intros <-. by destruct q. Qed.

Definition sample_resolved : BrokerState :=
  (resolve_inner (sample_broker true) (mkSignals ∅ ∅) 200
     (receiver_closed (sample_world (sample_broker true) new_cell (Selecting sample_request) [])
        (approval_text 1)) (approval_text 1) approve_for_session None).1.

Definition sample_answer : Answer := mkAnswer sample_pending approve_for_session None 200.

(** The operator approves for the session and the waiter returns. *)
Lemma sample_approved :
  reachable 1000 (sample_world sample_resolved (mkCell (Sent approve_for_session) true None [Settled])
    (Finished (Some sample_request) (Ok (Decided approve_for_session false))) [sample_answer]).
Proof.
  set (c d n := mkCell d true None n).
  apply (sample_advance (sample_world sample_resolved (c (Sent approve_for_session) [Settled])
           (Settling sample_request approve_for_session) [sample_answer])
           (Settling sample_request approve_for_session)); [done| |].
  2: { by refine (adv_settled 1000 0 _ _ sample_request approve_for_session _). }
  apply (sample_advance (sample_world sample_resolved (c (Sent approve_for_session) [])
           (Selecting sample_request) [sample_answer]) (Selecting sample_request)); [done| |].
  2: { by refine (adv_decided 1000 0 _ _ sample_request (c (Sent approve_for_session) [])
           approve_for_session _ _ _). }
  eapply rtc_r with (y := sample_world sample_resolved (c (Taken approve_for_session) [])
           (Selecting sample_request) [sample_answer]).
  2: { by refine (step_send 1000 _ (approval_text 1) (c (Taken approve_for_session) [])
           approve_for_session _ _). }
  eapply rtc_r; [apply sample_waiting|].
  apply (step_resolve _ (sample_world (sample_broker true) new_cell (Selecting sample_request) [])
           (approval_text 1) approve_for_session None 200 sample_resolved sample_pending new_cell);
    [|by vm_compute].
  apply pair_snd. vm_compute. reflexivity.
Qed.

Lemma approval_needs_operator_witness :
  is_approved (Decided approve_for_session false) = true ∧
  ∃ a, a ∈ [sample_answer] ∧ request (ans_pending a) = sample_request ∧
       verdict (ans_decision a) = Approve ∧ answer_ok a.
Proof.
  split; [done|].
  destruct (approval_needs_operator 1000 _ 0 _ (Some sample_request) (Decided approve_for_session false)
    sample_approved eq_refl eq_refl eq_refl) as [(req & a & [= <-] & _ & Ha & Hr & _ & Hv & Hok)|[? _]];
    [|discriminate].
  exists a. exact (conj Ha (conj Hr (conj Hv Hok))).
Defined.

Lemma memory_is_unauthenticated_witness :
  recall sample_resolved (chars "s-1") (chars "shell") = Some approve_for_session ∧
  standing [sample_answer] (chars "s-1") (chars "shell") approve_for_session.
Proof.
  assert (recall sample_resolved (chars "s-1") (chars "shell") = Some approve_for_session) as H
    by (vm_compute; reflexivity).
  split; [exact H|].
  exact (proj1 (memory_is_unauthenticated 1000 _ sample_approved) _ _ _ H).
Defined.

Lemma no_orphaned_request_witness :
  resolve_inner sample_resolved (mkSignals ∅ ∅) 300 false (approval_text 1) deny_once None =
    (sample_resolved, Err (Unknown (approval_text 1))).
Proof.
  exact (proj2 (no_orphaned_request 1000 _ sample_approved) 0%nat _ sample_request
    (Ok (Decided approve_for_session false)) (mkSignals ∅ ∅) 300 false deny_once None eq_refl
    (or_intror eq_refl)).
Defined.

Lemma one_dismissal_per_prompt_witness :
  ∃ c, (<[approval_text 1 := mkCell (Sent approve_for_session) true None [Settled]]> ∅ : gmap str Cell)
         !! approval_text 1 = Some c ∧ dismissals c = 1%nat.
Proof.
  destruct (one_dismissal_per_prompt 1000 _ 0 _ sample_request sample_approved eq_refl eq_refl)
    as (c & Hc & _ & Hd).
  exists c. exact (conj Hc (Hd (or_introl (ex_intro _ _ eq_refl)))).
Defined.

(** When a shutdown withdraws every request as cancelled, a waiter whose own token
    has not fired is told that the request timed out. *)
Theorem shutdown_reports_timeout :
  ∃ w, reachable 1000 w ∧
    waiters w = [sample_waiter (Finished (Some sample_request) (Ok (Withdrawn TimedOut)))] ∧
    (cells w !! approval_text 1) ≫= queued = Some Cancelled.
Proof.
  set (cs := cells (sample_world (sample_broker true) new_cell (Selecting sample_request) [])).
  set (ids := dom (pending (sample_broker true))).
  set (drained := map_imap (λ id c, Some (if bool_decide (id ∈ ids)
    then mkCell (delivery c) (decision_accepted c) (Some Cancelled) (notices c) else c)) cs).
  set (b := (discard (mkBroker ∅ ∅ 1) (approval_text 1)).1).
  assert (drained !! approval_text 1 = Some (mkCell Unsent false (Some Cancelled) [])) as Hc
    by (vm_compute; reflexivity).
  assert (reachable 1000 (mkWorld (mkBroker ∅ ∅ 1) drained [sample_waiter (Selecting sample_request)]
            (mkSignals ∅ ∅) [])) as Hr.
  { eapply rtc_r; [apply sample_waiting|]. exact (step_withdraw_all 1000 _ Cancelled). }
  clearbody drained. set (at_ b p := mkWorld b drained [sample_waiter p] (mkSignals ∅ ∅) []).
  exists (at_ b (Finished (Some sample_request) (Ok (Withdrawn TimedOut)))).
  split; [|split; [done|by cbn -[approval_text]; rewrite Hc]].
  apply (sample_advance (at_ b (Judging sample_request false)) (Judging sample_request false)); [done| |].
  2: { refine (adv_silent 1000 0 _ _ sample_request false (mkCell Unsent false (Some Cancelled) []) _ _ _);
       [done|exact Hc|done]. }
  apply (sample_advance (at_ (mkBroker ∅ ∅ 1) (Withdrawing sample_request)) (Withdrawing sample_request));
    [done| |by refine (adv_discard 1000 0 _ _ sample_request _)].
  apply (sample_advance (at_ (mkBroker ∅ ∅ 1) (Selecting sample_request)) (Selecting sample_request));
    [done|exact Hr|].
  refine (adv_sender_gone 1000 0 _ _ sample_request (mkCell Unsent false (Some Cancelled) []) _ _ _ _);
    [done|exact Hc|done|done].
Qed.
End Approval.
