(* ===== verification/Glob.v ===== *)
(** * Glob patterns

    [crates/claw-tools/src/fs/glob.rs]: the validated pattern ([parse]), the
    iterative matcher ([match_segments], [match_tokens]) and the collection loop
    of the glob tool. The meaning of a pattern is given by two inductive
    relations, [Matches] on one path component and [MatchesPath] on a path; the
    matcher is proved to decide them within a quadratic number of iterations. *)

From S2P Require Import Prelude Utf8 Text.

Module Glob.

Definition MAX_PATTERN_BYTES : Z := 256.
Definition MAX_PATTERN_SEGMENTS : Z := 24.
Definition MAX_GLOB_RESULTS : Z := 1000.

Inductive Token :=
| Literal (c : Z)
| AnyChar
| AnyRun
| Class (negated : bool) (ranges : list (Z * Z)).

#[export] Instance Token_eq_dec : EqDecision Token.
Proof. solve_decision. Defined.

Inductive Segment :=
| AnyDepth
| Single (tokens : list Token).

Record GlobPattern := mkGlobPattern { segments : list Segment }.

Inductive GlobError :=
| Empty
| TooLong
| TooManySegments
| ControlCharacter
| NotRelative
| EmptySegment
| UnterminatedClass
| InvalidRange.

(** ** Parsing *)

Definition STAR : Z := 0x2A.
Definition QUESTION : Z := 0x3F.
Definition OPEN : Z := 0x5B.
Definition CLOSE : Z := 0x5D.
Definition BANG : Z := 0x21.
Definition CARET : Z := 0x5E.
Definition DASH : Z := 0x2D.
Definition SLASH : Z := 0x2F.
Definition BACKSLASH : Z := 0x5C.
Definition COLON : Z := 0x3A.

(** The two loops of [parse_tokens] share one character iterator. [class] is
    [None] in the outer loop; inside a class it holds [negated] and the ranges so
    far, and a [None] from the iterator is the unclosed class. *)
Fixpoint parse_loop (cs : str) (tokens : list Token) (class : option (bool * list (Z * Z)))
  : result GlobError (list Token) :=
  match class, cs with
  | None, [] => Ok tokens
  | None, c :: cs =>
      if c =? STAR then
        parse_loop cs (if decide (last tokens = Some AnyRun) then tokens else tokens ++ [AnyRun]) None
      else if c =? QUESTION then parse_loop cs (tokens ++ [AnyChar]) None
      else if c =? OPEN then
        match cs with
        | d :: cs' =>
            if (d =? BANG) || (d =? CARET) then parse_loop cs' tokens (Some (true, []))
            else parse_loop cs tokens (Some (false, []))
        | [] => parse_loop cs tokens (Some (false, []))
        end
      else if c =? CLOSE then Err UnterminatedClass
      else parse_loop cs (tokens ++ [Literal c]) None
  | Some _, [] => Err UnterminatedClass
  | Some (negated, ranges), item :: cs =>
      if (item =? CLOSE) && negb (bool_decide (ranges = [])) then
        parse_loop cs (tokens ++ [Class negated ranges]) None
      else
        match cs with
        | d :: cs' =>
            if d =? DASH then
              match cs' with
              | [] => Err UnterminatedClass
              | e :: cs'' =>
                  if e <? item then Err InvalidRange
                  else parse_loop cs'' tokens (Some (negated, ranges ++ [(item, e)]))
              end
            else parse_loop cs tokens (Some (negated, ranges ++ [(item, item)]))
        | [] => parse_loop cs tokens (Some (negated, ranges ++ [(item, item)]))
        end
  end.

Definition parse_tokens (segment : str) : result GlobError (list Token) := parse_loop segment [] None.

Fixpoint parse_segments (raw : list str) (acc : list Segment) : result GlobError (list Segment) :=
  match raw with
  | [] => Ok acc
  | segment :: raw =>
      if decide (segment = []) then Err EmptySegment
      else if decide (segment = chars "." ∨ segment = chars "..") then Err NotRelative
      else if decide (segment = chars "**") then parse_segments raw (acc ++ [AnyDepth])
      else tokens ← parse_tokens segment; parse_segments raw (acc ++ [Single tokens])
  end.

Definition is_separator (c : Z) : bool := (c =? SLASH) || (c =? BACKSLASH).

Definition parse (pattern : str) : result GlobError GlobPattern :=
  if decide (pattern = []) then Err Empty
  else if MAX_PATTERN_BYTES <? len (as_bytes pattern) then Err TooLong
  else if any is_control pattern then Err ControlCharacter
  else if starts_with [SLASH] pattern || starts_with [BACKSLASH] pattern
          || any (λ c, c =? COLON) pattern then Err NotRelative
  else
    let raw := split is_separator pattern in
    if MAX_PATTERN_SEGMENTS <? len raw then Err TooManySegments
    else segments ← parse_segments raw []; Ok (mkGlobPattern segments).

(** ** Matching *)

Definition token_matches (token : Token) (character : Z) : bool :=
  match token with
  | Literal expected => expected =? character
  | AnyChar | AnyRun => true
  | Class negated ranges =>
      let inside := any (λ r, (r.1 <=? character) && (character <=? r.2)) ranges in
      xorb inside negated
  end.

(** The locals of [match_tokens]. *)
Record Scan := mkScan {
  token_index : nat;
  char_index : nat;
  star_token : option nat;
  star_char : nat;
}.

(** The mismatch arm: resume after the last [*], one character further on. *)
Definition fall_back (s : Scan) : option Scan :=
  match star_token s with
  | Some index => Some (mkScan (S index) (S (star_char s)) (Some index) (S (star_char s)))
  | None => None
  end.

(** One iteration of the [while] loop; [None] is [return false]. *)
Definition scan_step (tokens : list Token) (s : Scan) (c : Z) : option Scan :=
  match tokens !! token_index s with
  | Some AnyRun =>
      Some (mkScan (S (token_index s)) (char_index s) (Some (token_index s)) (char_index s))
  | Some token =>
      if token_matches token c then
        Some (mkScan (S (token_index s)) (S (char_index s)) (star_token s) (star_char s))
      else fall_back s
  | None => fall_back s
  end.

(** The loop and the final test; the result is [None] when the fuel runs out. *)
Fixpoint scan (fuel : nat) (tokens : list Token) (characters : str) (s : Scan) : option bool :=
  match characters !! char_index s with
  | None => Some (all (λ t, bool_decide (t = AnyRun)) (drop (token_index s) tokens))
  | Some c =>
      match fuel with
      | O => None
      | S fuel =>
          match scan_step tokens s c with
          | Some s' => scan fuel tokens characters s'
          | None => Some false
          end
      end
  end.

(** Enough iterations for any input: see [scan_decides]. *)
Definition scan_bound (tokens : list Token) (characters : str) : nat :=
  (S (length characters) * S (length tokens))%nat.

Definition match_tokens (tokens : list Token) (characters : str) : bool :=
  default false (scan (scan_bound tokens characters) tokens characters (mkScan 0 0 None 0)).

#[global] Arguments match_tokens : simpl never.

(** One segment's row of the reachability table from the previous one. *)
Fixpoint carry_row (carry : bool) (reachable : list bool) : list bool :=
  match reachable with
  | [] => []
  | r :: reachable => (carry || r) :: carry_row (carry || r) reachable
  end.

(** [next[index + 1]] for each [index] in [0..parts.len()]. *)
Fixpoint single_row (tokens : list Token) (reachable : list bool) (parts : list str) : list bool :=
  match reachable, parts with
  | r :: reachable, part :: parts =>
      (r && match_tokens tokens part) :: single_row tokens reachable parts
  | _, _ => []
  end.

Definition next_row (segment : Segment) (reachable : list bool) (parts : list str) : list bool :=
  match segment with
  | AnyDepth => carry_row false reachable
  | Single tokens => false :: single_row tokens reachable parts
  end.

Fixpoint segments_loop (segs : list Segment) (parts : list str) (reachable : list bool) : bool :=
  match segs with
  | [] => default false (reachable !! length parts)
  | segment :: segs =>
      let next := next_row segment reachable parts in
      if any id next then segments_loop segs parts next else false
  end.

Definition match_segments (segs : list Segment) (parts : list str) : bool :=
  segments_loop segs parts (true :: replicate (length parts) false).

Definition matches (p : GlobPattern) (path : str) : bool :=
  match_segments (segments p)
    (filter (λ part, part ≠ []) (split (λ c, c =? SLASH) path)).

Definition matches_parts (p : GlobPattern) (parts : list str) : bool :=
  match_segments (segments p) parts.

(** The loop of [FsGlobTool::invoke] over the walked files, each the list of its
    components and its joined text: the listed paths, the total and the
    truncation mark. *)
Fixpoint collect (p : GlobPattern) (prefix_len : nat) (limit : Z) (files : list (list str * str))
    (matched : list str) (total : Z) : list str * Z :=
  match files with
  | [] => (matched, total)
  | (components, text) :: files =>
      if matches_parts p (drop prefix_len components) then
        collect p prefix_len limit files
          (if len matched <? limit then matched ++ [text] else matched) (total + 1)
      else collect p prefix_len limit files matched total
  end.

Definition glob_files (p : GlobPattern) (prefix_len : nat) (max_results : option Z)
    (files : list (list str * str)) : list str * Z * bool :=
  let limit := Z.min (default MAX_GLOB_RESULTS max_results) MAX_GLOB_RESULTS in
  let '(matched, total) := collect p prefix_len limit files [] 0 in
  (matched, total, len matched <? total).

(** ** What a pattern means *)

(** A component matches a token list: [*] stands for any run of characters, any
    other token for one character. *)
Inductive Matches : list Token → str → Prop :=
| Matches_nil : Matches [] []
| Matches_run ts s1 s2 : Matches ts s2 → Matches (AnyRun :: ts) (s1 ++ s2)
| Matches_one t ts c s :
    t ≠ AnyRun → token_matches t c = true → Matches ts s → Matches (t :: ts) (c :: s).

(** A path matches a segment list: [**] stands for any run of components. *)
Inductive MatchesPath : list Segment → list str → Prop :=
| MatchesPath_nil : MatchesPath [] []
| MatchesPath_depth segs ps1 ps2 :
    MatchesPath segs ps2 → MatchesPath (AnyDepth :: segs) (ps1 ++ ps2)
| MatchesPath_single ts segs p ps :
    Matches ts p → MatchesPath segs ps → MatchesPath (Single ts :: segs) (p :: ps).

#[local] Hint Constructors Matches MatchesPath : claw.

(** ** The two-pointer scan *)

Lemma Matches_nil_inv s : Matches [] s ↔ s = [].
Proof. split; [by inversion 1|intros ->; constructor]. Qed.

Lemma Matches_run_inv ts s :
  Matches (AnyRun :: ts) s ↔ ∃ k, (k ≤ length s)%nat ∧ Matches ts (drop k s).
Proof.
  split.
  - inversion 1; subst; [|done]. exists (length s1). rewrite length_app, drop_app_length.
    split; [lia|done].
  - intros (k & _ & H). rewrite <- (take_drop k s). by constructor.
Qed.

Lemma Matches_one_inv t ts s :
  t ≠ AnyRun →
  Matches (t :: ts) s ↔ ∃ c s', s = c :: s' ∧ token_matches t c = true ∧ Matches ts s'.
Proof.
  intros Ht. split; [|intros (c & s' & -> & ? & ?); by constructor].
  inversion 1; subst; [done|]. by eexists _, _.
Qed.

Lemma Matches_empty ts :
  Matches ts [] ↔ all (λ t, bool_decide (t = AnyRun)) ts = true.
Proof.
  rewrite all_true. induction ts as [|t ts IH].
  { split; [constructor|constructor]. }
  rewrite Forall_cons, bool_decide_eq_true, <- IH. destruct (decide (t = AnyRun)) as [->|Ht].
  - rewrite Matches_run_inv. setoid_rewrite drop_nil. naive_solver.
  - rewrite Matches_one_inv by done. naive_solver.
Qed.

(** A stretch of the tokens without [*], consumed character by character. *)
Definition Fixed (ts : list Token) (cs : str) : Prop :=
  Forall2 (λ t c, t ≠ AnyRun ∧ token_matches t c = true) ts cs.

Lemma Fixed_Matches f cs ts s : Fixed f cs → Matches (f ++ ts) (cs ++ s) ↔ Matches ts s.
Proof.
  induction 1 as [|t c f cs [Ht Hc] _ IH]; [done|]. cbn.
  rewrite Matches_one_inv by done. rewrite <- IH. naive_solver.
Qed.

(** A stretch of tokens without [*] takes exactly as many characters. *)
Lemma plain_Matches f ts s :
  Forall (λ t, t ≠ AnyRun) f → Matches (f ++ ts) s →
  (length f ≤ length s)%nat ∧ Matches ts (drop (length f) s).
Proof.
  intros Hf. revert s. induction Hf as [|t f Ht _ IH]; intros s; cbn; [split; [lia|done]|].
  rewrite Matches_one_inv by done. intros (c & s' & -> & _ & H). cbn.
  destruct (IH _ H). split; [lia|done].
Qed.

Lemma Fixed_plain f cs : Fixed f cs → Forall (λ t, t ≠ AnyRun) f ∧ length cs = length f.
Proof.
  intros H. split; [|symmetry; by eapply Forall2_length].
  induction H as [|t c f cs [? _] _ IH]; constructor; done.
Qed.

Lemma Fixed_snoc f cs t c :
  Fixed f cs → t ≠ AnyRun → token_matches t c = true → Fixed (f ++ [t]) (cs ++ [c]).
Proof. intros. apply Forall2_app; [done|]. by repeat constructor. Qed.

(** The scan's invariant: since the last [*] (or the start) the tokens and the
    characters have been consumed in step, and the pattern matches iff its rest
    after that [*] matches from some position not yet ruled out. *)
Definition ScanInv (tokens : list Token) (s : str) (st : Scan) : Prop :=
  ∃ base f cs,
    base = f ++ drop (token_index st) tokens ∧
    drop (star_char st) s = cs ++ drop (char_index st) s ∧
    Fixed f cs ∧
    char_index st = (star_char st + length cs)%nat ∧ (char_index st ≤ length s)%nat ∧
    match star_token st with
    | None => base = tokens ∧ star_char st = 0%nat ∧ token_index st = length f
    | Some i =>
        base = drop (S i) tokens ∧ token_index st = (S i + length f)%nat ∧ (i < length tokens)%nat ∧
        (Matches tokens s ↔ ∃ k, (star_char st ≤ k ≤ length s)%nat ∧ Matches base (drop k s))
    end.

Definition scan_measure (tokens : list Token) (s : str) (st : Scan) : nat :=
  ((length s - star_char st) * S (length tokens) + (length tokens - token_index st))%nat.

Lemma ScanInv_init tokens s : ScanInv tokens s (mkScan 0 0 None 0).
Proof. exists tokens, [], []. cbn. split_and!; try done; [constructor|lia]. Qed.

(** With the base and the position known, the rest matches iff the base does. *)
Lemma ScanInv_now tokens s st base f cs :
  base = f ++ drop (token_index st) tokens →
  drop (star_char st) s = cs ++ drop (char_index st) s → Fixed f cs →
  Matches base (drop (star_char st) s) ↔
  Matches (drop (token_index st) tokens) (drop (char_index st) s).
Proof. intros -> -> Hf. by apply Fixed_Matches. Qed.

Lemma ScanInv_one tokens s st t c :
  ScanInv tokens s st → tokens !! token_index st = Some t → t ≠ AnyRun →
  s !! char_index st = Some c → token_matches t c = true →
  ScanInv tokens s (mkScan (S (token_index st)) (S (char_index st)) (star_token st) (star_char st)).
Proof.
  intros (base & f & cs & Hb & Hs & Hf & Hc & Hle & Hm) Ht Hne Hch Htm.
  exists base, (f ++ [t]), (cs ++ [c]). cbn.
  rewrite (drop_S _ _ _ Ht) in Hb. rewrite (drop_S _ _ _ Hch) in Hs.
  pose proof (lookup_lt_Some _ _ _ Hch). rewrite <- !app_assoc, !length_app. cbn.
  split_and!; [done|done|by apply Fixed_snoc|lia|lia|].
  destruct (star_token st); [destruct Hm as (? & ? & ? & ?); split_and!; (done || lia)
    |destruct Hm as (? & ? & ?); split_and!; (done || lia)].
Qed.

(** A new [*]: everything before it is settled. *)
Lemma ScanInv_star tokens s st :
  ScanInv tokens s st → tokens !! token_index st = Some AnyRun →
  ScanInv tokens s
    (mkScan (S (token_index st)) (char_index st) (Some (token_index st)) (char_index st)).
Proof.
  intros (base & f & cs & Hb & Hs & Hf & Hc & Hle & Hm) Ht.
  exists (drop (S (token_index st)) tokens), [], []. cbn.
  pose proof (lookup_lt_Some _ _ _ Ht).
  split_and!; try (done || lia || (unfold Fixed; by apply Forall2_nil_2)).
  pose proof (ScanInv_now _ _ _ _ _ _ Hb Hs Hf) as Hnow.
  rewrite (drop_S _ _ _ Ht), Matches_run_inv in Hnow.
  assert (Matches base (drop (star_char st) s) ↔
    ∃ k, (char_index st ≤ k ≤ length s)%nat ∧ Matches (drop (S (token_index st)) tokens) (drop k s))
    as Hnow'.
  { rewrite Hnow. rewrite length_drop. split.
    - intros (k & Hk & H'). rewrite drop_drop in H'. eexists. split; [|exact H']. lia.
    - intros (k & Hk & H'). exists (k - char_index st)%nat. rewrite drop_drop.
      split; [lia|]. by replace (char_index st + (k - char_index st))%nat with k by lia. }
  destruct (star_token st) as [i|].
  2: { destruct Hm as (-> & H0 & _). by rewrite H0, drop_0 in Hnow'. }
  destruct Hm as (Hb' & Hti & Hi & ->). rewrite <- Hnow'. split.
  2: { intros H'. exists (star_char st). split; [lia|done]. }
  intros (k & Hk & H'). apply Hnow'. destruct (Fixed_plain _ _ Hf) as [Hpl Hlen].
  rewrite Hb, (drop_S _ _ _ Ht) in H'.
  apply plain_Matches in H' as [Hfl H']; [|done].
  rewrite drop_drop, Matches_run_inv in H'. destruct H' as (k' & Hk' & H').
  rewrite length_drop in Hfl, Hk'. rewrite drop_drop in H'. eexists. split; [|exact H']. lia.
Qed.

(** A mismatch: the current position is ruled out. *)
Lemma ScanInv_mismatch tokens s st :
  ScanInv tokens s st → ¬ Matches (drop (token_index st) tokens) (drop (char_index st) s) →
  (char_index st < length s)%nat →
  match star_token st with
  | Some i => ScanInv tokens s (mkScan (S i) (S (star_char st)) (Some i) (S (star_char st)))
  | None => ¬ Matches tokens s
  end.
Proof.
  intros (base & f & cs & Hb & Hs & Hf & Hc & Hle & Hm) Hno Hlt.
  rewrite <- (ScanInv_now _ _ _ _ _ _ Hb Hs Hf) in Hno.
  destruct (star_token st) as [i|]; [|by destruct Hm as (-> & H0 & _); rewrite H0, drop_0 in Hno].
  destruct Hm as (-> & Hti & Hi & Hiff). exists (drop (S i) tokens), [], []. cbn.
  split_and!; try (done || lia || (unfold Fixed; by apply Forall2_nil_2)). rewrite Hiff. split.
  - intros (k & Hk & H). exists k. split; [|done].
    destruct (decide (k = star_char st)) as [->|]; [done|lia].
  - intros (k & Hk & H). exists k. split; [lia|done].
Qed.

(** At the end of the text only [*] may be left. *)
Lemma ScanInv_end tokens s st :
  ScanInv tokens s st → char_index st = length s →
  Matches (drop (token_index st) tokens) [] ↔ Matches tokens s.
Proof.
  intros (base & f & cs & Hb & Hs & Hf & Hc & Hle & Hm) Hend.
  pose proof (ScanInv_now _ _ _ _ _ _ Hb Hs Hf) as Hnow.
  rewrite Hend, drop_all in Hnow. rewrite <- Hnow.
  destruct (star_token st) as [i|]; [|by destruct Hm as (-> & -> & _); rewrite drop_0].
  destruct Hm as (Hb' & Hti & Hi & ->). split; [intros H; exists (star_char st); split; [lia|done]|].
  intros (k & Hk & H). destruct (Fixed_plain _ _ Hf) as [Hpl Hlen].
  pose proof H as H'. rewrite Hb in H'. apply plain_Matches in H' as [Hfl _]; [|done].
  rewrite length_drop in Hfl. by replace (star_char st) with k by lia.
Qed.

(** Every iteration keeps the invariant and decreases the measure. *)
Lemma scan_step_spec tokens s st c :
  ScanInv tokens s st → s !! char_index st = Some c →
  match scan_step tokens st c with
  | Some st' => ScanInv tokens s st' ∧ (scan_measure tokens s st' < scan_measure tokens s st)%nat
  | None => ¬ Matches tokens s
  end.
Proof.
  intros Hinv Hc. pose proof (lookup_lt_Some _ _ _ Hc) as Hlt.
  assert (star_char st ≤ char_index st)%nat as Hsc
    by (destruct Hinv as (? & ? & ? & ? & ? & ? & ? & ? & ?); lia).
  assert (¬ Matches (drop (token_index st) tokens) (drop (char_index st) s) →
    match fall_back st with
    | Some st' => ScanInv tokens s st' ∧ (scan_measure tokens s st' < scan_measure tokens s st)%nat
    | None => ¬ Matches tokens s
    end) as Hfall.
  { intros Hno. pose proof (ScanInv_mismatch _ _ _ Hinv Hno Hlt) as Hinv'. unfold fall_back.
    destruct (star_token st) as [i|]; [|done]. split; [done|]. unfold scan_measure. cbn. nia. }
  unfold scan_step. destruct (tokens !! token_index st) as [t|] eqn:Ht.
  2: { apply Hfall. rewrite (drop_S _ _ _ Hc), drop_ge, Matches_nil_inv by (by apply lookup_ge_None).
       done. }
  pose proof (lookup_lt_Some _ _ _ Ht) as Htl. destruct (decide (t = AnyRun)) as [->|Hne].
  { split; [by apply ScanInv_star|]. unfold scan_measure. cbn. nia. }
  assert (∀ A (x y : A), match t with AnyRun => x | _ => y end = y) as Hmatch by by destruct t.
  rewrite Hmatch. destruct (token_matches t c) eqn:Htm.
  - split; [by eapply ScanInv_one|]. unfold scan_measure. cbn. nia.
  - apply Hfall. rewrite (drop_S _ _ _ Hc), (drop_S _ _ _ Ht), Matches_one_inv by done.
    naive_solver congruence.
Qed.

(** The scan decides [Matches] and never exceeds its bound. *)
Lemma scan_decides fuel tokens s st :
  ScanInv tokens s st → (scan_measure tokens s st < fuel)%nat →
  ∃ b, scan fuel tokens s st = Some b ∧ (b = true ↔ Matches tokens s).
Proof.
  revert st. induction fuel as [|fuel IH]; intros st Hinv Hfuel; [lia|]. cbn [scan].
  destruct (s !! char_index st) as [c|] eqn:Hc.
  - pose proof (scan_step_spec _ _ _ _ Hinv Hc) as Hstep.
    destruct (scan_step tokens st c); [|by exists false].
    destruct Hstep. apply IH; [done|lia].
  - eexists. split; [done|]. rewrite <- Matches_empty. apply ScanInv_end; [done|].
    apply lookup_ge_None in Hc. destruct Hinv as (? & ? & ? & ? & ? & ? & ? & ? & ?). lia.
Qed.

Lemma match_tokens_spec tokens s : match_tokens tokens s = true ↔ Matches tokens s.
Proof.
  unfold match_tokens.
  destruct (scan_decides (scan_bound tokens s) tokens s (mkScan 0 0 None 0)) as (b & -> & Hb);
    [apply ScanInv_init|unfold scan_measure, scan_bound; cbn; nia|done].
Qed.

(** ** The reachability rows *)

Lemma MatchesPath_app a b ps :
  MatchesPath (a ++ b) ps ↔ ∃ i, (i ≤ length ps)%nat ∧ MatchesPath a (take i ps) ∧ MatchesPath b (drop i ps).
Proof.
  split.
  - revert ps. induction a as [|seg a IH]; intros ps; cbn.
    { intros H. exists 0%nat. rewrite take_0, drop_0. split_and!; [lia|constructor|done]. }
    inversion 1 as [|? ps1 ps2 H'|ts ? p ps' Hp H']; subst; destruct (IH _ H') as (i & Hi & Ha & Hb).
    + exists (length ps1 + i)%nat. rewrite length_app, take_app_add, drop_app_add.
      split_and!; [lia|by constructor|done].
    + exists (S i). cbn. split_and!; [lia|by constructor|done].
  - intros (i & _ & Ha & Hb). rewrite <- (take_drop i ps). revert Hb.
    generalize (drop i ps). induction Ha as [|? ps1 ps2 _ IH|ts ? p ps' Hp _ IH]; intros q Hq; cbn; [done| |].
    + rewrite <- app_assoc. constructor. by apply IH.
    + constructor; [done|]. by apply IH.
Qed.

Lemma MatchesPath_depth_all ps : MatchesPath [AnyDepth] ps.
Proof. rewrite <- (app_nil_r ps). constructor. constructor. Qed.

Lemma MatchesPath_single_inv ts ps : MatchesPath [Single ts] ps ↔ ∃ p, ps = [p] ∧ Matches ts p.
Proof.
  split; [|intros (p & -> & ?); by repeat constructor].
  inversion 1 as [| |? ? p ps' Hp H']; subst. inversion H'; subst. by exists p.
Qed.

(** A row of the table after the segments [pre]: entry [i] says whether they
    match the first [i] components. *)
Definition Row (pre : list Segment) (parts : list str) (row : list bool) : Prop :=
  length row = S (length parts) ∧
  ∀ i, (i ≤ length parts)%nat → row !! i = Some true ↔ MatchesPath pre (take i parts).

Lemma Row_init parts : Row [] parts (true :: replicate (length parts) false).
Proof.
  split; [cbn; by rewrite length_replicate|]. intros [|i] Hi; cbn.
  { rewrite take_0. split; [constructor|done]. }
  rewrite lookup_replicate. split; [by intros []|].
  destruct parts; cbn in *; [lia|]. by inversion 1.
Qed.

Lemma carry_row_length carry row : length (carry_row carry row) = length row.
Proof. revert carry. induction row; intros; cbn; [done|]. f_equal. done. Qed.

Lemma carry_row_lookup carry row i :
  (i < length row)%nat →
  carry_row carry row !! i = Some true ↔ carry = true ∨ ∃ j, (j ≤ i)%nat ∧ row !! j = Some true.
Proof.
  revert carry i. induction row as [|r row IH]; intros carry i Hi; cbn in *; [lia|].
  destruct i as [|i]; cbn.
  - split.
    + intros [= [->| ->]%orb_true_iff]; [by left|right; by exists 0%nat].
    + intros [->|(j & Hj & H)]; [done|]. replace j with 0%nat in H by lia. injection H as ->.
      by rewrite orb_true_r.
  - rewrite IH by lia. rewrite orb_true_iff. split.
    + intros [[->| ->]|(j & ? & ?)]; [by left|right; exists 0%nat; split; [lia|done]|].
      right. exists (S j). split; [lia|done].
    + intros [->|([|j] & ? & H)]; [by left; left|left; right; cbn in H; congruence|].
      right. exists j. split; [lia|done].
Qed.

Lemma single_row_length tokens row parts :
  length row = S (length parts) → length (single_row tokens row parts) = length parts.
Proof.
  revert parts. induction row as [|r row IH]; intros [|p parts]; cbn; [done..|].
  intros [= H]. f_equal. by apply IH.
Qed.

Lemma single_row_lookup tokens row parts i :
  length row = S (length parts) →
  single_row tokens row parts !! i = Some true ↔
  row !! i = Some true ∧ ∃ p, parts !! i = Some p ∧ Matches tokens p.
Proof.
  revert parts i. induction row as [|r row IH]; intros [|p parts] i Hl; cbn in *; [done..| |].
  { split; [done|]. by intros (_ & ? & ? & _). }
  injection Hl as Hl. destruct i as [|i]; cbn; [|by apply IH].
  split.
  - intros [= [-> H]%andb_true_iff]. split; [done|]. exists p. by rewrite <- match_tokens_spec.
  - intros ([= ->] & p' & [= <-] & H). apply match_tokens_spec in H. by rewrite H.
Qed.

Lemma Row_next pre segment parts row :
  Row pre parts row → Row (pre ++ [segment]) parts (next_row segment row parts).
Proof.
  intros [Hl Hrow]. split.
  { destruct segment; cbn; [by rewrite carry_row_length|by rewrite single_row_length]. }
  intros i Hi. rewrite MatchesPath_app, length_take, (Nat.min_l i (length parts)) by lia.
  setoid_rewrite take_take.
  destruct segment as [|tokens]; cbn.
  - rewrite carry_row_lookup by lia. split.
    + intros [|(j & Hj & Hr)]; [done|]. exists j. apply Hrow in Hr; [|lia].
      rewrite (Nat.min_l j i) by lia. split_and!; [lia|done|apply MatchesPath_depth_all].
    + intros (j & Hj & Hp & _). rewrite Nat.min_l in Hp by lia. right. exists j.
      split; [lia|]. apply Hrow; [lia|done].
  - setoid_rewrite MatchesPath_single_inv. destruct i as [|i]; cbn.
    { split; [done|]. intros (j & _ & _ & p & Hd & _). rewrite take_0, drop_nil in Hd. done. }
    rewrite single_row_lookup by done. rewrite Hrow by lia. split.
    + intros (Hp & p & Hpi & Hm). exists i. rewrite (Nat.min_l i (S i)) by lia. split_and!; [lia|done|].
      exists p. split; [|done]. rewrite (take_S_r _ _ _ Hpi). rewrite drop_app_le by (rewrite length_take; lia).
      by rewrite drop_ge by (rewrite length_take; lia).
    + intros (j & Hj & Hp & p & Hd & Hm). assert (j = i) as ->.
      { apply (f_equal length) in Hd. rewrite length_drop, length_take in Hd.
        change (length [p]) with 1%nat in Hd. lia. }
      rewrite Nat.min_l in Hp by lia. split; [done|]. exists p. split; [|done].
      destruct (parts !! i) as [q|] eqn:E; [|apply lookup_ge_None in E; lia].
      rewrite (take_S_r _ _ _ E), drop_app_le, drop_ge in Hd by (rewrite length_take; lia).
      by injection Hd as ->.
Qed.

Lemma segments_loop_spec segs parts pre row :
  Row pre parts row → segments_loop segs parts row = true ↔ MatchesPath (pre ++ segs) parts.
Proof.
  revert pre row. induction segs as [|seg segs IH]; intros pre row Hrow; cbn.
  - destruct Hrow as [Hl Hrow]. rewrite app_nil_r. specialize (Hrow (length parts) ltac:(lia)).
    rewrite firstn_all in Hrow. rewrite <- Hrow.
    destruct (row !! length parts) as [b|]; cbn; naive_solver.
  - pose proof (Row_next _ seg _ _ Hrow) as Hnext.
    replace (pre ++ seg :: segs) with ((pre ++ [seg]) ++ segs) by by rewrite <- app_assoc.
    destruct (any id (next_row seg row parts)) eqn:E; [by apply IH|]. split; [done|].
    rewrite MatchesPath_app. intros (i & Hi & Ha & _). destruct Hnext as [_ Hnext].
    apply Hnext in Ha; [|done]. apply any_false in E. by apply (Forall_lookup_1 _ _ _ _ E) in Ha.
Qed.

Lemma match_segments_spec segs parts : match_segments segs parts = true ↔ MatchesPath segs parts.
Proof. apply (segments_loop_spec segs parts []), Row_init. Qed.

(** ** What the parser accepts *)

Definition is_meta (c : Z) : bool := (c =? STAR) || (c =? QUESTION) || (c =? OPEN) || (c =? CLOSE).

(** A token of an accepted pattern whose characters satisfy [Q]. *)
Definition wf_token (Q : Z → Prop) (t : Token) : Prop :=
  match t with
  | Literal c => Q c ∧ is_meta c = false
  | Class _ ranges => ranges ≠ [] ∧ Forall (λ r, r.1 ≤ r.2 ∧ Q r.1 ∧ Q r.2) ranges
  | AnyChar | AnyRun => True
  end.

Definition NoDoubleRun (ts : list Token) : Prop :=
  ∀ i, ts !! i = Some AnyRun → ts !! S i ≠ Some AnyRun.

Lemma NoDoubleRun_snoc ts t :
  NoDoubleRun ts → (t = AnyRun → last ts ≠ Some AnyRun) → NoDoubleRun (ts ++ [t]).
Proof.
  intros Hn Ht i Hi Hi'. rewrite lookup_app in Hi, Hi'.
  destruct (ts !! i) as [x|] eqn:E.
  - injection Hi as ->. destruct (ts !! S i) as [y|] eqn:E'; [injection Hi' as ->; by apply (Hn i)|].
    apply list_lookup_singleton_Some in Hi' as [Hlen ->]. apply Ht; [done|].
    rewrite last_lookup. apply lookup_ge_None in E'. pose proof (lookup_lt_Some _ _ _ E). by replace (pred (length ts)) with i by lia.
  - apply lookup_ge_None in E. rewrite (proj2 (lookup_ge_None ts (S i))) in Hi' by lia.
    apply list_lookup_singleton_Some in Hi' as [Hlen _]. lia.
Qed.

Definition wf_tokens (Q : Z → Prop) (ts : list Token) : Prop :=
  Forall (wf_token Q) ts ∧ NoDoubleRun ts.

Lemma wf_tokens_nil Q : wf_tokens Q [].
Proof. split; [constructor|]. intros i. by rewrite lookup_nil. Qed.

Lemma wf_tokens_snoc Q ts t :
  wf_tokens Q ts → wf_token Q t → (t = AnyRun → last ts ≠ Some AnyRun) → wf_tokens Q (ts ++ [t]).
Proof.
  intros [Hf Hn] Ht Hr. split; [apply Forall_app; split; [done|by constructor]|].
  by apply NoDoubleRun_snoc.
Qed.

Definition wf_class (Q : Z → Prop) (class : option (bool * list (Z * Z))) : Prop :=
  match class with
  | None => True
  | Some (_, ranges) => Forall (λ r, r.1 ≤ r.2 ∧ Q r.1 ∧ Q r.2) ranges
  end.

Lemma parse_loop_wf Q n cs ts class out :
  (length cs ≤ n)%nat → Forall Q cs → wf_tokens Q ts → wf_class Q class →
  parse_loop cs ts class = Ok out →
  wf_tokens Q out ∧ (length out ≤ length ts + length cs)%nat.
Proof.
  revert cs ts class. induction n as [|n IH]; intros cs ts class Hn Hq Hts Hcl.
  { destruct cs; cbn in *; [|lia]. destruct class as [[]|]; [done|]. intros [= <-]. split; [done|lia]. }
  assert (∀ cs' ts' class', (length cs' ≤ n)%nat → Forall Q cs' → wf_tokens Q ts' → wf_class Q class' →
    (length ts' + length cs' ≤ length ts + length cs)%nat →
    parse_loop cs' ts' class' = Ok out → wf_tokens Q out ∧ (length out ≤ length ts + length cs)%nat)
    as IH'.
  { intros ???????? H. destruct (IH _ _ _ ltac:(done) ltac:(done) ltac:(done) ltac:(done) H). split; [done|lia]. }
  clear IH. destruct cs as [|c cs]; cbn [parse_loop].
  { destruct class as [[]|]; [done|]. intros [= <-]. split; [done|lia]. }
  apply Forall_cons in Hq as [Hc Hq]. cbn [length] in Hn, IH'.
  assert (∀ t, wf_token Q t → (t = AnyRun → last ts ≠ Some AnyRun) → parse_loop cs (ts ++ [t]) None = Ok out →
    wf_tokens Q out ∧ (length out ≤ length ts + S (length cs))%nat) as Hpush.
  { intros t Ht Hl. apply IH'; [lia|done|by apply wf_tokens_snoc|done|]. rewrite length_app. cbn. lia. }
  assert (∀ negated ranges cs' r, (length cs' ≤ length cs)%nat → Forall Q cs' → wf_class Q (Some (negated, ranges)) →
    r.1 ≤ r.2 ∧ Q r.1 ∧ Q r.2 → parse_loop cs' ts (Some (negated, ranges ++ [r])) = Ok out →
    wf_tokens Q out ∧ (length out ≤ length ts + S (length cs))%nat) as Hrange.
  { intros neg rs cs' r Hl Hq' Hrs Hr. apply IH'; [lia|done|done| |lia]. cbn in *.
    apply Forall_app. split; [done|by constructor]. }
  destruct class as [[neg rs]|].
  - destruct ((c =? CLOSE) && negb (bool_decide (rs = []))) eqn:E; boolify.
    { apply Hpush; [|done]. split; [by apply bool_decide_eq_false in H0|done]. }
    destruct cs as [|d cs]; [by apply Hrange|].
    apply Forall_cons in Hq as [Hd Hq]. destruct (d =? DASH); [|apply Hrange; cbn; auto with lia].
    destruct cs as [|e cs]; [done|]. apply Forall_cons in Hq as [He Hq].
    destruct (e <? c) eqn:Ee; [done|]. boolify. apply Hrange; cbn; auto with lia.
  - destruct (c =? STAR) eqn:E1.
    { destruct (decide (last ts = Some AnyRun)); [apply IH'; auto with lia|]. by apply Hpush. }
    destruct (c =? QUESTION) eqn:E2; [by apply Hpush|]. destruct (c =? OPEN) eqn:E3.
    { assert (∀ b cs', (length cs' ≤ length cs)%nat → Forall Q cs' → parse_loop cs' ts (Some (b, [])) = Ok out →
        wf_tokens Q out ∧ (length out ≤ length ts + S (length cs))%nat) as Hopen.
      { intros b cs' ??. apply IH'; cbn; auto with lia. }
      destruct cs as [|d cs]; [by apply Hopen|]. pose proof Hq as [? ?]%Forall_cons.
      destruct (_ || _); apply Hopen; cbn; auto with lia. }
    destruct (c =? CLOSE) eqn:E4; [done|]. apply Hpush; [|done]. split; [done|].
    unfold is_meta. by rewrite E1, E2, E3, E4.
Qed.

(** A raw segment and the segment it becomes. *)
Definition Parsed (Q : Z → Prop) (raw : str) (seg : Segment) : Prop :=
  raw ≠ [] ∧ raw ≠ chars "." ∧ raw ≠ chars ".." ∧
  match seg with
  | AnyDepth => raw = chars "**"
  | Single ts => parse_tokens raw = Ok ts ∧ wf_tokens Q ts ∧ (length ts ≤ length raw)%nat
  end.

Lemma parse_segments_wf Q raw acc out :
  Forall (Forall Q) raw → parse_segments raw acc = Ok out →
  ∃ segs, out = acc ++ segs ∧ Forall2 (Parsed Q) raw segs.
Proof.
  revert acc. induction raw as [|r raw IH]; intros acc Hq; cbn [parse_segments].
  { intros [= <-]. exists []. by rewrite app_nil_r. }
  apply Forall_cons in Hq as [Hr Hq].
  assert (∀ seg, parse_segments raw (acc ++ [seg]) = Ok out → Parsed Q r seg →
    ∃ segs, out = acc ++ segs ∧ Forall2 (Parsed Q) (r :: raw) segs) as Hnext.
  { intros seg H Hp. destruct (IH _ Hq H) as (segs & -> & Hf). exists (seg :: segs).
    rewrite <- app_assoc. split; [done|by constructor]. }
  destruct (decide (r = [])); [done|]. destruct (decide (r = chars "." ∨ r = chars "..")) as [|Hdot]; [done|].
  apply Decidable.not_or in Hdot as [Hd1 Hd2].
  destruct (decide (r = chars "**")) as [->|]; intros H; [by apply (Hnext AnyDepth)|].
  apply bind_Ok in H as (ts & Hp & H). apply (Hnext (Single ts)); [exact H|].
  do 3 (split; [done|]). rewrite Hp. unfold parse_tokens in Hp.
  eapply parse_loop_wf in Hp as [Hw Hl]; [|reflexivity|exact Hr|apply wf_tokens_nil|exact I].
  cbn in Hl. split_and!; [done|done|lia].
Qed.

(** What a character of an accepted pattern may be. *)
Definition allowed (c : Z) : Prop := is_control c = false ∧ c ≠ COLON ∧ is_separator c = false.

Lemma parse_segments_of pattern p :
  parse pattern = Ok p →
  len (as_bytes pattern) ≤ MAX_PATTERN_BYTES ∧
  1 ≤ len (segments p) ≤ MAX_PATTERN_SEGMENTS ∧
  Forall2 (Parsed allowed) (split is_separator pattern) (segments p).
Proof.
  unfold parse. destruct (decide (pattern = [])); [done|].
  destruct (MAX_PATTERN_BYTES <? _) eqn:El; [done|].
  destruct (any is_control pattern) eqn:Ec; [done|].
  destruct (_ || any _ pattern) eqn:Ecol; [done|].
  apply orb_false_iff in Ecol as [_ Ecol].
  destruct (MAX_PATTERN_SEGMENTS <? _) eqn:En; [done|]. boolify. intros H. inv_ok.
  rewrite any_false in Ec, Ecol.
  assert (Forall (Forall allowed) (split is_separator pattern)) as Hall.
  { pose proof (split_no_sep is_separator pattern) as H1.
    pose proof (split_Forall is_separator (λ c, is_control c = false) _ Ec) as H2.
    pose proof (split_Forall is_separator (λ c, (c =? COLON) = false) _ Ecol) as H3.
    rewrite !Forall_forall in *. intros r Hr. specialize (H1 r Hr). specialize (H2 r Hr).
    specialize (H3 r Hr). rewrite !Forall_forall in *. intros c Hcr. unfold allowed.
    split_and!; [by apply H2| |by apply H1]. apply Z.eqb_neq. by apply H3. }
  destruct (parse_segments_wf allowed _ _ _ Hall H) as (segs & -> & Hf).
  split; [lia|]. split; [|done]. cbn. unfold len in *. rewrite <- (Forall2_length _ _ _ Hf).
  pose proof (split_loop_length is_separator pattern []). unfold split in *. lia.
Qed.

(** ** Theorems *)

(** The components of a path as [matches] splits it. *)
Definition components (path : str) : list str :=
  filter (λ part, part ≠ []) (split (λ c, c =? SLASH) path).

(** C34. The matcher decides what a pattern means: a path matches exactly when its
    components can be divided among the segments, [**] taking any number of them
    and any other segment one component, whose characters are divided among the
    tokens with [*] taking any run. *)
Theorem glob_meaning (p : GlobPattern) (path : str) :
  matches p path = true ↔ MatchesPath (segments p) (components path).
Proof. apply match_segments_spec. Qed.

(** A hostile pattern costs no more than a quadratic scan: for any tokens and
    any component the loop ends within [(n + 1) * (m + 1)] iterations, and within
    [257 * (n + 1)] for the tokens of an accepted pattern, and its answer then is
    the pattern's meaning. *)
Theorem glob_scan_terminates (tokens : list Token) (s : str) :
  (∃ b, scan (scan_bound tokens s) tokens s (mkScan 0 0 None 0) = Some b ∧
        (b = true ↔ Matches tokens s)) ∧
  ∀ pattern p, Forall (λ c, is_scalar c = true) pattern →
    parse pattern = Ok p → Single tokens ∈ segments p →
    Z.of_nat (scan_bound tokens s) ≤ 257 * (len s + 1).
Proof.
  split; [apply scan_decides; [apply ScanInv_init|unfold scan_measure, scan_bound; cbn; nia]|].
  intros pattern p Hsc Hp Hin. destruct (parse_segments_of _ _ Hp) as (Hb & _ & Hf).
  apply list_elem_of_lookup in Hin as [i Hi]. destruct (Forall2_lookup_r _ _ _ _ _ Hf Hi) as (raw & Hraw & Hpr).
  destruct Hpr as (_ & _ & _ & _ & _ & Hl).
  enough (len raw ≤ MAX_PATTERN_BYTES) by (unfold scan_bound, len, MAX_PATTERN_BYTES in *; nia).
  pose proof (split_piece_length is_separator pattern _ _ Hraw).
  pose proof (len_as_bytes pattern). unfold len in *. lia.
Qed.

(** Accepted patterns are well formed: at most 256 bytes, between 1 and 24
    segments, one per separated piece of the text, and no piece is empty, [.] or
    [..]. A segment never holds two adjacent [*], a literal is never a
    metacharacter, separator, colon or control character, and every character
    class is non-empty with its ranges in order. *)
Theorem glob_parse_wf (pattern : str) (p : GlobPattern) :
  parse pattern = Ok p →
  len (as_bytes pattern) ≤ 256 ∧ 1 ≤ len (segments p) ≤ 24 ∧
  Forall2 (λ raw seg,
    raw ≠ [] ∧ raw ≠ chars "." ∧ raw ≠ chars ".." ∧
    match seg with
    | AnyDepth => raw = chars "**"
    | Single ts => parse_tokens raw = Ok ts ∧ Forall (wf_token allowed) ts ∧ NoDoubleRun ts
    end) (split is_separator pattern) (segments p).
Proof.
  intros Hp. destruct (parse_segments_of _ _ Hp) as (Hb & Hs & Hf). split_and!; [done|apply Hs|apply Hs|].
  eapply Forall2_impl; [exact Hf|]. intros raw [|ts] (? & ? & ? & H); split_and!; try done.
  all: destruct H as (? & [] & ?); done.
Qed.

Lemma parse_loop_literal s ts :
  Forall (λ c, is_meta c = false) s → parse_loop s ts None = Ok (ts ++ (Literal <$> s)).
Proof.
  revert ts. induction s as [|c s IH]; intros ts Hs; cbn [parse_loop fmap list_fmap].
  { by rewrite app_nil_r. }
  apply Forall_cons in Hs as [Hc Hs]. unfold is_meta in Hc.
  apply orb_false_iff in Hc as [[[-> ->]%orb_false_iff ->]%orb_false_iff ->].
  rewrite IH by done. by rewrite <- app_assoc.
Qed.

Lemma Matches_literal s t : Matches (Literal <$> s) t ↔ t = s.
Proof.
  revert t. induction s as [|c s IH]; intros t; cbn [fmap list_fmap]; [apply Matches_nil_inv|].
  rewrite Matches_one_inv by done. cbn. setoid_rewrite IH. setoid_rewrite Z.eqb_eq. naive_solver.
Qed.

(** A pattern without metacharacters names one path: it matches exactly the
    paths with the same components, [\ ] separating like [/] in the pattern. *)
Theorem glob_literal_exact (pattern : str) (p : GlobPattern) (path : str) :
  parse pattern = Ok p → Forall (λ c, is_meta c = false) pattern →
  matches p path = true ↔ components path = split is_separator pattern.
Proof.
  intros Hp Hm. unfold matches. rewrite match_segments_spec. fold (components path).
  destruct (parse_segments_of _ _ Hp) as (_ & _ & Hf).
  pose proof (split_Forall is_separator _ _ Hm) as Hms. revert Hf Hms.
  generalize (split is_separator pattern) (segments p). clear Hp Hm. generalize (components path).
  intros ps raws segs Hf. revert ps.
  induction Hf as [|raw seg raws segs Hp _ IH]; intros ps Hms.
  { split; [by inversion 1|intros ->; constructor]. }
  apply Forall_cons in Hms as [Hraw Hms]. destruct Hp as (_ & _ & _ & Hp). destruct seg as [|ts].
  { subst raw. by apply Forall_cons in Hraw as [? _]. }
  destruct Hp as (Hp & _). unfold parse_tokens in Hp. rewrite parse_loop_literal in Hp by done.
  injection Hp as <-. split.
  - inversion 1 as [| |? ? q qs Hq Hqs]; subst. f_equal; [by apply Matches_literal|by apply IH].
  - intros ->. constructor; [by apply Matches_literal|by apply IH].
Qed.

#[export] Instance MatchesPath_dec segs parts : Decision (MatchesPath segs parts).
Proof.
  refine (cast_if (decide (match_segments segs parts = true))); by rewrite <- match_segments_spec.
Defined.

Lemma collect_hits p n limit files matched total :
  0 ≤ limit →
  let hits := snd <$> filter (λ f, MatchesPath (segments p) (drop n f.1)) files in
  collect p n limit files matched total
  = (matched ++ take (Z.to_nat limit - length matched) hits, total + len hits).
Proof.
  intros Hlim. cbv zeta. revert matched total.
  induction files as [|[cs text] files IH]; intros matched total; cbn [collect].
  { cbn. rewrite take_nil, app_nil_r. f_equal. unfold len. cbn. lia. }
  unfold matches_parts. rewrite filter_cons. cbn [fst snd].
  destruct (match_segments (segments p) (drop n cs)) eqn:E.
  - rewrite decide_True by (by apply match_segments_spec). rewrite fmap_cons, IH, len_cons. f_equal; [|lia].
    destruct (len matched <? limit) eqn:El; boolify; unfold len in El.
    + replace (Z.to_nat limit - length matched)%nat with (S (Z.to_nat limit - length (matched ++ [text])))
        by (rewrite length_app; cbn; lia).
      cbn. by rewrite <- app_assoc.
    + replace (Z.to_nat limit - length matched)%nat with 0%nat by lia. done.
  - rewrite decide_False by (rewrite <- match_segments_spec; congruence). apply IH.
Qed.

(** The glob tool lists the matching files in walking order, the first
    [min(max_results, 1000)] of them, counts all of them and marks the output
    truncated exactly when some are left out. *)
Theorem glob_files_contract (p : GlobPattern) (prefix_len : nat) (max_results : option Z)
    (files : list (list str * str)) :
  0 ≤ default MAX_GLOB_RESULTS max_results →
  let hits := snd <$> filter (λ f, MatchesPath (segments p) (drop prefix_len f.1)) files in
  let limit := Z.min (default MAX_GLOB_RESULTS max_results) MAX_GLOB_RESULTS in
  glob_files p prefix_len max_results files
  = (take (Z.to_nat limit) hits, len hits, limit <? len hits).
Proof.
  intros Hmax hits limit. assert (0 ≤ limit) as Hlim by (unfold limit, MAX_GLOB_RESULTS in *; lia).
  unfold glob_files. fold limit. rewrite collect_hits by done. fold hits. cbn. rewrite Nat.sub_0_r.
  f_equal. unfold len. rewrite length_take. apply Bool.eq_iff_eq_true. rewrite !Z.ltb_lt. lia.
Qed.

Example matches_examples :
  (λ p, match parse p with Ok g => Some (matches g (chars "src/fs/glob.rs")) | Err _ => None end)
    <$> [chars "src/**/*.rs"; chars "**"; chars "src/*.rs"; chars "*/f?/[a-h]l*[!x]";
         chars "**/**/glob.rs"; chars "src/../x"; chars "[a-"]
  = [Some true; Some true; Some false; Some true; Some true; None; None].
Proof. vm_compute. reflexivity. Qed.

(** Witnesses. *)

Definition sample : GlobPattern :=
  mkGlobPattern [Single (Literal <$> chars "src"); AnyDepth; Single (AnyRun :: (Literal <$> chars ".rs"))].

Lemma glob_scan_terminates_witness :
  parse (chars "src/**/*.rs") = Ok sample ∧
  Z.of_nat (scan_bound (AnyRun :: (Literal <$> chars ".rs")) (chars "glob.rs")) ≤ 257 * (len (chars "glob.rs") + 1).
Proof.
  split; [reflexivity|].
  apply (proj2 (glob_scan_terminates (AnyRun :: (Literal <$> chars ".rs")) (chars "glob.rs"))
           (chars "src/**/*.rs") sample); [by repeat constructor|reflexivity|].
  apply list_elem_of_In. right. right. left. reflexivity.
Defined.

Lemma glob_parse_wf_witness :
  parse (chars "src/**/*.rs") = Ok sample ∧ 1 ≤ len (segments sample) ≤ 24.
Proof. split; [reflexivity|]. apply (glob_parse_wf (chars "src/**/*.rs") sample eq_refl). Defined.

Lemma glob_literal_exact_witness :
  matches (mkGlobPattern [Single (Literal <$> chars "a"); Single (Literal <$> chars "b")]) (chars "a/b") = true.
Proof.
  apply (glob_literal_exact (chars "a\b") _ (chars "a/b")); [reflexivity|by repeat constructor|reflexivity].
Defined.

Lemma glob_files_contract_witness :
  glob_files sample 0 (Some 1)
    [([chars "src"; chars "a.rs"], chars "src/a.rs"); ([chars "b"], chars "b");
     ([chars "src"; chars "c.rs"], chars "src/c.rs")]
  = ([chars "src/a.rs"], 2, true).
Proof. rewrite (glob_files_contract sample 0 (Some 1)); [vm_compute; reflexivity|cbn; lia]. Defined.

End Glob.
