(* ===== verification/Patch.v ===== *)
(** * Unified diffs

    Models [crates/claw-tools/src/fs/patch.rs]: parsing a unified diff restricted
    to one file ([parse]), applying it ([apply]) and the tool around both
    ([invoke]). Texts are lists of characters.

    The theorems: application is the splicing of hunks into the file's lines, with
    its errors; an applied patch can be undone; a well-formed diff parses to what
    it was printed from; parsed patches are well formed; a failing call writes
    nothing. Three closing examples show inputs on which the code loses or refuses
    what a unified diff can express. *)

From S2P Require Import Prelude Utf8 Text.

Module Patch.

Definition MAX_PATCH_BYTES : Z := 256 * 1024.
Definition MAX_HUNKS : Z := 512.

Definition NEWLINE : Z := 0x0A.
Definition RETURN : Z := 0x0D.
Definition TAB : Z := 0x09.
Definition SPACE : Z := 0x20.
Definition PLUS : Z := 0x2B.
Definition COMMA : Z := 0x2C.
Definition DASH : Z := 0x2D.
Definition SLASH : Z := 0x2F.
Definition BACKSLASH : Z := 0x5C.

Inductive LineEnding := Lf | Crlf.

Definition ending_str (e : LineEnding) : str :=
  match e with Lf => [NEWLINE] | Crlf => [RETURN; NEWLINE] end.

Inductive HunkLine := ContextLine (text : str) | Removed (text : str) | Added (text : str).

Record Hunk := mkHunk { old_start : Z; old_count : Z; new_count : Z; body : list HunkLine }.

Record UnifiedPatch := mkPatch { hunks : list Hunk }.

Inductive PatchError :=
| Empty | TooLong | MissingHunkHeader | MalformedHunkHeader | InvalidLinePrefix | CountMismatch
| PathMismatch | MultipleFiles | TooManyHunks | HunksOutOfOrder | OutOfRange | ContextMismatch.

(** ** Headers *)

Definition parse_range (value : str) : result PatchError (Z * Z) :=
  let '(start, count) := default (value, chars "1") (split_once (Z.eqb COMMA) value) in
  start ← ok_or MalformedHunkHeader (parse_usize start);
  count ← ok_or MalformedHunkHeader (parse_usize count);
  Ok (start, count).

(** The increment of an insertion point wraps like any [usize] addition of a
    release build. *)
Definition parse_hunk_header (line : str) : result PatchError Hunk :=
  rest ← ok_or MalformedHunkHeader (strip_prefix (chars "@@") line);
  ranges ← ok_or MalformedHunkHeader (find_str (chars "@@") rest);
  parts ← ok_or MalformedHunkHeader (split_once (Z.eqb SPACE) (trim ranges.1));
  old ← ok_or MalformedHunkHeader (strip_prefix [DASH] parts.1);
  new ← ok_or MalformedHunkHeader (strip_prefix [PLUS] (trim parts.2));
  old ← parse_range old;
  new ← parse_range new;
  if (old.1 =? 0) && negb (old.2 =? 0) then Err OutOfRange
  else Ok (mkHunk (if old.2 =? 0 then wrap_add u64_max old.1 1 else old.1) old.2 new.2 []).

Definition verify_header_path (header path : str) : result PatchError unit :=
  let candidate := trim (default header (head (split (Z.eqb TAB) header))) in
  if decide (candidate = chars "/dev/null") then Err PathMismatch
  else
    let normalized := (λ c, if c =? BACKSLASH then SLASH else c) <$> candidate in
    let stripped :=
      match strip_prefix (chars "a/") normalized with
      | Some s => s
      | None => default normalized (strip_prefix (chars "b/") normalized)
      end in
    if decide (stripped = path) then Ok tt else Err PathMismatch.

(** ** Parsing *)

(** The variables of the parsing loop. *)
Record ParseState := mkParse { done_ : list Hunk; current : option Hunk; seen_hunk_header : bool }.

Definition push_line (h : Hunk) (l : HunkLine) : Hunk :=
  mkHunk (old_start h) (old_count h) (new_count h) (body h ++ [l]).

(** [hunks.push(current.take())] when there is one. *)
Definition flush (st : ParseState) : list Hunk :=
  done_ st ++ match current st with Some h => [h] | None => [] end.

Definition NO_NEWLINE : str := chars "\ No newline at end of file".

(** The line's place in a hunk body, by its first character. *)
Definition body_line (line : str) : option HunkLine :=
  match line with
  | [] => Some (ContextLine [])
  | c :: rest =>
      if c =? SPACE then Some (ContextLine rest)
      else if c =? DASH then Some (Removed rest)
      else if c =? PLUS then Some (Added rest)
      else None
  end.

(** A [---] or [+++] line with what follows the marker. *)
Definition header_line (path : str) (st : ParseState) (header : str) : result PatchError ParseState :=
  if seen_hunk_header st then Err MultipleFiles
  else _ ← verify_header_path header path; Ok st.

Definition strip_cr (raw : str) : str := default raw (strip_suffix [RETURN] raw).

(** One iteration of the parsing loop. *)
Definition parse_line (path : str) (st : ParseState) (raw : str) : result PatchError ParseState :=
  let line := strip_cr raw in
  match strip_prefix (chars "--- ") line with
  | Some header => header_line path st header
  | None =>
  match strip_prefix (chars "+++ ") line with
  | Some header => header_line path st header
  | None =>
  if starts_with (chars "diff ") line || starts_with (chars "index ") line then
    if seen_hunk_header st then Err MultipleFiles else Ok st
  else if starts_with (chars "@@") line then
    if MAX_HUNKS <=? len (flush st) then Err TooManyHunks
    else h ← parse_hunk_header line; Ok (mkParse (flush st) (Some h) true)
  else
  match current st with
  | None => if decide (line = []) then Ok st else Err MissingHunkHeader
  | Some hunk =>
      if decide (line = NO_NEWLINE) then Ok st
      else
        l ← ok_or InvalidLinePrefix (body_line line);
        Ok (mkParse (done_ st) (Some (push_line hunk l)) (seen_hunk_header st))
  end end end.

Fixpoint parse_lines (path : str) (st : ParseState) (raws : list str) : result PatchError ParseState :=
  match raws with
  | [] => Ok st
  | raw :: raws => st ← parse_line path st raw; parse_lines path st raws
  end.

Definition is_old (l : HunkLine) : bool := match l with ContextLine _ | Removed _ => true | Added _ => false end.
Definition is_new (l : HunkLine) : bool := match l with ContextLine _ | Added _ => true | Removed _ => false end.

Definition counts_ok (h : Hunk) : bool :=
  (len (List.filter is_old (body h)) =? old_count h) && (len (List.filter is_new (body h)) =? new_count h).

Definition parse (patch expected_path : str) : result PatchError UnifiedPatch :=
  _ ← ensure (bool_decide (trim patch ≠ [])) Empty;
  _ ← ensure (len (as_bytes patch) <=? MAX_PATCH_BYTES) TooLong;
  let body_text := default patch (strip_suffix [NEWLINE] patch) in
  st ← parse_lines expected_path (mkParse [] None false) (split (Z.eqb NEWLINE) body_text);
  _ ← ensure (bool_decide (flush st ≠ [])) MissingHunkHeader;
  _ ← ensure (all counts_ok (flush st)) CountMismatch;
  Ok (mkPatch (flush st)).

(** ** Application *)

Definition ending_of (original : str) : LineEnding :=
  match find_str [RETURN; NEWLINE] original with Some _ => Crlf | None => Lf end.

(** The lines of a file; a trailing terminator leaves no further line. *)
Definition file_lines (original : str) : list str :=
  let lines := if decide (original = []) then [] else strip_cr <$> split (Z.eqb NEWLINE) original in
  if ends_with [NEWLINE] original && bool_decide (lines ≠ []) then take (length lines - 1) lines else lines.

(** The inner loop over one hunk's body: the cursor and the output so far. *)
Fixpoint apply_body (lines : list str) (b : list HunkLine) (cursor : nat) (output : list str)
  : result PatchError (nat * list str) :=
  match b with
  | [] => Ok (cursor, output)
  | ContextLine text :: b =>
      actual ← ok_or OutOfRange (lines !! cursor);
      if decide (actual = text) then apply_body lines b (S cursor) (output ++ [actual])
      else Err ContextMismatch
  | Removed text :: b =>
      actual ← ok_or OutOfRange (lines !! cursor);
      if decide (actual = text) then apply_body lines b (S cursor) output else Err ContextMismatch
  | Added text :: b => apply_body lines b cursor (output ++ [text])
  end.

(** The loop over the hunks. *)
Fixpoint apply_hunks (lines : list str) (hs : list Hunk) (cursor : nat) (output : list str)
  : result PatchError (nat * list str) :=
  match hs with
  | [] => Ok (cursor, output)
  | h :: hs =>
      let start := old_start h - 1 in
      if start <? 0 then Err OutOfRange
      else if start <? Z.of_nat cursor then Err HunksOutOfOrder
      else if len lines <? start then Err OutOfRange
      else
        let start := Z.to_nat start in
        r ← apply_body lines (body h) start (output ++ take (start - cursor) (drop cursor lines));
        apply_hunks lines hs r.1 r.2
  end.

(** [parts.join(separator)] *)
Fixpoint join (separator : str) (parts : list str) : str :=
  match parts with
  | [] => []
  | [p] => p
  | p :: ps => p ++ separator ++ join separator ps
  end.

(** The new content: lines joined with the file's terminator. *)
Definition render (e : LineEnding) (trailing_newline : bool) (lines : list str) : str :=
  let joined := join (ending_str e) lines in
  if trailing_newline && bool_decide (joined ≠ []) then joined ++ ending_str e else joined.

Definition apply (p : UnifiedPatch) (original : str) : result PatchError str :=
  let lines := file_lines original in
  r ← apply_hunks lines (hunks p) 0 [];
  Ok (render (ending_of original) (ends_with [NEWLINE] original) (r.2 ++ drop r.1 lines)).

(** ** The tool *)

Section Tool.
Context {SandboxError : Type}.

Inductive ToolError := PatchRefused (e : PatchError) | Sandbox (e : SandboxError) | BinaryContent.

(** [FsPatchTool::invoke] on an already resolved path: the sandbox answers the
    read and each write; the result counts the hunks, and the second component
    lists the contents handed to [write_file]. *)
Definition invoke (path patch : str) (read : result SandboxError bytes) (write : str → result SandboxError unit)
  : result ToolError Z * list str :=
  match parse patch path with
  | Err e => (Err (PatchRefused e), [])
  | Ok diff =>
  match read with
  | Err e => (Err (Sandbox e), [])
  | Ok content =>
  match utf8_decode content with
  | None => (Err BinaryContent, [])
  | Some original =>
  match apply diff original with
  | Err e => (Err (PatchRefused e), [])
  | Ok updated =>
      (match write updated with Ok _ => Ok (len (hunks diff)) | Err e => Err (Sandbox e) end, [updated])
  end end end end.
End Tool.

(** ** What a patch means *)

Definition text_of (l : HunkLine) : str := match l with ContextLine t | Removed t | Added t => t end.

(** The lines a body claims to find and the lines it leaves. *)
Definition olds (b : list HunkLine) : list str := text_of <$> List.filter is_old b.
Definition news (b : list HunkLine) : list str := text_of <$> List.filter is_new b.

(** Splicing: [Applies n hs old new] when [hs] turn the lines [old], of which the
    first is number [n + 1], into [new]: each hunk starts after some kept lines,
    finds its old lines there and leaves its new ones. *)
Inductive Applies : nat → list Hunk → list str → list str → Prop :=
| Applies_done n rest : Applies n [] rest rest
| Applies_hunk n h hs skipped old new :
    old_start h = Z.of_nat n + len skipped + 1 →
    Applies (n + length skipped + length (olds (body h))) hs old new →
    Applies n (h :: hs) (skipped ++ olds (body h) ++ old) (skipped ++ news (body h) ++ new).

(** Where application stops: the first hunk that does not fit, and why. *)
Inductive Refused : nat → list Hunk → list str → PatchError → Prop :=
| Refused_later n h hs skipped old e :
    old_start h = Z.of_nat n + len skipped + 1 →
    Refused (n + length skipped + length (olds (body h))) hs old e →
    Refused n (h :: hs) (skipped ++ olds (body h) ++ old) e
| Refused_zero n h hs old : old_start h < 1 → Refused n (h :: hs) old OutOfRange
| Refused_order n h hs old : 1 ≤ old_start h ≤ Z.of_nat n → Refused n (h :: hs) old HunksOutOfOrder
| Refused_past n h hs old :
    1 ≤ old_start h → Z.of_nat n + len old < old_start h - 1 → Refused n (h :: hs) old OutOfRange
| Refused_short n h hs skipped found missing :
    old_start h = Z.of_nat n + len skipped + 1 → missing ≠ [] → olds (body h) = found ++ missing →
    Refused n (h :: hs) (skipped ++ found) OutOfRange
| Refused_mismatch n h hs skipped found claimed actual more old :
    old_start h = Z.of_nat n + len skipped + 1 → actual ≠ claimed → olds (body h) = found ++ claimed :: more →
    Refused n (h :: hs) (skipped ++ found ++ actual :: old) ContextMismatch.

(** What the inner loop finds at the cursor. *)
Definition body_outcome (b : list HunkLine) (found : list str) (cursor : nat) (output : list str)
    (r : result PatchError (nat * list str)) : Prop :=
  match r with
  | Ok r => r = ((cursor + length (olds b))%nat, output ++ news b) ∧ ∃ old, found = olds b ++ old
  | Err e =>
      (∃ missing, e = OutOfRange ∧ missing ≠ [] ∧ olds b = found ++ missing) ∨
      (∃ pre claimed actual more old,
         e = ContextMismatch ∧ actual ≠ claimed ∧ olds b = pre ++ claimed :: more ∧ found = pre ++ actual :: old)
  end.

Lemma olds_cons l b : olds (l :: b) = if is_old l then text_of l :: olds b else olds b.
Proof. by destruct l. Qed.

Lemma news_cons l b : news (l :: b) = if is_new l then text_of l :: news b else news b.
Proof. by destruct l. Qed.

Lemma body_outcome_step b found cursor output r x kept :
  body_outcome b found (S cursor) (output ++ kept) r → ∀ l,
  olds (l :: b) = x :: olds b → news (l :: b) = kept ++ news b →
  body_outcome (l :: b) (x :: found) cursor output r.
Proof.
  unfold body_outcome. intros H l Ho Hn. rewrite Ho, Hn. destruct r as [r|e].
  - destruct H as [-> [old ->]]. rewrite <- app_assoc. split; [f_equal; cbn; lia|by exists old].
  - destruct H as [(m & -> & ? & ->)|(pre & c & a & more & old & -> & ? & -> & ->)]; [left; by exists m|].
    right. by exists (x :: pre), c, a, more, old.
Qed.

Lemma body_outcome_claim lines b cursor output l k :
  is_old l = true →
  (∀ found, drop cursor lines = text_of l :: found → body_outcome (l :: b) (text_of l :: found) cursor output (k (text_of l))) →
  body_outcome (l :: b) (drop cursor lines) cursor output
    (actual ← ok_or OutOfRange (lines !! cursor); if decide (actual = text_of l) then k actual else Err ContextMismatch).
Proof.
  intros Hl Hk. destruct (lines !! cursor) as [a|] eqn:E; cbn [ok_or].
  - apply drop_S in E. rewrite E in *. cbn. destruct (decide _) as [->|Hne]; [by apply Hk|].
    right. exists [], (text_of l), a, (olds b), (drop (S cursor) lines). by rewrite olds_cons, Hl.
  - apply lookup_ge_None in E. rewrite drop_ge by done. cbn. left. exists (olds (l :: b)).
    by rewrite olds_cons, Hl.
Qed.

Lemma apply_body_outcome lines b cursor output :
  body_outcome b (drop cursor lines) cursor output (apply_body lines b cursor output).
Proof.
  assert (∀ x found c, drop c lines = x :: found → drop (S c) lines = found) as Hdrop.
  { intros x found c H. replace (S c) with (c + 1)%nat by lia. by rewrite <- drop_drop, H. }
  revert cursor output. induction b as [|l b IH]; intros cursor output; cbn [apply_body].
  - cbn. rewrite app_nil_r. split; [f_equal; cbn; lia|by eexists].
  - destruct l as [t|t|t].
    + apply (body_outcome_claim _ _ _ _ (ContextLine t) (λ a, apply_body lines b (S cursor) (output ++ [a]))); [done|]. intros found Hf.
      apply (body_outcome_step _ _ _ _ _ _ [t]); [|done|done]. rewrite <- (Hdrop _ _ _ Hf). apply IH.
    + apply (body_outcome_claim _ _ _ _ (Removed t) (λ _, apply_body lines b (S cursor) output)); [done|]. intros found Hf.
      apply (body_outcome_step _ _ _ _ _ _ []); [|done|done].
      rewrite <- (Hdrop _ _ _ Hf), app_nil_r. apply IH.
    + specialize (IH cursor (output ++ [t])). unfold body_outcome in *.
      rewrite olds_cons, news_cons. cbn. destruct (apply_body _ _ _ _) as [r|e]; [|done].
      destruct IH as [-> ?]. by rewrite <- app_assoc.
Qed.

Lemma apply_hunks_outcome lines hs cursor output :
  (cursor ≤ length lines)%nat →
  match apply_hunks lines hs cursor output with
  | Ok r => ∃ new, Applies cursor hs (drop cursor lines) new ∧ r.2 ++ drop r.1 lines = output ++ new
  | Err e => Refused cursor hs (drop cursor lines) e
  end.
Proof.
  revert cursor output. induction hs as [|h hs IH]; intros cursor output Hc; cbn [apply_hunks].
  { exists (drop cursor lines). split; [constructor|done]. }
  destruct (old_start h - 1 <? 0) eqn:E1; boolify; [apply Refused_zero; lia|].
  destruct (_ <? Z.of_nat cursor) eqn:E2; boolify; [apply Refused_order; lia|].
  assert (len (drop cursor lines) = len lines - Z.of_nat cursor) as Hl by (unfold len; rewrite length_drop; lia).
  destruct (len lines <? _) eqn:E3; boolify; [apply Refused_past; lia|].
  set (start := Z.to_nat (old_start h - 1)) in *. set (skipped := take (start - cursor) (drop cursor lines)).
  assert (length skipped = (start - cursor)%nat) as Hs.
  { unfold skipped, len in *. rewrite length_take, length_drop. lia. }
  assert (old_start h = Z.of_nat cursor + len skipped + 1) as Ho by (unfold len; rewrite Hs; lia).
  assert (drop cursor lines = skipped ++ drop start lines) as ->.
  { unfold skipped. rewrite <- (take_drop (start - cursor) (drop cursor lines)) at 1.
    by rewrite drop_drop, Nat.add_comm, Nat.sub_add by lia. }
  pose proof (apply_body_outcome lines (body h) start (output ++ skipped)) as Hb.
  destruct (apply_body _ _ _ _) as [r|e]; cbn.
  - destruct Hb as [-> [old Hold]]. cbn [fst snd].
    assert (drop (start + length (olds (body h))) lines = old) as Hd.
    { rewrite <- drop_drop, Hold. by rewrite drop_app_length. }
    assert (length (drop start lines) = (length lines - start)%nat) as Hlen by apply length_drop.
    rewrite Hold, length_app in Hlen.
    replace (start + length (olds (body h)))%nat with (cursor + length skipped + length (olds (body h)))%nat in * by lia.
    specialize (IH (cursor + length skipped + length (olds (body h)))%nat ((output ++ skipped) ++ news (body h))).
    rewrite Hd in IH. rewrite Hold. unfold len in *.
    destruct (apply_hunks _ _ _ _) as [r|e]; [destruct IH as (new & Ha & Hr); [lia|]|].
    + exists (skipped ++ news (body h) ++ new). split; [by constructor|]. by rewrite Hr, !app_assoc.
    + apply Refused_later; [done|]. apply IH. lia.
  - destruct Hb as [(m & -> & Hm & Hf)|(pre & c & a & more & old & -> & ? & Hf & ->)].
    + by eapply Refused_short.
    + by eapply Refused_mismatch.
Qed.

(** The outcome of the inner loop is determined by what it finds. *)
Lemma body_outcome_det b found cursor output r r' :
  body_outcome b found cursor output r → body_outcome b found cursor output r' → r = r'.
Proof.
  assert (∀ (pre : list str) c a m o, c ≠ a → (∃ t, pre ++ a :: o = (pre ++ c :: m) ++ t) → False) as Hclash.
  { intros pre c a m o Hne [t Ht]. rewrite <- app_assoc in Ht. apply (inj (pre ++.)) in Ht. injection Ht as Ha _. congruence. }
  unfold body_outcome. destruct r as [r|e], r' as [r'|e']; intros H H'.
  - destruct H as [-> _], H' as [-> _]. done.
  - destruct H as [_ [old ->]]. exfalso.
    destruct H' as [(m & _ & Hm & Hb)|(pre & c & a & more & o & _ & Hne & Hb & Hf)].
    + apply (f_equal length) in Hb. rewrite !length_app in Hb. destruct m; [done|cbn in Hb; lia].
    + rewrite Hb in Hf. by eapply (Hclash pre c a more o); [|exists old].
  - destruct H' as [_ [old ->]]. exfalso.
    destruct H as [(m & _ & Hm & Hb)|(pre & c & a & more & o & _ & Hne & Hb & Hf)].
    + apply (f_equal length) in Hb. rewrite !length_app in Hb. destruct m; [done|cbn in Hb; lia].
    + rewrite Hb in Hf. by eapply (Hclash pre c a more o); [|exists old].
  - destruct H as [(m & -> & Hm & Hb)|(pre & c & a & more & o & -> & Hne & Hb & Hf)],
      H' as [(m' & -> & Hm' & Hb')|(pre' & c' & a' & more' & o' & -> & Hne' & Hb' & Hf')]; try done; exfalso.
    + rewrite Hf', Hb' in Hb. by eapply (Hclash pre' a' c' o' more'); [|exists m].
    + rewrite Hf, Hb in Hb'. by eapply (Hclash pre a c o more); [|exists m'].
Qed.

(** A hunk that starts after [skipped] runs its body there. *)
Lemma apply_hunks_at lines h hs cursor output skipped found :
  old_start h = Z.of_nat cursor + len skipped + 1 → drop cursor lines = skipped ++ found →
  (cursor ≤ length lines)%nat →
  apply_hunks lines (h :: hs) cursor output =
    (r ← apply_body lines (body h) (cursor + length skipped) (output ++ skipped); apply_hunks lines hs r.1 r.2) ∧
  drop (cursor + length skipped) lines = found ∧ (cursor + length skipped + length found = length lines)%nat.
Proof.
  intros Ho Hd Hc. pose proof (f_equal length Hd) as Hl. rewrite length_drop, length_app in Hl.
  unfold len in Ho. split_and!; [|by rewrite <- drop_drop, Hd, drop_app_length|lia].
  cbn [apply_hunks]. unfold len.
  destruct (_ <? 0) eqn:E1; boolify; [lia|]. destruct (_ <? Z.of_nat cursor) eqn:E2; boolify; [lia|].
  destruct (_ <? _) eqn:E3; boolify; [lia|].
  replace (Z.to_nat (old_start h - 1)) with (cursor + length skipped)%nat by lia.
  replace (cursor + length skipped - cursor)%nat with (length skipped) by lia.
  by rewrite Hd, take_app_length.
Qed.

Lemma Applies_complete lines n hs old new output :
  Applies n hs old new → drop n lines = old → (n ≤ length lines)%nat →
  ∃ r, apply_hunks lines hs n output = Ok r ∧ r.2 ++ drop r.1 lines = output ++ new.
Proof.
  intros Ha. revert output. induction Ha as [n rest|n h hs skipped old new Ho Ha IH]; intros output Hd Hn.
  { exists (n, output). cbn. by rewrite Hd. }
  destruct (apply_hunks_at lines h hs n output _ _ Ho Hd Hn) as (-> & Hf & Hl). rewrite length_app in Hl.
  pose proof (apply_body_outcome lines (body h) (n + length skipped) (output ++ skipped)) as Hb.
  rewrite Hf in Hb.
  apply (body_outcome_det _ _ _ _ (Ok ((n + length skipped + length (olds (body h)))%nat, (output ++ skipped) ++ news (body h)))) in Hb as <-; [|by split; [done|exists old]]. cbn [mbind result_bind fst snd].
  destruct (IH ((output ++ skipped) ++ news (body h))) as (r & -> & Hr); [|lia|].
  { by rewrite <- drop_drop, Hf, drop_app_length. }
  exists r. by rewrite Hr, !app_assoc.
Qed.

Lemma Refused_complete lines n hs old e output :
  Refused n hs old e → drop n lines = old → (n ≤ length lines)%nat → apply_hunks lines hs n output = Err e.
Proof.
  intros Hr. revert output.
  induction Hr as [n h hs skipped old e Ho Hr IH| | | |n h hs skipped found missing Ho Hm Hb
                  |n h hs skipped found claimed actual more old Ho Hne Hb]; intros output Hd Hn;
    try (assert (len old = len lines - Z.of_nat n) by (rewrite <- Hd; unfold len; rewrite length_drop; lia);
         pose proof (len_nonneg old); cbn [apply_hunks]; repeat (case_match; boolify; try lia); done).
  - destruct (apply_hunks_at lines h hs n output _ _ Ho Hd Hn) as (-> & Hf & Hl). rewrite length_app in Hl.
    pose proof (apply_body_outcome lines (body h) (n + length skipped) (output ++ skipped)) as Hb.
    rewrite Hf in Hb. apply (body_outcome_det _ _ _ _ (Ok ((n + length skipped + length (olds (body h)))%nat, (output ++ skipped) ++ news (body h)))) in Hb as <-; [|by split; [done|exists old]].
    cbn [mbind result_bind fst snd]. apply IH; [|lia]. by rewrite <- drop_drop, Hf, drop_app_length.
  - destruct (apply_hunks_at lines h hs n output _ _ Ho Hd Hn) as (-> & Hf & _).
    pose proof (apply_body_outcome lines (body h) (n + length skipped) (output ++ skipped)) as Hr.
    rewrite Hf in Hr. apply (body_outcome_det _ _ _ _ (Err OutOfRange)) in Hr as <-; [done|].
    left. by exists missing.
  - destruct (apply_hunks_at lines h hs n output _ _ Ho Hd Hn) as (-> & Hf & _).
    pose proof (apply_body_outcome lines (body h) (n + length skipped) (output ++ skipped)) as Hr.
    rewrite Hf in Hr. apply (body_outcome_det _ _ _ _ (Err ContextMismatch)) in Hr as <-; [done|].
    right. by exists found, claimed, actual, more, old.
Qed.

Lemma patch_meaning_iff (p : UnifiedPatch) (original s : str) :
  apply p original = Ok s ↔
  ∃ new, Applies 0 (hunks p) (file_lines original) new ∧
    s = render (ending_of original) (ends_with [NEWLINE] original) new.
Proof.
  unfold apply. pose proof (apply_hunks_outcome (file_lines original) (hunks p) 0 [] ltac:(lia)) as Ho.
  rewrite drop_0 in Ho. split.
  - intros (r & Hr & [= <-])%bind_Ok. rewrite Hr in Ho. destruct Ho as (new & Ha & ->). by exists new.
  - intros (new & Ha & ->). eapply (Applies_complete (file_lines original)) in Ha as (r & -> & Hr); [|done|lia].
    cbn. by rewrite Hr.
Qed.

(** *** Files as lines

    What [file_lines] and [render] mean, said of the text itself. *)

(** A line with the carriage return at its end taken off. *)
Inductive Bare : str → str → Prop :=
| Bare_cr l : Bare (l ++ [RETURN]) l
| Bare_plain l : last l ≠ Some RETURN → Bare l l.

Definition no_newline (raw : str) : Prop := Forall (λ c, c ≠ NEWLINE) raw.

(** [Rows text lines fin]: [text] is made of [lines], each ended by a line feed,
    which the last one has exactly when [fin]. *)
Inductive Rows : str → list str → bool → Prop :=
| Rows_none : Rows [] [] false
| Rows_open raw l : raw ≠ [] → no_newline raw → Bare raw l → Rows raw [l] false
| Rows_ended raw l : no_newline raw → Bare raw l → Rows (raw ++ [NEWLINE]) [l] true
| Rows_cons raw l text lines fin :
    no_newline raw → Bare raw l → text ≠ [] → Rows text lines fin → Rows (raw ++ NEWLINE :: text) (l :: lines) fin.

(** The terminator that is written: CRLF as soon as the file has one. *)
Definition Terminator (original e : str) : Prop :=
  (∃ a b, original = a ++ [RETURN; NEWLINE] ++ b) ∧ e = [RETURN; NEWLINE] ∨
  (¬ ∃ a b, original = a ++ [RETURN; NEWLINE] ++ b) ∧ e = [NEWLINE].

(** [lines] written out: the terminator [e] after each of them, after the last one
    exactly when [fin]; nothing at all for no line and for a single empty one. *)
Definition Written (e : str) (fin : bool) (lines : list str) (s : str) : Prop :=
  (lines = [] ∨ lines = [[]]) ∧ s = [] ∨
  lines ≠ [[]] ∧ ∃ front l, lines = front ++ [l] ∧
    s = concat ((λ x, x ++ e) <$> front) ++ l ++ (if fin then e else []).

Lemma Bare_strip_cr raw l : Bare raw l → strip_cr raw = l.
Proof.
  unfold strip_cr. intros [l'|l' Hl].
  - by rewrite (proj2 (strip_suffix_Some [RETURN] (l' ++ [RETURN]) l')).
  - destruct (strip_suffix [RETURN] l') as [t|] eqn:E; [|done]. apply strip_suffix_Some in E as ->.
    by rewrite last_snoc in Hl.
Qed.

Lemma strip_cr_Bare raw : Bare raw (strip_cr raw).
Proof.
  destruct (strip_suffix [RETURN] raw) as [t|] eqn:E.
  - apply strip_suffix_Some in E as ->. rewrite (Bare_strip_cr _ t) by constructor. constructor.
  - unfold strip_cr. rewrite E. change (default raw None) with raw. apply Bare_plain. intros [t ->]%last_Some.
    by rewrite (proj2 (strip_suffix_Some [RETURN] (t ++ [RETURN]) t)) in E.
Qed.

Lemma Rows_total text : ∃ lines fin, Rows text lines fin.
Proof.
  induction text as [|c text (lines & fin & IH)]; [exists [], false; constructor|].
  destruct (decide (c = NEWLINE)) as [->|Hc].
  - destruct (decide (text = [])) as [->|Hne].
    + exists [[]], true. apply (Rows_ended [] []); [constructor|by constructor].
    + exists ([] :: lines), fin. apply (Rows_cons [] []); [constructor|by constructor|done|done].
  - assert (∀ raw, no_newline raw → no_newline (c :: raw)) as Hn by (intros; by constructor).
    destruct IH as [|raw l Hne Hraw _|raw l Hraw _|raw l text lines fin Hraw _ Hne IH].
    + exists [strip_cr [c]], false. apply Rows_open; [done|apply Hn; constructor|apply strip_cr_Bare].
    + exists [strip_cr (c :: raw)], false. apply Rows_open; [done|by apply Hn|apply strip_cr_Bare].
    + exists [strip_cr (c :: raw)], true. apply (Rows_ended (c :: raw)); [by apply Hn|apply strip_cr_Bare].
    + exists (strip_cr (c :: raw) :: lines), fin.
      apply (Rows_cons (c :: raw)); [by apply Hn|apply strip_cr_Bare|done|done].
Qed.

Lemma no_newline_sep raw : no_newline raw → Forall (λ c, (NEWLINE =? c) = false) raw.
Proof. intros H. eapply Forall_impl; [exact H|]. intros c Hc. apply Z.eqb_neq. congruence. Qed.

Lemma ends_newline s c : ends_with [NEWLINE] (s ++ [c]) = bool_decide (c = NEWLINE).
Proof.
  case_bool_decide as Hc.
  - subst c. apply ends_with_true. by exists s.
  - destruct (ends_with _ _) eqn:E; [|done]. apply ends_with_true in E as [t Ht]. by apply app_inj_2 in Ht as [_ [= ->]].
Qed.

Lemma ends_newline_cons s c text : text ≠ [] → ends_with [NEWLINE] (s ++ c :: text) = ends_with [NEWLINE] text.
Proof.
  intros Hne. destruct text as [|d text _] using rev_ind; [done|].
  change (s ++ c :: text ++ [d]) with (s ++ (c :: text) ++ [d]). by rewrite app_assoc, !ends_newline.
Qed.

Lemma file_lines_cons raw text :
  no_newline raw → text ≠ [] → file_lines (raw ++ NEWLINE :: text) = strip_cr raw :: file_lines text.
Proof.
  intros Hraw Hne. unfold file_lines. rewrite decide_False by by destruct raw. rewrite (decide_False _ _ Hne).
  rewrite ends_newline_cons by done. rewrite split_app by (done || by apply no_newline_sep). cbn [fmap list_fmap].
  assert (strip_cr <$> split (Z.eqb NEWLINE) text ≠ []) as Hs.
  { pose proof (split_loop_length (Z.eqb NEWLINE) text []) as Hl. fold (split (Z.eqb NEWLINE) text) in Hl.
    intros H%fmap_nil_inv. rewrite H in Hl. cbn in Hl. lia. }
  destruct (ends_with [NEWLINE] text); cbn [andb]; [|done]. rewrite !bool_decide_eq_true_2 by done.
  set (l := strip_cr <$> split _ text) in *. change (strip_cr <$> split (Z.eqb NEWLINE) text) with l.
  destruct l; [done|]. cbn. by rewrite Nat.sub_0_r.
Qed.

Lemma Rows_file_lines text lines fin :
  Rows text lines fin → lines = file_lines text ∧ fin = ends_with [NEWLINE] text.
Proof.
  induction 1 as [|raw l Hne Hraw Hb|raw l Hraw Hb|raw l text lines fin Hraw Hb Hne _ [-> ->]]; [done|..].
  - apply Bare_strip_cr in Hb as <-. pose proof Hraw as Hr.
    assert (ends_with [NEWLINE] raw = false) as He.
    { destruct raw as [|c raw _] using rev_ind; [done|]. rewrite ends_newline. apply bool_decide_eq_false.
      apply Forall_app in Hr as [_ Hr]. by apply Forall_inv in Hr. }
    unfold file_lines. rewrite He, (decide_False _ _ Hne). unfold split.
    by rewrite split_loop_sep_free by by apply no_newline_sep.
  - apply Bare_strip_cr in Hb as <-. rewrite ends_newline, bool_decide_eq_true_2 by done. split; [|done].
    unfold file_lines. rewrite decide_False by by destruct raw. rewrite ends_newline, bool_decide_eq_true_2 by done.
    rewrite split_app by (done || by apply no_newline_sep). done.
  - apply Bare_strip_cr in Hb as <-. by rewrite file_lines_cons, ends_newline_cons.
Qed.

Lemma file_lines_Rows text : Rows text (file_lines text) (ends_with [NEWLINE] text).
Proof. destruct (Rows_total text) as (lines & fin & H). by destruct (Rows_file_lines _ _ _ H) as [<- <-]. Qed.

Lemma ending_Terminator original e : Terminator original e ↔ e = ending_str (ending_of original).
Proof.
  unfold Terminator, ending_of. destruct (find_str [RETURN; NEWLINE] original) as [[a b]|] eqn:E; cbn [ending_str].
  - apply find_str_Some in E. naive_solver.
  - assert (¬ ∃ a b, original = a ++ [RETURN; NEWLINE] ++ b) as Hno by (intros (a & b & H); by eapply find_str_None in E).
    naive_solver.
Qed.

Lemma join_snoc e front l : join e (front ++ [l]) = concat ((λ x, x ++ e) <$> front) ++ l.
Proof.
  induction front as [|x front IH]; [done|]. cbn [app fmap list_fmap concat]. rewrite <- app_assoc, <- app_assoc, <- IH.
  by destruct front.
Qed.

Lemma render_Written e fin lines s : Written (ending_str e) fin lines s ↔ s = render e fin lines.
Proof.
  destruct lines as [|l front _] using rev_ind.
  { cbn. unfold render. cbn. rewrite andb_false_r. split; [|by intros ->; left; split; [left|]].
    intros [[_ ->]|[_ (front & l & H & _)]]; [done|]. by destruct front. }
  unfold render. rewrite join_snoc. set (head := concat _).
  assert (head ++ l = [] ↔ front ++ [l] = [[]]) as Hempty.
  { subst head. destruct front as [|x front]; cbn [fmap list_fmap concat app].
    - split; [by intros ->|by intros [= ->]].
    - split; [|by destruct front]. rewrite <- !app_assoc. intros [_ H]%app_eq_nil. by destruct e. }
  assert (Written (ending_str e) fin (front ++ [l]) s ↔
    front ++ [l] = [[]] ∧ s = [] ∨ front ++ [l] ≠ [[]] ∧ s = head ++ l ++ (if fin then ending_str e else [])) as ->.
  { unfold Written. split.
    - intros [[[H|H] ->]|[Hne (front' & l' & Heq & ->)]]; [by destruct front|by left|right].
      apply app_inj_2 in Heq as [<- [= <-]]; done.
    - intros [[H ->]|[Hne ->]]; [left; auto|right; eauto]. }
  rewrite app_assoc. case_bool_decide as Hj.
  - rewrite andb_true_r. assert (front ++ [l] ≠ [[]]) by (by intros ?%Hempty). destruct fin; rewrite ?app_nil_r; naive_solver.
  - rewrite andb_false_r. assert (front ++ [l] = [[]]) by by apply Hempty. rewrite Hj. naive_solver.
Qed.

(** A patch is refused by its first hunk that does not fit, and for the reason
    that hunk has: it names line zero or a line past the end, it starts before
    the end of the previous hunk, the file ends inside it, or a line it claims
    differs from the file's. *)
Theorem patch_refusals (p : UnifiedPatch) (original : str) (e : PatchError) :
  apply p original = Err e ↔ Refused 0 (hunks p) (file_lines original) e.
Proof.
  unfold apply. pose proof (apply_hunks_outcome (file_lines original) (hunks p) 0 [] ltac:(lia)) as Ho.
  rewrite drop_0 in Ho. split.
  - destruct (apply_hunks _ _ _ _) as [r|e']; [done|]. by intros [= <-].
  - intros Hr. by erewrite Refused_complete; [|exact Hr|done|lia].
Qed.

(** C28. Application is splicing: take the file as its lines, each without its line
    feed and one carriage return at its end. A patch applies exactly when its hunks can
    be spliced into them in order, each finding the lines it claims at the place it
    names, and the result is the new lines written out, each followed by CRLF if the
    file had a CRLF anywhere and by a line feed otherwise, the last one exactly if the
    file ended with a line feed; only a result of one empty line is written as an
    empty file (Example last_blank_line_lost), like one of no lines. Otherwise it is
    refused with the reason of the first hunk that does not fit. *)
Theorem patch_meaning (p : UnifiedPatch) (original : str) :
  (∀ s, apply p original = Ok s ↔
     ∃ old fin e new, Rows original old fin ∧ Terminator original e ∧ Applies 0 (hunks p) old new ∧ Written e fin new s) ∧
  (∀ err, apply p original = Err err ↔ ∃ old fin, Rows original old fin ∧ Refused 0 (hunks p) old err).
Proof.
  pose proof (file_lines_Rows original) as Hrows. split.
  - intros s. rewrite patch_meaning_iff. split.
    + intros (new & Ha & Hs%render_Written). eexists _, _, _, new. split_and!; [exact Hrows|by apply ending_Terminator|done|done].
    + intros (old & fin & e & new & [-> ->]%Rows_file_lines & ->%ending_Terminator & Ha & ->%render_Written). by exists new.
  - intros err. rewrite patch_refusals. split; [by eauto|]. by intros (old & fin & [-> ->]%Rows_file_lines & Hr).
Qed.

(** ** Undoing *)

Definition flip (l : HunkLine) : HunkLine :=
  match l with ContextLine t => ContextLine t | Removed t => Added t | Added t => Removed t end.

(** The patch from the new file to the old one: sides exchanged, and each hunk
    moved by what the hunks before it added. *)
Fixpoint invert_hunks (delta : Z) (hs : list Hunk) : list Hunk :=
  match hs with
  | [] => []
  | h :: hs =>
      mkHunk (old_start h + delta) (new_count h) (old_count h) (flip <$> body h)
      :: invert_hunks (delta + new_count h - old_count h) hs
  end.

Definition invert (p : UnifiedPatch) : UnifiedPatch := mkPatch (invert_hunks 0 (hunks p)).

Lemma olds_flip b : olds (flip <$> b) = news b.
Proof. induction b as [|l b IH]; [done|]. rewrite fmap_cons, olds_cons, news_cons, IH. by destruct l. Qed.

Lemma news_flip b : news (flip <$> b) = olds b.
Proof. induction b as [|l b IH]; [done|]. rewrite fmap_cons, olds_cons, news_cons, IH. by destruct l. Qed.

Lemma counts_ok_spec h : counts_ok h = true ↔ len (olds (body h)) = old_count h ∧ len (news (body h)) = new_count h.
Proof.
  unfold counts_ok, olds, news, len. rewrite andb_true_iff, !Z.eqb_eq, !length_fmap. done.
Qed.

Lemma Applies_invert n m hs old new :
  Applies n hs old new → Forall (λ h, counts_ok h = true) hs →
  Applies m (invert_hunks (Z.of_nat m - Z.of_nat n) hs) new old.
Proof.
  intros Ha. revert m. induction Ha as [n rest|n h hs skipped old new Ho Ha IH]; intros m Hf; [constructor|].
  apply Forall_cons in Hf as [[Hold Hnew]%counts_ok_spec Hf]. cbn [invert_hunks].
  pose proof (Applies_hunk m (mkHunk (old_start h + (Z.of_nat m - Z.of_nat n)) (new_count h) (old_count h)
    (flip <$> body h)) (invert_hunks (Z.of_nat m - Z.of_nat n + new_count h - old_count h) hs) skipped new old) as Hh.
  cbn [old_start body] in Hh. rewrite olds_flip, news_flip in Hh.
  unfold len in *. apply Hh; [lia|].
  specialize (IH (m + length skipped + length (news (body h)))%nat Hf).
  by replace (Z.of_nat m - Z.of_nat n + new_count h - old_count h)
    with (Z.of_nat (m + length skipped + length (news (body h)))
          - Z.of_nat (n + length skipped + length (olds (body h)))) by lia.
Qed.

Lemma Applies_Forall P n hs old new :
  Applies n hs old new → Forall P old → Forall (λ h, Forall P (news (body h))) hs → Forall P new.
Proof.
  induction 1 as [|n h hs skipped old new Ho Ha IH]; intros Hold Hh; [done|].
  apply Forall_cons in Hh as [Hh Hhs]. rewrite !Forall_app in *. naive_solver.
Qed.

(** *** Text and lines *)

(** A line that a file with this terminator can hold. *)
Definition line_ok (e : LineEnding) (l : str) : Prop :=
  Forall (λ c, (NEWLINE =? c) = false) l ∧ (e = Lf → ends_with [RETURN] l = false).

Definition cr (e : LineEnding) : str := match e with Lf => [] | Crlf => [RETURN] end.

Lemma ending_cr e : ending_str e = cr e ++ [NEWLINE].
Proof. by destruct e. Qed.

(** Every line with its terminator. *)
Definition terminated (e : LineEnding) (lines : list str) : str := concat ((λ l, l ++ ending_str e) <$> lines).

Lemma join_terminated e lines : lines ≠ [] → join (ending_str e) lines ++ ending_str e = terminated e lines.
Proof.
  induction lines as [|l lines IH]; [done|]. intros _. unfold terminated in *. rewrite fmap_cons. cbn [concat].
  destruct lines as [|l' lines]; [by rewrite app_nil_r|]. rewrite <- IH by done.
  change (join (ending_str e) (l :: l' :: lines)) with (l ++ ending_str e ++ join (ending_str e) (l' :: lines)).
  by rewrite <- !app_assoc.
Qed.

Lemma render_terminated e lines :
  render e true lines ≠ [] → render e true lines = terminated e lines ∧ lines ≠ [].
Proof.
  unfold render. cbn [andb]. intros H. case_bool_decide as Hj; [|done].
  assert (lines ≠ []) by (by intros ->). by rewrite join_terminated.
Qed.

Lemma strip_cr_line e l : line_ok e l → strip_cr (l ++ cr e) = l.
Proof.
  intros [_ Hl]. unfold strip_cr. destruct e; cbn [cr].
  - rewrite app_nil_r. specialize (Hl eq_refl). unfold ends_with in Hl.
    apply bool_decide_eq_false in Hl. by rewrite (proj2 (eq_None_not_Some _) Hl).
  - by rewrite (proj2 (strip_suffix_Some [RETURN] (l ++ [RETURN]) l)).
Qed.

Lemma split_terminated e lines :
  Forall (line_ok e) lines → split (Z.eqb NEWLINE) (terminated e lines) = ((λ l, l ++ cr e) <$> lines) ++ [[]].
Proof.
  induction 1 as [|l lines Hl Hf IH]; [done|]. unfold terminated in *. rewrite !fmap_cons. cbn [concat app].
  rewrite ending_cr, <- IH. replace ((l ++ cr e ++ [NEWLINE]) ++ _) with ((l ++ cr e) ++ NEWLINE :: concat ((λ l, l ++ ending_str e) <$> lines)).
  - apply split_app; [|done]. apply Forall_app. split; [apply Hl|]. destruct e; cbn; by repeat constructor.
  - rewrite <- ending_cr. by rewrite !ending_cr, <- !app_assoc.
Qed.

Lemma terminated_ends e lines : lines ≠ [] → ∃ t, terminated e lines = t ++ [NEWLINE].
Proof.
  intros Hne. rewrite <- join_terminated, ending_cr, app_assoc by done. by eexists.
Qed.

Lemma file_lines_terminated e lines :
  Forall (line_ok e) lines → lines ≠ [] → file_lines (terminated e lines) = lines.
Proof.
  intros Hf Hne. destruct (terminated_ends e lines Hne) as [t Ht]. unfold file_lines.
  rewrite decide_False by (rewrite Ht; by destruct t).
  rewrite (proj2 (ends_with_true _ _)) by (rewrite Ht; by eexists).
  rewrite split_terminated, fmap_app, <- list_fmap_compose by done.
  rewrite bool_decide_true by (by destruct lines). cbn [andb].
  rewrite length_app. cbn [fmap list_fmap length]. rewrite Nat.add_sub.
  rewrite take_app_length. rewrite <- (list_fmap_id lines) at 2. apply list_fmap_ext.
  intros i l Hi. apply strip_cr_line. by eapply Forall_lookup_1.
Qed.

(** A carriage return before a newline of an LF text ends one of its lines. *)
Lemma terminated_crlf lines a b :
  Forall (λ l, Forall (λ c, (NEWLINE =? c) = false) l) lines →
  terminated Lf lines = a ++ [RETURN; NEWLINE] ++ b → ∃ l, l ∈ lines ∧ ends_with [RETURN] l = true.
Proof.
  intros Hf. revert a. induction Hf as [|l lines Hl Hf IH]; intros a.
  { unfold terminated. cbn. by destruct a. }
  unfold terminated in *. rewrite fmap_cons. cbn [concat ending_str]. rewrite <- app_assoc. intros Heq.
  apply app_eq_inv in Heq as [(k & -> & Hk)|(k & -> & Hk)]; cbn in Hk.
  - destruct k as [|r k]; [done|]. injection Hk as <- Hk. exists (a ++ RETURN :: k).
    split; [by left|]. destruct k as [|x k]; [apply ends_with_true; by exists a|].
    injection Hk as <- Hk. apply Forall_app in Hl as [_ Hl]. repeat (apply Forall_cons in Hl as [? Hl]). done.
  - destruct k as [|x k]; [done|]. injection Hk as <- Hk.
    destruct (IH k Hk) as (l' & ? & ?). exists l'. split; [by right|done].
Qed.

Lemma terminated_elem e lines l : l ∈ lines → ∃ a b, terminated e lines = a ++ l ++ ending_str e ++ b.
Proof.
  intros (i & Hi)%list_elem_of_lookup. unfold terminated. rewrite <- (take_drop_middle _ _ _ Hi).
  rewrite fmap_app, concat_app, fmap_cons. cbn [concat]. rewrite <- !app_assoc. by eexists _, _.
Qed.

Lemma ending_of_terminated e lines :
  Forall (line_ok e) lines → lines ≠ [] → ending_of (terminated e lines) = e.
Proof.
  intros Hf Hne. unfold ending_of. destruct (find_str _ _) as [[a b]|] eqn:E; destruct e; try done; exfalso.
  - apply find_str_Some, terminated_crlf in E as (l & Hl & Hr).
    + rewrite Forall_forall in Hf. destruct (Hf _ Hl) as [_ Hn]. by rewrite (Hn eq_refl) in Hr.
    + eapply Forall_impl; [exact Hf|]. by intros ? [].
  - destruct lines as [|l lines]; [done|]. destruct (terminated_elem Crlf (l :: lines) l) as (a & b & Hab); [by left|].
    cbn [ending_str] in Hab. rewrite app_assoc in Hab. by eapply find_str_None in E.
Qed.

Lemma file_lines_newline_free original :
  Forall (λ l, Forall (λ c, (NEWLINE =? c) = false) l) (file_lines original).
Proof.
  assert (Forall (λ l, Forall (λ c, (NEWLINE =? c) = false) l) (strip_cr <$> split (Z.eqb NEWLINE) original)) as H.
  { apply Forall_fmap. eapply Forall_impl; [apply split_no_sep|]. intros l Hl. unfold compose, strip_cr.
    destruct (strip_suffix [RETURN] l) as [t|] eqn:E; [|done].
    apply strip_suffix_Some in E as ->. by apply Forall_app in Hl as []. }
  unfold file_lines. destruct (decide (original = [])); [|destruct (_ && _)].
  - destruct (_ && _); constructor.
  - by apply Forall_take.
  - done.
Qed.

(** A text whose lines all end with the one terminator it is read with. *)
Definition uniform (original : str) : Prop :=
  ends_with [NEWLINE] original = true ∧
  render (ending_of original) true (file_lines original) = original.

Lemma uniform_terminated original :
  uniform original →
  terminated (ending_of original) (file_lines original) = original ∧ file_lines original ≠ [] ∧
  Forall (line_ok (ending_of original)) (file_lines original).
Proof.
  intros [Hn Hr]. destruct (render_terminated (ending_of original) (file_lines original)) as [Ht Hne].
  { rewrite Hr. by intros ->. }
  rewrite Hr in Ht. split_and!; [done|done|].
  apply Forall_forall. intros l Hl. split.
  { pose proof (file_lines_newline_free original) as Hf. rewrite Forall_forall in Hf. by apply Hf. }
  intros He. destruct (ends_with [RETURN] l) eqn:E; [|done]. apply ends_with_true in E as [t ->].
  destruct (terminated_elem (ending_of original) _ _ Hl) as (a & b & Hab). rewrite <- Ht in Hab.
  rewrite He in Hab. unfold ending_of in He. destruct (find_str _ _) eqn:E; [done|].
  cbn [ending_str] in Hab. exfalso.
  apply (find_str_None _ _ (a ++ t) b E). by rewrite Hab, <- !app_assoc.
Qed.

Lemma terminated_uniform e lines :
  Forall (line_ok e) lines → render e true lines ≠ [] → uniform (render e true lines).
Proof.
  intros Hf Hne. destruct (render_terminated _ _ Hne) as [Ht Hl]. split.
  - apply ends_with_true. rewrite Ht. by apply terminated_ends.
  - by rewrite Ht, ending_of_terminated, file_lines_terminated, <- Ht by done.
Qed.

(** An applied patch can be undone: on a file with one kind of line terminator
    throughout, when the patch leaves some text, the inverse patch (sides
    exchanged, starts shifted) applies to the result and restores the file byte
    for byte. *)
Theorem patch_undo (p : UnifiedPatch) (original s : str) :
  uniform original →
  Forall (λ h, counts_ok h = true ∧ Forall (line_ok (ending_of original)) (news (body h))) (hunks p) →
  apply p original = Ok s → s ≠ [] →
  apply (invert p) s = Ok original.
Proof.
  intros Hu Hp (new & Ha & ->)%patch_meaning_iff Hne.
  pose proof Hu as [Hn Hr]. rewrite Hn in *.
  destruct (uniform_terminated _ Hu) as (_ & _ & Hok).
  assert (Forall (line_ok (ending_of original)) new) as Hnew.
  { eapply Applies_Forall; [exact Ha|done|]. eapply Forall_impl; [exact Hp|]. by intros ? []. }
  destruct (render_terminated _ _ Hne) as [Ht Hl]. apply patch_meaning_iff. exists (file_lines original).
  destruct (terminated_uniform _ _ Hnew Hne) as [-> _].
  rewrite Ht, ending_of_terminated, file_lines_terminated by done. split; [|done].
  apply (Applies_invert 0 0); [done|]. eapply Forall_impl; [exact Hp|]. by intros ? [].
Qed.

(** ** Printing a diff *)

Definition print_line (l : HunkLine) : str :=
  match l with ContextLine t => SPACE :: t | Removed t => DASH :: t | Added t => PLUS :: t end.

(** An insertion names the line before it. *)
Definition printed_start (h : Hunk) : Z := if old_count h =? 0 then old_start h - 1 else old_start h.

Definition print_range (start count : Z) : str := dec start ++ COMMA :: dec count.

Definition print_header (h : Hunk) : str :=
  chars "@@" ++ (SPACE :: ((DASH :: print_range (printed_start h) (old_count h)) ++ SPACE ::
    (PLUS :: print_range (old_start h) (new_count h))) ++ [SPACE]) ++ chars "@@".

Definition print_hunk (h : Hunk) : list str := print_header h :: (print_line <$> body h).

Definition print_patch (path : str) (p : UnifiedPatch) : str :=
  terminated Lf ([chars "--- a/" ++ path; chars "+++ b/" ++ path] ++ concat (print_hunk <$> hunks p)).

(** A line that the format can carry: one line of text that does not read as a
    file header. *)
Definition printable (l : HunkLine) : bool :=
  all (λ c, negb (NEWLINE =? c)) (print_line l) && negb (ends_with [RETURN] (print_line l))
  && negb (starts_with (chars "--- ") (print_line l)) && negb (starts_with (chars "+++ ") (print_line l)).

Record wf_hunk (h : Hunk) : Prop := {
  wf_start : 1 ≤ old_start h ≤ u64_max;
  wf_counts : counts_ok h = true;
  wf_old : old_count h ≤ u64_max;
  wf_new : new_count h ≤ u64_max;
  wf_body : Forall (λ l, printable l = true) (body h);
}.

(** A path that a header can carry. *)
Definition wf_path (path : str) : bool :=
  all (λ c, negb (c =? TAB) && negb (c =? NEWLINE) && negb (c =? BACKSLASH)) path
  && match reverse path with c :: _ => negb (is_whitespace c) | [] => true end.

Lemma parse_print_range s c :
  0 ≤ s ≤ u64_max → 0 ≤ c ≤ u64_max → parse_range (print_range s c) = Ok (s, c).
Proof.
  intros Hs Hc. destruct (dec_digits s Hs) as (Hd & _ & Hp), (dec_digits c Hc) as (_ & _ & Hp').
  unfold parse_range, print_range. rewrite split_once_first; [|eapply Forall_impl; [exact Hd|]|done].
  - cbn -[dec parse_usize]. rewrite Hp. cbn -[dec parse_usize]. by rewrite Hp'.
  - intros x Hx. unfold COMMA. cbn beta in *. lia.
Qed.

(** What a range is made of. *)
Lemma print_range_chars s c :
  0 ≤ s ≤ u64_max → 0 ≤ c ≤ u64_max →
  Forall (λ x, 48 ≤ x ≤ 57 ∨ x = COMMA) (print_range s c) ∧ (∃ d t, print_range s c = t ++ [d] ∧ 48 ≤ d ≤ 57).
Proof.
  intros Hs Hc. destruct (dec_digits s Hs) as (Hd & _ & _), (dec_digits c Hc) as (Hd' & Hne & _).
  unfold print_range. split.
  - apply Forall_app. split; [eapply Forall_impl; [exact Hd|by left]|].
    constructor; [by right|]. eapply Forall_impl; [exact Hd'|by left].
  - destruct (exists_last Hne) as (t & d & Ht). exists d, (dec s ++ COMMA :: t). rewrite Ht in *.
    split; [by rewrite <- app_assoc|]. by apply Forall_app in Hd' as [_ [Hd' _]%Forall_cons].
Qed.

Lemma digit_not_whitespace d : 48 ≤ d ≤ 57 → is_whitespace d = false.
Proof. intros Hd. unfold is_whitespace. lia. Qed.

Lemma wf_ranges h :
  wf_hunk h → 0 ≤ printed_start h ≤ u64_max ∧ 0 ≤ old_count h ≤ u64_max ∧
  0 ≤ old_start h ≤ u64_max ∧ 0 ≤ new_count h ≤ u64_max.
Proof.
  intros [Hs [Ho Hn]%counts_ok_spec Hoc Hnc _]. unfold printed_start.
  pose proof (len_nonneg (olds (body h))). pose proof (len_nonneg (news (body h))).
  destruct (_ =? 0); lia.
Qed.

(** The inner part of a header has no sign of its end, and stands alone between
    its spaces. *)
Lemma header_ranges h :
  wf_hunk h →
  let a := DASH :: print_range (printed_start h) (old_count h) in
  let b := PLUS :: print_range (old_start h) (new_count h) in
  Forall (λ d, d ≠ 64 ∧ d ≠ NEWLINE ∧ d ≠ RETURN ∧ d ≠ SPACE) a ∧
  Forall (λ d, d ≠ 64 ∧ d ≠ NEWLINE ∧ d ≠ RETURN ∧ d ≠ SPACE) b ∧
  trim (SPACE :: (a ++ SPACE :: b) ++ [SPACE]) = a ++ SPACE :: b ∧ trim b = b.
Proof.
  intros Hwf a b. destruct (wf_ranges h Hwf) as (H1 & H2 & H3 & H4).
  destruct (print_range_chars _ _ H1 H2) as [Ha _], (print_range_chars _ _ H3 H4) as [Hb (d & t & Ht & Hd)].
  assert (∀ x, (48 ≤ x ≤ 57 ∨ x = COMMA) → x ≠ 64 ∧ x ≠ NEWLINE ∧ x ≠ RETURN ∧ x ≠ SPACE) as Hx.
  { unfold COMMA, NEWLINE, RETURN, SPACE. lia. }
  assert (∀ t' c, b = t' ++ [c] → is_whitespace c = false) as Hlast.
  { intros t' c Hc. apply digit_not_whitespace. unfold b in Hc. rewrite Ht, app_comm_cons in Hc.
    by apply app_inj_tail in Hc as [_ <-]. }
  split_and!.
  - constructor; [done|]. eapply Forall_impl; [exact Ha|done].
  - constructor; [done|]. eapply Forall_impl; [exact Hb|done].
  - apply (trim_pad [SPACE] (a ++ SPACE :: b) [SPACE]); [by constructor|by constructor|by intros ?? [= <- _]|].
    intros c t' Hc. apply (Hlast (PLUS :: t) c). unfold b. rewrite Ht in *. rewrite app_comm_cons.
    replace (a ++ SPACE :: b) with ((a ++ SPACE :: PLUS :: t) ++ [d]) in Hc
      by (unfold b; rewrite Ht; by rewrite <- app_assoc).
    apply app_inj_tail in Hc as [_ <-]. done.
  - rewrite <- (app_nil_r b) at 1. apply (trim_pad [] b []); [done|done|by intros ?? [= <- _]|].
    intros c t' Hc. by apply (Hlast t').
Qed.

Lemma parse_print_header h :
  wf_hunk h → parse_hunk_header (print_header h) = Ok (mkHunk (old_start h) (old_count h) (new_count h) []).
Proof.
  intros Hwf. destruct (wf_ranges h Hwf) as (H1 & H2 & H3 & H4).
  destruct (header_ranges h Hwf) as (Ha & Hb & Ht & Htb).
  unfold parse_hunk_header, print_header.
  set (a := DASH :: _) in *. set (b := PLUS :: _) in *.
  rewrite (proj2 (strip_prefix_Some _ _ _) eq_refl). cbn [ok_or mbind result_bind].
  rewrite <- (app_nil_r (chars "@@")) at 2. change (chars "@@") with [64; 64].
  rewrite find_str_first.
  2: { constructor; [done|]. apply Forall_app. split; [|by constructor].
       apply Forall_app. split; [|constructor; [done|]]; (eapply Forall_impl; [eassumption|by intros ? []]). }
  cbn [ok_or mbind result_bind fst snd]. rewrite Ht.
  rewrite split_once_first; [|eapply Forall_impl; [exact Ha|]; intros x (_ & _ & _ & Hx); by apply Z.eqb_neq|done].
  cbn [ok_or mbind result_bind fst snd]. rewrite Htb.
  rewrite (proj2 (strip_prefix_Some [DASH] a _) eq_refl), (proj2 (strip_prefix_Some [PLUS] b _) eq_refl).
  cbn [ok_or mbind result_bind]. rewrite !parse_print_range by done. cbn [mbind result_bind fst snd].
  unfold printed_start. destruct (Z.eqb_spec (old_count h) 0) as [E|E].
  - rewrite andb_false_r. unfold wrap_add. by rewrite Z.sub_add, Z.mod_small by (destruct Hwf; lia).
  - destruct (Z.eqb_spec (old_start h) 0) as [E'|]; [destruct Hwf; lia|done].
Qed.

Lemma strip_cr_ok l : line_ok Lf l → strip_cr l = l.
Proof. intros Hl. by rewrite <- (strip_cr_line Lf l Hl) at 2; rewrite app_nil_r. Qed.

Lemma ends_with_last (c d : Z) t : c ≠ d → ends_with [c] (t ++ [d]) = false.
Proof.
  intros Hcd. apply not_true_iff_false. intros [u Hu]%ends_with_true.
  apply app_inj_tail in Hu as [_ Hu]. congruence.
Qed.

Lemma print_header_ok h : wf_hunk h → line_ok Lf (print_header h).
Proof.
  intros Hwf. destruct (header_ranges h Hwf) as (Ha & Hb & _ & _). unfold print_header. split.
  - assert (∀ l, Forall (λ d, d ≠ 64 ∧ d ≠ NEWLINE ∧ d ≠ RETURN ∧ d ≠ SPACE) l → Forall (λ c, (NEWLINE =? c) = false) l) as Hi.
    { intros l Hl. eapply Forall_impl; [exact Hl|]. intros x (_ & Hx & _). apply Z.eqb_neq. congruence. }
    apply Forall_app. split; [by repeat constructor|]. apply Forall_app. split; [|by repeat constructor].
    constructor; [done|]. apply Forall_app. split; [|by repeat constructor].
    apply Forall_app. split; [by apply Hi|]. constructor; [done|by apply Hi].
  - intros _. change (chars "@@") with ([64] ++ [64]) at 2. rewrite !app_assoc. by apply ends_with_last.
Qed.

Lemma parse_line_header path st h :
  wf_hunk h → len (flush st) < MAX_HUNKS →
  parse_line path st (print_header h) =
    Ok (mkParse (flush st) (Some (mkHunk (old_start h) (old_count h) (new_count h) [])) true).
Proof.
  intros Hwf Hl. unfold parse_line. rewrite strip_cr_ok by by apply print_header_ok.
  assert (∃ t, print_header h = 64 :: 64 :: t) as [t Ht] by by eexists.
  pose proof (parse_print_header h Hwf) as Hp. rewrite Ht in *.
  change (chars "--- ") with [45; 45; 45; 32]. change (chars "+++ ") with [43; 43; 43; 32].
  rewrite !(strip_prefix_head _ _ 64) by done. cbn -[flush parse_hunk_header MAX_HUNKS].
  rewrite (proj2 (Z.leb_gt _ _)) by done.
  by rewrite Hp.
Qed.

Lemma printable_ok l :
  printable l = true →
  line_ok Lf (print_line l) ∧ strip_prefix (chars "--- ") (print_line l) = None ∧
  strip_prefix (chars "+++ ") (print_line l) = None.
Proof.
  assert (∀ (p s : str), negb (starts_with p s) = true → strip_prefix p s = None) as Hs.
  { intros p s H. apply negb_true_iff, bool_decide_eq_false in H. by apply eq_None_not_Some. }
  unfold printable. intros H. apply andb_true_iff in H as [H H4]. apply andb_true_iff in H as [H H3].
  apply andb_true_iff in H as [H1 H2]. split_and!; [split|by apply Hs|by apply Hs].
  - apply all_true in H1. eapply Forall_impl; [exact H1|]. intros x Hx. by apply negb_true_iff in Hx.
  - intros _. by apply negb_true_iff.
Qed.

Lemma parse_line_body path d h seen l :
  printable l = true →
  parse_line path (mkParse d (Some h) seen) (print_line l) = Ok (mkParse d (Some (push_line h l)) seen).
Proof.
  intros (Hok & Hm & Hp)%printable_ok. unfold parse_line.
  rewrite strip_cr_ok, Hm, Hp by done.
  destruct l as [t|t|t]; cbn -[push_line NO_NEWLINE]; by rewrite decide_False.
Qed.

Lemma parse_lines_body path d h seen b rest :
  Forall (λ l, printable l = true) b →
  parse_lines path (mkParse d (Some h) seen) ((print_line <$> b) ++ rest) =
  parse_lines path (mkParse d (Some (mkHunk (old_start h) (old_count h) (new_count h) (body h ++ b))) seen) rest.
Proof.
  intros Hb. revert h. induction Hb as [|l b Hl Hb IH]; intros h.
  - rewrite app_nil_r. by destruct h.
  - rewrite fmap_cons. cbn [app parse_lines]. rewrite parse_line_body by done. cbn [mbind result_bind].
    rewrite IH. cbn [push_line old_start old_count new_count body]. by rewrite <- app_assoc.
Qed.

Lemma parse_lines_hunks path hs st :
  Forall wf_hunk hs → len (flush st) + len hs ≤ MAX_HUNKS →
  ∃ st', parse_lines path st (concat (print_hunk <$> hs)) = Ok st' ∧ flush st' = flush st ++ hs.
Proof.
  intros Hf. revert st. induction Hf as [|h hs Hh Hf IH]; intros st Hl.
  { exists st. by rewrite app_nil_r. }
  rewrite len_cons in Hl. pose proof (len_nonneg hs).
  rewrite fmap_cons. cbn [concat print_hunk app parse_lines]. rewrite parse_line_header by (done || lia).
  cbn [mbind result_bind]. rewrite parse_lines_body by apply Hh.
  cbn [old_start old_count new_count body app].
  destruct (IH (mkParse (flush st) (Some h) true)) as (st' & Hst & Hfl).
  { unfold flush at 1. cbn [done_ current]. rewrite len_app, len_cons, len_nil. lia. }
  exists st'. destruct h. split; [exact Hst|]. rewrite Hfl. unfold flush at 1. cbn [done_ current]. by rewrite <- app_assoc.
Qed.

Lemma wf_path_spec path :
  wf_path path = true →
  Forall (λ c, c ≠ TAB ∧ c ≠ NEWLINE ∧ c ≠ BACKSLASH) path ∧ (∀ c t, path = t ++ [c] → is_whitespace c = false).
Proof.
  unfold wf_path. intros [H1 H2]%andb_true_iff. split.
  - apply all_true in H1. eapply Forall_impl; [exact H1|]. intros c Hc. cbn beta in Hc. boolify. done.
  - intros c t ->. rewrite reverse_app in H2. cbn in H2. by apply negb_true_iff.
Qed.

(** A header names its path behind the prefix [a/] or [b/]. *)
Lemma header_trim a path :
  wf_path path = true → a = 97 ∨ a = 98 → trim ([a; SLASH] ++ path) = [a; SLASH] ++ path.
Proof.
  intros [_ Hl]%wf_path_spec Ha. rewrite <- (app_nil_r ([a; SLASH] ++ path)) at 1.
  apply (trim_pad [] ([a; SLASH] ++ path) []); [done|done| |].
  - intros ?? [= <- _]. by destruct Ha as [-> | ->].
  - intros c t Heq. destruct path as [|d path _] using rev_ind.
    + rewrite app_nil_r in Heq. change [a; SLASH] with ([a] ++ [SLASH]) in Heq.
      by apply app_inj_tail in Heq as [_ <-].
    + rewrite app_assoc in Heq. apply app_inj_tail in Heq as [_ <-]. by eapply Hl.
Qed.

Lemma verify_header a path :
  wf_path path = true → a = 97 ∨ a = 98 → verify_header_path ([a; SLASH] ++ path) path = Ok tt.
Proof.
  intros Hwf Ha. pose proof (header_trim a path Hwf Ha) as Ht. destruct (wf_path_spec _ Hwf) as [Hc _].
  assert (Forall (λ c, (TAB =? c) = false) ([a; SLASH] ++ path)) as Htab.
  { apply Forall_app. split; [constructor; [by destruct Ha as [-> | ->]|by constructor]|].
    eapply Forall_impl; [exact Hc|]. intros c (Hn & _). apply Z.eqb_neq. congruence. }
  assert ((λ c, if c =? BACKSLASH then SLASH else c) <$> ([a; SLASH] ++ path) = [a; SLASH] ++ path) as Hn.
  { rewrite <- (list_fmap_id ([a; SLASH] ++ path)) at 2. apply list_fmap_ext. intros i c Hi. cbn beta.
    destruct (Z.eqb_spec c BACKSLASH) as [->|]; [|done].
    apply list_elem_of_lookup_2, elem_of_app in Hi as [Hi|Hi].
    - exfalso. apply list_elem_of_In in Hi. destruct Hi as [Hi|[Hi|[]]]; [destruct Ha; subst; done|done].
    - rewrite Forall_forall in Hc. by destruct (Hc _ Hi) as (_ & _ & ?). }
  unfold verify_header_path, split. rewrite split_loop_sep_free by done.
  change (default ([a; SLASH] ++ path) (head [reverse [] ++ [a; SLASH] ++ path])) with ([a; SLASH] ++ path).
  rewrite Ht, decide_False, Hn by (destruct Ha as [-> | ->]; done).
  destruct Ha as [-> | ->].
  - rewrite (proj2 (strip_prefix_Some (chars "a/") ([97; SLASH] ++ path) path)) by done. by rewrite decide_True.
  - change (strip_prefix (chars "a/") ([98; SLASH] ++ path)) with (@None str).
    rewrite (proj2 (strip_prefix_Some (chars "b/") ([98; SLASH] ++ path) path)) by done.
    cbn [default from_option]. by rewrite decide_True.
Qed.

Lemma file_header_ok m a path :
  wf_path path = true → a = 97 ∨ a = 98 → Forall (λ c, (NEWLINE =? c) = false) m →
  line_ok Lf (m ++ [a; SLASH] ++ path).
Proof.
  intros Hwf Ha Hm. destruct (wf_path_spec _ Hwf) as [Hc Hl]. split.
  - apply Forall_app. split; [done|]. apply Forall_app.
    split; [constructor; [by destruct Ha as [-> | ->]|by constructor]|].
    eapply Forall_impl; [exact Hc|]. intros c (_ & Hn & _). apply Z.eqb_neq. congruence.
  - intros _. destruct path as [|d path _] using rev_ind.
    + rewrite app_nil_r. change [a; SLASH] with ([a] ++ [SLASH]). rewrite app_assoc. by apply ends_with_last.
    + rewrite !app_assoc. apply ends_with_last. intros <-. by specialize (Hl RETURN path eq_refl).
Qed.

Lemma parse_line_file path :
  wf_path path = true →
  parse_line path (mkParse [] None false) (chars "--- a/" ++ path) = Ok (mkParse [] None false) ∧
  parse_line path (mkParse [] None false) (chars "+++ b/" ++ path) = Ok (mkParse [] None false).
Proof.
  intros Hp. unfold parse_line. split.
  - rewrite strip_cr_ok by (apply (file_header_ok (chars "--- ") 97); [done|by left|by repeat constructor]).
    rewrite (proj2 (strip_prefix_Some (chars "--- ") _ ([97; SLASH] ++ path))) by done.
    unfold header_line. cbn [seen_hunk_header]. by rewrite verify_header by auto.
  - rewrite strip_cr_ok by (apply (file_header_ok (chars "+++ ") 98); [done|by right|by repeat constructor]).
    change (strip_prefix (chars "--- ") (chars "+++ b/" ++ path)) with (@None str).
    rewrite (proj2 (strip_prefix_Some (chars "+++ ") _ ([98; SLASH] ++ path))) by done.
    unfold header_line. cbn [seen_hunk_header]. by rewrite verify_header by auto.
Qed.

(** The parser reads what the format writes: any well-formed patch of at most
    512 hunks, printed as a unified diff with its file headers, parses back to
    itself when it fits the size bound. *)
Theorem patch_print_parse (path : str) (p : UnifiedPatch) :
  wf_path path = true → Forall wf_hunk (hunks p) → hunks p ≠ [] → len (hunks p) ≤ MAX_HUNKS →
  len (as_bytes (print_patch path p)) ≤ MAX_PATCH_BYTES →
  parse (print_patch path p) path = Ok p.
Proof.
  intros Hpath Hf Hne Hh Hs. unfold parse. unfold print_patch at 1.
  set (lines := [chars "--- a/" ++ path; chars "+++ b/" ++ path] ++ concat (print_hunk <$> hunks p)).
  assert (Forall (line_ok Lf) lines) as Hl.
  { apply Forall_app. split.
    - apply Forall_cons; split; [|apply Forall_singleton].
      + apply (file_header_ok (chars "--- ") 97); [done|by left|by repeat constructor].
      + apply (file_header_ok (chars "+++ ") 98); [done|by right|by repeat constructor].
    - apply Forall_concat, Forall_fmap. eapply Forall_impl; [exact Hf|]. intros h Hwf. cbn beta.
      constructor; [by apply print_header_ok|]. apply Forall_fmap.
      eapply Forall_impl; [apply Hwf|]. intros l Hp. by apply printable_ok. }
  destruct (terminated_ends Lf lines) as [t Ht]; [done|].
  assert (split (Z.eqb NEWLINE) t = lines) as Hsplit.
  { pose proof (split_terminated Lf lines Hl) as Hst. rewrite Ht, split_snoc in Hst by done.
    apply app_inj_tail in Hst as [-> _]. rewrite <- (list_fmap_id lines) at 2.
    apply list_fmap_ext. intros. apply app_nil_r. }
  assert (trim (terminated Lf lines) ≠ []) as Htrim.
  { apply (trim_nonempty _ 45); [|done]. unfold lines, terminated. cbn [fmap list_fmap app concat]. by left. }
  rewrite (bool_decide_true (trim _ ≠ [])) by done. cbn [ensure mbind result_bind].
  fold (print_patch path p). rewrite (proj2 (Z.leb_le _ _)) by done. cbn [ensure mbind result_bind].
  change (print_patch path p) with (terminated Lf lines).
  rewrite (proj2 (strip_suffix_Some [NEWLINE] _ t)) by done. cbn [default from_option].
  change (id t) with t. rewrite Hsplit.
  destruct (parse_lines_hunks path (hunks p) (mkParse [] None false)) as (st & Hst & Hfl); [done|done|].
  assert (parse_lines path (mkParse [] None false) lines = Ok st) as ->.
  { unfold lines. cbn [app parse_lines]. destruct (parse_line_file path Hpath) as [-> H2].
    cbn [mbind result_bind]. rewrite H2. exact Hst. }
  cbn [mbind result_bind]. rewrite Hfl. cbn [flush done_ current app].
  rewrite bool_decide_true by done. rewrite (proj2 (all_true _ _)); [by destruct p|].
  eapply Forall_impl; [exact Hf|]. by intros ? [].
Qed.

(** ** Accepted patches *)

Definition newline_free (l : str) : Prop := Forall (λ c, (NEWLINE =? c) = false) l.

(** What the parsing loop keeps true of the hunks it collects. *)
Definition hunk_inv (h : Hunk) : Prop :=
  0 ≤ old_start h ≤ u64_max ∧ Forall (λ l, newline_free (text_of l)) (body h).

Lemma parse_hunk_header_inv line h : parse_hunk_header line = Ok h → hunk_inv h ∧ body h = [].
Proof.
  assert (∀ v s c, parse_range v = Ok (s, c) → 0 ≤ s ≤ u64_max) as Hr.
  { intros v s c. unfold parse_range. destruct (default _ _) as [a b]. intros H. inv_ok.
    match goal with H : parse_usize a = Some _ |- _ => apply parse_usize_range in H end. lia. }
  unfold parse_hunk_header. intros H. inv_ok.
  destruct (_ && _); [done|]. inv_ok. split; [split; [cbn [old_start]|constructor]|done].
  match goal with H : parse_range _ = Ok ?x |- context [?x.2 =? 0] => destruct x; apply Hr in H end.
  cbn [fst snd]. destruct (_ =? 0); [|done]. unfold wrap_add.
  pose proof (Z.mod_pos_bound (z + 1) (u64_max + 1) ltac:(done)). lia.
Qed.

Lemma parse_line_inv path st raw st' :
  parse_line path st raw = Ok st' → newline_free raw → Forall hunk_inv (flush st) → len (flush st) ≤ MAX_HUNKS →
  Forall hunk_inv (flush st') ∧ len (flush st') ≤ MAX_HUNKS.
Proof.
  intros H Hraw Hf Hl. unfold parse_line in H.
  assert (newline_free (strip_cr raw)) as Hline.
  { unfold strip_cr. destruct (strip_suffix _ _) as [t|] eqn:E; [|done].
    apply strip_suffix_Some in E as ->. by apply Forall_app in Hraw as []. }
  set (line := strip_cr raw) in *.
  assert (∀ hd, header_line path st hd = Ok st' → st' = st) as Hh.
  { intros hd. unfold header_line. destruct (seen_hunk_header st); [done|]. intros. by inv_ok. }
  destruct (strip_prefix (chars "--- ") line); [by apply Hh in H as ->|].
  destruct (strip_prefix (chars "+++ ") line); [by apply Hh in H as ->|].
  destruct (_ || _); [destruct (seen_hunk_header st); by inv_ok|].
  destruct (starts_with _ _).
  - destruct (MAX_HUNKS <=? _) eqn:E; [done|]. boolify. inv_ok.
    match goal with H : parse_hunk_header _ = Ok _ |- _ => apply parse_hunk_header_inv in H as [Hi _] end.
    unfold flush at 1 3. cbn [done_ current]. rewrite len_app, len_cons, len_nil. split; [|lia].
    apply Forall_app. split; [done|by constructor].
  - destruct (current st) as [h|] eqn:Ec; [|destruct (decide _); by inv_ok].
    destruct (decide _); [by inv_ok|]. inv_ok.
    match goal with H : body_line _ = Some _ |- _ => rename H into Hb end.
    unfold flush in *. cbn [done_ current]. rewrite Ec in *. rewrite !len_app in *. split; [|exact Hl].
    apply Forall_app in Hf as [Hd [[Hs Hh'] _]%Forall_cons]. apply Forall_app. split; [done|].
    constructor; [split; [done|]|constructor]. cbn [push_line body]. apply Forall_app. split; [done|].
    constructor; [|constructor]. unfold body_line in Hb.
    destruct line as [|c rest]; [injection Hb as <-; constructor|]. apply Forall_cons in Hline as [_ Hline].
    repeat case_match; by simplify_eq.
Qed.

Lemma parse_lines_inv path raws st st' :
  parse_lines path st raws = Ok st' → Forall newline_free raws → Forall hunk_inv (flush st) →
  len (flush st) ≤ MAX_HUNKS → Forall hunk_inv (flush st') ∧ len (flush st') ≤ MAX_HUNKS.
Proof.
  revert st. induction raws as [|raw raws IH]; intros st; cbn [parse_lines]; [by intros [= ->]|].
  intros (st1 & H1 & H2)%bind_Ok [Hraw Hraws]%Forall_cons Hf Hl.
  destruct (parse_line_inv _ _ _ _ H1 Hraw Hf Hl) as [Hf1 Hl1]. by eapply IH.
Qed.

(** C40. Accepted patches are well formed: between 1 and 512 hunks, every hunk's
    declared counts are those of its body, its start is a machine word, and every
    line of it is a single line. *)
Theorem patch_parse_wf (patch path : str) (p : UnifiedPatch) :
  parse patch path = Ok p →
  1 ≤ len (hunks p) ≤ 512 ∧
  Forall (λ h, counts_ok h = true ∧ 0 ≤ old_start h ≤ u64_max ∧
               Forall (λ l, newline_free (text_of l)) (body h)) (hunks p).
Proof.
  unfold parse. intros H. inv_ok.
  match goal with H : parse_lines _ _ _ = Ok _ |- _ => apply parse_lines_inv in H as [Hf Hl] end;
    [|apply split_no_sep|constructor|done].
  match goal with H : bool_decide _ = true |- _ => apply bool_decide_eq_true in H end.
  match goal with H : all _ _ = true |- _ => apply all_true in H; rename H into Hc end.
  unfold MAX_HUNKS in Hl. split.
  - split; [|done]. destruct (flush _) as [|h hs]; [done|]. rewrite len_cons. pose proof (len_nonneg hs). lia.
  - apply Forall_forall. intros h Hh. rewrite Forall_forall in Hf, Hc. by split; [apply Hc|apply Hf].
Qed.

(** The tool is all or nothing: it hands the sandbox at most one content to
    write, namely the patched text of the file it read, and nothing at all when
    the diff does not parse, the file cannot be read as text or a hunk does not
    apply; it reports success only when that write succeeded. *)
Theorem patch_tool_atomic {E} (path patch : str) (read : result E bytes) (write : str → result E unit) :
  (invoke path patch read write).2 = [] ∧ (∃ e, (invoke path patch read write).1 = Err e) ∨
  ∃ p content original s,
    parse patch path = Ok p ∧ read = Ok content ∧ utf8_decode content = Some original ∧ apply p original = Ok s ∧
    (invoke path patch read write).2 = [s] ∧
    ((invoke path patch read write).1 = Ok (len (hunks p)) ↔ write s = Ok tt).
Proof.
  unfold invoke. destruct (parse patch path) as [p|]; [|left; naive_solver].
  destruct read as [content|]; [|left; naive_solver].
  destruct (utf8_decode content) as [original|] eqn:E1; [|left; naive_solver].
  destruct (apply p original) as [s|] eqn:E2; [|left; naive_solver].
  right. exists p, content, original, s. split_and!; try done. cbn.
  destruct (write s) as [[]|]; naive_solver.
Qed.

(** ** Where the code falls short of the format *)

Definition text (lines : list str) : str := terminated Lf lines.

(** A removed line that begins with two dashes and a space, as an SQL or Haskell
    comment does, reads as a file header, and the patch is refused. *)
Example removed_comment_refused :
  parse (text [chars "@@ -1 +0,0 @@"; chars "--- drop the table"]) (chars "f.sql") = Err MultipleFiles.
Proof. vm_compute. reflexivity. Qed.

(** A file left with one empty line is written empty. *)
Example last_blank_line_lost :
  apply (mkPatch [mkHunk 1 2 1 [Removed (chars "a"); ContextLine []]]) (text [chars "a"; chars ""]) = Ok [].
Proof. vm_compute. reflexivity. Qed.

(** With one CRLF in the file, lines no hunk touches change their terminator. *)
Example untouched_ending_rewritten :
  apply (mkPatch [mkHunk 1 1 1 [Removed (chars "a"); Added (chars "b")]])
    (text [chars "a"; chars "c"] ++ terminated Crlf [chars "d"])
  = Ok (terminated Crlf [chars "b"; chars "c"; chars "d"]).
Proof. vm_compute. reflexivity. Qed.

(** ** Witnesses *)

Definition sample_hunk : Hunk := mkHunk 2 2 3 [ContextLine (chars "b"); Removed (chars "c"); Added (chars "x"); Added (chars "y")].
Definition sample_patch : UnifiedPatch := mkPatch [mkHunk 1 0 1 [Added (chars "top")]; sample_hunk].
Definition sample_file : str := text [chars "a"; chars "b"; chars "c"; chars "d"].

Lemma patch_undo_witness : apply (invert sample_patch) (text [chars "top"; chars "a"; chars "b"; chars "x"; chars "y"; chars "d"]) = Ok sample_file.
Proof.
  apply (patch_undo sample_patch sample_file); [by split; vm_compute| |by vm_compute|done].
  repeat constructor; try (intros _; by vm_compute); by vm_compute.
Defined.

Lemma patch_print_parse_witness : parse (print_patch (chars "src/lib.rs") sample_patch) (chars "src/lib.rs") = Ok sample_patch.
Proof.
  apply patch_print_parse; [by vm_compute| |done|by vm_compute|by vm_compute].
  repeat constructor; by vm_compute.
Defined.

Lemma patch_parse_wf_witness : 1 ≤ len (hunks sample_patch) ≤ 512.
Proof. by apply (patch_parse_wf (print_patch (chars "src/lib.rs") sample_patch) (chars "src/lib.rs")); vm_compute. Defined.

End Patch.
