(* ===== verification/NetAddr.v ===== *)
(** * Internet addresses

    What the sources use of [std::net]: [Ipv4Addr] and [Ipv6Addr] as their octets
    and segments, their classification methods, and the text forms that
    [from_str] accepts and [to_string] prints. *)

From S2P Require Import Prelude Utf8 Text.

Module Net.

(** ** Addresses *)

Record Ipv4Addr := mkV4 { oct0 : Z; oct1 : Z; oct2 : Z; oct3 : Z }.

Record Ipv6Addr := mkV6 { seg0 : Z; seg1 : Z; seg2 : Z; seg3 : Z; seg4 : Z; seg5 : Z; seg6 : Z; seg7 : Z }.

Inductive IpAddr := V4 (a : Ipv4Addr) | V6 (a : Ipv6Addr).

#[export] Instance Ipv4Addr_eq_dec : EqDecision Ipv4Addr.
Proof. solve_decision. Defined.
#[export] Instance Ipv6Addr_eq_dec : EqDecision Ipv6Addr.
Proof. solve_decision. Defined.
#[export] Instance IpAddr_eq_dec : EqDecision IpAddr.
Proof. solve_decision. Defined.

Definition octets (a : Ipv4Addr) : list Z := [oct0 a; oct1 a; oct2 a; oct3 a].
Definition segments (a : Ipv6Addr) : list Z :=
  [seg0 a; seg1 a; seg2 a; seg3 a; seg4 a; seg5 a; seg6 a; seg7 a].

(** Octets are [u8] and segments [u16]. *)
Definition valid_v4 (a : Ipv4Addr) : Prop := Forall (λ o, 0 ≤ o < 2 ^ 8) (octets a).
Definition valid_v6 (a : Ipv6Addr) : Prop := Forall (λ s, 0 ≤ s < 2 ^ 16) (segments a).
Definition valid_ip (a : IpAddr) : Prop :=
  match a with V4 a => valid_v4 a | V6 a => valid_v6 a end.

(** Decide the validity of concrete addresses. *)
Ltac valid_addr :=
  unfold valid_ip, valid_v4, valid_v6, octets, segments; cbn;
  rewrite ?Forall_cons; repeat split; try (by apply Forall_nil); vm_compute; congruence.

(** The address as one number, most significant part first. *)
Definition bits_v4 (a : Ipv4Addr) : Z := foldl (λ n o, n * 2 ^ 8 + o) 0 (octets a).
Definition bits_v6 (a : Ipv6Addr) : Z := foldl (λ n s, n * 2 ^ 16 + s) 0 (segments a).

(** [Ipv6Addr::is_unspecified], [is_loopback], [is_multicast], [to_ipv4_mapped]. *)
Definition is_unspecified (a : Ipv6Addr) : bool := bool_decide (segments a = [0; 0; 0; 0; 0; 0; 0; 0]).
Definition is_loopback (a : Ipv6Addr) : bool := bool_decide (segments a = [0; 0; 0; 0; 0; 0; 0; 1]).
Definition is_multicast (a : Ipv6Addr) : bool := Z.land (seg0 a) 0xff00 =? 0xff00.
Definition to_ipv4_mapped (a : Ipv6Addr) : option Ipv4Addr :=
  if decide (take 6 (segments a) = [0; 0; 0; 0; 0; 0xffff]) then
    Some (mkV4 (seg6 a / 2 ^ 8) (seg6 a mod 2 ^ 8) (seg7 a / 2 ^ 8) (seg7 a mod 2 ^ 8))
  else None.

(** ** Text *)

Definition is_digit (c : Z) : bool := (48 <=? c) && (c <=? 57).
Definition is_hexdigit (c : Z) : bool :=
  is_digit c || ((65 <=? c) && (c <=? 70)) || ((97 <=? c) && (c <=? 102)).
Definition is_alphanumeric (c : Z) : bool :=
  is_digit c || ((65 <=? c) && (c <=? 90)) || ((97 <=? c) && (c <=? 122)).
(** [char::to_ascii_lowercase] *)
Definition lower (c : Z) : Z := if (65 <=? c) && (c <=? 90) then c + 32 else c.

(** [char::to_digit] *)
Definition to_digit (radix c : Z) : option Z :=
  let d := if is_digit c then Some (c - 48)
           else if (97 <=? lower c) && (lower c <=? 122) then Some (lower c - 87) else None in
  match d with Some d => if d <? radix then Some d else None | None => None end.

Definition COLON : Z := 0x3A.
Definition DOT : Z := 0x2E.

(** The address parser: each reader returns what it read and what is left, and
    [None] leaves the input as it was. *)
Definition Reader A := str → option (A * str).

Definition read_given_char (c : Z) : Reader unit :=
  λ s, match s with d :: s => if c =? d then Some (tt, s) else None | [] => None end.

Fixpoint read_digits (radix limit : Z) (s : str) (value count : Z) : option (Z * Z * str) :=
  match s with
  | c :: s' =>
      match to_digit radix c with
      | Some d =>
          let value := value * radix + d in
          if limit <? value then None else read_digits radix limit s' value (count + 1)
      | None => Some (value, count, s)
      end
  | [] => Some (value, count, [])
  end.

(** [read_number]: at most [max_digits] digits, in range, and without a zero
    prefix unless allowed. *)
Definition read_number (radix max_digits limit : Z) (allow_zero_prefix : bool) : Reader Z :=
  λ s,
    match read_digits radix limit s 0 0 with
    | Some (value, count, rest) =>
        if (count =? 0) || (max_digits <? count)
           || (negb allow_zero_prefix && (1 <? count) && (match s with c :: _ => c =? 48 | [] => false end))
        then None else Some (value, rest)
    | None => None
    end.

(** [read_separator]: the separator comes before every element but the first. *)
Definition read_separator {A} (sep : Z) (index : nat) (inner : Reader A) : Reader A :=
  λ s,
    match index with
    | O => inner s
    | S _ => match read_given_char sep s with Some (_, s) => inner s | None => None end
    end.

Definition read_octet (i : nat) : Reader Z := read_separator DOT i (read_number 10 3 255 false).

Definition read_ipv4_addr : Reader Ipv4Addr :=
  λ s,
    '(a, s) ← read_octet 0 s; '(b, s) ← read_octet 1 s;
    '(c, s) ← read_octet 2 s; '(d, s) ← read_octet 3 s;
    Some (mkV4 a b c d, s).

(** [read_groups]: the groups read, whether they end in a dotted quad, the rest. *)
Fixpoint read_groups (room : nat) (i : nat) (acc : list Z) (s : str) : list Z * bool * str :=
  match room with
  | O => (acc, false, s)
  | S room =>
      let v4 := match room with O => None | S _ => read_separator COLON i read_ipv4_addr s end in
      match v4 with
      | Some (a, s) => (acc ++ [oct0 a * 2 ^ 8 + oct1 a; oct2 a * 2 ^ 8 + oct3 a], true, s)
      | None =>
          match read_separator COLON i (read_number 16 4 0xffff true) s with
          | Some (g, s) => read_groups room (S i) (acc ++ [g]) s
          | None => (acc, false, s)
          end
      end
  end.

Definition v6_of (l : list Z) : Ipv6Addr :=
  mkV6 (default 0 (l !! 0%nat)) (default 0 (l !! 1%nat)) (default 0 (l !! 2%nat)) (default 0 (l !! 3%nat))
       (default 0 (l !! 4%nat)) (default 0 (l !! 5%nat)) (default 0 (l !! 6%nat)) (default 0 (l !! 7%nat)).

Definition read_ipv6_addr : Reader Ipv6Addr :=
  λ s,
    let '(head, head_ipv4, s) := read_groups 8 0 [] s in
    if Nat.eqb (length head) 8 then Some (v6_of head, s)
    else if head_ipv4 then None
    else
      '(_, s) ← read_given_char COLON s; '(_, s) ← read_given_char COLON s;
      let '(tail, _, s) := read_groups (8 - (length head + 1)) 0 [] s in
      Some (v6_of (head ++ replicate (8 - length head - length tail) 0 ++ tail), s).

(** [parse_with]: the whole input must be read. *)
Definition parse_with {A} (r : Reader A) (s : str) : option A :=
  match r s with Some (a, []) => Some a | _ => None end.

(** [Ipv4Addr::from_str], which refuses more than 15 bytes first. *)
Definition ipv4_from_str (s : str) : option Ipv4Addr :=
  if 15 <? len (as_bytes s) then None else parse_with read_ipv4_addr s.

(** [IpAddr::from_str] *)
Definition read_ip_addr : Reader IpAddr :=
  λ s, match read_ipv4_addr s with
       | Some (a, s) => Some (V4 a, s)
       | None => match read_ipv6_addr s with Some (a, s) => Some (V6 a, s) | None => None end
       end.
Definition ip_from_str (s : str) : option IpAddr := parse_with read_ip_addr s.

(** *** Printing *)

Definition decimal_str (z : Z) : str := u8 <$> decimal z.

Definition hex_digit (d : Z) : Z := if d <? 10 then 48 + d else 87 + d.

(** [{:x}] of a [u16]: no leading zeros. *)
Definition hex16 (z : Z) : str :=
  let digits := [z / 4096; z / 256 mod 16; z / 16 mod 16; z mod 16] in
  let fix strip l := match l with [d] => [d] | d :: r => if d =? 0 then strip r else l | [] => [] end in
  hex_digit <$> strip digits.

Definition join (sep : str) (pieces : list str) : str :=
  match pieces with [] => [] | p :: ps => p ++ concat ((app sep) <$> ps) end.

Definition ipv4_to_string (a : Ipv4Addr) : str := join [DOT] (decimal_str <$> octets a).

(** The longest run of zero segments, the first one among equals: its start and
    length. *)
Fixpoint longest_zero_run (segs : list Z) (i : nat) (longest current : nat * nat) : nat * nat :=
  match segs with
  | [] => longest
  | s :: segs =>
      if s =? 0 then
        let current := if Nat.eqb (snd current) 0 then (i, 1%nat) else (fst current, S (snd current)) in
        longest_zero_run segs (S i) (if (snd longest <? snd current)%nat then current else longest) current
      else longest_zero_run segs (S i) longest (0%nat, 0%nat)
  end.

Definition fmt_subslice (segs : list Z) : str := join [COLON] (hex16 <$> segs).

Definition ipv6_to_string (a : Ipv6Addr) : str :=
  match to_ipv4_mapped a with
  | Some v4 => chars "::ffff:" ++ ipv4_to_string v4
  | None =>
      let '(start, size) := longest_zero_run (segments a) 0 (0, 0)%nat (0, 0)%nat in
      if (1 <? size)%nat then
        fmt_subslice (take start (segments a)) ++ chars "::"
        ++ fmt_subslice (drop (start + size) (segments a))
      else fmt_subslice (segments a)
  end.

Definition ip_to_string (a : IpAddr) : str :=
  match a with V4 a => ipv4_to_string a | V6 a => ipv6_to_string a end.

(** *** Parsed addresses are in range *)

Lemma to_digit_range radix c d : to_digit radix c = Some d → 0 ≤ d < radix.
Proof.
  unfold to_digit, is_digit. intros H. repeat case_match; simplify_eq; boolify; lia.
Qed.

Lemma read_digits_range radix limit s value count v n rest :
  0 ≤ radix → 0 ≤ value ≤ limit → read_digits radix limit s value count = Some (v, n, rest) → 0 ≤ v ≤ limit.
Proof.
  intros Hr. revert value count. induction s as [|c s IH]; intros value count Hv; cbn; [naive_solver|].
  destruct (to_digit radix c) as [d|] eqn:Ed; [|naive_solver]. apply to_digit_range in Ed.
  destruct (limit <? _) eqn:El; [done|]. boolify. apply IH. nia.
Qed.

Lemma read_number_range radix md limit z s v rest :
  0 ≤ radix → 0 ≤ limit → read_number radix md limit z s = Some (v, rest) → 0 ≤ v ≤ limit.
Proof.
  intros ??. unfold read_number. destruct (read_digits _ _ _ _ _) as [[[v' n] r]|] eqn:E; [|done].
  case_match; [done|]. intros [= -> ->]. eapply read_digits_range; [| |exact E]; lia.
Qed.

Lemma read_separator_inv {A} sep i (inner : Reader A) s x :
  read_separator sep i inner s = Some x → ∃ s', inner s' = Some x.
Proof.
  unfold read_separator. destruct i; [by exists s|]. destruct (read_given_char sep s) as [[]|]; [|done].
  by eexists.
Qed.

Lemma read_ipv4_valid s a rest : read_ipv4_addr s = Some (a, rest) → valid_v4 a.
Proof.
  unfold read_ipv4_addr. intros H.
  assert (∀ i s o r, read_octet i s = Some (o, r) → 0 ≤ o < 2 ^ 8) as Ho.
  { intros i s' o r (s'' & H')%read_separator_inv. apply read_number_range in H'; lia. }
  repeat (match goal with
    | H : _ ≫= _ = Some _ |- _ => apply bind_Some in H as ([? ?] & ?%Ho & H)
    end). injection H as <- <-.
  unfold valid_v4, octets. cbn [oct0 oct1 oct2 oct3]. repeat (apply Forall_cons; split; [done|]). constructor.
Qed.

Lemma read_groups_valid room i acc s gs v4 rest :
  Forall (λ g, 0 ≤ g < 2 ^ 16) acc → read_groups room i acc s = (gs, v4, rest) →
  Forall (λ g, 0 ≤ g < 2 ^ 16) gs.
Proof.
  revert i acc s. induction room as [|room IH]; intros i acc s Ha; cbn [read_groups]; [intros ?; by simplify_eq|].
  destruct (match room with O => None | S _ => _ end) as [[a s']|] eqn:E4.
  - destruct room; [done|]. apply read_separator_inv in E4 as (s'' & E4%read_ipv4_valid).
    unfold valid_v4, octets in E4. rewrite !Forall_cons in E4. intros [= <- _ _].
    apply Forall_app. split; [done|]. repeat (apply Forall_cons; split; [lia|]). constructor.
  - clear E4. destruct (read_separator COLON i (read_number 16 4 0xffff true) s) as [[g s']|] eqn:Eg;
      [|by intros [= <- _ _]]. apply IH.
    apply read_separator_inv in Eg as (s'' & Eg). apply read_number_range in Eg; [|lia..].
    apply Forall_app. split; [done|]. constructor; [lia|done].
Qed.

Lemma v6_of_valid l : Forall (λ g, 0 ≤ g < 2 ^ 16) l → valid_v6 (v6_of l).
Proof.
  intros Hl. assert (∀ i, 0 ≤ default 0 (l !! i) < 2 ^ 16) as H.
  { intros i. destruct (l !! i) as [x|] eqn:E; cbn; [|lia]. by apply (Forall_lookup_1 _ _ _ _ Hl E). }
  unfold valid_v6, segments, v6_of. cbn [seg0 seg1 seg2 seg3 seg4 seg5 seg6 seg7].
  repeat (apply Forall_cons; split; [apply H|]). constructor.
Qed.

Lemma read_ipv6_valid s a rest : read_ipv6_addr s = Some (a, rest) → valid_v6 a.
Proof.
  unfold read_ipv6_addr. destruct (read_groups 8 0 [] s) as [[head v4] s1] eqn:E1.
  apply read_groups_valid in E1; [|constructor].
  destruct (Nat.eqb _ _); [intros [= <- _]; by apply v6_of_valid|]. destruct v4; [done|].
  intros ([[] s2] & _ & ([[] s3] & _ & H)%bind_Some)%bind_Some.
  destruct (read_groups _ 0 [] s3) as [[tail b] s4] eqn:E2. apply read_groups_valid in E2; [|constructor].
  injection H as <- _. apply v6_of_valid. rewrite !Forall_app. split_and!; [done| |done].
  apply Forall_replicate. lia.
Qed.

Lemma ip_from_str_valid s a : ip_from_str s = Some a → valid_ip a.
Proof.
  unfold ip_from_str, parse_with, read_ip_addr.
  destruct (read_ipv4_addr s) as [[v4 r]|] eqn:E4.
  - destruct r; [|done]. intros [= <-]. by eapply read_ipv4_valid.
  - destruct (read_ipv6_addr s) as [[v6 r]|] eqn:E6; [|done].
    destruct r; [|done]. intros [= <-]. by eapply read_ipv6_valid.
Qed.

Example ip_text_examples :
  (λ s, ip_to_string <$> ip_from_str s) <$>
    [chars "10.0.0.1"; chars "010.0.0.1"; chars "2001:DB8:0:0:1:0:0:1"; chars "::"; chars "::ffff:1.2.3.4";
     chars "1:2:3:4:5:6:1.2.3.4"; chars "1::2::3"; chars "fe80::"; chars "1:2:3:4:5:6:7::"; chars "256.1.1.1"]
  = [Some (chars "10.0.0.1"); None; Some (chars "2001:db8::1:0:0:1"); Some (chars "::");
     Some (chars "::ffff:1.2.3.4"); Some (chars "1:2:3:4:5:6:102:304"); None; Some (chars "fe80::");
     Some (chars "1:2:3:4:5:6:7:0"); None].
Proof. vm_compute. reflexivity. Qed.

End Net.
