(* ===== verification/Ssrf.v ===== *)
(** * Outbound targets

    [crates/claw-security/src/ssrf.rs]: which URL an agent may fetch. A target is
    validated from its text ([validate_raw_authority]), from the parsed URL
    ([validate_target]) and once more from the addresses its name resolves to
    ([validate_resolution]); a redirect is validated like a new target. The URL
    parser is a third-party crate: [UrlLib] holds the operations the code calls,
    and the theorems hold whatever they answer. *)

From S2P Require Import Prelude Utf8 Text NetAddr.

Module Ssrf.
Import Net.

Inductive TargetError :=
| InvalidUrl
| UnsupportedScheme
| MissingHost
| UserInfoForbidden
| FragmentForbidden
| InvalidPort
| InvalidHost
| BlockedHost
| BlockedAddress
| AmbiguousIpLiteral
| HostNotAllowlisted.

Inductive ResolutionError :=
| NoAddresses
| BlockedResolution
| LiteralAddressMismatch.

(** ** Addresses *)

Definition blocked_ipv4 (address : Ipv4Addr) : bool :=
  let a := oct0 address in let b := oct1 address in let c := oct2 address in
  (a =? 0) || (a =? 10) || (a =? 127)
  || ((a =? 100) && ((64 <=? b) && (b <=? 127)))
  || ((a =? 169) && (b =? 254))
  || ((a =? 172) && ((16 <=? b) && (b <=? 31)))
  || ((a =? 192) && (b =? 0) && (c =? 0))
  || ((a =? 192) && (b =? 0) && (c =? 2))
  || ((a =? 192) && (b =? 88) && (c =? 99))
  || ((a =? 192) && (b =? 168))
  || ((a =? 198) && ((b =? 18) || (b =? 19)))
  || ((a =? 198) && (b =? 51) && (c =? 100))
  || ((a =? 203) && (b =? 0) && (c =? 113))
  || (224 <=? a).

Definition blocked_ipv6 (address : Ipv6Addr) : bool :=
  let s := segments address in
  let s0 := seg0 address in let s1 := seg1 address in
  is_unspecified address || is_loopback address || is_multicast address
  || bool_decide (is_Some (to_ipv4_mapped address))
  || (Z.land s0 0xfe00 =? 0xfc00)
  || (Z.land s0 0xffc0 =? 0xfe80)
  || (Z.land s0 0xffc0 =? 0xfec0)
  || ((s0 =? 0x0064) && (s1 =? 0xff9b) && bool_decide (take 4 (drop 2 s) = [0; 0; 0; 0]))
  || ((s0 =? 0x0064) && (s1 =? 0xff9b) && (seg2 address =? 1))
  || ((s0 =? 0x0100) && bool_decide (take 3 (drop 1 s) = [0; 0; 0]))
  || ((s0 =? 0x2001) && (s1 <=? 0x01ff))
  || ((s0 =? 0x2001) && (s1 =? 0x0db8))
  || (s0 =? 0x2002)
  || ((s0 =? 0x3fff) && (Z.land s1 0xf000 =? 0))
  || (s0 =? 0x5f00)
  || bool_decide (take 6 s = [0; 0; 0; 0; 0; 0]).

Definition validate_public_address (address : IpAddr) : result TargetError unit :=
  match address with
  | V4 a => if blocked_ipv4 a then Err BlockedAddress else Ok tt
  | V6 a => if blocked_ipv6 a then Err BlockedAddress else Ok tt
  end.

(** ** Names *)

Definition DASH : Z := 0x2D.

Definition label_ok (label : str) : bool :=
  negb (bool_decide (label = []) || (63 <? len (as_bytes label))
        || starts_with [DASH] label || ends_with [DASH] label
        || negb (all (λ c, is_alphanumeric c || (c =? DASH)) label)).

Definition canonicalize_dns_name (value : str) : result TargetError str :=
  let canonical := lower <$> default value (strip_suffix [DOT] value) in
  if bool_decide (canonical = []) || (253 <? len (as_bytes canonical)) || negb (any (λ c, c =? DOT) canonical)
  then Err InvalidHost
  else if bool_decide (canonical = chars "localhost") || ends_with (chars ".localhost") canonical
  then Err BlockedHost
  else if all label_ok (split (λ c, c =? DOT) canonical) then Ok canonical
  else Err InvalidHost.

Definition canonicalize_host_entry (value : str) : result TargetError str :=
  match ip_from_str value with
  | Some address => _ ← validate_public_address address; Ok (ip_to_string address)
  | None => canonicalize_dns_name value
  end.

(** ** Allowlist, policy, targets *)

Record HostAllowlist := mkHostAllowlist { hosts : list str }.

(** [HostAllowlist::new]; the set is kept as the list of its insertions. *)
Fixpoint canonicalize_all (entries : list str) : result TargetError (list str) :=
  match entries with
  | [] => Ok []
  | e :: entries => h ← canonicalize_host_entry e; hs ← canonicalize_all entries; Ok (h :: hs)
  end.

Definition allowlist_new (entries : list str) : result TargetError HostAllowlist :=
  hosts ← canonicalize_all entries; Ok (mkHostAllowlist hosts).

Definition contains (l : HostAllowlist) (host : str) : bool := bool_decide (host ∈ hosts l).

Inductive TargetPolicy := PublicInternet | ExactHosts (l : HostAllowlist).

Inductive TargetHost := Dns (host : str) | Ip (address : IpAddr).

Definition host_str (h : TargetHost) : str :=
  match h with Dns host => host | Ip address => ip_to_string address end.

Record ValidatedTarget := mkValidatedTarget {
  canonical_url : str;
  host : TargetHost;
  port : Z;
}.

Definition mismatch (h : TargetHost) (address : IpAddr) : bool :=
  match h with Ip expected => negb (bool_decide (address = expected)) | Dns _ => false end.

Fixpoint validate_addresses (h : TargetHost) (addresses : list IpAddr) : result ResolutionError unit :=
  match addresses with
  | [] => Ok tt
  | address :: addresses =>
      match validate_public_address address with
      | Err _ => Err BlockedResolution
      | Ok _ =>
          if mismatch h address then Err LiteralAddressMismatch else validate_addresses h addresses
      end
  end.

Definition validate_resolution (t : ValidatedTarget) (addresses : list IpAddr) : result ResolutionError unit :=
  if decide (addresses = []) then Err NoAddresses else validate_addresses (host t) addresses.

(** ** The raw authority *)

Definition eq_ignore_case (a b : str) : bool := bool_decide (lower <$> a = lower <$> b).

(** [s.rsplit_once(c)] *)
Definition rsplit_once (sep : Z → bool) (s : str) : option (str * str) :=
  match split_once sep (reverse s) with
  | Some (b, a) => Some (reverse a, reverse b)
  | None => None
  end.

Definition hex_label (label : str) : bool :=
  match (match strip_prefix (chars "0x") label with
         | Some d => Some d | None => strip_prefix (chars "0X") label end) with
  | Some digits => negb (bool_decide (digits = [])) && all is_hexdigit digits
  | None => false
  end.

(** The loop over the labels returns [false] at the first one that is neither
    decimal nor hexadecimal; there is always at least one label. *)
Definition looks_like_noncanonical_ipv4 (h : str) : bool :=
  let h := default h (strip_suffix [DOT] h) in
  if all is_digit h then true
  else all (λ label, all is_digit label || hex_label label) (split (λ c, c =? DOT) h).

Definition raw_host_of (authority : str) : result TargetError str :=
  match strip_prefix (chars "[") authority with
  | Some bracketed =>
      match split_once (λ c, c =? 0x5D) bracketed with
      | None => Err InvalidHost
      | Some (h, suffix) =>
          if negb (bool_decide (suffix = []))
             && (negb (starts_with [COLON] suffix) || (len (as_bytes suffix) =? 1)
                 || negb (all is_digit (drop 1 suffix)))
          then Err InvalidPort else Ok h
      end
  | None =>
      if 1 <? len (filter (λ c, c = COLON) authority) then Err InvalidHost
      else Ok (match rsplit_once (λ c, c =? COLON) authority with
               | Some (h, p) => if bool_decide (p = []) || negb (all is_digit p) then [] else h
               | None => authority
               end)
  end.

Definition authority_of (remainder : str) : str :=
  match split_once (λ c, (c =? 0x2F) || (c =? 0x3F) || (c =? 0x23)) remainder with
  | Some (a, _) => a
  | None => remainder
  end.

Definition validate_raw_authority (input : str) : result TargetError unit :=
  match find_str (chars "://") input with
  | None => Err InvalidUrl
  | Some (scheme, remainder) =>
      if negb (eq_ignore_case scheme (chars "http")) && negb (eq_ignore_case scheme (chars "https"))
      then Err UnsupportedScheme
      else
        let authority := authority_of remainder in
        if bool_decide (authority = []) then Err MissingHost
        else if any (λ c, c =? 0x40) authority then Err UserInfoForbidden
        else if any (λ c, c =? 0x25) authority then Err AmbiguousIpLiteral
        else
          raw_host ← raw_host_of authority;
          if bool_decide (raw_host = []) then Err InvalidPort
          else if looks_like_noncanonical_ipv4 raw_host
                  && negb (bool_decide (is_Some (ipv4_from_str raw_host)))
          then Err AmbiguousIpLiteral
          else Ok tt
  end.

(** ** Targets *)

Inductive UrlHost := Domain (d : str) | HostV4 (a : Ipv4Addr) | HostV6 (a : Ipv6Addr).

(** The operations of the [url] crate that the code calls. *)
Record UrlLib := mkUrlLib {
  Url : Type;
  url_parse : str → option Url;
  scheme : Url → str;
  username : Url → str;
  password : Url → option str;
  fragment : Url → option str;
  url_host : Url → option UrlHost;
  set_host : Url → str → option Url;
  port_or_known_default : Url → option Z;
  url_text : Url → str;
  url_join : Url → str → option Url;
}.

Section Target.
Context (lib : UrlLib).

Definition target_host (url : Url lib) : result TargetError (TargetHost * Url lib) :=
  h ← ok_or MissingHost (url_host lib url);
  match h with
  | Domain d =>
      canonical ← canonicalize_dns_name d;
      url ← ok_or InvalidHost (set_host lib url canonical);
      Ok (Dns canonical, url)
  | HostV4 a => _ ← validate_public_address (V4 a); Ok (Ip (V4 a), url)
  | HostV6 a => _ ← validate_public_address (V6 a); Ok (Ip (V6 a), url)
  end.

Definition validate_target (input : str) (policy : TargetPolicy) : result TargetError ValidatedTarget :=
  _ ← validate_raw_authority input;
  if any is_whitespace input || any is_control input then Err InvalidUrl
  else
    url ← ok_or InvalidUrl (url_parse lib input);
    if negb (bool_decide (scheme lib url = chars "http" ∨ scheme lib url = chars "https"))
    then Err UnsupportedScheme
    else if negb (bool_decide (username lib url = [])) || bool_decide (is_Some (password lib url))
    then Err UserInfoForbidden
    else if bool_decide (is_Some (fragment lib url)) then Err FragmentForbidden
    else
      '(h, url) ← target_host url;
      if match policy with
         | ExactHosts allowlist => negb (contains allowlist (host_str h))
         | PublicInternet => false
         end
      then Err HostNotAllowlisted
      else
        p ← ok_or InvalidPort (port_or_known_default lib url);
        if p =? 0 then Err InvalidPort
        else Ok (mkValidatedTarget (url_text lib url) h p).

Definition validate_redirect (current : ValidatedTarget) (location : str) (policy : TargetPolicy)
  : result TargetError ValidatedTarget :=
  base ← ok_or InvalidUrl (url_parse lib (canonical_url current));
  destination ← ok_or InvalidUrl (url_join lib base location);
  validate_target (url_text lib destination) policy.

End Target.

(** ** Special-use networks

    The ranges the code refuses, as network prefixes: base address and length. *)

Definition Network : Type := Z * Z.

Definition in_net (width bits : Z) (n : Network) : bool :=
  bits / 2 ^ (width - n.2) =? n.1 / 2 ^ (width - n.2).

Definition net4 (a b c d length : Z) : Network := (bits_v4 (mkV4 a b c d), length).
Definition net6 (a b c d length : Z) : Network := (bits_v6 (mkV6 a b c d 0 0 0 0), length).

Definition SPECIAL_V4 : list Network :=
  [net4 0 0 0 0 8; net4 10 0 0 0 8; net4 127 0 0 0 8; net4 100 64 0 0 10; net4 169 254 0 0 16;
   net4 172 16 0 0 12; net4 192 0 0 0 24; net4 192 0 2 0 24; net4 192 88 99 0 24; net4 192 168 0 0 16;
   net4 198 18 0 0 15; net4 198 51 100 0 24; net4 203 0 113 0 24; net4 224 0 0 0 3].

(** Unspecified, loopback, multicast, IPv4-mapped, unique-local, link-local,
    site-local, NAT64, discard, IETF protocol assignments, documentation, 6to4,
    documentation, SRv6, IPv4-compatible. *)
Definition SPECIAL_V6 : list Network :=
  [(0, 128); (1, 128); net6 0xff00 0 0 0 8; (0xffff * 2 ^ 32, 96); net6 0xfc00 0 0 0 7;
   net6 0xfe80 0 0 0 10; net6 0xfec0 0 0 0 10; net6 0x64 0xff9b 0 0 96; net6 0x64 0xff9b 1 0 48;
   net6 0x100 0 0 0 64; net6 0x2001 0 0 0 23; net6 0x2001 0xdb8 0 0 32; net6 0x2002 0 0 0 16;
   net6 0x3fff 0 0 0 20; net6 0x5f00 0 0 0 16; (0, 96)].

(** A public address lies in none of them. *)
Definition Public (a : IpAddr) : Prop :=
  match a with
  | V4 a => ∀ n, n ∈ SPECIAL_V4 → in_net 32 (bits_v4 a) n = false
  | V6 a => ∀ n, n ∈ SPECIAL_V6 → in_net 128 (bits_v6 a) n = false
  end.

Lemma div_eqb_range x m q : 0 < m → (x / m =? q) = (q * m <=? x) && (x <? (q + 1) * m).
Proof.
  intros Hm. pose proof (Z.div_mod x m ltac:(lia)). pose proof (Z.mod_pos_bound x m Hm).
  apply Bool.eq_iff_eq_true. rewrite andb_true_iff, Z.eqb_eq, Z.leb_le, Z.ltb_lt. nia.
Qed.

(** A prefix is a range of numbers. *)
Lemma in_net_range w x n :
  0 ≤ w - n.2 →
  in_net w x n = (n.1 / 2 ^ (w - n.2) * 2 ^ (w - n.2) <=? x)
                 && (x <? (n.1 / 2 ^ (w - n.2) + 1) * 2 ^ (w - n.2)).
Proof. intros. apply div_eqb_range, Z.pow_pos_nonneg; lia. Qed.

(** Masking the low bits of a segment is a division. *)
Lemma land_prefix s k mask :
  0 ≤ s < 2 ^ 16 → 0 ≤ k → mask = Z.land (Z.ones 16) (Z.lnot (Z.ones k)) →
  Z.land s mask = s / 2 ^ k * 2 ^ k.
Proof.
  intros Hs Hk ->. rewrite Z.land_assoc, Z.land_ones, Z.mod_small by lia.
  rewrite <- Z.ldiff_land, Z.ldiff_ones_r, Z.shiftl_mul_pow2, Z.shiftr_div_pow2 by lia. done.
Qed.

Lemma land_prefix_eqb s k mask q v :
  0 ≤ s < 2 ^ 16 → 0 ≤ k → mask = Z.land (Z.ones 16) (Z.lnot (Z.ones k)) → v = q * 2 ^ k →
  (Z.land s mask =? v) = (v <=? s) && (s <? (q + 1) * 2 ^ k).
Proof.
  intros Hs Hk Hm ->. rewrite (land_prefix _ _ _ Hs Hk Hm).
  assert (0 < 2 ^ k) by (apply Z.pow_pos_nonneg; lia). rewrite <- div_eqb_range by done.
  apply Bool.eq_iff_eq_true. rewrite !Z.eqb_eq. apply Z.mul_cancel_r. lia.
Qed.

Lemma orb_cong a b c d : a = b → c = d → a || c = b || d.
Proof. by intros -> ->. Qed.

(** Replace a prefix test by its bounds, computed. *)
Ltac net_bounds :=
  match goal with
  | |- context [in_net ?w ?x ?n] =>
      let lo := eval vm_compute in (n.1 / 2 ^ (w - n.2) * 2 ^ (w - n.2)) in
      let hi := eval vm_compute in ((n.1 / 2 ^ (w - n.2) + 1) * 2 ^ (w - n.2)) in
      replace (in_net w x n) with ((lo <=? x) && (x <? hi))
        by (symmetry; apply (in_net_range w x n); vm_compute; discriminate)
  end.

(** Compare two disjunctions of tests of the same address, one test at a time. *)
Ltac nets :=
  rewrite <- !orb_assoc; repeat first [apply orb_cong | rewrite orb_false_r]; net_bounds.

Lemma blocked_ipv4_special a :
  valid_v4 a → blocked_ipv4 a = any (in_net 32 (bits_v4 a)) SPECIAL_V4.
Proof.
  destruct a as [a b c d]. intros H. unfold valid_v4, octets in H. cbn [oct0 oct1 oct2 oct3] in H.
  rewrite !Forall_cons in H. destruct H as (Ha & Hb & Hc & Hd & _). change (2 ^ 8) with 256 in *.
  unfold blocked_ipv4, SPECIAL_V4, any. cbn [existsb oct0 oct1 oct2].
  assert (bits_v4 (mkV4 a b c d) = a * 16777216 + b * 65536 + c * 256 + d) as Hx by (cbn; lia).
  revert Hx. generalize (bits_v4 (mkV4 a b c d)). intros x Hx.
  nets; lia.
Qed.

Lemma bool_decide_cons (x y : Z) l k (D : Decision (x :: l = y :: k)) :
  bool_decide (x :: l = y :: k) = (x =? y) && bool_decide (l = k).
Proof.
  apply Bool.eq_iff_eq_true. rewrite andb_true_iff, !bool_decide_eq_true, Z.eqb_eq. naive_solver.
Qed.

Lemma bool_decide_nil (D : Decision (@nil Z = [])) : bool_decide (@nil Z = []) = true.
Proof. by apply bool_decide_eq_true. Qed.

Lemma mapped_test a :
  bool_decide (is_Some (to_ipv4_mapped a)) = bool_decide (take 6 (segments a) = [0; 0; 0; 0; 0; 0xffff]).
Proof. unfold to_ipv4_mapped. case_bool_decide; case_decide; case_bool_decide; naive_solver. Qed.

Lemma blocked_ipv6_special a :
  valid_v6 a → blocked_ipv6 a = any (in_net 128 (bits_v6 a)) SPECIAL_V6.
Proof.
  intros H. unfold blocked_ipv6. rewrite mapped_test. unfold is_unspecified, is_loopback, is_multicast.
  destruct a as [a b c d e f g h]. unfold valid_v6, segments in *.
  cbn [seg0 seg1 seg2 seg3 seg4 seg5 seg6 seg7 take drop] in *.
  rewrite !Forall_cons in H. destruct H as (Ha & Hb & Hc & Hd & He & Hf & Hg & Hh & _).
  rewrite !bool_decide_cons, !bool_decide_nil, !andb_true_r.
  rewrite (land_prefix_eqb a 8 0xff00 0xff 0xff00) by (done || lia).
  rewrite (land_prefix_eqb a 9 0xfe00 0x7e 0xfc00) by (done || lia).
  rewrite (land_prefix_eqb a 6 0xffc0 0x3fa 0xfe80) by (done || lia).
  rewrite (land_prefix_eqb a 6 0xffc0 0x3fb 0xfec0) by (done || lia).
  rewrite (land_prefix_eqb b 12 0xf000 0 0) by (done || lia).
  change (2 ^ 16) with 65536 in *. unfold SPECIAL_V6, any. cbn [existsb].
  assert (bits_v6 (mkV6 a b c d e f g h)
    = a * 2 ^ 112 + b * 2 ^ 96 + c * 2 ^ 80 + d * 2 ^ 64 + e * 2 ^ 48 + f * 2 ^ 32 + g * 65536 + h) as Hx
    by (unfold bits_v6; cbn; lia).
  revert Hx. generalize (bits_v6 (mkV6 a b c d e f g h)). intros x Hx.
  nets; lia.
Qed.

Lemma validate_public_address_spec a :
  valid_ip a → validate_public_address a = Ok tt ↔ Public a.
Proof.
  intros Hv. destruct a as [a|a]; cbn [validate_public_address Public]; [rewrite blocked_ipv4_special by done|rewrite blocked_ipv6_special by done];
    destruct (any _ _) eqn:E; split; try done.
  1, 3: apply any_true in E as (n & Hn & E); intros H; by rewrite (H n Hn) in E.
  all: rewrite any_false, Forall_forall in E; intros _ n Hn; by apply E.
Qed.

(** ** Names *)

(** A canonical DNS name: at least two labels of 1 to 63 lower-case letters, digits
    and inner hyphens, 253 characters at most, not under [localhost]. *)
Definition is_canonical_char (c : Z) : bool := is_digit c || ((97 <=? c) && (c <=? 122)) || (c =? DASH).

Record CanonicalDns (c : str) : Prop := {
  cd_length : 1 ≤ len c ≤ 253;
  cd_labels : Forall (λ l,
    1 ≤ len l ≤ 63 ∧ Forall (λ x, is_canonical_char x = true) l ∧
    head l ≠ Some DASH ∧ last l ≠ Some DASH) (split (λ x, x =? DOT) c);
  cd_two : DOT ∈ c;
  cd_local : c ≠ chars "localhost" ∧ ¬ ∃ t, c = t ++ chars ".localhost";
}.

Lemma starts_with_one (x : Z) l : starts_with [x] l = true ↔ head l = Some x.
Proof. rewrite starts_with_true. destruct l as [|y l]; cbn; naive_solver. Qed.

Lemma ends_with_one (x : Z) l : ends_with [x] l = true ↔ last l = Some x.
Proof.
  rewrite ends_with_true. rewrite last_Some. naive_solver.
Qed.

Lemma len_as_bytes_ascii (s : str) : Forall (λ c, c < 0x80) s → len (as_bytes s) = len s.
Proof.
  unfold as_bytes. induction 1 as [|c s Hc _ IH]; [done|]. rewrite fmap_cons. cbn [concat].
  rewrite len_app, len_cons, IH. unfold encode_char. by replace (c <? 0x80) with true by lia.
Qed.

(** Lower-casing twice changes nothing, and no letter of the result is a capital. *)
Lemma lower_idem c : lower (lower c) = lower c.
Proof. unfold lower. repeat case_match; lia. Qed.

Lemma lower_canonical c :
  is_alphanumeric (lower c) || (lower c =? DASH) = true → is_canonical_char (lower c) = true.
Proof. unfold is_alphanumeric, is_canonical_char, is_digit, lower. repeat case_match; lia. Qed.

Lemma canonical_fixed c : is_canonical_char c = true → lower c = c ∧ c < 0x80 ∧ is_alphanumeric c || (c =? DASH) = true.
Proof. unfold is_canonical_char, is_alphanumeric, is_digit, lower, DASH. repeat case_match; lia. Qed.

Lemma label_ok_spec l :
  label_ok l = true ↔
  1 ≤ len l ∧ len (as_bytes l) ≤ 63 ∧ Forall (λ c, is_alphanumeric c || (c =? DASH) = true) l ∧
  head l ≠ Some DASH ∧ last l ≠ Some DASH.
Proof.
  unfold label_ok. rewrite negb_true_iff, !orb_false_iff, negb_false_iff, bool_decide_eq_false, Z.ltb_ge, all_true.
  rewrite <- !not_true_iff_false, starts_with_one, ends_with_one.
  assert (l ≠ [] ↔ 1 ≤ len l) as -> by (destruct l; rewrite ?len_cons; unfold len; cbn; split; (done || lia)).
  tauto.
Qed.

(** Labels of a lower-cased name. *)
Lemma label_ok_lower l :
  Forall (λ c, ∃ d, c = lower d) l → label_ok l = true →
  1 ≤ len l ≤ 63 ∧ Forall (λ c, is_canonical_char c = true) l ∧ head l ≠ Some DASH ∧ last l ≠ Some DASH.
Proof.
  intros Hlow (H1 & H2 & H3 & H4 & H5)%label_ok_spec. pose proof (len_as_bytes l).
  split_and!; [done|lia| |done|done]. rewrite !Forall_forall in *. intros c Hc.
  destruct (Hlow c Hc) as [d ->]. apply lower_canonical. by apply H3.
Qed.

Lemma canonicalize_dns_name_Ok v c :
  canonicalize_dns_name v = Ok c →
  CanonicalDns c ∧ c = lower <$> default v (strip_suffix [DOT] v).
Proof.
  unfold canonicalize_dns_name. set (c' := lower <$> default v (strip_suffix [DOT] v)).
  assert (Forall (λ x, ∃ d, x = lower d) c') as Hlow.
  { apply Forall_forall. intros x (y & -> & _)%list_elem_of_fmap. by exists y. }
  clearbody c'. destruct (_ || negb _) eqn:E1; [done|]. destruct (_ || ends_with _ _) eqn:E2; [done|].
  destruct (all _ _) eqn:E3; [|done]. intros [= <-]. split; [|done].
  rewrite !orb_false_iff, negb_false_iff, bool_decide_eq_false, Z.ltb_ge, any_true in E1.
  rewrite !orb_false_iff, bool_decide_eq_false in E2. rewrite all_true in E3.
  destruct E1 as [[Hne Hl] (x & Hx & ->%Z.eqb_eq)], E2 as [Hlo1 Hlo2].
  pose proof (len_as_bytes c'). split.
  - assert (len c' ≠ 0) by (destruct c'; [done|]; unfold len; cbn; lia). pose proof (len_nonneg c'). lia.
  - pose proof (split_Forall (λ x, x =? DOT) _ _ Hlow) as Hlow'. rewrite !Forall_forall in *.
    intros l Hin. apply label_ok_lower; [|by apply E3]. by apply Hlow'.
  - done.
  - split; [done|]. rewrite <- ends_with_true. by rewrite Hlo2.
Qed.

Lemma canonical_chars c : CanonicalDns c → Forall (λ x, lower x = x ∧ x < 0x80) c.
Proof.
  intros [_ Hl _ _]. assert (Forall (Forall (λ x, is_canonical_char x = true)) (split (λ x, x =? DOT) c)) as H.
  { eapply Forall_impl; [exact Hl|]. by intros l (_ & ? & _). }
  apply split_Forall_inv in H. eapply Forall_impl; [exact H|]. cbn.
  intros x [->%Z.eqb_eq|Hx]; [by split|]. by destruct (canonical_fixed _ Hx) as (? & ? & _).
Qed.

Lemma canonical_no_trailing_dot c : CanonicalDns c → strip_suffix [DOT] c = None.
Proof.
  intros [_ Hl _ _]. destruct (strip_suffix [DOT] c) as [t|] eqn:E; [|done]. exfalso.
  apply strip_suffix_Some in E as ->. rewrite Forall_forall in Hl.
  destruct (Hl [] (split_loop_trailing _ t DOT [] eq_refl)) as [H _]. cbn in H. unfold len in H. cbn in H. lia.
Qed.

Lemma canonicalize_canonical c v :
  CanonicalDns c → lower <$> default v (strip_suffix [DOT] v) = c → canonicalize_dns_name v = Ok c.
Proof.
  intros Hc Hv. unfold canonicalize_dns_name. rewrite Hv. pose proof (canonical_chars c Hc) as Hch.
  assert (∀ l, Forall (λ x, lower x = x ∧ x < 0x80) l → len (as_bytes l) = len l) as Hlen.
  { intros l Hl. apply len_as_bytes_ascii. eapply Forall_impl; [exact Hl|]. by intros ? []. }
  destruct Hc as [Hcl Hl Htwo [Hlo1 Hlo2]].
  rewrite (proj2 (orb_false_iff _ _)).
  2: { rewrite orb_false_iff, negb_false_iff, bool_decide_eq_false, Z.ltb_ge, Hlen, any_true by done.
       split_and!; [intros ->; cbn in Hcl; unfold len in Hcl; cbn in Hcl; lia|lia|]. by exists DOT. }
  rewrite (proj2 (orb_false_iff _ _)).
  2: { rewrite bool_decide_eq_false. split; [done|]. apply not_true_iff_false. by rewrite ends_with_true. }
  rewrite (proj2 (all_true _ _)); [done|]. pose proof (split_Forall (λ x, x =? DOT) _ _ Hch) as Hch'.
  rewrite Forall_forall in Hl, Hch' |- *. intros l Hin. destruct (Hl l Hin) as (H1 & H2 & H3 & H4).
  apply label_ok_spec. rewrite Hlen by (by apply Hch'). split_and!; [lia|lia| |done|done].
  eapply Forall_impl; [exact H2|]. intros x Hx. by apply canonical_fixed in Hx as (_ & _ & ?).
Qed.

(** ** Addresses of a resolution *)

(** The addresses a host may resolve to: a literal only to itself. *)
Definition Accepts (h : TargetHost) (a : IpAddr) : Prop :=
  match h with Ip e => a = e | Dns _ => True end.

Lemma mismatch_false h a : mismatch h a = false ↔ Accepts h a.
Proof. destruct h; cbn; [done|]. by rewrite negb_false_iff, bool_decide_eq_true. Qed.

Lemma mismatch_true h a : mismatch h a = true ↔ ¬ Accepts h a.
Proof. rewrite <- mismatch_false. by destruct (mismatch h a). Qed.

Lemma validate_addresses_Ok h addresses :
  validate_addresses h addresses = Ok tt ↔
  Forall (λ a, validate_public_address a = Ok tt ∧ Accepts h a) addresses.
Proof.
  induction addresses as [|a addresses IH]; cbn [validate_addresses]; [by split; [constructor|]|].
  rewrite Forall_cons, <- IH, <- mismatch_false.
  destruct (validate_public_address a) as [[]|e], (mismatch h a); naive_solver.
Qed.

Lemma validate_addresses_Err h addresses e :
  Forall valid_ip addresses →
  validate_addresses h addresses = Err e ↔
  ∃ before a after, addresses = before ++ a :: after ∧ Forall (λ x, Public x ∧ Accepts h x) before ∧
    (¬ Public a ∧ e = BlockedResolution ∨ Public a ∧ ¬ Accepts h a ∧ e = LiteralAddressMismatch).
Proof.
  induction 1 as [|a addresses Ha _ IH]; cbn [validate_addresses].
  { split; [done|]. by intros ([] & ? & ? & ? & _). }
  trans (¬ Public a ∧ e = BlockedResolution ∨ Public a ∧ ¬ Accepts h a ∧ e = LiteralAddressMismatch ∨
         Public a ∧ Accepts h a ∧ validate_addresses h addresses = Err e).
  - rewrite <- (validate_public_address_spec a Ha), <- mismatch_false.
    destruct (validate_public_address a) as [[]|e'], (mismatch h a); naive_solver.
  - rewrite IH. split.
    + intros [Hx|[Hx|(Hp & Hm & before & y & after & -> & Hb & Hy)]];
        [exists [], a, addresses; naive_solver..|].
      exists (a :: before), y, after. split_and!; [done|by constructor|done].
    + intros ([|x before] & y & after & [= <- ->] & Hb & Hy); [naive_solver|].
      apply Forall_cons in Hb as [[Hp Hm] Hb]. right; right. split_and!; [done|done|].
      by exists before, y, after.
Qed.

Lemma target_host_Ok lib url h url' :
  target_host lib url = Ok (h, url') →
  match h with
  | Dns d => CanonicalDns d
  | Ip a => validate_public_address a = Ok tt
  end.
Proof.
  unfold target_host. intros ([d|a|a] & _ & H)%bind_Ok.
  - apply bind_Ok in H as (c & Hc & H). apply bind_Ok in H as (u & _ & [= <- _]).
    by apply canonicalize_dns_name_Ok in Hc as [? _].
  - apply bind_Ok in H as ([] & Hc & [= <- _]). done.
  - apply bind_Ok in H as ([] & Hc & [= <- _]). done.
Qed.

(** What every validated target satisfies. *)
Definition TargetOk (policy : TargetPolicy) (t : ValidatedTarget) : Prop :=
  match host t with
  | Dns d => CanonicalDns d
  | Ip a => validate_public_address a = Ok tt
  end ∧
  port t ≠ 0 ∧
  match policy with ExactHosts l => host_str (host t) ∈ hosts l | PublicInternet => True end.

Lemma validate_target_Ok lib input policy t :
  validate_target lib input policy = Ok t → TargetOk policy t.
Proof.
  unfold validate_target. intros ([] & _ & H)%bind_Ok.
  destruct (any is_whitespace input || any is_control input); [done|].
  apply bind_Ok in H as (url & _ & H). repeat (destruct (negb _); [done|]). cbn in H.
  repeat (destruct (bool_decide _); [done|]).
  apply bind_Ok in H as ([h url'] & Hh%target_host_Ok & H).
  destruct (match policy with PublicInternet => _ | ExactHosts _ => _ end) eqn:Hp; [done|].
  apply bind_Ok in H as (p & _ & H). destruct (p =? 0) eqn:E; [done|]. boolify. injection H as <-.
  split_and!; [done|done|]. cbn. destruct policy as [|l]; [done|].
  apply negb_false_iff, bool_decide_eq_true in Hp. done.
Qed.

(** The targets one request may reach: the first one, and whatever a chain of
    redirects leads to. *)
Inductive Hop (lib : UrlLib) (policy : TargetPolicy) : ValidatedTarget → Prop :=
| hop_start input t : validate_target lib input policy = Ok t → Hop lib policy t
| hop_redirect t location t' :
    Hop lib policy t → validate_redirect lib t location policy = Ok t' → Hop lib policy t'.

Lemma Hop_ok lib policy t : Hop lib policy t → TargetOk policy t.
Proof.
  induction 1 as [input t H|t location t' _ _ H]; [by eapply validate_target_Ok|].
  unfold validate_redirect in H. apply bind_Ok in H as (? & _ & H). apply bind_Ok in H as (? & _ & H).
  by eapply validate_target_Ok.
Qed.

(** ** Theorems *)

(** C13. No request reaches a non-public address: whatever the URL parser answers,
    along any chain of redirects, a connection is permitted only when the
    resolver gave at least one address, all of them lie outside every special-use
    network, all of them equal the literal when the target is one, the port is not
    zero, and under an allowlist the host is one of its entries. *)
Theorem ssrf_safety (lib : UrlLib) (policy : TargetPolicy) (t : ValidatedTarget) (addresses : list IpAddr) :
  Hop lib policy t → Forall valid_ip addresses → validate_resolution t addresses = Ok tt →
  addresses ≠ [] ∧ Forall Public addresses ∧ port t ≠ 0 ∧
  match host t with
  | Dns d => CanonicalDns d
  | Ip a => Forall (λ x, x = a) addresses
  end ∧
  match policy with ExactHosts l => host_str (host t) ∈ hosts l | PublicInternet => True end.
Proof.
  intros (Hh & Hp & Hl)%Hop_ok Hv Hr. unfold validate_resolution in Hr.
  destruct (decide (addresses = [])); [done|]. apply validate_addresses_Ok in Hr.
  rewrite Forall_forall in Hv, Hr. split_and!; [done| |done| |done].
  - apply Forall_forall. intros a Ha. apply validate_public_address_spec; [by apply Hv|by apply Hr].
  - destruct (host t); [done|]. apply Forall_forall. intros a Ha. by apply Hr.
Qed.

(** The octet and segment tests are exactly the special-use networks: an
    address is refused iff it lies in one of the listed prefixes. *)
Theorem special_use_exact (a : IpAddr) :
  valid_ip a →
  match a with
  | V4 a => blocked_ipv4 a = true ↔ ∃ n, n ∈ SPECIAL_V4 ∧ in_net 32 (bits_v4 a) n = true
  | V6 a => blocked_ipv6 a = true ↔ ∃ n, n ∈ SPECIAL_V6 ∧ in_net 128 (bits_v6 a) n = true
  end.
Proof.
  destruct a as [a|a]; intros Hv; rewrite <- any_true;
    [by rewrite blocked_ipv4_special|by rewrite blocked_ipv6_special].
Qed.

(** A resolution is refused for the first reason that applies: nothing
    resolved, else the first address that is not public or differs from the
    literal decides. *)
Theorem resolution_errors (t : ValidatedTarget) (addresses : list IpAddr) (e : ResolutionError) :
  Forall valid_ip addresses →
  validate_resolution t addresses = Err e ↔
  addresses = [] ∧ e = NoAddresses ∨
  ∃ before a after, addresses = before ++ a :: after ∧
    Forall (λ x, Public x ∧ Accepts (host t) x) before ∧
    (¬ Public a ∧ e = BlockedResolution ∨
     Public a ∧ ¬ Accepts (host t) a ∧ e = LiteralAddressMismatch).
Proof.
  intros Hv. unfold validate_resolution. rewrite <- validate_addresses_Err by done.
  destruct (decide (addresses = [])) as [->|Hne]; naive_solver.
Qed.

(** Canonical names: an accepted host name is in canonical form, lower-cased
    and without its root dot, and canonicalization is idempotent: the canonical
    form, with or without a root dot or capital letters, is accepted as itself. *)
Theorem dns_name_canonical (v c : str) :
  canonicalize_dns_name v = Ok c →
  CanonicalDns c ∧ c = lower <$> default v (strip_suffix [DOT] v) ∧
  ∀ w, lower <$> w = c → canonicalize_dns_name w = Ok c ∧ canonicalize_dns_name (w ++ [DOT]) = Ok c.
Proof.
  intros (Hc & Hv)%canonicalize_dns_name_Ok. split_and!; [done|done|]. intros w Hw.
  split; apply canonicalize_canonical; try done.
  - enough (strip_suffix [DOT] w = None) as -> by done.
    destruct (strip_suffix [DOT] w) as [t|] eqn:E; [|done]. exfalso.
    apply strip_suffix_Some in E as ->. rewrite fmap_app in Hw.
    pose proof (canonical_no_trailing_dot c Hc) as H. rewrite <- Hw in H.
    rewrite (proj2 (strip_suffix_Some [DOT] _ (lower <$> t))) in H; [done|]. done.
  - rewrite (proj2 (strip_suffix_Some [DOT] _ w)) by done. done.
Qed.

Lemma canonicalize_all_Ok entries hs :
  canonicalize_all entries = Ok hs → Forall2 (λ e h, canonicalize_host_entry e = Ok h) entries hs.
Proof.
  revert hs. induction entries as [|e entries IH]; intros hs; cbn; [intros [= <-]; constructor|].
  intros (h & Hh & (hs' & Hhs & [= <-])%bind_Ok)%bind_Ok. constructor; [done|]. by apply IH.
Qed.

(** An allowlist admits exactly its entries: a host is on the list iff it is
    the canonical form of one of them, no subdomain implied, and every host on it
    is a canonical name or the text of a public address. *)
Theorem allowlist_exact (entries : list str) (l : HostAllowlist) (h : str) :
  allowlist_new entries = Ok l →
  contains l h = true ↔
    ∃ e, e ∈ entries ∧ canonicalize_host_entry e = Ok h ∧
      (CanonicalDns h ∨ ∃ a, ip_from_str e = Some a ∧ Public a ∧ h = ip_to_string a).
Proof.
  unfold allowlist_new. intros (hs & Hhs%canonicalize_all_Ok & [= <-])%bind_Ok.
  unfold contains. cbn. rewrite bool_decide_eq_true. split.
  - intros [i Hi]%list_elem_of_lookup. destruct (Forall2_lookup_r _ _ _ _ _ Hhs Hi) as (e & He & Hc).
    exists e. split_and!; [by eapply list_elem_of_lookup_2|done|]. unfold canonicalize_host_entry in Hc.
    destruct (ip_from_str e) as [a|] eqn:E.
    + right. apply bind_Ok in Hc as ([] & Hp & [= <-]). exists a. split_and!; [done| |done].
      by apply validate_public_address_spec; [apply (ip_from_str_valid e)|].
    + left. by apply canonicalize_dns_name_Ok in Hc as [? _].
  - intros (e & [i Hi]%list_elem_of_lookup & Hc & _).
    destruct (Forall2_lookup_l _ _ _ _ _ Hhs Hi) as (h' & Hh' & Hc').
    rewrite Hc in Hc'. injection Hc' as <-. by eapply list_elem_of_lookup_2.
Qed.

(** The text of an accepted target is unambiguous: an HTTP or HTTPS URL free
    of white space and control characters, whose authority is not empty, names no
    user ([@]), is not percent-encoded, and whose host is a plain dotted quad
    whenever it looks like an IPv4 address in any notation. *)
Theorem raw_target_unambiguous (lib : UrlLib) (input : str) (policy : TargetPolicy) (t : ValidatedTarget) :
  validate_target lib input policy = Ok t →
  Forall (λ c, is_whitespace c = false ∧ is_control c = false) input ∧
  ∃ sch rest raw_host,
    input = sch ++ chars "://" ++ rest ∧
    (lower <$> sch = chars "http" ∨ lower <$> sch = chars "https") ∧
    authority_of rest ≠ [] ∧
    Forall (λ c, c ≠ 0x40 ∧ c ≠ 0x25) (authority_of rest) ∧
    raw_host_of (authority_of rest) = Ok raw_host ∧ raw_host ≠ [] ∧
    (looks_like_noncanonical_ipv4 raw_host = true → is_Some (ipv4_from_str raw_host)).
Proof.
  unfold validate_target. intros ([] & Hraw & H)%bind_Ok. split.
  { destruct (any is_whitespace input || any is_control input) eqn:E; [done|].
    apply orb_false_iff in E as [E1 E2]. rewrite any_false in E1, E2.
    rewrite Forall_forall in *. intros c Hc. split; [by apply E1|by apply E2]. }
  clear H. unfold validate_raw_authority in Hraw.
  destruct (find_str (chars "://") input) as [[sch rest]|] eqn:Ef; [|done].
  apply find_str_Some in Ef. destruct (negb _ && negb _) eqn:Es; [done|].
  destruct (bool_decide (authority_of rest = [])) eqn:Ea; [done|].
  destruct (any _ (authority_of rest)) eqn:Eat; [done|].
  destruct (any (λ c, c =? 0x25) (authority_of rest)) eqn:Epc; [done|].
  apply bind_Ok in Hraw as (raw & Hr & Hraw). destruct (bool_decide (raw = [])) eqn:Er; [done|].
  destruct (looks_like_noncanonical_ipv4 raw && _) eqn:El; [done|].
  rewrite any_false in Eat, Epc. exists sch, rest, raw. rewrite bool_decide_eq_false in Ea, Er.
  split_and!; [done| |done| |done|done|].
  - unfold eq_ignore_case in Es. rewrite andb_false_iff, !negb_false_iff, !bool_decide_eq_true in Es.
    exact Es.
  - rewrite Forall_forall in *. intros c Hc. split; apply Z.eqb_neq; [by apply Eat|by apply Epc].
  - intros Hl. rewrite Hl in El. cbn in El. by apply negb_false_iff, bool_decide_eq_true in El.
Qed.

(** ** Witnesses *)

(** A URL reader for [https://host], enough to run the checks. *)
Definition SimpleUrls : UrlLib := {|
  Url := str;
  url_parse := strip_prefix (chars "https://");
  scheme _ := chars "https";
  username _ := [];
  password _ := None;
  fragment _ := None;
  url_host u := Some (match ip_from_str u with
                      | Some (V4 a) => HostV4 a | Some (V6 a) => HostV6 a | None => Domain u end);
  set_host _ h := Some h;
  port_or_known_default _ := Some 443;
  url_text u := chars "https://" ++ u;
  url_join _ l := strip_prefix (chars "https://") l;
|}.

Definition example_list : HostAllowlist := mkHostAllowlist [chars "example.com"; chars "8.8.8.8"].
Definition example_target : ValidatedTarget :=
  mkValidatedTarget (chars "https://example.com") (Dns (chars "example.com")) 443.
Definition dns_target : ValidatedTarget :=
  mkValidatedTarget (chars "https://8.8.8.8") (Ip (V4 (mkV4 8 8 8 8))) 443.

Lemma ssrf_safety_witness :
  validate_resolution dns_target [V4 (mkV4 8 8 8 8)] = Ok tt ∧ Public (V4 (mkV4 8 8 8 8)) ∧
  validate_target SimpleUrls (chars "https://127.1") PublicInternet = Err AmbiguousIpLiteral ∧
  validate_redirect SimpleUrls example_target (chars "https://169.254.169.254") PublicInternet = Err BlockedAddress.
Proof.
  split; [reflexivity|]. split; [|split; reflexivity].
  destruct (ssrf_safety SimpleUrls (ExactHosts example_list) dns_target [V4 (mkV4 8 8 8 8)])
    as (_ & H & _).
  - apply (hop_redirect _ _ example_target (chars "https://8.8.8.8")); [|vm_compute; reflexivity].
    apply (hop_start _ _ (chars "https://Example.com")). vm_compute. reflexivity.
  - valid_addr.
  - reflexivity.
  - apply Forall_cons in H as [H _]. exact H.
Defined.

Lemma special_use_exact_witness :
  ∃ n, n ∈ SPECIAL_V4 ∧ in_net 32 (bits_v4 (mkV4 172 31 255 1)) n = true.
Proof.
  apply (special_use_exact (V4 (mkV4 172 31 255 1))); [valid_addr|reflexivity].
Defined.

Lemma resolution_errors_witness :
  validate_resolution dns_target [V4 (mkV4 8 8 8 8); V4 (mkV4 10 0 0 1)] = Err BlockedResolution ∧
  ∃ before a after, [V4 (mkV4 8 8 8 8); V4 (mkV4 10 0 0 1)] = before ++ a :: after ∧ ¬ Public a.
Proof.
  split; [reflexivity|].
  destruct (proj1 (resolution_errors dns_target [V4 (mkV4 8 8 8 8); V4 (mkV4 10 0 0 1)] BlockedResolution
    ltac:(valid_addr)) eq_refl) as [[? _]|(b & a & c & He & _ & [[Hn _]|(_ & _ & ?)])]; [done| |done].
  by exists b, a, c.
Defined.

Lemma dns_name_canonical_witness :
  canonicalize_dns_name (chars "Api.Example.COM.") = Ok (chars "api.example.com") ∧
  canonicalize_dns_name (chars "API.example.com") = Ok (chars "api.example.com").
Proof.
  split; [reflexivity|].
  apply (dns_name_canonical (chars "Api.Example.COM.") (chars "api.example.com")); reflexivity.
Defined.

Lemma allowlist_exact_witness :
  contains example_list (chars "sub.example.com") = false ∧
  ∃ e, e ∈ [chars "EXAMPLE.com."; chars "8.8.8.8"] ∧ canonicalize_host_entry e = Ok (chars "example.com").
Proof.
  split; [reflexivity|].
  destruct (proj1 (allowlist_exact [chars "EXAMPLE.com."; chars "8.8.8.8"] example_list (chars "example.com")
    ltac:(vm_compute; reflexivity)) ltac:(vm_compute; reflexivity)) as (e & H1 & H2 & _).
  by exists e.
Defined.

Lemma raw_target_unambiguous_witness :
  ∃ sch rest raw_host, chars "https://8.8.8.8" = sch ++ chars "://" ++ rest ∧
    raw_host_of (authority_of rest) = Ok raw_host ∧ raw_host ≠ [].
Proof.
  destruct (raw_target_unambiguous SimpleUrls (chars "https://8.8.8.8") PublicInternet dns_target
    ltac:(vm_compute; reflexivity)) as (_ & sch & rest & raw & H1 & _ & _ & _ & H2 & H3 & _).
  by exists sch, rest, raw.
Defined.

End Ssrf.
