(* ===== verification/Segmentation.v ===== *)
(** * Message segmentation

    [crates/claw-channel-sdk/src/segmentation.rs]: a reply longer than a channel's
    message limit is cut into segments that fit, at a newline, a space or a
    cluster boundary, closing and reopening a fenced code block that a cut falls
    into. Offsets are character indices here and byte indices in the source; both
    only serve to slice the text at characters. *)

From S2P Require Import Prelude Utf8 Text.

Module Segmentation.

(** ** Limits *)

Inductive LengthUnit := Chars | Utf16CodeUnits | Bytes.

(** [char::len_utf8] *)
Definition len_utf8 (c : Z) : Z :=
  if c <? 0x80 then 1 else if c <? 0x800 then 2 else if c <? 0x10000 then 3 else 4.

Definition measure_char (u : LengthUnit) (c : Z) : Z :=
  match u with Chars => 1 | Utf16CodeUnits => len_utf16 c | Bytes => len_utf8 c end.

Definition sum (l : list Z) : Z := foldr Z.add 0 l.

(** [text.len()] *)
Definition byte_len (text : str) : Z := sum (len_utf8 <$> text).

Definition measure (u : LengthUnit) (text : str) : Z :=
  match u with
  | Chars => len text
  | Utf16CodeUnits => sum (len_utf16 <$> text)
  | Bytes => byte_len text
  end.

(** [max] is a [NonZeroU32]. *)
Record OutputLimit := mkOutputLimit { max : Z; unit_ : LengthUnit }.

Definition fits (l : OutputLimit) (text : str) : bool :=
  (byte_len text <=? max l) || (measure (unit_ l) text <=? max l).

Inductive SegmentationError := NoDeclaredLimit | LimitTooSmall | IndivisibleCluster.

(** ** Clusters *)

Definition ZERO_WIDTH_JOINER : Z := 0x200d.
Definition NEWLINE : Z := 0x0A.
Definition RETURN : Z := 0x0D.
Definition SPACE : Z := 0x20.
Definition BACKTICK : Z := 0x60.
Definition TILDE : Z := 0x7E.

Definition within (lo hi c : Z) : bool := (lo <=? c) && (c <=? hi).

Definition binds_to_previous (c : Z) : bool :=
  any (λ r, within r.1 r.2 c)
    [(0x0300, 0x036f); (0x0483, 0x0489);
     (0x0591, 0x05bd); (0x05bf, 0x05bf); (0x05c1, 0x05c2); (0x05c4, 0x05c5); (0x05c7, 0x05c7);
     (0x0610, 0x061a); (0x064b, 0x065f); (0x0670, 0x0670);
     (0x06d6, 0x06dc); (0x06df, 0x06e4); (0x06e7, 0x06e8); (0x06ea, 0x06ed);
     (0x0e31, 0x0e31); (0x0e34, 0x0e3a); (0x0e47, 0x0e4e);
     (0x1160, 0x11ff); (0xd7b0, 0xd7c6); (0xd7cb, 0xd7fb);
     (0x200c, 0x200d); (0x1ab0, 0x1aff); (0x1dc0, 0x1dff); (0x20d0, 0x20f0);
     (0xfe00, 0xfe0f); (0xfe20, 0xfe2f); (0x1f3fb, 0x1f3ff);
     (0xe0020, 0xe007f); (0xe0100, 0xe01ef)].

Definition is_regional_indicator (c : Z) : bool := within 0x1f1e6 0x1f1ff c.

Definition is_cluster_boundary (previous : option Z) (next : Z) (regional_run : Z) : bool :=
  match previous with
  | None => true
  | Some previous =>
      if (previous =? ZERO_WIDTH_JOINER) || ((previous =? RETURN) && (next =? NEWLINE)) then false
      else if binds_to_previous next then false
      else negb (is_regional_indicator next && (regional_run mod 2 =? 1))
  end.

(** ** The window *)

Record Window := mkWindow {
  window_fits : bool;
  ceiling : nat;
  last_newline : option (nat * Z);
  last_space : option (nat * Z);
}.

Definition window_default : Window := mkWindow false 0 None None.

(** What the loop records when a segment may end before the character [c]. *)
Definition note_boundary (w : Window) (offset : nat) (units : Z) (c : Z) : Window :=
  if c =? NEWLINE then mkWindow (window_fits w) offset (Some (offset, units)) (last_space w)
  else if c =? SPACE then mkWindow (window_fits w) offset (last_newline w) (Some (offset, units))
  else mkWindow (window_fits w) offset (last_newline w) (last_space w).

Fixpoint scan_loop (u : LengthUnit) (budget : Z) (rest : str) (offset : nat) (units : Z)
    (previous : option Z) (regional_run : Z) (w : Window) : Window :=
  match rest with
  | [] => if units <=? budget then mkWindow true offset (last_newline w) (last_space w) else w
  | c :: rest =>
      if budget <? units then w
      else
        scan_loop u budget rest (S offset) (units + measure_char u c) (Some c)
          (if is_regional_indicator c then regional_run + 1 else 0)
          (if (0 <? offset)%nat && is_cluster_boundary previous c regional_run
           then note_boundary w offset units c else w)
  end.

Definition scan_window (text : str) (u : LengthUnit) (budget : Z) : Window :=
  scan_loop u budget text 0 0 None 0 window_default.

(** A break that lies far enough into the budget. *)
Definition pick (at_ : option (nat * Z)) (far_enough : Z → bool) : option nat :=
  match at_ with
  | Some (offset, units) => if far_enough units then Some offset else None
  | None => None
  end.

Definition choose_break (w : Window) (budget : Z) : nat :=
  match pick (last_newline w) (λ units, budget <=? units * 2) with
  | Some offset => offset
  | None => default (ceiling w) (pick (last_space w) (λ units, budget * 3 <=? units * 10))
  end.

(** ** Fences *)

Record Fence := mkFence { marker : str; info : str }.

Definition reopen_units (f : Fence) (u : LengthUnit) : Z := measure u (marker f) + measure u (info f) + 1.
Definition close_units (f : Fence) (u : LengthUnit) : Z := measure u (marker f) + 1.

Record OpenFence := mkOpenFence { fence : Fence; line_start : option nat }.

(** [s.trim_start_matches(c)] and [s.trim_end_matches(c)] *)
Fixpoint trim_start_matches (c : Z) (s : str) : str :=
  match s with d :: s' => if d =? c then trim_start_matches c s' else s | [] => [] end.
Definition trim_end_matches (c : Z) (s : str) : str := reverse (trim_start_matches c (reverse s)).

Definition opening_fence (line : str) : option Fence :=
  let line := trim_end_matches RETURN line in
  let content := trim_start_matches SPACE line in
  if (3 <? length line - length content)%nat then None
  else
    match content with
    | [] => None
    | character :: _ =>
        if negb (character =? BACKTICK) && negb (character =? TILDE) then None
        else
          let rest := trim_start_matches character content in
          let run := (length content - length rest)%nat in
          if (run <? 3)%nat then None
          else
            let info := trim rest in
            if (character =? BACKTICK) && any (λ c, c =? BACKTICK) info then None
            else Some (mkFence (take run content) info)
    end.

Definition closes_fence (line marker : str) : bool :=
  let line := trim_end_matches RETURN line in
  let content := trim_start_matches SPACE line in
  if (3 <? length line - length content)%nat then false
  else
    match marker with
    | [] => false
    | character :: _ =>
        let rest := trim_start_matches character content in
        (length marker <=? length content - length rest)%nat && bool_decide (trim rest = [])
    end.

(** The loop of [fence_open_at] over the lines of the text; [start] is its
    [line_start]. *)
Fixpoint fence_loop (lines : list str) (start offset : nat) (open : option OpenFence) : option OpenFence :=
  match lines with
  | [] => open
  | line :: lines =>
      if (start <? offset)%nat then
        let line_end := (start + length line)%nat in
        let open :=
          match open with
          | None =>
              match opening_fence line with
              | Some f => Some (mkOpenFence f (Some start))
              | None => None
              end
          | Some state =>
              if (line_end <=? offset)%nat && closes_fence line (marker (fence state)) then None
              else Some state
          end in
        fence_loop lines (S line_end) offset open
      else open
  end.

Definition fence_open_at (text : str) (offset : nat) (carry : option Fence) : option OpenFence :=
  fence_loop (split (λ c, c =? NEWLINE) text) 0 offset ((λ f, mkOpenFence f None) <$> carry).

(** Where the line ending before [start] begins, if there is one. *)
Definition line_ending_before (text : str) (start : nat) : option nat :=
  match start with
  | O => None
  | S newline =>
      if decide (text !! newline = Some NEWLINE) then
        match newline with
        | S n => if decide (text !! n = Some RETURN) then Some n else Some newline
        | O => Some newline
        end
      else None
  end.

Definition place_split (text : str) (w : Window) (budget : Z) (carry : option Fence) : nat * option Fence :=
  let split := choose_break w budget in
  match fence_open_at text split carry with
  | None => (split, None)
  | Some open =>
      match line_start open ≫= line_ending_before text with
      | Some (S n) => (S n, None)
      | _ => (split, Some (fence open))
      end
  end.

Definition build_segment (body : str) (open close : option Fence) : str :=
  let segment := match open with Some f => marker f ++ info f ++ [NEWLINE] | None => [] end ++ body in
  match close with
  | Some f => (if ends_with [NEWLINE] segment then segment else segment ++ [NEWLINE]) ++ marker f
  | None => segment
  end.

Definition strip_one_newline (text : str) : str :=
  match strip_prefix [RETURN; NEWLINE] text with
  | Some t => t
  | None => default text (strip_prefix [NEWLINE] text)
  end.

(** ** Segments *)

Record Step := mkStep { segment : str; step_carry : option Fence; rest : str }.

(** The loop of [next_segment]; the result is [None] when the fuel runs out. *)
Fixpoint reserve_loop (fuel : nat) (text : str) (u : LengthUnit) (available reserve : Z)
    (carry : option Fence) : option (result SegmentationError Step) :=
  match fuel with
  | O => None
  | S fuel =>
      let budget := available - reserve in
      let w := scan_window text u budget in
      if (reserve =? 0) && window_fits w then Some (Ok (mkStep (build_segment text carry None) None []))
      else if Nat.eqb (ceiling w) 0 then Some (Err IndivisibleCluster)
      else
        let '(split, closing) := place_split text w budget carry in
        let close_cost := match closing with Some f => close_units f u | None => 0 end in
        if reserve <? close_cost then
          if available <=? close_cost then Some (Err LimitTooSmall)
          else reserve_loop fuel text u available close_cost carry
        else
          let remainder := drop split text in
          Some (Ok (mkStep (build_segment (take split text) carry closing) closing
                      (match closing with
                       | Some _ => strip_one_newline remainder
                       | None => trim_start remainder
                       end)))
  end.

(** Enough for any text: each round reserves for a longer fence marker, which
    comes from the text or from the carried fence ([reserve_loop_spec]). *)
Definition reserve_rounds (text : str) (carry : option Fence) : nat :=
  (length text + match carry with Some f => length (marker f) | None => 0 end + 3)%nat.

Definition next_segment (text : str) (limit : OutputLimit) (carry : option Fence)
  : result SegmentationError Step :=
  let u := unit_ limit in
  let reopen := match carry with Some f => reopen_units f u | None => 0 end in
  let available := max limit - reopen in
  if available <=? 0 then Err LimitTooSmall
  else default (Err LimitTooSmall) (reserve_loop (reserve_rounds text carry) text u available 0 carry).

Record TextSegments := mkTextSegments {
  remaining : str;
  it_limit : OutputLimit;
  it_carry : option Fence;
  failed : bool;
  single : bool;
}.

Definition segments_new (text : str) (limit : OutputLimit) (single : bool) : TextSegments :=
  mkTextSegments text limit None false single.

(** [Iterator::next] *)
Definition next (it : TextSegments) : option (result SegmentationError str) * TextSegments :=
  if failed it || bool_decide (remaining it = []) then (None, it)
  else if single it then
    (Some (Ok (remaining it)), mkTextSegments [] (it_limit it) (it_carry it) (failed it) false)
  else
    match next_segment (remaining it) (it_limit it) (it_carry it) with
    | Ok step =>
        (Some (Ok (segment step)),
         mkTextSegments (rest step) (it_limit it) (step_carry step) (failed it) (single it))
    | Err e =>
        (Some (Err e),
         mkTextSegments (remaining it) (it_limit it) (it_carry it) true (single it))
    end.

(** [collect::<Result<Vec<_>, _>>()]: the segments up to the first error; [None]
    when the fuel runs out. *)
Fixpoint collect (fuel : nat) (it : TextSegments) : option (result SegmentationError (list str)) :=
  match next it with
  | (None, _) => Some (Ok [])
  | (Some (Err e), _) => Some (Err e)
  | (Some (Ok s), it) =>
      match fuel with
      | O => None
      | S fuel =>
          match collect fuel it with
          | Some (Ok ss) => Some (Ok (s :: ss))
          | r => r
          end
      end
  end.

Definition segment_text (text : str) (limit : option OutputLimit)
  : option (result SegmentationError (list str)) :=
  match limit with
  | None => Some (Err NoDeclaredLimit)
  | Some limit => collect (length text) (segments_new text limit false)
  end.

Fixpoint validate_segments (fuel : nat) (remaining : str) (limit : OutputLimit) (carry : option Fence)
  : option (result SegmentationError unit) :=
  match remaining with
  | [] => Some (Ok tt)
  | _ =>
      match fuel with
      | O => None
      | S fuel =>
          match next_segment remaining limit carry with
          | Ok step => validate_segments fuel (rest step) limit (step_carry step)
          | Err e => Some (Err e)
          end
      end
  end.

Definition segment_text_iter (text : str) (limit : option OutputLimit)
  : option (result SegmentationError TextSegments) :=
  match limit with
  | None => Some (Err NoDeclaredLimit)
  | Some limit =>
      let single := fits limit text in
      if single then Some (Ok (segments_new text limit single))
      else
        match validate_segments (length text) text limit None with
        | Some (Ok _) => Some (Ok (segments_new text limit single))
        | Some (Err e) => Some (Err e)
        | None => None
        end
  end.

(** ** Measures *)

Lemma measure_cons u c s : measure u (c :: s) = measure_char u c + measure u s.
Proof. destruct u; cbn; [apply len_cons|done|done]. Qed.

Lemma measure_nil u : measure u [] = 0.
Proof. by destruct u. Qed.

Lemma measure_app u s t : measure u (s ++ t) = measure u s + measure u t.
Proof.
  induction s as [|c s IH]; [by rewrite measure_nil|]. cbn [app]. rewrite !measure_cons, IH. lia.
Qed.

Lemma measure_char_range u c : 1 ≤ measure_char u c ≤ len_utf8 c.
Proof. destruct u; cbn; unfold len_utf16, len_utf8; repeat case_match; boolify; lia. Qed.

Lemma measure_nonneg u s : 0 ≤ measure u s.
Proof.
  induction s as [|c s IH]; [by rewrite measure_nil|]. rewrite measure_cons.
  pose proof (measure_char_range u c). lia.
Qed.

Lemma measure_le_bytes u s : measure u s ≤ byte_len s.
Proof.
  change (byte_len s) with (measure Bytes s). induction s as [|c s IH]; [by rewrite !measure_nil|].
  rewrite !measure_cons. pose proof (measure_char_range u c). cbn [measure_char]. lia.
Qed.

Lemma measure_newline u : measure u [NEWLINE] = 1.
Proof. by destruct u. Qed.

Lemma measure_take u s n : measure u (take n s) ≤ measure u s.
Proof.
  rewrite <- (take_drop n s) at 2. rewrite measure_app. pose proof (measure_nonneg u (drop n s)). lia.
Qed.

Lemma fits_spec l text : fits l text = (measure (unit_ l) text <=? max l).
Proof.
  unfold fits. pose proof (measure_le_bytes (unit_ l) text).
  destruct (byte_len text <=? max l) eqn:E; [|done]. boolify. cbn. lia.
Qed.

(** ** The window *)

(** The number of regional indicators that end a text. *)
Definition run_of (s : str) : Z := foldl (λ n c, if is_regional_indicator c then n + 1 else 0) 0 s.

Lemma run_of_snoc s c : run_of (s ++ [c]) = if is_regional_indicator c then run_of s + 1 else 0.
Proof. unfold run_of. by rewrite foldl_app. Qed.

(** A cut at [o] leaves every cluster whole. *)
Definition Boundary (text : str) (o : nat) : Prop :=
  ∃ c, text !! o = Some c ∧ is_cluster_boundary (last (take o text)) c (run_of (take o text)) = true.

(** A place where the text may be cut within the budget. *)
Definition Cut (text : str) (u : LengthUnit) (budget : Z) (o : nat) : Prop :=
  (0 < o)%nat ∧ measure u (take o text) ≤ budget ∧ Boundary text o.

(** The last recorded break before a character [c]. *)
Definition BreakAt (text : str) (u : LengthUnit) (budget : Z) (at_ : option (nat * Z)) (c : Z) : Prop :=
  ∀ o n, at_ = Some (o, n) → Cut text u budget o ∧ n = measure u (take o text) ∧ text !! o = Some c.

(** What the scan of [text] has established before the offset [n]. *)
Record WindowInv (text : str) (u : LengthUnit) (budget : Z) (w : Window) : Prop := {
  wi_ceiling : ceiling w ≠ 0%nat → Cut text u budget (ceiling w);
  wi_newline : BreakAt text u budget (last_newline w) NEWLINE;
  wi_space : BreakAt text u budget (last_space w) SPACE;
}.

Lemma WindowInv_note text u budget w o c :
  WindowInv text u budget w → Cut text u budget o → text !! o = Some c →
  WindowInv text u budget (note_boundary w o (measure u (take o text)) c).
Proof.
  intros [Hc Hn Hs] Hcut Ho. unfold note_boundary.
  destruct (c =? NEWLINE) eqn:E1; [|destruct (c =? SPACE) eqn:E2]; boolify; subst; split; cbn; try done.
  all: intros o' n' [= <- <-]; done.
Qed.

Lemma scan_loop_spec u budget text pre rest w :
  text = pre ++ rest → WindowInv text u budget w → window_fits w = false →
  let w' := scan_loop u budget rest (length pre) (measure u pre) (last pre) (run_of pre) w in
  (measure u text ≤ budget → window_fits w' = true) ∧
  (window_fits w' = true → measure u text ≤ budget ∧ ceiling w' = length text) ∧
  (window_fits w' = false → WindowInv text u budget w') ∧
  BreakAt text u budget (last_newline w') NEWLINE ∧ BreakAt text u budget (last_space w') SPACE.
Proof.
  intros Htext Hinv Hfits. revert pre w Htext Hinv Hfits.
  induction rest as [|c rest IH]; intros pre w Htext Hinv Hfits; cbn [scan_loop].
  - rewrite app_nil_r in Htext. subst pre. destruct Hinv as [? Hn Hs].
    destruct (measure u text <=? budget) eqn:E; boolify; cbn; split_and!; try done; try lia.
    by rewrite Hfits.
  - destruct (budget <? measure u pre) eqn:E; boolify.
    { cbv zeta. split_and!; try apply Hinv; [|by rewrite Hfits|done].
      intros Hm. rewrite Htext, measure_app in Hm. pose proof (measure_nonneg u (c :: rest)). lia. }
    assert (take (length pre) text = pre) as Htake by by rewrite Htext, take_app_length.
    assert (text !! length pre = Some c) as Hlook by (by rewrite Htext, lookup_app_r, Nat.sub_diag by lia).
    replace (S (length pre)) with (length (pre ++ [c])) by (rewrite length_app; cbn; lia).
    replace (measure u pre + measure_char u c) with (measure u (pre ++ [c]))
      by (rewrite measure_app, measure_cons, measure_nil; lia).
    replace (Some c) with (last (pre ++ [c])) by apply last_snoc. rewrite <- run_of_snoc.
    apply IH; [by rewrite <- app_assoc| |].
    + destruct ((0 <? length pre)%nat && _) eqn:Eb; [|done].
      apply andb_true_iff in Eb as [Hpos Hb]. apply Nat.ltb_lt in Hpos.
      rewrite <- Htake at 2. apply WindowInv_note; [done| |done].
      split_and!; [done|by rewrite Htake|]. exists c. by rewrite Htake.
    + destruct (_ && _); [|done]. unfold note_boundary. by repeat case_match.
Qed.

Lemma scan_window_spec text u budget :
  let w := scan_window text u budget in
  (window_fits w = true ↔ measure u text ≤ budget) ∧
  (window_fits w = false → WindowInv text u budget w).
Proof.
  destruct (scan_loop_spec u budget text [] text window_default) as (H1 & H2 & H3 & _); [done| |done|].
  { split; [done|intros ?? [=]|intros ?? [=]]. }
  unfold scan_window. cbn [length] in *. rewrite measure_nil in *. change (last []) with (@None Z) in *.
  change (run_of []) with 0 in *. split; [|done]. split; [|done]. intros H. by apply H2.
Qed.

(** The chosen break is a cut, whenever there is one at all. *)
Lemma choose_break_spec text u budget w :
  WindowInv text u budget w → ceiling w ≠ 0%nat → Cut text u budget (choose_break w budget).
Proof.
  intros [Hc Hn Hs] Hne. unfold choose_break.
  destruct (pick (last_newline w) _) as [o|] eqn:En.
  { unfold pick in En. destruct (last_newline w) as [[o' n]|]; [|done].
    destruct (_ <=? _); [|done]. injection En as <-. by apply (Hn o' n). }
  destruct (pick (last_space w) _) as [o|] eqn:Es; [|by apply Hc].
  unfold pick in Es. destruct (last_space w) as [[o' n]|]; [|done].
  destruct (_ <=? _); [|done]. injection Es as <-. by apply (Hs o' n).
Qed.

(** ** Fences *)

Lemma trim_start_matches_suffix c s : ∃ n, s = replicate n c ++ trim_start_matches c s.
Proof.
  induction s as [|d s [n IH]]; cbn; [by exists 0%nat|].
  destruct (d =? c) eqn:E; [boolify; subst; exists (S n); cbn; by rewrite <- IH|by exists 0%nat].
Qed.

(** A marker is three or more of the same fence character. *)
Definition wf_marker (m : str) : Prop :=
  ∃ n c, m = replicate n c ∧ (3 ≤ n)%nat ∧ (c = BACKTICK ∨ c = TILDE).

Lemma measure_marker u m : wf_marker m → measure u m = Z.of_nat (length m).
Proof.
  intros (n & c & -> & _ & Hc). rewrite length_replicate. induction n as [|n IH]; [by rewrite measure_nil|].
  cbn [replicate]. rewrite measure_cons, IH. assert (measure_char u c = 1) as -> by (destruct Hc as [-> | ->]; by destruct u).
  lia.
Qed.

Lemma length_trim_start_matches c s : (length (trim_start_matches c s) ≤ length s)%nat.
Proof. destruct (trim_start_matches_suffix c s) as [n Hn]. rewrite Hn at 2. rewrite length_app. lia. Qed.

Lemma opening_fence_wf line f :
  opening_fence line = Some f → wf_marker (marker f) ∧ (length (marker f) ≤ length line)%nat.
Proof.
  unfold opening_fence. set (line' := trim_end_matches RETURN line).
  assert (length line' ≤ length line)%nat as Hl'.
  { unfold line', trim_end_matches. rewrite length_reverse.
    pose proof (length_trim_start_matches RETURN (reverse line)) as H. by rewrite length_reverse in H. }
  pose proof (length_trim_start_matches SPACE line') as Hc. set (content := trim_start_matches SPACE line') in *.
  clearbody content line'. destruct (3 <? _)%nat; [done|]. destruct content as [|c content]; [done|].
  destruct (negb _ && negb _) eqn:Ech; [done|].
  destruct (trim_start_matches_suffix c (c :: content)) as [n Hn].
  set (rest := trim_start_matches c (c :: content)) in *. clearbody rest. rewrite Hn.
  rewrite length_app, length_replicate, Nat.add_sub. destruct (n <? 3)%nat eqn:En; [done|].
  apply Nat.ltb_ge in En. destruct (_ && any _ _); [done|]. intros [= <-]. cbn [marker].
  rewrite take_app_length' by by rewrite length_replicate. rewrite length_replicate. split.
  - exists n, c. split_and!; [done|done|].
    rewrite andb_false_iff, !negb_false_iff, !Z.eqb_eq in Ech. done.
  - rewrite Hn, length_app, length_replicate in Hc. lia.
Qed.

(** A line of the text, from the offset [at_]. *)
Definition LineAt (text : str) (at_ : nat) (line : str) : Prop :=
  ∃ pre post, text = pre ++ line ++ post ∧ length pre = at_ ∧
    Forall (λ c, c ≠ NEWLINE) line ∧ (post = [] ∨ head post = Some NEWLINE).

(** The first piece of a split and the rest of it. *)
Lemma split_loop_cons (sep : Z → bool) s acc p ps :
  split_loop sep acc s = p :: ps →
  ∃ q, p = reverse acc ++ q ∧ Forall (λ c, sep c = false) q ∧
    (ps = [] ∧ s = q ∨ ∃ c s', sep c = true ∧ s = q ++ c :: s' ∧ ps = split sep s').
Proof.
  revert acc. induction s as [|c s IH]; intros acc; cbn [split_loop].
  { intros [= <- <-]. exists []. rewrite app_nil_r. split_and!; [done|constructor|by left]. }
  destruct (sep c) eqn:E.
  - intros [= <- <-]. exists []. rewrite app_nil_r. split_and!; [done|constructor|]. right. by exists c, s.
  - intros (q & -> & Hq & Hc)%IH. exists (c :: q). rewrite reverse_cons, <- app_assoc.
    split_and!; [done|by constructor|]. destruct Hc as [[-> ->]|(d & s' & Hd & -> & ->)]; [by left|]. right. by exists d, s'.
Qed.

Notation lines_of := (split (λ c, c =? NEWLINE)).

Lemma lines_of_cons s line lines :
  lines_of s = line :: lines →
  Forall (λ c, c ≠ NEWLINE) line ∧ (lines = [] ∧ s = line ∨ ∃ s', s = line ++ NEWLINE :: s' ∧ lines = lines_of s').
Proof.
  intros (q & -> & Hq & Hc)%split_loop_cons. cbn [reverse rev_append app]. split.
  - eapply Forall_impl; [exact Hq|]. cbn. intros c Hn. lia.
  - destruct Hc as [[-> ->]|(c & s' & Hs & -> & ->)]; [by left|]. right. exists s'. by apply Z.eqb_eq in Hs as ->.
Qed.

(** The fence found open: carried in, or opened by a line before the offset. *)
Lemma fence_loop_spec text lines pre s offset open o :
  text = pre ++ s → lines = lines_of s →
  fence_loop lines (length pre) offset open = Some o →
  open = Some o ∨
  ∃ ls line, line_start o = Some ls ∧ (ls < offset)%nat ∧ LineAt text ls line ∧ opening_fence line = Some (fence o).
Proof.
  revert pre s open. induction lines as [|line lines IH]; intros pre s open -> Hs; cbn [fence_loop]; [intros; by left|].
  destruct (length pre <? offset)%nat eqn:E; [|intros; by left]. apply Nat.ltb_lt in E.
  symmetry in Hs. apply lines_of_cons in Hs as [Hfree Hs].
  assert (LineAt (pre ++ s) (length pre) line) as Hat.
  { destruct Hs as [[_ ->]|(s' & -> & _)].
    - exists pre, []. rewrite app_nil_r. by split_and!; [..|left].
    - exists pre, (NEWLINE :: s'). by split_and!; [..|right]. }
  assert (∀ open', open' = match open with
    | Some state => if (length pre + length line <=? offset)%nat && closes_fence line (marker (fence state)) then None else Some state
    | None => match opening_fence line with Some f => Some (mkOpenFence f (Some (length pre))) | None => None end end →
    open' = Some o → open = Some o ∨ ∃ ls line, line_start o = Some ls ∧ (ls < offset)%nat ∧ LineAt (pre ++ s) ls line ∧
      opening_fence line = Some (fence o)) as Hhere.
  { intros ? -> Ho. destruct open as [state|]; [destruct (_ && _); [done|by left]|].
    destruct (opening_fence line) as [f|] eqn:Ef; [|done]. injection Ho as <-. right. by exists (length pre), line. }
  destruct Hs as [[-> ->]|(s' & -> & ->)]; [intros Ho; cbn in Ho; by eapply Hhere|].
  intros Ho. replace (S (length pre + length line)) with (length (pre ++ line ++ [NEWLINE])) in Ho
    by (rewrite !length_app; cbn; lia).
  apply (IH (pre ++ line ++ [NEWLINE]) s') in Ho as [Ho|Ho]; [by eapply Hhere|by right| |done].
  by rewrite <- !app_assoc.
Qed.

Lemma fence_open_at_spec text offset carry o :
  fence_open_at text offset carry = Some o →
  carry = Some (fence o) ∧ line_start o = None ∨
  ∃ ls line, line_start o = Some ls ∧ (ls < offset)%nat ∧ LineAt text ls line ∧ opening_fence line = Some (fence o).
Proof.
  unfold fence_open_at. intros [H|H]%(fence_loop_spec text _ [] text); [|by right|done|done].
  left. destruct carry; [|done]. cbn in H. by injection H as <-.
Qed.

(** A cut moved to before a code block: it falls right before a whole line ending,
    a carriage return included, that the line opening a fence follows. *)
Definition BeforeBlock (text : str) (o : nat) : Prop :=
  ∃ pre ending line post f, text = pre ++ ending ++ line ++ post ∧ length pre = o ∧
    (ending = [RETURN; NEWLINE] ∨ ending = [NEWLINE] ∧ last pre ≠ Some RETURN) ∧
    Forall (λ c, c ≠ NEWLINE) line ∧ (post = [] ∨ head post = Some NEWLINE) ∧ opening_fence line = Some f.

Lemma line_ending_before_spec text start n line f :
  line_ending_before text start = Some n → LineAt text start line → opening_fence line = Some f →
  (n < start)%nat ∧ BeforeBlock text n.
Proof.
  intros Hn (pre & post & -> & <- & Hfree & Hpost) Hf. unfold line_ending_before in Hn.
  destruct pre as [|x pre _] using rev_ind; [done|]. rewrite length_app, Nat.add_1_r in *. cbn [length] in *.
  rewrite lookup_app_l in Hn by (rewrite length_app; cbn; lia). rewrite list_lookup_middle in Hn by done.
  destruct (decide _) as [[= ->]|]; [|done].
  assert (∀ m, length pre = m → last pre ≠ Some RETURN →
    (m < S (length pre))%nat ∧ BeforeBlock ((pre ++ [NEWLINE]) ++ line ++ post) m) as Hlf.
  { intros m <- Hl. split; [lia|]. exists pre, [NEWLINE], line, post, f. rewrite <- app_assoc. split_and!; [done..|by right|done|done|done]. }
  destruct pre as [|y pre _] using rev_ind; [injection Hn as <-; by apply Hlf|]. rewrite length_app, Nat.add_1_r in Hn.
  rewrite <- !app_assoc in Hn. cbn [app] in Hn. rewrite list_lookup_middle in Hn by done. destruct (decide _) as [[= ->]|Hne]; injection Hn as <-.
  - rewrite length_app. split; [cbn; lia|]. exists pre, [RETURN; NEWLINE], line, post, f. rewrite <- !app_assoc.
    split_and!; [done|done|by left|done|done|done].
  - apply Hlf; [rewrite length_app; cbn; lia|]. rewrite last_snoc. congruence.
Qed.

Lemma LineAt_length text at_ line : LineAt text at_ line → (length line ≤ length text)%nat.
Proof. intros (pre & post & -> & _). rewrite !length_app. lia. Qed.

(** The fences that may have to be closed at a cut of [text]. *)
Definition Closing (text : str) (carry : option Fence) (f : Fence) : Prop :=
  carry = Some f ∨ wf_marker (marker f) ∧ (length (marker f) ≤ length text)%nat.

Lemma place_split_spec text u budget w carry split closing :
  WindowInv text u budget w → ceiling w ≠ 0%nat →
  place_split text w budget carry = (split, closing) →
  (0 < split)%nat ∧ measure u (take split text) ≤ budget ∧ (Boundary text split ∨ closing = None ∧ BeforeBlock text split) ∧
  match closing with Some f => Closing text carry f | None => True end.
Proof.
  intros Hw Hne. destruct (choose_break_spec _ _ _ _ Hw Hne) as (Hpos & Hm & Hb).
  unfold place_split. set (s := choose_break w budget) in *. clearbody s.
  destruct (fence_open_at text s carry) as [o|] eqn:Ef.
  2: { intros [= <- <-]. split_and!; [done|done|by left|done]. }
  apply fence_open_at_spec in Ef.
  assert ((split, closing) = (s, Some (fence o)) →
    (0 < split)%nat ∧ measure u (take split text) ≤ budget ∧ (Boundary text split ∨ closing = None ∧ BeforeBlock text split) ∧
    match closing with Some f => Closing text carry f | None => True end) as Hstay.
  { intros [= -> ->]. split_and!; [done|done|by left|]. unfold Closing.
    destruct Ef as [[? _]|(ls & line & _ & _ & Hat & Hf)]; [by left|right].
    apply opening_fence_wf in Hf as [Hwf Hl]. split; [done|]. by apply LineAt_length in Hat; lia. }
  destruct (line_start o ≫= line_ending_before text) as [[|n]|] eqn:El; [by intros [= <- <-]; apply Hstay| |by intros [= <- <-]; apply Hstay].
  apply bind_Some in El as (ls & Hls & Hn).
  destruct Ef as [[_ ?]|(ls' & line & Hls' & Hlt' & Hat & Hf)]; [congruence|].
  assert (ls' = ls) as -> by congruence. destruct (line_ending_before_spec _ _ _ _ _ Hn Hat Hf) as [Hlt Hbl].
  intros [= <- <-]. split_and!; [lia| |by right|done].
  replace (take (S n) text) with (take (S n) (take s text)) by (rewrite take_take; f_equal; lia).
  pose proof (measure_take u (take s text) (S n)). lia.
Qed.

(** ** One segment *)

Definition reopen_cost (u : LengthUnit) (f : option Fence) : Z :=
  match f with Some f => reopen_units f u | None => 0 end.
Definition close_cost (u : LengthUnit) (f : option Fence) : Z :=
  match f with Some f => close_units f u | None => 0 end.

Lemma measure_build_segment u body open close :
  measure u (build_segment body open close) ≤ reopen_cost u open + measure u body + close_cost u close.
Proof.
  unfold build_segment. set (s := (match open with Some f => _ | None => [] end) ++ body).
  assert (measure u s = reopen_cost u open + measure u body) as Hs.
  { unfold s. destruct open as [f|]; cbn; [|done]. rewrite !measure_app, measure_newline.
    unfold reopen_units. lia. }
  destruct close as [f|]; cbn; [|lia]. unfold close_units.
  destruct (ends_with _ s); rewrite !measure_app, ?measure_newline; lia.
Qed.

(** Trimming between two segments only drops white space. *)
Lemma trim_start_drops s : ∃ d, s = d ++ trim_start s ∧ Forall (λ c, is_whitespace c = true) d.
Proof.
  induction s as [|c s (d & Hd & Hw)]; cbn; [by exists []|].
  destruct (is_whitespace c) eqn:E; [|by exists []]. exists (c :: d). cbn. split; [by rewrite <- Hd|by constructor].
Qed.

Lemma strip_one_newline_drops s : ∃ d, s = d ++ strip_one_newline s ∧ Forall (λ c, is_whitespace c = true) d.
Proof.
  unfold strip_one_newline. destruct (strip_prefix [RETURN; NEWLINE] s) as [t|] eqn:E.
  { apply strip_prefix_Some in E. exists [RETURN; NEWLINE]. split; [done|by repeat constructor]. }
  destruct (strip_prefix [NEWLINE] s) as [t|] eqn:E'; cbn; [|by exists []].
  apply strip_prefix_Some in E'. exists [NEWLINE]. split; [done|by repeat constructor].
Qed.

(** What one step does to the remaining text. *)
Record StepOk (text : str) (u : LengthUnit) (limit : Z) (carry : option Fence) (s : Step)
    (body dropped : str) : Prop := {
  so_text : text = body ++ dropped ++ rest s;
  so_body : body ≠ [];
  so_dropped : Forall (λ c, is_whitespace c = true) dropped;
  so_segment : segment s = build_segment body carry (step_carry s);
  so_measure : measure u (segment s) ≤ limit;
  so_cut : body = text ∨ Boundary text (length body) ∨ step_carry s = None ∧ BeforeBlock text (length body);
  so_closing : match step_carry s with Some f => Closing text carry f | None => True end;
}.

Definition wf_carry (carry : option Fence) : Prop :=
  match carry with Some f => wf_marker (marker f) | None => True end.

Lemma Closing_wf text carry f : wf_carry carry → Closing text carry f → wf_marker (marker f).
Proof. intros Hc [->|[? _]]; done. Qed.

Lemma Closing_cost text carry f u :
  wf_carry carry → Closing text carry f →
  close_units f u < Z.of_nat (reserve_rounds text carry) - 1.
Proof.
  intros Hc Hf. pose proof (Closing_wf _ _ _ Hc Hf) as Hw. unfold close_units, reserve_rounds.
  rewrite measure_marker by done. destruct Hf as [->|[_ ?]]; [lia|destruct carry; lia].
Qed.

Lemma BeforeBlock_lt text o : BeforeBlock text o → (o < length text)%nat.
Proof.
  intros (pre & ending & line & post & f & -> & <- & He & _). rewrite !length_app.
  destruct He as [-> | [-> _]]; cbn; lia.
Qed.

Lemma Boundary_lt text o : Boundary text o → (o < length text)%nat.
Proof. intros (c & H & _). by eapply lookup_lt_Some. Qed.

Lemma cut_StepOk text u limit available reserve carry split closing :
  limit = reopen_cost u carry + available →
  (0 < split)%nat → measure u (take split text) ≤ available - reserve →
  Boundary text split ∨ closing = None ∧ BeforeBlock text split →
  match closing with Some f => Closing text carry f | None => True end →
  close_cost u closing ≤ reserve →
  ∃ body dropped, StepOk text u limit carry
    (mkStep (build_segment (take split text) carry closing) closing
       (match closing with Some _ => strip_one_newline (drop split text) | None => trim_start (drop split text) end))
    body dropped.
Proof.
  intros -> Hpos Hm Hb Hcl Hcost.
  assert (split < length text)%nat as Hlt by (destruct Hb as [|[_ ?]]; [by apply Boundary_lt|by apply BeforeBlock_lt]).
  assert (∃ d, drop split text = d ++ match closing with
    | Some _ => strip_one_newline (drop split text) | None => trim_start (drop split text) end ∧
    Forall (λ c, is_whitespace c = true) d) as (d & Hd & Hw)
    by (destruct closing; [apply strip_one_newline_drops|apply trim_start_drops]).
  exists (take split text), d. split; cbn.
  - by rewrite <- Hd, take_drop.
  - intros H. apply (f_equal length) in H. rewrite length_take in H. cbn in H. lia.
  - done.
  - done.
  - pose proof (measure_build_segment u (take split text) carry closing). lia.
  - right. rewrite length_take, Nat.min_l by lia. done.
  - done.
Qed.

(** The reservation loop ends within its rounds; a segment fits with its markers. *)
Lemma reserve_loop_spec fuel text u limit available reserve carry :
  limit = reopen_cost u carry + available → text ≠ [] → wf_carry carry →
  0 ≤ reserve < available → (reserve ≠ 0 → available < measure u text) →
  Z.of_nat (reserve_rounds text carry) - 1 - reserve ≤ Z.of_nat fuel → (0 < fuel)%nat →
  ∃ r, reserve_loop fuel text u available reserve carry = Some r ∧
    match r with
    | Ok s => ∃ body dropped, StepOk text u limit carry s body dropped
    | Err _ => True
    end.
Proof.
  intros Hlim Hne Hwf. revert reserve.
  induction fuel as [|fuel IH]; intros reserve Hres Hmeas Hfuel Hpos; [lia|]. cbn [reserve_loop].
  destruct (scan_window_spec text u (available - reserve)) as [Hfit Hinv].
  set (w := scan_window text u (available - reserve)) in *. clearbody w.
  destruct ((reserve =? 0) && window_fits w) eqn:E0.
  { boolify. eexists. split; [done|]. exists text, []. split; cbn; try done.
    - by rewrite app_nil_r.
    - pose proof (measure_build_segment u text carry None). cbn in *. apply Hfit in H0. lia.
    - by left. }
  assert (window_fits w = false) as Hnofit.
  { destruct (window_fits w); [|done]. rewrite andb_true_r in E0. boolify. specialize (Hmeas E0).
    pose proof (proj1 Hfit eq_refl). lia. }
  destruct (Nat.eqb (ceiling w) 0) eqn:Ec; [by eexists|]. apply Nat.eqb_neq in Ec.
  destruct (place_split text w (available - reserve) carry) as [split closing] eqn:Ep.
  destruct (place_split_spec _ _ _ _ _ _ _ (Hinv Hnofit) Ec Ep) as (Hspos & Hsm & Hb & Hcl).
  fold (close_cost u closing). destruct (reserve <? close_cost u closing) eqn:Er; boolify.
  - destruct (available <=? close_cost u closing) eqn:Ea; [by eexists|]. boolify.
    destruct closing as [f|]; cbn in *; [|lia].
    pose proof (Closing_cost _ _ _ u Hwf Hcl). apply IH; [lia| |lia|lia].
    intros _. assert (¬ measure u text ≤ available - reserve) by (rewrite <- Hfit; congruence).
    destruct (decide (reserve = 0)) as [->|Hr]; [lia|by apply Hmeas].
  - eexists. split; [done|]. by eapply cut_StepOk.
Qed.

Lemma next_segment_spec text limit carry s :
  text ≠ [] → wf_carry carry → next_segment text limit carry = Ok s →
  (∃ body dropped, StepOk text (unit_ limit) (max limit) carry s body dropped) ∧ wf_carry (step_carry s).
Proof.
  intros Hne Hwf. unfold next_segment. fold (reopen_cost (unit_ limit) carry).
  destruct (_ <=? 0) eqn:E; [done|]. boolify.
  destruct (reserve_loop_spec (reserve_rounds text carry) text (unit_ limit) (max limit)
    (max limit - reopen_cost (unit_ limit) carry) 0 carry) as (r & -> & Hr); [lia|done|done|lia|lia|lia|unfold reserve_rounds; lia|].
  cbn. intros ->. split; [done|]. destruct Hr as (body & dropped & Hok).
  destruct (step_carry s) as [f|] eqn:Ef; [|done]. pose proof (so_closing _ _ _ _ _ _ _ Hok) as Hcl.
  rewrite Ef in Hcl. by eapply Closing_wf.
Qed.

(** ** The whole message *)

(** One segment's share of the message: the fence reopened before it, its text,
    the fence closed after it, and the white space dropped behind it. *)
Record Piece := mkPiece { p_open : option Fence; p_body : str; p_close : option Fence; p_gap : str }.

Definition piece_segment (p : Piece) : str := build_segment (p_body p) (p_open p) (p_close p).
Definition weave (ps : list Piece) : str := concat ((λ p, p_body p ++ p_gap p) <$> ps).

(** [text] divided into pieces, from a state in which [carry] is open. *)
Inductive Pieces (u : LengthUnit) (limit : Z) : option Fence → str → list Piece → Prop :=
| Pieces_done carry : Pieces u limit carry [] []
| Pieces_step carry text s body dropped ps :
    StepOk text u limit carry s body dropped →
    Pieces u limit (step_carry s) (rest s) ps →
    Pieces u limit carry text (mkPiece carry body (step_carry s) dropped :: ps).

Lemma StepOk_shorter text u limit carry s body dropped :
  StepOk text u limit carry s body dropped → (length (rest s) < length text)%nat.
Proof.
  intros H. pose proof (so_body _ _ _ _ _ _ _ H). rewrite (so_text _ _ _ _ _ _ _ H), !length_app.
  destruct body; [done|cbn; lia].
Qed.

(** Collecting ends, and yields the segments of a division into pieces. *)
Lemma collect_spec fuel text limit carry :
  wf_carry carry → (length text ≤ fuel)%nat →
  ∃ r, collect fuel (mkTextSegments text limit carry false false) = Some r ∧
    match r with
    | Ok segs => ∃ ps, Pieces (unit_ limit) (max limit) carry text ps ∧ segs = piece_segment <$> ps
    | Err _ => True
    end.
Proof.
  revert text carry. induction fuel as [|fuel IH]; intros text carry Hwf Hlen.
  { destruct text; [|cbn in Hlen; lia]. exists (Ok []). split; [done|]. exists []. split; [constructor|done]. }
  cbn [collect]. unfold next. cbn [failed remaining single it_limit it_carry orb].
  destruct (bool_decide (text = [])) eqn:E.
  { apply bool_decide_eq_true in E as ->. exists (Ok []). split; [done|]. exists []. split; [constructor|done]. }
  apply bool_decide_eq_false in E. destruct (next_segment text limit carry) as [s|e] eqn:En; [|by eexists].
  apply next_segment_spec in En as [(body & dropped & Hok) Hwf']; [|done|done].
  pose proof (StepOk_shorter _ _ _ _ _ _ _ Hok).
  destruct (IH (rest s) (step_carry s) Hwf' ltac:(lia)) as (r & -> & Hr).
  destruct r as [segs|e]; [|by eexists]. destruct Hr as (ps & Hps & ->). eexists. split; [done|].
  exists (mkPiece carry body (step_carry s) dropped :: ps). split; [by econstructor|].
  rewrite fmap_cons. f_equal. apply (so_segment _ _ _ _ _ _ _ Hok).
Qed.

Lemma Pieces_weave u limit carry text ps :
  Pieces u limit carry text ps →
  text = weave ps ∧
  Forall (λ p, p_body p ≠ [] ∧ measure u (piece_segment p) ≤ limit ∧
    Forall (λ c, is_whitespace c = true) (p_gap p)) ps.
Proof.
  induction 1 as [|carry text s body dropped ps Hok _ [IH1 IH2]]; [by split|]. split.
  - rewrite (so_text _ _ _ _ _ _ _ Hok), IH1. unfold weave. cbn. by rewrite app_assoc.
  - constructor; [|done]. cbn. unfold piece_segment. cbn. rewrite <- (so_segment _ _ _ _ _ _ _ Hok).
    split_and!; apply Hok.
Qed.

(** Where the pieces are cut, and which fences link them. *)
Fixpoint linked (carry : option Fence) (ps : list Piece) : Prop :=
  match ps with [] => True | p :: ps => p_open p = carry ∧ linked (p_close p) ps end.

Lemma Pieces_cut u limit carry text ps :
  Pieces u limit carry text ps →
  linked carry ps ∧
  ∀ before p after, ps = before ++ p :: after →
    let remaining := weave (p :: after) in
    p_body p = remaining ∨ Boundary remaining (length (p_body p)) ∨
      p_close p = None ∧ BeforeBlock remaining (length (p_body p)).
Proof.
  induction 1 as [|carry text s body dropped ps Hok Hps [IH1 IH2]].
  { split; [done|]. intros []; done. }
  split; [done|]. intros [|q before] p after Heq remaining; cbn [app] in Heq;
    [|injection Heq as _ Heq; by apply (IH2 before)].
  injection Heq as <- <-. assert (remaining = text) as ->.
  { unfold remaining, weave. cbn. rewrite (so_text _ _ _ _ _ _ _ Hok).
    destruct (Pieces_weave _ _ _ _ _ Hps) as [-> _]. by rewrite <- app_assoc. }
  apply Hok.
Qed.

Lemma reserve_loop_err fuel text u available reserve carry :
  reserve_loop fuel text u available reserve carry ≠ Some (Err NoDeclaredLimit).
Proof.
  revert reserve. induction fuel as [|fuel IH]; intros reserve; cbn [reserve_loop]; [done|].
  destruct (_ && _); [done|]. destruct (Nat.eqb _ _); [done|]. destruct (place_split _ _ _ _) as [sp cl].
  destruct (_ <? _); [|done]. destruct (_ <=? _); [done|]. apply IH.
Qed.

Lemma collect_err fuel it : collect fuel it ≠ Some (Err NoDeclaredLimit).
Proof.
  assert (∀ text limit carry, next_segment text limit carry ≠ Err NoDeclaredLimit) as Hn.
  { intros. unfold next_segment. destruct (_ <=? 0); [done|].
    pose proof (reserve_loop_err (reserve_rounds text carry) text (unit_ limit)
      (max limit - match carry with Some f => reopen_units f (unit_ limit) | None => 0 end) 0 carry) as H.
    destruct (reserve_loop _ _ _ _ _ _) as [[]|]; cbn; congruence. }
  assert (∀ it', (next it').1 ≠ Some (Err NoDeclaredLimit)) as Hnext.
  { intros it'. unfold next. destruct (_ || _); [done|]. destruct (single it'); [done|].
    pose proof (Hn (remaining it') (it_limit it') (it_carry it')). destruct (next_segment _ _ _); cbn; congruence. }
  revert it. induction fuel as [|fuel IH]; intros it; cbn [collect]; specialize (Hnext it);
    destruct (next it) as [[[s|e]|] it']; cbn in *; try congruence.
  specialize (IH it'). destruct (collect fuel it') as [[]|]; congruence.
Qed.

(** Validation and collection agree. *)
Lemma validate_collect fuel text limit carry :
  wf_carry carry → (length text ≤ fuel)%nat →
  match collect fuel (mkTextSegments text limit carry false false) with
  | Some (Ok _) => validate_segments fuel text limit carry = Some (Ok tt)
  | Some (Err e) => validate_segments fuel text limit carry = Some (Err e)
  | None => False
  end.
Proof.
  revert text carry. induction fuel as [|fuel IH]; intros text carry Hwf Hlen.
  { destruct text; [done|cbn in Hlen; lia]. }
  cbn [collect validate_segments]. unfold next. cbn [failed remaining single it_limit it_carry orb].
  destruct text as [|c text]; [done|]. rewrite bool_decide_eq_false_2 by done.
  destruct (next_segment (c :: text) limit carry) as [s|e] eqn:En; [|done].
  apply next_segment_spec in En as [(body & dropped & Hok) Hwf']; [|done|done].
  apply StepOk_shorter in Hok. specialize (IH (rest s) (step_carry s) Hwf' ltac:(lia)).
  by destruct (collect fuel _) as [[]|].
Qed.

(** A message that fits is delivered as it is. *)
Lemma next_segment_fits text limit :
  0 < max limit → text ≠ [] → measure (unit_ limit) text ≤ max limit →
  next_segment text limit None = Ok (mkStep text None []).
Proof.
  intros Hmax Hne Hm. unfold next_segment. replace (max limit - 0) with (max limit) by lia.
  replace (max limit <=? 0) with false by lia.
  replace (reserve_rounds text None) with (S (length text + 2)) by (unfold reserve_rounds; lia).
  cbn [reserve_loop]. rewrite Z.sub_0_r.
  by rewrite (proj2 (proj1 (scan_window_spec text (unit_ limit) (max limit))) Hm).
Qed.

(** ** Theorems *)

(** Segmentation always ends: each round of the reservation loop and each
    segment makes progress, so for every text and limit there is an answer, and
    [NoDeclaredLimit] exactly when no limit is declared. *)
Theorem segmentation_terminates (text : str) (limit : option OutputLimit) :
  ∃ r, segment_text text limit = Some r ∧ (r = Err NoDeclaredLimit ↔ limit = None).
Proof.
  destruct limit as [limit|]; cbn; [|by eexists].
  destruct (collect_spec (length text) text limit None I ltac:(lia)) as (r & Hr & _).
  exists r. split; [done|]. split; [|done]. intros ->. by apply collect_err in Hr.
Qed.

(** C32. What segmentation delivers: every segment fits the limit in the declared
    unit, fence markers included; the segments' own texts, with the white space
    dropped between them, are the message; every fence closed at the end of a
    segment is reopened at the start of the next; and a cut falls at a cluster
    boundary, or, with no fence open there, right before the line ending, whole with
    its carriage return if it has one, in front of a line that opens a code block,
    which the cut moves to the next segment. *)
Theorem segmentation_contract (text : str) (limit : OutputLimit) (segs : list str) :
  segment_text text (Some limit) = Some (Ok segs) →
  Forall (λ s, measure (unit_ limit) s ≤ max limit) segs ∧
  ∃ ps, segs = piece_segment <$> ps ∧ text = weave ps ∧ linked None ps ∧
    Forall (λ p, p_body p ≠ [] ∧ Forall (λ c, is_whitespace c = true) (p_gap p)) ps ∧
    ∀ before p after, ps = before ++ p :: after →
      let remaining := weave (p :: after) in
      p_body p = remaining ∨ Boundary remaining (length (p_body p)) ∨
      p_close p = None ∧ BeforeBlock remaining (length (p_body p)).
Proof.
  cbn. unfold segments_new. intros H.
  destruct (collect_spec (length text) text limit None I ltac:(lia)) as (r & Hr & Hps).
  rewrite Hr in H. injection H as ->. destruct Hps as (ps & Hps & ->).
  destruct (Pieces_weave _ _ _ _ _ Hps) as [-> Hall]. destruct (Pieces_cut _ _ _ _ _ Hps) as [Hl Hc]. split.
  - apply Forall_fmap. eapply Forall_impl; [exact Hall|]. by intros p (_ & ? & _).
  - exists ps. split_and!; [done|done|done| |done]. eapply Forall_impl; [exact Hall|]. by intros p (? & _ & ?).
Qed.

(** The lazy interface is the eager one: [segment_text_iter] refuses a message
    exactly when [segment_text] does, with the same error, and otherwise its
    iterator, whose segments have all been validated first, yields the same
    segments. *)
Theorem segmentation_lazy_eager (text : str) (limit : OutputLimit) :
  0 < max limit →
  match segment_text_iter text (Some limit) with
  | Some (Ok it) => collect (length text) it = segment_text text (Some limit)
                    ∧ ∃ segs, segment_text text (Some limit) = Some (Ok segs)
  | Some (Err e) => segment_text text (Some limit) = Some (Err e)
  | None => False
  end.
Proof.
  intros Hmax. cbn. unfold segments_new. rewrite fits_spec.
  destruct (_ <=? max limit) eqn:E; boolify.
  - destruct text as [|c text]; [by split; [|eexists]|]. cbn [length collect]. unfold next.
    cbn [failed remaining single it_limit it_carry orb]. rewrite bool_decide_eq_false_2 by done.
    rewrite next_segment_fits by done. cbn [rest step_carry segment]. assert (∀ n b, collect n (mkTextSegments [] limit None false b) = Some (Ok [])) as Hc by by intros [].
    rewrite !Hc. split; [done|by eexists].
  - pose proof (validate_collect (length text) text limit None I ltac:(lia)) as H.
    destruct (collect _ (mkTextSegments text limit None false false)) as [[segs|e]|] eqn:Ec; [|by rewrite H|done].
    rewrite H, Ec. split; [done|by eexists].
Qed.

(** Text without fence characters opens no fence. *)
Definition is_fence_char (c : Z) : bool := (c =? BACKTICK) || (c =? TILDE).

Lemma trim_start_matches_Forall (P : Z → Prop) c s : Forall P s → Forall P (trim_start_matches c s).
Proof. destruct (trim_start_matches_suffix c s) as [n Hn]. rewrite Hn at 1. by intros [_ ?]%Forall_app. Qed.

Lemma opening_fence_plain line :
  Forall (λ c, is_fence_char c = false) line → opening_fence line = None.
Proof.
  intros Hl. unfold opening_fence. destruct (3 <? _)%nat; [done|].
  assert (Forall (λ c, is_fence_char c = false) (trim_start_matches SPACE (trim_end_matches RETURN line))) as Hc.
  { apply trim_start_matches_Forall, Forall_reverse, trim_start_matches_Forall, Forall_reverse. done. }
  destruct (trim_start_matches SPACE (trim_end_matches RETURN line)) as [|c content]; [done|].
  apply Forall_cons in Hc as [Hc _]. unfold is_fence_char in Hc. apply orb_false_iff in Hc as [-> ->]. done.
Qed.

Lemma place_split_plain text w budget :
  Forall (λ c, is_fence_char c = false) text → place_split text w budget None = (choose_break w budget, None).
Proof.
  intros Ht. unfold place_split. destruct (fence_open_at text _ None) as [o|] eqn:E; [|done]. exfalso.
  apply fence_open_at_spec in E as [[? _]|(ls & line & _ & _ & (pre & post & -> & _) & Hf)]; [done|].
  apply Forall_app in Ht as [_ [Ht _]%Forall_app].
  by rewrite opening_fence_plain in Hf.
Qed.

Lemma next_segment_plain text limit s :
  Forall (λ c, is_fence_char c = false) text → next_segment text limit None = Ok s → step_carry s = None.
Proof.
  intros Ht. unfold next_segment. destruct (_ <=? 0); [done|].
  replace (reserve_rounds text None) with (S (length text + 2)) by (unfold reserve_rounds; lia).
  cbn [reserve_loop]. destruct (_ && _); [intros [= <-]; done|]. destruct (Nat.eqb _ _); [done|].
  rewrite place_split_plain by done. cbn. by intros [= <-].
Qed.

(** Characters that form no cluster with a neighbour and open no fence. *)
Definition is_plain (c : Z) : bool :=
  negb (is_fence_char c || binds_to_previous c || is_regional_indicator c || (c =? RETURN)).

Lemma is_plain_spec c :
  is_plain c = true →
  is_fence_char c = false ∧ binds_to_previous c = false ∧ is_regional_indicator c = false ∧
  c ≠ RETURN ∧ c ≠ ZERO_WIDTH_JOINER.
Proof.
  unfold is_plain. rewrite negb_true_iff, !orb_false_iff, Z.eqb_neq. intros [[[? Hb] ?] ?].
  split_and!; try done. intros ->. by vm_compute in Hb.
Qed.

Lemma scan_loop_ceiling u budget rest offset units previous run w :
  ceiling w ≠ 0%nat → (0 < offset)%nat →
  ceiling (scan_loop u budget rest offset units previous run w) ≠ 0%nat.
Proof.
  revert offset units previous run w. induction rest as [|c rest IH]; intros offset units previous run w Hw Ho;
    cbn [scan_loop].
  - destruct (_ <=? _); cbn; [lia|done].
  - destruct (_ <? _); [done|]. apply IH; [|lia]. destruct (_ && _); [|done].
    unfold note_boundary. destruct (c =? NEWLINE), (c =? SPACE); cbn; lia.
Qed.

Lemma scan_window_plain text u budget :
  4 ≤ budget → text ≠ [] → Forall (λ c, is_plain c = true) text →
  ceiling (scan_window text u budget) ≠ 0%nat.
Proof.
  intros Hb Hne Ht. unfold scan_window.
  assert (∀ c, measure_char u c ≤ 4) as Hmc.
  { intros c. pose proof (measure_char_range u c). unfold len_utf8 in *. repeat case_match; lia. }
  destruct text as [|c [|d text]]; [done|cbn [scan_loop]..].
  - replace (budget <? 0) with false by lia. pose proof (Hmc c).
    replace (0 + measure_char u c <=? budget) with true by lia. done.
  - replace (budget <? 0) with false by lia. pose proof (Hmc c).
    replace (budget <? 0 + measure_char u c) with false by lia.
    apply scan_loop_ceiling; [|lia]. cbn [andb Nat.ltb Nat.leb].
    rewrite !Forall_cons in Ht. destruct Ht as (Hc%is_plain_spec & Hd%is_plain_spec & _).
    destruct Hc as (_ & _ & _ & Hr & Hz), Hd as (_ & Hbd & Hrd & _).
    unfold is_cluster_boundary. rewrite Hbd, Hrd. replace (c =? ZERO_WIDTH_JOINER) with false by lia.
    replace (c =? RETURN) with false by lia. cbn. unfold note_boundary. by repeat case_match.
Qed.

Lemma next_segment_plain_ok text limit :
  4 ≤ max limit → text ≠ [] → Forall (λ c, is_plain c = true) text →
  ∃ s body dropped, next_segment text limit None = Ok s ∧ step_carry s = None ∧
    StepOk text (unit_ limit) (max limit) None s body dropped.
Proof.
  intros Hmax Hne Ht.
  assert (Forall (λ c, is_fence_char c = false) text) as Hf.
  { eapply Forall_impl; [exact Ht|]. by intros c (? & _)%is_plain_spec. }
  destruct (next_segment text limit None) as [s|e] eqn:E.
  - pose proof (next_segment_plain _ _ _ Hf E) as Hcarry.
    apply next_segment_spec in E as [(body & dropped & Hok) _]; [|done|done].
    by exists s, body, dropped.
  - exfalso. revert E. unfold next_segment. replace (max limit - 0 <=? 0) with false by lia.
    replace (reserve_rounds text None) with (S (length text + 2)) by (unfold reserve_rounds; lia).
    cbn [reserve_loop]. destruct (_ && _); [done|].
    rewrite (proj2 (Nat.eqb_neq _ 0)) by (apply scan_window_plain; [lia|done|done]).
    rewrite place_split_plain by done. done.
Qed.

(** Ordinary text is always delivered whole: when no character joins a cluster
    or opens a code fence and the limit is at least four units, segmentation
    succeeds, every segment fits, and the segments and the white space dropped
    between them are exactly the message. *)
Theorem plain_text_segmented (text : str) (limit : OutputLimit) :
  4 ≤ max limit → Forall (λ c, is_plain c = true) text →
  ∃ segs gaps,
    segment_text text (Some limit) = Some (Ok segs) ∧
    length gaps = length segs ∧ text = concat (zip_with app segs gaps) ∧
    Forall (λ s, s ≠ [] ∧ measure (unit_ limit) s ≤ max limit) segs ∧
    Forall (Forall (λ c, is_whitespace c = true)) gaps.
Proof.
  intros Hmax Ht. cbn. unfold segments_new.
  enough (∀ fuel text, (length text ≤ fuel)%nat → Forall (λ c, is_plain c = true) text →
    ∃ segs gaps, collect fuel (mkTextSegments text limit None false false) = Some (Ok segs) ∧
      length gaps = length segs ∧ text = concat (zip_with app segs gaps) ∧
      Forall (λ s, s ≠ [] ∧ measure (unit_ limit) s ≤ max limit) segs ∧
      Forall (Forall (λ c, is_whitespace c = true)) gaps) as H by by apply H.
  clear Ht text. induction fuel as [|fuel IH]; intros text Hlen Ht.
  { destruct text; [|cbn in Hlen; lia]. by exists [], []. }
  destruct (decide (text = [])) as [->|Hne]; [by exists [], []|].
  destruct (next_segment_plain_ok text limit Hmax Hne Ht) as (s & body & dropped & Hs & Hc & Hok).
  cbn [collect]. unfold next. cbn [failed remaining single it_limit it_carry orb].
  rewrite bool_decide_eq_false_2, Hs, Hc by done. pose proof (StepOk_shorter _ _ _ _ _ _ _ Hok).
  destruct Hok as [H1 H2 H3 H4 H5 _ _]. rewrite Hc in H4. cbn in H4.
  rewrite H1 in Ht. rewrite !Forall_app in Ht.
  destruct (IH (rest s) ltac:(lia) ltac:(tauto)) as (segs & gaps & -> & Hl & Hw & Hf & Hg).
  exists (segment s :: segs), (dropped :: gaps). cbn. split_and!; [done|by f_equal| | |by constructor].
  - rewrite <- Hw, H4, <- app_assoc. done.
  - constructor; [|done]. split; [by rewrite H4|done].
Qed.

(** ** Witnesses *)

Definition sms : OutputLimit := mkOutputLimit 12 Chars.

Definition code_message : str := chars "see" ++ [NEWLINE] ++ chars "```rs" ++ [NEWLINE] ++ chars "let x = 1;" ++ [NEWLINE] ++ chars "```".

Lemma segmentation_contract_witness :
  segment_text code_message (Some (mkOutputLimit 16 Chars))
  = Some (Ok [chars "see"; chars "```rs" ++ [NEWLINE] ++ chars "let x" ++ [NEWLINE] ++ chars "```";
              chars "```rs" ++ [NEWLINE] ++ chars " = 1;" ++ [NEWLINE] ++ chars "```"]) ∧
  Forall (λ s, measure Chars s ≤ 16)
    [chars "see"; chars "```rs" ++ [NEWLINE] ++ chars "let x" ++ [NEWLINE] ++ chars "```";
              chars "```rs" ++ [NEWLINE] ++ chars " = 1;" ++ [NEWLINE] ++ chars "```"].
Proof. split; [vm_compute; reflexivity|].
  apply (segmentation_contract code_message (mkOutputLimit 16 Chars)). vm_compute. reflexivity.
Defined.

Lemma segmentation_lazy_eager_witness :
  match segment_text_iter (chars "hello brave new world") (Some sms) with
  | Some (Ok it) => collect 21 it = Some (Ok [chars "hello brave"; chars "new world"])
  | _ => False
  end.
Proof.
  pose proof (segmentation_lazy_eager (chars "hello brave new world") sms eq_refl) as H.
  vm_compute in H |- *. apply H.
Defined.

Lemma plain_text_segmented_witness :
  ∃ segs gaps, segment_text (chars "hello brave new world") (Some sms) = Some (Ok segs) ∧
    chars "hello brave new world" = concat (zip_with app segs gaps).
Proof.
  destruct (plain_text_segmented (chars "hello brave new world") sms) as (segs & gaps & H1 & _ & H2 & _);
    [vm_compute; congruence|apply Forall_forall; intros c Hc; revert c Hc; apply Forall_forall; by repeat constructor|].
  by exists segs, gaps.
Defined.

End Segmentation.
