(* ===== verification/Authorization.v ===== *)
(** * Roles, scopes and authorization

    [crates/claw-security/src/authorization.rs] and [audit.rs]: the closed
    registries of gateway roles and scopes, the bit set of scopes, the protocol
    window, and the deny-by-default decision that is withheld until it is
    audited. *)

From S2P Require Import Prelude Utf8.

Module Authz.

Definition CURRENT_PROTOCOL_VERSION : Z := 4.
Definition MIN_GENERAL_PROTOCOL_VERSION : Z := 4.
Definition MIN_AUTHENTICATED_NODE_PROTOCOL_VERSION : Z := 3.
Definition MIN_PROBE_PROTOCOL_VERSION : Z := 3.

Inductive Role := Operator | Node | WorkerRole.

#[export] Instance Role_eq_dec : EqDecision Role.
Proof. solve_decision. Defined.

Definition Role_ALL : list Role := [Operator; Node; WorkerRole].

Inductive Scope :=
| OperatorAdmin | OperatorRead | OperatorWrite | OperatorApprovals | OperatorPairing | OperatorTalkSecrets.

#[export] Instance Scope_eq_dec : EqDecision Scope.
Proof. solve_decision. Defined.

Definition Scope_ALL : list Scope :=
  [OperatorAdmin; OperatorRead; OperatorWrite; OperatorApprovals; OperatorPairing; OperatorTalkSecrets].

Inductive RegistryError := UnknownRole | UnknownScope.

Definition role_as_str (r : Role) : bytes :=
  match r with Operator => lit "operator" | Node => lit "node" | WorkerRole => lit "worker" end.

Definition role_ordinal (r : Role) : Z :=
  match r with Operator => 0 | Node => 1 | WorkerRole => 2 end.

Definition role_parse (value : bytes) : result RegistryError Role :=
  if decide (value = lit "operator") then Ok Operator
  else if decide (value = lit "node") then Ok Node
  else if decide (value = lit "worker") then Ok WorkerRole
  else Err UnknownRole.

Definition scope_as_str (s : Scope) : bytes :=
  match s with
  | OperatorAdmin => lit "operator.admin"
  | OperatorRead => lit "operator.read"
  | OperatorWrite => lit "operator.write"
  | OperatorApprovals => lit "operator.approvals"
  | OperatorPairing => lit "operator.pairing"
  | OperatorTalkSecrets => lit "operator.talk.secrets"
  end.

Definition scope_ordinal (s : Scope) : Z :=
  match s with
  | OperatorAdmin => 0 | OperatorRead => 1 | OperatorWrite => 2
  | OperatorApprovals => 3 | OperatorPairing => 4 | OperatorTalkSecrets => 5
  end.

Definition scope_parse (value : bytes) : result RegistryError Scope :=
  if decide (value = lit "operator.admin") then Ok OperatorAdmin
  else if decide (value = lit "operator.read") then Ok OperatorRead
  else if decide (value = lit "operator.write") then Ok OperatorWrite
  else if decide (value = lit "operator.approvals") then Ok OperatorApprovals
  else if decide (value = lit "operator.pairing") then Ok OperatorPairing
  else if decide (value = lit "operator.talk.secrets") then Ok OperatorTalkSecrets
  else Err UnknownScope.

(** [ScopeSet(u8)] *)
Record ScopeSet := mkScopeSet { bits : Z }.

#[export] Instance ScopeSet_eq_dec : EqDecision ScopeSet.
Proof. solve_decision. Defined.

Definition EMPTY : ScopeSet := mkScopeSet 0.

Definition from_scopes (scopes : list Scope) : ScopeSet :=
  mkScopeSet (foldl (λ b s, Z.lor b (Z.shiftl 1 (scope_ordinal s))) 0 scopes).

Definition contains (set : ScopeSet) (scope : Scope) : bool :=
  negb (Z.land (bits set) (Z.shiftl 1 (scope_ordinal scope)) =? 0).

Definition is_empty (set : ScopeSet) : bool := bits set =? 0.

Definition scopes_iter (set : ScopeSet) : list Scope := filter (λ s, contains set s = true) Scope_ALL.

Inductive ClientClass := General | AuthenticatedNode | Probe | WorkerClass.

#[export] Instance ClientClass_eq_dec : EqDecision ClientClass.
Proof. solve_decision. Defined.

Definition class_ordinal (c : ClientClass) : Z :=
  match c with General => 0 | AuthenticatedNode => 1 | Probe => 2 | WorkerClass => 3 end.

Inductive ProtocolPolicyError := UnsupportedVersion | NodeClassRequiresNodeRole | IndependentWorkerProtocol.

Definition between (lo hi v : Z) : bool := (lo <=? v) && (v <=? hi).

Definition validate_protocol (role : Role) (class : ClientClass) (version : Z) : result ProtocolPolicyError unit :=
  if decide (role = WorkerRole) then Err IndependentWorkerProtocol
  else
    match class with
    | General => if version =? CURRENT_PROTOCOL_VERSION then Ok tt else Err UnsupportedVersion
    | AuthenticatedNode =>
        if bool_decide (role = Node)
           && between MIN_AUTHENTICATED_NODE_PROTOCOL_VERSION CURRENT_PROTOCOL_VERSION version
        then Ok tt
        else if decide (role = Node) then Err UnsupportedVersion else Err NodeClassRequiresNodeRole
    | Probe =>
        if between MIN_PROBE_PROTOCOL_VERSION CURRENT_PROTOCOL_VERSION version then Ok tt
        else Err UnsupportedVersion
    | WorkerClass => Err IndependentWorkerProtocol
    end.

Inductive RoleScopeError := OperatorScopesRequireOperatorRole.

Definition validate_role_scopes (role : Role) (scopes : ScopeSet) : result RoleScopeError unit :=
  if bool_decide (role = Operator) || is_empty scopes then Ok tt
  else Err OperatorScopesRequireOperatorRole.

(** ** Audit *)

Inductive AuditAction :=
| AuthorizationEvaluated
| PairingChallengeIssued
| PairingProofEvaluated
| PairingApprovalRequested
| PairingApproved
| PairingDenied
| PairingExpired
| PairingRevoked
| SecretResolutionAuthorized
| SecretResolved.

Inductive AuditSubject :=
| DeviceSubject (device_id : bytes)
| RoleSubject (r : Role)
| SecretScheme (scheme : bytes).

Inductive AuditOutcome := Allowed | Denied.

Inductive AuditReason :=
| PolicySatisfied | PolicyRejected | IllegalTransitionReason | InvalidProof | ReplayDetected
| ExpiredReason | ResolverFailed.

Record AuditEvent := mkAuditEvent {
  action : AuditAction;
  subject : AuditSubject;
  outcome : AuditOutcome;
  reason : AuditReason;
  event_unix_millis : Z;
}.

(** ** The decision *)

Inductive DecisionStage := Authentication | Authorization | ApprovalStage.

Inductive AuthorizationReason :=
| Granted | AuthenticationRequired | RoleNotAuthorized | ScopeNotGranted | ApprovalRequired.

Record AuthorizationDecision := mkDecision {
  granted : bool;
  stage : DecisionStage;
  decision_reason : AuthorizationReason;
}.

Record AuthorizationRequest := mkRequest {
  authenticated : bool;
  role : Role;
  granted_scopes : ScopeSet;
  required_scope : Scope;
  approved : bool;
}.

Definition scope_satisfied (grant : ScopeSet) (required : Scope) : bool :=
  contains grant OperatorAdmin || contains grant required
  || (bool_decide (required = OperatorRead) && contains grant OperatorWrite).

Definition authorize (r : AuthorizationRequest) : AuthorizationDecision :=
  if negb (authenticated r) then mkDecision false Authentication AuthenticationRequired
  else if decide (role r ≠ Operator) then mkDecision false Authorization RoleNotAuthorized
  else if negb (scope_satisfied (granted_scopes r) (required_scope r))
  then mkDecision false Authorization ScopeNotGranted
  else if negb (approved r) then mkDecision false ApprovalStage ApprovalRequired
  else mkDecision true Authorization Granted.

(** [authorize_audited]: the sink is a function of the event; the second component
    is the event offered to it. *)
Definition authorize_audited {E} (r : AuthorizationRequest) (unix_millis : Z)
    (persist : AuditEvent → result E unit) : result E AuthorizationDecision * AuditEvent :=
  let decision := authorize r in
  let event := mkAuditEvent AuthorizationEvaluated (RoleSubject (role r))
    (if granted decision then Allowed else Denied)
    (if granted decision then PolicySatisfied else PolicyRejected) unix_millis in
  (_ ← persist event; Ok decision, event).

(** ** Scope sets *)

Lemma testbit_from_scopes l b i :
  0 ≤ i →
  Z.testbit (foldl (λ b s, Z.lor b (Z.shiftl 1 (scope_ordinal s))) b l) i = true ↔
  Z.testbit b i = true ∨ ∃ s, s ∈ l ∧ scope_ordinal s = i.
Proof.
  intros Hi. revert b. induction l as [|s l IH]; intros b; cbn [foldl].
  { split; [by left|]. intros [?|(s & Hs & _)]; [done|]. by apply not_elem_of_nil in Hs. }
  rewrite IH, Z.lor_spec, orb_true_iff, Z.shiftl_1_l, Z.pow2_bits_eqb, Z.eqb_eq by (destruct s; cbn; lia).
  setoid_rewrite elem_of_cons. naive_solver.
Qed.

Lemma contains_testbit set s : contains set s = Z.testbit (bits set) (scope_ordinal s).
Proof.
  assert (0 ≤ scope_ordinal s) as Ho by (destruct s; cbn; lia).
  unfold contains. rewrite Z.shiftl_1_l. apply Bool.eq_iff_eq_true. rewrite negb_true_iff, Z.eqb_neq. split.
  - intros H. destruct (Z.testbit (bits set) (scope_ordinal s)) eqn:E; [done|]. exfalso. apply H.
    apply Z.bits_inj'. intros i Hi. rewrite Z.land_spec, Z.bits_0, Z.pow2_bits_eqb by done.
    destruct (Z.eqb_spec (scope_ordinal s) i) as [<-|]; [by rewrite E|by rewrite andb_false_r].
  - intros H H0. apply (f_equal (λ z, Z.testbit z (scope_ordinal s))) in H0.
    by rewrite Z.land_spec, H, Z.bits_0, Z.pow2_bits_true in H0.
Qed.

Lemma scope_ordinal_inj s t : scope_ordinal s = scope_ordinal t → s = t.
Proof. by destruct s, t. Qed.

Lemma contains_from_scopes l s : contains (from_scopes l) s = true ↔ s ∈ l.
Proof.
  rewrite contains_testbit. unfold from_scopes. cbn [bits].
  rewrite testbit_from_scopes by (destruct s; cbn; lia). rewrite Z.bits_0. split.
  - intros [?|(t & Ht & ->%scope_ordinal_inj)]; done.
  - intros Hs. right. by exists s.
Qed.

Lemma from_scopes_range l : 0 ≤ bits (from_scopes l) < 64.
Proof.
  unfold from_scopes. cbn [bits].
  assert (∀ b, 0 ≤ b < 64 → 0 ≤ foldl (λ b s, Z.lor b (Z.shiftl 1 (scope_ordinal s))) b l < 64) as H;
    [|apply H; lia].
  induction l as [|s l IH]; intros b Hb; [done|]. cbn [foldl]. apply IH.
  assert (0 ≤ Z.shiftl 1 (scope_ordinal s) < 2 ^ 6) as Hs by (destruct s; vm_compute; split; congruence).
  assert (0 ≤ Z.lor b (Z.shiftl 1 (scope_ordinal s))) as Hor by (apply Z.lor_nonneg; lia).
  split; [done|]. change 64 with (2 ^ 6).
  destruct (Z.eq_dec (Z.lor b (Z.shiftl 1 (scope_ordinal s))) 0) as [->|Hne]; [lia|].
  apply Z.log2_lt_pow2; [lia|].
  rewrite Z.log2_lor by lia. apply Z.max_lub_lt.
  - destruct (Z.eq_dec b 0) as [->|]; [cbn; lia|]. apply Z.log2_lt_pow2; lia.
  - by destruct s.
Qed.

(** A set is the scopes it lists. *)
Lemma from_scopes_iter set : 0 ≤ bits set < 64 → from_scopes (scopes_iter set) = set.
Proof.
  intros Hb. destruct set as [b]. cbn in Hb. unfold scopes_iter, contains. cbn [bits].
  assert (In b (seqZ 0 64)) as Hin by (apply list_elem_of_In, elem_of_seqZ; lia). revert Hin.
  assert (Forall (λ b, from_scopes (filter (λ s, negb (Z.land b (Z.shiftl 1 (scope_ordinal s)) =? 0) = true) Scope_ALL)
    = mkScopeSet b) (seqZ 0 64)) as H by (vm_compute; repeat constructor).
  rewrite Forall_forall in H. intros ?%list_elem_of_In. by apply H.
Qed.

(** ** Theorems *)

(** Access is granted only to an authenticated operator who holds the required
    scope, or admin, or write where read is required, after approval; each denial
    names the first gate that failed; and the decision is handed out only once
    its audit record, which says the same, has been persisted. *)
Theorem authorization_gates {E} (r : AuthorizationRequest) (now : Z) (persist : AuditEvent → result E unit) :
  (granted (authorize r) = true ↔
     authenticated r = true ∧ role r = Operator ∧ approved r = true ∧
     ∃ s, contains (granted_scopes r) s = true ∧
       (s = required_scope r ∨ s = OperatorAdmin ∨ s = OperatorWrite ∧ required_scope r = OperatorRead)) ∧
  (decision_reason (authorize r) =
     if negb (authenticated r) then AuthenticationRequired
     else if decide (role r ≠ Operator) then RoleNotAuthorized
     else if negb (scope_satisfied (granted_scopes r) (required_scope r)) then ScopeNotGranted
     else if negb (approved r) then ApprovalRequired else Granted) ∧
  ∀ d event, authorize_audited r now persist = (Ok d, event) →
    d = authorize r ∧ persist event = Ok tt ∧ (outcome event = Allowed ↔ granted d = true).
Proof.
  split_and!.
  - assert (scope_satisfied (granted_scopes r) (required_scope r) = true ↔
      ∃ s, contains (granted_scopes r) s = true ∧
        (s = required_scope r ∨ s = OperatorAdmin ∨ s = OperatorWrite ∧ required_scope r = OperatorRead)) as <-.
    { unfold scope_satisfied. rewrite !orb_true_iff, andb_true_iff, bool_decide_eq_true. naive_solver. }
    unfold authorize. destruct (authenticated r); cbn; [|naive_solver].
    destruct (decide (role r ≠ Operator)) as [|Hr]; cbn; [naive_solver|]. apply dec_stable in Hr.
    destruct (scope_satisfied _ _); cbn; [|naive_solver]. destruct (approved r); cbn; naive_solver.
  - unfold authorize. by repeat case_match.
  - unfold authorize_audited. intros d event H. injection H as H <-.
    apply bind_Ok in H as ([] & Hp & [= <-]). split_and!; [done|done|]. cbn. by destruct (granted (authorize r)).
Qed.

(** The closed registries: a role or scope parses only from its exact name, and
    its name parses back; a scope set built from scopes contains exactly those,
    lists them again, and equal sets have equal bits. *)
Theorem registries_exact :
  (∀ v r, role_parse v = Ok r ↔ v = role_as_str r) ∧
  (∀ v s, scope_parse v = Ok s ↔ v = scope_as_str s) ∧
  (∀ l s, contains (from_scopes l) s = true ↔ s ∈ l) ∧
  (∀ l, from_scopes (scopes_iter (from_scopes l)) = from_scopes l) ∧
  (∀ l k, bits (from_scopes l) = bits (from_scopes k) ↔ ∀ s, s ∈ l ↔ s ∈ k).
Proof.
  split_and!.
  - intros v r. unfold role_parse. split; [by repeat case_decide; intros [= <-]|]. intros ->. by destruct r.
  - intros v s. unfold scope_parse. split; [by repeat case_decide; intros [= <-]|]. intros ->. by destruct s.
  - apply contains_from_scopes.
  - intros l. apply from_scopes_iter, from_scopes_range.
  - intros l k. split.
    + intros H s. rewrite <- !contains_from_scopes, !contains_testbit. by rewrite H.
    + intros H. rewrite <- (from_scopes_iter (from_scopes l)), <- (from_scopes_iter (from_scopes k))
        by apply from_scopes_range. f_equal. f_equal. unfold scopes_iter.
      apply list_filter_iff. intros s. by rewrite !contains_from_scopes.
Qed.

(** The protocol window: a general client speaks exactly version 4, a node in
    node mode or a probe version 3 or 4, and no worker negotiates at all; a role
    other than operator carries no scope. *)
Theorem protocol_window (r : Role) (class : ClientClass) (version : Z) (scopes : ScopeSet) :
  (validate_protocol r class version = Ok tt ↔
     r ≠ WorkerRole ∧
     match class with
     | General => version = 4
     | AuthenticatedNode => r = Node ∧ (version = 3 ∨ version = 4)
     | Probe => version = 3 ∨ version = 4
     | WorkerClass => False
     end) ∧
  (validate_role_scopes r scopes = Ok tt ↔ r = Operator ∨ ∀ i, 0 ≤ i → Z.testbit (bits scopes) i = false).
Proof.
  split.
  - assert (between 3 4 version = true ↔ version = 3 ∨ version = 4) as Hb.
    { unfold between. rewrite andb_true_iff, !Z.leb_le. lia. }
    unfold validate_protocol, CURRENT_PROTOCOL_VERSION, MIN_AUTHENTICATED_NODE_PROTOCOL_VERSION,
      MIN_PROBE_PROTOCOL_VERSION.
    destruct (decide (r = WorkerRole)) as [->|Hr]; [naive_solver|].
    destruct class; [destruct (Z.eqb_spec version 4); naive_solver| | |naive_solver].
    + destruct (decide (r = Node)) as [->|Hn].
      * rewrite bool_decide_eq_true_2 by done. destruct (between 3 4 version); naive_solver.
      * rewrite bool_decide_eq_false_2 by done. naive_solver.
    + destruct (between 3 4 version); naive_solver.
  - unfold validate_role_scopes, is_empty. destruct (bool_decide (r = Operator)) eqn:E; cbn.
    { apply bool_decide_eq_true in E. naive_solver. }
    apply bool_decide_eq_false in E. destruct (Z.eqb_spec (bits scopes) 0) as [->|Hne]; split; try done.
    + intros _. right. intros i _. apply Z.bits_0.
    + intros [?|H]; [done|]. exfalso. apply Hne, Z.bits_inj'. intros i Hi. by rewrite H, Z.bits_0.
Qed.

End Authz.
