(* ===== verification/Identity.v ===== *)
(** * Device identity

    [crates/claw-security/src/identity.rs]: device fingerprints in text form, and
    the two byte strings a device signs to authenticate: the length-prefixed
    handshake of this project and the separator-joined payload of the pinned
    gateway protocol. SHA-256 and Ed25519 are third-party code: [Crypto] holds the
    two operations the code calls; keys and signatures are their bytes. *)

From S2P Require Import Prelude Utf8 Text Authorization.

Module Identity.
Import Authz.

(** [Sha256::digest] and [VerifyingKey::verify_strict(message, signature).is_ok()]. *)
Record Crypto := mkCrypto {
  sha256 : bytes → bytes;
  verify_strict : bytes → bytes → bytes → bool;
}.

(** ** Fingerprints *)

(** [DeviceId([u8; 32])] and [DevicePublicKey], as their 32 bytes. *)
Definition DeviceId : Type := bytes.
Definition DevicePublicKey : Type := bytes.
Definition DeviceSignature : Type := bytes.

Definition from_public_key (crypto : Crypto) (key : DevicePublicKey) : DeviceId := sha256 crypto key.

Definition DEVICE_ID_PREFIX : bytes := lit "claw-device-v1:".

Inductive DeviceIdError := UnsupportedDeviceVersion | InvalidLength | NonCanonicalEncoding.

Definition decode_hex_digit (value : byte) : result DeviceIdError Z :=
  if (48 <=? u8 value) && (u8 value <=? 57) then Ok (u8 value - 48)
  else if (97 <=? u8 value) && (u8 value <=? 102) then Ok (u8 value - 97 + 10)
  else Err NonCanonicalEncoding.

Definition decode_hex_pair (a b : byte) : result DeviceIdError byte :=
  high ← decode_hex_digit a; low ← decode_hex_digit b;
  Ok (byte_of (Z.lor (Z.shiftl high 4) low)).

Fixpoint decode_pairs (encoded : bytes) : result DeviceIdError bytes :=
  match encoded with
  | a :: b :: encoded => x ← decode_hex_pair a b; xs ← decode_pairs encoded; Ok (x :: xs)
  | _ => Ok []
  end.

Definition device_id_parse (value : bytes) : result DeviceIdError DeviceId :=
  encoded ← ok_or UnsupportedDeviceVersion (strip_prefix DEVICE_ID_PREFIX value);
  if negb (len encoded =? 64) then Err InvalidLength else decode_pairs encoded.

(** [{byte:02x}] *)
Definition hex_digit (d : Z) : byte := byte_of (if d <? 10 then 48 + d else 87 + d).
Definition hex2 (b : byte) : bytes := [hex_digit (u8 b / 16); hex_digit (u8 b mod 16)].

Definition gateway_wire_id (id : DeviceId) : bytes := concat (hex2 <$> id).
Definition device_id_display (id : DeviceId) : bytes := DEVICE_ID_PREFIX ++ gateway_wire_id id.

(** ** The handshake message *)

Record HandshakeSigningInput := mkHandshake {
  hs_device_id : DeviceId;
  hs_role : Role;
  hs_scopes : ScopeSet;
  hs_protocol_version : Z;
  hs_client_class : ClientClass;
  hs_signed_at_unix_millis : Z;
  hs_nonce : bytes;
  hs_challenge : bytes;
}.

(** [to_be_bytes] of a [width]-byte integer. *)
Fixpoint be_bytes (width : nat) (z : Z) : bytes :=
  match width with O => [] | S width => be_bytes width (z / 256) ++ [byte_of (z mod 256)] end.

Definition HANDSHAKE_DOMAIN : bytes := lit "GTA-Claw/handshake-proof/v1" ++ [x00].

(** [None] is the panic of [expect] on a length that does not fit [u32]. *)
Definition encode_handshake (input : HandshakeSigningInput) : option bytes :=
  if (u32_max <? len (hs_nonce input)) || (u32_max <? len (hs_challenge input)) then None
  else Some
    (HANDSHAKE_DOMAIN ++ hs_device_id input
     ++ [byte_of (role_ordinal (hs_role input))] ++ [byte_of (bits (hs_scopes input))]
     ++ be_bytes 2 (hs_protocol_version input) ++ [byte_of (class_ordinal (hs_client_class input))]
     ++ be_bytes 8 (hs_signed_at_unix_millis input)
     ++ be_bytes 4 (len (hs_nonce input)) ++ hs_nonce input
     ++ be_bytes 4 (len (hs_challenge input)) ++ hs_challenge input).

Definition verify_handshake (crypto : Crypto) (key : DevicePublicKey) (input : HandshakeSigningInput)
    (signature : DeviceSignature) : option bool :=
  message ← encode_handshake input; Some (verify_strict crypto key message signature).

(** The values the Rust types can hold. *)
Record valid_handshake (i : HandshakeSigningInput) : Prop := {
  vh_device : length (hs_device_id i) = 32%nat;
  vh_scopes : 0 ≤ bits (hs_scopes i) < 256;
  vh_version : 0 ≤ hs_protocol_version i < 2 ^ 16;
  vh_signed : 0 ≤ hs_signed_at_unix_millis i < 2 ^ 64;
}.

(** ** The gateway payload *)

Record GatewayDeviceSigningInput := mkGatewayInput {
  gw_client_id : str;
  gw_client_mode : str;
  gw_role : Role;
  gw_scopes : ScopeSet;
  gw_signed_at_unix_millis : Z;
  gw_token : option str;
  gw_nonce : str;
  gw_platform : str;
  gw_device_family : option str;
}.

Definition is_ecmascript_trim_character (c : Z) : bool :=
  ((0x09 <=? c) && (c <=? 0x0d)) || (c =? 0x20) || (c =? 0xa0) || (c =? 0x1680)
  || ((0x2000 <=? c) && (c <=? 0x200a)) || (c =? 0x2028) || (c =? 0x2029) || (c =? 0x202f)
  || (c =? 0x205f) || (c =? 0x3000) || (c =? 0xfeff).

Fixpoint trim_left (s : str) : str :=
  match s with c :: s' => if is_ecmascript_trim_character c then trim_left s' else s | [] => [] end.

Definition lower_char (c : Z) : Z := if (65 <=? c) && (c <=? 90) then c + 32 else c.

Definition normalize_gateway_metadata (value : str) : str :=
  lower_char <$> reverse (trim_left (reverse (trim_left value))).

(** [[...].join(",")] *)
Definition join_comma (pieces : list bytes) : bytes :=
  match pieces with [] => [] | p :: ps => p ++ concat (cons x2c <$> ps) end.

Definition text (b : bytes) : str := u8 <$> b.

Definition BAR : Z := 0x7C.

Definition gateway_parts (wire_id : bytes) (i : GatewayDeviceSigningInput) : list str :=
  [text wire_id; gw_client_id i; gw_client_mode i; text (role_as_str (gw_role i));
   text (join_comma (scope_as_str <$> scopes_iter (gw_scopes i)));
   text (decimal (gw_signed_at_unix_millis i)); default [] (gw_token i); gw_nonce i;
   normalize_gateway_metadata (gw_platform i);
   default [] (normalize_gateway_metadata <$> gw_device_family i)].

Definition encode_gateway_device (device_id : DeviceId) (i : GatewayDeviceSigningInput) : str :=
  chars "v3" ++ concat (cons BAR <$> gateway_parts (gateway_wire_id device_id) i).

Definition verify_gateway_device (crypto : Crypto) (key : DevicePublicKey) (i : GatewayDeviceSigningInput)
    (signature : DeviceSignature) : bool :=
  verify_strict crypto key (as_bytes (encode_gateway_device (from_public_key crypto key) i)) signature.

(** ** Fingerprint text *)

Lemma decode_hex2 b : match hex2 b with [x; y] => decode_hex_pair x y = Ok b | _ => False end.
Proof. by destruct b. Qed.

Lemma decode_hex_digit_Ok c v : decode_hex_digit c = Ok v → hex_digit v = c ∧ 0 ≤ v < 16.
Proof.
  intros Hc.
  assert (match decode_hex_digit c with Ok v => hex_digit v = c ∧ 0 ≤ v < 16 | Err _ => True end) as Hall
    by (destruct c; cbn; try done; by repeat split).
  by rewrite Hc in Hall.
Qed.

Lemma hex2_nibbles h l :
  0 ≤ h < 16 → 0 ≤ l < 16 → hex2 (byte_of (Z.lor (Z.shiftl h 4) l)) = [hex_digit h; hex_digit l].
Proof.
  intros Hh Hl.
  assert (Z.land (Z.shiftl h 4) l = 0) as Hland.
  { apply Z.bits_inj'. intros i Hi. rewrite Z.land_spec, Z.bits_0, Z.shiftl_spec by done.
    destruct (decide (i < 4)); [by rewrite Z.testbit_neg_r by lia|].
    rewrite <- (Z.mod_small l (2 ^ 4)) by done. rewrite Z.mod_pow2_bits_high by lia. apply andb_false_r. }
  pose proof (Z.add_lor_land (Z.shiftl h 4) l) as Hadd. rewrite Hland, Z.shiftl_mul_pow2 in Hadd by done.
  change (2 ^ 4) with 16 in *. rewrite Z.shiftl_mul_pow2 by done. change (2 ^ 4) with 16.
  rewrite Z.add_0_r in Hadd. rewrite Hadd. unfold hex2. rewrite u8_byte_of by lia.
  rewrite (Z.add_comm (h * 16)), Z.div_add, Z.mod_add, Z.div_small, Z.mod_small by lia. done.
Qed.

Lemma hex2_decode a b x : decode_hex_pair a b = Ok x → hex2 x = [a; b].
Proof.
  unfold decode_hex_pair. intros (h & Hh & (l & Hl & [= <-])%bind_Ok)%bind_Ok.
  apply decode_hex_digit_Ok in Hh as [<- ?], Hl as [<- ?]. by apply hex2_nibbles.
Qed.

Lemma decode_pairs_wire id : decode_pairs (gateway_wire_id id) = Ok id.
Proof.
  induction id as [|b id IH]; [done|]. unfold gateway_wire_id. cbn [fmap list_fmap concat].
  pose proof (decode_hex2 b) as Hb. destruct (hex2 b) as [|x [|y []]]; try done. cbn [app decode_pairs].
  rewrite Hb. cbn. unfold gateway_wire_id in IH. by rewrite IH.
Qed.

Lemma decode_pairs_Ok n encoded id :
  length encoded = (2 * n)%nat → decode_pairs encoded = Ok id →
  encoded = gateway_wire_id id ∧ length id = n.
Proof.
  revert encoded id. induction n as [|n IH]; intros [|a [|b encoded]] id Hl; cbn in Hl; try lia.
  { intros [= <-]. done. }
  cbn. intros (x & Hx%hex2_decode & (xs & Hxs & [= <-])%bind_Ok)%bind_Ok.
  apply IH in Hxs as [-> Hlen]; [|lia]. split; [|cbn; lia].
  unfold gateway_wire_id. cbn [fmap list_fmap concat]. by rewrite Hx.
Qed.

Lemma length_wire_id id : length (gateway_wire_id id) = (2 * length id)%nat.
Proof.
  induction id as [|b id IH]; [done|]. unfold gateway_wire_id in *. cbn [fmap list_fmap concat].
  rewrite length_app, IH. cbn. lia.
Qed.

Lemma wire_id_inj a b : gateway_wire_id a = gateway_wire_id b → a = b.
Proof. intros H. apply (f_equal decode_pairs) in H. rewrite !decode_pairs_wire in H. by injection H. Qed.

(** ** Integers and lengths in messages *)

Fixpoint be_value (bs : bytes) (acc : Z) : Z :=
  match bs with [] => acc | b :: bs => be_value bs (acc * 256 + u8 b) end.

Lemma be_value_app a b acc : be_value (a ++ b) acc = be_value b (be_value a acc).
Proof. revert acc. induction a as [|x a IH]; intros acc; cbn; [done|apply IH]. Qed.

Lemma be_bytes_value width z : 0 ≤ z < 256 ^ Z.of_nat width → be_value (be_bytes width z) 0 = z.
Proof.
  revert z. induction width as [|width IH]; intros z Hz; cbn [be_bytes]; [cbn in *; lia|].
  pose proof (Z.div_mod z 256 ltac:(lia)). pose proof (Z.mod_pos_bound z 256 ltac:(lia)).
  rewrite be_value_app, IH.
  - cbn. rewrite u8_byte_of by lia. lia.
  - replace (Z.of_nat (S width)) with (1 + Z.of_nat width) in Hz by lia.
    rewrite Z.pow_add_r in Hz by lia. change (256 ^ 1) with 256 in Hz.
    split; [apply Z.div_pos; lia|apply Z.div_lt_upper_bound; lia].
Qed.

Lemma length_be_bytes width z : length (be_bytes width z) = width.
Proof. revert z. induction width as [|w IH]; intros z; cbn; [done|]. rewrite length_app, IH. cbn. lia. Qed.

Lemma be_bytes_inj width a b :
  0 ≤ a < 256 ^ Z.of_nat width → 0 ≤ b < 256 ^ Z.of_nat width →
  be_bytes width a = be_bytes width b → a = b.
Proof.
  intros Ha Hb H. apply (f_equal (λ l, be_value l 0)) in H. by rewrite !be_bytes_value in H.
Qed.

(** A length-prefixed field followed by the same rest. *)
Lemma prefixed_inj a b s t :
  len a ≤ u32_max → len b ≤ u32_max →
  be_bytes 4 (len a) ++ a ++ s = be_bytes 4 (len b) ++ b ++ t → a = b ∧ s = t.
Proof.
  intros Ha Hb H. apply app_inj_1 in H as [Hl H]; [|by rewrite !length_be_bytes].
  assert (len a = len b) as Hlen.
  { pose proof (len_nonneg a). pose proof (len_nonneg b). change u32_max with 4294967295 in *.
    apply (be_bytes_inj 4); [change (256 ^ Z.of_nat 4) with 4294967296; lia..|done]. }
  apply app_inj_1 in H; [done|]. unfold len in Hlen. lia.
Qed.

Lemma byte_of_inj a b : 0 ≤ a < 256 → 0 ≤ b < 256 → byte_of a = byte_of b → a = b.
Proof. intros Ha Hb H. apply (f_equal u8) in H. by rewrite !u8_byte_of in H by lia. Qed.

(** ** Theorems *)

(** Fingerprints have one spelling: the printed form of a 32-byte identifier
    parses back to it, and whatever parses is the printed form of a 32-byte
    identifier. *)
Theorem device_id_roundtrip :
  (∀ id, length id = 32%nat → device_id_parse (device_id_display id) = Ok id) ∧
  (∀ value id, device_id_parse value = Ok id → length id = 32%nat ∧ value = device_id_display id).
Proof.
  split.
  - intros id Hid. unfold device_id_parse, device_id_display.
    rewrite (proj2 (strip_prefix_Some _ _ _) eq_refl). cbn [ok_or]. unfold mbind, result_bind.
    unfold len. rewrite length_wire_id, Hid. cbn [negb Z.eqb]. apply decode_pairs_wire.
  - intros value id. unfold device_id_parse. intros (enc & Henc & H)%bind_Ok.
    apply ok_or_Ok, strip_prefix_Some in Henc as ->. destruct (Z.eqb_spec (len enc) 64) as [Hl|]; [|done]. cbn in H.
    apply (decode_pairs_Ok 32) in H as [-> Hid]; [done|]. unfold len in Hl. lia.
Qed.

(** A handshake signature covers every claim: two inputs with the same signed
    bytes are the same input, so device, role, scopes, version, class, time, nonce
    and challenge are all bound by the signature. *)
Theorem handshake_encoding_injective (a b : HandshakeSigningInput) (message : bytes) :
  valid_handshake a → valid_handshake b →
  encode_handshake a = Some message → encode_handshake b = Some message → a = b.
Proof.
  intros [Hda Hsa Hva Hta] [Hdb Hsb Hvb Htb]. unfold encode_handshake.
  destruct ((u32_max <? len (hs_nonce a)) || _) eqn:Ea; [done|].
  destruct ((u32_max <? len (hs_nonce b)) || _) eqn:Eb; [done|]. intros Hma H. rewrite <- Hma in H.
  apply (inj Some) in H. clear Hma. boolify.
  destruct a as [da ra sa va ca ta na cha], b as [db rb sb vb cb tb nb chb].
  cbn [hs_device_id hs_role hs_scopes hs_protocol_version hs_client_class hs_signed_at_unix_millis hs_nonce
       hs_challenge] in *.
  apply app_inj_1 in H as [_ H]; [|done]. apply app_inj_1 in H as [Hd H]; [|lia].
  apply app_inj_1 in H as [Hr H]; [|done]. apply app_inj_1 in H as [Hs H]; [|done].
  apply app_inj_1 in H as [Hv H]; [|by rewrite !length_be_bytes]. apply app_inj_1 in H as [Hc H]; [|done].
  apply app_inj_1 in H as [Ht H]; [|by rewrite !length_be_bytes].
  symmetry in H. apply prefixed_inj in H as [-> H]; [|lia..].
  assert (be_bytes 4 (len cha) ++ cha ++ [] = be_bytes 4 (len chb) ++ chb ++ []) as H' by by rewrite !app_nil_r.
  apply prefixed_inj in H' as [-> _]; [|lia..].
  apply (be_bytes_inj 2) in Hv; [|done..]. apply (be_bytes_inj 8) in Ht; [|done..].
  injection Hs as Hs%byte_of_inj; [|done..].
  destruct sa, sb. cbn in *. subst. f_equal; [by destruct ra, rb|by destruct ca, cb].
Qed.

(** *** The gateway payload *)

Definition no_bar (s : str) : Prop := Forall (λ c, (c =? BAR) = false) s.

Lemma split_parts (first : str) (parts : list str) :
  no_bar first → Forall no_bar parts →
  split (λ c, c =? BAR) (first ++ concat (cons BAR <$> parts)) = first :: parts.
Proof.
  intros Hf Hp. revert first Hf. induction Hp as [|p parts Hp _ IH]; intros first Hf; cbn [fmap list_fmap concat].
  - rewrite app_nil_r. unfold split. rewrite split_loop_sep_free by done. done.
  - cbn [app]. rewrite split_app by done. by rewrite IH.
Qed.

(** The free-text fields of an input contain no separator. *)
Definition unambiguous (i : GatewayDeviceSigningInput) : Prop :=
  Forall no_bar
    [gw_client_id i; gw_client_mode i; default [] (gw_token i); gw_nonce i;
     normalize_gateway_metadata (gw_platform i); default [] (normalize_gateway_metadata <$> gw_device_family i)].

Definition no_bar_bytes (b : bytes) : bool := forallb (λ x, negb (u8 x =? BAR)) b.

Lemma no_bar_text b : no_bar_bytes b = true → no_bar (text b).
Proof.
  unfold no_bar_bytes, no_bar, text. intros H. apply Forall_fmap.
  apply Forall_forall. intros x Hx. rewrite forallb_forall in H. specialize (H x (proj1 (list_elem_of_In _ _) Hx)).
  cbn. by apply negb_true_iff in H.
Qed.

Lemma no_bar_wire id : no_bar_bytes (gateway_wire_id id) = true.
Proof.
  unfold no_bar_bytes. induction id as [|b id IH]; [done|]. unfold gateway_wire_id in *. cbn [fmap list_fmap concat].
  rewrite forallb_app, IH, andb_true_r. by destruct b.
Qed.

(** The scope list of a set determines the set. *)
Definition scope_text (set : ScopeSet) : bytes := join_comma (scope_as_str <$> scopes_iter set).

Lemma split_join_comma p ps :
  Forall (Forall (λ b, Byte.eqb b x2c = false)) (p :: ps) →
  split (λ b, Byte.eqb b x2c) (join_comma (p :: ps)) = p :: ps.
Proof.
  intros H. unfold join_comma. revert p H. induction ps as [|q ps IH]; intros p Hp; cbn [fmap list_fmap concat].
  - rewrite app_nil_r. unfold split. apply Forall_cons in Hp as [Hp _]. by rewrite split_loop_sep_free.
  - apply Forall_cons in Hp as [Hp Hps]. cbn [app]. rewrite split_app by done. by rewrite IH.
Qed.

Lemma scope_text_inj a b : 0 ≤ bits a < 64 → 0 ≤ bits b < 64 → scope_text a = scope_text b → a = b.
Proof.
  intros Ha Hb H. rewrite <- (from_scopes_iter a), <- (from_scopes_iter b) by done. f_equal. revert H.
  unfold scope_text. generalize (scopes_iter a) (scopes_iter b). intros l k H.
  assert (∀ l, Forall (Forall (λ b, Byte.eqb b x2c = false)) (scope_as_str <$> l)) as Hc.
  { intros m. apply Forall_fmap, Forall_forall. intros s _. cbn. by destruct s; repeat constructor. }
  apply (list_fmap_eq_inj scope_as_str); [by intros [] []|].
  destruct l as [|s l], k as [|t k]; [done| | |].
  - cbn in H. by destruct t.
  - cbn in H. by destruct s.
  - apply (f_equal (split (λ b, Byte.eqb b x2c))) in H.
    pose proof (split_join_comma _ _ (Hc (s :: l))) as H1. pose proof (split_join_comma _ _ (Hc (t :: k))) as H2.
    exact (eq_trans (eq_sym H1) (eq_trans H H2)).
Qed.

Lemma no_bar_scopes set : no_bar_bytes (scope_text set) = true.
Proof.
  unfold scope_text, no_bar_bytes. destruct (scopes_iter set) as [|s l]; [done|]. cbn [fmap list_fmap join_comma].
  rewrite forallb_app. apply andb_true_iff. split; [by destruct s|].
  induction l as [|t l IH]; [done|]. cbn [fmap list_fmap concat]. rewrite forallb_app. apply andb_true_iff.
  split; [by destruct t|done].
Qed.

Lemma no_bar_decimal z : 0 ≤ z ≤ u64_max → no_bar_bytes (decimal z) = true.
Proof.
  intros Hz. destruct (decimal_ok z Hz) as (_ & Hd & _). unfold no_bar_bytes.
  apply forallb_forall. intros x Hx%list_elem_of_In. rewrite Forall_forall in Hd. specialize (Hd x Hx).
  unfold is_ascii_digit in Hd. boolify. apply negb_true_iff, Z.eqb_neq. unfold BAR. lia.
Qed.

Lemma gateway_parts_no_bar id i :
  unambiguous i → 0 ≤ bits (gw_scopes i) < 64 → 0 ≤ gw_signed_at_unix_millis i ≤ u64_max →
  Forall no_bar (gateway_parts (gateway_wire_id id) i).
Proof.
  unfold unambiguous. rewrite !Forall_cons. intros (H1 & H2 & H3 & H4 & H5 & H6 & _) Hs Ht.
  unfold gateway_parts. rewrite !Forall_cons.
  split_and!; try done; apply no_bar_text.
  - apply no_bar_wire.
  - by destruct (gw_role i).
  - apply no_bar_scopes.
  - by apply no_bar_decimal.
Qed.

Lemma text_inj a b : text a = text b → a = b.
Proof. unfold text. apply list_fmap_eq_inj. intros x y. apply u8_inj. Qed.

(** The gateway payload binds its fields when none of them contains the
    separator [|]: two such inputs with the same payload agree on the device, the
    client, the role, the scopes, the time, the token, the nonce and the
    normalized metadata. *)
Theorem gateway_payload_binding (ida idb : DeviceId) (a b : GatewayDeviceSigningInput) :
  unambiguous a → unambiguous b →
  0 ≤ bits (gw_scopes a) < 64 → 0 ≤ bits (gw_scopes b) < 64 →
  0 ≤ gw_signed_at_unix_millis a ≤ u64_max → 0 ≤ gw_signed_at_unix_millis b ≤ u64_max →
  encode_gateway_device ida a = encode_gateway_device idb b →
  ida = idb ∧ gw_client_id a = gw_client_id b ∧ gw_client_mode a = gw_client_mode b ∧ gw_role a = gw_role b ∧
  gw_scopes a = gw_scopes b ∧ gw_signed_at_unix_millis a = gw_signed_at_unix_millis b ∧
  default [] (gw_token a) = default [] (gw_token b) ∧ gw_nonce a = gw_nonce b ∧
  normalize_gateway_metadata (gw_platform a) = normalize_gateway_metadata (gw_platform b) ∧
  default [] (normalize_gateway_metadata <$> gw_device_family a)
  = default [] (normalize_gateway_metadata <$> gw_device_family b).
Proof.
  intros Ha Hb Hsa Hsb Hta Htb H. unfold encode_gateway_device in H.
  apply (f_equal (split (λ c, c =? BAR))) in H.
  rewrite !split_parts in H; try (by apply gateway_parts_no_bar); try (by repeat constructor).
  unfold gateway_parts in H. injection H as H1%text_inj%wire_id_inj H2 H3 H4%text_inj H5%text_inj H6%text_inj H7 H8 H9 H10.
  split_and!; try done.
  - by destruct (gw_role a), (gw_role b).
  - by apply scope_text_inj.
  - apply (f_equal digits_value) in H6.
    by rewrite (proj1 (decimal_ok _ Hta)), (proj1 (decimal_ok _ Htb)) in H6.
Qed.

(** Without that restriction the payload does not bind its fields: the same signed
    bytes serve two different tokens with two different nonces. *)
Theorem gateway_payload_ambiguous :
  ∃ a b id, encode_gateway_device id a = encode_gateway_device id b ∧
    gw_token a ≠ gw_token b ∧ gw_nonce a ≠ gw_nonce b.
Proof.
  exists (mkGatewayInput (chars "app") (chars "ui") Operator EMPTY 7 (Some (chars "t|n")) (chars "x") [] None),
    (mkGatewayInput (chars "app") (chars "ui") Operator EMPTY 7 (Some (chars "t")) (chars "n|x") [] None), [].
  split_and!; [vm_compute; reflexivity|discriminate|discriminate].
Qed.

(** ** Witnesses *)

Definition sample_id : DeviceId := replicate 32 x2a.

Lemma handshake_encoding_injective_witness :
  ∃ m, encode_handshake (mkHandshake sample_id Operator EMPTY 4 General 7 [x01] [x02]) = Some m ∧
    mkHandshake sample_id Operator EMPTY 4 General 7 [x01] [x02]
    = mkHandshake sample_id Operator EMPTY 4 General 7 [x01] [x02].
Proof.
  eexists. split; [reflexivity|].
  eapply handshake_encoding_injective; [by split|by split|reflexivity|reflexivity].
Defined.

Definition sample_gateway (nonce : str) : GatewayDeviceSigningInput :=
  mkGatewayInput (chars "app") (chars "ui") Operator EMPTY 7 (Some (chars "t")) nonce (chars " Linux ") None.

Lemma gateway_payload_binding_witness :
  normalize_gateway_metadata (chars " Linux ") = normalize_gateway_metadata (chars "linux").
Proof.
  apply (gateway_payload_binding sample_id sample_id (sample_gateway (chars "n"))
    (mkGatewayInput (chars "app") (chars "ui") Operator EMPTY 7 (Some (chars "t")) (chars "n") (chars "linux") None));
    try (vm_compute; split; congruence); try (by repeat constructor).
Defined.

End Identity.
