(* ===== verification/Pairing.v ===== *)
(** * Device pairing

    [crates/claw-security/src/pairing.rs]: the session in which a device proves its
    identity and an operator approves it. The nonce store, the audit sink and the
    clock are ports: each call gets an [Env] with what they answer, and returns the
    calls it made. SHA-256 and Ed25519 are the [Crypto] of [Identity]. *)

From S2P Require Import Prelude Utf8 Text Authorization Identity.

Module Pairing.
Import Authz Identity.

Definition MIN_TTL_MILLIS : Z := 1000.
Definition MAX_TTL_MILLIS : Z := 5 * 60 * 1000.
Definition MAX_ATTEMPTS : Z := 10.
Definition MAX_CLOCK_SKEW_MILLIS : Z := 60000.
Definition MIN_CHALLENGE_BYTES : Z := 16.
Definition MAX_CHALLENGE_BYTES : Z := 256.

Record ClockSnapshot := mkClock { monotonic_millis : Z; unix_millis : Z }.

(** [ChallengeNonce([u8; 32])] *)
Definition ChallengeNonce : Type := bytes.

(** ** Policy *)

Record PairingPolicy := mkPairingPolicy { ttl_millis : Z; max_attempts : Z; max_clock_skew_millis : Z }.

Inductive PairingPolicyError := TtlOutOfBounds | AttemptsOutOfBounds | ClockSkewOutOfBounds.

Definition policy_new (ttl attempts skew : Z) : result PairingPolicyError PairingPolicy :=
  if negb (between MIN_TTL_MILLIS MAX_TTL_MILLIS ttl) then Err TtlOutOfBounds
  else if negb (between 1 MAX_ATTEMPTS attempts) then Err AttemptsOutOfBounds
  else if MAX_CLOCK_SKEW_MILLIS <? skew then Err ClockSkewOutOfBounds
  else Ok (mkPairingPolicy ttl attempts skew).

(** ** Challenges and proofs *)

Record ChallengeRequest := mkChallengeRequest {
  req_public_key : DevicePublicKey;
  req_role : Role;
  req_scopes : ScopeSet;
  req_protocol_version : Z;
  req_client_class : ClientClass;
  req_nonce : ChallengeNonce;
  req_challenge : bytes;
}.

Record PairingChallenge := mkPairingChallenge {
  ch_device_id : DeviceId;
  ch_public_key : DevicePublicKey;
  ch_role : Role;
  ch_scopes : ScopeSet;
  ch_protocol_version : Z;
  ch_client_class : ClientClass;
  ch_nonce : ChallengeNonce;
  ch_challenge : bytes;
  issued_at : ClockSnapshot;
  expires_at_monotonic_millis : Z;
  attempts : Z;
}.

Definition signing_input (c : PairingChallenge) (signed_at : Z) : HandshakeSigningInput :=
  mkHandshake (ch_device_id c) (ch_role c) (ch_scopes c) (ch_protocol_version c) (ch_client_class c)
    signed_at (ch_nonce c) (ch_challenge c).

Record PairingProof := mkPairingProof {
  pf_device_id : DeviceId;
  pf_public_key : DevicePublicKey;
  pf_role : Role;
  pf_scopes : ScopeSet;
  pf_protocol_version : Z;
  pf_client_class : ClientClass;
  pf_signed_at_unix_millis : Z;
  pf_nonce : ChallengeNonce;
  pf_signature : DeviceSignature;
}.

(** ** States *)

Inductive PairingStateData :=
| Unpaired
| ChallengeIssued (c : PairingChallenge)
| ProofVerified (c : PairingChallenge)
| AwaitingApproval (c : PairingChallenge)
| Approved
| PairingDeniedState
| Expired
| Revoked.

Record PairingSession := mkSession { device_id : DeviceId; state : PairingStateData }.

Definition session_new (id : DeviceId) : PairingSession := mkSession id Unpaired.

Inductive PairingRejection :=
| IllegalTransition | InvalidChallengeLength | CrossDevice | RoleScopeMismatch | ProtocolMismatch
| NonceCollision | ClockOverflow | StaleTimestamp | FutureTimestamp | RoleMismatch | ScopeMismatch
| ClientClassMismatch | NonceMismatch | InvalidSignature | Replay | ExpiredRejection | AttemptsExhausted
| NotYetExpired.

#[export] Instance PairingRejection_eq_dec : EqDecision PairingRejection.
Proof. solve_decision. Defined.

Section Pairing.
Context {NE AE : Type} (crypto : Crypto).

Inductive PairingOperationError :=
| Rejected (r : PairingRejection)
| NonceStore (e : NE)
| Audit (e : AE).

(** What the ports answer during one call. *)
Record Env := mkEnv {
  now : ClockSnapshot;
  reserve : ChallengeNonce → Z → result NE bool;
  consume : ChallengeNonce → result NE bool;
  persist : AuditEvent → result AE unit;
}.

(** What a call asked of the ports, in order. *)
Inductive PortCall :=
| Reserve (nonce : ChallengeNonce) (deadline : Z)
| Consume (nonce : ChallengeNonce)
| Persist (event : AuditEvent).

(** A call on a session: its result, the session after it, and its port calls. *)
Definition Outcome : Type := result PairingOperationError unit * PairingSession * list PortCall.

Definition fail (s : PairingSession) (e : PairingOperationError) (calls : list PortCall) : Outcome :=
  (Err e, s, calls).

Definition event_of (s : PairingSession) (env : Env) (a : AuditAction) (o : AuditOutcome) (r : AuditReason)
  : AuditEvent := mkAuditEvent a (DeviceSubject (device_id s)) o r (unix_millis (now env)).

(** [persist_pairing_event(...).map_err(PairingOperationError::Audit)?; rest] *)
Definition persisting (s : PairingSession) (env : Env) (event : AuditEvent) (calls : list PortCall)
    (rest : list PortCall → Outcome) : Outcome :=
  let calls := calls ++ [Persist event] in
  match persist env event with
  | Err e => fail s (Audit e) calls
  | Ok _ => rest calls
  end.

Definition to_state (s : PairingSession) (st : PairingStateData) : PairingSession := mkSession (device_id s) st.

Definition reject_without_nonce (s : PairingSession) (env : Env) (a : AuditAction) (r : PairingRejection)
    (calls : list PortCall) : Outcome :=
  persisting s env
    (event_of s env a Denied (if decide (r = IllegalTransition) then IllegalTransitionReason else PolicyRejected))
    calls (λ calls, fail s (Rejected r) calls).

Definition record_failed_attempt (s : PairingSession) (env : Env) (c : PairingChallenge) (r : PairingRejection)
    (policy : PairingPolicy) : Outcome :=
  persisting s env (event_of s env PairingProofEvaluated Denied InvalidProof) [] (λ calls,
    let c := mkPairingChallenge (ch_device_id c) (ch_public_key c) (ch_role c) (ch_scopes c)
      (ch_protocol_version c) (ch_client_class c) (ch_nonce c) (ch_challenge c) (issued_at c)
      (expires_at_monotonic_millis c) (sat_add u8_max (attempts c) 1) in
    if max_attempts policy <=? attempts c
    then fail (to_state s PairingDeniedState) (Rejected AttemptsExhausted) calls
    else fail (to_state s (ChallengeIssued c)) (Rejected r) calls).

(** ** Operations *)

Definition issue_challenge (s : PairingSession) (env : Env) (req : ChallengeRequest) (policy : PairingPolicy)
  : Outcome :=
  let reject r := reject_without_nonce s env PairingChallengeIssued r in
  if match state s with Unpaired => false | _ => true end then reject IllegalTransition []
  else if negb (between MIN_CHALLENGE_BYTES MAX_CHALLENGE_BYTES (len (req_challenge req)))
  then reject InvalidChallengeLength []
  else if negb (bool_decide (from_public_key crypto (req_public_key req) = device_id s))
  then reject CrossDevice []
  else if negb (is_ok (validate_role_scopes (req_role req) (req_scopes req))) then reject RoleScopeMismatch []
  else if negb (is_ok (validate_protocol (req_role req) (req_client_class req) (req_protocol_version req)))
  then reject ProtocolMismatch []
  else
    let expires_at := monotonic_millis (now env) + ttl_millis policy in
    if u64_max <? expires_at then fail s (Rejected ClockOverflow) []
    else
      let calls := [Reserve (req_nonce req) expires_at] in
      match reserve env (req_nonce req) expires_at with
      | Err e => fail s (NonceStore e) calls
      | Ok false => reject NonceCollision calls
      | Ok true =>
          persisting s env (event_of s env PairingChallengeIssued Allowed PolicySatisfied) calls (λ calls,
            (Ok tt,
             to_state s (ChallengeIssued (mkPairingChallenge (device_id s) (req_public_key req) (req_role req)
               (req_scopes req) (req_protocol_version req) (req_client_class req) (req_nonce req)
               (req_challenge req) (now env) expires_at 0)),
             calls))
      end.

(** The claims of a proof against the outstanding challenge, in order. *)
Definition judge_proof (s : PairingSession) (env : Env) (proof : PairingProof) (c : PairingChallenge)
    (policy : PairingPolicy) : option PairingRejection :=
  if sat_add u64_max (unix_millis (now env)) (max_clock_skew_millis policy) <? pf_signed_at_unix_millis proof
  then Some FutureTimestamp
  else if sat_add u64_max (pf_signed_at_unix_millis proof) (max_clock_skew_millis policy) <? unix_millis (now env)
  then Some StaleTimestamp
  else if negb (bool_decide (pf_device_id proof = device_id s))
          || negb (bool_decide (from_public_key crypto (pf_public_key proof) = device_id s))
          || negb (bool_decide (pf_public_key proof = ch_public_key c))
  then Some CrossDevice
  else if negb (bool_decide (pf_role proof = ch_role c)) then Some RoleMismatch
  else if negb (bool_decide (pf_scopes proof = ch_scopes c)) then Some ScopeMismatch
  else if negb (pf_protocol_version proof =? ch_protocol_version c) then Some ProtocolMismatch
  else if negb (bool_decide (pf_client_class proof = ch_client_class c)) then Some ClientClassMismatch
  else if negb (bool_decide (pf_nonce proof = ch_nonce c)) then Some NonceMismatch
  else if negb (default false (verify_handshake crypto (pf_public_key proof)
                                 (signing_input c (pf_signed_at_unix_millis proof)) (pf_signature proof)))
  then Some InvalidSignature
  else None.

Definition verify_proof (s : PairingSession) (env : Env) (proof : PairingProof) (policy : PairingPolicy) : Outcome :=
  match state s with
  | ChallengeIssued c =>
      if expires_at_monotonic_millis c <=? monotonic_millis (now env) then
        persisting s env (event_of s env PairingProofEvaluated Denied ExpiredReason) [] (λ calls,
          fail (to_state s Expired) (Rejected ExpiredRejection) calls)
      else
        match judge_proof s env proof c policy with
        | Some rejection => record_failed_attempt s env c rejection policy
        | None =>
            let calls := [Consume (ch_nonce c)] in
            match consume env (ch_nonce c) with
            | Err e => fail s (NonceStore e) calls
            | Ok false =>
                persisting s env (event_of s env PairingProofEvaluated Denied ReplayDetected) calls (λ calls,
                  fail s (Rejected Replay) calls)
            | Ok true =>
                persisting s env (event_of s env PairingProofEvaluated Allowed PolicySatisfied) calls (λ calls,
                  (Ok tt, to_state s (ProofVerified c), calls))
            end
        end
  | _ => reject_without_nonce s env PairingProofEvaluated IllegalTransition []
  end.

(** The expiry branch that [request_approval] and [approve] share. *)
Definition expire_now (s : PairingSession) (env : Env) : Outcome :=
  persisting s env (event_of s env PairingExpired Allowed ExpiredReason) [] (λ calls,
    fail (to_state s Expired) (Rejected ExpiredRejection) calls).

Definition request_approval (s : PairingSession) (env : Env) : Outcome :=
  match state s with
  | ProofVerified c =>
      if expires_at_monotonic_millis c <=? monotonic_millis (now env) then expire_now s env
      else persisting s env (event_of s env PairingApprovalRequested Allowed PolicySatisfied) [] (λ calls,
             (Ok tt, to_state s (AwaitingApproval c), calls))
  | _ => reject_without_nonce s env PairingApprovalRequested IllegalTransition []
  end.

Definition approve (s : PairingSession) (env : Env) : Outcome :=
  match state s with
  | AwaitingApproval c =>
      if expires_at_monotonic_millis c <=? monotonic_millis (now env) then expire_now s env
      else persisting s env (event_of s env PairingApproved Allowed PolicySatisfied) [] (λ calls,
             (Ok tt, to_state s Approved, calls))
  | _ => reject_without_nonce s env PairingApproved IllegalTransition []
  end.

Definition deny (s : PairingSession) (env : Env) : Outcome :=
  match state s with
  | AwaitingApproval _ =>
      persisting s env (event_of s env PairingDenied Allowed PolicySatisfied) [] (λ calls,
        (Ok tt, to_state s PairingDeniedState, calls))
  | _ => reject_without_nonce s env PairingDenied IllegalTransition []
  end.

Definition outstanding (st : PairingStateData) : option PairingChallenge :=
  match st with ChallengeIssued c | ProofVerified c | AwaitingApproval c => Some c | _ => None end.

Definition expire (s : PairingSession) (env : Env) : Outcome :=
  match outstanding (state s) with
  | Some c =>
      if monotonic_millis (now env) <? expires_at_monotonic_millis c
      then reject_without_nonce s env PairingExpired NotYetExpired []
      else persisting s env (event_of s env PairingExpired Allowed ExpiredReason) [] (λ calls,
             (Ok tt, to_state s Expired, calls))
  | None => reject_without_nonce s env PairingExpired IllegalTransition []
  end.

Definition revoke (s : PairingSession) (env : Env) : Outcome :=
  match state s with
  | Approved =>
      persisting s env (event_of s env PairingRevoked Allowed PolicySatisfied) [] (λ calls,
        (Ok tt, to_state s Revoked, calls))
  | _ => reject_without_nonce s env PairingRevoked IllegalTransition []
  end.

(** ** Any sequence of operations *)

Inductive Op :=
| Issue (req : ChallengeRequest) (policy : PairingPolicy)
| Verify (proof : PairingProof) (policy : PairingPolicy)
| RequestApproval | Approve | Deny | Expire | Revoke.

Definition apply (s : PairingSession) (env : Env) (op : Op) : Outcome :=
  match op with
  | Issue req policy => issue_challenge s env req policy
  | Verify proof policy => verify_proof s env proof policy
  | RequestApproval => request_approval s env
  | Approve => approve s env
  | Deny => deny s env
  | Expire => expire s env
  | Revoke => revoke s env
  end.

Definition result_of (o : Outcome) : result PairingOperationError unit := o.1.1.
Definition session_of (o : Outcome) : PairingSession := o.1.2.
Definition calls_of (o : Outcome) : list PortCall := o.2.

(** The session after a history of operations, oldest last. *)
Fixpoint run (s : PairingSession) (history : list (Op * Env)) : PairingSession :=
  match history with
  | [] => s
  | (op, env) :: history => session_of (apply (run s history) env op)
  end.

(** ** What an operation can do to the state *)

Definition Checked (dev : DeviceId) (c : PairingChallenge) : Prop :=
  ch_device_id c = dev ∧ from_public_key crypto (ch_public_key c) = dev ∧
  validate_role_scopes (ch_role c) (ch_scopes c) = Ok tt ∧
  validate_protocol (ch_role c) (ch_client_class c) (ch_protocol_version c) = Ok tt ∧
  MIN_CHALLENGE_BYTES ≤ len (ch_challenge c) ≤ MAX_CHALLENGE_BYTES.

(** The same challenge but for its attempt counter. *)
Definition with_attempts (c : PairingChallenge) (n : Z) : PairingChallenge :=
  mkPairingChallenge (ch_device_id c) (ch_public_key c) (ch_role c) (ch_scopes c) (ch_protocol_version c)
    (ch_client_class c) (ch_nonce c) (ch_challenge c) (issued_at c) (expires_at_monotonic_millis c) n.

Inductive Change (dev : DeviceId) (env : Env) : Op → PairingStateData → PairingStateData → Prop :=
| change_issue req policy c :
    c = mkPairingChallenge dev (req_public_key req) (req_role req) (req_scopes req) (req_protocol_version req)
          (req_client_class req) (req_nonce req) (req_challenge req) (now env)
          (monotonic_millis (now env) + ttl_millis policy) 0 →
    Checked dev c → expires_at_monotonic_millis c ≤ u64_max →
    reserve env (req_nonce req) (expires_at_monotonic_millis c) = Ok true →
    Change dev env (Issue req policy) Unpaired (ChallengeIssued c)
| change_verify proof policy c :
    judge_proof (mkSession dev (ChallengeIssued c)) env proof c policy = None →
    monotonic_millis (now env) < expires_at_monotonic_millis c →
    consume env (ch_nonce c) = Ok true →
    Change dev env (Verify proof policy) (ChallengeIssued c) (ProofVerified c)
| change_attempt proof policy c r :
    judge_proof (mkSession dev (ChallengeIssued c)) env proof c policy = Some r →
    sat_add u8_max (attempts c) 1 < max_attempts policy →
    Change dev env (Verify proof policy) (ChallengeIssued c)
      (ChallengeIssued (with_attempts c (sat_add u8_max (attempts c) 1)))
| change_exhausted proof policy c r :
    judge_proof (mkSession dev (ChallengeIssued c)) env proof c policy = Some r →
    max_attempts policy ≤ sat_add u8_max (attempts c) 1 →
    Change dev env (Verify proof policy) (ChallengeIssued c) PairingDeniedState
| change_request c :
    monotonic_millis (now env) < expires_at_monotonic_millis c →
    Change dev env RequestApproval (ProofVerified c) (AwaitingApproval c)
| change_approve c :
    monotonic_millis (now env) < expires_at_monotonic_millis c →
    Change dev env Approve (AwaitingApproval c) Approved
| change_deny c : Change dev env Deny (AwaitingApproval c) PairingDeniedState
| change_expire op st c :
    outstanding st = Some c → expires_at_monotonic_millis c ≤ monotonic_millis (now env) →
    Change dev env op st Expired
| change_revoke : Change dev env Revoke Approved Revoked.

(** The record of a refusal: a denial, or an expiry found on the way. *)
Definition Refusal (e : AuditEvent) : Prop :=
  outcome e = Denied ∨ action e = PairingExpired ∧ reason e = ExpiredReason.

(** An outcome is the untouched session, or a change that was audited first; a
    success and every refusal but that of an overflowing deadline are audited. *)
Record Effect (s : PairingSession) (env : Env) (op : Op) (o : Outcome) : Prop := {
  ef_device : device_id (session_of o) = device_id s;
  ef_session :
    session_of o = s ∨
    Change (device_id s) env op (state s) (state (session_of o)) ∧
    ∃ e, Persist e ∈ calls_of o ∧ persist env e = Ok tt;
  ef_success : result_of o = Ok tt → ∃ e, Persist e ∈ calls_of o ∧ persist env e = Ok tt;
  ef_refusal : ∀ r, result_of o = Err (Rejected r) → r ≠ ClockOverflow →
    ∃ e, Persist e ∈ calls_of o ∧ persist env e = Ok tt ∧ Refusal e;
}.

Lemma stay_effect s env op e calls :
  (∀ r, e = Rejected r → r = ClockOverflow) → Effect s env op (fail s e calls).
Proof. intros H. split; [done|by left|done|]. intros r [= ->] Hr. by destruct (Hr (H r eq_refl)). Qed.

Lemma persisting_effect s env op event calls rest :
  (persist env event = Ok tt → Persist event ∈ calls ++ [Persist event] →
   Effect s env op (rest (calls ++ [Persist event]))) →
  Effect s env op (persisting s env event calls rest).
Proof.
  intros H. unfold persisting. destruct (persist env event) as [[]|e] eqn:E; [|by apply stay_effect].
  apply H; [done|]. apply elem_of_app. right. by apply list_elem_of_singleton.
Qed.

Lemma refuse_effect s env op event calls r :
  persist env event = Ok tt → Persist event ∈ calls → outcome event = Denied →
  Effect s env op (fail s (Rejected r) calls).
Proof.
  intros Hp Hin Ho. split; [done|by left|done|]. intros r' _ _. exists event. split_and!; [done|done|by left].
Qed.

Lemma reject_effect s env op a r calls : Effect s env op (reject_without_nonce s env a r calls).
Proof. apply persisting_effect. intros Hp Hin. by eapply refuse_effect. Qed.

Lemma change_effect s env op event calls r st :
  persist env event = Ok tt → Persist event ∈ calls → r = Ok tt ∨ Refusal event →
  Change (device_id s) env op (state s) st → Effect s env op (r, to_state s st, calls).
Proof.
  intros Hp Hin Hr Hc. split; [done|right; split; [done|by exists event]|intros _; by exists event|].
  intros r' Heq _. cbn in Heq. exists event. destruct Hr; [congruence|done].
Qed.

Lemma is_ok_unit {E} (r : result E ()) : is_ok r = true → r = Ok tt.
Proof. by destruct r as [[]|]. Qed.

Lemma issue_effect s env req policy : Effect s env (Issue req policy) (issue_challenge s env req policy).
Proof.
  unfold issue_challenge. destruct (state s) eqn:Hs; try apply reject_effect. cbn [negb].
  destruct (between MIN_CHALLENGE_BYTES _ _) eqn:El; [|apply reject_effect].
  destruct (bool_decide _) eqn:Ed; [|apply reject_effect]. apply bool_decide_eq_true in Ed.
  destruct (is_ok (validate_role_scopes _ _)) eqn:Er; [|apply reject_effect].
  destruct (is_ok (validate_protocol _ _ _)) eqn:Ep; [|apply reject_effect]. cbn [negb].
  destruct (u64_max <? _) eqn:Eo; [by apply stay_effect; intros r [= <-]|].
  destruct (reserve env _ _) as [[]|e] eqn:Ev; [|apply reject_effect|by apply stay_effect].
  apply persisting_effect. intros Hp Hin. eapply change_effect; [exact Hp|exact Hin|first [by left|by right; left|by right; right]|]. rewrite Hs.
  unfold between in El. boolify. apply is_ok_unit in Er, Ep.
  eapply change_issue; [done| |cbn; lia|done]. unfold Checked. cbn. split_and!; done.
Qed.

Lemma verify_effect s env proof policy : Effect s env (Verify proof policy) (verify_proof s env proof policy).
Proof.
  unfold verify_proof. destruct (state s) eqn:Hs; try apply reject_effect.
  destruct (_ <=? _) eqn:Ee; boolify.
  { apply persisting_effect. intros Hp Hin. eapply change_effect; [exact Hp|exact Hin|first [by left|by right; left|by right; right]|]. rewrite Hs.
    by eapply change_expire. }
  assert (judge_proof s env proof c policy
    = judge_proof (mkSession (device_id s) (ChallengeIssued c)) env proof c policy) as Hj by done.
  destruct (judge_proof s env proof c policy) as [r|] eqn:Ej; symmetry in Hj.
  - unfold record_failed_attempt. apply persisting_effect. intros Hp Hin. cbn [attempts].
    fold (with_attempts c (sat_add u8_max (attempts c) 1)).
    destruct (max_attempts policy <=? _) eqn:Em; boolify;
      (eapply change_effect; [exact Hp|exact Hin|first [by left|by right; left|by right; right]|]); rewrite Hs.
    + by eapply change_exhausted.
    + by eapply change_attempt.
  - destruct (consume env (ch_nonce c)) as [[]|e] eqn:Ec; [| |by apply stay_effect].
    + apply persisting_effect. intros Hp Hin. eapply change_effect; [exact Hp|exact Hin|first [by left|by right; left|by right; right]|]. rewrite Hs.
      by eapply change_verify.
    + apply persisting_effect. intros Hp Hin. by eapply refuse_effect.
Qed.

Lemma apply_effect s env op : Effect s env op (apply s env op).
Proof.
  destruct op; cbn [apply]; [apply issue_effect|apply verify_effect|..].
  - unfold request_approval. destruct (state s) eqn:Hs; try apply reject_effect. unfold expire_now.
    destruct (_ <=? _) eqn:Ee; boolify; apply persisting_effect; intros Hp Hin;
      (eapply change_effect; [exact Hp|exact Hin|first [by left|by right; left|by right; right]|]); rewrite Hs; [by eapply change_expire|by apply change_request].
  - unfold approve. destruct (state s) eqn:Hs; try apply reject_effect. unfold expire_now.
    destruct (_ <=? _) eqn:Ee; boolify; apply persisting_effect; intros Hp Hin;
      (eapply change_effect; [exact Hp|exact Hin|first [by left|by right; left|by right; right]|]); rewrite Hs; [by eapply change_expire|by eapply change_approve].
  - unfold deny. destruct (state s) eqn:Hs; try apply reject_effect. apply persisting_effect. intros Hp Hin.
    eapply change_effect; [exact Hp|exact Hin|first [by left|by right; left|by right; right]|]. rewrite Hs. apply change_deny.
  - unfold expire. destruct (outstanding (state s)) as [c|] eqn:Ho; [|apply reject_effect].
    destruct (_ <? _) eqn:Ee; [apply reject_effect|]. boolify. apply persisting_effect. intros Hp Hin.
    eapply change_effect; [exact Hp|exact Hin|first [by left|by right; left|by right; right]|]. by eapply change_expire.
  - unfold revoke. destruct (state s) eqn:Hs; try apply reject_effect. apply persisting_effect. intros Hp Hin.
    eapply change_effect; [exact Hp|exact Hin|first [by left|by right; left|by right; right]|]. rewrite Hs. apply change_revoke.
Qed.

(** ** Where a state comes from *)

Abbreviation History := (list (Op * Env)).

(** The challenge was issued to this device under the policy, with a nonce the
    store had reserved for it. *)
Definition Issued (dev : DeviceId) (h : History) (c : PairingChallenge) : Prop :=
  ∃ later earlier req policy env,
    h = later ++ (Issue req policy, env) :: earlier ∧ Checked dev c ∧
    ch_nonce c = req_nonce req ∧ ch_challenge c = req_challenge req ∧
    expires_at_monotonic_millis c = monotonic_millis (now env) + ttl_millis policy ∧
    reserve env (ch_nonce c) (expires_at_monotonic_millis c) = Ok true.

(** A proof of it was accepted: signed over the challenge's claims by the key
    whose fingerprint is the device, recent, in time, and its nonce consumed. *)
Definition Proved (dev : DeviceId) (h : History) (c : PairingChallenge) : Prop :=
  ∃ later earlier proof policy env,
    h = later ++ (Verify proof policy, env) :: earlier ∧ Issued dev earlier c ∧
    from_public_key crypto (pf_public_key proof) = dev ∧
    verify_handshake crypto (pf_public_key proof)
      (signing_input c (pf_signed_at_unix_millis proof)) (pf_signature proof) = Some true ∧
    Z.abs (pf_signed_at_unix_millis proof - unix_millis (now env)) ≤ max_clock_skew_millis policy ∧
    monotonic_millis (now env) < expires_at_monotonic_millis c ∧
    consume env (ch_nonce c) = Ok true.

Definition ApprovedBy (dev : DeviceId) (h : History) : Prop :=
  ∃ later earlier env c,
    h = later ++ (Approve, env) :: earlier ∧ Proved dev earlier c ∧
    monotonic_millis (now env) < expires_at_monotonic_millis c.

Lemma Issued_later dev h c x : Issued dev h c → Issued dev (x :: h) c.
Proof. intros (l & e & req & p & env & -> & H). by exists (x :: l), e, req, p, env. Qed.

Lemma Proved_later dev h c x : Proved dev h c → Proved dev (x :: h) c.
Proof. intros (l & e & pf & p & env & -> & H). by exists (x :: l), e, pf, p, env. Qed.

Lemma ApprovedBy_later dev h x : ApprovedBy dev h → ApprovedBy dev (x :: h).
Proof. intros (l & e & env & c & -> & H). by exists (x :: l), e, env, c. Qed.

Lemma Issued_attempts dev h c n : Issued dev h c → Issued dev h (with_attempts c n).
Proof. done. Qed.

#[local] Hint Resolve Issued_later Proved_later ApprovedBy_later Issued_attempts : claw.

(** The checks a proof has passed when none rejects it. *)
Lemma judge_proof_None s env proof c policy :
  judge_proof s env proof c policy = None →
  from_public_key crypto (pf_public_key proof) = device_id s ∧
  verify_handshake crypto (pf_public_key proof)
    (signing_input c (pf_signed_at_unix_millis proof)) (pf_signature proof) = Some true ∧
  Z.abs (pf_signed_at_unix_millis proof - unix_millis (now env)) ≤ max_clock_skew_millis policy.
Proof.
  unfold judge_proof. destruct (_ <? pf_signed_at_unix_millis proof) eqn:Ef; [done|].
  destruct (_ <? unix_millis (now env)) eqn:Es; [done|].
  destruct (negb _ || negb _ || negb _) eqn:Ed; [done|].
  rewrite !orb_false_iff, !negb_false_iff, !bool_decide_eq_true in Ed. destruct Ed as [[_ Ed] _].
  do 5 (destruct (negb _); [done|]). destruct (verify_handshake _ _ _ _) as [[]|] eqn:Ev; cbn; try done.
  intros _. split_and!; [done|done|]. unfold sat_add in *. boolify. lia.
Qed.

Definition Provenance (dev : DeviceId) (h : History) (st : PairingStateData) : Prop :=
  match st with
  | ChallengeIssued c => Issued dev h c
  | ProofVerified c | AwaitingApproval c => Proved dev h c
  | Approved | Revoked => ApprovedBy dev h
  | Unpaired | PairingDeniedState | Expired => True
  end.

Lemma Provenance_later dev h st x : Provenance dev h st → Provenance dev (x :: h) st.
Proof. destruct st; cbn; auto with claw. Qed.

Lemma Change_provenance dev env op st st' h :
  Change dev env op st st' → Provenance dev h st → Provenance dev ((op, env) :: h) st'.
Proof.
  intros Hc. destruct Hc as [req policy c -> Hch Hle Hr|proof policy c Hj Hlt Hcon| | | |c Hlt|c| |]; cbn [Provenance];
    auto with claw.
  - intros _. exists [], h, req, policy, env. cbn in *. done.
  - intros Hi. apply judge_proof_None in Hj as (H1 & H2 & H3). exists [], h, proof, policy, env. done.
  - intros Hp. exists [], h, env, c. done.
Qed.

Lemma run_provenance dev h :
  device_id (run (session_new dev) h) = dev ∧ Provenance dev h (state (run (session_new dev) h)).
Proof.
  induction h as [|[op env] h [IHd IHp]]; [done|]. cbn [run].
  destruct (apply_effect (run (session_new dev) h) env op) as [Hd [->|[Hc _]] _ _].
  - split; [done|]. by apply Provenance_later.
  - rewrite IHd in *. split; [done|]. by eapply Change_provenance.
Qed.

(** ** Theorems *)

(** C9. No pairing without a proof: under any sequence of operations and any
    answers of the clock, the nonce store and the audit sink, a session is
    approved only if a challenge satisfying the role, scope and protocol policy
    was issued to its device with a reserved nonce, then a proof was accepted that
    verifies under the key fingerprinting to the device over exactly that
    challenge's claims, within the clock skew, before the deadline and with its
    nonce consumed, and then the approval came before the deadline too. *)
Theorem pairing_needs_proof (dev : DeviceId) (h : History) :
  state (run (session_new dev) h) = Approved →
  ∃ l1 env_a l2 proof policy_v env_v l3 req policy_i env_i l4 c,
    h = l1 ++ (Approve, env_a) :: l2 ++ (Verify proof policy_v, env_v) :: l3 ++ (Issue req policy_i, env_i) :: l4 ∧
    Checked dev c ∧ ch_nonce c = req_nonce req ∧ ch_challenge c = req_challenge req ∧
    reserve env_i (ch_nonce c) (expires_at_monotonic_millis c) = Ok true ∧
    from_public_key crypto (pf_public_key proof) = dev ∧
    verify_handshake crypto (pf_public_key proof)
      (signing_input c (pf_signed_at_unix_millis proof)) (pf_signature proof) = Some true ∧
    Z.abs (pf_signed_at_unix_millis proof - unix_millis (now env_v)) ≤ max_clock_skew_millis policy_v ∧
    consume env_v (ch_nonce c) = Ok true ∧
    expires_at_monotonic_millis c = monotonic_millis (now env_i) + ttl_millis policy_i ∧
    monotonic_millis (now env_v) < expires_at_monotonic_millis c ∧
    monotonic_millis (now env_a) < expires_at_monotonic_millis c.
Proof.
  intros Hs. destruct (run_provenance dev h) as [_ Hp]. rewrite Hs in Hp.
  destruct Hp as (l1 & e1 & env_a & c & -> & (l2 & e2 & proof & pv & env_v & -> & Hi & H1 & H2 & H3 & H4 & H5) & H6).
  destruct Hi as (l3 & l4 & req & pi & env_i & -> & H7 & H8 & H9 & H10 & H11).
  by exists l1, env_a, l2, proof, pv, env_v, l3, req, pi, env_i, l4, c.
Qed.

(** Settled sessions stay settled: a denied, expired or revoked session never
    changes again, an approved one can only be revoked, and no operation ever
    changes the device a session is bound to. *)
Theorem settled_pairing_absorbing (s : PairingSession) (h : History) :
  device_id (run s h) = device_id s ∧
  match state s with
  | PairingDeniedState | Expired | Revoked => run s h = s
  | Approved => state (run s h) = Approved ∨ state (run s h) = Revoked
  | _ => True
  end.
Proof.
  assert (∀ x env op, device_id (session_of (apply x env op)) = device_id x) as Hdev
    by (intros x env op; apply (ef_device _ _ _ _ (apply_effect x env op))).
  split; [induction h as [|[op env] h IH]; [done|]; cbn [run]; by rewrite Hdev|].
  assert (∀ x env op st, Change (device_id x) env op (state x) st →
    match state x with
    | PairingDeniedState | Expired | Revoked => False
    | Approved => st = Revoked
    | _ => True
    end) as Hch.
  { intros x env op st Hc. inversion Hc; subst; try done; match goal with H : outstanding _ = Some _ |- _ => by destruct (state x) end. }
  assert (∀ x env op, match state x with PairingDeniedState | Expired | Revoked => True | _ => False end →
    session_of (apply x env op) = x) as Hfix.
  { intros x env op Hx. destruct (apply_effect x env op) as [_ [?|[Hc _]] _ _]; [done|].
    apply Hch in Hc. by destruct (state x). }
  assert (match state s with PairingDeniedState | Expired | Revoked => True | _ => False end → run s h = s) as Hrun.
  { intros Hx. induction h as [|[op env] h IH]; [done|]. cbn [run]. rewrite IH. by apply Hfix. }
  destruct (state s) eqn:Hs; try done; try (by apply Hrun).
  clear Hrun. induction h as [|[op env] h IH]; [by left|]. cbn [run].
  destruct (apply_effect (run s h) env op) as [_ [->|[Hc _]] _ _]; [done|].
  destruct IH as [IH|IH]; pose proof (Hch _ _ _ _ Hc) as H; rewrite IH in H; [by right|done].
Qed.

(** Pairing fails closed: when the audit sink refuses, no operation changes
    the session or succeeds; every change of state has been audited first; and
    every rejection except that of an overflowing deadline has been audited as a
    denial or, for a lapsed deadline found on the way, as an expiry. *)
Theorem pairing_fails_closed (s : PairingSession) (env : Env) (op : Op) :
  ((∀ e, ∃ x, persist env e = Err x) →
     session_of (apply s env op) = s ∧ result_of (apply s env op) ≠ Ok tt) ∧
  (session_of (apply s env op) ≠ s →
     ∃ e, Persist e ∈ calls_of (apply s env op) ∧ persist env e = Ok tt) ∧
  (∀ r, result_of (apply s env op) = Err (Rejected r) → r ≠ ClockOverflow →
     ∃ e, Persist e ∈ calls_of (apply s env op) ∧ persist env e = Ok tt ∧
       (outcome e = Denied ∨ action e = PairingExpired ∧ reason e = ExpiredReason)).
Proof.
  destruct (apply_effect s env op) as [_ Hs Hok Hr]. split_and!; [|by destruct Hs as [?|[_ ?]]|done].
  intros Hno. assert (¬ ∃ e, Persist e ∈ calls_of (apply s env op) ∧ persist env e = Ok tt) as Hnone.
  { intros (e & _ & He). destruct (Hno e) as [x Hx]. congruence. }
  split; [by destruct Hs as [?|[_ ?]]|by intros ?%Hok].
Qed.

(** Judging does not depend on the attempt counter. *)
Lemma judge_proof_attempts dev st st' env proof c n policy :
  judge_proof (mkSession dev st) env proof (with_attempts c n) policy = judge_proof (mkSession dev st') env proof c policy.
Proof. done. Qed.

(** C39. Online guessing is bounded: when every proof offered in time is rejected
    and the rejections are audited, the session counts each of them, and it is
    denied for good as soon as the policy's attempts, at most ten, are used up. *)
Theorem guessing_is_bounded (dev : DeviceId) (c : PairingChallenge) (policy : PairingPolicy)
    (guesses : list (PairingProof * Env)) :
  0 ≤ attempts c < max_attempts policy → max_attempts policy ≤ MAX_ATTEMPTS →
  Forall (λ g, judge_proof (mkSession dev (ChallengeIssued c)) g.2 g.1 c policy ≠ None ∧
               monotonic_millis (now g.2) < expires_at_monotonic_millis c ∧
               (∀ e, persist g.2 e = Ok tt)) guesses →
  run (mkSession dev (ChallengeIssued c)) ((λ g, (Verify g.1 policy, g.2)) <$> guesses)
  = mkSession dev (if attempts c + len guesses <? max_attempts policy
                   then ChallengeIssued (with_attempts c (attempts c + len guesses))
                   else PairingDeniedState).
Proof.
  intros Ha Hm. unfold MAX_ATTEMPTS in Hm. induction guesses as [|[p env] guesses IH]; intros Hg.
  { cbn. rewrite len_nil, Z.add_0_r. replace (_ <? _) with true by lia. by destruct c. }
  apply Forall_cons in Hg as [(Hj & Ht & Hp) Hg]. rewrite fmap_cons. cbn [run]. rewrite IH by done.
  clear IH. rewrite len_cons. cbn [fst snd] in *. pose proof (len_nonneg guesses).
  destruct (attempts c + len guesses <? max_attempts policy) eqn:E; boolify.
  - cbn [apply]. unfold verify_proof. cbn [state expires_at_monotonic_millis with_attempts].
    replace (_ <=? monotonic_millis (now env)) with false by lia.
    rewrite (judge_proof_attempts dev _ (ChallengeIssued c)).
    destruct (judge_proof _ env p c policy) as [r|]; [|done].
    unfold record_failed_attempt, persisting. rewrite Hp. cbn [attempts with_attempts].
    change u8_max with 255. unfold sat_add. rewrite Z.min_l by lia.
    replace (attempts c + (1 + len guesses)) with (attempts c + len guesses + 1) by lia.
    destruct (max_attempts policy <=? _) eqn:E2; boolify.
    + by replace (_ <? max_attempts policy) with false by lia.
    + by replace (_ <? max_attempts policy) with true by lia.
  - replace (attempts c + (1 + len guesses) <? max_attempts policy) with false by lia.
    unfold session_of, apply, verify_proof, reject_without_nonce, persisting. cbn [state]. by rewrite Hp.
Qed.

(** What a device that answers the challenge sends. *)
Definition answer (c : PairingChallenge) (signed_at : Z) (signature : DeviceSignature) : PairingProof :=
  mkPairingProof (ch_device_id c) (ch_public_key c) (ch_role c) (ch_scopes c) (ch_protocol_version c)
    (ch_client_class c) signed_at (ch_nonce c) signature.

Lemma verify_ok s env c proof policy :
  state s = ChallengeIssued c → monotonic_millis (now env) < expires_at_monotonic_millis c →
  judge_proof s env proof c policy = None → consume env (ch_nonce c) = Ok true → (∀ e, persist env e = Ok tt) →
  session_of (verify_proof s env proof policy) = to_state s (ProofVerified c).
Proof.
  intros Hs Ht Hj Hc Hp. unfold verify_proof. rewrite Hs. replace (_ <=? _) with false by lia.
  rewrite Hj, Hc. unfold persisting. by rewrite Hp.
Qed.

Lemma request_ok s env c :
  state s = ProofVerified c → monotonic_millis (now env) < expires_at_monotonic_millis c →
  (∀ e, persist env e = Ok tt) → session_of (request_approval s env) = to_state s (AwaitingApproval c).
Proof.
  intros Hs Ht Hp. unfold request_approval. rewrite Hs. replace (_ <=? _) with false by lia.
  unfold persisting. by rewrite Hp.
Qed.

Lemma approve_ok s env c :
  state s = AwaitingApproval c → monotonic_millis (now env) < expires_at_monotonic_millis c →
  (∀ e, persist env e = Ok tt) → session_of (approve s env) = to_state s Approved.
Proof.
  intros Hs Ht Hp. unfold approve. rewrite Hs. replace (_ <=? _) with false by lia.
  unfold persisting. by rewrite Hp.
Qed.

(** An honest device is paired: when the ports answer, a device that requests
    an admissible role, signs the challenge it was issued within the skew and
    before the deadline, and is approved before the deadline ends up approved. *)
Theorem honest_device_paired (dev : DeviceId) (req : ChallengeRequest) (policy : PairingPolicy)
    (e1 e2 e3 e4 : Env) (signed_at : Z) (signature : DeviceSignature) :
  let deadline := monotonic_millis (now e1) + ttl_millis policy in
  let c := mkPairingChallenge dev (req_public_key req) (req_role req) (req_scopes req) (req_protocol_version req)
             (req_client_class req) (req_nonce req) (req_challenge req) (now e1) deadline 0 in
  Checked dev c → deadline ≤ u64_max →
  reserve e1 (req_nonce req) deadline = Ok true → consume e2 (req_nonce req) = Ok true →
  (∀ env e, env ∈ [e1; e2; e3; e4] → persist env e = Ok tt) →
  (∀ env, env ∈ [e2; e3; e4] → monotonic_millis (now env) < deadline) →
  Z.abs (signed_at - unix_millis (now e2)) ≤ max_clock_skew_millis policy →
  signed_at ≤ u64_max → unix_millis (now e2) ≤ u64_max →
  verify_handshake crypto (req_public_key req) (signing_input c signed_at) signature = Some true →
  state (run (session_new dev)
    [(Approve, e4); (RequestApproval, e3); (Verify (answer c signed_at signature) policy, e2); (Issue req policy, e1)])
  = Approved.
Proof.
  intros deadline c (Hdev & Hkey & Hrs & Hpr & Hlen) Hdl Hres Hcon Hper Htime Hskew Hs64 Hn64 Hver.
  assert (apply (session_new dev) e1 (Issue req policy)
    = (Ok tt, mkSession dev (ChallengeIssued c), calls_of (apply (session_new dev) e1 (Issue req policy)))) as H1.
  { cbn [apply]. unfold issue_challenge. cbn [state session_new device_id].
    unfold between. replace (_ && _) with true by (symmetry; apply andb_true_iff; rewrite !Z.leb_le; done). cbn [negb].
    rewrite bool_decide_eq_true_2 by done. cbn in Hrs, Hpr. rewrite Hrs, Hpr. cbn [is_ok negb].
    fold deadline. replace (u64_max <? deadline) with false by lia. rewrite Hres.
    unfold persisting. rewrite Hper by set_solver. done. }
  cbn [run]. rewrite H1. cbn [session_of snd fst].
  assert (judge_proof (mkSession dev (ChallengeIssued c)) e2 (answer c signed_at signature) c policy = None) as Hj.
  { unfold judge_proof. cbn [pf_signed_at_unix_millis answer pf_device_id pf_public_key device_id pf_role pf_scopes
      pf_protocol_version pf_client_class pf_nonce pf_signature]. unfold sat_add.
    replace (_ <? signed_at) with false by lia. replace (_ <? unix_millis (now e2)) with false by lia.
    rewrite !bool_decide_eq_true_2 by done. rewrite Z.eqb_refl. change (ch_public_key c) with (req_public_key req). rewrite Hver. done. }
  cbn [apply]. rewrite (verify_ok _ e2 c), (request_ok _ e3 c), (approve_ok _ e4 c); try done; try (intros e);
    try (apply Hper; set_solver); apply Htime; set_solver.
Qed.

End Pairing.

Arguments Env : clear implicits.

(** ** Witnesses and an exception to the rule *)

(** A toy scheme in which a signature is the message and a fingerprint the key. *)
Definition toy : Crypto := mkCrypto (λ k, k) (λ _ m s, bool_decide (m = s)).

Definition granting (t : Z) : Env Empty_set Empty_set :=
  mkEnv (mkClock t (1000000 + t)) (λ _ _, Ok true) (λ _, Ok true) (λ _, Ok tt).

Definition toy_key : DevicePublicKey := replicate 32 x07.
Definition toy_request : ChallengeRequest :=
  mkChallengeRequest toy_key Operator (from_scopes [OperatorRead]) 4 General (replicate 32 x01) (replicate 16 x02).
Definition toy_policy : PairingPolicy := mkPairingPolicy 60000 3 1000.
Definition toy_challenge : PairingChallenge :=
  mkPairingChallenge toy_key toy_key Operator (from_scopes [OperatorRead]) 4 General (replicate 32 x01)
    (replicate 16 x02) (mkClock 0 1000000) 60000 0.
Definition toy_signature : DeviceSignature :=
  default [] (encode_handshake (signing_input toy_challenge 1000005)).
Definition toy_history : list (Op * Env Empty_set Empty_set) :=
  [(Approve, granting 20); (RequestApproval, granting 10);
   (Verify (answer toy_challenge 1000005 toy_signature) toy_policy, granting 5);
   (Issue toy_request toy_policy, granting 0)].

Lemma pairing_needs_proof_witness :
  ∃ proof, verify_handshake toy (pf_public_key proof)
    (signing_input toy_challenge (pf_signed_at_unix_millis proof)) (pf_signature proof) = Some true ∧
    ∃ c, Checked toy toy_key c.
Proof.
  exists (answer toy_challenge 1000005 toy_signature). split; [vm_compute; reflexivity|].
  destruct (pairing_needs_proof toy toy_key toy_history) as
    (l1 & ea & l2 & proof & pv & ev & l3 & req & pi & ei & l4 & c & _ & Hc & _); [vm_compute; reflexivity|].
  by exists c.
Defined.

Lemma guessing_is_bounded_witness :
  run toy (mkSession toy_key (ChallengeIssued toy_challenge))
    ((λ g, (Verify g.1 toy_policy, g.2)) <$>
       replicate 3 (answer toy_challenge 1000005 [], granting 5))
  = mkSession toy_key PairingDeniedState.
Proof.
  rewrite (guessing_is_bounded toy toy_key toy_challenge toy_policy
    (replicate 3 (answer toy_challenge 1000005 [], granting 5))).
  - reflexivity.
  - cbn. lia.
  - done.
  - apply Forall_replicate. split_and!; [done|reflexivity|reflexivity].
Defined.

Lemma honest_device_paired_witness : state (run toy (session_new toy_key) toy_history) = Approved.
Proof.
  apply (honest_device_paired toy toy_key toy_request toy_policy (granting 0) (granting 5) (granting 10) (granting 20)
    1000005 toy_signature); try done.
  - intros env e Henv. apply list_elem_of_In in Henv.
    destruct Henv as [<-|[<-|[<-|[<-|[]]]]]; reflexivity.
  - intros env Henv. apply list_elem_of_In in Henv.
    destruct Henv as [<-|[<-|[<-|[]]]]; reflexivity.
Defined.

(** The rejection of an overflowing deadline is returned without an audit
    record, although the documentation says every rejection is audited first. *)
Theorem clock_overflow_unaudited :
  apply toy (session_new toy_key) (granting (u64_max - 1)) (Issue toy_request toy_policy)
  = (Err (Rejected ClockOverflow), session_new toy_key, []).
Proof. vm_compute. reflexivity. Qed.

End Pairing.
