(* ===== verification/Events.v ===== *)
(** * The gateway's event bus

    Models [crates/claw-gateway/src/events.rs]: the catalogue of events and who may
    see them, per-connection topic filters, drafts, and the bus that fans a
    publication out to bounded per-connection queues.

    The bus is shared by publishers, connection tasks and the code that registers
    them. The model is a world and an executable step [act] for each atomic piece
    of each operation: [publish] takes its ordinal before it takes the lock, then
    visits one subscriber after the other, and for each of them tests, sends and
    accounts in separate steps, while receivers take envelopes and adjust the byte
    counter without the lock. A schedule is a list of [Action]s.

    The bounded channel of the tokio library is the class [Channel] with its
    documented laws; [Queue] at the end is an instance. *)

From S2P Require Import Prelude Utf8 Text.

Module Events.

(** ** Roles, scopes and visibility *)

Inductive Role := Operator | Node | Worker.

Inductive OperatorScope := Admin | Read | Write | Approvals | Pairing | TalkSecrets.

#[export] Instance Role_eq_dec : EqDecision Role.
Proof. solve_decision. Defined.

#[export] Instance OperatorScope_eq_dec : EqDecision OperatorScope.
Proof. solve_decision. Defined.

Inductive EventVisibility := Handshake | AllAuthenticated | NodeVisible | OperatorVisible (required : OperatorScope).

#[export] Instance EventVisibility_eq_dec : EqDecision EventVisibility.
Proof. solve_decision. Defined.

Definition satisfies (granted : list OperatorScope) (required : OperatorScope) : bool :=
  bool_decide (Admin ∈ granted) || bool_decide (required ∈ granted)
  || (bool_decide (required = Read) && bool_decide (Write ∈ granted)).

Definition visibility_admits (v : EventVisibility) (role : Role) (granted : list OperatorScope) : bool :=
  match v with
  | Handshake => false
  | AllAuthenticated => negb (bool_decide (role = Worker))
  | NodeVisible => bool_decide (role = Node)
  | OperatorVisible required => bool_decide (role = Operator) && satisfies granted required
  end.

(** The arms of [event_visibility]. *)
Definition VISIBILITY : list (str * EventVisibility) :=
  [(chars "connect.challenge", Handshake);
   (chars "tick", AllAuthenticated); (chars "shutdown", AllAuthenticated); (chars "heartbeat", AllAuthenticated);
   (chars "node.invoke.request", NodeVisible)]
  ++ ((λ e, (e, OperatorVisible Approvals)) <$>
      [chars "session.approval"; chars "exec.approval.requested"; chars "exec.approval.resolved";
       chars "plugin.approval.requested"; chars "plugin.approval.resolved"])
  ++ ((λ e, (e, OperatorVisible Pairing)) <$>
      [chars "node.pair.requested"; chars "node.pair.resolved"; chars "device.pair.requested";
       chars "device.pair.resolved"])
  ++ ((λ e, (e, OperatorVisible Admin)) <$> [chars "terminal.data"; chars "terminal.exit"])
  ++ ((λ e, (e, OperatorVisible Read)) <$>
      [chars "agent"; chars "chat"; chars "session.message"; chars "session.operation"; chars "session.tool";
       chars "sessions.changed"; chars "presence"; chars "talk.mode"; chars "talk.event"; chars "health";
       chars "cron"; chars "task"; chars "task.suggestion"; chars "node.presence"; chars "voicewake.changed";
       chars "voicewake.routing.changed"; chars "update.available"]).

Definition event_visibility (event : str) : option EventVisibility :=
  snd <$> List.find (λ p, bool_decide (p.1 = event)) VISIBILITY.

(** ** Topic filters *)

Inductive TopicGroup := SessionLifecycle | SessionMessages.

Definition for_event (event : str) : option TopicGroup :=
  if bool_decide (event ∈ [chars "sessions.changed"; chars "session.approval"; chars "session.operation";
                           chars "session.tool"]) then Some SessionLifecycle
  else if bool_decide (event = chars "session.message") then Some SessionMessages
  else None.

Record TopicFilter := mkFilter { lifecycle : bool; messages : bool; sessions : gset str }.

Definition filter_default : TopicFilter := mkFilter true true ∅.

Definition filter_subscribe (f : TopicFilter) (group : TopicGroup) (ss : list str) : TopicFilter :=
  mkFilter (match group with SessionLifecycle => true | _ => lifecycle f end)
           (match group with SessionMessages => true | _ => messages f end)
           (sessions f ∪ list_to_set ss).

Definition filter_unsubscribe (f : TopicFilter) (group : TopicGroup) (ss : list str) : TopicFilter :=
  match ss with
  | [] => mkFilter (match group with SessionLifecycle => false | _ => lifecycle f end)
                   (match group with SessionMessages => false | _ => messages f end) (sessions f)
  | _ => mkFilter (lifecycle f) (messages f) (sessions f ∖ list_to_set ss)
  end.

Definition filter_admits (f : TopicFilter) (name : str) (session : option str) : bool :=
  match for_event name with
  | None => true
  | Some group =>
      match group with SessionLifecycle => lifecycle f | SessionMessages => messages f end
      && match session with
         | None => true
         | Some s => bool_decide (sessions f = ∅) || bool_decide (s ∈ sessions f)
         end
  end.

(** ** Drafts and envelopes *)

Definition ConnectionId : Type := Z.

Inductive EventAudience := Broadcast | Connection (id : ConnectionId).

#[export] Instance EventAudience_eq_dec : EqDecision EventAudience.
Proof. solve_decision. Defined.

Definition valid_device_id (device_id : str) : bool :=
  bool_decide (device_id ≠ []) && (len (as_bytes device_id) <=? 256) && negb (any is_control device_id).

(** Payloads and snapshot versions are opaque to the bus. *)
Section Bus.
Context {Payload StateVersion : Type}.

Record EventDraft := mkDraft {
  name : str;
  payload : Payload;
  encoded_len : Z;
  audience : EventAudience;
  device_id : option str;
  visibility : EventVisibility;
  session_id : option str;
  state_version : option StateVersion;
}.

(** A published event: the draft's fields and its ordinal. *)
Record EventEnvelope := mkEnvelope { draft : EventDraft; ordinal : Z }.

Section Build.
Context {T EncodeError : Type}
  (core_events : list str)
  (to_string : T → result EncodeError str)
  (from_str : str → result EncodeError Payload).

Inductive EventError :=
| InvalidDevice | UnknownEvent (event : str) | HandshakeOnly (event : str) | Encode (e : EncodeError).

(** [None] is the panic of [expect] on a catalogued event without a policy. *)
Definition build (event : str) (value : T) (a : EventAudience) : option (result EventError EventDraft) :=
  match List.find (λ e, bool_decide (e = event)) core_events with
  | None => Some (Err (UnknownEvent event))
  | Some descriptor =>
      v ← event_visibility descriptor;
      if decide (v = Handshake) then Some (Err (HandshakeOnly descriptor))
      else
        match to_string value with
        | Err e => Some (Err (Encode e))
        | Ok json =>
            match from_str json with
            | Err e => Some (Err (Encode e))
            | Ok p => Some (Ok (mkDraft descriptor p (len (as_bytes json)) a None v None None))
            end
        end
  end.

Definition broadcast (event : str) (value : T) : option (result EventError EventDraft) := build event value Broadcast.

Definition targeted (event : str) (value : T) (connection : ConnectionId) : option (result EventError EventDraft) :=
  build event value (Connection connection).

Definition for_device (event : str) (value : T) (device : str) : option (result EventError EventDraft) :=
  if negb (valid_device_id device) then Some (Err InvalidDevice)
  else
    r ← broadcast event value;
    Some (d ← r; Ok (mkDraft (name d) (payload d) (encoded_len d) (audience d) (Some device) (visibility d)
                       (session_id d) (state_version d))).

Definition with_session (d : EventDraft) (session : str) : EventDraft :=
  mkDraft (name d) (payload d) (encoded_len d) (audience d) (device_id d) (visibility d) (Some session) (state_version d).
End Build.

(** The sequence number a frame carries: only broadcasts have one. *)
Definition frame_sequence (e : EventEnvelope) (sequence : Z) : option Z :=
  match audience (draft e) with Broadcast => Some sequence | Connection _ => None end.

(** ** The bounded channel *)

(** [tokio::sync::mpsc]: what the receiver would still get, in order, how much
    the channel holds, and whether the receiver is alive. *)
Class Channel := {
  chan : Type;
  channel : Z → chan;
  try_send : chan → EventEnvelope → option chan;
  pop : chan → option (EventEnvelope * chan);
  close : chan → chan;
  buffered : chan → list EventEnvelope;
  capacity : chan → Z;
  receiver_alive : chan → bool;
  channel_law n : buffered (channel n) = [] ∧ capacity (channel n) = n ∧ receiver_alive (channel n) = true;
  try_send_law c e :
    match try_send c e with
    | Some c' => buffered c' = buffered c ++ [e] ∧ capacity c' = capacity c ∧ receiver_alive c' = true ∧
                 receiver_alive c = true ∧ len (buffered c) < capacity c
    | None => receiver_alive c = false ∨ capacity c ≤ len (buffered c)
    end;
  pop_law c :
    match pop c with
    | Some (e, c') => buffered c = e :: buffered c' ∧ capacity c' = capacity c ∧ receiver_alive c' = receiver_alive c
    | None => buffered c = []
    end;
  close_law c : buffered (close c) = buffered c ∧ capacity (close c) = capacity c ∧ receiver_alive (close c) = false;
}.

Context {CH : Channel} (queue_capacity queue_bytes : Z).

(** ** The world *)

Inductive Delivery := Event (e : EventEnvelope) | Lagged (first_missed : Z) | Closed.

(** [Subscriber]; its filter and its channel, which it shares with the connection,
    are named by their index. *)
Record Subscriber := mkSubscriber {
  s_id : ConnectionId;
  s_device_id : option str;
  s_role : Role;
  s_scopes : list OperatorScope;
  s_filter : nat;
  s_cell : nat;
}.

(** One subscription: the channel and [LagState] it shares with its subscriber,
    and the envelope its receiver has taken out but not yet accounted for.
    [offered] and [deliveries] are the history of the fan-outs that chose this
    subscription and of what its receiver returned; no operation reads them. *)
Record Cell := mkCell {
  c_id : ConnectionId;
  rx : chan;
  first_missed : Z;
  queued_bytes : Z;
  receiving : option EventEnvelope;
  offered : list EventEnvelope;
  deliveries : list Delivery;
}.

Inductive Phase := Next | Sending (s : Subscriber) | Accounting (s : Subscriber).

(** A publisher inside the locked part of [publish]. *)
Record Fanout := mkFanout {
  envelope : EventEnvelope;
  remaining : list Subscriber;
  lagged : list ConnectionId;
  phase : Phase;
}.

Record World := mkWorld {
  next_ordinal : Z;
  subscribers : list Subscriber;
  cells : list Cell;
  filters : list TopicFilter;
  waiting : list EventEnvelope;
  lock : option Fanout;
}.

Definition bus_new (fs : list TopicFilter) : World := mkWorld 0 [] [] fs [] None.

Inductive Action :=
| Subscribe (id : ConnectionId) (role : Role) (scopes : list OperatorScope) (filter : nat) (device : option str)
| Unsubscribe (id : ConnectionId)
| Reauthorize (id : ConnectionId) (role : Role) (scopes : list OperatorScope)
| SetFilter (filter : nat) (f : TopicFilter)
| Begin (d : EventDraft)
| Lock (publisher : nat)
| Visit
| Send
| Account
| Unlock
| Take (cell : nat)
| Finish (cell : nat)
| End_ (cell : nat)
| Drop (cell : nat).

(** ** Operations *)

(** The tests of the fan-out that the lock protects. *)
Definition permitted (e : EventEnvelope) (s : Subscriber) : bool :=
  match device_id (draft e) with Some d => bool_decide (s_device_id s = Some d) | None => true end
  && match audience (draft e) with Connection target => bool_decide (target = s_id s) | Broadcast => true end
  && visibility_admits (visibility (draft e)) (s_role s) (s_scopes s).

Definition subscribe_bound (w : World) (id : ConnectionId) (role : Role) (scopes : list OperatorScope)
    (filter_ : nat) (device : option str) : World :=
  mkWorld (next_ordinal w)
    (filter (λ s, s_id s ≠ id) (subscribers w) ++ [mkSubscriber id device role scopes filter_ (length (cells w))])
    (cells w ++ [mkCell id (channel queue_capacity) 0 0 None [] []]) (filters w) (waiting w) (lock w).

(** [subscribe_for_device] drops an invalid identity. *)
Definition bound_device (device : str) : option str := if valid_device_id device then Some device else None.

Definition unsubscribe (w : World) (id : ConnectionId) : World :=
  mkWorld (next_ordinal w) (filter (λ s, s_id s ≠ id) (subscribers w)) (cells w) (filters w) (waiting w) (lock w).

(** [find] stops at the first match; identities are unique. *)
Fixpoint reauthorize_first (ss : list Subscriber) (id : ConnectionId) (role : Role) (scopes : list OperatorScope)
  : list Subscriber :=
  match ss with
  | [] => []
  | s :: ss =>
      if decide (s_id s = id)
      then mkSubscriber (s_id s) (s_device_id s) role scopes (s_filter s) (s_cell s) :: ss
      else s :: reauthorize_first ss id role scopes
  end.

Definition reauthorize (w : World) (id : ConnectionId) (role : Role) (scopes : list OperatorScope) : World :=
  mkWorld (next_ordinal w) (reauthorize_first (subscribers w) id role scopes) (cells w) (filters w) (waiting w) (lock w).

(** The part of [publish] before the lock. At the largest counter value the
    publisher panics, having wrapped the counter. *)
Definition begin_publish (w : World) (d : EventDraft) : World :=
  if next_ordinal w =? u64_max
  then mkWorld 0 (subscribers w) (cells w) (filters w) (waiting w) (lock w)
  else mkWorld (next_ordinal w + 1) (subscribers w) (cells w) (filters w)
         (waiting w ++ [mkEnvelope d (next_ordinal w + 1)]) (lock w).

Definition set_lock (w : World) (f : option Fanout) : World :=
  mkWorld (next_ordinal w) (subscribers w) (cells w) (filters w) (waiting w) f.

Definition set_cell (w : World) (i : nat) (c : Cell) : World :=
  mkWorld (next_ordinal w) (subscribers w) (<[i:=c]> (cells w)) (filters w) (waiting w) (lock w).

(** The subscriber could not be given the envelope. *)
Definition miss (w : World) (f : Fanout) (s : Subscriber) (c : Cell) : World :=
  set_lock
    (set_cell w (s_cell s)
       (mkCell (c_id c) (rx c) (if first_missed c =? 0 then ordinal (envelope f) else first_missed c)
          (queued_bytes c) (receiving c) (offered c ++ [envelope f]) (deliveries c)))
    (Some (mkFanout (envelope f) (remaining f) (lagged f ++ [s_id s]) Next)).

(** One iteration of the fan-out loop up to the byte test. *)
Definition visit (w : World) (f : Fanout) : option World :=
  match phase f, remaining f with
  | Next, s :: rest =>
      let f := mkFanout (envelope f) rest (lagged f) Next in
      flt ← filters w !! s_filter s;
      c ← cells w !! s_cell s;
      if negb (permitted (envelope f) s) then Some (set_lock w (Some f))
      else if negb (filter_admits flt (name (draft (envelope f))) (session_id (draft (envelope f))))
      then Some (set_lock w (Some f))
      else if (0 <? queued_bytes c)
              && (queue_bytes <? sat_add u64_max (queued_bytes c) (encoded_len (draft (envelope f))))
      then Some (miss w f s c)
      else Some (set_lock w (Some (mkFanout (envelope f) rest (lagged f) (Sending s))))
  | _, _ => None
  end.

Definition send (w : World) (f : Fanout) : option World :=
  match phase f with
  | Sending s =>
      c ← cells w !! s_cell s;
      match try_send (rx c) (envelope f) with
      | None => Some (miss w f s c)
      | Some ch =>
          Some (set_lock
            (set_cell w (s_cell s)
               (mkCell (c_id c) ch (first_missed c) (queued_bytes c) (receiving c)
                  (offered c ++ [envelope f]) (deliveries c)))
            (Some (mkFanout (envelope f) (remaining f) (lagged f) (Accounting s))))
      end
  | _ => None
  end.

Definition account (w : World) (f : Fanout) : option World :=
  match phase f with
  | Accounting s =>
      c ← cells w !! s_cell s;
      Some (set_lock
        (set_cell w (s_cell s)
           (mkCell (c_id c) (rx c) (first_missed c)
              (wrap_add u64_max (queued_bytes c) (encoded_len (draft (envelope f)))) (receiving c) (offered c) (deliveries c)))
        (Some (mkFanout (envelope f) (remaining f) (lagged f) Next)))
  | _ => None
  end.

Definition unlock (w : World) (f : Fanout) : option World :=
  match phase f, remaining f with
  | Next, [] =>
      Some (mkWorld (next_ordinal w) (filter (λ s, s_id s ∉ lagged f) (subscribers w)) (cells w) (filters w)
              (waiting w) None)
  | _, _ => None
  end.

(** [recv] and [try_recv]: taking an envelope out of the channel, and the rest. *)
Definition take_ (c : Cell) : option Cell :=
  match receiving c, pop (rx c) with
  | None, Some (e, ch) =>
      if receiver_alive (rx c)
      then Some (mkCell (c_id c) ch (first_missed c) (queued_bytes c) (Some e) (offered c) (deliveries c))
      else None
  | _, _ => None
  end.

Definition finish (c : Cell) : option Cell :=
  e ← receiving c;
  Some (mkCell (c_id c) (rx c) (first_missed c) ((queued_bytes c - encoded_len (draft e)) mod (u64_max + 1)) None
          (offered c) (deliveries c ++ [Event e])).

Definition terminal_delivery (c : Cell) : Delivery :=
  if first_missed c =? 0 then Closed else Lagged (first_missed c).

(** The sender lives as long as its subscriber is registered. *)
Definition has_sender (w : World) (i : nat) : bool := existsb (λ s, bool_decide (s_cell s = i)) (subscribers w).

Definition end_of_stream (w : World) (i : nat) (c : Cell) : option Cell :=
  match receiving c, pop (rx c) with
  | None, None =>
      if has_sender w i || negb (receiver_alive (rx c)) then None
      else Some (mkCell (c_id c) (rx c) (first_missed c) (queued_bytes c) None (offered c)
                   (deliveries c ++ [terminal_delivery c]))
  | _, _ => None
  end.

(** [Drop for EventSubscription], then the receiver goes. *)
Definition drop_subscription (w : World) (i : nat) (c : Cell) : option World :=
  match receiving c with
  | Some _ => None
  | None =>
      Some (set_cell (unsubscribe w (c_id c)) i
              (mkCell (c_id c) (close (rx c)) (first_missed c) (queued_bytes c) None (offered c) (deliveries c)))
  end.

(** One step of the schedule; [None] when the action is not possible there. The
    operations that take the lock wait for it. *)
Definition act (w : World) (a : Action) : option World :=
  match lock w, a with
  | None, Subscribe id role scopes f device =>
      if decide (f < length (filters w))%nat then Some (subscribe_bound w id role scopes f device) else None
  | None, Unsubscribe id => Some (unsubscribe w id)
  | None, Reauthorize id role scopes => Some (reauthorize w id role scopes)
  | None, Lock k =>
      e ← waiting w !! k;
      Some (mkWorld (next_ordinal w) (subscribers w) (cells w) (filters w) (delete k (waiting w))
              (Some (mkFanout e (subscribers w) [] Next)))
  | None, Drop i =>
      c ← cells w !! i;
      if receiver_alive (rx c) then drop_subscription w i c else None
  | Some f, Visit => visit w f
  | Some f, Send => send w f
  | Some f, Account => account w f
  | Some f, Unlock => unlock w f
  | _, SetFilter k flt =>
      Some (mkWorld (next_ordinal w) (subscribers w) (cells w) (<[k:=flt]> (filters w)) (waiting w) (lock w))
  | _, Begin d => Some (begin_publish w d)
  | _, Take i => c ← cells w !! i; c ← take_ c; Some (set_cell w i c)
  | _, Finish i => c ← cells w !! i; c ← finish c; Some (set_cell w i c)
  | _, End_ i => c ← cells w !! i; c ← end_of_stream w i c; Some (set_cell w i c)
  | _, _ => None
  end.

Fixpoint run (w : World) (schedule : list Action) : option World :=
  match schedule with
  | [] => Some w
  | a :: schedule => w ← act w a; run w schedule
  end.

(** Drafts as [build] makes them: a payload length is a [usize]. *)
Definition sized (a : Action) : Prop :=
  match a with Begin d => 0 ≤ encoded_len d ≤ u64_max | _ => True end.

(** What any schedule reaches. *)
Definition Reachable (w : World) : Prop :=
  ∃ fs schedule, Forall sized schedule ∧ run (bus_new fs) schedule = Some w.

(** ** The invariant *)

Definition event_of (d : Delivery) : list EventEnvelope := match d with Event e => [e] | _ => [] end.
Definition events_of (ds : list Delivery) : list EventEnvelope := ds ≫= event_of.

(** Everything taken out or still to be taken out, in order. *)
Definition held (c : Cell) : list EventEnvelope := option_list (receiving c) ++ buffered (rx c).

Definition bytes_of (es : list EventEnvelope) : Z := foldr (λ e n, encoded_len (draft e) + n) 0 es.

(** The stream a subscription was offered is what it was given, what it still
    holds, and at most one envelope it missed. *)
Definition stream_ok (c : Cell) : Prop :=
  ∃ missed, offered c = events_of (deliveries c) ++ held c ++ missed ∧
    (first_missed c = 0 ∧ missed = [] ∨
     ∃ e, missed = [e] ∧ ordinal e = first_missed c ∧ first_missed c ≠ 0).

Definition only_events (c : Cell) : Prop := ∃ es, deliveries c = Event <$> es.

(** Terminal deliveries come last, all alike, with nothing left to take. *)
Definition ended (c : Cell) : Prop :=
  only_events c ∨
  held c = [] ∧ ∃ es k, deliveries c = (Event <$> es) ++ replicate (S k) (terminal_delivery c).

Definition bytes_ok (c : Cell) : Prop :=
  bytes_of (held c) ≤ queue_bytes ∨ ∃ e, e ∈ held c ∧ bytes_of (held c) = encoded_len (draft e).

(** A cell whose counter still lacks [pending] bytes. *)
Record CellOk (pending : Z) (c : Cell) : Prop := {
  ok_stream : stream_ok c;
  ok_ended : ended c;
  ok_capacity : capacity (rx c) = queue_capacity ∧ len (buffered (rx c)) ≤ queue_capacity;
  ok_bytes : bytes_ok c;
  ok_sizes : Forall (λ e, 0 ≤ encoded_len (draft e) ≤ u64_max) (held c);
  ok_counter : queued_bytes c = (bytes_of (held c) - pending) mod (u64_max + 1);
}.

Definition pending (w : World) (i : nat) : Z :=
  match lock w with
  | Some (mkFanout e _ _ (Accounting s)) => if decide (s_cell s = i) then encoded_len (draft e) else 0
  | _ => 0
  end.

Definition is_lagged (w : World) (id : ConnectionId) : Prop :=
  match lock w with Some f => id ∈ lagged f | None => False end.

(** The envelope may be sent without passing the byte bound. *)
Definition fits (e : EventEnvelope) (c : Cell) : Prop :=
  bytes_of (held c) = 0 ∨ bytes_of (held c) + encoded_len (draft e) ≤ queue_bytes.

Definition current (p : Phase) : list Subscriber :=
  match p with Next => [] | Sending s | Accounting s => [s] end.

Definition envelope_ok (e : EventEnvelope) : Prop :=
  1 ≤ ordinal e ∧ 0 ≤ encoded_len (draft e) ≤ u64_max.

(** The fan-out in progress: the subscribers are those it has visited, the one it
    is at and those that remain. *)
Definition FanoutOk (w : World) (f : Fanout) : Prop :=
  envelope_ok (envelope f) ∧
  (∃ visited, subscribers w = visited ++ current (phase f) ++ remaining f ∧
     Forall (λ id, id ∈ s_id <$> visited) (lagged f)) ∧
  match phase f with
  | Sending s => permitted (envelope f) s = true ∧ ∃ c, cells w !! s_cell s = Some c ∧ fits (envelope f) c
  | _ => True
  end.

Record Inv (w : World) : Prop := {
  inv_ordinal : 0 ≤ next_ordinal w;
  inv_ids : NoDup (s_id <$> subscribers w);
  inv_subscriber : ∀ s, s ∈ subscribers w → ∃ c,
    cells w !! s_cell s = Some c ∧ c_id c = s_id s ∧ only_events c ∧ (first_missed c ≠ 0 → is_lagged w (s_id s));
  inv_cells : ∀ i c, cells w !! i = Some c → CellOk (pending w i) c;
  inv_waiting : Forall envelope_ok (waiting w);
  inv_fanout : ∀ f, lock w = Some f → FanoutOk w f;
}.

(** ** Receiving *)

Hypothesis queue_bytes_ok : 0 < queue_bytes < u64_max.
Hypothesis queue_capacity_ok : 0 < queue_capacity.

Lemma bytes_of_cons e es : bytes_of (e :: es) = encoded_len (draft e) + bytes_of es.
Proof. done. Qed.

Lemma bytes_of_app es es' : bytes_of (es ++ es') = bytes_of es + bytes_of es'.
Proof. induction es as [|e es IH]; [done|]. cbn [app]. rewrite !bytes_of_cons. lia. Qed.

Lemma bytes_of_nonneg es : Forall (λ e, 0 ≤ encoded_len (draft e) ≤ u64_max) es → 0 ≤ bytes_of es.
Proof. induction 1; [done|]. rewrite bytes_of_cons. lia. Qed.

Lemma bytes_of_elem es e :
  Forall (λ e, 0 ≤ encoded_len (draft e) ≤ u64_max) es → e ∈ es → encoded_len (draft e) ≤ bytes_of es.
Proof.
  induction 1 as [|x es Hx Hf IH]; intros He; [by apply not_elem_of_nil in He|].
  pose proof (bytes_of_nonneg _ Hf). rewrite bytes_of_cons. apply elem_of_cons in He as [->|He]; [lia|]. specialize (IH He). lia.
Qed.

(** The counter is exact when nothing is pending. *)
Lemma counter_exact c : CellOk 0 c → queued_bytes c = bytes_of (held c).
Proof.
  intros [_ _ _ Hb Hs Hc]. rewrite Hc, Z.sub_0_r. apply Z.mod_small.
  pose proof (bytes_of_nonneg _ Hs). destruct Hb as [|(e & He & Heq)]; [lia|].
  rewrite Forall_forall in Hs. specialize (Hs _ He). lia.
Qed.

Lemma events_of_app ds ds' : events_of (ds ++ ds') = events_of ds ++ events_of ds'.
Proof. apply bind_app. Qed.

Lemma ended_only_events c : ended c → held c ≠ [] → only_events c.
Proof. by intros [?|[? _]]. Qed.

Lemma take_ok p c c' :
  CellOk p c → take_ c = Some c' →
  CellOk p c' ∧ held c' = held c ∧ deliveries c' = deliveries c ∧ first_missed c' = first_missed c ∧ c_id c' = c_id c.
Proof.
  intros [Hst Hen [Hcap Hlen] Hb Hs Hc] H. unfold take_ in H.
  destruct (receiving c) eqn:Er; [done|]. pose proof (pop_law (rx c)) as Hp.
  destruct (pop (rx c)) as [[e ch]|]; [|done]. destruct (receiver_alive (rx c)); [|done]. injection H as <-.
  destruct Hp as (Hbuf & Hcap' & _).
  assert (held c = e :: buffered ch) as Hh by (unfold held; by rewrite Er, Hbuf).
  set (c' := mkCell _ _ _ _ _ _ _).
  assert (held c' = held c) as Hh' by (by rewrite Hh).
  split_and!; [|done..]. constructor.
  - unfold stream_ok in *. rewrite Hh'. exact Hst.
  - left. destruct Hen as [Hen|[Hen _]]; [exact Hen|]. by rewrite Hh in Hen.
  - cbn [c' rx]. rewrite Hcap', Hcap. rewrite Hbuf, len_cons in Hlen. split; [done|lia].
  - unfold bytes_ok. by rewrite Hh'.
  - by rewrite Hh'.
  - by rewrite Hh'.
Qed.

Lemma finish_ok p c c' :
  CellOk p c → finish c = Some c' →
  CellOk p c' ∧ bytes_of (held c') ≤ bytes_of (held c) ∧ only_events c' ∧ first_missed c' = first_missed c ∧
  c_id c' = c_id c.
Proof.
  intros [Hst Hen Hcap Hb Hs Hc] H. unfold finish in H.
  destruct (receiving c) as [e|] eqn:Er; [|done]. injection H as <-.
  assert (held c = e :: buffered (rx c)) as Hh by (unfold held; by rewrite Er).
  destruct (ended_only_events c Hen ltac:(by rewrite Hh)) as [es Hes].
  rewrite Hh in *. apply Forall_cons in Hs as [He Hs]. pose proof (bytes_of_nonneg _ Hs) as Hpos.
  set (c' := mkCell _ _ _ _ _ _ _). assert (held c' = buffered (rx c)) as Hh' by done.
  assert (only_events c') as Hoe.
  { exists (es ++ [e]). cbn [c' deliveries]. by rewrite Hes, fmap_app. }
  split_and!; [|rewrite Hh', bytes_of_cons; lia|done..]. constructor.
  - unfold stream_ok in *. rewrite Hh', Hh in *. cbn [c' deliveries offered first_missed].
    destruct Hst as (missed & Ho & Hm). exists missed. split; [|done].
    rewrite Ho, events_of_app. cbn. by rewrite <- app_assoc.
  - by left.
  - exact Hcap.
  - unfold bytes_ok in *. rewrite Hh', Hh in *. rewrite bytes_of_cons in Hb.
    destruct Hb as [Hb|(x & Hx & Heq)]; [left; lia|]. apply elem_of_cons in Hx as [->|Hx]; [left; lia|].
    right. exists x. split; [done|]. pose proof (bytes_of_elem _ _ Hs Hx). lia.
  - by rewrite Hh'.
  - rewrite Hh'. cbn [c' queued_bytes]. rewrite Hc, Zminus_mod_idemp_l.
    rewrite bytes_of_cons. f_equal. lia.
Qed.

Lemma end_of_stream_ok p w i c c' :
  CellOk p c → end_of_stream w i c = Some c' →
  CellOk p c' ∧ held c' = held c ∧ has_sender w i = false ∧ first_missed c' = first_missed c ∧ c_id c' = c_id c.
Proof.
  intros [Hst Hen Hcap Hb Hs Hc] H. unfold end_of_stream in H.
  destruct (receiving c) eqn:Er; [done|]. pose proof (pop_law (rx c)) as Hp.
  destruct (pop (rx c)); [done|]. destruct (_ || _) eqn:E; [done|]. apply orb_false_iff in E as [E _].
  injection H as <-. assert (held c = []) as Hh by (unfold held; by rewrite Er, Hp).
  set (c' := mkCell _ _ _ _ _ _ _). assert (held c' = held c) as Hh' by (unfold held; by rewrite Er).
  assert (event_of (terminal_delivery c) = []) as Ht by (unfold terminal_delivery; by destruct (_ =? 0)).
  split_and!; [|done..]. constructor.
  - unfold stream_ok in *. rewrite Hh'. cbn [c' deliveries offered first_missed].
    destruct Hst as (missed & Ho & Hm). exists missed. split; [|done].
    rewrite Ho, events_of_app. cbn. by rewrite Ht, !app_nil_r.
  - right. split; [by rewrite Hh'|]. change (terminal_delivery c') with (terminal_delivery c).
    cbn [c' deliveries]. destruct Hen as [[es Hes]|[_ (es & k & Hes)]]; rewrite Hes.
    + by exists es, 0%nat.
    + exists es, (S k). rewrite <- app_assoc. f_equal. by rewrite <- replicate_cons_app.
  - exact Hcap.
  - unfold bytes_ok. by rewrite Hh'.
  - by rewrite Hh'.
  - by rewrite Hh'.
Qed.

(** ** Preservation *)

Lemma NoDup_fmap_eq {A B} (f : A → B) (l : list A) x y :
  NoDup (f <$> l) → x ∈ l → y ∈ l → f x = f y → x = y.
Proof.
  induction l as [|z l IH]; [by intros _ ?%not_elem_of_nil|]. rewrite fmap_cons.
  intros [Hz Hl]%NoDup_cons Hx Hy Heq. apply elem_of_cons in Hx, Hy.
  destruct Hx as [->|Hx], Hy as [->|Hy]; [done| | |by apply IH].
  - destruct Hz. rewrite Heq. by apply list_elem_of_fmap_2.
  - destruct Hz. rewrite <- Heq. by apply list_elem_of_fmap_2.
Qed.

Lemma cell_owner w s s' :
  Inv w → s ∈ subscribers w → s' ∈ subscribers w → s_cell s = s_cell s' → s = s'.
Proof.
  intros Hi Hs Hs' Heq. eapply NoDup_fmap_eq; [apply (inv_ids _ Hi)|done|done|].
  destruct (inv_subscriber _ Hi _ Hs) as (c & Hc & <- & _), (inv_subscriber _ Hi _ Hs') as (c' & Hc' & <- & _).
  congruence.
Qed.

(** A cell changes under an unchanged fan-out: the receiver's steps. *)
Lemma inv_set_cell w i c c' :
  Inv w → cells w !! i = Some c → c_id c' = c_id c → first_missed c' = first_missed c →
  CellOk (pending w i) c' → (has_sender w i = true → only_events c') → bytes_of (held c') ≤ bytes_of (held c) →
  Inv (set_cell w i c').
Proof.
  intros Hi Hc Hid Hfm Hok Hoe Hby.
  assert (i < length (cells w))%nat as Hlt by (by eapply lookup_lt_Some).
  assert (∀ j d, cells (set_cell w i c') !! j = Some d → (j = i ∧ d = c') ∨ (j ≠ i ∧ cells w !! j = Some d)) as Hl.
  { intros j d. cbn. intros [(-> & <- & _)|[? ?]]%list_lookup_insert_Some; auto. }
  destruct Hi as [H1 H2 H3 H4 H5 H6]. constructor; [done|done| | |done|].
  - intros s Hs. destruct (H3 s Hs) as (d & Hd & Hdid & Hdoe & Hdfm). cbn [cells set_cell].
    destruct (decide (s_cell s = i)) as [<-|Hne].
    + exists c'. rewrite list_lookup_insert_eq by done. simplify_eq. split_and!; [done|congruence| |by rewrite Hfm].
      apply Hoe. apply existsb_exists. exists s. split; [by apply list_elem_of_In|by apply bool_decide_eq_true].
    + exists d. by rewrite list_lookup_insert_ne by done.
  - intros j d [[-> ->]|[Hne Hd]]%Hl; [done|]. by apply H4.
  - intros f Hf. destruct (H6 f Hf) as (He & Hv & Hp). split_and!; [done|done|].
    destruct (phase f) as [|s|s]; [done| |done]. destruct Hp as (Hperm & d & Hd & Hfit). split; [done|].
    cbn [cells set_cell]. destruct (decide (s_cell s = i)) as [<-|Hne].
    + exists c'. rewrite list_lookup_insert_eq by done. simplify_eq. split; [done|].
      unfold fits in *. pose proof (bytes_of_nonneg _ (ok_sizes _ _ Hok)). lia.
    + exists d. by rewrite list_lookup_insert_ne by done.
Qed.

Lemma not_lagged w f s visited rest :
  NoDup (s_id <$> subscribers w) → subscribers w = visited ++ s :: rest →
  Forall (λ id, id ∈ s_id <$> visited) (lagged f) → s_id s ∉ lagged f.
Proof.
  intros Hnd Hs Hl Hin. rewrite Hs, fmap_app, fmap_cons in Hnd. rewrite Forall_forall in Hl.
  apply NoDup_app in Hnd as (_ & Hd & _). apply (Hd (s_id s)); [by apply Hl|by left].
Qed.

(** The subscriber a fan-out is at is registered and has missed nothing yet. *)
Lemma at_subscriber w f s visited rest :
  Inv w → lock w = Some f → subscribers w = visited ++ s :: rest →
  Forall (λ id, id ∈ s_id <$> visited) (lagged f) →
  ∃ c, cells w !! s_cell s = Some c ∧ c_id c = s_id s ∧ only_events c ∧ first_missed c = 0 ∧
    ∀ s', s' ∈ subscribers w → s_cell s' = s_cell s → s' = s.
Proof.
  intros Hi Hl Hs Hlag. assert (s ∈ subscribers w) as Hin by (rewrite Hs; set_solver).
  destruct (inv_subscriber _ Hi s Hin) as (c & Hc & Hid & Hoe & Hfm). exists c. split_and!; [done|done|done| |].
  - destruct (decide (first_missed c = 0)) as [|Hne]; [done|]. specialize (Hfm Hne).
    unfold is_lagged in Hfm. rewrite Hl in Hfm. by destruct (not_lagged w f s visited rest (inv_ids _ Hi) Hs Hlag).
  - intros s' Hs' Heq. by eapply cell_owner.
Qed.

(** The fan-out changes the cell it is at, and its own state. *)
Lemma inv_at w f s visited rest c c' f' :
  Inv w → lock w = Some f → subscribers w = visited ++ s :: rest →
  Forall (λ id, id ∈ s_id <$> visited) (lagged f) → cells w !! s_cell s = Some c →
  c_id c' = c_id c → deliveries c' = deliveries c →
  remaining f' = rest → envelope f' = envelope f →
  (lagged f' = lagged f ∧ first_missed c' = 0 ∨
   lagged f' = lagged f ++ [s_id s] ∧ phase f' = Next) →
  match phase f' with Next => True | Sending s' => s' = s ∧ permitted (envelope f) s = true ∧ fits (envelope f) c' | Accounting s' => s' = s end →
  (∀ j, j ≠ s_cell s → pending w j = 0) →
  CellOk (match phase f' with Accounting _ => encoded_len (draft (envelope f)) | _ => 0 end) c' →
  Inv (set_lock (set_cell w (s_cell s) c') (Some f')).
Proof.
  intros Hi Hl Hs Hlag Hc Hid Hdel Hrem Henv Hlag' Hph Hpend Hok.
  destruct (at_subscriber w f s visited rest Hi Hl Hs Hlag) as (c0 & Hc0 & Hid0 & Hoe0 & Hfm0 & Hown). simplify_eq.
  assert (s_cell s < length (cells w))%nat as Hlt by (by eapply lookup_lt_Some).
  destruct Hi as [H1 H2 H3 H4 H5 H6]. constructor; [done|done| | |done|].
  - intros s' Hs'. cbn [subscribers set_lock set_cell] in Hs'. destruct (H3 s' Hs') as (d & Hd & Hdid & Hdoe & Hdfm).
    cbn [cells set_lock set_cell]. destruct (decide (s_cell s' = s_cell s)) as [Heq|Hne].
    + rewrite (Hown s' Hs' Heq) in *. exists c'. rewrite list_lookup_insert_eq by done. split_and!; [done|congruence| |].
      * unfold only_events in *. by rewrite Hdel.
      * intros Hf. unfold is_lagged. cbn [lock set_lock].
        destruct Hlag' as [[_ ?]|[-> _]]; [done|]. apply elem_of_app. right. by left.
    + exists d. rewrite list_lookup_insert_ne by done. split_and!; [done..|]. intros Hf. specialize (Hdfm Hf).
      unfold is_lagged in *. rewrite Hl in Hdfm. cbn [lock set_lock].
      destruct Hlag' as [[-> _]|[-> _]]; [done|]. apply elem_of_app. by left.
  - intros j d Hd. cbn [cells set_lock set_cell] in Hd.
    assert (pending (set_lock (set_cell w (s_cell s) c') (Some f')) j =
            match phase f' with Accounting _ => if decide (s_cell s = j) then encoded_len (draft (envelope f)) else 0 | _ => 0 end) as ->.
    { unfold pending. cbn [lock set_lock]. destruct f' as [e' r' l' [| |s']]; cbn in *; subst; done. }
    apply list_lookup_insert_Some in Hd as [(<- & <- & _)|[Hne Hd]].
    + destruct (phase f'); [done|done|]. by rewrite decide_True.
    + specialize (H4 _ _ Hd). rewrite Hpend in H4 by done.
      destruct (phase f'); [done|done|]. by rewrite decide_False.
  - intros g [= <-]. destruct (H6 f Hl) as (He & _ & _). split_and!.
    + by rewrite Henv.
    + exists (visited ++ match phase f' with Next => [s] | _ => [] end).
      cbn [subscribers set_lock set_cell]. rewrite Hs. split.
      * destruct (phase f') as [|s'|s']; [by rewrite <- app_assoc| |].
        -- destruct Hph as (-> & _). by rewrite app_nil_r.
        -- rewrite Hph. by rewrite app_nil_r.
      * assert (Forall (λ id, id ∈ s_id <$> visited ++ match phase f' with Next => [s] | _ => [] end) (lagged f)) as Hl'.
        { eapply Forall_impl; [exact Hlag|]. intros id Hin. rewrite fmap_app. apply elem_of_app. by left. }
        destruct Hlag' as [[-> _]|[-> Hn]]; [done|]. apply Forall_app. split; [done|].
        constructor; [|constructor]. rewrite Hn, fmap_app. apply elem_of_app. right. by left.
    + destruct (phase f') as [|s'|s']; [done| |done]. destruct Hph as (-> & Hperm & Hfit).
      rewrite Henv. split; [done|]. exists c'. cbn [cells set_lock set_cell]. by rewrite list_lookup_insert_eq by done.
Qed.

Lemma set_cell_id w i c : cells w !! i = Some c → set_cell w i c = w.
Proof. intros H. destruct w. unfold set_cell. cbn in *. by rewrite list_insert_id. Qed.

(** Offering an envelope that is not delivered. *)
Lemma miss_ok c e :
  CellOk 0 c → first_missed c = 0 → only_events c → envelope_ok e →
  CellOk 0 (mkCell (c_id c) (rx c) (if first_missed c =? 0 then ordinal e else first_missed c)
              (queued_bytes c) (receiving c) (offered c ++ [e]) (deliveries c)).
Proof.
  intros [Hst Hen Hcap Hb Hs Hc] Hfm Hoe [Hord _]. constructor; [|by left|done|done|done|done].
  destruct Hst as (missed & Ho & [[_ ->]|(x & _ & _ & ?)]); [|done].
  exists [e]. cbn [offered deliveries first_missed]. change (held (mkCell _ (rx c) _ _ (receiving c) _ _)) with (held c).
  rewrite Ho, Hfm, Z.eqb_refl, app_nil_r, <- app_assoc. split; [done|]. right. exists e. split_and!; [done|done|lia].
Qed.

(** Offering an envelope that enters the channel. *)
Lemma send_ok c e ch :
  CellOk 0 c → first_missed c = 0 → only_events c → envelope_ok e → fits e c → try_send (rx c) e = Some ch →
  CellOk (encoded_len (draft e))
    (mkCell (c_id c) ch (first_missed c) (queued_bytes c) (receiving c) (offered c ++ [e]) (deliveries c)).
Proof.
  intros [Hst Hen [Hcap Hlen] Hb Hs Hc] Hfm Hoe [_ Hsz] Hfit Hsend.
  pose proof (try_send_law (rx c) e) as Hl. rewrite Hsend in Hl. destruct Hl as (Hbuf & Hcap' & _ & _ & Hroom).
  set (c' := mkCell _ _ _ _ _ _ _).
  assert (held c' = held c ++ [e]) as Hh by (unfold held; cbn [c' rx receiving]; by rewrite Hbuf, app_assoc).
  assert (bytes_of (held c') = bytes_of (held c) + encoded_len (draft e)) as Hby.
  { rewrite Hh, bytes_of_app, bytes_of_cons. cbn. lia. }
  constructor.
  - destruct Hst as (missed & Ho & [[_ ->]|(x & _ & _ & ?)]); [|done]. exists []. rewrite Hh.
    cbn [c' offered deliveries first_missed]. rewrite Ho, !app_nil_r, app_assoc. by auto.
  - by left.
  - cbn [c' rx]. rewrite Hbuf, len_app, len_cons, len_nil, Hcap'. split; [done|lia].
  - unfold bytes_ok. rewrite Hby. destruct Hfit as [Hz|Hle]; [right|by left].
    exists e. rewrite Hh, Hz. split; [|lia]. apply elem_of_app. right. by left.
  - rewrite Hh. apply Forall_app. split; [done|by constructor].
  - rewrite Hby. cbn [c' queued_bytes]. rewrite Hc. f_equal. lia.
Qed.

Lemma account_ok c n :
  CellOk n c →
  CellOk 0 (mkCell (c_id c) (rx c) (first_missed c) (wrap_add u64_max (queued_bytes c) n) (receiving c) (offered c) (deliveries c)).
Proof.
  intros [Hst Hen Hcap Hb Hs Hc]. constructor; [done|done|done|done|done|].
  cbn [queued_bytes]. unfold wrap_add. rewrite Hc, Zplus_mod_idemp_l. f_equal.
  change (held (mkCell _ (rx c) _ _ (receiving c) _ _)) with (held c). lia.
Qed.

Lemma inv_visit w f w' : Inv w → lock w = Some f → visit w f = Some w' → Inv w'.
Proof.
  intros Hi Hl H. unfold visit in H. destruct f as [e rem lag [| |]]; cbn [phase remaining] in H; try done.
  destruct rem as [|s rest]; [done|]. cbn [envelope lagged] in H.
  destruct (filters w !! s_filter s) as [flt|]; [|done]. cbn [mbind option_bind] in H.
  destruct (inv_fanout _ Hi _ Hl) as (He & (visited & Hs & Hlag) & _). cbn [envelope lagged phase remaining current app] in *.
  destruct (at_subscriber w _ s visited rest Hi Hl Hs Hlag) as (c & Hc & Hid & Hoe & Hfm & _).
  rewrite Hc in H. cbn [mbind option_bind] in H.
  assert (∀ j, pending w j = 0) as Hpend by (intros j; unfold pending; by rewrite Hl).
  pose proof (inv_cells _ Hi _ _ Hc) as Hok. rewrite Hpend in Hok.
  assert (Inv (set_lock w (Some (mkFanout e rest lag Next)))) as Hskip.
  { rewrite <- (set_cell_id w (s_cell s) c Hc) at 1.
    eapply (inv_at w _ s visited rest c c); try done; by left. }
  destruct (permitted e s) eqn:Ep; cbn [negb] in H; [|by injection H as <-].
  destruct (negb (filter_admits _ _ _)); [by injection H as <-|].
  destruct (_ && _) eqn:Eb.
  - injection H as <-. unfold miss. cbn [envelope remaining lagged].
    eapply (inv_at w _ s visited rest c); try done; [by right|by apply miss_ok].
  - injection H as <-. rewrite <- (set_cell_id w (s_cell s) c Hc) at 1.
    eapply (inv_at w _ s visited rest c c); try done; [by left|]. cbn [phase envelope]. split_and!; [done|done|].
    rewrite (counter_exact c Hok) in Eb. pose proof (bytes_of_nonneg _ (ok_sizes _ _ Hok)).
    unfold fits. destruct He as [_ He]. unfold sat_add in Eb. apply andb_false_iff in Eb as [Eb|Eb]; boolify; lia.
Qed.

Lemma inv_send w f w' : Inv w → lock w = Some f → send w f = Some w' → Inv w'.
Proof.
  intros Hi Hl H. unfold send in H. destruct f as [e rem lag [|s|]]; cbn [phase] in H; try done.
  destruct (inv_fanout _ Hi _ Hl) as (He & (visited & Hs & Hlag) & (Hperm & c & Hc & Hfit)).
  cbn [envelope lagged phase remaining current app] in *.
  destruct (at_subscriber w _ s visited rem Hi Hl Hs Hlag) as (c' & Hc' & Hid & Hoe & Hfm & _). simplify_eq.
  rewrite Hc in H. cbn [mbind option_bind] in H.
  assert (∀ j, pending w j = 0) as Hpend by (intros j; unfold pending; by rewrite Hl).
  pose proof (inv_cells _ Hi _ _ Hc) as Hok. rewrite Hpend in Hok.
  destruct (try_send (rx c) e) as [ch|] eqn:Es; injection H as <-.
  - eapply (inv_at w _ s visited rem c); try done; [by left|by apply send_ok].
  - unfold miss. cbn [envelope remaining lagged].
    eapply (inv_at w _ s visited rem c); try done; [by right|by apply miss_ok].
Qed.

Lemma inv_account w f w' : Inv w → lock w = Some f → account w f = Some w' → Inv w'.
Proof.
  intros Hi Hl H. unfold account in H. destruct f as [e rem lag [| |s]]; cbn [phase] in H; try done.
  destruct (inv_fanout _ Hi _ Hl) as (He & (visited & Hs & Hlag) & _).
  cbn [envelope lagged phase remaining current app] in *.
  destruct (at_subscriber w _ s visited rem Hi Hl Hs Hlag) as (c & Hc & Hid & Hoe & Hfm & _).
  rewrite Hc in H. cbn [mbind option_bind] in H. injection H as <-.
  pose proof (inv_cells _ Hi _ _ Hc) as Hok.
  assert (∀ j, pending w j = if decide (s_cell s = j) then encoded_len (draft e) else 0) as Hpend
    by (intros j; unfold pending; by rewrite Hl).
  rewrite Hpend, decide_True in Hok by done.
  eapply (inv_at w _ s visited rem c); try done; [by left| |by apply account_ok].
  intros j Hj. by rewrite Hpend, decide_False.
Qed.

Lemma NoDup_ids_filter P `{!∀ s, Decision (P s)} (ss : list Subscriber) :
  NoDup (s_id <$> ss) → NoDup (s_id <$> filter P ss).
Proof. intros Hn. eapply sublist_NoDup; [exact Hn|]. apply fmap_sublist, sublist_filter. Qed.

Lemma inv_unlock w f w' : Inv w → lock w = Some f → unlock w f = Some w' → Inv w'.
Proof.
  intros Hi Hl H. unfold unlock in H. destruct f as [e rem lag [| |]]; cbn [phase remaining] in H; try done.
  destruct rem; [|done]. injection H as <-. cbn [lagged].
  destruct Hi as [H1 H2 H3 H4 H5 _]. constructor; [done| | | |done|done].
  - cbn [subscribers]. by apply NoDup_ids_filter.
  - intros s Hs. cbn [subscribers] in Hs. apply list_elem_of_filter in Hs as [Hn Hs].
    destruct (H3 s Hs) as (c & ? & ? & ? & Hf). exists c. split_and!; [done..|]. intros Hne. specialize (Hf Hne).
    unfold is_lagged in Hf. by rewrite Hl in Hf.
  - intros i c Hc. specialize (H4 i c Hc). unfold pending in *. by rewrite Hl in H4.
Qed.

(** *** Without the lock *)

Lemma pending_unlocked w i : lock w = None → pending w i = 0.
Proof. unfold pending. by intros ->. Qed.

Lemma inv_subscribe w id role scopes f device :
  Inv w → lock w = None → Inv (subscribe_bound w id role scopes f device).
Proof.
  intros Hi Hl. destruct Hi as [H1 H2 H3 H4 H5 _]. constructor; [done| | | |done|].
  - cbn [subscribers subscribe_bound]. rewrite fmap_app. apply NoDup_app. split_and!.
    + by apply NoDup_ids_filter.
    + intros x Hx [->|Hn]%elem_of_cons; [|by apply not_elem_of_nil in Hn].
      apply list_elem_of_fmap in Hx as (s & Heq & Hs). apply list_elem_of_filter in Hs as [Hne _]. by apply Hne.
    + apply NoDup_singleton.
  - intros s Hs. cbn [subscribers subscribe_bound] in Hs. cbn [cells subscribe_bound].
    apply elem_of_app in Hs as [Hs|Hs].
    + apply list_elem_of_filter in Hs as [_ Hs]. destruct (H3 s Hs) as (c & Hc & Hid & Hoe & Hf).
      exists c. split_and!; [by apply lookup_app_l_Some|done|done|].
      intros Hne. specialize (Hf Hne). unfold is_lagged in *. by rewrite Hl in *.
    + apply list_elem_of_singleton in Hs as ->. eexists. cbn [s_cell]. rewrite list_lookup_middle by done.
      split_and!; [done|done|by exists []|done].
  - intros i c Hc. cbn [cells subscribe_bound] in Hc. rewrite pending_unlocked by done.
    apply lookup_app_Some in Hc as [Hc|[_ Hc]].
    + specialize (H4 _ _ Hc). by rewrite pending_unlocked in H4.
    + apply list_lookup_singleton_Some in Hc as [_ <-]. destruct (channel_law queue_capacity) as (Hb & Hcap & _).
      assert (held (mkCell id (channel queue_capacity) 0 0 None [] []) = []) as Hh by (unfold held; by rewrite <- Hb).
      constructor.
      * exists []. rewrite Hh. split; [done|by left].
      * left. by exists [].
      * cbn [rx]. rewrite Hb, Hcap, len_nil. split; [done|lia].
      * left. rewrite Hh. cbn. lia.
      * by rewrite Hh.
      * by rewrite Hh.
  - intros g Hg. cbn in Hg. congruence.
Qed.

(** Fewer or re-authorized subscribers with the same identities and cells. *)
Lemma inv_subscribers w ss :
  Inv w → lock w = None → NoDup (s_id <$> ss) →
  (∀ s, s ∈ ss → ∃ s0, s0 ∈ subscribers w ∧ s_id s0 = s_id s ∧ s_cell s0 = s_cell s) →
  Inv (mkWorld (next_ordinal w) ss (cells w) (filters w) (waiting w) (lock w)).
Proof.
  intros [H1 H2 H3 H4 H5 _] Hl Hnd Hss. constructor; [done|done| | |done|].
  - intros s Hs. destruct (Hss s Hs) as (s0 & Hs0 & Hid & Hce). destruct (H3 s0 Hs0) as (c & ? & ? & ? & Hf).
    exists c. cbn [cells]. rewrite <- Hid, <- Hce. split_and!; [done..|].
    intros Hne. specialize (Hf Hne). unfold is_lagged in *. by rewrite Hl in *.
  - intros i c Hc. specialize (H4 _ _ Hc). rewrite pending_unlocked in * by done. exact H4.
  - intros g Hg. cbn in Hg. congruence.
Qed.

Lemma inv_unsubscribe w id : Inv w → lock w = None → Inv (unsubscribe w id).
Proof.
  intros Hi Hl. apply inv_subscribers; [done|done|apply NoDup_ids_filter, Hi|].
  intros s Hs. apply list_elem_of_filter in Hs as [_ Hs]. by exists s.
Qed.

Lemma reauthorize_first_spec ss id role scopes :
  s_id <$> reauthorize_first ss id role scopes = s_id <$> ss ∧
  ∀ s, s ∈ reauthorize_first ss id role scopes → ∃ s0, s0 ∈ ss ∧ s_id s0 = s_id s ∧ s_cell s0 = s_cell s.
Proof.
  induction ss as [|x ss [IH1 IH2]]; [split; [done|by intros ? ?%not_elem_of_nil]|]. cbn [reauthorize_first].
  destruct (decide (s_id x = id)).
  - split; [done|]. intros s [->|Hs]%elem_of_cons; [exists x|exists s]; cbn; set_solver.
  - rewrite !fmap_cons, IH1. split; [done|]. intros s [->|Hs]%elem_of_cons; [exists x; set_solver|].
    destruct (IH2 s Hs) as (s0 & ? & ? & ?). exists s0. set_solver.
Qed.

Lemma inv_reauthorize w id role scopes : Inv w → lock w = None → Inv (reauthorize w id role scopes).
Proof.
  intros Hi Hl. destruct (reauthorize_first_spec (subscribers w) id role scopes) as [He Hs].
  apply inv_subscribers; [done|done|by rewrite He; apply Hi|done].
Qed.

Lemma inv_drop_subscription w i c w' :
  Inv w → lock w = None → cells w !! i = Some c → drop_subscription w i c = Some w' → Inv w'.
Proof.
  intros Hi Hl Hc Hd. unfold drop_subscription in Hd. destruct (receiving c) eqn:Er; [done|]. injection Hd as <-.
  destruct (close_law (rx c)) as (Hb & Hcap & _).
  apply (inv_set_cell (unsubscribe w (c_id c)) i c); [by apply inv_unsubscribe|done|done|done| | |].
  - rewrite pending_unlocked by done. pose proof (inv_cells _ Hi _ _ Hc) as Hok. rewrite pending_unlocked in Hok by done.
    destruct Hok as [Hst Hen [? ?] Hby Hs Hcn].
    assert (∀ f q o d, held (mkCell (c_id c) (close (rx c)) f q None o d) = held c) as Hh
      by (intros; unfold held; cbn; by rewrite Er, Hb).
    constructor; unfold stream_ok, ended, bytes_ok in *; rewrite ?Hh; cbn [rx]; try done.
    by rewrite Hb, Hcap.
  - intros (s & Hs & Heq%bool_decide_eq_true)%existsb_exists. apply list_elem_of_In, list_elem_of_filter in Hs as [Hne Hs].
    destruct (inv_subscriber _ Hi s Hs) as (d & Hd & Hid & _). congruence.
  - unfold held. cbn [rx receiving]. by rewrite Er, Hb.
Qed.

Lemma has_sender_only_events w i c :
  Inv w → cells w !! i = Some c → has_sender w i = true → only_events c.
Proof.
  intros Hi Hc (s & Hs & Heq%bool_decide_eq_true)%existsb_exists. apply list_elem_of_In in Hs.
  destruct (inv_subscriber _ Hi s Hs) as (d & Hd & _ & Hoe & _). by simplify_eq.
Qed.

Lemma inv_receiver w i c c' :
  Inv w → cells w !! i = Some c →
  take_ c = Some c' ∨ finish c = Some c' ∨ end_of_stream w i c = Some c' → Inv (set_cell w i c').
Proof.
  intros Hi Hc Hr. pose proof (inv_cells _ Hi _ _ Hc) as Hok. destruct Hr as [Hr|[Hr|Hr]].
  - destruct (take_ok _ _ _ Hok Hr) as (Hok' & Hh & Hd & Hf & Hid).
    apply (inv_set_cell w i c); [done..| |by rewrite Hh].
    intros Hs. pose proof (has_sender_only_events w i c Hi Hc Hs) as Hoe. unfold only_events in *. by rewrite Hd.
  - destruct (finish_ok _ _ _ Hok Hr) as (Hok' & Hh & Hoe & Hf & Hid). by apply (inv_set_cell w i c).
  - destruct (end_of_stream_ok _ _ _ _ _ Hok Hr) as (Hok' & Hh & Hns & Hf & Hid).
    apply (inv_set_cell w i c); [done..|by rewrite Hns|by rewrite Hh].
Qed.

Lemma inv_begin w d : Inv w → 0 ≤ encoded_len d ≤ u64_max → Inv (begin_publish w d).
Proof.
  intros [H1 H2 H3 H4 H5 H6] Hd. unfold begin_publish.
  destruct (_ =? _); constructor; try done; cbn [next_ordinal waiting]; [lia|].
  apply Forall_app. split; [done|]. constructor; [|constructor]. split; cbn; lia.
Qed.

Lemma inv_lock w k e :
  Inv w → lock w = None → waiting w !! k = Some e →
  Inv (mkWorld (next_ordinal w) (subscribers w) (cells w) (filters w) (delete k (waiting w))
         (Some (mkFanout e (subscribers w) [] Next))).
Proof.
  intros [H1 H2 H3 H4 H5 _] Hl Hk. constructor; [done|done| | | |].
  - intros s Hs. destruct (H3 s Hs) as (c & ? & ? & ? & Hf). exists c. split_and!; [done..|].
    intros Hne. specialize (Hf Hne). unfold is_lagged in Hf. by rewrite Hl in Hf.
  - intros i c Hc. specialize (H4 i c Hc). by rewrite pending_unlocked in H4.
  - by apply Forall_delete.
  - intros f [= <-]. split_and!; [by eapply Forall_lookup_1|by exists []|done].
Qed.

Lemma inv_set_filter w fs :
  Inv w → Inv (mkWorld (next_ordinal w) (subscribers w) (cells w) fs (waiting w) (lock w)).
Proof. intros [H1 H2 H3 H4 H5 H6]. by constructor. Qed.

(** What surrounds a terminal delivery. *)
Lemma after_events es before d after l :
  before ++ d :: after = (Event <$> es) ++ l → event_of d = [] →
  ∃ l1, before = (Event <$> es) ++ l1 ∧ l = l1 ++ d :: after.
Proof.
  intros Heq Hd. revert before Heq. induction es as [|e es IH]; intros before Heq.
  - exists before. by split.
  - rewrite fmap_cons in *. destruct before as [|x before]; cbn in Heq; injection Heq as -> Heq; [done|].
    destruct (IH _ Heq) as (l1 & -> & ->). by exists l1.
Qed.

Lemma events_of_terminals l : Forall (λ d, event_of d = []) l → events_of l = [].
Proof. induction 1 as [|d l Hd _ IH]; [done|]. unfold events_of in *. cbn. by rewrite Hd, IH. Qed.

Lemma ended_terminal c before d after :
  ended c → deliveries c = before ++ d :: after → event_of d = [] →
  held c = [] ∧ d = terminal_delivery c ∧ events_of (deliveries c) = events_of before ∧ events_of after = [].
Proof.
  intros Hen Hd Hn. assert (event_of (terminal_delivery c) = []) as Ht by (unfold terminal_delivery; by destruct (_ =? 0)).
  destruct Hen as [[es Hes]|[Hh (es & k & Hes)]].
  { rewrite <- (app_nil_r (Event <$> es)), Hd in Hes. apply after_events in Hes as (l1 & _ & Hl); [|done]. by destruct l1. }
  pose proof Hes as Hes'. rewrite Hd in Hes. apply after_events in Hes as (l1 & -> & Hl); [|done].
  assert (Forall (λ x, x = terminal_delivery c) (l1 ++ d :: after)) as Hall.
  { rewrite <- Hl. apply Forall_replicate. done. }
  apply Forall_app in Hall as [H1 [-> H2]%Forall_cons].
  assert (∀ l, Forall (λ x, x = terminal_delivery c) l → events_of l = []) as He.
  { intros l Hf. apply events_of_terminals. eapply Forall_impl; [exact Hf|]. by intros x ->. }
  split_and!; [done|done| |by apply He]. rewrite Hes', !events_of_app, (He l1 H1).
  rewrite (He (replicate _ _)); [done|]. by apply Forall_replicate.
Qed.

(** Every step keeps the invariant. *)
Lemma act_inv w a w' : Inv w → sized a → act w a = Some w' → Inv w'.
Proof.
  intros Hi Hsz Ha. unfold act in Ha. destruct (lock w) as [f|] eqn:Hl, a; try done;
    repeat match type of Ha with
    | context [cells w !! ?i ≫= _] => destruct (cells w !! i) as [c|] eqn:Hc; [|done]; cbn [mbind option_bind] in Ha
    | take_ ?c ≫= _ = _ => destruct (take_ c) as [c'|] eqn:Hr; [|done]; cbn [mbind option_bind] in Ha
    | finish ?c ≫= _ = _ => destruct (finish c) as [c'|] eqn:Hr; [|done]; cbn [mbind option_bind] in Ha
    | end_of_stream ?w ?i ?c ≫= _ = _ =>
        destruct (end_of_stream w i c) as [c'|] eqn:Hr; [|done]; cbn [mbind option_bind] in Ha
    | waiting w !! ?k ≫= _ = _ => destruct (waiting w !! k) as [e|] eqn:Hk; [|done]; cbn [mbind option_bind] in Ha
    | (if ?b then _ else None) = Some _ => destruct b eqn:?; [|done]
    | Some _ = Some w' => injection Ha as <-
    end;
    eauto using inv_visit, inv_send, inv_account, inv_unlock, inv_subscribe, inv_unsubscribe, inv_reauthorize,
      inv_drop_subscription, inv_receiver, inv_begin, inv_lock; rewrite <- Hl; by apply inv_set_filter.
Qed.

Lemma reachable_bus_inv w : Reachable w → Inv w.
Proof.
  intros (fs & schedule & Hsz & Hr). assert (Inv (bus_new fs)) as Hi.
  { constructor; try done; [apply NoDup_nil_2|by intros s ?%not_elem_of_nil]. }
  revert Hi Hr. generalize (bus_new fs) as w0. induction Hsz as [|a schedule Ha _ IH]; intros w0 Hi Hr; cbn [run] in Hr.
  - by simplify_eq.
  - destruct (act w0 a) as [w1|] eqn:E; [|done]. eapply IH; [|exact Hr]. by eapply act_inv.
Qed.

(** C10. No silent gap: under every interleaving of publishers, registrations and
    receivers, what a connection was handed, what its queue still holds and, if it
    lagged, the one publication it missed are exactly the publications the bus
    chose it for, in order; and a connection is told [Lagged] only after all of
    its queue, with the ordinal of the publication that follows what it got, and
    [Closed] only when it got everything. *)
Theorem events_no_silent_gap (w : World) (i : nat) (c : Cell) :
  Reachable w → cells w !! i = Some c →
  (∃ missed, offered c = events_of (deliveries c) ++ held c ++ missed ∧
     (first_missed c = 0 ∧ missed = [] ∨ ∃ e, missed = [e] ∧ ordinal e = first_missed c ∧ first_missed c ≠ 0)) ∧
  (∀ before m after, deliveries c = before ++ Lagged m :: after →
     ∃ e, offered c = events_of before ++ [e] ∧ ordinal e = m ∧ events_of after = []) ∧
  (∀ before after, deliveries c = before ++ Closed :: after →
     offered c = events_of before ∧ events_of after = []).
Proof.
  intros Hw Hc. destruct (inv_cells _ (reachable_bus_inv _ Hw) _ _ Hc) as [Hst Hen _ _ _ _].
  split; [exact Hst|]. split.
  - intros before m after Hd. destruct (ended_terminal c before (Lagged m) after Hen Hd) as (Hh & Ht & Hb & Ha); [done|].
    destruct Hst as (missed & Ho & Hm). rewrite Hh, Hb in Ho. cbn [app] in Ho.
    unfold terminal_delivery in Ht. destruct (Z.eqb_spec (first_missed c) 0); [done|]. injection Ht as ->.
    destruct Hm as [[? _]|(e & -> & He & _)]; [done|]. by exists e.
  - intros before after Hd. destruct (ended_terminal c before Closed after Hen Hd) as (Hh & Ht & Hb & Ha); [done|].
    destruct Hst as (missed & Ho & Hm). rewrite Hh, Hb in Ho. cbn [app] in Ho.
    unfold terminal_delivery in Ht. destruct (Z.eqb_spec (first_missed c) 0); [|done].
    destruct Hm as [[_ ->]|(x & _ & _ & ?)]; [|done]. by rewrite app_nil_r in Ho.
Qed.

(** The queues are bounded: under every interleaving, the byte counter's late
    updates included, a connection's queue never holds more than the capacity,
    and its bytes, with the envelope in its receiver's hand, never pass the byte
    bound except for a single envelope that alone is larger. *)
Theorem event_queue_bounded (w : World) (i : nat) (c : Cell) :
  Reachable w → cells w !! i = Some c →
  len (buffered (rx c)) ≤ queue_capacity ∧
  (bytes_of (held c) ≤ queue_bytes ∨ ∃ e, e ∈ held c ∧ bytes_of (held c) = encoded_len (draft e)).
Proof.
  intros Hw Hc. destruct (inv_cells _ (reachable_bus_inv _ Hw) _ _ Hc) as [_ _ [_ Hl] Hb _ _]. by split.
Qed.

(** Receiver steps keep the history of offers. *)
Lemma receiver_offered w i c c' :
  take_ c = Some c' ∨ finish c = Some c' ∨ end_of_stream w i c = Some c' → offered c' = offered c.
Proof.
  unfold take_, finish, end_of_stream.
  intros [Hr|[Hr|Hr]]; repeat (case_match; try done); destruct (receiving c); by simplify_eq/=.
Qed.

Definition same_offers (w w' : World) : Prop :=
  ∀ i c c', cells w !! i = Some c → cells w' !! i = Some c' → offered c' = offered c.

Lemma same_offers_cells w w' : cells w' = cells w → same_offers w w'.
Proof. intros Heq i c c' Hc Hc'. congruence. Qed.

Lemma same_offers_set w w0 j c d :
  cells w0 = cells w → cells w !! j = Some c → offered d = offered c → same_offers w (set_cell w0 j d).
Proof.
  intros Hw Hj Hd i x y Hx Hy. cbn [cells set_cell] in Hy. rewrite Hw in Hy.
  apply list_lookup_insert_Some in Hy as [(<- & <- & _)|[_ Hy]]; congruence.
Qed.

(** Only the lock holder's visits and sends offer anything. *)
Lemma offered_frame w a w' : act w a = Some w' → lock w = None ∨ a ≠ Visit ∧ a ≠ Send → same_offers w w'.
Proof.
  intros Ha Hno. unfold act in Ha. destruct (lock w) as [f|] eqn:Hl, a; try done; try (destruct Hno as [|[? ?]]; done);
    repeat match type of Ha with
    | context [cells w !! ?j ≫= _] => destruct (cells w !! j) as [d|] eqn:Hd; [|done]; cbn [mbind option_bind] in Ha
    | take_ ?c ≫= _ = _ => destruct (take_ c) as [c'|] eqn:Hr; [|done]; cbn [mbind option_bind] in Ha
    | finish ?c ≫= _ = _ => destruct (finish c) as [c'|] eqn:Hr; [|done]; cbn [mbind option_bind] in Ha
    | end_of_stream ?w ?i ?c ≫= _ = _ =>
        destruct (end_of_stream w i c) as [c'|] eqn:Hr; [|done]; cbn [mbind option_bind] in Ha
    | waiting w !! ?k ≫= _ = _ => destruct (waiting w !! k) as [e|] eqn:Hk; [|done]; cbn [mbind option_bind] in Ha
    | (if ?b then _ else None) = Some _ => destruct b eqn:?; [|done]
    | Some _ = Some w' => injection Ha as <-
    end;
    try (eapply same_offers_set; [done|exact Hd|by apply (receiver_offered w cell d); eauto]);
    try (apply same_offers_cells; unfold begin_publish; by repeat case_match).
  - unfold account in Ha. destruct (phase f); [done|done|].
    destruct (cells w !! s_cell s) as [d|] eqn:Hd; [|done]. injection Ha as <-.
    by apply (same_offers_set w w (s_cell s) d).
  - unfold unlock in Ha. repeat (case_match; try done). injection Ha as <-. by apply same_offers_cells.
  - intros i c c' Hc Hc'. cbn [cells subscribe_bound] in Hc'. rewrite (lookup_app_l_Some _ _ _ _ Hc) in Hc'. congruence.
  - unfold drop_subscription in Ha. destruct (receiving d); [done|]. injection Ha as <-.
    by eapply (same_offers_set w (unsubscribe w (c_id d))).
Qed.

(** What a visit or a send may do to the cells. *)
Lemma fanout_offer w f w' :
  Inv w → lock w = Some f → visit w f = Some w' ∨ send w f = Some w' →
  cells w' = cells w ∨
  ∃ s c d, s ∈ subscribers w ∧ permitted (envelope f) s = true ∧ cells w !! s_cell s = Some c ∧ c_id c = s_id s ∧
    cells w' = <[s_cell s := d]> (cells w) ∧ offered d = offered c ++ [envelope f].
Proof.
  intros Hi Hl Hstep. destruct (inv_fanout _ Hi _ Hl) as (_ & (visited & Hs & _) & Hph).
  destruct Hstep as [H|H].
  - unfold visit in H. destruct f as [e rem lag [| |]]; cbn [phase remaining] in *; try done.
    destruct rem as [|s rest]; [done|]. cbn [envelope lagged current app] in *.
    destruct (filters w !! s_filter s); [|done]. cbn [mbind option_bind] in H.
    assert (s ∈ subscribers w) as Hin by (rewrite Hs; set_solver).
    destruct (inv_subscriber _ Hi s Hin) as (c & Hc & Hid & _). rewrite Hc in H. cbn [mbind option_bind] in H.
    destruct (permitted e s) eqn:Ep; cbn [negb] in H; [|left; by simplify_eq].
    destruct (negb _); [left; by simplify_eq|]. destruct (_ && _); simplify_eq; [right|by left].
    eexists s, c, _. by split_and!.
  - unfold send in H. destruct f as [e rem lag [|s|]]; cbn [phase] in *; try done.
    destruct Hph as (Hp & _). cbn [envelope current app] in *.
    assert (s ∈ subscribers w) as Hin by (rewrite Hs; set_solver).
    destruct (inv_subscriber _ Hi s Hin) as (c & Hc & Hid & _). rewrite Hc in H. cbn [mbind option_bind] in H.
    right. destruct (try_send (rx c) e); simplify_eq; eexists s, c, _; by split_and!.
Qed.

Lemma permitted_spec e s :
  permitted e s = true ↔
  (∀ d, device_id (draft e) = Some d → s_device_id s = Some d) ∧
  (∀ target, audience (draft e) = Connection target → s_id s = target) ∧
  visibility_admits (visibility (draft e)) (s_role s) (s_scopes s) = true.
Proof.
  unfold permitted. rewrite !andb_true_iff.
  assert (match device_id (draft e) with Some d => bool_decide (s_device_id s = Some d) | None => true end = true ↔
          ∀ d, device_id (draft e) = Some d → s_device_id s = Some d) as Hd.
  { destruct (device_id (draft e)) as [d|]; [rewrite bool_decide_eq_true|]; naive_solver. }
  assert (match audience (draft e) with Connection t => bool_decide (t = s_id s) | Broadcast => true end = true ↔
          ∀ t, audience (draft e) = Connection t → s_id s = t) as Hau.
  { destruct (audience (draft e)) as [|t]; [|rewrite bool_decide_eq_true]; naive_solver. }
  rewrite Hd, Hau. tauto.
Qed.

(** C36. Only the entitled are served: in every reachable world, a step that offers
    an envelope to a connection, whether it is then queued or missed, is a fan-out
    of that envelope reaching a registered subscriber whose device and connection
    are addressed by it and whose role and scopes, as they stand then, see it; so
    no event reaches anyone else's queue. *)
Theorem events_reach_entitled_only (w : World) (a : Action) (w' : World) (i : nat) (c c' : Cell) (e : EventEnvelope) :
  Reachable w → act w a = Some w' → cells w !! i = Some c → cells w' !! i = Some c' →
  offered c' = offered c ++ [e] →
  ∃ f s, lock w = Some f ∧ envelope f = e ∧ s ∈ subscribers w ∧ s_cell s = i ∧ s_id s = c_id c ∧
    (∀ d, device_id (draft e) = Some d → s_device_id s = Some d) ∧
    (∀ target, audience (draft e) = Connection target → s_id s = target) ∧
    visibility_admits (visibility (draft e)) (s_role s) (s_scopes s) = true.
Proof.
  intros Hw Ha Hc Hc' Hoff. pose proof (reachable_bus_inv w Hw) as Hi.
  assert (offered c' ≠ offered c) as Hne.
  { rewrite Hoff. intros Hx%(f_equal length). rewrite length_app in Hx. cbn in Hx. lia. }
  assert (∃ f, lock w = Some f ∧ (visit w f = Some w' ∨ send w f = Some w')) as (f & Hl & Hstep).
  { pose proof (offered_frame w a w' Ha) as Hfr. unfold act in Ha.
    destruct (lock w) as [f|]; [|by destruct Hne; eapply Hfr; eauto].
    destruct a; try (destruct Hne; refine (Hfr _ i c c' Hc Hc'); right; by split); by eauto. }
  destruct (fanout_offer w f w' Hi Hl Hstep) as [Heq|(s & c0 & d & Hs & Hp & Hc0 & Hid & Hcells & Hd)].
  { destruct Hne. congruence. }
  rewrite Hcells in Hc'. apply list_lookup_insert_Some in Hc' as [(<- & -> & _)|[_ Hc']]; [|by destruct Hne; simplify_eq].
  simplify_eq. rewrite Hd in Hoff. apply app_inj_tail in Hoff as [_ <-].
  exists f, s. apply permitted_spec in Hp as (? & ? & ?). by split_and!.
Qed.

(** The fan-out decides each subscriber by the policy and the byte bound
    alone: one it is not addressed to, may not see or has filtered out is passed
    over with nothing changed; any other is either sent to, or recorded as lagging
    from this ordinal because the bytes it holds and the new ones pass the
    bound. *)
Theorem fanout_decides (w : World) (e : EventEnvelope) (s : Subscriber) (rest : list Subscriber)
    (lag : list ConnectionId) (flt : TopicFilter) (c : Cell) :
  Reachable w → lock w = Some (mkFanout e (s :: rest) lag Next) →
  filters w !! s_filter s = Some flt → cells w !! s_cell s = Some c →
  ∃ w', act w Visit = Some w' ∧
  if permitted e s && filter_admits flt (name (draft e)) (session_id (draft e)) then
    (lock w' = Some (mkFanout e rest lag (Sending s)) ∧ cells w' = cells w ∧
     (bytes_of (held c) = 0 ∨ bytes_of (held c) + encoded_len (draft e) ≤ queue_bytes)) ∨
    (lock w' = Some (mkFanout e rest (lag ++ [s_id s]) Next) ∧
     (∃ c', cells w' !! s_cell s = Some c' ∧ first_missed c' = ordinal e ∧ offered c' = offered c ++ [e]) ∧
     0 < bytes_of (held c) ∧ queue_bytes < bytes_of (held c) + encoded_len (draft e))
  else lock w' = Some (mkFanout e rest lag Next) ∧ cells w' = cells w.
Proof.
  intros Hw Hl Hf Hc. pose proof (reachable_bus_inv w Hw) as Hi.
  destruct (inv_fanout _ Hi _ Hl) as (He & (visited & Hs & Hlag) & _). cbn [envelope lagged phase remaining current app] in *.
  destruct (at_subscriber w _ s visited rest Hi Hl Hs Hlag) as (c0 & Hc0 & _ & _ & Hfm & _). simplify_eq.
  pose proof (inv_cells _ Hi _ _ Hc) as Hok. unfold pending in Hok. rewrite Hl in Hok.
  pose proof (counter_exact c Hok) as Hq. pose proof (bytes_of_nonneg _ (ok_sizes _ _ Hok)) as Hpos.
  unfold act. rewrite Hl. unfold visit. cbn [phase remaining envelope lagged]. rewrite Hf, Hc. cbn [mbind option_bind].
  destruct (permitted e s); cbn [negb andb]; [|by eexists].
  destruct (filter_admits _ _ _); cbn [negb]; [|by eexists].
  destruct (_ && _) eqn:Eb; (eexists; split; [done|]).
  - right. cbn [lock miss set_lock envelope remaining lagged]. split; [done|]. split.
    + eexists. cbn [cells miss set_lock set_cell]. rewrite list_lookup_insert_eq by (by eapply lookup_lt_Some).
      cbn [first_missed offered]. by rewrite Hfm.
    + rewrite Hq in Eb. unfold sat_add in Eb. boolify. lia.
  - left. cbn [lock set_lock]. split_and!; [done|done|]. rewrite Hq in Eb. destruct He as [_ He].
    unfold sat_add in Eb. apply andb_false_iff in Eb as [Eb|Eb]; boolify; lia.
Qed.

(** Draining a queue with no sender left. *)
Lemma drain_run w i c :
  cells w !! i = Some c → receiving c = None → receiver_alive (rx c) = true →
  ∃ w' c', run w (concat (replicate (length (buffered (rx c))) [Take i; Finish i])) = Some w' ∧
    cells w' !! i = Some c' ∧ buffered (rx c') = [] ∧ receiving c' = None ∧ receiver_alive (rx c') = true ∧
    deliveries c' = deliveries c ++ (Event <$> buffered (rx c)) ∧ first_missed c' = first_missed c ∧
    subscribers w' = subscribers w.
Proof.
  remember (buffered (rx c)) as l eqn:Hb. revert w c Hb. induction l as [|e l IH]; intros w c Hb Hc Hr Hal.
  { exists w, c. cbn. by rewrite app_nil_r. }
  pose proof (pop_law (rx c)) as Hp. destruct (pop (rx c)) as [[e' ch]|] eqn:Epop; [|congruence].
  destruct Hp as (Hb' & _ & Hal'). rewrite <- Hb in Hb'. injection Hb' as <- Hb'.
  cbn [length replicate concat app run].
  assert (act w (Take i) = Some (set_cell w i (mkCell (c_id c) ch (first_missed c) (queued_bytes c) (Some e) (offered c) (deliveries c)))) as ->.
  { unfold act. rewrite Hc. cbn [mbind option_bind]. unfold take_. rewrite Hr, Epop, Hal. by destruct (lock w). }
  cbn [mbind option_bind]. set (w1 := set_cell w i _).
  assert (cells w1 !! i = Some (mkCell (c_id c) ch (first_missed c) (queued_bytes c) (Some e) (offered c) (deliveries c))) as Hc1
    by (cbn; rewrite list_lookup_insert_eq; [done|by eapply lookup_lt_Some]).
  assert (∃ c2, act w1 (Finish i) = Some (set_cell w1 i c2) ∧ rx c2 = ch ∧ receiving c2 = None ∧
            deliveries c2 = deliveries c ++ [Event e] ∧ first_missed c2 = first_missed c) as (c2 & -> & Hrx & Hr2 & Hd2 & Hf2).
  { unfold act. rewrite Hc1. cbn [mbind option_bind finish receiving].
    destruct (lock w1); (eexists; split; [reflexivity|done]). }
  cbn [mbind option_bind].
  destruct (IH (set_cell w1 i c2) c2) as (w' & c' & Hrun & Hc' & Hbuf & Hr' & Hal2 & Hd' & Hf' & Hsub).
  - by rewrite Hrx.
  - cbn. rewrite list_lookup_insert_eq; [done|]. rewrite length_insert. by eapply lookup_lt_Some.
  - done.
  - by rewrite Hrx, Hal'.
  - exists w', c'. split_and!; [done..|rewrite Hd', Hd2, fmap_cons, <- app_assoc; done|congruence|done].
Qed.

(** A lagging connection is told: once the fan-out that missed it is over, its
    subscription is gone, and its receiver gets everything still queued, in order,
    and then [Lagged] with the ordinal it missed. *)
Theorem lagging_connection_is_told (w : World) (i : nat) (c : Cell) :
  Reachable w → lock w = None → cells w !! i = Some c → first_missed c ≠ 0 →
  receiving c = None → receiver_alive (rx c) = true →
  ∃ w' c',
    run w (concat (replicate (length (buffered (rx c))) [Take i; Finish i]) ++ [End_ i]) = Some w' ∧
    cells w' !! i = Some c' ∧
    deliveries c' = deliveries c ++ (Event <$> buffered (rx c)) ++ [Lagged (first_missed c)].
Proof.
  intros Hw Hl Hc Hfm Hr Hal. pose proof (reachable_bus_inv w Hw) as Hi.
  assert (has_sender w i = false) as Hns.
  { apply not_true_iff_false. intros (s & Hs & Heq%bool_decide_eq_true)%existsb_exists. apply list_elem_of_In in Hs.
    destruct (inv_subscriber _ Hi s Hs) as (d & Hd & _ & _ & Hlag). simplify_eq.
    specialize (Hlag Hfm). unfold is_lagged in Hlag. by rewrite Hl in Hlag. }
  destruct (drain_run w i c Hc Hr Hal) as (w1 & c1 & Hrun & Hc1 & Hb & Hr1 & Hal1 & Hd & Hf & Hsub).
  assert (∀ l l' w0 w1, run w0 l = Some w1 → run w0 (l ++ l') = run w1 l') as Happ.
  { induction l as [|a l IH]; intros l' w0 w2; cbn [run app]; [by intros [= ->]|].
    destruct (act w0 a); [cbn; apply IH|done]. }
  rewrite (Happ _ _ _ _ Hrun). cbn [run].
  assert (end_of_stream w1 i c1 = Some (mkCell (c_id c1) (rx c1) (first_missed c1) (queued_bytes c1) None (offered c1)
            (deliveries c1 ++ [terminal_delivery c1]))) as He.
  { unfold end_of_stream. pose proof (pop_law (rx c1)) as Hp. rewrite Hr1.
    destruct (pop (rx c1)) as [[]|]; [destruct Hp as [Hp _]; congruence|].
    assert (has_sender w1 i = has_sender w i) as -> by (unfold has_sender; by rewrite Hsub). by rewrite Hns, Hal1. }
  assert (act w1 (End_ i) = Some (set_cell w1 i (mkCell (c_id c1) (rx c1) (first_missed c1) (queued_bytes c1) None (offered c1)
            (deliveries c1 ++ [terminal_delivery c1])))) as ->.
  { unfold act. rewrite Hc1. cbn [mbind option_bind]. rewrite He. by destruct (lock w1). }
  cbn [mbind option_bind]. eexists _, _. split; [done|]. cbn [cells set_cell].
  rewrite list_lookup_insert_eq by (by eapply lookup_lt_Some). split; [done|]. cbn [deliveries].
  unfold terminal_delivery. rewrite Hf, Hd, (proj2 (Z.eqb_neq _ _)) by done. by rewrite <- app_assoc.
Qed.

End Bus.

(** ** A channel, and schedules on it *)

Record Queue {E : Type} := mkQueue { q_items : list E; q_capacity : Z; q_alive : bool }.
#[global] Arguments Queue : clear implicits.
#[global] Arguments mkQueue {E}.

#[export] Instance QueueChannel : @Channel unit unit.
Proof.
  refine {|
    chan := Queue EventEnvelope;
    channel n := mkQueue [] n true;
    try_send c e := if q_alive c && (len (q_items c) <? q_capacity c)
                    then Some (mkQueue (q_items c ++ [e]) (q_capacity c) true) else None;
    pop c := match q_items c with e :: es => Some (e, mkQueue es (q_capacity c) (q_alive c)) | [] => None end;
    close c := mkQueue (q_items c) (q_capacity c) false;
    buffered := q_items; capacity := q_capacity; receiver_alive := q_alive |}.
  - done.
  - intros [l n a] e. cbn. destruct a, (len l <? n) eqn:E; cbn; boolify; auto.
  - by intros [[|e l] n a].
  - done.
Defined.

Definition flat (n : Z) : @EventDraft unit unit := mkDraft (chars "tick") tt n Broadcast None AllAuthenticated None None.
Definition publish_one : list (@Action unit unit) := [Lock 0; Visit; Send; Account; Unlock].
Definition node (id : Z) : @Action unit unit := Subscribe id Node [] 0 None.
Definition after (schedule : list (@Action unit unit)) : @World unit unit QueueChannel := default (bus_new []) (run 2 10 (bus_new [filter_default]) schedule).

Ltac all_sized := cbn [app publish_one node]; repeat (apply Forall_cons; split; [done|]); apply Forall_nil.

Lemma after_reachable (schedule : list (@Action unit unit)) :
  Forall sized schedule → is_Some (run 2 10 (bus_new [filter_default]) schedule) → Reachable 2 10 (after schedule).
Proof. intros Hs [w Hw]. exists [filter_default], schedule. unfold after. by rewrite Hw. Qed.

(** Registering a connection again and then dropping its old subscription, which
    the new one replaced, ends the new one. *)
Example dropping_the_replaced_subscription_ends_the_new_one :
  let w := after [node 7; node 7; Drop 0; End_ 1] in
  subscribers w = [] ∧ (deliveries <$> cells w !! 1%nat) = Some [Closed].
Proof. vm_compute. by split. Qed.

(** An empty queue can refuse an envelope: the receiver has taken the last one but
    has not yet lowered the byte counter. *)
Example empty_queue_refuses :
  let w := after ([node 7; Begin (flat 8)] ++ publish_one ++ [Take 0; Begin (flat 8); Lock 0; Visit]) in
  (λ c, (buffered (rx c), first_missed c)) <$> cells w !! 0%nat = Some ([], 2).
Proof. vm_compute. done. Qed.

(** Two publishers can enter the lock in the other order of their ordinals. *)
Example ordinals_can_arrive_out_of_order :
  let w := after ([node 7; Begin (flat 1); Begin (flat 1); Lock 1; Visit; Send; Account; Unlock] ++ publish_one) in
  (λ c, ordinal <$> buffered (rx c)) <$> cells w !! 0%nat = Some [2; 1].
Proof. vm_compute. done. Qed.

(** *** Witnesses *)

Definition lagged_world : @World unit unit QueueChannel :=
  after ([node 7; Begin (flat 8)] ++ publish_one ++ [Begin (flat 8); Lock 0; Visit; Unlock]).
Definition lagged_cell : @Cell unit unit QueueChannel := mkCell 7 (mkQueue [mkEnvelope (flat 8) 1] 2 true) 2 8 None
  [mkEnvelope (flat 8) 1; mkEnvelope (flat 8) 2] [].

Lemma lagged_world_reachable : Reachable 2 10 lagged_world.
Proof. apply after_reachable; [by all_sized|vm_compute; by eexists]. Qed.

Lemma events_no_silent_gap_witness :
  cells lagged_world !! 0%nat = Some lagged_cell ∧
  ∃ missed, offered lagged_cell = events_of (deliveries lagged_cell) ++ held lagged_cell ++ missed.
Proof.
  split; [by vm_compute|].
  destruct (events_no_silent_gap 2 10 ltac:(done) ltac:(done) lagged_world 0 lagged_cell lagged_world_reachable
    ltac:(by vm_compute)) as [(missed & Hm & _) _]. by exists missed.
Defined.

Lemma event_queue_bounded_witness : len (buffered (rx lagged_cell)) ≤ 2.
Proof.
  apply (event_queue_bounded 2 10 ltac:(done) ltac:(done) lagged_world 0 lagged_cell lagged_world_reachable).
  by vm_compute.
Defined.

Definition idle_cell : @Cell unit unit QueueChannel := mkCell 7 (mkQueue [] 2 true) 0 0 None [] [].
Definition sent_cell : @Cell unit unit QueueChannel :=
  mkCell 7 (mkQueue [mkEnvelope (flat 8) 1] 2 true) 0 0 None [mkEnvelope (flat 8) 1] [].
Definition sending_world : @World unit unit QueueChannel := after [node 7; Begin (flat 8); Lock 0; Visit].

Lemma events_reach_entitled_only_witness :
  ∃ f s, lock sending_world = Some f ∧ envelope f = mkEnvelope (flat 8) 1 ∧ s ∈ subscribers sending_world ∧ s_role s = Node.
Proof.
  assert (Reachable 2 10 sending_world) as Hw by (apply after_reachable; [by all_sized|vm_compute; by eexists]).
  destruct (events_reach_entitled_only 2 10 ltac:(done) ltac:(done) sending_world Send
    (default (bus_new []) (act 2 10 sending_world Send)) 0
    idle_cell sent_cell
    (mkEnvelope (flat 8) 1) Hw ltac:(by vm_compute) ltac:(by vm_compute) ltac:(by vm_compute) eq_refl)
    as (f & s & Hl & He & Hs & _). exists f, s. split_and!; [done..|].
  apply list_elem_of_In in Hs. vm_compute in Hs. by destruct Hs as [<-|[]].
Defined.

Definition visiting_world : @World unit unit QueueChannel := after [node 7; Begin (flat 8); Lock 0].

Lemma fanout_decides_witness : ∃ w', act 2 10 visiting_world Visit = Some w'.
Proof.
  assert (Reachable 2 10 visiting_world) as Hw by (apply after_reachable; [by all_sized|vm_compute; by eexists]).
  destruct (fanout_decides 2 10 ltac:(done) ltac:(done) visiting_world (mkEnvelope (flat 8) 1) (mkSubscriber 7 None Node [] 0 0) [] []
    filter_default idle_cell Hw ltac:(by vm_compute) ltac:(by vm_compute) ltac:(by vm_compute))
    as (w' & Hw' & _). by exists w'.
Defined.

Lemma lagging_connection_is_told_witness :
  ∃ w' c', cells w' !! 0%nat = Some c' ∧ deliveries c' = [Event (mkEnvelope (flat 8) 1); Lagged 2].
Proof.
  destruct (lagging_connection_is_told 2 10 ltac:(done) ltac:(done) lagged_world 0 lagged_cell lagged_world_reachable
    ltac:(by vm_compute) ltac:(by vm_compute) ltac:(done) eq_refl eq_refl) as (w' & c' & _ & Hc & Hd).
  by exists w', c'.
Defined.

End Events.
