(* ===== verification/GatewaySession.v ===== *)
(** * Gateway sessions

    Models what a live gateway connection relies on after its handshake:
    - [crates/claw-gateway/src/authority.rs]: the directory of paired devices, its
      generation counter and its leases ([Directory]);
    - [crates/claw-gateway/src/connection.rs]: re-checking a session's authority
      ([check], [read_grant]) and writing an event to the wire ([deliver]);
    - [crates/claw-protocol/src/gateway/codec.rs]: the client's sequence check
      ([observe]).

    A change of the directory is two steps, the write under the lock and the bump
    of the counter before the lock is released, and a re-check is two steps, the
    load of the counter without the lock and the read of the grant with it; they
    interleave in any order. *)

From S2P Require Import Prelude Utf8 Text Events.

Module Session.
Import Events.

(** ** The directory *)

Record Grant := mkGrant { g_role : Role; g_scopes : list OperatorScope }.

(** A grant and the identity of its cancellation token. *)
Record DeviceGrant := mkDeviceGrant { grant : Grant; cancellation : nat }.

(** [writing] holds between a write and its bump. [committed] is the content of
    the directory as of the last bump; no operation reads it. *)
Record Directory := mkDirectory {
  generation : Z;
  grants : gmap str DeviceGrant;
  writing : bool;
  next_token : nat;
  cancelled : gset nat;
  committed : gmap str DeviceGrant;
}.

Definition directory_new : Directory := mkDirectory 0 ∅ false 0 ∅ ∅.

Definition cancel_previous (d : Directory) (device : str) : gset nat :=
  match grants d !! device with Some previous => {[cancellation previous]} ∪ cancelled d | None => cancelled d end.

Definition pair (d : Directory) (device : str) (g : Grant) : option Directory :=
  if writing d then None
  else Some (mkDirectory (generation d) (<[device := mkDeviceGrant g (next_token d)]> (grants d)) true
               (S (next_token d)) (cancel_previous d device) (committed d)).

(** Revoking a device that is not paired changes nothing, the counter included. *)
Definition revoke (d : Directory) (device : str) : option Directory :=
  if writing d then None
  else
    match grants d !! device with
    | None => Some d
    | Some _ => Some (mkDirectory (generation d) (delete device (grants d)) true (next_token d)
                        (cancel_previous d device) (committed d))
    end.

Definition bump (d : Directory) : option Directory :=
  if writing d
  then Some (mkDirectory (wrap_add u64_max (generation d) 1) (grants d) false (next_token d) (cancelled d) (grants d))
  else None.

(** Readers wait for the writer. *)
Definition current_grant (d : Directory) (device : str) : option (option Grant) :=
  if writing d then None else Some (grant <$> grants d !! device).

(** The token of a lease, when the device is paired. *)
Definition current_lease (d : Directory) (device : str) : option (option nat) :=
  if writing d then None else Some (cancellation <$> grants d !! device).

(** ** Re-checking a session *)

Record Session := mkSession {
  role : Role;
  scopes : list OperatorScope;
  device : str;
  authorized_at : Z;
}.

(** A connection outside [revalidate], inside it after loading the counter, or
    closed with [AuthorizationRevoked]. *)
Inductive Phase := Ready | Loaded (generation : Z) | RevokedPhase.

(** [fanout] is the role and the scopes the event bus holds for the connection. *)
Record World := mkWorld {
  directory : Directory;
  session : Session;
  fanout : Role * list OperatorScope;
  phase : Phase;
}.

Inductive Action := PairDevice (device : str) (g : Grant) | RevokeDevice (device : str) | Bump | Check | ReadGrant.

(** [let generation = ...; if generation == session.authorized_at { return Ok(()) }] *)
Definition check (w : World) : option World :=
  match phase w with
  | Ready =>
      let g := generation (directory w) in
      Some (mkWorld (directory w) (session w) (fanout w) (if g =? authorized_at (session w) then Ready else Loaded g))
  | _ => None
  end.

(** The rest of [revalidate]: a narrowed session is re-authorized on the event
    bus ([Events.reauthorize]). *)
Definition read_grant (w : World) : option World :=
  match phase w with
  | Loaded g =>
      r ← current_grant (directory w) (device (session w));
      match r with
      | None => Some (mkWorld (directory w) (session w) (fanout w) RevokedPhase)
      | Some gr =>
          if decide (g_role gr = role (session w)) then
            let retained := filter (λ s, s ∈ g_scopes gr) (scopes (session w)) in
            let narrowed := negb (bool_decide (length retained = length (scopes (session w)))) in
            Some (mkWorld (directory w) (mkSession (role (session w)) retained (device (session w)) g)
              (if narrowed then (role (session w), retained) else fanout w) Ready)
          else Some (mkWorld (directory w) (session w) (fanout w) RevokedPhase)
      end
  | _ => None
  end.

Definition with_directory (w : World) (d : option Directory) : option World :=
  d ← d; Some (mkWorld d (session w) (fanout w) (phase w)).

Definition act (w : World) (a : Action) : option World :=
  match a with
  | PairDevice dev g => with_directory w (pair (directory w) dev g)
  | RevokeDevice dev => with_directory w (revoke (directory w) dev)
  | Bump => with_directory w (bump (directory w))
  | Check => check w
  | ReadGrant => read_grant w
  end.

Fixpoint run (w : World) (schedule : list Action) : option World :=
  match schedule with
  | [] => Some w
  | a :: schedule => w ← act w a; run w schedule
  end.

(** [revalidate] returns [Ok] with this step. *)
Definition returns_ok (a : Action) (w' : World) : Prop := (a = Check ∨ a = ReadGrant) ∧ phase w' = Ready.

(** The session claims no more than the directory grants its device. *)
Definition within (m : gmap str DeviceGrant) (s : Session) : Prop :=
  ∃ g, m !! device s = Some g ∧ g_role (grant g) = role s ∧ scopes s ⊆ g_scopes (grant g).

(** A session as the handshake leaves it: its counter was loaded before its grant
    was read. *)
Definition Connected (w : World) : Prop :=
  writing (directory w) = false ∧ committed (directory w) = grants (directory w) ∧
  0 ≤ authorized_at (session w) ≤ generation (directory w) ∧
  within (grants (directory w)) (session w) ∧
  fanout w = (role (session w), scopes (session w)) ∧ phase w = Ready.

(** What holds after any interleaving. *)
Record Inv (w : World) : Prop := {
  inv_committed : writing (directory w) = false → committed (directory w) = grants (directory w);
  inv_stamp : 0 ≤ authorized_at (session w) ≤ generation (directory w);
  inv_within : authorized_at (session w) = generation (directory w) → phase w ≠ RevokedPhase →
    within (committed (directory w)) (session w);
  inv_loaded : ∀ g, phase w = Loaded g → 0 ≤ g ≤ generation (directory w);
  inv_fanout : fanout w = (role (session w), scopes (session w));
}.

Lemma filter_same_length {A} (P : A → Prop) `{∀ x, Decision (P x)} (l : list A) :
  length (filter P l) = length l → filter P l = l.
Proof.
  induction l as [|x l IH]; [done|]. destruct (decide (P x)) as [Hx|Hx].
  - rewrite filter_cons_True by done. cbn. intros [= Hl]. by rewrite IH.
  - rewrite filter_cons_False by done. pose proof (length_filter P l). cbn. lia.
Qed.

Lemma inv_act w a w' : Inv w → generation (directory w) < u64_max → act w a = Some w' →
  Inv w' ∧ generation (directory w') ≤ generation (directory w) + 1 ∧
  scopes (session w') `sublist_of` scopes (session w) ∧
  (returns_ok a w' → within (committed (directory w')) (session w')).
Proof.
  intros [Hc Hs Hw Hl Hf] Hg Ha.
  assert (∀ d', generation d' = generation (directory w) → committed d' = committed (directory w) →
    (writing d' = false → committed d' = grants d') → Inv (mkWorld d' (session w) (fanout w) (phase w))) as Hdir.
  { intros d' Heq Hcm Hcw. constructor; cbn [directory session phase]; rewrite ?Heq, ?Hcm; try done. by rewrite <- Hcm. }
  destruct a as [dev g|dev| | |]; cbn [act] in Ha.
  - unfold pair in Ha. destruct (writing (directory w)) eqn:E; [done|]. cbn in Ha. injection Ha as <-.
    split_and!; [by apply Hdir|cbn; lia|done|by intros [[]]].
  - unfold revoke in Ha. destruct (writing (directory w)) eqn:E; [done|].
    destruct (grants (directory w) !! dev); cbn in Ha; injection Ha as <-.
    + split_and!; [by apply Hdir|cbn; lia|done|by intros [[]]].
    + split_and!; [by apply Hdir; auto|cbn; lia|done|by intros [[]]].
  - unfold bump in Ha. destruct (writing (directory w)) eqn:E; [|done]. cbn in Ha. injection Ha as <-.
    assert (wrap_add u64_max (generation (directory w)) 1 = generation (directory w) + 1) as Hwr
      by (unfold wrap_add; apply Z.mod_small; lia).
    split_and!; [|cbn [directory generation]; lia|done|by intros [[]]].
    constructor; cbn [directory session phase generation committed grants]; rewrite ?Hwr; [done|lia|lia| |done].
    intros g Hp. specialize (Hl g Hp). lia.
  - unfold check in Ha. destruct (phase w) eqn:Ep; [|done|done]. injection Ha as <-. cbn [directory].
    destruct (Z.eqb_spec (generation (directory w)) (authorized_at (session w))) as [Heq|Hne].
    + split_and!; [|lia|done|intros _; cbn; by apply Hw]. constructor; cbn [directory session phase]; try done.
    + split_and!; [|lia|done|by intros [_ ?]]. constructor; cbn [directory session phase]; try done.
      intros g [= <-]. lia.
  - unfold read_grant in Ha. destruct (phase w) as [|g|] eqn:Ep; [done| |done]. unfold current_grant in Ha.
    destruct (writing (directory w)) eqn:E; [done|]. cbn [mbind option_bind] in Ha.
    specialize (Hl g eq_refl).
    assert (Inv (mkWorld (directory w) (session w) (fanout w) RevokedPhase)) as Hrev by (constructor; cbn; auto; done).
    destruct (grants (directory w) !! device (session w)) as [dg|] eqn:Eg; cbn in Ha.
    2: { injection Ha as <-. split_and!; [done|cbn; lia|done|by intros [_ ?]]. }
    destruct (decide _) as [Er|]; injection Ha as <-.
    2: { split_and!; [done|cbn; lia|done|by intros [_ ?]]. }
    assert (within (committed (directory w)) (mkSession (role (session w))
      (filter (λ s, s ∈ g_scopes (grant dg)) (scopes (session w))) (device (session w)) g)) as Hwi.
    { exists dg. cbn. rewrite (Hc eq_refl). split_and!; [done|done|].
      intros s Hsin. by apply list_elem_of_filter in Hsin as []. }
    split_and!; [|cbn; lia|cbn; apply sublist_filter|done].
    constructor; cbn [directory session phase fanout authorized_at role scopes]; auto; [done|].
    case_bool_decide as Hlen; cbn [negb]; [|done]. by rewrite Hf, (filter_same_length _ _ Hlen).
Qed.

Lemma run_inv w schedule w' :
  Inv w → generation (directory w) + len schedule ≤ u64_max → run w schedule = Some w' →
  Inv w' ∧ generation (directory w') ≤ generation (directory w) + len schedule ∧
  scopes (session w') `sublist_of` scopes (session w).
Proof.
  revert w. induction schedule as [|a schedule IH]; intros w Hi Hg Hr; cbn [run] in Hr.
  { injection Hr as <-. split_and!; [done|rewrite len_nil; lia|done]. }
  rewrite len_cons in *. pose proof (len_nonneg schedule).
  destruct (act w a) as [w1|] eqn:Ea; [|done].
  destruct (inv_act w a w1 Hi ltac:(lia) Ea) as (Hi1 & Hg1 & Hs1 & _).
  destruct (IH w1 Hi1 ltac:(lia) Hr) as (Hi2 & Hg2 & Hs2). split_and!; [done|lia|by etrans].
Qed.

(** C14. Authority is current: however changes to the device directory interleave
    with a connection's re-checks, whenever a re-check lets the connection act,
    its role is the one granted and its scopes are among those granted by the
    directory as of the last completed change, they are a part of what it held
    before, and the event bus fans out to it with exactly them; fewer changes than the counter has values are assumed. *)
Theorem session_authority_current (w0 : World) (schedule : list Action) (w : World) (a : Action) (w' : World) :
  Connected w0 → generation (directory w0) + len schedule < u64_max →
  run w0 schedule = Some w → act w a = Some w' → returns_ok a w' →
  within (committed (directory w')) (session w') ∧ scopes (session w') `sublist_of` scopes (session w0) ∧
  fanout w' = (role (session w'), scopes (session w')).
Proof.
  intros (Hwr & Hco & Hst & Hwi & Hfa & Hph) Hg Hr Ha Hok.
  assert (Inv w0) as Hi by (constructor; [done|done|by rewrite Hco|by rewrite Hph|done]).
  destruct (run_inv w0 schedule w Hi ltac:(lia) Hr) as (Hi1 & Hg1 & Hs1).
  destruct (inv_act w a w' Hi1 ltac:(lia) Ha) as ([] & _ & Hs2 & Hw). split_and!; [by apply Hw|by etrans|done].
Qed.

(** ** Leases *)

(** Tokens are never reused, and exactly those of replaced or removed grants are
    cancelled. *)
Record Tokens (d : Directory) : Prop := {
  tokens_fresh : ∀ dev g, grants d !! dev = Some g → (cancellation g < next_token d)%nat;
  tokens_cancelled : ∀ t, t ∈ cancelled d → (t < next_token d)%nat;
  tokens_live : ∀ dev g, grants d !! dev = Some g → cancellation g ∉ cancelled d;
  tokens_inj : ∀ dev dev' g g', grants d !! dev = Some g → grants d !! dev' = Some g' →
    cancellation g = cancellation g' → dev = dev';
}.

Definition change (d : Directory) (a : Action) : option Directory :=
  match a with
  | PairDevice dev g => pair d dev g
  | RevokeDevice dev => revoke d dev
  | Bump => bump d
  | _ => Some d
  end.

Fixpoint changes (d : Directory) (l : list Action) : option Directory :=
  match l with [] => Some d | a :: l => d ← change d a; changes d l end.

(** What a change does to a lease on [dev] with token [t]. *)
Definition LeaseOk (dev : str) (g : DeviceGrant) (d : Directory) : Prop :=
  (cancellation g < next_token d)%nat ∧ (cancellation g ∉ cancelled d ↔ grants d !! dev = Some g) ∧
  ∀ dev' g', grants d !! dev' = Some g' → cancellation g' = cancellation g → dev' = dev ∧ g' = g.

Lemma tokens_change d a d' :
  Tokens d → change d a = Some d' → Tokens d' ∧ ∀ dev g, LeaseOk dev g d → LeaseOk dev g d'.
Proof.
  intros [Hf Hc Hl Hi] Ha. unfold LeaseOk. destruct a as [dev gr|dev| | |]; cbn [change] in Ha.
  - unfold pair in Ha. destruct (writing d); [done|]. injection Ha as <-. unfold cancel_previous.
    assert (∀ t, t ∈ (match grants d !! dev with Some p => {[cancellation p]} ∪ cancelled d | None => cancelled d end) ↔
      t ∈ cancelled d ∨ ∃ p, grants d !! dev = Some p ∧ cancellation p = t) as Hcan.
    { intros t. destruct (grants d !! dev) as [p|]; set_solver. }
    split.
    + constructor; cbn [grants cancelled next_token].
      * intros x g. rewrite lookup_insert_Some. intros [[<- <-]|[_ Hg]]; cbn; [lia|]. specialize (Hf _ _ Hg). lia.
      * intros t. rewrite Hcan. intros [Ht|(p & Hp & <-)]; [specialize (Hc _ Ht)|specialize (Hf _ _ Hp)]; lia.
      * intros x g. rewrite lookup_insert_Some, Hcan. intros [[<- <-]|[Hne Hg]] [Ht|(p & Hp & Heq)]; cbn in *.
        -- specialize (Hc _ Ht). lia.
        -- specialize (Hf _ _ Hp). lia.
        -- by destruct (Hl _ _ Hg).
        -- by destruct Hne; eapply Hi.
      * intros x x' g g'. rewrite !lookup_insert_Some. intros [[<- <-]|[Hne Hg]] [[<- <-]|[Hne' Hg']] Heq; cbn in *; [done| | |by eapply Hi].
        -- specialize (Hf _ _ Hg'). lia.
        -- specialize (Hf _ _ Hg). lia.
    + intros x g (Hlt & Hiff & Huni). cbn [grants cancelled next_token]. split_and!; [lia| |].
      * rewrite Hcan, lookup_insert_Some. split.
        -- intros Hn. right. assert (grants d !! x = Some g) as Hg by (apply Hiff; tauto).
           split; [|done]. intros ->. destruct Hn. right. by exists g.
        -- intros [[<- <-]|[Hne Hg]] [Ht|(p & Hp & Heq)]; cbn in *; [lia|lia|by apply Hiff in Hg|].
           destruct (Huni _ _ Hp Heq) as [-> _]. done.
      * intros x' g'. rewrite lookup_insert_Some. intros [[<- <-]|[Hne Hg']] Heq; cbn in *; [lia|by apply Huni].
  - unfold revoke in Ha. destruct (writing d); [done|].
    destruct (grants d !! dev) as [p|] eqn:Ep; injection Ha as <-; [|by split; [|done]].
    unfold cancel_previous. rewrite Ep. split.
    + constructor; cbn [grants cancelled next_token].
      * intros x g [_ Hg]%lookup_delete_Some. by eapply Hf.
      * intros t [->%elem_of_singleton|Ht]%elem_of_union; [by eapply Hf|by apply Hc].
      * intros x g [Hne Hg]%lookup_delete_Some [Heq%elem_of_singleton|Ht]%elem_of_union; [|by eapply Hl].
        by destruct Hne; eapply Hi.
      * intros x x' g g' [_ Hg]%lookup_delete_Some [_ Hg']%lookup_delete_Some. by eapply Hi.
    + intros x g (Hlt & Hiff & Huni). cbn [grants cancelled next_token]. split_and!; [done| |].
      * rewrite not_elem_of_union, not_elem_of_singleton, lookup_delete_Some, Hiff. split.
        -- intros [Hne Hg]. split; [|done]. intros ->. congruence.
        -- intros [Hne Hg]. split; [|done]. intros Heq. destruct (Huni _ _ Ep (eq_sym Heq)) as [-> _]. done.
      * intros x' g' [_ Hg']%lookup_delete_Some. by apply Huni.
  - unfold bump in Ha. destruct (writing d); [|done]. injection Ha as <-. split; [by constructor|done].
  - injection Ha as <-. split; [by constructor|done].
  - injection Ha as <-. split; [by constructor|done].
Qed.

(** A lease lives exactly as long as its grant: from any state of the directory
    that its operations produce, and through any later changes, the cancellation
    token of a captured lease stays uncancelled if and only if the very entry it
    was captured from, not a later pairing of the same device, is still in the
    directory. *)
Theorem lease_lives_with_its_grant (before after : list Action) (d d' : Directory) (dev : str) (g : DeviceGrant) :
  changes directory_new before = Some d → grants d !! dev = Some g → changes d after = Some d' →
  cancellation g ∉ cancelled d' ↔ grants d' !! dev = Some g.
Proof.
  assert (∀ l d d', Tokens d → changes d l = Some d' → Tokens d' ∧ ∀ dev g, LeaseOk dev g d → LeaseOk dev g d') as Hrun.
  { induction l as [|a l IH]; intros e e' Ht; cbn [changes]; [by intros [= <-]|].
    destruct (change e a) as [e1|] eqn:E; [|done]. intros Hr. destruct (tokens_change _ _ _ Ht E) as [Ht1 Hl1].
    destruct (IH e1 e' Ht1 Hr) as [Ht2 Hl2]. split; [done|]. intros x y Hx. by apply Hl2, Hl1. }
  intros Hb Hg Ha.
  destruct (Hrun before directory_new d) as [Ht _]; [|done|].
  { constructor; cbn; [by intros ?? ?%lookup_empty_Some|set_solver|by intros ?? ?%lookup_empty_Some|by intros ???? ?%lookup_empty_Some]. }
  destruct (Hrun after d d' Ht Ha) as [_ Hl]. destruct (Hl dev g) as (_ & Hiff & _); [|done].
  destruct Ht as [Hf Hc Hlv Hi]. split_and!; [by eapply Hf|split; [done|intros _; by eapply Hlv]|].
  intros dev' g' Hg' Heq. assert (dev' = dev) as -> by by eapply Hi. by simplify_eq.
Qed.

(** ** Writing events *)

Section Wire.
Context {Payload StateVersion : Type}.
Notation Envelope := (@EventEnvelope Payload StateVersion).

(** A frame: the envelope and the sequence number it carries. *)
Definition Frame : Type := Envelope * option Z.

Inductive Close := SlowConsumer (dropped : Z) | ServerShutdown | ProtocolViolation.

(** [deliver], with the frame it writes when it writes one and the next value of
    [broadcast_seq]; the transport's own failures are left out. *)
Definition deliver (s : Session) (last_ordinal broadcast_seq : Z) (d : @Delivery Payload StateVersion)
  : result Close (option Frame) * Z :=
  match d with
  | Event e =>
      if negb (visibility_admits (visibility (draft e)) (role s) (scopes s)) then (Ok None, broadcast_seq)
      else
        let seq := sat_add u64_max broadcast_seq 1 in
        if seq <? 1 then (Err ProtocolViolation, seq) else (Ok (Some (e, frame_sequence e seq)), seq)
  | Lagged first_missed => (Err (SlowConsumer (sat_add u64_max (sat_sub last_ordinal first_missed) 1)), broadcast_seq)
  | Closed => (Err ServerShutdown, broadcast_seq)
  end.

(** The frames a connection writes for a stream of events. *)
Fixpoint deliver_all (s : Session) (seq : Z) (es : list Envelope) : list Frame :=
  match es with
  | [] => []
  | e :: es =>
      match deliver s 0 seq (Event e) with
      | (Ok (Some f), seq) => f :: deliver_all s seq es
      | (Ok None, seq) => deliver_all s seq es
      | (Err _, _) => []
      end
  end.

(** The client's [EventSequenceTracker]. *)
Inductive EventSequenceError := Gap (expected received : Z) | NonMonotonic (last received : Z) | Overflow (last : Z).

Definition observe (last : option Z) (sequence : option Z) : result EventSequenceError unit * option Z :=
  match sequence with
  | None => (Ok tt, last)
  | Some received =>
      match match last with
            | None => Ok 1
            | Some l => if l =? u64_max then Err (Overflow l) else Ok (l + 1)
            end with
      | Err e => (Err e, last)
      | Ok expected =>
          if expected <? received then (Err (Gap expected received), Some received)
          else if received <? expected then (Err (NonMonotonic (default 0 last) received), last)
          else (Ok tt, Some received)
      end
  end.

(** Observing frame after frame, to the first failure. *)
Fixpoint observe_all (last : option Z) (seqs : list (option Z)) : result EventSequenceError (option Z) :=
  match seqs with
  | [] => Ok last
  | q :: seqs =>
      match observe last q with
      | (Ok _, last) => observe_all last seqs
      | (Err e, _) => Err e
      end
  end.

Definition numbers (seqs : list (option Z)) : list Z := omap id seqs.

(** The tracker accepts exactly the consecutive streams. *)
Lemma observe_all_ok last seqs :
  match last with None => True | Some l => 1 ≤ l ≤ u64_max end → Forall (λ n, 1 ≤ n ≤ u64_max) (numbers seqs) →
  (∃ r, observe_all last seqs = Ok r) ↔ numbers seqs = seqZ (default 0 last + 1) (len (numbers seqs)).
Proof.
  revert last. induction seqs as [|q seqs IH]; intros last Hl Hn; cbn [observe_all].
  { split; [done|by eexists]. }
  destruct q as [n|]; [|by apply IH].
  unfold numbers in *. cbn [omap list_omap id] in *. apply Forall_cons in Hn as [Hn Hns].
  rewrite len_cons, seqZ_cons by (pose proof (len_nonneg (omap id seqs)); lia).
  replace (Z.pred (1 + len (omap id seqs))) with (len (omap id seqs)) by lia.
  replace (Z.succ (default 0 last + 1)) with (default 0 (Some (default 0 last + 1)) + 1) by (cbn; lia).
  assert (observe last (Some n) = (Ok tt, Some n) ∧ n = default 0 last + 1 ∨
          (∃ e l, observe last (Some n) = (Err e, l)) ∧ n ≠ default 0 last + 1) as [[-> Heq]|[(e & l & ->) Hne]].
  { unfold observe. destruct last as [l|]; cbn.
    - destruct (Z.eqb_spec l u64_max); [right; split; [by eexists _, _|lia]|].
      destruct (_ <? n) eqn:E1; boolify; [right; split; [by eexists _, _|lia]|].
      destruct (n <? _) eqn:E2; boolify; [right; split; [by eexists _, _|lia]|]. left. split; [done|lia].
    - destruct (1 <? n) eqn:E1; boolify; [right; split; [by eexists _, _|lia]|].
      destruct (n <? 1) eqn:E2; boolify; [right; split; [by eexists _, _|lia]|]. left. split; [done|lia]. }
  - rewrite <- Heq, IH by done. cbn. split; [intros Hx; by f_equal|intros Hx; by injection Hx].
  - split; [by intros [? ?]|]. intros [= ? _]. done.
Qed.

(** Only broadcasts advance the stream as long as nothing targeted is written. *)
Lemma deliver_all_numbers s seq es :
  0 ≤ seq → seq + len es ≤ u64_max → Forall (λ e, audience (draft e) = Broadcast) es →
  numbers (deliver_all s seq es).*2 = seqZ (seq + 1) (len (deliver_all s seq es)) ∧ len (deliver_all s seq es) ≤ len es.
Proof.
  intros Hs Hle Hb. revert seq Hs Hle. induction Hb as [|e es He Hb IH]; intros seq Hs Hle; [done|].
  rewrite len_cons in *. pose proof (len_nonneg es). cbn [deliver_all deliver].
  destruct (negb _); [destruct (IH seq); [lia|lia|]; split; [done|lia]|].
  unfold sat_add. rewrite Z.min_l by lia. rewrite (proj2 (Z.ltb_ge _ _)) by lia.
  destruct (IH (seq + 1)) as [IH1 IH2]; [lia|lia|]. rewrite len_cons. split; [|lia].
  rewrite fmap_cons. cbn [snd]. unfold frame_sequence. rewrite He. unfold numbers in *. cbn [omap list_omap id].
  rewrite seqZ_cons by (pose proof (len_nonneg (deliver_all s (seq + 1) es)); lia). f_equal.
  rewrite IH1. f_equal; lia.
Qed.

(** What a connection writes is visible to it: every frame is one of the
    events it was handed, in their order, and its session's role and scopes admit
    it; and a stream of broadcasts reaches the client with consecutive sequence
    numbers from one, which its tracker accepts to the end. *)
Theorem wire_stream_sound (s : Session) (es : list Envelope) :
  len es ≤ u64_max →
  (deliver_all s 0 es).*1 `sublist_of` es ∧
  Forall (λ f, visibility_admits (visibility (draft f.1)) (role s) (scopes s) = true) (deliver_all s 0 es) ∧
  (Forall (λ e, audience (draft e) = Broadcast) es → ∃ r, observe_all None (deliver_all s 0 es).*2 = Ok r).
Proof.
  intros Hle. split_and!.
  - generalize 0. clear Hle. induction es as [|e es IH]; intros seq; [done|]. cbn [deliver_all deliver].
    destruct (negb _); [by apply sublist_cons|]. destruct (_ <? _); [apply sublist_nil_l|].
    rewrite fmap_cons. cbn [fst]. by apply sublist_skip.
  - generalize 0. clear Hle. induction es as [|e es IH]; intros seq; [constructor|]. cbn [deliver_all deliver].
    destruct (visibility_admits _ _ _) eqn:E; cbn [negb]; [|done].
    destruct (_ <? _); [constructor|]. by constructor.
  - intros Hb. destruct (deliver_all_numbers s 0 es) as [Hn Hl]; [lia|lia|done|].
    apply observe_all_ok; [done| |].
    + rewrite Hn. apply Forall_forall. intros n Hin%elem_of_seqZ. lia.
    + cbn [default]. rewrite Hn at 1. f_equal. rewrite Hn. unfold len at 2. rewrite length_seqZ.
      pose proof (len_nonneg (deliver_all s 0 es)). lia.
Qed.

(** The client misses nothing silently: its tracker accepts a stream to the end
    exactly when the numbered frames carry 1, 2, 3 and so on without a gap, a
    repetition or a step back. *)
Theorem tracker_accepts_consecutive (seqs : list (option Z)) :
  Forall (λ n, 1 ≤ n ≤ u64_max) (numbers seqs) →
  (∃ r, observe_all None seqs = Ok r) ↔ numbers seqs = seqZ 1 (len (numbers seqs)).
Proof. intros Hn. by apply (observe_all_ok None). Qed.

End Wire.

(** A targeted event takes a number it does not carry, so the next broadcast of
    the same connection looks to the client as if one had been lost. *)
Definition to_node (a : EventAudience) (n : str) : @EventEnvelope unit unit :=
  mkEnvelope (mkDraft n tt 1 a None AllAuthenticated None None) 1.

Example targeted_event_breaks_sequence :
  observe_all None (deliver_all (mkSession Node [] [] 0) 0
    [to_node (Connection 7) (chars "node.invoke.request"); to_node Broadcast (chars "tick")]).*2 = Err (Gap 1 2).
Proof. vm_compute. reflexivity. Qed.

(** ** Witnesses *)

Definition sample_directory : Directory :=
  let entry := mkDeviceGrant (mkGrant Operator [Read; Write]) 0 in
  mkDirectory 1 {[chars "dev" := entry]} false 1 ∅ {[chars "dev" := entry]}.
Definition sample_world : World := mkWorld sample_directory (mkSession Operator [Read; Write] (chars "dev") 1)
  (Operator, [Read; Write]) Ready.
Definition narrowing : list Action := [PairDevice (chars "dev") (mkGrant Operator [Read]); Bump; Check].

Lemma session_authority_current_witness :
  ∃ w', act (default sample_world (run sample_world narrowing)) ReadGrant = Some w' ∧
    fanout w' = (Operator, [Read]) ∧ within (committed (directory w')) (session w').
Proof.
  eexists. split; [vm_compute; reflexivity|]. split; [done|].
  eapply (session_authority_current sample_world narrowing (default sample_world (run sample_world narrowing)) ReadGrant).
  - split_and!; [done|done|done|done| |done|done]. eexists. split; [by vm_compute|]. by split.
  - done.
  - vm_compute. reflexivity.
  - vm_compute. reflexivity.
  - split; [by right|done].
Defined.

Lemma lease_lives_with_its_grant_witness :
  0%nat ∈ cancelled (default directory_new (changes directory_new
    [PairDevice (chars "d") (mkGrant Node []); Bump; PairDevice (chars "d") (mkGrant Node [])])).
Proof.
  pose proof (lease_lives_with_its_grant [PairDevice (chars "d") (mkGrant Node []); Bump] [PairDevice (chars "d") (mkGrant Node [])]
    _ _ (chars "d") (mkDeviceGrant (mkGrant Node []) 0) ltac:(vm_compute; reflexivity) ltac:(vm_compute; reflexivity)
    ltac:(vm_compute; reflexivity)) as Hiff.
  apply dec_stable. intros Hn. apply Hiff in Hn. by vm_compute in Hn.
Defined.

Lemma wire_stream_sound_witness :
  ∃ r, observe_all None (deliver_all (mkSession Node [] [] 0) 0 [to_node Broadcast (chars "tick"); to_node Broadcast (chars "tick")]).*2 = Ok r.
Proof. apply wire_stream_sound; [done|]. by repeat constructor. Defined.

Lemma tracker_accepts_consecutive_witness : ∃ r, observe_all None [Some 1; None; Some 2] = Ok r.
Proof. apply tracker_accepts_consecutive; [|done]. repeat constructor; done. Defined.

End Session.
