(* ===== verification/Goals.v ===== *)
(** * Durable goals: values, transitions, budget and file format

    Models the values of [crates/claw-application/src/model/goal.rs] and, of
    [crates/claw-goals/src], the status machine ([transition.rs]), the ceilings of a
    session ([budget.rs]) and the encoding of a goal file ([wire.rs]). [serde_json]
    is the class [GoalJson]: the texts it prints and how it reads them back. *)

From S2P Require Import Prelude Utf8 Text Approval.

Module Goals.

(** ** Values *)

Inductive GoalStatus := Active | Achieved | Abandoned | Failed | Superseded.

#[export] Instance GoalStatus_eq_dec : EqDecision GoalStatus.
Proof. solve_decision. Defined.

(** [GoalStatus::ALL] *)
Definition ALL : list GoalStatus := [Active; Achieved; Abandoned; Failed; Superseded].

Definition label (s : GoalStatus) : str :=
  match s with
  | Active => chars "active"
  | Achieved => chars "achieved"
  | Abandoned => chars "abandoned"
  | Failed => chars "failed"
  | Superseded => chars "superseded"
  end.

Definition is_closed (s : GoalStatus) : bool := match s with Active => false | _ => true end.

(** Timestamps are milliseconds. *)
Record GoalProgress := mkProgress { index : Z; note : str; recorded_at : Z; compacted : bool }.

#[export] Instance GoalProgress_eq_dec : EqDecision GoalProgress.
Proof. solve_decision. Defined.

Record GoalRecord := mkGoal {
  goal_id : str;
  session_id : str;
  objective : str;
  status : GoalStatus;
  progress : list GoalProgress;
  created_at : Z;
  updated_at : Z;
  closed_at : option Z;
  compacted_entries : Z;
  revision : Z;
}.

#[export] Instance GoalRecord_eq_dec : EqDecision GoalRecord.
Proof. solve_decision. Defined.

(** [GoalId::new], with the text of its error. *)
Definition goal_id_new (value : str) : result str str :=
  match Approval.parse_identifier value with
  | Ok id => Ok id
  | Err reason => Err (chars "invalid goal id: " ++ reason)
  end.

(** [SessionId::new] of [claw-domain], with the text of its error. *)
Definition MAX_SESSION_ID_BYTES : Z := 128.

Definition session_id_new (value : str) : result str str :=
  let value := trim value in
  let refuse reason := Err (chars "invalid session id: " ++ reason) in
  if bool_decide (value = []) then refuse (chars "must not be empty")
  else if MAX_SESSION_ID_BYTES <? len (as_bytes value) then refuse (chars "is too long")
  else if existsb is_control value then refuse (chars "must not contain control characters")
  else Ok value.

(** ** The status machine *)

Inductive GoalOperation := RecordProgress | Close (s : GoalStatus) | Supersede.

Inductive TransitionError :=
| AlreadyClosed (held : GoalStatus) (attempted : GoalOperation)
| NotATerminalStatus (s : GoalStatus)
| Unreachable (from to : GoalStatus).

Definition legal_targets (from : GoalStatus) : list GoalStatus :=
  if is_closed from then [] else List.filter is_closed ALL.

Definition transition (from to : GoalStatus) : result TransitionError GoalStatus :=
  if is_closed from then Err (AlreadyClosed from (Close to))
  else if bool_decide (to ∈ legal_targets from) then Ok to
  else Err (Unreachable from to).

Definition admit_operation (current : GoalStatus) (operation : GoalOperation) : result TransitionError GoalStatus :=
  match operation with
  | Close s => if negb (is_closed s) then Err (NotATerminalStatus s)
               else if is_closed current then Err (AlreadyClosed current operation) else transition current s
  | RecordProgress => if is_closed current then Err (AlreadyClosed current operation) else Ok current
  | Supersede => if is_closed current then Err (AlreadyClosed current operation) else transition current Superseded
  end.

(** ** The budget *)

Record BudgetUsage := mkUsage { used_goals : Z; used_bytes : Z }.

Record GoalBudget := mkBudget { max_goals_per_session : Z; max_record_bytes : Z; max_session_bytes : Z }.

Definition budget_default : GoalBudget := mkBudget 64 (256 * 1024) (4 * 1024 * 1024).

Inductive BudgetError :=
| TooManyGoals (limit held : Z)
| RecordTooLarge (limit offered : Z)
| SessionBytesExhausted (limit held offered : Z).

(** [GoalBudget::admit] *)
Definition admit_record (b : GoalBudget) (held : BudgetUsage) (offered_bytes : Z) (is_new_goal : bool)
  : result BudgetError BudgetUsage :=
  if max_record_bytes b <? offered_bytes then Err (RecordTooLarge (max_record_bytes b) offered_bytes)
  else if is_new_goal && (max_goals_per_session b <=? used_goals held) then
    Err (TooManyGoals (max_goals_per_session b) (used_goals held))
  else
    let goals := if is_new_goal then sat_add u64_max (used_goals held) 1 else used_goals held in
    let bytes := sat_add u64_max (used_bytes held) offered_bytes in
    if max_session_bytes b <? bytes then
      Err (SessionBytesExhausted (max_session_bytes b) (used_bytes held) offered_bytes)
    else Ok (mkUsage goals bytes).

(** ** The file format *)

Definition SCHEMA_VERSION : Z := 1.

Record ProgressEnvelope := mkProgressEnvelope {
  pe_index : Z;
  pe_note : str;
  pe_recorded_at_millis : Z;
  pe_compacted : bool;
}.

Record GoalEnvelope := mkGoalEnvelope {
  ge_schema : Z;
  ge_goal_id : str;
  ge_session_id : str;
  ge_objective : str;
  ge_status : str;
  ge_created_at_millis : Z;
  ge_updated_at_millis : Z;
  ge_closed_at_millis : option Z;
  ge_compacted_entries : Z;
  ge_revision : Z;
  ge_progress : list ProgressEnvelope;
}.

Inductive WireError :=
| Malformed (detail : str)
| UnsupportedSchema (expected found : Z)
| InvalidField (field reason : str).

Definition status_from_label (l : str) : option GoalStatus :=
  List.find (λ s, bool_decide (label s = l)) ALL.

(** [serde_json::to_string_pretty] and [serde_json::from_str] at the type of the
    envelope: what is printed, also with a newline after it, reads back as the value
    printed. *)
Class GoalJson := {
  goal_to_string : GoalEnvelope → result str str;
  goal_from_str : str → result str GoalEnvelope;
  goal_json_roundtrip e t : goal_to_string e = Ok t → goal_from_str (t ++ [0x0A]) = Ok e;
}.

Definition progress_envelope (p : GoalProgress) : ProgressEnvelope :=
  mkProgressEnvelope (index p) (note p) (recorded_at p) (compacted p).

Definition envelope_of (r : GoalRecord) : GoalEnvelope :=
  mkGoalEnvelope SCHEMA_VERSION (goal_id r) (session_id r) (objective r) (label (status r))
    (created_at r) (updated_at r) (closed_at r) (compacted_entries r) (revision r)
    (progress_envelope <$> progress r).

(** The loop over the progress entries. *)
Fixpoint decode_progress (previous : option Z) (entries : list ProgressEnvelope)
  : result WireError (list GoalProgress) :=
  match entries with
  | [] => Ok []
  | e :: entries =>
      if match previous with Some p => pe_index e <=? p | None => false end then
        Err (InvalidField (chars "progress") (chars "indices must strictly increase"))
      else if bool_decide (trim (pe_note e) = []) then
        Err (InvalidField (chars "progress") (chars "a note must not be blank"))
      else
        rest ← decode_progress (Some (pe_index e)) entries;
        Ok (mkProgress (pe_index e) (pe_note e) (pe_recorded_at_millis e) (pe_compacted e) :: rest)
  end.

Section Wire.
Context `{GJ : GoalJson}.

Definition encode (r : GoalRecord) : result WireError str :=
  match goal_to_string (envelope_of r) with
  | Ok text => Ok (text ++ [0x0A])
  | Err detail => Err (Malformed detail)
  end.

Definition decode (text : str) : result WireError GoalRecord :=
  match goal_from_str text with
  | Err detail => Err (Malformed detail)
  | Ok e =>
      if negb (ge_schema e =? SCHEMA_VERSION) then Err (UnsupportedSchema SCHEMA_VERSION (ge_schema e))
      else
        gid ← match goal_id_new (ge_goal_id e) with
              | Ok id => Ok id | Err m => Err (InvalidField (chars "goal_id") m) end;
        sid ← match session_id_new (ge_session_id e) with
              | Ok id => Ok id | Err m => Err (InvalidField (chars "session_id") m) end;
        if bool_decide (trim (ge_objective e) = []) then
          Err (InvalidField (chars "objective") (chars "must not be blank"))
        else if ge_revision e =? 0 then Err (InvalidField (chars "revision") (chars "must be at least 1"))
        else
          st ← ok_or (InvalidField (chars "status") (chars "unknown status " ++ ge_status e))
                 (status_from_label (ge_status e));
          if is_closed st && bool_decide (ge_closed_at_millis e = None) then
            Err (InvalidField (chars "closed_at_millis") (chars "a closed goal must carry one"))
          else if negb (is_closed st) && bool_decide (ge_closed_at_millis e ≠ None) then
            Err (InvalidField (chars "closed_at_millis") (chars "an active goal must not carry one"))
          else
            ps ← decode_progress None (ge_progress e);
            Ok (mkGoal gid sid (ge_objective e) st ps (ge_created_at_millis e) (ge_updated_at_millis e)
                  (ge_closed_at_millis e) (ge_compacted_entries e) (ge_revision e))
  end.

(** ** What a goal file may hold *)

(** The indices of a progress history increase strictly from [previous] on, and no
    note is blank. *)
Fixpoint progress_ok (previous : option Z) (ps : list GoalProgress) : Prop :=
  match ps with
  | [] => True
  | p :: ps =>
      match previous with Some i => i < index p | None => True end ∧ trim (note p) ≠ [] ∧
      progress_ok (Some (index p)) ps
  end.

(** The invariants of a goal: valid identifiers, an objective, a revision, a closing
    time exactly when closed, an ordered history. *)
Record wf_goal (r : GoalRecord) : Prop := {
  wf_goal_id : goal_id_new (goal_id r) = Ok (goal_id r);
  wf_session_id : session_id_new (session_id r) = Ok (session_id r);
  wf_objective : trim (objective r) ≠ [];
  wf_revision : revision r ≠ 0;
  wf_closed : is_closed (status r) = bool_decide (closed_at r ≠ None);
  wf_progress : progress_ok None (progress r);
}.

Lemma status_label s : status_from_label (label s) = Some s.
Proof. by destruct s. Qed.

Lemma decode_progress_ok previous es ps :
  decode_progress previous es = Ok ps ↔ es = progress_envelope <$> ps ∧ progress_ok previous ps.
Proof.
  revert previous ps. induction es as [|e es IH]; intros previous ps; cbn [decode_progress].
  { destruct ps; cbn; naive_solver. }
  split.
  - destruct (match previous with Some p => _ | None => _ end) eqn:Ep; [done|].
    case_bool_decide as Hb; [done|]. intros H. inv_ok.
    apply IH in H as [-> Hok]. split; [by destruct e|]. cbn. split_and!; [|done|done].
    destruct previous; [lia|done].
  - intros [He Hok]. destruct ps as [|p ps]; [done|]. rewrite fmap_cons in He. injection He as -> Hes.
    destruct Hok as (Hp & Hn & Hok). cbn [pe_index pe_note progress_envelope].
    replace (match previous with Some p0 => index p <=? p0 | None => false end) with false
      by (destruct previous; [lia|done]).
    rewrite bool_decide_eq_false_2 by done. rewrite (proj2 (IH (Some (index p)) ps)) by done. by destruct p.
Qed.

Lemma goal_id_new_idem v id : goal_id_new v = Ok id → goal_id_new id = Ok id.
Proof.
  unfold goal_id_new, Approval.parse_identifier.
  destruct (bool_decide _) eqn:E1; [done|]. destruct (_ <? _) eqn:E2; [done|].
  destruct (existsb _ _) eqn:E3; [done|]. intros [= <-]. by rewrite trim_idem, E1, E2, E3.
Qed.

Lemma session_id_new_idem v id : session_id_new v = Ok id → session_id_new id = Ok id.
Proof.
  unfold session_id_new.
  destruct (bool_decide _) eqn:E1; [done|]. destruct (_ <? _) eqn:E2; [done|].
  destruct (existsb _ _) eqn:E3; [done|]. intros [= <-]. by rewrite trim_idem, E1, E2, E3.
Qed.

(** What [decode] accepts satisfies the invariants. *)
Lemma decode_wf text r : decode text = Ok r → wf_goal r.
Proof.
  unfold decode. destruct (goal_from_str text) as [e|]; [|done].
  destruct (negb _); [done|]. intros H.
  destruct (goal_id_new (ge_goal_id e)) as [gid|] eqn:Eg; [cbn [mbind result_bind ok_or] in H|done].
  destruct (session_id_new (ge_session_id e)) as [sid|] eqn:Es; [cbn [mbind result_bind ok_or] in H|done].
  case_bool_decide as Ho; [done|]. destruct (_ =? 0) eqn:Er; [done|].
  destruct (status_from_label _) as [st|]; [cbn [mbind result_bind ok_or] in H|done].
  destruct (is_closed st && _) eqn:E1; [done|]. destruct (negb (is_closed st) && _) eqn:E2; [done|].
  inv_ok. boolify. apply decode_progress_ok in H as [_ Hp].
  constructor; cbn [goal_id session_id objective revision status closed_at progress]; try done.
  - by eapply goal_id_new_idem.
  - by eapply session_id_new_idem.
  - destruct (is_closed st), (ge_closed_at_millis e); done.
Qed.

(** What [encode] writes for such a goal [decode] reads back. *)
Lemma goal_decode_encode r text : wf_goal r → encode r = Ok text → decode text = Ok r.
Proof.
  intros [Hg Hs Ho Hr Hc Hp] He. unfold encode in He.
  destruct (goal_to_string _) as [t|] eqn:Et; [|done]. injection He as <-.
  unfold decode. rewrite (goal_json_roundtrip _ _ Et).
  cbn [ge_schema ge_goal_id ge_session_id ge_objective ge_revision ge_status ge_closed_at_millis ge_progress
    envelope_of]. rewrite Hg, Hs. cbn [mbind result_bind ok_or]. rewrite bool_decide_eq_false_2 by done.
  replace (revision r =? 0) with false by lia. rewrite status_label. cbn [mbind result_bind ok_or]. rewrite Hc.
  replace (_ && bool_decide (closed_at r = None)) with false by by destruct (closed_at r).
  replace (negb _ && _) with false by by destruct (closed_at r).
  rewrite (proj2 (decode_progress_ok None _ (progress r))) by done. by destruct r.
Qed.

(** The goal file format: a goal that satisfies the invariants and could be
    encoded is decoded to exactly itself, and whatever file is accepted, also one
    the store did not write, satisfies the invariants: valid identifiers, a
    non-blank objective, a positive revision, a closing time exactly on a closed
    goal and strictly increasing progress. *)
Theorem goal_file_format :
  (∀ r text, wf_goal r → encode r = Ok text → decode text = Ok r) ∧
  (∀ text r, decode text = Ok r → wf_goal r).
Proof. split; [apply goal_decode_encode|apply decode_wf]. Qed.

End Wire.

(** ** Transitions *)

(** The declarative machine: only the active status moves, and only to a closed
    one. *)
Inductive Moves : GoalStatus → GoalOperation → GoalStatus → Prop :=
| moves_progress : Moves Active RecordProgress Active
| moves_close s : is_closed s = true → Moves Active (Close s) s
| moves_supersede : Moves Active Supersede Superseded.

(** The status machine is exactly: progress keeps an active goal active, a close
    ends an active goal with the closed status asked for, a supersession ends it as
    superseded, and nothing leaves a closed status. *)
Theorem admit_operation_moves (current : GoalStatus) (operation : GoalOperation) (next : GoalStatus) :
  admit_operation current operation = Ok next ↔ Moves current operation next.
Proof.
  split.
  - destruct current, operation as [|[]|]; intros [=]; subst; by constructor.
  - destruct 1 as [|s Hs|]; [done| |done]. by destruct s.
Qed.

(** ** Budget *)

Lemma admit_record_Ok b held offered is_new u :
  0 ≤ used_bytes held → 0 ≤ offered → max_session_bytes b < u64_max →
  max_goals_per_session b ≤ u64_max → admit_record b held offered is_new = Ok u →
  offered ≤ max_record_bytes b ∧ used_bytes held + offered ≤ max_session_bytes b ∧
  used_bytes u = used_bytes held + offered ∧
  (if is_new then used_goals held < max_goals_per_session b ∧ used_goals u = used_goals held + 1
   else used_goals u = used_goals held).
Proof.
  intros Hb Ho Hm Hg. unfold admit_record, sat_add. destruct (_ <? offered) eqn:E1; [done|].
  destruct (is_new && _) eqn:E2; [done|]. destruct (_ <? Z.min _ _) eqn:E3; [done|].
  intros [= <-]. cbn. boolify. split_and!; [lia|lia|lia|].
  destruct is_new; [cbn in E2; boolify; lia|done].
Qed.

End Goals.
