(* ===== verification/GoalDisk.v ===== *)
(** * The disk under the goal store

    What [crates/claw-goals/src/store.rs] uses of [std::fs] and its atomic counters,
    with what a process crash and a power cut leave behind. A directory is the part
    that has reached the disk ([base]) and the changes of its entries that may not
    have ([log]); a file knows whether its contents were flushed, and a directory
    whether it exists and whether its own entry in the store's root has reached the
    disk, which no call of the source ever asks for ([made]). Operations of the
    source are programs ([Prog]) over the calls of this file: each call is answered
    by [perform], the environment choosing between success and failure, and a
    program may be cut short between any two calls.

    [safe] is the logic used on programs: an invariant at every point where the
    process can die, and a postcondition where the program returns. *)

From S2P Require Import Prelude Utf8 Text.

Module Disk.

(** ** Directories *)

Record File := mkFile { data : str; synced : bool }.

(** A change of the entries of a directory. *)
Inductive DirOp :=
| Put (n : str) (f : File)
| Del (n : str)
| Mv (from to : str) (f : File).

Definition apply_op (m : gmap str File) (op : DirOp) : gmap str File :=
  match op with
  | Put n f => <[n := f]> m
  | Del n => delete n m
  | Mv from to f => <[to := f]> (delete from m)
  end.

(** The directory itself: not there, created but its entry in the parent not
    flushed, or on the disk for good. *)
Inductive Made := Missing | Unflushed | Durable.

#[export] Instance Made_eq_dec : EqDecision Made.
Proof. solve_decision. Defined.

Record Dir := mkDir { base : gmap str File; log : list DirOp; made : Made }.

Definition no_dir : Dir := mkDir ∅ [] Missing.

(** [fs::create_dir_all]: nothing is flushed, neither the new directory nor the
    parent that names it. *)
Definition make_dir (d : Dir) : Dir := match made d with Missing => mkDir (base d) (log d) Unflushed | _ => d end.

(** What a running process sees. *)
Definition view (d : Dir) : gmap str File := foldl apply_op (base d) (log d).

Definition push_op (d : Dir) (op : DirOp) : Dir := mkDir (base d) (log d ++ [op]) (made d).

(** [File::open(directory)?.sync_all()]: the entries of the directory, not the
    directory's own entry in its parent. *)
Definition flush_dir (d : Dir) : Dir := mkDir (view d) [] (made d).

(** The changes a power cut lets through: any of them. *)
Fixpoint kept (keep : list bool) (ops : list DirOp) : list DirOp :=
  match keep, ops with
  | b :: keep, op :: ops => if b then op :: kept keep ops else kept keep ops
  | _, _ => []
  end.

(** A file whose contents were not flushed comes back with any contents. *)
Definition settle (junk : str → str) (n : str) (f : File) : option File :=
  Some (if synced f then f else mkFile (junk n) true).

(** Whether the directory is still there; [lose] is the environment's choice for one
    whose own entry was not flushed. *)
Definition survives (lose : bool) (m : Made) : bool :=
  match m with Missing => false | Unflushed => negb lose | Durable => true end.

Definition cut_power (lose : bool) (keep : list bool) (junk : str → str) (d : Dir) : Dir :=
  if survives lose (made d)
  then mkDir (map_imap (settle junk) (foldl apply_op (base d) (kept keep (log d)))) [] Durable
  else no_dir.

(** ** Calls *)

Inductive DirName := GoalsDir | SessionsDir.

#[export] Instance DirName_eq_dec : EqDecision DirName.
Proof. solve_decision. Defined.

Inductive Counter := Sequence | AcceptedWrites | SyncedPublications | UnsyncedPublications | UnlockFailures.

(** The atomics of one open store, and the process it lives in. *)
Record Instance_ := mkInstance {
  pid : Z;
  sequence : Z;
  accepted_writes : Z;
  synced_publications : Z;
  unsynced_publications : Z;
  unlock_failures : Z;
}.

Record World := mkWorld { goals_dir : Dir; sessions_dir : Dir; inst : Instance_ }.

Definition dir_of (w : World) (d : DirName) : Dir :=
  match d with GoalsDir => goals_dir w | SessionsDir => sessions_dir w end.

Definition set_dir (w : World) (d : DirName) (x : Dir) : World :=
  match d with
  | GoalsDir => mkWorld x (sessions_dir w) (inst w)
  | SessionsDir => mkWorld (goals_dir w) x (inst w)
  end.

Inductive IoError := NotFound | WouldBlock | OtherIo.

Inductive Call :=
| CreateDirAll (d : DirName)
| OpenLock
| TryLock
| Unlock
| ProcessId
| FetchAdd (c : Counter)
| Create (d : DirName) (n : str)
| WriteAll (d : DirName) (n : str) (s : str)
| SyncFile (d : DirName) (n : str)
| Rename (d : DirName) (from to : str)
| Remove (d : DirName) (n : str)
| SyncDir (d : DirName)
| ReadText (d : DirName) (n : str)
| Metadata (d : DirName) (n : str)
| ReadDir (d : DirName).

Definition ans (o : Call) : Type :=
  match o with
  | ProcessId | FetchAdd _ | Metadata _ _ => Z
  | ReadText _ _ => str
  | ReadDir _ => list str
  | _ => unit
  end.

(** How the environment answers a call: it succeeds, it fails (a failed write leaves
    a part of its bytes), or the lock is held by another process. *)
Inductive Choice := Fine | Fail (partial : str) | Contended.

Definition fails (c : Choice) : option str := match c with Fail partial => Some partial | _ => None end.

Definition counter (i : Instance_) (c : Counter) : Z :=
  match c with
  | Sequence => sequence i
  | AcceptedWrites => accepted_writes i
  | SyncedPublications => synced_publications i
  | UnsyncedPublications => unsynced_publications i
  | UnlockFailures => unlock_failures i
  end.

Definition bump_counter (i : Instance_) (c : Counter) : Instance_ :=
  let up x := wrap_add u64_max x 1 in
  match c with
  | Sequence => mkInstance (pid i) (up (sequence i)) (accepted_writes i) (synced_publications i)
                  (unsynced_publications i) (unlock_failures i)
  | AcceptedWrites => mkInstance (pid i) (sequence i) (up (accepted_writes i)) (synced_publications i)
                  (unsynced_publications i) (unlock_failures i)
  | SyncedPublications => mkInstance (pid i) (sequence i) (accepted_writes i) (up (synced_publications i))
                  (unsynced_publications i) (unlock_failures i)
  | UnsyncedPublications => mkInstance (pid i) (sequence i) (accepted_writes i) (synced_publications i)
                  (up (unsynced_publications i)) (unlock_failures i)
  | UnlockFailures => mkInstance (pid i) (sequence i) (accepted_writes i) (synced_publications i)
                  (unsynced_publications i) (up (unlock_failures i))
  end.

Definition lookup_file (w : World) (d : DirName) (n : str) : option File := view (dir_of w d) !! n.

Definition change (w : World) (d : DirName) (op : DirOp) : World := set_dir w d (push_op (dir_of w d) op).

(** A call on an existing file. *)
Definition on_file {A} (w : World) (d : DirName) (n : str) (k : File → result IoError A * World)
  : result IoError A * World :=
  match lookup_file w d n with Some f => k f | None => (Err NotFound, w) end.

(** A call on an existing directory. *)
Definition in_dir {A} (w : World) (d : DirName) (k : result IoError A * World) : result IoError A * World :=
  match made (dir_of w d) with Missing => (Err NotFound, w) | _ => k end.

Definition perform (c : Choice) (o : Call) (w : World) : result IoError (ans o) * World :=
  match o return result IoError (ans o) * World with
  | ProcessId => (Ok (pid (inst w)), w)
  | FetchAdd k => (Ok (counter (inst w) k), mkWorld (goals_dir w) (sessions_dir w) (bump_counter (inst w) k))
  | TryLock => (match c with Fine => Ok tt | Contended => Err WouldBlock | Fail _ => Err OtherIo end, w)
  | CreateDirAll d =>
      match fails c with
      | None => (Ok tt, set_dir w d (make_dir (dir_of w d)))
      | Some _ => (Err OtherIo, w)
      end
  | OpenLock | Unlock => (match fails c with None => Ok tt | Some _ => Err OtherIo end, w)
  | Create d n =>
      in_dir w d (match fails c with
        | None => (Ok tt, change w d (Put n (mkFile [] false)))
        | Some _ => (Err OtherIo, w)
        end)
  | WriteAll d n s =>
      on_file w d n (λ f,
        match fails c with
        | None => (Ok tt, change w d (Put n (mkFile (data f ++ s) false)))
        | Some partial => (Err OtherIo, change w d (Put n (mkFile (data f ++ partial) false)))
        end)
  | SyncFile d n =>
      on_file w d n (λ f,
        match fails c with
        | None => (Ok tt, change w d (Put n (mkFile (data f) true)))
        | Some _ => (Err OtherIo, w)
        end)
  | Rename d from to =>
      on_file w d from (λ f,
        match fails c with
        | None => (Ok tt, change w d (Mv from to f))
        | Some _ => (Err OtherIo, w)
        end)
  | Remove d n =>
      on_file w d n (λ f,
        match fails c with
        | None => (Ok tt, change w d (Del n))
        | Some _ => (Err OtherIo, w)
        end)
  | SyncDir d =>
      in_dir w d (match fails c with
        | None => (Ok tt, set_dir w d (flush_dir (dir_of w d)))
        | Some _ => (Err OtherIo, w)
        end)
  | ReadText d n =>
      match fails c with
      | None => on_file w d n (λ f, (Ok (data f), w))
      | Some _ => (Err OtherIo, w)
      end
  | Metadata d n =>
      match fails c with
      | None => on_file w d n (λ f, (Ok (len (as_bytes (data f))), w))
      | Some _ => (Err OtherIo, w)
      end
  | ReadDir d =>
      in_dir w d (match fails c with
        | None => (Ok (map_to_list (view (dir_of w d))).*1, w)
        | Some _ => (Err OtherIo, w)
        end)
  end.

(** ** Programs *)

Inductive Prog (A : Type) : Type :=
| Ret (a : A)
| Do (o : Call) (k : result IoError (ans o) → Prog A).
Arguments Ret {A} a.
Arguments Do {A} o k.

Fixpoint pbind {A B} (p : Prog A) (k : A → Prog B) : Prog B :=
  match p with
  | Ret a => k a
  | Do o f => Do o (λ r, pbind (f r) k)
  end.

(** An execution under the environment's choices: where they run out the process
    dies. *)
Fixpoint exec {A} (cs : list Choice) (p : Prog A) (w : World) {struct p} : option A * list Choice * World :=
  match p with
  | Ret a => (Some a, cs, w)
  | Do o k =>
      match cs with
      | [] => (None, [], w)
      | c :: cs => let '(r, w) := perform c o w in exec cs (k r) w
      end
  end.

(** The execution in which nothing fails. *)
Fixpoint calm {A} (p : Prog A) (w : World) : A * World :=
  match p with
  | Ret a => (a, w)
  | Do o k => let '(r, w) := perform Fine o w in calm (k r) w
  end.

Lemma calm_bind {A B} (p : Prog A) (k : A → Prog B) w :
  calm (pbind p k) w = let '(a, w) := calm p w in calm (k a) w.
Proof.
  revert w. induction p as [a|o f IH]; intros w; cbn [pbind calm]; [done|]. destruct (perform _ _ _). apply IH.
Qed.

(** The calm execution is one of the executions. *)
Lemma calm_exec {A} (p : Prog A) w : ∃ n, exec (replicate n Fine) p w = (Some (calm p w).1, [], (calm p w).2).
Proof.
  revert w. induction p as [a|o f IH]; intros w; cbn [calm].
  - by exists 0%nat.
  - destruct (perform Fine o w) as [r w'] eqn:E. destruct (IH r w') as [n Hn].
    exists (S n). cbn [replicate exec]. by rewrite E.
Qed.

(** ** The logic

    [F] restricts the choices considered: all of them, or only successes. *)

Fixpoint safe {A} (F : Choice → Prop) (I : World → Prop) (p : Prog A) (w : World) (Q : A → World → Prop) : Prop :=
  I w ∧
  match p with
  | Ret a => Q a w
  | Do o k => ∀ c, F c → safe F I (k (perform c o w).1) (perform c o w).2 Q
  end.

(** Some call may fail. *)
Definition faulty (F : Choice → Prop) : Prop := ∃ c, F c ∧ c ≠ Fine.

Lemma safe_here {A} F I (p : Prog A) w Q : safe F I p w Q → I w.
Proof. by destruct p; intros []. Qed.

Lemma safe_impl {A} F (I J : World → Prop) (p : Prog A) w Q R :
  safe F I p w Q → (∀ w, I w → J w) → (∀ a w, I w → Q a w → R a w) → safe F J p w R.
Proof.
  intros Hs HI HQ. revert w Hs. induction p as [a|o f IH]; intros w [Hi Hk]; split; auto.
Qed.

Lemma safe_post {A} F I (p : Prog A) w (Q R : A → World → Prop) :
  safe F I p w Q → (∀ a w, I w → Q a w → R a w) → safe F I p w R.
Proof. intros Hs HQ. by eapply safe_impl. Qed.

Lemma safe_pbind {A B} F I (p : Prog A) (k : A → Prog B) w Q :
  safe F I p w (λ a w, safe F I (k a) w Q) → safe F I (pbind p k) w Q.
Proof. revert w. induction p as [a|o f IH]; intros w [Hi Hk]; cbn [pbind]; [done|]. split; auto. Qed.

Lemma safe_exec {A} F I (p : Prog A) w Q cs r cs' w' :
  safe F I p w Q → Forall F cs → exec cs p w = (r, cs', w') → I w' ∧ (∀ a, r = Some a → Q a w').
Proof.
  revert w cs. induction p as [a|o f IH]; intros w cs [Hi Hk] Hf He; cbn [exec] in He.
  - simplify_eq. split; [done|]. by intros ? [= <-].
  - destruct Hf as [|c cs Hc Hf]; [by simplify_eq|]. specialize (Hk c Hc).
    destruct (perform c o w) as [x w1]. by apply (IH x w1 cs).
Qed.

Lemma safe_calm {A} I (p : Prog A) w Q : safe (eq Fine) I p w Q → Q (calm p w).1 (calm p w).2 ∧ I (calm p w).2.
Proof.
  revert w. induction p as [a|o f IH]; intros w [Hi Hk]; cbn [calm]; [done|]. specialize (Hk Fine eq_refl).
  destruct (perform Fine o w). by apply IH.
Qed.

(** ** Directories that are there *)

Definition there (d : Dir) : Prop := made d ≠ Missing.

Lemma in_dir_there {A} w d (k : result IoError A * World) : there (dir_of w d) → in_dir w d k = k.
Proof. unfold in_dir, there. by destruct (made _). Qed.

(** Creating a directory that is there changes nothing. *)
Lemma make_dir_there d : there d → make_dir d = d.
Proof. unfold make_dir, there. by destruct (made d). Qed.

(** ** What a name may turn out to hold *)

(** The value a change gives to a name, if it touches it. *)
Definition op_sets (op : DirOp) (n : str) : option (option File) :=
  match op with
  | Put m f => if decide (n = m) then Some (Some f) else None
  | Del m => if decide (n = m) then Some None else None
  | Mv from to f => if decide (n = to) then Some (Some f) else if decide (n = from) then Some None else None
  end.

(** The values a name can have now or after a power cut. *)
Definition Cand (d : Dir) (n : str) (v : option File) : Prop :=
  base d !! n = v ∨ ∃ op, op ∈ log d ∧ op_sets op n = Some v.

Lemma apply_op_lookup m op n : apply_op m op !! n = default (m !! n) (op_sets op n).
Proof.
  destruct op as [k f|k|from to f]; cbn [apply_op op_sets].
  - destruct (decide (n = k)) as [->|]; cbn; by simplify_map_eq.
  - destruct (decide (n = k)) as [->|]; cbn; by simplify_map_eq.
  - destruct (decide (n = to)) as [->|]; cbn; [by simplify_map_eq|].
    destruct (decide (n = from)) as [->|]; cbn; by simplify_map_eq.
Qed.

Lemma apply_ops_lookup m ops n v :
  foldl apply_op m ops !! n = v → m !! n = v ∨ ∃ op, op ∈ ops ∧ op_sets op n = Some v.
Proof.
  revert m. induction ops as [|op ops IH]; intros m; cbn [foldl]; [by left|].
  intros [H|(op' & Hin & H)]%IH.
  - rewrite apply_op_lookup in H. destruct (op_sets op n) as [v'|] eqn:E; cbn in H; [|by left].
    right. exists op. subst v'. split; [left|done].
  - right. exists op'. split; [by right|done].
Qed.

Lemma view_Cand d n : Cand d n (view d !! n).
Proof. unfold Cand, view. by apply apply_ops_lookup. Qed.

Lemma view_push d op n : view (push_op d op) !! n = default (view d !! n) (op_sets op n).
Proof. unfold view, push_op. cbn. by rewrite foldl_app, <- apply_op_lookup. Qed.

Lemma Cand_push d op n v : Cand (push_op d op) n v → Cand d n v ∨ op_sets op n = Some v.
Proof.
  intros [H|(op' & Hin & H)]; [by left; left|]. cbn in Hin. apply elem_of_app in Hin as [Hin|Hin].
  - left. right. by exists op'.
  - apply list_elem_of_singleton in Hin as ->. by right.
Qed.

Lemma view_flush d : view (flush_dir d) = view d.
Proof. done. Qed.

Lemma Cand_flush d n v : Cand (flush_dir d) n v ↔ v = view d !! n.
Proof.
  split; [|intros ->; by left]. intros [<-|(op & Hin & _)]; [done|by apply not_elem_of_nil in Hin].
Qed.

Lemma kept_incl keep ops op : op ∈ kept keep ops → op ∈ ops.
Proof.
  revert ops. induction keep as [|b keep IH]; intros [|o ops] H; try by apply not_elem_of_nil in H.
  cbn in H. destruct b; [|right; by apply IH]. apply elem_of_cons in H as [->|H]; [left|right; by apply IH].
Qed.

(** After a power cut a name holds one of its possible values; unflushed contents
    are arbitrary. *)
Lemma Cand_cut lose keep junk d n v :
  survives lose (made d) = true → Cand (cut_power lose keep junk d) n v → ∃ v0, Cand d n v0 ∧ v = v0 ≫= settle junk n.
Proof.
  intros Hsv. unfold cut_power. rewrite Hsv.
  intros [H|(op & Hin & _)]; [|by apply not_elem_of_nil in Hin]. cbn in H. rewrite map_lookup_imap in H.
  eexists. split; [|by symmetry].
  destruct (apply_ops_lookup (base d) (kept keep (log d)) n _ eq_refl) as [Hb|(op & Hin & Hs)]; [by left|].
  right. exists op. split; [by eapply kept_incl|done].
Qed.

End Disk.
