(* ===== verification/GoalStore.v ===== *)
(** * The crash-safe goal store

    Models [crates/claw-goals/src/store.rs] over the disk of [GoalDisk]: one file
    per goal, one index file per session, every file replaced by a flushed temporary
    and a rename, recovery when the store is opened. The operations are programs;
    the lock that serializes them across processes is a call the environment may
    refuse. The directory flush is the one of Unix targets.

    SHA-256 and [serde_json] are classes with their documented behaviour. *)

From stdpp Require Import sorting.
From S2P Require Import Prelude Utf8 Text WorkerNames Approval Goals GoalDisk.

Module GoalStore.
Import Goals Disk.

(** ** Names *)

Definition RECORD_EXTENSION : str := chars "json".
Definition TEMP_PREFIX : str := chars "pending-".
Definition SESSION_INDEX_SCHEMA_VERSION : Z := 2.
Definition LEGACY_SESSION_INDEX_SCHEMA_VERSION : Z := 1.
Definition WRITE_LOCK_ATTEMPTS : nat := 64.

(** [Sha256::digest(value.as_bytes())]: different texts never collide. *)
Class Digest := {
  sha256_text : str → bytes;
  sha256_inj : Inj (=) (=) sha256_text;
  sha256_nonempty v : sha256_text v ≠ [];
}.

(** ** Indexes *)

Record SessionIndex := mkIndex {
  ix_schema : Z;
  ix_session_id : str;
  goal_ids : list str;
  goal_id_high_water : Z;
}.

Inductive SessionGoalIds := Legacy (ids : list str) | Durable (entries : list str) (high_water : Z).

Record SessionIndexEnvelope := mkIndexEnvelope {
  se_schema : Z;
  se_session_id : str;
  se_goal_ids : SessionGoalIds;
  se_goal_id_high_water : Z;
}.

Record DurableSessionIndex := mkDurableIndex {
  ds_schema : Z;
  ds_session_id : str;
  ds_entries : list str;
  ds_high_water : Z;
}.

(** [serde_json] at the index types: printing a structure of texts and numbers does
    not fail, and what is printed reads back, the absent field by its default. *)
Class IndexJson := {
  index_to_string : DurableSessionIndex → result str str;
  index_from_str : str → result str SessionIndexEnvelope;
  index_serializes d : is_ok (index_to_string d) = true;
  index_json_roundtrip d t :
    index_to_string d = Ok t →
    index_from_str (t ++ [0x0A]) =
      Ok (mkIndexEnvelope (ds_schema d) (ds_session_id d) (Durable (ds_entries d) (ds_high_water d)) 0);
}.

(** ** Errors and results *)

Inductive Path := At (d : DirName) (n : str) | DirPath (d : DirName) | LockPath.

Inductive StoreError :=
| Io (p : Path) (e : IoError)
| CommittedButNotDurable (p : Path) (e : IoError)
| Corrupt (p : Path) (e : WireError)
| Encoding (e : WireError)
| Conflict (expected held : Z)
| Busy (attempts : Z)
| Budget (e : BudgetError).

Record RecoveryReport := mkReport {
  discarded_partial_writes : Z;
  adopted_orphans : Z;
  pruned_dangling : Z;
}.

Record CompactionSummary := mkSummary {
  closed_goals_examined : Z;
  goals_rewritten : Z;
  progress_entries_removed : Z;
  reclaimed_bytes : Z;
  goal_ids_preserved : Z;
}.

(** A fallible program, with [?] as its bind. *)
Definition M (A : Type) : Type := Prog (result StoreError A).

#[export] Instance M_ret : MRet M := λ A a, Ret (Ok a).
#[export] Instance M_bind : MBind M :=
  λ A B k p, pbind p (λ r, match r with Ok a => k a | Err e => Ret (Err e) end).

Definition throw {A} (e : StoreError) : M A := Ret (Err e).

Definition lift {A} (r : result StoreError A) : M A := Ret r.

(** A call with [map_err(|error| io_error(path, error))?]. *)
Definition call (o : Call) (p : Path) : M (ans o) :=
  Do o (λ r, Ret match r with Ok a => Ok a | Err e => Err (Io p e) end).

(** ** The store *)

Section Store.
Context `{GJ : GoalJson} `{IJ : IndexJson} `{DG : Digest}.

Definition digest_of (value : str) : str := u8 <$> Names.encode_hex (sha256_text value).

Definition record_name (goal_id : str) : str := digest_of goal_id ++ chars "." ++ RECORD_EXTENSION.
Definition index_name (session_id : str) : str := digest_of session_id ++ chars "." ++ RECORD_EXTENSION.

Definition generated_goal_ordinal (session_id goal_id : str) : option Z :=
  rest ← strip_prefix session_id goal_id;
  digits ← strip_prefix (chars ":goal-") rest;
  parse_usize digits.

(** [path.extension()]: what follows the last dot, if something precedes it. *)
Definition extension (name : str) : option str :=
  match split_once (Z.eqb 0x2E) (reverse name) with
  | Some (ext, stem) => if bool_decide (stem = []) then None else Some (reverse ext)
  | None => None
  end.

Definition temporary (process ordinal : Z) : str := TEMP_PREFIX ++ dec process ++ chars "-" ++ dec ordinal.

Definition write_atomically (d : DirName) (n contents : str) : M unit :=
  Do (FetchAdd Sequence) (λ ordinal,
  Do ProcessId (λ process,
    let temporary :=
      temporary (match process with Ok z => z | Err _ => 0 end) (match ordinal with Ok z => z | Err _ => 0 end) in
    _ ← call (Create d temporary) (At d temporary);
    _ ← call (WriteAll d temporary contents) (At d temporary);
    _ ← call (SyncFile d temporary) (At d temporary);
    Do (Rename d temporary n) (λ r,
      match r with
      | Err error => Do (Remove d temporary) (λ _, throw (Io (At d n) error))
      | Ok _ =>
          Do (SyncDir d) (λ r,
            match r with
            | Ok _ => Do (FetchAdd SyncedPublications) (λ _, Ret (Ok tt))
            | Err source => Do (FetchAdd UnsyncedPublications) (λ _, throw (CommittedButNotDurable (At d n) source))
            end)
      end))).

Definition read_record_sized (n : str) : M (option (GoalRecord * Z)) :=
  Do (ReadText GoalsDir n) (λ r,
    match r with
    | Err NotFound => Ret (Ok None)
    | Err error => throw (Io (At GoalsDir n) error)
    | Ok text =>
        match decode text with
        | Ok record => Ret (Ok (Some (record, len (as_bytes text))))
        | Err source => throw (Corrupt (At GoalsDir n) source)
        end
    end).

Definition read_record_at (n : str) : M (option GoalRecord) :=
  r ← read_record_sized n; Ret (Ok (fst <$> r)).

Definition decode_index (n text : str) : result StoreError SessionIndex :=
  match index_from_str text with
  | Err m => Err (Corrupt (At SessionsDir n) (Malformed m))
  | Ok e =>
      match se_goal_ids e with
      | Legacy ids =>
          if se_schema e =? LEGACY_SESSION_INDEX_SCHEMA_VERSION then
            Ok (mkIndex (se_schema e) (se_session_id e) ids (se_goal_id_high_water e))
          else if negb (se_schema e =? SESSION_INDEX_SCHEMA_VERSION) then
            Err (Corrupt (At SessionsDir n) (UnsupportedSchema SESSION_INDEX_SCHEMA_VERSION (se_schema e)))
          else Err (Corrupt (At SessionsDir n) (Malformed (chars "session index payload does not match its schema")))
      | Durable entries high_water =>
          if se_schema e =? SESSION_INDEX_SCHEMA_VERSION then
            Ok (mkIndex (se_schema e) (se_session_id e) entries high_water)
          else Err (Corrupt (At SessionsDir n) (UnsupportedSchema SESSION_INDEX_SCHEMA_VERSION (se_schema e)))
      end
  end.

Definition empty_index (session_id : str) : SessionIndex := mkIndex SESSION_INDEX_SCHEMA_VERSION session_id [] 0.

Definition read_index (session_id : str) : M SessionIndex :=
  Do (ReadText SessionsDir (index_name session_id)) (λ r,
    match r with
    | Ok text => lift (decode_index (index_name session_id) text)
    | Err NotFound => Ret (Ok (empty_index session_id))
    | Err error => throw (Io (At SessionsDir (index_name session_id)) error)
    end).

Definition durable_of (ix : SessionIndex) : DurableSessionIndex :=
  mkDurableIndex SESSION_INDEX_SCHEMA_VERSION (ix_session_id ix) (goal_ids ix) (goal_id_high_water ix).

Definition write_index (ix : SessionIndex) : M unit :=
  match index_to_string (durable_of ix) with
  | Err m => throw (Encoding (Malformed m))
  | Ok text => write_atomically SessionsDir (index_name (ix_session_id ix)) (text ++ [0x0A])
  end.

(** [for attempt in 1..=WRITE_LOCK_ATTEMPTS], counted down. *)
Fixpoint acquire (tries : nat) : M unit :=
  match tries with
  | O => throw (Busy (Z.of_nat WRITE_LOCK_ATTEMPTS))
  | S tries =>
      Do TryLock (λ r,
        match r with
        | Ok _ => Ret (Ok tt)
        | Err WouldBlock =>
            match tries with O => throw (Busy (Z.of_nat WRITE_LOCK_ATTEMPTS)) | S _ => acquire tries end
        | Err error => throw (Io LockPath error)
        end)
  end.

(** The guard unlocks again when it is dropped unreleased. *)
Definition with_store_lock {A} (operation : M A) : M A :=
  _ ← acquire WRITE_LOCK_ATTEMPTS;
  pbind operation (λ outcome,
    Do Unlock (λ r,
      match r with
      | Ok _ => Ret outcome
      | Err _ => Do Unlock (λ _, Do (FetchAdd UnlockFailures) (λ _, Ret outcome))
      end)).

(** ** Usage *)

Fixpoint usage_loop (ids : list str) (usage : BudgetUsage) : M BudgetUsage :=
  match ids with
  | [] => Ret (Ok usage)
  | id :: ids =>
      Do (Metadata GoalsDir (record_name id)) (λ r,
        match r with
        | Ok bytes => usage_loop ids (mkUsage (used_goals usage) (sat_add u64_max (used_bytes usage) bytes))
        | Err NotFound => usage_loop ids usage
        | Err error => throw (Io (At GoalsDir (record_name id)) error)
        end)
  end.

Definition usage_of_index (ix : SessionIndex) : M BudgetUsage :=
  usage_loop (goal_ids ix) (mkUsage (len (goal_ids ix)) 0).

Definition usage (session_id : str) : M BudgetUsage :=
  with_store_lock (ix ← read_index session_id; usage_of_index ix).

(** ** Saving, reading *)

Definition next_high_water (session_id goal_id : str) (high_water : Z) : Z :=
  match generated_goal_ordinal session_id goal_id with
  | Some ordinal => Z.max high_water ordinal
  | None => high_water
  end.

Definition accept {A} (a : A) : M A := Do (FetchAdd AcceptedWrites) (λ _, Ret (Ok a)).

(** The body of [save_blocking] under the lock. *)
Definition save_locked (budget : GoalBudget) (record : GoalRecord) (encoded : str) : M unit :=
  let path := record_name (goal_id record) in
  existing ← read_record_sized path;
  ix ← read_index (session_id record);
  let is_new := negb (bool_decide (goal_id record ∈ goal_ids ix)) in
  let adopts := is_new && bool_decide ((fst <$> existing) = Some record) in
  let expected := match existing with Some (stored, _) => sat_add u64_max (revision stored) 1 | None => 1 end in
  if negb adopts && negb (revision record =? expected) then throw (Conflict expected (revision record))
  else
    held ← usage_of_index ix;
    let held :=
      if is_new then held
      else mkUsage (used_goals held) (sat_sub (used_bytes held) (match existing with Some (_, b) => b | None => 0 end)) in
    _ ← lift (match admit_record budget held (len (as_bytes encoded)) is_new with
              | Ok u => Ok u | Err e => Err (Budget e) end);
    _ ← (if adopts then Ret (Ok tt) else write_atomically GoalsDir path encoded : M unit);
    _ ← (if is_new then
           write_index (mkIndex (ix_schema ix) (ix_session_id ix) (goal_ids ix ++ [goal_id record])
             (next_high_water (session_id record) (goal_id record) (goal_id_high_water ix)))
         else Ret (Ok tt) : M unit);
    accept tt.

Definition save_blocking (budget : GoalBudget) (record : GoalRecord) : M unit :=
  match encode record with
  | Err e => throw (Encoding e)
  | Ok encoded => with_store_lock (save_locked budget record encoded)
  end.

Definition missing (id : str) : StoreError :=
  Corrupt (At GoalsDir (record_name id))
    (InvalidField (chars "goal_ids") (chars "the index names " ++ id ++ chars ", which no longer exists")).

Fixpoint list_loop (ids : list str) : M (list GoalRecord) :=
  match ids with
  | [] => Ret (Ok [])
  | id :: ids =>
      r ← read_record_at (record_name id);
      record ← lift (ok_or (missing id) r);
      rest ← list_loop ids;
      Ret (Ok (record :: rest))
  end.

Definition list_blocking (session_id : str) : M (list GoalRecord) :=
  with_store_lock (ix ← read_index session_id; list_loop (goal_ids ix)).

Definition next_goal_ordinal_blocking (session_id : str) : M Z :=
  with_store_lock (
    ix ← read_index session_id;
    if goal_id_high_water ix <? u64_max then Ret (Ok (goal_id_high_water ix + 1))
    else throw (Encoding (InvalidField (chars "goal_id_high_water") (chars "goal identifier space is exhausted")))).

(** Reading one goal takes no lock. *)
Definition load (goal_id : str) : M (option GoalRecord) := read_record_at (record_name goal_id).

(** ** Compaction *)

Definition compact_record (r : GoalRecord) (remove : nat) : GoalRecord :=
  let newly := len (List.filter (λ p, negb (compacted p)) (take remove (progress r))) in
  mkGoal (goal_id r) (session_id r) (objective r) (status r) (drop remove (progress r)) (created_at r)
    (updated_at r) (closed_at r) (sat_add u64_max (compacted_entries r) newly) (sat_add u64_max (revision r) 1).

Fixpoint compact_loop (keep_recent : nat) (ids : list str) (s : CompactionSummary) : M CompactionSummary :=
  match ids with
  | [] => Ret (Ok s)
  | id :: ids =>
      let path := record_name id in
      r ← read_record_at path;
      record ← lift (ok_or (missing id) r);
      if negb (is_closed (status record)) then compact_loop keep_recent ids s
      else
        let examined := closed_goals_examined s + 1 in
        let remove := (length (progress record) - keep_recent)%nat in
        if decide (remove = 0%nat) then
          compact_loop keep_recent ids (mkSummary examined (goals_rewritten s) (progress_entries_removed s)
            (reclaimed_bytes s) (goal_ids_preserved s))
        else
          previous_bytes ← call (Metadata GoalsDir path) (At GoalsDir path);
          encoded ← lift (match encode (compact_record record remove) with
                          | Ok t => Ok t | Err e => Err (Encoding e) end);
          _ ← write_atomically GoalsDir path encoded;
          _ ← accept tt;
          compact_loop keep_recent ids
            (mkSummary examined (goals_rewritten s + 1)
              (sat_add u64_max (progress_entries_removed s) (Z.of_nat remove))
              (sat_add u64_max (reclaimed_bytes s) (sat_sub previous_bytes (len (as_bytes encoded))))
              (goal_ids_preserved s))
  end.

Definition compact_closed_history (session_id : str) (keep_recent_progress : nat) : M CompactionSummary :=
  with_store_lock (
    ix ← read_index session_id;
    compact_loop keep_recent_progress (goal_ids ix) (mkSummary 0 0 0 0 (len (goal_ids ix)))).

(** ** Recovery *)

Fixpoint discard_loop (d : DirName) (names : list str) (discarded : Z) : M Z :=
  match names with
  | [] => Ret (Ok discarded)
  | n :: names =>
      if starts_with TEMP_PREFIX n then
        _ ← call (Remove d n) (At d n);
        discard_loop d names (discarded + 1)
      else discard_loop d names discarded
  end.

Definition discard_temporaries (d : DirName) (discarded : Z) : M Z :=
  names ← call (ReadDir d) (DirPath d);
  discard_loop d names discarded.

Definition is_record_name (n : str) : bool := bool_decide (extension n = Some RECORD_EXTENSION).

Fixpoint scan_loop (names : list str) (records : gmap str GoalRecord) : M (gmap str GoalRecord) :=
  match names with
  | [] => Ret (Ok records)
  | n :: names =>
      if is_record_name n then
        r ← read_record_at n;
        scan_loop names (match r with Some record => <[goal_id record := record]> records | None => records end)
      else scan_loop names records
  end.

Definition scan_records : M (gmap str GoalRecord) :=
  names ← call (ReadDir GoalsDir) (DirPath GoalsDir);
  scan_loop names ∅.

Fixpoint sessions_loop (names : list str) (sessions : gset str) : M (gset str) :=
  match names with
  | [] => Ret (Ok sessions)
  | n :: names =>
      if is_record_name n then
        text ← call (ReadText SessionsDir n) (At SessionsDir n);
        ix ← lift (decode_index n text);
        sessions_loop names ({[ix_session_id ix]} ∪ sessions)
      else sessions_loop names sessions
  end.

(** [str::cmp] *)
Fixpoint str_le (a b : str) : Prop :=
  match a, b with
  | [], _ => True
  | _ :: _, [] => False
  | x :: a, y :: b => x < y ∨ (x = y ∧ str_le a b)
  end.

#[export] Instance str_le_dec a b : Decision (str_le a b).
Proof. revert b. induction a as [|x a IH]; intros [|y b]; cbn; apply _. Defined.

(** The order orphans are adopted in. *)
Definition adopt_le (a b : GoalRecord) : Prop :=
  created_at a < created_at b ∨ (created_at a = created_at b ∧ str_le (goal_id a) (goal_id b)).

Definition raise_high_water (session : str) (ids : list str) (high_water : Z) : Z :=
  foldl (λ h id, next_high_water session id h) high_water ids.

(** The records of a session, as [by_session] groups them. *)
Definition records_of (records : gmap str GoalRecord) (session : str) : list GoalRecord :=
  List.filter (λ r, bool_decide (session_id r = session)) (map_to_list records).*2.

Definition orphans_of (records : gmap str GoalRecord) (session : str) (ids : list str) : list GoalRecord :=
  merge_sort adopt_le (List.filter (λ r, negb (bool_decide (goal_id r ∈ ids))) (records_of records session)).

(** The repaired index of a session, with the entries pruned and adopted. *)
Definition repaired (records : gmap str GoalRecord) (session : str) (ix : SessionIndex) : SessionIndex * Z * Z :=
  let high_water := raise_high_water session (goal_ids ix) (goal_id_high_water ix) in
  let kept := List.filter (λ id, bool_decide (is_Some (records !! id))) (goal_ids ix) in
  let orphans := orphans_of records session kept in
  let ids := kept ++ (goal_id <$> orphans) in
  (mkIndex (ix_schema ix) (ix_session_id ix) ids (raise_high_water session ids high_water),
   len (goal_ids ix) - len kept, len orphans).

Fixpoint repair_loop (records : gmap str GoalRecord) (sessions : list str) (report : RecoveryReport) : M RecoveryReport :=
  match sessions with
  | [] => Ret (Ok report)
  | session :: sessions =>
      session_id ← lift (match session_id_new session with
                         | Ok s => Ok s
                         | Err m => Err (Corrupt (At SessionsDir (index_name session))
                                          (InvalidField (chars "session_id") m))
                         end);
      ix ← read_index session_id;
      let '(fixed, pruned, adopted) := repaired records session ix in
      let report := mkReport (discarded_partial_writes report) (adopted_orphans report + adopted)
                      (pruned_dangling report + pruned) in
      _ ← (if negb (ix_schema ix =? SESSION_INDEX_SCHEMA_VERSION) || (0 <? pruned) || (0 <? adopted)
              || negb (goal_id_high_water fixed =? goal_id_high_water ix)
           then write_index fixed else Ret (Ok tt) : M unit);
      repair_loop records sessions report
  end.

Definition recover : M RecoveryReport :=
  discarded ← discard_temporaries GoalsDir 0;
  discarded ← discard_temporaries SessionsDir discarded;
  records ← scan_records;
  names ← call (ReadDir SessionsDir) (DirPath SessionsDir);
  sessions ← sessions_loop names (list_to_set (session_id <$> (map_to_list records).*2));
  repair_loop records (merge_sort str_le (elements sessions)) (mkReport discarded 0 0).

(** [FileGoalStore::open_with_budget]; the instance is the one the program runs on. *)
Definition open_with_budget : M RecoveryReport :=
  _ ← call (CreateDirAll GoalsDir) (DirPath GoalsDir);
  _ ← call (CreateDirAll SessionsDir) (DirPath SessionsDir);
  _ ← call OpenLock LockPath;
  with_store_lock recover.

End Store.

End GoalStore.
