(* ===== verification/GoalRecovery.v ===== *)
(** * The goal store survives crashes

    The crash-safety argument for [GoalStore]: an invariant of the two directories
    that holds between any two calls of any operation, whichever calls fail, and
    that a power cut preserves. *)

From stdpp Require Import sorting.
From S2P Require Import Prelude Utf8 Text WorkerNames Approval Goals GoalDisk GoalStore.

Module Recovery.
Import Goals Disk GoalStore.

(** What was promised of goals: a property of the record of each goal named. *)
Notation Promises := (gmap str (GoalRecord → Prop)).

Section Recovery.
Context `{GJ : GoalJson} `{IJ : IndexJson} `{DG : Digest}.

(** The session a goal belongs to. *)
Context (owner : str → str).

Definition temp (n : str) : bool := starts_with TEMP_PREFIX n.

(** ** Names *)

Lemma hex_digit_not_p i : u8 (Names.hex_digit i) ≠ 0x70.
Proof.
  unfold Names.hex_digit. destruct (Names.DIGITS !! Z.to_nat i) as [b|] eqn:E; cbn; [|done].
  apply list_elem_of_lookup_2 in E. revert b E. apply Forall_forall. by repeat constructor.
Qed.

Lemma encode_hex_inj a b : Names.encode_hex a = Names.encode_hex b → a = b.
Proof.
  intros H. pose proof (Names.parse_pairs_encode 0 a) as Ha. rewrite H, Names.parse_pairs_encode in Ha.
  by injection Ha.
Qed.

Lemma digest_of_inj a b : digest_of a = digest_of b → a = b.
Proof.
  intros H. apply sha256_inj, encode_hex_inj. unfold digest_of in H.
  apply (list_fmap_eq_inj u8) in H; [done|]. intros ??. apply u8_inj.
Qed.

Lemma record_name_inj a b : record_name a = record_name b → a = b.
Proof. intros H. apply app_inv_tail in H. by apply digest_of_inj. Qed.

Lemma index_name_inj a b : index_name a = index_name b → a = b.
Proof. apply record_name_inj. Qed.

Lemma record_name_not_temp g : temp (record_name g) = false.
Proof.
  unfold temp, starts_with. apply bool_decide_eq_false. intros [t Ht]. apply strip_prefix_Some in Ht.
  unfold record_name, digest_of in Ht. pose proof (sha256_nonempty g) as Hne.
  destruct (sha256_text g) as [|b bs]; [done|]. cbn [Names.encode_hex fmap list_fmap app] in Ht.
  injection Ht as Hh _. by apply hex_digit_not_p in Hh.
Qed.

Lemma index_name_not_temp s : temp (index_name s) = false.
Proof. apply record_name_not_temp. Qed.

Lemma record_name_extension g : is_record_name (record_name g) = true.
Proof.
  unfold is_record_name, extension, record_name. rewrite app_assoc, reverse_app, reverse_app.
  apply bool_decide_eq_true.
  change (reverse (chars ".")) with [0x2E]. cbn [app].
  rewrite split_once_first by (by repeat constructor || done).
  rewrite bool_decide_eq_false_2; [done|]. intros H. apply (f_equal reverse) in H.
  rewrite reverse_involutive in H. unfold digest_of in H. pose proof (sha256_nonempty g).
  destruct (sha256_text g); [done|]. by cbn in H.
Qed.

(** ** What an operation may do to a directory *)

(** Names of temporaries aside, no name gains a possible value. *)
Definition quiet_dir (d d' : Dir) : Prop :=
  made d' = made d ∧
  ∀ n, temp n = false → view d' !! n = view d !! n ∧ ∀ v, Cand d' n v → Cand d n v.

Definition quiet (w w' : World) : Prop := ∀ d, quiet_dir (dir_of w d) (dir_of w' d).

(** Name [n] is given the contents [f], visibly; after a power cut it may also have
    one of the values it could have before. *)
Definition publish (d : DirName) (n : str) (f : File) (w w' : World) : Prop :=
  view (dir_of w' d) !! n = Some f ∧
  (∀ v, Cand (dir_of w' d) n v → v = Some f ∨ Cand (dir_of w d) n v) ∧
  (∀ m, temp m = false → m ≠ n →
    view (dir_of w' d) !! m = view (dir_of w d) !! m ∧ ∀ v, Cand (dir_of w' d) m v → Cand (dir_of w d) m v) ∧
  (∀ d', d' ≠ d → quiet_dir (dir_of w d') (dir_of w' d')) ∧ made (dir_of w' d) = made (dir_of w d).

Definition same_dirs (w w' : World) : Prop := ∀ d, dir_of w' d = dir_of w d.

Lemma quiet_refl w : quiet w w.
Proof. by intros d. Qed.

Lemma quiet_same w w' : same_dirs w w' → quiet w w'.
Proof. intros H d. rewrite H. by split. Qed.

Lemma quiet_dir_trans d1 d2 d3 : quiet_dir d1 d2 → quiet_dir d2 d3 → quiet_dir d1 d3.
Proof.
  intros [M1 H1] [M2 H2]. split; [congruence|]. intros n Hn. destruct (H1 n Hn) as [V1 C1], (H2 n Hn) as [V2 C2]. split; [congruence|auto].
Qed.

Lemma quiet_trans w1 w2 w3 : quiet w1 w2 → quiet w2 w3 → quiet w1 w3.
Proof. intros H1 H2 d. by eapply quiet_dir_trans. Qed.

Lemma publish_quiet d n f w1 w2 w3 : temp n = false → publish d n f w1 w2 → quiet w2 w3 → publish d n f w1 w3.
Proof.
  intros Hn (V & C & O & D & Mk) Q. destruct (Q d) as [Mq Qd]. destruct (Qd n Hn) as [V' C'].
  split_and!; [congruence|auto| | |congruence].
  - intros m Hm Hne. destruct (O m Hm Hne) as [V1 C1], (Qd m Hm) as [V2 C2]. split; [congruence|auto].
  - intros d' Hd. eapply quiet_dir_trans; [by apply D|apply Q].
Qed.

Lemma quiet_publish d n f w1 w2 w3 : temp n = false → quiet w1 w2 → publish d n f w2 w3 → publish d n f w1 w3.
Proof.
  intros Hn Q (V & C & O & D & Mk). destruct (Q d) as [Mq Qd]. destruct (Qd n Hn) as [V' C'].
  split_and!; [done| | | |congruence].
  - intros v [->|Hv]%C; auto.
  - intros m Hm Hne. destruct (O m Hm Hne) as [V1 C1], (Qd m Hm) as [V2 C2]. split; [congruence|auto].
  - intros d' Hd. eapply quiet_dir_trans; [apply Q|by apply D].
Qed.

Lemma dir_of_set w d d' x : dir_of (set_dir w d x) d' = if decide (d' = d) then x else dir_of w d'.
Proof. by destruct d, d'. Qed.

Lemma set_dir_same w d : set_dir w d (dir_of w d) = w.
Proof. by destruct w, d. Qed.

(** Changing a temporary is quiet, and so is flushing a directory. *)
Lemma quiet_change w d op :
  (∀ n, temp n = false → op_sets op n = None) → quiet w (change w d op).
Proof.
  intros Hop d'. unfold change. rewrite dir_of_set. destruct (decide (d' = d)) as [->|]; [|done].
  split; [done|]. intros n Hn.
  rewrite view_push, (Hop n Hn). split; [done|]. intros v [H|H]%Cand_push; [done|]. rewrite Hop in H by done. done.
Qed.

Lemma quiet_flush w d : quiet w (set_dir w d (flush_dir (dir_of w d))).
Proof.
  intros d'. rewrite dir_of_set. destruct (decide (d' = d)) as [->|]; [|done].
  split; [done|]. intros n Hn. split; [done|]. intros v ->%Cand_flush. apply view_Cand.
Qed.

Lemma put_temp_sets t f n : temp t = true → temp n = false → op_sets (Put t f) n = None.
Proof. intros Ht Hn. cbn. destruct (decide (n = t)); [congruence|done]. Qed.

Lemma del_temp_sets t n : temp t = true → temp n = false → op_sets (Del t) n = None.
Proof. intros Ht Hn. cbn. destruct (decide (n = t)); [congruence|done]. Qed.

Lemma temporary_temp p o : temp (temporary p o) = true.
Proof. unfold temp, temporary. apply starts_with_true. eexists. reflexivity. Qed.

Lemma lookup_change w d op n : lookup_file (change w d op) d n = default (lookup_file w d n) (op_sets op n).
Proof. unfold lookup_file, change. rewrite dir_of_set. destruct (decide (d = d)); [|done]. apply view_push. Qed.

Lemma publish_change w d t n f :
  temp t = true → temp n = false → publish d n f w (change w d (Mv t n f)).
Proof.
  intros Ht Hn. assert (n ≠ t) by congruence. unfold change. split_and!.
  - rewrite dir_of_set, decide_True by done. rewrite view_push. cbn. by rewrite decide_True.
  - intros v. rewrite dir_of_set, decide_True by done. intros [H'|H']%Cand_push; [by right|].
    cbn in H'. rewrite decide_True in H' by done. left. congruence.
  - intros m Hm Hne. rewrite dir_of_set, decide_True by done.
    assert (op_sets (Mv t n f) m = None) as Hop.
    { cbn. rewrite decide_False by done. rewrite decide_False by congruence. done. }
    rewrite view_push, Hop. split; [done|]. intros v [H'|H']%Cand_push; [done|congruence].
  - intros d' Hd. by rewrite dir_of_set, decide_False.
  - by rewrite dir_of_set, decide_True.
Qed.

(** ** Programs *)

Lemma safe_bindM {A B} F I (p : M A) (k : A → M B) w (Q : result StoreError B → World → Prop) :
  safe F I p w (λ r w, match r with Ok a => safe F I (k a) w Q | Err e => Q (Err e) w end) →
  safe F I (p ≫= k) w Q.
Proof.
  intros H. apply safe_pbind. eapply safe_post; [exact H|]. intros [a|e] w' Hi Hk; [done|]. by split.
Qed.

(** One call. *)
Lemma safe_call {F I} o p w (Q : result StoreError (ans o) → World → Prop) :
  I w →
  (∀ c, F c → I (perform c o w).2 ∧
    Q (match (perform c o w).1 with Ok a => Ok a | Err e => Err (Io p e) end) (perform c o w).2) →
  safe F I (call o p) w Q.
Proof. intros Hi H. split; [done|]. intros c Hc. destruct (H c Hc) as [H1 H2]. by split. Qed.

Lemma fails_faulty {F : Choice → Prop} {c x} : F c → fails c = Some x → faulty F.
Proof. intros Hc Hf. exists c. by destruct c. Qed.

(** A call that writes to a temporary: it fails quietly or leaves [f] in it. *)
Lemma safe_temp_call {B} F (I : World → Prop) o p w d t f (k : ans o → M B) Q :
  temp t = true → (∀ w', quiet w w' → I w') →
  (∀ c, match fails c with
        | None => ∃ a, perform c o w = (Ok a, change w d (Put t f))
        | Some _ => ∃ e, (perform c o w).1 = Err e ∧ quiet w (perform c o w).2
        end) →
  (∀ e w', faulty F → Q (Err e) w') →
  (∀ a w', quiet w w' → lookup_file w' d t = Some f → safe F I (k a) w' Q) →
  safe F I (call o p ≫= k) w Q.
Proof.
  intros Ht Hq Hstep Herr Hk. apply safe_bindM, safe_call; [by apply Hq, quiet_refl|]. intros c Hc.
  specialize (Hstep c). destruct (fails c) eqn:Ef.
  - destruct Hstep as (e & -> & Hqu). split; [by apply Hq|]. apply Herr. by eapply fails_faulty.
  - destruct Hstep as [a ->]. cbn [fst snd].
    assert (quiet w (change w d (Put t f))) as Hqu by (apply quiet_change; intros m; by apply put_temp_sets).
    split; [by apply Hq|]. apply Hk; [done|]. rewrite lookup_change. cbn. by rewrite decide_True.
Qed.

Lemma quiet_bump w c : quiet w (mkWorld (goals_dir w) (sessions_dir w) (bump_counter (inst w) c)).
Proof. apply quiet_same. by intros []. Qed.

Lemma quiet_there w w' d : quiet w w' → there (dir_of w d) → there (dir_of w' d).
Proof. intros Q. unfold there. by rewrite (proj1 (Q d)). Qed.

Lemma publish_there d n f w w' d' : publish d n f w w' → there (dir_of w d') → there (dir_of w' d').
Proof.
  intros (_ & _ & _ & D & Mk). unfold there. destruct (decide (d' = d)) as [->|Hd]; [by rewrite Mk|].
  by rewrite (proj1 (D d' Hd)).
Qed.

(** The rename and the flush that end a publication. *)
Lemma publish_safe F (I : World → Prop) d t n f w :
  temp t = true → temp n = false → there (dir_of w d) → lookup_file w d t = Some f →
  (∀ w', quiet w w' → I w') → (∀ w', publish d n f w w' → I w') →
  safe F I (Do (Rename d t n) (λ r,
      match r with
      | Err error => Do (Remove d t) (λ _, throw (Io (At d n) error))
      | Ok _ =>
          Do (SyncDir d) (λ r,
            match r with
            | Ok _ => Do (FetchAdd SyncedPublications) (λ _, Ret (Ok tt))
            | Err source => Do (FetchAdd UnsyncedPublications) (λ _, throw (CommittedButNotDurable (At d n) source))
            end)
      end) : M unit) w (λ r w',
    match r with
    | Ok _ => publish d n f w w' ∧ ∀ v, Cand (dir_of w' d) n v → v = Some f
    | Err _ => faulty F
    end).
Proof.
  intros Ht Hn Hd L Hq Hp. split; [by apply Hq, quiet_refl|]. intros c Hc. cbn [perform].
  unfold on_file. rewrite L. destruct (fails c) eqn:Ef; cbn [fst snd].
  { pose proof (fails_faulty Hc Ef) as Hfaulty.
    split; [by apply Hq, quiet_refl|]. intros c' Hc'. cbn [perform]. unfold on_file. rewrite L.
    destruct (fails c'); cbn [fst snd]; (split; [|done]); apply Hq; [apply quiet_refl|].
    apply quiet_change. intros m. by apply del_temp_sets. }
  set (w4 := change w d _). assert (publish d n f w w4) as P4 by by apply publish_change.
  clearbody w4. split; [by apply Hp|]. clear c Hc Ef. intros c Hc. cbn [perform].
  rewrite in_dir_there by by eapply publish_there.
  destruct (fails c) eqn:Ef; cbn [fst snd].
  { pose proof (fails_faulty Hc Ef) as Hfaulty. split; [by apply Hp|]. intros c' Hc'. cbn [perform fst snd]. split; [|done].
    apply Hp. by eapply publish_quiet; [..|apply quiet_bump]. }
  set (w5 := set_dir w4 d _). assert (publish d n f w w5) as P5.
  { eapply publish_quiet; [done..|]. apply quiet_flush. }
  split; [by apply Hp|]. intros c' Hc'. cbn [perform fst snd].
  assert (publish d n f w (mkWorld (goals_dir w5) (sessions_dir w5) (bump_counter (inst w5) SyncedPublications))) as P6.
  { by eapply publish_quiet; [..|apply quiet_bump]. }
  split; [by apply Hp|]. split; [done|]. intros v Hv.
  assert (Cand (dir_of w5 d) n v) as Hv' by by destruct d. unfold w5 in Hv'.
  rewrite dir_of_set, decide_True in Hv' by done. apply Cand_flush in Hv' as ->. by destruct P4 as [-> _].
Qed.

(** Replacing a file: until the rename nothing has changed, after it the name holds
    the new contents, and once the write has returned it can hold nothing else. *)
Lemma write_atomically_safe F (I : World → Prop) d n contents w :
  temp n = false → there (dir_of w d) →
  (∀ w', quiet w w' → I w') → (∀ w', publish d n (mkFile contents true) w w' → I w') →
  safe F I (write_atomically d n contents) w (λ r w',
    match r with
    | Ok _ => publish d n (mkFile contents true) w w' ∧
              ∀ v, Cand (dir_of w' d) n v → v = Some (mkFile contents true)
    | Err _ => faulty F
    end).
Proof.
  intros Hn Hd Hq Hp. unfold write_atomically.
  split; [by apply Hq, quiet_refl|]. intros c0 _. cbn [perform fst snd].
  set (w0 := mkWorld _ _ _). assert (quiet w w0) as Q0 by apply quiet_bump.
  split; [by apply Hq|]. intros c1 _. cbn [perform fst snd].
  set (t := temporary _ _). assert (temp t = true) as Ht by apply temporary_temp. clearbody t w0.
  eapply (safe_temp_call _ _ _ _ w0 d t (mkFile [] false)); [done| | |done|].
  { intros w' Hw. apply Hq. by eapply quiet_trans. }
  { intros c. cbn [perform]. rewrite in_dir_there by by eapply quiet_there.
    destruct (fails c); [|by eexists]. eexists. split; [done|apply quiet_refl]. }
  intros _ w1 Q1 L1. eapply quiet_trans in Q1; [|exact Q0].
  eapply (safe_temp_call _ _ _ _ w1 d t (mkFile contents false)); [done| | |done|].
  { intros w' Hw. apply Hq. by eapply quiet_trans. }
  { intros c. cbn [perform]. unfold on_file. rewrite L1. destruct (fails c); [|by eexists].
    eexists. split; [done|]. apply quiet_change. intros m. by apply put_temp_sets. }
  intros _ w2 Q2 L2. eapply quiet_trans in Q2; [|exact Q1].
  eapply (safe_temp_call _ _ _ _ w2 d t (mkFile contents true)); [done| | |done|].
  { intros w' Hw. apply Hq. by eapply quiet_trans. }
  { intros c. cbn [perform]. unfold on_file. rewrite L2. destruct (fails c); [|by eexists].
    eexists. split; [done|apply quiet_refl]. }
  intros _ w3 Q3 L3. eapply quiet_trans in Q3; [|exact Q2].
  eapply safe_post; [eapply (publish_safe _ _ d t n); [done|done|by eapply quiet_there|done| |]|].
  - intros w' Hw. apply Hq. by eapply quiet_trans.
  - intros w' Hw. apply Hp. by eapply quiet_publish.
  - intros [[]|e] w' _; [|done]. intros [P C]. split; [by eapply quiet_publish|done].
Qed.

(** ** The invariant *)

(** The records whose saves are considered: one that decodes again (valid
    identifiers, an objective that is not blank, a revision other than 0, a closing
    time exactly when closed, progress in order), under the session its goal
    identifier belongs to. [save_blocking] checks none of this of its argument. *)
Record savable (r : GoalRecord) : Prop := {
  savable_wf : wf_goal r;
  savable_owner : session_id r = owner (goal_id r);
  savable_revision : 0 ≤ revision r ≤ u64_max;
}.

(** A goal file holds such a goal under the name of its identifier, flushed. *)
Definition good_goal (n : str) (f : File) : Prop :=
  synced f = true ∧ ∃ r, encode r = Ok (data f) ∧ savable r ∧ n = record_name (goal_id r).

(** An index names goals of its session once, and its high-water mark covers them. *)
Record good_entries (s : str) (ix : SessionIndex) : Prop := {
  entries_schema : ix_schema ix = SESSION_INDEX_SCHEMA_VERSION;
  entries_session : ix_session_id ix = s;
  entries_valid : session_id_new s = Ok s;
  entries_nodup : NoDup (goal_ids ix);
  entries_range : 0 ≤ goal_id_high_water ix ≤ u64_max;
  entries_ordinals g o : g ∈ goal_ids ix → generated_goal_ordinal s g = Some o → o ≤ goal_id_high_water ix;
  entries_owned g : g ∈ goal_ids ix → owner g = s;
}.

Definition good_index (n : str) (f : File) : Prop :=
  synced f = true ∧ ∃ s ix, decode_index n (data f) = Ok ix ∧ n = index_name s ∧ good_entries s ix.

(** Every value a name can have after a power cut is good. *)
Definition holds_good (good : str → File → Prop) (d : Dir) : Prop :=
  ∀ n f, temp n = false → Cand d n (Some f) → good n f.

(** A promise holds of every value the goal's file can have after a power cut. *)
Definition acked (acks : Promises) (d : Dir) : Prop :=
  ∀ g q v, acks !! g = Some q → Cand d (record_name g) v →
    ∃ f r, v = Some f ∧ decode (data f) = Ok r ∧ q r.

(** What a reader finds. *)
Definition stored_goal (w : World) (g : str) : option GoalRecord :=
  f ← view (goals_dir w) !! record_name g;
  match decode (data f) with Ok r => Some r | Err _ => None end.

Definition stored_index (w : World) (s : str) : SessionIndex :=
  match view (sessions_dir w) !! index_name s with
  | Some f => match decode_index (index_name s) (data f) with Ok ix => ix | Err _ => empty_index s end
  | None => empty_index s
  end.

(** While a store is open: an index names existing goals, and every promised
    goal is in its session's index. *)
Definition consistent (acks : Promises) (w : World) : Prop :=
  (∀ s g, g ∈ goal_ids (stored_index w s) → is_Some (stored_goal w g)) ∧
  (∀ g q, acks !! g = Some q → g ∈ goal_ids (stored_index w (owner g))).

Record Inv (acks : Promises) (opened : bool) (w : World) : Prop := {
  inv_goals : holds_good good_goal (goals_dir w);
  inv_sessions : holds_good good_index (sessions_dir w);
  inv_acked : acked acks (goals_dir w);
  inv_open : opened = true → consistent acks w;
  inv_there d : there (dir_of w d);
}.

Lemma stored_goal_quiet w w' g : quiet_dir (goals_dir w) (goals_dir w') → stored_goal w' g = stored_goal w g.
Proof. intros Q. unfold stored_goal. by destruct (proj2 Q (record_name g) (record_name_not_temp g)) as [-> _]. Qed.

Lemma stored_index_quiet w w' s : quiet_dir (sessions_dir w) (sessions_dir w') → stored_index w' s = stored_index w s.
Proof. intros Q. unfold stored_index. by destruct (proj2 Q (index_name s) (index_name_not_temp s)) as [-> _]. Qed.

Lemma Inv_quiet acks b w w' : Inv acks b w → quiet w w' → Inv acks b w'.
Proof.
  intros [Hg Hs Ha Ho Ht] Q. pose proof (proj2 (Q GoalsDir)) as Qg. pose proof (proj2 (Q SessionsDir)) as Qs.
  constructor; [..|intros d; by eapply quiet_there].
  - intros n f Hn Hc. apply Hg; [done|]. by apply (Qg n Hn).
  - intros n f Hn Hc. apply Hs; [done|]. by apply (Qs n Hn).
  - intros g q v Hk Hc. apply (Ha g q v Hk), (Qg _ (record_name_not_temp g)), Hc.
  - intros Hb. destruct (Ho Hb) as [H1 H2]. split.
    + intros s g. rewrite (stored_index_quiet w w') by apply (Q SessionsDir).
      rewrite (stored_goal_quiet w w') by apply (Q GoalsDir). apply H1.
    + intros g rev. rewrite (stored_index_quiet w w') by apply (Q SessionsDir). apply H2.
Qed.

(** A visible goal file. *)
Lemma stored_goal_good acks b w g f :
  Inv acks b w → view (goals_dir w) !! record_name g = Some f →
  ∃ r, decode (data f) = Ok r ∧ goal_id r = g ∧ savable r ∧ stored_goal w g = Some r ∧ encode r = Ok (data f).
Proof.
  intros Hi Hv. pose proof (view_Cand (goals_dir w) (record_name g)) as Hc. rewrite Hv in Hc.
  destruct (inv_goals _ _ _ Hi _ f (record_name_not_temp g) Hc) as (_ & r & He & Hsav & Hn).
  pose proof (goal_decode_encode r _ (savable_wf _ Hsav) He) as Hd.
  apply record_name_inj in Hn as ->. exists r. unfold stored_goal. rewrite Hv. cbn. by rewrite Hd.
Qed.

Lemma stored_goal_Some acks b w g r :
  Inv acks b w → stored_goal w g = Some r →
  goal_id r = g ∧ savable r ∧
  ∃ f, view (goals_dir w) !! record_name g = Some f ∧ decode (data f) = Ok r ∧ encode r = Ok (data f).
Proof.
  intros Hi Hs. unfold stored_goal in Hs. destruct (view (goals_dir w) !! record_name g) as [f|] eqn:E; [|done].
  destruct (stored_goal_good _ _ _ _ _ Hi E) as (r' & Hd & Hg & Hsav & Hst & He). cbn in Hs. rewrite Hd in Hs.
  injection Hs as ->. split_and!; [done|done|by exists f].
Qed.

Lemma stored_goal_view acks b w g :
  Inv acks b w → stored_goal w g = None → view (goals_dir w) !! record_name g = None.
Proof.
  intros Hi Hs. destruct (view (goals_dir w) !! record_name g) as [f|] eqn:E; [|done].
  destruct (stored_goal_good _ _ _ _ _ Hi E) as (r' & _ & _ & _ & Hst & _). congruence.
Qed.

Lemma stored_index_view acks b w s f :
  Inv acks b w → view (sessions_dir w) !! index_name s = Some f →
  decode_index (index_name s) (data f) = Ok (stored_index w s) ∧ good_entries s (stored_index w s).
Proof.
  intros Hi E. pose proof (view_Cand (sessions_dir w) (index_name s)) as Hc. rewrite E in Hc.
  destruct (inv_sessions _ _ _ Hi _ f (index_name_not_temp s) Hc) as (_ & s' & ix & Hd & Hn & Hg).
  apply index_name_inj in Hn as ->. unfold stored_index. by rewrite E, Hd.
Qed.

Lemma stored_index_good acks b w s :
  Inv acks b w → session_id_new s = Ok s → good_entries s (stored_index w s).
Proof.
  intros Hi Hv. destruct (view (sessions_dir w) !! index_name s) as [f|] eqn:E.
  - by eapply stored_index_view.
  - unfold stored_index. rewrite E. constructor; cbn; [done..|constructor|done| |]; intros g; [intros o|]; by intros ?%not_elem_of_nil.
Qed.

Lemma stored_index_owned acks b w s g : Inv acks b w → g ∈ goal_ids (stored_index w s) → owner g = s.
Proof.
  intros Hi. destruct (view (sessions_dir w) !! index_name s) as [f|] eqn:E.
  - destruct (stored_index_view _ _ _ _ _ Hi E) as [_ Hg]. by apply entries_owned.
  - unfold stored_index. rewrite E. by intros ?%not_elem_of_nil.
Qed.

(** A promised goal is visible. *)
Lemma acked_stored acks b w g q :
  Inv acks b w → acks !! g = Some q → ∃ r, stored_goal w g = Some r ∧ q r.
Proof.
  intros Hi Hk. destruct (inv_acked _ _ _ Hi g q _ Hk (view_Cand _ _)) as (f & r & Hv & Hd & Hr).
  exists r. unfold stored_goal. rewrite Hv. cbn. by rewrite Hd.
Qed.

(** ** Publishing a goal or an index *)

Lemma publish_goal_Inv acks b w w' g r f :
  Inv acks b w → publish GoalsDir (record_name g) f w w' →
  good_goal (record_name g) f → decode (data f) = Ok r → goal_id r = g →
  (∀ q, acks !! g = Some q → q r) →
  Inv acks b w' ∧ stored_goal w' g = Some r ∧ (∀ g', g' ≠ g → stored_goal w' g' = stored_goal w g') ∧
  (∀ s, stored_index w' s = stored_index w s).
Proof.
  intros Hi Hpub Hgood Hd Hid Hrev. pose proof Hpub as (V & C & O & D & _). specialize (D SessionsDir ltac:(done)). cbn [dir_of] in *.
  assert (stored_goal w' g = Some r) as Hg by (unfold stored_goal; rewrite V; cbn; by rewrite Hd).
  assert (∀ g', g' ≠ g → stored_goal w' g' = stored_goal w g') as Hother.
  { intros g' Hne. unfold stored_goal. destruct (O (record_name g') (record_name_not_temp g')) as [-> _]; [|done].
    intros Hn. by apply record_name_inj in Hn. }
  assert (∀ s, stored_index w' s = stored_index w s) as Hix by (intros s; by apply stored_index_quiet).
  split_and!; [|done..]. constructor; [..|intros d; by eapply publish_there; [|apply (inv_there _ _ _ Hi)]].
  - intros n f' Hn Hc. destruct (decide (n = record_name g)) as [->|Hne].
    + apply C in Hc as [[= ->]|Hc]; [done|]. by apply (inv_goals _ _ _ Hi).
    + apply (inv_goals _ _ _ Hi); [done|]. by apply (O n Hn Hne).
  - intros n f' Hn Hc. apply (inv_sessions _ _ _ Hi); [done|]. by apply (proj2 D n Hn).
  - intros g' rev v Hk Hc. destruct (decide (g' = g)) as [->|Hne].
    + apply C in Hc as [->|Hc]; [exists f, r; split_and!; [done..|by apply Hrev]|]. by eapply (inv_acked _ _ _ Hi).
    + eapply (inv_acked _ _ _ Hi); [done|]. apply (O (record_name g') (record_name_not_temp g')); [|done].
      intros Hn. by apply record_name_inj in Hn.
  - intros Hb. destruct (inv_open _ _ _ Hi Hb) as [H1 H2]. split; [|intros g' rev; rewrite Hix; apply H2].
    intros s g'. rewrite Hix. intros Hin. destruct (decide (g' = g)) as [->|Hne]; [by rewrite Hg|].
    rewrite Hother by done. by eapply H1.
Qed.

Lemma publish_index_Inv acks b w w' s ix f :
  Inv acks b w → publish SessionsDir (index_name s) f w w' →
  synced f = true → decode_index (index_name s) (data f) = Ok ix → good_entries s ix →
  (b = true → (∀ g, g ∈ goal_ids ix → is_Some (stored_goal w g)) ∧
              (∀ g q, acks !! g = Some q → owner g = s → g ∈ goal_ids ix)) →
  Inv acks b w' ∧ stored_index w' s = ix ∧ (∀ s', s' ≠ s → stored_index w' s' = stored_index w s') ∧
  (∀ g, stored_goal w' g = stored_goal w g).
Proof.
  intros Hi Hpub Hsy Hd Hgood Hopen. pose proof Hpub as (V & C & O & D & _). specialize (D GoalsDir ltac:(done)). cbn [dir_of] in *.
  assert (stored_index w' s = ix) as Hs by (unfold stored_index; by rewrite V, Hd).
  assert (∀ s', s' ≠ s → stored_index w' s' = stored_index w s') as Hother.
  { intros s' Hne. unfold stored_index. destruct (O (index_name s') (index_name_not_temp s')) as [-> _]; [|done].
    intros Hn. by apply index_name_inj in Hn. }
  assert (∀ g, stored_goal w' g = stored_goal w g) as Hgo by (intros g; by apply stored_goal_quiet).
  split_and!; [|done..]. constructor; [..|intros d; by eapply publish_there; [|apply (inv_there _ _ _ Hi)]].
  - intros n f' Hn Hc. apply (inv_goals _ _ _ Hi); [done|]. by apply (proj2 D n Hn).
  - intros n f' Hn Hc. destruct (decide (n = index_name s)) as [->|Hne].
    + apply C in Hc as [[= ->]|Hc]; [split; [done|]; by exists s, ix|]. by apply (inv_sessions _ _ _ Hi).
    + apply (inv_sessions _ _ _ Hi); [done|]. by apply (O n Hn Hne).
  - intros g rev v Hk Hc. eapply (inv_acked _ _ _ Hi); [done|]. by apply (proj2 D _ (record_name_not_temp g)).
  - intros Hb. destruct (inv_open _ _ _ Hi Hb) as [H1 H2]. destruct (Hopen Hb) as [H3 H4]. split.
    + intros s' g. rewrite Hgo. destruct (decide (s' = s)) as [->|Hne]; [rewrite Hs; apply H3|].
      rewrite Hother by done. apply H1.
    + intros g rev Hk. destruct (decide (owner g = s)) as [Ho|Hne]; [rewrite Ho, Hs; by eapply H4|].
      rewrite Hother by done. by eapply H2.
Qed.

(** ** Reading *)

Section Operations.
Context (F : Choice → Prop) (acks : Promises) (opened : bool).
Notation I := (Inv acks opened).

(** The bytes of a goal's file. *)
Definition goal_size (w : World) (g : str) : Z :=
  match view (goals_dir w) !! record_name g with Some f => len (as_bytes (data f)) | None => 0 end.

Lemma read_record_sized_safe w g :
  I w → safe F I (read_record_sized (record_name g)) w (λ r w',
    w' = w ∧ match r with
             | Ok o => (fst <$> o) = stored_goal w g ∧ default 0 (snd <$> o) = goal_size w g
             | Err _ => faulty F
             end).
Proof.
  intros Hi. split; [done|]. intros c Hc. cbn [perform]. destruct (fails c) eqn:Ef; cbn [fst snd].
  { split; [done|]. split; [done|]. by eapply fails_faulty. }
  unfold on_file, lookup_file. cbn [dir_of]. unfold goal_size.
  destruct (view (goals_dir w) !! record_name g) as [f|] eqn:E; cbn [fst snd].
  - destruct (stored_goal_good _ _ _ _ _ Hi E) as (r & -> & _ & _ & -> & _). by split.
  - split; [done|]. split; [done|]. split; [|done]. unfold stored_goal. by rewrite E.
Qed.

Lemma read_record_at_safe w g :
  I w → safe F I (read_record_at (record_name g)) w (λ r w',
    w' = w ∧ match r with Ok o => o = stored_goal w g | Err _ => faulty F end).
Proof.
  intros Hi. apply safe_bindM. eapply safe_post; [by apply read_record_sized_safe|].
  intros [o|e] w' _ [-> H]; [|done]. destruct H as [<- _]. by split.
Qed.

Lemma read_index_safe w s :
  I w → safe F I (read_index s) w (λ r w',
    w' = w ∧ match r with Ok ix => ix = stored_index w s | Err _ => faulty F end).
Proof.
  intros Hi. split; [done|]. intros c Hc. cbn [perform]. destruct (fails c) eqn:Ef; cbn [fst snd].
  { split; [done|]. split; [done|]. by eapply fails_faulty. }
  unfold on_file, lookup_file. cbn [dir_of].
  destruct (view (sessions_dir w) !! index_name s) as [f|] eqn:E; cbn [fst snd].
  - destruct (stored_index_view _ _ _ _ _ Hi E) as [-> _]. by split.
  - split; [done|]. split; [done|]. unfold stored_index. by rewrite E.
Qed.

(** The bytes of the files of several goals. *)
Definition total_size (w : World) (ids : list str) : Z := foldr (λ g n, goal_size w g + n) 0 ids.

Lemma goal_size_nonneg w g : 0 ≤ goal_size w g.
Proof. unfold goal_size. destruct (_ !! _); [apply len_nonneg|done]. Qed.

Lemma total_size_nonneg w ids : 0 ≤ total_size w ids.
Proof.
  induction ids as [|g ids IH]; [done|]. unfold total_size in *. cbn [foldr]. pose proof (goal_size_nonneg w g). lia.
Qed.

Lemma usage_loop_safe w ids u :
  I w → 0 ≤ used_bytes u ≤ u64_max → safe F I (usage_loop ids u) w (λ r w',
    w' = w ∧ match r with
             | Ok u' => u' = mkUsage (used_goals u) (Z.min u64_max (used_bytes u + total_size w ids))
             | Err _ => faulty F
             end).
Proof.
  intros Hi. revert u. induction ids as [|g ids IH]; intros u Hu; cbn [usage_loop].
  { split; [done|]. split; [done|]. destruct u. cbn in *. f_equal. lia. }
  split; [done|]. intros c Hc. cbn [perform]. destruct (fails c) eqn:Ef; cbn [fst snd].
  { split; [done|]. split; [done|]. by eapply fails_faulty. }
  unfold on_file, lookup_file. cbn [dir_of].
  pose proof (goal_size_nonneg w g) as Hg. pose proof (total_size_nonneg w ids) as Ht.
  unfold total_size, goal_size in *. cbn [foldr].
  destruct (view (goals_dir w) !! record_name g) as [f|] eqn:E; cbn [fst snd].
  - eapply safe_post; [apply IH; cbn; unfold sat_add; lia|]. cbn [used_goals used_bytes].
    intros [u'|e] w' _ [-> H]; (split; [done|]); [|done]. rewrite H. unfold sat_add. f_equal. lia.
  - eapply safe_post; [by apply IH|]. intros [u'|e] w' _ [-> H]; (split; [done|]); [|done]. rewrite H. done.
Qed.

Lemma acquire_safe w tries : I w → (0 < tries)%nat → safe F I (acquire tries) w (λ r w',
  w' = w ∧ match r with Ok _ => True | Err _ => faulty F end).
Proof.
  intros Hi Hn. induction tries as [|tries IH]; [lia|]. cbn [acquire]. split; [done|]. intros c Hc. cbn [perform fst snd].
  destruct c; cbn; [done| |].
  - split; [done|]. split; [done|]. by exists (Fail partial).
  - destruct tries; [|apply IH; lia]. split; [done|]. split; [done|]. by exists Contended.
Qed.

(** The lock only moves counters; when it cannot be had nothing has happened. *)
Lemma with_store_lock_safe {A} (op : M A) w Q :
  I w → safe F I op w Q →
  (∀ r w1 w2, same_dirs w1 w2 → Q r w1 → Q r w2) → (∀ e, faulty F → Q (Err e) w) →
  safe F I (with_store_lock op) w Q.
Proof.
  intros Hi Hop Hsame Herr. apply safe_bindM.
  eapply safe_post; [apply acquire_safe; [done|unfold WRITE_LOCK_ATTEMPTS; lia]|].
  intros [[]|e] w' _ [-> H]; [|by apply Herr]. apply safe_pbind. eapply safe_post; [exact Hop|].
  intros r w1 Hi1 Hq. split; [done|]. intros c Hc. cbn [perform fst snd].
  destruct (fails c); [|by split]. split; [done|]. intros c' Hc'. cbn [perform fst snd].
  split; [done|]. intros c2 Hc2. cbn [perform fst snd]. split; [by eapply Inv_quiet; [|apply quiet_bump]|].
  eapply Hsame; [|done]. by intros [].
Qed.

Lemma accept_safe {A} (a : A) w Q :
  I w → (∀ r w1 w2, same_dirs w1 w2 → Q r w1 → Q r w2) → Q (Ok a) w → safe F I (accept a) w Q.
Proof.
  intros Hi Hsame Hq. split; [done|]. intros c Hc. cbn [perform fst snd].
  split; [by eapply Inv_quiet; [|apply quiet_bump]|]. eapply Hsame; [|done]. by intros [].
Qed.

(** ** Saving *)

(** What a save decides, from the goal stored, its session's index, the bytes they
    take and the bytes offered: a refusal or the next index. *)
Definition save_decision (budget : GoalBudget) (existing : option GoalRecord) (ix : SessionIndex)
    (size total offered : Z) (r : GoalRecord) : result StoreError SessionIndex :=
  let is_new := negb (bool_decide (goal_id r ∈ goal_ids ix)) in
  let adopts := is_new && bool_decide (existing = Some r) in
  let expected := match existing with Some stored => sat_add u64_max (revision stored) 1 | None => 1 end in
  if negb adopts && negb (revision r =? expected) then Err (Conflict expected (revision r))
  else
    let held := Z.min u64_max total in
    match admit_record budget (mkUsage (len (goal_ids ix)) (if is_new then held else sat_sub held size)) offered is_new with
    | Err e => Err (Budget e)
    | Ok _ =>
        Ok (if is_new then
              mkIndex (ix_schema ix) (ix_session_id ix) (goal_ids ix ++ [goal_id r])
                (next_high_water (session_id r) (goal_id r) (goal_id_high_water ix))
            else ix)
    end.

Lemma encode_good r text :
  savable r → encode r = Ok text → good_goal (record_name (goal_id r)) (mkFile text true) ∧ decode text = Ok r.
Proof.
  intros Hs He. split; [split; [done|]; by exists r|]. apply goal_decode_encode; [apply Hs|done].
Qed.

Lemma generated_range s g o : generated_goal_ordinal s g = Some o → 0 ≤ o ≤ u64_max.
Proof.
  unfold generated_goal_ordinal. intros H. destruct (strip_prefix s g) as [x|]; [|done].
  cbn [mbind option_bind] in H. destruct (strip_prefix _ x) as [y|]; [|done]. cbn in H.
  apply parse_usize_range in H. lia.
Qed.

Lemma next_high_water_le s g h : h ≤ next_high_water s g h.
Proof. unfold next_high_water. destruct (generated_goal_ordinal s g); lia. Qed.

Lemma next_high_water_range s g h : 0 ≤ h ≤ u64_max → 0 ≤ next_high_water s g h ≤ u64_max.
Proof.
  unfold next_high_water. destruct (generated_goal_ordinal s g) eqn:E; [|done]. apply generated_range in E. lia.
Qed.

(** The index a save writes is read back, and good. *)
Lemma index_text s ix :
  good_entries s ix → ∃ text, index_to_string (durable_of ix) = Ok text ∧
    decode_index (index_name s) (text ++ [0x0A]) = Ok ix.
Proof.
  intros [Hsc Hs _ _ _ _ _]. pose proof (index_serializes (durable_of ix)) as Hser.
  destruct (index_to_string (durable_of ix)) as [text|] eqn:E; [|done]. exists text. split; [done|].
  unfold decode_index. rewrite (index_json_roundtrip _ _ E).
  cbn [se_goal_ids se_schema se_session_id durable_of ds_schema ds_session_id ds_entries ds_high_water].
  destruct ix as [sc si ids hw]. cbn in Hsc. by subst sc.
Qed.

(** Writing a good index whose goals exist keeps the invariant throughout. *)
Lemma write_index_safe w s ix :
  I w → good_entries s ix →
  (opened = true → (∀ g, g ∈ goal_ids ix → is_Some (stored_goal w g)) ∧
                   (∀ g q, acks !! g = Some q → owner g = s → g ∈ goal_ids ix)) →
  safe F I (write_index ix) w (λ r w',
    match r with
    | Ok _ => stored_index w' s = ix ∧ (∀ s', s' ≠ s → stored_index w' s' = stored_index w s') ∧
              quiet_dir (goals_dir w) (goals_dir w')
    | Err _ => faulty F
    end).
Proof.
  intros Hi Hg Ho. destruct (index_text s ix Hg) as (text & Ht & Hd). unfold write_index. rewrite Ht.
  rewrite (entries_session _ _ Hg).
  assert (∀ w', publish SessionsDir (index_name s) (mkFile (text ++ [0x0A]) true) w w' →
    I w' ∧ stored_index w' s = ix ∧ (∀ s', s' ≠ s → stored_index w' s' = stored_index w s')) as Hp.
  { intros w' Hp. by edestruct (publish_index_Inv acks opened w w' s ix) as (? & ? & ? & _). }
  eapply safe_post; [apply write_atomically_safe; [apply index_name_not_temp|by eapply inv_there| |]|].
  - intros w' Hq. by eapply Inv_quiet.
  - intros w' Hw. by apply Hp.
  - intros [[]|e] w' _; [|done]. intros [P _]. destruct (Hp w' P) as (_ & H1 & H2). split_and!; [done..|].
    destruct P as (_ & _ & _ & D & _). by apply (D GoalsDir).
Qed.

(** Writing a goal that keeps what was promised of it: when the write succeeds,
    anything that holds of it may be promised. *)
Lemma write_goal_safe w r text :
  I w → savable r → encode r = Ok text → (∀ q, acks !! goal_id r = Some q → q r) →
  safe F I (write_atomically GoalsDir (record_name (goal_id r)) text) w (λ x w',
    match x with
    | Ok _ => (∀ q, q r → Inv (<[goal_id r := q]> acks) false w') ∧
              stored_goal w' (goal_id r) = Some r ∧ goal_size w' (goal_id r) = len (as_bytes text) ∧
              (∀ g, g ≠ goal_id r → stored_goal w' g = stored_goal w g ∧ goal_size w' g = goal_size w g) ∧
              quiet_dir (sessions_dir w) (sessions_dir w')
    | Err _ => faulty F
    end).
Proof.
  intros Hi Hs He Hrev. destruct (encode_good r text Hs He) as [Hgood Hd].
  assert (∀ w', publish GoalsDir (record_name (goal_id r)) (mkFile text true) w w' →
    I w' ∧ stored_goal w' (goal_id r) = Some r ∧ (∀ g', g' ≠ goal_id r → stored_goal w' g' = stored_goal w g')) as Hp.
  { intros w' Hp. by edestruct (publish_goal_Inv acks opened w w' (goal_id r) r) as (? & ? & ? & _). }
  eapply safe_post; [apply write_atomically_safe; [apply record_name_not_temp|by eapply inv_there| |]|].
  - intros w' Hq. by eapply Inv_quiet.
  - intros w' Hw. by apply Hp.
  - intros [[]|e] w' Hi'; [|done]. intros [P Hc]. destruct (Hp w' P) as (_ & H1 & H2).
    destruct P as (V & _ & O & D & _). split_and!.
    + intros q Hqr. constructor; [apply Hi'|apply Hi'| |done|apply Hi']. intros g q' v Hk Hcand.
      destruct (decide (g = goal_id r)) as [->|Hne].
      * simplify_map_eq. apply Hc in Hcand as ->. exists (mkFile text true), r. by split_and!.
      * rewrite lookup_insert_ne in Hk by done. by eapply (inv_acked _ _ _ Hi').
    + done.
    + unfold goal_size. cbn [dir_of] in V. by rewrite V.
    + intros g Hne. split; [by apply H2|]. unfold goal_size.
      destruct (O (record_name g) (record_name_not_temp g)) as [Hv _]; [|cbn [dir_of] in Hv; by rewrite Hv].
      intros Hn. by apply record_name_inj in Hn.
    + by apply (D SessionsDir).
Qed.

Lemma total_size_stable w w' ids :
  (∀ g, g ∈ ids → goal_size w' g = goal_size w g) → total_size w' ids = total_size w ids.
Proof.
  intros H. unfold total_size. induction ids as [|g ids IH]; [done|]. cbn [foldr].
  rewrite H by left. rewrite IH; [done|]. intros g' Hg. apply H. by right.
Qed.

(** The decision of a save, made on the state it finds. *)
Definition decision_at (budget : GoalBudget) (w : World) (r : GoalRecord) (text : str) : result StoreError SessionIndex :=
  save_decision budget (stored_goal w (goal_id r)) (stored_index w (session_id r)) (goal_size w (goal_id r))
    (total_size w (goal_ids (stored_index w (session_id r)))) (len (as_bytes text)) r.

(** The next index of a session is good and names the goal saved. *)
Lemma save_decision_good budget existing s ix size total offered r ix' :
  good_entries s ix → session_id r = s → owner (goal_id r) = s →
  save_decision budget existing ix size total offered r = Ok ix' →
  good_entries s ix' ∧ goal_id r ∈ goal_ids ix' ∧ goal_ids ix ⊆ goal_ids ix' ∧
  (∀ g, g ∈ goal_ids ix' → g = goal_id r ∨ g ∈ goal_ids ix) ∧
  ix' = (if bool_decide (goal_id r ∈ goal_ids ix) then ix else
          mkIndex (ix_schema ix) (ix_session_id ix) (goal_ids ix ++ [goal_id r])
                (next_high_water (session_id r) (goal_id r) (goal_id_high_water ix))).
Proof.
  intros Hg Hs Hown. unfold save_decision. destruct (_ && _); [done|]. destruct (admit_record _ _ _ _); [|done].
  intros [= <-]. case_bool_decide as Hin; cbn [negb]; [by split_and!; auto|].
  split_and!; cbn [goal_ids]; [|set_solver..|done]. destruct Hg as [H1 H2 H3 H4 H5 H6 H7].
  constructor; cbn [ix_schema ix_session_id goal_ids goal_id_high_water]; [done..| |by apply next_high_water_range| |].
  - apply NoDup_app. split_and!; [done| |by apply NoDup_singleton]. set_solver.
  - intros g o [Hg| ->%list_elem_of_singleton]%elem_of_app Ho.
    + specialize (H6 g o Hg Ho). pose proof (next_high_water_le (session_id r) (goal_id r) (goal_id_high_water ix)). lia.
    + unfold next_high_water. rewrite Hs, Ho. lia.
  - intros g [Hg| ->%list_elem_of_singleton]%elem_of_app; [by apply H7|done].
Qed.

(** A record that keeps what was promised of the record it succeeds. *)
Definition save_keeps (r : GoalRecord) : Prop :=
  ∀ q r0, acks !! goal_id r = Some q → savable r0 → q r0 → revision r = sat_add u64_max (revision r0) 1 → q r.

(** Promises that compaction keeps. *)
Definition compaction_keeps : Prop :=
  ∀ g q r k, acks !! g = Some q → savable r → q r → is_closed (status r) = true → q (compact_record r k).

(** A save that goes ahead keeps what was promised. *)
Lemma save_decision_keeps b w budget r text ix :
  Inv acks b w → save_keeps r → decision_at budget w r text = Ok ix → ∀ q, acks !! goal_id r = Some q → q r.
Proof.
  intros Hi Hkeep Hd q Hk. destruct (acked_stored _ _ _ _ _ Hi Hk) as (r0 & Hst & Hq).
  destruct (decide (stored_goal w (goal_id r) = Some r)) as [|Hne]; [congruence|].
  destruct (stored_goal_Some _ _ _ _ _ Hi Hst) as (_ & Hsav & _). revert Hd. unfold decision_at, save_decision.
  rewrite (bool_decide_eq_false_2 _ Hne), andb_false_r. cbn [negb andb]. rewrite Hst.
  destruct (revision r =? sat_add u64_max (revision r0) 1) eqn:E; [|done]. boolify. intros _. by eapply Hkeep.
Qed.

(** What a save has done when it returns. *)
Definition saved (w : World) (r : GoalRecord) (text : str) (ix : SessionIndex) (w' : World) : Prop :=
  stored_index w' (session_id r) = ix ∧ (∀ s, s ≠ session_id r → stored_index w' s = stored_index w s) ∧
  stored_goal w' (goal_id r) = Some r ∧ goal_size w' (goal_id r) = len (as_bytes text) ∧
  (∀ g, g ≠ goal_id r → stored_goal w' g = stored_goal w g ∧ goal_size w' g = goal_size w g) ∧
  (∀ q, stored_goal w (goal_id r) ≠ Some r → q r → Inv (<[goal_id r := q]> acks) true w').

Definition save_post (budget : GoalBudget) (w : World) (r : GoalRecord) (text : str)
    (x : result StoreError unit) (w' : World) : Prop :=
  match x with
  | Ok _ => ∃ ix, decision_at budget w r text = Ok ix ∧ saved w r text ix w'
  | Err e => faulty F ∨ (decision_at budget w r text = Err e ∧ same_dirs w w')
  end.

Lemma stored_goal_same w w' g : same_dirs w w' → stored_goal w' g = stored_goal w g.
Proof. intros H. apply stored_goal_quiet. apply (quiet_same w w' H GoalsDir). Qed.

Lemma stored_index_same w w' s : same_dirs w w' → stored_index w' s = stored_index w s.
Proof. intros H. apply stored_index_quiet. apply (quiet_same w w' H SessionsDir). Qed.

Lemma goal_size_same w w' g : same_dirs w w' → goal_size w' g = goal_size w g.
Proof. intros H. specialize (H GoalsDir). unfold goal_size. cbn in H. by rewrite H. Qed.

Lemma goal_size_quiet w w' g : quiet_dir (goals_dir w) (goals_dir w') → goal_size w' g = goal_size w g.
Proof. intros Q. unfold goal_size. by destruct (proj2 Q (record_name g) (record_name_not_temp g)) as [-> _]. Qed.

Lemma save_post_same budget w r text x w1 w2 :
  same_dirs w1 w2 → save_post budget w r text x w1 → save_post budget w r text x w2.
Proof.
  intros Hsame. destruct x as [[]|e]; cbn.
  - intros (ix & Hd & H1 & H2 & H3 & H4 & H5 & H6). exists ix. split; [done|]. unfold saved.
    split_and!.
    + by rewrite (stored_index_same w1 w2).
    + intros s Hs. rewrite (stored_index_same w1 w2) by done. by apply H2.
    + by rewrite (stored_goal_same w1 w2).
    + by rewrite (goal_size_same w1 w2).
    + intros g Hg. rewrite (stored_goal_same w1 w2), (goal_size_same w1 w2) by done. by apply H5.
    + intros q Hne Hq. eapply Inv_quiet; [by apply H6|by apply quiet_same].
  - intros [Hf|[Hd Hs]]; [by left|right]. split; [done|]. intros d. by rewrite Hsame, Hs.
Qed.

(** The goal is in place: written, or found there by an adopting save. *)
Definition goal_placed (w : World) (r : GoalRecord) (text : str) (x : result StoreError unit) (w1 : World) : Prop :=
  match x with
  | Ok _ => (∀ q, stored_goal w (goal_id r) ≠ Some r → q r → Inv (<[goal_id r := q]> acks) false w1) ∧
            stored_goal w1 (goal_id r) = Some r ∧ goal_size w1 (goal_id r) = len (as_bytes text) ∧
            (∀ g, g ≠ goal_id r → stored_goal w1 g = stored_goal w g ∧ goal_size w1 g = goal_size w g) ∧
            quiet_dir (sessions_dir w) (sessions_dir w1)
  | Err _ => faulty F
  end.

Lemma place_goal_safe budget w r text ix (adopts : bool) :
  I w → savable r → save_keeps r → encode r = Ok text → decision_at budget w r text = Ok ix →
  (adopts = true → stored_goal w (goal_id r) = Some r) →
  safe F I (if adopts then Ret (Ok tt) else write_atomically GoalsDir (record_name (goal_id r)) text : M unit) w
    (goal_placed w r text).
Proof.
  intros Hi Hs Hkeep He Hd Had. destruct adopts.
  - specialize (Had eq_refl).
    destruct (stored_goal_Some _ _ _ _ _ Hi Had) as (_ & _ & f & Hf & _ & Hef). rewrite He in Hef. injection Hef as Hef.
    split; [done|]. split_and!; [done|done| |done|done]. unfold goal_size. by rewrite Hf, Hef.
  - eapply safe_post; [apply (write_goal_safe w r text Hi Hs He)|].
    + by eapply save_decision_keeps.
    + intros [[]|e] w1 _; [|done]. intros (H1 & H2 & H3 & H4 & H5). split_and!; [|done..]. intros q _. apply H1.
Qed.

(** The index names the goal. *)
Lemma place_index_safe budget w w1 r text ix :
  opened = true → I w → I w1 → savable r → decision_at budget w r text = Ok ix → goal_placed w r text (Ok tt) w1 →
  let old := stored_index w (session_id r) in
  safe F I (if negb (bool_decide (goal_id r ∈ goal_ids old)) then
              write_index (mkIndex (ix_schema old) (ix_session_id old) (goal_ids old ++ [goal_id r])
                (next_high_water (session_id r) (goal_id r) (goal_id_high_water old)))
            else Ret (Ok tt) : M unit) w1 (λ x w2, match x with
    | Ok _ => stored_index w2 (session_id r) = ix ∧ goal_id r ∈ goal_ids ix ∧
              (∀ s, s ≠ session_id r → stored_index w2 s = stored_index w s) ∧
              quiet_dir (goals_dir w1) (goals_dir w2)
    | Err _ => faulty F end).
Proof.
  intros Hop Hi Hi1 Hs Hd (_ & Hg1 & _ & Hoth1 & Hq1) old.
  pose proof (wf_session_id _ (savable_wf _ Hs)) as Hv.
  destruct (save_decision_good _ _ _ _ _ _ _ _ _ (stored_index_good _ _ _ _ Hi Hv) eq_refl (eq_sym (savable_owner _ Hs)) Hd) as (Hgood & Hin & Hsub & Hold & Hix).
  destruct (inv_open _ _ _ Hi Hop) as [Hent Hack].
  assert (∀ s, stored_index w1 s = stored_index w s) as Hix1 by (intros s; by apply stored_index_quiet).
  fold old in Hix. destruct (bool_decide (goal_id r ∈ goal_ids old)); cbn [negb].
  - split; [done|]. subst ix. by split_and!.
  - rewrite <- Hix. eapply safe_post; [apply (write_index_safe w1 (session_id r) ix Hi1 Hgood)|].
    + intros _. split.
      * intros g [->|Hgo]%Hold; [by rewrite Hg1|]. destruct (decide (g = goal_id r)) as [->|Hne]; [by rewrite Hg1|].
        destruct (Hoth1 g Hne) as [-> _]. by eapply Hent.
      * intros g q Hk Ho. apply Hsub. rewrite <- Ho. by eapply Hack.
    + intros [[]|e] w2 _; [|done]. intros (H1 & H2 & H3). split_and!; [done|done| |done].
      intros s Hne. by rewrite H2, Hix1.
Qed.

(** The writes of a save whose decision is to go ahead. *)
Lemma save_writes_safe budget w r text ix :
  opened = true → I w → savable r → save_keeps r → encode r = Ok text → decision_at budget w r text = Ok ix →
  let old := stored_index w (session_id r) in
  let is_new := negb (bool_decide (goal_id r ∈ goal_ids old)) in
  let adopts := is_new && bool_decide (stored_goal w (goal_id r) = Some r) in
  safe F I (
    _ ← (if adopts then Ret (Ok tt) else write_atomically GoalsDir (record_name (goal_id r)) text : M unit);
    _ ← (if is_new then
           write_index (mkIndex (ix_schema old) (ix_session_id old) (goal_ids old ++ [goal_id r])
             (next_high_water (session_id r) (goal_id r) (goal_id_high_water old)))
         else Ret (Ok tt) : M unit);
    accept tt) w (save_post budget w r text).
Proof.
  intros Hop Hi Hs Hkeep He Hd old is_new adopts.
  apply safe_bindM. eapply safe_post; [apply (place_goal_safe budget w r text ix adopts Hi Hs Hkeep He Hd)|].
  { intros Ha. apply andb_true_iff in Ha as [_ Ha]. by apply bool_decide_eq_true in Ha. }
  intros [[]|e] w1 Hi1 Hp; [|by left].
  apply safe_bindM. eapply safe_post; [by apply (place_index_safe budget w w1 r text ix)|].
  destruct Hp as (Hacks & Hg1 & Hsz1 & Hoth1 & Hq1).
  intros [[]|e] w2 Hi2; [|by left]. intros (Hs2 & Hin & Hso2 & Hq2).
  apply accept_safe; [done|intros *; apply save_post_same|]. exists ix. split; [done|]. split_and!; [done|done| | | |].
  - by rewrite (stored_goal_quiet w1 w2).
  - by rewrite (goal_size_quiet w1 w2).
  - intros g Hne. rewrite (stored_goal_quiet w1 w2), (goal_size_quiet w1 w2) by done. by apply Hoth1.
  - intros q Hne Hqr. specialize (Hacks q Hne Hqr). destruct Hi2 as [Hg2 Hse2 Ha2 Ho2 Ht2]. constructor; [done|done| | |done].
    + intros g q' v Hk Hc. eapply (inv_acked _ _ _ Hacks); [done|]. by apply (proj2 Hq2 _ (record_name_not_temp g)).
    + intros _. destruct (Ho2 Hop) as [H1 H2]. split; [done|]. intros g q' Hk.
      destruct (decide (g = goal_id r)) as [->|Hne']; [by rewrite <- (savable_owner _ Hs), Hs2|].
      rewrite lookup_insert_ne in Hk by done. by eapply H2.
Qed.

Lemma save_locked_safe budget w r text :
  opened = true → I w → savable r → save_keeps r → encode r = Ok text →
  safe F I (save_locked budget r text) w (save_post budget w r text).
Proof.
  intros Hop Hi Hs Hkeep He. unfold save_locked.
  apply safe_bindM. eapply safe_post; [by apply read_record_sized_safe|].
  intros [existing|e] w' _ [-> H]; [|by left]. destruct H as [Hex Hsz].
  apply safe_bindM. eapply safe_post; [by apply read_index_safe|].
  intros [ix|e] w' _ [-> H]; [|by left]. subst ix. rewrite Hex.
  replace (match existing with Some (stored, _) => sat_add u64_max (revision stored) 1 | None => 1 end)
    with (match stored_goal w (goal_id r) with Some stored => sat_add u64_max (revision stored) 1 | None => 1 end)
    by (rewrite <- Hex; by destruct existing as [[]|]).
  replace (match existing with Some (_, b) => b | None => 0 end) with (goal_size w (goal_id r))
    by (rewrite <- Hsz; by destruct existing as [[]|]).
  destruct (_ && negb (revision r =? _)) eqn:Econf.
  { split; [done|]. right. split; [|by intros []]. unfold decision_at, save_decision. by rewrite Econf. }
  apply safe_bindM. eapply safe_post; [apply usage_loop_safe; [done|cbn; by split]|].
  intros [held|e] w' _ [-> H]; [|by left]. cbn [used_goals used_bytes] in H. rewrite Z.add_0_l in H.
  apply safe_bindM. split; [done|].
  set (is_new := negb (bool_decide (goal_id r ∈ goal_ids (stored_index w (session_id r))))) in *.
  assert ((if is_new then held else mkUsage (used_goals held) (sat_sub (used_bytes held) (goal_size w (goal_id r)))) =
    mkUsage (len (goal_ids (stored_index w (session_id r))))
      (if is_new then Z.min u64_max (total_size w (goal_ids (stored_index w (session_id r))))
       else sat_sub (Z.min u64_max (total_size w (goal_ids (stored_index w (session_id r))))) (goal_size w (goal_id r)))) as ->
    by (subst held; by destruct is_new).
  destruct (admit_record _ _ _ _) as [u|e] eqn:Ea.
  - assert (∃ ix, decision_at budget w r text = Ok ix) as [ix Hd].
    { unfold decision_at, save_decision. fold is_new. rewrite Econf, Ea. by eexists. }
    by apply (save_writes_safe budget w r text ix).
  - right. split; [|by intros []]. unfold decision_at, save_decision. fold is_new. by rewrite Econf, Ea.
Qed.

(** ** Listing and numbering *)

Lemma list_loop_safe w ids :
  I w → safe F I (list_loop ids) w (λ x w',
    w' = w ∧ match x with
             | Ok rs => Forall2 (λ g r, stored_goal w g = Some r) ids rs
             | Err _ => faulty F ∨ ∃ g, g ∈ ids ∧ stored_goal w g = None
             end).
Proof.
  intros Hi. induction ids as [|g ids IH]; cbn [list_loop]; [split; [done|]; split; [done|constructor]|].
  apply safe_bindM. eapply safe_post; [by apply read_record_at_safe|].
  intros [o|e] w' _ [-> H]; [subst o|split; [done|by left]].
  apply safe_bindM. split; [done|]. destruct (stored_goal w g) as [r|] eqn:E; cbn.
  - apply safe_bindM. eapply safe_post; [exact IH|]. intros [rs|e] w' _ [-> H].
    + split; [done|]. split; [done|]. by constructor.
    + split; [done|]. destruct H as [|(g' & Hg & Hn)]; [by left|]. right. exists g'. split; [by right|done].
  - split; [done|]. right. exists g. split; [left|done].
Qed.

(** An open store lists exactly the goals of the index. *)
Lemma list_blocking_safe w s :
  opened = true → I w → safe F I (list_blocking s) w (λ x w',
    same_dirs w w' ∧ match x with
                     | Ok rs => Forall2 (λ g r, stored_goal w g = Some r) (goal_ids (stored_index w s)) rs
                     | Err _ => faulty F
                     end).
Proof.
  intros Hop Hi. apply with_store_lock_safe; [done| | |by split].
  - apply safe_bindM. eapply safe_post; [by apply read_index_safe|]. intros [ix|e] w' _ [-> H]; [subst ix|by split].
    eapply safe_post; [by apply list_loop_safe|]. intros [rs|e] w' _ [-> H]; (split; [done|]); [done|].
    destruct H as [|(g & Hg & Hn)]; [done|]. destruct (inv_open _ _ _ Hi Hop) as [Hent _].
    apply Hent in Hg as [? ?]. congruence.
  - intros r w1 w2 Hs [H1 H2]. split; [|done]. intros d. by rewrite Hs, H1.
Qed.

Lemma next_goal_ordinal_safe w s :
  I w → safe F I (next_goal_ordinal_blocking s) w (λ x w',
    same_dirs w w' ∧ match x with
                     | Ok n => n = goal_id_high_water (stored_index w s) + 1 ∧ n ≤ u64_max
                     | Err _ => faulty F ∨ u64_max ≤ goal_id_high_water (stored_index w s)
                     end).
Proof.
  intros Hi. apply with_store_lock_safe; [done| | |intros e Hf; split; [done|by left]].
  - apply safe_bindM. eapply safe_post; [by apply read_index_safe|]. intros [ix|e] w' _ [-> H]; [subst ix|split; [done|by left]].
    destruct (goal_id_high_water _ <? u64_max) eqn:E; (split; [done|]); (split; [done|]); boolify; [|by right].
    split; [done|lia].
  - intros r w1 w2 Hs [H1 H2]. split; [|done]. intros d. by rewrite Hs, H1.
Qed.

Lemma usage_safe w s :
  I w → safe F I (usage s) w (λ x w',
    same_dirs w w' ∧ match x with
                     | Ok u => u = mkUsage (len (goal_ids (stored_index w s)))
                                     (Z.min u64_max (total_size w (goal_ids (stored_index w s))))
                     | Err _ => faulty F
                     end).
Proof.
  intros Hi. apply with_store_lock_safe; [done| | |by split].
  - apply safe_bindM. eapply safe_post; [by apply read_index_safe|]. intros [ix|e] w' _ [-> H]; [subst ix|by split].
    eapply safe_post; [apply usage_loop_safe; [done|cbn; by split]|]. intros [u|e] w' _ [-> H]; by split.
  - intros r w1 w2 Hs [H1 H2]. split; [|done]. intros d. by rewrite Hs, H1.
Qed.

(** ** Compaction *)

Lemma progress_ok_from p q ps : progress_ok (Some p) ps → (∀ x, q = Some x → x ≤ p) → progress_ok q ps.
Proof.
  destruct ps as [|e ps]; [done|]. cbn. intros (H1 & H2 & H3) Hq. split_and!; [|done|done].
  destruct q as [x|]; [|done]. specialize (Hq x eq_refl). lia.
Qed.

Lemma progress_ok_drop k ps : progress_ok None ps → progress_ok None (drop k ps).
Proof.
  revert ps. induction k as [|k IH]; intros ps; [done|]. destruct ps as [|e ps]; [done|]. intros (_ & _ & H).
  cbn [drop]. apply IH. eapply progress_ok_from; [exact H|done].
Qed.

Lemma compact_record_savable r k : savable r → savable (compact_record r k).
Proof.
  intros [[H1 H2 H3 H4 H5 H6] Ho Hr]. constructor; [constructor| |]; cbn; [done..| |done|by apply progress_ok_drop|done|].
  - unfold sat_add. lia.
  - unfold sat_add. lia.
Qed.

(** What compaction may change of a goal: only its old progress, counted. *)
Definition compacted_from (keep : nat) (r r' : GoalRecord) : Prop :=
  r' = r ∨ is_closed (status r) = true ∧ ∃ k, (keep ≤ length (progress r) - k)%nat ∧ r' = compact_record r k.

(** [w'] is [w] with some goals among [ids] compacted. *)
Definition compacts (keep : nat) (ids : list str) (w w' : World) : Prop :=
  (∀ s, stored_index w' s = stored_index w s) ∧
  (∀ g r, stored_goal w g = Some r →
    ∃ r', stored_goal w' g = Some r' ∧ (g ∉ ids → r' = r) ∧ compacted_from keep r r').

Lemma compacts_refl keep ids w : compacts keep ids w w.
Proof. split; [done|]. intros g r Hr. exists r. split_and!; [done..|by left]. Qed.

Lemma compacts_weaken keep g ids w w' : compacts keep ids w w' → compacts keep (g :: ids) w w'.
Proof.
  intros [H1 H2]. split; [done|]. intros g0 r Hr. destruct (H2 g0 r Hr) as (r' & Hr' & Hn & Hc).
  exists r'. split_and!; [done| |done]. set_solver.
Qed.

(** Compacting one goal, then others. *)
Lemma compacts_cons keep g ids w w1 w' r r1 :
  stored_goal w g = Some r → compacted_from keep r r1 → g ∉ ids →
  stored_goal w1 g = Some r1 → (∀ g', g' ≠ g → stored_goal w1 g' = stored_goal w g') →
  (∀ s, stored_index w1 s = stored_index w s) → compacts keep ids w1 w' → compacts keep (g :: ids) w w'.
Proof.
  intros Hr Hc Hg Hr1 Hoth Hix [H1 H2]. split; [intros s; by rewrite H1|]. intros g0 r0 Hr0.
  destruct (decide (g0 = g)) as [->|Hne].
  - destruct (H2 g r1 Hr1) as (r' & Hr' & Hn & _). rewrite (Hn Hg) in Hr'. exists r1.
    assert (r0 = r) as -> by congruence. split_and!; [done|set_solver|done].
  - destruct (H2 g0 r0) as (r' & Hr' & Hn & Hc'); [by rewrite Hoth|]. exists r'. split_and!; [done| |done]. set_solver.
Qed.

Lemma compact_loop_safe w ids k sm :
  opened = true → compaction_keeps → I w → (∀ g, g ∈ ids → is_Some (stored_goal w g)) → NoDup ids →
  safe F I (compact_loop k ids sm) w (λ x w', match x with Ok _ => compacts k ids w w' | Err _ => True end).
Proof.
  intros Hop Hkeep. revert w sm. induction ids as [|g ids IH]; intros w sm Hi Hst Hnd; cbn [compact_loop].
  { split; [done|apply compacts_refl]. }
  apply NoDup_cons in Hnd as [Hg Hnd].
  apply safe_bindM. eapply safe_post; [by apply read_record_at_safe|].
  intros [o|e] w' _ [-> H]; [subst o|done].
  destruct (Hst g) as [r Hr]; [left|]. apply safe_bindM. split; [done|]. rewrite Hr. cbn [ok_or].
  assert (Hskip : ∀ sm, safe F I (compact_loop k ids sm) w (λ x w',
    match x with Ok _ => compacts k (g :: ids) w w' | Err _ => True end)).
  { intros sm'. eapply safe_post; [apply IH; [done| |done]; set_solver|].
    intros [x|e] w' _ Hc; [|done]. by apply compacts_weaken. }
  destruct (is_closed (status r)) eqn:Ecl; cbn [negb]; [|by apply Hskip].
  destruct (decide _) as [|Hrem]; [by apply Hskip|]. clear Hskip.
  set (n := (length (progress r) - k)%nat) in *.
  destruct (stored_goal_Some _ _ _ _ _ Hi Hr) as (Hid & Hsav & f & Hf & _ & _).
  apply safe_bindM, safe_call; [done|]. intros c Hc. cbn [perform]. unfold on_file, lookup_file. cbn [dir_of].
  rewrite Hf. destruct (fails c) eqn:Ef; cbn [fst snd]; [by split|]. split; [done|].
  apply safe_bindM. split; [done|]. destruct (encode (compact_record r n)) as [text|] eqn:Ee; [|done].
  apply safe_bindM. pose proof (compact_record_savable r n Hsav) as Hsav'.
  pose proof (write_goal_safe w (compact_record r n) text Hi Hsav' Ee) as Hwr. cbn [goal_id compact_record] in Hwr.
  rewrite Hid in Hwr. eapply safe_post; [apply Hwr|].
  { intros q Hk. destruct (acked_stored _ _ _ _ _ Hi Hk) as (r0 & Hr0 & Hq).
    assert (r0 = r) as -> by congruence. by eapply Hkeep. }
  clear Hwr. intros [[]|e] w1 Hi1; [|done]. intros (_ & Hr1 & _ & Hoth & Hq).
  apply safe_bindM. split; [done|]. intros c1 _. cbn [perform fst snd].
  set (w2 := mkWorld _ _ _). assert (same_dirs w1 w2) as Hs by by intros []. clearbody w2.
  split; [by eapply Inv_quiet; [|apply quiet_same]|].
  eapply safe_post; [apply IH; [by eapply Inv_quiet; [|apply quiet_same]| |done]|].
  - intros g' Hg'. rewrite (stored_goal_same w1 w2) by done. destruct (Hoth g') as [-> _]; [set_solver|].
    apply Hst. by right.
  - intros [x|e] w' _ Hcs; [|done]. eapply (compacts_cons k g ids w w2 w' r); [done| |done| | | |done].
    + right. split; [done|]. exists n. split; [|reflexivity]. unfold n. lia.
    + rewrite (stored_goal_same w1 w2) by done. exact Hr1.
    + intros g' Hne. rewrite (stored_goal_same w1 w2) by done. by apply Hoth.
    + intros s. rewrite (stored_index_same w1 w2) by done. by apply stored_index_quiet.
Qed.

Lemma compact_closed_history_safe w s k :
  opened = true → compaction_keeps → session_id_new s = Ok s → I w →
  safe F I (compact_closed_history s k) w (λ x w',
    match x with Ok _ => compacts k (goal_ids (stored_index w s)) w w' | Err _ => True end).
Proof.
  intros Hop Hkeep Hv Hi. apply with_store_lock_safe; [done| | |done].
  - apply safe_bindM. eapply safe_post; [by apply read_index_safe|]. intros [ix|e] w' _ [-> H]; [subst ix|done].
    apply compact_loop_safe; [done|done|done| |apply (entries_nodup s), (stored_index_good _ _ _ _ Hi Hv)].
    intros g Hg. destruct (inv_open _ _ _ Hi Hop) as [Hent _]. by eapply Hent.
  - intros [x|e] w1 w2 Hs; [|done]. intros [H1 H2]. split; [intros s0; by rewrite (stored_index_same w1 w2)|].
    intros g r Hr. rewrite (stored_goal_same w1 w2) by done. by apply H2.
Qed.

(** ** Recovery *)

(** No temporary is left in a directory. *)
Definition clean (d : Dir) : Prop := ∀ n, is_Some (view d !! n) → temp n = false.

Lemma discard_loop_safe w d names k :
  I w → NoDup names → (∀ n, n ∈ names → is_Some (view (dir_of w d) !! n)) →
  safe F I (discard_loop d names k) w (λ x w',
    match x with
    | Ok _ => quiet w w' ∧ (∀ d', d' ≠ d → dir_of w' d' = dir_of w d') ∧
        (∀ n, is_Some (view (dir_of w' d) !! n) →
           is_Some (view (dir_of w d) !! n) ∧ (n ∈ names → temp n = false))
    | Err _ => faulty F
    end).
Proof.
  revert w k. induction names as [|n names IH]; intros w k Hi Hnd Hex; cbn [discard_loop].
  { split; [done|]. split_and!; [apply quiet_refl|done|]. intros n Hn. split; [done|]. by intros ?%not_elem_of_nil. }
  apply NoDup_cons in Hnd as [Hn Hnd]. fold (temp n). destruct (temp n) eqn:Et.
  - apply safe_bindM, safe_call; [done|]. intros c Hc. cbn [perform].
    destruct (Hex n) as [f Hf]; [left|]. unfold on_file, lookup_file. rewrite Hf.
    destruct (fails c) eqn:Ef; cbn [fst snd]; [split; [done|by eapply fails_faulty]|].
    set (w1 := change w d (Del n)).
    assert (quiet w w1) as Q1 by (apply quiet_change; intros m; by apply del_temp_sets).
    assert (∀ m, view (dir_of w1 d) !! m = if decide (m = n) then None else view (dir_of w d) !! m) as Hv1.
    { intros m. unfold w1, change. rewrite dir_of_set, decide_True by done. rewrite view_push. cbn.
      by destruct (decide (m = n)). }
    assert (∀ d', d' ≠ d → dir_of w1 d' = dir_of w d') as Hd1.
    { intros d' Hne. unfold w1, change. by rewrite dir_of_set, decide_False. }
    clearbody w1. assert (I w1) as Hi1 by by eapply Inv_quiet. split; [done|].
    eapply safe_post; [apply IH; [done..|]|].
    + intros m Hm. rewrite Hv1, decide_False by (intros ->; done). apply Hex. by right.
    + intros [x|e] w' _; [|done]. intros (Q & Hd & Hv). split_and!; [by eapply quiet_trans| |].
      * intros d' Hne. by rewrite Hd, Hd1.
      * intros m Hm. destruct (Hv m Hm) as [Hm1 Hm2]. rewrite Hv1 in Hm1.
        destruct (decide (m = n)) as [->|Hne]; [by destruct Hm1|]. split; [done|]. set_solver.
  - eapply safe_post; [apply IH; [done..|]; set_solver|].
    intros [x|e] w' _; [|done]. intros (Q & Hd & Hv). split_and!; [done..|]. intros m Hm.
    destruct (Hv m Hm) as [Hm1 Hm2]. split; [done|]. intros [->|Hin]%elem_of_cons; [done|by apply Hm2].
Qed.

Lemma read_dir_safe {B} w d (k : list str → M B) Q :
  I w → (∀ e w', faulty F → Q (Err e) w') →
  (∀ names, NoDup names → (∀ n, n ∈ names ↔ is_Some (view (dir_of w d) !! n)) → safe F I (k names) w Q) →
  safe F I (call (ReadDir d) (DirPath d) ≫= k) w Q.
Proof.
  intros Hi Herr Hk. apply safe_bindM, safe_call; [done|]. intros c Hc. cbn [perform].
  rewrite in_dir_there by by eapply inv_there.
  destruct (fails c) eqn:Ef; cbn [fst snd]; (split; [done|]); [apply Herr; by eapply fails_faulty|].
  apply Hk; [apply NoDup_fst_map_to_list|]. intros n. rewrite list_elem_of_fmap. split.
  - intros ([m f] & -> & Hm%elem_of_map_to_list). by exists f.
  - intros [f Hf]. exists (n, f). split; [done|]. by apply elem_of_map_to_list.
Qed.

Lemma discard_temporaries_safe w d k :
  I w → safe F I (discard_temporaries d k) w (λ x w',
    match x with
    | Ok _ => quiet w w' ∧ (∀ d', d' ≠ d → dir_of w' d' = dir_of w d') ∧ clean (dir_of w' d)
    | Err _ => faulty F
    end).
Proof.
  intros Hi. apply read_dir_safe; [done|done|]. intros names Hnd Hin.
  eapply safe_post; [apply discard_loop_safe; [done|done|]|].
  - intros n. by apply Hin.
  - intros [x|e] w' _; [|done]. intros (Q & Hd & Hv). split_and!; [done..|]. intros n Hn.
    destruct (Hv n Hn) as [Hn1 Hn2]. by apply Hn2, Hin.
Qed.

(** The records a scan has collected are the ones stored. *)
Definition sound_scan (w : World) (records : gmap str GoalRecord) : Prop :=
  ∀ g r, records !! g = Some r → stored_goal w g = Some r.

Lemma scan_loop_safe w names records :
  I w → (∀ n, n ∈ names → ∃ g, n = record_name g ∧ is_Some (stored_goal w g)) → sound_scan w records →
  safe F I (scan_loop names records) w (λ x w',
    w' = w ∧ match x with
             | Ok m => sound_scan w m ∧
                 ∀ g r, stored_goal w g = Some r → record_name g ∈ names ∨ records !! g = Some r → m !! g = Some r
             | Err _ => faulty F
             end).
Proof.
  intros Hi. revert records. induction names as [|n names IH]; intros records Hn Hs; cbn [scan_loop].
  { split; [done|]. split; [done|]. split; [done|]. by intros g r _ [?%not_elem_of_nil|]. }
  destruct (Hn n) as (g & -> & [r Hr]); [left|]. rewrite record_name_extension.
  apply safe_bindM. eapply safe_post; [by apply read_record_at_safe|]. intros [o|e] w' _ [-> H]; [subst o|done].
  rewrite Hr. destruct (stored_goal_Some _ _ _ _ _ Hi Hr) as (Hid & _).
  eapply safe_post; [apply IH|].
  - intros n Hin. apply Hn. by right.
  - intros g' r' Hg'. rewrite Hid in Hg'. destruct (decide (g' = g)) as [->|Hne]; simplify_map_eq; [done|]. by apply Hs.
  - intros [m|e] w' _ [-> H]; (split; [done|]); [|done]. destruct H as [H1 H2]. split; [done|].
    intros g' r' Hg' Hor. apply H2; [done|]. rewrite Hid. destruct (decide (g' = g)) as [->|Hne].
    + right. simplify_map_eq. congruence.
    + rewrite lookup_insert_ne by done. destruct Hor as [[Heq|Hin]%elem_of_cons|Hrec]; [|by left|by right].
      apply record_name_inj in Heq. congruence.
Qed.

Lemma scan_records_safe w :
  I w → clean (goals_dir w) → safe F I scan_records w (λ x w',
    w' = w ∧ match x with Ok m => ∀ g, m !! g = stored_goal w g | Err _ => faulty F end).
Proof.
  intros Hi Hcl. apply safe_bindM, safe_call; [done|]. intros c Hc. cbn [perform].
  rewrite in_dir_there by by eapply inv_there.
  destruct (fails c) eqn:Ef; cbn [fst snd]; (split; [done|]); [split; [done|by eapply fails_faulty]|].
  eapply safe_post; [apply scan_loop_safe; [done| |]|].
  - intros n Hn. apply list_elem_of_fmap in Hn as ([n' f] & -> & Hf%elem_of_map_to_list). cbn [fst dir_of] in *.
    assert (temp n' = false) as Ht by by apply Hcl.
    pose proof (view_Cand (goals_dir w) n') as Hca. rewrite Hf in Hca.
    destruct (inv_goals _ _ _ Hi n' f Ht Hca) as (_ & r & _ & _ & ->). exists (goal_id r). split; [done|].
    destruct (stored_goal_good _ _ _ _ _ Hi Hf) as (r' & _ & _ & _ & -> & _). by eexists.
  - by intros g r Hg.
  - intros [m|e] w' _ [-> H]; (split; [done|]); [|done]. destruct H as [H1 H2]. intros g.
    destruct (stored_goal w g) as [r|] eqn:Er.
    + apply H2; [done|]. left. destruct (stored_goal_Some _ _ _ _ _ Hi Er) as (_ & _ & f & Hf & _).
      apply list_elem_of_fmap. exists (record_name g, f). split; [done|]. by apply elem_of_map_to_list.
    + destruct (m !! g) as [r|] eqn:Em; [|done]. apply H1 in Em. congruence.
Qed.

Lemma sessions_loop_safe w names found :
  I w → (∀ n, n ∈ names → ∃ s, n = index_name s ∧ is_Some (view (sessions_dir w) !! n)) →
  safe F I (sessions_loop names found) w (λ x w',
    w' = w ∧ match x with
             | Ok m => (∀ s, s ∈ found → s ∈ m) ∧ (∀ s, index_name s ∈ names → s ∈ m) ∧
                       (∀ s, s ∈ m → s ∈ found ∨ session_id_new s = Ok s)
             | Err _ => faulty F
             end).
Proof.
  intros Hi. revert found. induction names as [|n names IH]; intros found Hn; cbn [sessions_loop].
  { split; [done|]. split; [done|]. split_and!; [done| |by left]. by intros s ?%not_elem_of_nil. }
  destruct (Hn n) as (s & -> & [f Hf]); [left|].
  replace (is_record_name (index_name s)) with true by (symmetry; apply record_name_extension).
  apply safe_bindM, safe_call; [done|]. intros c Hc. cbn [perform].
  destruct (fails c) eqn:Ef; cbn [fst snd]; [split; [done|]; split; [done|by eapply fails_faulty]|].
  unfold on_file, lookup_file. cbn [dir_of]. rewrite Hf. cbn [fst snd]. split; [done|].
  destruct (stored_index_view _ _ _ _ _ Hi Hf) as [Hd Hg]. apply safe_bindM. split; [done|]. rewrite Hd.
  rewrite (entries_session _ _ Hg). eapply safe_post; [apply IH; set_solver|].
  intros [m|e] w' _ [-> H]; (split; [done|]); [|done]. destruct H as (H1 & H2 & H3).
  split_and!; [set_solver| |].
  - intros s' [Heq|Hin]%elem_of_cons; [|by apply H2]. apply index_name_inj in Heq as ->. set_solver.
  - intros s' [[->%elem_of_singleton|]%elem_of_union|]%H3; [|by left|by right]. right. apply Hg.
Qed.

(** *** The repaired index *)

Lemma filter_all_length {A} (p : A → bool) l : len l ≤ len (List.filter p l) → List.filter p l = l.
Proof.
  induction l as [|x l IH]; [done|]. cbn [List.filter]. destruct (p x); rewrite !len_cons.
  - intros H. f_equal. apply IH. lia.
  - intros H. assert (len (List.filter p l) ≤ len l); [|lia].
    clear. induction l as [|y l IH]; [done|]. cbn [List.filter]. destruct (p y); rewrite ?len_cons; lia.
Qed.

Lemma NoDup_fmap_filter {A B} (f : A → B) (p : A → bool) l : NoDup (f <$> l) → NoDup (f <$> List.filter p l).
Proof.
  induction l as [|x l IH]; [done|]. rewrite fmap_cons, NoDup_cons. intros [Hx Hl]. cbn [List.filter].
  destruct (p x); [|auto]. rewrite fmap_cons. constructor; [|auto]. intros Hin. apply Hx.
  apply list_elem_of_fmap in Hin as (y & -> & Hy). apply list_elem_of_fmap. exists y. split; [done|].
  rewrite list_elem_of_In in *. by apply filter_In in Hy as [Hy _].
Qed.

Lemma elem_of_filter_b {A} (p : A → bool) l x : x ∈ List.filter p l ↔ x ∈ l ∧ p x = true.
Proof. rewrite !list_elem_of_In. apply filter_In. Qed.

Lemma raise_high_water_spec s ids h :
  0 ≤ h ≤ u64_max →
  h ≤ raise_high_water s ids h ≤ u64_max ∧
  ∀ g o, g ∈ ids → generated_goal_ordinal s g = Some o → o ≤ raise_high_water s ids h.
Proof.
  unfold raise_high_water. revert h. induction ids as [|g ids IH]; intros h Hh; cbn [foldl].
  { split; [lia|]. by intros g o ?%not_elem_of_nil. }
  pose proof (next_high_water_le s g h) as H1. pose proof (next_high_water_range s g h Hh) as H2.
  destruct (IH _ H2) as [H3 H4]. split; [lia|]. intros g' o [->|Hin]%elem_of_cons Ho; [|by eapply H4].
  unfold next_high_water in H3 at 1. rewrite Ho in H3. lia.
Qed.

(** The index of [s] names stored goals only, and all goals of [s]. *)
Definition complete (w : World) (s : str) (ids : list str) : Prop :=
  (∀ g, g ∈ ids → is_Some (stored_goal w g)) ∧
  (∀ g r, stored_goal w g = Some r → session_id r = s → g ∈ ids).

Lemma orphans_spec w records s ids :
  I w → (∀ g, records !! g = stored_goal w g) →
  NoDup (goal_id <$> orphans_of records s ids) ∧
  ∀ r, r ∈ orphans_of records s ids ↔ stored_goal w (goal_id r) = Some r ∧ session_id r = s ∧ goal_id r ∉ ids.
Proof.
  intros Hi Hrec. unfold orphans_of. set (l := List.filter _ (records_of records s)).
  assert (NoDup (goal_id <$> l)) as Hnd.
  { apply NoDup_fmap_filter. unfold records_of. apply NoDup_fmap_filter.
    assert (goal_id <$> (map_to_list records).*2 = (map_to_list records).*1) as ->; [|apply NoDup_fst_map_to_list].
    rewrite <- list_fmap_compose. apply list_fmap_ext. intros i [g r] Hg. cbn.
    apply list_elem_of_lookup_2, elem_of_map_to_list in Hg. rewrite Hrec in Hg.
    by destruct (stored_goal_Some _ _ _ _ _ Hi Hg). }
  pose proof (merge_sort_Permutation adopt_le l) as Hp. split.
  - by rewrite Hp.
  - intros r. rewrite Hp. unfold l, records_of. rewrite !elem_of_filter_b, list_elem_of_fmap, negb_true_iff,
      bool_decide_eq_true, bool_decide_eq_false. split.
    + intros [[([g r'] & -> & Hg%elem_of_map_to_list) Hs] Hn]. cbn in *. rewrite Hrec in Hg.
      destruct (stored_goal_Some _ _ _ _ _ Hi Hg) as (Hid & _). rewrite Hid in *. by split_and!.
    + intros (Hg & Hs & Hn). split_and!; [|done..]. exists (goal_id r, r). split; [done|].
      apply elem_of_map_to_list. by rewrite Hrec.
Qed.

Lemma repaired_spec w records s ix fixed pruned adopted :
  I w → (∀ g, records !! g = stored_goal w g) → good_entries s ix →
  repaired records s ix = (fixed, pruned, adopted) →
  good_entries s fixed ∧ complete w s (goal_ids fixed) ∧
  (pruned ≤ 0 → adopted ≤ 0 → goal_ids fixed = goal_ids ix).
Proof.
  intros Hi Hrec Hg. unfold repaired. set (kept := List.filter _ (goal_ids ix)).
  destruct (orphans_spec w records s kept Hi Hrec) as [Hond Hor]. set (orphans := orphans_of records s kept) in *.
  intros [= <- <- <-]. destruct Hg as [H1 H2 H3 H4 H5 H6 H7].
  assert (∀ g, g ∈ kept ↔ g ∈ goal_ids ix ∧ is_Some (stored_goal w g)) as Hkept.
  { intros g. unfold kept. by rewrite elem_of_filter_b, bool_decide_eq_true, Hrec. }
  assert (∀ g, g ∈ goal_id <$> orphans → is_Some (stored_goal w g) ∧ g ∉ kept) as Horph.
  { intros g (r & -> & Hr%Hor)%list_elem_of_fmap. destruct Hr as (Hr & _ & Hn). split; [by eexists|done]. }
  destruct (raise_high_water_spec s (goal_ids ix) (goal_id_high_water ix) H5) as [R1 _].
  destruct (raise_high_water_spec s (kept ++ (goal_id <$> orphans)) (raise_high_water s (goal_ids ix) (goal_id_high_water ix)))
    as [R2 R3]; [lia|].
  split_and!.
  - constructor; cbn [ix_schema ix_session_id goal_ids goal_id_high_water]; [done..| |lia|done|].
    + apply NoDup_app. split_and!; [|by intros g Hk Ho; apply Horph in Ho as [_ ?]|done].
      unfold kept. apply NoDup_ListNoDup, List.NoDup_filter, NoDup_ListNoDup, H4.
    + intros g [Hk%Hkept|(r & -> & Hr%Hor)%list_elem_of_fmap]%elem_of_app; [by destruct Hk; apply H7|].
      destruct Hr as (Hr & <- & _). destruct (stored_goal_Some _ _ _ _ _ Hi Hr) as (_ & Hsav & _).
      symmetry. apply Hsav.
  - split; cbn [goal_ids].
    + intros g [Hk%Hkept|Ho%Horph]%elem_of_app; [by destruct Hk|by destruct Ho].
    + intros g r Hr Hs. apply elem_of_app. destruct (decide (g ∈ kept)) as [|Hn]; [by left|right].
      apply list_elem_of_fmap. exists r. destruct (stored_goal_Some _ _ _ _ _ Hi Hr) as (Hid & _).
      split; [done|]. apply Hor. by rewrite Hid.
  - intros Hp Ha. cbn [goal_ids]. destruct orphans; [|rewrite len_cons in Ha; pose proof (len_nonneg orphans); lia].
    rewrite app_nil_r. apply filter_all_length. fold kept. lia.
Qed.

Lemma complete_quiet w w' s ids :
  quiet_dir (goals_dir w) (goals_dir w') → complete w s ids → complete w' s ids.
Proof.
  intros Q [H1 H2]. split; intros g; rewrite (stored_goal_quiet w w') by done; [apply H1|apply H2].
Qed.

Lemma quiet_dir_refl d : quiet_dir d d.
Proof. by split. Qed.

Lemma repair_loop_safe w records sessions rep :
  I w → (∀ g, records !! g = stored_goal w g) → Forall (λ s, session_id_new s = Ok s) sessions →
  safe F I (repair_loop records sessions rep) w (λ x w',
    match x with
    | Ok _ => quiet_dir (goals_dir w) (goals_dir w') ∧
              ∀ s, s ∈ sessions ∨ complete w s (goal_ids (stored_index w s)) →
                   complete w' s (goal_ids (stored_index w' s))
    | Err _ => faulty F
    end).
Proof.
  revert w rep. induction sessions as [|s sessions IH]; intros w rep Hi Hrec Hval; cbn [repair_loop].
  { split; [done|]. split; [apply quiet_dir_refl|]. by intros s [?%not_elem_of_nil|]. }
  apply Forall_cons in Hval as [Hs Hval]. apply safe_bindM. split; [done|]. rewrite Hs.
  apply safe_bindM. eapply safe_post; [by apply read_index_safe|]. intros [ix|e] w' _ [-> H]; [subst ix|done].
  destruct (repaired records s (stored_index w s)) as [[fixed pruned] adopted] eqn:Er.
  destruct (repaired_spec _ _ _ _ _ _ _ Hi Hrec (stored_index_good _ _ _ _ Hi Hs) Er) as (Hgood & Hcomp & Hsame).
  apply safe_bindM. eapply (safe_post _ _ _ _ (λ x w1, match x with
    | Ok _ => quiet_dir (goals_dir w) (goals_dir w1) ∧ complete w1 s (goal_ids (stored_index w1 s)) ∧
              ∀ s', s' ≠ s → stored_index w1 s' = stored_index w s'
    | Err _ => faulty F end)).
  { destruct (_ || _) eqn:Ew.
    - eapply safe_post; [apply (write_index_safe w s fixed Hi Hgood)|].
      + intros Hop. destruct Hcomp as [C1 C2]. split; [done|]. intros g rev Hk Ho.
        destruct (acked_stored _ _ _ _ _ Hi Hk) as (r & Hr & _). destruct (stored_goal_Some _ _ _ _ _ Hi Hr) as (Hid & Hsav & _).
        eapply C2; [done|]. by rewrite (savable_owner _ Hsav), Hid.
      + intros [[]|e] w1 _; [|done]. intros (H1 & H2 & H3). split_and!; [done| |done]. rewrite H1. by eapply complete_quiet.
    - split; [done|]. split_and!; [apply quiet_dir_refl| |done]. boolify. rewrite <- Hsame by lia. done. }
  intros [[]|e] w1 Hi1; [|done]. intros (Q1 & C1 & O1).
  eapply safe_post; [apply IH; [done| |done]|].
  { intros g. by rewrite Hrec, (stored_goal_quiet w w1). }
  intros [x|e] w' _; [|done]. intros [Q2 C2]. split; [by eapply quiet_dir_trans|].
  intros s' Hor. apply C2. destruct (decide (s' = s)) as [->|Hne]; [by right|].
  destruct Hor as [[->|Hin]%elem_of_cons|Hc]; [done|by left|right]. rewrite O1 by done. by eapply complete_quiet.
Qed.

(** Every session has a complete index. *)
Definition repaired_all (w : World) : Prop := ∀ s, complete w s (goal_ids (stored_index w s)).

Lemma repaired_all_Inv w : I w → repaired_all w → Inv acks true w.
Proof.
  intros Hi Hall. destruct Hi as [H1 H2 H3 H4 H5]. constructor; [done..| |done]. intros _. split.
  - intros s g Hg. destruct (Hall s) as [C _]. by apply C.
  - intros g q Hk. assert (I w) as Hi by by constructor.
    destruct (acked_stored _ _ _ _ _ Hi Hk) as (r & Hr & _). destruct (stored_goal_Some _ _ _ _ _ Hi Hr) as (Hid & Hsav & _).
    destruct (Hall (owner g)) as [_ C]. eapply C; [done|]. by rewrite (savable_owner _ Hsav), Hid.
Qed.

(** Recovery leaves an open, complete store; only a failing call can stop it. *)
Definition recover_post (w : World) (x : result StoreError RecoveryReport) (w' : World) : Prop :=
  match x with
  | Ok _ => Inv acks true w' ∧ repaired_all w' ∧ ∀ g, stored_goal w' g = stored_goal w g
  | Err _ => faulty F
  end.

Lemma recover_safe w : I w → safe F I recover w (recover_post w).
Proof.
  intros Hi. unfold recover.
  apply safe_bindM. eapply safe_post; [by apply discard_temporaries_safe|].
  intros [k1|e] w1 Hi1; [|done]. intros (Q1 & _ & Cl1). cbn [dir_of] in Cl1.
  apply safe_bindM. eapply safe_post; [by apply discard_temporaries_safe|].
  intros [k2|e] w2 Hi2; [|done]. intros (Q2 & D2 & Cl2). specialize (D2 GoalsDir ltac:(done)). cbn [dir_of] in D2, Cl2.
  rewrite <- D2 in Cl1. eapply quiet_trans in Q2; [|exact Q1].
  apply safe_bindM. eapply safe_post; [by apply scan_records_safe|].
  intros [records|e] w' _ [-> Hrec]; [|done].
  apply read_dir_safe; [done|done|]. intros names _ Hnames.
  apply safe_bindM. eapply safe_post; [apply sessions_loop_safe; [done|]|].
  { intros n Hn%Hnames. cbn [dir_of] in Hn. destruct Hn as [f Hf].
    pose proof (view_Cand (sessions_dir w2) n) as Hc. rewrite Hf in Hc.
    destruct (inv_sessions _ _ _ Hi2 n f) as (_ & s & ix & _ & -> & _); [by apply Cl2; eexists|done|].
    exists s. split; [done|]. by exists f. }
  intros [found|e] w' _ [-> H]; [|done]. destruct H as (F1 & F2 & F3).
  assert (∀ g r, stored_goal w2 g = Some r → session_id r ∈ found) as Hown.
  { intros g r Hr. apply F1, elem_of_list_to_set, list_elem_of_fmap. exists r. split; [done|].
    apply list_elem_of_fmap. exists (g, r). split; [done|]. apply elem_of_map_to_list. by rewrite Hrec. }
  eapply safe_post; [apply repair_loop_safe; [done|done|]|].
  { apply Forall_forall. intros s Hs. rewrite merge_sort_Permutation, elem_of_elements in Hs.
    apply F3 in Hs as [Hs|]; [|done]. apply elem_of_list_to_set, list_elem_of_fmap in Hs as (r & -> & Hr).
    apply list_elem_of_fmap in Hr as ([g r'] & -> & Hg%elem_of_map_to_list). rewrite Hrec in Hg. cbn.
    destruct (stored_goal_Some _ _ _ _ _ Hi2 Hg) as (_ & Hsav & _). apply Hsav. }
  intros [rep|e] w3 Hi3; [|done]. intros [Q3 C3].
  assert (repaired_all w3) as Hall.
  { intros s. apply C3. destruct (decide (s ∈ found)) as [Hin|Hni].
    - left. by rewrite merge_sort_Permutation, elem_of_elements.
    - right. assert (stored_index w2 s = empty_index s) as ->.
      { unfold stored_index. destruct (view (sessions_dir w2) !! index_name s) eqn:Ev; [|done].
        destruct Hni. apply F2, Hnames. cbn [dir_of]. by rewrite Ev. }
      split; [by intros g ?%not_elem_of_nil|]. intros g r Hr <-. by apply Hown in Hr. }
  split_and!; [by apply repaired_all_Inv|done|]. intros g.
  rewrite (stored_goal_quiet w2 w3) by done. apply stored_goal_quiet, (Q2 GoalsDir).
Qed.

Lemma set_make_dir w d : I w → set_dir w d (make_dir (dir_of w d)) = w.
Proof. intros Hi. rewrite make_dir_there by apply (inv_there _ _ _ Hi). apply set_dir_same. Qed.

Lemma open_safe w : I w → safe F I open_with_budget w (recover_post w).
Proof.
  intros Hi. unfold open_with_budget.
  do 3 (apply safe_bindM, safe_call; [done|]; intros ? Hc; cbn [perform];
    rewrite ?(set_make_dir w _ Hi); destruct (fails _) eqn:Ef; cbn [fst snd]; (split; [done|]); [by eapply fails_faulty|]; clear Hc Ef).
  apply with_store_lock_safe; [done|by apply recover_safe| |done].
  intros [rep|e] w1 w2 Hs; [|done]. intros (H1 & H2 & H3). split_and!.
  - eapply Inv_quiet; [done|by apply quiet_same].
  - intros s. destruct (H2 s) as [C1 C2]. rewrite (stored_index_same w1 w2) by done.
    split; intros g; rewrite (stored_goal_same w1 w2) by done; [apply C1|apply C2].
  - intros g. by rewrite (stored_goal_same w1 w2).
Qed.

Lemma save_blocking_safe budget w r :
  opened = true → I w → savable r → save_keeps r → safe F I (save_blocking budget r) w (λ x w',
    match encode r with
    | Ok text => save_post budget w r text x w'
    | Err e => x = Err (Encoding e) ∧ w' = w
    end).
Proof.
  intros Hop Hi Hs Hkeep. unfold save_blocking. destruct (encode r) as [text|e] eqn:Ee; [|by split].
  apply with_store_lock_safe; [done|by apply save_locked_safe|intros *; apply save_post_same|by left].
Qed.

Lemma load_safe w g : I w → safe F I (load g) w (λ x w',
  w' = w ∧ match x with Ok o => o = stored_goal w g | Err _ => faulty F end).
Proof. apply read_record_at_safe. Qed.

End Operations.

(** ** A power cut *)

Lemma Inv_cut acks b w lose1 keep1 junk1 lose2 keep2 junk2 i :
  Inv acks b w → survives lose1 (made (goals_dir w)) = true → survives lose2 (made (sessions_dir w)) = true →
  Inv acks false (mkWorld (cut_power lose1 keep1 junk1 (goals_dir w)) (cut_power lose2 keep2 junk2 (sessions_dir w)) i).
Proof.
  intros [Hg Hs Ha _ _] S1 S2.
  assert (Hsettle : ∀ good d lose keep junk, survives lose (made d) = true →
    holds_good good d → (∀ n f, good n f → synced f = true) → holds_good good (cut_power lose keep junk d)).
  { intros good d lose keep junk Hsv Hd Hsy n f Hn Hc. apply Cand_cut in Hc as (v0 & Hv0 & Hf); [|done].
    destruct v0 as [f0|]; [|done]. specialize (Hd n f0 Hn Hv0). cbn in Hf. unfold settle in Hf.
    rewrite (Hsy n f0 Hd) in Hf. injection Hf as ->. done. }
  constructor; cbn [goals_dir sessions_dir]; [apply Hsettle; [done|done|by intros n f []]..| |done|].
  - intros g rev v Hk Hc. apply Cand_cut in Hc as (v0 & Hv0 & Hv); [|done].
    destruct (Ha g rev v0 Hk Hv0) as (f & r & -> & Hd & Hr).
    destruct (Hg (record_name g) f (record_name_not_temp g) Hv0) as [Hsy _]. cbn in Hv. unfold settle in Hv.
    rewrite Hsy in Hv. by exists f, r.
  - intros []; cbn [dir_of goals_dir sessions_dir]; unfold there, cut_power; [by rewrite S1|by rewrite S2].
Qed.

End Recovery.
End Recovery.
