(* ===== verification/GoalHistory.v ===== *)
(** * Histories of the goal store

    The store used over time: processes open it, operate on it, die in the middle of
    an operation, and the power fails. The theorems quantify over every history from
    an empty store, every failing call and every outcome of a power cut, under two
    restrictions ([valid_event]) that the code does not establish:

    - records handed to [save] are [savable]: well formed, so that they decode again,
      and each goal identifier always used with the same session. [save_blocking]
      checks neither; [undecodable_save_blocks_reopening] saves a record with an empty
      objective, is told [Ok], and the store cannot be opened again. The records the
      goal service builds are of this kind (file [GoalTasks]).
    - no power cut takes away the directories [goals] and [sessions] themselves. They
      are created by the first [open] and nothing flushes the root that names them;
      [first_use_lost] loses an acknowledged goal that way. *)

From S2P Require Import Prelude Utf8 Text WorkerNames Approval Goals GoalDisk GoalStore GoalRecovery.

Module History.
Import Goals Disk GoalStore Recovery.

Section History.
Context `{GJ : GoalJson} `{IJ : IndexJson} `{DG : Digest}.

(** ** Histories *)

Inductive Operation :=
| Save (budget : GoalBudget) (r : GoalRecord)
| Compact (session : str) (keep : nat)
| ListGoals (session : str)
| NextOrdinal (session : str)
| Usage (session : str)
| Load (goal : str).

Inductive Answer :=
| Saved (x : result StoreError unit)
| Compacted (x : result StoreError CompactionSummary)
| Listed (x : result StoreError (list GoalRecord))
| Numbered (x : result StoreError Z)
| Used (x : result StoreError BudgetUsage)
| Loaded (x : result StoreError (option GoalRecord))
| Opened (x : result StoreError RecoveryReport).

Definition operate (o : Operation) : Prog Answer :=
  match o with
  | Save budget r => pbind (save_blocking budget r) (λ x, Ret (Saved x))
  | Compact s k => pbind (compact_closed_history s k) (λ x, Ret (Compacted x))
  | ListGoals s => pbind (list_blocking s) (λ x, Ret (Listed x))
  | NextOrdinal s => pbind (next_goal_ordinal_blocking s) (λ x, Ret (Numbered x))
  | Usage s => pbind (usage s) (λ x, Ret (Used x))
  | Load g => pbind (load g) (λ x, Ret (Loaded x))
  end.

(** Operations end where the environment's choices do: the process dies there. *)
Inductive Event :=
| Open (process : Z) (cs : list Choice)
| Run (i : nat) (o : Operation) (cs : list Choice)
| Kill (i : nat)
| PowerCut (lose_goals : bool) (keep_goals : list bool) (junk_goals : str → str)
    (lose_sessions : bool) (keep_sessions : list bool) (junk_sessions : str → str).

Record State := mkState { goals : Dir; sessions : Dir; stores : list Instance_ }.

(** Before the first use, and once the two directories have been created. *)
Definition blank : State := mkState no_dir no_dir [].
Definition initial : State := mkState (make_dir no_dir) (make_dir no_dir) [].

Definition world_of (st : State) (i : Instance_) : World := mkWorld (goals st) (sessions st) i.

Definition fresh (process : Z) : Instance_ := mkInstance process 0 0 0 0 0.

(** The answer is [None] when the operation was cut short. *)
Definition step (st : State) (e : Event) : State * option Answer :=
  match e with
  | Open process cs =>
      let '(x, _, w) := exec cs open_with_budget (world_of st (fresh process)) in
      (mkState (goals_dir w) (sessions_dir w)
         (match x with Some (Ok _) => stores st ++ [inst w] | _ => stores st end), Opened <$> x)
  | Run i o cs =>
      match stores st !! i with
      | None => (st, None)
      | Some instance =>
          let '(x, _, w) := exec cs (operate o) (world_of st instance) in
          (mkState (goals_dir w) (sessions_dir w) (<[i := inst w]> (stores st)), x)
      end
  | Kill i => (mkState (goals st) (sessions st) (delete i (stores st)), None)
  | PowerCut lg kg jg ls ks js => (mkState (cut_power lg kg jg (goals st)) (cut_power ls ks js (sessions st)) [], None)
  end.

Fixpoint run (st : State) (es : list Event) : State :=
  match es with [] => st | e :: es => run (step st e).1 es end.

(** ** Reachable states *)

Context (owner : str → str).

(** The histories considered: a saved record is well formed and keeps to the session
    of its goal, a compacted session has a valid identifier (as its type says), and a
    power cut leaves the two directories in place. *)
Definition valid_event (e : Event) : Prop :=
  match e with
  | Run _ (Save _ r) _ => savable owner r
  | Run _ (Compact s _) _ => session_id_new s = Ok s
  | PowerCut lose_goals _ _ lose_sessions _ _ => lose_goals = false ∧ lose_sessions = false
  | _ => True
  end.

Definition is_open (st : State) : bool := bool_decide (stores st ≠ []).

Definition StateInv (acks : Promises) (st : State) : Prop := Inv owner acks (is_open st) (world_of st (fresh 0)).

Lemma Inv_state acks b w : Inv owner acks b w → ∀ i, Inv owner acks b (mkWorld (goals_dir w) (sessions_dir w) i).
Proof. intros Hi i. eapply Inv_quiet; [done|]. apply quiet_same. by intros []. Qed.

Lemma Inv_weaken acks b w : Inv owner acks b w → Inv owner acks false w.
Proof. intros [H1 H2 H3 _ H5]. by constructor. Qed.

Lemma StateInv_world acks st i : StateInv acks st → Inv owner acks (is_open st) (world_of st i).
Proof. intros Hi. by apply (Inv_state _ _ _ Hi). Qed.

Lemma Inv_StateInv acks b w ss :
  Inv owner acks b w → (ss ≠ [] → b = true) → StateInv acks (mkState (goals_dir w) (sessions_dir w) ss).
Proof.
  intros Hi Hb. unfold StateInv, is_open. case_bool_decide as Hs; cbn [stores] in Hs.
  - rewrite Hb in Hi by done. by apply (Inv_state _ _ _ Hi).
  - apply Inv_weaken in Hi. by apply (Inv_state _ _ _ Hi).
Qed.

Lemma Cand_empty n v : Cand (make_dir no_dir) n v → v = None.
Proof. intros [<-|(op & H & _)]; [apply lookup_empty|by apply not_elem_of_nil in H]. Qed.

Lemma StateInv_initial : StateInv ∅ initial.
Proof. constructor; [by intros n f _ H%Cand_empty..|done|done|by intros []]. Qed.

(** The first [open] creates the directories: from there on it runs as on [initial]. *)
Lemma first_open process cs :
  step blank (Open process (Fine :: Fine :: cs)) = step initial (Open process (Fine :: Fine :: cs)).
Proof. done. Qed.

(** A directory that is there survives a power cut that does not take it. *)
Lemma there_survives lose d : there d → lose = false → survives lose (made d) = true.
Proof. unfold there. intros Hd ->. by destruct (made d). Qed.

(** A save acknowledges its revision unless it adopts a record it finds. *)
Definition acknowledges (st : State) (r : GoalRecord) (answer : option Answer) : Prop :=
  answer = Some (Saved (Ok tt)) ∧ stored_goal (world_of st (fresh 0)) (goal_id r) ≠ Some r.

(** Events that keep what was promised. *)
Definition event_keeps (acks : Promises) (e : Event) : Prop :=
  match e with
  | Run _ (Save _ r) _ => save_keeps owner acks r
  | Run _ (Compact _ _) _ => compaction_keeps owner acks
  | _ => True
  end.

(** The promise that a goal does not step back behind a revision; every event keeps
    it. *)
Definition at_least (n : Z) (r : GoalRecord) : Prop := n ≤ revision r.

Definition revision_promises (acks : Promises) : Prop := ∀ g q, acks !! g = Some q → ∃ n, q = at_least n.

Lemma sat_succ_le n r : 0 ≤ revision r ≤ u64_max → at_least n r → n ≤ sat_add u64_max (revision r) 1.
Proof. unfold at_least, sat_add. lia. Qed.

Lemma revision_event_keeps acks e : revision_promises acks → event_keeps acks e.
Proof.
  intros Hr. destruct e as [|i [b r| | | | |] cs| |]; cbn; [done| | |done..].
  - intros q r0 [n ->]%Hr Hs Hq Hrev. unfold at_least in *. rewrite Hrev. by apply sat_succ_le; [apply Hs|].
  - intros g q r k [n ->]%Hr Hs Hq _. unfold at_least in *. by apply sat_succ_le; [apply Hs|].
Qed.

Lemma revision_promises_empty : revision_promises ∅.
Proof. intros g q Hk. by rewrite lookup_empty in Hk. Qed.

Lemma revision_promises_one g n : revision_promises {[g := at_least n]}.
Proof. intros g' q [_ <-]%lookup_singleton_Some. by exists n. Qed.

(** Every operation keeps the invariant at each point it can be cut at. *)
Lemma operate_safe acks w o cs i :
  Inv owner acks true w → valid_event (Run i o cs) → event_keeps acks (Run i o cs) →
  safe (λ _, True) (Inv owner acks true) (operate o) w (λ x w',
    ∀ budget r q, o = Save budget r → x = Saved (Ok tt) → stored_goal w (goal_id r) ≠ Some r → q r →
      Inv owner (<[goal_id r := q]> acks) true w').
Proof.
  intros Hi Hv Hk. destruct o as [budget r|s k|s|s|s|g]; cbn [operate]; apply safe_pbind.
  - eapply safe_post; [by apply (save_blocking_safe owner)|]. intros x w' Hi' H. split; [done|].
    intros budget' r' q [= <- <-] [= ->] Hne Hq. destruct (encode r) as [text|]; [|by destruct H].
    destruct H as (ix & _ & _ & _ & _ & _ & _ & Hack). by apply Hack.
  - eapply safe_post; [by apply (compact_closed_history_safe owner)|]. by intros x w' Hi' _.
  - eapply safe_post; [by apply (list_blocking_safe owner)|]. by intros x w' Hi' _.
  - eapply safe_post; [by apply (next_goal_ordinal_safe owner)|]. by intros x w' Hi' _.
  - eapply safe_post; [by apply (usage_safe owner)|]. by intros x w' Hi' _.
  - eapply safe_post; [by apply (load_safe owner)|]. by intros x w' Hi' _.
Qed.

Lemma Forall_any (cs : list Choice) : Forall (λ _, True) cs.
Proof. by apply Forall_true. Qed.

Lemma history_step acks st e :
  StateInv acks st → valid_event e → event_keeps acks e →
  StateInv acks (step st e).1 ∧
  ∀ i budget r cs q, e = Run i (Save budget r) cs → acknowledges st r (step st e).2 → q r →
    StateInv (<[goal_id r := q]> acks) (step st e).1.
Proof.
  intros Hi Hv Hke. destruct e as [process cs|i o cs|i|lg kg jg ls ks js]; cbn [step].
  - destruct (exec cs open_with_budget _) as [[x cs'] w] eqn:E.
    eapply safe_exec in E as [Hi' Hq]; [|apply (open_safe owner), (StateInv_world _ _ _ Hi)|apply Forall_any].
    cbn [fst]. split; [|by intros ?????]. destruct x as [[rep|e]|].
    + destruct (Hq _ eq_refl) as [Hi2 _]. by eapply Inv_StateInv.
    + eapply Inv_StateInv; [done|]. intros Hs. by apply bool_decide_eq_true.
    + eapply Inv_StateInv; [done|]. intros Hs. by apply bool_decide_eq_true.
  - destruct (stores st !! i) as [instance|] eqn:Ei; [|split; [done|]; by intros ????? _ [? _]].
    assert (is_open st = true) as Ho by (apply bool_decide_eq_true; by intros Hn; rewrite Hn in Ei).
    pose proof (StateInv_world _ _ instance Hi) as Hw. rewrite Ho in Hw.
    destruct (exec cs (operate o) _) as [[x cs'] w] eqn:E.
    eapply safe_exec in E as [Hi' Hq]; [|by eapply operate_safe|apply Forall_any]. cbn [fst snd].
    split; [by eapply Inv_StateInv|]. intros i' budget r cs0 q [= -> -> ->] [Hx Hne] Hqr. subst x.
    eapply Inv_StateInv; [|done]. by eapply Hq.
  - split; [|by intros ?????]. apply (Inv_StateInv acks (is_open st) (world_of st (fresh 0))); [done|].
    intros Hd. apply bool_decide_eq_true. intros Hs. rewrite Hs in Hd. by destruct i.
  - split; [|by intros ?????]. apply (Inv_StateInv acks false (mkWorld (cut_power lg kg jg (goals st)) (cut_power ls ks js (sessions st)) (fresh 0))); [|done].
    destruct Hv as [Hlg Hls].
    apply (Inv_cut owner acks (is_open st) (world_of st (fresh 0))); [done|..]; (apply there_survives; [|done]);
      [apply (inv_there _ _ _ _ Hi GoalsDir)|apply (inv_there _ _ _ _ Hi SessionsDir)].
Qed.

Lemma run_reach acks st es :
  StateInv acks st → Forall valid_event es → revision_promises acks → StateInv acks (run st es).
Proof.
  intros Hi Hv Hr. revert st Hi. induction Hv as [|e es He _ IH]; intros st Hi; cbn [run]; [done|].
  apply IH. by apply (history_step acks st e Hi He), revision_event_keeps.
Qed.

Lemma reach_run es : Forall valid_event es → StateInv ∅ (run initial es).
Proof. intros Hv. apply run_reach; [apply StateInv_initial|done|apply revision_promises_empty]. Qed.

(** The state after an acknowledged save and what follows it. *)
Lemma reach_acknowledged before after i budget r cs :
  Forall valid_event (before ++ Run i (Save budget r) cs :: after) →
  acknowledges (run initial before) r (step (run initial before) (Run i (Save budget r) cs)).2 →
  StateInv {[goal_id r := at_least (revision r)]} (run (step (run initial before) (Run i (Save budget r) cs)).1 after).
Proof.
  intros Hv Hack. apply Forall_app in Hv as [Hb Hv]. apply Forall_cons in Hv as [He Ha].
  apply run_reach; [|done|apply revision_promises_one].
  eapply history_step; [by apply reach_run|done|apply revision_event_keeps, revision_promises_empty|done|done|].
  by unfold at_least.
Qed.

(** What a store opened on a reachable disk does. *)
Lemma open_calm acks st process :
  StateInv acks st → ∃ rep w, calm open_with_budget (world_of st (fresh process)) = (Ok rep, w) ∧
    Inv owner acks true w ∧ repaired_all w ∧
    ∀ g, stored_goal w g = stored_goal (world_of st (fresh process)) g.
Proof.
  intros Hi. destruct (safe_calm _ _ _ _ (open_safe owner (eq Fine) acks _ _ (StateInv_world _ _ (fresh process) Hi))) as [Hq _].
  destruct (calm open_with_budget _) as [[rep|e] w]; [by exists rep, w|]. by destruct Hq as (c & <- & ?).
Qed.

Lemma list_calm acks w s :
  Inv owner acks true w → ∃ l w', calm (list_blocking s) w = (Ok l, w') ∧
    Forall2 (λ g r, stored_goal w g = Some r) (goal_ids (stored_index w s)) l.
Proof.
  intros Hi. destruct (safe_calm _ _ _ _ (list_blocking_safe owner (eq Fine) acks true w s eq_refl Hi)) as [Hq _].
  destruct (calm (list_blocking s) w) as [[l|e] w']; destruct Hq as [_ Hq]; [by exists l, w'|]. by destruct Hq as (c & <- & ?).
Qed.

Lemma listed_goal w ids l g r :
  Forall2 (λ g r, stored_goal w g = Some r) ids l → g ∈ ids → stored_goal w g = Some r → r ∈ l.
Proof.
  induction 1 as [|g' r' ids l Hg _ IH]; [by intros ?%not_elem_of_nil|].
  intros [->|Hin]%elem_of_cons Hr; [|right; auto]. assert (r' = r) as -> by congruence. left.
Qed.

(** A goal acknowledged in an open store is listed. *)
Lemma acked_listed acks w g q :
  Inv owner acks true w → acks !! g = Some q →
  ∃ l w' r, calm (list_blocking (owner g)) w = (Ok l, w') ∧ r ∈ l ∧ goal_id r = g ∧ q r.
Proof.
  intros Hi Hk. destruct (list_calm acks w (owner g) Hi) as (l & w' & Hl & Hf).
  destruct (acked_stored _ _ _ _ _ _ Hi Hk) as (r & Hr & Hrev). destruct (inv_open _ _ _ _ Hi eq_refl) as [_ Hack].
  destruct (stored_goal_Some _ _ _ _ _ _ Hi Hr) as (Hid & _). exists l, w', r. split_and!; [done| |done|done].
  by eapply listed_goal; [|eapply Hack|].
Qed.

(** ** Theorems *)

(** C3. Acknowledged goals survive: take a history from an empty store in which
    some save of a goal returns [Ok] without finding that very record already there,
    and let it continue, with failing calls, processes dying between any two calls,
    and power cuts that lose any unflushed change of an entry. Two restrictions on
    the whole history: every record saved is well formed, so that it decodes again,
    and uses its goal identifier under one session (the store does not check this:
    Example undecodable_save_blocks_reopening), and no power cut takes the
    directories goals/ and sessions/ themselves, whose creation the store never
    flushes (Example first_use_lost). Then opening the store again succeeds, and the
    goal's session lists the goal at the acknowledged revision or a later one; so
    does every store that is still open. *)
Theorem acknowledged_goals_survive (before after : list Event) (i : nat) (budget : GoalBudget) (r : GoalRecord)
    (cs : list Choice) (st st' : State) :
  Forall valid_event (before ++ Run i (Save budget r) cs :: after) →
  st = run initial before →
  acknowledges st r (step st (Run i (Save budget r) cs)).2 →
  st' = run (step st (Run i (Save budget r) cs)).1 after →
  let lists w := ∃ l w' r', calm (list_blocking (session_id r)) w = (Ok l, w') ∧
                   r' ∈ l ∧ goal_id r' = goal_id r ∧ revision r ≤ revision r' in
  (∀ process, ∃ report w, calm open_with_budget (world_of st' (fresh process)) = (Ok report, w) ∧ lists w) ∧
  (∀ j instance, stores st' !! j = Some instance → lists (world_of st' instance)).
Proof.
  intros Hv -> Hack ->. pose proof (reach_acknowledged _ _ _ _ _ _ Hv Hack) as H2.
  apply Forall_app in Hv as [_ [He _]%Forall_cons]. set (st' := run _ after) in *. clearbody st'.
  assert ({[goal_id r := at_least (revision r)]} !! goal_id r = Some (at_least (revision r))) as Hk
    by apply lookup_singleton_eq.
  rewrite (savable_owner _ _ He). intros lists. split.
  - intros process. destruct (open_calm _ st' process H2) as (rep & w & Ho & Hi & _ & _).
    exists rep, w. split; [done|]. by eapply acked_listed.
  - intros j instance Hj. assert (is_open st' = true) as Hop by (apply bool_decide_eq_true; by intros Hn; rewrite Hn in Hj).
    pose proof (StateInv_world _ _ instance H2) as Hi. rewrite Hop in Hi. by eapply acked_listed.
Qed.

(** C12. Recovery succeeds: after any history of operations, failing calls, deaths
    and power cuts in which every record saved is well formed, so that it decodes
    again, and keeps to its goal's session (the store does not check this: Example
    undecodable_save_blocks_reopening), and no power cut takes the directories goals/
    and sessions/ themselves (their creation is never flushed), opening the store
    without further failures returns, keeps every goal that is on disk, and leaves
    each session listing exactly the goals it owns. *)
Theorem recovery_succeeds (es : list Event) (process : Z) :
  Forall valid_event es →
  let st := run initial es in
  ∃ report w, calm open_with_budget (world_of st (fresh process)) = (Ok report, w) ∧
    ∀ s, ∃ l w', calm (list_blocking s) w = (Ok l, w') ∧
      ∀ r, r ∈ l ↔ session_id r = s ∧ stored_goal (world_of st (fresh process)) (goal_id r) = Some r.
Proof.
  intros Hv st. pose proof (reach_run _ Hv) as Hi.
  destruct (open_calm _ st process Hi) as (rep & w & Ho & Hw & Hall & Hsame). exists rep, w. split; [done|].
  intros s. destruct (list_calm _ w s Hw) as (l & w' & Hl & Hf). exists l, w'. split; [done|]. intros r.
  rewrite <- Hsame. destruct (Hall s) as [_ Hc]. split.
  - intros Hin. apply list_elem_of_lookup in Hin as [k Hk].
    destruct (Forall2_lookup_r _ _ _ _ _ Hf Hk) as (g & Hg & Hr).
    destruct (stored_goal_Some _ _ _ _ _ _ Hw Hr) as (<- & Hsav & _). split; [|done].
    rewrite (savable_owner _ _ Hsav). eapply stored_index_owned; [done|]. by eapply list_elem_of_lookup_2.
  - intros [Hs Hr]. eapply listed_goal; [done| |done]. by eapply Hc.
Qed.

(** C35. Identifiers are not reissued: once a save of a goal whose identifier carries
    the number [o] has returned [Ok], without having adopted that very record found on
    disk, then after any continuation that leaves a store open, through crashes and
    recoveries, the next number the store offers for its session is greater than [o].
    The history is restricted as for acknowledged_goals_survive: records saved are
    well formed and keep to their goal's session, which the store does not check, and
    no power cut takes the directories goals/ and sessions/ themselves, whose creation
    is never flushed (with sessions/ the counters would go). *)
Theorem ordinals_not_reissued (before after : list Event) (i : nat) (budget : GoalBudget) (r : GoalRecord)
    (cs : list Choice) (st st' : State) (j : nat) (instance : Instance_) (o n : Z) :
  Forall valid_event (before ++ Run i (Save budget r) cs :: after) →
  st = run initial before →
  acknowledges st r (step st (Run i (Save budget r) cs)).2 →
  st' = run (step st (Run i (Save budget r) cs)).1 after →
  stores st' !! j = Some instance →
  generated_goal_ordinal (session_id r) (goal_id r) = Some o →
  (calm (next_goal_ordinal_blocking (session_id r)) (world_of st' instance)).1 = Ok n →
  o < n.
Proof.
  intros Hv -> Hack -> Hj Ho Hn. pose proof (reach_acknowledged _ _ _ _ _ _ Hv Hack) as H2.
  apply Forall_app in Hv as [_ [He _]%Forall_cons]. set (st' := run _ after) in *. clearbody st'.
  assert (is_open st' = true) as Hop by (apply bool_decide_eq_true; by intros Hs; rewrite Hs in Hj).
  pose proof (StateInv_world _ _ instance H2) as Hi. rewrite Hop in Hi.
  destruct (safe_calm _ _ _ _ (next_goal_ordinal_safe owner (eq Fine) _ true _ (session_id r) Hi)) as [Hq _].
  rewrite Hn in Hq. destruct Hq as (_ & -> & _).
  destruct (inv_open _ _ _ _ Hi eq_refl) as [_ Hlist].
  pose proof (wf_session_id _ (savable_wf _ _ He)) as Hs.
  pose proof (stored_index_good _ _ _ _ _ Hi Hs) as Hgood.
  assert (goal_id r ∈ goal_ids (stored_index (world_of st' instance) (session_id r))) as Hin.
  { rewrite (savable_owner _ _ He). eapply Hlist. apply lookup_singleton_eq. }
  pose proof (entries_ordinals _ _ _ Hgood _ _ Hin Ho). lia.
Qed.

Lemma save_keeps_empty r : save_keeps owner ∅ r.
Proof. intros q r0 Hk. by rewrite lookup_empty in Hk. Qed.

Lemma compaction_keeps_empty : compaction_keeps owner ∅.
Proof. intros g q r k Hk. by rewrite lookup_empty in Hk. Qed.

(** The world of an open store of a reachable state. *)
Lemma reach_world es j instance :
  Forall valid_event es → stores (run initial es) !! j = Some instance →
  Inv owner ∅ true (world_of (run initial es) instance).
Proof.
  intros Hv Hj. pose proof (reach_run _ Hv) as Hi.
  assert (is_open (run initial es) = true) as Hop by (apply bool_decide_eq_true; by intros Hs; rewrite Hs in Hj).
  pose proof (StateInv_world _ _ instance Hi) as Hw. by rewrite Hop in Hw.
Qed.


Lemma total_size_insert w w' ids g :
  NoDup ids → (∀ g', g' ≠ g → goal_size w' g' = goal_size w g') → g ∈ ids →
  total_size w' ids = total_size w ids - goal_size w g + goal_size w' g.
Proof.
  intros Hnd Hoth. induction Hnd as [|g' ids Hn Hnd IH]; [by intros ?%not_elem_of_nil|].
  unfold total_size in *. cbn [foldr]. destruct (decide (g' = g)) as [->|Hne].
  - intros _. assert (foldr (λ g n, goal_size w' g + n) 0 ids = foldr (λ g n, goal_size w g + n) 0 ids) as ->; [|lia].
    apply (total_size_stable w w'). intros g' Hg'. apply Hoth. intros ->. done.
  - intros Hin. rewrite (Hoth g' Hne), IH by set_solver. lia.
Qed.

Lemma total_size_app w l k : total_size w (l ++ k) = total_size w l + total_size w k.
Proof.
  unfold total_size. induction l as [|g l IH]; [done|]. cbn [app foldr]. lia.
Qed.

(** A save that goes ahead leaves the session within its ceilings. *)
Lemma decision_bounds budget w w' r text ix :
  Inv owner ∅ true w → savable owner r → decision_at budget w r text = Ok ix →
  goal_size w' (goal_id r) = len (as_bytes text) → (∀ g, g ≠ goal_id r → goal_size w' g = goal_size w g) →
  max_session_bytes budget < u64_max → max_goals_per_session budget ≤ u64_max →
  total_size w (goal_ids (stored_index w (session_id r))) ≤ u64_max →
  len (as_bytes text) ≤ max_record_bytes budget ∧ total_size w' (goal_ids ix) ≤ max_session_bytes budget ∧
  (len (goal_ids ix) ≤ max_goals_per_session budget ∨ len (goal_ids ix) = len (goal_ids (stored_index w (session_id r)))).
Proof.
  intros Hi Hs Hd Hsz Hoth Hb1 Hb2 Htot. set (ids := goal_ids (stored_index w (session_id r))) in *.
  pose proof (stored_index_good _ _ _ _ _ Hi (wf_session_id _ (savable_wf _ _ Hs))) as Hgood.
  pose proof Hd as Hix. eapply (save_decision_good owner) in Hix as (_ & _ & _ & _ & Hix); [|exact Hgood|done|by symmetry; apply Hs].
  fold ids in Hix. revert Hd. unfold decision_at, save_decision. fold ids.
  destruct (_ && negb (revision r =? _)); [done|]. destruct (admit_record _ _ _ _) as [u|] eqn:Ea; [|done]. intros _.
  pose proof (total_size_nonneg w ids). pose proof (len_nonneg (as_bytes text)). pose proof (goal_size_nonneg w (goal_id r)).
  apply admit_record_Ok in Ea; [|destruct (negb _); cbn; unfold sat_sub; lia|lia|done|done].
  cbn [used_bytes used_goals] in Ea. destruct Ea as (E1 & E2 & _ & E4). split; [done|].
  rewrite Hix. case_bool_decide as Hin; cbn [negb goal_ids] in *; fold ids.
  - split; [|by right]. rewrite (total_size_insert w w' ids (goal_id r)) by (try done; apply Hgood).
    unfold sat_sub in E2. lia.
  - rewrite total_size_app, (total_size_stable w w' ids) by (intros g Hg; apply Hoth; by intros ->).
    unfold total_size at 2. cbn [foldr]. rewrite Hsz. split; [lia|]. left. rewrite len_app, len_cons, len_nil. lia.
Qed.

(** Budgets hold: whatever calls fail on the way, a save that returns [Ok] has
    written a record within its ceiling, and afterwards the files of all goals the
    session's index names are within the session's byte ceiling, and a new goal is
    within the ceiling on goals. *)
Theorem save_within_budget (es : list Event) (j : nat) (instance : Instance_) (budget : GoalBudget) (r : GoalRecord)
    (cs : list Choice) (w' : World) (cs' : list Choice) :
  Forall valid_event es → stores (run initial es) !! j = Some instance → savable owner r →
  max_session_bytes budget < u64_max → max_goals_per_session budget ≤ u64_max →
  let w := world_of (run initial es) instance in
  total_size w (goal_ids (stored_index w (session_id r))) ≤ u64_max →
  exec cs (save_blocking budget r) w = (Some (Ok tt), cs', w') →
  let ids := goal_ids (stored_index w' (session_id r)) in
  goal_size w' (goal_id r) ≤ max_record_bytes budget ∧ total_size w' ids ≤ max_session_bytes budget ∧
  (goal_id r ∈ goal_ids (stored_index w (session_id r)) ∨ len ids ≤ max_goals_per_session budget).
Proof.
  intros Hv Hj Hs Hb1 Hb2 w Htot He ids. pose proof (reach_world es j instance Hv Hj) as Hi. fold w in Hi.
  eapply safe_exec in He as [_ Hq]; [|apply (save_blocking_safe owner (λ _, True) ∅ true); [done..|apply save_keeps_empty]|apply Forall_any].
  specialize (Hq _ eq_refl). destruct (encode r) as [text|]; [|by destruct Hq].
  destruct Hq as (ix & Hd & H1 & H2 & H3 & H4 & H5 & _).
  destruct (decision_bounds budget w w' r text ix) as (B1 & B2 & B3); [done|done|done|done|by intros g Hg; apply H5|done|done|done|].
  unfold ids. rewrite H1, H4. split_and!; [done|done|]. destruct B3 as [B3|B3]; [by right|left].
  pose proof (stored_index_good _ _ _ _ _ Hi (wf_session_id _ (savable_wf _ _ Hs))) as Hgood.
  eapply (save_decision_good owner) in Hd as (_ & _ & _ & _ & ->); [|exact Hgood|done|by symmetry; apply Hs].
  case_bool_decide as Hin; [done|]. cbn [goal_ids] in B3. rewrite len_app, len_cons, len_nil in B3. lia.
Qed.

(** Compaction forgets only old progress: when it returns [Ok], whatever the
    index names is still there, no index has changed, and every goal is as before,
    or, for a closed goal of the session, has lost its oldest progress entries only,
    at least [keep] of them kept, with the entries counted and the revision
    advanced. *)
Theorem compaction_preserves_goals (es : list Event) (j : nat) (instance : Instance_) (s : str) (keep : nat)
    (cs cs' : list Choice) (summary : CompactionSummary) (w' : World) :
  Forall valid_event es → stores (run initial es) !! j = Some instance → session_id_new s = Ok s →
  let w := world_of (run initial es) instance in
  exec cs (compact_closed_history s keep) w = (Some (Ok summary), cs', w') →
  (∀ s', stored_index w' s' = stored_index w s') ∧
  (∀ g r, stored_goal w g = Some r → ∃ r', stored_goal w' g = Some r' ∧
     (r' = r ∨ g ∈ goal_ids (stored_index w s) ∧ is_closed (status r) = true ∧
       ∃ k, (keep ≤ length (progress r) - k)%nat ∧ r' = compact_record r k)).
Proof.
  intros Hv Hj Hs w He. pose proof (reach_world es j instance Hv Hj) as Hi. fold w in Hi.
  eapply safe_exec in He as [_ Hq]; [|apply (compact_closed_history_safe owner (λ _, True) ∅ true); [done|apply compaction_keeps_empty|done|done]|apply Forall_any].
  destruct (Hq _ eq_refl) as [H1 H2]. split; [done|]. intros g r Hr. destruct (H2 g r Hr) as (r' & Hr' & Hn & Hc).
  exists r'. split; [done|]. destruct (decide (g ∈ goal_ids (stored_index w s))) as [Hin|Hni]; [|left; by apply Hn].
  destruct Hc as [->|[Hcl Hk]]; [by left|by right].
Qed.

End History.

(** ** Instances

    Concrete functions with the behaviour the classes ask for: a length-prefixed
    format and an injective digest. *)

Module Concrete.

(** A reader takes a value off the front of a text. *)
Definition Reader (A : Type) : Type := str → option (A * str).

Definition reads {A} (get : Reader A) (put : A → str) : Prop := ∀ a rest, get (put a ++ rest) = Some (a, rest).

Definition get_num : Reader Z := λ t, match t with z :: t => Some (z, t) | [] => None end.
Definition put_num (z : Z) : str := [z].

Definition get_str : Reader str := λ t,
  match t with n :: t => Some (take (Z.to_nat n) t, drop (Z.to_nat n) t) | [] => None end.
Definition put_str (s : str) : str := len s :: s.

Definition get_bool : Reader bool := λ t, match t with z :: t => Some (z =? 1, t) | [] => None end.
Definition put_bool (b : bool) : str := [if b then 1 else 0].

Definition get_opt : Reader (option Z) := λ t,
  match t with 0 :: t => Some (None, t) | _ :: z :: t => Some (Some z, t) | _ => None end.
Definition put_opt (o : option Z) : str := match o with Some z => [1; z] | None => [0] end.

Fixpoint get_many {A} (get : Reader A) (n : nat) : Reader (list A) := λ t,
  match n with
  | O => Some ([], t)
  | S n => '(a, t) ← get t; '(l, t) ← get_many get n t; Some (a :: l, t)
  end.
Definition get_list {A} (get : Reader A) : Reader (list A) := λ t,
  match t with n :: t => get_many get (Z.to_nat n) t | [] => None end.
Definition put_list {A} (put : A → str) (l : list A) : str := len l :: concat (put <$> l).

Lemma reads_num : reads get_num put_num.
Proof. by intros z rest. Qed.

Lemma reads_str : reads get_str put_str.
Proof.
  intros x rest. unfold get_str, put_str, len. cbn [app]. rewrite Nat2Z.id.
  by rewrite take_app_length, drop_app_length.
Qed.

Lemma reads_bool : reads get_bool put_bool.
Proof. by intros [] rest. Qed.

Lemma reads_opt : reads get_opt put_opt.
Proof. by intros [z|] rest. Qed.

Lemma reads_list {A} (get : Reader A) put : reads get put → reads (get_list get) (put_list put).
Proof.
  intros H l rest. unfold get_list, put_list, len. cbn [app]. rewrite Nat2Z.id.
  induction l as [|a l IH]; [done|]. cbn [length get_many fmap list_fmap concat]. rewrite <- app_assoc, H. cbn [mbind option_bind].
  change (list_fmap A str put l) with (put <$> l). by rewrite IH.
Qed.

Definition put_progress (p : ProgressEnvelope) : str :=
  put_num (pe_index p) ++ put_str (pe_note p) ++ put_num (pe_recorded_at_millis p) ++ put_bool (pe_compacted p).
Definition get_progress : Reader ProgressEnvelope := λ t,
  '(i, t) ← get_num t; '(n, t) ← get_str t; '(r, t) ← get_num t; '(c, t) ← get_bool t;
  Some (mkProgressEnvelope i n r c, t).

Lemma reads_progress : reads get_progress put_progress.
Proof.
  intros [i n r c] rest. unfold get_progress, put_progress.
  cbn [pe_index pe_note pe_recorded_at_millis pe_compacted]. rewrite <- !app_assoc.
  rewrite reads_num. cbn [mbind option_bind]. rewrite reads_str. cbn [mbind option_bind].
  rewrite reads_num. cbn [mbind option_bind]. by rewrite reads_bool.
Qed.

Definition put_goal (e : GoalEnvelope) : str :=
  put_num (ge_schema e) ++ put_str (ge_goal_id e) ++ put_str (ge_session_id e) ++ put_str (ge_objective e) ++
  put_str (ge_status e) ++ put_num (ge_created_at_millis e) ++ put_num (ge_updated_at_millis e) ++
  put_opt (ge_closed_at_millis e) ++ put_num (ge_compacted_entries e) ++ put_num (ge_revision e) ++
  put_list put_progress (ge_progress e).
Definition get_goal : Reader GoalEnvelope := λ t,
  '(sc, t) ← get_num t; '(g, t) ← get_str t; '(s, t) ← get_str t; '(o, t) ← get_str t; '(st, t) ← get_str t;
  '(c, t) ← get_num t; '(u, t) ← get_num t; '(cl, t) ← get_opt t; '(ce, t) ← get_num t; '(rv, t) ← get_num t;
  '(ps, t) ← get_list get_progress t; Some (mkGoalEnvelope sc g s o st c u cl ce rv ps, t).

Lemma reads_goal : reads get_goal put_goal.
Proof.
  intros [sc g s o st c u cl ce rv ps] rest. unfold get_goal, put_goal.
  cbn [ge_schema ge_goal_id ge_session_id ge_objective ge_status ge_created_at_millis ge_updated_at_millis
    ge_closed_at_millis ge_compacted_entries ge_revision ge_progress]. rewrite <- !app_assoc.
  rewrite reads_num. cbn [mbind option_bind]. do 4 (rewrite reads_str; cbn [mbind option_bind]).
  do 2 (rewrite reads_num; cbn [mbind option_bind]). rewrite reads_opt. cbn [mbind option_bind].
  do 2 (rewrite reads_num; cbn [mbind option_bind]). by rewrite (reads_list _ _ reads_progress).
Qed.

Definition put_index (d : DurableSessionIndex) : str :=
  put_num (ds_schema d) ++ put_str (ds_session_id d) ++ put_list put_str (ds_entries d) ++ put_num (ds_high_water d).
Definition get_index : Reader SessionIndexEnvelope := λ t,
  '(sc, t) ← get_num t; '(s, t) ← get_str t; '(es, t) ← get_list get_str t; '(h, t) ← get_num t;
  Some (mkIndexEnvelope sc s (Durable es h) 0, t).

Definition parsed {A} (get : Reader A) (t : str) : result str A := match get t with Some (a, _) => Ok a | None => Err [] end.

#[export] Instance Json : GoalJson.
Proof.
  refine {| goal_to_string e := Ok (put_goal e); goal_from_str := parsed get_goal |}.
  intros e t [= <-]. unfold parsed. by rewrite reads_goal.
Defined.

#[export] Instance IxJson : IndexJson.
Proof.
  refine {| index_to_string d := Ok (put_index d); index_from_str := parsed get_index |}; [done|].
  intros [sc s es h] t [= <-]. unfold parsed, get_index, put_index. cbn [ds_schema ds_session_id ds_entries ds_high_water].
  rewrite <- !app_assoc. rewrite reads_num. cbn [mbind option_bind]. rewrite reads_str. cbn [mbind option_bind].
  rewrite (reads_list _ _ reads_str). cbn [mbind option_bind]. by rewrite reads_num.
Defined.

Fixpoint bits (p : positive) : bytes := match p with xH => [x01] | xO p => x00 :: bits p | xI p => x02 :: bits p end.

Lemma bits_inj p q : bits p = bits q → p = q.
Proof.
  revert q. induction p as [p IH|p IH|]; intros [q|q|]; cbn; intros H; try done; injection H as H; f_equal; auto.
Qed.

#[export] Instance Sha : Digest.
Proof.
  refine {| sha256_text t := bits (countable.encode t) |}.
  - intros a b H. by apply bits_inj, countable.encode_inj in H.
  - intros v. by destruct (countable.encode v).
Defined.

End Concrete.
Import Concrete.

(** ** Examples *)

Definition session : str := chars "s".
Definition own (g : str) : str := session.

Definition goal (n : str) (text : str) (rev : Z) : GoalRecord :=
  mkGoal (chars "s:goal-" ++ n) session text Active [] 1 1 None 0 rev.

Definition fine (n : nat) : list Choice := replicate n Fine.

(** One process opens the store and saves a goal; the power fails with everything
    unflushed lost. *)
Definition story : list Event :=
  [Open 7 (fine 12); Run 0 (Save budget_default (goal (chars "1") (chars "ship") 1)) (fine 30)].

Definition after_story : State := run initial story.
Definition dark : Event := PowerCut false [] (λ _, []) false [] (λ _, []).

Definition listed (st : State) : result StoreError (list GoalRecord) :=
  (calm (list_blocking session) (calm open_with_budget (world_of st (fresh 9))).2).1.

(** The store accepts a record that it cannot read again: the save of a goal with an
    empty objective returns [Ok], and no later [open] of the store succeeds, whatever
    other goals it holds. *)
Example undecodable_save_blocks_reopening :
  let st := run initial story in
  let '(st', answer) := step st (Run 0 (Save budget_default (goal (chars "2") [] 1)) (fine 30)) in
  answer = Some (Saved (Ok tt)) ∧ is_ok (calm open_with_budget (world_of st (fresh 9))).1 = true ∧
  is_ok (calm open_with_budget (world_of st' (fresh 9))).1 = false ∧ is_ok (listed st') = false.
Proof. vm_compute. by split_and!. Qed.

(** On its first use the store creates its directories and flushes neither them nor
    the root: the power cut takes them with the goal whose save had returned [Ok]. *)
Example first_use_lost :
  let r := goal (chars "1") (chars "ship") 1 in
  let '(st, answer) := step (run blank [Open 7 (fine 12)]) (Run 0 (Save budget_default r) (fine 30)) in
  answer = Some (Saved (Ok tt)) ∧ listed st = Ok [r] ∧
  listed (run st [PowerCut true [] (λ _, []) true [] (λ _, [])]) = Ok [].
Proof. vm_compute. by split_and!. Qed.

(** A retry of a save whose directory flush failed adopts the record it finds and
    returns [Ok] without flushing the goals directory: the power cut then takes the
    goal, although it was acknowledged. *)
Example adopted_orphan_lost :
  let r := goal (chars "1") (chars "ship") 1 in
  let st := run initial [Open 7 (fine 12); Run 0 (Save budget_default r) (fine 9 ++ Fail [] :: fine 10)] in
  let '(st', answer) := step st (Run 0 (Save budget_default r) (fine 30)) in
  answer = Some (Saved (Ok tt)) ∧ listed st' = Ok [r] ∧ listed (run st' [dark]) = Ok [].
Proof. vm_compute. by split_and!. Qed.

(** A save whose index could not be written leaves a record the session does not
    list; its number is offered again, and a different goal under that number is
    refused as a conflict until the store is reopened. *)
Example orphan_blocks_new_goal :
  let st := run initial [Open 7 (fine 12);
    Run 0 (Save budget_default (goal (chars "1") (chars "ship") 1)) (fine 13 ++ Fail [] :: fine 10)] in
  (step st (Run 0 (NextOrdinal session) (fine 10))).2 = Some (Numbered (Ok 1)) ∧
  (step st (Run 0 (ListGoals session) (fine 10))).2 = Some (Listed (Ok [])) ∧
  (step st (Run 0 (Save budget_default (goal (chars "1") (chars "rest") 1)) (fine 30))).2 = Some (Saved (Err (Conflict 2 1))).
Proof. vm_compute. by split_and!. Qed.

(** ** Witnesses *)

Lemma goal_savable n text rev :
  goal_id_new (chars "s:goal-" ++ n) = Ok (chars "s:goal-" ++ n) → trim text ≠ [] → 1 ≤ rev ≤ u64_max →
  savable own (goal n text rev).
Proof. intros Hn Ht Hr. constructor; [constructor| |]; cbn; [done..|lia|done|done|done|lia]. Qed.

Lemma goal_file_format_witness :
  ∃ text, encode (goal (chars "1") (chars "ship") 1) = Ok text ∧ decode text = Ok (goal (chars "1") (chars "ship") 1).
Proof.
  destruct (encode (goal (chars "1") (chars "ship") 1)) as [text|e] eqn:E; [|by vm_compute in E].
  exists text. split; [exact eq_refl|].
  refine (proj1 goal_file_format _ text _ E). by apply (savable_wf own), goal_savable.
Defined.

Lemma story_valid : Forall (valid_event own) story.
Proof. repeat constructor; done. Qed.

Definition opening : list Event := [Open 7 (fine 12)].
Definition ship : GoalRecord := goal (chars "1") (chars "ship") 1.
Definition shipping : Event := Run 0 (Save budget_default ship) (fine 30).

Lemma opening_valid es : Forall (valid_event own) es → Forall (valid_event own) (opening ++ shipping :: es).
Proof. intros H. constructor; [done|]. constructor; [|done]. by apply goal_savable. Qed.

Lemma shipping_acknowledged : acknowledges (run initial opening) ship (step (run initial opening) shipping).2.
Proof. vm_compute. by split. Qed.

Lemma acknowledged_goals_survive_witness :
  let st' := run (step (run initial opening) shipping).1 [dark] in
  ∃ report w, calm open_with_budget (world_of st' (fresh 9)) = (Ok report, w) ∧
    ∃ l w' r', calm (list_blocking (session_id ship)) w = (Ok l, w') ∧ r' ∈ l ∧
      goal_id r' = goal_id ship ∧ revision ship ≤ revision r'.
Proof.
  intros st'.
  destruct (acknowledged_goals_survive own opening [dark] 0 budget_default ship (fine 30) (run initial opening) st'
    (opening_valid [dark] ltac:(by repeat constructor)) eq_refl shipping_acknowledged eq_refl) as [H _].
  exact (H 9).
Defined.

Lemma recovery_succeeds_witness :
  ∃ report w, calm open_with_budget (world_of (run initial (story ++ [dark])) (fresh 9)) = (Ok report, w).
Proof.
  assert (Forall (valid_event own) (story ++ [dark])) as Hv by (repeat constructor; done).
  destruct (recovery_succeeds own (story ++ [dark]) 9 Hv) as (report & w & H & _). by exists report, w.
Defined.

Lemma ordinals_not_reissued_witness :
  let st' := run (step (run initial opening) shipping).1 [] in
  ∃ instance n, stores st' !! 0%nat = Some instance ∧
    (calm (next_goal_ordinal_blocking (session_id ship)) (world_of st' instance)).1 = Ok n ∧ 1 < n.
Proof.
  intros st'. exists (default (fresh 0) (stores st' !! 0%nat)), 2.
  assert (stores st' !! 0%nat = Some (default (fresh 0) (stores st' !! 0%nat))) as Hst by (vm_compute; reflexivity).
  assert ((calm (next_goal_ordinal_blocking (session_id ship)) (world_of st' (default (fresh 0) (stores st' !! 0%nat)))).1 = Ok 2) as Hn
    by (vm_compute; reflexivity).
  assert (generated_goal_ordinal (session_id ship) (goal_id ship) = Some 1) as Ho by (vm_compute; reflexivity).
  split_and!; [exact Hst|exact Hn|].
  exact (ordinals_not_reissued own opening [] 0 budget_default ship (fine 30) (run initial opening) st' 0 _ 1 2
    (opening_valid [] ltac:(by constructor)) eq_refl shipping_acknowledged eq_refl Hst Ho Hn).
Defined.

Definition shop : Instance_ := default (fresh 0) (stores (run initial story) !! 0%nat).
Definition shop_world : World := world_of (run initial story) shop.

Lemma shop_open : stores (run initial story) !! 0%nat = Some shop.
Proof. vm_compute. reflexivity. Qed.

Definition ship_again : GoalRecord := goal (chars "1") (chars "ship it") 2.

Lemma ship_again_savable : savable own ship_again.
Proof. by apply goal_savable. Qed.



Lemma save_again_runs :
  ∃ cs' w', exec (fine 30) (save_blocking budget_default ship_again) shop_world = (Some (Ok tt), cs', w').
Proof.
  destruct (exec (fine 30) (save_blocking budget_default ship_again) shop_world) as [[x cs'] w'] eqn:E.
  exists cs', w'. assert (x = Some (Ok tt)) as ->; [|done].
  apply (f_equal (λ p, p.1.1)) in E. cbn [fst] in E. rewrite <- E. vm_compute. reflexivity.
Qed.

Lemma shop_total : total_size shop_world (goal_ids (stored_index shop_world (session_id ship_again))) ≤ u64_max.
Proof. vm_compute. discriminate. Qed.

Lemma save_within_budget_witness :
  ∃ w', total_size w' (goal_ids (stored_index w' (session_id ship_again))) ≤ max_session_bytes budget_default.
Proof.
  destruct save_again_runs as (cs' & w' & He). exists w'.
  destruct (save_within_budget own story 0 shop budget_default ship_again (fine 30) w' cs' story_valid shop_open
    ship_again_savable ltac:(done) ltac:(done) shop_total He) as (_ & H & _). exact H.
Defined.

(** A closed goal with two entries, and a compaction that keeps one. *)
Definition done_goal : GoalRecord :=
  mkGoal (chars "s:goal-1") session (chars "ship") Achieved
    [mkProgress 0 (chars "a") 1 false; mkProgress 1 (chars "b") 2 false] 1 2 (Some 2) 0 1.
Definition done_story : list Event := [Open 7 (fine 12); Run 0 (Save budget_default done_goal) (fine 30)].

Definition attic : Instance_ := default (fresh 0) (stores (run initial done_story) !! 0%nat).
Definition attic_world : World := world_of (run initial done_story) attic.

Lemma attic_open : stores (run initial done_story) !! 0%nat = Some attic.
Proof. vm_compute. reflexivity. Qed.

Lemma done_valid : Forall (valid_event own) done_story.
Proof. repeat constructor; done. Qed.

Lemma compaction_runs :
  ∃ summary cs' w', exec (fine 30) (compact_closed_history session 1) attic_world = (Some (Ok summary), cs', w') ∧
    stored_goal w' (goal_id done_goal) = Some (compact_record done_goal 1).
Proof.
  destruct (exec (fine 30) (compact_closed_history session 1) attic_world) as [[x cs'] w'] eqn:E.
  assert (match x with Some (Ok _) => true | _ => false end = true) as Hx.
  { assert (x = (exec (fine 30) (compact_closed_history session 1) attic_world).1.1) as -> by by rewrite E.
    vm_compute. reflexivity. }
  destruct x as [[summary|]|]; [|done..]. exists summary, cs', w'. split; [done|].
  assert (w' = (exec (fine 30) (compact_closed_history session 1) attic_world).2) as -> by by rewrite E.
  vm_compute. reflexivity.
Qed.

Lemma compaction_preserves_goals_witness :
  ∃ w', stored_goal w' (goal_id done_goal) = Some (compact_record done_goal 1) ∧
    ∀ s', stored_index w' s' = stored_index attic_world s'.
Proof.
  destruct compaction_runs as (summary & cs' & w' & He & Hg). exists w'. split; [exact Hg|].
  exact (proj1 (compaction_preserves_goals own done_story 0 attic session 1 (fine 30) cs' summary w'
    done_valid attic_open eq_refl He)).
Defined.

End History.
