(* ===== verification/GoalService.v ===== *)
(** * The goal service

    Models [crates/claw-runtime/src/goal.rs], the operations on a session's goal,
    and the conflict handling of [crates/claw-goals/src/retry.rs] and [tool.rs]. The
    service keeps no state: an operation is an async function that calls the store
    port and the clock, so it is a [Task], and between any two of its calls other
    tasks run, stores are opened or killed and the power can be cut. *)

From S2P Require Import Prelude Utf8 Text WorkerNames Approval Goals GoalDisk GoalStore GoalRecovery GoalHistory.

Module Service.
Import Goals Disk GoalStore Recovery History.

(** ** Values *)

(** How many progress entries a goal keeps, and the bytes of its texts. *)
Record GoalConfig := mkConfig { max_progress_entries : nat; max_objective_bytes : Z; max_note_bytes : Z }.

Definition config_default : GoalConfig := mkConfig 32 4096 2048.

(** The port's errors; each carries the store's error where the source carries its
    text. *)
Inductive PortError :=
| PortConflict (e : StoreError)
| PortInvalid (e : StoreError)
| PortCommittedButNotDurable (e : StoreError)
| PortUnavailable (e : StoreError)
| PortNotFound (e : StoreError)
| PortOutcomeUnknown (e : StoreError)
| PortCancelled.

(** [From<StoreError> for PortError] *)
Definition port_error (e : StoreError) : PortError :=
  match e with
  | Conflict _ _ | Busy _ => PortConflict e
  | Budget _ => PortInvalid e
  | CommittedButNotDurable _ _ => PortCommittedButNotDurable e
  | _ => PortUnavailable e
  end.

Inductive GoalError :=
| Port (e : PortError)
| Unknown (goal_id : str)
| NoActiveGoal
| AlreadyClosed (goal_id : str) (status : GoalStatus)
| NotATerminalStatus (status : GoalStatus)
| InvalidObjective (reason : str)
| InvalidNote (reason : str)
| InvalidBudget
| UnusableGoalId (reason : str).

Inductive GoalAction :=
| SetGoal (objective : str)
| Progress (note : str)
| CloseGoal (status : GoalStatus).

(** ** Tasks *)

(** [GoalStorePort] *)
Inductive PortCall :=
| NextGoalOrdinal (session : str)
| LoadGoal (goal : str)
| SaveGoal (r : GoalRecord)
| ListForSession (session : str).

Definition reply (o : PortCall) : Type :=
  match o with
  | NextGoalOrdinal _ => Z
  | LoadGoal _ => option GoalRecord
  | SaveGoal _ => unit
  | ListForSession _ => list GoalRecord
  end.

Inductive Task (A : Type) : Type :=
| Done (a : A)
| Now (k : Z → Task A)
| Ask (o : PortCall) (k : result PortError (reply o) → Task A).
Arguments Done {A} a.
Arguments Now {A} k.
Arguments Ask {A} o k.

Fixpoint task_bind {A B} (p : Task A) (k : A → Task B) : Task B :=
  match p with
  | Done a => k a
  | Now f => Now (λ z, task_bind (f z) k)
  | Ask o f => Ask o (λ x, task_bind (f x) k)
  end.

(** Async functions that return a [Result], with the question mark. *)
Definition T (A : Type) : Type := Task (result GoalError A).

#[export] Instance T_ret : MRet T := λ A a, Done (Ok a).
#[export] Instance T_bind : MBind T := λ A B k p, task_bind p (λ x, match x with Ok a => k a | Err e => Done (Err e) end).

(** [match operation.await]. *)
Definition catch {A B} (p : T A) (k : result GoalError A → T B) : T B := task_bind p k.

Definition fail {A} (e : GoalError) : T A := Done (Err e).
Definition of_result {A} (x : result GoalError A) : T A := Done x.
Definition now : T Z := Now (λ z, Done (Ok z)).

Definition port (o : PortCall) : T (reply o) :=
  Ask o (λ x, Done (match x with Ok a => Ok a | Err e => Err (Port e) end)).

(** ** The service *)

Section Operations.
Context (cfg : GoalConfig).

Definition is_active (r : GoalRecord) : bool := bool_decide (status r = Active).

Definition active (session : str) : T (option GoalRecord) :=
  goals ← port (ListForSession session);
  mret (List.find is_active (reverse goals)).

Definition history (session : str) : T (list GoalRecord) := port (ListForSession session).

Definition validate_objective (text : str) : result GoalError str :=
  if decide (max_progress_entries cfg = 0%nat) then Err InvalidBudget
  else
    let text := trim text in
    if bool_decide (text = []) then Err (InvalidObjective (chars "must not be empty"))
    else if max_objective_bytes cfg <? len (as_bytes text) then Err (InvalidObjective (chars "is too long"))
    else Ok text.

(** A goal as it is first recorded. *)
Definition new_goal (session id text : str) (at_ : Z) : GoalRecord :=
  mkGoal id session text Active [] at_ at_ None 0 1.

(** The goal that was active, replaced at a time. *)
Definition superseded (p : GoalRecord) (at_ : Z) : GoalRecord :=
  mkGoal (goal_id p) (session_id p) (objective p) Superseded (progress p) (created_at p) at_ (Some at_)
    (compacted_entries p) (sat_add u64_max (revision p) 1).

Definition set (session id text : str) : T GoalRecord :=
  text ← of_result (validate_objective text);
  at_ ← now;
  previous ← active session;
  let record := new_goal session id text at_ in
  _ ← port (SaveGoal record);
  match previous with
  | Some p => _ ← port (SaveGoal (superseded p at_)); mret record
  | None => mret record
  end.

Definition require_active (id : str) : T GoalRecord :=
  found ← port (LoadGoal id);
  match found with
  | None => fail (Unknown id)
  | Some r => if is_closed (status r) then fail (AlreadyClosed id (status r)) else mret r
  end.

(** [GoalService::compact]; [record_progress] has refused an empty budget. *)
Definition compact (r : GoalRecord) (at_ : Z) : GoalRecord :=
  let budget := max_progress_entries cfg in
  if decide (length (progress r) ≤ budget)%nat then r
  else
    let keep := (budget - 1)%nat in
    let removed := (length (progress r) - keep)%nat in
    let head_index := match progress r with p :: _ => index p | [] => 0 end in
    let folded := take removed (progress r) in
    let newly_folded := len (List.filter (λ p, negb (compacted p)) folded) in
    let total := sat_add u64_max (compacted_entries r) newly_folded in
    mkGoal (goal_id r) (session_id r) (objective r) (status r)
      (mkProgress head_index (chars "compacted " ++ dec total ++ chars " earlier entries") at_ true
         :: drop removed (progress r))
      (created_at r) (updated_at r) (closed_at r) total (revision r).

Definition next_index (ps : list GoalProgress) : Z :=
  match last ps with Some p => sat_add u64_max (index p) 1 | None => 0 end.

Definition with_entry (r : GoalRecord) (text : str) (at_ : Z) : GoalRecord :=
  mkGoal (goal_id r) (session_id r) (objective r) (status r)
    (progress r ++ [mkProgress (next_index (progress r)) text at_ false])
    (created_at r) (updated_at r) (closed_at r) (compacted_entries r) (revision r).

(** The time and the revision of a mutation. *)
Definition touched (r : GoalRecord) (at_ : Z) : GoalRecord :=
  mkGoal (goal_id r) (session_id r) (objective r) (status r) (progress r) (created_at r) at_ (closed_at r)
    (compacted_entries r) (sat_add u64_max (revision r) 1).

Definition progressed (r : GoalRecord) (text : str) (at_ : Z) : GoalRecord :=
  touched (compact (with_entry r text at_) at_) at_.

Definition record_progress (id text : str) : T GoalRecord :=
  if decide (max_progress_entries cfg = 0%nat) then fail InvalidBudget
  else
    let text := trim text in
    if bool_decide (text = []) then fail (InvalidNote (chars "must not be empty"))
    else if max_note_bytes cfg <? len (as_bytes text) then fail (InvalidNote (chars "is too long"))
    else
      r ← require_active id;
      at_ ← now;
      let record := progressed r text at_ in
      _ ← port (SaveGoal record);
      mret record.

Definition closed (r : GoalRecord) (s : GoalStatus) (at_ : Z) : GoalRecord :=
  mkGoal (goal_id r) (session_id r) (objective r) s (progress r) (created_at r) at_ (Some at_)
    (compacted_entries r) (sat_add u64_max (revision r) 1).

Definition close (id : str) (s : GoalStatus) : T GoalRecord :=
  if negb (is_closed s) then fail (NotATerminalStatus s)
  else
    r ← require_active id;
    at_ ← now;
    let record := closed r s at_ in
    _ ← port (SaveGoal record);
    mret record.

Definition is_equivalent_new_goal (r : GoalRecord) (session text : str) : bool :=
  bool_decide (session_id r = session) && bool_decide (objective r = text) && bool_decide (status r = Active)
  && bool_decide (progress r = []) && (created_at r =? updated_at r) && bool_decide (closed_at r = None)
  && (compacted_entries r =? 0) && (revision r =? 1).

(** The identifier a session's [n]th goal is given. *)
Definition mint (session : str) (n : Z) : str := session ++ chars ":goal-" ++ dec n.

Definition start (session text : str) : T GoalRecord :=
  text ← of_result (validate_objective text);
  ordinal ← port (NextGoalOrdinal session);
  id ← of_result (match goal_id_new (mint session ordinal) with
                  | Ok id => Ok id | Err reason => Err (UnusableGoalId reason) end);
  found ← port (LoadGoal id);
  match found with
  | Some orphan =>
      if is_equivalent_new_goal orphan session text then
        previous ← active session;
        _ ← port (SaveGoal orphan);
        match previous with
        | Some p => _ ← port (SaveGoal (superseded p (created_at orphan))); mret orphan
        | None => mret orphan
        end
      else set session id text
  | None => set session id text
  end.

Definition apply (session : str) (action : GoalAction) : T GoalRecord :=
  match action with
  | SetGoal text => start session text
  | Progress text =>
      found ← active session;
      match found with
      | Some r => record_progress (goal_id r) text
      | None => fail NoActiveGoal
      end
  | CloseGoal s =>
      found ← active session;
      match found with
      | Some r => close (goal_id r) s
      | None => fail NoActiveGoal
      end
  end.

(** ** Conflicts *)

Definition MAX_CONFLICT_ATTEMPTS : nat := 3.

Definition is_conflict (e : GoalError) : bool := match e with Port (PortConflict _) => true | _ => false end.

(** [remaining] attempts are left after this one. *)
Fixpoint retry_from {A} (remaining : nat) (operation : T A) : T A :=
  catch operation (λ x,
    match x with
    | Err e => if is_conflict e then match remaining with S remaining => retry_from remaining operation | O => fail e end
               else fail e
    | Ok a => mret a
    end).

Definition retry_conflicts {A} (operation : T A) : T A := retry_from (MAX_CONFLICT_ATTEMPTS - 1) operation.

Fixpoint repair_loop (committed : GoalRecord) (rs : list GoalRecord) : T unit :=
  match rs with
  | [] => mret tt
  | r :: rs =>
      if bool_decide (goal_id r = goal_id committed) || negb (is_active r) then repair_loop committed rs
      else
        catch (retry_conflicts (close (goal_id r) Superseded)) (λ x,
          match x with
          | Ok _ | Err (AlreadyClosed _ _) => repair_loop committed rs
          | Err e => fail e
          end)
  end.

Definition repair_older_active_goals (session : str) (committed : GoalRecord) : T unit :=
  rs ← history session;
  repair_loop committed rs.

Fixpoint start_from (remaining : nat) (session text : str) : T GoalRecord :=
  catch (start session text) (λ x,
    let again e := match remaining with S remaining => start_from remaining session text | O => fail e end in
    match x with
    | Err e =>
        if is_conflict e then
          catch (active session) (λ y,
            match y with
            | Ok (Some committed) =>
                if bool_decide (objective committed = trim text) then
                  _ ← repair_older_active_goals session committed;
                  mret committed
                else again e
            | Ok None => again e
            | Err active_error =>
                if is_conflict active_error then
                  match remaining with S remaining => start_from remaining session text | O => fail active_error end
                else fail active_error
            end)
        else fail e
    | Ok r => mret r
    end).

Definition start_with_conflict_recovery (session text : str) : T GoalRecord :=
  start_from (MAX_CONFLICT_ATTEMPTS - 1) session text.

(** [invoke_goal_tool] on the action its arguments were parsed to. *)
Definition invoke_goal_tool (session : str) (action : GoalAction) : T GoalRecord :=
  match action with
  | SetGoal text => start_with_conflict_recovery session text
  | _ => retry_conflicts (apply session action)
  end.

End Operations.

(** ** Progress histories *)

Section Histories.
Context (cfg : GoalConfig).

(** No entry has the last index there is. *)
Definition unsaturated (r : GoalRecord) : Prop := Forall (λ p, index p < u64_max) (progress r).

(** The entries that stand for one note each. *)
Definition entries (r : GoalRecord) : Z := len (List.filter (λ p, negb (compacted p)) (progress r)).

Lemma progress_ok_app previous ps p :
  progress_ok previous ps → trim (note p) ≠ [] →
  match last ps with
  | Some q => index q < index p
  | None => match previous with Some i => i < index p | None => True end
  end → progress_ok previous (ps ++ [p]).
Proof.
  revert previous. induction ps as [|q ps IH]; intros previous; cbn [progress_ok app]; [intros _ Hn Hl; by split_and!|].
  intros (H1 & H2 & H3) Hn Hl. split_and!; [done|done|]. apply IH; [done|done|]. destruct ps as [|q' ps]; [done|]. rewrite last_cons_cons in Hl.
  destruct (last (q' :: ps)) eqn:E; [done|]. by apply last_None in E.
Qed.

Lemma progress_ok_tail p k ps : progress_ok (Some p) ps → progress_ok (Some p) (drop k ps).
Proof.
  revert ps. induction k as [|k IH]; intros ps H; [done|]. destruct ps as [|e ps]; [done|]. cbn [drop].
  apply IH. destruct H as (H1 & _ & H3). eapply progress_ok_from; [exact H3|]. intros x [= <-]. lia.
Qed.

Lemma summary_note n : trim (chars "compacted " ++ dec n ++ chars " earlier entries") ≠ [].
Proof. apply (trim_nonempty _ 99); [|done]. apply elem_of_app. left. by left. Qed.

Lemma filter_len_split {A} (f : A → bool) k l :
  len (List.filter f (take k l)) + len (List.filter f (drop k l)) = len (List.filter f l).
Proof. rewrite <- (take_drop k l) at 3. by rewrite List.filter_app, len_app. Qed.

(** What folding the oldest entries leaves: the summary and the newest. *)
Lemma compact_spec r at_ :
  max_progress_entries cfg ≠ 0%nat →
  let r' := compact cfg r at_ in
  (length (progress r') ≤ max_progress_entries cfg)%nat ∧
  (compacted_entries r + entries r ≤ u64_max → 0 ≤ compacted_entries r →
     compacted_entries r' + entries r' = compacted_entries r + entries r) ∧
  (progress r' = progress r ∨
   ∃ p ps k n, progress r = p :: ps ∧ drop (S k) (progress r) = drop k ps ∧
     length (drop k ps) = (max_progress_entries cfg - 1)%nat ∧
     progress r' = mkProgress (index p) n at_ true :: drop k ps ∧ trim n ≠ []).
Proof.
  intros Hm. unfold compact. destruct (decide _) as [Hl|Hl]; [by split_and!; auto|]. cbn [progress].
  set (removed := (length (progress r) - (max_progress_entries cfg - 1))%nat).
  assert (length (drop removed (progress r)) = (max_progress_entries cfg - 1)%nat) as Hlen by (rewrite length_drop; lia).
  split_and!.
  - cbn [length]. lia.
  - unfold entries. cbn [progress compacted_entries List.filter compacted negb]. intros Ht Hc.
    pose proof (filter_len_split (λ p, negb (compacted p)) removed (progress r)) as Hs.
    pose proof (len_nonneg (List.filter (λ p, negb (compacted p)) (drop removed (progress r)))). unfold sat_add. lia.
  - right. destruct (progress r) as [|p ps] eqn:E; [cbn in Hl; lia|].
    assert (removed = S (removed - 1)) as Hr by (unfold removed; cbn [length] in *; lia).
    exists p, ps, (removed - 1)%nat. eexists. rewrite Hr in Hlen |- *. cbn [drop] in Hlen |- *.
    replace (S (removed - 1) - 1)%nat with (removed - 1)%nat in * by lia.
    split_and!; [done|done|exact Hlen|done|apply summary_note].
Qed.

(** The history with one more entry is ordered, as far as it is kept. *)
Lemma progressed_ok r text at_ :
  max_progress_entries cfg ≠ 0%nat → progress_ok None (progress r) → trim text ≠ [] →
  unsaturated (progressed cfg r text at_) → progress_ok None (progress (progressed cfg r text at_)).
Proof.
  intros Hm Hok Ht. unfold unsaturated, progressed. cbn [progress touched].
  set (r1 := with_entry r text at_). destruct (compact_spec r1 at_ Hm) as (_ & _ & Hc).
  set (e := mkProgress (next_index (progress r)) text at_ false).
  assert (index e < u64_max → progress_ok None (progress r1)) as Hok1.
  { intros Hi. apply progress_ok_app; [done..|]. cbn [index]. unfold next_index in *. cbn [index e] in Hi. unfold e in Hi.
    cbn [index] in Hi. unfold next_index in Hi. destruct (last (progress r)); [|done]. unfold sat_add in *. lia. }
  destruct Hc as [->|(p & ps & k & n & E & Hd & Hlen & -> & Hn)].
  - intros Hu. apply Hok1. apply Forall_app in Hu as [_ Hu]. by apply Forall_inv in Hu.
  - intros Hu. cbn [progress_ok index note]. split_and!; [done|done|].
    destruct (decide (drop k ps = [])) as [->|Hne]; [done|]. apply progress_ok_tail.
    assert (index e < u64_max) as Hi.
    { apply Forall_cons in Hu as [_ Hu]. eapply Forall_forall in Hu; [exact Hu|].
      rewrite <- Hd in Hne |- *. unfold r1 in *. cbn [progress with_entry] in *. fold e in Hne |- *.
      rewrite drop_app in Hne |- *. apply elem_of_app. right. destruct (S k - length (progress r))%nat as [|m] eqn:Em; [left|].
      rewrite drop_ge in Hne by lia. cbn [drop] in Hne. by rewrite drop_nil in Hne. }
    specialize (Hok1 Hi). rewrite E in Hok1. by destruct Hok1 as (_ & _ & ?).
Qed.

Lemma compact_fields r at_ :
  let r' := compact cfg r at_ in
  goal_id r' = goal_id r ∧ session_id r' = session_id r ∧ objective r' = objective r ∧ status r' = status r ∧
  closed_at r' = closed_at r ∧ revision r' = revision r.
Proof. unfold compact. by destruct (decide _). Qed.

Lemma progressed_wf r text at_ :
  max_progress_entries cfg ≠ 0%nat → wf_goal r → 0 ≤ revision r → trim text ≠ [] →
  unsaturated (progressed cfg r text at_) → wf_goal (progressed cfg r text at_).
Proof.
  intros Hm [H1 H2 H3 H4 H5 H6] Hr Ht Hu. destruct (compact_fields (with_entry r text at_) at_) as (E1 & E2 & E3 & E4 & E5 & E6).
  constructor; [| | | | |by apply progressed_ok]; unfold progressed;
    cbn [goal_id session_id objective status closed_at revision touched]; rewrite ?E1, ?E2, ?E3, ?E4, ?E5, ?E6; [done|done|done| |done].
  cbn [revision with_entry]. unfold sat_add, u64_max. lia.
Qed.

(** Recording progress keeps the history bounded and complete: the record saved
    holds at most the configured number of entries, its history ends in the newest
    notes, the oldest being folded into one summary, the number of notes it accounts
    for has grown by exactly one, the revision has advanced, and the history still
    satisfies the invariants of a goal file. *)
Theorem progress_is_bounded (r : GoalRecord) (text : str) (at_ : Z) :
  max_progress_entries cfg ≠ 0%nat → wf_goal r → trim text ≠ [] →
  0 ≤ compacted_entries r → compacted_entries r + entries r < u64_max → 0 ≤ revision r →
  let r' := progressed cfg r text at_ in
  (length (progress r') ≤ max_progress_entries cfg)%nat ∧
  compacted_entries r' + entries r' = compacted_entries r + entries r + 1 ∧
  (let all := progress r ++ [mkProgress (next_index (progress r)) text at_ false] in
   progress r' = all ∨ ∃ summary k, progress r' = summary :: drop k all ∧ compacted summary = true) ∧
  (revision r < u64_max → revision r' = revision r + 1) ∧
  (unsaturated r' → wf_goal r').
Proof.
  intros Hm Hwf Ht Hce Htot Hrev r'. set (r1 := with_entry r text at_).
  destruct (compact_spec r1 at_ Hm) as (H1 & H2 & H3).
  assert (entries r1 = entries r + 1) as He.
  { unfold entries, r1. cbn [progress with_entry]. rewrite List.filter_app, len_app. cbn. by rewrite len_cons, len_nil. }
  split_and!.
  - done.
  - change (compacted_entries r') with (compacted_entries (compact cfg r1 at_)).
    change (entries r') with (entries (compact cfg r1 at_)). cbn [compacted_entries with_entry r1] in H2. unfold r1 in *.
    cbn [compacted_entries with_entry] in H2. rewrite H2; lia.
  - change (progress r') with (progress (compact cfg r1 at_)).
    destruct H3 as [->|(p & ps & k & n & _ & <- & _ & E & _)]; [by left|right].
    eexists _, (S k). split; [exact E|done].
  - intros Hr. unfold r', progressed. cbn [revision touched]. rewrite (proj2 (proj2 (proj2 (proj2 (proj2 (compact_fields _ _)))))). cbn [revision with_entry].
    unfold sat_add. lia.
  - intros Hu. by apply progressed_wf.
Qed.

End Histories.

(** A goal with two notes, kept at two entries. *)
Definition busy_goal : GoalRecord :=
  mkGoal (chars "s:goal-1") session (chars "ship") Active
    [mkProgress 0 (chars "a") 1 false; mkProgress 1 (chars "b") 2 false] 1 2 None 0 3.

Definition two_entries : GoalConfig := mkConfig 2 4096 2048.

Lemma busy_goal_wf : wf_goal busy_goal.
Proof. constructor; vm_compute; by repeat split. Qed.

Lemma progress_is_bounded_witness :
  progress (progressed two_entries busy_goal (chars "c") 5) =
    [mkProgress 0 (chars "compacted 2 earlier entries") 5 true; mkProgress 2 (chars "c") 5 false] ∧
  compacted_entries (progressed two_entries busy_goal (chars "c") 5) = 2 ∧
  (length (progress (progressed two_entries busy_goal (chars "c") 5)) ≤ 2)%nat.
Proof.
  split; [vm_compute; reflexivity|]. split; [vm_compute; reflexivity|].
  destruct (progress_is_bounded two_entries busy_goal (chars "c") 5 ltac:(done) busy_goal_wf ltac:(done) ltac:(done)
    ltac:(done) ltac:(done)) as [H _]. exact H.
Defined.

End Service.
