(* ===== verification/GoalTasks.v ===== *)
(** * Goal operations running together

    Tasks of the goal service over shared stores: between any two calls of a task
    other tasks run, tasks are dropped, processes die and the power is cut. The
    theorem is that replacing a session's goal never leaves it without one. *)

From S2P Require Import Prelude Utf8 Text WorkerNames Approval Goals GoalDisk GoalStore GoalRecovery GoalHistory GoalService.

Module Tasks.
Import Goals Disk GoalStore Recovery History Service.

(** ** No operation removes a file *)

(** Calls that take no file away but temporaries. *)
Definition tidy_call (o : Call) : Prop :=
  match o with
  | Remove _ n => temp n = true
  | Rename _ from _ => temp from = true
  | _ => True
  end.

Fixpoint tidy {A} (p : Prog A) : Prop :=
  match p with
  | Ret _ => True
  | Do o k => tidy_call o ∧ ∀ r, tidy (k r)
  end.

(** A file other than a temporary. *)
Definition present (w : World) (d : DirName) (n : str) : Prop := temp n = false ∧ is_Some (view (dir_of w d) !! n).

Lemma present_change w d op d' n :
  present w d' n → (d' = d → op_sets op n ≠ Some None) → present (change w d op) d' n.
Proof.
  intros [Hn Hs] Hop. split; [done|]. unfold change. rewrite dir_of_set. destruct (decide (d' = d)) as [->|]; [|done].
  rewrite view_push. specialize (Hop eq_refl). by destruct (op_sets op n) as [[f|]|]; cbn.
Qed.

Lemma present_flush w d' d n : present w d n → present (set_dir w d' (flush_dir (dir_of w d'))) d n.
Proof.
  intros [Hn Hs]. split; [done|]. rewrite dir_of_set. destruct (decide (d = d')) as [->|]; [|done]. by rewrite view_flush.
Qed.

Lemma present_make w d' d n : present w d n → present (set_dir w d' (make_dir (dir_of w d'))) d n.
Proof.
  intros [Hn Hs]. split; [done|]. rewrite dir_of_set. destruct (decide (d = d')) as [->|]; [|done].
  unfold make_dir. by destruct (made (dir_of w d')).
Qed.

Lemma present_perform c o w d n : tidy_call o → present w d n → present (perform c o w).2 d n.
Proof.
  intros Ht Hp. pose proof Hp as [Hn Hs].
  assert (∀ m f d', present (change w d' (Put m f)) d n) as Hput
    by (intros m f d'; apply present_change; [done|]; intros _; cbn; by destruct (decide _)).
  destruct o; cbn [perform tidy_call] in *; unfold on_file, in_dir;
    repeat match goal with
      | |- context [lookup_file ?w ?d ?n] => destruct (lookup_file w d n)
      | |- context [match made ?x with _ => _ end] => destruct (made x)
      end;
    destruct (fails c); cbn [fst snd]; try done; try apply Hput; try by apply present_make.
  - apply present_change; [done|]. intros _. cbn. destruct (decide _); [done|]. rewrite decide_False; [done|]. by intros ->; rewrite Ht in Hn.
  - apply present_change; [done|]. intros _. cbn. rewrite decide_False; [done|]. by intros ->; rewrite Ht in Hn.
  - by apply present_flush.
  - by apply present_flush.
Qed.

Lemma present_exec {A} cs (p : Prog A) w d n :
  tidy p → present w d n → present (exec cs p w).2 d n.
Proof.
  revert cs w. induction p as [a|o k IH]; intros cs w; cbn [tidy exec]; [done|]. intros [Ho Hk] Hp.
  destruct cs as [|c cs]; [done|]. destruct (perform c o w) as [r w'] eqn:E.
  apply IH; [done|]. replace w' with (perform c o w).2 by by rewrite E. by apply present_perform.
Qed.

Lemma tidy_pbind {A B} (p : Prog A) (k : A → Prog B) : tidy p → (∀ a, tidy (k a)) → tidy (pbind p k).
Proof. induction p as [a|o f IH]; cbn; [by auto|]. intros [Ho Hf] Hk. split; [done|]. intros r. by apply IH. Qed.

Lemma tidy_bindM {A B} (p : M A) (k : A → M B) : tidy p → (∀ a, tidy (k a)) → tidy (p ≫= k).
Proof. intros Hp Hk. apply tidy_pbind; [done|]. by intros [a|e]. Qed.

Lemma tidy_call_M o p : tidy_call o → tidy (call o p).
Proof. intros Ho. split; [done|]. by intros [a|e]. Qed.

Create HintDb tidy.
#[local] Hint Resolve tidy_call_M : tidy.

Section Operations.
Context `{GJ : GoalJson} `{IJ : IndexJson} `{DG : Digest}.

(** One call or one choice at a time. *)
Ltac tidy_step :=
  first
    [ done
    | apply tidy_bindM; [|intros ?]
    | apply tidy_pbind; [|intros ?]
    | apply tidy_call_M; done
    | match goal with |- tidy (match ?x with _ => _ end) => destruct x end
    | match goal with |- tidy (if ?x then _ else _) => destruct x end
    | match goal with |- tidy (Do _ _) => split; [done|intros ?] end
    | solve [auto with tidy] ].
Ltac tidied := repeat tidy_step.

Lemma write_atomically_tidy d n t : tidy (write_atomically d n t).
Proof.
  unfold write_atomically. split; [done|]. intros ordinal. split; [done|]. intros process.
  set (tmp := temporary _ _). assert (temp tmp = true) as Ht by apply temporary_temp.
  tidied.
Qed.
Hint Resolve write_atomically_tidy : tidy.

Lemma read_record_sized_tidy n : tidy (read_record_sized n).
Proof. split; [done|]. intros [t|[]]; tidied. Qed.
Hint Resolve read_record_sized_tidy : tidy.

Lemma read_record_at_tidy n : tidy (read_record_at n).
Proof. unfold read_record_at. tidied. Qed.
Hint Resolve read_record_at_tidy : tidy.

Lemma read_index_tidy s : tidy (read_index s).
Proof. split; [done|]. intros [t|[]]; tidied. Qed.
Hint Resolve read_index_tidy : tidy.

Lemma write_index_tidy ix : tidy (write_index ix).
Proof. unfold write_index. tidied. Qed.
Hint Resolve write_index_tidy : tidy.

Lemma acquire_tidy n : tidy (acquire n).
Proof. induction n as [|n IH]; cbn [acquire]; tidied. Qed.
Hint Resolve acquire_tidy : tidy.

Lemma with_store_lock_tidy {A} (p : M A) : tidy p → tidy (with_store_lock p).
Proof. intros Hp. unfold with_store_lock. tidied. Qed.

Lemma usage_loop_tidy ids u : tidy (usage_loop ids u).
Proof. revert u. induction ids as [|g ids IH]; intros u; cbn [usage_loop]; tidied. Qed.
Hint Resolve usage_loop_tidy : tidy.

Lemma save_blocking_tidy budget r : tidy (save_blocking budget r).
Proof.
  unfold save_blocking. destruct (encode r); [|done]. apply with_store_lock_tidy. unfold save_locked, usage_of_index, accept. tidied.
Qed.

Lemma compact_loop_tidy k ids sm : tidy (compact_loop k ids sm).
Proof. revert sm. induction ids as [|g ids IH]; intros sm; cbn [compact_loop]; tidied. Qed.
Hint Resolve compact_loop_tidy : tidy.

Lemma list_loop_tidy ids : tidy (list_loop ids).
Proof. induction ids as [|g ids IH]; cbn [list_loop]; tidied. Qed.
Hint Resolve list_loop_tidy : tidy.

Lemma operate_tidy o : tidy (operate o).
Proof.
  destruct o as [budget r|s k|s|s|s|g]; apply tidy_pbind; try by intros.
  - apply save_blocking_tidy.
  - apply with_store_lock_tidy. tidied.
  - apply with_store_lock_tidy. tidied.
  - apply with_store_lock_tidy. tidied.
  - apply with_store_lock_tidy. unfold usage_of_index. tidied.
  - apply read_record_at_tidy.
Qed.

(** Recovery removes temporaries only. *)
Lemma discard_loop_tidy d names k : tidy (discard_loop d names k).
Proof.
  revert k. induction names as [|n names IH]; intros k; cbn [discard_loop]; [done|].
  destruct (starts_with TEMP_PREFIX n) eqn:E; [|apply IH]. apply tidy_bindM; [|by intros ?; apply IH].
  by apply tidy_call_M.
Qed.
Hint Resolve discard_loop_tidy : tidy.

Lemma scan_loop_tidy names records : tidy (scan_loop names records).
Proof. revert records. induction names as [|n names IH]; intros records; cbn [scan_loop]; tidied. Qed.
Hint Resolve scan_loop_tidy : tidy.

Lemma sessions_loop_tidy names found : tidy (sessions_loop names found).
Proof. revert found. induction names as [|n names IH]; intros found; cbn [sessions_loop]; tidied. Qed.
Hint Resolve sessions_loop_tidy : tidy.

Lemma repair_loop_tidy records sessions rep : tidy (GoalStore.repair_loop records sessions rep).
Proof.
  revert rep. induction sessions as [|s sessions IH]; intros rep; cbn [GoalStore.repair_loop]; tidied.
Qed.
Hint Resolve repair_loop_tidy : tidy.

Lemma open_tidy : tidy open_with_budget.
Proof.
  unfold open_with_budget. do 3 (apply tidy_bindM; [by apply tidy_call_M|intros ?]).
  apply with_store_lock_tidy. unfold recover, discard_temporaries, scan_records. tidied.
Qed.

(** A goal whose file is on the disk. *)
Definition on_disk (st : State) (g : str) : Prop := is_Some (view (goals st) !! record_name g).

Definition is_power_cut (e : Event) : bool := match e with PowerCut _ _ _ _ _ _ => true | _ => false end.

Lemma on_disk_step st e g : is_power_cut e = false → on_disk st g → on_disk (step st e).1 g.
Proof.
  intros He Hg. assert (∀ i, present (world_of st i) GoalsDir (record_name g)) as Hp
    by (intros i; split; [apply record_name_not_temp|done]).
  destruct e as [process cs|i o cs|i|]; cbn [step]; [| |done|done].
  - pose proof (present_exec cs open_with_budget _ _ _ open_tidy (Hp (fresh process))) as H.
    by destruct (exec cs open_with_budget _) as [[x cs'] w] eqn:E; destruct H.
  - destruct (stores st !! i) as [instance|]; [|done].
    pose proof (present_exec cs (operate o) _ _ _ (operate_tidy o) (Hp instance)) as H.
    by destruct (exec cs (operate o) _) as [[x cs'] w] eqn:E; destruct H.
Qed.

End Operations.

(** ** Tasks over stores *)

Inductive Request :=
| RSet (session id text : str)
| RStart (session text : str)
| RProgress (id text : str)
| RClose (id : str) (s : GoalStatus)
| RApply (session : str) (action : GoalAction)
| RTool (session : str) (action : GoalAction).

Definition serve (cfg : GoalConfig) (q : Request) : T GoalRecord :=
  match q with
  | RSet session id text => set cfg session id text
  | RStart session text => start cfg session text
  | RProgress id text => record_progress cfg id text
  | RClose id s => close id s
  | RApply session action => apply cfg session action
  | RTool session action => invoke_goal_tool cfg session action
  end.

(** A port call is an operation of a store; its answer in the port's terms. *)
Definition operation_of (budget : GoalBudget) (o : PortCall) : Operation :=
  match o with
  | NextGoalOrdinal s => NextOrdinal s
  | LoadGoal g => Load g
  | SaveGoal r => Save budget r
  | ListForSession s => ListGoals s
  end.

Definition ported {A} (x : result StoreError A) : result PortError A :=
  match x with Ok a => Ok a | Err e => Err (port_error e) end.

Definition answer_of (o : PortCall) (a : Answer) : option (result PortError (reply o)) :=
  match o, a with
  | NextGoalOrdinal _, Numbered x => Some (ported x)
  | LoadGoal _, Loaded x => Some (ported x)
  | SaveGoal _, Saved x => Some (ported x)
  | ListForSession _, Listed x => Some (ported x)
  | _, _ => None
  end.

(** The disk and the stores, and the tasks in flight. *)
Record System := mkSystem { disk : State; tasks : list (T GoalRecord) }.

Definition begun : System := mkSystem initial [].

(** A task reads the clock, or makes one port call on some store, which the
    environment may cut short; it may be dropped at any await. A power cut ends all
    tasks. *)
Inductive Happening :=
| Outside (e : Event)
| Begin (q : Request)
| Tick (k : nat) (at_ : Z)
| Advance (k : nat) (i : nat) (budget : GoalBudget) (cs : list Choice)
| Drop (k : nat).

Section System.
Context `{GJ : GoalJson} `{IJ : IndexJson} `{DG : Digest}.
Context (cfg : GoalConfig).

Definition happen (S : System) (h : Happening) : System :=
  match h with
  | Outside e => mkSystem (step (disk S) e).1 (if is_power_cut e then [] else tasks S)
  | Begin q => mkSystem (disk S) (tasks S ++ [serve cfg q])
  | Tick k at_ =>
      match tasks S !! k with
      | Some (Now f) => mkSystem (disk S) (<[k := f at_]> (tasks S))
      | _ => S
      end
  | Advance k i budget cs =>
      match tasks S !! k with
      | Some (Ask o f) =>
          let '(st, a) := step (disk S) (Run i (operation_of budget o) cs) in
          mkSystem st (match a ≫= answer_of o with Some x => <[k := f x]> (tasks S) | None => delete k (tasks S) end)
      | _ => S
      end
  | Drop k => mkSystem (disk S) (delete k (tasks S))
  end.

Fixpoint unfold_ (S : System) (hs : list Happening) : System :=
  match hs with [] => S | h :: hs => unfold_ (happen S h) hs end.

(** A task run alone, with no failing call. *)
Fixpoint alone {A : Type} (budget : GoalBudget) (at_ : Z) (p : Task A) (w : World) : option A :=
  match p with
  | Done a => Some a
  | Now f => alone budget at_ (f at_) w
  | Ask o f =>
      let '(a, w) := calm (operate (operation_of budget o)) w in
      match answer_of o a with Some x => alone budget at_ (f x) w | None => None end
  end.

(** ** A logic for tasks *)

(** [owner] is the session a goal belongs to and [here] the session watched. *)
Context (owner : str → str) (here : str).

Implicit Types (K D : gset str) (s id text : str).

(** What may be asked of the port by a task that knows the goals [K] to be on disk
    and may retire the goals [D] of [here]: it saves goals of other sessions, active
    goals, and retired versions of goals it may retire. Saving a goal it does not
    know, with the first revision, lets it retire goals it knows. [next] is what
    follows an answer. *)
Definition asked (K D : gset str) (o : PortCall)
  : (result PortError (reply o) → gset str → gset str → Prop) → Prop :=
  match o with
  | NextGoalOrdinal _ => λ next, ∀ x, next x K D
  | LoadGoal g => λ next,
      (∀ r, savable owner r → goal_id r = g → next (Ok (Some r)) ({[g]} ∪ K) D) ∧
      next (Ok None) K D ∧ ∀ e, next (Err e) K D
  | ListForSession s => λ next,
      (∀ l, Forall (λ r, savable owner r ∧ session_id r = s) l →
         next (Ok l) (list_to_set (goal_id <$> l) ∪ K) D) ∧
      ∀ e, next (Err e) K D
  | SaveGoal r => λ next,
      (unsaturated r → savable owner r) ∧
      (session_id r ≠ here ∧ (∀ x, next x K D)
       ∨ status r = Active ∧ (∀ x, next x K D)
       ∨ status r = Active ∧ revision r = 1 ∧ session_id r = here ∧ (∀ e, next (Err e) K D) ∧
         (goal_id r ∉ K → ∃ D', D' ⊆ K ∧ next (Ok tt) K D')
       ∨ goal_id r ∈ D ∧ (∀ x, next x K D))
  end.

Lemma asked_mono (K D : gset str) o (next next' : result PortError (reply o) → gset str → gset str → Prop) :
  (∀ x K' D', next x K' D' → next' x K' D') → asked K D o next → asked K D o next'.
Proof.
  intros H. destruct o; cbn [asked]; [by auto|intros (? & ? & ?); split_and!; by auto| |intros [? ?]; split; by auto].
  intros [Hs Ho]. split; [done|]. destruct Ho as [[? ?]|[[? ?]|[(? & ? & ? & ? & Hn)|[? ?]]]]; [by auto..| |by auto 10].
  right; right; left. split_and!; [by auto..|]. intros Hk. destruct (Hn Hk) as (D' & ? & ?). exists D'. by auto.
Qed.

(** [Q] holds of a good task's result. *)
Fixpoint good {A : Type} (K D : gset str) (p : Task A) (Q : gset str → gset str → A → Prop) : Prop :=
  match p with
  | Done a => Q K D a
  | Now f => ∀ z, good K D (f z) Q
  | Ask o f => asked K D o (λ x K' D', good K' D' (f x) Q)
  end.

Lemma good_bind {A B : Type} (K D : gset str) (p : Task A) (k : A → Task B) Q R :
  (∀ K' D' a, Q K' D' a → good K' D' (k a) R) → good K D p Q → good K D (task_bind p k) R.
Proof.
  intros HQ. revert K D. induction p as [a|f IH|o f IH]; intros K D; cbn [task_bind good]; [by auto|by intros H z; apply IH|].
  apply asked_mono. intros x K' D'. apply IH.
Qed.

Lemma good_T {A B : Type} (K D : gset str) (p : T A) (k : A → T B) Q :
  good K D p (λ K' D' x, match x with Ok a => good K' D' (k a) Q | Err e => Q K' D' (Err e) end) →
  good K D (p ≫= k) Q.
Proof. apply good_bind. by intros K' D' [a|e]. Qed.

Definition any {A : Type} (K D : gset str) (a : A) : Prop := True.

(** ** The operations are good *)

Lemma active_good K D s (Q : gset str → gset str → result GoalError (option GoalRecord) → Prop) :
  (∀ K' o, (∀ p, o = Some p → savable owner p ∧ session_id p = s ∧ goal_id p ∈ K') → Q K' D (Ok o)) →
  (∀ e, Q K D (Err e)) → good K D (active s) Q.
Proof.
  intros HQ He. apply good_T. cbn. split; [|done]. intros l Hl. apply HQ. intros p Hp.
  apply find_some in Hp as [Hin _]. rewrite <- list_elem_of_In, elem_of_reverse in Hin.
  destruct (proj1 (Forall_forall _ _) Hl p Hin) as [H1 H2]. split_and!; [done|done|].
  apply elem_of_union_l, elem_of_list_to_set, list_elem_of_fmap. by exists p.
Qed.

Lemma require_active_good K D id (Q : gset str → gset str → result GoalError GoalRecord → Prop) :
  (∀ K' r, savable owner r → goal_id r = id → status r = Active → Q K' D (Ok r)) →
  (∀ K' e, Q K' D (Err e)) → good K D (require_active id) Q.
Proof.
  intros HQ He. apply good_T. cbn. split_and!; [|apply He|intros; apply He].
  intros r Hr Hid. destruct (is_closed (status r)) eqn:E; cbn; [apply He|]. apply HQ; [done|done|]. by destruct (status r).
Qed.

(** A successor of a record the store gave is savable. *)
Lemma superseded_savable p at_ : savable owner p → savable owner (superseded p at_).
Proof.
  intros [[H1 H2 H3 H4 H5 H6] Ho Hr]. constructor; [constructor| |]; cbn; [done..| |done|done|done|]; unfold sat_add; lia.
Qed.

Lemma closed_savable p (s : GoalStatus) at_ : savable owner p → is_closed s = true → savable owner (closed p s at_).
Proof.
  intros [[H1 H2 H3 H4 H5 H6] Ho Hr] Hs. constructor; [constructor| |]; cbn; [done..| |done|done|done|]; unfold sat_add; lia.
Qed.

Lemma progressed_savable r text at_ :
  max_progress_entries cfg ≠ 0%nat → savable owner r → trim text ≠ [] → unsaturated (progressed cfg r text at_) →
  savable owner (progressed cfg r text at_).
Proof.
  intros Hm [Hwf Ho Hr] Ht Hu. destruct (compact_fields cfg (with_entry r text at_) at_) as (E1 & E2 & _ & _ & _ & E6).
  constructor; [by apply progressed_wf; [| |lia| |]| |]; unfold progressed; cbn [goal_id session_id revision touched];
    rewrite ?E1, ?E2, ?E6; [done|]. cbn [revision with_entry]. unfold sat_add. lia.
Qed.

Lemma new_goal_savable s id text at_ :
  session_id_new s = Ok s → goal_id_new id = Ok id → owner id = s → trim text ≠ [] →
  savable owner (new_goal s id text at_).
Proof. intros Hs Hi Ho Ht. constructor; [constructor| |]; cbn; [done..|lia|done|done|done|unfold u64_max; lia]. Qed.

Lemma validate_objective_Ok text t : validate_objective cfg text = Ok t → t = trim text ∧ trim t ≠ [].
Proof.
  unfold validate_objective. destruct (decide _); [done|]. case_bool_decide as Hn; [done|].
  destruct (_ <? _); [done|]. intros [= <-]. by rewrite trim_idem.
Qed.

(** Retiring the previous goal of a session. *)
Lemma retire_good K D s (previous : option GoalRecord) at_ (r : GoalRecord) :
  (∀ p, previous = Some p → savable owner p ∧ session_id p = s ∧ (s ≠ here ∨ goal_id p ∈ D)) →
  good K D (match previous with
            | Some p => _ ← port (SaveGoal (superseded p at_)); mret r
            | None => mret r
            end : T GoalRecord) any.
Proof.
  intros Hp. destruct previous as [p|]; [|done]. destruct (Hp p eq_refl) as (Hs & Hse & Hd).
  apply good_T. cbn. split; [intros _; by apply superseded_savable|].
  destruct Hd as [Hne|Hin]; [left|right; right; right]; (split; [by cbn; rewrite ?Hse|]); by intros [[]|e].
Qed.

(** Saving a first revision and then retiring what was active before. *)
Lemma replace_good K D s (previous : option GoalRecord) at_ (r : GoalRecord) :
  savable owner r → status r = Active → revision r = 1 → session_id r = s →
  (∀ p, previous = Some p → savable owner p ∧ session_id p = s ∧ goal_id p ∈ K) →
  good K D (_ ← port (SaveGoal r);
            match previous with
            | Some p => _ ← port (SaveGoal (superseded p at_)); mret r
            | None => mret r
            end : T GoalRecord) any.
Proof.
  intros Hr Ha H1 Hse Hp. apply good_T. cbn [port good reply]. split; [done|].
  destruct (decide (s = here)) as [->|Hne].
  - right; right; left. split_and!; [done|done|done|done|]. intros _.
    exists (match previous with Some p => {[goal_id p]} | None => ∅ end). split.
    + destruct previous as [p|]; [|set_solver]. destruct (Hp p eq_refl) as (_ & _ & Hk). set_solver.
    + apply (retire_good _ _ here). intros p ->. destruct (Hp p eq_refl) as (? & ? & _). split_and!; [done..|]. right. set_solver.
  - left. split; [by rewrite Hse|]. intros [[]|e]; [|done]. cbn. apply (retire_good _ _ s). intros p ->.
    destruct (Hp p eq_refl) as (? & ? & _). split_and!; [done..|by left].
Qed.

Lemma set_good K D s id text :
  session_id_new s = Ok s → goal_id_new id = Ok id → owner id = s → good K D (set cfg s id text) any.
Proof.
  intros Hs Hi Ho. apply good_T. cbn [good of_result]. destruct (validate_objective cfg text) as [t|] eqn:E; [|done].
  apply validate_objective_Ok in E as [_ Ht]. apply good_T. cbn [good now]. intros at_.
  apply good_T, active_good; [|done]. intros K' previous Hp.
  apply (replace_good K' D s); [by apply new_goal_savable|done|done|done|]. intros p Hpp. by apply Hp.
Qed.

Lemma record_progress_good K D id text : good K D (record_progress cfg id text) any.
Proof.
  unfold record_progress. destruct (decide _) as [|Hm]; [done|]. case_bool_decide as Hn; [done|].
  destruct (_ <? _); [done|]. apply good_T, require_active_good; [|done]. intros K' r Hr _ Ha.
  apply good_T. cbn [good now]. intros at_. apply good_T. cbn [good port asked]. split; [apply progressed_savable; [done|done|by rewrite trim_idem]|].
  right; left. split; [|by intros [[]|e]].
  destruct (compact_fields cfg (with_entry r (trim text) at_) at_) as (_ & _ & _ & E4 & _).
  unfold progressed. cbn [status touched]. by rewrite E4.
Qed.

Lemma close_good K D id (s : GoalStatus) : owner id ≠ here → good K D (close id s) any.
Proof.
  intros Ho. unfold close. destruct (is_closed s) eqn:E; [|done]. apply good_T, require_active_good; [|done].
  intros K' r Hr Hid _. apply good_T. cbn [good now]. intros at_. apply good_T. cbn. split; [intros _; by apply closed_savable|].
  left. split; [|by intros [[]|e]]. by rewrite (savable_owner _ _ Hr), Hid.
Qed.

(** A session whose minted identifiers are its own. *)
Definition mints s : Prop := session_id_new s = Ok s ∧ ∀ n id, goal_id_new (mint s n) = Ok id → owner id = s.

Lemma start_good K D s text : mints s → good K D (start cfg s text) any.
Proof.
  intros [Hs Hm]. apply good_T. cbn [good of_result]. destruct (validate_objective cfg text) as [t|] eqn:E; [|done].
  apply validate_objective_Ok in E as [_ Ht]. apply good_T. cbn [good port asked]. intros [n|e]; [|done].
  apply good_T. cbn [good of_result]. destruct (goal_id_new (mint s n)) as [id|] eqn:Eid; [|done].
  pose proof (goal_id_new_idem _ _ Eid) as Hid. pose proof (Hm _ _ Eid) as Ho.
  apply good_T. cbn [good port asked]. split_and!; [|by apply set_good|done].
  intros r Hr Hrid. destruct (is_equivalent_new_goal r s t) eqn:Eq; [|by apply set_good].
  unfold is_equivalent_new_goal in Eq. boolify.
  repeat match goal with H : bool_decide _ = true |- _ => apply bool_decide_eq_true in H end.
  apply good_T, active_good; [|done]. intros K' previous Hp.
  apply (replace_good K' D s); [done..|]. intros p Hpp. by apply Hp.
Qed.

Lemma apply_good K D s action :
  mints s → (∀ t, action = CloseGoal t → s ≠ here) → good K D (apply cfg s action) any.
Proof.
  intros Hs Hc. destruct action as [text|text|t]; cbn [apply]; [by apply start_good|..].
  - apply good_T, active_good; [|done]. intros K' [r|] _; [apply record_progress_good|done].
  - apply good_T, active_good; [|done]. intros K' [r|] Hr; [|done]. apply close_good.
    destruct (Hr r eq_refl) as (Hsav & <- & _). rewrite <- (savable_owner _ _ Hsav). by eapply Hc.
Qed.

Lemma retry_good {A : Type} n (operation : T A) :
  (∀ K D, good K D operation any) → ∀ K D, good K D (retry_from n operation) any.
Proof.
  intros Ho. induction n as [|n IH]; intros K D; cbn [retry_from]; (eapply good_bind; [|apply Ho]);
    intros K' D' [a|e] _; try done; destruct (is_conflict e); [done|done|apply IH|done].
Qed.

(** The repair after a conflict retires goals of the session only. *)
Lemma repair_loop_good committed rs K D :
  Forall (λ r, savable owner r ∧ session_id r ≠ here) rs → good K D (repair_loop committed rs) any.
Proof.
  intros Hrs. revert K D. induction Hrs as [|r rs [Hs Hne] _ IH]; intros K D; cbn [repair_loop]; [done|].
  destruct (_ || _); [apply IH|]. eapply good_bind; [|apply retry_good; intros; apply close_good].
  - intros K' D' [a|[]] _; try done; apply IH.
  - by rewrite <- (savable_owner _ _ Hs).
Qed.

Lemma repair_good K D s committed : s ≠ here → good K D (repair_older_active_goals s committed) any.
Proof.
  intros Hne. apply good_T. cbn [good history port asked]. split; [|done]. intros l Hl. apply repair_loop_good.
  eapply Forall_impl; [exact Hl|]. intros r [Hr <-]. by split.
Qed.

Lemma start_from_good n s text : mints s → s ≠ here → ∀ K D, good K D (start_from cfg n s text) any.
Proof.
  intros Hs Hne. induction n as [|n IH]; intros K D; cbn [start_from]; (eapply good_bind; [|by apply start_good]);
    intros K1 D1 [r|e] _; try done; (destruct (is_conflict e); [|done]);
    (eapply (good_bind _ _ _ _ any); [|apply active_good; done]);
    intros K2 D2 [[c|]|e2] _; try done; try apply IH;
    try (destruct (bool_decide _); [|first [done|apply IH]];
      eapply (good_bind _ _ _ _ any); [|by apply repair_good]; by intros K3 D3 [[]|]);
    (destruct (is_conflict e2); [first [done|apply IH]|done]).
Qed.

Lemma invoke_good K D s action : mints s → (s = here → ∃ note, action = Progress note) → good K D (invoke_goal_tool cfg s action) any.
Proof.
  intros Hs Hne. destruct action; cbn [invoke_goal_tool].
  - apply start_from_good; [done|]. by intros [note ?]%Hne.
  - apply retry_good. intros. by apply apply_good.
  - apply retry_good. intros. apply apply_good; [done|]. intros t _. by intros [note ?]%Hne.
Qed.

(** Requests that do not close a goal of [here]: no close of it, directly or through
    an action, and no [SetGoal] through the goal tool, whose repair after a conflict
    retires goals of the session ([conflict_repair_strands_session] is a run in which
    that leaves the session without one). *)
Definition valid_request (q : Request) : Prop :=
  match q with
  | RSet s id _ => session_id_new s = Ok s ∧ goal_id_new id = Ok id ∧ owner id = s
  | RStart s _ => mints s
  | RProgress _ _ => True
  | RClose id _ => owner id ≠ here
  | RApply s action => mints s ∧ ∀ t, action = CloseGoal t → s ≠ here
  | RTool s action => mints s ∧ (s = here → ∃ note, action = Progress note)
  end.

Lemma serve_good K D q : valid_request q → good K D (serve cfg q) any.
Proof.
  destruct q; cbn [valid_request serve].
  - intros (? & ? & ?). by apply set_good.
  - apply start_good.
  - intros _. apply record_progress_good.
  - apply close_good.
  - intros [? ?]. by apply apply_good.
  - intros [? ?]. by apply invoke_good.
Qed.

(** ** What the store's answers say *)

Definition answer_facts (w : World) (o : Operation) (a : Answer) : Prop :=
  match o, a with
  | ListGoals s, Listed (Ok l) => Forall2 (λ g r, stored_goal w g = Some r) (goal_ids (stored_index w s)) l
  | Load g, Loaded (Ok (Some r)) => stored_goal w g = Some r
  | Save _ r, Saved (Ok _) => stored_goal w (goal_id r) ≠ Some r → revision r = 1 → stored_goal w (goal_id r) = None
  | _, _ => True
  end.

(** Only a goal that is not there is saved with the first revision. *)
Lemma first_revision acks b w budget r text ix :
  Inv owner acks b w → decision_at budget w r text = Ok ix → stored_goal w (goal_id r) ≠ Some r → revision r = 1 →
  stored_goal w (goal_id r) = None.
Proof.
  intros Hi Hd Hne H1. destruct (stored_goal w (goal_id r)) as [r0|] eqn:E; [|done].
  destruct (stored_goal_Some _ _ _ _ _ _ Hi E) as (_ & Hs & _). pose proof (savable_revision _ _ Hs).
  pose proof (wf_revision _ (savable_wf _ _ Hs)). revert Hd. unfold decision_at, save_decision. rewrite E.
  rewrite (bool_decide_eq_false_2 _ Hne), andb_false_r. cbn [negb andb]. rewrite H1.
  destruct (1 =? sat_add u64_max (revision r0) 1) eqn:E1; [|done]. boolify. unfold sat_add, u64_max in E1. lia.
Qed.

Lemma operate_answers acks w o i cs :
  Inv owner acks true w → valid_event owner (Run i o cs) → event_keeps owner acks (Run i o cs) →
  safe (λ _, True) (Inv owner acks true) (operate o) w (λ a _, answer_facts w o a).
Proof.
  intros Hi Hv Hk. destruct o as [budget r|s k|s|s|s|g]; cbn [operate]; apply safe_pbind.
  - eapply safe_post; [by apply (save_blocking_safe owner)|]. intros [[]|e] w' Hi' H; (split; [done|]); [|done].
    destruct (encode r) as [text|]; [|by destruct H]. destruct H as (ix & Hd & _). cbn. by eapply first_revision.
  - eapply safe_post; [by apply (compact_closed_history_safe owner)|]. by intros x w' Hi' _.
  - eapply safe_post; [by apply (list_blocking_safe owner)|]. by intros [l|e] w' Hi' [_ H].
  - eapply safe_post; [by apply (next_goal_ordinal_safe owner)|]. by intros x w' Hi' _.
  - eapply safe_post; [by apply (usage_safe owner)|]. by intros x w' Hi' _.
  - eapply safe_post; [by apply (load_safe owner)|]. by intros [[r|]|e] w' Hi' [_ H].
Qed.

Lemma step_answers acks st i o cs a :
  StateInv owner acks st → valid_event owner (Run i o cs) → event_keeps owner acks (Run i o cs) →
  (step st (Run i o cs)).2 = Some a → answer_facts (world_of st (fresh 0)) o a.
Proof.
  intros Hi Hv Hk. cbn [step]. destruct (stores st !! i) as [instance|] eqn:Ei; [|done].
  assert (is_open st = true) as Ho by (apply bool_decide_eq_true; by intros Hn; rewrite Hn in Ei).
  pose proof (StateInv_world _ _ _ instance Hi) as Hw. rewrite Ho in Hw.
  destruct (exec cs (operate o) _) as [[x cs'] w] eqn:E. cbn. intros ->.
  eapply safe_exec in E as [_ Hq]; [|by eapply operate_answers|apply Forall_any]. exact (Hq a eq_refl).
Qed.

(** ** The invariant of the system *)

Definition stays_active (r : GoalRecord) : Prop := status r = Active.

(** The goal of [here] known to stay active, once there is one. *)
Definition watched (witness : option str) : Promises :=
  match witness with Some g => {[g := stays_active]} | None => ∅ end.

Definition task_ok (st : State) (witness : option str) (p : T GoalRecord) : Prop :=
  ∃ K D, good K D p any ∧ D ⊆ K ∧ (∀ g, g ∈ K → on_disk st g) ∧ (∀ g, witness = Some g → g ∉ D).

Record SystemInv (witness : option str) (S : System) : Prop := {
  sys_state : StateInv owner (watched witness) (disk S);
  sys_here g : witness = Some g → owner g = here;
  sys_tasks : Forall (task_ok (disk S) witness) (tasks S);
}.

(** Saves go through the service; other events are those of [valid_event]. *)
Definition valid_happening (h : Happening) : Prop :=
  match h with
  | Outside (Run _ (Save _ _) _) => False
  | Outside e => valid_event owner e
  | Begin q => valid_request q
  | _ => True
  end.

(** A save finds another record than the one it saves, and progress indices are not
    exhausted. *)
Definition proper (S : System) (h : Happening) : Prop :=
  match h with
  | Advance k _ _ _ =>
      match tasks S !! k with
      | Some (Ask (SaveGoal r) _) => unsaturated r ∧ stored_goal (world_of (disk S) (fresh 0)) (goal_id r) ≠ Some r
      | _ => True
      end
  | _ => True
  end.

(** [proper] as a test. *)
Definition proper_b (S : System) (h : Happening) : bool :=
  match h with
  | Advance k _ _ _ =>
      match tasks S !! k with
      | Some (Ask (SaveGoal r) _) =>
          forallb (λ p, index p <? u64_max) (progress r)
          && negb (bool_decide (stored_goal (world_of (disk S) (fresh 0)) (goal_id r) = Some r))
      | _ => true
      end
  | _ => true
  end.

Lemma proper_b_true (S : System) h : proper_b S h = true → proper S h.
Proof.
  destruct h as [| | |k i b cs|]; cbn; try done. destruct (tasks S !! k) as [[|f|[| |r|] f]|]; try done.
  intros [H1 H2]%andb_true_iff. apply negb_true_iff, bool_decide_eq_false in H2. split; [|done].
  unfold unsaturated. rewrite List.forallb_forall in H1. apply Forall_forall. intros p Hp%list_elem_of_In%H1. lia.
Qed.

Lemma Inv_promises acks acks' b w : acks' ⊆ acks → Inv owner acks b w → Inv owner acks' b w.
Proof.
  intros Hsub [H1 H2 H3 H4 H5]. constructor; [done..| | |done].
  - intros g q v Hk. apply H3. by eapply lookup_weaken.
  - intros Hb. destruct (H4 Hb) as [H6 H7]. split; [done|]. intros g q Hk. eapply H7. by eapply lookup_weaken.
Qed.

Lemma watched_compaction witness : compaction_keeps owner (watched witness).
Proof.
  intros g q r k Hk _ Hq Hc. destruct witness as [g'|]; cbn in Hk; [|by rewrite lookup_empty in Hk].
  apply lookup_singleton_Some in Hk as [_ <-]. unfold stays_active in Hq. by rewrite Hq in Hc.
Qed.

(** Every event outside the tasks keeps the promise. *)
Lemma outside_keeps witness e : valid_happening (Outside e) → valid_event owner e ∧ event_keeps owner (watched witness) e.
Proof.
  destruct e as [|i [] cs| |]; cbn; try done. intros Hs. split; [done|apply watched_compaction].
Qed.

Lemma task_ok_step st st' witness p : (∀ g, on_disk st g → on_disk st' g) → task_ok st witness p → task_ok st' witness p.
Proof. intros Hd (K & D & H1 & H2 & H3 & H4). exists K, D. split_and!; [done|done|by auto|done]. Qed.

Lemma stored_on_disk st i g r : stored_goal (world_of st i) g = Some r → on_disk st g.
Proof. unfold stored_goal, on_disk. cbn. by destruct (view (goals st) !! record_name g). Qed.

Lemma asked_save_keeps witness K D r next :
  asked K D (SaveGoal r) next → savable owner r → (∀ g, witness = Some g → owner g = here ∧ g ∉ D) →
  save_keeps owner (watched witness) r.
Proof.
  intros [_ Ha] Hs Hw q r0 Hk _ _ _. destruct witness as [g|]; cbn in Hk; [|by rewrite lookup_empty in Hk].
  apply lookup_singleton_Some in Hk as [Hg <-]. destruct (Hw g eq_refl) as [Ho Hd]. unfold stays_active.
  destruct Ha as [[Hne _]|[[? _]|[[? _]|[Hin _]]]]; [|done|done|by subst g].
  destruct Hne. by rewrite (savable_owner _ _ Hs), <- Hg.
Qed.

(** An answer a task was given is one it may be given. *)
Definition answered K D (o : PortCall) (x : result PortError (reply o)) (K' : gset str) : Prop :=
  ∀ next, (∀ r, o ≠ SaveGoal r) → asked K D o next → next x K' D.

Lemma listed_facts acks w s l :
  Inv owner acks true w → Forall2 (λ g r, stored_goal w g = Some r) (goal_ids (stored_index w s)) l →
  Forall (λ r, savable owner r ∧ session_id r = s) l ∧ ∀ r, r ∈ l → stored_goal w (goal_id r) = Some r.
Proof.
  intros Hi Hf.
  assert (∀ r, r ∈ l → stored_goal w (goal_id r) = Some r ∧ savable owner r ∧ session_id r = s) as H.
  { intros r [k Hk]%list_elem_of_lookup. destruct (Forall2_lookup_r _ _ _ _ _ Hf Hk) as (g & Hg & Hr).
    destruct (stored_goal_Some _ _ _ _ _ _ Hi Hr) as (<- & Hs & _). split_and!; [done..|].
    rewrite (savable_owner _ _ Hs). eapply stored_index_owned; [done|]. by eapply list_elem_of_lookup_2. }
  split; [apply Forall_forall|]; intros r Hr; by apply H.
Qed.

Lemma read_answered acks st o budget K D a x :
  Inv owner acks true (world_of st (fresh 0)) → answer_facts (world_of st (fresh 0)) (operation_of budget o) a →
  answer_of o a = Some x →
  ∃ K', K ⊆ K' ∧ (∀ g, g ∈ K' → g ∈ K ∨ on_disk st g) ∧ answered K D o x K'.
Proof.
  intros Hi Hf Ha. destruct o as [s|g|r|s], a as [y|y|y|y|y|y|y]; try done; cbn in Ha, Hf; injection Ha as <-.
  - exists K. split_and!; [done|by left|]. by intros next _ H.
  - destruct y as [[r|]|e]; cbn.
    + destruct (stored_goal_Some _ _ _ _ _ _ Hi Hf) as (Hid & Hs & _). exists ({[g]} ∪ K). split_and!; [set_solver| |].
      * intros g' [->%elem_of_singleton|]%elem_of_union; [right; by eapply stored_on_disk|by left].
      * intros next _ (H & _). by apply H.
    + exists K. split_and!; [done|by left|]. by intros next _ (_ & H & _).
    + exists K. split_and!; [done|by left|]. by intros next _ (_ & _ & H).
  - exists K. split_and!; [done|by left|]. intros next Hn. by destruct (Hn r).
  - destruct y as [l|e]; cbn.
    + destruct (listed_facts _ _ _ _ Hi Hf) as [H1 H2]. exists (list_to_set (goal_id <$> l) ∪ K). split_and!; [set_solver| |].
      * intros g [(r & -> & Hr)%elem_of_list_to_set%list_elem_of_fmap|]%elem_of_union; [right|by left].
        by eapply stored_on_disk, H2.
      * intros next _ [H _]. by apply H.
    + exists K. split_and!; [done|by left|]. by intros next _ [_ H].
Qed.

(** The task goes on with the answer, or is gone. *)
Definition resumed {A : Type} (S : System) (k : nat) (st : State) (x : option A) (f : A → T GoalRecord) : System :=
  mkSystem st (match x with Some y => <[k := f y]> (tasks S) | None => delete k (tasks S) end).

Lemma resumed_inv {A : Type} witness (S : System) k st (x : option A) f :
  StateInv owner (watched witness) st → (∀ g, witness = Some g → owner g = here) →
  Forall (task_ok st witness) (tasks S) → (∀ y, x = Some y → task_ok st witness (f y)) →
  SystemInv witness (resumed S k st x f).
Proof.
  intros Hs Hh Ht Hx. constructor; [done|done|]. cbn. destruct x as [y|]; [apply Forall_insert; [done|by apply Hx]|].
  by apply Forall_delete.
Qed.

Lemma open_world acks st i o cs a :
  StateInv owner acks st → (step st (Run i o cs)).2 = Some a → Inv owner acks true (world_of st (fresh 0)).
Proof.
  intros Hi. cbn [step]. destruct (stores st !! i) as [instance|] eqn:Ei; [|done]. intros _.
  pose proof (StateInv_world _ _ _ (fresh 0) Hi) as H. unfold is_open in H.
  rewrite bool_decide_eq_true_2 in H; [done|]. intros Hn. by rewrite Hn in Ei.
Qed.

(** A task that reads. *)
Lemma advance_read witness (S : System) k i budget cs o f :
  SystemInv witness S → tasks S !! k = Some (Ask o f) → (∀ r, o ≠ SaveGoal r) →
  SystemInv witness (happen S (Advance k i budget cs)).
Proof.
  intros [Hs Hh Ht] Hk Ho. cbn [happen]. rewrite Hk.
  pose proof (Forall_lookup_1 _ _ _ _ Ht Hk) as (K & D & Hg & HDK & HK & HD). cbn [good] in Hg.
  set (e := Run i (operation_of budget o) cs).
  assert (valid_event owner e ∧ event_keeps owner (watched witness) e) as [Hv Hke] by (destruct o; cbn; try done; by destruct (Ho r)).
  destruct (history_step owner _ _ _ Hs Hv Hke) as [Hs' _].
  assert (∀ g, on_disk (disk S) g → on_disk (step (disk S) e).1 g) as Hmono by (intros g; by apply on_disk_step).
  destruct (step (disk S) e) as [st a] eqn:E. apply (resumed_inv witness S k st (a ≫= answer_of o) f); [done|done| |].
  - eapply Forall_impl; [exact Ht|]. intros p. by apply task_ok_step.
  - intros y Hy. destruct a as [a|]; [|done]. cbn in Hy.
    assert ((step (disk S) e).2 = Some a) as Ha by by rewrite E.
    destruct (read_answered _ _ _ budget K D _ _ (open_world _ _ _ _ _ _ Hs Ha)
      (step_answers _ _ _ _ _ _ Hs Hv Hke Ha) Hy) as (K' & Hsub & Hdisk & Hnext).
    exists K', D. split_and!; [by apply (Hnext (λ x K' D', good K' D' (f x) any))|set_solver| |done].
    intros g [Hg'|Hg']%Hdisk; apply Hmono; [by apply HK|done].
Qed.

(** A task that saves: a first revision of an active goal of [here] becomes the goal
    that is watched. *)
Definition first_save (r : GoalRecord) (a : option Answer) : bool :=
  bool_decide (status r = Active) && (revision r =? 1) && bool_decide (session_id r = here)
  && match a with Some (Saved (Ok _)) => true | _ => false end.

Lemma advance_save witness (S : System) k i budget cs r f :
  SystemInv witness S → tasks S !! k = Some (Ask (SaveGoal r) f) → proper S (Advance k i budget cs) →
  SystemInv (if first_save r (step (disk S) (Run i (Save budget r) cs)).2 then Some (goal_id r) else witness)
    (happen S (Advance k i budget cs)).
Proof.
  intros [Hs Hh Ht] Hk Hp. cbn [happen proper] in *. rewrite Hk in Hp |- *. destruct Hp as [Hu Hne].
  pose proof (Forall_lookup_1 _ _ _ _ Ht Hk) as (K & D & Hg & HDK & HK & HD). cbn [good] in Hg.
  cbn [operation_of]. set (e := Run i (Save budget r) cs).
  assert (savable owner r) as Hsav by by apply Hg.
  assert (event_keeps owner (watched witness) e) as Hke.
  { eapply asked_save_keeps; [exact Hg|done|]. intros g Hw. split; [by apply Hh|by apply HD]. }
  destruct (history_step owner _ _ e Hs Hsav Hke) as [Hs' Hack].
  assert (∀ g, on_disk (disk S) g → on_disk (step (disk S) e).1 g) as Hmono by (intros g; by apply on_disk_step).
  pose proof (λ a, open_world _ _ i (Save budget r) cs a Hs) as Hopen. fold e in Hopen.
  pose proof (λ a, step_answers _ _ i (Save budget r) cs a Hs Hsav Hke) as Hans. fold e in Hans.
  specialize (Hack i budget r cs stays_active eq_refl).
  destruct (step (disk S) e) as [st a] eqn:E. cbn [fst snd] in *.
  destruct (first_save r a) eqn:Ef.
  - unfold first_save in Ef. boolify. destruct a as [[[[]|]| | | | | |]|]; try done.
    repeat match goal with H : bool_decide _ = true |- _ => apply bool_decide_eq_true in H end.
    specialize (Hans _ eq_refl). cbn in Hans. specialize (Hans Hne ltac:(done)).
    assert (¬ on_disk (disk S) (goal_id r)) as Hfresh.
    { intros [f' Hf']. pose proof (stored_goal_view _ _ _ _ _ (Hopen _ eq_refl) Hans) as Hv. cbn in Hv. congruence. }
    apply (resumed_inv (Some (goal_id r)) S k st (Some (ported (Ok tt))) f).
    + eapply Inv_promises; [|apply Hack; [by split|done]]. cbn. apply map_singleton_subseteq_l, lookup_insert_eq.
    + intros g [= <-]. by rewrite <- (savable_owner _ _ Hsav).
    + eapply Forall_impl; [exact Ht|]. intros p (K1 & D1 & G1 & G2 & G3 & G4). exists K1, D1.
      split_and!; [done|done|by auto|]. intros g [= <-] Hin. apply Hfresh, G3. set_solver.
    + intros y [= <-]. destruct Hg as [_ Hg].
      assert (goal_id r ∉ K) as HnK by (intros Hin; by apply Hfresh, HK).
      assert (∃ D', D' ⊆ K ∧ good K D' (f (Ok tt)) any) as (D' & HD' & Hgood).
      { destruct Hg as [[? _]|[[_ H']|[(_ & _ & _ & _ & H')|[Hin _]]]]; [done|by exists D|by apply H'|set_solver]. }
      exists K, D'. split_and!; [done|done|by auto|]. intros g [= <-]. set_solver.
  - apply (resumed_inv witness S k st (a ≫= answer_of (SaveGoal r)) f); [done|done| |].
    + eapply Forall_impl; [exact Ht|]. intros p. by apply task_ok_step.
    + intros y Hy. exists K, D. split_and!; [|done|by auto|done]. destruct Hg as [_ Hg].
      destruct Hg as [[_ H]|[[_ H]|[(H1 & H2 & H3 & H & _)|[_ H]]]]; [apply H..| |apply H].
      destruct a as [[x| | | | | |]|]; try done. cbn in Hy. injection Hy as <-. destruct x as [[]|e']; cbn; [|apply H].
      unfold first_save in Ef. by rewrite (bool_decide_eq_true_2 _ H1), H2, (bool_decide_eq_true_2 _ H3) in Ef.
Qed.

(** ** The theorem *)

Lemma happen_inv witness (S : System) h :
  SystemInv witness S → valid_happening h → proper S h →
  ∃ witness', (is_Some witness → is_Some witness') ∧ SystemInv witness' (happen S h).
Proof.
  intros Hi Hv Hp. destruct h as [e|q|k at_|k i budget cs|k].
  - exists witness. split; [done|]. destruct (outside_keeps witness e Hv) as [He Hke]. destruct Hi as [Hs Hh Ht].
    destruct (history_step owner _ _ _ Hs He Hke) as [Hs' _]. constructor; cbn [happen disk tasks]; [done|done|].
    destruct (is_power_cut e) eqn:Ec; [constructor|]. eapply Forall_impl; [exact Ht|]. intros p. apply task_ok_step.
    intros g. by apply on_disk_step.
  - exists witness. split; [done|]. destruct Hi as [Hs Hh Ht]. constructor; cbn [happen disk tasks]; [done|done|].
    apply Forall_app. split; [done|]. apply Forall_singleton. exists ∅, ∅. split_and!; [by apply serve_good|done|set_solver..].
  - exists witness. split; [done|]. cbn [happen]. destruct (tasks S !! k) as [[| f|]|] eqn:Ek; try done.
    destruct Hi as [Hs Hh Ht]. constructor; cbn [disk tasks]; [done|done|]. apply Forall_insert; [done|].
    destruct (Forall_lookup_1 _ _ _ _ Ht Ek) as (K & D & Hg & H). exists K, D. split; [apply Hg|done].
  - assert (happen S (Advance k i budget cs) = S ∨ ∃ o f, tasks S !! k = Some (Ask o f)) as [->|(o & f & Ek)].
    { cbn [happen]. destruct (tasks S !! k) as [[a|f|o f]|]; [by left..|right; by exists o, f|by left]. }
    { by exists witness. }
    destruct o as [s|g|r|s]; try (exists witness; split; [done|]; by eapply advance_read).
    eexists. split; [|by eapply advance_save]. by destruct (first_save _ _).
  - exists witness. split; [done|]. destruct Hi as [Hs Hh Ht]. constructor; cbn [happen disk tasks]; [done|done|].
    by apply Forall_delete.
Qed.

Fixpoint proper_run (S : System) (hs : list Happening) : Prop :=
  match hs with [] => True | h :: hs => proper S h ∧ proper_run (happen S h) hs end.

Fixpoint proper_run_b (S : System) (hs : list Happening) : bool :=
  match hs with [] => true | h :: hs => proper_b S h && proper_run_b (happen S h) hs end.

Lemma proper_runs (S : System) hs : proper_run_b S hs = true → proper_run S hs.
Proof.
  revert S. induction hs as [|h hs IH]; intros S; cbn; [done|]. intros [H1 H2]%andb_true_iff.
  split; [by apply proper_b_true|by apply IH].
Qed.

Lemma unfold_inv witness (S : System) hs :
  SystemInv witness S → Forall valid_happening hs → proper_run S hs →
  ∃ witness', (is_Some witness → is_Some witness') ∧ SystemInv witness' (unfold_ S hs).
Proof.
  intros Hi Hv. revert witness S Hi. induction Hv as [|h hs Hh _ IH]; intros witness S Hi; cbn [proper_run unfold_].
  { by exists witness. }
  intros [Hp Hps]. destruct (happen_inv _ _ _ Hi Hh Hp) as (w1 & H1 & Hi1).
  destruct (IH _ _ Hi1 Hps) as (w2 & H2 & Hi2). exists w2. by auto.
Qed.

Lemma proper_run_app (S : System) hs hs' : proper_run S (hs ++ hs') ↔ proper_run S hs ∧ proper_run (unfold_ S hs) hs'.
Proof. revert S. induction hs as [|h hs IH]; intros S; cbn; [tauto|]. rewrite IH. tauto. Qed.

(** The service, run alone, finds an active goal. *)
Definition finds_active (w : World) : Prop :=
  ∃ r, alone budget_default 0 (active here) w = Some (Ok (Some r)) ∧ status r = Active ∧ session_id r = here.

Lemma find_active_last l r : r ∈ l → status r = Active → ∃ r', List.find is_active (reverse l) = Some r' ∧ r' ∈ l.
Proof.
  intros Hin Ha. destruct (List.find is_active (reverse l)) as [r'|] eqn:E.
  - exists r'. split; [done|]. apply find_some in E as [E _]. by rewrite <- list_elem_of_In, elem_of_reverse in E.
  - assert (is_active r = false) as Hf; [|unfold is_active in Hf; by rewrite (bool_decide_eq_true_2 _ Ha) in Hf].
    eapply find_none; [exact E|]. by rewrite <- list_elem_of_In, elem_of_reverse.
Qed.

Lemma watched_finds g w : Inv owner (watched (Some g)) true w → owner g = here → finds_active w.
Proof.
  intros Hi Ho. destruct (acked_listed owner _ w g stays_active Hi) as (l & w' & r & Hl & Hin & Hid & Hact);
    [apply lookup_singleton_eq|].
  rewrite Ho in Hl. destruct (find_active_last l r Hin Hact) as (r' & Hr' & Hin').
  exists r'. unfold active, port. cbn [alone mbind T_bind task_bind operation_of operate].
  rewrite calm_bind, Hl. cbn [calm answer_of ported alone task_bind mret T_ret]. rewrite Hr'. split; [done|].
  apply find_some in Hr' as [_ Ha]. apply bool_decide_eq_true in Ha. split; [done|].
  destruct (list_calm owner _ w here Hi) as (l' & w'' & Hl' & Hf). rewrite Hl in Hl'. injection Hl' as <- <-.
  destruct (listed_facts _ _ _ _ Hi Hf) as [Hall _]. by apply (proj1 (Forall_forall _ _) Hall r' Hin').
Qed.

Lemma SystemInv_begun : SystemInv None begun.
Proof. constructor; [apply StateInv_initial|done|constructor]. Qed.

(** ** One operation alone *)

(** What a save answers, alone. *)
Definition save_answer (budget : GoalBudget) (w : World) (r : GoalRecord) : result GoalError GoalRecord :=
  match encode r with
  | Err e => Err (Port (port_error (Encoding e)))
  | Ok text =>
      match decision_at budget w r text with
      | Err e => Err (Port (port_error e))
      | Ok _ => Ok r
      end
  end.

Lemma save_alone budget at_ w r :
  Inv owner ∅ true w → savable owner r →
  alone budget at_ (_ ← port (SaveGoal r); mret r : T GoalRecord) w = Some (save_answer budget w r).
Proof.
  intros Hi Hs. unfold port. cbn [alone mbind T_bind task_bind operation_of operate]. rewrite calm_bind.
  destruct (safe_calm _ _ _ _ (save_blocking_safe owner (eq Fine) ∅ true budget w r eq_refl Hi Hs (save_keeps_empty owner r))) as [Hq _].
  unfold save_answer. destruct (calm (save_blocking budget r) w) as [x w']. cbn [fst snd calm answer_of ported alone task_bind] in *.
  destruct (encode r) as [text|e]; [|by destruct Hq as [-> _]]. destruct x as [[]|e]; cbn [save_post] in Hq.
  - by destruct Hq as (ix & -> & _).
  - destruct Hq as [(c & <- & ?)|[-> _]]; [done|]. by destruct e.
Qed.

Lemma require_active_alone {A : Type} budget at_ w g r (k : GoalRecord → T A) :
  Inv owner ∅ true w → stored_goal w g = Some r →
  alone budget at_ (require_active g ≫= k) w =
    if is_closed (status r) then Some (Err (AlreadyClosed g (status r))) else alone budget at_ (k r) w.
Proof.
  intros Hi Hr. unfold require_active, port. cbn [alone mbind T_bind task_bind operation_of operate]. rewrite calm_bind.
  destruct (safe_calm _ _ _ _ (load_safe owner (eq Fine) ∅ true w g Hi)) as [[Hw Hq] _].
  destruct (calm (load g) w) as [x w']. cbn [fst snd] in *. subst w'. destruct x as [o|e]; [|by destruct Hq as (c & <- & ?)].
  subst o. cbn [calm answer_of ported task_bind]. rewrite Hr. by destruct (is_closed (status r)).
Qed.

(** How the service words a refusal of the status machine. *)
Definition refusal (g : str) (e : TransitionError) : GoalError :=
  match e with
  | Goals.AlreadyClosed held _ => AlreadyClosed g held
  | Goals.NotATerminalStatus s => NotATerminalStatus s
  | Unreachable _ to => NotATerminalStatus to
  end.

(** The service follows the status machine: on a reachable store, with nothing
    else running, closing a goal and recording progress go ahead exactly when
    [admit_operation] allows the move from the stored status, with the status it
    gives, and are refused with its reason otherwise; when they go ahead the answer is
    the store's decision on the record with the next revision. *)
Theorem service_follows_transitions (es : list Event) (j : nat) (instance : Instance_) (budget : GoalBudget) (at_ : Z)
    (g : str) (r : GoalRecord) :
  Forall (valid_event owner) es → stores (run initial es) !! j = Some instance →
  let w := world_of (run initial es) instance in
  stored_goal w g = Some r →
  (∀ s : GoalStatus, alone budget at_ (close g s) w =
     Some (match admit_operation (status r) (Close s) with
           | Ok next => save_answer budget w (closed r next at_)
           | Err e => Err (refusal g e)
           end)) ∧
  (∀ text, max_progress_entries cfg ≠ 0%nat → trim text ≠ [] → len (as_bytes (trim text)) ≤ max_note_bytes cfg →
     unsaturated (progressed cfg r (trim text) at_) →
     alone budget at_ (record_progress cfg g text) w =
     Some (match admit_operation (status r) RecordProgress with
           | Ok next => save_answer budget w (progressed cfg r (trim text) at_)
           | Err e => Err (refusal g e)
           end)).
Proof.
  intros Hv Hj w Hr. pose proof (reach_world owner es j instance Hv Hj) as Hi. fold w in Hi.
  destruct (stored_goal_Some _ _ _ _ _ _ Hi Hr) as (_ & Hs & _). split.
  - intros s. unfold close. destruct (is_closed s) eqn:Es; cbn [negb].
    + rewrite (require_active_alone budget at_ w g r) by done. destruct (status r) eqn:Er; cbn [is_closed admit_operation].
      * rewrite Es. cbn [negb]. replace (transition Active s) with (Ok (E := TransitionError) s) by by destruct s.
        unfold now. cbn [alone mbind T_bind task_bind]. apply save_alone; [done|by apply closed_savable].
      * by rewrite Es.
      * by rewrite Es.
      * by rewrite Es.
      * by rewrite Es.
    + by destruct s.
  - intros text Hm Ht Hl Hu. unfold record_progress. rewrite decide_False by done. rewrite bool_decide_eq_false_2 by done.
    replace (max_note_bytes cfg <? len (as_bytes (trim text))) with false by lia.
    rewrite (require_active_alone budget at_ w g r) by done. destruct (status r) eqn:Er; cbn [is_closed admit_operation]; try done.
    unfold now. cbn [alone mbind T_bind task_bind]. apply save_alone; [done|]. apply progressed_savable; [done|done|by rewrite trim_idem|done].
Qed.

(** C5. A session that got a goal keeps one: take any interleaving of service
    operations, from any number of tasks, with failing calls, dropped tasks, deaths
    and power cuts that lose any unflushed entry, in which saves go through the
    service and, on the session watched, no goal is closed on request and none is set
    through the goal tool, whose conflict repair can strand a session (Example
    conflict_repair_strands_session); its other requests are free. Also, a goal
    identifier belongs to one session, no save finds its own record already there (Example
    adoption_strands_session), no progress index is exhausted, and no power cut takes
    the directories goals/ and sessions/ themselves, whose creation is never flushed.
    Then once a task has saved a first goal of the session and was told so, at every
    later time, after any crash, the store can be opened and the service finds an
    active goal in the session; so does every store that is still open. *)
Theorem session_keeps_active_goal (before after : list Happening) (k i : nat) (budget : GoalBudget)
    (cs : list Choice) (r : GoalRecord) (f : result PortError unit → T GoalRecord) (S S' : System) :
  Forall valid_happening (before ++ Advance k i budget cs :: after) →
  proper_run begun (before ++ Advance k i budget cs :: after) →
  S = unfold_ begun before →
  tasks S !! k = Some (Ask (SaveGoal r) f) →
  first_save r (step (disk S) (Run i (Save budget r) cs)).2 = true →
  S' = unfold_ S (Advance k i budget cs :: after) →
  (∀ process, ∃ report w, calm open_with_budget (world_of (disk S') (fresh process)) = (Ok report, w) ∧ finds_active w) ∧
  (∀ j instance, stores (disk S') !! j = Some instance → finds_active (world_of (disk S') instance)).
Proof.
  intros Hv Hp -> Hk Hf ->. apply Forall_app in Hv as [Hb [_ Ha]%Forall_cons].
  apply proper_run_app in Hp as [Hpb [Hpn Hpa]].
  destruct (unfold_inv _ _ _ SystemInv_begun Hb Hpb) as (w0 & _ & H0).
  pose proof (advance_save _ _ _ _ _ _ _ _ H0 Hk Hpn) as H1. rewrite Hf in H1.
  destruct (unfold_inv _ _ _ H1 Ha Hpa) as (w1 & Hw & H2). cbn [unfold_].
  destruct Hw as [g Hg]; [by eexists|]. subst w1. set (S' := unfold_ _ after) in *. clearbody S'. destruct H2 as [Hs Hh _].
  specialize (Hh g eq_refl). split.
  - intros process. destruct (open_calm owner _ _ process Hs) as (rep & w & Ho & Hi & _). exists rep, w.
    split; [done|]. by eapply watched_finds.
  - intros j instance Hj. assert (is_open (disk S') = true) as Hop by (apply bool_decide_eq_true; by intros Hn; rewrite Hn in Hj).
    pose proof (StateInv_world _ _ _ instance Hs) as Hi. rewrite Hop in Hi. by eapply watched_finds.
Qed.

End System.

(** ** Examples *)

Import Concrete.

Definition cfg : GoalConfig := config_default.

(** One call of task [k] with nothing failing. *)
Definition go (k : nat) : Happening := Advance k 0 budget_default (fine 40).

(** A task that starts a goal, up to its first save. *)
Definition starting (k : nat) (text : str) : list Happening :=
  [Begin (RStart session text); go k; go k; Tick k 5; go k].

Definition active_goal (S : System) : option (result GoalError (option str)) :=
  match stores (disk S) !! 0%nat with
  | Some i =>
      match alone budget_default 0 (active session) (world_of (disk S) i) with
      | Some (Ok o) => Some (Ok (goal_id <$> o))
      | Some (Err e) => Some (Err e)
      | None => None
      end
  | None => None
  end.

(** The conflict recovery of one caller retires the newer goal of another, which
    retires the goal the first one kept: no call fails, and the session is left
    without an active goal. *)
Example conflict_repair_strands_session :
  let opened := [Outside (Open 7 (fine 12)); Begin (RTool session (SetGoal (chars "x"))); go 0; go 0; Tick 0 5; go 0] in
  let first := starting 1 (chars "x") ++ [go 1] in
  let refused := [go 0; go 0] in
  let newer := starting 2 (chars "y") ++ [go 2] in
  let repair := [go 0; go 0; Tick 0 6; go 0] in
  active_goal (unfold_ cfg begun (opened ++ first ++ refused ++ newer)) = Some (Ok (Some (chars "s:goal-2"))) ∧
  active_goal (unfold_ cfg begun (opened ++ first ++ refused ++ newer ++ repair ++ [go 2])) = Some (Ok None) ∧
  tasks (unfold_ cfg begun (opened ++ first ++ refused ++ newer ++ repair ++ [go 2])) !! 0%nat =
    Some (Done (Ok (new_goal session (chars "s:goal-1") (chars "x") 5))).
Proof. vm_compute. by split_and!. Qed.

(** A start whose directory flush failed leaves an unindexed goal. Started again, it
    adopts that goal without a flush and retires the goal before it; a power cut in
    the middle of that write can take the adopted goal and leave the retired one. *)
Definition half_started : list Happening :=
  Outside (Open 7 (fine 12)) :: starting 0 (chars "ship") ++ [go 0] ++
  starting 1 (chars "rest") ++ [Advance 1 0 budget_default (fine 10 ++ Fail [] :: fine 10)].

Definition adopting : list Happening :=
  [Begin (RStart session (chars "rest")); go 2; go 2; go 2; go 2; Advance 2 0 budget_default (fine 11)].

Definition reopened_active (st : State) : option (result GoalError (option str)) :=
  match alone budget_default 0 (active session) (calm open_with_budget (world_of st (fresh 9))).2 with
  | Some (Ok o) => Some (Ok (goal_id <$> o))
  | _ => None
  end.

Definition torn : Event := PowerCut false [false; false; false; false; true; true; true; true] (λ _, []) false [] (λ _, []).

Example adoption_strands_session :
  let S := unfold_ cfg begun (half_started ++ adopting) in
  length (log (goals (disk S))) = 8%nat ∧
  reopened_active (disk (unfold_ cfg begun half_started)) = Some (Ok (Some (chars "s:goal-2"))) ∧
  reopened_active (disk (happen cfg S (Outside torn))) = Some (Ok None).
Proof. vm_compute. by split_and!. Qed.

(** ** Witness *)

(** A goal is started; a second start is cut short by a failing flush, and then the
    power fails. *)
Definition up_to_save : list Happening := Outside (Open 7 (fine 12)) :: starting 0 (chars "ship").
Definition from_save : list Happening :=
  starting 1 (chars "rest") ++ [Advance 1 0 budget_default (fine 10 ++ Fail [] :: fine 10); Outside dark].

Definition stage : System := unfold_ cfg begun up_to_save.
Definition finale : System := unfold_ cfg stage (go 0 :: from_save).

Definition first_goal : GoalRecord := new_goal session (chars "s:goal-1") (chars "ship") 5.

Lemma session_mints : mints own session.
Proof. split; [vm_compute; reflexivity|]. done. Qed.

Lemma script_valid : Forall (valid_happening own session) (up_to_save ++ go 0 :: from_save).
Proof. repeat constructor; apply session_mints. Qed.

Lemma script_proper : proper_run cfg begun (up_to_save ++ go 0 :: from_save).
Proof. apply proper_runs. vm_compute. reflexivity. Qed.

Lemma script_saves :
  first_save session first_goal (step (disk stage) (Run 0 (Save budget_default first_goal) (fine 40))).2 = true.
Proof. vm_compute. reflexivity. Qed.

(** The record a task is about to save. *)
Definition saving (p : option (T GoalRecord)) : option GoalRecord :=
  match p with Some (Ask (SaveGoal r) _) => Some r | _ => None end.

Lemma saving_Some p r : saving p = Some r → ∃ f, p = Some (Ask (SaveGoal r) f).
Proof. destruct p as [[|f|[| |r'|] f]|]; try done. intros [= ->]. by exists f. Qed.

Lemma script_task : ∃ f, tasks stage !! 0%nat = Some (Ask (SaveGoal first_goal) f).
Proof. apply saving_Some. vm_compute. reflexivity. Qed.

Lemma session_keeps_active_goal_witness :
  ∃ report w, calm open_with_budget (world_of (disk finale) (fresh 9)) = (Ok report, w) ∧ finds_active session w.
Proof.
  destruct script_task as [f Hf].
  destruct (session_keeps_active_goal cfg own session up_to_save from_save 0 0 budget_default (fine 40) first_goal f
    stage finale script_valid script_proper eq_refl Hf script_saves eq_refl) as [H _].
  exact (H 9).
Defined.

Lemma shop_ship : stored_goal shop_world (goal_id ship) = Some ship.
Proof. vm_compute. reflexivity. Qed.

Lemma service_follows_transitions_witness :
  alone budget_default 9 (close (goal_id ship) Achieved) shop_world =
    Some (save_answer budget_default shop_world (closed ship Achieved 9)) ∧
  alone budget_default 9 (close (goal_id ship) Active) shop_world = Some (Err (NotATerminalStatus Active)).
Proof.
  destruct (service_follows_transitions cfg own story 0 shop budget_default 9 (goal_id ship) ship story_valid shop_open
    shop_ship) as [H _].
  split; [exact (H Achieved)|exact (H Active)].
Defined.

End Tasks.
