(* ===== verification/Commands.v ===== *)
(** * Operator commands and inline directives

    Models [crates/claw-runtime/src/command.rs]: command lines that begin with a
    slash are tokenized, resolved against a registry, authorized against the
    caller's scopes, checked for their number of arguments and lowered to an effect;
    lines that begin with a bang are taken out of an input as directives and lowered
    to the options of one turn. [serde_json], which reads the envelope of a direct
    tool call, is the class [ToolJson]. *)

From S2P Require Import Prelude Utf8 Text NetAddr Approval Goals.

Module Commands.
Import Net Goals.

(** ** Scopes *)

Inductive OperatorScope := Read | Write | Admin | Approvals | Pairing | TalkSecrets.

#[export] Instance OperatorScope_eq_dec : EqDecision OperatorScope.
Proof. solve_decision. Defined.

Definition ALL_SCOPES : list OperatorScope := [Read; Write; Admin; Approvals; Pairing; TalkSecrets].

Definition scope_label (s : OperatorScope) : str :=
  match s with
  | Read => chars "operator.read"
  | Write => chars "operator.write"
  | Admin => chars "operator.admin"
  | Approvals => chars "operator.approvals"
  | Pairing => chars "operator.pairing"
  | TalkSecrets => chars "operator.talk.secrets"
  end.

Definition bit (s : OperatorScope) : Z :=
  match s with
  | Read => 1
  | Write => Z.shiftl 1 1
  | Admin => Z.shiftl 1 2
  | Approvals => Z.shiftl 1 3
  | Pairing => Z.shiftl 1 4
  | TalkSecrets => Z.shiftl 1 5
  end.

(** [ScopeSet], an eight-bit set. *)
Definition ScopeSet : Type := Z.

Definition EMPTY : ScopeSet := 0.
Definition all_scopes : ScopeSet :=
  Z.lor (Z.lor (Z.lor (Z.lor (Z.lor (bit Read) (bit Write)) (bit Admin)) (bit Approvals)) (bit Pairing)) (bit TalkSecrets).
Definition with_scope (set : ScopeSet) (s : OperatorScope) : ScopeSet := Z.lor set (bit s).
Definition without_scope (set : ScopeSet) (s : OperatorScope) : ScopeSet := Z.land set (Z.lxor 255 (bit s)).
Definition contains (set : ScopeSet) (s : OperatorScope) : bool := negb (Z.land set (bit s) =? 0).
Definition scope_labels (set : ScopeSet) : list str := scope_label <$> List.filter (contains set) ALL_SCOPES.
Definition scopes_from_iter (l : list OperatorScope) : ScopeSet := foldl with_scope EMPTY l.

(** ** Commands *)

Record CommandArity := mkArity { minimum : Z; maximum : option Z }.

Definition NONE : CommandArity := mkArity 0 (Some 0).
Definition exactly (count : Z) : CommandArity := mkArity count (Some count).
Definition arity_between (lo hi : Z) : CommandArity := mkArity lo (Some hi).
Definition arity_at_least (lo : Z) : CommandArity := mkArity lo None.

Definition is_coherent (a : CommandArity) : bool :=
  match maximum a with Some hi => minimum a <=? hi | None => true end.

Record CommandSpec := mkSpec {
  name : str;
  aliases : list str;
  summary : str;
  scope : OperatorScope;
  arity : CommandArity;
  advertised : bool;
}.

Definition spec_new (n s : str) (sc : OperatorScope) : CommandSpec := mkSpec n [] s sc NONE true.
Definition with_aliases (c : CommandSpec) (l : list str) : CommandSpec :=
  mkSpec (name c) l (summary c) (scope c) (arity c) (advertised c).
Definition with_arity (c : CommandSpec) (a : CommandArity) : CommandSpec :=
  mkSpec (name c) (aliases c) (summary c) (scope c) a (advertised c).
Definition hidden (c : CommandSpec) : CommandSpec :=
  mkSpec (name c) (aliases c) (summary c) (scope c) (arity c) false.

Definition tokens (c : CommandSpec) : list str := name c :: aliases c.

Inductive CommandRegistryError :=
| BlankToken (n : str)
| DuplicateToken (token : str)
| IncoherentArity (n : str).

Inductive CommandError :=
| NotACommand
| EmptyCommand
| UnknownCommand (token : str)
| Unauthorized (command : str) (required : OperatorScope)
| MissingArguments (command : str) (expected received : Z)
| TooManyArguments (command : str) (expected received : Z)
| InvalidArgument (command argument reason : str)
| UnterminatedQuote
| DanglingEscape.

Record CommandInvocation := mkInvocation { inv_name : str; arguments : list str }.

Inductive CommandEffect :=
| ListCommands
| ShowStatus
| ListTools
| CancelTurn
| PauseTurn
| ResumeTurn
| SetGoal (objective : str)
| ShowGoal
| CloseGoal (status : GoalStatus)
| Approve (approval_id : str) (remember : bool)
| Deny (approval_id : str) (remember : bool)
| CompactContext (reclaim_tokens : Z)
| SuspendPrepare (drain_seconds : Z)
| SuspendStatus
| SuspendResume (lease_id : str)
| SetModel (model : str)
| DestroySession
| Custom (n : str) (args : list str).

(** [str::to_ascii_lowercase] and [eq_ignore_ascii_case] *)
Definition lowercase (s : str) : str := lower <$> s.
Definition eq_ignore_ascii_case (a b : str) : bool := bool_decide (lowercase a = lowercase b).

Record CommandRegistry := mkRegistry { specs : list CommandSpec; index : gmap str nat }.

(** The tokens of one command. *)
Fixpoint index_tokens (position : nat) (owner : str) (ts : list str) (ix : gmap str nat)
  : result CommandRegistryError (gmap str nat) :=
  match ts with
  | [] => Ok ix
  | token :: ts =>
      if bool_decide (trim token = []) then Err (BlankToken owner)
      else
        let key := lowercase token in
        match ix !! key with
        | Some _ => Err (DuplicateToken key)
        | None => index_tokens position owner ts (<[key := position]> ix)
        end
  end.

Fixpoint index_specs (position : nat) (cs : list CommandSpec) (ix : gmap str nat)
  : result CommandRegistryError (gmap str nat) :=
  match cs with
  | [] => Ok ix
  | c :: cs =>
      if negb (is_coherent (arity c)) then Err (IncoherentArity (name c))
      else ix ← index_tokens position (name c) (tokens c) ix; index_specs (S position) cs ix
  end.

Definition registry_new (cs : list CommandSpec) : result CommandRegistryError CommandRegistry :=
  ix ← index_specs 0 cs ∅; Ok (mkRegistry cs ix).

Definition builtin_commands : list CommandSpec :=
  [ with_aliases (spec_new (chars "help") (chars "List the commands you can run") Read) [chars "?"; chars "commands"];
    with_aliases (spec_new (chars "status") (chars "Show the session state") Read) [chars "st"];
    spec_new (chars "tools") (chars "List the runnable tools") Read;
    with_aliases (spec_new (chars "cancel") (chars "Cancel the running turn") Write) [chars "abort"; chars "stop"];
    spec_new (chars "pause") (chars "Pause the running turn") Write;
    spec_new (chars "resume") (chars "Resume the paused turn") Write;
    with_arity (spec_new (chars "goal") (chars "Show or set the durable goal") Write) (arity_at_least 0);
    spec_new (chars "goal-done") (chars "Mark the goal achieved") Write;
    spec_new (chars "goal-drop") (chars "Abandon the goal") Write;
    with_arity (with_aliases (spec_new (chars "approve") (chars "Approve a tool call") Approvals) [chars "yes"])
      (arity_between 1 2);
    with_arity (with_aliases (spec_new (chars "deny") (chars "Deny a tool call") Approvals) [chars "no"])
      (arity_between 1 2);
    with_arity (spec_new (chars "compact") (chars "Compact the session context") Admin) (arity_between 0 1);
    with_arity (spec_new (chars "suspend") (chars "Prepare cooperative suspension") Admin) (arity_between 0 1);
    spec_new (chars "suspend-status") (chars "Show cooperative suspension state") Read;
    with_arity (spec_new (chars "resume-host") (chars "Release a suspension lease") Admin) (exactly 1);
    with_arity (spec_new (chars "model") (chars "Override the provider model") Write) (exactly 1);
    spec_new (chars "session-close") (chars "Destroy the in-memory conversation session") Admin ].

(** [CommandRegistry::builtin]; [builtin_registry_ok] proves that [expect] holds. *)
Definition builtin : CommandRegistry :=
  match registry_new builtin_commands with Ok r => r | Err _ => mkRegistry [] ∅ end.

Definition list_commands (r : CommandRegistry) (scopes : ScopeSet) : list CommandSpec :=
  List.filter (λ c, advertised c && contains scopes (scope c)) (specs r).

Definition resolve (r : CommandRegistry) (token : str) : option CommandSpec :=
  position ← index r !! lowercase token;
  specs r !! position.

Definition BACKSLASH : Z := 0x5C.
Definition QUOTE : Z := 0x22.

(** The characters still to read, and the tokens, the token being built, whether
    there is one and whether it is inside quotes. *)
Fixpoint tokenize_loop (input : str) (ts : list str) (current : str) (has_token quoted : bool)
  : result CommandError (list str) :=
  match input with
  | [] =>
      if quoted then Err UnterminatedQuote
      else Ok (if has_token then ts ++ [current] else ts)
  | c :: input =>
      if c =? BACKSLASH then
        match input with
        | [] => Err DanglingEscape
        | escaped :: input => tokenize_loop input ts (current ++ [escaped]) true quoted
        end
      else if c =? QUOTE then tokenize_loop input ts current true (negb quoted)
      else if is_whitespace c && negb quoted then
        if has_token then tokenize_loop input (ts ++ [current]) [] false quoted
        else tokenize_loop input ts current has_token quoted
      else tokenize_loop input ts (current ++ [c]) true quoted
  end.

Definition tokenize (input : str) : result CommandError (list str) := tokenize_loop input [] [] false false.

Definition parse (r : CommandRegistry) (line : str) (scopes : ScopeSet) : result CommandError CommandInvocation :=
  body ← match strip_prefix [0x2F] (trim line) with Some b => Ok b | None => Err NotACommand end;
  ts ← tokenize body;
  match ts with
  | [] => Err EmptyCommand
  | token :: args =>
      match resolve r token with
      | None => Err (UnknownCommand token)
      | Some spec =>
          if negb (contains scopes (scope spec)) then Err (Unauthorized (name spec) (scope spec))
          else if len args <? minimum (arity spec) then
            Err (MissingArguments (name spec) (minimum (arity spec)) (len args))
          else
            match maximum (arity spec) with
            | Some hi =>
                if hi <? len args then Err (TooManyArguments (name spec) hi (len args))
                else Ok (mkInvocation (name spec) args)
            | None => Ok (mkInvocation (name spec) args)
            end
      end
  end.

Definition required_argument (inv : CommandInvocation) (position : nat) : result CommandError str :=
  match arguments inv !! position with
  | Some a => Ok a
  | None => Err (MissingArguments (inv_name inv) (Z.of_nat position + 1) (len (arguments inv)))
  end.

Definition parse_remember (inv : CommandInvocation) (argument : option str) : result CommandError bool :=
  match argument with
  | None => Ok false
  | Some v =>
      if eq_ignore_ascii_case v (chars "always") then Ok true
      else if eq_ignore_ascii_case v (chars "once") then Ok false
      else Err (InvalidArgument (inv_name inv) v (chars "expected 'once' or 'always'"))
  end.

(** [value.parse::<u32>()] *)
Definition parse_u32 (v : str) : option Z :=
  match parse_usize v with Some n => if n <=? u32_max then Some n else None | None => None end.

Definition parse_number (inv : CommandInvocation) (argument : option str) (default_ : Z) : result CommandError Z :=
  match argument with
  | None => Ok default_
  | Some v =>
      match parse_u32 v with
      | Some n => Ok n
      | None => Err (InvalidArgument (inv_name inv) v (chars "expected a non-negative whole number"))
      end
  end.

(** [match invocation.name.as_str()], one literal at a time. *)
Definition effect (inv : CommandInvocation) : result CommandError CommandEffect :=
  let named s := bool_decide (inv_name inv = s) in
  let args := arguments inv in
  if named (chars "help") then Ok ListCommands
  else if named (chars "status") then Ok ShowStatus
  else if named (chars "tools") then Ok ListTools
  else if named (chars "cancel") then Ok CancelTurn
  else if named (chars "pause") then Ok PauseTurn
  else if named (chars "resume") then Ok ResumeTurn
  else if named (chars "goal") then Ok (match args with [] => ShowGoal | _ => SetGoal (join [0x20] args) end)
  else if named (chars "goal-done") then Ok (CloseGoal Achieved)
  else if named (chars "goal-drop") then Ok (CloseGoal Abandoned)
  else if named (chars "approve") then
    id ← required_argument inv 0; remember ← parse_remember inv (args !! 1%nat); Ok (Approve id remember)
  else if named (chars "deny") then
    id ← required_argument inv 0; remember ← parse_remember inv (args !! 1%nat); Ok (Deny id remember)
  else if named (chars "compact") then n ← parse_number inv (head args) 0; Ok (CompactContext n)
  else if named (chars "suspend") then n ← parse_number inv (head args) 30; Ok (SuspendPrepare n)
  else if named (chars "suspend-status") then Ok SuspendStatus
  else if named (chars "resume-host") then id ← required_argument inv 0; Ok (SuspendResume id)
  else if named (chars "model") then m ← required_argument inv 0; Ok (SetModel m)
  else if named (chars "session-close") then Ok DestroySession
  else Ok (Custom (inv_name inv) args).

(** ** Directives *)

Inductive DirectiveValue := Forbidden | Required.

Record DirectiveSpec := mkDirectiveSpec {
  d_name : str;
  d_aliases : list str;
  d_summary : str;
  d_value : DirectiveValue;
}.

Definition directive_spec (n s : str) (v : DirectiveValue) : DirectiveSpec := mkDirectiveSpec n [] s v.
Definition directive_aliases (d : DirectiveSpec) (l : list str) : DirectiveSpec :=
  mkDirectiveSpec (d_name d) l (d_summary d) (d_value d).

Record Directive := mkDirective { dir_name : str; dir_value : option str }.
Record DirectiveScan := mkScan { directives : list Directive; body : str }.

Inductive DirectiveError :=
| UnknownDirective (n : str)
| MissingValue (n : str)
| UnexpectedValue (n : str)
| Duplicate (n : str)
| InvalidValue (n : str)
| MalformedRegistry (token : str).

(** The envelope of a direct tool call: a name and the text of its arguments, and
    whether a text is a JSON object. *)
Class ToolJson := {
  envelope_from_str : str → option (str * str);
  is_json_object : str → bool;
}.

Record DirectTool := mkTool { tool_name : str; tool_arguments : str }.

Definition direct_tool_parse `{ToolJson} (encoded : str) : result DirectiveError DirectTool :=
  let invalid := InvalidValue (chars "tool") in
  if 16 * 1024 <? len (as_bytes encoded) then Err invalid
  else
    match envelope_from_str encoded with
    | None => Err invalid
    | Some (n, args) =>
        if bool_decide (n = []) || (128 <? len (as_bytes n))
           || negb (all (λ c, is_alphanumeric c || (c =? 0x5F) || (c =? 0x2D) || (c =? 0x2E)) n)
           || negb (is_json_object args)
        then Err invalid
        else Ok (mkTool n args)
    end.

Record TurnOptions := mkOptions {
  model : option str;
  tools_enabled : bool;
  quiet : bool;
  goal : option str;
  direct_tool : option DirectTool;
  authority : option Approval.InvocationAuthority;
}.

Definition options_default : TurnOptions := mkOptions None true false None None None.

Record DirectiveRegistry := mkDirectiveRegistry { d_specs : list DirectiveSpec; d_index : gmap str nat }.

Fixpoint index_directive (position : nat) (owner : str) (ts : list str) (ix : gmap str nat)
  : result DirectiveError (gmap str nat) :=
  match ts with
  | [] => Ok ix
  | token :: ts =>
      if bool_decide (trim token = []) then Err (MalformedRegistry owner)
      else
        let key := lowercase token in
        match ix !! key with
        | Some _ => Err (MalformedRegistry key)
        | None => index_directive position owner ts (<[key := position]> ix)
        end
  end.

Fixpoint index_directives (position : nat) (ds : list DirectiveSpec) (ix : gmap str nat)
  : result DirectiveError (gmap str nat) :=
  match ds with
  | [] => Ok ix
  | d :: ds => ix ← index_directive position (d_name d) (d_name d :: d_aliases d) ix; index_directives (S position) ds ix
  end.

Definition directive_registry_new (ds : list DirectiveSpec) : result DirectiveError DirectiveRegistry :=
  ix ← index_directives 0 ds ∅; Ok (mkDirectiveRegistry ds ix).

Definition builtin_directives : list DirectiveSpec :=
  [ directive_spec (chars "model") (chars "Override the provider model for this turn") Required;
    directive_aliases (directive_spec (chars "no-tools") (chars "Run this turn without tools") Forbidden) [chars "tools-off"];
    directive_spec (chars "quiet") (chars "Withhold streaming text from subscribers") Forbidden;
    directive_spec (chars "goal") (chars "Record a durable goal before running") Required;
    directive_spec (chars "tool") (chars "Run one authenticated, policy-bound tool without a model") Required ].

Definition builtin_directive_registry : DirectiveRegistry :=
  match directive_registry_new builtin_directives with Ok r => r | Err _ => mkDirectiveRegistry [] ∅ end.

Definition FENCES : list str := [[0x60; 0x60; 0x60]; [0x7E; 0x7E; 0x7E]].

Definition fence_marker (trimmed : str) : option str := List.find (λ m, starts_with m trimmed) FENCES.

Definition parse_directive_line (r : DirectiveRegistry) (trimmed : str) : result DirectiveError (option Directive) :=
  match strip_prefix [0x21] trimmed with
  | None => Ok None
  | Some rest =>
      if negb (match head rest with Some c => is_alphanumeric c | None => false end) then Ok None
      else
        let '(token, value) :=
          match split_once (λ c, (c =? 0x3D) || (c =? 0x20)) rest with
          | Some (token, value) =>
              let value := trim value in
              (trim token, if bool_decide (value = []) then None else Some value)
          | None => (trim rest, None)
          end in
        match d_index r !! lowercase token ≫= (λ position, d_specs r !! position) with
        | None => Err (UnknownDirective token)
        | Some spec =>
            match d_value spec, value with
            | Required, None => Err (MissingValue (d_name spec))
            | Forbidden, Some _ => Err (UnexpectedValue (d_name spec))
            | _, _ => Ok (Some (mkDirective (d_name spec) value))
            end
        end
  end.

(** [raw_line.strip_suffix('\r')] *)
Definition without_cr (raw : str) : str := default raw (strip_suffix [0x0D] raw).

Fixpoint scan_lines (r : DirectiveRegistry) (lines : list str) (fence : option str) (ds : list Directive) (body_lines : list str)
  : result DirectiveError (list Directive * list str) :=
  match lines with
  | [] => Ok (ds, body_lines)
  | raw :: lines =>
      let line := without_cr raw in
      let trimmed := trim_start line in
      match fence with
      | Some open =>
          scan_lines r lines (if starts_with open trimmed then None else fence) ds (body_lines ++ [line])
      | None =>
          match fence_marker trimmed with
          | Some marker => scan_lines r lines (Some marker) ds (body_lines ++ [line])
          | None =>
              if starts_with [BACKSLASH; 0x21] trimmed then scan_lines r lines None ds (body_lines ++ [drop 1 trimmed])
              else
                found ← parse_directive_line r trimmed;
                match found with
                | Some d =>
                    if existsb (λ e, bool_decide (dir_name e = dir_name d)) ds then Err (Duplicate (dir_name d))
                    else scan_lines r lines None (ds ++ [d]) body_lines
                | None => scan_lines r lines None ds (body_lines ++ [line])
                end
          end
      end
  end.

Definition blank (line : str) : bool := bool_decide (trim line = []).

Fixpoint drop_blank (lines : list str) : list str :=
  match lines with l :: ls => if blank l then drop_blank ls else lines | [] => [] end.

(** The lines from the first to the last that is not blank. *)
Definition trim_lines (lines : list str) : list str := reverse (drop_blank (reverse (drop_blank lines))).

Definition NEWLINE : Z := 0x0A.

Definition scan (r : DirectiveRegistry) (input : str) : result DirectiveError DirectiveScan :=
  '(ds, body_lines) ← scan_lines r (split (λ c, c =? NEWLINE) input) None [] [];
  let body := join [NEWLINE] (trim_lines body_lines) in
  if existsb (λ d, bool_decide (dir_name d = chars "tool")) ds
     && (negb (len ds =? 1) || negb (bool_decide (body = [])))
  then Err (InvalidValue (chars "tool"))
  else Ok (mkScan ds body).

(** One directive of [count] applied to the options. *)
Definition apply_one `{ToolJson} (r : DirectiveRegistry) (count : Z) (o : TurnOptions) (d : Directive)
  : result DirectiveError TurnOptions :=
  let named s := bool_decide (dir_name d = s) in
  match d_index r !! dir_name d with
  | None => Err (UnknownDirective (dir_name d))
  | Some _ =>
      if named (chars "model") then
        Ok (mkOptions (dir_value d) (tools_enabled o) (quiet o) (goal o) (direct_tool o) (authority o))
      else if named (chars "no-tools") then
        Ok (mkOptions (model o) false (quiet o) (goal o) (direct_tool o) (authority o))
      else if named (chars "quiet") then
        Ok (mkOptions (model o) (tools_enabled o) true (goal o) (direct_tool o) (authority o))
      else if named (chars "goal") then
        Ok (mkOptions (model o) (tools_enabled o) (quiet o) (dir_value d) (direct_tool o) (authority o))
      else if named (chars "tool") then
        if negb (count =? 1) then Err (InvalidValue (chars "tool"))
        else
          v ← match dir_value d with Some v => Ok v | None => Err (MissingValue (chars "tool")) end;
          t ← direct_tool_parse v;
          Ok (mkOptions (model o) (tools_enabled o) (quiet o) (goal o) (Some t) (authority o))
      else Ok o
  end.

Fixpoint apply_loop `{ToolJson} (r : DirectiveRegistry) (count : Z) (ds : list Directive) (o : TurnOptions)
  : result DirectiveError TurnOptions :=
  match ds with
  | [] => Ok o
  | d :: ds => o ← apply_one r count o d; apply_loop r count ds o
  end.

(** [DirectiveRegistry::apply] *)
Definition directives_apply `{ToolJson} (r : DirectiveRegistry) (ds : list Directive) : result DirectiveError TurnOptions :=
  apply_loop r (len ds) ds options_default.

(** ** Registries *)

Definition keys (ts : list str) : list str := lowercase <$> ts.

Definition solid (t : str) : Prop := trim t ≠ [].

Lemma index_tokens_Ok position owner ts ix ix' :
  index_tokens position owner ts ix = Ok ix' ↔
  Forall solid ts ∧ NoDup (keys ts) ∧ (∀ k, k ∈ keys ts → ix !! k = None) ∧
  ix' = foldl (λ m k, <[k := position]> m) ix (keys ts).
Proof.
  revert ix. induction ts as [|t ts IH]; intros ix; cbn [index_tokens keys fmap list_fmap foldl].
  { split; [|by intros (_ & _ & _ & ->)]. intros [= <-]. split_and!; [constructor..| |done]. by intros k ?%not_elem_of_nil. }
  fold (keys ts). case_bool_decide as Hb.
  { split; [done|]. by intros ([Ht _]%Forall_cons & _). }
  destruct (ix !! lowercase t) as [p|] eqn:E.
  { split; [done|]. intros (_ & _ & Hn & _). rewrite (Hn (lowercase t)) in E; [done|left]. }
  rewrite IH, Forall_cons, NoDup_cons. split.
  - intros (H1 & H2 & H3 & H4). split_and!; [done|done| |done| |done].
    + intros Hin. specialize (H3 _ Hin). by rewrite lookup_insert_eq in H3.
    + intros k [->|Hk]%elem_of_cons; [done|]. specialize (H3 k Hk). apply lookup_insert_None in H3. by destruct H3.
  - intros ((H1 & H2) & (H3 & H4) & H5 & H6). split_and!; [done|done| |done].
    intros k Hk. rewrite lookup_insert_ne by (intros Heq; by subst k). apply H5. by right.
Qed.

Lemma foldl_insert_lookup (l : list str) (p : nat) (m : gmap str nat) k :
  foldl (λ m k, <[k := p]> m) m l !! k = if decide (k ∈ l) then Some p else m !! k.
Proof.
  revert m. induction l as [|x l IH]; intros m; cbn [foldl]; [done|]. rewrite IH.
  destruct (decide (k ∈ l)) as [Hin|Hni].
  - by rewrite decide_True by by right.
  - destruct (decide (k = x)) as [->|Hne].
    + rewrite decide_True by left. apply lookup_insert_eq.
    + rewrite decide_False by (intros [?|?]%elem_of_cons; done). by apply lookup_insert_ne.
Qed.

(** A registry indexes exactly the tokens of its commands. *)
Lemma index_specs_lookup position cs ix ix' :
  index_specs position cs ix = Ok ix' → ∀ k p,
  ix' !! k = Some p ↔ ix !! k = Some p ∨ ∃ i c, cs !! i = Some c ∧ p = (position + i)%nat ∧ k ∈ keys (tokens c).
Proof.
  revert position ix. induction cs as [|c cs IH]; intros position ix; cbn [index_specs].
  { intros [= <-] k p. split; [by left|]. intros [|(i & c & H & _)]; [done|]. by rewrite lookup_nil in H. }
  destruct (is_coherent (arity c)); [cbn [negb]|done]. destruct (index_tokens _ _ _ _) as [ix1|] eqn:E; [|done].
  apply index_tokens_Ok in E as (_ & _ & Hfree & ->). cbn [mbind result_bind]. intros H k p. rewrite (IH _ _ H k p).
  rewrite foldl_insert_lookup. split.
  - intros [Hd|(i & c' & Hc & -> & Hk)].
    + destruct (decide (k ∈ keys (tokens c))) as [Hin|]; [|by left]. injection Hd as <-. right. exists 0%nat, c.
      split_and!; [done|lia|done].
    + right. exists (S i), c'. split_and!; [done|lia|done].
  - intros [Hd|(i & c' & Hc & -> & Hk)].
    + left. destruct (decide (k ∈ keys (tokens c))) as [Hin|]; [|done]. rewrite (Hfree k Hin) in Hd. done.
    + destruct i as [|i]; cbn in Hc.
      * injection Hc as ->. left. rewrite decide_True by done. f_equal. lia.
      * right. exists i, c'. split_and!; [done|lia|done].
Qed.

Lemma resolve_spec cs r token spec :
  registry_new cs = Ok r →
  resolve r token = Some spec ↔ spec ∈ cs ∧ lowercase token ∈ keys (tokens spec).
Proof.
  unfold registry_new. destruct (index_specs 0 cs ∅) as [ix|] eqn:E; [|done]. cbn. intros [= <-].
  pose proof (index_specs_lookup _ _ _ _ E) as Hix. unfold resolve. cbn [index specs]. split.
  - destruct (ix !! lowercase token) as [p|] eqn:Ep; [|done]. cbn. intros Hs. apply Hix in Ep as [Ep|(i & c & Hc & -> & Hk)].
    + by rewrite lookup_empty in Ep.
    + rewrite Nat.add_0_l in Hs. rewrite Hs in Hc. injection Hc as ->. split; [by eapply list_elem_of_lookup_2|done].
  - intros [[i Hi]%list_elem_of_lookup Hk]. assert (ix !! lowercase token = Some i) as ->; [|done].
    apply Hix. right. by exists i, spec.
Qed.

Lemma builtin_registry_ok : registry_new builtin_commands = Ok builtin.
Proof. vm_compute. reflexivity. Qed.

(** ** Command lines *)

(** A token written between quotes, with quotes and backslashes escaped. *)
Definition escape (c : Z) : str := if (c =? BACKSLASH) || (c =? QUOTE) then [BACKSLASH; c] else [c].
Definition quote (t : str) : str := QUOTE :: concat (escape <$> t) ++ [QUOTE].

(** A token that needs no quoting. *)
Definition plain (t : str) : Prop :=
  t ≠ [] ∧ Forall (λ c, c ≠ BACKSLASH ∧ c ≠ QUOTE ∧ is_whitespace c = false) t.

Lemma tokenize_plain t rest ts current b :
  Forall (λ c, c ≠ BACKSLASH ∧ c ≠ QUOTE ∧ is_whitespace c = false) t →
  tokenize_loop (t ++ rest) ts current b false =
  tokenize_loop rest ts (current ++ t) (b || negb (bool_decide (t = []))) false.
Proof.
  intros Ht. revert current b. induction Ht as [|c t (H1 & H2 & H3) _ IH]; intros current b; cbn [app].
  { by rewrite app_nil_r, orb_false_r. }
  cbn [tokenize_loop]. replace (c =? BACKSLASH) with false by lia. replace (c =? QUOTE) with false by lia. rewrite H3. cbn [andb].
  rewrite IH, <- app_assoc. cbn [app]. by rewrite orb_true_r.
Qed.

Lemma tokenize_quoted t rest ts current :
  tokenize_loop (concat (escape <$> t) ++ QUOTE :: rest) ts current true true =
  tokenize_loop rest ts (current ++ t) true false.
Proof.
  revert current. induction t as [|c t IH]; intros current; cbn [fmap list_fmap concat app].
  { by rewrite app_nil_r. }
  rewrite <- app_assoc. unfold escape at 1. destruct (_ || _) eqn:E; cbn [app tokenize_loop].
  - change (BACKSLASH =? BACKSLASH) with true. cbn [andb]. fold (escape <$> t). rewrite IH, <- app_assoc. done.
  - apply orb_false_iff in E as [-> ->]. rewrite andb_false_r. fold (escape <$> t). rewrite IH, <- app_assoc. done.
Qed.

(** A token as it may be written on a line: as it is, when it is plain, or quoted. *)
Inductive spells : str → str → Prop :=
| spells_plain t : plain t → spells t t
| spells_quoted t : spells (quote t) t.

(** A command line: a slash and words with a space between them. *)
Definition command_line (word : str) (words : list str) : str := 0x2F :: word ++ concat ((λ w, 0x20 :: w) <$> words).

Lemma tokenize_word w t rest ts :
  spells w t → tokenize_loop (w ++ rest) ts [] false false = tokenize_loop rest ts t true false.
Proof.
  intros [u [Hne Hu]|u].
  - rewrite tokenize_plain by done. cbn [app orb]. by rewrite bool_decide_eq_false_2.
  - unfold quote. cbn [app]. rewrite <- app_assoc. cbn [app]. by rewrite <- (app_nil_l u) at 2; rewrite <- tokenize_quoted.
Qed.

Lemma tokenize_words words args ts current :
  Forall2 spells words args →
  tokenize_loop (concat ((λ w, 0x20 :: w) <$> words)) ts current true false = Ok (ts ++ current :: args).
Proof.
  intros H. revert ts current. induction H as [|w a words args Hw _ IH]; intros ts current; [done|].
  cbn [fmap list_fmap concat]. rewrite <- app_comm_cons.
  change (tokenize_loop (w ++ concat ((λ w, 0x20 :: w) <$> words)) (ts ++ [current]) [] false false = Ok (ts ++ current :: a :: args)).
  rewrite (tokenize_word w a) by done. by rewrite IH, <- app_assoc.
Qed.

Lemma tokenize_line word token words args :
  spells word token → Forall2 spells words args →
  tokenize (word ++ concat ((λ w, 0x20 :: w) <$> words)) = Ok (token :: args).
Proof. intros Hw Ha. unfold tokenize. rewrite (tokenize_word word token) by done. by rewrite (tokenize_words _ args). Qed.

(** A command line neither begins nor ends with white space. *)
Lemma spells_last w t : spells w t → ∃ u c, w = u ++ [c] ∧ is_whitespace c = false.
Proof.
  intros [u [Hne Hu]|u].
  - destruct u as [|c u _] using rev_ind; [done|]. apply Forall_app in Hu as [_ Hu].
    apply Forall_inv in Hu as (_ & _ & Hu). by exists u, c.
  - by exists (QUOTE :: concat (escape <$> u)), QUOTE.
Qed.

Lemma line_last word token words args :
  spells word token → Forall2 spells words args → ∃ u c, command_line word words = u ++ [c] ∧ is_whitespace c = false.
Proof.
  intros Hw Ha. unfold command_line. destruct words as [|w words _] using rev_ind.
  - destruct (spells_last _ _ Hw) as (u & c & -> & Hc). exists (0x2F :: u), c. cbn. by rewrite app_nil_r.
  - apply Forall2_app_inv_l in Ha as (args1 & args2 & _ & Ha & _). inversion_clear Ha as [|? a ? ? Hwa].
    destruct (spells_last _ _ Hwa) as (u & c & -> & Hc). rewrite fmap_app, concat_app. cbn. rewrite app_nil_r.
    eexists (0x2F :: word ++ concat ((λ w, 0x20 :: w) <$> words) ++ 0x20 :: u), c. split; [|done].
    cbn. by rewrite <- !app_assoc.
Qed.

Lemma trim_line word token words args :
  spells word token → Forall2 spells words args → trim (command_line word words) = command_line word words.
Proof.
  intros Hw Ha. replace (trim (command_line word words)) with (trim ([] ++ command_line word words ++ [])) by by rewrite app_nil_r.
  apply trim_pad; [constructor|constructor|by intros c t [= <- _]|]. intros c t.
  destruct (line_last _ _ _ _ Hw Ha) as (u & x & -> & Hx). by intros [_ [= <-]]%app_inj_2.
Qed.

Lemma index_specs_coherent position cs ix ix' spec hi :
  index_specs position cs ix = Ok ix' → spec ∈ cs → maximum (arity spec) = Some hi → minimum (arity spec) ≤ hi.
Proof.
  revert position ix. induction cs as [|c cs IH]; intros position ix; [by intros _ ?%not_elem_of_nil|].
  cbn [index_specs]. destruct (is_coherent (arity c)) eqn:Ec; cbn [negb]; [|done].
  destruct (index_tokens _ _ _ _) as [ix1|]; [|done]. cbn [mbind result_bind]. intros H [->|Hin]%elem_of_cons Hm.
  - unfold is_coherent in Ec. rewrite Hm in Ec. lia.
  - by eapply IH.
Qed.

Lemma registry_coherent cs r spec hi :
  registry_new cs = Ok r → spec ∈ cs → maximum (arity spec) = Some hi → minimum (arity spec) ≤ hi.
Proof.
  unfold registry_new. destruct (index_specs 0 cs ∅) as [ix|] eqn:E; [|done]. intros _. by eapply index_specs_coherent.
Qed.

(** C37. Command lines round-trip: in any registry that was accepted, take a line of a
    slash, any token of a command, in any case, and arguments, each of these words
    written as it is where it is plain (not empty, no quote, backslash or white
    space) or else between quotes with quotes and backslashes escaped. A caller
    without the command's scope is refused as unauthorized, however many arguments
    there are; with the scope, too few arguments are refused as missing and too many
    as too many, with the bound and the number given, and otherwise the line is
    parsed to that command with exactly those arguments, whatever characters they
    hold. *)
Theorem command_line_roundtrip (cs : list CommandSpec) (r : CommandRegistry) (spec : CommandSpec) (word token : str)
    (words args : list str) (scopes : ScopeSet) :
  registry_new cs = Ok r → spec ∈ cs → lowercase token ∈ keys (tokens spec) →
  spells word token → Forall2 spells words args →
  let answer := parse r (command_line word words) scopes in
  let low := minimum (arity spec) in
  (contains scopes (scope spec) = false → answer = Err (Unauthorized (name spec) (scope spec))) ∧
  (contains scopes (scope spec) = true →
    (len args < low → answer = Err (MissingArguments (name spec) low (len args))) ∧
    (∀ hi, maximum (arity spec) = Some hi → hi < len args → answer = Err (TooManyArguments (name spec) hi (len args))) ∧
    (low ≤ len args → (∀ hi, maximum (arity spec) = Some hi → len args ≤ hi) →
       answer = Ok (mkInvocation (name spec) args))).
Proof.
  intros Hr Hin Hk Hw Ha answer low.
  assert (answer =
    (if negb (contains scopes (scope spec)) then Err (Unauthorized (name spec) (scope spec))
     else if len args <? low then Err (MissingArguments (name spec) low (len args))
     else match maximum (arity spec) with
          | Some hi => if hi <? len args then Err (TooManyArguments (name spec) hi (len args)) else Ok (mkInvocation (name spec) args)
          | None => Ok (mkInvocation (name spec) args)
          end)) as ->.
  { unfold answer, parse. rewrite (trim_line _ token _ args) by done. unfold command_line. cbn [strip_prefix].
    rewrite decide_True by done. cbn [mbind result_bind]. rewrite (tokenize_line word token words args) by done.
    cbn [mbind result_bind]. by rewrite (proj2 (resolve_spec cs r token spec Hr)). }
  split; intros ->; cbn [negb]; [done|]. split_and!.
  - intros Hlt. by replace (len args <? low) with true by lia.
  - intros hi Hhi Hgt. pose proof (registry_coherent _ _ _ _ Hr Hin Hhi) as Hco.
    replace (len args <? low) with false by lia. rewrite Hhi. by replace (hi <? len args) with true by lia.
  - intros Hlo Hhi. replace (len args <? low) with false by lia. destruct (maximum (arity spec)) as [hi|]; [|done].
    specialize (Hhi hi eq_refl). by replace (hi <? len args) with false by lia.
Qed.

(** ** Authorization *)

(** An accepted line names a command the caller may run, with as many arguments as it
    takes. *)
Lemma parse_Ok cs r line scopes inv :
  registry_new cs = Ok r → parse r line scopes = Ok inv →
  ∃ spec, spec ∈ cs ∧ contains scopes (scope spec) = true ∧ inv_name inv = name spec ∧
    minimum (arity spec) ≤ len (arguments inv) ∧ (∀ hi, maximum (arity spec) = Some hi → len (arguments inv) ≤ hi).
Proof.
  intros Hr. unfold parse. destruct (strip_prefix _ _) as [b|]; [|done]. cbn [mbind result_bind].
  destruct (tokenize b) as [[|token args]|]; [done| |done]. cbn [mbind result_bind].
  destruct (resolve r token) as [spec|] eqn:E; [|done]. apply (resolve_spec _ _ _ _ Hr) in E as [Hin _].
  destruct (contains scopes (scope spec)) eqn:Ec; [|done]. cbn [negb]. destruct (len args <? _) eqn:El; [done|].
  destruct (maximum (arity spec)) as [hi|] eqn:Em.
  - destruct (hi <? len args) eqn:Eh; [done|]. intros [= <-]. exists spec. cbn [inv_name arguments].
    split_and!; [done..|lia|]. intros hi'. rewrite Em. intros [= <-]. lia.
  - intros [= <-]. exists spec. cbn [inv_name arguments]. split_and!; [done..|lia|]. intros hi'. by rewrite Em.
Qed.

(** The scope an effect belongs to. *)
Definition scope_needed (e : CommandEffect) : option OperatorScope :=
  match e with
  | ListCommands | ShowStatus | ListTools | SuspendStatus => Some Read
  | CancelTurn | PauseTurn | ResumeTurn | SetGoal _ | ShowGoal | CloseGoal _ | SetModel _ => Some Write
  | Approve _ _ | Deny _ _ => Some Approvals
  | CompactContext _ | SuspendPrepare _ | SuspendResume _ | DestroySession => Some Admin
  | Custom _ _ => None
  end.

(** What a built-in command, with a legal number of arguments, lowers to. *)
Definition lowers (spec : CommandSpec) (args : list str) : Prop :=
  match effect (mkInvocation (name spec) args) with
  | Ok e => scope_needed e = Some (scope spec)
  | Err e => ∃ a reason, e = InvalidArgument (name spec) a reason
  end.

Lemma parse_remember_Err inv o e : parse_remember inv o = Err e → ∃ a reason, e = InvalidArgument (inv_name inv) a reason.
Proof. destruct o as [v|]; [|done]. cbn. do 2 (case_match; [done|]). intros [= <-]. by eexists _, _. Qed.

Lemma parse_number_Err inv o d e : parse_number inv o d = Err e → ∃ a reason, e = InvalidArgument (inv_name inv) a reason.
Proof. destruct o as [v|]; [|done]. cbn. case_match; [done|]. intros [= <-]. by eexists _, _. Qed.

Lemma builtin_lowers spec args :
  spec ∈ builtin_commands → minimum (arity spec) ≤ len args → lowers spec args.
Proof.
  intros Hin Hlo. unfold builtin_commands in Hin.
  repeat (apply elem_of_cons in Hin as [->|Hin]; [|]); [..|by apply not_elem_of_nil in Hin];
    unfold lowers, effect; cbn [inv_name arguments name spec_new with_aliases with_arity];
    repeat match goal with |- context [bool_decide (?a = ?b)] =>
      let v := eval vm_compute in (bool_decide (a = b)) in change (bool_decide (a = b)) with v end; cbn [scope_needed].
  all: try reflexivity.
  all: try (destruct (parse_number _ _ _) eqn:E; [done|by apply parse_number_Err in E]).
  all: destruct args as [|a args]; [first [done|by vm_compute in Hlo]|try done].
  all: change (required_argument (mkInvocation _ (a :: args)) 0) with (Ok (E := CommandError) a); cbn [mbind result_bind];
    destruct (parse_remember _ _) eqn:E; [done|by apply parse_remember_Err in E].
Qed.

(** Goals are closed as achieved or abandoned. *)
Lemma effect_closes inv s : effect inv = Ok (CloseGoal s) → s = Achieved ∨ s = Abandoned.
Proof.
  unfold effect. repeat (case_bool_decide; [first [intros [= <-]; by auto | done | idtac]|]); try done.
  all: repeat match goal with |- context [mbind _ ?x] => destruct x; cbn [mbind result_bind]; try done end.
  by destruct (arguments inv).
Qed.

(** Nothing runs without its scope: when the built-in registry accepts a line, the
    effect it lowers to is one whose scope the caller holds (reading for inspection,
    writing for turns, goals and models, approvals for answers, administration for
    compaction, suspension and closing sessions), never a custom one; the only other
    outcome is an unusable argument, never a missing one. *)
Theorem commands_are_authorized (line : str) (scopes : ScopeSet) (inv : CommandInvocation) :
  parse builtin line scopes = Ok inv →
  match effect inv with
  | Ok e => ∃ s, scope_needed e = Some s ∧ contains scopes s = true
  | Err e => ∃ a reason, e = InvalidArgument (inv_name inv) a reason
  end.
Proof.
  intros H. destruct (parse_Ok _ _ _ _ _ builtin_registry_ok H) as (spec & Hin & Hs & Hn & Hlo & _).
  pose proof (builtin_lowers spec (arguments inv) Hin Hlo) as Hl. destruct inv as [n args]. cbn in Hn, Hl |- *. subst n.
  unfold lowers in Hl. destruct (effect _) as [e|e]; [|done]. by exists (scope spec).
Qed.

(** ** Directives *)

Section Directives.
Context `{ToolJson}.

Lemma scan_lines_nodup r lines fence ds bl ds' bl' :
  scan_lines r lines fence ds bl = Ok (ds', bl') → NoDup (dir_name <$> ds) → NoDup (dir_name <$> ds').
Proof.
  revert fence ds bl. induction lines as [|raw lines IH]; intros fence ds bl; cbn [scan_lines]; [by intros [= <- <-]|].
  destruct fence as [open|]; [apply IH|]. destruct (fence_marker _); [apply IH|]. destruct (starts_with _ _); [apply IH|].
  destruct (parse_directive_line _ _) as [[d|]|]; [|apply IH|done]. cbn [mbind result_bind].
  destruct (existsb _ ds) eqn:E; [done|]. intros H0 Hnd. eapply IH; [exact H0|]. rewrite fmap_app. apply NoDup_app.
  split_and!; [done| |by apply NoDup_singleton]. intros n Hn ->%list_elem_of_singleton.
  apply list_elem_of_fmap in Hn as (e & He & Hin). apply list_elem_of_In in Hin.
  assert (existsb (λ e, bool_decide (dir_name e = dir_name d)) ds = true) as Ht; [|congruence].
  apply existsb_exists. exists e. split; [done|]. by apply bool_decide_eq_true.
Qed.

(** What one directive may do: it grants no authority, and only a directive that is
    alone names a tool. *)
Lemma apply_one_Ok r count o d o' :
  apply_one r count o d = Ok o' →
  authority o' = authority o ∧
  (direct_tool o' = direct_tool o ∨
   count = 1 ∧ dir_name d = chars "tool" ∧ ∃ v t, dir_value d = Some v ∧ direct_tool_parse v = Ok t ∧
     o' = mkOptions (model o) (tools_enabled o) (quiet o) (goal o) (Some t) (authority o)).
Proof.
  unfold apply_one. destruct (d_index r !! dir_name d); [|done].
  do 4 (destruct (bool_decide _); [intros [= <-]; by auto|]). case_bool_decide as Hn; [|intros [= <-]; by auto].
  destruct (count =? 1) eqn:Ec; [cbn [negb]|done]. destruct (dir_value d) as [v|] eqn:Ev; [cbn [mbind result_bind]|done].
  destruct (direct_tool_parse v) as [t|] eqn:Et; [cbn [mbind result_bind]|done]. intros [= <-]. split; [done|right].
  split_and!; [lia|done|]. by exists v, t.
Qed.

Lemma apply_loop_authority r count ds o o' : apply_loop r count ds o = Ok o' → authority o' = authority o.
Proof.
  revert o. induction ds as [|d ds IH]; intros o; cbn [apply_loop]; [by intros [= <-]|].
  destruct (apply_one r count o d) as [o1|] eqn:E; [|done]. cbn. intros H1. apply apply_one_Ok in E as [<- _]. by apply IH.
Qed.

Lemma apply_loop_tool r count ds o o' t :
  apply_loop r count ds o = Ok o' → direct_tool o = None → direct_tool o' = Some t → count = 1.
Proof.
  revert o. induction ds as [|d ds IH]; intros o; cbn [apply_loop]; [by intros [= <-] ->|].
  destruct (apply_one r count o d) as [o1|] eqn:E; [|done]. cbn. intros H1 Ho Ht.
  apply apply_one_Ok in E as [_ [E|[-> _]]]; [|done]. eapply IH; [exact H1|congruence|done].
Qed.

(** Directives cannot escalate a turn: whatever an input says, the options it
    lowers to carry no authority, which only the host supplies; each directive is
    taken once; and a direct tool call, whose envelope passed its checks, comes alone:
    no other directive, no text for a model and all other options at their defaults. *)
Theorem directives_cannot_escalate (r : DirectiveRegistry) (input : str) (s : DirectiveScan) (o : TurnOptions) :
  scan r input = Ok s → directives_apply r (directives s) = Ok o →
  authority o = None ∧ NoDup (dir_name <$> directives s) ∧
  ∀ t, direct_tool o = Some t →
    body s = [] ∧ o = mkOptions None true false None (Some t) None ∧
    ∃ v, directives s = [mkDirective (chars "tool") (Some v)] ∧ direct_tool_parse v = Ok t.
Proof.
  unfold scan. destruct (scan_lines _ _ _ _ _) as [[ds bl]|] eqn:Es; [|done]. cbn [mbind result_bind].
  set (b := join _ _). destruct (_ && _) eqn:Eb; [done|]. intros [= <-]. cbn [directives body]. unfold directives_apply.
  intros Ha. split_and!.
  - by apply apply_loop_authority in Ha.
  - eapply scan_lines_nodup; [exact Es|constructor].
  - intros t Ht. pose proof (apply_loop_tool _ _ _ _ _ _ Ha eq_refl Ht) as Hc.
    destruct ds as [|d [|d2 ds]]; [done| |rewrite !len_cons in Hc; pose proof (len_nonneg ds); lia].
    cbn [apply_loop] in Ha. destruct (apply_one r (len [d]) options_default d) as [o1|] eqn:E1; [|done].
    cbn in Ha. injection Ha as ->. apply apply_one_Ok in E1 as [_ [E|(_ & Hn & v & t' & Hv & Hp & ->)]];
      [rewrite E in Ht; done|]. cbn in Ht. injection Ht as ->. destruct d as [n v']. cbn in Hn, Hv. subst n v'.
    split_and!; [|done|by exists v]. cbn in Eb. destruct (bool_decide (b = [])) eqn:Ebb; [by apply bool_decide_eq_true in Ebb|].
    exfalso. revert Eb. try rewrite Ebb. by vm_compute.
Qed.

End Directives.

(** ** Examples *)

Definition may_write : ScopeSet := scopes_from_iter [Read; Write].

Definition goal_spec : CommandSpec :=
  with_arity (spec_new (chars "goal") (chars "Show or set the durable goal") Write) (arity_at_least 0).

Lemma command_line_roundtrip_witness :
  let args := [[0x73; QUOTE; BACKSLASH; 0x20]; []] in
  parse builtin (command_line (chars "Goal") (quote <$> args)) may_write = Ok (mkInvocation (name goal_spec) args) ∧
  parse builtin (command_line (quote (chars "GOAL")) (quote <$> args)) EMPTY = Err (Unauthorized (name goal_spec) (scope goal_spec)).
Proof.
  intros args.
  assert (goal_spec ∈ builtin_commands) as Hin by (apply (list_elem_of_lookup_2 _ 6%nat); vm_compute; reflexivity).
  assert (Forall2 spells (quote <$> args) args) as Ha by (repeat constructor).
  assert (spells (chars "Goal") (chars "Goal")) as Hw by (constructor; split; [done|]; repeat constructor; done).
  split.
  - destruct (command_line_roundtrip builtin_commands builtin goal_spec (chars "Goal") (chars "Goal") (quote <$> args) args may_write
      builtin_registry_ok Hin ltac:(vm_compute; left) Hw Ha) as [_ H].
    apply H; [reflexivity|vm_compute; discriminate|intros hi Hhi; discriminate Hhi].
  - destruct (command_line_roundtrip builtin_commands builtin goal_spec (quote (chars "GOAL")) (chars "GOAL") (quote <$> args) args EMPTY
      builtin_registry_ok Hin ltac:(vm_compute; left) (spells_quoted _) Ha) as [H _].
    apply H. reflexivity.
Defined.

Definition compact_now : str := chars "/compact 4".

Lemma commands_are_authorized_witness :
  contains all_scopes Admin = true ∧
  match effect (mkInvocation (chars "compact") [chars "4"]) with
  | Ok e => ∃ s, scope_needed e = Some s ∧ contains all_scopes s = true
  | Err e => ∃ a reason, e = InvalidArgument (chars "compact") a reason
  end.
Proof.
  split; [vm_compute; reflexivity|].
  refine (commands_are_authorized compact_now all_scopes (mkInvocation (chars "compact") [chars "4"]) _).
  vm_compute. reflexivity.
Defined.

(** An envelope reader for one envelope. *)
Definition one_tool : ToolJson :=
  {| envelope_from_str s := if bool_decide (s = chars "{echo}") then Some (chars "echo", chars "{}") else None;
     is_json_object s := bool_decide (s = chars "{}") |}.

Definition echo_call : DirectiveScan := mkScan [mkDirective (chars "tool") (Some (chars "{echo}"))] [].
Definition echo_options : TurnOptions := mkOptions None true false None (Some (mkTool (chars "echo") (chars "{}"))) None.

Lemma directives_cannot_escalate_witness :
  direct_tool echo_options = Some (mkTool (chars "echo") (chars "{}")) ∧
  authority echo_options = None ∧ NoDup (dir_name <$> directives echo_call) ∧
  ∀ t, direct_tool echo_options = Some t →
    body echo_call = [] ∧ echo_options = mkOptions None true false None (Some t) None ∧
    ∃ v, directives echo_call = [mkDirective (chars "tool") (Some v)] ∧ @direct_tool_parse one_tool v = Ok t.
Proof.
  split; [reflexivity|].
  refine (@directives_cannot_escalate one_tool builtin_directive_registry (chars "  !tool {echo}") echo_call echo_options _ _);
    vm_compute; reflexivity.
Defined.

End Commands.
