(* ===== verification/GoalCommands.v ===== *)
(** * Goal commands

    Models [crates/claw-goals/src/command.rs]: one operator command line is parsed
    and authorized by the command registry and carried out on the session's durable
    goal by the goal service. *)

From S2P Require Import Prelude Utf8 Text Approval Goals GoalDisk GoalStore GoalRecovery GoalHistory GoalService Commands.

Module GoalCommands.
Import Goals Service.

Inductive GoalCommandOutcome :=
| Set_ (r : GoalRecord)
| Shown (r : option GoalRecord)
| Closed (r : GoalRecord)
| NothingToClose.

Definition outcome_record (o : GoalCommandOutcome) : option GoalRecord :=
  match o with
  | Set_ r | Closed r => Some r
  | Shown r => r
  | NothingToClose => None
  end.

Inductive GoalCommandError :=
| Command (e : Commands.CommandError)
| NotAGoalCommand (e : Commands.CommandEffect)
| Goal (e : GoalError).

(** [map] and [map_err(GoalCommandError::from)] on a service operation. *)
Definition lift {A} (f : A → GoalCommandOutcome) (p : T A) : Task (result GoalCommandError GoalCommandOutcome) :=
  task_bind p (λ x, Done (match x with Ok a => Ok (f a) | Err e => Err (Goal e) end)).

Section Commands.
Context (cfg : GoalConfig).

(** The operation that [/goal-done] and [/goal-drop] retry. *)
Definition close_active (session : str) (s : GoalStatus) : T GoalCommandOutcome :=
  found ← active session;
  match found with
  | None => mret NothingToClose
  | Some r => r ← close (goal_id r) s; mret (Closed r)
  end.

Definition apply_command_effect (session : str) (e : Commands.CommandEffect) : Task (result GoalCommandError GoalCommandOutcome) :=
  match e with
  | Commands.ShowGoal => lift Shown (active session)
  | Commands.SetGoal text => lift Set_ (start_with_conflict_recovery cfg session text)
  | Commands.CloseGoal s => lift id (retry_conflicts (close_active session s))
  | other => Done (Err (NotAGoalCommand other))
  end.

Definition execute_command (r : Commands.CommandRegistry) (session : str) (scopes : Commands.ScopeSet) (line : str)
  : Task (result GoalCommandError GoalCommandOutcome) :=
  match Commands.parse r line scopes with
  | Err e => Done (Err (Command e))
  | Ok inv =>
      match Commands.effect inv with
      | Err e => Done (Err (Command e))
      | Ok e => apply_command_effect session e
      end
  end.

End Commands.

(** Goals are changed only by callers who may write: without the write scope no
    command line reads or changes a goal, whatever it says: it is refused before the
    service is called. With it the only lines that reach the service are those that
    lower to showing, setting or closing the session's goal, and closing asks only
    for a closed status. *)
Theorem goal_commands_need_write (cfg : GoalConfig) (session line : str) (scopes : Commands.ScopeSet) :
  (∃ e, execute_command cfg Commands.builtin session scopes line = Done (Err e) ∧ ∀ g, e ≠ Goal g) ∨
  Commands.contains scopes Commands.Write = true ∧
  ∃ e, execute_command cfg Commands.builtin session scopes line = apply_command_effect cfg session e ∧
    (e = Commands.ShowGoal ∨ (∃ text, e = Commands.SetGoal text) ∨
     ∃ s, e = Commands.CloseGoal s ∧ transition Active s = Ok s).
Proof.
  unfold execute_command. destruct (Commands.parse _ line scopes) as [inv|e] eqn:Ep; [|left; by eexists].
  destruct (Commands.parse_Ok _ _ _ _ _ Commands.builtin_registry_ok Ep) as (spec & Hin & Hs & Hn & Hlo & _).
  pose proof (Commands.builtin_lowers spec (Commands.arguments inv) Hin Hlo) as Hl. destruct inv as [n args]. cbn in Hn, Hl |- *.
  subst n. unfold Commands.lowers in Hl. destruct (Commands.effect _) as [e|e] eqn:Ee; [|left; by eexists].
  assert (Hclose : ∀ s, e = Commands.CloseGoal s → transition Active s = Ok s).
  { intros s ->. by apply Commands.effect_closes in Ee as [->| ->]. }
  destruct e; try (left; eexists; split; [reflexivity|discriminate]);
    right; injection Hl as Hl; rewrite Hl; (split; [done|]).
  - eexists. split; [reflexivity|]. right. left. by eexists.
  - eexists. split; [reflexivity|]. by left.
  - eexists. split; [reflexivity|]. right. right. eexists. split; [done|]. by apply Hclose.
Qed.

End GoalCommands.
