(* ===== verification/Ranking.v ===== *)
(** * Ranking

    Stable sorting by a comparison, as [slice::sort_by] does it, the best elements of
    a list, and byte-wise string order: shared by the retrieval components. *)

From stdpp Require Import sorting.
From S2P Require Import Prelude Utf8 Text.

Module Ranking.

Section Sorting.
Context {A : Type} (cmp : A → A → comparison).

Definition before (x y : A) : bool := match cmp x y with Gt => false | _ => true end.

Fixpoint insert_sorted (x : A) (l : list A) : list A :=
  match l with
  | [] => [x]
  | y :: l' => if before x y then x :: l else y :: insert_sorted x l'
  end.

(** [sort_by]: a stable sort has one result, which this one computes. *)
Definition sort_by (l : list A) : list A := foldr insert_sorted [] l.

(** The best [k] elements. *)
Definition best_of (k : nat) (l : list A) : list A := take k (sort_by l).

Lemma insert_sorted_perm x l : insert_sorted x l ≡ₚ x :: l.
Proof. induction l as [|y l IH]; cbn; [done|]. destruct (before x y); [done|]. rewrite IH. apply Permutation_swap. Qed.

Lemma sort_by_cons x l : sort_by (x :: l) = insert_sorted x (sort_by l).
Proof. done. Qed.

Lemma sort_by_perm l : sort_by l ≡ₚ l.
Proof. induction l as [|x l IH]; cbn; [done|]. by rewrite insert_sorted_perm, IH. Qed.

Lemma sort_by_length l : length (sort_by l) = length l.
Proof. by rewrite sort_by_perm. Qed.

(** Where an element goes among the first [k] depends on the first [k] only. *)
Lemma take_insert k x l : take k (insert_sorted x l) = take k (insert_sorted x (take k l)).
Proof.
  revert k. induction l as [|y l IH]; intros k; [by rewrite take_nil|]. destruct k as [|k]; [done|]. cbn [take insert_sorted].
  destruct (before x y); cbn [take].
  - f_equal. rewrite <- firstn_cons. by rewrite take_take, Nat.min_l by lia.
  - by rewrite <- IH.
Qed.

(** A total order by which no two different elements are equal. *)
Class Ranks : Prop := {
  ranks_refl x y : cmp x y = Eq ↔ x = y;
  ranks_opp x y : cmp y x = CompOpp (cmp x y);
  ranks_trans x y z : cmp x y ≠ Gt → cmp y z ≠ Gt → cmp x z ≠ Gt;
}.

Context `{Ranks}.

Definition le (x y : A) : Prop := cmp x y ≠ Gt.

Lemma before_le x y : before x y = true ↔ le x y.
Proof. unfold before, le. by destruct (cmp x y). Qed.

Lemma before_false x y : before x y = false → le y x.
Proof. unfold before, le. rewrite (ranks_opp x y). by destruct (cmp x y). Qed.

#[local] Instance le_trans : Transitive le.
Proof. intros x y z. apply ranks_trans. Qed.

#[local] Instance le_anti : AntiSymm (=) le.
Proof.
  intros x y. unfold le. rewrite (ranks_opp x y). destruct (cmp x y) eqn:E; [|done..]. intros _ _. by apply ranks_refl.
Qed.

Lemma insert_sorted_sorted x l : StronglySorted le l → StronglySorted le (insert_sorted x l).
Proof.
  induction 1 as [|y l Hl IH Hy]; cbn; [by repeat constructor|]. destruct (before x y) eqn:E.
  - apply before_le in E. constructor; [by constructor|]. constructor; [done|].
    eapply Forall_impl; [exact Hy|]. intros z. by apply le_trans.
  - apply before_false in E. constructor; [done|]. rewrite insert_sorted_perm. by constructor.
Qed.

Lemma sort_by_sorted l : StronglySorted le (sort_by l).
Proof. induction l as [|x l IH]; [constructor|]. by apply insert_sorted_sorted. Qed.

Lemma sort_by_unique l l' : l ≡ₚ l' → StronglySorted le l' → sort_by l = l'.
Proof. intros Hp Hs. apply (StronglySorted_unique le); [apply sort_by_sorted|done|by rewrite sort_by_perm]. Qed.

Lemma sort_by_Permutation l l' : l ≡ₚ l' → sort_by l = sort_by l'.
Proof. intros Hp. apply sort_by_unique; [by rewrite sort_by_perm|apply sort_by_sorted]. Qed.

Lemma sorted_take k l : StronglySorted le l → StronglySorted le (take k l).
Proof. intros Hs. rewrite <- (take_drop k l) in Hs. by eapply StronglySorted_app_1_l. Qed.

(** Elements outside the best so far never come back. *)
Lemma best_of_app k l l' : best_of k (l ++ best_of k l') = best_of k (l ++ l').
Proof.
  unfold best_of. induction l as [|x l IH]; cbn [app].
  - rewrite (sort_by_unique (take k (sort_by l')) (take k (sort_by l'))); [|done|apply sorted_take, sort_by_sorted].
    by rewrite take_take, Nat.min_id.
  - by rewrite !sort_by_cons, take_insert, IH, <- take_insert.
Qed.

Lemma best_of_Permutation k l l' : l ≡ₚ l' → best_of k l = best_of k l'.
Proof. intros Hp. unfold best_of. by rewrite (sort_by_Permutation l l'). Qed.

Lemma best_of_cons k x l : best_of k (x :: l) = take k (insert_sorted x (best_of k l)).
Proof. unfold best_of. cbn. apply take_insert. Qed.

Lemma best_of_sorted k l : StronglySorted le (best_of k l).
Proof. apply sorted_take, sort_by_sorted. Qed.

Lemma best_of_elem k l x : x ∈ best_of k l → x ∈ l.
Proof. intros (i & Hi & _)%elem_of_take. rewrite <- (sort_by_perm l). by eapply list_elem_of_lookup_2. Qed.

Lemma best_of_length k l : length (best_of k l) = Nat.min k (length l).
Proof. unfold best_of. by rewrite length_take, sort_by_length. Qed.

Lemma best_of_all k l : (length l ≤ k)%nat → best_of k l ≡ₚ l.
Proof. intros Hl. unfold best_of. rewrite take_ge by (by rewrite sort_by_length). apply sort_by_perm. Qed.

(** What is not among the best is no better than any of them. *)
Lemma best_of_best k l x y : x ∈ best_of k l → y ∈ drop k (sort_by l) → le x y.
Proof.
  intros Hx Hy. pose proof (sort_by_sorted l) as Hs. rewrite <- (take_drop k (sort_by l)) in Hs.
  by eapply StronglySorted_app_1_elem_of.
Qed.

End Sorting.

(** [Ord for str]: byte-wise, which on UTF-8 is the order of the scalar values. *)
Fixpoint str_cmp (a b : str) : comparison :=
  match a, b with
  | [], [] => Eq
  | [], _ => Lt
  | _, [] => Gt
  | x :: a, y :: b => match x ?= y with Eq => str_cmp a b | c => c end
  end.

Lemma str_cmp_eq a b : str_cmp a b = Eq ↔ a = b.
Proof.
  revert b. induction a as [|x a IH]; intros [|y b]; cbn; [done..|]. destruct (Z.compare_spec x y) as [->|Hl|Hl].
  - rewrite IH. split; congruence.
  - split; [done|]. intros [= -> _]. lia.
  - split; [done|]. intros [= -> _]. lia.
Qed.

Lemma str_cmp_opp a b : str_cmp b a = CompOpp (str_cmp a b).
Proof.
  revert b. induction a as [|x a IH]; intros [|y b]; cbn; [done..|]. rewrite (Z.compare_antisym x y).
  destruct (x ?= y); cbn; [apply IH|done|done].
Qed.

Lemma str_cmp_trans a b c : str_cmp a b ≠ Gt → str_cmp b c ≠ Gt → str_cmp a c ≠ Gt.
Proof.
  revert b c. induction a as [|x a IH]; intros [|y b] [|z c]; cbn; try done.
  destruct (Z.compare_spec x y), (Z.compare_spec y z), (Z.compare_spec x z); subst; try done; try lia. apply IH.
Qed.

#[export] Instance str_ranks : Ranks str_cmp.
Proof. split; [apply str_cmp_eq|apply str_cmp_opp|apply str_cmp_trans]. Qed.

(** [then]: the second comparison decides where the first finds no difference. *)
Definition then_ (a b : comparison) : comparison := match a with Eq => b | _ => a end.

(** ** Building orders *)

Class Compares {A} (cmp : A → A → comparison) : Prop := {
  compares_opp x y : cmp y x = CompOpp (cmp x y);
  compares_trans x y z : cmp x y ≠ Gt → cmp y z ≠ Gt → cmp x z ≠ Gt;
}.

#[export] Instance Z_compares : Compares Z.compare.
Proof. split; [intros x y; by rewrite Z.compare_antisym|]. intros x y z. rewrite !Z.compare_le_iff. lia. Qed.

#[export] Instance ranks_compares {A} (cmp : A → A → comparison) : Ranks cmp → Compares cmp.
Proof. intros []. by split. Qed.

Lemma compares_refl {A} (cmp : A → A → comparison) `{!Compares cmp} x : cmp x x = Eq.
Proof. pose proof (compares_opp (cmp := cmp) x x). by destruct (cmp x x). Qed.

(** Comparing what a function gives, in one direction or the other. *)
Lemma compares_on {A B} (f : A → B) cmp : Compares cmp → Compares (λ x y, cmp (f x) (f y)).
Proof. intros []. split; eauto. Qed.

Lemma compares_flip {A} (cmp : A → A → comparison) : Compares cmp → Compares (λ x y, cmp y x).
Proof. intros []. split; [auto|]. intros x y z ? ?. eauto. Qed.

Lemma compares_then {A} (c1 c2 : A → A → comparison) :
  Compares c1 → Compares c2 → Compares (λ x y, then_ (c1 x y) (c2 x y)).
Proof.
  intros H1 H2. split.
  - intros x y. rewrite (compares_opp (cmp := c1) x y), (compares_opp (cmp := c2) x y). by destruct (c1 x y).
  - intros x y z Hxy Hyz.
    pose proof (compares_opp (cmp := c1) x y). pose proof (compares_opp (cmp := c1) y z). pose proof (compares_opp (cmp := c1) x z).
    pose proof (compares_trans (cmp := c1) x y z). pose proof (compares_trans (cmp := c1) y z x).
    pose proof (compares_trans (cmp := c1) z x y). pose proof (compares_trans (cmp := c2) x y z).
    destruct (c1 x y), (c1 y z), (c1 x z); cbn in *; rewrite ?H, ?H0, ?H3 in *; naive_solver.
Qed.

Lemma ranks_then {A} (c1 c2 : A → A → comparison) :
  Compares c1 → Compares c2 → (∀ x y, c1 x y = Eq → c2 x y = Eq → x = y) → Ranks (λ x y, then_ (c1 x y) (c2 x y)).
Proof.
  intros H1 H2 Hinj. pose proof (compares_then c1 c2 H1 H2) as []. split; [|done..]. intros x y. split.
  - unfold then_. destruct (c1 x y) eqn:E; [|done..]. eauto.
  - intros ->. by rewrite (compares_refl c1), (compares_refl c2).
Qed.

(** Two comparisons that agree on a list sort it alike. *)
Lemma sort_by_ext {A} (c1 c2 : A → A → comparison) l :
  (∀ x y, x ∈ l → y ∈ l → c1 x y = c2 x y) → sort_by c1 l = sort_by c2 l.
Proof.
  induction l as [|x l IH]; intros Hc; [done|]. rewrite !sort_by_cons.
  rewrite IH by (intros a b Ha Hb; apply Hc; by right).
  assert (Hx : ∀ y, y ∈ sort_by c2 l → c1 x y = c2 x y).
  { intros y. rewrite sort_by_perm. intros Hy. apply Hc; [left|by right]. }
  clear IH Hc. revert Hx. induction (sort_by c2 l) as [|y l' IH']; intros Hx; cbn; [done|]. unfold before at 1.
  rewrite Hx by left. fold (before c2 x y). destruct (before c2 x y); [done|].
  rewrite IH'; [done|]. intros z Hz. apply Hx. by right.
Qed.

End Ranking.
