(* ===== verification/MemorySession.v ===== *)
(** * Conversation sessions

    Models [crates/claw-memory/src/session.rs]: messages with identifiers assigned in
    order, summaries that replace runs of older messages, and the restoring of a
    decoded document under the bounds of the write path. The bounded visitors of
    [bounded.rs] appear as the bounds [decode_session] checks; the JSON syntax is
    serde's. *)

From stdpp Require Import sorting.
From S2P Require Import Prelude Utf8 Text NetAddr.

Module Memory.
Import Net.

Definition MAX_SESSION_ID_BYTES : Z := 128.
Definition MAX_MESSAGE_BYTES : Z := 1024 * 1024.
Definition MAX_MESSAGES : Z := 100000.
Definition MAX_SUMMARIES : Z := 10000.

Inductive SessionError :=
| EmptySessionId
| SessionIdTooLong
| InvalidSessionId
| EmptyMessage
| MessageTooLong
| TooManyMessages
| TooManySummaries
| InvalidSummaryRange
| SessionExhausted.

Definition session_id_new (value : str) : result SessionError str :=
  if bool_decide (value = []) then Err EmptySessionId
  else if MAX_SESSION_ID_BYTES <? len (as_bytes value) then Err SessionIdTooLong
  else if all (λ c, is_alphanumeric c || (c =? 0x2D) || (c =? 0x5F) || (c =? 0x2E)) value then Ok value
  else Err InvalidSessionId.

Inductive Role := System | User | Assistant | Tool.

#[export] Instance Role_eq_dec : EqDecision Role.
Proof. solve_decision. Defined.

Definition role_str (r : Role) : str :=
  match r with
  | System => chars "system"
  | User => chars "user"
  | Assistant => chars "assistant"
  | Tool => chars "tool"
  end.

Record Message := mkMessage {
  id : Z;
  role : Role;
  content : str;
  unix_millis : Z;
  pinned : bool;
}.

#[export] Instance Message_eq_dec : EqDecision Message.
Proof. solve_decision. Defined.

Definition is_anchor (m : Message) : bool := pinned m || bool_decide (role m = System).

Record Summary := mkSummary { first : Z; last : Z; text : str; s_unix_millis : Z }.

Definition covers (s : Summary) (i : Z) : bool := (first s <=? i) && (i <=? last s).

Record Session := mkSession {
  session_id : str;
  messages : list Message;
  summaries : list Summary;
  next_ordinal : Z;
}.

Definition session_new (i : str) : Session := mkSession i [] [] 0.

Definition check_body (t : str) : result SessionError unit :=
  if bool_decide (t = []) then Err EmptyMessage
  else if MAX_MESSAGE_BYTES <? len (as_bytes t) then Err MessageTooLong
  else Ok tt.

Definition check_summary (s : Summary) : result SessionError unit :=
  if last s <? first s then Err InvalidSummaryRange else check_body (text s).

(** [u64::checked_add(1)] *)
Definition next_u64 (n : Z) : option Z := if n <? u64_max then Some (n + 1) else None.

(** The operations return the session they leave behind; an error leaves it as it
    was. *)
Definition append (s : Session) (r : Role) (c : str) (at_ : Z) : result SessionError (Session * Z) :=
  _ ← check_body c;
  if MAX_MESSAGES <=? len (messages s) then Err TooManyMessages
  else
    match next_u64 (next_ordinal s) with
    | None => Err SessionExhausted
    | Some next =>
        let i := next_ordinal s in
        Ok (mkSession (session_id s) (messages s ++ [mkMessage i r c at_ false]) (summaries s) next, i)
    end.

(** The first message with an identifier, changed in place. *)
Fixpoint update_first (i : Z) (f : Message → Message) (ms : list Message) : option (list Message) :=
  match ms with
  | [] => None
  | m :: ms => if id m =? i then Some (f m :: ms) else cons m <$> update_first i f ms
  end.

Definition pin (s : Session) (i : Z) : Session * bool :=
  match update_first i (λ m, mkMessage (id m) (role m) (content m) (unix_millis m) true) (messages s) with
  | Some ms => (mkSession (session_id s) ms (summaries s) (next_ordinal s), true)
  | None => (s, false)
  end.

Definition replace (s : Session) (i : Z) (r : Role) (c : str) (at_ : Z) (p : bool) : result SessionError (Session * bool) :=
  _ ← check_body c;
  match update_first i (λ _, mkMessage i r c at_ p) (messages s) with
  | Some ms => Ok (mkSession (session_id s) ms (summaries s) (next_ordinal s), true)
  | None => Ok (s, false)
  end.

Fixpoint remove_first (i : Z) (ms : list Message) : option (Message * list Message) :=
  match ms with
  | [] => None
  | m :: ms => if id m =? i then Some (m, ms) else prod_map (λ x, x) (cons m) <$> remove_first i ms
  end.

Definition remove (s : Session) (i : Z) : Session * option Message :=
  match remove_first i (messages s) with
  | Some (m, ms) => (mkSession (session_id s) ms (summaries s) (next_ordinal s), Some m)
  | None => (s, None)
  end.

Definition next_message_id (s : Session) : option Z :=
  match next_u64 (next_ordinal s) with Some _ => Some (next_ordinal s) | None => None end.

(** The messages that stay when a summary is recorded. *)
Definition retain (sm : Summary) (ms : list Message) : list Message :=
  List.filter (λ m, is_anchor m || negb (covers sm (id m))) ms.

Definition absorb (s : Session) (sm : Summary) : result SessionError (Session * Z) :=
  _ ← check_summary sm;
  if MAX_SUMMARIES <=? len (summaries s) then Err TooManySummaries
  else
    let ms := retain sm (messages s) in
    Ok (mkSession (session_id s) ms (summaries s ++ [sm]) (next_ordinal s), len (messages s) - len ms).

Inductive RestoreError :=
| Bound (e : SessionError)
| NonMonotonicMessages.

(** [is_sorted_by(|earlier, later| earlier.id < later.id)] *)
Fixpoint ids_increase (ms : list Message) : bool :=
  match ms with
  | m :: ((m' :: _) as rest) => (id m <? id m') && ids_increase rest
  | _ => true
  end.

Fixpoint check_all {A} (f : A → result SessionError unit) (l : list A) : result RestoreError unit :=
  match l with
  | [] => Ok tt
  | a :: l => match f a with Ok _ => check_all f l | Err e => Err (Bound e) end
  end.

(** [raw] is a decoded document, whose fields are those of a session. *)
Definition restore (raw : Session) : result RestoreError Session :=
  if negb (ids_increase (messages raw)) then Err NonMonotonicMessages
  else
    _ ← check_all (λ m, check_body (content m)) (messages raw);
    _ ← check_all check_summary (summaries raw);
    let after_last := match List.rev (messages raw) with [] => 0 | m :: _ => sat_add u64_max (id m) 1 end in
    Ok (mkSession (session_id raw) (messages raw) (summaries raw) (Z.max (next_ordinal raw) after_last)).

(** [Session::deserialize] on a document of the right shape: the identifier, the
    bodies and the sequences are bounded while they are read. *)
Definition decode_session (raw : Session) : option Session :=
  match session_id_new (session_id raw) with
  | Err _ => None
  | Ok _ =>
      if forallb (λ m, is_ok (check_body (content m))) (messages raw) && (len (messages raw) <=? MAX_MESSAGES)
         && forallb (λ s, is_ok (check_summary s)) (summaries raw) && (len (summaries raw) <=? MAX_SUMMARIES)
      then match restore raw with Ok s => Some s | Err _ => None end
      else None
  end.

(** ** Histories of one session *)

Inductive Op :=
| Append (r : Role) (c : str) (at_ : Z)
| Pin (i : Z)
| Replace (i : Z) (r : Role) (c : str) (at_ : Z) (p : bool)
| Remove (i : Z)
| Absorb (sm : Summary)
| Reload.

(** The session after an operation and the identifier it assigned. [Reload] writes
    the session out and decodes it again. *)
Definition step (s : Session) (o : Op) : Session * option Z :=
  match o with
  | Append r c at_ => match append s r c at_ with Ok (s, i) => (s, Some i) | Err _ => (s, None) end
  | Pin i => ((pin s i).1, None)
  | Replace i r c at_ p => match replace s i r c at_ p with Ok (s, _) => (s, None) | Err _ => (s, None) end
  | Remove i => ((remove s i).1, None)
  | Absorb sm => match absorb s sm with Ok (s, _) => (s, None) | Err _ => (s, None) end
  | Reload => (default s (decode_session s), None)
  end.

Fixpoint run (s : Session) (os : list Op) : Session * list Z :=
  match os with
  | [] => (s, [])
  | o :: os =>
      let '(s, i) := step s o in
      let '(s, given) := run s os in
      (s, match i with Some i => i :: given | None => given end)
  end.

Definition ids (ms : list Message) : list Z := id <$> ms.

(** An identifier that was assigned: below the next one, unless none is left. *)
Definition assigned (next i : Z) : Prop := 0 ≤ i ≤ u64_max ∧ (i < next ∨ next = u64_max).

Definition message_ok (next : Z) (m : Message) : Prop := check_body (content m) = Ok tt ∧ assigned next (id m).

Record WF (s : Session) : Prop := {
  wf_id : session_id_new (session_id s) = Ok (session_id s);
  wf_sorted : StronglySorted Z.lt (ids (messages s));
  wf_messages : Forall (message_ok (next_ordinal s)) (messages s);
  wf_count : len (messages s) ≤ MAX_MESSAGES;
  wf_summaries : Forall (λ sm, check_summary sm = Ok tt) (summaries s);
  wf_summary_count : len (summaries s) ≤ MAX_SUMMARIES;
  wf_next : 0 ≤ next_ordinal s ≤ u64_max;
}.

Lemma assigned_mono n n' i : n ≤ n' ≤ u64_max → assigned n i → assigned n' i.
Proof. unfold assigned. lia. Qed.

(** *** Lists of messages *)

Lemma sorted_snoc (l : list Z) x : StronglySorted Z.lt l → Forall (λ y, y < x) l → StronglySorted Z.lt (l ++ [x]).
Proof.
  induction 1 as [|y l Hl IH Hy]; intros Hx; cbn; [by repeat constructor|].
  apply Forall_cons in Hx as [Hyx Hx]. constructor; [by apply IH|]. apply Forall_app. split; [done|by constructor].
Qed.

Lemma ids_filter_sorted (f : Message → bool) ms : StronglySorted Z.lt (ids ms) → StronglySorted Z.lt (ids (List.filter f ms)).
Proof.
  induction ms as [|m ms IH]; [done|]. cbn. intros [Hs Hm]%StronglySorted_inv. specialize (IH Hs).
  destruct (f m); [|done]. cbn. constructor; [done|]. apply Forall_fmap, Forall_forall. intros x Hx.
  apply list_elem_of_In, filter_In in Hx as [Hx _]. apply list_elem_of_In in Hx.
  by eapply (proj1 (Forall_forall _ _)) in Hm; [|apply list_elem_of_fmap; eexists].
Qed.

Lemma update_first_Some i f ms ms' :
  update_first i f ms = Some ms' →
  ∃ a m b, ms = a ++ m :: b ∧ ms' = a ++ f m :: b ∧ id m = i ∧ Forall (λ x, id x ≠ i) a.
Proof.
  revert ms'. induction ms as [|m ms IH]; intros ms'; cbn; [done|]. destruct (id m =? i) eqn:E.
  - intros [= <-]. exists [], m, ms. split_and!; [done|done|lia|constructor].
  - destruct (update_first i f ms) as [l|]; [|done]. cbn. intros [= <-].
    destruct (IH l eq_refl) as (a & x & b & -> & -> & Hi & Ha). exists (m :: a), x, b.
    split_and!; [done..|]. constructor; [lia|done].
Qed.

Lemma update_first_wf i f ms ms' (P : Message → Prop) :
  update_first i f ms = Some ms' → (∀ m, id m = i → id (f m) = i) →
  Forall P ms → (∀ m, P m → id m = i → P (f m)) → ids ms' = ids ms ∧ Forall P ms'.
Proof.
  intros (a & m & b & -> & -> & Hi & _)%update_first_Some Hf HP HPf.
  apply Forall_app in HP as [Ha [Hm Hb]%Forall_cons]. split.
  - unfold ids. rewrite !fmap_app. cbn. by rewrite Hf, Hi.
  - apply Forall_app. split; [done|]. constructor; [by apply HPf|done].
Qed.

Lemma remove_first_Some i ms m ms' :
  remove_first i ms = Some (m, ms') → ∃ a b, ms = a ++ m :: b ∧ ms' = a ++ b ∧ id m = i.
Proof.
  revert m ms'. induction ms as [|x ms IH]; intros m ms'; cbn; [done|]. destruct (id x =? i) eqn:E.
  - intros [= <- <-]. exists [], ms. split_and!; [done|done|lia].
  - destruct (remove_first i ms) as [[y l]|]; [|done]. cbn. intros [= <- <-].
    destruct (IH y l eq_refl) as (a & b & -> & -> & Hi). by exists (x :: a), b.
Qed.

Lemma sorted_remove (a b : list Z) x : StronglySorted Z.lt (a ++ x :: b) → StronglySorted Z.lt (a ++ b).
Proof.
  induction a as [|y a IH]; cbn; intros [Hs Hy]%StronglySorted_inv; [done|].
  constructor; [by apply IH|]. apply Forall_app in Hy as [Ha [_ Hb]%Forall_cons]. by apply Forall_app.
Qed.

Lemma ids_increase_sorted ms : ids_increase ms = true ↔ StronglySorted Z.lt (ids ms).
Proof.
  induction ms as [|m [|m' ms] IH]; [split; [constructor|done]|split; [by repeat constructor|done]|].
  change (ids_increase (m :: m' :: ms)) with ((id m <? id m') && ids_increase (m' :: ms)).
  rewrite andb_true_iff, IH, Z.ltb_lt. cbn [ids fmap list_fmap]. split.
  - intros [Hlt Hs]. constructor; [done|]. constructor; [done|]. apply StronglySorted_inv in Hs as [_ Hs].
    eapply Forall_impl; [exact Hs|]. intros x Hx. cbn in *. lia.
  - intros [Hs Hf]%StronglySorted_inv. apply Forall_cons in Hf as [Hf _]. by split.
Qed.

Lemma check_all_Ok {A} (f : A → result SessionError unit) l : check_all f l = Ok tt ↔ Forall (λ a, f a = Ok tt) l.
Proof.
  induction l as [|a l IH]; cbn; [by split; [constructor|]|]. rewrite Forall_cons. destruct (f a) as [[]|e]; [|naive_solver].
  rewrite IH. naive_solver.
Qed.

Lemma forallb_ok {A} (f : A → result SessionError unit) l : forallb (λ a, is_ok (f a)) l = true ↔ Forall (λ a, f a = Ok tt) l.
Proof.
  rewrite forallb_forall, Forall_forall. split; intros H a Ha.
  - apply list_elem_of_In, H in Ha. by destruct (f a) as [[]|].
  - apply list_elem_of_In in Ha. by rewrite H.
Qed.

(** *** The invariant *)

Lemma last_assigned ms m : StronglySorted Z.lt (ids ms) → m ∈ ms → ∃ x, head (List.rev ms) = Some x ∧ id m ≤ id x.
Proof.
  revert m. induction ms as [|y ms IH]; intros m; [by intros _ ?%not_elem_of_nil|].
  cbn. intros [Hs Hy]%StronglySorted_inv Hm. destruct ms as [|z ms].
  - apply list_elem_of_singleton in Hm as ->. exists y. split; [done|lia].
  - assert (∃ x, head (List.rev (z :: ms)) = Some x ∧ id z ≤ id x) as (x & Hx & Hz) by (apply IH; [done|left]).
    apply elem_of_cons in Hm as [->|Hm].
    + exists x. apply Forall_cons in Hy as [Hy _]. split; [|lia]. by rewrite head_app, Hx.
    + destruct (IH m Hs Hm) as (x' & Hx' & Hle). exists x'. by rewrite head_app, Hx'.
Qed.

(** A sound session is restored as it was written. *)
Lemma decode_written s : WF s → decode_session s = Some s.
Proof.
  intros [Hi Hs Hm Hc Hsm Hsc Hn]. unfold decode_session. rewrite Hi.
  rewrite (proj2 (forallb_ok (λ m, check_body (content m)) (messages s))) by (eapply Forall_impl; [exact Hm|]; by intros ? []).
  rewrite (proj2 (forallb_ok _ (summaries s)) Hsm).
  replace (len (messages s) <=? MAX_MESSAGES) with true by lia. replace (len (summaries s) <=? MAX_SUMMARIES) with true by lia.
  unfold restore. rewrite (proj2 (ids_increase_sorted _) Hs). cbn [negb andb].
  rewrite (proj2 (check_all_Ok (λ m, check_body (content m)) (messages s))) by (eapply Forall_impl; [exact Hm|]; by intros ? []).
  cbn [mbind result_bind]. rewrite (proj2 (check_all_Ok _ (summaries s)) Hsm). cbn [mbind result_bind].
  f_equal. destruct s as [i ms sm n]. cbn in *. f_equal. destruct (List.rev ms) as [|m r] eqn:E; [lia|].
  assert (m ∈ ms) as Hin by (apply list_elem_of_In, in_rev; rewrite E; by left).
  eapply (proj1 (Forall_forall _ _)) in Hm as [_ [Hr Hlt]]; [|exact Hin]. unfold sat_add. lia.
Qed.

(** The fields of a document hold integers of 64 bits. *)
Definition raw_range (raw : Session) : Prop :=
  0 ≤ next_ordinal raw ≤ u64_max ∧ Forall (λ m, 0 ≤ id m ≤ u64_max) (messages raw).

Lemma decode_sound raw s : raw_range raw → decode_session raw = Some s → WF s.
Proof.
  intros [Hn Hr]. unfold decode_session. destruct (session_id_new (session_id raw)) as [i|] eqn:Ei; [|done].
  destruct (_ && _) eqn:E; [|done]. boolify. apply forallb_ok in H. apply forallb_ok in H1.
  unfold restore. destruct (ids_increase (messages raw)) eqn:Es; [cbn [negb]|done]. apply ids_increase_sorted in Es.
  rewrite (proj2 (check_all_Ok _ _) H). cbn [mbind result_bind]. rewrite (proj2 (check_all_Ok _ _) H1). cbn [mbind result_bind].
  intros [= <-]. set (after := match List.rev _ with [] => 0 | _ => _ end).
  assert (0 ≤ after ≤ u64_max) as Ha.
  { subst after. destruct (List.rev (messages raw)) as [|m r] eqn:Erev; [unfold u64_max; lia|].
    assert (m ∈ messages raw) as Hin by (apply list_elem_of_In, in_rev; rewrite Erev; by left).
    eapply (proj1 (Forall_forall _ _)) in Hr; [|exact Hin]. cbn in Hr. unfold sat_add. lia. }
  constructor; cbn; [|done| |done|done|done|lia].
  - unfold session_id_new in *. repeat case_match; congruence.
  - apply Forall_forall. intros m Hm. split; [by eapply (proj1 (Forall_forall _ _)) in H|].
    destruct (last_assigned _ _ Es Hm) as (x & Hx & Hle). split; [by eapply (proj1 (Forall_forall _ _)) in Hr|].
    subst after. destruct (List.rev (messages raw)) as [|y r]; [done|]. injection Hx as ->. unfold sat_add. lia.
Qed.

Lemma append_wf s r c at_ s' i :
  WF s → append s r c at_ = Ok (s', i) →
  WF s' ∧ i = next_ordinal s ∧ next_ordinal s' = i + 1 ∧
  messages s' = messages s ++ [mkMessage i r c at_ false] ∧ summaries s' = summaries s.
Proof.
  intros [Hi Hs Hm Hc Hsm Hsc Hn]. unfold append, next_u64. destruct (check_body c) as [[]|] eqn:Eb; [cbn|done].
  destruct (_ <=? _) eqn:El; [done|]. destruct (next_ordinal s <? u64_max) eqn:En; [|done]. boolify. intros [= <- <-].
  split; [|done]. assert (Forall (λ y, y < next_ordinal s) (ids (messages s))) as Hlt.
  { apply Forall_fmap. eapply Forall_impl; [exact Hm|]. intros m [_ [_ Hx]]. cbn. lia. }
  constructor; cbn; [done| | | |done|done|lia].
  - unfold ids. rewrite fmap_app. by apply sorted_snoc.
  - apply Forall_app. split.
    + eapply Forall_impl; [exact Hm|]. intros m [Hb Ha]. split; [done|]. eapply assigned_mono; [|exact Ha]. lia.
    + constructor; [|constructor]. split; [done|]. cbn. unfold assigned. lia.
  - rewrite len_app, len_cons, len_nil. lia.
Qed.

(** Changing messages in place or dropping some keeps a session sound. *)
Lemma with_messages_wf s ms sm :
  WF s → StronglySorted Z.lt (ids ms) → Forall (message_ok (next_ordinal s)) ms → len ms ≤ len (messages s) →
  Forall (λ sm, check_summary sm = Ok tt) sm → len sm ≤ MAX_SUMMARIES →
  WF (mkSession (session_id s) ms sm (next_ordinal s)).
Proof. intros [] ? ? ? ? ?. constructor; cbn; try done. lia. Qed.

Lemma update_wf s i f ms :
  WF s → update_first i f (messages s) = Some ms → (∀ m, id m = i → id (f m) = i) →
  (∀ m, check_body (content m) = Ok tt → check_body (content (f m)) = Ok tt) →
  WF (mkSession (session_id s) ms (summaries s) (next_ordinal s)).
Proof.
  intros Hw Hu Hf Hb. pose proof Hw as [Hi Hs Hm Hc Hsm Hsc Hn].
  destruct (update_first_wf _ _ _ _ (message_ok (next_ordinal s)) Hu Hf Hm) as [Hids Hok].
  { intros m [H1 H2] Hmi. split; [by apply Hb|]. by rewrite Hf, <- Hmi. }
  apply with_messages_wf; [done|by rewrite Hids|done| |done|done].
  unfold len. rewrite <- (length_fmap id ms), <- (length_fmap id (messages s)). unfold ids in Hids. rewrite Hids. lia.
Qed.

Lemma len_filter_le {A} (f : A → bool) l : len (List.filter f l) ≤ len l.
Proof. induction l as [|a l IH]; cbn; [done|]. destruct (f a); rewrite ?len_cons; lia. Qed.

Lemma Forall_filter {A} (P : A → Prop) (f : A → bool) l : Forall P l → Forall P (List.filter f l).
Proof. induction 1 as [|a l Ha _ IH]; cbn; [done|]. destruct (f a); by repeat constructor. Qed.

Lemma absorb_Ok s sm s' n :
  absorb s sm = Ok (s', n) →
  s' = mkSession (session_id s) (retain sm (messages s)) (summaries s ++ [sm]) (next_ordinal s) ∧
  n = len (messages s) - len (retain sm (messages s)) ∧ check_summary sm = Ok tt ∧ len (summaries s) < MAX_SUMMARIES.
Proof.
  unfold absorb. destruct (check_summary sm) as [[]|] eqn:E; [cbn|done]. destruct (_ <=? _) eqn:El; [done|]. intros [= <- <-].
  split_and!; [done..|lia].
Qed.

Lemma absorb_wf s sm s' n : WF s → absorb s sm = Ok (s', n) → WF s'.
Proof.
  intros Hw (-> & _ & Hsm & Hl)%absorb_Ok. pose proof Hw as [Hi Hs Hm Hc Hsms Hsc Hn].
  apply with_messages_wf; [done|by apply ids_filter_sorted|by apply Forall_filter|apply len_filter_le| |].
  - apply Forall_app. split; [done|]. by constructor.
  - rewrite len_app, len_cons, len_nil. lia.
Qed.

Lemma step_wf s o :
  WF s → let '(s', i) := step s o in
  WF s' ∧ match i with Some i => i = next_ordinal s ∧ next_ordinal s' = i + 1 | None => next_ordinal s' = next_ordinal s end.
Proof.
  intros Hw. destruct o as [r c at_|i|i r c at_ p|i|sm|]; cbn.
  - destruct (append s r c at_) as [[s' i]|] eqn:E; [|done]. by destruct (append_wf _ _ _ _ _ _ Hw E) as (? & ? & ? & _).
  - unfold pin. destruct (update_first _ _ _) as [ms|] eqn:E; [|done]. split; [|done]. by eapply update_wf.
  - unfold replace. destruct (check_body c) as [[]|] eqn:Eb; [cbn|done].
    destruct (update_first _ _ _) as [ms|] eqn:E; [|done]. split; [|done]. by eapply update_wf.
  - unfold remove. destruct (remove_first i (messages s)) as [[m ms]|] eqn:E; [|done]. split; [|done]. cbn.
    apply remove_first_Some in E as (a & b & Ha & -> & _). pose proof Hw as [Hi Hs Hm Hc Hsms Hsc Hn].
    rewrite Ha in Hs, Hm. unfold ids in *. rewrite fmap_app in Hs. apply Forall_app in Hm as [H1 [_ H2]%Forall_cons].
    apply with_messages_wf; [done| | | |done|done].
    + unfold ids. rewrite fmap_app. by eapply sorted_remove.
    + by apply Forall_app.
    + rewrite Ha, !len_app, len_cons. lia.
  - destruct (absorb s sm) as [[s' n]|] eqn:E; [|done]. split; [by eapply absorb_wf|]. by apply absorb_Ok in E as [-> _].
  - rewrite decode_written by done. by split.
Qed.

Lemma run_wf s os s' given :
  WF s → run s os = (s', given) →
  WF s' ∧ next_ordinal s ≤ next_ordinal s' ∧ StronglySorted Z.lt given ∧
  Forall (λ i, next_ordinal s ≤ i < next_ordinal s') given.
Proof.
  revert s given. induction os as [|o os IH]; intros s given Hw; cbn.
  { intros [= <- <-]. split_and!; [done|lia|constructor..]. }
  pose proof (step_wf s o Hw) as Hst. destruct (step s o) as [s1 i]. destruct Hst as [Hw1 Hi].
  destruct (run s1 os) as [s2 l] eqn:E. intros [= <- <-]. destruct (IH s1 l Hw1 E) as (H1 & H2 & H3 & H4).
  destruct i as [i|].
  - destruct Hi as [-> Hi]. split_and!; [done|lia| |].
    + constructor; [done|]. eapply Forall_impl; [exact H4|]. intros x Hx. cbn in *. lia.
    + constructor; [lia|]. eapply Forall_impl; [exact H4|]. intros x Hx. cbn in *. lia.
  - rewrite Hi in *. by split_and!.
Qed.

(** Sessions keep their invariant: whatever document a session was decoded from
    and whatever operations follow, refused ones included, its identifiers increase,
    its bodies, counts and summaries are within the bounds, writing it out and
    decoding it gives the same session, and every identifier assigned is larger than
    all that were ever assigned before, in the document or by earlier operations,
    also when their messages were removed. *)
Theorem session_invariant (raw s0 s : Session) (os : list Op) (given : list Z) :
  raw_range raw → decode_session raw = Some s0 → run s0 os = (s, given) →
  WF s ∧ decode_session s = Some s ∧
  StronglySorted Z.lt given ∧
  (∀ i m, i ∈ given → m ∈ messages s0 → id m < i) ∧
  (∀ r c at_ s' i, append s r c at_ = Ok (s', i) → ∀ j, j ∈ given ++ ids (messages s0) ++ ids (messages s) → j < i).
Proof.
  intros Hr Hd Hrun. pose proof (decode_sound _ _ Hr Hd) as Hw0. destruct (run_wf _ _ _ _ Hw0 Hrun) as (Hw & Hle & Hs & Hg).
  assert (Hold : ∀ sx m n, WF sx → m ∈ messages sx → next_ordinal sx ≤ n → n < u64_max → id m < n).
  { intros sx m n Hwx Hm Hn Hlt. destruct Hwx as [_ _ Hms _ _ _ _]. eapply (proj1 (Forall_forall _ _)) in Hms as [_ [_ Hx]]; [|exact Hm]. lia. }
  rewrite Forall_forall in Hg. pose proof (wf_next _ Hw) as Hmax. split_and!; [done|by apply decode_written|done| |].
  - intros i m Hi Hm. specialize (Hg i Hi). eapply Hold; [exact Hw0|done|lia|lia].
  - intros r c at_ s' i Ha j Hj. destruct (append_wf _ _ _ _ _ _ Hw Ha) as (Hw' & -> & Hn' & _).
    pose proof (wf_next _ Hw') as Hmax'. apply elem_of_app in Hj as [Hj|Hj]; [specialize (Hg j Hj); lia|].
    apply elem_of_app in Hj as [(m & -> & Hm)%list_elem_of_fmap|(m & -> & Hm)%list_elem_of_fmap].
    + eapply Hold; [exact Hw0|done|lia|lia].
    + eapply Hold; [exact Hw|done|lia|lia].
Qed.

(** ** Examples *)

Definition stored_session : Session :=
  mkSession (chars "s") [mkMessage 3 User (chars "hi") 10 false; mkMessage 7 Assistant (chars "hello") 11 false]
    [mkSummary 0 2 (chars "greeting") 9] 4.

Definition some_ops : list Op :=
  [Append Tool (chars "out") 12; Append User [] 13; Remove 8; Append User (chars "next") 14; Absorb (mkSummary 3 7 (chars "talk") 15); Reload].

Lemma session_invariant_witness :
  (run (default stored_session (decode_session stored_session)) some_ops).2 = [8; 9] ∧
  let s0 := default stored_session (decode_session stored_session) in
  let '(s, given) := run s0 some_ops in
  WF s ∧ decode_session s = Some s ∧ StronglySorted Z.lt given ∧
  (∀ i m, i ∈ given → m ∈ messages s0 → id m < i) ∧
  (∀ r c at_ s' i, append s r c at_ = Ok (s', i) → ∀ j, j ∈ given ++ ids (messages s0) ++ ids (messages s) → j < i).
Proof.
  split; [vm_compute; reflexivity|]. cbv zeta.
  destruct (run (default stored_session (decode_session stored_session)) some_ops) as [s given] eqn:E.
  refine (session_invariant stored_session _ s some_ops given _ _ E).
  - split; [split; [vm_compute; discriminate|vm_compute; discriminate]|].
    repeat constructor; vm_compute; discriminate.
  - vm_compute. reflexivity.
Defined.

End Memory.
