(* ===== verification/MemoryBudget.v ===== *)
(** * Token budgets

    Models [crates/claw-memory/src/budget.rs]: counting tokens, the allowance of one
    model call, and the rules that decide which messages and summaries fit in it.
    A counter is a class: [TokenCounter] is a port that hosts implement. *)

From stdpp Require Import sorting.
From S2P Require Import Prelude Utf8 Text MemorySession.

Module Budget.
Import Memory.

Inductive BudgetError :=
| EmptyWindow
| ReservationTooLarge
| InvalidDensity
| AnchorsExceedBudget
| InconsistentMessages.

(** ** Counting *)

(** [TokenCounter]; results are [usize]. *)
Class TokenCounter := {
  count_text : str → Z;
  count_message : Message → Z;
  count_summary : Summary → Z;
  framing_overhead : Z;
  count_text_range t : 0 ≤ count_text t;
  count_message_range m : 0 ≤ count_message m;
  count_summary_range s : 0 ≤ count_summary s;
  framing_range : 0 ≤ framing_overhead;
}.

(** The provided methods of the trait. *)
Definition default_count_message (count : str → Z) (framing : Z) (m : Message) : Z :=
  sat_add u64_max (sat_add u64_max (count (content m)) (count (role_str (role m)))) framing.

Definition default_count_summary (count : str → Z) (framing : Z) (s : Summary) : Z :=
  sat_add u64_max (count (text s)) framing.

Record HeuristicTokenCounter := mkHeuristic { characters_per_token : Z; h_framing : Z }.

Definition heuristic_default : HeuristicTokenCounter := mkHeuristic 4 4.

Definition heuristic_new (density framing : Z) : result BudgetError HeuristicTokenCounter :=
  if density =? 0 then Err InvalidDensity else Ok (mkHeuristic density framing).

(** [usize::div_ceil] *)
Definition div_ceil (a b : Z) : Z := if a mod b =? 0 then a / b else a / b + 1.

Definition heuristic_count_text (h : HeuristicTokenCounter) (t : str) : Z :=
  if bool_decide (t = []) then 0 else div_ceil (len t) (characters_per_token h).

Lemma heuristic_count_nonneg h t : 0 < characters_per_token h → 0 ≤ heuristic_count_text h t.
Proof.
  intros Hd. unfold heuristic_count_text, div_ceil. pose proof (len_nonneg t). pose proof (Z.div_pos (len t) _ (len_nonneg t) Hd).
  repeat case_match; lia.
Qed.

(** The default counter: four characters a token, four tokens of framing. *)
#[refine] Instance heuristic_counter : TokenCounter := {|
  count_text := heuristic_count_text heuristic_default;
  count_message := default_count_message (heuristic_count_text heuristic_default) (h_framing heuristic_default);
  count_summary := default_count_summary (heuristic_count_text heuristic_default) (h_framing heuristic_default);
  framing_overhead := h_framing heuristic_default;
|}.
Proof.
  - intros t. by apply heuristic_count_nonneg.
  - intros m. unfold default_count_message, sat_add.
    pose proof (heuristic_count_nonneg heuristic_default (content m) ltac:(done)).
    pose proof (heuristic_count_nonneg heuristic_default (role_str (role m)) ltac:(done)). cbn. unfold u64_max. lia.
  - intros sm. unfold default_count_summary, sat_add.
    pose proof (heuristic_count_nonneg heuristic_default (text sm) ltac:(done)). cbn. unfold u64_max. lia.
  - done.
Defined.

(** ** The allowance *)

Record TokenBudget := mkBudget { context_window : Z; reserved_for_output : Z }.

Definition budget_new (window reserved : Z) : result BudgetError TokenBudget :=
  if window =? 0 then Err EmptyWindow
  else if window <=? reserved then Err ReservationTooLarge
  else Ok (mkBudget window reserved).

Definition available (b : TokenBudget) : Z := context_window b - reserved_for_output b.

Inductive Admission :=
| Anchor
| Recent
| OverBudget
| BehindTruncation
| OrphanedToolResult.

#[export] Instance Admission_eq_dec : EqDecision Admission.
Proof. solve_decision. Defined.

Record TruncationPlan := mkPlan {
  admitted : list (Z * Admission);
  dropped : list (Z * Admission);
  plan_summaries : nat;
  used_tokens : Z;
}.

(** [is_sorted_by_key] and [sort_unstable_by_key] on identifiers: the sort may order
    entries of one identifier in any way. *)
Definition by_id (x y : Z * Admission) : Prop := x.1 ≤ y.1.

#[export] Instance by_id_dec : RelDecision by_id.
Proof. intros x y. unfold by_id. apply _. Defined.

Fixpoint is_sorted_by_id (l : list (Z * Admission)) : bool :=
  match l with
  | x :: ((y :: _) as rest) => bool_decide (by_id x y) && is_sorted_by_id rest
  | _ => true
  end.

Definition sort_by_id (l : list (Z * Admission)) : list (Z * Admission) :=
  if is_sorted_by_id l then l else merge_sort by_id l.

Section Planning.
Context `{TokenCounter}.

Definition anchors_cost (ms : list Message) : Z :=
  foldl (λ used m, sat_add u64_max used (count_message m)) 0 (List.filter is_anchor ms).

(** The summaries, newest first. *)
Fixpoint summaries_loop (allowance : Z) (newest : list Summary) (used : Z) (n : nat) : Z * nat :=
  match newest with
  | [] => (used, n)
  | s :: newest =>
      let cost := count_summary s in
      if allowance <? sat_add u64_max used cost then (used, n)
      else summaries_loop allowance newest (wrap_add u64_max used cost) (S n)
  end.

(** The messages, newest first: the tokens used, the window and the messages dropped,
    in the order they are pushed. *)
Fixpoint window_loop (allowance : Z) (newest : list Message) (used : Z) (truncated : bool)
    (window : list Message) (gone : list (Z * Admission)) : Z * list Message * list (Z * Admission) :=
  match newest with
  | [] => (used, window, gone)
  | m :: newest =>
      if is_anchor m then window_loop allowance newest used truncated window gone
      else if truncated then window_loop allowance newest used truncated window (gone ++ [(id m, BehindTruncation)])
      else
        let cost := count_message m in
        if allowance <? sat_add u64_max used cost then
          window_loop allowance newest used true window (gone ++ [(id m, OverBudget)])
        else window_loop allowance newest (wrap_add u64_max used cost) truncated (window ++ [m]) gone
  end.

(** The tool results a window opens on are dropped. *)
Fixpoint orphan_loop (window : list Message) (used : Z) (gone : list (Z * Admission))
  : list Message * Z * list (Z * Admission) :=
  match window with
  | m :: rest =>
      if bool_decide (role m = Tool) then
        orphan_loop rest (sat_sub used (count_message m)) (gone ++ [(id m, OrphanedToolResult)])
      else (window, used, gone)
  | [] => (window, used, gone)
  end.

Definition plan_truncation (ms : list Message) (sms : list Summary) (b : TokenBudget) : result BudgetError TruncationPlan :=
  let allowance := available b in
  let used := anchors_cost ms in
  let anchors := (λ m, (id m, Anchor)) <$> List.filter is_anchor ms in
  if allowance <? used then Err AnchorsExceedBudget
  else
    let '(used, n) := summaries_loop allowance (List.rev sms) used 0 in
    let '(used, window, gone) := window_loop allowance (List.rev ms) used false [] [] in
    let '(window, used, gone) := orphan_loop (List.rev window) used (List.rev gone) in
    Ok (mkPlan (sort_by_id (anchors ++ ((λ m, (id m, Recent)) <$> window))) (sort_by_id gone) n used).

(** ** What is planned *)

Definition cost (ms : list Message) : Z := foldr (λ m n, count_message m + n) 0 ms.
Definition summary_cost (sms : list Summary) : Z := foldr (λ s n, count_summary s + n) 0 sms.
Definition ordinary (ms : list Message) : list Message := List.filter (λ m, negb (is_anchor m)) ms.

Lemma cost_cons m ms : cost (m :: ms) = count_message m + cost ms.
Proof. done. Qed.

Lemma summary_cost_cons s sms : summary_cost (s :: sms) = count_summary s + summary_cost sms.
Proof. done. Qed.

Lemma cost_app ms ms' : cost (ms ++ ms') = cost ms + cost ms'.
Proof. induction ms as [|m ms IH]; [done|]. rewrite <- app_comm_cons, !cost_cons. lia. Qed.

Lemma cost_nonneg ms : 0 ≤ cost ms.
Proof. induction ms as [|m ms IH]; [done|]. rewrite cost_cons. pose proof (count_message_range m). lia. Qed.

Lemma cost_rev ms : cost (List.rev ms) = cost ms.
Proof. induction ms as [|m ms IH]; [done|]. cbn [List.rev]. rewrite cost_app, !cost_cons, IH. cbn. lia. Qed.

Lemma summary_cost_app sms sms' : summary_cost (sms ++ sms') = summary_cost sms + summary_cost sms'.
Proof. induction sms as [|s sms IH]; [done|]. rewrite <- app_comm_cons, !summary_cost_cons. lia. Qed.

Lemma summary_cost_rev sms : summary_cost (List.rev sms) = summary_cost sms.
Proof. induction sms as [|s sms IH]; [done|]. cbn [List.rev]. rewrite summary_cost_app, !summary_cost_cons, IH. cbn. lia. Qed.

Lemma sat_sum ms u :
  0 ≤ u ≤ u64_max → foldl (λ used m, sat_add u64_max used (count_message m)) u ms = Z.min (u + cost ms) u64_max.
Proof.
  revert u. induction ms as [|m ms IH]; intros u Hu; cbn [foldl]; [cbn; lia|].
  pose proof (count_message_range m). pose proof (cost_nonneg ms). rewrite IH, cost_cons by (unfold sat_add; lia).
  unfold sat_add. lia.
Qed.

Lemma anchors_cost_exact ms allowance :
  allowance < u64_max →
  anchors_cost ms = Z.min (cost (List.filter is_anchor ms)) u64_max ∧
  (anchors_cost ms ≤ allowance → anchors_cost ms = cost (List.filter is_anchor ms)).
Proof. intros Ha. unfold anchors_cost. rewrite sat_sum by (unfold u64_max; lia). split; lia. Qed.

(** Within an allowance below the largest integer, a checked addition is exact. *)
Lemma within allowance u c :
  0 ≤ u ≤ allowance → allowance < u64_max → 0 ≤ c →
  (allowance <? sat_add u64_max u c) = (allowance <? u + c) ∧ (u + c ≤ allowance → wrap_add u64_max u c = u + c).
Proof.
  intros Hu Ha Hc. split.
  - unfold sat_add. apply eq_true_iff_eq. rewrite !Z.ltb_lt. lia.
  - intros Hle. unfold wrap_add. apply Z.mod_small. lia.
Qed.

(** The summaries taken are the newest that fit, and the next one would not. *)
Lemma summaries_loop_spec allowance newest u n :
  0 ≤ u ≤ allowance → allowance < u64_max →
  ∃ taken rest, newest = taken ++ rest ∧
    summaries_loop allowance newest u n = (u + summary_cost taken, (n + length taken)%nat) ∧
    u + summary_cost taken ≤ allowance ∧
    (∀ s rest', rest = s :: rest' → allowance < u + summary_cost taken + count_summary s).
Proof.
  intros Hu Ha. revert u n Hu. induction newest as [|s newest IH]; intros u n Hu; cbn [summaries_loop].
  { exists [], []. cbn. split_and!; [done|f_equal; lia|lia|done]. }
  pose proof (count_summary_range s) as Hs. destruct (within allowance u (count_summary s)) as [-> Hw]; [lia..|].
  destruct (allowance <? u + count_summary s) eqn:E; boolify.
  - exists [], (s :: newest). cbn. split_and!; [done|f_equal; lia|lia|]. intros ? ? [= <- <-]. lia.
  - rewrite Hw by lia. destruct (IH (u + count_summary s) (S n)) as (taken & rest & -> & -> & Hle & Hmax); [lia|].
    exists (s :: taken), rest. rewrite summary_cost_cons. cbn [app length].
    split_and!; [done|f_equal; lia|lia|]. intros s' rest' Hr. specialize (Hmax s' rest' Hr). lia.
Qed.

Definition entry (why : Admission) (m : Message) : Z * Admission := (id m, why).

Lemma window_loop_truncated allowance newest u w gone :
  window_loop allowance newest u true w gone = (u, w, gone ++ (entry BehindTruncation <$> ordinary newest)).
Proof.
  revert gone. induction newest as [|m newest IH]; intros gone; cbn; [by rewrite app_nil_r|].
  destruct (is_anchor m); cbn; [apply IH|]. by rewrite IH, <- app_assoc.
Qed.

(** The entries of the messages that did not fit, newest first. *)
Definition too_old (newest : list Message) : list (Z * Admission) :=
  match newest with
  | [] => []
  | m :: newest => entry OverBudget m :: (entry BehindTruncation <$> newest)
  end.

Lemma window_loop_spec allowance newest u w :
  0 ≤ u ≤ allowance → allowance < u64_max →
  ∃ taken rest, ordinary newest = taken ++ rest ∧
    window_loop allowance newest u false w [] = (u + cost taken, w ++ taken, too_old rest) ∧
    u + cost taken ≤ allowance ∧
    (∀ m rest', rest = m :: rest' → allowance < u + cost taken + count_message m).
Proof.
  intros Hu Ha. revert u w Hu. induction newest as [|m newest IH]; intros u w Hu; cbn [window_loop ordinary List.filter].
  { exists [], []. cbn. rewrite app_nil_r. split_and!; [done|repeat f_equal; lia|lia|done]. }
  destruct (is_anchor m); cbn [negb]; [by apply IH|]. fold (ordinary newest).
  pose proof (count_message_range m) as Hm. destruct (within allowance u (count_message m)) as [-> Hw]; [lia..|].
  destruct (allowance <? u + count_message m) eqn:E; boolify.
  - exists [], (m :: ordinary newest). rewrite window_loop_truncated, app_nil_r. cbn [cost foldr app].
    split_and!; [done|repeat f_equal; lia|lia|]. intros ? ? [= <- <-]. lia.
  - rewrite Hw by lia. destruct (IH (u + count_message m) (w ++ [m])) as (taken & rest & -> & -> & Hle & Hmax); [lia|].
    exists (m :: taken), rest. rewrite cost_cons, <- app_assoc. split_and!; [done|by rewrite Z.add_assoc|lia|].
    intros m' rest' Hr. specialize (Hmax m' rest' Hr). lia.
Qed.

Lemma orphan_loop_spec window u gone :
  cost window ≤ u →
  ∃ orphans kept, window = orphans ++ kept ∧ Forall (λ m, role m = Tool) orphans ∧
    (∀ m rest, kept = m :: rest → role m ≠ Tool) ∧
    orphan_loop window u gone = (kept, u - cost orphans, gone ++ (entry OrphanedToolResult <$> orphans)).
Proof.
  revert u gone. induction window as [|m window IH]; intros u gone Hu; cbn [orphan_loop].
  { exists [], []. cbn. rewrite app_nil_r, Z.sub_0_r. split_and!; [done|constructor|done|done]. }
  rewrite cost_cons in Hu. pose proof (cost_nonneg window). pose proof (count_message_range m).
  case_bool_decide as Ht.
  - destruct (IH (sat_sub u (count_message m)) (gone ++ [(id m, OrphanedToolResult)])) as (o & k & -> & Ho & Hk & ->);
      [unfold sat_sub; lia|]. exists (m :: o), k. rewrite cost_cons. pose proof (cost_nonneg o).
    split_and!; [done|by constructor|done|]. rewrite <- app_assoc. cbn. f_equal. f_equal. unfold sat_sub. lia.
  - exists [], (m :: window). cbn [fmap list_fmap]. rewrite app_nil_r. change (cost []) with 0. rewrite Z.sub_0_r.
    split_and!; [done|constructor| |done]. by intros ? ? [= <- <-].
Qed.

(** *** Order *)

Lemma is_sorted_by_id_spec l : is_sorted_by_id l = true → Sorted by_id l.
Proof.
  induction l as [|x [|y l] IH]; [constructor|by repeat constructor|].
  change (is_sorted_by_id (x :: y :: l)) with (bool_decide (by_id x y) && is_sorted_by_id (y :: l)).
  intros [Hxy Hs]%andb_true_iff. apply bool_decide_eq_true in Hxy. constructor; [by apply IH|by constructor].
Qed.

#[local] Instance by_id_trans : Transitive by_id.
Proof. unfold by_id. intros x y z. lia. Qed.

#[local] Instance by_id_total : Total by_id.
Proof. unfold by_id. intros x y. lia. Qed.

Lemma sort_by_id_spec l : StronglySorted by_id (sort_by_id l) ∧ sort_by_id l ≡ₚ l.
Proof.
  unfold sort_by_id. destruct (is_sorted_by_id l) eqn:E.
  - split; [|done]. apply Sorted_StronglySorted; [apply _|by apply is_sorted_by_id_spec].
  - split; [apply StronglySorted_merge_sort; apply _|apply merge_sort_Permutation].
Qed.

(** A list in which every identifier occurs once has one sorted order. *)
Lemma sort_by_id_unique l l' :
  l ≡ₚ l' → StronglySorted Z.lt (l'.*1) → sort_by_id l = l'.
Proof.
  intros Hp Hs. destruct (sort_by_id_spec l) as [H1 H2]. apply (StronglySorted_unique_strong by_id).
  - intros x y Hx Hy Hxy Hyx. rewrite H2, Hp in Hx. assert (x.1 = y.1) as Heq by (unfold by_id in *; lia). clear Hp H1 H2 Hxy Hyx.
    induction l' as [|z l' IH]; [by apply not_elem_of_nil in Hx|]. cbn in Hs. apply StronglySorted_inv in Hs as [Hs Hz].
    assert (Hlt : ∀ t, t ∈ l' → z.1 < t.1).
    { intros t Ht. eapply (proj1 (Forall_forall _ _)) in Hz; [exact Hz|]. apply list_elem_of_fmap. by exists t. }
    apply elem_of_cons in Hx as [->|Hx], Hy as [->|Hy]; [done|..|by apply IH];
      [specialize (Hlt y Hy)|specialize (Hlt x Hx)]; lia.
  - done.
  - clear H1 H2 Hp. induction l' as [|z l' IH]; [constructor|]. cbn in Hs. apply StronglySorted_inv in Hs as [Hs Hz].
    constructor; [by apply IH|]. rewrite Forall_fmap in Hz. eapply Forall_impl; [exact Hz|]. intros t. unfold by_id. cbn. lia.
  - by rewrite H2.
Qed.

(** *** The contract *)

Definition anchors (ms : list Message) : list Message := List.filter is_anchor ms.

(** A message is kept when it is an anchor or in the window. *)
Definition keeps (window : list Message) (m : Message) : bool := is_anchor m || bool_decide (m ∈ window).
Definition kept_entry (m : Message) : Z * Admission := entry (if is_anchor m then Anchor else Recent) m.

(** The entries of the messages that did not fit, oldest first. *)
Definition too_old_entries (old : list Message) : list (Z * Admission) := List.rev (too_old (List.rev old)).

Record Planned (ms : list Message) (sms : list Summary) (allowance : Z) (p : TruncationPlan)
    (old orphans window : list Message) : Prop := {
  (* the ordinary messages are those too old, the orphans and the window, in that order *)
  planned_split : ordinary ms = old ++ orphans ++ window;
  planned_orphans : Forall (λ m, role m = Tool) orphans;
  planned_opening : ∀ m rest, window = m :: rest → role m ≠ Tool;
  (* what is reported *)
  planned_admitted : admitted p = kept_entry <$> List.filter (keeps window) ms;
  planned_dropped : dropped p = too_old_entries old ++ (entry OrphanedToolResult <$> orphans);
  (* the cost is what is admitted, and fits *)
  planned_summaries : (plan_summaries p ≤ length sms)%nat;
  planned_used : used_tokens p =
    cost (anchors ms) + summary_cost (drop (length sms - plan_summaries p) sms) + cost window;
  planned_fits : used_tokens p + cost orphans ≤ allowance;
  (* nothing more would have fitted *)
  planned_summary_max : ∀ s older, take (length sms - plan_summaries p) sms = older ++ [s] →
    allowance < cost (anchors ms) + summary_cost (drop (length sms - plan_summaries p) sms) + count_summary s;
  planned_window_max : ∀ m older, old = older ++ [m] → allowance < used_tokens p + cost orphans + count_message m;
}.

Lemma ordinary_rev ms : ordinary (List.rev ms) = List.rev (ordinary ms).
Proof. unfold ordinary. by rewrite filter_rev. Qed.

Lemma filter_split ms : List.filter is_anchor ms ++ ordinary ms ≡ₚ ms.
Proof.
  induction ms as [|m ms IH]; [done|]. cbn. destruct (is_anchor m); cbn; [by rewrite IH|].
  by rewrite <- Permutation_middle, IH.
Qed.

Lemma sorted_ids_inj ms m m' : StronglySorted Z.lt (ids ms) → m ∈ ms → m' ∈ ms → id m = id m' → m = m'.
Proof.
  induction ms as [|x ms IH]; [by intros _ ?%not_elem_of_nil|]. cbn. intros [Hs Hx]%StronglySorted_inv Hm Hm' He.
  rewrite Forall_fmap, Forall_forall in Hx. apply elem_of_cons in Hm as [->|Hm], Hm' as [->|Hm']; [done|..|by apply IH].
  - specialize (Hx m' Hm'). cbn in Hx. lia.
  - specialize (Hx m Hm). cbn in Hx. lia.
Qed.

Lemma ordinary_nodup ms : StronglySorted Z.lt (ids ms) → NoDup (ordinary ms).
Proof.
  intros Hs. apply (ids_filter_sorted (λ m, negb (is_anchor m))) in Hs. fold (ordinary ms) in Hs. revert Hs.
  induction (ordinary ms) as [|m l IH]; [constructor|]. cbn. intros [Hs Hm]%StronglySorted_inv. constructor; [|by apply IH].
  intros Hin. rewrite Forall_fmap, Forall_forall in Hm. specialize (Hm m Hin). cbn in Hm. lia.
Qed.

Lemma filter_none {A} (f : A → bool) l : (∀ x, x ∈ l → f x = false) → List.filter f l = [].
Proof. induction l as [|x l IH]; [done|]. intros H0. cbn. rewrite (H0 x) by left. apply IH. intros y Hy. apply H0. by right. Qed.

Lemma filter_all {A} (f : A → bool) l : (∀ x, x ∈ l → f x = true) → List.filter f l = l.
Proof.
  induction l as [|x l IH]; [done|]. intros H0. cbn. rewrite (H0 x) by left. f_equal. apply IH. intros y Hy. apply H0. by right.
Qed.

(** Keeping a part of the ordinary messages, in the order of the session. *)
Lemma keeps_perm ms front window :
  ordinary ms = front ++ window → NoDup (ordinary ms) → anchors ms ++ window ≡ₚ List.filter (keeps window) ms.
Proof.
  intros Ho Hnd. rewrite Ho in Hnd. apply NoDup_app in Hnd as (_ & Hdis & _).
  transitivity (anchors ms ++ List.filter (λ m, bool_decide (m ∈ window)) (ordinary ms)).
  - f_equiv. rewrite Ho, List.filter_app, (filter_none _ front), filter_all; [done|..].
    + intros m Hm. by apply bool_decide_eq_true.
    + intros m Hm. apply bool_decide_eq_false. by apply Hdis.
  - unfold anchors, ordinary. clear. induction ms as [|m ms IH]; [done|]. unfold keeps in *. cbn. destruct (is_anchor m); cbn.
    + by rewrite IH.
    + case_bool_decide; [|done]. by rewrite <- Permutation_middle, IH.
Qed.

Lemma drop_newest {A} (taken rest l : list A) :
  List.rev l = taken ++ rest →
  drop (length l - length taken) l = List.rev taken ∧ take (length l - length taken) l = List.rev rest ∧ (length taken ≤ length l)%nat.
Proof.
  intros Hl. assert (l = List.rev rest ++ List.rev taken) as -> by (by rewrite <- rev_app_distr, <- Hl, rev_involutive).
  rewrite length_app, !length_rev. replace (length rest + length taken - length taken)%nat with (length (List.rev rest))
    by (rewrite length_rev; lia). rewrite drop_app_length, take_app_length. split_and!; [done|done|lia].
Qed.

Lemma admitted_sorted ms front window :
  StronglySorted Z.lt (ids ms) → ordinary ms = front ++ window →
  sort_by_id ((entry Anchor <$> anchors ms) ++ (entry Recent <$> window)) = kept_entry <$> List.filter (keeps window) ms.
Proof.
  intros Hs Ho. apply sort_by_id_unique.
  - rewrite <- (keeps_perm ms front window Ho (ordinary_nodup ms Hs)), fmap_app. f_equiv.
    + apply reflexive_eq, list_fmap_ext. intros i m Hm. apply list_elem_of_lookup_2, list_elem_of_In, filter_In in Hm as [_ Hm].
      unfold kept_entry. by rewrite Hm.
    + apply reflexive_eq, list_fmap_ext. intros i m Hm. apply list_elem_of_lookup_2 in Hm.
      assert (m ∈ ordinary ms) as Hin by (rewrite Ho; apply elem_of_app; by right).
      apply list_elem_of_In, filter_In in Hin as [_ Hin%negb_true_iff]. unfold kept_entry. by rewrite Hin.
  - rewrite <- list_fmap_compose. by apply (ids_filter_sorted (keeps window)) in Hs.
Qed.

Lemma fmap_rev_list {A B} (f : A → B) l : f <$> List.rev l = List.rev (f <$> l).
Proof. induction l as [|x l IH]; [done|]. cbn. by rewrite fmap_app, IH. Qed.

Lemma too_old_ids l : (too_old l).*1 = ids l.
Proof. destruct l as [|m l]; [done|]. cbn. f_equal. by rewrite <- list_fmap_compose. Qed.

Lemma dropped_sorted ms old orphans window :
  StronglySorted Z.lt (ids ms) → ordinary ms = old ++ orphans ++ window →
  let gone := too_old_entries old ++ (entry OrphanedToolResult <$> orphans) in sort_by_id gone = gone.
Proof.
  intros Hs Ho. cbn. apply sort_by_id_unique; [done|]. apply (ids_filter_sorted (λ m, negb (is_anchor m))) in Hs.
  fold (ordinary ms) in Hs. rewrite Ho, app_assoc in Hs. unfold ids in Hs. rewrite fmap_app in Hs.
  rewrite fmap_app, <- list_fmap_compose. unfold too_old_entries.
  replace ((List.rev (too_old (List.rev old))).*1) with (id <$> old).
  - change (fst ∘ entry OrphanedToolResult) with id. rewrite <- fmap_app. by eapply StronglySorted_app_1_l.
  - rewrite fmap_rev_list, too_old_ids. unfold ids. by rewrite <- fmap_rev_list, rev_involutive.
Qed.

Lemma plan_spec ms sms b :
  StronglySorted Z.lt (ids ms) → 0 ≤ available b < u64_max →
  match plan_truncation ms sms b with
  | Err e => e = AnchorsExceedBudget ∧ available b < cost (anchors ms)
  | Ok p => ∃ old orphans window, Planned ms sms (available b) p old orphans window
  end.
Proof.
  intros Hs Ha. unfold plan_truncation. destruct (anchors_cost_exact ms (available b)) as [Hc Hex]; [lia|].
  destruct (available b <? anchors_cost ms) eqn:E; boolify; [split; [done|unfold anchors; lia]|].
  specialize (Hex E). rewrite Hex in *. clear Hc. pose proof (cost_nonneg (anchors ms)) as Hnn. fold (anchors ms) in *.
  destruct (summaries_loop_spec (available b) (List.rev sms) (cost (anchors ms)) 0) as (st & sr & Hsr & -> & Hsf & Hsm); [lia..|].
  assert (0 ≤ summary_cost st) as Hsn.
  { clear. induction st as [|x st IH]; [done|]. rewrite summary_cost_cons. pose proof (count_summary_range x). lia. }
  destruct (window_loop_spec (available b) (List.rev ms) (cost (anchors ms) + summary_cost st) []) as (w & r & Hwr & -> & Hwf & Hwm);
    [lia..|]. cbn [app].
  destruct (orphan_loop_spec (List.rev w) (cost (anchors ms) + summary_cost st + cost w) (List.rev (too_old r)))
    as (orphans & window & Hw & Ho & Hop & ->); [rewrite cost_rev; lia|].
  destruct (drop_newest st sr sms Hsr) as (Hd & Ht & Hle).
  assert (cost w = cost orphans + cost window) as Hcw by (by rewrite <- (cost_rev w), Hw, cost_app).
  assert (Hsplit : ordinary ms = List.rev r ++ orphans ++ window).
  { by rewrite <- (rev_involutive (ordinary ms)), <- ordinary_rev, Hwr, rev_app_distr, Hw. }
  exists (List.rev r), orphans, window. constructor; cbn [admitted dropped plan_summaries used_tokens Nat.add].
  - done.
  - done.
  - done.
  - rewrite <- (admitted_sorted ms (List.rev r ++ orphans) window); [done..|]. by rewrite <- app_assoc.
  - rewrite <- (dropped_sorted ms (List.rev r) orphans window) by done. unfold too_old_entries. by rewrite rev_involutive.
  - done.
  - rewrite Hd, summary_cost_rev. lia.
  - lia.
  - rewrite Hd, Ht, summary_cost_rev. intros s older Hold. apply (Hsm s (List.rev older)).
    by rewrite <- (rev_involutive sr), Hold, rev_app_distr.
  - intros m older Hold. replace (_ + cost orphans) with (cost (anchors ms) + summary_cost st + cost w) by lia.
    apply (Hwm m (List.rev older)). by rewrite <- (rev_involutive r), Hold, rev_app_distr.
Qed.

End Planning.

End Budget.
