(* ===== verification/MemoryVector.v ===== *)
(** * Embeddings and exact vector search

    Models [crates/claw-memory/src/vector.rs]: validated embeddings over [f32], the
    hashing model and the brute-force index, whose running list of best matches is
    proved to be the head of the whole ranking.

    [f32] is a pattern of 32 bits; arithmetic is that of the Standard Library's
    specification floats with 24 bits of precision, rounding to nearest. A result that
    is not a number has the canonical pattern. Unicode's letter tables are the class
    [CharTables]. *)

From stdpp Require Import sorting.
From Stdlib Require Import Floats.SpecFloat.
From S2P Require Import Prelude Utf8 Text NetAddr Ranking.

Module Vector.
Import Net Ranking.

(** ** [f32] *)

Definition f32 : Type := N.

Definition of_bits (b : f32) : spec_float :=
  let z := Z.of_N b in
  let s := Z.testbit z 31 in
  let e := Z.land (Z.shiftr z 23) 255 in
  let m := Z.land z (2 ^ 23 - 1) in
  if e =? 255 then (if m =? 0 then S754_infinity s else S754_nan)
  else if e =? 0 then
    match m with Zpos p => S754_finite s p (-149) | _ => S754_zero s end
  else match m + 2 ^ 23 with Zpos p => S754_finite s p (e - 150) | _ => S754_zero s end.

Definition with_sign (s : bool) (z : Z) : f32 := Z.to_N (if s then z + 2 ^ 31 else z).

Definition to_bits (f : spec_float) : f32 :=
  match f with
  | S754_zero s => with_sign s 0
  | S754_infinity s => with_sign s (Z.shiftl 255 23)
  | S754_nan => with_sign false (Z.shiftl 255 23 + 2 ^ 22)
  | S754_finite s m e =>
      if Zpos m <? 2 ^ 23 then with_sign s (Zpos m)
      else with_sign s (Z.shiftl (e + 150) 23 + (Zpos m - 2 ^ 23))
  end.

Definition f32_op (f : spec_float → spec_float → spec_float) (a b : f32) : f32 := to_bits (f (of_bits a) (of_bits b)).
Definition f32_add : f32 → f32 → f32 := f32_op (SFadd 24 128).
Definition f32_mul : f32 → f32 → f32 := f32_op (SFmul 24 128).
Definition f32_div : f32 → f32 → f32 := f32_op (SFdiv 24 128).
Definition f32_sqrt (a : f32) : f32 := to_bits (SFsqrt 24 128 (of_bits a)).
Definition f32_of_int (n : Z) : f32 := to_bits (binary_normalize 24 128 n 0 false).

Definition f32_zero : f32 := 0%N.
Definition f32_one : f32 := f32_of_int 1.
Definition f32_minus_one : f32 := f32_of_int (-1).

Definition is_finite (a : f32) : bool := negb (Z.land (Z.shiftr (Z.of_N a) 23) 255 =? 255).
(** [a == 0.0], for either sign. *)
Definition is_zero (a : f32) : bool := match of_bits a with S754_zero _ => true | _ => false end.

(** [Iterator::sum] starts from negative zero. *)
Definition f32_sum (l : list f32) : f32 := foldl f32_add (with_sign true 0) l.

(** [f32::total_cmp]: the patterns as sign and magnitude. *)
Definition order_key (a : f32) : Z := let z := Z.of_N a in if z <? 2 ^ 31 then z else 2 ^ 31 - 1 - z.
Definition total_cmp (a b : f32) : comparison := order_key a ?= order_key b.

(** ** Identifiers and embeddings *)

Definition MAX_DIMENSIONS : Z := 8192.
Definition MAX_RECORD_ID_BYTES : Z := 256.
Definition DEFAULT_INDEX_CAPACITY : Z := 100000.

Inductive VectorError :=
| EmptyEmbedding
| TooManyDimensions
| NonFiniteComponent
| ZeroEmbedding
| DimensionMismatch
| InvalidRecordId
| EmptyCapacity
| IndexFull.

Record Embedding := mkEmbedding { values : list f32; norm : f32 }.

Definition norm_of (vs : list f32) : f32 := f32_sqrt (f32_sum ((λ v, f32_mul v v) <$> vs)).

Definition embedding_new (vs : list f32) : result VectorError Embedding :=
  if bool_decide (vs = []) then Err EmptyEmbedding
  else if MAX_DIMENSIONS <? len vs then Err TooManyDimensions
  else if any (λ v, negb (is_finite v)) vs then Err NonFiniteComponent
  else
    let n := norm_of vs in
    if is_zero n || negb (is_finite n) then Err ZeroEmbedding else Ok (mkEmbedding vs n).

Definition dimensions (e : Embedding) : Z := len (values e).

Definition cosine_similarity (a b : Embedding) : result VectorError f32 :=
  if negb (len (values a) =? len (values b)) then Err DimensionMismatch
  else
    let dot := f32_sum (zip_with f32_mul (values a) (values b)) in
    Ok (f32_div dot (f32_mul (norm a) (norm b))).

Definition record_id_new (value : str) : result VectorError str :=
  if bool_decide (value = []) || (MAX_RECORD_ID_BYTES <? len (as_bytes value)) then Err InvalidRecordId
  else if all (λ c, is_alphanumeric c || (c =? 0x2D) || (c =? 0x5F) || (c =? 0x2E) || (c =? 0x3A)) value then Ok value
  else Err InvalidRecordId.

(** ** The hashing model *)

(** [char::is_alphanumeric] and [str::to_lowercase]. *)
Class CharTables := {
  char_is_alphanumeric : Z → bool;
  to_lowercase : str → str;
}.

Section Hashing.
Context `{CharTables}.

(** The lower-case tokens of a text, in order and with duplicates. *)
Definition tokenize (t : str) : list str :=
  to_lowercase <$> List.filter (λ p, negb (bool_decide (p = []))) (split (λ c, negb (char_is_alphanumeric c)) t).

Definition fnv1a (bs : bytes) : Z :=
  foldl (λ h b, (Z.lxor h (u8 b) * 0x100000001b3) mod 2 ^ 64) 0xcbf29ce484222325 bs.

Definition rotate_left (h : Z) (n : Z) : Z := Z.lor (Z.shiftl h n mod 2 ^ 64) (Z.shiftr h (64 - n)).

Definition hash_token (dims : Z) (vs : list f32) (token : str) : list f32 :=
  let h := fnv1a (as_bytes token) in
  let bucket := Z.to_nat (h mod dims) in
  let sign := if Z.land (rotate_left h 17) 1 =? 0 then f32_one else f32_minus_one in
  alter (λ v, f32_add v sign) bucket vs.

Definition hashing_model_new (dims : Z) : result VectorError Z :=
  if dims =? 0 then Err EmptyEmbedding
  else if MAX_DIMENSIONS <? dims then Err TooManyDimensions
  else Ok dims.

Definition hashing_embed (dims : Z) (t : str) : result VectorError Embedding :=
  let vs := foldl (hash_token dims) (replicate (Z.to_nat dims) f32_zero) (tokenize t) in
  let vs := if all is_zero vs then <[0%nat := f32_one]> vs else vs in
  embedding_new vs.

End Hashing.

(** ** The index *)

Record ScoredMatch := mkMatch { match_id : str; score : f32 }.

Record ExactVectorIndex := mkIndex { index_dimensions : Z; capacity : Z; entries : gmap str Embedding }.

Definition index_with_capacity (dims cap : Z) : result VectorError ExactVectorIndex :=
  if dims =? 0 then Err EmptyEmbedding
  else if MAX_DIMENSIONS <? dims then Err TooManyDimensions
  else if cap =? 0 then Err EmptyCapacity
  else Ok (mkIndex dims cap ∅).

Definition index_new (dims : Z) : result VectorError ExactVectorIndex := index_with_capacity dims DEFAULT_INDEX_CAPACITY.

(** The number of entries of a map. *)
Definition map_len {V} (m : gmap str V) : Z := Z.of_nat (size m).

Definition upsert (ix : ExactVectorIndex) (i : str) (e : Embedding) : result VectorError ExactVectorIndex :=
  if negb (dimensions e =? index_dimensions ix) then Err DimensionMismatch
  else if negb (bool_decide (is_Some (entries ix !! i))) && (capacity ix <=? map_len (entries ix)) then Err IndexFull
  else Ok (mkIndex (index_dimensions ix) (capacity ix) (<[i := e]> (entries ix))).

Definition index_remove (ix : ExactVectorIndex) (i : str) : ExactVectorIndex * bool :=
  (mkIndex (index_dimensions ix) (capacity ix) (delete i (entries ix)), bool_decide (is_Some (entries ix !! i))).

(** A [BTreeMap] is walked in the order of its keys. *)
Definition in_key_order {V} (m : gmap str V) : list (str * V) := sort_by (λ x y, str_cmp x.1 y.1) (map_to_list m).

Definition ranks_before (sc : f32) (i : str) (existing : ScoredMatch) : bool :=
  match total_cmp (score existing) sc with
  | Eq => match str_cmp i (match_id existing) with Lt => true | _ => false end
  | Lt => true
  | Gt => false
  end.

(** Inserted before the first match it ranks before, or at the end. *)
Fixpoint place (sc : f32) (i : str) (best : list ScoredMatch) : list ScoredMatch :=
  match best with
  | [] => [mkMatch i sc]
  | m :: rest => if ranks_before sc i m then mkMatch i sc :: best else m :: place sc i rest
  end.

Fixpoint search_loop (query : Embedding) (limit : nat) (es : list (str * Embedding)) (best : list ScoredMatch)
  : result VectorError (list ScoredMatch) :=
  match es with
  | [] => Ok best
  | (i, e) :: es =>
      sc ← cosine_similarity query e;
      if decide (length best = limit) then
        match list.last best with
        | Some worst =>
            if negb (ranks_before sc i worst) then search_loop query limit es best
            else search_loop query limit es (place sc i (take (length best - 1) best))
        | None => search_loop query limit es (place sc i best)
        end
      else search_loop query limit es (place sc i best)
  end.

Definition search (ix : ExactVectorIndex) (query : Embedding) (limit : nat) : result VectorError (list ScoredMatch) :=
  if negb (dimensions query =? index_dimensions ix) then Err DimensionMismatch
  else if decide (limit = 0%nat) then Ok []
  else search_loop query limit (in_key_order (entries ix)) [].

(** ** The ranking *)

Definition match_cmp (x y : ScoredMatch) : comparison :=
  then_ (total_cmp (score y) (score x)) (str_cmp (match_id x) (match_id y)).

Lemma order_key_inj a b : order_key a = order_key b → a = b.
Proof. unfold order_key. repeat case_match; boolify; lia. Qed.

Lemma total_cmp_eq a b : total_cmp a b = Eq ↔ a = b.
Proof. unfold total_cmp. rewrite Z.compare_eq_iff. split; [apply order_key_inj|by intros ->]. Qed.

#[export] Instance total_compares : Compares total_cmp.
Proof. apply (compares_on order_key), _. Qed.

#[export] Instance match_ranks : Ranks match_cmp.
Proof.
  apply ranks_then.
  - apply compares_flip, (compares_on score), _.
  - apply (compares_on match_id), _.
  - intros [i a] [j b]. cbn. rewrite total_cmp_eq, str_cmp_eq. congruence.
Qed.

Lemma ranks_before_cmp sc i m : ranks_before sc i m = true ↔ match_cmp (mkMatch i sc) m = Lt.
Proof.
  unfold ranks_before, match_cmp, then_. cbn. destruct (total_cmp (score m) sc); [|done..]. by destruct (str_cmp i (match_id m)).
Qed.

(** Placing a match with a new identifier is inserting it. *)
Lemma place_insert sc i best :
  i ∉ (match_id <$> best) → place sc i best = insert_sorted match_cmp (mkMatch i sc) best.
Proof.
  induction best as [|m best IH]; [done|]. cbn. intros [Hne Hni]%not_elem_of_cons. unfold before.
  destruct (ranks_before sc i m) eqn:E.
  - apply ranks_before_cmp in E. by rewrite E.
  - assert (match_cmp (mkMatch i sc) m ≠ Lt) as Hl by (by rewrite <- ranks_before_cmp, E).
    assert (match_cmp (mkMatch i sc) m ≠ Eq) as He by (rewrite (ranks_refl match_cmp); by intros <-).
    destruct (match_cmp (mkMatch i sc) m); [done..|]. by rewrite IH.
Qed.

Lemma insert_at_end {A} (cmp : A → A → comparison) x l : Forall (λ y, before cmp x y = false) l → insert_sorted cmp x l = l ++ [x].
Proof. induction 1 as [|y l Hy _ IH]; cbn; [done|]. by rewrite Hy, IH. Qed.

(** A full list of matches, and one more. *)
Lemma replace_worst x best worst k :
  StronglySorted (le match_cmp) (best ++ [worst]) → S (length best) = k →
  take k (insert_sorted match_cmp x (best ++ [worst])) =
  if before match_cmp x worst then insert_sorted match_cmp x best else best ++ [worst].
Proof.
  intros Hs <-. assert (Hle : ∀ y, y ∈ best → le match_cmp y worst).
  { intros y Hy. eapply StronglySorted_app_1_elem_of; [exact Hs|done|by left]. }
  destruct (before match_cmp x worst) eqn:E.
  - clear Hs Hle. induction best as [|y best IH]; cbn [app length insert_sorted].
    + by rewrite E.
    + destruct (before match_cmp x y); cbn [take].
      * do 2 f_equal. by rewrite take_app_length.
      * by rewrite IH.
  - rewrite insert_at_end.
    + rewrite take_app_le by (rewrite length_app; cbn; lia). rewrite take_ge by (rewrite length_app; cbn; lia). done.
    + apply Forall_app. split; [|by constructor]. apply Forall_forall. intros y Hy. specialize (Hle y Hy).
      destruct (before match_cmp x y) eqn:Ey; [|done]. apply before_le in Ey.
      rewrite (proj2 (before_le match_cmp x worst)) in E; [done|]. unfold le in *. by eapply (ranks_trans match_cmp).
Qed.

(** ** Searching *)

Definition similarity (query e : Embedding) : f32 :=
  f32_div (f32_sum (zip_with f32_mul (values query) (values e))) (f32_mul (norm query) (norm e)).

Definition scored (query : Embedding) (p : str * Embedding) : ScoredMatch := mkMatch p.1 (similarity query p.2).

(** What every index holds: embeddings of its width, no more than its capacity. *)
Record IndexWF (ix : ExactVectorIndex) : Prop := {
  index_width : map_Forall (λ _ e, dimensions e = index_dimensions ix) (entries ix);
  index_bound : map_len (entries ix) ≤ capacity ix;
}.

Lemma index_new_wf dims cap ix : 0 ≤ cap → index_with_capacity dims cap = Ok ix → IndexWF ix.
Proof.
  intros Hc. unfold index_with_capacity. repeat case_match; try done. intros [= <-]. split; cbn; [apply map_Forall_empty|].
  unfold map_len. rewrite map_size_empty. lia.
Qed.

Lemma upsert_wf ix i e ix' : IndexWF ix → upsert ix i e = Ok ix' → IndexWF ix'.
Proof.
  intros [Hw Hb]. unfold upsert. destruct (dimensions e =? index_dimensions ix) eqn:Ed; [cbn|done]. boolify.
  destruct (negb _ && _) eqn:E; [done|]. intros [= <-]. split; cbn; [by apply map_Forall_insert_2|].
  unfold map_len in *. destruct (entries ix !! i) as [e'|] eqn:El.
  - rewrite map_size_insert_Some by (by rewrite El). lia.
  - rewrite map_size_insert_None by done. rewrite bool_decide_eq_false_2 in E by (by intros [? ?]). cbn in E. lia.
Qed.

Lemma index_remove_wf ix i : IndexWF ix → IndexWF (index_remove ix i).1.
Proof.
  intros [Hw Hb]. split; cbn; [by apply map_Forall_delete|]. unfold map_len in *.
  destruct (entries ix !! i) as [e|] eqn:E; [rewrite map_size_delete_Some by (by rewrite E)|rewrite map_size_delete_None by done]; lia.
Qed.

Lemma search_loop_spec query limit seen es :
  (0 < limit)%nat → NoDup (seen ++ es).*1 → Forall (λ p, len (values query) = len (values p.2)) es →
  search_loop query limit es (best_of match_cmp limit (scored query <$> seen)) =
  Ok (best_of match_cmp limit (scored query <$> seen ++ es)).
Proof.
  intros Hk. revert seen. induction es as [|[i e] es IH]; intros seen Hnd Hw; cbn [search_loop]; [by rewrite app_nil_r|].
  apply Forall_cons in Hw as [Hl Hw]. cbn in Hl. unfold cosine_similarity. rewrite Hl, Z.eqb_refl. cbn [negb mbind result_bind].
  fold (similarity query e). set (best := best_of match_cmp limit (scored query <$> seen)).
  assert (Hni : i ∉ match_id <$> best).
  { intros (m & -> & Hm)%list_elem_of_fmap. apply best_of_elem, list_elem_of_fmap in Hm as (p & -> & Hp).
    rewrite fmap_app in Hnd. apply NoDup_app in Hnd as (_ & Hd & _). apply (Hd p.1); [apply list_elem_of_fmap; by exists p|left]. }
  assert (Hnext : take limit (insert_sorted match_cmp (mkMatch i (similarity query e)) best) =
                  best_of match_cmp limit (scored query <$> seen ++ [(i, e)])).
  { change (mkMatch i (similarity query e)) with (scored query (i, e)). subst best. rewrite <- best_of_cons.
    rewrite fmap_app. apply (best_of_Permutation match_cmp), Permutation_cons_append. }
  assert (Hgo : search_loop query limit es (best_of match_cmp limit (scored query <$> seen ++ [(i, e)])) =
                Ok (best_of match_cmp limit (scored query <$> seen ++ (i, e) :: es))).
  { rewrite IH, <- app_assoc; [done| |done]. by rewrite <- app_assoc. }
  assert (length best ≤ limit)%nat as Hb by (subst best; rewrite best_of_length; lia).
  pose proof (best_of_sorted match_cmp limit (scored query <$> seen)) as Hs. fold best in Hs. clearbody best.
  destruct (decide (length best = limit)) as [Hfull|Hroom].
  - destruct best as [|w best' _] using rev_ind; [cbn in Hfull; lia|]. rewrite last_snoc.
    rewrite length_app in Hfull. cbn in Hfull. rewrite length_app, Nat.add_sub, take_app_length.
    rewrite fmap_app, not_elem_of_app in Hni. destruct Hni as [Hni Hw']. rewrite place_insert by done.
    rewrite <- Hgo, <- Hnext, (replace_worst _ best' w) by (done || lia). unfold before.
    pose proof (ranks_before_cmp (similarity query e) i w) as Hr.
    destruct (match_cmp (mkMatch i (similarity query e)) w) eqn:E.
    + apply (ranks_refl match_cmp) in E as <-. destruct Hw'. by left.
    + by rewrite (proj2 Hr).
    + destruct (ranks_before _ i w); [discriminate (proj1 Hr eq_refl)|done].
  - rewrite place_insert by done. rewrite <- Hgo, <- Hnext. rewrite take_ge; [done|]. rewrite insert_sorted_perm. cbn. lia.
Qed.

Lemma search_best_of ix query limit :
  IndexWF ix → dimensions query = index_dimensions ix →
  search ix query limit = Ok (best_of match_cmp limit (scored query <$> map_to_list (entries ix))).
Proof.
  intros [Hw _] E. unfold search. rewrite E, Z.eqb_refl. cbn [negb].
  destruct (decide (limit = 0%nat)) as [->|Hk]; [done|]. unfold in_key_order.
  pose proof (sort_by_perm (λ x y, str_cmp x.1 y.1) (map_to_list (entries ix))) as Hp.
  set (es := sort_by _ (map_to_list (entries ix))) in *.
  pose proof (search_loop_spec query limit [] es) as Hs. cbn [app fmap list_fmap] in Hs.
  replace (best_of match_cmp limit []) with (@nil ScoredMatch) in Hs by (by destruct limit).
  rewrite Hs; [|lia| |].
  - f_equal. apply (best_of_Permutation match_cmp). by rewrite Hp.
  - rewrite Hp. apply NoDup_fst_map_to_list.
  - rewrite Hp. apply map_Forall_to_list in Hw. eapply Forall_impl; [exact Hw|]. intros [i e]. cbn. unfold dimensions in *. lia.
Qed.

Lemma search_Ok_width ix query limit found : search ix query limit = Ok found → dimensions query = index_dimensions ix.
Proof. unfold search. destruct (dimensions query =? index_dimensions ix) eqn:E; [|done]. lia. Qed.

(** Exact search returns the head of the whole ranking: for every index within its
    invariant, which its operations keep, and every query of its width, the matches
    are the first [limit] of all entries sorted by descending similarity and then by
    identifier, although only the running best are kept; a query of another width is
    refused. *)
Theorem search_is_ranking (ix : ExactVectorIndex) (query : Embedding) (limit : nat) :
  IndexWF ix →
  search ix query limit =
    if dimensions query =? index_dimensions ix
    then Ok (take limit (sort_by match_cmp (scored query <$> map_to_list (entries ix))))
    else Err DimensionMismatch.
Proof.
  intros Hw. destruct (dimensions query =? index_dimensions ix) eqn:E; [apply search_best_of; [done|lia]|].
  unfold search. by rewrite E.
Qed.

(** ** Examples *)

Definition unit_vector (x y : Z) : Embedding :=
  match embedding_new [f32_of_int x; f32_of_int y] with Ok e => e | Err _ => mkEmbedding [] f32_zero end.

Definition no_index : ExactVectorIndex := mkIndex 2 3 ∅.

Definition insert_all (ix : ExactVectorIndex) (l : list (str * Embedding)) : ExactVectorIndex :=
  foldl (λ ix p, match upsert ix p.1 p.2 with Ok ix => ix | Err _ => ix end) ix l.

Lemma insert_all_wf ix l : IndexWF ix → IndexWF (insert_all ix l).
Proof.
  revert ix. induction l as [|p l IH]; intros ix Hw; [done|]. cbn. apply IH. destruct (upsert ix p.1 p.2) eqn:E; [by eapply upsert_wf|done].
Qed.

Lemma no_index_wf : IndexWF no_index.
Proof. split; cbn; [apply map_Forall_empty|vm_compute; discriminate]. Qed.

Definition small_index : ExactVectorIndex :=
  insert_all no_index [(chars "a", unit_vector 1 0); (chars "b", unit_vector 3 4); (chars "c", unit_vector 0 1); (chars "d", unit_vector 1 1)].

Lemma search_is_ranking_witness :
  match_id <$> match search small_index (unit_vector 1 2) 2 with Ok l => l | Err _ => [] end = [chars "b"; chars "c"] ∧
  search small_index (unit_vector 1 2) 2 =
    if dimensions (unit_vector 1 2) =? index_dimensions small_index
    then Ok (take 2 (sort_by match_cmp (scored (unit_vector 1 2) <$> map_to_list (entries small_index))))
    else Err DimensionMismatch.
Proof.
  split; [vm_compute; reflexivity|]. refine (search_is_ranking small_index (unit_vector 1 2) 2 _). apply insert_all_wf, no_index_wf.
Defined.

End Vector.
