(* ===== verification/MemoryRetrieval.v ===== *)
(** * Memory records and retrieval

    Models [crates/claw-memory/src/retrieval.rs] and [store.rs]: bounded records, the
    queries over them, the lexical retriever with its bounded buffer of candidates, the
    retriever over an embedding model and the exact index, and the in-memory store. *)

From stdpp Require Import sorting.
From S2P Require Import Prelude Utf8 Text Ranking MemorySession MemoryVector.

Module Retrieval.
Import Ranking Vector.

Definition MAX_RETRIEVAL_LIMIT : Z := 100.
Definition MAX_QUERY_BYTES : Z := 4096.
Definition MAX_RECORD_BYTES : Z := 1024 * 1024.
Definition MAX_RECORD_TAGS : Z := 64.
Definition MAX_TAG_BYTES : Z := 128.
Definition MAX_KEYWORD_RECORD_TERMS : Z := 16384.

Inductive RecordKind := KMessage | KSummary | KNote.

#[export] Instance RecordKind_eq_dec : EqDecision RecordKind.
Proof. solve_decision. Defined.

Definition ALL_KINDS : list RecordKind := [KMessage; KSummary; KNote].

Record MemoryRecord := mkRecord {
  rec_id : str;
  rec_session : str;
  rec_kind : RecordKind;
  rec_text : str;
  rec_millis : Z;
  rec_tags : gset str;
}.

#[export] Instance MemoryRecord_eq_dec : EqDecision MemoryRecord.
Proof. solve_decision. Defined.

Inductive RecordError := EmptyText | TextTooLong | TooManyTags | TagTooLong.

Definition validate (r : MemoryRecord) : result RecordError unit :=
  if bool_decide (rec_text r = []) then Err EmptyText
  else if MAX_RECORD_BYTES <? len (as_bytes (rec_text r)) then Err TextTooLong
  else if MAX_RECORD_TAGS <? Z.of_nat (size (rec_tags r)) then Err TooManyTags
  else if existsb (λ t, MAX_TAG_BYTES <? len (as_bytes t)) (elements (rec_tags r)) then Err TagTooLong
  else Ok tt.

Inductive RetrievalError :=
| EmptyQuery
| QueryTooLong
| InvalidLimit
| NoKindsSelected
| InvalidRecord (e : RecordError)
| TooManyRecordTerms
| EmptyCapacity
| RetrieverFull
| VectorRefused (e : VectorError).

Record RetrievalQuery := mkQuery {
  q_text : str;
  limit : Z;
  q_session : option str;
  kinds : list RecordKind;
}.

Definition query_new (t : str) (n : Z) : result RetrievalError RetrievalQuery :=
  if bool_decide (trim t = []) then Err EmptyQuery
  else if MAX_QUERY_BYTES <? len (as_bytes t) then Err QueryTooLong
  else if (n =? 0) || (MAX_RETRIEVAL_LIMIT <? n) then Err InvalidLimit
  else Ok (mkQuery t n None ALL_KINDS).

Definition in_session (q : RetrievalQuery) (s : str) : RetrievalQuery := mkQuery (q_text q) (limit q) (Some s) (kinds q).

Definition of_kinds (q : RetrievalQuery) (ks : list RecordKind) : result RetrievalError RetrievalQuery :=
  if bool_decide (ks = []) then Err NoKindsSelected else Ok (mkQuery (q_text q) (limit q) (q_session q) ks).

Definition accepts (q : RetrievalQuery) (r : MemoryRecord) : bool :=
  if negb (bool_decide (rec_kind r ∈ kinds q)) then false
  else match q_session q with None => true | Some s => bool_decide (s = rec_session r) end.

Record RetrievedItem := mkItem { item_record : MemoryRecord; item_score : f32 }.

Inductive RetrievalCoverage := Complete | Partial | Unknown.

Record RetrievalReport := mkReport {
  items : list RetrievedItem;
  examined_records : Z;
  matched_records : Z;
  coverage : RetrievalCoverage;
}.

(** The comparison of [sort_candidates]; a candidate is a record and its score. *)
Definition candidate_cmp (x y : RetrievedItem) : comparison :=
  then_ (then_ (total_cmp (item_score y) (item_score x)) (rec_millis (item_record y) ?= rec_millis (item_record x)))
    (str_cmp (rec_id (item_record x)) (rec_id (item_record y))).

Definition sort_candidates (l : list RetrievedItem) : list RetrievedItem := sort_by candidate_cmp l.

(** ** The lexical retriever *)

Section Lexical.
Context `{CharTables}.

Definition tokens (t : str) : gset str := list_to_set (tokenize t).

(** The tokens of a record, refused as soon as there are too many. *)
Fixpoint bounded_tokens (ts : list str) (indexed : gset str) : result RetrievalError (gset str) :=
  match ts with
  | [] => Ok indexed
  | t :: ts =>
      let indexed := {[t]} ∪ indexed in
      if MAX_KEYWORD_RECORD_TERMS <? Z.of_nat (size indexed) then Err TooManyRecordTerms else bounded_tokens ts indexed
  end.

Definition bounded_record_tokens (t : str) : result RetrievalError (gset str) := bounded_tokens (tokenize t) ∅.

Record KeywordRecord := mkKeyword { kw_record : MemoryRecord; kw_terms : gset str }.

Record KeywordRetriever := mkRetriever { kw_capacity : Z; kw_records : gmap str KeywordRecord }.

Definition keyword_new : KeywordRetriever := mkRetriever DEFAULT_INDEX_CAPACITY ∅.

Definition keyword_with_capacity (n : Z) : result RetrievalError KeywordRetriever :=
  if n =? 0 then Err EmptyCapacity else Ok (mkRetriever n ∅).

Definition keyword_insert (k : KeywordRetriever) (r : MemoryRecord) : result RetrievalError KeywordRetriever :=
  match validate r with
  | Err e => Err (InvalidRecord e)
  | Ok _ =>
      if negb (bool_decide (is_Some (kw_records k !! rec_id r))) && (kw_capacity k <=? map_len (kw_records k)) then Err RetrieverFull
      else
        terms ← bounded_record_tokens (rec_text r);
        Ok (mkRetriever (kw_capacity k) (<[rec_id r := mkKeyword r terms]> (kw_records k)))
  end.

Definition keyword_remove (k : KeywordRetriever) (i : str) : KeywordRetriever * bool :=
  (mkRetriever (kw_capacity k) (delete i (kw_records k)), bool_decide (is_Some (kw_records k !! i))).

Definition hits (terms : list str) (k : KeywordRecord) : Z := len (List.filter (λ t, bool_decide (t ∈ kw_terms k)) terms).

(** The records in order, with the buffer of candidates and the number of matches. *)
Fixpoint keyword_loop (q : RetrievalQuery) (terms : list str) (rs : list KeywordRecord) (buffer : list RetrievedItem) (matched : Z)
  : list RetrievedItem * Z :=
  match rs with
  | [] => (buffer, matched)
  | k :: rs =>
      if negb (accepts q (kw_record k)) then keyword_loop q terms rs buffer matched
      else if hits terms k =? 0 then keyword_loop q terms rs buffer matched
      else
        let score := f32_div (f32_of_int (hits terms k)) (f32_of_int (len terms)) in
        let buffer := buffer ++ [mkItem (kw_record k) score] in
        let buffer := if sat_add u64_max (limit q) (limit q) <=? len buffer
                      then take (Z.to_nat (limit q)) (sort_candidates buffer) else buffer in
        keyword_loop q terms rs buffer (matched + 1)
  end.

Definition keyword_report (k : KeywordRetriever) (q : RetrievalQuery) : result RetrievalError RetrievalReport :=
  let terms := elements (tokens (q_text q)) in
  if bool_decide (terms = []) then Err EmptyQuery
  else
    let rs := snd <$> in_key_order (kw_records k) in
    let '(buffer, matched) := keyword_loop q terms rs [] 0 in
    let best := take (Z.to_nat (limit q)) (sort_candidates buffer) in
    Ok (mkReport best (len rs) matched (if len best <? matched then Partial else Complete)).

End Lexical.

(** ** The retriever over embeddings *)

Section Embedded.
(** [EmbeddingModel::embed] of the host's model. *)
Context (embed : str → result VectorError Embedding).

Record VectorRetriever := mkVector { v_index : ExactVectorIndex; v_records : gmap str MemoryRecord }.

Definition vector_insert (v : VectorRetriever) (r : MemoryRecord) : result RetrievalError VectorRetriever :=
  match validate r with
  | Err e => Err (InvalidRecord e)
  | Ok _ =>
      match embed (rec_text r) with
      | Err e => Err (VectorRefused e)
      | Ok e =>
          match upsert (v_index v) (rec_id r) e with
          | Err e => Err (VectorRefused e)
          | Ok ix => Ok (mkVector ix (<[rec_id r := r]> (v_records v)))
          end
      end
  end.

Definition vector_remove (v : VectorRetriever) (i : str) : VectorRetriever * bool :=
  let '(ix, indexed) := index_remove (v_index v) i in
  (mkVector ix (delete i (v_records v)), indexed || bool_decide (is_Some (v_records v !! i))).

(** The records of the matches that the query accepts. *)
Definition vector_candidate (q : RetrievalQuery) (records : gmap str MemoryRecord) (m : ScoredMatch) : option RetrievedItem :=
  match records !! match_id m with
  | Some r => if accepts q r then Some (mkItem r (score m)) else None
  | None => None
  end.

Definition vector_report (v : VectorRetriever) (q : RetrievalQuery) : result RetrievalError RetrievalReport :=
  match embed (q_text q) with
  | Err e => Err (VectorRefused e)
  | Ok embedded =>
      let candidates := Z.min (Z.min (limit q * 4) u64_max) (MAX_RETRIEVAL_LIMIT * 4) in
      match search (v_index v) embedded (Z.to_nat candidates) with
      | Err e => Err (VectorRefused e)
      | Ok found =>
          let exhausted := (len found <? candidates) || (map_len (v_records v) <=? candidates) in
          let ranked := sort_candidates (omap (vector_candidate q (v_records v)) found) in
          let best := take (Z.to_nat (limit q)) ranked in
          Ok (mkReport best (len found) (len ranked) (if exhausted && (len ranked <=? len best) then Complete else Partial))
      end
  end.

End Embedded.

(** ** The in-memory store *)

Inductive StoreError :=
| SessionCapacityExceeded
| RecordCapacityExceeded
| EmptyRecord
| RecordTooLarge
| StoreTooManyTags
| StoreTagTooLong
| Backend.

Definition store_error (e : RecordError) : StoreError :=
  match e with
  | EmptyText => EmptyRecord
  | TextTooLong => RecordTooLarge
  | TooManyTags => StoreTooManyTags
  | TagTooLong => StoreTagTooLong
  end.

Record InMemoryMemoryStore := mkStore {
  sessions : gmap str Memory.Session;
  records : gmap str MemoryRecord;
  max_sessions : Z;
  max_records : Z;
}.

Definition store_new (ns nr : Z) : InMemoryMemoryStore := mkStore ∅ ∅ ns nr.

Definition put_session (st : InMemoryMemoryStore) (s : Memory.Session) : result StoreError InMemoryMemoryStore :=
  let i := Memory.session_id s in
  if negb (bool_decide (is_Some (sessions st !! i))) && (max_sessions st <=? map_len (sessions st)) then Err SessionCapacityExceeded
  else Ok (mkStore (<[i := s]> (sessions st)) (records st) (max_sessions st) (max_records st)).

Definition delete_session (st : InMemoryMemoryStore) (i : str) : InMemoryMemoryStore * bool :=
  (mkStore (delete i (sessions st)) (filter (λ '(_, r), rec_session r ≠ i) (records st)) (max_sessions st) (max_records st),
   bool_decide (is_Some (sessions st !! i))).

Definition put_record (st : InMemoryMemoryStore) (r : MemoryRecord) : result StoreError InMemoryMemoryStore :=
  match validate r with
  | Err e => Err (store_error e)
  | Ok _ =>
      if negb (bool_decide (is_Some (records st !! rec_id r))) && (max_records st <=? map_len (records st)) then Err RecordCapacityExceeded
      else Ok (mkStore (sessions st) (<[rec_id r := r]> (records st)) (max_sessions st) (max_records st))
  end.

Definition delete_record (st : InMemoryMemoryStore) (i : str) : InMemoryMemoryStore * bool :=
  (mkStore (sessions st) (delete i (records st)) (max_sessions st) (max_records st), bool_decide (is_Some (records st !! i))).

Definition list_records (st : InMemoryMemoryStore) (s : option str) : list MemoryRecord :=
  List.filter (λ r, match s with None => true | Some s => bool_decide (rec_session r = s) end)
    (snd <$> in_key_order (records st)).

Definition list_sessions (st : InMemoryMemoryStore) : list str := fst <$> in_key_order (sessions st).

(** ** Ranking *)

#[export] Instance RecordKind_countable : Countable RecordKind.
Proof.
  refine (inj_countable' (λ k, match k with KMessage => 0%nat | KSummary => 1%nat | KNote => 2%nat end)
    (λ n, match n with 0%nat => KMessage | 1%nat => KSummary | _ => KNote end) _). by intros [].
Defined.

#[export] Instance MemoryRecord_countable : Countable MemoryRecord.
Proof.
  refine (inj_countable' (λ r, (rec_id r, rec_session r, rec_kind r, rec_text r, rec_millis r, rec_tags r))
    (λ '(i, s, k, t, m, g), mkRecord i s k t m g) _). by intros [].
Defined.

(** The comparison of candidates, made total: two records with one identifier do not
    occur together. *)
Definition item_cmp (x y : RetrievedItem) : comparison :=
  then_ (candidate_cmp x y) (Z.compare (Zpos (encode (item_record x))) (Zpos (encode (item_record y)))).

#[export] Instance candidate_compares : Compares candidate_cmp.
Proof.
  apply compares_then; [apply compares_then|].
  - apply compares_flip, (compares_on item_score), _.
  - apply compares_flip, (compares_on (λ x, rec_millis (item_record x))), _.
  - apply (compares_on (λ x, rec_id (item_record x))), _.
Qed.

#[export] Instance item_ranks : Ranks item_cmp.
Proof.
  apply ranks_then; [apply _|apply (compares_on (λ x, Zpos (encode (item_record x)))), _|].
  intros [r a] [r' b]. unfold candidate_cmp, then_. cbn. rewrite Pos.compare_eq_iff. intros Hc ->%(inj encode).
  f_equal. destruct (total_cmp b a) eqn:E; [by apply total_cmp_eq in E|done..].
Qed.

(** Candidates with different identifiers. *)
Definition agree (l : list RetrievedItem) : Prop := ∀ x y, x ∈ l → y ∈ l → candidate_cmp x y = item_cmp x y.

Lemma agree_ids l : (∀ x y, x ∈ l → y ∈ l → rec_id (item_record x) = rec_id (item_record y) → x = y) → agree l.
Proof.
  intros Hinj x y Hx Hy. unfold item_cmp. destruct (candidate_cmp x y) eqn:E; [|done..]. cbn.
  assert (rec_id (item_record x) = rec_id (item_record y)) as Hid.
  { unfold candidate_cmp, then_ in E. repeat case_match; try done; by apply str_cmp_eq in E. }
  rewrite (Hinj x y Hx Hy Hid). by rewrite Pos.compare_refl.
Qed.

Lemma agree_subset l l' : (∀ x, x ∈ l' → x ∈ l) → agree l → agree l'.
Proof. intros Hs Ha x y Hx Hy. by apply Ha; apply Hs. Qed.

Lemma sort_candidates_ranked l : agree l → sort_candidates l = sort_by item_cmp l.
Proof. apply sort_by_ext. Qed.

(** ** The lexical retriever *)

Section LexicalTheorems.
Context `{CharTables}.

Definition keyword_candidate (q : RetrievalQuery) (terms : list str) (k : KeywordRecord) : option RetrievedItem :=
  if accepts q (kw_record k) && negb (hits terms k =? 0)
  then Some (mkItem (kw_record k) (f32_div (f32_of_int (hits terms k)) (f32_of_int (len terms)))) else None.

Lemma best_of_snoc k l x :
  best_of item_cmp k (l ++ [x]) = best_of item_cmp k (x :: best_of item_cmp k l).
Proof.
  change (x :: best_of item_cmp k l) with ([x] ++ best_of item_cmp k l). rewrite (best_of_app item_cmp).
  apply (best_of_Permutation item_cmp). symmetry. apply Permutation_cons_append.
Qed.

Lemma keyword_loop_spec q terms rs buffer matched seen :
  let k := Z.to_nat (limit q) in
  agree (seen ++ omap (keyword_candidate q terms) rs) → (∀ x, x ∈ buffer → x ∈ seen) →
  best_of item_cmp k buffer = best_of item_cmp k seen →
  ∃ buffer', keyword_loop q terms rs buffer matched = (buffer', matched + len (omap (keyword_candidate q terms) rs)) ∧
    (∀ x, x ∈ buffer' → x ∈ seen ++ omap (keyword_candidate q terms) rs) ∧
    best_of item_cmp k buffer' = best_of item_cmp k (seen ++ omap (keyword_candidate q terms) rs).
Proof.
  intros k. revert buffer matched seen. induction rs as [|r rs IH]; intros buffer matched seen Ha Hb Hbest.
  { cbn. exists buffer. rewrite app_nil_r, Z.add_0_r. done. }
  cbn [keyword_loop]. change (omap (keyword_candidate q terms) (r :: rs)) with
    (match keyword_candidate q terms r with Some x => x :: omap (keyword_candidate q terms) rs | None => omap (keyword_candidate q terms) rs end) in *.
  destruct (keyword_candidate q terms r) as [x|] eqn:Hc; unfold keyword_candidate in Hc;
    destruct (accepts q (kw_record r)); cbn [negb andb] in *; try done; try (by apply IH);
    destruct (hits terms r =? 0); cbn [negb] in *; try done; [|by apply IH].
  assert (mkItem (kw_record r) (f32_div (f32_of_int (hits terms r)) (f32_of_int (len terms))) = x) as -> by congruence.
  rewrite (cons_middle x seen), app_assoc in Ha |- *.
  assert (Hin : ∀ y, y ∈ buffer ++ [x] → y ∈ seen ++ [x]).
  { intros y [Hy|Hy]%elem_of_app; apply elem_of_app; [left; by apply Hb|by right]. }
  assert (Hext : best_of item_cmp k (buffer ++ [x]) = best_of item_cmp k (seen ++ [x])) by (by rewrite !best_of_snoc, Hbest).
  rewrite len_cons, Z.add_assoc. destruct (sat_add u64_max (limit q) (limit q) <=? len (buffer ++ [x])).
  - rewrite sort_candidates_ranked.
    2: { eapply agree_subset, Ha. intros y Hy%Hin. apply elem_of_app. by left. }
    fold k. fold (best_of item_cmp k (buffer ++ [x])). apply IH; [done| |].
    + intros y Hy%best_of_elem. by apply Hin.
    + rewrite <- Hext. apply (best_of_app item_cmp k []).
  - by apply IH.
Qed.

(** What a retriever holds: each record under its identifier, with its terms, within
    the capacity. *)
Record KeywordWF (k : KeywordRetriever) : Prop := {
  keyword_keys : map_Forall (λ i r, rec_id (kw_record r) = i ∧ validate (kw_record r) = Ok tt ∧
    kw_terms r = tokens (rec_text (kw_record r))) (kw_records k);
  keyword_bound : map_len (kw_records k) ≤ kw_capacity k;
}.

Lemma bounded_tokens_Ok ts acc s : bounded_tokens ts acc = Ok s → s = list_to_set ts ∪ acc.
Proof.
  revert acc. induction ts as [|t ts IH]; intros acc; cbn; [intros [= <-]; set_solver|]. case_match; [done|].
  intros ->%IH. set_solver.
Qed.

Lemma map_len_insert {V} (m : gmap str V) i v cap :
  map_len m ≤ cap → negb (bool_decide (is_Some (m !! i))) && (cap <=? map_len m) = false → map_len (<[i := v]> m) ≤ cap.
Proof.
  unfold map_len. intros Hl Hf. destruct (m !! i) as [e|] eqn:E.
  - rewrite map_size_insert_Some by (by rewrite E). lia.
  - rewrite map_size_insert_None by done. rewrite bool_decide_eq_false_2 in Hf by (by intros [? ?]). cbn in Hf. lia.
Qed.

Lemma keyword_insert_wf k r k' : KeywordWF k → keyword_insert k r = Ok k' → KeywordWF k'.
Proof.
  intros [Hk Hb]. unfold keyword_insert. destruct (validate r) as [[]|] eqn:Ev; [|done].
  destruct (_ && _) eqn:E; [done|]. destruct (bounded_record_tokens _) as [ts|] eqn:Et; [cbn|done]. intros [= <-].
  apply bounded_tokens_Ok in Et. split; cbn; [|by apply map_len_insert].
  apply map_Forall_insert_2; [|done]. cbn. split_and!; [done|done|]. unfold tokens. set_solver.
Qed.

Lemma map_len_delete {V} (m : gmap str V) i : map_len (delete i m) ≤ map_len m.
Proof. unfold map_len. rewrite map_size_delete. destruct (m !! i); cbn; lia. Qed.

Lemma keyword_remove_wf k i : KeywordWF k → KeywordWF (keyword_remove k i).1.
Proof.
  intros [Hk Hb]. split; cbn; [by apply map_Forall_delete|]. pose proof (map_len_delete (kw_records k) i). lia.
Qed.

Lemma keyword_items_agree k q terms l :
  KeywordWF k → (∀ r, r ∈ l → ∃ i, kw_records k !! i = Some r) → agree (omap (keyword_candidate q terms) l).
Proof.
  intros [Hk _] Hl. apply agree_ids. intros x y Hx Hy Hid.
  assert (Hof : ∀ z, z ∈ omap (keyword_candidate q terms) l → ∃ r, kw_records k !! rec_id (item_record z) = Some r ∧ keyword_candidate q terms r = Some z).
  { intros z (r & Hr & Hz)%list_elem_of_omap. exists r. split; [|done]. destruct (Hl r Hr) as [i Hi].
    assert (item_record z = kw_record r) as -> by (unfold keyword_candidate in Hz; case_match; naive_solver).
    specialize (Hk i r Hi) as [Hk _]. cbn in Hk. by rewrite Hk. }
  destruct (Hof x Hx) as (r & Hr & Hrx), (Hof y Hy) as (r' & Hr' & Hry). rewrite Hid in Hr. congruence.
Qed.

(** Lexical retrieval is exact: for every retriever within its invariant, which
    inserting and removing keep, the report lists the first [limit] of all accepted
    records that share a term with the query, by descending score, then newest, then
    identifier, although the buffer of candidates is cut to that length on the way; the
    count of matches is exact, and the coverage is complete precisely when no match was
    left out. *)
Theorem keyword_retrieval_exact (k : KeywordRetriever) (q : RetrievalQuery) :
  KeywordWF k → 0 ≤ limit q →
  let terms := elements (tokens (q_text q)) in
  let matches := omap (keyword_candidate q terms) (snd <$> map_to_list (kw_records k)) in
  keyword_report k q =
    if bool_decide (terms = []) then Err EmptyQuery
    else Ok (mkReport (take (Z.to_nat (limit q)) (sort_candidates matches)) (map_len (kw_records k)) (len matches)
               (if len matches <=? limit q then Complete else Partial)).
Proof.
  intros Hwf Hlim terms matches. unfold keyword_report. fold terms. case_bool_decide as Ht; [done|].
  set (rs := snd <$> in_key_order (kw_records k)).
  assert (rs ≡ₚ snd <$> map_to_list (kw_records k)) as Hp by (unfold rs, in_key_order; by rewrite sort_by_perm).
  assert (omap (keyword_candidate q terms) rs ≡ₚ matches) as Hm by (unfold matches; by rewrite Hp).
  assert (agree (omap (keyword_candidate q terms) rs)) as Ha.
  { apply (keyword_items_agree k); [done|]. intros r. rewrite Hp. intros ([i r'] & -> & Hi%elem_of_map_to_list)%list_elem_of_fmap. by exists i. }
  destruct (keyword_loop_spec q terms rs [] 0 []) as (buffer & -> & Hb & Hbest); [done|by intros x ?%not_elem_of_nil|done|].
  cbn [app] in *. rewrite sort_candidates_ranked by (by eapply agree_subset).
  rewrite (sort_candidates_ranked matches) by (eapply agree_subset, Ha; intros x; by rewrite Hm).
  fold (best_of item_cmp (Z.to_nat (limit q)) buffer). rewrite Hbest.
  rewrite (best_of_Permutation item_cmp _ _ matches Hm). fold (best_of item_cmp (Z.to_nat (limit q)) matches).
  assert (len (omap (keyword_candidate q terms) rs) = len matches) as -> by (unfold len; by rewrite Hm).
  assert (len rs = map_len (kw_records k)) as ->.
  { unfold len, map_len. rewrite Hp, length_fmap. by rewrite length_map_to_list. }
  f_equal. f_equal. unfold len. rewrite best_of_length. repeat case_match; boolify; try done; lia.
Qed.

End LexicalTheorems.

(** ** The retriever over embeddings *)

Section EmbeddedTheorems.
Context (embed : str → result VectorError Embedding).

(** The index and the payloads hold the same identifiers. *)
Record VectorWF (v : VectorRetriever) : Prop := {
  vector_index : IndexWF (v_index v);
  vector_dom : dom (entries (v_index v)) = dom (v_records v);
  vector_keys : map_Forall (λ i r, rec_id r = i) (v_records v);
}.

Lemma vector_insert_wf v r v' : VectorWF v → vector_insert embed v r = Ok v' → VectorWF v'.
Proof.
  intros [Hi Hd Hk]. unfold vector_insert. destruct (validate r) as [[]|]; [|done]. destruct (embed _) as [e|]; [|done].
  destruct (upsert (v_index v) (rec_id r) e) as [ix|] eqn:E; [|done]. intros [= <-]. pose proof (upsert_wf _ _ _ _ Hi E) as Hi'.
  split; cbn; [done| |by apply map_Forall_insert_2]. unfold upsert in E. do 2 (case_match; [done|]). injection E as <-. cbn.
  by rewrite !dom_insert_L, Hd.
Qed.

Lemma vector_remove_wf v i : VectorWF v → VectorWF (vector_remove v i).1.
Proof.
  intros [Hi Hd Hk]. split; cbn; [by apply index_remove_wf|by rewrite !dom_delete_L, Hd|by apply map_Forall_delete].
Qed.

Lemma vector_sizes v : VectorWF v → map_len (entries (v_index v)) = map_len (v_records v).
Proof. intros [_ Hd _]. unfold map_len. by rewrite <- !size_dom, Hd. Qed.

Lemma vector_candidate_Some q v m it :
  VectorWF v → vector_candidate q (v_records v) m = Some it →
  v_records v !! match_id m = Some (item_record it) ∧ rec_id (item_record it) = match_id m ∧
  accepts q (item_record it) = true ∧ item_score it = score m.
Proof.
  intros [_ _ Hk]. unfold vector_candidate. destruct (v_records v !! match_id m) as [r|] eqn:E; [|done].
  destruct (accepts q r) eqn:Ea; [|done]. intros [= <-]. split_and!; [done|by apply (Hk _ _ E)|done|done].
Qed.

(** Retrieval over embeddings reports honestly: the items are accepted records of
    the retriever, each with the similarity of its own embedding, at most [limit] of
    them; and when the report says it is complete, every accepted record is among
    them, although the index was asked for a bounded number of candidates before the
    query's filters were applied. *)
Theorem vector_retrieval_sound (v : VectorRetriever) (q : RetrievalQuery) (e : Embedding) (rep : RetrievalReport) :
  VectorWF v → 0 ≤ limit q → embed (q_text q) = Ok e → vector_report embed v q = Ok rep →
  (∀ it, it ∈ items rep →
     v_records v !! rec_id (item_record it) = Some (item_record it) ∧ accepts q (item_record it) = true ∧
     ∃ emb, entries (v_index v) !! rec_id (item_record it) = Some emb ∧ item_score it = similarity e emb) ∧
  len (items rep) ≤ limit q ∧
  (coverage rep = Complete → ∀ i r, v_records v !! i = Some r → accepts q r = true → r ∈ item_record <$> items rep).
Proof.
  intros Hwf Hl He. unfold vector_report. rewrite He. set (n := Z.min _ (MAX_RETRIEVAL_LIMIT * 4)).
  destruct (search (v_index v) e (Z.to_nat n)) as [found|] eqn:Es; [|done]. pose proof (search_Ok_width _ _ _ _ Es) as Hd.
  rewrite search_best_of in Es by (done || apply vector_index; done). injection Es as <-. set (found := best_of _ _ _).
  set (ranked := sort_candidates _). assert (ranked ≡ₚ omap (vector_candidate q (v_records v)) found) as Hp by apply sort_by_perm.
  intros [= <-]. cbn [items coverage]. split_and!.
  - intros it (j & Hj & _)%elem_of_take. apply list_elem_of_lookup_2 in Hj. rewrite Hp in Hj.
    apply list_elem_of_omap in Hj as (m & Hm & Hit). destruct (vector_candidate_Some q v m it Hwf Hit) as (Hr & Hid & Ha & Hsc).
    apply best_of_elem, list_elem_of_fmap in Hm as ([i emb] & -> & Hi%elem_of_map_to_list). cbn in *. rewrite Hid.
    split_and!; [done|done|]. by exists emb.
  - unfold len. rewrite length_take. lia.
  - intros Hc i r Hi Ha. destruct (_ && _) eqn:E in Hc; [|done]. apply andb_true_iff in E as [Hex Hlen].
    assert (0 ≤ n) as Hn by (unfold n, MAX_RETRIEVAL_LIMIT, u64_max; lia).
    unfold len in Hlen. rewrite length_take in Hlen. boolify. rewrite (take_ge ranked) by lia. rewrite Hp.
    assert (found ≡ₚ scored e <$> map_to_list (entries (v_index v))) as Hf.
    { apply best_of_all. rewrite length_fmap, length_map_to_list. pose proof (vector_sizes v Hwf) as Hsz. unfold map_len in *.
      clearbody n. apply orb_true_iff in Hex as [Hex|Hex]; boolify; [|lia]. unfold len, found in Hex.
      rewrite best_of_length, length_fmap, length_map_to_list in Hex. lia. }
    assert (is_Some (entries (v_index v) !! i)) as [emb Hemb].
    { apply elem_of_dom. rewrite (vector_dom _ Hwf). apply elem_of_dom. by eexists. }
    apply list_elem_of_fmap. exists (mkItem r (similarity e emb)). split; [done|]. apply list_elem_of_omap.
    exists (mkMatch i (similarity e emb)). split; [|by unfold vector_candidate; cbn; rewrite Hi, Ha].
    rewrite Hf. apply list_elem_of_fmap. exists (i, emb). split; [done|]. by apply elem_of_map_to_list.
Qed.

End EmbeddedTheorems.

(** ** The store *)

Inductive StoreOp :=
| PutSession (s : Memory.Session)
| DeleteSession (i : str)
| PutRecord (r : MemoryRecord)
| DeleteRecord (i : str).

Definition store_step (st : InMemoryMemoryStore) (o : StoreOp) : InMemoryMemoryStore :=
  match o with
  | PutSession s => match put_session st s with Ok st => st | Err _ => st end
  | DeleteSession i => (delete_session st i).1
  | PutRecord r => match put_record st r with Ok st => st | Err _ => st end
  | DeleteRecord i => (delete_record st i).1
  end.

(** Values under their own identifiers, valid records, both counts within their
    bounds. *)
Record StoreWF (ns nr : Z) (st : InMemoryMemoryStore) : Prop := {
  store_sessions : map_Forall (λ i s, Memory.session_id s = i) (sessions st) ∧ map_len (sessions st) ≤ ns;
  store_records : map_Forall (λ i r, rec_id r = i ∧ validate r = Ok tt) (records st) ∧ map_len (records st) ≤ nr;
  store_limits : max_sessions st = ns ∧ max_records st = nr;
}.

Lemma map_len_filter {V} (P : str * V → Prop) `{∀ x, Decision (P x)} (m : gmap str V) : map_len (filter P m) ≤ map_len m.
Proof. unfold map_len. pose proof (map_subseteq_size (filter P m) m (map_filter_subseteq P m)). lia. Qed.

Lemma store_step_wf ns nr st o : StoreWF ns nr st → StoreWF ns nr (store_step st o).
Proof.
  intros [[Hs Hsl] [Hr Hrl] [Hns Hnr]]. destruct o as [s|i|r|i]; cbn.
  - unfold put_session. destruct (_ && _) eqn:E; [done|]. rewrite Hns in E. split; cbn; [|done..].
    split; [by apply map_Forall_insert_2|by apply map_len_insert].
  - pose proof (map_len_delete (sessions st) i). pose proof (map_len_filter (λ '(_, r), rec_session r ≠ i) (records st)).
    split; cbn; [split; [by apply map_Forall_delete|lia]|split; [|lia]|done].
    intros k r [Hk _]%map_lookup_filter_Some. by apply (Hr k r).
  - unfold put_record. destruct (validate r) as [[]|] eqn:Ev; [|done]. destruct (_ && _) eqn:E; [done|]. rewrite Hnr in E.
    split; cbn; [done|split; [by apply map_Forall_insert_2|by apply map_len_insert]|done].
  - pose proof (map_len_delete (records st) i). split; cbn; [done|split; [by apply map_Forall_delete|lia]|done].
Qed.

(** The store stays within its bounds whatever is asked of it, and a session that was
    deleted has no records left, while those of other sessions are all still there. *)
Theorem store_contract (ns nr : Z) (os : list StoreOp) (i : str) :
  0 ≤ ns → 0 ≤ nr →
  let st := foldl store_step (store_new ns nr) os in
  let st' := (delete_session st i).1 in
  StoreWF ns nr st ∧
  ∀ r, r ∈ list_records st' None ↔ r ∈ list_records st None ∧ rec_session r ≠ i.
Proof.
  intros H1 H2. cbv zeta. split.
  - assert (StoreWF ns nr (store_new ns nr)) as Hw.
    { split; cbn; [split; [apply map_Forall_empty|]|split; [apply map_Forall_empty|]|done]; unfold map_len; by rewrite map_size_empty. }
    revert Hw. generalize (store_new ns nr). induction os as [|o os IH]; intros st Hw; [done|]. cbn. by apply IH, store_step_wf.
  - generalize (foldl store_step (store_new ns nr) os). intros st r. unfold list_records.
    assert (Hall : ∀ st, r ∈ List.filter (λ _, true) (snd <$> in_key_order (records st)) ↔ ∃ k, records st !! k = Some r).
    { intros st0. rewrite list_elem_of_In, filter_In, <- list_elem_of_In. unfold in_key_order. rewrite sort_by_perm, list_elem_of_fmap.
      split; [intros [([k x] & -> & Hk%elem_of_map_to_list) _]; by exists k|].
      intros [k Hk]. split; [|done]. exists (k, r). split; [done|]. by apply elem_of_map_to_list. }
    rewrite !Hall. cbn. setoid_rewrite map_lookup_filter_Some. naive_solver.
Qed.

(** ** Examples *)

Definition ascii_tables : CharTables :=
  {| char_is_alphanumeric c := NetAddr.Net.is_alphanumeric c; to_lowercase s := NetAddr.Net.lower <$> s |}.

Definition note (i t : str) (at_ : Z) : MemoryRecord := mkRecord i (chars "s") KNote t at_ ∅.

Definition corpus : list MemoryRecord :=
  [note (chars "a") (chars "red fox") 1; note (chars "b") (chars "red red hen") 2; note (chars "c") (chars "blue sky") 3;
   note (chars "d") (chars "The red fox!") 1].

Definition keyword_all : KeywordRetriever :=
  foldl (λ k r, match @keyword_insert ascii_tables k r with Ok k => k | Err _ => k end) (mkRetriever 4 ∅) corpus.

Lemma keyword_all_wf : @KeywordWF ascii_tables keyword_all.
Proof.
  unfold keyword_all. assert (@KeywordWF ascii_tables (mkRetriever 4 ∅)) as H0.
  { split; cbn; [apply map_Forall_empty|vm_compute; discriminate]. }
  revert H0. generalize (mkRetriever 4 ∅). induction corpus as [|r l IH]; intros k Hk; [done|]. cbn. apply IH.
  destruct (keyword_insert k r) eqn:E; [by eapply keyword_insert_wf|done].
Qed.

Definition fox : RetrievalQuery := mkQuery (chars "red FOX") 2 None ALL_KINDS.

Lemma keyword_retrieval_exact_witness :
  match @keyword_report ascii_tables keyword_all fox with
  | Ok r => (rec_id ∘ item_record) <$> items r = [chars "a"; chars "d"] ∧ matched_records r = 3
  | Err _ => False
  end ∧
  let terms := elements (@tokens ascii_tables (q_text fox)) in
  let matches := omap (keyword_candidate fox terms) (snd <$> map_to_list (kw_records keyword_all)) in
  @keyword_report ascii_tables keyword_all fox =
    if bool_decide (terms = []) then Err EmptyQuery
    else Ok (mkReport (take (Z.to_nat (limit fox)) (sort_candidates matches)) (map_len (kw_records keyword_all)) (len matches)
               (if len matches <=? limit fox then Complete else Partial)).
Proof.
  split; [vm_compute; split; reflexivity|]. refine (@keyword_retrieval_exact ascii_tables keyword_all fox keyword_all_wf _).
  vm_compute. discriminate.
Defined.

(** A model for texts of two letters. *)
Definition tiny_embed (t : str) : result VectorError Embedding :=
  embedding_new [f32_of_int (len t); f32_of_int (len (List.filter (λ c, c =? 0x65) t))].

Definition vector_all : VectorRetriever :=
  foldl (λ v r, match vector_insert tiny_embed v r with Ok v => v | Err _ => v end) (mkVector (mkIndex 2 4 ∅) ∅) corpus.

Lemma vector_all_wf : VectorWF vector_all.
Proof.
  unfold vector_all. assert (VectorWF (mkVector (mkIndex 2 4 ∅) ∅)) as H0.
  { split; cbn; [split; cbn; [apply map_Forall_empty|vm_compute; discriminate]|by rewrite !dom_empty_L|apply map_Forall_empty]. }
  revert H0. generalize (mkVector (mkIndex 2 4 ∅) ∅). induction corpus as [|r l IH]; intros k Hk; [done|]. cbn. apply IH.
  destruct (vector_insert tiny_embed k r) eqn:E; [by eapply vector_insert_wf|done].
Qed.

Definition all_notes : RetrievalQuery := mkQuery (chars "ee") 4 None [KNote].

Definition vector_found : RetrievalReport :=
  match vector_report tiny_embed vector_all all_notes with Ok r => r | Err _ => mkReport [] 0 0 Unknown end.

Definition query_embedding : Embedding := match tiny_embed (q_text all_notes) with Ok e => e | Err _ => mkEmbedding [] f32_zero end.

Lemma vector_found_ok : vector_report tiny_embed vector_all all_notes = Ok vector_found.
Proof. vm_compute. reflexivity. Qed.

Lemma vector_retrieval_sound_witness :
  len (items vector_found) = 4 ∧
  (∀ it, it ∈ items vector_found →
     v_records vector_all !! rec_id (item_record it) = Some (item_record it) ∧ accepts all_notes (item_record it) = true ∧
     ∃ emb, entries (v_index vector_all) !! rec_id (item_record it) = Some emb ∧ item_score it = similarity query_embedding emb) ∧
  len (items vector_found) ≤ limit all_notes ∧
  (coverage vector_found = Complete → ∀ i r, v_records vector_all !! i = Some r → accepts all_notes r = true →
     r ∈ item_record <$> items vector_found).
Proof.
  split; [vm_compute; reflexivity|].
  refine (vector_retrieval_sound tiny_embed vector_all all_notes query_embedding vector_found vector_all_wf _ _ vector_found_ok).
  - vm_compute. discriminate.
  - vm_compute. reflexivity.
Defined.

End Retrieval.
