(* ===== verification/MemoryContext.v ===== *)
(** * Context assembly and compaction

    Models [crates/claw-memory/src/context.rs], which assembles the input of one model
    call from a session and retrieved memory within a budget, and [summarize.rs], which
    decides when a session is compacted, which run of messages a summary replaces, and
    carries it out with a summarizer of the host or the extractive one. *)

From stdpp Require Import sorting.
From S2P Require Import Prelude Utf8 Text NetAddr MemorySession MemoryBudget MemoryVector MemoryRetrieval.

Module Context.
Import Net Memory Budget.

(** [usize::saturating_mul] *)
Definition sat_mul (x y : Z) : Z := Z.min (x * y) u64_max.

(** ** Assembly *)

Inductive ContextError :=
| InvalidShare
| InvalidRecord (e : Retrieval.RecordError)
| BudgetRefused (e : BudgetError).

Record ContextTruncation := mkTruncation {
  gone_messages : list (Z * Admission);
  gone_retrieved : list str;
  unexamined_retrieved : Z;
}.

Record AssembledContext := mkContext {
  ctx_messages : list Message;
  ctx_summaries : list Summary;
  ctx_retrieved : list Retrieval.RetrievedItem;
  ctx_used : Z;
  ctx_remaining : Z;
  dropped_messages : Z;
  dropped_retrieved : Z;
  truncation : ContextTruncation;
}.

Record ContextAssembler := mkAssembler { budget : TokenBudget; retrieval_share_percent : Z }.

Definition assembler_new (b : TokenBudget) (share : Z) : result ContextError ContextAssembler :=
  if 100 <? share then Err InvalidShare else Ok (mkAssembler b share).

(** Entries of the plan below an identifier are passed over. *)
Fixpoint skip_below (i : Z) (wanted : list (Z * Admission)) : list (Z * Admission) :=
  match wanted with
  | (j, _) :: rest => if j <? i then skip_below i rest else wanted
  | [] => []
  end.

(** The messages and the plan walked together. *)
Fixpoint pick (ms : list Message) (wanted : list (Z * Admission)) : list Message :=
  match ms with
  | [] => []
  | m :: ms =>
      match skip_below (id m) wanted with
      | ((j, _) :: rest) as wanted => if j =? id m then m :: pick ms rest else pick ms wanted
      | [] => pick ms []
      end
  end.

Section Assembly.
Context `{TokenCounter}.

Definition item_cost (it : Retrieval.RetrievedItem) : Z :=
  sat_add u64_max (count_text (Retrieval.rec_text (Retrieval.item_record it))) framing_overhead.

Fixpoint retrieved_loop (allowance : Z) (l : list Retrieval.RetrievedItem) (used : Z) (closed : bool)
    (taken : list Retrieval.RetrievedItem) (gone : list str)
  : result ContextError (Z * list Retrieval.RetrievedItem * list str) :=
  match l with
  | [] => Ok (used, taken, gone)
  | it :: l =>
      match Retrieval.validate (Retrieval.item_record it) with
      | Err e => Err (InvalidRecord e)
      | Ok _ =>
          if closed || (allowance <? sat_add u64_max used (item_cost it)) then
            retrieved_loop allowance l used true taken (gone ++ [Retrieval.rec_id (Retrieval.item_record it)])
          else retrieved_loop allowance l (wrap_add u64_max used (item_cost it)) closed (taken ++ [it]) gone
      end
  end.

Definition EXAMINED : nat := Z.to_nat Retrieval.MAX_RETRIEVAL_LIMIT.

Definition assemble (a : ContextAssembler) (s : Session) (retrieved : list Retrieval.RetrievedItem)
  : result ContextError AssembledContext :=
  let avail := available (budget a) in
  let allowance := sat_mul avail (retrieval_share_percent a) / 100 in
  let unexamined := sat_sub (len retrieved) Retrieval.MAX_RETRIEVAL_LIMIT in
  '(retrieval_used, taken, gone) ← retrieved_loop allowance (take EXAMINED retrieved) 0 false [] [];
  if context_window (budget a) <? retrieval_used then Err (BudgetRefused ReservationTooLarge)
  else
    match budget_new (context_window (budget a) - retrieval_used) (reserved_for_output (budget a)) with
    | Err e => Err (BudgetRefused e)
    | Ok conversation =>
        match plan_truncation (messages s) (summaries s) conversation with
        | Err e => Err (BudgetRefused e)
        | Ok plan =>
            let ms := pick (messages s) (admitted plan) in
            if negb (len ms =? len (admitted plan)) then Err (BudgetRefused InconsistentMessages)
            else
              let sms := List.rev (take (plan_summaries plan) (List.rev (summaries s))) in
              let used := sat_add u64_max retrieval_used (used_tokens plan) in
              Ok (mkContext ms sms taken used (sat_sub avail used) (len (dropped plan))
                    (sat_add u64_max (len gone) unexamined)
                    (mkTruncation (dropped plan) gone unexamined))
        end
    end.

End Assembly.

(** ** Compaction *)

Inductive SummaryError :=
| InvalidPolicy
| NothingToSummarize
| EmptySummary
| SummaryOverBudget
| SessionRefused (e : SessionError)
| BackendFailed.

Record SummarizationPolicy := mkPolicy { trigger_percent : Z; keep_recent : nat; summary_token_share_percent : Z }.

Definition policy_default : SummarizationPolicy := mkPolicy 80 8 10.

Definition policy_new (trigger : Z) (keep : nat) (share : Z) : result SummaryError SummarizationPolicy :=
  if (trigger =? 0) || (100 <? trigger) then Err InvalidPolicy
  else if (share =? 0) || (100 <? share) then Err InvalidPolicy
  else Ok (mkPolicy trigger keep share).

Definition summary_tokens (p : SummarizationPolicy) (b : TokenBudget) : Z :=
  sat_mul (available b) (summary_token_share_percent p) / 100.

Record SummarizationPlan := mkSummarization {
  plan_first : Z;
  plan_last : Z;
  message_count : nat;
  max_tokens : Z;
}.

Section Compaction.
Context `{TokenCounter}.

(** Whether the messages cost more than the threshold, counted until they do, and how
    many of them are ordinary. *)
Fixpoint trigger_loop (threshold : Z) (ms : list Message) (used : Z) (over : bool) (compactable : nat) : bool * nat :=
  match ms with
  | [] => (over, compactable)
  | m :: ms =>
      let compactable := if is_anchor m then compactable else S compactable in
      if over then trigger_loop threshold ms used over compactable
      else
        let used := sat_add u64_max used (count_message m) in
        trigger_loop threshold ms used (threshold <? used) compactable
  end.

Definition plan_summarization (s : Session) (b : TokenBudget) (p : SummarizationPolicy) : option SummarizationPlan :=
  let threshold := sat_mul (available b) (trigger_percent p) / 100 in
  let '(over, compactable) := trigger_loop threshold (messages s) 0 false 0 in
  if negb over then None
  else if (compactable <=? keep_recent p)%nat then None
  else
    let cut := (compactable - keep_recent p)%nat in
    match ordinary (messages s) with
    | [] => None
    | m :: rest =>
        last ← if decide (cut = 1%nat) then Some (id m) else id <$> (rest !! (cut - 2)%nat);
        Some (mkSummarization (id m) last cut (Z.max (summary_tokens p b) 1))
    end.

Definition covered (plan : SummarizationPlan) (m : Message) : bool :=
  negb (is_anchor m) && (plan_first plan <=? id m) && (id m <=? plan_last plan).

(** The positions of the first and last covered message, unless the covered ones are
    not next to each other. *)
Fixpoint run_bounds (plan : SummarizationPlan) (ms : list Message) (index : nat) (found : option (nat * nat))
  : option (option (nat * nat)) :=
  match ms with
  | [] => Some found
  | m :: ms =>
      if negb (covered plan m) then run_bounds plan ms (S index) found
      else
        match found with
        | None => run_bounds plan ms (S index) (Some (index, index))
        | Some (first, last) => if decide (S last = index) then run_bounds plan ms (S index) (Some (first, index)) else None
        end
  end.

Definition contiguous_run (plan : SummarizationPlan) (ms : list Message) : option (list Message) :=
  match run_bounds plan ms 0 None with
  | Some (Some (first, last)) => Some (take (S last - first) (drop first ms))
  | _ => None
  end.

(** The host's summarizer, on a session, a run of its messages and a token bound. *)
Context (summarize : str → list Message → Z → result SummaryError str).

Definition summarize_run (s : Session) (plan : SummarizationPlan) : result SummaryError (option str) :=
  let run := match contiguous_run plan (messages s) with
             | Some run => run
             | None => List.filter (covered plan) (messages s)
             end in
  if bool_decide (run = []) then Ok None
  else text ← summarize (session_id s) run (max_tokens plan); Ok (Some text).

(** The session afterwards and the result. *)
Definition compact (s : Session) (b : TokenBudget) (p : SummarizationPolicy) (at_ : Z) : Session * result SummaryError (option Summary) :=
  match plan_summarization s b p with
  | None => (s, Ok None)
  | Some plan =>
      match summarize_run s plan with
      | Err e => (s, Err e)
      | Ok None => (s, Ok None)
      | Ok (Some t) =>
          if bool_decide (trim t = []) then (s, Err EmptySummary)
          else if max_tokens plan <? count_text t then (s, Err SummaryOverBudget)
          else
            let sm := mkSummary (plan_first plan) (plan_last plan) t at_ in
            match absorb s sm with
            | Err e => (s, Err (SessionRefused e))
            | Ok (s', _) => (s', Ok (Some sm))
            end
      end
  end.

End Compaction.

(** ** The extractive summarizer *)

Definition ends_sentence (c : Z) : bool := (c =? 0x2E) || (c =? 0x21) || (c =? 0x3F) || (c =? 0x0A).

(** The text up to and including its first sentence end. *)
Fixpoint first_sentence (t : str) : str :=
  match t with
  | [] => []
  | c :: t => if ends_sentence c then [c] else c :: first_sentence t
  end.

Definition leading_sentence (t : str) (max_characters : Z) : str :=
  trim (take (Z.to_nat max_characters) (trim (first_sentence (trim t)))).

Definition summary_line (m : Message) (characters : Z) : str :=
  role_str (role m) ++ [0x3A; 0x20] ++ leading_sentence (content m) characters.

Fixpoint extract_loop (characters character_budget : Z) (ms : list Message) (used : Z) (lines : list str) : list str :=
  match ms with
  | [] => lines
  | m :: ms =>
      let line := summary_line m characters in
      let cost := len line + 1 in
      if character_budget <? sat_add u64_max used cost then lines
      else extract_loop characters character_budget ms (wrap_add u64_max used cost) (lines ++ [line])
  end.

Definition extractive_summarize (characters : Z) (session : str) (ms : list Message) (bound : Z) : result SummaryError str :=
  match ms with
  | [] => Err NothingToSummarize
  | m :: _ =>
      let character_budget := Z.max (sat_mul bound 4) 1 in
      let lines := extract_loop characters character_budget ms 0 [] in
      let lines := if bool_decide (lines = []) then [take (Z.to_nat character_budget) (summary_line m 32)] else lines in
      Ok (join [0x0A] lines)
  end.

(** ** What an assembled context holds *)

Section AssemblyTheorems.
Context `{TokenCounter}.

Definition retrieved_cost (l : list Retrieval.RetrievedItem) : Z := foldr (λ it n, item_cost it + n) 0 l.
Definition item_id (it : Retrieval.RetrievedItem) : str := Retrieval.rec_id (Retrieval.item_record it).
Definition item_valid (it : Retrieval.RetrievedItem) : bool := is_ok (Retrieval.validate (Retrieval.item_record it)).

Lemma item_cost_nonneg it : 0 ≤ item_cost it.
Proof.
  unfold item_cost, sat_add. pose proof (count_text_range (Retrieval.rec_text (Retrieval.item_record it))).
  pose proof framing_range. unfold u64_max in *. lia.
Qed.

Lemma retrieved_cost_nonneg l : 0 ≤ retrieved_cost l.
Proof. induction l as [|it l IH]; [done|]. cbn. fold (retrieved_cost l). pose proof (item_cost_nonneg it). lia. Qed.

Lemma retrieved_closed allowance l used taken gone :
  retrieved_loop allowance l used true taken gone =
  if forallb item_valid l then Ok (used, taken, gone ++ (item_id <$> l))
  else retrieved_loop allowance l used true taken gone.
Proof.
  revert gone. induction l as [|it l IH]; intros gone; cbn; [by rewrite app_nil_r|]. unfold item_valid at 1.
  destruct (Retrieval.validate _); cbn; [|done]. rewrite IH. destruct (forallb item_valid l); [|done]. by rewrite <- app_assoc.
Qed.

(** The first invalid item decides. *)
Lemma retrieved_invalid allowance l used closed taken gone :
  forallb item_valid l = false →
  ∃ pre it post why, l = pre ++ it :: post ∧ forallb item_valid pre = true ∧
    Retrieval.validate (Retrieval.item_record it) = Err why ∧
    retrieved_loop allowance l used closed taken gone = Err (InvalidRecord why).
Proof.
  revert used closed taken gone. induction l as [|it l IH]; intros used closed taken gone; cbn; [done|].
  unfold item_valid at 1. destruct (Retrieval.validate (Retrieval.item_record it)) as [v|why] eqn:Ev; cbn [is_ok andb].
  - intros Hl. assert (∀ pre x post, l = pre ++ x :: post → forallb item_valid pre = true →
      it :: l = (it :: pre) ++ x :: post ∧ forallb item_valid (it :: pre) = true) as Hcons.
    { intros pre x post -> Hp. split; [done|]. cbn [forallb]. unfold item_valid at 1. by rewrite Ev. }
    destruct (_ || _);
      [destruct (IH used true taken (gone ++ [Retrieval.rec_id (Retrieval.item_record it)]) Hl) as (pre & x & post & why & Hs & Hp & Hx & ->)
      |destruct (IH (wrap_add u64_max used (item_cost it)) closed (taken ++ [it]) gone Hl) as (pre & x & post & why & Hs & Hp & Hx & ->)];
      destruct (Hcons _ _ _ Hs Hp); by exists (it :: pre), x, post, why.
  - intros _. by exists [], it, l, why.
Qed.

(** The items taken of those examined: a prefix within [quota], and the next one would
    not be. *)
Record Taken (quota : Z) (examined fit rest : list Retrieval.RetrievedItem) : Prop := {
  tk_split : examined = fit ++ rest;
  tk_fits : retrieved_cost fit ≤ quota;
  tk_max : ∀ it rest', rest = it :: rest' → quota < retrieved_cost fit + item_cost it;
}.

(** The retrieved items taken are the longest prefix that fits. *)
Lemma retrieved_loop_spec allowance l used taken :
  0 ≤ used ≤ allowance → allowance < u64_max → forallb item_valid l = true →
  ∃ fit rest, l = fit ++ rest ∧
    retrieved_loop allowance l used false taken [] = Ok (used + retrieved_cost fit, taken ++ fit, item_id <$> rest) ∧
    used + retrieved_cost fit ≤ allowance ∧
    (∀ it rest', rest = it :: rest' → allowance < used + retrieved_cost fit + item_cost it).
Proof.
  intros Hu Ha. revert used taken Hu. induction l as [|it l IH]; intros used taken Hu; cbn [forallb retrieved_loop].
  { intros _. exists [], []. cbn. rewrite app_nil_r, Z.add_0_r. split_and!; [done..|lia|done]. }
  intros [Hit Hl]%andb_true_iff. unfold item_valid in Hit. destruct (Retrieval.validate _); [|done]. clear Hit. cbn [orb].
  destruct (within allowance used (item_cost it)) as [-> Hw]; [lia..|apply item_cost_nonneg|].
  destruct (allowance <? used + item_cost it) eqn:E; boolify.
  - exists [], (it :: l). rewrite retrieved_closed, Hl, app_nil_r. change (retrieved_cost []) with 0. rewrite Z.add_0_r.
    split_and!; [done|done|lia|]. intros ? ? [= <- <-]. done.
  - rewrite Hw by done. pose proof (item_cost_nonneg it).
    destruct (IH (used + item_cost it) (taken ++ [it])) as (fit & rest & -> & -> & Hle & Hmax); [lia|done|].
    exists (it :: fit), rest. change (retrieved_cost (it :: fit)) with (item_cost it + retrieved_cost fit).
    rewrite Z.add_assoc, <- app_assoc. by split_and!.
Qed.

Lemma skip_below_all i wanted : Forall (λ w, i ≤ w.1) wanted → skip_below i wanted = wanted.
Proof. destruct wanted as [|[j a] rest]; [done|]. intros [Hj _]%Forall_cons. cbn in *. by replace (j <? i) with false by lia. Qed.

(** Walking the plan and the session together picks out the planned messages. *)
Lemma pick_filter (f : Message → bool) (g : Message → Admission) ms :
  StronglySorted Z.lt (ids ms) → pick ms ((λ m, entry (g m) m) <$> List.filter f ms) = List.filter f ms.
Proof.
  induction ms as [|m ms IH]; [done|]. unfold ids. rewrite fmap_cons. intros [Hs Hm]%StronglySorted_inv. specialize (IH Hs).
  rewrite Forall_fmap in Hm. cbn [pick]. rewrite skip_below_all.
  - cbn [List.filter]. destruct (f m) eqn:E.
    + rewrite fmap_cons. unfold entry at 1. rewrite Z.eqb_refl. f_equal. apply IH.
    + destruct (_ <$> List.filter f ms) as [|[j a] rest] eqn:El; [done|].
      replace (j =? id m) with false; [done|].
      assert ((j, a) ∈ (λ m, entry (g m) m) <$> List.filter f ms) as Hin by (rewrite El; left).
      apply list_elem_of_fmap in Hin as (x & [= -> _] & Hx). apply list_elem_of_In, filter_In in Hx as [Hx _].
      apply list_elem_of_In in Hx. eapply (proj1 (Forall_forall _ _)) in Hm; [|exact Hx]. cbn in Hm. lia.
  - apply Forall_fmap, Forall_filter. constructor; [cbn; lia|]. eapply Forall_impl; [exact Hm|]. intros x. cbn. lia.
Qed.

Lemma newest_summaries {A} n (l : list A) : (n ≤ length l)%nat → List.rev (take n (List.rev l)) = drop (length l - n) l.
Proof. intros Hn. rewrite firstn_rev, rev_involutive. done. Qed.

Lemma share_allowance avail share : 0 ≤ avail < u64_max → 0 ≤ share ≤ 100 → 0 ≤ sat_mul avail share / 100 ≤ avail.
Proof.
  intros Ha Hs. unfold sat_mul. assert (0 ≤ Z.min (avail * share) u64_max ≤ avail * share) as Hm by (unfold u64_max in *; nia).
  split; [apply Z.div_pos; lia|]. apply Z.div_le_upper_bound; [lia|]. nia.
Qed.

Lemma cost_perm ms ms' : ms ≡ₚ ms' → cost ms = cost ms'.
Proof.
  induction 1 as [|m l l' _ IH|m m' l|l l' l'' _ IH _ IH']; [done|by rewrite !cost_cons, IH|rewrite !cost_cons; lia|congruence].
Qed.

Lemma kept_cost s b p old orphans window :
  WF s → Planned (messages s) (summaries s) b p old orphans window →
  cost (List.filter (keeps window) (messages s)) = cost (anchors (messages s)) + cost window.
Proof.
  intros Hw Hp. rewrite <- cost_app. apply cost_perm. symmetry. apply (keeps_perm _ (old ++ orphans)).
  - rewrite (planned_split _ _ _ _ _ _ _ Hp). by rewrite app_assoc.
  - apply ordinary_nodup, wf_sorted, Hw.
Qed.

(** The parts of an assembled context, in terms of the session and the ranking they
    were taken from: [old], [orphans] and [window] are the ordinary messages, [older]
    the summaries not taken, [rest] the retrieved items examined and not taken. *)
Record Assembled (avail quota : Z) (s : Session) (retrieved : list Retrieval.RetrievedItem) (c : AssembledContext)
    (old orphans window : list Message) (older : list Summary) (rest : list Retrieval.RetrievedItem) : Prop := {
  asm_split : ordinary (messages s) = old ++ orphans ++ window;
  asm_messages : ctx_messages c = List.filter (keeps window) (messages s);
  asm_opening : ∀ m later, window = m :: later → role m ≠ Tool;
  asm_orphans : Forall (λ m, role m = Tool) orphans;
  asm_summaries : summaries s = older ++ ctx_summaries c;
  asm_retrieved : Taken quota (take EXAMINED retrieved) (ctx_retrieved c) rest;
  (* the cost is that of the parts, and fits *)
  asm_used : ctx_used c = cost (ctx_messages c) + summary_cost (ctx_summaries c) + retrieved_cost (ctx_retrieved c);
  asm_fits : ctx_used c + cost orphans ≤ avail ∧ ctx_remaining c = avail - ctx_used c;
  (* nothing more would have fitted: the next older summary beside the anchors and the
     retrieved items, the next older message beside all that, the orphans included *)
  asm_summary_max : ∀ sm before, older = before ++ [sm] →
    avail < retrieved_cost (ctx_retrieved c) + cost (anchors (messages s)) + summary_cost (ctx_summaries c) + count_summary sm;
  asm_message_max : ∀ m before, old = before ++ [m] → avail < ctx_used c + cost orphans + count_message m;
  (* the report *)
  asm_gone : gone_messages (truncation c) = too_old_entries old ++ (entry OrphanedToolResult <$> orphans);
  asm_dropped : dropped_messages c = len old + len orphans;
  asm_gone_retrieved : gone_retrieved (truncation c) = item_id <$> rest;
  asm_unexamined : unexamined_retrieved (truncation c) = len (drop EXAMINED retrieved);
  asm_dropped_retrieved : dropped_retrieved c = len rest + len (drop EXAMINED retrieved);
}.

Lemma too_old_length l : length (too_old l) = length l.
Proof. destruct l; [done|]. cbn. by rewrite length_fmap. Qed.

Lemma assembled_parts avail quota s retrieved fit rest p old orphans window :
  WF s → 0 ≤ avail < u64_max → len retrieved ≤ u64_max → Taken quota (take EXAMINED retrieved) fit rest →
  Planned (messages s) (summaries s) (avail - retrieved_cost fit) p old orphans window →
  let used := sat_add u64_max (retrieved_cost fit) (used_tokens p) in
  let unexamined := sat_sub (len retrieved) Retrieval.MAX_RETRIEVAL_LIMIT in
  Assembled avail quota s retrieved
    (mkContext (pick (messages s) (admitted p)) (List.rev (take (plan_summaries p) (List.rev (summaries s)))) fit used
       (sat_sub avail used) (len (dropped p)) (sat_add u64_max (len (item_id <$> rest)) unexamined)
       (mkTruncation (dropped p) (item_id <$> rest) unexamined)) old orphans window
    (take (length (summaries s) - plan_summaries p) (summaries s)) rest.
Proof.
  intros Hw Hav Hlen Htk Hp used unexamined. pose proof Hp as [Hs Ho Hop Had Hdr Hn Hu Hf Hsm Hwm].
  pose proof (kept_cost _ _ _ _ _ _ Hw Hp) as Hk. pose proof (cost_nonneg orphans) as Hon.
  assert (pick (messages s) (admitted p) = List.filter (keeps window) (messages s)) as Hpick.
  { rewrite Had. unfold kept_entry. apply pick_filter, wf_sorted, Hw. }
  assert (used = retrieved_cost fit + used_tokens p) as Hused by (unfold used, sat_add; lia).
  pose proof (f_equal length (tk_split _ _ _ _ Htk)) as Hsplit. rewrite length_take, length_app in Hsplit.
  assert (unexamined = len (drop EXAMINED retrieved)) as Hun.
  { unfold unexamined, len, EXAMINED, sat_sub in *. rewrite length_drop.
    change (Z.to_nat Retrieval.MAX_RETRIEVAL_LIMIT) with 100%nat in *. change Retrieval.MAX_RETRIEVAL_LIMIT with 100 in *. lia. }
  rewrite newest_summaries by done.
  constructor; cbn [ctx_messages ctx_summaries ctx_retrieved ctx_used ctx_remaining dropped_messages dropped_retrieved
    truncation gone_messages gone_retrieved unexamined_retrieved]; try done.
  - by rewrite take_drop.
  - rewrite Hpick, Hk, Hused. lia.
  - rewrite Hused. unfold sat_sub. lia.
  - intros sm before Hb. specialize (Hsm sm before Hb). lia.
  - intros m before Hb. specialize (Hwm m before Hb). lia.
  - rewrite Hdr. unfold len, too_old_entries.
    rewrite length_app, length_fmap, length_rev, too_old_length, length_rev. lia.
  - rewrite Hun. unfold len in *. rewrite length_fmap, length_drop. unfold sat_add, EXAMINED in *. lia.
Qed.

(** C38. Context assembly keeps its promises on every session within its invariant and
    every budget with a window below 2^64 - 1: the input it assembles costs what it says and never more than the input allowance. Of
    the first hundred retrieved items it takes the longest prefix within retrieval's
    share; then, in what is left, every system and pinned message, the newest
    summaries up to the first that does not fit, and the newest ordinary messages up
    to the first that does not fit, as one contiguous run, less the tool results it
    would open on. It reports exactly the messages left out, with the reason of each,
    the retrieved items examined and left out, and how many were not examined
    (summaries left out are not reported). It is refused exactly with: the error of
    the first invalid record among those examined; a budget error when the items taken
    used up the whole allowance; or [AnchorsExceedBudget] when they and the anchors do
    not fit. *)
Theorem context_contract (a : ContextAssembler) (s : Session) (retrieved : list Retrieval.RetrievedItem) :
  WF s → 0 ≤ reserved_for_output (budget a) < context_window (budget a) → context_window (budget a) < u64_max →
  0 ≤ retrieval_share_percent a ≤ 100 → len retrieved ≤ u64_max →
  let avail := available (budget a) in
  let quota := Z.min (avail * retrieval_share_percent a) u64_max / 100 in
  let examined := take EXAMINED retrieved in
  match assemble a s retrieved with
  | Ok c => forallb item_valid examined = true ∧
      ∃ old orphans window older rest, Assembled avail quota s retrieved c old orphans window older rest
  | Err e =>
      (∃ pre it post why, examined = pre ++ it :: post ∧ forallb item_valid pre = true ∧
        Retrieval.validate (Retrieval.item_record it) = Err why ∧ e = InvalidRecord why) ∨
      forallb item_valid examined = true ∧ ∃ fit rest, Taken quota examined fit rest ∧
        (retrieved_cost fit = avail ∧
           e = BudgetRefused (if reserved_for_output (budget a) =? 0 then EmptyWindow else ReservationTooLarge) ∨
         retrieved_cost fit < avail ∧ avail < retrieved_cost fit + cost (anchors (messages s)) ∧
           e = BudgetRefused AnchorsExceedBudget)
  end.
Proof.
  intros Hw Hr Hmax Hsh Hlen avail quota examined. unfold assemble. fold avail examined.
  assert (0 < avail < u64_max) as Hav by (unfold avail, available; lia).
  destruct (share_allowance avail (retrieval_share_percent a)) as [Hal0 Hal]; [lia..|].
  change (sat_mul avail (retrieval_share_percent a) / 100) with quota in *. clearbody quota.
  destruct (forallb item_valid examined) eqn:Ev.
  2: { destruct (retrieved_invalid quota examined 0 false [] [] Ev) as (pre & it & post & why & H1 & H2 & H3 & ->). cbn. left.
       by exists pre, it, post, why. }
  destruct (retrieved_loop_spec quota examined 0 []) as (fit & rest & Hsplit & -> & Hfit & Hnext); [lia..|done|].
  cbn [mbind result_bind app]. rewrite Z.add_0_l in *. pose proof (retrieved_cost_nonneg fit) as Hnn.
  assert (Taken quota examined fit rest) as Htk by by constructor.
  unfold avail, available in Hal. replace (context_window (budget a) <? retrieved_cost fit) with false by lia.
  unfold budget_new. destruct (_ =? 0) eqn:E0; boolify.
  { right. split; [done|]. exists fit, rest. split; [done|]. left. split; [unfold avail, available; lia|].
    by replace (reserved_for_output (budget a) =? 0) with true by lia. }
  destruct (_ <=? _) eqn:E1; boolify.
  { right. split; [done|]. exists fit, rest. split; [done|]. left. split; [unfold avail, available; lia|].
    by replace (reserved_for_output (budget a) =? 0) with false by lia. }
  set (conv := mkBudget _ _). assert (available conv = avail - retrieved_cost fit) as Hc by (unfold conv, avail, available; cbn; lia).
  assert (retrieved_cost fit < avail) as Hlt by (unfold avail, available; lia).
  pose proof (plan_spec (messages s) (summaries s) conv (wf_sorted _ Hw)) as Hp. rewrite Hc in Hp.
  destruct (plan_truncation (messages s) (summaries s) conv) as [p|e].
  2: { destruct Hp as [-> Hp]; [lia|]. right. split; [done|]. exists fit, rest. split; [done|]. right. split_and!; [done|lia|done]. }
  destruct Hp as (old & orphans & window & Hp); [lia|].
  assert (len (pick (messages s) (admitted p)) =? len (admitted p) = true) as ->.
  { rewrite (planned_admitted _ _ _ _ _ _ _ Hp). unfold kept_entry. rewrite pick_filter by apply wf_sorted, Hw.
    unfold len. rewrite length_fmap. apply Z.eqb_refl. }
  cbn [negb]. split; [done|]. eexists old, orphans, window, _, rest. by apply assembled_parts; try done; lia.
Qed.

End AssemblyTheorems.

(** ** What compaction does *)

Section CompactionTheorems.
Context `{TokenCounter}.

Lemma ordinary_cons m ms : ordinary (m :: ms) = if is_anchor m then ordinary ms else m :: ordinary ms.
Proof. unfold ordinary. cbn. by destruct (is_anchor m). Qed.

(** Counting stops early, with the answer that counting all would give. *)
Lemma trigger_loop_spec threshold ms used over n :
  0 ≤ used ≤ u64_max → threshold < u64_max → (over = true ∨ used ≤ threshold) →
  trigger_loop threshold ms used over n = (over || (threshold <? used + cost ms), (n + length (ordinary ms))%nat).
Proof.
  intros Hu Ht. revert used over n Hu. induction ms as [|m ms IH]; intros used over n Hu Ho; cbn [trigger_loop].
  { cbn. rewrite Z.add_0_r, Nat.add_0_r. destruct over; [done|]. destruct Ho as [|Ho]; [done|]. by replace (threshold <? used) with false by lia. }
  rewrite ordinary_cons, cost_cons. pose proof (count_message_range m). pose proof (cost_nonneg ms).
  assert (Hn : ((if is_anchor m then n else S n) + length (ordinary ms) = n + length (if is_anchor m then ordinary ms else m :: ordinary ms))%nat)
    by (destruct (is_anchor m); cbn; lia).
  destruct over; [rewrite IH by (done || by left); by rewrite Hn|]. destruct Ho as [|Ho]; [done|].
  rewrite IH; [rewrite Hn; f_equal; cbn|unfold sat_add; lia|destruct (threshold <? _) eqn:E; [by left|right; lia]].
  unfold sat_add. apply eq_true_iff_eq. rewrite orb_true_iff, !Z.ltb_lt. lia.
Qed.

(** The messages a plan covers are the oldest ordinary ones; [keep_recent] are left. *)
Record Covers (ms : list Message) (p : SummarizationPolicy) (plan : SummarizationPlan) (run kept : list Message) : Prop := {
  covers_split : ordinary ms = run ++ kept;
  covers_kept : length kept = keep_recent p;
  covers_run : length run = message_count plan;
  covers_first : id <$> head run = Some (plan_first plan);
  covers_last : id <$> list.last run = Some (plan_last plan);
}.

Definition due (s : Session) (b : TokenBudget) (p : SummarizationPolicy) : Prop :=
  sat_mul (available b) (trigger_percent p) / 100 < cost (messages s) ∧ (keep_recent p < length (ordinary (messages s)))%nat.

Lemma plan_summarization_spec s b p :
  0 ≤ available b < u64_max → 0 ≤ trigger_percent p ≤ 100 →
  match plan_summarization s b p with
  | None => ~ due s b p
  | Some plan => due s b p ∧ max_tokens plan = Z.max (summary_tokens p b) 1 ∧
      ∃ run kept, Covers (messages s) p plan run kept
  end.
Proof.
  intros Ha Ht. unfold plan_summarization, due. pose proof (share_allowance (available b) (trigger_percent p) Ha Ht) as Hth.
  rewrite trigger_loop_spec by (unfold u64_max in *; (lia || (right; lia))). cbn [orb]. rewrite Z.add_0_l, Nat.add_0_l.
  set (threshold := sat_mul _ _ / 100) in *. destruct (threshold <? cost (messages s)) eqn:E; cbn [negb]; boolify; [|lia].
  set (n := length (ordinary (messages s))). destruct (n <=? keep_recent p)%nat eqn:El.
  { apply Nat.leb_le in El. lia. }
  apply Nat.leb_gt in El. set (cut := (n - keep_recent p)%nat).
  assert (cut ≤ n ∧ 0 < cut)%nat as [Hcn Hc0] by lia.
  assert (Hlast : list.last (take cut (ordinary (messages s))) = ordinary (messages s) !! (cut - 1)%nat).
  { rewrite last_lookup, length_take. fold n. rewrite Nat.min_l by lia. replace (Nat.pred cut) with (cut - 1)%nat by lia.
    by rewrite lookup_take_lt by lia. }
  destruct (ordinary (messages s)) as [|m rest] eqn:Eo; [cbn in n; lia|].
  destruct (lookup_lt_is_Some_2 (m :: rest) (cut - 1)) as [x Hx]; [fold n; lia|].
  assert ((if decide (cut = 1%nat) then Some (id m) else id <$> rest !! (cut - 2)%nat) = Some (id x)) as ->.
  { destruct (decide (cut = 1%nat)) as [Hc|Hc]; [rewrite Hc in Hx; by injection Hx as ->|].
    replace (cut - 1)%nat with (S (cut - 2)) in Hx by lia. change (rest !! (cut - 2)%nat = Some x) in Hx. by rewrite Hx. }
  cbn [mbind option_bind]. split_and!; [done|done|done|]. exists (take cut (m :: rest)), (drop cut (m :: rest)). constructor; cbn [plan_first plan_last message_count].
  - by rewrite Eo, take_drop.
  - rewrite length_drop. fold n. lia.
  - rewrite length_take. fold n. lia.
  - destruct cut; [lia|done].
  - by rewrite Hlast, Hx.
Qed.

Lemma sorted_between (run kept : list Message) f l m :
  StronglySorted Z.lt (ids (run ++ kept)) → id <$> head run = Some f → id <$> list.last run = Some l → m ∈ run ++ kept →
  m ∈ run ↔ f ≤ id m ∧ id m ≤ l.
Proof.
  intros Hs Hf Hl Hm. assert (Hlow : ∀ a, a ∈ run → f ≤ id a).
  { destruct run as [|h t]; [done|]. injection Hf as <-. intros a [->|Ha]%elem_of_cons; [done|]. cbn in Hs.
    apply StronglySorted_inv in Hs as [_ Hs]. rewrite Forall_fmap, Forall_forall in Hs. specialize (Hs a). cbn in Hs.
    assert (id h < id a); [apply Hs, elem_of_app; by left|lia]. }
  destruct run as [|y run _] using rev_ind; [done|]. rewrite last_snoc in Hl. injection Hl as <-.
  assert (Hlt : ∀ a b l1 l2, run ++ y :: kept = l1 ++ l2 → a ∈ l1 → b ∈ l2 → id a < id b).
  { intros a b l1 l2 Hsp Ha Hb. rewrite <- app_assoc in Hs. cbn in Hs. rewrite Hsp in Hs. unfold ids in Hs. rewrite fmap_app in Hs.
    eapply StronglySorted_app_1_elem_of; [exact Hs|by apply list_elem_of_fmap_2|by apply list_elem_of_fmap_2]. }
  split.
  - intros Hin. split; [by apply Hlow|]. apply elem_of_app in Hin as [Hin| ->%list_elem_of_singleton]; [|done].
    specialize (Hlt m y run (y :: kept) eq_refl Hin). assert (id m < id y); [apply Hlt; left|lia].
  - intros [_ Hle]. apply elem_of_app in Hm as [Hm|Hm]; [done|]. specialize (Hlt y m (run ++ [y]) kept).
    rewrite <- app_assoc in Hlt. assert (id y < id m); [|lia]. apply Hlt; [done| |done]. apply elem_of_app. right. left.
Qed.

(** *** The run *)

Lemma run_bounds_spec plan ms pre found bounds :
  run_bounds plan ms (length pre) found = Some bounds →
  match found with
  | None => List.filter (covered plan) pre = []
  | Some (f, l) => (f ≤ l < length pre)%nat ∧ take (S l - f) (drop f pre) = List.filter (covered plan) pre
  end →
  match bounds with
  | None => True
  | Some (f, l) => take (S l - f) (drop f (pre ++ ms)) = List.filter (covered plan) (pre ++ ms)
  end.
Proof.
  revert pre found. induction ms as [|m ms IH]; intros pre found; cbn [run_bounds].
  { intros [= <-]. rewrite app_nil_r. destruct found as [[f l]|]; [|done]. by intros [_ ->]. }
  rewrite (cons_middle m pre), app_assoc. replace (S (length pre)) with (length (pre ++ [m])) by (rewrite length_app; cbn; lia).
  assert (Hkeep : ∀ f l, (f ≤ l < length pre)%nat → take (S l - f) (drop f (pre ++ [m])) = take (S l - f) (drop f pre)).
  { intros f l Hfl. rewrite drop_app_le by lia. rewrite take_app_le; [done|]. rewrite length_drop. lia. }
  assert (Hsnoc : List.filter (covered plan) (pre ++ [m]) = List.filter (covered plan) pre ++ (if covered plan m then [m] else []))
    by (by rewrite List.filter_app).
  destruct (covered plan m) eqn:Ec; cbn [negb].
  - destruct found as [[f l]|].
    + destruct (decide (S l = length pre)) as [Hl|]; [|done]. intros Hr [Hfl Hf]. eapply IH; [exact Hr|]. rewrite Hsnoc, <- Hf.
      split; [rewrite length_app; cbn; lia|]. rewrite drop_app_le, take_ge by (rewrite ?length_app, ?length_drop; cbn; lia).
      rewrite (take_ge (drop f pre)) by (rewrite length_drop; lia). done.
    + intros Hr Hf. eapply IH; [exact Hr|]. rewrite Hsnoc, Hf. split; [rewrite length_app; cbn; lia|].
      rewrite drop_app_length. by replace (S (length pre) - length pre)%nat with 1%nat by lia.
  - rewrite app_nil_r in Hsnoc. intros Hr Hf. eapply IH; [exact Hr|]. destruct found as [[f l]|]; rewrite Hsnoc; [|done].
    destruct Hf as [Hfl Hf]. split; [rewrite length_app; cbn; lia|]. by rewrite Hkeep.
Qed.

(** The borrowed slice, where there is one, is what gathering would give. *)
Lemma contiguous_run_gathered plan ms run : contiguous_run plan ms = Some run → run = List.filter (covered plan) ms.
Proof.
  unfold contiguous_run. destruct (run_bounds plan ms 0 None) as [[[f l]|]|] eqn:E; [|done..]. intros [= <-].
  by apply (run_bounds_spec plan ms [] None) in E.
Qed.

Lemma covered_run s p plan run kept :
  WF s → Covers (messages s) p plan run kept → List.filter (covered plan) (messages s) = run.
Proof.
  intros Hw [Hs _ _ Hf Hl]. transitivity (List.filter (λ m, (plan_first plan <=? id m) && (id m <=? plan_last plan)) (ordinary (messages s))).
  - clear. unfold ordinary. induction (messages s) as [|m ms IH]; [done|]. cbn. unfold covered at 1.
    destruct (is_anchor m); cbn; [done|]. by rewrite IH.
  - pose proof (ids_filter_sorted (λ m, negb (is_anchor m)) _ (wf_sorted _ Hw)) as Hso. fold (ordinary (messages s)) in Hso.
    rewrite Hs in *. rewrite List.filter_app, filter_all, filter_none, app_nil_r; [done|..].
    + intros m Hm. pose proof (ordinary_nodup _ (wf_sorted _ Hw)) as Hnd. rewrite Hs in Hnd. apply NoDup_app in Hnd as (_ & Hnd & _).
      apply not_true_iff_false. rewrite andb_true_iff, !Z.leb_le, <- (sorted_between run kept _ _ m Hso Hf Hl); [|apply elem_of_app; by right].
      intros Hr. by apply (Hnd m).
    + intros m Hm. rewrite andb_true_iff, !Z.leb_le, <- (sorted_between run kept _ _ m Hso Hf Hl); [done|apply elem_of_app; by left].
Qed.

Lemma retain_parts sm ms :
  anchors (retain sm ms) = anchors ms ∧
  ordinary (retain sm ms) = List.filter (λ m, negb (covers sm (id m))) (ordinary ms).
Proof.
  unfold retain, anchors, ordinary. split; (induction ms as [|m ms IH]; [done|]); cbn;
    destruct (is_anchor m) eqn:E; cbn; destruct (covers sm (id m)); cbn; rewrite ?E; cbn; by rewrite IH.
Qed.

(** What a summary over the covered run leaves of the session. *)
Lemma absorb_run s p plan run kept t at_ :
  WF s → Covers (messages s) p plan run kept →
  let sm := mkSummary (plan_first plan) (plan_last plan) t at_ in
  anchors (retain sm (messages s)) = anchors (messages s) ∧ ordinary (retain sm (messages s)) = kept.
Proof.
  intros Hw Hc sm. destruct (retain_parts sm (messages s)) as [Ha Ho]. split; [done|]. rewrite Ho.
  pose proof (covered_run s p plan run kept Hw Hc) as Hrun. destruct Hc as [Hs _ _ Hf Hl].
  pose proof (ids_filter_sorted (λ m, negb (is_anchor m)) _ (wf_sorted _ Hw)) as Hso. fold (ordinary (messages s)) in Hso.
  pose proof (ordinary_nodup _ (wf_sorted _ Hw)) as Hnd. rewrite Hs in *. apply NoDup_app in Hnd as (_ & Hnd & _).
  assert (Hcov : ∀ m, m ∈ run ++ kept → covers sm (id m) = true ↔ m ∈ run).
  { intros m Hm. unfold covers. cbn. rewrite andb_true_iff, !Z.leb_le. symmetry. by apply (sorted_between run kept). }
  rewrite List.filter_app, filter_none, filter_all; [done|..].
  - intros m Hm. apply negb_true_iff, not_true_iff_false. rewrite Hcov by (apply elem_of_app; by right). intros Hr. by apply (Hnd m).
  - intros m Hm. apply negb_false_iff. by rewrite Hcov by (apply elem_of_app; by left).
Qed.

(** The summarizer is given the run, gathered or borrowed. *)
Lemma summarize_run_spec summarize s p plan run kept :
  WF s → Covers (messages s) p plan run kept →
  run ≠ [] ∧ summarize_run summarize s plan = text ← summarize (session_id s) run (max_tokens plan); Ok (Some text).
Proof.
  intros Hw Hc. pose proof (covered_run s p plan run kept Hw Hc) as Hrun. unfold summarize_run.
  assert ((match contiguous_run plan (messages s) with Some run => run | None => List.filter (covered plan) (messages s) end) = run) as ->.
  { destruct (contiguous_run plan (messages s)) as [run'|] eqn:E; [|done]. apply contiguous_run_gathered in E. congruence. }
  assert (run ≠ []) as Hne by (intros ->; by destruct Hc). split; [done|]. by rewrite bool_decide_eq_false_2.
Qed.

(** Compaction loses nothing it does not summarize: when it is not due or anything
    fails, the session is as it was; otherwise the summarizer was given exactly the
    ordinary messages that are removed, in order, the summary fits its bound and is
    recorded, the newest [keep_recent] ordinary messages and every system and pinned
    message stay, and the session keeps its invariant. It is due exactly when the
    history costs more than the trigger's share of the allowance and more than
    [keep_recent] messages can be replaced. *)
Theorem compaction_contract (summarize : str → list Message → Z → result SummaryError str)
    (s s' : Session) (b : TokenBudget) (p : SummarizationPolicy) (at_ : Z) (r : result SummaryError (option Summary)) :
  WF s → 0 ≤ available b < u64_max → 0 ≤ trigger_percent p ≤ 100 →
  compact summarize s b p at_ = (s', r) →
  WF s' ∧
  match r with
  | Err _ => s' = s ∧ due s b p
  | Ok None => s' = s ∧ ~ due s b p
  | Ok (Some sm) => due s b p ∧
      ∃ run kept, ordinary (messages s) = run ++ kept ∧ run ≠ [] ∧ length kept = keep_recent p ∧
        summarize (session_id s) run (Z.max (summary_tokens p b) 1) = Ok (text sm) ∧
        count_text (text sm) ≤ Z.max (summary_tokens p b) 1 ∧
        ordinary (messages s') = kept ∧ anchors (messages s') = anchors (messages s) ∧ summaries s' = summaries s ++ [sm]
  end.
Proof.
  intros Hw Ha Ht. unfold compact. pose proof (plan_summarization_spec s b p Ha Ht) as Hp.
  destruct (plan_summarization s b p) as [plan|]; [|by intros [= <- <-]]. destruct Hp as (Hdue & Hm & run & kept & Hc).
  destruct (summarize_run_spec summarize s p plan run kept Hw Hc) as [Hne ->]. rewrite Hm in *.
  destruct (summarize (session_id s) run _) as [t|e] eqn:Es; cbn [mbind result_bind]; [|by intros [= <- <-]].
  case_bool_decide; [by intros [= <- <-]|]. destruct (_ <? count_text t) eqn:El; [by intros [= <- <-]|]. boolify.
  set (sm := mkSummary _ _ _ _). destruct (absorb s sm) as [[s1 n]|e] eqn:Eb; [|by intros [= <- <-]]. intros [= <- <-].
  split; [by eapply absorb_wf|]. split; [done|]. apply absorb_Ok in Eb as (-> & _ & _ & _). cbn [messages summaries].
  destruct (absorb_run s p plan run kept t at_ Hw Hc) as [H1 H2]. exists run, kept. destruct Hc. by split_and!.
Qed.

End CompactionTheorems.

(** ** The extractive summarizer always serves *)

Definition lines_cost (lines : list str) : Z := foldr (λ l n, len l + 1 + n) 0 lines.

Lemma lines_cost_cons x l : lines_cost (x :: l) = len x + 1 + lines_cost l.
Proof. done. Qed.

Lemma lines_cost_app l l' : lines_cost (l ++ l') = lines_cost l + lines_cost l'.
Proof. induction l as [|x l IH]; [done|]. rewrite <- app_comm_cons, !lines_cost_cons. lia. Qed.

Lemma len_join c lines : lines ≠ [] → len (join [c] lines) = lines_cost lines - 1.
Proof.
  destruct lines as [|x lines]; [done|]. intros _. unfold join. rewrite len_app, lines_cost_cons.
  assert (len (concat (app [c] <$> lines)) = lines_cost lines) as ->; [|lia].
  induction lines as [|y lines IH]; [done|]. rewrite fmap_cons, lines_cost_cons. cbn [concat].
  rewrite len_app, IH. cbn [app]. rewrite len_cons. lia.
Qed.

Lemma extract_loop_spec characters limit ms used lines :
  0 ≤ used → used = lines_cost lines → used ≤ limit → limit < u64_max →
  let out := extract_loop characters limit ms used lines in
  lines_cost out ≤ limit ∧ (∃ l, out = lines ++ l) ∧
  (∀ x, x ∈ out → x ∈ lines ∨ ∃ m, m ∈ ms ∧ x = summary_line m characters).
Proof.
  intros H0 Hu Hl Hm. revert used lines H0 Hu Hl. induction ms as [|m ms IH]; intros used lines H0 Hu Hl; cbn [extract_loop].
  { split_and!; [lia|exists []; by rewrite app_nil_r|by left]. }
  set (line := summary_line m characters). pose proof (len_nonneg line).
  destruct (within limit used (len line + 1)) as [-> Hw]; [lia..|]. destruct (limit <? used + (len line + 1)) eqn:E; boolify.
  { split_and!; [lia|exists []; by rewrite app_nil_r|by left]. }
  rewrite Hw by done. destruct (IH (used + (len line + 1)) (lines ++ [line])) as (H1 & (l & H2) & H3); [lia| |lia|].
  { rewrite lines_cost_app, lines_cost_cons, <- Hu. cbn. lia. }
  split_and!; [done|exists (line :: l); by rewrite H2, <- app_assoc|]. intros x Hx. destruct (H3 x Hx) as [Hx'|(m' & Hm' & ->)].
  - apply elem_of_app in Hx' as [Hx'| ->%list_elem_of_singleton]; [by left|]. right. exists m. split; [left|done].
  - right. exists m'. split; [by right|done].
Qed.

(** Every line begins with the name of a role. *)
Lemma summary_line_head m n : ∃ c t, summary_line m n = c :: t ∧ is_whitespace c = false.
Proof. unfold summary_line. destruct (role m); cbn; by eexists _, _. Qed.

Lemma extractive_text characters session ms bound :
  ms ≠ [] → 1 ≤ bound ≤ MAX_MESSAGE_BYTES →
  ∃ t, extractive_summarize characters session ms bound = Ok t ∧ trim t ≠ [] ∧ len t ≤ 4 * bound.
Proof.
  intros Hne Hb. destruct ms as [|m ms]; [done|]. unfold extractive_summarize. eexists. split; [reflexivity|].
  assert (Z.max (sat_mul bound 4) 1 = 4 * bound) as ->.
  { unfold sat_mul. change u64_max with 18446744073709551615. unfold MAX_MESSAGE_BYTES in Hb. lia. }
  destruct (extract_loop_spec characters (4 * bound) (m :: ms) 0 []) as (H1 & _ & H3); [done|done|lia| |].
  { change u64_max with 18446744073709551615. unfold MAX_MESSAGE_BYTES in Hb. lia. }
  set (lines := extract_loop _ _ _ _ _) in *. case_bool_decide as El.
  - destruct (summary_line_head m 32) as (c & t & Hc & Hw). rewrite Hc. unfold join. cbn [concat fmap list_fmap]. rewrite app_nil_r.
    destruct (Z.to_nat (4 * bound)) as [|n] eqn:En; [lia|]. cbn [take]. split.
    + apply (trim_nonempty _ c); [left|done].
    + rewrite len_cons. unfold len. rewrite length_take. lia.
  - rewrite len_join by done. split; [|lia]. destruct lines as [|x lines]; [done|].
    destruct (H3 x) as [?%not_elem_of_nil|(m' & _ & ->)]; [left|done|].
    destruct (summary_line_head m' characters) as (c & t & Hc & Hw). rewrite Hc. unfold join.
    rewrite <- app_comm_cons. apply (trim_nonempty _ c); [left|done].
Qed.

Lemma heuristic_within t bound : t ≠ [] → len t ≤ 4 * bound → heuristic_count_text heuristic_default t ≤ bound.
Proof.
  intros Hne Hl. unfold heuristic_count_text. rewrite bool_decide_eq_false_2 by done. cbn. unfold div_ceil.
  pose proof (Z.div_mod (len t) 4 ltac:(done)). pose proof (Z.mod_pos_bound (len t) 4 ltac:(done)). case_match; boolify; lia.
Qed.

(** A text for a planned run is accepted as its summary. *)
Lemma summary_acceptable `{TokenCounter} s p plan run kept t at_ :
  WF s → Covers (messages s) p plan run kept → t ≠ [] → len (as_bytes t) ≤ MAX_MESSAGE_BYTES →
  check_summary (mkSummary (plan_first plan) (plan_last plan) t at_) = Ok tt.
Proof.
  intros Hw [Hs _ _ Hf Hl] Hne Hb. unfold check_summary, check_body. cbn [first last text]. rewrite bool_decide_eq_false_2 by done.
  replace (MAX_MESSAGE_BYTES <? len (as_bytes t)) with false by lia. destruct run as [|h run0] eqn:Er; [done|]. rewrite <- Er in *.
  pose proof (ids_filter_sorted (λ m, negb (is_anchor m)) _ (wf_sorted _ Hw)) as Hso. fold (ordinary (messages s)) in Hso. rewrite Hs in Hso.
  assert (h ∈ run) as Hh by (rewrite Er; left).
  apply (sorted_between run kept _ _ h Hso Hf Hl) in Hh; [|apply elem_of_app; left; rewrite Er; left].
  by replace (plan_last plan <? plan_first plan) with false by lia.
Qed.

(** The extractive summarizer always serves: with it and the default counter,
    whenever compaction is due on a session that can take another summary, and the
    bound on a summary's tokens keeps its text within a message's size, compaction
    succeeds and leaves exactly [keep_recent] ordinary messages. *)
Theorem extractive_compaction_succeeds (characters : Z) (s : Session) (b : TokenBudget) (p : SummarizationPolicy) (at_ : Z) :
  WF s → 0 ≤ available b < u64_max → 0 ≤ trigger_percent p ≤ 100 →
  @due heuristic_counter s b p → len (summaries s) < MAX_SUMMARIES → 16 * summary_tokens p b ≤ MAX_MESSAGE_BYTES →
  ∃ s' sm, @compact heuristic_counter (extractive_summarize characters) s b p at_ = (s', Ok (Some sm)) ∧
    length (ordinary (messages s')) = keep_recent p ∧ summaries s' = summaries s ++ [sm].
Proof.
  intros Hw Ha Ht Hdue Hsum Hbound. unfold compact. pose proof (@plan_summarization_spec heuristic_counter s b p Ha Ht) as Hp.
  destruct (plan_summarization s b p) as [plan|]; [|done]. destruct Hp as (_ & Hm & run & kept & Hc).
  destruct (summarize_run_spec (extractive_summarize characters) s p plan run kept Hw Hc) as [Hne ->]. rewrite Hm in *.
  set (bound := Z.max (summary_tokens p b) 1). assert (1 ≤ bound ∧ 16 * bound ≤ MAX_MESSAGE_BYTES) as [Hb1 Hb2].
  { unfold bound, MAX_MESSAGE_BYTES in *. lia. }
  destruct (extractive_text characters (session_id s) run bound Hne) as (t & -> & Htrim & Hlen); [lia|].
  cbn [mbind result_bind]. rewrite bool_decide_eq_false_2 by done.
  assert (t ≠ []) as Hnil by (by intros ->). pose proof (heuristic_within t bound Hnil Hlen) as Hct.
  change (count_text t) with (heuristic_count_text heuristic_default t).
  replace (bound <? heuristic_count_text heuristic_default t) with false by lia. set (sm := mkSummary _ _ _ _).
  assert (absorb s sm = Ok (mkSession (session_id s) (retain sm (messages s)) (summaries s ++ [sm]) (next_ordinal s),
            len (messages s) - len (retain sm (messages s)))) as ->.
  { pose proof (len_as_bytes t). unfold absorb, sm. rewrite (summary_acceptable s p plan run kept t at_ Hw Hc) by (done || lia).
    cbn [mbind result_bind]. by replace (MAX_SUMMARIES <=? len (summaries s)) with false by lia. }
  destruct (absorb_run s p plan run kept t at_ Hw Hc) as [_ Hk]. eexists _, sm. split; [reflexivity|]. cbn [messages summaries].
  split; [|done]. unfold sm. cbn in Hk. rewrite Hk. by destruct Hc.
Qed.

(** ** Examples *)

Definition talk : Session :=
  mkSession (chars "s")
    [mkMessage 0 System (chars "be brief") 1 false; mkMessage 1 User (chars "first question") 2 false;
     mkMessage 2 Assistant (chars "calling a tool") 3 false; mkMessage 3 Tool (chars "result. and more") 4 false;
     mkMessage 4 User (chars "thanks") 5 false]
    [mkSummary 0 0 (chars "earlier") 1] 5.

Lemma talk_wf : WF talk.
Proof.
  apply (decode_sound talk); [|vm_compute; reflexivity]. split; [split; vm_compute; discriminate|].
  repeat constructor; vm_compute; discriminate.
Qed.

Definition small_budget : TokenBudget := mkBudget 50 10.
Definition half_retrieval : ContextAssembler := mkAssembler small_budget 50.
Definition one_note : list Retrieval.RetrievedItem :=
  [Retrieval.mkItem (Retrieval.note (chars "a") (chars "red fox") 1) Vector.f32_one].

Definition talk_ids (r : result ContextError AssembledContext) : list Z :=
  match r with Ok c => ids (ctx_messages c) | Err _ => [] end.

Lemma context_contract_witness :
  talk_ids (@assemble heuristic_counter half_retrieval talk one_note) = [0; 4] ∧
  match @assemble heuristic_counter half_retrieval talk one_note with
  | Ok c => ∃ old orphans window older rest, @Assembled heuristic_counter 40 20 talk one_note c old orphans window older rest
  | Err _ => False
  end.
Proof.
  split; [vm_compute; reflexivity|].
  pose proof (@context_contract heuristic_counter half_retrieval talk one_note talk_wf
    ltac:(vm_compute; split; done) ltac:(vm_compute; done) ltac:(vm_compute; split; done) ltac:(vm_compute; done)) as H.
  cbv zeta in H. change (available (budget half_retrieval)) with 40 in H.
  change (Z.min (40 * retrieval_share_percent half_retrieval) u64_max / 100) with 20 in H.
  destruct (@assemble heuristic_counter half_retrieval talk one_note) as [c|e] eqn:E; [exact (proj2 H)|].
  vm_compute in E. discriminate E.
Defined.

Definition keep_one : SummarizationPolicy := mkPolicy 50 1 30.

Definition compacted : Session * result SummaryError (option Summary) :=
  @compact heuristic_counter (extractive_summarize 120) talk small_budget keep_one 9.

Lemma compacted_ok : @compact heuristic_counter (extractive_summarize 120) talk small_budget keep_one 9 = (compacted.1, compacted.2).
Proof. vm_compute. reflexivity. Qed.

Lemma compaction_contract_witness :
  ids (messages compacted.1) = [0; 4] ∧
  WF compacted.1 ∧
  match compacted.2 with
  | Err _ => compacted.1 = talk ∧ @due heuristic_counter talk small_budget keep_one
  | Ok None => compacted.1 = talk ∧ ~ @due heuristic_counter talk small_budget keep_one
  | Ok (Some sm) => @due heuristic_counter talk small_budget keep_one ∧
      ∃ run kept, ordinary (messages talk) = run ++ kept ∧ run ≠ [] ∧ length kept = keep_recent keep_one ∧
        extractive_summarize 120 (session_id talk) run (Z.max (summary_tokens keep_one small_budget) 1) = Ok (text sm) ∧
        @count_text heuristic_counter (text sm) ≤ Z.max (summary_tokens keep_one small_budget) 1 ∧
        ordinary (messages compacted.1) = kept ∧ anchors (messages compacted.1) = anchors (messages talk) ∧
        summaries compacted.1 = summaries talk ++ [sm]
  end.
Proof.
  split; [vm_compute; reflexivity|].
  refine (@compaction_contract heuristic_counter (extractive_summarize 120) talk compacted.1 small_budget keep_one 9 compacted.2
    talk_wf _ _ compacted_ok); vm_compute; (done || split; done).
Defined.

Lemma extractive_compaction_succeeds_witness :
  @due heuristic_counter talk small_budget keep_one ∧
  ∃ s' sm, @compact heuristic_counter (extractive_summarize 120) talk small_budget keep_one 9 = (s', Ok (Some sm)) ∧
    length (ordinary (messages s')) = keep_recent keep_one ∧ summaries s' = summaries talk ++ [sm].
Proof.
  assert (@due heuristic_counter talk small_budget keep_one) as Hdue by (split; vm_compute; [reflexivity|lia]).
  split; [exact Hdue|].
  refine (extractive_compaction_succeeds 120 talk small_budget keep_one 9 talk_wf _ _ Hdue _ _); vm_compute; (done || split; done).
Defined.

End Context.
