(* ===== verification/Json.v ===== *)
(** * JSON values

    [serde_json::Value] as the tools of [crates/claw-tools] use it: the workspace
    builds [serde_json] with [preserve_order], so an object is the list of its
    entries in the order of their insertion, [insert] replaces the value of a key it
    already has where it stands, and [get] finds the entry of a key. A number is one
    of the three representations [Number] has; a float is its bit pattern. *)

From S2P Require Import Prelude Utf8 Text.

Module Json.

Inductive Number :=
| PosInt (n : Z)
| NegInt (n : Z)
| Float (bits : Z).

Inductive Value :=
| Null
| Bool (b : bool)
| Num (n : Number)
| Str (s : str)
| Arr (items : list Value)
| Obj (entries : list (str * Value)).

Abbreviation Map := (list (str * Value)).

#[export] Instance Number_eq_dec : EqDecision Number.
Proof. solve_decision. Defined.

(** [Value::as_object], [as_str], [as_u64], [as_bool], [as_array] *)
Definition as_object (v : Value) : option Map := match v with Obj l => Some l | _ => None end.
Definition as_str (v : Value) : option str := match v with Str s => Some s | _ => None end.
Definition as_u64 (v : Value) : option Z := match v with Num (PosInt n) => Some n | _ => None end.
Definition as_bool (v : Value) : option bool := match v with Bool b => Some b | _ => None end.
Definition as_array (v : Value) : option (list Value) := match v with Arr l => Some l | _ => None end.

(** [Map::get], and [value[key]] and [Value::get], which find nothing in a value that is not an object. *)
Fixpoint get (k : str) (m : Map) : option Value :=
  match m with
  | [] => None
  | (j, v) :: m => if decide (j = k) then Some v else get k m
  end.

Definition member (k : str) (v : Value) : option Value := match v with Obj m => get k m | _ => None end.

(** [Map::insert] *)
Fixpoint insert (k : str) (v : Value) (m : Map) : Map :=
  match m with
  | [] => [(k, v)]
  | (j, w) :: m => if decide (j = k) then (j, v) :: m else (j, w) :: insert k v m
  end.

Definition from_entries (l : Map) : Map := foldl (λ m e, insert e.1 e.2 m) [] l.

(** [Value::from] of an unsigned integer. *)
Definition number (n : Z) : Value := Num (PosInt n).

Lemma get_insert k v m j : get j (insert k v m) = if decide (k = j) then Some v else get j m.
Proof.
  induction m as [|[i w] m IH]; cbn; [by repeat case_decide; simplify_eq|].
  repeat (case_decide; cbn); simplify_eq; try done; by rewrite IH, ?decide_True, ?decide_False.
Qed.

Lemma get_Some_elem k m v : get k m = Some v → (k, v) ∈ m.
Proof.
  induction m as [|[i w] m IH]; cbn; [done|]. case_decide; intros; simplify_eq; [by left|right; auto].
Qed.

Lemma get_None_elem k m : get k m = None ↔ k ∉ m.*1.
Proof.
  induction m as [|[i w] m IH]; cbn; [set_solver|]. rewrite not_elem_of_cons, <- IH. case_decide; naive_solver.
Qed.

Lemma length_insert k v m : (length (insert k v m) ≤ S (length m))%nat.
Proof. induction m as [|[i w] m IH]; cbn; [done|]. case_decide; cbn; lia. Qed.

Lemma Forall_insert (P : Value → Prop) k v m :
  P v → Forall (λ e, P e.2) m → Forall (λ e, P e.2) (insert k v m).
Proof.
  intros Hv. induction 1 as [|[i w] m Hw Hm IH]; cbn; [by repeat constructor|].
  case_decide; by constructor.
Qed.

Lemma foldl_insert_Forall (P : Value → Prop) l m :
  Forall (λ e, P e.2) l → Forall (λ e, P e.2) m → Forall (λ e, P e.2) (foldl (λ m e, insert e.1 e.2 m) m l).
Proof.
  revert m. induction l as [|[i w] l IH]; intros m Hl Hm; [done|]. apply Forall_cons in Hl as [Hw Hl]. cbn.
  apply IH; [done|]. by apply Forall_insert.
Qed.

Lemma from_entries_Forall (P : Value → Prop) l : Forall (λ e, P e.2) l → Forall (λ e, P e.2) (from_entries l).
Proof. intros. by apply foldl_insert_Forall. Qed.

Lemma foldl_insert_length l m : (length (foldl (λ m e, insert e.1 e.2 m) m l) ≤ length l + length m)%nat.
Proof.
  revert m. induction l as [|[i w] l IH]; intros m; cbn; [done|]. rewrite IH. pose proof (length_insert i w m). lia.
Qed.

Lemma from_entries_length l : (length (from_entries l) ≤ length l)%nat.
Proof. unfold from_entries. rewrite foldl_insert_length. cbn. lia. Qed.

End Json.
