(* ===== verification/Permissions.v ===== *)
(** * Capability grants

    Models [crates/claw-tools/src/permission.rs]: the deny-by-default ledger of
    scoped, expiring, use-bounded and revocable grants, and the broker port it
    implements. A ledger is driven by a sequence of operations; what it may answer is
    stated over the history of those operations alone ([standing], [uses],
    [entitled]), and the ledger is shown to compute it. *)

From stdpp Require Import sorting.
From S2P Require Import Prelude Utf8 Text Ranking.

Module Permissions.
Import Ranking.

Inductive Capability := FilesystemRead | FilesystemWrite | ProcessExecute | NetworkFetch | NetworkSearch.

#[export] Instance Capability_eq_dec : EqDecision Capability.
Proof. solve_decision. Defined.

Definition ALL_CAPABILITIES : list Capability :=
  [FilesystemRead; FilesystemWrite; ProcessExecute; NetworkFetch; NetworkSearch].

Definition capability_str (c : Capability) : str :=
  match c with
  | FilesystemRead => chars "filesystem.read"
  | FilesystemWrite => chars "filesystem.write"
  | ProcessExecute => chars "process.execute"
  | NetworkFetch => chars "network.fetch"
  | NetworkSearch => chars "network.search"
  end.

Inductive RiskLevel := Low | Medium | High.

Record PermissionDescriptor := mkDescriptor {
  capability : Capability;
  risk : RiskLevel;
  requires_approval : bool;
  gateway_scope : str;
}.

Inductive Resource :=
| Path (p : str)
| Program (p : str)
| Host (h : str)
| Global.

#[export] Instance Resource_eq_dec : EqDecision Resource.
Proof. solve_decision. Defined.

Inductive GrantScope :=
| PathPrefix (p : str)
| ProgramIs (p : str)
| HostIs (h : str)
| Unrestricted.

Definition SLASH : Z := 0x2F.

(** [path.split('/').filter(|part| !part.is_empty())] *)
Definition components (p : str) : list str :=
  List.filter (λ part, negb (bool_decide (part = []))) (split (λ c, c =? SLASH) p).

Definition path_prefix_matches (prefix path : str) : bool :=
  let prefix_components := components prefix in
  let path_components := components path in
  (len prefix_components <=? len path_components)
  && all (λ pair, bool_decide (pair.1 = pair.2)) (zip prefix_components path_components).

Definition matches (s : GrantScope) (r : Resource) : bool :=
  match s, r with
  | Unrestricted, _ => true
  | PathPrefix prefix, Path path => path_prefix_matches prefix path
  | ProgramIs allowed, Program program => bool_decide (allowed = program)
  | HostIs allowed, Host host => bool_decide (allowed = host)
  | _, _ => false
  end.

Inductive Approval := Explicit | Implicit.

#[export] Instance Approval_eq_dec : EqDecision Approval.
Proof. solve_decision. Defined.

Abbreviation GrantId := Z (only parsing).

Record Grant := mkGrant {
  grant_id : GrantId;
  grant_capability : Capability;
  grant_scope : GrantScope;
  grant_expires : option Z;
  remaining_uses : option Z;
  grant_approval : Approval;
}.

Record GrantRequest := mkGrantRequest {
  asked_capability : Capability;
  scope : GrantScope;
  expires_unix_millis : option Z;
  max_uses : option Z;
  approval : Approval;
}.

Record PermissionRequest := mkRequest {
  request_tool : str;
  request_capability : Capability;
  request_resource : Resource;
  request_approval : bool;
  request_millis : Z;
}.

Inductive DenialReason :=
| NoMatchingGrant | GrantExpired | GrantExhausted | BrokerDeniesAll | ApprovalRequired | AuditUnavailable.

#[export] Instance DenialReason_eq_dec : EqDecision DenialReason.
Proof. solve_decision. Defined.

Inductive PermissionDecision :=
| Granted (id : GrantId)
| Denied (reason : DenialReason).

#[export] Instance PermissionDecision_eq_dec : EqDecision PermissionDecision.
Proof. solve_decision. Defined.

(** The broker port: it answers one question and may spend budget. *)
Class PermissionBroker (B : Type) := { evaluate : B → PermissionRequest → B * PermissionDecision }.

Inductive DenyAllBroker := DenyAll.

#[export] Instance deny_all_broker : PermissionBroker DenyAllBroker :=
  {| evaluate b _ := (b, Denied BrokerDeniesAll) |}.

Record PermissionError := mkPermissionError { tool : str; denied_capability : Capability; reason : DenialReason }.

(** ** The ledger *)

Record GrantLedger := mkLedger { next_id : Z; grants : gmap Z Grant }.

Definition new_ledger : GrantLedger := mkLedger 0 ∅.

Definition grant (l : GrantLedger) (r : GrantRequest) : GrantLedger * GrantId :=
  let id := wrap_add u64_max (next_id l) 1 in
  (mkLedger id
     (<[id := mkGrant id (asked_capability r) (scope r) (expires_unix_millis r) (max_uses r) (approval r)]> (grants l)), id).

Definition revoke (l : GrantLedger) (id : GrantId) : GrantLedger * bool :=
  (mkLedger (next_id l) (delete id (grants l)), bool_decide (is_Some (grants l !! id))).

Definition revoke_all (l : GrantLedger) : GrantLedger := mkLedger (next_id l) ∅.

(** [BTreeMap::values]: in the order of the identifiers. *)
Definition values (m : gmap Z Grant) : list Grant := omap (m !!.) (sort_by Z.compare (elements (dom m))).

Definition expired_at (now : Z) (g : Grant) : bool :=
  match grant_expires g with Some expiry => expiry <=? now | None => false end.

Definition exhausted (g : Grant) : bool := bool_decide (remaining_uses g = Some 0).

Definition active (l : GrantLedger) (now : Z) : list Grant :=
  List.filter (λ g, negb (expired_at now g) && negb (exhausted g)) (values (grants l)).

Record Seen := mkSeen { saw_expired : bool; saw_exhausted : bool; saw_unapproved : bool }.

Definition covers (g : Grant) (r : PermissionRequest) : bool :=
  bool_decide (grant_capability g = request_capability r) && matches (grant_scope g) (request_resource r).

Definition approved (g : Grant) (r : PermissionRequest) : bool :=
  negb (request_approval r && negb (bool_decide (grant_approval g = Explicit))).

Fixpoint select (r : PermissionRequest) (gs : list Grant) (s : Seen) : Seen * option GrantId :=
  match gs with
  | [] => (s, None)
  | g :: gs =>
      if negb (covers g r) then select r gs s
      else if expired_at (request_millis r) g then select r gs (mkSeen true (saw_exhausted s) (saw_unapproved s))
      else if exhausted g then select r gs (mkSeen (saw_expired s) true (saw_unapproved s))
      else if negb (approved g r) then select r gs (mkSeen (saw_expired s) (saw_exhausted s) true)
      else (s, Some (grant_id g))
  end.

Definition denial (s : Seen) : DenialReason :=
  if saw_unapproved s then ApprovalRequired
  else if saw_expired s then GrantExpired
  else if saw_exhausted s then GrantExhausted
  else NoMatchingGrant.

Definition spend (g : Grant) : Grant :=
  mkGrant (grant_id g) (grant_capability g) (grant_scope g) (grant_expires g)
    ((λ remaining, remaining - 1) <$> remaining_uses g) (grant_approval g).

Definition ledger_evaluate (l : GrantLedger) (r : PermissionRequest) : GrantLedger * PermissionDecision :=
  match select r (values (grants l)) (mkSeen false false false) with
  | (s, None) => (l, Denied (denial s))
  | (_, Some id) => (mkLedger (next_id l) (alter spend id (grants l)), Granted id)
  end.

#[export] Instance ledger_broker : PermissionBroker GrantLedger := {| evaluate := ledger_evaluate |}.

(** ** Histories *)

Inductive LedgerOp :=
| Issue (r : GrantRequest)
| Revoke (id : GrantId)
| RevokeAll
| Ask (r : PermissionRequest).

Inductive Reply :=
| Issued (id : GrantId)
| Revoked (existed : bool)
| Cleared
| Decided (d : PermissionDecision).

Definition apply_op (l : GrantLedger) (o : LedgerOp) : GrantLedger * Reply :=
  match o with
  | Issue r => let '(l, id) := grant l r in (l, Issued id)
  | Revoke id => let '(l, b) := revoke l id in (l, Revoked b)
  | RevokeAll => (revoke_all l, Cleared)
  | Ask r => let '(l, d) := ledger_evaluate l r in (l, Decided d)
  end.

Abbreviation History := (list (LedgerOp * Reply)).

Definition run_op (st : GrantLedger * History) (o : LedgerOp) : GrantLedger * History :=
  let '(l, a) := apply_op st.1 o in (l, st.2 ++ [(o, a)]).

Definition run (ops : list LedgerOp) : GrantLedger * History := foldl run_op (new_ledger, []) ops.

(** The requests for grants, in order; the [n]-th is grant [n]. *)
Definition requests (h : History) : list GrantRequest := omap (λ e, match e.1 with Issue r => Some r | _ => None end) h.

(** Grant [id] was issued for [r]. *)
Definition issued (h : History) (id : GrantId) (r : GrantRequest) : Prop :=
  1 ≤ id ∧ requests h !! Z.to_nat (id - 1) = Some r.

(** Grant [id] was issued for [r] and has not been revoked since. *)
Definition standing (h : History) (id : GrantId) (r : GrantRequest) : Prop :=
  ∃ h1 a h2, h = h1 ++ (Issue r, a) :: h2 ∧ id = len (requests h1) + 1 ∧
    Forall (λ e, e.1 ≠ Revoke id ∧ e.1 ≠ RevokeAll) h2.

Definition used (id : GrantId) (e : LedgerOp * Reply) : bool :=
  match e with (Ask _, Decided (Granted j)) => j =? id | _ => false end.

(** How many questions grant [id] has answered. *)
Definition uses (h : History) (id : GrantId) : Z := len (List.filter (used id) h).

(** A standing grant for the capability and the resource asked for. *)
Definition candidate (h : History) (q : PermissionRequest) (id : GrantId) (r : GrantRequest) : Prop :=
  standing h id r ∧ asked_capability r = request_capability q ∧ matches (scope r) (request_resource q) = true.

Definition over (r : GrantRequest) (now : Z) : Prop := ∃ e, expires_unix_millis r = Some e ∧ e ≤ now.
Definition spent (h : History) (id : GrantId) (r : GrantRequest) : Prop := max_uses r = Some (uses h id).
Definition unapproved (q : PermissionRequest) (r : GrantRequest) : Prop := request_approval q = true ∧ approval r ≠ Explicit.

Definition entitled (h : History) (q : PermissionRequest) (id : GrantId) : Prop :=
  ∃ r, candidate h q id r ∧ ¬ over r (request_millis q) ∧ ¬ spent h id r ∧ ¬ unapproved q r.

(** Why nothing is entitled: a grant that lacks approval only, else one that is over, else one that is spent. *)
Definition refusal (h : History) (q : PermissionRequest) (why : DenialReason) : Prop :=
  let lacks_approval := ∃ id r, candidate h q id r ∧ ¬ over r (request_millis q) ∧ ¬ spent h id r ∧ unapproved q r in
  let lacks_time := ∃ id r, candidate h q id r ∧ over r (request_millis q) in
  let lacks_uses := ∃ id r, candidate h q id r ∧ ¬ over r (request_millis q) ∧ spent h id r in
  match why with
  | ApprovalRequired => lacks_approval
  | GrantExpired => ¬ lacks_approval ∧ lacks_time
  | GrantExhausted => ¬ lacks_approval ∧ ¬ lacks_time ∧ lacks_uses
  | NoMatchingGrant => ¬ lacks_approval ∧ ¬ lacks_time ∧ ¬ lacks_uses
  | _ => False
  end.

(** ** Scopes *)

Lemma zip_prefix {A} `{EqDecision A} (p q : list A) :
  (len p <=? len q) && all (λ pair, bool_decide (pair.1 = pair.2)) (zip p q) = true ↔ p `prefix_of` q.
Proof.
  revert q. induction p as [|x p IH]; intros q.
  - split; [intros _; apply prefix_nil|]. intros _. apply andb_true_iff. split; [apply Z.leb_le; unfold len; cbn; lia|by destruct q].
  - destruct q as [|y q].
    + split; [|intros H; by apply prefix_nil_not in H]. intros [H _]%andb_true_iff. apply Z.leb_le in H. unfold len in H. cbn in H. lia.
    + cbn [zip all forallb fst snd]. specialize (IH q). rewrite andb_true_iff in IH |- *. unfold all in *. cbn [zip_with forallb].
      rewrite andb_true_iff, bool_decide_eq_true. rewrite Z.leb_le in IH |- *. unfold len in *. cbn [length fst snd].
      split.
      * intros (? & -> & ?). apply prefix_cons. apply IH. split; [lia|done].
      * intros H. apply prefix_cons_inv_1 in H as Heq. apply prefix_cons_inv_2, IH in H as [? ?]. repeat split; [lia|done|done].
Qed.

(** A grant's path covers another exactly when its components are the first
    components of the other: [src] covers [src/main.rs] and [src] but never [srcs]. *)
Theorem path_scope_by_components prefix path :
  matches (PathPrefix prefix) (Path path) = true ↔ components prefix `prefix_of` components path.
Proof. apply zip_prefix. Qed.

(** ** The ledger in the order of its identifiers *)

#[export] Instance Z_ranks : Ranks Z.compare.
Proof.
  split.
  - apply Z.compare_eq_iff.
  - intros x y. apply Z.compare_antisym.
  - intros x y z H1 H2. rewrite Z.compare_le_iff in *. lia.
Qed.

Lemma elem_of_values m g : g ∈ values m ↔ ∃ id, m !! id = Some g.
Proof.
  unfold values. rewrite list_elem_of_omap. setoid_rewrite sort_by_perm. setoid_rewrite elem_of_elements.
  setoid_rewrite elem_of_dom. naive_solver.
Qed.

Definition keyed (m : gmap Z Grant) : Prop := ∀ id g, m !! id = Some g → grant_id g = id.

Lemma values_sorted m : keyed m → StronglySorted (λ g g', grant_id g < grant_id g') (values m).
Proof.
  intros Hk. unfold values.
  pose proof (sort_by_sorted Z.compare (elements (dom m))) as Hs.
  assert (NoDup (sort_by Z.compare (elements (dom m)))) as Hnd by (rewrite sort_by_perm; apply NoDup_elements).
  induction Hs as [|x l Hs IH Hx]; [constructor|]. apply NoDup_cons in Hnd as [Hxl Hnd]. cbn.
  destruct (m !! x) as [g|] eqn:E; [|by apply IH]. constructor; [by apply IH|].
  apply Forall_forall. intros g' (y & Hy & Hg')%list_elem_of_omap. rewrite (Hk _ _ E), (Hk _ _ Hg').
  rewrite Forall_forall in Hx. specialize (Hx y Hy). unfold le in Hx. rewrite Z.compare_le_iff in Hx.
  assert (x ≠ y) by congruence. lia.
Qed.

Definition usable (r : PermissionRequest) (g : Grant) : bool :=
  covers g r && negb (expired_at (request_millis r) g) && negb (exhausted g) && approved g r.

Definition sees_expired r g := covers g r && expired_at (request_millis r) g.
Definition sees_exhausted r g := covers g r && negb (expired_at (request_millis r) g) && exhausted g.
Definition sees_unapproved r g :=
  covers g r && negb (expired_at (request_millis r) g) && negb (exhausted g) && negb (approved g r).

Lemma select_Some r gs s s' id :
  select r gs s = (s', Some id) →
  ∃ pre g post, gs = pre ++ g :: post ∧ grant_id g = id ∧ usable r g = true ∧ Forall (λ g, usable r g = false) pre.
Proof.
  revert s. induction gs as [|g gs IH]; intros s; cbn [select]; [done|]. unfold usable in *.
  assert (∀ s, select r gs s = (s', Some id) → covers g r && negb (expired_at (request_millis r) g) && negb (exhausted g) && approved g r = false →
    ∃ pre g' post, g :: gs = pre ++ g' :: post ∧ grant_id g' = id ∧
      covers g' r && negb (expired_at (request_millis r) g') && negb (exhausted g') && approved g' r = true ∧
      Forall (λ g, covers g r && negb (expired_at (request_millis r) g) && negb (exhausted g) && approved g r = false) pre) as Hskip.
  { intros s0 H Hg. apply IH in H as (pre & g' & post & -> & ? & ? & ?). exists (g :: pre), g', post. repeat split; [done..|by constructor]. }
  destruct (covers g r) eqn:E1; cbn [negb]; [|intros H; by eapply Hskip].
  destruct (expired_at _ g) eqn:E2; [intros H; by eapply Hskip|].
  destruct (exhausted g) eqn:E3; [intros H; by eapply Hskip|].
  destruct (approved g r) eqn:E4; cbn [negb]; [|intros H; by eapply Hskip].
  intros [= _ <-]. exists [], g, gs. by rewrite E1, E2, E3, E4.
Qed.

Lemma select_None r gs s s' :
  select r gs s = (s', None) →
  Forall (λ g, usable r g = false) gs ∧
  s' = mkSeen (saw_expired s || any (sees_expired r) gs) (saw_exhausted s || any (sees_exhausted r) gs)
         (saw_unapproved s || any (sees_unapproved r) gs).
Proof.
  revert s. induction gs as [|g gs IH]; intros s; cbn [select any existsb].
  { intros [= <-]. rewrite !orb_false_r. by destruct s. }
  unfold usable, sees_expired, sees_exhausted, sees_unapproved in *. fold (any (sees_expired r)).
  rewrite Forall_cons. unfold any in *. cbn [existsb].
  destruct (covers g r); cbn [negb andb]; [|intros H; apply IH in H as [? ->]; by cbn].
  destruct (expired_at _ g); cbn [negb andb]; [intros H; apply IH in H as [? ->]; cbn; by rewrite !orb_true_r|].
  destruct (exhausted g); cbn [negb andb]; [intros H; apply IH in H as [? ->]; cbn; by rewrite !orb_true_r|].
  destruct (approved g r); cbn [negb andb]; [done|]. intros H; apply IH in H as [? ->]; cbn; by rewrite !orb_true_r.
Qed.

(** ** The ledger and its history *)

Lemma requests_app h h' : requests (h ++ h') = requests h ++ requests h'.
Proof. apply omap_app. Qed.

Lemma uses_snoc h e id : uses (h ++ [e]) id = uses h id + Z.b2z (used id e).
Proof. unfold uses. rewrite List.filter_app, len_app. cbn. by destruct (used id e). Qed.

Lemma standing_range h id r : standing h id r → 1 ≤ id ≤ len (requests h).
Proof.
  intros (h1 & a & h2 & -> & -> & _). rewrite requests_app, len_app. cbn. unfold len. cbn [length]. lia.
Qed.

Lemma standing_issued h id r : standing h id r → issued h id r.
Proof.
  intros Hst. split; [apply (standing_range h id r Hst)|]. destruct Hst as (h1 & a & h2 & -> & -> & _). rewrite requests_app. cbn.
  replace (Z.to_nat _) with (length (requests h1)) by (unfold len; lia). by rewrite list_lookup_middle.
Qed.

Lemma standing_inj h id r r' : standing h id r → standing h id r' → r = r'.
Proof. intros [_ H1]%standing_issued [_ H2]%standing_issued. congruence. Qed.

Lemma issued_issue h r a id r' :
  issued (h ++ [(Issue r, a)]) id r' ↔ issued h id r' ∨ (id = len (requests h) + 1 ∧ r' = r).
Proof.
  unfold issued. rewrite requests_app. cbn. rewrite lookup_app. pose proof (len_nonneg (requests h)). unfold len in *.
  destruct (requests h !! Z.to_nat (id - 1)) as [r0|] eqn:E.
  - apply lookup_lt_Some in E as Hlt. split; [tauto|]. intros [H0|[-> _]]; [done|lia].
  - apply lookup_ge_None in E. rewrite list_lookup_singleton_Some. split.
    + intros (? & ? & ->). right. split; [lia|done].
    + intros [[_ ?]|[-> ->]]; [done|]. repeat split; lia.
Qed.

Lemma standing_snoc h e id r :
  standing (h ++ [e]) id r ↔
  (e.1 = Issue r ∧ id = len (requests h) + 1) ∨ (standing h id r ∧ e.1 ≠ Revoke id ∧ e.1 ≠ RevokeAll).
Proof.
  split.
  - intros (h1 & a & h2 & Heq & -> & HF). destruct h2 as [|e' h2 _] using rev_ind.
    + left. apply app_inj_tail in Heq as [-> ->]. done.
    + right. rewrite app_comm_cons, app_assoc in Heq. apply app_inj_tail in Heq as [-> ->].
      apply Forall_app in HF as [HF [? _]%Forall_cons]. split; [|done]. by exists h1, a, h2.
  - intros [[He ->]|[(h1 & a & h2 & -> & -> & HF) He]].
    + destruct e as [o a]. cbn in He. subst o. exists h, a, []. done.
    + exists h1, a, (h2 ++ [e]). rewrite <- app_assoc. split; [done|]. split; [done|]. apply Forall_app. split; [done|]. by apply Forall_singleton.
Qed.

Definition grant_of (h : History) (id : GrantId) (r : GrantRequest) : Grant :=
  mkGrant id (asked_capability r) (scope r) (expires_unix_millis r) ((λ m, m - uses h id) <$> max_uses r) (approval r).

Record Inv (l : GrantLedger) (h : History) : Prop := {
  inv_next : next_id l = len (requests h);
  inv_grants id g : grants l !! id = Some g ↔ ∃ r, standing h id r ∧ g = grant_of h id r;
  inv_uses id r m : issued h id r → max_uses r = Some m → uses h id ≤ m;
  inv_fresh id : len (requests h) < id → uses h id = 0;
}.

(** The use budget of a request is an unsigned number. *)
Definition op_ok (o : LedgerOp) : Prop := match o with Issue r => ∀ m, max_uses r = Some m → 0 ≤ m | _ => True end.

Lemma Inv_keyed l h : Inv l h → keyed (grants l).
Proof. intros HI id g (r & _ & ->)%(inv_grants _ _ HI). done. Qed.

Lemma uses_unused h e id : used id e = false → uses (h ++ [e]) id = uses h id.
Proof. intros H. rewrite uses_snoc, H. cbn. lia. Qed.

Lemma Inv_issue l h r a :
  Inv l h → len (requests h) < u64_max → (∀ m, max_uses r = Some m → 0 ≤ m) →
  Inv (grant l r).1 (h ++ [(Issue r, a)]).
Proof.
  intros HI Hlt Hm. assert (wrap_add u64_max (next_id l) 1 = len (requests h) + 1) as Hid.
  { unfold wrap_add. rewrite (inv_next _ _ HI). apply Z.mod_small. pose proof (len_nonneg (requests h)). lia. }
  assert (∀ id, uses (h ++ [(Issue r, a)]) id = uses h id) as Hu by (intros; by apply uses_unused).
  assert (len (requests (h ++ [(Issue r, a)])) = len (requests h) + 1) as Hr.
  { rewrite requests_app, len_app. done. }
  split.
  - by rewrite Hr.
  - intros id g. cbn [grant fst snd grants]. rewrite Hid. setoid_rewrite standing_snoc. cbn [fst]. unfold grant_of. rewrite Hu.
    destruct (decide (id = len (requests h) + 1)) as [->|Hne].
    + rewrite lookup_insert_eq. rewrite (inv_fresh _ _ HI) by lia. split.
      * intros [= <-]. exists r. split; [by left|]. f_equal. destruct (max_uses r); cbn; f_equal; lia.
      * intros (r' & [[[= ->] _]|[Hst%standing_range _]] & ->); [|lia]. do 2 f_equal. destruct (max_uses r'); cbn; f_equal; lia.
    + rewrite lookup_insert_ne by done. rewrite (inv_grants _ _ HI). unfold grant_of. naive_solver.
  - intros id r' m Hi Hmx. rewrite Hu. apply issued_issue in Hi as [Hi|[-> ->]].
    + by eapply inv_uses.
    + rewrite (inv_fresh _ _ HI) by lia. auto.
  - intros id. rewrite Hr, Hu. intros. apply (inv_fresh _ _ HI). lia.
Qed.

(** An operation that issues nothing and spends nothing keeps what it does not revoke. *)
Lemma Inv_unspent l l' h e :
  Inv l h → next_id l' = next_id l → (∀ r, e.1 ≠ Issue r) → (∀ id, used id e = false) →
  (∀ id g, grants l' !! id = Some g ↔ grants l !! id = Some g ∧ e.1 ≠ Revoke id ∧ e.1 ≠ RevokeAll) →
  Inv l' (h ++ [e]).
Proof.
  intros HI Hn Hi Hq Hg. assert (∀ j, uses (h ++ [e]) j = uses h j) as Hu by (intros; by apply uses_unused).
  assert (requests (h ++ [e]) = requests h) as Hr.
  { rewrite requests_app. destruct e as [[r| | |] a]; [by destruct (Hi r)|apply app_nil_r..]. }
  split.
  - rewrite Hr, Hn. apply (inv_next _ _ HI).
  - intros j g. rewrite Hg, (inv_grants _ _ HI). setoid_rewrite standing_snoc. unfold grant_of. rewrite Hu. naive_solver.
  - intros j r m. rewrite Hu. unfold issued. rewrite Hr. apply (inv_uses _ _ HI).
  - intros j. rewrite Hr, Hu. apply (inv_fresh _ _ HI).
Qed.

Lemma Inv_revoke l h id a : Inv l h → Inv (revoke l id).1 (h ++ [(Revoke id, a)]).
Proof.
  intros HI. apply (Inv_unspent l); [done..|]. intros j g. cbn [revoke fst grants]. rewrite lookup_delete_Some. naive_solver.
Qed.

Lemma Inv_revoke_all l h a : Inv l h → Inv (revoke_all l) (h ++ [(RevokeAll, a)]).
Proof. intros HI. apply (Inv_unspent l); [done..|]. intros j g. cbn [revoke_all grants]. rewrite lookup_empty. naive_solver. Qed.

(** The grants of the ledger, read off the history. *)
Lemma covers_candidate l h q id r :
  Inv l h → standing h id r → covers (grant_of h id r) q = true ↔ candidate h q id r.
Proof. intros HI Hst. unfold covers, candidate. rewrite andb_true_iff, bool_decide_eq_true. cbn. tauto. Qed.

Lemma expired_over h id r now : expired_at now (grant_of h id r) = true ↔ over r now.
Proof. unfold expired_at, over. cbn. destruct (expires_unix_millis r) as [e|]; [|naive_solver]. rewrite Z.leb_le. naive_solver. Qed.

Lemma exhausted_spent h id r : exhausted (grant_of h id r) = true ↔ spent h id r.
Proof.
  unfold exhausted, spent. rewrite bool_decide_eq_true. cbn. destruct (max_uses r) as [m|]; cbn; [|done].
  split; intros [= H]; f_equal; lia.
Qed.

Lemma approved_unapproved h id r q : approved (grant_of h id r) q = false ↔ unapproved q r.
Proof.
  unfold approved, unapproved. rewrite negb_false_iff, andb_true_iff, negb_true_iff, bool_decide_eq_false. done.
Qed.

Lemma false_not (b : bool) (P : Prop) : (b = true ↔ P) → negb b = true ↔ ¬ P.
Proof. destruct b; cbn; naive_solver. Qed.

Lemma usable_entitled l h q id r :
  Inv l h → standing h id r → usable q (grant_of h id r) = true ↔ entitled h q id.
Proof.
  intros HI Hst. unfold usable, entitled. rewrite !andb_true_iff, (covers_candidate l) by done.
  rewrite (false_not _ _ (expired_over h id r (request_millis q))), (false_not _ _ (exhausted_spent h id r)).
  assert (approved (grant_of h id r) q = true ↔ ¬ unapproved q r) as ->.
  { rewrite <- (approved_unapproved h id r q). destruct (approved _ _); naive_solver. }
  split; [naive_solver|]. intros (r' & Hc & Hn). destruct (standing_inj _ _ _ _ Hst (proj1 Hc)). tauto.
Qed.

(** A usable grant of the ledger that no smaller identifier is usable before. *)
Definition first_entitled (h : History) (q : PermissionRequest) (id : GrantId) : Prop :=
  entitled h q id ∧ ∀ j, j < id → ¬ entitled h q j.

Lemma entitled_standing h q id : entitled h q id → ∃ r, standing h id r.
Proof. intros (r & [Hst _] & _). by exists r. Qed.

Lemma entitled_usable l h q id :
  Inv l h → entitled h q id → ∃ g, g ∈ values (grants l) ∧ grant_id g = id ∧ usable q g = true.
Proof.
  intros HI He. destruct (entitled_standing _ _ _ He) as [r Hst]. exists (grant_of h id r). split; [|split; [done|]].
  - apply elem_of_values. exists id. apply (inv_grants _ _ HI). by exists r.
  - by apply (usable_entitled l).
Qed.

Lemma usable_values l h g :
  Inv l h → g ∈ values (grants l) → ∃ r, standing h (grant_id g) r ∧ g = grant_of h (grant_id g) r ∧ grants l !! grant_id g = Some g.
Proof.
  intros HI (id & Hg)%elem_of_values. pose proof (Inv_keyed _ _ HI _ _ Hg) as <-.
  apply (inv_grants _ _ HI) in Hg as Hs. destruct Hs as (r & ? & ?). by exists r.
Qed.

Lemma any_values l h (p : Grant → bool) (P : GrantId → GrantRequest → Prop) :
  Inv l h → (∀ id r, standing h id r → p (grant_of h id r) = true ↔ P id r) →
  any p (values (grants l)) = true ↔ ∃ id r, standing h id r ∧ P id r.
Proof.
  intros HI Hp. rewrite any_true. split.
  - intros (g & Hg & Hpg). destruct (usable_values _ _ _ HI Hg) as (r & Hst & Heq & _). rewrite Heq in Hpg.
    exists (grant_id g), r. split; [done|]. by apply Hp.
  - intros (id & r & Hst & HP). exists (grant_of h id r). split; [|by apply Hp].
    apply elem_of_values. exists id. apply (inv_grants _ _ HI). by exists r.
Qed.

Lemma evaluate_granted l h q s s' id :
  Inv l h → select q (values (grants l)) s = (s', Some id) → first_entitled h q id.
Proof.
  intros HI H. apply select_Some in H as (pre & g & post & Hv & Hid & Hu & Hpre).
  destruct (usable_values l h g HI) as (r & Hst & Hg & _); [rewrite Hv; set_solver|]. rewrite Hid in *. split.
  - rewrite Hg in Hu. by apply (usable_entitled l) in Hu.
  - intros j Hj (g' & Hg' & <- & Hu')%(entitled_usable l); [|done].
    pose proof (values_sorted _ (Inv_keyed _ _ HI)) as Hs. rewrite Hv in Hg', Hs. rewrite elem_of_app, elem_of_cons in Hg'.
    destruct Hg' as [Hg'|[->|Hg']].
    + rewrite Forall_forall in Hpre. by rewrite (Hpre _ Hg') in Hu'.
    + lia.
    + apply StronglySorted_app_1_r in Hs. apply StronglySorted_inv in Hs as [_ Hs]. rewrite Forall_forall in Hs.
      specialize (Hs _ Hg'). cbn in Hs. lia.
Qed.

Lemma evaluate_denied l h q s :
  Inv l h → select q (values (grants l)) (mkSeen false false false) = (s, None) →
  (∀ id, ¬ entitled h q id) ∧ refusal h q (denial s).
Proof.
  intros HI H. apply select_None in H as [Hno ->]. split.
  { intros id (g & Hg & _ & Hu)%(entitled_usable l); [|done]. rewrite Forall_forall in Hno. by rewrite (Hno _ Hg) in Hu. }
  cbn [saw_expired saw_exhausted saw_unapproved orb]. unfold denial, refusal. cbn [saw_expired saw_exhausted saw_unapproved].
  assert (any (sees_unapproved q) (values (grants l)) = true ↔
    ∃ id r, candidate h q id r ∧ ¬ over r (request_millis q) ∧ ¬ spent h id r ∧ unapproved q r) as Hun.
  { rewrite (any_values l h _ (λ id r, candidate h q id r ∧ ¬ over r (request_millis q) ∧ ¬ spent h id r ∧ unapproved q r) HI).
    - unfold candidate. naive_solver.
    - intros id r Hst. unfold sees_unapproved. rewrite !andb_true_iff, (covers_candidate l) by done.
      rewrite (false_not _ _ (expired_over h id r (request_millis q))), (false_not _ _ (exhausted_spent h id r)).
      rewrite negb_true_iff, approved_unapproved. tauto. }
  assert (any (sees_expired q) (values (grants l)) = true ↔ ∃ id r, candidate h q id r ∧ over r (request_millis q)) as Hex.
  { rewrite (any_values l h _ (λ id r, candidate h q id r ∧ over r (request_millis q)) HI).
    - unfold candidate. naive_solver.
    - intros id r Hst. unfold sees_expired. by rewrite andb_true_iff, (covers_candidate l), expired_over. }
  assert (any (sees_exhausted q) (values (grants l)) = true ↔
    ∃ id r, candidate h q id r ∧ ¬ over r (request_millis q) ∧ spent h id r) as Hsp.
  { rewrite (any_values l h _ (λ id r, candidate h q id r ∧ ¬ over r (request_millis q) ∧ spent h id r) HI).
    - unfold candidate. naive_solver.
    - intros id r Hst. unfold sees_exhausted. rewrite !andb_true_iff, (covers_candidate l) by done.
      rewrite (false_not _ _ (expired_over h id r (request_millis q))), exhausted_spent. tauto. }
  revert Hun Hex Hsp. clear.
  destruct (any (sees_unapproved q) _), (any (sees_expired q) _), (any (sees_exhausted q) _); intros Hun Hex Hsp;
    repeat split; (by apply Hun) || (by apply Hex) || (by apply Hsp) || (intros H; by apply Hun in H) || (intros H; by apply Hex in H)
      || (intros H; by apply Hsp in H).
Qed.

Lemma Inv_ask l h q : Inv l h → Inv (ledger_evaluate l q).1 (h ++ [(Ask q, Decided (ledger_evaluate l q).2)]).
Proof.
  intros HI. unfold ledger_evaluate. destruct (select q _ _) as [s [id|]] eqn:E; cbn [fst snd].
  2:{ apply (Inv_unspent l); [done..|]. intros j g. naive_solver. }
  destruct (evaluate_granted l h q _ _ id HI E) as [He _].
  destruct He as (r0 & [Hst0 Hc0] & _ & Hns & _).
  assert (∀ j, uses (h ++ [(Ask q, Decided (Granted id))]) j = uses h j + Z.b2z (id =? j)) as Hu by (intros; by rewrite uses_snoc).
  assert (requests (h ++ [(Ask q, Decided (Granted id))]) = requests h) as Hr by (rewrite requests_app; apply app_nil_r).
  split.
  - rewrite Hr. apply (inv_next _ _ HI).
  - intros j g. cbn [grants]. setoid_rewrite standing_snoc. cbn [fst]. unfold grant_of. rewrite Hu. rewrite lookup_alter_Some.
    setoid_rewrite (inv_grants _ _ HI). unfold grant_of. destruct (Z.eqb_spec id j) as [<-|Hne]; cbn [Z.b2z].
    + split.
      * intros [(_ & g' & (r & Hst & ->) & ->)|[? ?]]; [|done]. exists r. split; [by right|]. unfold spend. cbn. f_equal.
        destruct (max_uses r); cbn; f_equal; lia.
      * intros (r & [[? _]|[Hst _]] & ->); [done|]. left. split; [done|]. eexists. split; [by exists r|]. unfold spend. cbn. f_equal.
        destruct (max_uses r); cbn; f_equal; lia.
    + rewrite Z.add_0_r. naive_solver.
  - intros j r m. rewrite Hu. unfold issued at 1. rewrite Hr. intros Hi Hm.
    pose proof (inv_uses _ _ HI _ _ _ Hi Hm). destruct (Z.eqb_spec id j) as [<-|Hne]; cbn [Z.b2z]; [|lia].
    apply standing_issued in Hst0 as [_ Hi0]. destruct Hi as [_ Hi]. rewrite Hi0 in Hi. injection Hi as <-. unfold spent in Hns. rewrite Hm in Hns. assert (m ≠ uses h id) by congruence. lia.
  - intros j. rewrite Hr, Hu. intros Hj. rewrite (inv_fresh _ _ HI) by done. apply standing_range in Hst0.
    destruct (Z.eqb_spec id j); cbn; lia.
Qed.

Lemma run_snoc ops o : run (ops ++ [o]) = run_op (run ops) o.
Proof. unfold run. by rewrite foldl_app. Qed.

Lemma requests_run ops : len (requests (run ops).2) ≤ len ops.
Proof.
  induction ops as [|o ops IH] using rev_ind; [done|]. rewrite run_snoc. unfold run_op.
  destruct (apply_op (run ops).1 o) as [l a]. cbn [snd]. rewrite requests_app, !len_app. destruct o; cbn; unfold len in *; cbn; lia.
Qed.

Lemma run_Inv ops : Forall op_ok ops → len ops ≤ u64_max → Inv (run ops).1 (run ops).2.
Proof.
  induction ops as [|o ops IH] using rev_ind; intros Hok Hlen.
  - split; [done| | |done].
    + intros id g. cbn. rewrite lookup_empty. split; [done|]. intros (r & (h1 & a & h2 & H & _) & _). by destruct h1.
    + intros id r m [_ H]. done.
  - apply Forall_app in Hok as [Hok Ho]. apply Forall_cons in Ho as [Ho _]. rewrite len_app in Hlen. unfold len in Hlen at 2. cbn in Hlen.
    specialize (IH Hok ltac:(lia)). pose proof (requests_run ops). rewrite run_snoc. unfold run_op. destruct o as [r|id| |q]; cbn [apply_op].
    + apply Inv_issue; [done|lia|exact Ho].
    + by apply Inv_revoke.
    + by apply Inv_revoke_all.
    + pose proof (Inv_ask _ _ q IH) as HI. by destruct (ledger_evaluate (run ops).1 q) as [l d].
Qed.

(** C18. The ledger answers what the history of its operations entitles to: a question
    is granted by the first grant, in the order of issue, that was issued for its
    capability, covers its resource, stands unrevoked, is not over, has uses left and
    carries the approval it needs; it is denied exactly when there is none, with the
    reason the history gives; and no grant ever answers more questions than it was
    issued for, revoked or not. *)
Theorem ledger_refines_history ops q :
  Forall op_ok ops → len ops ≤ u64_max →
  let '(l, h) := run ops in
  match (evaluate l q).2 with
  | Granted id => first_entitled h q id
  | Denied why => (∀ id, ¬ entitled h q id) ∧ refusal h q why
  end ∧
  ∀ id r m, issued h id r → max_uses r = Some m → uses h id ≤ m.
Proof.
  intros Hok Hlen. pose proof (run_Inv ops Hok Hlen) as HI. destruct (run ops) as [l h]. cbn [fst snd] in HI. split.
  - cbn [evaluate ledger_broker]. unfold ledger_evaluate. destruct (select _ _ _) as [s [id|]] eqn:E; cbn [snd].
    + by apply (evaluate_granted l h q _ _ id HI E).
    + by apply (evaluate_denied l).
  - apply (inv_uses _ _ HI).
Qed.

(** ** Examples *)

Definition read_under (p : str) (uses_ : option Z) (a : Approval) : GrantRequest :=
  mkGrantRequest FilesystemRead (PathPrefix p) (Some 1000) uses_ a.
Definition read_at (p : str) (now : Z) : PermissionRequest := mkRequest (chars "fs_read") FilesystemRead (Path p) true now.

Example ledger_example :
  snd <$> (run [Issue (read_under (chars "src") (Some 1) Explicit);
                Ask (read_at (chars "src/main.rs") 0);
                Ask (read_at (chars "src/main.rs") 0);
                Ask (read_at (chars "src") 1000);
                Ask (read_at (chars "srcs/x") 0);
                Issue (read_under [] None Implicit);
                Ask (read_at (chars "srcs/x") 0);
                Revoke 2; RevokeAll]).2 =
  [Issued 1; Decided (Granted 1); Decided (Denied GrantExhausted); Decided (Denied GrantExpired);
   Decided (Denied NoMatchingGrant); Issued 2; Decided (Denied ApprovalRequired); Revoked true; Cleared].
Proof. by vm_compute. Qed.

Lemma ledger_refines_history_witness :
  first_entitled (run [Issue (read_under (chars "src") (Some 1) Explicit)]).2 (read_at (chars "src/main.rs") 0) 1.
Proof.
  refine (proj1 (ledger_refines_history [Issue (read_under (chars "src") (Some 1) Explicit)] (read_at (chars "src/main.rs") 0) _ _)).
  - apply Forall_singleton. intros m [= <-]. done.
  - by vm_compute.
Defined.

End Permissions.
