(* ===== verification/SandboxPath.v ===== *)
(** * Workspace-relative paths

    Models the lexical layer of [crates/claw-tools/src/sandbox.rs]: how a text named
    by a model becomes the components of a path below the workspace root
    ([parse_relative]), the path of a directory entry ([child_of]) and the parent of a
    path. What the disk holds at those components is checked by layers that are not
    modelled here. *)

From S2P Require Import Prelude Utf8 Text NetAddr Permissions.

Module SandboxPath.
Import Net Permissions.

Inductive SandboxError :=
| EmptyPath | PathTooLong | ComponentTooLong | TooManyComponents | AbsolutePathForbidden | ParentTraversalForbidden
| CurrentDirectoryComponentForbidden | EmptyComponent | ControlCharacter | InvalidCharacter
| AlternateDataStreamForbidden | ReservedDeviceName | TrailingDotOrSpace | SymlinkForbidden | HardLinksForbidden
| RaceDetected | EscapesRoot | CaseMismatch | CaseCollision | NotFound | NotADirectory | NotAFile | AlreadyExists
| FileTooLarge | BinaryContent | DirectoryTooLarge | PermissionDenied | RootNotADirectory
| Io (kind : str).

#[export] Instance SandboxError_eq_dec : EqDecision SandboxError.
Proof. solve_decision. Defined.

Record SandboxLimits := mkLimits {
  max_path_components : Z;
  max_component_bytes : Z;
  max_relative_bytes : Z;
  max_file_bytes : Z;
  max_directory_entries : Z;
  max_walked_files : Z;
}.

Definition default_limits : SandboxLimits := mkLimits 32 255 1024 (8 * 1024 * 1024) 4096 20000.

Record RelativePath := mkPath { path_components : list str; normalized : str }.

Definition file_name (p : RelativePath) : str := match list.last (path_components p) with Some c => c | None => [] end.

Definition join_slash (l : list str) : str := join [SLASH] l.

Definition parent (p : RelativePath) : option RelativePath :=
  if len (path_components p) <=? 1 then None
  else let c := take (length (path_components p) - 1) (path_components p) in Some (mkPath c (join_slash c)).

Definition BACKSLASH : Z := 0x5C.
Definition TILDE : Z := 0x7E.
Definition SPACE : Z := 0x20.
Definition BOM : Z := 0xFEFF.

Definition RESERVED_DEVICE_NAMES : list str :=
  [chars "CON"; chars "PRN"; chars "AUX"; chars "NUL"; chars "CONIN$"; chars "CONOUT$"; chars "COM0"; chars "COM1";
   chars "COM2"; chars "COM3"; chars "COM4"; chars "COM5"; chars "COM6"; chars "COM7"; chars "COM8"; chars "COM9";
   chars "LPT0"; chars "LPT1"; chars "LPT2"; chars "LPT3"; chars "LPT4"; chars "LPT5"; chars "LPT6"; chars "LPT7";
   chars "LPT8"; chars "LPT9"].

Definition SUPERSCRIPT_DEVICE_DIGITS : list Z := [0xB9; 0xB2; 0xB3].

(** Less-than, greater-than, the quotation mark, bar, question mark, asterisk and null. *)
Definition FORBIDDEN_COMPONENT_CHARACTERS : list Z := [0x3C; 0x3E; 0x22; 0x7C; 0x3F; 0x2A; 0].

Definition is_drive_designator (component : str) : bool :=
  match component with
  | letter :: second :: _ =>
      (((65 <=? letter) && (letter <=? 90)) || ((97 <=? letter) && (letter <=? 122))) && (second =? COLON)
  | _ => false
  end.

Definition same_ignoring_case (a b : str) : bool := bool_decide (lower <$> a = lower <$> b).

(** The part before the first dot. The three bytes compared are characters when they are equal to ASCII letters. *)
Definition is_reserved_device_name (component : str) : bool :=
  let stem := match split (λ c, c =? DOT) component with s :: _ => s | [] => component end in
  if any (same_ignoring_case stem) RESERVED_DEVICE_NAMES then true
  else
    let bytes := u8 <$> as_bytes stem in
    if (len bytes <? 3)
       || negb (same_ignoring_case (take 3 bytes) (chars "COM") || same_ignoring_case (take 3 bytes) (chars "LPT"))
    then false
    else match drop 3 stem with [digit] => bool_decide (digit ∈ SUPERSCRIPT_DEVICE_DIGITS) | _ => false end.

Definition validate_component (component : str) (index : Z) (l : SandboxLimits) : result SandboxError str :=
  if bool_decide (component = []) then Err EmptyComponent
  else if max_component_bytes l <? len (as_bytes component) then Err ComponentTooLong
  else if any is_control component then Err ControlCharacter
  else if all (λ c, c =? DOT) component then
    Err (if bool_decide (component = [DOT]) then CurrentDirectoryComponentForbidden else ParentTraversalForbidden)
  else if (index =? 0) && is_drive_designator component then Err AbsolutePathForbidden
  else if any (λ c, c =? COLON) component then Err AlternateDataStreamForbidden
  else if any (λ c, bool_decide (c ∈ FORBIDDEN_COMPONENT_CHARACTERS)) component then Err InvalidCharacter
  else if starts_with [SPACE] component || ends_with [SPACE] component || ends_with [DOT] component || starts_with [BOM] component
  then Err TrailingDotOrSpace
  else if is_reserved_device_name component then Err ReservedDeviceName
  else Ok component.

Fixpoint validate_components (raw : list str) (index : Z) (l : SandboxLimits) : result SandboxError (list str) :=
  match raw with
  | [] => Ok []
  | component :: raw =>
      c ← validate_component component index l;
      rest ← validate_components raw (index + 1) l;
      Ok (c :: rest)
  end.

Definition is_separator (c : Z) : bool := (c =? SLASH) || (c =? BACKSLASH).

Definition parse_relative (input : str) (l : SandboxLimits) : result SandboxError RelativePath :=
  if bool_decide (input = []) then Err EmptyPath
  else if max_relative_bytes l <? len (as_bytes input) then Err PathTooLong
  else if any is_control input then Err ControlCharacter
  else if starts_with [SLASH] input || starts_with [BACKSLASH] input then Err AbsolutePathForbidden
  else if starts_with [TILDE] input then Err AbsolutePathForbidden
  else
    let raw := split is_separator input in
    if max_path_components l <? len raw then Err TooManyComponents
    else
      components ← validate_components raw 0 l;
      if max_relative_bytes l <? len (as_bytes (join_slash components)) then Err PathTooLong
      else Ok (mkPath components (join_slash components)).

(** The path of an entry of a directory, from the name the operating system gave. *)
Definition child_of (l : SandboxLimits) (p : RelativePath) (name : str) : result SandboxError RelativePath :=
  component ← validate_component name 0 l;
  if max_path_components l <=? len (path_components p) then Err TooManyComponents
  else
    let n := normalized p ++ (if bool_decide (normalized p = []) then [] else [SLASH]) ++ component in
    if max_relative_bytes l <? len (as_bytes n) then Err PathTooLong
    else Ok (mkPath (path_components p ++ [component]) n).

(** ** What a component may be *)

Record Component (l : SandboxLimits) (c : str) : Prop := {
  component_short : len (as_bytes c) ≤ max_component_bytes l;
  component_not_dots : ∃ x, x ∈ c ∧ x ≠ DOT;
  component_chars x : x ∈ c → is_control x = false ∧ x ≠ COLON ∧ x ∉ FORBIDDEN_COMPONENT_CHARACTERS;
  component_start : ∀ t, c ≠ SPACE :: t ∧ c ≠ BOM :: t;
  component_end : ∀ t, c ≠ t ++ [SPACE] ∧ c ≠ t ++ [DOT];
  component_device : is_reserved_device_name c = false;
}.

Lemma all_false {A} (p : A → bool) s : all p s = false ↔ ∃ x, x ∈ s ∧ p x = false.
Proof.
  unfold all. induction s as [|y s IH]; cbn; [split; [done|]; intros (x & Hx & _); by apply elem_of_nil in Hx|].
  rewrite andb_false_iff, IH. setoid_rewrite elem_of_cons. naive_solver.
Qed.

Lemma starts_with_char (x : Z) s : starts_with [x] s = false ↔ ∀ t, s ≠ x :: t.
Proof.
  rewrite <- not_true_iff_false, starts_with_true. cbn. naive_solver.
Qed.

Lemma ends_with_char (x : Z) s : ends_with [x] s = false ↔ ∀ t, s ≠ t ++ [x].
Proof. rewrite <- not_true_iff_false, ends_with_true. naive_solver. Qed.

Lemma drive_colon c : is_drive_designator c = true → COLON ∈ c.
Proof. destruct c as [|a [|b c]]; try done. cbn. intros [_ ->%Z.eqb_eq]%andb_true_iff. right. left. Qed.

Lemma validate_component_Ok l c i c' : validate_component c i l = Ok c' ↔ c' = c ∧ Component l c.
Proof.
  unfold validate_component. split.
  - intros H. repeat case_match; simplify_eq.
    repeat match goal with H : bool_decide _ = false |- _ => apply bool_decide_eq_false in H end.
    repeat match goal with H : any _ _ = false |- _ => apply any_false in H; rewrite Forall_forall in H end.
    repeat match goal with H : _ || _ = false |- _ => apply orb_false_iff in H as [? ?] end.
    rewrite starts_with_char, ends_with_char in *. match goal with H : all _ _ = false |- _ => apply all_false in H end.
    split; [done|]. split; [apply Z.ltb_ge; done|naive_solver lia| | | |done].
    + intros x Hx. split; [auto|]. split; [apply Z.eqb_neq; auto|]. eapply bool_decide_eq_false. naive_solver.
    + naive_solver.
    + naive_solver.
  - intros [-> HC]. destruct (component_not_dots _ _ HC) as (x & Hx & Hd).
    rewrite bool_decide_eq_false_2 by (intros ->; by apply elem_of_nil in Hx).
    rewrite (proj2 (Z.ltb_ge _ _) (component_short _ _ HC)).
    assert (any is_control c = false) as -> by (apply any_false, Forall_forall; intros y Hy; by apply (component_chars _ _ HC)).
    assert (all (λ c, c =? DOT) c = false) as -> by (apply all_false; exists x; split; [done|by apply Z.eqb_neq]).
    assert (is_drive_designator c = false) as ->.
    { apply not_true_iff_false. intros Hc%drive_colon. by destruct (component_chars _ _ HC _ Hc) as (_ & ? & _). }
    rewrite andb_false_r.
    assert (any (λ c, c =? COLON) c = false) as ->.
    { apply any_false, Forall_forall. intros y Hy. apply Z.eqb_neq. by apply (component_chars _ _ HC). }
    assert (any (λ c, bool_decide (c ∈ FORBIDDEN_COMPONENT_CHARACTERS)) c = false) as ->.
    { apply any_false, Forall_forall. intros y Hy. apply bool_decide_eq_false. by apply (component_chars _ _ HC). }
    assert (starts_with [SPACE] c || ends_with [SPACE] c || ends_with [DOT] c || starts_with [BOM] c = false) as ->.
    { pose proof (component_start _ _ HC). pose proof (component_end _ _ HC).
      rewrite !orb_false_iff, !starts_with_char, !ends_with_char. naive_solver. }
    by rewrite (component_device _ _ HC).
Qed.

Lemma validate_components_Ok l raw i cs : validate_components raw i l = Ok cs ↔ cs = raw ∧ Forall (Component l) raw.
Proof.
  revert i cs. induction raw as [|c raw IH]; intros i cs; cbn [validate_components]; [naive_solver|].
  rewrite bind_Ok. setoid_rewrite bind_Ok. setoid_rewrite IH. setoid_rewrite validate_component_Ok. rewrite Forall_cons. naive_solver.
Qed.

(** ** Separators *)

(** The path with every separator a slash. *)
Definition slashes (s : str) : str := (λ c, if is_separator c then SLASH else c) <$> s.

Definition separator_free (s : str) : Prop := Forall (λ c, is_separator c = false) s.

Lemma slashes_free s : separator_free s → slashes s = s.
Proof. unfold slashes. induction 1 as [|c s Hc Hs IH]; [done|]. cbn. by rewrite Hc, IH. Qed.

Lemma join_slash_cons p q ps : join_slash (p :: q :: ps) = p ++ SLASH :: join_slash (q :: ps).
Proof. done. Qed.

Lemma slashes_app s t : slashes (s ++ t) = slashes s ++ slashes t.
Proof. apply fmap_app. Qed.

Lemma split_free (sep : Z → bool) s : Forall (λ c, sep c = false) s → split sep s = [s].
Proof. intros H. unfold split. by rewrite split_loop_sep_free. Qed.

Lemma split_not_nil (sep : Z → bool) s : split sep s ≠ [].
Proof. intros H. pose proof (split_loop_length sep s []) as Hl. unfold split in H. rewrite H in Hl. cbn in Hl. lia. Qed.

(** A text is cut at its separators and glued with slashes. *)
Lemma join_split s : join_slash (split is_separator s) = slashes s.
Proof.
  remember (length s) as n eqn:Hn. revert s Hn. induction (lt_wf n) as [n _ IH]. intros s ->.
  destruct (split_once is_separator s) as [[a b]|] eqn:E.
  - apply split_once_Some in E as (c & -> & Hc & Ha). rewrite split_app by done.
    specialize (IH (length b)). rewrite length_app in IH. cbn [length] in IH. specialize (IH ltac:(lia) b eq_refl).
    rewrite slashes_app. cbn [slashes fmap list_fmap]. rewrite Hc, (slashes_free a Ha).
    destruct (split is_separator b) as [|q ps] eqn:Eb; [by apply split_not_nil in Eb|]. rewrite join_slash_cons, IH. done.
  - apply split_once_None in E. rewrite split_free, slashes_free by done. cbn. apply app_nil_r.
Qed.

Lemma split_join (sep : Z → bool) cs :
  sep SLASH = true → cs ≠ [] → Forall (λ c, Forall (λ x, sep x = false) c) cs → split sep (join_slash cs) = cs.
Proof.
  intros Hs Hne HF. induction HF as [|c cs Hc HF IH]; [done|]. destruct cs as [|d cs].
  - cbn. rewrite app_nil_r. by apply split_free.
  - rewrite join_slash_cons, split_app by done. by rewrite IH.
Qed.

Lemma slashes_bytes s : len (as_bytes (slashes s)) = len (as_bytes s).
Proof.
  unfold as_bytes, slashes. induction s as [|c s IH]; [done|]. cbn [fmap list_fmap concat]. rewrite !len_app, IH. f_equal.
  unfold is_separator. destruct (Z.eqb_spec c SLASH) as [->|]; [done|]. by destruct (Z.eqb_spec c BACKSLASH) as [->|].
Qed.

(** ** The lexical policy *)

(** The texts that name a path, with its components and its canonical text. *)
Definition Names (l : SandboxLimits) (input : str) (p : RelativePath) : Prop :=
  len (as_bytes input) ≤ max_relative_bytes l ∧ (∀ t, input ≠ TILDE :: t) ∧
  path_components p = split is_separator input ∧ normalized p = slashes input ∧
  len (path_components p) ≤ max_path_components l ∧ Forall (Component l) (path_components p).

Lemma Component_nonempty l : ¬ Component l [].
Proof. intros HC. destruct (component_not_dots _ _ HC) as (x & Hx & _). by apply elem_of_nil in Hx. Qed.

Lemma Component_plain l input :
  Forall (Component l) (split is_separator input) → Forall (λ c, is_control c = false) input.
Proof.
  intros HF. assert (Forall (λ c, is_separator c = true ∨ is_control c = false) input) as H.
  { apply split_Forall_inv. eapply Forall_impl; [exact HF|]. intros c HC.
    apply Forall_forall. intros x Hx. by apply (component_chars _ _ HC). }
  eapply Forall_impl; [exact H|]. intros c [Hc|Hc]; [|done]. unfold is_separator in Hc.
  apply orb_true_iff in Hc as [->%Z.eqb_eq| ->%Z.eqb_eq]; done.
Qed.

Lemma Component_start_sep l c t : is_separator c = true → ¬ Forall (Component l) (split is_separator (c :: t)).
Proof.
  intros Hc HF. change (c :: t) with ([] ++ c :: t) in HF. rewrite (split_app is_separator [] t c) in HF by done. apply Forall_cons in HF as [HF _].
  by apply Component_nonempty in HF.
Qed.

Lemma parse_relative_Ok l input p : parse_relative input l = Ok p ↔ Names l input p.
Proof.
  unfold parse_relative, Names. split.
  - case_bool_decide as H0; [done|]. destruct (Z.ltb_spec (max_relative_bytes l) (len (as_bytes input))); [done|].
    destruct (any is_control input); [done|]. destruct (_ || _); [done|].
    destruct (starts_with [TILDE] input) eqn:Et; [done|]. rewrite starts_with_char in Et.
    destruct (Z.ltb_spec (max_path_components l) (len (split is_separator input))); [done|].
    intros (cs & [-> HF]%validate_components_Ok & H')%bind_Ok. rewrite join_split in H'.
    destruct (_ <? _); [done|]. injection H' as <-. done.
  - intros (Hb & Ht & Hc & Hn & Hl & HF). rewrite Hc in Hl, HF. destruct p as [cs n]. cbn in Hc, Hn. subst cs n.
    rewrite bool_decide_eq_false_2 by (intros ->; apply Forall_cons in HF as [HF _]; by apply Component_nonempty in HF).
    rewrite (proj2 (Z.ltb_ge _ _) Hb). rewrite (proj2 (any_false _ _) (Component_plain _ _ HF)).
    assert (∀ c, is_separator c = true → starts_with [c] input = false) as Hsep.
    { intros c Hsc. apply starts_with_char. intros t ->. by apply (Component_start_sep l c t). }
    rewrite !Hsep by done. rewrite (proj2 (starts_with_char _ _) Ht). cbn [orb].
    rewrite (proj2 (Z.ltb_ge _ _) Hl). rewrite (proj2 (validate_components_Ok l _ 0 _) (conj eq_refl HF)). cbn [mbind result_bind].
    rewrite join_split, slashes_bytes. by rewrite (proj2 (Z.ltb_ge _ _) Hb).
Qed.

(** The lexical path policy is exact: a text is accepted exactly when it is within
    the byte bound, does not begin with a tilde, and the pieces between its slashes and
    backslashes are within the bounds, non-empty, not made of dots only, free of control,
    wildcard and colon characters, without leading or trailing spaces or trailing dots
    and not a device name; the path then has those pieces as its components, so no
    absolute, drive, stream or traversing form survives. *)
Theorem sandbox_path_exact l input p : parse_relative input l = Ok p ↔ Names l input p.
Proof. apply parse_relative_Ok. Qed.

(** ** Canonical texts *)

Lemma slashes_idem s : slashes (slashes s) = slashes s.
Proof.
  unfold slashes. rewrite <- list_fmap_compose. apply list_fmap_ext. intros _ c _. cbn.
  destruct (is_separator c) eqn:E; [done|]. by rewrite E.
Qed.

Lemma split_slashes s : split is_separator (slashes s) = split is_separator s.
Proof.
  rewrite <- join_split. apply split_join; [done|apply split_not_nil|]. apply split_no_sep.
Qed.

Lemma components_join cs : cs ≠ [] → Forall (λ c, c ≠ [] ∧ separator_free c) cs → components (join_slash cs) = cs.
Proof.
  intros Hne HF. unfold components. rewrite split_join; [|done|done|].
  - induction HF as [|c cs [Hc _] HF IH]; [done|]. cbn. rewrite bool_decide_eq_false_2 by done. cbn. f_equal.
    destruct cs; [done|]. by apply IH.
  - eapply Forall_impl; [exact HF|]. intros c [_ Hc]. eapply Forall_impl; [exact Hc|]. intros x Hx.
    by apply orb_false_iff in Hx as [Hx _].
Qed.

Lemma Component_not_nil l c : Component l c → c ≠ [].
Proof. intros HC ->. by apply Component_nonempty in HC. Qed.

Lemma Names_tilde l input p : Names l input p → ∀ t, slashes input ≠ TILDE :: t.
Proof.
  intros (_ & Ht & _) t H. destruct input as [|c input]; [done|]. cbn in H. injection H as Hc _.
  destruct (is_separator c) eqn:E; [done|]. subst c. by apply (Ht input).
Qed.

Lemma Names_canonical l input p : Names l input p → Names l (normalized p) p.
Proof.
  intros HN. pose proof (Names_tilde _ _ _ HN) as Ht. destruct HN as (Hb & _ & Hc & Hn & Hl & HF). unfold Names.
  rewrite Hn, slashes_bytes, split_slashes, slashes_idem. done.
Qed.

(** Canonical texts: the canonical text of a path that was accepted is accepted
    and names the same path, and the components a permission grant sees in it are the
    components of the path, so a path is authorized as the path that is opened. *)
Theorem sandbox_path_roundtrip l input p :
  parse_relative input l = Ok p →
  parse_relative (normalized p) l = Ok p ∧ components (normalized p) = path_components p.
Proof.
  intros HN%parse_relative_Ok. split; [by eapply parse_relative_Ok, Names_canonical|].
  destruct HN as (_ & _ & Hc & -> & _ & HF). rewrite <- join_split, <- Hc. apply components_join.
  - rewrite Hc. apply split_not_nil.
  - rewrite Hc in HF |- *. pose proof (split_no_sep is_separator input) as Hs.
    rewrite Forall_forall in HF, Hs |- *. intros c Hin. split; [by eapply Component_not_nil, HF|by apply Hs].
Qed.

(** ** Directory entries *)

Lemma join_slash_snoc cs c : cs ≠ [] → join_slash (cs ++ [c]) = join_slash cs ++ SLASH :: c.
Proof.
  intros Hne. destruct cs as [|x cs]; [done|]. cbn. unfold join_slash, join. cbn.
  rewrite fmap_app, concat_app. cbn. by rewrite app_nil_r, <- app_assoc.
Qed.

(** The path of an entry whose name has no separator is the path its text names. *)
Lemma child_of_Ok l input p name q :
  parse_relative input l = Ok p → child_of l p name = Ok q → separator_free name →
  q = mkPath (path_components p ++ [name]) (normalized p ++ SLASH :: name) ∧ parse_relative (normalized q) l = Ok q.
Proof.
  intros HN%parse_relative_Ok H Hsf. pose proof (Names_tilde _ _ _ HN) as Ht. destruct HN as (_ & _ & Hc & Hn & _ & HF).
  unfold child_of in H. apply bind_Ok in H as (c & [-> HC]%validate_component_Ok & H).
  destruct (Z.leb_spec (max_path_components l) (len (path_components p))); [done|].
  assert (path_components p ≠ []) as Hne by (rewrite Hc; apply split_not_nil).
  assert (normalized p ≠ []) as Hnn.
  { rewrite Hn. intros Hs. assert (input = []) as -> by (by destruct input). rewrite Hc in HF. apply Forall_cons in HF as [HF _].
    by apply Component_nonempty in HF. }
  rewrite bool_decide_eq_false_2 in H by done. cbn [app] in H.
  destruct (Z.ltb_spec (max_relative_bytes l) (len (as_bytes (normalized p ++ SLASH :: name)))); [done|]. injection H as <-.
  split; [done|]. apply parse_relative_Ok. unfold Names. cbn [normalized path_components].
  assert (normalized p ++ SLASH :: name = join_slash (path_components p ++ [name])) as Hj.
  { rewrite join_slash_snoc by done. by rewrite Hc, join_split, <- Hn. }
  assert (split is_separator (join_slash (path_components p ++ [name])) = path_components p ++ [name]) as Hsj.
  { apply split_join; [done|by destruct (path_components p)|]. apply Forall_app. split; [rewrite Hc; apply split_no_sep|].
    by apply Forall_singleton. }
  split; [done|]. split.
  { intros t Heq. rewrite Hn in Heq. destruct (slashes input) as [|x u] eqn:E; [by rewrite Hn in Hnn|]. injection Heq as -> _. by apply (Ht u). }
  rewrite Hj, Hsj. split; [done|]. split; [by rewrite <- join_split, Hsj|]. split.
  - rewrite len_app. unfold len in *. cbn. lia.
  - apply Forall_app. by rewrite Forall_singleton.
Qed.

(** A backslash is not a separator to [validate_component]: the path of a directory
    entry whose name has one holds a component with a separator, and its text names
    another path. *)
Example entry_with_backslash :
  let p := mkPath [chars "dir"] (chars "dir") in
  let q := mkPath [chars "dir"; chars "a\b"] (chars "dir/a\b") in
  parse_relative (chars "dir") default_limits = Ok p ∧
  child_of default_limits p (chars "a\b") = Ok q ∧
  parse_relative (normalized q) default_limits = Ok (mkPath [chars "dir"; chars "a"; chars "b"] (chars "dir/a/b")).
Proof. by vm_compute. Qed.

Example rejected_paths :
  (λ s, parse_relative s default_limits) <$>
    [chars ""; chars "src/../../etc"; chars "..."; chars "./src"; chars "/etc/passwd"; chars "\\server\share"; chars "~/.ssh";
     chars "C:relative"; chars "notes.txt:hidden"; chars "CoN.txt"; chars "com" ++ [0xB9]; chars "logs/PRN.txt"; chars "dir /f";
     chars "a//b"; chars "*.rs"] =
  Err <$> [EmptyPath; ParentTraversalForbidden; ParentTraversalForbidden; CurrentDirectoryComponentForbidden;
           AbsolutePathForbidden; AbsolutePathForbidden; AbsolutePathForbidden; AbsolutePathForbidden;
           AlternateDataStreamForbidden; ReservedDeviceName; ReservedDeviceName; ReservedDeviceName; TrailingDotOrSpace;
           EmptyComponent; InvalidCharacter].
Proof. by vm_compute. Qed.

Lemma sandbox_path_roundtrip_witness :
  let p := mkPath [chars "src"; chars "main.rs"] (chars "src/main.rs") in
  parse_relative (normalized p) default_limits = Ok p ∧ components (normalized p) = path_components p.
Proof. refine (sandbox_path_roundtrip default_limits (chars "src\main.rs") _ _). by vm_compute. Defined.

End SandboxPath.
