(* ===== verification/ToolRegistry.v ===== *)
(** * The invocation choke point of the tools

    Models [crates/claw-tools/src/registry.rs] with the types of [tool.rs],
    [audit.rs], [error.rs] and [clock.rs] it uses: one invocation validates its
    arguments, derives the resource, asks the permission broker, records the
    authorization, runs the tool and records its end. A tool is a tree of what it asks
    the gate ([Reach]) and what it does to the outside ([Perform]); the broker, the
    audit sink, the clock and the outside are classes, and everything they are asked is
    on a trace. *)

From S2P Require Import Prelude Utf8 Text NetAddr Ssrf Patch Ranking Json ToolSchema Permissions SandboxPath.

Module ToolRegistry.
Import Net Ranking Json Permissions.

(** ** Errors *)

Inductive ExecutionError :=
| ProgramNotAllowed | ProgramNameRejected | ProgramPathNotAbsolute | InterpretedProgramForbidden | ExecutableNotFound
| ExecutableIsALink | ExecutableNotAFile | ExecutablePathNotCanonical | ExecutableIsAnInterpreter
| ExecutableInsideWritableRoot | ExecutableChanged | ArgumentRejected | ArgumentNotAllowed | TooManyArguments
| EnvironmentRejected | SpawnFailed | WaitFailed | TimedOut | Cancelled.

Inductive NetworkError :=
| UrlTooLong | Target (e : Ssrf.TargetError) | Resolution (e : Ssrf.ResolutionError) | HostDenied | PortNotAllowed
| InvalidExceptionOrigin | MalformedRedirect | MalformedResponse | PeerNotPinned | TooManyRedirects
| TransportRefused | TransportFailed.

Record AuditError := mkAuditError { audit_context : str }.

Inductive ToolError :=
| UnknownTool
| DuplicateTool
| Schema (e : ToolSchema.SchemaError)
| Permission (e : PermissionError)
| Sandbox (e : SandboxPath.SandboxError)
| PatchFailed (e : Patch.PatchError)
| Execution (e : ExecutionError)
| Network (e : NetworkError)
| Audit (e : AuditError).

(** ** Audit records *)

Inductive AuditOutcome := Allowed | Refused | Failed.

Inductive AuditReason :=
| PolicySatisfied | PolicyRejected | ValidationRejected | UnknownToolName | SandboxRejected | LimitExceeded | ExecutionFailed.

Inductive AuditPhase := Authorized | Completed.

#[export] Instance AuditPhase_eq_dec : EqDecision AuditPhase.
Proof. solve_decision. Defined.
#[export] Instance AuditOutcome_eq_dec : EqDecision AuditOutcome.
Proof. solve_decision. Defined.

Record ToolAuditRecord := mkRecord {
  record_tool : str;
  phase : AuditPhase;
  record_capability : option Capability;
  record_resource : option Resource;
  record_grant : option GrantId;
  outcome : AuditOutcome;
  record_reason : AuditReason;
  record_denial : option DenialReason;
  record_arguments : Value;
  record_millis : Z;
}.

Definition audit_reason (e : ToolError) : AuditReason :=
  match e with
  | UnknownTool | DuplicateTool => UnknownToolName
  | Schema _ | PatchFailed _ => ValidationRejected
  | Permission _ => PolicyRejected
  | Sandbox SandboxPath.FileTooLarge | Sandbox SandboxPath.DirectoryTooLarge => LimitExceeded
  | Sandbox _ => SandboxRejected
  | Execution _ | Network _ | Audit _ => ExecutionFailed
  end.

(** ** Ports *)

(** A record is committed when [persist] returns, or the call fails. *)
Class ToolAuditSink (S : Type) := { persist : S → ToolAuditRecord → S * result AuditError unit }.

Class Clock (C : Type) := { unix_millis : C → C * Z }.

(** What tools do outside, and what they are told. *)
Class Outside (W Act Rep : Type) := { perform : W → Act → W * Rep }.

Record InMemoryAuditSink := mkMemorySink { records : list ToolAuditRecord }.

#[export] Instance memory_sink : ToolAuditSink InMemoryAuditSink :=
  {| persist s r := (mkMemorySink (records s ++ [r]), Ok tt) |}.

(** A clock that never reports an earlier instant than before. *)
Record MonotonicClock (C : Type) := mkMonotonic { inner : C; floor : Z }.
Arguments mkMonotonic {C} _ _.
Arguments inner {C} _.
Arguments floor {C} _.

#[export] Instance monotonic_clock {C} `{Clock C} : Clock (MonotonicClock C) :=
  {| unix_millis c :=
       let '(i, observed) := unix_millis (inner c) in
       (mkMonotonic i (Z.max (floor c) observed), Z.max (floor c) observed) |}.

(** A clock set by its owner. *)
Record FixedClock := mkFixed { millis : Z }.

#[export] Instance fixed_clock : Clock FixedClock := {| unix_millis c := (c, millis c) |}.

Definition set_clock (c : FixedClock) (m : Z) : FixedClock := mkFixed m.
Definition advance_clock (c : FixedClock) (m : Z) : FixedClock := mkFixed (sat_add u64_max (millis c) m).

(** ** Tools *)

Record ToolDescriptor := mkToolDescriptor {
  name : str;
  title : str;
  tool_description : str;
  schema : ToolSchema.ParameterSchema;
  permission : PermissionDescriptor;
}.

Record ToolOutput := mkOutput { content : str; structured : Value; truncated : bool }.

Definition new_output (c : str) (s : Value) : ToolOutput := mkOutput c s false.
Definition with_truncated (o : ToolOutput) (t : bool) : ToolOutput := mkOutput (content o) (structured o) t.

Definition PROVIDER_KIND : str := chars "function".

Definition to_provider_json (d : ToolDescriptor) : Value :=
  Obj [(chars "type", Str PROVIDER_KIND);
       (PROVIDER_KIND,
        Obj [(chars "name", Str (name d)); (chars "description", Str (tool_description d));
             (chars "parameters", ToolSchema.to_json_schema (schema d))])].

Definition risk_name (r : RiskLevel) : str :=
  match r with Low => chars "low" | Medium => chars "medium" | High => chars "high" end.

Definition to_catalog_json (d : ToolDescriptor) : Value :=
  let p := permission d in
  Obj [(chars "name", Str (name d)); (chars "title", Str (title d)); (chars "description", Str (tool_description d));
       (chars "parameters", ToolSchema.to_json_schema (schema d));
       (chars "permission",
        Obj [(chars "capability", Str (capability_str (capability p))); (chars "risk", Str (risk_name (risk p)));
             (chars "requires_approval", Bool (requires_approval p)); (chars "gateway_scope", Str (gateway_scope p))])].

Section Registry.
Context {B S C W Act Rep : Type} `{PermissionBroker B} `{ToolAuditSink S} `{Clock C} `{Outside W Act Rep}.

Inductive ToolProg :=
| Finish (r : result ToolError ToolOutput)
| Reach (r : Resource) (k : result PermissionError GrantId → ToolProg)
| Perform (a : Act) (k : Rep → ToolProg).

(** [Tool]: its contract, the resource it would touch and what it runs with its arguments and its grant. *)
Record Tool := mkTool {
  descriptor : ToolDescriptor;
  resource : ToolSchema.Arguments_ → W → result ToolError Resource;
  body : ToolSchema.Arguments_ → GrantId → ToolProg;
}.

Definition Registry : Type := gmap str Tool.

Definition register (reg : Registry) (t : Tool) : result ToolError Registry :=
  let n := name (descriptor t) in
  match reg !! n with
  | Some _ => Err DuplicateTool
  | None => Ok (<[n := t]> reg)
  end.

(** In the order of the names. *)
Definition names (reg : Registry) : list str := sort_by str_cmp (elements (dom reg)).
Definition descriptors (reg : Registry) : list ToolDescriptor := descriptor <$> omap (λ n, reg !! n) (names reg).
Definition provider_catalog (reg : Registry) : Value := Arr (to_provider_json <$> descriptors reg).
Definition catalog (reg : Registry) : Value := Obj [(chars "tools", Arr (to_catalog_json <$> descriptors reg))].
Definition declared_capabilities (reg : Registry) : gmap str Capability :=
  foldl (λ m d, <[name d := capability (permission d)]> m) ∅ (descriptors reg).

Definition sanitize_tool_name (n : str) : str :=
  ToolSchema.keep (λ c, is_alphanumeric c || (c =? ToolSchema.UNDERSCORE) || (c =? DOT)) 64 n.

(** ** The environment of an invocation and its trace *)

Inductive Event :=
| Ticked (now : Z)
| Asked (q : PermissionRequest) (d : PermissionDecision)
| Persisted (r : ToolAuditRecord) (committed : bool)
| Answered (r : Resource) (a : result PermissionError GrantId)
| Performed (a : Act).

Record Env := mkEnv { broker : B; sink : S; clock : C; world : W; trace : list Event }.

Definition M (A : Type) : Type := Env → Env * A.

#[local] Instance M_ret : MRet M := λ A a e, (e, a).
#[local] Instance M_bind : MBind M := λ A A' k c e, let '(e, a) := c e in k a e.

Definition log (v : Event) : M unit := λ e, (mkEnv (broker e) (sink e) (clock e) (world e) (trace e ++ [v]), tt).

Definition read_clock : M Z := λ e,
  let '(c, t) := unix_millis (clock e) in (mkEnv (broker e) (sink e) c (world e) (trace e ++ [Ticked t]), t).

Definition ask (q : PermissionRequest) : M PermissionDecision := λ e,
  let '(b, d) := evaluate (broker e) q in
  (mkEnv b (sink e) (clock e) (world e) (trace e ++ [Asked q d]), d).

Definition record (r : ToolAuditRecord) : M (result AuditError unit) := λ e,
  let '(s, x) := persist (sink e) r in
  (mkEnv (broker e) s (clock e) (world e) (trace e ++ [Persisted r (is_ok x)]), x).

Definition act (a : Act) : M Rep := λ e,
  let '(w, x) := perform (world e) a in
  (mkEnv (broker e) (sink e) (clock e) w (trace e ++ [Performed a]), x).

Definition look {A} (f : W → A) : M A := λ e, (e, f (world e)).

(** ** The gate *)

Record BrokerGate := mkGate { gate_tool : str; gate_capability : Capability; gate_approval : bool; gate_arguments : Value }.

Definition gate_refusal (g : BrokerGate) (r : DenialReason) : PermissionError :=
  mkPermissionError (gate_tool g) (gate_capability g) r.

Definition authorization_record (g : BrokerGate) (r : Resource) (d : PermissionDecision) (now : Z) : ToolAuditRecord :=
  match d with
  | Granted id =>
      mkRecord (gate_tool g) Authorized (Some (gate_capability g)) (Some r) (Some id) Allowed PolicySatisfied None
        (gate_arguments g) now
  | Denied why =>
      mkRecord (gate_tool g) Authorized (Some (gate_capability g)) (Some r) None Refused PolicyRejected (Some why)
        (gate_arguments g) now
  end.

Definition gate_authorize (g : BrokerGate) (r : Resource) : M (result PermissionError GrantId) :=
  now ← read_clock;
  d ← ask (mkRequest (gate_tool g) (gate_capability g) r (gate_approval g) now);
  x ← record (authorization_record g r d now);
  mret (match x with
        | Err _ => Err (gate_refusal g AuditUnavailable)
        | Ok _ => match d with Granted id => Ok id | Denied why => Err (gate_refusal g why) end
        end).

Fixpoint run_tool (g : BrokerGate) (t : ToolProg) : M (result ToolError ToolOutput) :=
  match t with
  | Finish r => mret r
  | Reach r k => a ← gate_authorize g r; _ ← log (Answered r a); run_tool g (k a)
  | Perform a k => x ← act a; run_tool g (k x)
  end.

(** ** Invocation *)

(** Validation and the resource, without authorization and without running anything. *)
Definition prepare (reg : Registry) (n : str) (arguments : Value) (w : W) : result ToolError (ToolDescriptor * Resource) :=
  t ← ok_or UnknownTool (reg !! n);
  let d := descriptor t in
  validated ← match ToolSchema.validate (schema d) arguments with Ok v => Ok v | Err e => Err (Schema e) end;
  r ← resource t validated w;
  Ok (d, r).

Definition audit_refusal (d : ToolDescriptor) (r : option Resource) (why : AuditReason) (denial_ : option DenialReason)
    (arguments : Value) (now : Z) : M (result ToolError unit) :=
  x ← record (mkRecord (name d) Completed (Some (capability (permission d))) r None Refused why denial_ arguments now);
  mret (match x with Err a => Err (Audit a) | Ok _ => Ok tt end).

(** [c?; return Err(e)] *)
Definition then_fail (c : M (result ToolError unit)) (e : ToolError) : M (result ToolError ToolOutput) :=
  x ← c; mret (match x with Err a => Err a | Ok _ => Err e end).

Definition invoke (reg : Registry) (n : str) (arguments : Value) : M (result ToolError ToolOutput) :=
  now ← read_clock;
  match reg !! n with
  | None =>
      x ← record (mkRecord (sanitize_tool_name n) Completed None None None Refused UnknownToolName None
                    (ToolSchema.opaque_arguments arguments) now);
      mret (match x with Err a => Err (Audit a) | Ok _ => Err UnknownTool end)
  | Some t =>
      let d := descriptor t in
      let cap := capability (permission d) in
      let redacted := ToolSchema.project_audit (schema d) arguments in
      match ToolSchema.validate (schema d) arguments with
      | Err e => then_fail (audit_refusal d None ValidationRejected None redacted now) (Schema e)
      | Ok validated =>
          r ← look (resource t validated);
          match r with
          | Err e => then_fail (audit_refusal d None (audit_reason e) None redacted now) e
          | Ok r =>
              decision ← ask (mkRequest (name d) cap r (requires_approval (permission d)) now);
              match decision with
              | Denied why =>
                  then_fail (audit_refusal d (Some r) PolicyRejected (Some why) redacted now)
                    (Permission (mkPermissionError (name d) cap why))
              | Granted grant_ =>
                  let gate := mkGate (name d) cap (requires_approval (permission d)) redacted in
                  x ← record (authorization_record gate r (Granted grant_) now);
                  match x with
                  | Err a => mret (Err (Audit a))
                  | Ok _ =>
                      res ← run_tool gate (body t validated grant_);
                      let '(o, why) :=
                        match res with Ok _ => (Allowed, PolicySatisfied) | Err e => (Failed, audit_reason e) end in
                      y ← record (mkRecord (name d) Completed (Some cap) (Some r) (Some grant_) o why None redacted now);
                      mret (match y with Err a => Err (Audit a) | Ok _ => res end)
                  end
              end
          end
      end
  end.

(** ** What a computation adds to the trace *)

Definition emits {A} (c : M A) (P : list Event → A → Prop) : Prop :=
  ∀ e, ∃ evs, trace (c e).1 = trace e ++ evs ∧ P evs (c e).2.

Lemma emits_ret {A} (a : A) (P : list Event → A → Prop) : P [] a → emits (mret a) P.
Proof. intros HP e. exists []. cbn. by rewrite app_nil_r. Qed.

Lemma emits_bind {A A'} (c : M A) (k : A → M A') P Q :
  emits c P → (∀ a evs, P evs a → emits (k a) (λ evs' b, Q (evs ++ evs') b)) → emits (c ≫= k) Q.
Proof.
  intros Hc Hk e. unfold mbind, M_bind. destruct (Hc e) as (evs & Ht & HP). destruct (c e) as [e1 a]. cbn in Ht, HP.
  destruct (Hk a evs HP e1) as (evs' & Ht' & HQ). exists (evs ++ evs'). by rewrite Ht', Ht, app_assoc.
Qed.

Lemma emits_mono {A} (c : M A) (P Q : list Event → A → Prop) : emits c P → (∀ evs a, P evs a → Q evs a) → emits c Q.
Proof. intros Hc HPQ e. destruct (Hc e) as (evs & ? & ?). eauto. Qed.

Lemma emits_clock : emits read_clock (λ evs t, evs = [Ticked t]).
Proof. intros e. unfold read_clock. destruct (unix_millis (clock e)) as [c t]. by eexists. Qed.

Lemma emits_ask q : emits (ask q) (λ evs d, evs = [Asked q d]).
Proof. intros e. unfold ask. destruct (evaluate (broker e) q) as [b d]. by eexists. Qed.

Lemma emits_record r : emits (record r) (λ evs x, evs = [Persisted r (is_ok x)]).
Proof. intros e. unfold record. destruct (persist (sink e) r) as [s x]. by eexists. Qed.

Lemma emits_act a : emits (act a) (λ evs _, evs = [Performed a]).
Proof. intros e. unfold act. destruct (perform (world e) a) as [w x]. by eexists. Qed.

Lemma emits_log v : emits (log v) (λ evs _, evs = [v]).
Proof. intros e. by eexists. Qed.

(** The same from a given state of the outside, which reading, asking and recording leave as it is. *)
Definition emits_at {A} (w : W) (c : M A) (P : list Event → A → Prop) : Prop :=
  ∀ e, world e = w → ∃ evs, trace (c e).1 = trace e ++ evs ∧ P evs (c e).2.

Definition quiet {A} (c : M A) : Prop := ∀ e, world (c e).1 = world e.

Lemma emits_emits_at {A} w (c : M A) P : emits c P → emits_at w c P.
Proof. intros Hc e _. apply Hc. Qed.

Lemma emits_at_bind {A A'} w (c : M A) (k : A → M A') P Q :
  quiet c → emits c P → (∀ a evs, P evs a → emits_at w (k a) (λ evs' b, Q (evs ++ evs') b)) → emits_at w (c ≫= k) Q.
Proof.
  intros Hq Hc Hk e Hw. unfold mbind, M_bind. specialize (Hq e). destruct (Hc e) as (evs & Ht & HP). destruct (c e) as [e1 a].
  cbn in Ht, HP, Hq. destruct (Hk a evs HP e1) as (evs' & Ht' & HQ); [congruence|]. exists (evs ++ evs'). by rewrite Ht', Ht, app_assoc.
Qed.

Lemma emits_at_look {A A'} w (f : W → A) (k : A → M A') Q : emits_at w (k (f w)) Q → emits_at w (look f ≫= k) Q.
Proof. intros Hk e Hw. unfold mbind, M_bind, look. rewrite Hw. by apply Hk. Qed.

Lemma quiet_clock : quiet read_clock.
Proof. intros e. unfold read_clock. by destruct (unix_millis (clock e)). Qed.

Lemma quiet_ask q : quiet (ask q).
Proof. intros e. unfold ask. by destruct (evaluate (broker e) q). Qed.

(** ** What the gate lets through *)

Definition answer (g : BrokerGate) (d : PermissionDecision) (committed : bool) : result PermissionError GrantId :=
  if committed then match d with Granted id => Ok id | Denied why => Err (gate_refusal g why) end
  else Err (gate_refusal g AuditUnavailable).

Definition question (g : BrokerGate) (r : Resource) (now : Z) : PermissionRequest :=
  mkRequest (gate_tool g) (gate_capability g) r (gate_approval g) now.

(** The events of a running tool: every answer it gets for a resource comes from the
    broker, asked with the time read for that question, and is on record. *)
Inductive gated (g : BrokerGate) : list Event → Prop :=
| gated_nil : gated g []
| gated_perform a evs : gated g evs → gated g (Performed a :: evs)
| gated_reach r t d b evs :
    gated g evs →
    gated g (Ticked t :: Asked (question g r t) d :: Persisted (authorization_record g r d t) b
             :: Answered r (answer g d b) :: evs).

Lemma gated_app g evs evs' : gated g evs → gated g evs' → gated g (evs ++ evs').
Proof. induction 1; cbn; [done|intros; constructor; auto..]. Qed.

Lemma emits_gate g r :
  emits (gate_authorize g r) (λ evs a, ∃ t d b,
    evs = [Ticked t; Asked (question g r t) d; Persisted (authorization_record g r d t) b] ∧ a = answer g d b).
Proof.
  unfold gate_authorize. eapply emits_bind; [apply emits_clock|]. intros t ? ->. eapply emits_bind; [apply emits_ask|].
  intros d ? ->. eapply emits_bind; [apply emits_record|]. intros x ? ->. apply emits_ret. exists t, d, (is_ok x).
  split; [done|]. by destruct x.
Qed.

Lemma run_tool_gated g t : emits (run_tool g t) (λ evs _, gated g evs).
Proof.
  induction t as [r|r k IH|a k IH]; cbn [run_tool].
  - apply emits_ret. constructor.
  - eapply emits_bind; [apply emits_gate|]. intros ans ? (t & d & b & -> & ->).
    eapply emits_bind; [apply emits_log|]. intros [] ? ->.
    eapply emits_mono; [apply IH|]. intros evs r' He. by apply gated_reach.
  - eapply emits_bind; [apply emits_act|]. intros x ? ->. eapply emits_mono; [apply IH|]. intros evs r' He. by constructor.
Qed.

(** ** The life of an invocation *)

(** What a record of an invocation says of its arguments. *)
Definition shown_arguments (reg : Registry) (n : str) (arguments : Value) : Value :=
  match reg !! n with
  | Some t => ToolSchema.project_audit (schema (descriptor t)) arguments
  | None => ToolSchema.opaque_arguments arguments
  end.

Definition gate_of (reg : Registry) (n : str) (t : Tool) (arguments : Value) : BrokerGate :=
  let d := descriptor t in
  mkGate (name d) (capability (permission d)) (requires_approval (permission d)) (shown_arguments reg n arguments).

(** The result of what a durable record must accompany. *)
Definition sealed (b : bool) (res r : result ToolError ToolOutput) : Prop :=
  if b then r = res else ∃ a, r = Err (Audit a).

Record refusal_record (reg : Registry) (n : str) (arguments : Value) (rec : ToolAuditRecord) : Prop := {
  refusal_phase : phase rec = Completed;
  refusal_outcome : outcome rec = Refused;
  refusal_arguments : record_arguments rec = shown_arguments reg n arguments;
}.

Inductive Lifecycle (reg : Registry) (n : str) (arguments : Value) (w : W) : list Event → result ToolError ToolOutput → Prop :=
| Refused_early now rec b e r :
    refusal_record reg n arguments rec → sealed b (Err e) r →
    Lifecycle reg n arguments w [Ticked now; Persisted rec b] r
| Refused_by_broker now q why rec b e r :
    refusal_record reg n arguments rec → sealed b (Err e) r →
    Lifecycle reg n arguments w [Ticked now; Asked q (Denied why); Persisted rec b] r
| Not_recorded now t res id a :
    reg !! n = Some t →
    Lifecycle reg n arguments w
      [Ticked now; Asked (question (gate_of reg n t arguments) res now) (Granted id);
       Persisted (authorization_record (gate_of reg n t arguments) res (Granted id) now) false] (Err (Audit a))
| Ran now t args res id evs rec b out r :
    reg !! n = Some t → ToolSchema.validate (schema (descriptor t)) arguments = Ok args → resource t args w = Ok res →
    gated (gate_of reg n t arguments) evs →
    phase rec = Completed → record_grant rec = Some id → record_arguments rec = shown_arguments reg n arguments →
    outcome rec = (if is_ok out then Allowed else Failed) → sealed b out r →
    Lifecycle reg n arguments w
      (Ticked now :: Asked (question (gate_of reg n t arguments) res now) (Granted id)
       :: Persisted (authorization_record (gate_of reg n t arguments) res (Granted id) now) true
       :: evs ++ [Persisted rec b]) r.

Definition refusal_of (d : ToolDescriptor) (r : option Resource) (why : AuditReason) (denial_ : option DenialReason)
    (arguments : Value) (now : Z) : ToolAuditRecord :=
  mkRecord (name d) Completed (Some (capability (permission d))) r None Refused why denial_ arguments now.

Lemma emits_audit_refusal d r why denial_ arguments now :
  emits (audit_refusal d r why denial_ arguments now) (λ evs y,
    evs = [Persisted (refusal_of d r why denial_ arguments now) (is_ok y)] ∧ ∀ u, y = Err u → ∃ a, u = Audit a).
Proof.
  unfold audit_refusal. eapply emits_bind; [apply emits_record|]. intros x ? ->. apply emits_ret. destruct x; naive_solver.
Qed.

Lemma emits_refusal d r why denial_ arguments now e :
  emits (then_fail (audit_refusal d r why denial_ arguments now) e) (λ evs res, ∃ b,
    evs = [Persisted (refusal_of d r why denial_ arguments now) b] ∧ sealed b (Err e) res).
Proof.
  unfold then_fail. eapply emits_bind; [apply emits_audit_refusal|]. intros y evs [-> Hy]. apply emits_ret. exists (is_ok y).
  split; [done|]. destruct y as [|u]; cbn; [done|]. destruct (Hy u eq_refl) as [a ->]. eauto.
Qed.

Lemma invoke_lifecycle reg n arguments w : emits_at w (invoke reg n arguments) (Lifecycle reg n arguments w).
Proof.
  unfold invoke. eapply emits_at_bind; [apply quiet_clock|apply emits_clock|]. intros now ? ->.
  destruct (reg !! n) as [t|] eqn:Et.
  2:{ apply emits_emits_at. eapply emits_bind; [apply emits_record|]. intros x ? ->. apply emits_ret.
      apply Refused_early with (e := UnknownTool); [|destruct x; cbn; eauto]. split; [done|done|]. unfold shown_arguments. by rewrite Et. }
  assert (shown_arguments reg n arguments = ToolSchema.project_audit (schema (descriptor t)) arguments) as Hs.
  { unfold shown_arguments. by rewrite Et. }
  destruct (ToolSchema.validate (schema (descriptor t)) arguments) as [args|e] eqn:Ev.
  2:{ apply emits_emits_at. eapply emits_mono; [apply emits_refusal|]. intros evs res (b & -> & Hr). by eapply Refused_early. }
  apply emits_at_look. destruct (resource t args w) as [r|e] eqn:Hw.
  2:{ apply emits_emits_at. eapply emits_mono; [apply emits_refusal|]. intros evs res (b & -> & Hr). by eapply Refused_early. }
  eapply emits_at_bind; [apply quiet_ask|apply emits_ask|]. intros d ? ->. destruct d as [id|why].
  2:{ apply emits_emits_at. eapply emits_mono; [apply emits_refusal|]. intros evs res (b & -> & Hr). by eapply Refused_by_broker. }
  assert (gate_of reg n t arguments = mkGate (name (descriptor t)) (capability (permission (descriptor t)))
    (requires_approval (permission (descriptor t))) (ToolSchema.project_audit (schema (descriptor t)) arguments)) as Hg.
  { unfold gate_of. by rewrite Hs. }
  apply emits_emits_at. eapply emits_bind; [apply emits_record|]. intros x ? ->. destruct x as [u|a].
  2:{ apply emits_ret. cbn [app is_ok]. rewrite <- Hg. by apply Not_recorded with (t := t) (res := r). }
  eapply emits_bind; [apply run_tool_gated|]. intros out evs Hev.
  destruct (match out with Ok _ => (Allowed, PolicySatisfied) | Err e => (Failed, audit_reason e) end) as [o why] eqn:Eo.
  eapply emits_bind; [apply emits_record|]. intros y ? ->. apply emits_ret. cbn [app is_ok].
  rewrite <- Hg in *.
  eapply Ran with (args := args) (out := out); try done.
  - by destruct out; injection Eo as <- <-.
  - destruct y; cbn; eauto.
Qed.

(** The three events that come before an answer. *)
Lemma gated_answered g evs pre r id post :
  gated g evs → evs = pre ++ Answered r (Ok id) :: post →
  ∃ pre' t, pre = pre' ++ [Ticked t; Asked (question g r t) (Granted id);
                           Persisted (authorization_record g r (Granted id) t) true].
Proof.
  intros Hg. revert pre. induction Hg as [|a evs Hg IH|r' t d b evs Hg IH]; intros pre Heq.
  - by destruct pre.
  - destruct pre as [|x pre]; [done|]. injection Heq as <- Heq. apply IH in Heq as (pre' & t & ->). by exists (Performed a :: pre'), t.
  - destruct pre as [|x1 [|x2 [|x3 [|x4 pre]]]]; simplify_eq/=.
    + exists [], t. unfold answer in *. destruct b; [|done]. by destruct d; simplify_eq/=.
    + destruct (IH pre eq_refl) as (pre' & t' & ->). eexists (_ :: _ :: _ :: _ :: pre'), t'. done.
Qed.

Lemma gated_no_completion g evs rec b : gated g evs → Persisted rec b ∈ evs → phase rec = Authorized ∧ record_arguments rec = gate_arguments g.
Proof.
  induction 1 as [|a evs Hg IH|r t d b' evs Hg IH]; [by intros ?%elem_of_nil|rewrite elem_of_cons|rewrite !elem_of_cons].
  - intros [?|?]; [done|auto].
  - intros [?|[?|[[= -> ->]|[?|?]]]]; [done|done| |done|auto]. by destruct d.
Qed.

(** ** Invariants of an invocation *)

(** A property of the broker, the sink and the trace that every event keeps. *)
Record Invariant (J : B → S → list Event → Prop) : Prop := {
  inv_log b s tr v : (∀ q d, v ≠ Asked q d) → (∀ r x, v ≠ Persisted r x) → J b s tr → J b s (tr ++ [v]);
  inv_ask b s tr q : J b s tr → J (evaluate b q).1 s (tr ++ [Asked q (evaluate b q).2]);
  inv_record b s tr r : J b s tr → J b (persist s r).1 (tr ++ [Persisted r (is_ok (persist s r).2)]);
}.

Section Keeps.
Context (J : B → S → list Event → Prop) (HJ : Invariant J).

Definition keeps {A} (c : M A) : Prop :=
  ∀ e, J (broker e) (sink e) (trace e) → let e' := (c e).1 in J (broker e') (sink e') (trace e').

Lemma keeps_ret {A} (a : A) : keeps (mret a).
Proof. intros e He. exact He. Qed.

Lemma keeps_bind {A A'} (c : M A) (k : A → M A') : keeps c → (∀ a, keeps (k a)) → keeps (c ≫= k).
Proof.
  intros Hc Hk e He. unfold mbind, M_bind. specialize (Hc e He). destruct (c e) as [e1 a]. by apply Hk.
Qed.

Lemma keeps_clock : keeps read_clock.
Proof. intros e He. unfold read_clock. destruct (unix_millis (clock e)) as [c t]. by apply (inv_log _ HJ). Qed.

Lemma keeps_ask q : keeps (ask q).
Proof. intros e He. unfold ask. pose proof (inv_ask _ HJ _ _ _ q He) as Ha. by destruct (evaluate (broker e) q) as [b d]. Qed.

Lemma keeps_record r : keeps (record r).
Proof. intros e He. unfold record. pose proof (inv_record _ HJ _ _ _ r He) as Ha. by destruct (persist (sink e) r) as [s x]. Qed.

Lemma keeps_act a : keeps (act a).
Proof. intros e He. unfold act. destruct (perform (world e) a) as [w x]. by apply (inv_log _ HJ). Qed.

Lemma keeps_log v : (∀ q d, v ≠ Asked q d) → (∀ r x, v ≠ Persisted r x) → keeps (log v).
Proof. intros ? ? e He. by apply (inv_log _ HJ). Qed.

Lemma keeps_look {A} (f : W → A) : keeps (look f).
Proof. intros e He. exact He. Qed.

#[local] Hint Resolve keeps_ret keeps_bind keeps_clock keeps_ask keeps_record keeps_act keeps_look : keeps.

Lemma keeps_run_tool g t : keeps (run_tool g t).
Proof.
  induction t as [r|r k IH|a k IH]; cbn [run_tool]; [apply keeps_ret| |].
  - apply keeps_bind; [unfold gate_authorize; auto 10 with keeps|]. intros x. apply keeps_bind; [by apply keeps_log|auto].
  - apply keeps_bind; [apply keeps_act|auto].
Qed.

Lemma keeps_refusal d r why denial_ arguments now e : keeps (then_fail (audit_refusal d r why denial_ arguments now) e).
Proof. unfold then_fail, audit_refusal. auto 10 with keeps. Qed.

(** Whatever is kept by asking and by recording is kept by an invocation. *)
Lemma keeps_invoke reg n arguments : keeps (invoke reg n arguments).
Proof.
  unfold invoke. apply keeps_bind; [apply keeps_clock|]. intros now. destruct (reg !! n) as [t|]; [|auto with keeps].
  destruct (ToolSchema.validate _ _) as [args|e]; [|apply keeps_refusal].
  apply keeps_bind; [apply keeps_look|]. intros [r|e]; [|apply keeps_refusal].
  apply keeps_bind; [apply keeps_ask|]. intros [id|why]; [|apply keeps_refusal].
  apply keeps_bind; [apply keeps_record|]. intros [u|a]; [|apply keeps_ret].
  apply keeps_bind; [apply keeps_run_tool|]. intros [o|e]; auto with keeps.
Qed.

End Keeps.

(** An effect means that an authorization is on record. *)
Lemma performed_recorded reg n arguments w evs r a :
  Lifecycle reg n arguments w evs r → Performed a ∈ evs →
  ∃ rec, Persisted rec true ∈ evs ∧ phase rec = Authorized.
Proof.
  destruct 1 as [now rec b x r _ _|now q why rec b x r _ _|now t res id y Et
    |now t args res id body_ rec b out r Et Ev Hr Hg _ _ _ _ _]; rewrite !elem_of_cons.
  - intros [?|[?|?%elem_of_nil]]; done.
  - intros [?|[?|[?|?%elem_of_nil]]]; done.
  - intros [?|[?|[?|?%elem_of_nil]]]; done.
  - intros _. eexists. split; [right; right; left|done].
Qed.

(** C17. A tool acts only after it was authorized: whatever the broker, the audit sink,
    the clock and the tool do, an effect of an invocation comes after the broker granted
    the capability of the tool for the resource derived from validated arguments, at the
    time the invocation read, and after the record of that decision was durable; and
    every further resource a tool is told it may reach was granted by the broker at a
    freshly read time and durably recorded immediately before. *)
Theorem tools_act_only_when_authorized reg n arguments e :
  let '(e', _) := invoke reg n arguments e in
  ∃ evs, trace e' = trace e ++ evs ∧
    (∀ pre a post, evs = pre ++ Performed a :: post →
      ∃ t args res now id mid, reg !! n = Some t ∧
        ToolSchema.validate (schema (descriptor t)) arguments = Ok args ∧ resource t args (world e) = Ok res ∧
        pre = Ticked now :: Asked (question (gate_of reg n t arguments) res now) (Granted id)
              :: Persisted (authorization_record (gate_of reg n t arguments) res (Granted id) now) true :: mid) ∧
    (∀ pre r id post, evs = pre ++ Answered r (Ok id) :: post →
      ∃ t pre' now, reg !! n = Some t ∧
        pre = pre' ++ [Ticked now; Asked (question (gate_of reg n t arguments) r now) (Granted id);
                       Persisted (authorization_record (gate_of reg n t arguments) r (Granted id) now) true]).
Proof.
  destruct (invoke_lifecycle reg n arguments (world e) e eq_refl) as (evs & Ht & HL). destruct (invoke reg n arguments e) as [e' r]. cbn in Ht, HL.
  exists evs. split; [done|]. destruct HL as [now rec b x r _ _|now q why rec b x r _ _|now t res id a Et
    |now t args res id body_ rec b out r Et Ev Hr Hg _ _ _ _ _].
  1-3: split; intros; repeat (destruct pre as [|? pre]; [done|]; simplify_eq/=).
  split.
  - intros pre a post Heq. exists t, args, res, now, id.
    do 3 (destruct pre as [|? pre]; [done|]; injection Heq as <- Heq). by exists pre.
  - intros pre r' id' post Heq. exists t. do 3 (destruct pre as [|? pre]; [done|]; injection Heq as <- Heq).
    destruct post as [|p post _] using rev_ind.
    { apply (app_inj_tail body_ pre) in Heq as [_ ?]. done. }
    rewrite app_comm_cons, app_assoc in Heq. apply app_inj_tail in Heq as [Heq _].
    destruct (gated_answered _ _ _ _ _ _ Hg Heq) as (pre' & t' & ->). eexists (_ :: _ :: _ :: pre'), t'. done.
Qed.

(** Every result is on record: an invocation that returns anything but an audit
    failure has durably written, as its last act, a completion record that says whether
    the tool succeeded; and every record it writes shows of the arguments only their
    projection by the schema of the tool, or their outline when no tool has the name. *)
Theorem tool_results_are_recorded reg n arguments e :
  let '(e', r) := invoke reg n arguments e in
  ∃ evs, trace e' = trace e ++ evs ∧
    ((∀ a, r ≠ Err (Audit a)) →
      ∃ rec, list.last evs = Some (Persisted rec true) ∧ phase rec = Completed ∧ (outcome rec = Allowed ↔ is_ok r = true)) ∧
    (∀ rec b, Persisted rec b ∈ evs → record_arguments rec = shown_arguments reg n arguments).
Proof.
  destruct (invoke_lifecycle reg n arguments (world e) e eq_refl) as (evs & Ht & HL). destruct (invoke reg n arguments e) as [e' r]. cbn in Ht, HL.
  exists evs. split; [done|]. destruct HL as [now rec b x r [Hp Ho Ha] Hs|now q why rec b x r [Hp Ho Ha] Hs|now t res id a Et
    |now t args res id body_ rec b out r Et Ev Hr Hg Hp Hgr Ha Ho Hs].
  - split; [|intros rec' b'; rewrite !elem_of_cons; intros [?|[[= -> ->]|?%elem_of_nil]]; done].
    intros Hr. destruct b; cbn in Hs; [|by destruct Hs as [a ->]; destruct (Hr a)]. subst r. exists rec. by rewrite Ho.
  - split; [|intros rec' b'; rewrite !elem_of_cons; intros [?|[?|[[= -> ->]|?%elem_of_nil]]]; done].
    intros Hr. destruct b; cbn in Hs; [|by destruct Hs as [a ->]; destruct (Hr a)]. subst r. exists rec. by rewrite Ho.
  - split; [|intros rec' b'; rewrite !elem_of_cons; intros [?|[?|[[= -> ->]|?%elem_of_nil]]]; done].
    intros Hr. by destruct (Hr a).
  - split.
    + intros Hr'. destruct b; cbn in Hs; [|by destruct Hs as [a ->]; destruct (Hr' a)]. subst r. exists rec.
      split; [by rewrite !last_cons, last_snoc|]. split; [done|]. rewrite Ho. by destruct out.
    + intros rec' b'. rewrite !elem_of_cons, elem_of_app, elem_of_cons.
      intros [?|[?|[[= -> ->]|[Hin|[[= -> ->]|?%elem_of_nil]]]]]; try done. by destruct (gated_no_completion _ _ _ _ Hg Hin) as [_ ->].
Qed.

End Registry.

Arguments ToolProg : clear implicits.
Arguments Tool : clear implicits.
Arguments Registry : clear implicits.
Arguments Event : clear implicits.

(** A wrapped clock never goes back. *)
Lemma monotonic_reading {C} `{Clock C} (c : MonotonicClock C) :
  let '(c', t) := unix_millis c in floor c ≤ t ∧ floor c' = t.
Proof. cbn. destruct (unix_millis (inner c)) as [i o]. cbn. lia. Qed.

(** ** An example *)

Section Example.

Definition read_descriptor : ToolDescriptor :=
  mkToolDescriptor (chars "fs_read") [] [] (ToolSchema.new [ToolSchema.mkField (chars "path") [] true (ToolSchema.Text 16)])
    (mkDescriptor FilesystemRead Low true []).

#[local] Instance no_outside : Outside unit str unit := {| perform w a := (w, tt) |}.

(** Reads the path it was given, then asks for another one and reads that if it may. *)
Definition read_tool : Tool unit str unit :=
  mkTool read_descriptor (λ a _, match ToolSchema.text a (chars "path") with Some p => Ok (Path p) | None => Err UnknownTool end)
    (λ a _, Perform (chars "first")
       (λ _, Reach (Path (chars "other")) (λ x, match x with
                                              | Ok _ => Perform (chars "second") (λ _, Finish (Ok (new_output [] Null)))
                                              | Err e => Finish (Err (Permission e))
                                              end))).

Definition example_env (scope_ : str) : Env (B := GrantLedger) (S := InMemoryAuditSink) (C := FixedClock) (W := unit) (Act := str) :=
  mkEnv (grant new_ledger (mkGrantRequest FilesystemRead (PathPrefix scope_) (Some 1000) None Explicit)).1 (mkMemorySink [])
    (mkFixed 5) tt [].

Definition performed (tr : list (Event str)) : list str := omap (λ v, match v with Performed a => Some a | _ => None end) tr.

Example second_resource_is_gated :
  let call scope_ := invoke {[chars "fs_read" := read_tool]} (chars "fs_read") (Obj [(chars "path", Str (chars "src/a"))]) (example_env scope_) in
  performed (trace (call (chars "src")).1) = [chars "first"] ∧ is_ok (call (chars "src")).2 = false ∧
  performed (trace (call []).1) = [chars "first"; chars "second"] ∧ is_ok (call []).2 = true ∧
  performed (trace (call (chars "srcs")).1) = [] ∧ length (records (sink (call []).1)) = 3%nat.
Proof. by vm_compute. Qed.

End Example.
End ToolRegistry.
