(* ===== verification/NativeTools.v ===== *)
(** * Native tools of the daemon

    Models the execution path of [apps/gta-claw-daemon/src/adapters/native_tools.rs]:
    which callers the workspace policy admits, which tools its registry holds, and
    [invoke_blocking], which grants one call exactly the resource it prepared, for two
    minutes, and runs it through the registry of [ToolRegistry] with a broker that a
    cancellation closes and a durable audit sink; with the caller claims and the
    outcome types of [crates/claw-application/src/ports/tool.rs]. The tools themselves,
    the outside and [serde_json] are parameters. *)

From S2P Require Import Prelude Utf8 Text NetAddr Json ToolSchema Permissions ToolRegistry.

Module NativeTools.
Import Json Permissions ToolRegistry.

(** ** Callers *)

Inductive InvocationSource := Gateway | Http | Mcp | Channel.
Inductive InvocationAccess := ReadOnly | Execute | Owner.

#[export] Instance InvocationAccess_eq_dec : EqDecision InvocationAccess.
Proof. solve_decision. Defined.

(** [revocable]: a revocation signal is attached. *)
Record InvocationAuthority := mkAuthority {
  source : InvocationSource;
  subject : str;
  account : option str;
  access : InvocationAccess;
  generation : Z;
  revocable : bool;
}.

(** What an error message is made of. *)
Inductive PortMessage :=
| Literal (text : str)
| FromTool (e : ToolError)
| Reconcile (e : ToolError).

Inductive PortError :=
| Unavailable (m : PortMessage)
| Conflict (m : PortMessage)
| NotFound (m : PortMessage)
| Invalid (m : PortMessage)
| CommittedButNotDurable (m : PortMessage)
| OutcomeUnknown (m : PortMessage)
| PortCancelled.

Definition bad_identity (value : str) : bool :=
  bool_decide (value = []) || (256 <? len (as_bytes value)) || any is_control value.

Definition new_authority (src : InvocationSource) (subj : str) (acct : option str) (acc : InvocationAccess) (gen : Z)
  : result PortError InvocationAuthority :=
  if any bad_identity (subj :: option_list acct)
  then Err (Invalid (Literal (chars "invalid authenticated invocation identity")))
  else Ok (mkAuthority src subj acct acc gen false).

Definition at_generation (a : InvocationAuthority) (gen : Z) : InvocationAuthority :=
  mkAuthority (source a) (subject a) (account a) (access a) gen (revocable a).

Definition with_revocation (a : InvocationAuthority) : InvocationAuthority :=
  mkAuthority (source a) (subject a) (account a) (access a) (generation a) true.

(** A publication of a tool, captured before its approval. *)
Record ToolBinding := mkBinding { identity : str; revision : Z; binding_resource : option str }.

Definition new_binding (i : str) (rev : Z) : result PortError ToolBinding :=
  if bad_identity i || (rev =? 0) then Err (Invalid (Literal (chars "invalid tool publication binding")))
  else Ok (mkBinding i rev None).

Definition with_resource (b : ToolBinding) (r : str) : result PortError ToolBinding :=
  if bool_decide (r = []) || (2048 <? len (as_bytes r)) || any is_control r
  then Err (Invalid (Literal (chars "invalid tool resource description")))
  else Ok (mkBinding (identity b) (revision b) (Some r)).

(** ** Outcomes *)

Inductive ToolStatus := StatusOk | StatusFailed | StatusDenied | StatusCancelled | StatusTimedOut.

Definition status_label (s : ToolStatus) : str :=
  match s with
  | StatusOk => chars "ok"
  | StatusFailed => chars "failed"
  | StatusDenied => chars "denied"
  | StatusCancelled => chars "cancelled"
  | StatusTimedOut => chars "timed_out"
  end.

Definition is_failure (s : ToolStatus) : bool := match s with StatusOk => false | _ => true end.

Record ToolCall := mkCall { call_id : str; call_name : str; arguments_text : str }.

Record ToolOutcome := mkOutcome { outcome_call : str; status : ToolStatus; outcome_output : str; changed_workspace : bool }.

(** ** The policy *)

Record WorkspaceSubject := mkSubject { rule_source : str; rule_subject : str; rule_account : option str }.
Record WorkspaceProgram := mkProgram { program_name : str; program_path : str; program_sha256 : str; program_args : list str }.

Record NetworkTarget := mkTarget { origin : str; addresses : list Net.IpAddr }.

Record WorkspacePolicy := mkPolicy {
  root : str;
  allow_owner : bool;
  allow_write : bool;
  subjects : list WorkspaceSubject;
  allow_process : bool;
  programs : list WorkspaceProgram;
  allow_network : bool;
  network_targets : list NetworkTarget;
}.

Definition source_label (s : InvocationSource) : str :=
  match s with
  | Gateway => chars "gateway"
  | Http => chars "http"
  | Mcp => chars "mcp"
  | Channel => chars "channel"
  end.

Definition admits (a : InvocationAuthority) (rule : WorkspaceSubject) : bool :=
  bool_decide (rule_source rule = source_label (source a)) && bool_decide (rule_subject rule = subject a)
  && bool_decide (rule_account rule = account a).

(** ** The broker and the sink of one call *)

(** A signal another task may raise: a cancellation token or a revocation. *)
Class Signal (T : Type) := { poll : T → T * bool }.

Record InvocationBroker (T : Type) := mkBroker { ledger : GrantLedger; cancellation : T }.
Arguments mkBroker {T} _ _.
Arguments ledger {T} _.
Arguments cancellation {T} _.

#[export] Instance invocation_broker {T} `{Signal T} : PermissionBroker (InvocationBroker T) :=
  {| evaluate b q :=
       let '(t, cancelled) := poll (cancellation b) in
       if cancelled then (mkBroker (ledger b) t, Denied BrokerDeniesAll)
       else let '(l, d) := ledger_evaluate (ledger b) q in (mkBroker l t, d) |}.

Record InvocationAudit (S : Type) := mkAudit { durable : S; authorized : bool }.
Arguments mkAudit {S} _ _.
Arguments durable {S} _.
Arguments authorized {S} _.

#[export] Instance invocation_audit {S} `{ToolAuditSink S} : ToolAuditSink (InvocationAudit S) :=
  {| persist a r :=
       let '(s, x) := persist (durable a) r in
       match x with
       | Err _ => (mkAudit s (authorized a), Err (mkAuditError (chars "native audit persistence failed")))
       | Ok _ => (mkAudit s (if bool_decide (phase r = Authorized) then true else authorized a), Ok tt)
       end |}.

Section Native.
Context {S C W Act Rep T R : Type} `{ToolAuditSink S} `{Clock C} `{Outside W Act Rep} `{Signal T} `{Signal R}.
Abbreviation Tool := (ToolRegistry.Tool W Act Rep).
Abbreviation Registry := (ToolRegistry.Registry W Act Rep).
Context (FsReadTool FsListTool FsGlobTool FsSearchTool FsWriteTool FsPatchTool ProcessExecTool : Tool) (network : option Tool).
Context (from_str : str → option Value) (to_string : ToolOutput → option str) (verify_program : W → str → bool).

(** What the call meets: the durable sink, the clock, the outside, the cancellation and the revocation of its caller. *)
Record Runtime := mkRuntime { h_sink : S; h_clock : C; h_world : W; h_cancel : T; h_revocation : R }.

Definition Task (A : Type) : Type := Runtime → Runtime * A.

#[local] Instance Task_ret : MRet Task := λ A a h, (h, a).
#[local] Instance Task_bind : MBind Task := λ A A' k c h, let '(h, a) := c h in k a h.

Definition view {A} (f : W → A) : Task A := λ h, (h, f (h_world h)).

Definition is_revoked (a : InvocationAuthority) : Task bool := λ h,
  if revocable a then
    let '(r, x) := poll (h_revocation h) in (mkRuntime (h_sink h) (h_clock h) (h_world h) (h_cancel h) r, x)
  else (h, false).

Definition can_execute (a : InvocationAuthority) : Task bool :=
  if bool_decide (access a = ReadOnly) then mret false else x ← is_revoked a; mret (negb x).

Definition is_owner (a : InvocationAuthority) : Task bool :=
  if bool_decide (access a = Owner) then x ← is_revoked a; mret (negb x) else mret false.

Definition permitted (p : WorkspacePolicy) (a : InvocationAuthority) : Task bool :=
  x ← can_execute a;
  if negb x then mret false
  else
    o ← (if allow_owner p then is_owner a else mret false);
    mret (o || any (admits a) (subjects p)).

Definition PROCESS_EXEC : str := chars "process_exec".

Definition contains (p : WorkspacePolicy) (n : str) : bool :=
  bool_decide (n ∈ [chars "fs_read"; chars "fs_list"; chars "fs_glob"; chars "fs_search"])
  || (allow_write p && bool_decide (n ∈ [chars "fs_write"; chars "fs_patch"]))
  || (allow_process p && negb (bool_decide (programs p = [])) && bool_decide (n = PROCESS_EXEC))
  || (match network with Some _ => true | None => false end && bool_decide (n = chars "net_fetch")).

Definition mutates (n : str) : bool :=
  bool_decide (n ∈ [chars "fs_write"; chars "fs_patch"; PROCESS_EXEC; chars "net_fetch"]).

Fixpoint register_all (reg : Registry) (tools : list Tool) : result PortError Registry :=
  match tools with
  | [] => Ok reg
  | t :: tools =>
      match register reg t with
      | Ok reg => register_all reg tools
      | Err e => Err (Invalid (FromTool e))
      end
  end.

Definition registry (p : WorkspacePolicy) : result PortError Registry :=
  let tools :=
    [FsReadTool; FsListTool; FsGlobTool; FsSearchTool]
    ++ (if allow_write p then [FsWriteTool; FsPatchTool] else [])
    ++ (if contains p PROCESS_EXEC then [ProcessExecTool] else [])
    ++ option_list network in
  register_all ∅ tools.

Definition invalid (s : str) : PortError := Invalid (Literal s).

Definition text_member (k : str) (v : Value) : option str := member k v ≫= as_str.

Definition supplied_arguments (arguments : Value) : result PortError (list str) :=
  match member (chars "args") arguments with
  | Some (Arr values) => ok_or (invalid (chars "process arguments must be strings")) (mapM as_str values)
  | None => Ok []
  | _ => Err (invalid (chars "process argument vector is invalid"))
  end.

Definition check_program (p : WorkspacePolicy) (arguments : Value) (w : W) : result PortError unit :=
  program ← ok_or (invalid (chars "process program is not configured"))
    (List.find (λ q, bool_decide (text_member (chars "program") arguments = Some (program_name q))) (programs p));
  supplied ← supplied_arguments arguments;
  _ ← ensure (bool_decide (supplied = program_args program))
    (invalid (chars "process arguments must exactly match the configured vector"));
  ensure (verify_program w (program_name program)) (invalid (chars "process executable changed after policy enrollment")).

Definition validate_process (p : WorkspacePolicy) (arguments : Value) (a : InvocationAuthority) : Task (result PortError unit) :=
  o ← is_owner a;
  if negb o then mret (Err (invalid (chars "native process execution requires an authenticated owner")))
  else view (check_program p arguments).

(** A scope only an owner may be granted. *)
Definition when_owner (a : InvocationAuthority) (s : GrantScope) : Task (option GrantScope) :=
  o ← is_owner a; mret (if o : bool then Some s else None).

(** The grant one resource is worth. *)
Definition scope_for (p : WorkspacePolicy) (a : InvocationAuthority) (r : Resource) : Task (option GrantScope) :=
  match r with
  | Path path => mret (Some (PathPrefix path))
  | Program program =>
      if allow_process p then when_owner a (ProgramIs program) else mret None
  | Host host =>
      match network with
      | Some _ => when_owner a (HostIs host)
      | None => mret None
      end
  | Global => mret None
  end.

Definition GRANT_MILLIS : Z := 120000.

Definition has_side_effects (c : Capability) : bool :=
  match c with FilesystemWrite | ProcessExecute | NetworkFetch => true | FilesystemRead | NetworkSearch => false end.

Definition changes_workspace (c : Capability) : bool :=
  match c with FilesystemWrite | ProcessExecute => true | _ => false end.

Definition finish (call : ToolCall) (c : Capability) (was_authorized : bool) (r : result ToolError ToolOutput)
  : result PortError ToolOutcome :=
  match r with
  | Ok output =>
      text ← ok_or (OutcomeUnknown (Literal (chars "workspace result encoding failed"))) (to_string output);
      Ok (mkOutcome (call_id call) StatusOk text (changes_workspace c))
  | Err e => if was_authorized && has_side_effects c then Err (OutcomeUnknown (Reconcile e)) else Err (Invalid (FromTool e))
  end.

(** The call of the registry under the grant, with what it did. *)
Definition run_granted (reg : Registry) (call : ToolCall) (arguments : Value) (d : ToolDescriptor) (scope_ : GrantScope)
  : Task (list (Event Act) * result PortError ToolOutcome) := λ h,
  let '(c, now) := unix_millis (h_clock h) in
  let l := (grant new_ledger (mkGrantRequest (capability (permission d)) scope_
              (Some (sat_add u64_max now GRANT_MILLIS)) None Explicit)).1 in
  let '(e, r) := invoke reg (call_name call) arguments
                   (mkEnv (mkBroker l (h_cancel h)) (mkAudit (h_sink h) false) c (h_world h) []) in
  (mkRuntime (durable (sink e)) (clock e) (world e) (cancellation (broker e)) (h_revocation h),
   (trace e, finish call (capability (permission d)) (authorized (sink e)) r)).

Definition invoke_blocking (p : WorkspacePolicy) (call : ToolCall) (a : InvocationAuthority)
  : Task (list (Event Act) * result PortError ToolOutcome) :=
  x ← permitted p a;
  if negb x then mret ([], Err (invalid (chars "workspace authority is not granted")))
  else
    match from_str (arguments_text call) with
    | None => mret ([], Err (invalid (chars "invalid workspace arguments")))
    | Some arguments =>
        v ← (if bool_decide (call_name call = PROCESS_EXEC) then validate_process p arguments a else mret (Ok tt));
        match v with
        | Err e => mret ([], Err e)
        | Ok _ =>
            match registry p with
            | Err e => mret ([], Err e)
            | Ok reg =>
                r ← view (prepare reg (call_name call) arguments);
                match r with
                | Err e => mret ([], Err (Invalid (FromTool e)))
                | Ok (d, res) =>
                    s ← scope_for p a res;
                    match s with
                    | None => mret ([], Err (invalid (chars "workspace tool cannot grant this resource")))
                    | Some s => run_granted reg call arguments d s
                    end
                end
            end
        end
    end.

(** ** What a call may do *)

Definition admitted (p : WorkspacePolicy) (a : InvocationAuthority) : Prop :=
  access a ≠ ReadOnly ∧ ((allow_owner p = true ∧ access a = Owner) ∨ any (admits a) (subjects p) = true).

(** The scope a resource is worth to a caller: a path is worth what lies below it, a
    program or a host is worth itself, to an owner and when the policy has them. *)
Definition worth (p : WorkspacePolicy) (a : InvocationAuthority) (r : Resource) (s : GrantScope) : Prop :=
  match r with
  | Path x => s = PathPrefix x
  | Program x => s = ProgramIs x ∧ allow_process p = true ∧ access a = Owner
  | Host x => s = HostIs x ∧ is_Some network ∧ access a = Owner
  | Global => False
  end.

(** Asking for a permission leaves the clock, the sink, the outside and the cancellation as they are. *)
Definition still (h h' : Runtime) : Prop :=
  h_clock h' = h_clock h ∧ h_world h' = h_world h ∧ h_sink h' = h_sink h ∧ h_cancel h' = h_cancel h.

Lemma still_trans h1 h2 h3 : still h1 h2 → still h2 h3 → still h1 h3.
Proof. unfold still. intuition congruence. Qed.

(** A question about the caller: it keeps [still] and an answer implies [P]. *)
Definition asks {A} (c : Task A) (P : A → Prop) : Prop := ∀ h, still h (c h).1 ∧ P (c h).2.

Lemma asks_ret {A} (x : A) (P : A → Prop) : P x → asks (mret x) P.
Proof. intros HP h. by repeat split. Qed.

Lemma asks_bind {A A'} (c : Task A) (k : A → Task A') P Q : asks c P → (∀ x, P x → asks (k x) Q) → asks (c ≫= k) Q.
Proof.
  intros Hc Hk h. unfold mbind, Task_bind. destruct (Hc h) as [Hs HP]. destruct (c h) as [h1 x]. cbn in Hs, HP.
  destruct (Hk x HP h1) as [Hs' HQ]. split; [by eapply still_trans|done].
Qed.

Lemma asks_revoked a : asks (is_revoked a) (λ _, True).
Proof. intros h. unfold is_revoked. destruct (revocable a); [|done]. destruct (poll (h_revocation h)) as [r x]. done. Qed.

Lemma asks_owner a : asks (is_owner a) (λ o, o = true → access a = Owner).
Proof.
  unfold is_owner. case_bool_decide; [|by apply asks_ret]. eapply asks_bind; [apply asks_revoked|]. intros x _. by apply asks_ret.
Qed.

Lemma asks_permitted p a : asks (permitted p a) (λ x, x = true → admitted p a).
Proof.
  unfold permitted, can_execute, admitted. case_bool_decide as Ha.
  { eapply asks_bind; [by apply (asks_ret _ (λ x, x = false))|]. intros x ->. by apply asks_ret. }
  eapply asks_bind; [eapply asks_bind; [apply asks_revoked|]; intros x _; by apply (asks_ret _ (λ _, True))|].
  intros x _. destruct (negb x); [by apply asks_ret|].
  eapply (asks_bind _ _ (λ o, o = true → allow_owner p = true ∧ access a = Owner)).
  - destruct (allow_owner p); [|by apply asks_ret]. intros h. destruct (asks_owner a h) as [? Ho]. split; [done|auto].
  - intros o Ho. apply asks_ret. rewrite orb_true_iff. intuition.
Qed.

Lemma asks_validate p arguments a : asks (validate_process p arguments a) (λ _, True).
Proof.
  unfold validate_process. eapply asks_bind; [apply asks_owner|]. intros o _. destruct o; cbn; [|by apply asks_ret].
  intros h. done.
Qed.

Lemma asks_scope p a r : asks (scope_for p a r) (λ s, ∀ x, s = Some x → worth p a r x).
Proof.
  unfold scope_for, worth. destruct r as [x|x|x|].
  - apply asks_ret. by intros y [= <-].
  - destruct (allow_process p); [|by apply asks_ret]. unfold when_owner. eapply asks_bind; [apply asks_owner|].
    intros o Ho. apply asks_ret. destruct o; [|done]. intros y [= <-]. auto.
  - destruct network; [|by apply asks_ret]. unfold when_owner. eapply asks_bind; [apply asks_owner|].
    intros o Ho. apply asks_ret. destruct o; [|done]. intros y [= <-]. eauto.
  - by apply asks_ret.
Qed.

Lemma bind_step {A A'} (c : Task A) (k : A → Task A') h h' y :
  (c ≫= k) h = (h', y) → ∃ h1 x, c h = (h1, x) ∧ k x h1 = (h', y).
Proof. unfold mbind, Task_bind. destruct (c h) as [h1 x]. eauto. Qed.

Lemma asks_step {A} (c : Task A) P h h' x : asks c P → c h = (h', x) → still h h' ∧ P x.
Proof. intros Hc E. specialize (Hc h). by rewrite E in Hc. Qed.

(** A call that did something ran under the grant its resource is worth. *)
Lemma blocking_cases p call a h h' evs r :
  invoke_blocking p call a h = (h', (evs, r)) → evs ≠ [] →
  ∃ h1 reg arguments d res s, still h h1 ∧ admitted p a ∧
    from_str (arguments_text call) = Some arguments ∧ registry p = Ok reg ∧
    prepare reg (call_name call) arguments (h_world h) = Ok (d, res) ∧ worth p a res s ∧
    run_granted reg call arguments d s h1 = (h', (evs, r)).
Proof.
  unfold invoke_blocking. intros E Hne. apply bind_step in E as (h1 & x & E1 & E).
  apply (asks_step _ _ _ _ _ (asks_permitted p a)) in E1 as [S1 Hadm].
  destruct x; cbn [negb] in E; [|by injection E as _ <- _].
  destruct (from_str (arguments_text call)) as [arguments|] eqn:Ef; [|by injection E as _ <- _].
  apply bind_step in E as (h2 & v & E2 & E).
  assert (still h1 h2) as S2.
  { case_bool_decide; [by apply (asks_step _ _ _ _ _ (asks_validate p arguments a)) in E2 as [? _]|by injection E2 as <- _]. }
  destruct v as [u|e]; [|by injection E as _ <- _].
  destruct (registry p) as [reg|e] eqn:Eg; [|by injection E as _ <- _].
  apply bind_step in E as (h3 & q & E3 & E). injection E3 as <- <-.
  assert (h_world h2 = h_world h) as Hw by (unfold still in *; intuition congruence). rewrite Hw in E.
  destruct (prepare reg (call_name call) arguments (h_world h)) as [[d res]|e] eqn:Ep; [|by injection E as _ <- _].
  apply bind_step in E as (h4 & s & E4 & E).
  apply (asks_step _ _ _ _ _ (asks_scope p a res)) in E4 as [S4 Hs].
  destruct s as [s|]; [|by injection E as _ <- _].
  exists h4, reg, arguments, d, res, s. split; [by eauto using still_trans|]. auto 10.
Qed.

(** ** The grant of one call *)

Definition sole_grant (c : Capability) (s : GrantScope) (expiry : Z) (l : GrantLedger) : Prop :=
  ∀ id g, grants l !! id = Some g → grant_capability g = c ∧ grant_scope g = s ∧ grant_expires g = Some expiry.

Definition within_grant (c : Capability) (s : GrantScope) (expiry : Z) (q : PermissionRequest) : Prop :=
  request_capability q = c ∧ matches s (request_resource q) = true ∧ request_millis q < expiry.

Lemma sole_grant_evaluate c s expiry l q :
  sole_grant c s expiry l →
  sole_grant c s expiry (ledger_evaluate l q).1 ∧
  ∀ id, (ledger_evaluate l q).2 = Granted id → within_grant c s expiry q.
Proof.
  intros Hl. unfold ledger_evaluate. destruct (select q _ _) as [seen [id|]] eqn:E; [|done]. cbn [fst snd]. split.
  - intros j g Hg. cbn [grants] in Hg. apply lookup_alter_Some in Hg as [(-> & g' & Hg & ->)|[_ Hg]]; [|by eapply Hl].
    by apply Hl in Hg.
  - intros ? [= <-]. apply select_Some in E as (pre & g & post & Hv & _ & Hu & _).
    assert (g ∈ values (grants l)) as (j & Hg)%elem_of_values by (rewrite Hv; set_solver).
    destruct (Hl j g Hg) as (Hc & Hs & He). unfold usable, covers, expired_at in Hu. rewrite Hc, Hs, He in Hu.
    rewrite !andb_true_iff, bool_decide_eq_true, negb_true_iff, Z.leb_gt in Hu. unfold within_grant. intuition congruence.
Qed.

Lemma scope_invariant c s expiry :
  Invariant (B := InvocationBroker T) (S := InvocationAudit S) (Act := Act) (λ b _ tr,
    sole_grant c s expiry (ledger b) ∧ ∀ q id, Asked q (Granted id) ∈ tr → within_grant c s expiry q).
Proof.
  split.
  - intros b a tr v Hv _ [Hl Ht]. split; [done|]. intros q id [?|?%list_elem_of_singleton]%elem_of_app; [eauto|naive_solver].
  - intros b a tr q [Hl Ht]. cbn [evaluate invocation_broker]. destruct (poll (cancellation b)) as [t x].
    destruct (sole_grant_evaluate c s expiry (ledger b) q Hl) as [Hl' Hq].
    destruct x; cbn [fst snd]; [|destruct (ledger_evaluate (ledger b) q) as [l d]; cbn in Hl', Hq |- *]; (split; [done|]);
      intros q' id [?|Heq%list_elem_of_singleton]%elem_of_app; eauto; [done|]. injection Heq as -> <-. eauto.
  - intros b a tr rec [Hl Ht]. split; [done|]. intros q id [?|?%list_elem_of_singleton]%elem_of_app; [eauto|done].
Qed.

Lemma authorized_invariant :
  Invariant (B := InvocationBroker T) (S := InvocationAudit S) (Act := Act) (λ _ a tr,
    ∀ rec, Persisted rec true ∈ tr → phase rec = Authorized → authorized a = true).
Proof.
  split.
  - intros b a tr v _ Hv Ht rec [?|?%list_elem_of_singleton]%elem_of_app; [eauto|naive_solver].
  - intros b a tr q Ht rec [?|?%list_elem_of_singleton]%elem_of_app; [eauto|done].
  - intros b a tr r Ht rec. cbn [persist invocation_audit]. destruct (persist (durable a) r) as [s x].
    destruct x; cbn [fst snd is_ok authorized]; intros [Hin|Heq%list_elem_of_singleton]%elem_of_app Hp; try done.
    + case_bool_decide; [done|eauto].
    + injection Heq as ->. by rewrite bool_decide_eq_true_2.
    + eauto.
Qed.

(** C19. A native call stays within what was prepared: whatever the tool asks for while
    it runs, the broker grants only the capability of the tool, on the resource the call
    prepared (for a path, what lies below it), before two minutes have passed since the
    call was granted; callers the policy does not admit get nothing, and only an owner
    gets a program or a host. *)
Theorem native_calls_stay_in_scope p call a h :
  let '(_, (evs, _)) := invoke_blocking p call a h in
  ∀ q id, Asked q (Granted id) ∈ evs →
    admitted p a ∧
    ∃ reg arguments d res s, from_str (arguments_text call) = Some arguments ∧ registry p = Ok reg ∧
      prepare reg (call_name call) arguments (h_world h) = Ok (d, res) ∧ worth p a res s ∧
      within_grant (capability (permission d)) s (sat_add u64_max (unix_millis (h_clock h)).2 GRANT_MILLIS) q.
Proof.
  destruct (invoke_blocking p call a h) as [h' [evs r]] eqn:E. intros q id Hin.
  apply blocking_cases in E as (h1 & reg & arguments & d & res & s & Hst & Hadm & Hf & Hreg & Hp & Hw & E);
    [|by intros ->; apply elem_of_nil in Hin].
  split; [done|]. exists reg, arguments, d, res, s. do 4 (split; [done|]).
  destruct Hst as (Hc & _). unfold run_granted in E. rewrite Hc in E. destruct (unix_millis (h_clock h)) as [c now]. cbn [snd].
  pose proof (keeps_invoke _ (scope_invariant (capability (permission d)) s (sat_add u64_max now GRANT_MILLIS)) reg (call_name call) arguments) as HK.
  match type of E with context [invoke reg _ _ ?e0] => specialize (HK e0) end.
  destruct (invoke reg _ _ _) as [e x]. injection E as _ <- _. cbn [fst broker sink trace ledger] in HK.
  destruct HK as [_ HK]; [|by eapply HK]. split; [|intros ? ? ?%elem_of_nil; done].
  intros j g Hg. cbn [grant fst grants new_ledger] in Hg.
  apply lookup_insert_Some in Hg as [[_ <-]|[_ Hg]]; [done|by rewrite lookup_empty in Hg].
Qed.

(** C20. A native failure that is reported as invalid had no effect: when a call of a
    tool that writes, executes or fetches did anything outside, it ends with its output
    or with the error that asks for reconciliation, never with an error that would let
    the caller repeat it. *)
Theorem native_failures_are_reconciled p call a h :
  let '(_, (evs, r)) := invoke_blocking p call a h in
  ∀ x, Performed x ∈ evs →
    (∃ o, r = Ok o) ∨ (∃ m, r = Err (OutcomeUnknown m)) ∨
    (∃ reg arguments d res, from_str (arguments_text call) = Some arguments ∧ registry p = Ok reg ∧
       prepare reg (call_name call) arguments (h_world h) = Ok (d, res) ∧ has_side_effects (capability (permission d)) = false).
Proof.
  destruct (invoke_blocking p call a h) as [h' [evs r]] eqn:E. intros x Hin.
  apply blocking_cases in E as (h1 & reg & arguments & d & res & s & Hst & Hadm & Hf & Hreg & Hp & Hw & E);
    [|by intros ->; apply elem_of_nil in Hin].
  unfold run_granted in E. destruct (unix_millis (h_clock h1)) as [c now].
  pose proof (keeps_invoke _ authorized_invariant reg (call_name call) arguments) as HK.
  pose proof (invoke_lifecycle (B := InvocationBroker T) (S := InvocationAudit S) (C := C) reg (call_name call) arguments (h_world h1)) as HL.
  match type of E with context [invoke reg _ _ ?e0] => specialize (HK e0); specialize (HL e0 eq_refl) end.
  destruct (invoke reg _ _ _) as [e y]. injection E as _ <- <-. cbn [fst snd broker sink trace] in HK, HL.
  destruct HL as (evs & Ht & HL). cbn in Ht. rewrite Ht in Hin, HK.
  destruct (performed_recorded _ _ _ _ _ _ _ HL Hin) as (rec & Hrec & Hph).
  assert (authorized (sink e) = true) as Hauth by (eapply HK; [by intros ? ?%elem_of_nil|done|done]).
  destruct (has_side_effects (capability (permission d))) eqn:Ec; [|right; right; eauto 10].
  unfold finish. rewrite Hauth, Ec. destruct y as [o|e']; cbn [andb]; [|right; left; eauto].
  destruct (to_string o); cbn; [left; eauto|right; left; eauto].
Qed.

End Native.

(** ** An example *)

Section Example.

#[local] Instance never : Signal unit := {| poll t := (t, false) |}.
#[local] Instance writes : Outside (list str) str unit := {| perform w a := (w ++ [a], tt) |}.

(** A tool that does one thing and then fails or succeeds. *)
Definition one_step (n : str) (c : Capability) (r : result ToolError ToolOutput) : ToolRegistry.Tool (list str) str unit :=
  mkTool (mkToolDescriptor n [] [] (ToolSchema.new [ToolSchema.mkField (chars "path") [] true (ToolSchema.Text 64)])
            (mkDescriptor c Low true []))
    (λ a _, match ToolSchema.text a (chars "path") with Some x => Ok (Path x) | None => Err UnknownTool end)
    (λ a _, Perform (chars "done") (λ _, Finish r)).

Definition example_call (n : str) (r : result ToolError ToolOutput) :=
  let tool x := one_step x FilesystemRead r in
  let write x := one_step x FilesystemWrite r in
  (invoke_blocking (S := InMemoryAuditSink) (C := FixedClock)
     (tool (chars "fs_read")) (tool (chars "fs_list")) (tool (chars "fs_glob")) (tool (chars "fs_search")) (write (chars "fs_write")) (write (chars "fs_patch")) (tool (chars "process_exec"))
     None (λ _, Some (Obj [(chars "path", Str (chars "src/a"))])) (λ _, Some [])
     (λ _ _, true)
     (mkPolicy (chars "/work") true true [] false [] false [])
     (mkCall (chars "1") n (chars "{}"))
     (mkAuthority Gateway (chars "me") None Owner 0 false)
     (mkRuntime (mkMemorySink []) (mkFixed 7) [] tt tt)).2.

Example native_outcomes :
  performed (example_call (chars "fs_write") (Ok (new_output [] Null))).1 = [chars "done"] ∧
  (example_call (chars "fs_write") (Ok (new_output [] Null))).2 = Ok (mkOutcome (chars "1") StatusOk [] true) ∧
  (example_call (chars "fs_write") (Err UnknownTool)).2 = Err (OutcomeUnknown (Reconcile UnknownTool)) ∧
  (example_call (chars "fs_read") (Err UnknownTool)).2 = Err (Invalid (FromTool UnknownTool)) ∧
  (example_call (chars "net_fetch") (Ok (new_output [] Null))).2 = Err (Invalid (FromTool UnknownTool)).
Proof. by vm_compute. Qed.

End Example.
End NativeTools.
