(* ===== verification/Composition.v ===== *)
(** * Composition values and life cycle

    Models the value layer of [crates/claw-application/src/composition]:
    identifiers ([id.rs]), errors ([error.rs]), descriptors and reports
    ([subsystem.rs]), and the daemon-wide phases with the epoch gate they drive
    ([lifecycle.rs]). The plan ([CompositionGraph]), the host ([CompositionHost])
    and the authority ([CompositionAuthority]) build on it. *)

From S2P Require Import Prelude.

Module Composition.

(** ** [id.rs] *)

Abbreviation SubsystemId := bytes.

Definition MAX_SUBSYSTEM_ID_BYTES : nat := 64.

Inductive IdRejection := MustNotBeEmpty | MustNotExceed | BadAlphabet | EdgeHyphen | ConsecutiveHyphens.

Definition is_ascii_lowercase (b : byte) : bool := (97 <=? u8 b) && (u8 b <=? 122).
Definition is_hyphen (b : byte) : bool := u8 b =? 45.

Definition id_byte (b : byte) : bool := is_ascii_lowercase b || is_ascii_digit b || is_hyphen b.

(** [value.starts_with('-')], [value.ends_with('-')] and [value.contains("--")]. *)
Definition starts_with_hyphen (value : bytes) : bool :=
  match value with b :: _ => is_hyphen b | [] => false end.

Definition ends_with_hyphen (value : bytes) : bool :=
  match last value with Some b => is_hyphen b | None => false end.

Fixpoint contains_double_hyphen (value : bytes) : bool :=
  match value with
  | b :: rest => (is_hyphen b && starts_with_hyphen rest) || contains_double_hyphen rest
  | [] => false
  end.

Definition subsystem_id_new (value : bytes) : result IdRejection SubsystemId :=
  match value with
  | [] => Err MustNotBeEmpty
  | _ :: _ =>
      if (MAX_SUBSYSTEM_ID_BYTES <? length value)%nat then Err MustNotExceed
      else if negb (forallb id_byte value) then Err BadAlphabet
      else if starts_with_hyphen value || ends_with_hyphen value then Err EdgeHyphen
      else if contains_double_hyphen value then Err ConsecutiveHyphens
      else Ok value
  end.

(** [well_known::all] *)
Definition well_known : list SubsystemId :=
  [lit "observability"; lit "config"; lit "persistence"; lit "secrets"; lit "egress";
   lit "providers"; lit "tools"; lit "memory"; lit "plugin-host"; lit "engine";
   lit "gateway"; lit "http-api"; lit "channels"; lit "bridges"; lit "automation"].

(** Words separated by single hyphens: the grammar the identifier's doc states. *)
Definition word (w : bytes) : Prop :=
  w ≠ [] ∧ Forall (λ b, is_ascii_lowercase b = true ∨ is_ascii_digit b = true) w.

Definition hyphen : byte := byte_of 45.

Fixpoint join_hyphen (ws : list bytes) : bytes :=
  match ws with
  | [] => []
  | [w] => w
  | w :: rest => w ++ hyphen :: join_hyphen rest
  end.

(** ** [lifecycle.rs] *)

Inductive LifecyclePhase :=
  Created | Initializing | Initialized | Starting | Running | Draining | Stopping | Stopped | Failed.

#[export] Instance LifecyclePhase_eq_dec : EqDecision LifecyclePhase.
Proof. solve_decision. Defined.

Definition ALL_PHASES : list LifecyclePhase :=
  [Created; Initializing; Initialized; Starting; Running; Draining; Stopping; Stopped; Failed].

Definition phase_label (p : LifecyclePhase) : bytes :=
  match p with
  | Created => lit "created"
  | Initializing => lit "initializing"
  | Initialized => lit "initialized"
  | Starting => lit "starting"
  | Running => lit "running"
  | Draining => lit "draining"
  | Stopping => lit "stopping"
  | Stopped => lit "stopped"
  | Failed => lit "failed"
  end.

Definition accepts_work (p : LifecyclePhase) : bool := bool_decide (p = Running).

Definition is_terminal (p : LifecyclePhase) : bool := bool_decide (p = Stopped).

Definition can_transition_to (self next : LifecyclePhase) : bool :=
  match self, next with
  | Created, Initializing
  | Initializing, Initialized
  | Initialized, (Starting | Stopping)
  | Starting, Running
  | Running, Draining
  | (Draining | Failed), Stopping
  | (Stopping | Failed), Stopped
  | (Created | Initializing | Initialized | Starting | Running | Draining | Stopping), Failed => true
  | _, _ => false
  end.

Record PhaseTransitionError := mkPhaseError { pe_from : LifecyclePhase; pe_to : LifecyclePhase }.

(** [Display for PhaseTransitionError] *)
Definition phase_error_display (e : PhaseTransitionError) : bytes :=
  lit "illegal lifecycle transition: " ++ phase_label (pe_from e) ++ lit " -> " ++ phase_label (pe_to e).

(** [epoch : u64] and the gate's [AtomicU64], where 0 is closed. *)
Record Lifecycle := mkLifecycle { phase : LifecyclePhase; epoch : Z; gate : Z }.

Definition lifecycle_new : Lifecycle := mkLifecycle Created 0 0.

(** [EpochGate::current] *)
Definition gate_current (gate : Z) : option Z := if gate =? 0 then None else Some gate.

Definition active_epoch (l : Lifecycle) : option Z := gate_current (gate l).

Definition transition_to (next : LifecyclePhase) (l : Lifecycle) : result PhaseTransitionError Lifecycle :=
  if negb (can_transition_to (phase l) next) then Err (mkPhaseError (phase l) next)
  else if decide (next = Running) then
    let e := wrap_add u64_max (epoch l) 1 in Ok (mkLifecycle next e e)
  else if decide (phase l = Running) then Ok (mkLifecycle next (epoch l) 0)
  else Ok (mkLifecycle next (epoch l) (gate l)).

(** ** [subsystem.rs] *)

Inductive SubsystemKind := Foundation | Capability | Ingress.

#[export] Instance SubsystemKind_eq_dec : EqDecision SubsystemKind.
Proof. solve_decision. Defined.

Record SubsystemDescriptor := mkDescriptor {
  sd_id : SubsystemId;
  sd_kind : SubsystemKind;
  sd_dependencies : list SubsystemId;
}.

Definition descriptor_new (id : SubsystemId) (kind : SubsystemKind) : SubsystemDescriptor :=
  mkDescriptor id kind [].

Definition depends_on (d : SubsystemDescriptor) (dependency : SubsystemId) : SubsystemDescriptor :=
  mkDescriptor (sd_id d) (sd_kind d) (sd_dependencies d ++ [dependency]).

Record DrainReport := mkDrain { dr_subsystem : SubsystemId; dr_completed : Z; dr_abandoned : Z }.

(** [Display for DrainReport] *)
Definition drain_display (d : DrainReport) : bytes :=
  dr_subsystem d ++ lit " completed=" ++ decimal (dr_completed d) ++ lit " abandoned=" ++ decimal (dr_abandoned d).

Definition drain_is_clean (d : DrainReport) : bool := dr_abandoned d =? 0.

(** ** [error.rs] *)

Inductive SubsystemErrorKind := Unavailable | Invalid | Conflict | NotFound | Denied | Cancelled | Internal.

Definition kind_label (k : SubsystemErrorKind) : bytes :=
  match k with
  | Unavailable => lit "unavailable"
  | Invalid => lit "invalid"
  | Conflict => lit "conflict"
  | NotFound => lit "not found"
  | Denied => lit "denied"
  | Cancelled => lit "cancelled"
  | Internal => lit "internal"
  end.

Record SubsystemError := mkSubsystemError {
  se_subsystem : SubsystemId;
  se_kind : SubsystemErrorKind;
  se_detail : bytes;
}.

(** [Display for SubsystemError] *)
Definition subsystem_error_display (e : SubsystemError) : bytes :=
  match se_detail e with
  | [] => se_subsystem e ++ lit ": " ++ kind_label (se_kind e)
  | detail => se_subsystem e ++ lit ": " ++ kind_label (se_kind e) ++ lit ": " ++ detail
  end.

Inductive CompositionError :=
| InvalidSubsystemId (value : bytes) (reason : IdRejection)
| DuplicateSubsystem (id : SubsystemId)
| UnknownDependency (subsystem dependency : SubsystemId)
| SelfDependency (id : SubsystemId)
| DependencyCycle (path : list SubsystemId)
| Phase (e : PhaseTransitionError)
| SubsystemFailed (e : SubsystemError).

(** * Identifiers *)

Lemma hyphen_is : is_hyphen hyphen = true.
Proof. reflexivity. Qed.

Lemma is_hyphen_eq b : is_hyphen b = true ↔ b = hyphen.
Proof.
  unfold is_hyphen. rewrite Z.eqb_eq. split; [|by intros ->].
  intros Hb. apply u8_inj. by rewrite Hb.
Qed.

(** Every well-known identifier is accepted, so [well_known]'s [expect] never
    fires, and no two are equal. *)
Lemma well_known_valid : Forall (λ v, subsystem_id_new v = Ok v) well_known ∧ NoDup well_known.
Proof. split; [repeat constructor|apply (bool_decide_unpack _); vm_compute; exact I]. Qed.

Lemma id_byte_cases b :
  id_byte b = true → (is_ascii_lowercase b = true ∨ is_ascii_digit b = true) ∧ is_hyphen b = false
                     ∨ b = hyphen.
Proof.
  unfold id_byte. rewrite !orb_true_iff. destruct (is_hyphen b) eqn:E.
  - intros _. right. by apply is_hyphen_eq.
  - naive_solver.
Qed.

(** Bytes of a word, and a possibly empty first word before a hyphen. *)
Abbreviation word_bytes w := (Forall (λ b, is_ascii_lowercase b = true ∨ is_ascii_digit b = true) w).

(** A value that passes the trailing and double hyphen checks splits at its
    hyphens; only its first piece can be empty, when it starts with a hyphen. *)
Lemma hyphen_checks_split value :
  value ≠ [] → forallb id_byte value = true →
  ends_with_hyphen value = false → contains_double_hyphen value = false →
  ∃ w ws, word_bytes w ∧ Forall word ws ∧ value = join_hyphen (w :: ws) ∧
          (w = [] → starts_with_hyphen value = true).
Proof.
  induction value as [|b rest IH]; [done|]. intros _ Hb He Hd.
  cbn in Hb, Hd. apply andb_true_iff in Hb as [Hb Hrest].
  apply orb_false_iff in Hd as [Hhd Hd].
  destruct rest as [|c rest].
  { exists [b], []. cbn in He. destruct (id_byte_cases _ Hb) as [[? _]| ->]; [|done].
    split; [by constructor|]. split; [constructor|]. done. }
  destruct (IH ltac:(done) Hrest He Hd) as (w & ws & Hw & Hws & Heq & Hempty).
  destruct (id_byte_cases _ Hb) as [[Hl Hnh]| ->].
  - exists (b :: w), ws. repeat split; [by constructor|done| |done]. rewrite Heq. by destruct ws.
  - rewrite hyphen_is in Hhd. cbn [andb] in Hhd. exists [], (w :: ws).
    split; [constructor|]. split; [|split; [by rewrite Heq|done]].
    constructor; [|done]. split; [|done]. intros ->. rewrite Hempty in Hhd; done.
Qed.

Lemma word_checks w rest :
  word w → (rest = [] ∨ ∃ v, rest = hyphen :: v ∧ starts_with_hyphen v = false ∧ contains_double_hyphen v = false) →
  contains_double_hyphen (w ++ rest) = false ∧ starts_with_hyphen (w ++ rest) = false.
Proof.
  intros [Hne Hw] Hrest.
  assert (Hnh : ∀ b, is_ascii_lowercase b = true ∨ is_ascii_digit b = true → is_hyphen b = false).
  { intros b. unfold is_ascii_lowercase, is_ascii_digit, is_hyphen. lia. }
  assert (Hs : ∀ v, starts_with_hyphen (hyphen :: v) = true) by done.
  split; [|destruct w as [|b w]; [done|]; apply Forall_cons in Hw as [Hb _]; by apply Hnh].
  clear Hne. induction Hw as [|b w Hb Hw IH]; cbn.
  - destruct Hrest as [->|(v & -> & Hv & Hd)]; [done|]. cbn. by rewrite Hv, Hd.
  - by rewrite (Hnh b Hb), IH.
Qed.

Lemma join_hyphen_checks ws :
  ws ≠ [] → Forall word ws →
  let value := join_hyphen ws in
  value ≠ [] ∧ forallb id_byte value = true ∧ starts_with_hyphen value = false ∧
  ends_with_hyphen value = false ∧ contains_double_hyphen value = false.
Proof.
  intros Hne Hws.
  assert (Hbytes : ∀ w, word w → forallb id_byte w = true).
  { intros w [_ Hw]. apply Is_true_true, forallb_True, Forall_forall. intros b Hb.
    rewrite Forall_forall in Hw. destruct (Hw b Hb) as [E|E]; unfold id_byte; rewrite E; by rewrite ?orb_true_r. }
  induction Hws as [|w ws Hw Hws IH]; [done|]. destruct ws as [|w' ws].
  - cbn. destruct (word_checks w [] Hw (or_introl eq_refl)) as [Hd Hs]. rewrite app_nil_r in Hd, Hs.
    repeat split; [apply Hw|auto|done| |done].
    destruct Hw as [Hn Hw]. destruct (exists_last Hn) as (w0 & b & ->). unfold ends_with_hyphen.
    rewrite last_snoc. apply Forall_app in Hw as [_ Hb]. apply Forall_cons in Hb as [Hb _].
    revert Hb. unfold is_ascii_lowercase, is_ascii_digit, is_hyphen. lia.
  - specialize (IH ltac:(done)). cbn zeta in IH. destruct IH as (Hn & Hb & Hs & He & Hd).
    change (join_hyphen (w :: w' :: ws)) with (w ++ hyphen :: join_hyphen (w' :: ws)).
    set (v := join_hyphen (w' :: ws)) in *. clearbody v.
    destruct (word_checks w (hyphen :: v) Hw) as [Hd' Hs']; [naive_solver|].
    repeat split; [by destruct w| |done| |done].
    + rewrite forallb_app, Hbytes by done. cbn. by rewrite Hb.
    + unfold ends_with_hyphen in *. rewrite last_app_cons. by destruct v.
Qed.

(** [SubsystemId::new] accepts exactly the documented grammar. *)
Lemma subsystem_id_grammar value id :
  subsystem_id_new value = Ok id ↔
  id = value ∧ (length value ≤ 64)%nat ∧ ∃ ws, ws ≠ [] ∧ Forall word ws ∧ value = join_hyphen ws.
Proof.
  split.
  - unfold subsystem_id_new. destruct value as [|b v] eqn:Ev; [done|]. rewrite <- Ev.
    assert (Hne : value ≠ []) by by rewrite Ev. clear Ev b v.
    destruct (_ <? _)%nat eqn:El; [done|]. destruct (forallb _ _) eqn:Eb; [cbn|done].
    destruct (starts_with_hyphen value) eqn:Es; [done|]. destruct (ends_with_hyphen value) eqn:Ee; [done|].
    destruct (contains_double_hyphen value) eqn:Ed; [done|]. intros [= <-].
    split; [done|]. split; [apply Nat.ltb_ge in El; exact El|].
    destruct (hyphen_checks_split value Hne Eb Ee Ed) as (w & ws & Hw & Hws & -> & Hempty).
    exists (w :: ws). repeat split; [done|]. constructor; [|done]. split; [|done].
    intros ->. by rewrite Hempty in Es.
  - intros (-> & Hlen & ws & Hne & Hws & Hv).
    pose proof (join_hyphen_checks ws Hne Hws) as (Hn & Hb & Hs & He & Hd). cbn zeta in *.
    rewrite <- Hv in *. unfold subsystem_id_new.
    replace (_ <? _)%nat with false by (symmetry; apply Nat.ltb_ge; exact Hlen).
    rewrite Hb, Hs, He, Hd. by destruct value.
Qed.

(** * The life cycle *)

(** The seventeen edges, as the source's own test writes them out. *)
Lemma legal_edges from to :
  can_transition_to from to = true ↔
  (from, to) ∈ [(Created, Initializing); (Created, Failed); (Initializing, Initialized); (Initializing, Failed);
    (Initialized, Starting); (Initialized, Stopping); (Initialized, Failed); (Starting, Running);
    (Starting, Failed); (Running, Draining); (Running, Failed); (Draining, Stopping); (Draining, Failed);
    (Stopping, Stopped); (Stopping, Failed); (Failed, Stopping); (Failed, Stopped)].
Proof.
  rewrite <- (bool_decide_eq_true ((from, to) ∈ _)). apply eq_iff_eq_true. by destruct from, to.
Qed.

(** The gate is open in [Running] alone, and then carries the current epoch. *)
Definition gate_inv (l : Lifecycle) : Prop :=
  0 ≤ epoch l ∧ gate l = (if decide (phase l = Running) then epoch l else 0) ∧
  (phase l = Running → 0 < epoch l).

(** A lifecycle enters [Running] at most once, so a transition never overflows
    the epoch: it is 0 up to [Running] and 1 from there. *)
Definition epoch_of_phase (l : Lifecycle) : Prop :=
  (phase l ∈ [Created; Initializing; Initialized; Starting] → epoch l = 0) ∧ epoch l ≤ 1 ∧ gate_inv l.

Lemma lifecycle_new_inv : epoch_of_phase lifecycle_new.
Proof. repeat split; cbn; try lia; done. Qed.

Lemma wrap_succ e : 0 ≤ e < u64_max → wrap_add u64_max e 1 = e + 1.
Proof. intros He. unfold wrap_add. apply Z.mod_small. lia. Qed.

Lemma lifecycle_transition next l l' :
  epoch_of_phase l → transition_to next l = Ok l' → epoch_of_phase l'.
Proof.
  destruct l as [p e g]. unfold epoch_of_phase, gate_inv, transition_to; cbn [phase epoch gate].
  intros (Hz & Hle & He & Hg & Hpos). destruct (can_transition_to p next) eqn:Et; [|done]. cbn [negb].
  destruct (decide (next = Running)) as [->|Hn]; [|destruct (decide (p = Running)) as [->|Hp]];
    intros [= <-]; cbn [phase epoch gate].
  - destruct p; try discriminate. rewrite (Hz ltac:(set_solver)), wrap_succ by (split; [lia|reflexivity]).
    rewrite decide_True by done. split; [set_solver|lia].
  - rewrite decide_False by done. split; [|lia || (repeat split; [lia..|done])].
    destruct next; try discriminate; set_solver.
  - rewrite decide_False by done. split; [|repeat split; [lia..|done]].
    destruct next, p; try discriminate; try done; intros Hin; first [apply Hz; set_solver | exfalso; set_solver].
Qed.

Lemma transition_phase next l l' : transition_to next l = Ok l' → phase l' = next.
Proof. unfold transition_to. repeat case_match; try done; by intros [= <-]. Qed.

Lemma transition_allowed next l :
  can_transition_to (phase l) next = true → ∃ l', transition_to next l = Ok l'.
Proof. intros E. unfold transition_to. rewrite E. cbn. repeat case_match; eauto. Qed.

End Composition.
