(* ===== verification/CompositionGraph.v ===== *)
(** * The composition plan

    Models [crates/claw-application/src/composition/graph.rs]: resolving the
    declared dependencies, Kahn's algorithm with its ordered ready set, the
    depth-first search for a cycle, and the start, quiesce and shutdown orders.
    A node is the position of a descriptor. [None] stands for a panic (an index
    out of range, an underflowing counter, the search's [expect]) or for a loop that has
    used up its fuel; [build_total] shows that neither happens. *)

From stdpp Require Import sorting.
From S2P Require Import Prelude Composition.

Module CompositionGraph.
Import Composition.
#[local] Open Scope nat_scope.

(** ** [topological_order] *)

(** [dependents[dependency].push(node)] for each edge of [node]. *)
Fixpoint push_dependents (node : nat) (edges : list nat) (dependents : list (list nat)) : option (list (list nat)) :=
  match edges with
  | [] => Some dependents
  | dependency :: edges =>
      l ← dependents !! dependency;
      push_dependents node edges (<[dependency := l ++ [node]]> dependents)
  end.

Fixpoint collect_dependents (node : nat) (dependencies : list (list nat)) (dependents : list (list nat))
    : option (list (list nat)) :=
  match dependencies with
  | [] => Some dependents
  | edges :: rest => push_dependents node edges dependents ≫= collect_dependents (S node) rest
  end.

(** [BTreeSet<usize>] as the ascending list of its elements. *)
Fixpoint btree_insert (x : nat) (s : list nat) : list nat :=
  match s with
  | [] => [x]
  | y :: s' => if x <? y then x :: s else if x =? y then s else y :: btree_insert x s'
  end.

(** The body of the main loop, over [dependents[node]]. *)
Fixpoint release (ds : list nat) (outstanding ready : list nat) : option (list nat * list nat) :=
  match ds with
  | [] => Some (outstanding, ready)
  | d :: ds =>
      match outstanding !! d with
      | Some (S k) =>
          release ds (<[d := k]> outstanding) (if k =? 0 then btree_insert d ready else ready)
      | _ => None
      end
  end.

(** The main loop; each round orders one more node, so [count] rounds are enough. *)
Fixpoint kahn (fuel : nat) (dependents : list (list nat)) (outstanding ready order : list nat)
    : option (list nat * list nat) :=
  match ready with
  | [] => Some (order, outstanding)
  | node :: ready =>
      match fuel with
      | O => None
      | S fuel =>
          ds ← dependents !! node;
          '(outstanding, ready) ← release ds outstanding ready;
          kahn fuel dependents outstanding ready (order ++ [node])
      end
  end.

(** ** [find_cycle] *)

Inductive Colour := UNVISITED | ON_PATH | DONE.

#[export] Instance Colour_eq_dec : EqDecision Colour.
Proof. solve_decision. Defined.

(** [path.iter().position(|visited| *visited == next)] *)
Fixpoint position_of (next : nat) (path : list nat) : option nat :=
  match path with
  | [] => None
  | v :: path => if v =? next then Some 0 else S <$> position_of next path
  end.

(** The [while] loop over [stack], whose top is the head of the list here. *)
Fixpoint visit (fuel : nat) (dependencies : list (list nat)) (colour : list Colour) (path : list nat)
    (stack : list (nat * nat)) : option (list Colour + list nat) :=
  match stack with
  | [] => Some (inl colour)
  | (node, cursor) :: below =>
      match fuel with
      | O => None
      | S fuel =>
          edges ← dependencies !! node;
          if cursor =? length edges then
            visit fuel dependencies (<[node := DONE]> colour) (removelast path) below
          else
            next ← edges !! cursor;
            c ← colour !! next;
            let stack := (node, S cursor) :: below in
            match c with
            | UNVISITED =>
                visit fuel dependencies (<[next := ON_PATH]> colour) (path ++ [next]) ((next, 0) :: stack)
            | ON_PATH => entry ← position_of next path; Some (inr (drop entry path))
            | DONE => visit fuel dependencies colour path stack
            end
      end
  end.

(** Each round pops a node or consumes an edge. *)
Definition search_fuel (dependencies : list (list nat)) : nat :=
  sum_list (S ∘ length <$> dependencies).

Fixpoint search (dependencies : list (list nat)) (starts : list nat) (colour : list Colour)
    : option (option (list nat)) :=
  match starts with
  | [] => Some None
  | start :: starts =>
      c ← colour !! start;
      if decide (c = UNVISITED) then
        r ← visit (search_fuel dependencies) dependencies (<[start := ON_PATH]> colour) [start] [(start, 0)];
        match r with
        | inr cycle => Some (Some cycle)
        | inl colour => search dependencies starts colour
        end
      else search dependencies starts colour
  end.

Definition find_cycle (dependencies : list (list nat)) : option (option (list nat)) :=
  search dependencies (seq 0 (length dependencies)) (replicate (length dependencies) UNVISITED).

(** [Ok] of the order, [Err] of the cycle. *)
Definition topological_order (dependencies : list (list nat)) : option (result (list nat) (list nat)) :=
  let count := length dependencies in
  let outstanding := length <$> dependencies in
  dependents ← collect_dependents 0 dependencies (replicate count []);
  let ready := filter (λ node, outstanding !! node = Some 0) (seq 0 count) in
  '(order, outstanding) ← kahn count dependents outstanding ready [];
  if length order =? count then Some (Ok order)
  else
    found ← find_cycle dependencies;
    Some (Err (default (filter (λ node, default 0 (outstanding !! node) ≠ 0) (seq 0 count)) found)).

(** ** [CompositionPlan] *)

Record CompositionPlan := mkPlan { start_order : list SubsystemId; ingress : list SubsystemId }.

Definition shutdown_order (p : CompositionPlan) : list SubsystemId := reverse (start_order p).

Definition quiesce_order (p : CompositionPlan) : list SubsystemId := reverse (ingress p).

Fixpoint check_duplicates (seen : gset SubsystemId) (ids : list SubsystemId) : result CompositionError unit :=
  match ids with
  | [] => Ok tt
  | id :: ids =>
      if decide (id ∈ seen) then Err (DuplicateSubsystem id)
      else check_duplicates ({[id]} ∪ seen) ids
  end.

(** [index_of] *)
Fixpoint index_of (ids : list SubsystemId) (wanted : SubsystemId) : option nat :=
  match ids with
  | [] => None
  | id :: ids => if decide (id = wanted) then Some 0 else S <$> index_of ids wanted
  end.

(** The inner loop over one descriptor's dependencies. *)
Fixpoint resolve_edges (ids : list SubsystemId) (id : SubsystemId) (dependencies : list SubsystemId)
    (edges : list nat) : result CompositionError (list nat) :=
  match dependencies with
  | [] => Ok edges
  | dependency :: rest =>
      if decide (dependency = id) then Err (SelfDependency dependency)
      else
        target ← ok_or (UnknownDependency id dependency) (index_of ids dependency);
        resolve_edges ids id rest (if decide (target ∈ edges) then edges else edges ++ [target])
  end.

Fixpoint resolve_all (ids : list SubsystemId) (descriptors : list SubsystemDescriptor)
    : result CompositionError (list (list nat)) :=
  match descriptors with
  | [] => Ok []
  | d :: rest =>
      edges ← resolve_edges ids (sd_id d) (sd_dependencies d) [];
      all ← resolve_all ids rest;
      Ok (edges :: all)
  end.

(** [ids[position].clone()] over a list of positions. *)
Definition names_of (ids : list SubsystemId) (positions : list nat) : option (list SubsystemId) :=
  mapM (λ position, ids !! position) positions.

Definition build (descriptors : list SubsystemDescriptor) : option (result CompositionError CompositionPlan) :=
  let ids := sd_id <$> descriptors in
  match check_duplicates ∅ ids ≫= (λ _, resolve_all ids descriptors) with
  | Err e => Some (Err e)
  | Ok dependencies =>
      r ← topological_order dependencies;
      match r with
      | Err cycle => path ← names_of ids cycle; Some (Err (DependencyCycle path))
      | Ok order =>
          starts ← names_of ids order;
          ins ← names_of ids (filter (λ position, sd_kind <$> descriptors !! position = Some Ingress) order);
          Some (Ok (mkPlan starts ins))
      end
  end.

(** ** Specification *)

(** [subsystem] declares [dependency]. *)
Definition depends (ds : list SubsystemDescriptor) (subsystem dependency : SubsystemId) : Prop :=
  ∃ d, d ∈ ds ∧ sd_id d = subsystem ∧ dependency ∈ sd_dependencies d.

(** Everything an element needs comes before it. *)
Definition respects {A} (needs : A → A → Prop) (order : list A) : Prop :=
  ∀ before x after, order = before ++ x :: after → ∀ y, needs x y → y ∈ before.

(** [c1] needs [c2] needs ... needs [cn] needs [c1]. *)
Definition is_cycle {A} (needs : A → A → Prop) (c : list A) : Prop :=
  ∃ x rest, c = x :: rest ∧ NoDup c ∧
            (∀ i a b, (c ++ [x]) !! i = Some a → (c ++ [x]) !! S i = Some b → needs a b).

(** At the first difference, [a] has the earlier declared element. *)
Definition declared_first (ids a b : list SubsystemId) : Prop :=
  ∃ common x y a' b' i j, a = common ++ x :: a' ∧ b = common ++ y :: b' ∧
    ids !! i = Some x ∧ ids !! j = Some y ∧ i < j.

(** * Kahn's algorithm *)

Section Graph.
Context (deps : list (list nat)).

Definition edge (n m : nat) : Prop := ∃ es, deps !! n = Some es ∧ m ∈ es.

(** What [resolve_all] gives: duplicate-free edges between existing nodes. *)
Definition graph_wf : Prop := ∀ n es, deps !! n = Some es → NoDup es ∧ ∀ m, m ∈ es → m < length deps.

Context (wf : graph_wf).

Lemma respects_snoc {A} (needs : A → A → Prop) l x :
  respects needs l → (∀ y, needs x y → y ∈ l) → respects needs (l ++ [x]).
Proof.
  intros Hl Hx before z after Heq y Hy.
  induction after as [|w after' _] using rev_ind.
  - apply app_inj_tail in Heq as [-> ->]. by apply Hx.
  - rewrite app_comm_cons, app_assoc in Heq. apply app_inj_tail in Heq as [-> _]. by eapply Hl.
Qed.

Lemma btree_insert_elem x s y : y ∈ btree_insert x s ↔ y = x ∨ y ∈ s.
Proof.
  induction s as [|z s IH]; cbn [btree_insert]; [set_solver|].
  destruct (Nat.ltb_spec x z); [set_solver|]. destruct (Nat.eqb_spec x z); [set_solver|].
  rewrite !elem_of_cons, IH. naive_solver.
Qed.

Lemma btree_insert_sorted x s : StronglySorted lt s → StronglySorted lt (btree_insert x s).
Proof.
  induction 1 as [|z s Hs IH Hz]; cbn [btree_insert]; [repeat constructor|].
  destruct (Nat.ltb_spec x z); [|destruct (Nat.eqb_spec x z)].
  - constructor; [by constructor|]. constructor; [done|]. eapply Forall_impl; [exact Hz|]. cbn; lia.
  - by constructor.
  - constructor; [done|]. apply Forall_forall. intros y [->|Hy]%btree_insert_elem; [lia|].
    rewrite Forall_forall in Hz. by apply Hz.
Qed.

(** *** The dependents table *)

Fixpoint users (node : nat) (rest : list (list nat)) (m : nat) : list nat :=
  match rest with
  | [] => []
  | es :: rest => (if decide (m ∈ es) then [node] else []) ++ users (S node) rest m
  end.

Lemma users_elem node rest m n :
  n ∈ users node rest m ↔ node ≤ n ∧ ∃ es, rest !! (n - node) = Some es ∧ m ∈ es.
Proof.
  revert node. induction rest as [|es rest IH]; intros node; cbn.
  { split; [set_solver|]. intros (_ & es & ? & _). done. }
  rewrite elem_of_app, IH. split.
  - intros [Hn|(Hle & es' & Hl & Hm)].
    + destruct (decide (m ∈ es)); [|set_solver]. apply list_elem_of_singleton in Hn as ->.
      split; [done|]. exists es. by rewrite Nat.sub_diag.
    + split; [lia|]. exists es'. by replace (n - node) with (S (n - S node)) by lia.
  - intros (Hle & es' & Hl & Hm). destruct (n - node) as [|k] eqn:E.
    + left. injection Hl as ->. rewrite decide_True by done. set_solver by lia.
    + right. split; [lia|]. exists es'. by replace (n - S node) with k by lia.
Qed.

Lemma users_NoDup node rest m : NoDup (users node rest m).
Proof.
  revert node. induction rest as [|es rest IH]; intros node; cbn; [constructor|].
  apply NoDup_app. split; [case_decide; repeat constructor; set_solver|]. split; [|done].
  intros x Hx. rewrite users_elem. case_decide; set_solver by lia.
Qed.

Lemma push_dependents_spec node es acc :
  NoDup es → (∀ m, m ∈ es → m < length acc) →
  ∃ acc', push_dependents node es acc = Some acc' ∧
    ∀ m, acc' !! m = (λ l, if decide (m ∈ es) then l ++ [node] else l) <$> acc !! m.
Proof.
  revert acc. induction es as [|e es IH]; intros acc Hnd Hlt; cbn.
  { exists acc. split; [done|]. intros m. by destruct (acc !! m). }
  apply NoDup_cons in Hnd as [He Hnd].
  destruct (lookup_lt_is_Some_2 acc e) as [l Hl]; [apply Hlt; set_solver|]. rewrite Hl. cbn.
  destruct (IH (<[e := l ++ [node]]> acc)) as (acc' & Heq & Hacc'); [done| |].
  { intros m Hm. rewrite length_insert. apply Hlt. set_solver. }
  exists acc'. split; [done|]. intros m. rewrite Hacc'.
  destruct (decide (m = e)) as [->|Hne].
  - rewrite list_lookup_insert_eq by (by eapply lookup_lt_Some). rewrite Hl. cbn.
    rewrite decide_False by done. by rewrite decide_True by set_solver.
  - rewrite list_lookup_insert_ne by done. destruct (acc !! m); cbn; [|done]. f_equal.
    apply decide_ext. set_solver.
Qed.

Lemma collect_dependents_spec node rest acc :
  (∀ es, es ∈ rest → NoDup es ∧ ∀ m, m ∈ es → m < length acc) →
  ∃ acc', collect_dependents node rest acc = Some acc' ∧
    ∀ m, acc' !! m = (λ l, l ++ users node rest m) <$> acc !! m.
Proof.
  revert node acc. induction rest as [|es rest IH]; intros node acc Hwf; cbn.
  { exists acc. split; [done|]. intros m. destruct (acc !! m); cbn; [by rewrite app_nil_r|done]. }
  destruct (Hwf es) as [Hnd Hlt]; [set_solver|].
  destruct (push_dependents_spec node es acc Hnd Hlt) as (acc1 & -> & Hacc1). cbn.
  assert (Hlen : length acc1 = length acc).
  { apply Nat.le_antisymm; apply Nat.le_ngt; intros Hl;
      apply lookup_lt_is_Some_2 in Hl as [x Hx].
    - rewrite Hacc1 in Hx. apply fmap_Some in Hx as (? & Hx & _). apply lookup_lt_Some in Hx. lia.
    - pose proof (Hacc1 (length acc1)) as Hn. rewrite Hx in Hn. cbn in Hn.
      apply lookup_lt_Some in Hn. lia. }
  destruct (IH (S node) acc1) as (acc' & -> & Hacc').
  { intros es' Hes'. rewrite Hlen. apply Hwf. set_solver. }
  exists acc'. split; [done|]. intros m. rewrite Hacc', Hacc1. destruct (acc !! m); cbn; [|done].
  f_equal. case_decide; [by rewrite <- app_assoc|done].
Qed.

(** Each entry lists the nodes that need it, once. *)
Definition dependents_ok (dependents : list (list nat)) : Prop :=
  ∀ m, m < length deps → ∃ ds, dependents !! m = Some ds ∧ NoDup ds ∧ ∀ n, n ∈ ds ↔ edge n m.

Lemma dependents_spec :
  ∃ dependents, collect_dependents 0 deps (replicate (length deps) []) = Some dependents ∧
    dependents_ok dependents.
Proof.
  destruct (collect_dependents_spec 0 deps (replicate (length deps) [])) as (dd & -> & Hdd).
  { intros es [n Hn]%list_elem_of_lookup. rewrite length_replicate. by apply (wf n). }
  exists dd. split; [done|]. intros m Hm. exists (users 0 deps m). split; [|split].
  - rewrite Hdd, lookup_replicate_2 by done. done.
  - apply users_NoDup.
  - intros n. rewrite users_elem. unfold edge. rewrite Nat.sub_0_r. naive_solver lia.
Qed.

(** *** One round *)

Lemma release_spec ds out ready :
  NoDup ds → (∀ d, d ∈ ds → ∃ k, out !! d = Some (S k)) →
  ∃ out' ready', release ds out ready = Some (out', ready') ∧
    (∀ n, out' !! n = if decide (n ∈ ds) then pred <$> out !! n else out !! n) ∧
    (∀ n, n ∈ ready' ↔ n ∈ ready ∨ n ∈ ds ∧ out !! n = Some 1) ∧
    (StronglySorted lt ready → StronglySorted lt ready').
Proof.
  revert out ready. induction ds as [|d ds IH]; intros out ready Hnd Hpos; cbn.
  { exists out, ready. set_solver. }
  apply NoDup_cons in Hnd as [Hd Hnd]. destruct (Hpos d) as [k Hk]; [set_solver|]. rewrite Hk.
  destruct (IH (<[d := k]> out) (if k =? 0 then btree_insert d ready else ready)) as (out' & ready' & -> & Hout & Hready & Hsort);
    [done| |].
  { intros e He. rewrite list_lookup_insert_ne by set_solver. apply Hpos. set_solver. }
  exists out', ready'. split; [done|]. split; [|split].
  - intros n. rewrite Hout. destruct (decide (n = d)) as [->|Hne].
    + rewrite decide_False by done. rewrite decide_True by set_solver. rewrite Hk. cbn.
      apply list_lookup_insert_eq. by eapply lookup_lt_Some.
    + rewrite list_lookup_insert_ne by done. apply decide_ext. set_solver.
  - intros n. rewrite Hready. destruct (decide (n = d)) as [->|Hne].
    + rewrite Hk. destruct (Nat.eqb_spec k 0) as [->|Hk0]; [rewrite btree_insert_elem; set_solver|].
      split; [naive_solver|]. intros [?|[_ [= ?]]]; [by left|lia].
    + rewrite list_lookup_insert_ne by done. destruct (k =? 0); rewrite ?btree_insert_elem; set_solver.
  - intros Hs. apply Hsort. destruct (k =? 0); [by apply btree_insert_sorted|done].
Qed.

(** How many dependencies of a node are not ordered yet. *)
Definition pending (order es : list nat) : nat := length (filter (.∉ order) es).

Lemma pending_snoc order es node :
  NoDup es → node ∉ order →
  pending (order ++ [node]) es = (if decide (node ∈ es) then pred else id) (pending order es) ∧
  (node ∈ es → pending order es ≠ 0).
Proof.
  intros Hnd Hno. unfold pending. induction Hnd as [|e es He Hnd [IH IHp]]; [split; [reflexivity|set_solver]|].
  rewrite !filter_cons. destruct (decide (e = node)) as [->|Hne].
  - rewrite (decide_False (P := node ∉ order ++ [node])) by set_solver.
    rewrite (decide_True (P := node ∉ order)) by done. rewrite (decide_True (P := node ∈ node :: es)) by set_solver.
    rewrite IH, decide_False by done. cbn. split; [done|done].
  - assert (Hiff : e ∉ order ++ [node] ↔ e ∉ order) by set_solver.
    rewrite (decide_ext (e ∉ order ++ [node]) (e ∉ order)) by done.
    rewrite (decide_ext (node ∈ e :: es) (node ∈ es)) by set_solver.
    destruct (decide (e ∉ order)); cbn; rewrite IH.
    + split; [|lia]. destruct (decide (node ∈ es)) as [Hin|]; [|done]. specialize (IHp Hin). cbn. lia.
    + split; [done|]. intros Hin. apply IHp. set_solver.
Qed.

Lemma pending_zero order es : pending order es = 0 ↔ ∀ m, m ∈ es → m ∈ order.
Proof.
  unfold pending. rewrite length_zero_iff_nil. split.
  - intros Hf m Hm. destruct (decide (m ∈ order)) as [|Hn]; [done|].
    assert (Hin : m ∈ filter (.∉ order) es) by (apply list_elem_of_filter; done). rewrite Hf in Hin. set_solver.
  - intros Hall. destruct (filter _ es) as [|m l] eqn:E; [done|].
    assert (Hin : m ∈ filter (.∉ order) es) by (rewrite E; set_solver).
    apply list_elem_of_filter in Hin as [Hn Hm]. destruct Hn. by apply Hall.
Qed.

(** *** The loop *)

Definition index_before (a b : list nat) : Prop :=
  ∃ common x y a' b', a = common ++ x :: a' ∧ b = common ++ y :: b' ∧ x < y.

Definition available (order : list nat) (n : nat) : Prop :=
  n < length deps ∧ n ∉ order ∧ ∀ m, edge n m → m ∈ order.

Record kahn_inv (outstanding ready order : list nat) : Prop := {
  ki_out : ∀ n es, deps !! n = Some es → outstanding !! n = Some (pending order es);
  ki_ready : ∀ n, n ∈ ready ↔ available order n;
  ki_sorted : StronglySorted lt ready;
  ki_nodup : NoDup order;
  ki_range : ∀ n, n ∈ order → n < length deps;
  ki_respects : respects edge order;
  ki_least : ∀ other, respects edge other → (∀ n, n ∈ other ↔ n < length deps) → NoDup other →
               order `prefix_of` other ∨ index_before order other;
}.

Lemma seq_filter_sorted (P : nat → Prop) `{!∀ n, Decision (P n)} i k : StronglySorted lt (filter P (seq i k)).
Proof.
  revert i. induction k as [|k IH]; intros i; cbn [seq]; [constructor|]. rewrite filter_cons.
  case_decide; [|done]. constructor; [done|]. apply Forall_forall.
  intros x [_ Hx%elem_of_seq]%list_elem_of_filter. lia.
Qed.

Lemma kahn_init :
  let outstanding := length <$> deps in
  kahn_inv outstanding (filter (λ node, outstanding !! node = Some 0) (seq 0 (length deps))) [].
Proof.
  cbn zeta. split.
  - intros n es Hn. rewrite list_lookup_fmap, Hn. cbn. f_equal. unfold pending.
    clear Hn. induction es as [|e es IH]; [done|]. rewrite filter_cons, decide_True by set_solver. cbn. by f_equal.
  - intros n. rewrite list_elem_of_filter, elem_of_seq, list_lookup_fmap. unfold available, edge. split.
    + intros [Hz Hn]. split; [lia|]. split; [set_solver|]. intros m (es & Hes & Hm).
      rewrite Hes in Hz. cbn in Hz. injection Hz as Hz. apply length_zero_iff_nil in Hz as ->. done.
    + intros (Hn & _ & Hm). split; [|lia]. apply lookup_lt_is_Some_2 in Hn as [es Hes]. rewrite Hes. cbn.
      destruct es as [|e es]; [done|]. exfalso. apply (not_elem_of_nil e). apply Hm. exists (e :: es). set_solver.
  - apply seq_filter_sorted.
  - constructor.
  - set_solver.
  - intros before x after Heq. by destruct before.
  - intros other _ _ _. left. apply prefix_nil.
Qed.

(** The next element of any order with the same prefix is available. *)
Lemma next_available order other y rest :
  respects edge other → (∀ n, n ∈ other ↔ n < length deps) → NoDup other →
  other = order ++ y :: rest → available order y.
Proof.
  intros Hr Hall Hnd ->. split; [apply Hall; set_solver|]. split.
  - apply NoDup_app in Hnd as (_ & Hno & _). intros Hy. by eapply Hno; [|left].
  - intros m Hm. by eapply Hr.
Qed.

Lemma kahn_least_step outstanding node ready order other :
  kahn_inv outstanding (node :: ready) order →
  respects edge other → (∀ n, n ∈ other ↔ n < length deps) → NoDup other →
  order ++ [node] `prefix_of` other ∨ index_before (order ++ [node]) other.
Proof.
  intros Hinv Hr Hall Hnd.
  destruct (ki_least _ _ _ Hinv other Hr Hall Hnd) as [[rest Hrest]|(p & x & y & a & b & -> & -> & Hxy)]; cycle 1.
  { right. exists p, x, y, (a ++ [node]), b. by rewrite <- app_assoc. }
  assert (Hnode : available order node) by (apply (ki_ready _ _ _ Hinv); set_solver).
  destruct rest as [|y rest].
  { rewrite app_nil_r in Hrest. subst other. destruct Hnode as (Hlt & Hno & _). by destruct Hno; apply Hall. }
  assert (Hy : y ∈ node :: ready) by (apply (ki_ready _ _ _ Hinv); by eapply next_available).
  pose proof (ki_sorted _ _ _ Hinv) as Hs. apply StronglySorted_inv in Hs as [_ Hs].
  apply elem_of_cons in Hy as [->|Hy].
  - left. exists rest. by rewrite <- app_assoc.
  - right. exists order, node, y, [], rest. rewrite Forall_forall in Hs. auto.
Qed.

Lemma kahn_inv_step dependents outstanding node ready order ds :
  kahn_inv outstanding (node :: ready) order →
  dependents_ok dependents →
  dependents !! node = Some ds →
  ∃ outstanding' ready', release ds outstanding ready = Some (outstanding', ready') ∧
    kahn_inv outstanding' ready' (order ++ [node]).
Proof.
  intros Hinv Hdep Hds.
  assert (Hnode : available order node) by (apply (ki_ready _ _ _ Hinv); set_solver).
  destruct Hnode as (Hlt & Hno & Hneeds).
  destruct (Hdep node Hlt) as (ds' & Hds' & Hnd & Hedge). rewrite Hds in Hds'. injection Hds' as <-.
  assert (Hcount : ∀ n es, deps !! n = Some es → (n ∈ ds ↔ node ∈ es)).
  { intros n es Hn. rewrite Hedge. unfold edge. rewrite Hn. naive_solver. }
  destruct (release_spec ds outstanding ready) as (out' & ready' & Hrel & Hout & Hready & Hsort); [done| |].
  { intros d Hd. pose proof Hd as (es & Hes & Hin)%Hedge. destruct (wf d es Hes) as [Hnde _].
    rewrite (ki_out _ _ _ Hinv d es Hes). destruct (pending_snoc order es node Hnde Hno) as [_ Hp].
    specialize (Hp Hin). exists (pred (pending order es)). f_equal. lia. }
  exists out', ready'. split; [done|].
  pose proof (ki_sorted _ _ _ Hinv) as [Hs Hlt']%StronglySorted_inv.
  assert (Hnodenot : node ∉ ready).
  { rewrite Forall_forall in Hlt'. intros Hin. specialize (Hlt' _ Hin). lia. }
  assert (Hneed : ∀ n es, deps !! n = Some es → pending (order ++ [node]) es = 0 ↔ ∀ m, edge n m → m ∈ order ++ [node]).
  { intros n es Hn. rewrite pending_zero. unfold edge. rewrite Hn. naive_solver. }
  split.
  - intros n es Hn. destruct (wf n es Hn) as [Hnde _].
    destruct (pending_snoc order es node Hnde Hno) as [Hp _]. rewrite Hout, (ki_out _ _ _ Hinv n es Hn), Hp.
    rewrite (decide_ext (n ∈ ds) (node ∈ es)) by (by apply Hcount). by case_decide.
  - intros n. rewrite Hready. unfold available. split.
    + intros [Hn|[Hn Hone]].
      * assert (Ha : available order n) by (apply (ki_ready _ _ _ Hinv); set_solver).
        destruct Ha as (? & ? & Hm). split; [done|]. split; [set_solver|]. set_solver.
      * pose proof Hn as (es & Hes & Hin)%Hedge. split; [by eapply lookup_lt_Some|]. split.
        { apply not_elem_of_app. split; [|set_solver]. intros Hno'.
          destruct (list_elem_of_split _ _ Hno') as (l1 & l2 & Hsplit).
          assert (node ∈ l1) by (eapply (ki_respects _ _ _ Hinv); [exact Hsplit|by exists es]). set_solver. }
        rewrite <- (Hneed n es Hes). destruct (wf n es Hes) as [Hnde _].
        destruct (pending_snoc order es node Hnde Hno) as [-> _]. rewrite decide_True by done.
        rewrite (ki_out _ _ _ Hinv n es Hes) in Hone. injection Hone as ->. done.
    + intros (Hn & Hnot & Hm). destruct (lookup_lt_is_Some_2 _ _ Hn) as [es Hes].
      destruct (decide (node ∈ es)) as [Hin|Hin].
      * right. split; [by apply (Hcount n es Hes)|]. apply (Hneed n es Hes) in Hm.
        destruct (wf n es Hes) as [Hnde _]. destruct (pending_snoc order es node Hnde Hno) as [Hp Hpos].
        rewrite decide_True in Hp by done. rewrite (ki_out _ _ _ Hinv n es Hes). specialize (Hpos Hin). f_equal. lia.
      * left. assert (Ha : available order n).
        { split; [done|]. split; [set_solver|]. intros m Hedgem. pose proof (Hm m Hedgem) as Hm'.
          apply elem_of_app in Hm' as [|Hm']; [done|]. apply list_elem_of_singleton in Hm' as ->.
          destruct Hedgem as (es' & Hes' & Hin'). rewrite Hes in Hes'. injection Hes' as <-. done. }
        apply (ki_ready _ _ _ Hinv) in Ha. set_solver.
  - by apply Hsort.
  - apply NoDup_app. split; [apply (ki_nodup _ _ _ Hinv)|]. split; [set_solver|apply NoDup_singleton].
  - intros n [Hn|Hn]%elem_of_app; [by apply (ki_range _ _ _ Hinv)|set_solver].
  - apply respects_snoc; [apply (ki_respects _ _ _ Hinv)|done].
  - intros other Hr Hall Hndo. by eapply kahn_least_step.
Qed.

Lemma kahn_spec dependents fuel outstanding ready order :
  dependents_ok dependents →
  kahn_inv outstanding ready order → length deps ≤ fuel + length order →
  ∃ outstanding' order', kahn fuel dependents outstanding ready order = Some (order', outstanding') ∧
    kahn_inv outstanding' [] order'.
Proof.
  intros Hdep. revert outstanding ready order. induction fuel as [|fuel IH]; intros outstanding ready order Hinv Hfuel;
    destruct ready as [|node ready]; cbn; [by eauto| |by eauto|];
    (assert (Hnode : available order node) by (apply (ki_ready _ _ _ Hinv); set_solver));
    destruct Hnode as (Hlt & Hno & _).
  - exfalso. assert (Hincl : node :: order ⊆+ seq 0 (length deps)).
    { apply NoDup_submseteq; [constructor; [done|apply (ki_nodup _ _ _ Hinv)]|].
      intros n Hn. apply elem_of_seq. apply elem_of_cons in Hn as [->|Hn]; [lia|].
      apply (ki_range _ _ _ Hinv) in Hn. lia. }
    apply submseteq_length in Hincl. rewrite length_seq in Hincl. cbn in Hincl. lia.
  - destruct (Hdep node Hlt) as (ds & Hds & Hrest). rewrite Hds. cbn.
    destruct (kahn_inv_step dependents outstanding node ready order ds Hinv Hdep Hds) as (out' & ready' & -> & Hinv').
    cbn. apply IH; [done|]. rewrite length_app. cbn. lia.
Qed.

(** A node left over in a stalled loop excludes every order. *)
Lemma stalled_excludes outstanding order other :
  kahn_inv outstanding [] order → respects edge other → (∀ n, n < length deps → n ∈ other) →
  ∀ n, n < length deps → n ∈ order.
Proof.
  intros Hinv Hr Hall.
  assert (Hpre : ∀ p, p `prefix_of` other → ∀ n, n ∈ p → n < length deps → n ∈ order).
  { intros p. induction p as [|x p IH] using rev_ind; [set_solver|]. intros [rest Hrest] n Hn Hlt.
    assert (Hp : p `prefix_of` other) by (exists (x :: rest); by rewrite Hrest, <- app_assoc).
    apply elem_of_app in Hn as [Hn|Hn]; [by apply IH|]. apply list_elem_of_singleton in Hn as ->.
    destruct (decide (x ∈ order)) as [|Hno]; [done|]. exfalso.
    apply (not_elem_of_nil x). apply (ki_ready _ _ _ Hinv). split; [done|]. split; [done|].
    intros m Hm. apply (IH Hp).
    - eapply Hr; [|done]. rewrite Hrest, <- app_assoc. done.
    - destruct Hm as (es & Hes & Hin). by apply (wf x es Hes). }
  intros n Hn. apply (Hpre other); [done|by apply Hall|done].
Qed.

(** *** The search for a cycle *)

Definition linked (l : list nat) : Prop :=
  ∀ i a b, l !! i = Some a → l !! S i = Some b → edge a b.

Lemma linked_snoc l x : linked l → (∀ y, last l = Some y → edge y x) → linked (l ++ [x]).
Proof.
  intros Hl Hx i a b Ha Hb. apply lookup_app_Some in Hb as [Hb|[Hlen Hb]].
  - apply (Hl i); [|done]. by rewrite lookup_app_l in Ha by (apply lookup_lt_Some in Hb; lia).
  - apply list_lookup_singleton_Some in Hb as [Hi <-]. apply Hx. rewrite last_lookup.
    rewrite lookup_app_l in Ha by lia. by replace (pred (length l)) with i by lia.
Qed.

Lemma linked_prefix l l' : linked (l ++ l') → linked l.
Proof. intros Hl i a b Ha Hb. apply (Hl i); by apply lookup_app_l_Some. Qed.

Lemma linked_drop k l : linked l → linked (drop k l).
Proof. intros Hl i a b. rewrite !lookup_drop. rewrite <- plus_n_Sm. apply Hl. Qed.

Lemma position_of_spec x l : x ∈ l → ∃ i, position_of x l = Some i ∧ l !! i = Some x.
Proof.
  induction l as [|y l IH]; [set_solver|]. intros Hx. cbn. destruct (Nat.eqb_spec y x) as [->|Hne]; [by exists 0|].
  destruct IH as (i & -> & Hi); [set_solver|]. by exists (S i).
Qed.

Lemma cycle_on_path path next :
  linked (path ++ [next]) → NoDup path → next ∈ path →
  ∃ i, position_of next path = Some i ∧ is_cycle edge (drop i path).
Proof.
  intros Hl Hnd Hin. destruct (position_of_spec next path Hin) as (i & Hpos & Hi). exists i. split; [done|].
  exists next, (drop (S i) path). assert (Hdrop : drop i path = next :: drop (S i) path) by (by apply drop_S).
  split; [done|]. split; [eapply sublist_NoDup; [done|apply sublist_drop]|].
  intros j a b. rewrite <- drop_app_le by (apply lookup_lt_Some in Hi; lia). by apply linked_drop.
Qed.

(** Rounds left: an unvisited node is worth its pop and its edges. *)
Fixpoint unvisited_weight (colour : list Colour) (rest : list (list nat)) : nat :=
  match colour, rest with
  | c :: colour, es :: rest => (if decide (c = UNVISITED) then S (length es) else 0) + unvisited_weight colour rest
  | _, _ => 0
  end.

Definition edges_left (entry : nat * nat) : nat :=
  S (length (default [] (deps !! entry.1)) - entry.2).

Definition rounds_left (colour : list Colour) (stack : list (nat * nat)) : nat :=
  unvisited_weight colour deps + sum_list (edges_left <$> stack).

Lemma unvisited_weight_insert colour rest n c c' es :
  colour !! n = Some c → rest !! n = Some es → c' ≠ UNVISITED →
  unvisited_weight colour rest =
    (if decide (c = UNVISITED) then S (length es) else 0) + unvisited_weight (<[n := c']> colour) rest.
Proof.
  intros Hc Hes Hc'. revert n rest Hc Hes. induction colour as [|c0 colour IH]; intros [|n] [|es0 rest]; try done.
  - intros [= ->] [= ->]. cbn. by rewrite (decide_False (P := c' = UNVISITED)).
  - intros Hc Hes. specialize (IH n rest Hc Hes).
    change (<[S n := c']> (c0 :: colour)) with (c0 :: <[n := c']> colour). cbn [unvisited_weight]. lia.
Qed.

Lemma unvisited_weight_le colour rest : unvisited_weight colour rest ≤ search_fuel rest.
Proof.
  unfold search_fuel. revert rest. induction colour as [|c colour IH]; intros [|es rest]; cbn; try lia.
  specialize (IH rest). case_decide; lia.
Qed.

(** Every edge behind a cursor leads to a finished node or to the entry above. *)
Fixpoint stack_ok (fin : list nat) (above : option nat) (stack : list (nat * nat)) : Prop :=
  match stack with
  | [] => True
  | (node, cursor) :: below =>
      (∃ es, deps !! node = Some es ∧ cursor ≤ length es ∧
             ∀ i m, i < cursor → es !! i = Some m → m ∈ fin ∨ above = Some m) ∧
      stack_ok fin (Some node) below
  end.

Lemma stack_ok_mono fin fin' above stack : fin ⊆ fin' → stack_ok fin above stack → stack_ok fin' above stack.
Proof.
  intros Hsub. revert above. induction stack as [|[n c] stack IH]; intros above; cbn; [done|].
  intros [(es & Hes & Hc & Hi) Hrest]. split; [|by apply IH]. exists es. split; [done|]. split; [done|].
  intros i m Hlt Hm. destruct (Hi i m Hlt Hm) as [|]; [left; by apply Hsub|by right].
Qed.

Lemma stack_ok_finish fin fin' n stack :
  fin ⊆ fin' → n ∈ fin' → stack_ok fin (Some n) stack → stack_ok fin' None stack.
Proof.
  intros Hsub Hn. destruct stack as [|[k c] stack]; cbn; [done|].
  intros [(es & Hes & Hc & Hi) Hrest]. split; [|by eapply stack_ok_mono].
  exists es. split; [done|]. split; [done|]. intros i m Hlt Hm. left.
  destruct (Hi i m Hlt Hm) as [|[= ->]]; [by apply Hsub|done].
Qed.

(** [fin] lists the finished nodes in the order they finished. *)
Record visit_inv (colour : list Colour) (path : list nat) (stack : list (nat * nat)) (fin : list nat) : Prop := {
  vi_length : length colour = length deps;
  vi_path : path = reverse stack.*1;
  vi_on_path : ∀ n, n ∈ path ↔ colour !! n = Some ON_PATH;
  vi_done : ∀ n, n ∈ fin ↔ colour !! n = Some DONE;
  vi_nodup : NoDup path;
  vi_linked : linked path;
  vi_respects : respects edge fin;
  vi_stack : stack_ok fin None stack;
}.

Lemma reverse_fst_cons (n c : nat) (below : list (nat * nat)) :
  reverse ((n, c) :: below).*1 = reverse below.*1 ++ [n].
Proof. by rewrite fmap_cons, reverse_cons. Qed.

Lemma visit_pop colour path node cursor below fin es :
  visit_inv colour path ((node, cursor) :: below) fin → deps !! node = Some es → cursor = length es →
  visit_inv (<[node := DONE]> colour) (removelast path) below (fin ++ [node]).
Proof.
  intros [Hlen -> Hon Hdone Hnd Hlink Hresp Hstack] Hes ->.
  setoid_rewrite reverse_fst_cons in Hon. rewrite reverse_fst_cons in Hnd, Hlink |- *.
  rewrite removelast_last. cbn in Hstack. set (p := reverse below.*1) in *.
  assert (Hnode : node < length colour) by (rewrite Hlen; by eapply lookup_lt_Some).
  apply NoDup_app in Hnd as (Hndp & Hnot & _).
  assert (Hnp : node ∉ p) by (intros Hin; by eapply Hnot; [|left]).
  assert (Hcol : ∀ n, n ≠ node → <[node := DONE]> colour !! n = colour !! n) by (intros; by rewrite list_lookup_insert_ne).
  assert (Hself : <[node := DONE]> colour !! node = Some DONE) by (by apply list_lookup_insert_eq).
  destruct Hstack as [(es' & Hes' & _ & Hi) Hbelow]. rewrite Hes in Hes'. injection Hes' as <-.
  split; [by rewrite length_insert|done| | |done|by eapply linked_prefix| |].
  - intros n. destruct (decide (n = node)) as [->|Hne]; [rewrite Hself; naive_solver|].
    rewrite Hcol by done. rewrite <- Hon. set_solver.
  - intros n. destruct (decide (n = node)) as [->|Hne]; [rewrite Hself; set_solver|].
    rewrite Hcol by done. rewrite <- Hdone. set_solver.
  - apply respects_snoc; [done|]. intros y (es' & Hes' & Hy). rewrite Hes in Hes'. injection Hes' as <-.
    apply list_elem_of_lookup in Hy as [i Hy]. destruct (Hi i y) as [|]; [by eapply lookup_lt_Some|done..].
  - eapply stack_ok_finish; [..|done]; set_solver.
Qed.

Lemma visit_push colour path node cursor below fin es next :
  visit_inv colour path ((node, cursor) :: below) fin → deps !! node = Some es → es !! cursor = Some next →
  colour !! next = Some UNVISITED →
  visit_inv (<[next := ON_PATH]> colour) (path ++ [next]) ((next, 0) :: (node, S cursor) :: below) fin.
Proof.
  intros [Hlen -> Hon Hdone Hnd Hlink Hresp Hstack] Hes Hnext Hcol.
  assert (Hlt : next < length colour) by (by eapply lookup_lt_Some).
  assert (Hself : <[next := ON_PATH]> colour !! next = Some ON_PATH) by (by apply list_lookup_insert_eq).
  assert (Hother : ∀ n, n ≠ next → <[next := ON_PATH]> colour !! n = colour !! n) by (intros; by rewrite list_lookup_insert_ne).
  split.
  - by rewrite length_insert.
  - by rewrite !reverse_fst_cons.
  - intros n. rewrite elem_of_app, Hon. destruct (decide (n = next)) as [->|Hne]; [rewrite Hself; set_solver|].
    rewrite Hother by done. set_solver.
  - intros n. rewrite Hdone. destruct (decide (n = next)) as [->|Hne]; [rewrite Hself, Hcol; naive_solver|].
    by rewrite Hother.
  - apply NoDup_app. split; [done|]. split; [|apply NoDup_singleton]. intros n Hn ->%list_elem_of_singleton.
    apply Hon in Hn. congruence.
  - apply linked_snoc; [done|]. intros y. rewrite reverse_fst_cons, last_snoc. intros [= <-].
    exists es. split; [done|]. by eapply list_elem_of_lookup_2.
  - done.
  - cbn in Hstack |- *. destruct Hstack as [(es' & Hes' & Hc & Hi) Hbelow]. rewrite Hes in Hes'. injection Hes' as <-.
    split; [|split; [|done]].
    + destruct (lookup_lt_is_Some_2 deps next) as [esn Hesn]; [by rewrite <- Hlen|].
      exists esn. split; [done|]. split; [lia|]. intros i m Hi0. lia.
    + exists es. split; [done|]. split; [apply lookup_lt_Some in Hnext; lia|]. intros i m Hlt' Hm.
      destruct (decide (i = cursor)) as [->|Hne]; [right; congruence|].
      left. destruct (Hi i m) as [|]; [lia|done..].
Qed.

Lemma visit_skip colour path node cursor below fin es next :
  visit_inv colour path ((node, cursor) :: below) fin → deps !! node = Some es → es !! cursor = Some next →
  colour !! next = Some DONE →
  visit_inv colour path ((node, S cursor) :: below) fin.
Proof.
  intros [Hlen Hp Hon Hdone Hnd Hlink Hresp Hstack] Hes Hnext Hcol. split; try done.
  cbn in Hstack |- *. destruct Hstack as [(es' & Hes' & Hc & Hi) Hbelow]. rewrite Hes in Hes'. injection Hes' as <-.
  split; [|done]. exists es. split; [done|]. split; [apply lookup_lt_Some in Hnext; lia|]. intros i m Hlt Hm.
  left. destruct (decide (i = cursor)) as [->|Hne]; [apply Hdone; congruence|]. destruct (Hi i m) as [|]; [lia|done..].
Qed.

Definition visited (colour : list Colour) (n : nat) : Prop :=
  ∃ c, colour !! n = Some c ∧ c ≠ UNVISITED.

Lemma visited_insert colour k c n : c ≠ UNVISITED → visited colour n → visited (<[k := c]> colour) n.
Proof.
  intros Hc (c0 & Hn & Hc0). unfold visited. destruct (decide (n = k)) as [->|Hne].
  - exists c. rewrite list_lookup_insert_eq by (by eapply lookup_lt_Some). done.
  - exists c0. by rewrite list_lookup_insert_ne.
Qed.

Lemma visit_spec fuel colour path stack fin :
  visit_inv colour path stack fin → rounds_left colour stack ≤ fuel →
  ∃ r, visit fuel deps colour path stack = Some r ∧
    match r with
    | inr cycle => is_cycle edge cycle ∧ ∀ n, n ∈ cycle → n < length deps
    | inl colour' => ∃ fin', visit_inv colour' [] [] fin' ∧ ∀ n, visited colour n → visited colour' n
    end.
Proof.
  revert colour path stack fin. induction fuel as [|fuel IH]; intros colour path [|[node cursor] below] fin Hinv Hfuel.
  1,3: exists (inl colour); split; [done|]; exists fin; split; [|done];
       pose proof (vi_path _ _ _ _ Hinv) as Hp; cbn in Hp; by subst path.
  { unfold rounds_left in Hfuel. cbn in Hfuel. lia. }
  pose proof (vi_stack _ _ _ _ Hinv) as [(es & Hes & Hcur & _) _]. cbn [visit]. rewrite Hes. cbn [mbind option_bind].
  unfold rounds_left in Hfuel. cbn [fmap list_fmap sum_list] in Hfuel. unfold edges_left at 1 in Hfuel. cbn in Hfuel.
  rewrite Hes in Hfuel. cbn in Hfuel.
  assert (Hnode : colour !! node = Some ON_PATH).
  { apply (vi_on_path _ _ _ _ Hinv). rewrite (vi_path _ _ _ _ Hinv), reverse_fst_cons. set_solver. }
  destruct (Nat.eqb_spec cursor (length es)) as [Heq|Hne].
  - pose proof (visit_pop _ _ _ _ _ _ _ Hinv Hes Heq) as Hinv'.
    destruct (IH _ _ _ _ Hinv') as (r & -> & Hr).
    { unfold rounds_left. pose proof (unvisited_weight_insert colour deps node ON_PATH DONE es Hnode Hes ltac:(done)) as Hw.
      rewrite decide_False in Hw by done. lia. }
    exists r. split; [done|]. destruct r as [colour'|]; [|done]. destruct Hr as (fin' & ? & Hmono).
    exists fin'. split; [done|]. intros n Hn. by apply Hmono, visited_insert.
  - destruct (lookup_lt_is_Some_2 es cursor) as [next Hnext]; [lia|]. rewrite Hnext. cbn [mbind option_bind].
    destruct (wf node es Hes) as [_ Hrange]. assert (Hin : next ∈ es) by (by eapply list_elem_of_lookup_2).
    pose proof (Hrange next Hin) as Hlt.
    destruct (lookup_lt_is_Some_2 deps next Hlt) as [esn Hesn]. rewrite <- (vi_length _ _ _ _ Hinv) in Hlt.
    destruct (lookup_lt_is_Some_2 colour next Hlt) as [c Hc]. rewrite Hc. cbn [mbind option_bind].
    destruct c.
    + pose proof (visit_push _ _ _ _ _ _ _ _ Hinv Hes Hnext Hc) as Hinv'.
      destruct (IH _ _ _ _ Hinv') as (r & -> & Hr).
      { unfold rounds_left. pose proof (unvisited_weight_insert colour deps next UNVISITED ON_PATH esn Hc Hesn ltac:(done)) as Hw.
        rewrite decide_True in Hw by done. cbn [fmap list_fmap sum_list]. unfold edges_left at 1 2. cbn.
        rewrite Hes, Hesn. cbn. lia. }
      exists r. split; [done|]. destruct r as [colour'|]; [|done]. destruct Hr as (fin' & ? & Hmono).
      exists fin'. split; [done|]. intros n Hn. by apply Hmono, visited_insert.
    + destruct (cycle_on_path path next) as (i & -> & Hcycle).
      * apply linked_snoc; [apply (vi_linked _ _ _ _ Hinv)|]. intros y.
        rewrite (vi_path _ _ _ _ Hinv), reverse_fst_cons, last_snoc. intros [= <-]. by exists es.
      * apply (vi_nodup _ _ _ _ Hinv).
      * by apply (vi_on_path _ _ _ _ Hinv).
      * eexists. split; [done|]. split; [done|]. intros n Hn.
        assert (Hnp : n ∈ path) by (eapply elem_of_submseteq; [done|]; apply sublist_submseteq, sublist_drop).
        apply (vi_on_path _ _ _ _ Hinv), lookup_lt_Some in Hnp. by rewrite <- (vi_length _ _ _ _ Hinv).
    + apply (IH _ _ _ _ (visit_skip _ _ _ _ _ _ _ _ Hinv Hes Hnext Hc)).
      unfold rounds_left. cbn [fmap list_fmap sum_list]. unfold edges_left at 1. cbn. rewrite Hes. cbn. lia.
Qed.

Lemma search_spec starts colour fin :
  visit_inv colour [] [] fin → (∀ n, n ∈ starts → n < length deps) →
  ∃ r, search deps starts colour = Some r ∧
    match r with
    | Some cycle => is_cycle edge cycle ∧ ∀ n, n ∈ cycle → n < length deps
    | None => ∃ fin', respects edge fin' ∧ ∀ n, n ∈ starts ∨ visited colour n → n ∈ fin'
    end.
Proof.
  assert (Hdone : ∀ colour fin n, visit_inv colour [] [] fin → visited colour n → n ∈ fin).
  { intros col f n Hinv (c & Hn & Hc). apply (vi_done _ _ _ _ Hinv). destruct c; [done| |done].
    apply (vi_on_path _ _ _ _ Hinv) in Hn. set_solver. }
  revert colour fin. induction starts as [|start starts IH]; intros colour fin Hinv Hstarts; cbn.
  { exists None. split; [done|]. exists fin. split; [apply (vi_respects _ _ _ _ Hinv)|].
    intros n [?|Hn]; [set_solver|by eapply Hdone]. }
  assert (Hlt : start < length deps) by (apply Hstarts; set_solver).
  destruct (lookup_lt_is_Some_2 deps start Hlt) as [es Hes].
  destruct (lookup_lt_is_Some_2 colour start) as [c Hc]; [by rewrite (vi_length _ _ _ _ Hinv)|]. rewrite Hc. cbn.
  assert (Hrest : ∀ col f, visit_inv col [] [] f → visited col start → (∀ n, visited colour n → visited col n) →
    ∃ r, search deps starts col = Some r ∧
    match r with
    | Some cycle => is_cycle edge cycle ∧ ∀ n, n ∈ cycle → n < length deps
    | None => ∃ fin', respects edge fin' ∧ ∀ n, n ∈ start :: starts ∨ visited colour n → n ∈ fin'
    end).
  { intros col f Hi Hv Hmono. destruct (IH col f Hi) as (r & Hr & Hspec); [set_solver|]. exists r. split; [done|].
    destruct r; [done|]. destruct Hspec as (fin' & ? & Hall). exists fin'. split; [done|].
    intros n [[->|Hn]%elem_of_cons|Hn]; apply Hall; auto. }
  case_decide as Hu; [subst c|by apply (Hrest colour fin Hinv); [exists c|]].
  assert (Hstart : visit_inv (<[start := ON_PATH]> colour) [start] [(start, 0)] fin).
  { assert (Hself : <[start := ON_PATH]> colour !! start = Some ON_PATH)
      by (apply list_lookup_insert_eq; by eapply lookup_lt_Some).
    destruct Hinv as [Hlen _ Hon Hdn _ _ Hresp _].
    split; [by rewrite length_insert|done| | |apply NoDup_singleton| |done|].
    - intros n. destruct (decide (n = start)) as [->|Hne]; [rewrite Hself; set_solver|].
      rewrite list_lookup_insert_ne by done. rewrite <- Hon. set_solver.
    - intros n. rewrite Hdn. destruct (decide (n = start)) as [->|Hne]; [rewrite Hself, Hc; naive_solver|].
      by rewrite list_lookup_insert_ne.
    - intros i a b _ Hb. by apply lookup_lt_Some in Hb; cbn in Hb; lia.
    - cbn. split; [|done]. exists es. split; [done|]. split; [lia|]. intros i m Hi. lia. }
  destruct (visit_spec (search_fuel deps) _ _ _ _ Hstart) as (r & -> & Hr).
  { unfold rounds_left. pose proof (unvisited_weight_insert colour deps start UNVISITED ON_PATH es Hc Hes ltac:(done)) as Hw.
    rewrite decide_True in Hw by done. pose proof (unvisited_weight_le colour deps).
    cbn. unfold edges_left. cbn. rewrite Hes. cbn. lia. }
  cbn. destruct r as [col|cycle]; [|by exists (Some cycle)].
  destruct Hr as (f & Hi & Hmono). apply (Hrest col f Hi).
  - apply Hmono. exists ON_PATH. split; [|done]. apply list_lookup_insert_eq. by eapply lookup_lt_Some.
  - intros n Hn. apply Hmono. by apply visited_insert.
Qed.

(** The search always ends; finding nothing means the nodes can be ordered. *)
Lemma find_cycle_spec :
  ∃ r, find_cycle deps = Some r ∧
    match r with
    | Some cycle => is_cycle edge cycle ∧ ∀ n, n ∈ cycle → n < length deps
    | None => ∃ fin, respects edge fin ∧ ∀ n, n < length deps → n ∈ fin
    end.
Proof.
  destruct (search_spec (seq 0 (length deps)) (replicate (length deps) UNVISITED) []) as (r & Hr & Hspec).
  - assert (Hu : ∀ n c, replicate (length deps) UNVISITED !! n = Some c → c = UNVISITED)
      by (intros n c Hn; by apply lookup_replicate_1 in Hn as [-> _]).
    split; [by rewrite length_replicate|done| | |constructor|by intros ? ? ?|by intros []|done];
      (intros n; split; [set_solver|intros Hn%Hu; done]).
  - intros n Hn%elem_of_seq. lia.
  - exists r. split; [done|]. destruct r; [done|]. destruct Hspec as (fin & ? & Hall).
    exists fin. split; [done|]. intros n Hn. apply Hall. left. apply elem_of_seq. lia.
Qed.

(** [topological_order] never panics; it returns the least order, or a cycle
    (so the fallback of its last line is dead code). *)
Lemma topological_order_spec :
  ∃ r, topological_order deps = Some r ∧
    match r with
    | Ok order =>
        order ≡ₚ seq 0 (length deps) ∧ respects edge order ∧
        ∀ other, other ≡ₚ seq 0 (length deps) → respects edge other → order = other ∨ index_before order other
    | Err cycle => is_cycle edge cycle ∧ ∀ n, n ∈ cycle → n < length deps
    end.
Proof.
  unfold topological_order. destruct dependents_spec as (dependents & -> & Hdep). cbn [mbind option_bind].
  destruct (kahn_spec dependents (length deps) _ _ [] Hdep kahn_init) as (out & order & -> & Hinv); [lia|].
  cbn [mbind option_bind].
  assert (Hsub : order ⊆+ seq 0 (length deps)).
  { apply NoDup_submseteq; [apply (ki_nodup _ _ _ Hinv)|].
    intros n Hn%(ki_range _ _ _ Hinv). apply elem_of_seq. lia. }
  destruct (Nat.eqb_spec (length order) (length deps)) as [Hlen|Hlen].
  - eexists. split; [done|]. split.
    { apply submseteq_length_Permutation; [done|]. by rewrite length_seq, Hlen. }
    split; [apply (ki_respects _ _ _ Hinv)|]. intros other Hperm Hr.
    destruct (ki_least _ _ _ Hinv other Hr) as [[rest ->]|]; [| |left|by right].
    + intros n. rewrite Hperm, elem_of_seq. lia.
    + rewrite Hperm. apply NoDup_seq.
    + apply Permutation_length in Hperm. rewrite length_app, length_seq in Hperm.
      destruct rest; [by rewrite app_nil_r|cbn in Hperm; lia].
  - destruct find_cycle_spec as (r & -> & Hr). eexists. split; [done|]. destruct r as [cycle|]; [done|].
    exfalso. destruct Hr as (fin & Hfin & Hall). apply Hlen.
    assert (Hperm : order ≡ₚ seq 0 (length deps)); [|by rewrite Hperm, length_seq].
    apply (anti_symm submseteq); [done|]. apply NoDup_submseteq; [apply NoDup_seq|].
    intros n Hn%elem_of_seq. eapply (stalled_excludes out order fin); [done..|lia].
Qed.

End Graph.

(** * Resolving the declared names *)

Lemma check_duplicates_spec seen ids :
  match check_duplicates seen ids with
  | Ok _ => NoDup ids ∧ ∀ id, id ∈ ids → id ∉ seen
  | Err e => ∃ l1 id l2, e = DuplicateSubsystem id ∧ ids = l1 ++ id :: l2 ∧ NoDup l1 ∧
               (∀ i, i ∈ l1 → i ∉ seen) ∧ (id ∈ seen ∨ id ∈ l1)
  end.
Proof.
  revert seen. induction ids as [|id ids IH]; intros seen; cbn [check_duplicates]; [by split; [constructor|set_solver]|].
  case_decide as Hin.
  { exists [], id, ids. split; [done|]. split; [done|]. split; [constructor|]. split; [set_solver|by left]. }
  specialize (IH ({[id]} ∪ seen)). destruct (check_duplicates _ ids) as [|e].
  - destruct IH as [Hnd Hseen]. split; [constructor; [|done]; intros Hid; by apply (Hseen id Hid); set_solver|].
    intros i [->|Hi]%elem_of_cons; [done|]. specialize (Hseen i Hi). set_solver.
  - destruct IH as (l1 & i & l2 & -> & -> & Hnd & Hseen & Hi). exists (id :: l1), i, l2.
    split; [done|]. split; [done|]. split; [|split; [|set_solver]].
    + constructor; [|done]. intros Hid. by apply (Hseen id Hid); set_solver.
    + intros j [->|Hj]%elem_of_cons; [done|]. specialize (Hseen j Hj). set_solver.
Qed.

Lemma index_of_spec ids wanted :
  match index_of ids wanted with
  | Some i => ids !! i = Some wanted
  | None => wanted ∉ ids
  end.
Proof.
  induction ids as [|id ids IH]; cbn; [set_solver|]. case_decide as Hid; [by subst|].
  destruct (index_of ids wanted); cbn; [done|set_solver].
Qed.

(** Names stay inside the composition and away from the subsystem itself. *)
Definition wired (ids : list SubsystemId) (id : SubsystemId) (dependencies : list SubsystemId) : Prop :=
  ∀ dependency, dependency ∈ dependencies → dependency ≠ id ∧ dependency ∈ ids.

Definition wiring_error (ids : list SubsystemId) (id : SubsystemId) (dependencies : list SubsystemId)
    (e : CompositionError) : Prop :=
  (e = SelfDependency id ∧ id ∈ dependencies) ∨
  (∃ dependency, e = UnknownDependency id dependency ∧ dependency ∈ dependencies ∧ dependency ∉ ids).

Lemma resolve_edges_spec ids id dependencies edges :
  match resolve_edges ids id dependencies edges with
  | Ok edges' => wired ids id dependencies ∧ (NoDup edges → NoDup edges') ∧
      ∀ t, t ∈ edges' ↔ t ∈ edges ∨ ∃ dependency, dependency ∈ dependencies ∧ index_of ids dependency = Some t
  | Err e => wiring_error ids id dependencies e
  end.
Proof.
  revert edges. induction dependencies as [|d dependencies IH]; intros edges; cbn.
  { split; [by intros ? ?%not_elem_of_nil|]. set_solver. }
  case_decide as Hd; [left; set_solver|].
  pose proof (index_of_spec ids d) as Hix. destruct (index_of ids d) as [t|] eqn:Et; cbn; cycle 1.
  { right. exists d. set_solver. }
  set (edges1 := if decide (t ∈ edges) then edges else edges ++ [t]).
  assert (H1 : (NoDup edges → NoDup edges1) ∧ ∀ u, u ∈ edges1 ↔ u ∈ edges ∨ u = t).
  { subst edges1. case_decide; [set_solver|]. split; [|set_solver]. intros Hnd.
    apply NoDup_app. split; [done|]. split; [set_solver|apply NoDup_singleton]. }
  destruct H1 as [Hnd1 Hel1]. specialize (IH edges1). destruct (resolve_edges ids id dependencies edges1) as [edges'|e].
  - destruct IH as (Hw & Hnd & Hel). split; [|split; [auto|]].
    + intros x [->|Hx]%elem_of_cons; [|by apply Hw]. split; [done|]. by eapply list_elem_of_lookup_2.
    + intros u. rewrite Hel, Hel1. setoid_rewrite elem_of_cons. split; [|naive_solver].
      intros [[?| ->]|(x & Hx & Hu)]; eauto.
  - destruct IH as [[-> Hin]|(x & -> & Hin & Hno)]; [left|right; exists x]; set_solver.
Qed.

Lemma resolve_all_spec ids ds :
  match resolve_all ids ds with
  | Ok all => length all = length ds ∧ ∀ n d, ds !! n = Some d → ∃ es, all !! n = Some es ∧
      wired ids (sd_id d) (sd_dependencies d) ∧ NoDup es ∧
      ∀ t, t ∈ es ↔ ∃ dependency, dependency ∈ sd_dependencies d ∧ index_of ids dependency = Some t
  | Err e => ∃ d, d ∈ ds ∧ wiring_error ids (sd_id d) (sd_dependencies d) e
  end.
Proof.
  induction ds as [|d ds IH]; cbn; [done|].
  pose proof (resolve_edges_spec ids (sd_id d) (sd_dependencies d) []) as Hes.
  destruct (resolve_edges _ _ _ _) as [es|e]; cbn; [|exists d; set_solver].
  destruct (resolve_all ids ds) as [all|e]; cbn; [|destruct IH as (d' & ? & ?); exists d'; set_solver].
  destruct IH as [Hlen IH]. split; [cbn; lia|]. intros [|n] d' Hn; [|by apply IH].
  injection Hn as <-. destruct Hes as (Hw & Hnd & Hel). exists es. split; [done|]. split; [done|].
  split; [apply Hnd; constructor|]. intros t. rewrite Hel. set_solver.
Qed.

(** * From positions to names *)

Section Names.
Context (ids : list SubsystemId).

Definition name_at (n : nat) : SubsystemId := default [] (ids !! n).

Lemma names_of_spec l : (∀ n, n ∈ l → n < length ids) → names_of ids l = Some (name_at <$> l).
Proof.
  unfold names_of, name_at. induction l as [|n l IH]; intros Hl; cbn; [done|].
  destruct (lookup_lt_is_Some_2 ids n) as [x ->]; [apply Hl; set_solver|]. cbn.
  rewrite IH; [done|set_solver].
Qed.

Lemma name_at_seq : name_at <$> seq 0 (length ids) = ids.
Proof.
  apply list_eq. intros i. rewrite list_lookup_fmap. destruct (decide (i < length ids)) as [Hi|Hi].
  - rewrite lookup_seq_lt by done. cbn. unfold name_at. destruct (lookup_lt_is_Some_2 ids i Hi) as [x ->]. done.
  - rewrite lookup_seq_ge by lia. symmetry. apply lookup_ge_None. lia.
Qed.

Lemma name_at_lookup n : n < length ids → ids !! n = Some (name_at n).
Proof. intros Hn. unfold name_at. by destruct (lookup_lt_is_Some_2 ids n Hn) as [x ->]. Qed.

Context (Hnd : NoDup ids).

Lemma name_at_inj n m : n < length ids → m < length ids → name_at n = name_at m → n = m.
Proof.
  intros Hn Hm Heq. eapply NoDup_lookup; [exact Hnd|by apply name_at_lookup|]. rewrite Heq. by apply name_at_lookup.
Qed.

Context (ds : list SubsystemDescriptor) (Hids : ids = sd_id <$> ds).
Context (deps : list (list nat)) (Hlen : length deps = length ds).
Context (Hdeps : ∀ n d, ds !! n = Some d → ∃ es, deps !! n = Some es ∧
      wired ids (sd_id d) (sd_dependencies d) ∧ NoDup es ∧
      ∀ t, t ∈ es ↔ ∃ dependency, dependency ∈ sd_dependencies d ∧ index_of ids dependency = Some t).

Lemma length_names : length ids = length deps.
Proof. by rewrite Hids, length_fmap. Qed.

Lemma resolved_wf : graph_wf deps.
Proof.
  intros n es Hn. destruct (lookup_lt_is_Some_2 ds n) as [d Hd]; [rewrite <- Hlen; by eapply lookup_lt_Some|].
  destruct (Hdeps n d Hd) as (es' & Hes & _ & Hnde & Hel). rewrite Hn in Hes. injection Hes as <-. split; [done|].
  intros m (x & _ & Hx)%Hel. pose proof (index_of_spec ids x) as Hix. rewrite Hx in Hix.
  apply lookup_lt_Some in Hix. by rewrite <- length_names.
Qed.

(** Edges between positions are the declared dependencies between names. *)
Lemma edge_depends n m : edge deps n m → depends ds (name_at n) (name_at m).
Proof.
  intros (es & Hes & Hm). destruct (lookup_lt_is_Some_2 ds n) as [d Hd]; [rewrite <- Hlen; by eapply lookup_lt_Some|].
  destruct (Hdeps n d Hd) as (es' & Hes' & _ & _ & Hel). rewrite Hes in Hes'. injection Hes' as <-.
  destruct (proj1 (Hel m) Hm) as (x & Hx & Hix). pose proof (index_of_spec ids x) as Hlook. rewrite Hix in Hlook.
  exists d. split; [by eapply list_elem_of_lookup_2|]. unfold name_at. rewrite Hlook. cbn. split; [|done].
  rewrite Hids, list_lookup_fmap, Hd. done.
Qed.

Lemma depends_edge n y : n < length ids → depends ds (name_at n) y → ∃ m, m < length ids ∧ name_at m = y ∧ edge deps n m.
Proof.
  intros Hn (d & Hd & Hname & Hy). apply list_elem_of_lookup in Hd as [k Hk].
  assert (Hkn : k = n).
  { assert (k < length ids) by (rewrite Hids, length_fmap; by eapply lookup_lt_Some).
    apply name_at_inj; [done..|]. rewrite <- Hname. unfold name_at. by rewrite Hids, list_lookup_fmap, Hk. }
  subst k. destruct (Hdeps n d Hk) as (es & Hes & Hw & _ & Hel). destruct (Hw y Hy) as [_ Hin].
  pose proof (index_of_spec ids y) as Hix. destruct (index_of ids y) as [m|] eqn:Em; [|done].
  exists m. split; [by eapply lookup_lt_Some|]. split; [unfold name_at; by rewrite Hix|].
  exists es. split; [done|]. apply Hel. eauto.
Qed.

Lemma respects_names order :
  (∀ n, n ∈ order → n < length ids) → respects (edge deps) order → respects (depends ds) (name_at <$> order).
Proof.
  intros Hrange Hr before x after Heq y Hy.
  apply fmap_app_inv in Heq as (b & r & -> & Hr' & ->). symmetry in Hr'. apply fmap_cons_inv in Hr' as (n & a & -> & -> & ->).
  destruct (depends_edge n y) as (m & Hm & <- & Hedge); [apply Hrange; set_solver|done|].
  apply list_elem_of_fmap_2. by eapply Hr.
Qed.

Lemma names_respect pos :
  (∀ n, n ∈ pos → n < length ids) → respects (depends ds) (name_at <$> pos) → respects (edge deps) pos.
Proof.
  intros Hrange Hr before n after -> m Hedge. pose proof (edge_depends n m Hedge) as Hdep.
  rewrite fmap_app, fmap_cons in Hr. specialize (Hr _ _ _ eq_refl _ Hdep).
  apply list_elem_of_fmap in Hr as (k & Hk & Hin).
  assert (m < length ids). { destruct Hedge as (es & Hes & Hm). rewrite length_names. by apply (resolved_wf n es). }
  by assert (m = k) as -> by (apply name_at_inj; [done|apply Hrange; set_solver|done]).
Qed.

Lemma cycle_names c :
  (∀ n, n ∈ c → n < length ids) → is_cycle (edge deps) c → is_cycle (depends ds) (name_at <$> c).
Proof.
  intros Hrange (x & rest & -> & Hndc & Hl). exists (name_at x), (name_at <$> rest). split; [done|]. split.
  - clear Hl. revert Hrange Hndc. generalize (x :: rest). intros l Hl. induction 1 as [|n l Hn Hndl IH]; cbn; constructor.
    + intros (m & Hm & Hin)%list_elem_of_fmap. apply name_at_inj in Hm as ->; [done|apply Hl; set_solver..].
    + apply IH. set_solver.
  - intros i a b. change [name_at x] with (name_at <$> [x]). rewrite <- fmap_app, !list_lookup_fmap.
    intros (n & Hn & ->)%fmap_Some (m & Hm & ->)%fmap_Some. apply edge_depends. by eapply Hl.
Qed.

Lemma least_names order other :
  (∀ n, n ∈ order → n < length ids) →
  (∀ pos, pos ≡ₚ seq 0 (length deps) → respects (edge deps) pos → order = pos ∨ index_before order pos) →
  other ≡ₚ ids → respects (depends ds) other → name_at <$> order = other ∨ declared_first ids (name_at <$> order) other.
Proof.
  intros Hrange Hleast Hperm Hr. rewrite <- name_at_seq in Hperm.
  apply Permutation_map_inv in Hperm as (pos & -> & Hpos). symmetry in Hpos.
  assert (Hrpos : ∀ n, n ∈ pos → n < length ids) by (intros n; rewrite Hpos; intros Hn%elem_of_seq; lia).
  destruct (Hleast pos) as [->|(p & n & m & a & b & -> & -> & Hlt)]; [|by apply names_respect|by left|right].
  { by rewrite <- length_names. }
  exists (name_at <$> p), (name_at n), (name_at m), (name_at <$> a), (name_at <$> b), n, m.
  split; [by rewrite fmap_app, fmap_cons|]. split; [exact (fmap_app _ _ _)|].
  split; [apply name_at_lookup, Hrange; set_solver|]. split; [apply name_at_lookup, Hrpos; set_solver|done].
Qed.

End Names.

(** No order gets past a cycle. *)
Lemma cycle_blocks {A} (needs : A → A → Prop) c order x :
  is_cycle needs c → respects needs order → x ∈ c → x ∉ order.
Proof.
  intros (y & rest & -> & _ & Hl) Hr. set (c := y :: rest) in *.
  assert (Hnext : ∀ x, x ∈ c → ∃ z, z ∈ c ∧ needs x z).
  { intros z (i & Hi)%list_elem_of_lookup. pose proof (lookup_lt_Some _ _ _ Hi) as Hlt.
    destruct (lookup_lt_is_Some_2 (c ++ [y]) (S i)) as [w Hw]; [rewrite length_app; cbn [length]; lia|].
    exists w. split; [|eapply Hl; [by rewrite lookup_app_l|done]].
    apply lookup_app_Some in Hw as [Hw|[_ Hw]]; [by eapply list_elem_of_lookup_2|].
    apply list_lookup_singleton_Some in Hw as [_ <-]. subst c. set_solver. }
  assert (Hpre : ∀ p, (∃ after, order = p ++ after) → ∀ x, x ∈ c → x ∉ p).
  { intros p. induction p as [|w p IH] using rev_ind; [set_solver|]. intros [after ->] z Hz Hin.
    assert (Hp : ∀ x, x ∈ c → x ∉ p) by (apply IH; exists (w :: after); by rewrite <- app_assoc).
    apply elem_of_app in Hin as [Hin|Hin%list_elem_of_singleton]; [by eapply Hp|]. subst z.
    destruct (Hnext w Hz) as (z & Hzc & Hneed). apply (Hp z Hzc).
    eapply Hr; [by rewrite <- app_assoc|done]. }
  intros Hx. apply (Hpre order); [|done]. exists []. by rewrite app_nil_r.
Qed.

(** The ingress list: the positions of ingress subsystems, in start order. *)
Lemma ingress_names ds order :
  let ids := sd_id <$> ds in
  order ≡ₚ seq 0 (length ids) →
  let ins := name_at ids <$> filter (λ n, sd_kind <$> ds !! n = Some Ingress) order in
  ins `sublist_of` (name_at ids <$> order) ∧
  ∀ id, id ∈ ins ↔ ∃ d, d ∈ ds ∧ sd_id d = id ∧ sd_kind d = Ingress.
Proof.
  cbn zeta. intros Hperm. split; [apply fmap_sublist, sublist_filter|].
  intros id. rewrite list_elem_of_fmap. setoid_rewrite list_elem_of_filter. split.
  - intros (n & -> & Hk & _). apply fmap_Some in Hk as (d & Hd & Hk). exists d.
    split; [by eapply list_elem_of_lookup_2|]. unfold name_at. by rewrite list_lookup_fmap, Hd.
  - intros (d & (n & Hn)%list_elem_of_lookup & <- & Hk). exists n. unfold name_at.
    rewrite list_lookup_fmap, Hn. cbn. rewrite Hk. split; [done|]. split; [done|].
    rewrite Hperm. apply elem_of_seq. rewrite length_fmap. apply lookup_lt_Some in Hn. lia.
Qed.

(** What [build] may answer. *)
Definition plan_verdict (ds : list SubsystemDescriptor) (r : result CompositionError CompositionPlan) : Prop :=
  let ids := sd_id <$> ds in
  match r with
  | Ok plan =>
      start_order plan ≡ₚ ids ∧ NoDup ids ∧ respects (depends ds) (start_order plan) ∧
      (∀ other, other ≡ₚ ids → respects (depends ds) other →
         start_order plan = other ∨ declared_first ids (start_order plan) other) ∧
      ingress plan `sublist_of` start_order plan ∧
      (∀ id, id ∈ ingress plan ↔ ∃ d, d ∈ ds ∧ sd_id d = id ∧ sd_kind d = Ingress)
  | Err (DuplicateSubsystem id) => ∃ l1 l2, ids = l1 ++ id :: l2 ∧ NoDup l1 ∧ id ∈ l1
  | Err (SelfDependency id) => depends ds id id
  | Err (UnknownDependency subsystem dependency) => depends ds subsystem dependency ∧ dependency ∉ ids
  | Err (DependencyCycle path) =>
      is_cycle (depends ds) path ∧ ∀ order, order ≡ₚ ids → ¬ respects (depends ds) order
  | Err _ => False
  end.

Lemma build_verdict ds : ∃ r, build ds = Some r ∧ plan_verdict ds r.
Proof.
  unfold plan_verdict. cbn zeta. set (ids := sd_id <$> ds). unfold build. fold ids.
  pose proof (check_duplicates_spec ∅ ids) as Hdup. destruct (check_duplicates ∅ ids) as [|e]; cbn.
  2:{ eexists. split; [done|]. destruct Hdup as (l1 & id & l2 & -> & Heq & Hnd & _ & Hin). exists l1, l2. set_solver. }
  destruct Hdup as [Hnd _]. pose proof (resolve_all_spec ids ds) as Hall. destruct (resolve_all ids ds) as [deps|e].
  2:{ eexists. split; [done|]. destruct Hall as (d & Hd & [[-> Hin]|(x & -> & Hin & Hno)]).
      - by exists d.
      - split; [by exists d|done]. }
  destruct Hall as [Hlen Hdeps].
  pose proof (length_names ids ds eq_refl deps Hlen) as Hn.
  destruct (topological_order_spec deps (resolved_wf ids ds eq_refl deps Hlen Hdeps)) as (r & -> & Hr).
  cbn [mbind option_bind]. destruct r as [order|c].
  - destruct Hr as (Hperm & Hresp & Hleast).
    assert (Hrange : ∀ n, n ∈ order → n < length ids) by (intros n; rewrite Hperm, Hn; intros Hin%elem_of_seq; lia).
    rewrite !names_of_spec by (try done; intros n [_ ?]%list_elem_of_filter; auto). cbn [mbind option_bind].
    eexists. split; [done|]. cbn [start_order CompositionGraph.ingress].
    pose proof Hperm as Hperm'. rewrite <- Hn in Hperm'.
    destruct (ingress_names ds order Hperm') as [Hsub Hing].
    split; [rewrite Hperm'; fold ids; by rewrite name_at_seq|]. split; [done|].
    split; [by apply respects_names with deps|]. split; [|by split].
    intros other. by apply least_names with deps.
  - destruct Hr as [Hcyc Hrange]. rewrite <- Hn in Hrange. rewrite names_of_spec by done. cbn [mbind option_bind].
    eexists. split; [done|]. pose proof (cycle_names ids Hnd ds eq_refl deps Hlen Hdeps c Hrange Hcyc) as Hc.
    split; [done|]. intros other Hperm Hr. destruct Hcyc as (x & rest & -> & _).
    apply (cycle_blocks _ _ other (name_at ids x) Hc Hr); [set_solver|]. rewrite Hperm.
    eapply list_elem_of_lookup_2, name_at_lookup, Hrange. set_solver.
Qed.

(** C23. Planning a composition always returns. A plan's start order is a permutation of the
    declared subsystems in which every dependency precedes its dependents, and it is the
    one that starts earlier-declared subsystems first; its ingress list is the
    ingress subsystems in that order. A refusal names a real defect: the first
    repeated identifier, a self edge, an edge that leaves the composition, or a
    cycle through distinct subsystems, after which no order of the composition exists. *)
Theorem plan_exact ds : ∃ r, build ds = Some r ∧ plan_verdict ds r.
Proof. apply build_verdict. Qed.

Definition node (name : bytes) (dependencies : list bytes) : SubsystemDescriptor :=
  mkDescriptor name Capability dependencies.

(** The source's first test: ties are broken by declaration order. *)
Example plan_order_example :
  build [node (lit "gateway") [lit "engine"]; node (lit "engine") [lit "providers"; lit "tools"];
         node (lit "providers") [lit "secrets"]; node (lit "tools") []; node (lit "secrets") []] =
  Some (Ok (mkPlan [lit "tools"; lit "secrets"; lit "providers"; lit "engine"; lit "gateway"] [])).
Proof. vm_compute. reflexivity. Qed.

(** A cycle behind an acyclic prefix is reported without the prefix. *)
Example plan_cycle_example :
  build [node (lit "entry") [lit "left"]; node (lit "left") [lit "right"]; node (lit "right") [lit "left"]] =
  Some (Err (DependencyCycle [lit "left"; lit "right"])).
Proof. vm_compute. reflexivity. Qed.

End CompositionGraph.
