(* ===== verification/CompositionHost.v ===== *)
(** * The subsystem host

    Models [crates/claw-application/src/composition/host.rs]: starting, quiescing,
    draining and stopping the subsystems of a composition, and finishing the
    teardown of a life-cycle future that was dropped while a call was pending.

    [start] and [shutdown] run in a small state monad whose computations end in
    [Done], in [Dropped] (the caller dropped the future at an await, or the
    subsystem's call unwound it) or in [Panic] (an [expect] fired). What the
    subsystems answer, and where a future is dropped, is an oracle [answer]: the
    [i]-th call made either returns or is dropped while pending. The log of
    calls records the epoch gate at the time of each call. *)

From S2P Require Import Prelude Composition CompositionGraph.

Module CompositionHost.
Import Composition CompositionGraph.
#[local] Open Scope nat_scope.

(** A call on the subsystem at a position. *)
Inductive Call := Initialize (p : nat) | Start (p : nat) | Quiesce (p : nat) | Drain (p : nat) | Shutdown (p : nat).

#[export] Instance Call_eq_dec : EqDecision Call.
Proof. solve_decision. Defined.

(** [Arc<dyn Subsystem>] is known through its [descriptor()], which the trait
    requires to be independent of the subsystem's state. *)
Record SubsystemHost := mkHost {
  subsystems : list SubsystemDescriptor;
  plan : CompositionPlan;
  lifecycle : Lifecycle;
  initialized : list nat;
  started : list nat;
  interrupted : bool;
}.

Record ShutdownReport := mkReport { drains : list DrainReport; errors : list SubsystemError }.

Definition empty_report : ShutdownReport := mkReport [] [].

Definition report_is_clean (r : ShutdownReport) : bool :=
  match errors r with [] => forallb drain_is_clean (drains r) | _ :: _ => false end.

(** Sums of [u32], wrapping as a release build does. *)
Definition report_completed (r : ShutdownReport) : Z := foldl (wrap_add u32_max) 0%Z (dr_completed <$> drains r).
Definition report_abandoned (r : ShutdownReport) : Z := foldl (wrap_add u32_max) 0%Z (dr_abandoned <$> drains r).

Definition push_error (r : ShutdownReport) (e : SubsystemError) : ShutdownReport :=
  mkReport (drains r) (errors r ++ [e]).

Definition push_drain (r : ShutdownReport) (d : DrainReport) : ShutdownReport :=
  mkReport (drains r ++ [d]) (errors r).

(** [SubsystemHost::with_lifecycle] at a fresh life cycle, which is [new]. *)
Definition host_new (ds : list SubsystemDescriptor) : option (result CompositionError SubsystemHost) :=
  r ← build ds;
  Some (p ← r; Ok (mkHost ds p lifecycle_new [] [] false)).

Definition position (ds : list SubsystemDescriptor) (id : SubsystemId) : option nat := index_of (sd_id <$> ds) id.

(** [SubsystemHost::order] *)
Definition order (h : SubsystemHost) (ids : list SubsystemId) : option (list nat) :=
  mapM (position (subsystems h)) ids.

(** ** The monad *)

Record World := mkWorld { host : SubsystemHost; log : list (Call * option Z) }.

Inductive Outcome (A : Type) := Done (a : A) | Dropped | Panic.
Arguments Done {A} a.
Arguments Dropped {A}.
Arguments Panic {A}.

Definition M (A : Type) : Type := World → Outcome A * World.

#[export] Instance M_ret : MRet M := λ A a w, (Done a, w).
#[export] Instance M_bind : MBind M := λ A B k m w,
  match m w with
  | (Done a, w') => k a w'
  | (Dropped, w') => (Dropped, w')
  | (Panic, w') => (Panic, w')
  end.

Definition gets {A} (f : SubsystemHost → A) : M A := λ w, (Done (f (host w)), w).

Definition modify (f : SubsystemHost → SubsystemHost) : M unit := λ w, (Done tt, mkWorld (f (host w)) (log w)).

Definition unwrap {A} (o : option A) : M A := λ w, match o with Some a => (Done a, w) | None => (Panic, w) end.

Definition with_lifecycle (l : Lifecycle) (h : SubsystemHost) : SubsystemHost :=
  mkHost (subsystems h) (plan h) l (initialized h) (started h) (interrupted h).
Definition with_initialized (l : list nat) (h : SubsystemHost) : SubsystemHost :=
  mkHost (subsystems h) (plan h) (lifecycle h) l (started h) (interrupted h).
Definition with_started (l : list nat) (h : SubsystemHost) : SubsystemHost :=
  mkHost (subsystems h) (plan h) (lifecycle h) (initialized h) l (interrupted h).
Definition with_interrupted (b : bool) (h : SubsystemHost) : SubsystemHost :=
  mkHost (subsystems h) (plan h) (lifecycle h) (initialized h) (started h) b.

(** [self.lifecycle.transition_to(next)] *)
Definition transition (next : LifecyclePhase) : M (result PhaseTransitionError unit) := λ w,
  match transition_to next (lifecycle (host w)) with
  | Ok l => (Done (Ok tt), mkWorld (with_lifecycle l (host w)) (log w))
  | Err e => (Done (Err e), w)
  end.

(** [.transition_to(next).expect(..)] *)
Definition transition_expect (next : LifecyclePhase) : M unit :=
  r ← transition next;
  match r with Ok _ => mret tt | Err _ => unwrap None end.

(** A block under an armed [InterruptGuard]; it returns with the guard still armed
    or disarmed. The guard's [drop] runs on every way out. *)
Definition guarded {A} (body : M (bool * A)) : M A := λ w,
  let raise w := mkWorld (with_interrupted true (host w)) (log w) in
  match body w with
  | (Done (armed, a), w') => (Done a, if armed then raise w' else w')
  | (Dropped, w') => (Dropped, raise w')
  | (Panic, w') => (Panic, raise w')
  end.

Section Host.
Context {SocketAddr : Type}.

Record ServiceHandle := mkHandle {
  sh_subsystem : SubsystemId;
  sh_bound : list SocketAddr;
  sh_detail : option bytes;
}.

(** What each call returns when it succeeds. *)
Definition reply (c : Call) : Type :=
  match c with
  | Start _ => ServiceHandle
  | Drain _ => DrainReport
  | Initialize _ | Quiesce _ | Shutdown _ => unit
  end.

Context (answer : nat → ∀ c : Call, option (result SubsystemError (reply c))).

(** [subsystem.call().await] *)
Definition call (c : Call) : M (result SubsystemError (reply c)) := λ w,
  let w' := mkWorld (host w) (log w ++ [(c, active_epoch (lifecycle (host w)))]) in
  match answer (length (log w)) c with
  | Some r => (Done r, w')
  | None => (Dropped, w')
  end.

(** ** Teardown *)

Fixpoint quiesce_loop (positions : list nat) (report : ShutdownReport) : M ShutdownReport :=
  match positions with
  | [] => mret report
  | p :: rest =>
      started ← gets started;
      if decide (p ∈ started) then
        r ← call (Quiesce p);
        quiesce_loop rest (match r with Ok _ => report | Err e => push_error report e end)
      else quiesce_loop rest report
  end.

Fixpoint drain_loop (positions : list nat) (report : ShutdownReport) : M ShutdownReport :=
  match positions with
  | [] => mret report
  | p :: rest =>
      recorded ← gets started;
      if decide (p ∈ recorded) then
        modify (λ h, with_started (filter (.≠ p) (started h)) h);;
        r ← call (Drain p);
        drain_loop rest (match r with Ok d => push_drain report d | Err e => push_error report e end)
      else drain_loop rest report
  end.

Definition quiesce_and_drain (report : ShutdownReport) : M ShutdownReport :=
  h ← gets id;
  quiesce ← unwrap (order h (quiesce_order (plan h)));
  report ← quiesce_loop quiesce report;
  stop ← unwrap (order h (shutdown_order (plan h)));
  drain_loop stop report.

Fixpoint stop_loop (positions : list nat) (report : ShutdownReport) : M ShutdownReport :=
  match positions with
  | [] => mret report
  | p :: rest =>
      recorded ← gets initialized;
      if decide (p ∈ recorded) then
        modify (λ h, with_initialized (filter (.≠ p) (initialized h)) h);;
        r ← call (Shutdown p);
        stop_loop rest (match r with Ok _ => report | Err e => push_error report e end)
      else stop_loop rest report
  end.

Definition stop_all (report : ShutdownReport) : M ShutdownReport :=
  h ← gets id;
  stop ← unwrap (order h (shutdown_order (plan h)));
  report ← stop_loop stop report;
  modify (with_started []);;
  modify (with_initialized []);;
  mret report.

Definition fail_and_tear_down (report : ShutdownReport) : M ShutdownReport :=
  p ← gets (phase ∘ lifecycle);
  (if decide (p = Failed) then mret tt else transition_expect Failed);;
  report ← quiesce_and_drain report;
  report ← stop_all report;
  transition_expect Stopping;;
  transition_expect Stopped;;
  mret report.

Definition abort : M unit := fail_and_tear_down empty_report;; mret tt.

(** ** [start] *)

(** The first loop; [Some] is the error that ended it. *)
Fixpoint initialize_loop (positions : list nat) : M (option SubsystemError) :=
  match positions with
  | [] => mret None
  | p :: rest =>
      modify (λ h, with_initialized (initialized h ++ [p]) h);;
      r ← call (Initialize p);
      match r with
      | Err e => abort;; mret (Some e)
      | Ok _ => initialize_loop rest
      end
  end.

Fixpoint start_loop (positions : list nat) (handles : list ServiceHandle) : M (result SubsystemError (list ServiceHandle)) :=
  match positions with
  | [] => mret (Ok handles)
  | p :: rest =>
      modify (λ h, with_started (started h ++ [p]) h);;
      r ← call (Start p);
      match r with
      | Err e => abort;; mret (Err e)
      | Ok handle => start_loop rest (handles ++ [handle])
      end
  end.

(** [c?] inside the guarded block: an early return leaves the guard armed. *)
Definition try_transition {A} (next : LifecyclePhase) (k : M (bool * result CompositionError A))
    : M (bool * result CompositionError A) :=
  r ← transition next;
  match r with
  | Err e => mret (true, Err (Phase e))
  | Ok _ => k
  end.

Definition start_guarded (start_order : list nat) : M (bool * result CompositionError (list ServiceHandle)) :=
  failed ← initialize_loop start_order;
  match failed with
  | Some e => mret (false, Err (SubsystemFailed e))
  | None =>
      try_transition Initialized (try_transition Starting (
        r ← start_loop start_order [];
        match r with
        | Err e => mret (false, Err (SubsystemFailed e))
        | Ok handles => mret (false, Ok handles)
        end))
  end.

Definition start : M (result CompositionError (list ServiceHandle)) :=
  h ← gets id;
  start_order ← unwrap (order h (start_order (plan h)));
  r ← transition Initializing;
  match r with
  | Err e => mret (Err (Phase e))
  | Ok _ =>
      r ← guarded (start_guarded start_order);
      match r with
      | Err e => mret (Err e)
      | Ok handles =>
          r ← transition Running;
          match r with
          | Err e => mret (Err (Phase e))
          | Ok _ => mret (Ok handles)
          end
      end
  end.

(** ** [shutdown] *)

Definition shutdown : M (result CompositionError ShutdownReport) :=
  was_interrupted ← gets interrupted;
  modify (with_interrupted false);;
  if was_interrupted : bool then
    p ← gets (phase ∘ lifecycle);
    if decide (p = Stopped) then mret (Ok empty_report)
    else guarded (report ← fail_and_tear_down empty_report; mret (false, Ok report))
  else
    r ← transition Draining;
    match r with
    | Err e => mret (Err (Phase e))
    | Ok _ =>
        r ← guarded (
          report ← quiesce_and_drain empty_report;
          try_transition Stopping (
            report ← stop_all report;
            mret (false, Ok report)));
        match r with
        | Err e => mret (Err e)
        | Ok report =>
            r ← transition Stopped;
            match r with
            | Err e => mret (Err (Phase e))
            | Ok _ => mret (Ok report)
            end
        end
    end.

(** ** Clients *)

(** What the owner of the host does with it; a dropped future leaves the host
    for the next operation, and a panic ends the run. *)
Inductive Op := StartOp | ShutdownOp.

Definition step (op : Op) (w : World) : option World :=
  match op with
  | StartOp => match start w with (Panic, _) => None | (_, w') => Some w' end
  | ShutdownOp => match shutdown w with (Panic, _) => None | (_, w') => Some w' end
  end.

Fixpoint run (ops : list Op) (w : World) : option World :=
  match ops with
  | [] => Some w
  | op :: ops => step op w ≫= run ops
  end.

End Host.

Definition world_new (h : SubsystemHost) : World := mkWorld h [].

(** * Reasoning about runs *)

(** What holds when [m] finishes ([Q]) and when it is dropped ([D]); no panic. *)
Definition wp {A} (m : M A) (Q : A → World → Prop) (D : World → Prop) (w : World) : Prop :=
  match m w with
  | (Done a, w') => Q a w'
  | (Dropped, w') => D w'
  | (Panic, _) => False
  end.

Lemma wp_bind {A B} (m : M A) (k : A → M B) Q D w : wp m (λ a, wp (k a) Q D) D w → wp (m ≫= k) Q D w.
Proof. unfold wp, mbind, M_bind. destruct (m w) as [[a| |] w']; auto. Qed.

Lemma wp_mono {A} (m : M A) (Q Q' : A → World → Prop) (D D' : World → Prop) w :
  wp m Q D w → (∀ a w', Q a w' → Q' a w') → (∀ w', D w' → D' w') → wp m Q' D' w.
Proof. unfold wp. destruct (m w) as [[a| |] w']; auto. Qed.

Lemma wp_ret {A} (a : A) (Q : A → World → Prop) D w : Q a w → wp (mret a) Q D w.
Proof. done. Qed.

Lemma wp_gets {A} (f : SubsystemHost → A) (Q : A → World → Prop) D w : Q (f (host w)) w → wp (gets f) Q D w.
Proof. done. Qed.

Lemma wp_modify f (Q : unit → World → Prop) D w : Q tt (mkWorld (f (host w)) (log w)) → wp (modify f) Q D w.
Proof. done. Qed.

Lemma wp_unwrap {A} (o : option A) a (Q : A → World → Prop) D w : o = Some a → Q a w → wp (unwrap o) Q D w.
Proof. by intros ->. Qed.

Lemma wp_guarded {A} (body : M (bool * A)) (Q : A → World → Prop) D w :
  wp body (λ '(armed, a) w', Q a (if armed : bool then mkWorld (with_interrupted true (host w')) (log w') else w'))
     (λ w', D (mkWorld (with_interrupted true (host w')) (log w'))) w →
  wp (guarded body) Q D w.
Proof. unfold wp, guarded. by destruct (body w) as [[[armed a]| |] w']. Qed.

(** A legal transition, as the state it leads to. *)
Definition phase_of (w : World) : LifecyclePhase := phase (lifecycle (host w)).

Lemma wp_transition next (Q : result PhaseTransitionError unit → World → Prop) D w :
  can_transition_to (phase_of w) next = true →
  (∀ l, transition_to next (lifecycle (host w)) = Ok l → Q (Ok tt) (mkWorld (with_lifecycle l (host w)) (log w))) →
  wp (transition next) Q D w.
Proof.
  intros Hc HQ. unfold wp, transition. destruct (transition_allowed _ _ Hc) as [l Hl]. rewrite Hl. by apply HQ.
Qed.

Lemma wp_transition_refused next (Q : result PhaseTransitionError unit → World → Prop) D w :
  can_transition_to (phase_of w) next = false →
  Q (Err (mkPhaseError (phase_of w) next)) w → wp (transition next) Q D w.
Proof.
  intros Hc HQ. unfold wp, transition, transition_to. unfold phase_of in *. rewrite Hc. done.
Qed.

(** Each step of a computation, one rule per construct. *)
Ltac wp_step :=
  match goal with
  | |- wp (_ ≫= _) _ _ _ => apply wp_bind
  | |- wp (mret _) _ _ _ => apply wp_ret
  | |- wp (gets _) _ _ _ => apply wp_gets
  | |- wp (modify _) _ _ _ => apply wp_modify
  | |- wp (guarded _) _ _ _ => apply wp_guarded
  end.

(** ** The shape of the log *)

Definition drained (c : Call) : option nat := match c with Drain p => Some p | _ => None end.

Section Shape.
Context (ds : list SubsystemDescriptor) (pl : CompositionPlan) (po qo : list nat).

Abbreviation n := (length ds).
Abbreviation rpo := (reverse po).

(** The calls between the last start and the first shutdown: each quiesces an
    ingress subsystem that was started, or drains; the drains so far are those due
    among the first [j] of the shutdown order; none comes before every started
    ingress was quiesced, and no subsystem is quiesced after its drain. *)
Definition teardown_ok (b j : nat) (qd : list Call) : Prop :=
  (∀ c, c ∈ qd → (∃ p, c = Quiesce p ∧ p ∈ qo ∧ p ∈ take b po) ∨ (∃ p, c = Drain p)) ∧
  omap drained qd = filter (.∈ take b po) (take j rpo) ∧
  (∀ q0 p rest, qd = q0 ++ Drain p :: rest →
     (∀ i, i ∈ qo → i ∈ take b po → Quiesce i ∈ q0) ∧ Quiesce p ∉ rest).

(** The whole log: the first [a] subsystems were initialized, the first [b]
    started, the teardown above, and the initialized ones among the first [k] of
    the shutdown order were shut down, all while the gate was closed. *)
Record shape (w : World) (a b j k : nat) (qd : list Call) : Prop := {
  sh_static : subsystems (host w) = ds ∧ plan (host w) = pl;
  sh_epoch : epoch_of_phase (lifecycle (host w));
  sh_log : (log w).*1 = (Initialize <$> take a po) ++ (Start <$> take b po) ++ qd ++
                        (Shutdown <$> filter (.∈ take a po) (take k rpo));
  sh_gate : Forall (λ e, e.2 = None) (log w);
  sh_init : ∀ p, p ∈ initialized (host w) ↔ p ∈ take a po ∧ p ∉ take k rpo;
  sh_started : ∀ p, p ∈ started (host w) ↔ p ∈ take b po ∧ p ∉ take j rpo;
  sh_qd : teardown_ok b j qd;
  sh_bounds : a ≤ n ∧ b ≤ n ∧ j ≤ n ∧ k ≤ n;
  sh_full : (0 < b → a = n) ∧ (0 < k → j = n);
}.

(** The wiring the plan provides. *)
Record wiring : Prop := {
  wi_po : po ≡ₚ seq 0 n;
  wi_start : ∀ h, subsystems h = ds → order h (start_order pl) = Some po;
  wi_stop : ∀ h, subsystems h = ds → order h (shutdown_order pl) = Some rpo;
  wi_quiesce : ∀ h, subsystems h = ds → order h (quiesce_order pl) = Some qo;
}.

Context (wire : wiring).

Lemma po_nodup : NoDup po.
Proof. rewrite (wi_po wire). apply NoDup_seq. Qed.

Lemma po_length : length po = n.
Proof. rewrite (wi_po wire). apply length_seq. Qed.

Lemma rpo_length : length rpo = n.
Proof. by rewrite length_reverse, po_length. Qed.

Lemma take_all_po p : p ∈ take n po ↔ p ∈ take n rpo.
Proof. rewrite <- po_length at 1. rewrite <- rpo_length at 1. rewrite !take_ge by done. by rewrite elem_of_reverse. Qed.

Lemma take_next {l : list nat} {i p} : l !! i = Some p → take (S i) l = take i l ++ [p].
Proof. apply take_S_r. Qed.

Lemma not_taken {i p} : NoDup po → rpo !! i = Some p → p ∉ take i rpo.
Proof.
  intros Hnd Hp. rewrite <- (reverse_Permutation po) in Hnd. rewrite <- (take_drop_middle rpo i p Hp) in Hnd.
  apply NoDup_app in Hnd as (_ & Hno & _). intros Hin. by eapply Hno; [|left].
Qed.

(** One more call, at a closed gate. *)
Definition logged (c : Call) (w : World) : World :=
  mkWorld (host w) (log w ++ [(c, active_epoch (lifecycle (host w)))]).

Lemma logged_gate c w :
  epoch_of_phase (lifecycle (host w)) → phase_of w ≠ Running → Forall (λ e, e.2 = None) (log w) →
  Forall (λ e, e.2 = None) (log (logged c w)).
Proof.
  intros (_ & _ & _ & Hg & _) Hp Hall. cbn. apply Forall_app. split; [done|]. constructor; [|done]. cbn.
  unfold active_epoch, gate_current. unfold phase_of in Hp. rewrite Hg, decide_False by done. done.
Qed.

Lemma started_no_stop w a b j k qd p : shape w a b j k qd → p ∈ started (host w) → k = 0.
Proof.
  intros Hs Hp. apply (sh_started _ _ _ _ _ _ Hs) in Hp as [Hb Hj].
  destruct (sh_full _ _ _ _ _ _ Hs) as [_ Hk]. destruct k as [|k]; [done|]. exfalso.
  rewrite Hk in Hj by lia. apply Hj. rewrite take_ge by (rewrite rpo_length; lia).
  rewrite elem_of_reverse. eapply elem_of_submseteq; [exact Hb|apply sublist_submseteq, sublist_take].
Qed.

Lemma drained_in b j qd p : teardown_ok b j qd → Drain p ∈ qd → p ∈ take j rpo.
Proof.
  intros (_ & Hd & _) Hp. assert (Hin : p ∈ omap drained qd) by (apply list_elem_of_omap; by exists (Drain p)).
  rewrite Hd in Hin. by apply list_elem_of_filter in Hin as [_ ?].
Qed.

Lemma shape_quiesce w a b j k qd p :
  shape w a b j k qd → phase_of w ≠ Running → p ∈ qo → p ∈ started (host w) →
  shape (logged (Quiesce p) w) a b j k (qd ++ [Quiesce p]).
Proof.
  intros Hs Hph Hq Hp. pose proof (started_no_stop _ _ _ _ _ _ _ Hs Hp) as ->.
  pose proof (proj1 (sh_started _ _ _ _ _ _ Hs p) Hp) as [Hb Hj].
  destruct Hs as [Hst He Hl Hg Hi Hsd Hqd Hbd Hf]. split; try done; [|by apply logged_gate|].
  - cbn. rewrite fmap_app, Hl. cbn. by rewrite !app_nil_r, <- !app_assoc.
  - pose proof (λ q, drained_in b j qd q Hqd) as Hdr. destruct Hqd as (Hc & Hd & Hord). split; [|split].
    + intros c [?|Hc']%elem_of_app; [auto|]. apply list_elem_of_singleton in Hc' as ->. left. eauto.
    + rewrite omap_app, Hd. cbn. apply app_nil_r.
    + intros q0 x rest Heq. induction rest as [|y rest _] using rev_ind.
      { by apply app_inj_tail in Heq as [_ ?]. }
      rewrite app_comm_cons, app_assoc in Heq. apply app_inj_tail in Heq as [-> <-].
      destruct (Hord _ _ _ eq_refl) as [Hall Hno]. split; [done|]. intros [?|Hx]%elem_of_app; [done|].
      apply list_elem_of_singleton in Hx as [= ->]. apply Hj, Hdr. set_solver.
Qed.

Lemma shape_drain w a b j k qd p :
  shape w a b j k qd → phase_of w ≠ Running → rpo !! j = Some p → p ∈ started (host w) →
  (∀ i, i ∈ qo → i ∈ take b po → Quiesce i ∈ qd) →
  shape (logged (Drain p) (mkWorld (with_started (filter (.≠ p) (started (host w))) (host w)) (log w)))
        a b (S j) k (qd ++ [Drain p]).
Proof.
  intros Hs Hph Hj Hp Hall. pose proof (started_no_stop _ _ _ _ _ _ _ Hs Hp) as ->.
  pose proof (proj1 (sh_started _ _ _ _ _ _ Hs p) Hp) as [Hb _].
  pose proof (not_taken po_nodup Hj) as Hnot. pose proof (take_next Hj) as Htake.
  destruct Hs as [Hst He Hl Hg Hi Hsd Hqd Hbd Hf]. split; try done.
  - cbn. rewrite fmap_app, Hl. cbn. by rewrite !app_nil_r, <- !app_assoc.
  - by apply (logged_gate (Drain p) (mkWorld (with_started _ (host w)) (log w))).
  - intros q. cbn. rewrite list_elem_of_filter, Hsd, Htake. set_solver.
  - destruct Hqd as (Hc & Hd & Hord). split; [|split].
    + intros c [?|Hc']%elem_of_app; [auto|]. apply list_elem_of_singleton in Hc' as ->. right. eauto.
    + by rewrite omap_app, Hd, Htake, filter_app, (filter_cons _ p), decide_True.
    + intros q0 x rest Heq. induction rest as [|y rest _] using rev_ind.
      { apply app_inj_tail in Heq as [<- [= <-]]. split; [done|set_solver]. }
      rewrite app_comm_cons, app_assoc in Heq. apply app_inj_tail in Heq as [-> <-].
      destruct (Hord _ _ _ eq_refl) as [Hq Hno]. split; [done|]. set_solver.
  - apply lookup_lt_Some in Hj. rewrite rpo_length in Hj. lia.
  - lia.
Qed.

Lemma shape_skip_drain w a b j k qd p :
  shape w a b j k qd → rpo !! j = Some p → p ∉ started (host w) → shape w a b (S j) k qd.
Proof.
  intros Hs Hj Hp. pose proof (not_taken po_nodup Hj) as Hnot. pose proof (take_next Hj) as Htake.
  pose proof (lookup_lt_Some _ _ _ Hj) as Hlt. rewrite rpo_length in Hlt.
  destruct Hs as [Hst He Hl Hg Hi Hsd Hqd Hbd Hf].
  assert (Hb : p ∉ take b po) by (intros Hb; apply Hp, Hsd; done).
  split; try done; [| |lia|lia].
  - intros q. rewrite Hsd, Htake. set_solver.
  - destruct Hqd as (Hc & Hd & Hord). split; [done|]. split; [|done].
    by rewrite Hd, Htake, filter_app, (filter_cons _ p), decide_False, app_nil_r by done.
Qed.

Lemma shape_shutdown w a b k qd p :
  shape w a b n k qd → phase_of w ≠ Running → rpo !! k = Some p → p ∈ initialized (host w) →
  shape (logged (Shutdown p) (mkWorld (with_initialized (filter (.≠ p) (initialized (host w))) (host w)) (log w)))
        a b n (S k) qd.
Proof.
  intros Hs Hph Hk Hp. pose proof (proj1 (sh_init _ _ _ _ _ _ Hs p) Hp) as [Ha _].
  pose proof (not_taken po_nodup Hk) as Hnot. pose proof (take_next Hk) as Htake.
  pose proof (lookup_lt_Some _ _ _ Hk) as Hlt. rewrite rpo_length in Hlt.
  destruct Hs as [Hst He Hl Hg Hi Hsd Hqd Hbd Hf]. split; try done; [| | |lia|lia].
  - cbn. rewrite fmap_app, Hl, Htake, filter_app, (filter_cons _ p), decide_True, fmap_app by done.
    cbn. by rewrite <- !app_assoc.
  - by apply (logged_gate (Shutdown p) (mkWorld (with_initialized _ (host w)) (log w))).
  - intros q. cbn. rewrite list_elem_of_filter, Hi, Htake. set_solver.
Qed.

Lemma shape_skip_shutdown w a b k qd p :
  shape w a b n k qd → rpo !! k = Some p → p ∉ initialized (host w) → shape w a b n (S k) qd.
Proof.
  intros Hs Hk Hp. pose proof (not_taken po_nodup Hk) as Hnot. pose proof (take_next Hk) as Htake.
  pose proof (lookup_lt_Some _ _ _ Hk) as Hlt. rewrite rpo_length in Hlt.
  destruct Hs as [Hst He Hl Hg Hi Hsd Hqd Hbd Hf].
  assert (Ha : p ∉ take a po) by (intros Ha; apply Hp, Hi; done).
  split; try done; [| |lia|lia].
  - by rewrite Hl, Htake, filter_app, (filter_cons _ p), decide_False, app_nil_r by done.
  - intros q. rewrite Hi, Htake. set_solver.
Qed.

(** ** Teardown *)

Context {SocketAddr : Type} (answer : nat → ∀ c : Call, option (result SubsystemError (@reply SocketAddr c))).

(** The last call was still pending. *)
Definition dropped_last (w : World) : Prop :=
  ∃ before c e, log w = before ++ [(c, e)] ∧ answer (length before) c = None.

Lemma wp_call c (Q : result SubsystemError (@reply SocketAddr c) → World → Prop) (D : World → Prop) w :
  (∀ r, Q r (logged c w)) → (dropped_last (logged c w) → D (logged c w)) → wp (call answer c) Q D w.
Proof.
  intros HQ HD. unfold wp, call. destruct (answer _ _) as [r|] eqn:E; [apply HQ|]. apply HD. by repeat eexists.
Qed.

(** Where a dropped future leaves the host, before its guard's flag. *)
Definition torn (ph : LifecyclePhase) (w : World) : Prop :=
  (∃ a b j k qd, shape w a b j k qd) ∧ phase_of w = ph ∧ dropped_last w.

Lemma torn_intro {ph w a b j k qd} : shape w a b j k qd → phase_of w = ph → dropped_last w → torn ph w.
Proof. intros. split; [by exists a, b, j, k, qd|done]. Qed.

Definition same_phase (w w' : World) : Prop :=
  phase_of w' = phase_of w ∧ interrupted (host w') = interrupted (host w).

Lemma quiesce_loop_wp l report w a b j k qd :
  (∀ p, p ∈ l → p ∈ qo) → shape w a b j k qd → phase_of w ≠ Running →
  wp (quiesce_loop answer l report)
     (λ _ w', ∃ qd', shape w' a b j k qd' ∧ same_phase w w' ∧ qd ⊆ qd' ∧
                     ∀ p, p ∈ l → p ∈ take b po → p ∉ take j rpo → Quiesce p ∈ qd')
     (torn (phase_of w)) w.
Proof.
  revert report w qd. induction l as [|p l IH]; intros report w qd Hl Hs Hph; cbn [quiesce_loop].
  { wp_step. exists qd. split; [done|]. split; [done|]. split; [done|]. by intros ? ?%not_elem_of_nil. }
  wp_step. wp_step. case_decide as Hp.
  - wp_step. assert (Hs' : shape (logged (Quiesce p) w) a b j k (qd ++ [Quiesce p])) by (apply shape_quiesce; auto; set_solver).
    apply wp_call; [intros r|by eapply torn_intro]. eapply wp_mono; [apply IH; [set_solver|exact Hs'|done]| |done].
    cbn. intros _ w' (qd' & ? & ? & Hsub & Hall). exists qd'. split; [done|]. split; [done|]. split; [set_solver|].
    intros q [->|Hq]%elem_of_cons ? ?; [apply Hsub; set_solver|auto].
  - eapply wp_mono; [apply IH; [set_solver|exact Hs|done]| |done].
    cbn. intros _ w' (qd' & ? & ? & Hsub & Hall). exists qd'. split; [done|]. split; [done|]. split; [done|].
    intros q [->|Hq]%elem_of_cons ? ?; [|auto]. destruct Hp. by apply (sh_started _ _ _ _ _ _ Hs).
Qed.

(** A loop over the shutdown order at position [i]; [c] is how far teardown got. *)
Lemma loop_here {i p l} : rpo = take i rpo ++ p :: l → rpo !! i = Some p.
Proof.
  intros Heq. assert (Hlen : length rpo = i `min` length rpo + S (length l))
    by (rewrite Heq at 1; rewrite length_app, length_take; done).
  rewrite Heq, lookup_app_r; rewrite length_take; [|lia]. by replace (i - i `min` length rpo) with 0 by lia.
Qed.

Lemma loop_next {i p l} : rpo = take i rpo ++ p :: l → rpo = take (S i) rpo ++ l.
Proof. intros Heq. rewrite (take_next (loop_here Heq)), <- app_assoc. exact Heq. Qed.

Lemma loop_cases {i c p l} :
  rpo = take i rpo ++ p :: l → i ≤ c → p ∈ take c rpo ∧ S i ≤ c ∨ c = i ∧ rpo !! i = Some p.
Proof.
  intros Heq%loop_here Hle. destruct (decide (c = i)) as [->|]; [by right|]. left. split; [|lia].
  eapply list_elem_of_lookup_2, (lookup_take_Some _ c i). split; [done|lia].
Qed.

Lemma loop_end {i} : rpo = take i rpo ++ [] → n ≤ i.
Proof. intros Heq. rewrite <- rpo_length, Heq, app_nil_r, length_take. lia. Qed.

Lemma drain_loop_wp l report w a b j k qd i :
  rpo = take i rpo ++ l → i ≤ j → shape w a b j k qd → phase_of w ≠ Running →
  (∀ p, p ∈ qo → p ∈ take b po → Quiesce p ∈ qd) →
  wp (drain_loop answer l report)
     (λ _ w', ∃ qd', shape w' a b n k qd' ∧ same_phase w w') (torn (phase_of w)) w.
Proof.
  revert report w j qd i. induction l as [|p l IH]; intros report w j qd i Heq Hij Hs Hph Hall; cbn [drain_loop].
  { wp_step. exists qd. split; [|done]. destruct (sh_bounds _ _ _ _ _ _ Hs) as (_ & _ & Hj & _).
    apply loop_end in Heq. by replace n with j by lia. }
  pose proof (loop_next Heq) as Heq'. wp_step. wp_step. destruct (loop_cases Heq Hij) as [[Hpast Hc]|[-> Hp]].
  - rewrite decide_False by (intros Hst; apply (sh_started _ _ _ _ _ _ Hs) in Hst as [_ Hst]; done).
    by apply (IH report w j qd (S i)).
  - case_decide as Hst.
    + wp_step. wp_step. wp_step. pose proof (shape_drain _ _ _ _ _ _ _ Hs Hph Hp Hst Hall) as Hs'.
      refine (wp_call (Drain p) _ _ _ _ _); [intros r|by eapply torn_intro].
      eapply wp_mono; [eapply (IH _ _ _ _ (S i) Heq'); [|exact Hs'|exact Hph|set_solver]; lia| |done].
      cbn. intros _ w' (qd' & ? & ?). by exists qd'.
    + apply (IH report w (S i) qd (S i)); try done. by eapply shape_skip_drain.
Qed.

Lemma stop_loop_wp l report w a b k qd i :
  rpo = take i rpo ++ l → i ≤ k → shape w a b n k qd → phase_of w ≠ Running →
  wp (stop_loop answer l report) (λ _ w', shape w' a b n n qd ∧ same_phase w w') (torn (phase_of w)) w.
Proof.
  revert report w k i. induction l as [|p l IH]; intros report w k i Heq Hik Hs Hph; cbn [stop_loop].
  { wp_step. split; [|done]. destruct (sh_bounds _ _ _ _ _ _ Hs) as (_ & _ & _ & Hk).
    apply loop_end in Heq. by replace k with n in Hs by lia. }
  pose proof (loop_next Heq) as Heq'. wp_step. wp_step. destruct (loop_cases Heq Hik) as [[Hpast Hc]|[-> Hp]].
  - rewrite decide_False by (intros Hst; apply (sh_init _ _ _ _ _ _ Hs) in Hst as [_ Hst]; done).
    by apply (IH report w k (S i)).
  - case_decide as Hst.
    + wp_step. wp_step. wp_step. pose proof (shape_shutdown _ _ _ _ _ _ Hs Hph Hp Hst) as Hs'.
      refine (wp_call (Shutdown p) _ _ _ _ _); [intros r|by eapply torn_intro].
      eapply wp_mono; [eapply (IH _ _ _ (S i) Heq'); [|exact Hs'|exact Hph]; lia|done|done].
    + apply (IH report w (S i) (S i)); try done. by eapply shape_skip_shutdown.
Qed.

Lemma same_phase_trans w w' w'' : same_phase w w' → same_phase w' w'' → same_phase w w''.
Proof. intros [Hp Hi] [Hp' Hi']. by split; etrans. Qed.

(** A drained ingress was quiesced. *)
Lemma drained_quiesced b j qd p :
  teardown_ok b j qd → p ∈ qo → p ∈ take b po → p ∈ take j rpo → Quiesce p ∈ qd.
Proof.
  intros (_ & Hd & Hord) Hq Hb Hj.
  assert (Hin : p ∈ omap drained qd) by (rewrite Hd; by apply list_elem_of_filter).
  apply list_elem_of_omap in Hin as (c & Hc & Hcp). destruct c; try done. injection Hcp as ->.
  apply list_elem_of_split in Hc as (q0 & rest & Hqd). destruct (Hord _ _ _ Hqd) as [Hall _].
  rewrite Hqd. specialize (Hall p Hq Hb). set_solver.
Qed.

Lemma quiesce_and_drain_wp report w a b j k qd :
  shape w a b j k qd → phase_of w ≠ Running →
  wp (quiesce_and_drain answer report)
     (λ _ w', ∃ qd', shape w' a b n k qd' ∧ same_phase w w') (torn (phase_of w)) w.
Proof.
  intros Hs Hph. destruct (sh_static _ _ _ _ _ _ Hs) as [Hds Hpl]. unfold quiesce_and_drain.
  wp_step. wp_step. wp_step. unfold id. rewrite Hpl. eapply wp_unwrap; [by apply (wi_quiesce wire)|]. wp_step.
  eapply wp_mono; [eapply (quiesce_loop_wp qo); [done|exact Hs|done]| |done].
  cbn. intros report' w' (qd' & Hs' & Hsame & Hsub & Hq). wp_step.
  eapply wp_unwrap; [by apply (wi_stop wire)|].
  destruct Hsame as [Hph' Hint]. rewrite <- Hph'. rewrite <- Hph' in Hph.
  eapply wp_mono; [eapply (drain_loop_wp rpo _ _ _ _ _ _ _ 0); [done| |exact Hs'|done|]; [lia|]| |done].
  - intros p Hpq Hb. destruct (decide (p ∈ take j rpo)) as [Hj|Hj]; [|by apply Hq].
    apply Hsub. by eapply drained_quiesced; [apply (sh_qd _ _ _ _ _ _ Hs)|..].
  - cbn. intros _ w'' (qd'' & ? & ?). exists qd''. split; [done|]. by eapply same_phase_trans.
Qed.

Lemma all_stopped {i} p : p ∈ take i po → p ∈ take n rpo.
Proof.
  intros Hp. rewrite take_ge by (by rewrite rpo_length). rewrite elem_of_reverse.
  eapply elem_of_submseteq; [exact Hp|apply sublist_submseteq, sublist_take].
Qed.

Lemma shape_clear w a b qd :
  shape w a b n n qd → shape (mkWorld (with_initialized [] (with_started [] (host w))) (log w)) a b n n qd.
Proof.
  intros [Hst He Hl Hg Hi Hsd Hqd Hbd Hf]. split; try done;
    (intros p; cbn; split; [by intros ?%not_elem_of_nil|intros [Hp Hno]; by apply all_stopped in Hp]).
Qed.

Lemma stop_all_wp report w a b k qd :
  shape w a b n k qd → phase_of w ≠ Running →
  wp (stop_all answer report) (λ _ w', shape w' a b n n qd ∧ same_phase w w') (torn (phase_of w)) w.
Proof.
  intros Hs Hph. destruct (sh_static _ _ _ _ _ _ Hs) as [Hds Hpl]. unfold stop_all.
  wp_step. wp_step. wp_step. unfold id. rewrite Hpl. eapply wp_unwrap; [by apply (wi_stop wire)|]. wp_step.
  eapply wp_mono; [eapply (stop_loop_wp rpo _ _ _ _ _ _ 0); [done| |exact Hs|done]; lia| |done].
  cbn. intros report' w' [Hs' Hsame]. do 5 wp_step. split; [exact (shape_clear _ _ _ _ Hs')|done].
Qed.

Lemma shape_transition next w l a b j k qd :
  shape w a b j k qd → transition_to next (lifecycle (host w)) = Ok l →
  let w' := mkWorld (with_lifecycle l (host w)) (log w) in
  shape w' a b j k qd ∧ phase_of w' = next ∧ interrupted (host w') = interrupted (host w).
Proof.
  intros [Hst He Hl Hg Hi Hsd Hqd Hbd Hf] Ht. split; [split; try done; by eapply lifecycle_transition|].
  split; [by eapply transition_phase|done].
Qed.

Lemma transition_expect_wp next (Q : unit → World → Prop) D w a b j k qd :
  shape w a b j k qd → can_transition_to (phase_of w) next = true →
  (∀ w', shape w' a b j k qd → phase_of w' = next → interrupted (host w') = interrupted (host w) → Q tt w') →
  wp (transition_expect next) Q D w.
Proof.
  intros Hs Hc HQ. unfold transition_expect. wp_step. apply wp_transition; [done|]. intros l Hl. cbn beta iota.
  wp_step. destruct (shape_transition _ _ _ _ _ _ _ _ Hs Hl) as (? & ? & ?). by apply HQ.
Qed.

(** The whole teardown ends in [Stopped] with nothing left. *)
Lemma fail_and_tear_down_wp report w a b j k qd :
  shape w a b j k qd → phase_of w = Failed ∨ can_transition_to (phase_of w) Failed = true →
  wp (fail_and_tear_down answer report)
     (λ _ w', (∃ qd', shape w' a b n n qd') ∧ phase_of w' = Stopped ∧ interrupted (host w') = interrupted (host w))
     (torn Failed) w.
Proof.
  intros Hs Hph. unfold fail_and_tear_down. wp_step. wp_step. wp_step. cbn [compose].
  assert (Hrest : ∀ w1, shape w1 a b j k qd → phase_of w1 = Failed → interrupted (host w1) = interrupted (host w) →
    wp (report0 ← quiesce_and_drain answer report; report1 ← stop_all answer report0;
        transition_expect Stopping;; transition_expect Stopped;; mret report1)
     (λ _ w', (∃ qd', shape w' a b n n qd') ∧ phase_of w' = Stopped ∧ interrupted (host w') = interrupted (host w))
     (torn Failed) w1).
  { intros w1 Hs1 Hph1 Hint1. wp_step. rewrite <- Hph1 at 1.
    eapply wp_mono; [eapply quiesce_and_drain_wp; [exact Hs1|by rewrite Hph1]| |by intros w2; rewrite Hph1].
    cbn beta. intros report2 w2 (qd2 & Hs2 & Hph2 & Hint2). wp_step. rewrite Hph1 in Hph2.
    eapply wp_mono; [eapply stop_all_wp; [exact Hs2|by rewrite Hph2]| |by intros w3; rewrite Hph2].
    cbn beta. intros report3 w3 (Hs3 & Hph3 & Hint3). rewrite Hph2 in Hph3.
    wp_step. eapply transition_expect_wp; [exact Hs3|by rewrite Hph3|]. intros w4 Hs4 Hph4 Hint4.
    wp_step. eapply transition_expect_wp; [exact Hs4|by rewrite Hph4|]. intros w5 Hs5 Hph5 Hint5.
    wp_step. split; [by exists qd2|]. split; [done|congruence]. }
  case_decide as Hf.
  - wp_step. by apply Hrest.
  - destruct Hph as [|Hc]; [done|]. eapply transition_expect_wp; [exact Hs|done|]. intros. by apply Hrest.
Qed.

(** ** Startup *)

Definition TORN : list LifecyclePhase := [Initializing; Starting; Draining; Stopping; Failed].

Definition torn_any (w : World) : Prop := ∃ ph, ph ∈ TORN ∧ torn ph w.

Lemma torn_torn_any ph w : ph ∈ TORN → torn ph w → torn_any w.
Proof. intros. by exists ph. Qed.

(** Everything that was initialized has been shut down. *)
Definition settled (w : World) : Prop := ∃ a b qd, shape w a b n n qd.

Lemma abort_wp w a b j k qd :
  shape w a b j k qd → can_transition_to (phase_of w) Failed = true →
  wp (abort answer)
     (λ _ w', settled w' ∧ phase_of w' = Stopped ∧ interrupted (host w') = interrupted (host w)) torn_any w.
Proof.
  intros Hs Hph. unfold abort. wp_step.
  eapply wp_mono; [eapply fail_and_tear_down_wp; [exact Hs|by right]| |intros w1; apply torn_torn_any; set_solver].
  cbn beta. intros _ w' [[qd' Hs'] Hrest]. wp_step. split; [by exists a, b, qd'|done].
Qed.

Lemma shape_initialize w a p :
  shape w a 0 0 0 [] → phase_of w ≠ Running → po !! a = Some p →
  shape (logged (Initialize p) (mkWorld (with_initialized (initialized (host w) ++ [p]) (host w)) (log w))) (S a) 0 0 0 [].
Proof.
  intros Hs Hph Hp. pose proof (take_next Hp) as Htake. pose proof (lookup_lt_Some _ _ _ Hp) as Hlt.
  rewrite po_length in Hlt. destruct Hs as [Hst He Hl Hg Hi Hsd Hqd Hbd Hf]. split; try done; [| | |lia|lia].
  - cbn. rewrite fmap_app, Hl. cbn. by rewrite !app_nil_r, Htake, fmap_app.
  - by apply (logged_gate (Initialize p) (mkWorld (with_initialized _ (host w)) (log w))).
  - intros q. cbn. rewrite Htake, !elem_of_app, Hi. cbn. set_solver.
Qed.

Lemma shape_start w b p :
  shape w n b 0 0 [] → phase_of w ≠ Running → po !! b = Some p →
  shape (logged (Start p) (mkWorld (with_started (started (host w) ++ [p]) (host w)) (log w))) n (S b) 0 0 [].
Proof.
  intros Hs Hph Hp. pose proof (take_next Hp) as Htake. pose proof (lookup_lt_Some _ _ _ Hp) as Hlt.
  rewrite po_length in Hlt. destruct Hs as [Hst He Hl Hg Hi Hsd Hqd Hbd Hf]. split; try done; [| | | |lia|lia].
  - cbn. rewrite fmap_app, Hl. cbn. by rewrite !app_nil_r, Htake, fmap_app, <- app_assoc.
  - by apply (logged_gate (Start p) (mkWorld (with_started _ (host w)) (log w))).
  - intros q. cbn. rewrite Htake, !elem_of_app, Hsd. cbn. set_solver.
  - split; [set_solver|]. split; [done|]. intros q0 x rest Heq. by destruct q0.
Qed.

Lemma suffix_next {i p l} : po = take i po ++ p :: l → po !! i = Some p ∧ po = take (S i) po ++ l.
Proof.
  intros Heq. assert (Hp : po !! i = Some p).
  { assert (Hlen : length po = i `min` length po + S (length l))
      by (rewrite Heq at 1; rewrite length_app, length_take; done).
    rewrite Heq, lookup_app_r; rewrite length_take; [|lia]. by replace (i - i `min` length po) with 0 by lia. }
  split; [done|]. rewrite (take_next Hp), <- app_assoc. exact Heq.
Qed.

Lemma suffix_end {i} : po = take i po ++ [] → i ≤ n → i = n.
Proof. intros Heq. apply (f_equal length) in Heq. rewrite app_nil_r, length_take, po_length in Heq. lia. Qed.

Lemma initialize_loop_wp l w a :
  po = take a po ++ l → shape w a 0 0 0 [] → phase_of w = Initializing →
  wp (initialize_loop answer l)
     (λ r w', match r with
              | None => shape w' n 0 0 0 [] ∧ same_phase w w'
              | Some _ => settled w' ∧ phase_of w' = Stopped ∧ interrupted (host w') = interrupted (host w)
              end) torn_any w.
Proof.
  revert w a. induction l as [|p l IH]; intros w a Heq Hs Hph; cbn [initialize_loop].
  { wp_step. destruct (sh_bounds _ _ _ _ _ _ Hs) as [Ha _]. rewrite (suffix_end Heq Ha) in Hs. done. }
  destruct (suffix_next Heq) as [Hp Heq']. wp_step. wp_step. wp_step.
  assert (Hs' := shape_initialize w a p Hs ltac:(by rewrite Hph) Hp).
  refine (wp_call (Initialize p) _ _ _ _ _);
    [intros r|intros Hd; apply (torn_torn_any Initializing); [set_solver|by eapply torn_intro]].
  destruct r as [[]|e].
  - eapply wp_mono; [eapply IH; [exact Heq'|exact Hs'|done]| |done]. by intros [|] w'.
  - wp_step. eapply wp_mono; [eapply abort_wp; [exact Hs'|]| |done]; [by unfold phase_of in *; cbn; rewrite Hph|].
    cbn beta. intros _ w' Hw'. by wp_step.
Qed.

Lemma start_loop_wp l handles w b :
  po = take b po ++ l → shape w n b 0 0 [] → phase_of w = Starting →
  wp (start_loop answer l handles)
     (λ r w', match r with
              | Ok _ => shape w' n n 0 0 [] ∧ same_phase w w'
              | Err _ => settled w' ∧ phase_of w' = Stopped ∧ interrupted (host w') = interrupted (host w)
              end) torn_any w.
Proof.
  revert handles w b. induction l as [|p l IH]; intros handles w b Heq Hs Hph; cbn [start_loop].
  { wp_step. destruct (sh_bounds _ _ _ _ _ _ Hs) as (_ & Hb & _). rewrite (suffix_end Heq Hb) in Hs. done. }
  destruct (suffix_next Heq) as [Hp Heq']. wp_step. wp_step. wp_step.
  assert (Hs' := shape_start w b p Hs ltac:(by rewrite Hph) Hp).
  refine (wp_call (Start p) _ _ _ _ _);
    [intros r|intros Hd; apply (torn_torn_any Starting); [set_solver|by eapply torn_intro]].
  destruct r as [handle|e].
  - eapply wp_mono; [eapply IH; [exact Heq'|exact Hs'|done]| |done]. by intros [|] w'.
  - wp_step. eapply wp_mono; [eapply abort_wp; [exact Hs'|]| |done]; [by unfold phase_of in *; cbn; rewrite Hph|].
    cbn beta. intros _ w' Hw'. by wp_step.
Qed.

Lemma try_transition_wp {A} next (k : M (bool * result CompositionError A)) (Q : bool * result CompositionError A → World → Prop) D w a b j c qd :
  shape w a b j c qd → can_transition_to (phase_of w) next = true →
  (∀ w', shape w' a b j c qd → phase_of w' = next → interrupted (host w') = interrupted (host w) → wp k Q D w') →
  wp (try_transition next k) Q D w.
Proof.
  intros Hs Hc Hk. unfold try_transition. wp_step. apply wp_transition; [done|]. intros l Hl. cbn beta iota.
  destruct (shape_transition _ _ _ _ _ _ _ _ Hs Hl) as (? & ? & ?). by apply Hk.
Qed.

Lemma start_guarded_wp w :
  shape w 0 0 0 0 [] → phase_of w = Initializing →
  wp (start_guarded answer po)
     (λ '(armed, r) w', armed = false ∧ interrupted (host w') = interrupted (host w) ∧
        match r with
        | Ok _ => shape w' n n 0 0 [] ∧ phase_of w' = Starting
        | Err e => (∃ f, e = SubsystemFailed f) ∧ settled w' ∧ phase_of w' = Stopped
        end) torn_any w.
Proof.
  intros Hs Hph. unfold start_guarded. wp_step.
  eapply wp_mono; [eapply initialize_loop_wp; [|exact Hs|done]; done| |done]. cbn beta.
  intros [e|] w1 H1; [wp_step; naive_solver|]. destruct H1 as (Hs1 & Hph1 & Hint1). rewrite Hph in Hph1.
  eapply try_transition_wp; [exact Hs1|by rewrite Hph1|]. intros w2 Hs2 Hph2 Hint2.
  eapply try_transition_wp; [exact Hs2|by rewrite Hph2|]. intros w3 Hs3 Hph3 Hint3.
  wp_step. eapply wp_mono; [eapply start_loop_wp; [|exact Hs3|done]; done| |done]. cbn beta.
  intros [handles|e] w4 H4; wp_step.
  - destruct H4 as (? & Hph4 & ?). split; [done|]. split; [congruence|]. split; [done|congruence].
  - destruct H4 as (? & ? & ?). split; [done|]. split; [congruence|]. eauto.
Qed.

(** ** Between operations *)

(** Where the host can be when no future is running: its phase says what has been
    done, and a phase in the middle of startup or teardown carries the flag. *)
Definition host_ok (w : World) : Prop :=
  match phase_of w with
  | Created => shape w 0 0 0 0 [] ∧ interrupted (host w) = false
  | Running => shape w n n 0 0 [] ∧ interrupted (host w) = false
  | Stopped => settled w ∧ interrupted (host w) = false
  | Initialized => False
  | _ => (∃ a b j k qd, shape w a b j k qd) ∧ interrupted (host w) = true
  end.

Lemma shape_interrupted f w a b j k qd :
  shape w a b j k qd → shape (mkWorld (with_interrupted f (host w)) (log w)) a b j k qd.
Proof. by intros []; split. Qed.

(** A dropped future's state, once its guard has raised the flag. *)
Definition dropped_ok (w : World) : Prop :=
  host_ok w ∧ phase_of w ∈ TORN ∧ dropped_last w.

Lemma torn_ok w : torn_any w → dropped_ok (mkWorld (with_interrupted true (host w)) (log w)).
Proof.
  intros (ph & Hin & (a & b & j & k & qd & Hs) & Hph & Hd). unfold dropped_ok, host_ok.
  assert (Hph' : phase_of (mkWorld (with_interrupted true (host w)) (log w)) = ph) by done. rewrite Hph'.
  split; [|done]. apply (shape_interrupted true) in Hs. unfold TORN in Hin.
  repeat (apply elem_of_cons in Hin as [->|Hin]); [..|by apply not_elem_of_nil in Hin];
    (split; [by exists a, b, j, k, qd|done]).
Qed.

Lemma host_ok_shape w : host_ok w → ∃ a b j k qd, shape w a b j k qd.
Proof.
  unfold host_ok, settled. destruct (phase_of w); try done; intros [Hs _]; try done;
    try (destruct Hs as (a & b & qd & Hs)); eauto 10.
Qed.

Lemma start_wp w :
  host_ok w →
  wp (start answer)
     (λ r w', host_ok w' ∧
        match r with
        | Ok _ => phase_of w = Created ∧ phase_of w' = Running
        | Err (SubsystemFailed _) => phase_of w = Created ∧ phase_of w' = Stopped
        | Err (Phase _) => w' = w ∧ phase_of w ≠ Created
        | Err _ => False
        end)
     (λ w', phase_of w = Created ∧ dropped_ok w') w.
Proof.
  intros Hok. pose proof (host_ok_shape w Hok) as (? & ? & ? & ? & ? & Hs0).
  destruct (sh_static _ _ _ _ _ _ Hs0) as [Hds Hpl]. clear Hs0.
  unfold start. wp_step. wp_step. wp_step. unfold id. rewrite Hpl. eapply wp_unwrap; [by apply (wi_start wire)|].
  wp_step. destruct (decide (phase_of w = Created)) as [Hph|Hph]; cycle 1.
  { apply wp_transition_refused; [by destruct (phase_of w)|]. by wp_step. }
  unfold host_ok in Hok. rewrite Hph in Hok. destruct Hok as [Hs Hint].
  apply wp_transition; [by rewrite Hph|]. intros l Hl. cbn beta iota.
  destruct (shape_transition _ _ _ _ _ _ _ _ Hs Hl) as (Hs1 & Hph1 & Hint1). rewrite Hint in Hint1.
  set (w1 := mkWorld _ _) in *. clearbody w1. wp_step. wp_step.
  eapply wp_mono; [by apply start_guarded_wp| |]; cbn beta; [|intros w2 Ht; split; [done|by apply torn_ok]].
  intros [armed r] w2 (-> & Hint2 & Hr). rewrite Hint1 in Hint2. destruct r as [handles|e].
  - destruct Hr as [Hs2 Hph2]. wp_step. apply wp_transition; [by rewrite Hph2|]. intros l2 Hl2. cbn beta iota.
    destruct (shape_transition _ _ _ _ _ _ _ _ Hs2 Hl2) as (Hs3 & Hph3 & Hint3).
    wp_step. split; [|done]. unfold host_ok. rewrite Hph3, Hint3. done.
  - destruct Hr as ([f ->] & Hset & Hph2). wp_step. split; [|done]. unfold host_ok. by rewrite Hph2.
Qed.

Lemma torn_phase ph :
  ph ∈ TORN → ph ∉ [Created; Stopped] ∧ ph ≠ Stopped ∧ (ph = Failed ∨ can_transition_to ph Failed = true).
Proof.
  unfold TORN. rewrite !not_elem_of_cons. intros Hin.
  repeat (apply elem_of_cons in Hin as [->|Hin]; [split; [|split; [done|by auto]]; split; [done|];
    split; [done|apply not_elem_of_nil]|]).
  by apply not_elem_of_nil in Hin.
Qed.

(** [shutdown] once the host is past [Created] and not yet [Stopped]. *)
Lemma shutdown_wp w :
  host_ok w →
  wp (shutdown answer)
     (λ r w', host_ok w' ∧
        match r with
        | Ok _ => phase_of w ∉ [Created; Stopped] ∧ phase_of w' = Stopped
        | Err (Phase _) => w' = w ∧ phase_of w ∈ [Created; Stopped]
        | Err _ => False
        end)
     (λ w', phase_of w ∉ [Created; Stopped] ∧ dropped_ok w') w.
Proof.
  intros Hok. unfold shutdown. wp_step. wp_step. wp_step. wp_step.
  set (w1 := mkWorld (with_interrupted false (host w)) (log w)).
  assert (Hph1 : phase_of w1 = phase_of w) by done.
  destruct (interrupted (host w)) eqn:Hint; cbn beta iota.
  - assert (Htorn : (∃ a b j k qd, shape w a b j k qd) ∧ phase_of w ∈ TORN).
    { unfold host_ok in Hok. rewrite Hint in Hok. unfold TORN. 
      destruct (phase_of w); try (by destruct Hok); (split; [naive_solver|set_solver]). }
    destruct Htorn as [(a & b & j & k & qd & Hs) Hin]. apply (shape_interrupted false) in Hs. fold w1 in Hs.
    destruct (torn_phase _ Hin) as (Hnot & Hnst & Hfail).
    wp_step. wp_step. cbn [compose]. rewrite decide_False by exact Hnst.
    wp_step. wp_step. eapply wp_mono; [eapply fail_and_tear_down_wp; [exact Hs|]| |].
    + by rewrite Hph1.
    + cbn beta. intros report w2 ([qd' Hs'] & Hph' & Hint'). wp_step. split; [|done].
      unfold host_ok. rewrite Hph'. split; [by exists a, b, qd'|done].
    + cbn beta. intros w2 Ht. split; [done|]. apply torn_ok. apply (torn_torn_any Failed); [unfold TORN; set_solver|done].
  - assert (Hw1 : w1 = w) by (subst w1; destruct w as [[] ?]; cbn in *; by rewrite Hint). rewrite Hw1. clear w1 Hph1 Hw1.
    wp_step. destruct (decide (phase_of w = Running)) as [Hph|Hph]; cycle 1.
    { apply wp_transition_refused; [by destruct (phase_of w)|]. cbn beta iota. wp_step. split; [done|]. split; [done|].
      unfold host_ok in Hok. rewrite Hint in Hok. destruct (phase_of w); try done; try (by destruct Hok); set_solver. }
    assert (Hnot : phase_of w ∉ [Created; Stopped]) by (rewrite Hph; set_solver).
    unfold host_ok in Hok. rewrite Hph in Hok. destruct Hok as [Hs _].
    apply wp_transition; [by rewrite Hph|]. intros l Hl. cbn beta iota.
    destruct (shape_transition _ _ _ _ _ _ _ _ Hs Hl) as (Hs1 & Hph1 & Hint1). rewrite Hint in Hint1.
    set (w1 := mkWorld _ _) in *. clearbody w1. wp_step. wp_step. wp_step.
    assert (Hdrop : ∀ ph w', ph ∈ TORN → torn ph w' →
      phase_of w ∉ [Created; Stopped] ∧ dropped_ok (mkWorld (with_interrupted true (host w')) (log w'))).
    { intros ph w' Hin Ht. split; [done|]. apply torn_ok. by eapply torn_torn_any. }
    eapply wp_mono; [eapply quiesce_and_drain_wp; [exact Hs1|by rewrite Hph1]| |intros w'; rewrite Hph1; apply Hdrop; unfold TORN; set_solver].
    cbn beta. intros report w2 (qd' & Hs2 & Hph2 & Hint2). rewrite Hph1 in Hph2.
    eapply try_transition_wp; [exact Hs2|by rewrite Hph2|]. intros w3 Hs3 Hph3 Hint3.
    wp_step. eapply wp_mono; [eapply stop_all_wp; [exact Hs3|by rewrite Hph3]| |intros w'; rewrite Hph3; apply Hdrop; unfold TORN; set_solver].
    cbn beta. intros report' w4 (Hs4 & Hph4 & Hint4). wp_step. rewrite Hph3 in Hph4. cbn beta iota.
    wp_step. apply wp_transition; [by rewrite Hph4|]. intros l5 Hl5. cbn beta iota.
    destruct (shape_transition _ _ _ _ _ _ _ _ Hs4 Hl5) as (Hs5 & Hph5 & Hint5).
    wp_step. split; [|done]. unfold host_ok. rewrite Hph5, Hint5. split; [by exists n, n, qd'|congruence].
Qed.

End Shape.

(** * The plan's wiring *)

Lemma positions_of_names ids (ps : list nat) :
  NoDup ids → (∀ p, p ∈ ps → p < length ids) → mapM (index_of ids) (name_at ids <$> ps) = Some ps.
Proof.
  intros Hnd. induction ps as [|p ps IH]; intros Hps; [done|]. cbn.
  assert (Hp : ids !! p = Some (name_at ids p)) by (apply name_at_lookup, Hps; set_solver).
  pose proof (index_of_spec ids (name_at ids p)) as Hix. destruct (index_of ids (name_at ids p)) as [q|]; cycle 1.
  { exfalso. apply Hix. by eapply list_elem_of_lookup_2. }
  rewrite (NoDup_lookup ids q p _ Hnd Hix Hp). cbn. rewrite IH; [done|set_solver].
Qed.

Lemma names_to_positions ids (l : list SubsystemId) :
  (∀ id, id ∈ l → id ∈ ids) → ∃ ps, l = name_at ids <$> ps ∧ ∀ p, p ∈ ps → p < length ids.
Proof.
  induction l as [|x l IH]; intros Hl; [exists []; set_solver|].
  destruct IH as (ps & -> & Hps); [set_solver|].
  assert (Hx : x ∈ ids) by (apply Hl; set_solver). apply list_elem_of_lookup in Hx as [p Hp].
  exists (p :: ps). split; [cbn; unfold name_at at 2; by rewrite Hp|].
  intros q [->|Hq]%elem_of_cons; [by eapply lookup_lt_Some|auto].
Qed.

(** Positions in start order, and those of the ingress subsystems in quiesce order. *)
Definition laid_out (ds : list SubsystemDescriptor) (pl : CompositionPlan) (po qo : list nat) : Prop :=
  start_order pl = name_at (sd_id <$> ds) <$> po ∧
  quiesce_order pl = name_at (sd_id <$> ds) <$> qo ∧
  ∀ p, p ∈ qo ↔ sd_kind <$> ds !! p = Some Ingress.

Lemma plan_wiring ds pl :
  build ds = Some (Ok pl) → ∃ po qo, laid_out ds pl po qo ∧ wiring ds pl po qo.
Proof.
  intros Hb. destruct (build_verdict ds) as (r & Hr & Hv). rewrite Hb in Hr. injection Hr as <-.
  set (ids := sd_id <$> ds). destruct Hv as (Hperm & Hnd & _ & _ & Hsub & Hing). fold ids in Hperm, Hnd.
  assert (Hlen : length ids = length ds) by apply length_fmap.
  destruct (names_to_positions ids (start_order pl)) as (po & Hpo & Hpr); [intros id; by rewrite Hperm|].
  destruct (names_to_positions ids (ingress pl)) as (ing & Hin & Hir).
  { intros id Hid. rewrite <- Hperm. eapply elem_of_submseteq; [exact Hid|by apply sublist_submseteq]. }
  assert (Hpp : po ≡ₚ seq 0 (length ds)).
  { apply submseteq_length_Permutation.
    - apply NoDup_submseteq; [|intros p Hp%Hpr; apply elem_of_seq; lia].
      eapply NoDup_fmap_1. rewrite <- Hpo. by rewrite Hperm.
    - apply Permutation_length in Hperm. rewrite Hpo, length_fmap in Hperm. rewrite length_seq. lia. }
  assert (Hmap : ∀ h ps, subsystems h = ds → (∀ p, p ∈ ps → p < length ids) → order h (name_at ids <$> ps) = Some ps).
  { intros h ps Hh Hps. unfold order, position. rewrite Hh. by apply positions_of_names. }
  exists po, (reverse ing). split; [split; [done|]; split|].
  - unfold quiesce_order. rewrite Hin. by rewrite fmap_reverse.
  - intros p. rewrite elem_of_reverse. split.
    + intros Hp. assert (Hn : name_at ids p ∈ ingress pl) by (rewrite Hin; by apply list_elem_of_fmap_2).
      apply Hing in Hn as (d & (q & Hq)%list_elem_of_lookup & Hd & Hk).
      assert (Hpq : p = q); [|by rewrite Hpq, Hq, <- Hk].
      eapply (NoDup_lookup ids); [done|by apply name_at_lookup, Hir|]. subst ids. by rewrite list_lookup_fmap, Hq, <- Hd.
    + intros (d & Hd & Hk)%fmap_Some. assert (Hn : sd_id d ∈ ingress pl).
      { apply Hing. exists d. split; [by eapply list_elem_of_lookup_2|done]. }
      rewrite Hin in Hn. apply list_elem_of_fmap in Hn as (q & Hq & Hqi).
      assert (Hpq : p = q); [|by rewrite Hpq].
      eapply (NoDup_lookup ids); [done| |by apply name_at_lookup, Hir]. subst ids. by rewrite list_lookup_fmap, Hd, <- Hq.
  - split; [done| | |]; intros h Hh.
    + rewrite Hpo. by apply Hmap.
    + unfold shutdown_order. rewrite Hpo, <- fmap_reverse. apply Hmap; [done|]. intros p. rewrite elem_of_reverse. auto.
    + unfold quiesce_order. rewrite Hin, <- fmap_reverse. apply Hmap; [done|]. intros p. rewrite elem_of_reverse. auto.
Qed.

(** * Runs *)

Definition fresh (ds : list SubsystemDescriptor) (pl : CompositionPlan) : World :=
  world_new (mkHost ds pl lifecycle_new [] [] false).

Lemma fresh_ok ds pl po qo : host_ok ds pl po qo (fresh ds pl).
Proof.
  unfold host_ok. cbn. split; [|done]. split; [done|apply lifecycle_new_inv|done|constructor| | | |lia|lia].
  - intros p. cbn. set_solver.
  - intros p. cbn. set_solver.
  - split; [set_solver|]. split; [done|]. intros q0 p rest Heq. by destruct q0.
Qed.

Section Runs.
Context {SocketAddr : Type} (answer : nat → ∀ c : Call, option (result SubsystemError (@reply SocketAddr c))).
Context (ds : list SubsystemDescriptor) (pl : CompositionPlan) (po qo : list nat) (wire : wiring ds pl po qo).

Lemma step_ok op w : host_ok ds pl po qo w → ∃ w', step answer op w = Some w' ∧ host_ok ds pl po qo w'.
Proof.
  intros Hok. destruct op; cbn.
  - pose proof (start_wp ds pl po qo wire answer w Hok) as Hw. unfold wp in Hw.
    destruct (start answer w) as [[r| |] w']; [exists w'; naive_solver|exists w'; unfold dropped_ok in Hw; naive_solver|done].
  - pose proof (shutdown_wp ds pl po qo wire answer w Hok) as Hw. unfold wp in Hw.
    destruct (shutdown answer w) as [[r| |] w']; [exists w'; naive_solver|exists w'; unfold dropped_ok in Hw; naive_solver|done].
Qed.

Lemma run_ok ops w : host_ok ds pl po qo w → ∃ w', run answer ops w = Some w' ∧ host_ok ds pl po qo w'.
Proof.
  revert w. induction ops as [|op ops IH]; intros w Hok; cbn; [by exists w|].
  destruct (step_ok op w Hok) as (w1 & -> & Hok1). cbn. by apply IH.
Qed.

End Runs.

(** * What a run did *)

Definition is_quiesce (c : Call) : bool := match c with Quiesce _ => true | _ => false end.

Lemma drains_of (l : list Call) :
  (∀ c, c ∈ l → is_quiesce c = true ∨ ∃ p, c = Drain p) →
  filter (λ c, is_quiesce c = false) l = Drain <$> omap drained l.
Proof.
  induction l as [|c l IH]; intros Hl; [done|]. rewrite filter_cons.
  assert (Hrest := IH (λ x Hx, Hl x (list_elem_of_further x c l Hx))).
  destruct (Hl c) as [E|[p ->]]; [left| |].
  - destruct c; done || (rewrite decide_False by done; exact Hrest).
  - rewrite decide_True by done. cbn. by rewrite Hrest.
Qed.

Section Log.
Context (ds : list SubsystemDescriptor) (pl : CompositionPlan) (po qo : list nat) (wire : wiring ds pl po qo).
Context (w : World) (a b j k : nat) (qd : list Call) (Hs : shape ds pl po qo w a b j k qd).

Abbreviation calls := (log w).*1.

Lemma qd_call c : c ∈ qd → is_quiesce c = true ∨ ∃ p, c = Drain p.
Proof. intros Hc. destruct (sh_qd _ _ _ _ _ _ _ _ _ _ Hs) as [Hq _]. destruct (Hq c Hc) as [(p & -> & _)|]; auto. Qed.

Lemma initialized_iff p : Initialize p ∈ calls ↔ p ∈ take a po.
Proof.
  rewrite (sh_log _ _ _ _ _ _ _ _ _ _ Hs), !elem_of_app, !list_elem_of_fmap. split; [|eauto].
  intros [(q & [= ->] & ?)|[(q & ? & _)|[Hq|(q & ? & _)]]]; try done.
  destruct (qd_call _ Hq) as [|(q & ?)]; done.
Qed.

Lemma shutdown_iff p : Shutdown p ∈ calls ↔ p ∈ take a po ∧ p ∈ take k (reverse po).
Proof.
  rewrite (sh_log _ _ _ _ _ _ _ _ _ _ Hs), !elem_of_app, !list_elem_of_fmap. split.
  - intros [(q & ? & _)|[(q & ? & _)|[Hq|(q & [= ->] & Hq)]]]; try done.
    + destruct (qd_call _ Hq) as [|(q & ?)]; done.
    + by apply list_elem_of_filter in Hq.
  - intros Hp. right. right. right. exists p. by rewrite list_elem_of_filter.
Qed.

(** Nothing but a quiesce is ever repeated. *)
Lemma calls_once : NoDup (filter (λ c, is_quiesce c = false) calls).
Proof.
  pose proof (po_nodup ds pl po qo wire) as Hnd.
  assert (Hrev : NoDup (reverse po)) by (by rewrite reverse_Permutation).
  assert (Htake : ∀ i (l : list nat), NoDup l → NoDup (take i l))
    by (intros i l Hl; eapply sublist_NoDup; [exact Hl|apply sublist_take]).
  assert (Hkeep : ∀ (c : nat → Call) l, (∀ p, is_quiesce (c p) = false) → filter (λ c, is_quiesce c = false) (c <$> l) = c <$> l)
    by (intros c l Hc; apply filter_id; intros x (y & -> & _)%list_elem_of_fmap; done).
  rewrite (sh_log _ _ _ _ _ _ _ _ _ _ Hs), !filter_app, !Hkeep, (drains_of qd qd_call) by done.
  destruct (sh_qd _ _ _ _ _ _ _ _ _ _ Hs) as (_ & -> & _).
  repeat (apply NoDup_app; split; [|split]); try (apply NoDup_fmap_2; [by intros ? ? [=]|auto using NoDup_filter]);
    intros x (p & -> & _)%list_elem_of_fmap; rewrite ?elem_of_app, !list_elem_of_fmap; naive_solver.
Qed.

(** Dependents go first: a subsystem is shut down after those that need it. *)
Lemma shutdown_respects ids p q before after :
  start_order pl = name_at ids <$> po → (∀ x y, name_at ids x = name_at ids y → x ∈ po → y ∈ po → x = y) →
  respects (depends ds) (start_order pl) → q ∈ po →
  depends ds (name_at ids p) (name_at ids q) → calls = before ++ Shutdown q :: after →
  Initialize p ∈ calls → Shutdown p ∈ before.
Proof.
  intros Hnames Hinj Hresp Hq Hdep Hcalls Hp%initialized_iff.
  assert (Hppo : p ∈ po) by (eapply elem_of_submseteq; [exact Hp|apply sublist_submseteq, sublist_take]).
  apply list_elem_of_split in Hppo as (b1 & a1 & Hpo).
  assert (Hqb : q ∈ b1).
  { rewrite Hnames, Hpo, fmap_app, fmap_cons in Hresp. specialize (Hresp _ _ _ eq_refl _ Hdep).
    apply list_elem_of_fmap in Hresp as (q' & Heq & Hin). rewrite (Hinj q q' Heq Hq); [done|]. rewrite Hpo. set_solver. }
  pose proof (po_nodup ds pl po qo wire) as Hnd.
  assert (Hrpo : reverse po = reverse a1 ++ p :: reverse b1) by (by rewrite Hpo, reverse_app, reverse_cons, <- app_assoc).
  assert (Hnot : q ∉ reverse a1 ++ [p]).
  { rewrite Hpo in Hnd. apply NoDup_app in Hnd as (_ & Hno & _). specialize (Hno q Hqb).
    rewrite elem_of_app, elem_of_reverse, list_elem_of_singleton. set_solver. }
  set (F := filter (.∈ take a po) (take k (reverse po))).
  assert (HF : ∀ l1 l2, F = l1 ++ q :: l2 → p ∈ l1).
  { intros l1 l2 HF. assert (HqF : q ∈ F) by (rewrite HF; set_solver).
    apply list_elem_of_filter in HqF as [_ HqF]. subst F. rewrite Hrpo in HF, HqF.
    assert (Hk : length (reverse a1 ++ [p]) ≤ k).
    { destruct (decide (length (reverse a1 ++ [p]) ≤ k)) as [|Hk]; [done|]. exfalso. apply Hnot.
      rewrite cons_middle, app_assoc, take_app_le in HqF by lia.
      eapply elem_of_submseteq; [exact HqF|apply sublist_submseteq, sublist_take]. }
    rewrite cons_middle, app_assoc, take_app_ge, filter_app in HF by done.
    apply app_eq_inv in HF as [(r & Hr & Heq)|(r & -> & _)].
    - destruct r as [|x r]; [|injection Heq as <- _; exfalso; apply Hnot].
      + rewrite app_nil_r in Hr. rewrite <- Hr. apply list_elem_of_filter. set_solver.
      + eapply (list_elem_of_filter (.∈ take a po)). rewrite Hr. set_solver.
    - apply elem_of_app. left. apply list_elem_of_filter. set_solver. }
  rewrite (sh_log _ _ _ _ _ _ _ _ _ _ Hs), !app_assoc in Hcalls. fold F in Hcalls.
  set (X := ((Initialize <$> take a po) ++ (Start <$> take b po)) ++ qd) in *.
  assert (HX : Shutdown q ∉ X).
  { subst X. rewrite !elem_of_app, !list_elem_of_fmap. intros [[(? & ? & _)|(? & ? & _)]|Hx]; try done.
    by destruct (qd_call _ Hx) as [|(? & ?)]. }
  assert (Hend : ∀ r, Shutdown <$> F = r ++ Shutdown q :: after → Shutdown p ∈ r).
  { intros r Hr. apply fmap_app_inv in Hr as (l1 & l2 & -> & Hl2 & HFl). symmetry in Hl2.
    apply fmap_cons_inv in Hl2 as (q' & l3 & [= <-] & -> & ->). apply list_elem_of_fmap_2. by eapply HF. }
  apply app_eq_inv in Hcalls as [(r & Hr & Heq)|(r & -> & Heq)].
  - destruct r as [|x r]; [|exfalso; apply HX; injection Heq as <- _; rewrite Hr; set_solver].
    exfalso. apply (not_elem_of_nil (Shutdown p)). by apply (Hend []).
  - apply elem_of_app. right. by apply Hend.
Qed.

End Log.

(** Everything initialized has been shut down. *)
Definition released (w : World) : Prop := ∀ p, Initialize p ∈ (log w).*1 ↔ Shutdown p ∈ (log w).*1.

Lemma settled_released ds pl po qo w : wiring ds pl po qo → settled ds pl po qo w → released w.
Proof.
  intros wire (a & b & qd & Hs) p. rewrite (initialized_iff _ _ _ _ _ _ _ _ _ _ Hs), (shutdown_iff _ _ _ _ _ _ _ _ _ _ Hs).
  split; [|naive_solver]. intros Hp. split; [done|]. by eapply all_stopped.
Qed.

Lemma stopped_released ds pl po qo w :
  wiring ds pl po qo → host_ok ds pl po qo w → phase_of w = Stopped → released w.
Proof.
  intros wire Hok Hph. unfold host_ok in Hok. rewrite Hph in Hok. destruct Hok as [Hset _].
  by eapply settled_released.
Qed.

(** C15. However the subsystems answer and wherever the futures of [start] and [shutdown] are
    dropped, the host never panics and its calls keep the documented order:
    initializations and starts run in plan order, then ingress is quiesced and
    the started subsystems drained, then the initialized ones are shut down, in reverse
    plan order, a subsystem before whatever it depends on. No call but a quiesce is made
    twice, every call is made while the epoch gate is closed, and once the host is
    [Stopped] exactly the subsystems that were initialized have been shut down. *)
Theorem host_teardown {SocketAddr} (answer : nat → ∀ c, option (result SubsystemError (@reply SocketAddr c))) ds pl ops :
  build ds = Some (Ok pl) →
  let ids := sd_id <$> ds in
  ∃ po qo w, laid_out ds pl po qo ∧ po ≡ₚ seq 0 (length ds) ∧ run answer ops (fresh ds pl) = Some w ∧
    let calls := (log w).*1 in
    (∃ a b j k qd, shape ds pl po qo w a b j k qd) ∧
    NoDup (filter (λ c, is_quiesce c = false) calls) ∧
    (∀ p q before after, p < length ds → q < length ds → depends ds (name_at ids p) (name_at ids q) →
       calls = before ++ Shutdown q :: after → Initialize p ∈ calls → Shutdown p ∈ before) ∧
    Forall (λ e, e.2 = None) (log w) ∧
    (phase_of w = Stopped → released w).
Proof.
  intros Hb. cbn zeta. destruct (plan_wiring ds pl Hb) as (po & qo & Hlay & wire).
  destruct (run_ok answer ds pl po qo wire ops _ (fresh_ok ds pl po qo)) as (w & Hrun & Hok).
  pose proof (host_ok_shape _ _ _ _ _ Hok) as (a & b & j & k & qd & Hs).
  destruct (build_verdict ds) as (r & Hr & Hv). rewrite Hb in Hr. injection Hr as <-.
  destruct Hv as (_ & Hnd & Hresp & _). pose proof (wi_po _ _ _ _ wire) as Hpo.
  assert (Hin : ∀ p, p ∈ po ↔ p < length (sd_id <$> ds)).
  { intros p. rewrite Hpo, elem_of_seq, length_fmap. lia. }
  exists po, qo, w. split; [done|]. split; [done|]. split; [done|]. split; [by exists a, b, j, k, qd|].
  split; [by eapply calls_once|]. split; [|split; [by eapply sh_gate|by eapply stopped_released]].
  intros p q before after Hp Hq Hdep Hcalls. eapply (shutdown_respects ds pl po qo wire w); try done.
  - apply Hlay.
  - intros x y Heq Hx%Hin Hy%Hin. by eapply name_at_inj.
  - apply Hin. by rewrite length_fmap.
Qed.

(** C29. Teardown is never out of reach: from any state a run can leave the host in (a dropped
    startup, a dropped teardown, a running host), a [shutdown] whose calls all
    come back, whatever they return, succeeds, ends in [Stopped] and has shut down
    everything that was ever initialized. *)
Theorem shutdown_completes {SocketAddr} (answer answer' : nat → ∀ c, option (result SubsystemError (@reply SocketAddr c))) ds pl ops w :
  build ds = Some (Ok pl) → run answer ops (fresh ds pl) = Some w → phase_of w ∉ [Created; Stopped] →
  (∀ i c, answer' i c ≠ None) →
  ∃ report w', shutdown answer' w = (Done (Ok report), w') ∧ phase_of w' = Stopped ∧ released w'.
Proof.
  intros Hb Hrun Hph Hans. destruct (plan_wiring ds pl Hb) as (po & qo & _ & wire).
  destruct (run_ok answer ds pl po qo wire ops _ (fresh_ok ds pl po qo)) as (w0 & Hrun0 & Hok).
  rewrite Hrun in Hrun0. injection Hrun0 as <-.
  pose proof (shutdown_wp ds pl po qo wire answer' w Hok) as Hw. unfold wp in Hw.
  destruct (shutdown answer' w) as [[[report|e]| |] w'].
  - destruct Hw as (Hok' & _ & Hst). exists report, w'. split; [done|]. split; [done|]. by eapply stopped_released.
  - destruct Hw as [_ He]. destruct e; try done. by destruct He.
  - destruct Hw as (_ & _ & _ & before & c & e & _ & Hnone). by destruct (Hans _ _ Hnone).
  - done.
Qed.

(** ** The error a failed start reports *)

Section FirstFailure.
Context {SocketAddr : Type}.
Context (answer : nat → ∀ c : Call, option (result SubsystemError (@reply SocketAddr c))).

(** The calls numbered from [n] on are all answered with success. *)
Definition went_well (n : nat) (calls : list Call) : Prop :=
  ∀ i c, calls !! i = Some c → ∃ r, answer (n + i) c = Some (Ok r).

(** Among the calls made between [w] and [w'] the first that was answered with an
    error is the initialization or the start of a subsystem, and its error is [e]. *)
Definition first_failure (w w' : World) (e : SubsystemError) : Prop :=
  ∃ well p c rest, (c = Initialize p ∨ c = Start p) ∧ (log w').*1 = (log w).*1 ++ well ++ c :: rest ∧
    went_well (length (log w)) well ∧ answer (length (log w) + length well) c = Some (Err e).

(** The calls a computation makes are added to the log. *)
Definition adds {A} (m : M A) : Prop := ∀ w, (log w).*1 `prefix_of` (log (m w).2).*1.

Lemma adds_bind {A B} (m : M A) (k : A → M B) : adds m → (∀ a, adds (k a)) → adds (m ≫= k).
Proof.
  intros Hm Hk w. specialize (Hm w). unfold mbind, M_bind. destruct (m w) as [[a| |] w']; [|done..].
  etrans; [exact Hm|apply Hk].
Qed.

Lemma adds_still {A} (m : M A) : (∀ w, log (m w).2 = log w) → adds m.
Proof. intros H w. by rewrite H. Qed.

Lemma adds_transition next : adds (transition next).
Proof. apply adds_still. intros w. unfold transition. by destruct (transition_to _ _). Qed.

Lemma adds_call c : adds (call answer c).
Proof.
  intros w. unfold call. destruct (answer _ c); cbn [snd log]; rewrite fmap_app; by apply prefix_app_r.
Qed.

Create HintDb adds.
#[local] Hint Resolve adds_bind adds_transition : adds.
#[local] Hint Extern 1 (@adds _ (call _ ?c)) => exact (adds_call c) : adds.
#[local] Hint Extern 1 (adds (mret _)) => (apply adds_still; intros; reflexivity) : adds.
#[local] Hint Extern 1 (adds (gets _)) => (apply adds_still; intros; reflexivity) : adds.
#[local] Hint Extern 1 (adds (modify _)) => (apply adds_still; intros; reflexivity) : adds.
#[local] Hint Extern 1 (adds (unwrap ?o)) => (apply adds_still; intros; by destruct o) : adds.
#[local] Hint Extern 2 (adds (if ?b then _ else _)) => destruct b : adds.
#[local] Hint Extern 2 (adds (match ?b with _ => _ end)) => destruct b : adds.

Lemma adds_transition_expect next : adds (transition_expect next).
Proof. unfold transition_expect. auto with adds. Qed.

Lemma adds_quiesce_loop l report : adds (quiesce_loop answer l report).
Proof. revert report. induction l as [|p l IH]; intros report; cbn [quiesce_loop]; auto 20 with adds. Qed.

Lemma adds_drain_loop l report : adds (drain_loop answer l report).
Proof. revert report. induction l as [|p l IH]; intros report; cbn [drain_loop]; auto 20 with adds. Qed.

Lemma adds_stop_loop l report : adds (stop_loop answer l report).
Proof. revert report. induction l as [|p l IH]; intros report; cbn [stop_loop]; auto 20 with adds. Qed.

#[local] Hint Resolve adds_transition_expect adds_quiesce_loop adds_drain_loop adds_stop_loop : adds.

Lemma adds_abort : adds (abort answer).
Proof. unfold abort, fail_and_tear_down, quiesce_and_drain, stop_all. auto 40 with adds. Qed.

Lemma went_well_nil n : went_well n [].
Proof. intros i c Hc. by rewrite lookup_nil in Hc. Qed.

Lemma went_well_one n c r : answer n c = Some (Ok r) → went_well n [c].
Proof. intros Hr [|i] d Hd; [|done]. injection Hd as <-. rewrite Nat.add_0_r. by exists r. Qed.

Lemma went_well_app n l k : went_well n l → went_well (n + length l) k → went_well n (l ++ k).
Proof.
  intros Hl Hk i c [Hi|[Hlt Hi]]%lookup_app_Some; [by apply Hl|].
  apply Hk in Hi as [r Hr]. exists r. by replace (n + i) with (n + length l + (i - length l)) by lia.
Qed.

(** The log of [w'] is that of [w] and calls that went well. *)
Definition all_well (w w' : World) : Prop :=
  ∃ calls, (log w').*1 = (log w).*1 ++ calls ∧ went_well (length (log w)) calls.

Lemma log_length w w' calls : (log w').*1 = (log w).*1 ++ calls → length (log w') = length (log w) + length calls.
Proof. intros H%(f_equal length). by rewrite length_app, !length_fmap in H. Qed.

Lemma all_well_same w w' : log w' = log w → all_well w w'.
Proof. intros H. exists []. rewrite H, app_nil_r. split; [done|apply went_well_nil]. Qed.

Lemma all_well_trans w w1 w' : all_well w w1 → all_well w1 w' → all_well w w'.
Proof.
  intros (l & Hl & Hw) (k & Hk & Hv). exists (l ++ k). rewrite Hk, Hl, <- app_assoc. split; [done|].
  apply went_well_app; [done|]. by rewrite <- (log_length _ _ _ Hl).
Qed.

Lemma first_failure_after w w1 w' e : all_well w w1 → first_failure w1 w' e → first_failure w w' e.
Proof.
  intros (l & Hl & Hw) (well & p & d & rest & Hd & Hl' & Hv & He). rewrite (log_length _ _ _ Hl) in Hv, He.
  exists (l ++ well), p, d, rest. split_and!; [done| |by apply went_well_app|].
  - by rewrite Hl', Hl, <- !app_assoc.
  - by rewrite length_app, Nat.add_assoc.
Qed.

(** What holds when a computation finishes. *)
Definition finishes {A} (m : M A) (Q : A → World → Prop) (w : World) : Prop :=
  match m w with (Done a, w') => Q a w' | _ => True end.

Lemma finishes_bind {A B} (m : M A) (k : A → M B) Q w : finishes m (λ a, finishes (k a) Q) w → finishes (m ≫= k) Q w.
Proof. unfold finishes, mbind, M_bind. by destruct (m w) as [[a| |] w']. Qed.

Lemma finishes_mono {A} (m : M A) (Q Q' : A → World → Prop) w :
  finishes m Q w → (∀ a w', Q a w' → Q' a w') → finishes m Q' w.
Proof. unfold finishes. destruct (m w) as [[a| |] w']; auto. Qed.

Lemma finishes_modify f (Q : unit → World → Prop) w : Q tt (mkWorld (f (host w)) (log w)) → finishes (modify f) Q w.
Proof. done. Qed.

Lemma finishes_transition next w :
  finishes (transition next) (λ r w', log w' = log w) w.
Proof. unfold finishes, transition. by destruct (transition_to _ _). Qed.

(** One call of a startup loop: the loop goes on, or the teardown follows. *)
Lemma finishes_call {B} c p (refuse : SubsystemError → B) (next : reply c → M B) (Q : B → World → Prop) w :
  c = Initialize p ∨ c = Start p →
  (∀ e w', first_failure w w' e → Q (refuse e) w') → (∀ r w1, all_well w w1 → finishes (next r) Q w1) →
  finishes (r ← call answer c; match r with Err e => abort answer;; mret (refuse e) | Ok r => next r end) Q w.
Proof.
  intros Hc He Hn. unfold finishes, call, mbind at 1, M_bind at 1.
  destruct (answer (length (log w)) c) as [[r|e]|] eqn:E; [| |done].
  - apply Hn. exists [c]. cbn [log]. rewrite fmap_app. split; [done|by eapply went_well_one].
  - set (w1 := mkWorld _ _). pose proof (adds_abort w1) as [rest Hl]. unfold mbind, M_bind. revert Hl.
    destruct (abort answer w1) as [[[]| |] w']; [|done..]. cbn [snd mret M_ret]. intros Hl. apply He.
    exists [], p, c, rest. split_and!; [done| |apply went_well_nil|by rewrite Nat.add_0_r].
    rewrite Hl. unfold w1. cbn [log]. by rewrite fmap_app, <- app_assoc.
Qed.

Lemma initialize_loop_finishes l w :
  finishes (initialize_loop answer l)
    (λ failed w', match failed with Some e => first_failure w w' e | None => all_well w w' end) w.
Proof.
  revert w. induction l as [|p l IH]; intros w; cbn [initialize_loop]; [by apply all_well_same|].
  apply finishes_bind, finishes_modify. set (w1 := mkWorld _ _). assert (all_well w w1) as H1 by by apply all_well_same.
  apply (finishes_call _ p); [by left|intros; by eapply first_failure_after|]. intros _ w2 H2.
  eapply all_well_trans in H2; [|exact H1].
  eapply finishes_mono; [apply IH|]. intros [e|] w' H; [by eapply first_failure_after|by eapply all_well_trans].
Qed.

Lemma start_loop_finishes l handles w :
  finishes (start_loop answer l handles)
    (λ r w', match r with Err e => first_failure w w' e | Ok _ => True end) w.
Proof.
  revert handles w. induction l as [|p l IH]; intros handles w; cbn [start_loop]; [done|].
  apply finishes_bind, finishes_modify. set (w1 := mkWorld _ _). assert (all_well w w1) as H1 by by apply all_well_same.
  apply (finishes_call (Start p) p Err); [by right|intros; by eapply first_failure_after|]. intros h w2 H2.
  eapply all_well_trans in H2; [|exact H1].
  eapply finishes_mono; [apply IH|]. intros [r|e] w' H; [done|by eapply first_failure_after].
Qed.

Lemma try_transition_finishes {A} next (k : M (bool * result CompositionError A)) Q w :
  (∀ w1, log w1 = log w → finishes k Q w1) → (∀ e w1, Q (true, Err (Phase e)) w1) → finishes (try_transition next k) Q w.
Proof.
  intros Hk He. apply finishes_bind. eapply finishes_mono; [apply finishes_transition|]. intros [[]|e] w1 Hw; [by apply Hk|apply He].
Qed.

Lemma start_finishes w :
  finishes (start answer) (λ r w', match r with Err (SubsystemFailed e) => first_failure w w' e | _ => True end) w.
Proof.
  apply finishes_bind. unfold finishes at 1, gets. apply finishes_bind. unfold finishes at 1, unwrap. destruct (order _ _) as [po|]; [|done].
  apply finishes_bind. eapply finishes_mono; [apply finishes_transition|]. intros [[]|e] w1 Hw1; [|done]. apply finishes_bind.
  assert (finishes (start_guarded answer po)
    (λ '(armed, r) w', match r with Err (SubsystemFailed e) => first_failure w w' e | _ => True end) w1) as Hg.
  { apply finishes_bind. eapply finishes_mono; [apply initialize_loop_finishes|].
    intros [e|] w2 H2; [apply (first_failure_after w w1); [by apply all_well_same|done]|].
    apply try_transition_finishes; [|done]. intros w3 Hw3. apply try_transition_finishes; [|done]. intros w4 Hw4.
    apply finishes_bind. eapply finishes_mono; [apply start_loop_finishes|]. intros [hs|e] w5 H5; [done|].
    apply (first_failure_after w w4); [|done]. eapply all_well_trans; [by apply (all_well_same w w1)|].
    eapply all_well_trans; [exact H2|]. apply all_well_same. by rewrite Hw4, Hw3. }
  unfold finishes in *. unfold guarded. destruct (start_guarded answer po w1) as [[[armed [hs|e]]| |] w2]; [| |done..].
  - cbn. unfold mbind, M_bind. by destruct (transition Running _) as [[[]| |] w3].
  - cbn. destruct e; try done. by destruct armed.
Qed.

End FirstFailure.

(** C30. Startup is all or nothing: [start] succeeds with every subsystem initialized
    and started and none shut down; or it fails with exactly the error of the first
    call of the startup that was answered with one, the initialization or the start of
    some subsystem, every call before it having succeeded, and has shut down everything
    it initialized, ending in [Stopped] (not in [Failed], as the module documentation
    says: Example failed_startup_stops); or it is refused without a change. A dropped
    [start] leaves the flag that makes the next [shutdown] finish the teardown. *)
Theorem startup_all_or_nothing {SocketAddr} (answer answer' : nat → ∀ c, option (result SubsystemError (@reply SocketAddr c))) ds pl ops w :
  build ds = Some (Ok pl) → run answer ops (fresh ds pl) = Some w →
  match start answer' w with
  | (Done (Ok _), w') =>
      phase_of w' = Running ∧ ∀ p, p < length ds → Initialize p ∈ (log w').*1 ∧ Start p ∈ (log w').*1 ∧ Shutdown p ∉ (log w').*1
  | (Done (Err (SubsystemFailed e)), w') => first_failure answer' w w' e ∧ phase_of w' = Stopped ∧ released w'
  | (Done (Err (Phase _)), w') => w' = w ∧ phase_of w ≠ Created
  | (Dropped, w') => interrupted (host w') = true ∧ phase_of w' ∉ [Created; Stopped]
  | _ => False
  end.
Proof.
  intros Hb Hrun. destruct (plan_wiring ds pl Hb) as (po & qo & _ & wire).
  destruct (run_ok answer ds pl po qo wire ops _ (fresh_ok ds pl po qo)) as (w0 & Hrun0 & Hok).
  rewrite Hrun in Hrun0. injection Hrun0 as <-.
  pose proof (start_wp ds pl po qo wire answer' w Hok) as Hw. unfold wp in Hw.
  pose proof (start_finishes answer' w) as Hfirst. unfold finishes in Hfirst.
  destruct (start answer' w) as [[[handles|e]| |] w']; [| | |done].
  - destruct Hw as (Hok' & _ & Hph). split; [done|]. unfold host_ok in Hok'. rewrite Hph in Hok'. destruct Hok' as [Hs _].
    intros p Hp. assert (Hin : p ∈ take (length ds) po).
    { rewrite take_ge by (by rewrite (po_length _ _ _ _ wire)). rewrite (wi_po _ _ _ _ wire). apply elem_of_seq. lia. }
    split; [by eapply initialized_iff|]. split; [|rewrite (shutdown_iff _ _ _ _ _ _ _ _ _ _ Hs); set_solver].
    rewrite (sh_log _ _ _ _ _ _ _ _ _ _ Hs), !elem_of_app. right. left. by apply list_elem_of_fmap_2.
  - destruct Hw as [Hok' He]. destruct e; try done. destruct He as [_ Hst].
    split_and!; [exact Hfirst|done|]. by eapply stopped_released.
  - destruct Hw as (_ & Hok' & Hin & _). split; [|by apply torn_phase in Hin as [? _]].
    unfold host_ok in Hok'. destruct (torn_phase _ Hin) as (Hno & _). destruct (phase_of w') eqn:Eph; try (by destruct Hok'); 
      unfold TORN in Hin; exfalso; set_solver.
Qed.

(** A store, an engine that needs it, and a gateway in front of the engine. *)
Definition demo : list SubsystemDescriptor :=
  [mkDescriptor (lit "gateway") Ingress [lit "engine"];
   mkDescriptor (lit "engine") Capability [lit "store"];
   mkDescriptor (lit "store") Foundation []].

Definition demo_plan : CompositionPlan :=
  mkPlan [lit "store"; lit "engine"; lit "gateway"] [lit "gateway"].

(** Every call succeeds, except that the call numbered [at_] never returns. *)
Definition demo_answer (at_ : option nat) (i : nat) (c : Call) : option (result SubsystemError (@reply unit c)) :=
  if decide (at_ = Some i) then None else Some (Ok
    match c return @reply unit c with
    | Start _ => mkHandle (lit "x") [] None
    | Drain _ => mkDrain (lit "x") 0 0
    | Initialize _ | Quiesce _ | Shutdown _ => tt
    end).

(** A teardown dropped while the gateway quiesces asks it to quiesce again. *)
Example quiesce_is_repeated :
  ((λ w, (log w).*1) <$> run (demo_answer (Some 6)) [StartOp; ShutdownOp; ShutdownOp] (fresh demo demo_plan)) =
  Some [Initialize 2; Initialize 1; Initialize 0; Start 2; Start 1; Start 0; Quiesce 0; Quiesce 0;
        Drain 0; Drain 1; Drain 2; Shutdown 0; Shutdown 1; Shutdown 2].
Proof. vm_compute. reflexivity. Qed.

(** A failed startup ends in [Stopped], not in [Failed]. *)
Example failed_startup_stops :
  let refuse i c := if decide (i = 1) then Some (Err (mkSubsystemError (lit "engine") Unavailable [])) else demo_answer None i c in
  ((λ w, (phase_of w, (log w).*1)) <$> run refuse [StartOp] (fresh demo demo_plan)) =
  Some (Stopped, [Initialize 2; Initialize 1; Shutdown 1; Shutdown 2]).
Proof. vm_compute. reflexivity. Qed.

(** The teardown is dropped during the engine's drain and resumed. *)
Lemma host_teardown_witness :
  ∃ w, run (demo_answer (Some 8)) [StartOp; ShutdownOp; ShutdownOp] (fresh demo demo_plan) = Some w ∧
       (log w).*1 = [Initialize 2; Initialize 1; Initialize 0; Start 2; Start 1; Start 0;
                     Quiesce 0; Drain 0; Drain 1; Drain 2; Shutdown 0; Shutdown 1; Shutdown 2] ∧ released w.
Proof.
  destruct (host_teardown (demo_answer (Some 8)) demo demo_plan [StartOp; ShutdownOp; ShutdownOp]
              ltac:(vm_compute; reflexivity)) as (po & qo & w & _ & _ & Hrun & _ & _ & _ & _ & Hrel).
  exists w. split; [exact Hrun|].
  assert (Hw : run (demo_answer (Some 8)) [StartOp; ShutdownOp; ShutdownOp] (fresh demo demo_plan) = Some w) by exact Hrun.
  vm_compute in Hw. injection Hw as <-. split; [reflexivity|apply Hrel; reflexivity].
Defined.

Lemma shutdown_completes_witness :
  ∃ w report w', run (demo_answer (Some 4)) [StartOp] (fresh demo demo_plan) = Some w ∧
    shutdown (demo_answer None) w = (Done (Ok report), w') ∧ phase_of w' = Stopped ∧ released w'.
Proof.
  eexists. destruct (shutdown_completes (demo_answer (Some 4)) (demo_answer None) demo demo_plan [StartOp] _
    ltac:(vm_compute; reflexivity) ltac:(vm_compute; reflexivity)
    ltac:(rewrite !not_elem_of_cons; repeat split; try discriminate; apply not_elem_of_nil)
    ltac:(intros; discriminate)) as (report & w' & Hw').
  exists report, w'. split; [vm_compute; reflexivity|exact Hw'].
Defined.

Lemma startup_all_or_nothing_witness :
  ∃ w', start (demo_answer None) (fresh demo demo_plan) = (Done (Ok (replicate 3 (mkHandle (lit "x") [] None))), w') ∧
        phase_of w' = Running ∧ Start 2 ∈ (log w').*1.
Proof.
  pose proof (startup_all_or_nothing (demo_answer None) (demo_answer None) demo demo_plan [] (fresh demo demo_plan)
    ltac:(vm_compute; reflexivity) ltac:(vm_compute; reflexivity)) as Hall.
  destruct (start (demo_answer None) (fresh demo demo_plan)) as [o w'] eqn:E. exists w'.
  vm_compute in E. injection E as <- <-. split; [reflexivity|]. destruct Hall as [Hph Hp]. split; [exact Hph|].
  apply (Hp 2). cbn. lia.
Defined.

End CompositionHost.
