(* ===== verification/CompositionAuthority.v ===== *)
(** * Grants

    Models [crates/claw-application/src/composition/authority.rs] with the clock
    ([clock.rs]) and the capability set ([session.rs]) it uses: asking the
    authority about one action, minting a grant that carries the action's subject,
    and redeeming it once. Issuing spans an await, so it is two steps here: between
    the question and the answer the clock, the life cycle and other requests move
    on. What the authority port answers is part of the run. *)

From S2P Require Import Prelude Composition.

Module CompositionAuthority.
Import Composition.

(** ** [session.rs]: capabilities *)

Inductive Capability := ReadWorkspace | WriteWorkspace | Network | SpawnProcess | ReadEnvironment.

#[export] Instance Capability_eq_dec : EqDecision Capability.
Proof. solve_decision. Defined.

Definition capability_label (c : Capability) : bytes :=
  match c with
  | ReadWorkspace => lit "read-workspace"
  | WriteWorkspace => lit "write-workspace"
  | Network => lit "network"
  | SpawnProcess => lit "spawn-process"
  | ReadEnvironment => lit "read-environment"
  end.

(** [CapabilitySet], a sorted vector without duplicates. *)
Abbreviation CapabilitySet := (list Capability).

Definition capability_rank (c : Capability) : nat :=
  match c with ReadWorkspace => 0 | WriteWorkspace => 1 | Network => 2 | SpawnProcess => 3 | ReadEnvironment => 4 end.

(** Sorting and de-duplicating, one element at a time. *)
Fixpoint insert_capability (c : Capability) (held : CapabilitySet) : CapabilitySet :=
  match held with
  | [] => [c]
  | h :: rest =>
      if (capability_rank c <? capability_rank h)%nat then c :: held
      else if decide (c = h) then held
      else h :: insert_capability c rest
  end.

Definition from_capabilities (cs : list Capability) : CapabilitySet := foldr insert_capability [] cs.

Definition contains (held : CapabilitySet) (c : Capability) : bool := bool_decide (c ∈ held).

Definition is_subset_of (self other : CapabilitySet) : bool := forallb (contains other) self.

Definition missing_from (self other : CapabilitySet) : list Capability :=
  filter (λ held, contains other held = false) self.

(** ** [clock.rs]

    An instant and a [Duration] in nanoseconds. *)

Definition DURATION_MAX : Z := u64_max * 1000000000 + 999999999.

Definition instant_checked_add (t span : Z) : option Z :=
  if t + span <=? DURATION_MAX then Some (t + span) else None.

Definition saturating_since (t earlier : Z) : Z := sat_sub t earlier.

(** ** Requests *)

Record Principal := mkPrincipal { pr_id : bytes; pr_capabilities : CapabilitySet }.

Inductive Action :=
| OpenSession
| SubmitTurn
| CallProvider (provider model : bytes)
| InvokeTool (tool : bytes) (required : CapabilitySet)
| ReadCredential (credential : bytes)
| ActivatePlugin (component : bytes)
| RecordTurn.

Definition action_label (a : Action) : bytes :=
  match a with
  | OpenSession => lit "open-session"
  | SubmitTurn => lit "submit-turn"
  | CallProvider _ _ => lit "call-provider"
  | InvokeTool _ _ => lit "invoke-tool"
  | ReadCredential _ => lit "read-credential"
  | ActivatePlugin _ => lit "activate-plugin"
  | RecordTurn => lit "record-turn"
  end.

Definition required_capabilities (a : Action) : CapabilitySet :=
  match a with
  | InvokeTool _ required => required
  | CallProvider _ _ => from_capabilities [Network]
  | _ => []
  end.

(** [Display for Action] *)
Definition action_display (a : Action) : bytes :=
  match a with
  | CallProvider provider model => lit "call-provider " ++ provider ++ lit "/" ++ model
  | InvokeTool tool _ => lit "invoke-tool " ++ tool
  | ReadCredential credential => lit "read-credential " ++ credential
  | ActivatePlugin component => lit "activate-plugin " ++ component
  | other => action_label other
  end.

Record ActionRequest := mkRequest {
  ar_subsystem : SubsystemId;
  ar_principal : Principal;
  ar_action : Action;
  ar_session : option bytes;
}.

Definition in_session (r : ActionRequest) (session : bytes) : ActionRequest :=
  mkRequest (ar_subsystem r) (ar_principal r) (ar_action r) (Some session).

Record Authorization := mkAuthorization { au_ttl : Z; au_note : option bytes }.

Inductive Denial :=
| Policy (action reason : bytes)
| MissingCapabilities (action : bytes) (missing : list Capability)
| Expired (serial age ttl : Z)
| NotRunning
| EpochClosed.

Fixpoint join_comma (parts : list bytes) : bytes :=
  match parts with
  | [] => []
  | [part] => part
  | part :: rest => part ++ lit "," ++ join_comma rest
  end.

(** [Duration::as_millis] *)
Definition as_millis (span : Z) : Z := span / 1000000.

(** [Display for Denial] *)
Definition denial_display (d : Denial) : bytes :=
  match d with
  | Policy action reason => lit "policy refused " ++ action ++ lit ": " ++ reason
  | MissingCapabilities action missing =>
      action ++ lit " needs capabilities the principal does not hold: " ++ join_comma (capability_label <$> missing)
  | Expired serial age ttl =>
      lit "grant " ++ decimal serial ++ lit " expired: redeemed " ++ decimal (as_millis age) ++
      lit "ms after it was minted, " ++ decimal (as_millis (sat_sub age ttl)) ++ lit "ms past its lifetime"
  | NotRunning => lit "the daemon is not running, so nothing can be authorized"
  | EpochClosed => lit "the daemon left the run epoch the grant was minted in"
  end.

(** [SubsystemError::denied] *)
Definition denied (subsystem : SubsystemId) (d : Denial) : SubsystemError :=
  mkSubsystemError subsystem Denied (denial_display d).

(** [CapabilityAuthority::authorize] *)
Definition capability_authorize (ttl : Z) (request : ActionRequest) : result Denial Authorization :=
  match missing_from (required_capabilities (ar_action request)) (pr_capabilities (ar_principal request)) with
  | [] => Ok (mkAuthorization ttl None)
  | missing => Err (MissingCapabilities (action_display (ar_action request)) missing)
  end.

(** ** Grants *)

Record Grant (T : Type) := mkGrant {
  g_subject : T;
  g_serial : Z;
  g_epoch : Z;
  g_action : bytes;
  g_ttl : Z;
  g_minted_at : Z;
  g_expires_at : Z;
}.
Arguments mkGrant {T}.
Arguments g_subject {T}.
Arguments g_serial {T}.
Arguments g_epoch {T}.
Arguments g_action {T}.
Arguments g_ttl {T}.
Arguments g_minted_at {T}.
Arguments g_expires_at {T}.

Record GrantReceipt := mkReceipt { gr_serial : Z; gr_action : bytes; gr_epoch : Z; gr_expires_at : Z }.

Definition receipt {T} (g : Grant T) : GrantReceipt :=
  mkReceipt (g_serial g) (g_action g) (g_epoch g) (g_expires_at g).

(** [Grant::redeem] at the gate and the clock of the moment. *)
Definition redeem {T} (gate now : Z) (g : Grant T) : result Denial T :=
  if decide (gate_current gate = Some (g_epoch g)) then
    if now >? g_expires_at g then
      Err (Expired (g_serial g) (saturating_since now (g_minted_at g)) (g_ttl g))
    else Ok (g_subject g)
  else Err EpochClosed.

Record GrantIssuer := mkIssuer { max_ttl : Z; next_serial : Z }.

Definition issuer_new (max_ttl : Z) : GrantIssuer := mkIssuer max_ttl 1.

(** [issue] up to the await: the epoch and the time the decision is asked at. *)
Definition issue_begin (gate now : Z) : result Denial (Z * Z) :=
  epoch ← ok_or NotRunning (gate_current gate);
  Ok (epoch, now).

(** [issue] from the authority's answer on. *)
Definition issue_finish {T} (i : GrantIssuer) (gate epoch minted_at : Z) (request : ActionRequest) (subject : T)
    (decision : result Denial Authorization) : result Denial (Grant T * GrantIssuer) :=
  authorization ← decision;
  if decide (gate_current gate = Some epoch) then
    let ttl := Z.min (au_ttl authorization) (max_ttl i) in
    let expires_at := default DURATION_MAX (instant_checked_add minted_at ttl) in
    Ok (mkGrant subject (next_serial i) epoch (action_display (ar_action request)) ttl minted_at expires_at,
        mkIssuer (max_ttl i) (wrap_add u64_max (next_serial i) 1))
  else Err EpochClosed.

(** ** Runs *)

Section Runs.
Context {T : Type}.

Record Pending := mkPending { pd_epoch : Z; pd_minted_at : Z; pd_request : ActionRequest; pd_subject : T }.

Inductive Event :=
| Moved (next : LifecyclePhase)
| Denied (d : Denial)
| Issued (g : Grant T) (request : ActionRequest) (decision : Authorization)
| Redeemed (g : Grant T) (at_ : Z) (ph : LifecyclePhase)
| Refused (g : Grant T) (d : Denial)
| Discarded (g : Grant T).

Record State := mkState {
  lc : Lifecycle;
  now : Z;
  issuer : GrantIssuer;
  pending : gmap nat Pending;
  held : list (Grant T);
  history : list Event;
}.

Definition state_new (max_ttl : Z) : State := mkState lifecycle_new 0 (issuer_new max_ttl) ∅ [] [].

Inductive Op :=
| Tick (t : Z)                                            (* the clock reads [t] from now on *)
| Move (next : LifecyclePhase)                            (* the host advances *)
| Ask (id : nat) (request : ActionRequest) (subject : T)  (* [issue] is polled first *)
| Answer (id : nat) (decision : result Denial Authorization)  (* the port answers *)
| Cancel (id : nat)                                       (* [issue] is dropped at its await *)
| Redeem (i : nat)                                        (* the holder of a grant redeems it *)
| Discard (i : nat).                                      (* a grant is dropped unredeemed *)

Definition note (s : State) (e : Event) : State :=
  mkState (lc s) (now s) (issuer s) (pending s) (held s) (history s ++ [e]).
Definition with_pending (s : State) (p : gmap nat Pending) : State :=
  mkState (lc s) (now s) (issuer s) p (held s) (history s).
Definition with_held (s : State) (l : list (Grant T)) : State :=
  mkState (lc s) (now s) (issuer s) (pending s) l (history s).

Definition step (op : Op) (s : State) : option State :=
  match op with
  | Tick t => if (now s <=? t) && (t <=? DURATION_MAX)
              then Some (mkState (lc s) t (issuer s) (pending s) (held s) (history s)) else None
  | Move next =>
      match transition_to next (lc s) with
      | Ok l => Some (note (mkState l (now s) (issuer s) (pending s) (held s) (history s)) (Moved next))
      | Err _ => Some s
      end
  | Ask id request subject =>
      match pending s !! id, issue_begin (gate (lc s)) (now s) with
      | Some _, _ => None
      | None, Err d => Some (note s (Denied d))
      | None, Ok (epoch, minted_at) => Some (with_pending s (<[id := mkPending epoch minted_at request subject]> (pending s)))
      end
  | Answer id decision =>
      p ← pending s !! id;
      let s := with_pending s (delete id (pending s)) in
      match issue_finish (issuer s) (gate (lc s)) (pd_epoch p) (pd_minted_at p) (pd_request p) (pd_subject p) decision, decision with
      | Ok (g, i), Ok a => Some (note (mkState (lc s) (now s) i (pending s) (held s ++ [g]) (history s)) (Issued g (pd_request p) a))
      | Ok _, Err d | Err d, _ => Some (note s (Denied d))
      end
  | Cancel id => Some (with_pending s (delete id (pending s)))
  | Redeem i =>
      g ← held s !! i;
      let s := with_held s (delete i (held s)) in
      match redeem (gate (lc s)) (now s) g with
      | Ok _ => Some (note s (Redeemed g (now s) (phase (lc s))))
      | Err d => Some (note s (Refused g d))
      end
  | Discard i =>
      g ← held s !! i;
      Some (note (with_held s (delete i (held s))) (Discarded g))
  end.

Fixpoint run (ops : list Op) (s : State) : option State :=
  match ops with
  | [] => Some s
  | op :: ops => step op s ≫= run ops
  end.

(** ** Specification *)

Definition issued (e : Event) : option (Grant T) := match e with Issued g _ _ => Some g | _ => None end.
Definition redeemed (e : Event) : option (Grant T) := match e with Redeemed g _ _ => Some g | _ => None end.
Definition spent (e : Event) : option (Grant T) :=
  match e with Redeemed g _ _ | Refused g _ | Discarded g => Some g | _ => None end.
Definition is_move (e : Event) : bool := match e with Moved _ => true | _ => false end.

(** A redemption is covered by what came before it: the authority allowed this very
    request, the grant carries it, the daemon has not changed phase since, and
    the time is within both lifetimes. *)
Definition covered (max_ttl : Z) (before : list Event) (g : Grant T) (at_ : Z) (ph : LifecyclePhase) : Prop :=
  ∃ earlier between request decision,
    before = earlier ++ Issued g request decision :: between ∧
    Forall (λ e, is_move e = false) between ∧ ph = Running ∧
    g_action g = action_display (ar_action request) ∧
    g_minted_at g ≤ at_ ∧ at_ ≤ g_minted_at g + Z.min (au_ttl decision) max_ttl.

(** * The invariant *)

(** What is known of a grant minted under [request] and [decision]. *)
Definition minted (m t : Z) (g : Grant T) (request : ActionRequest) (decision : Authorization) : Prop :=
  g_action g = action_display (ar_action request) ∧ g_minted_at g ≤ t ∧
  ∀ u, u ≤ DURATION_MAX → u ≤ g_expires_at g → u ≤ g_minted_at g + Z.min (au_ttl decision) m.

Definition before_running (ph : LifecyclePhase) : Prop := ph ∈ [Created; Initializing; Initialized; Starting].

Record hist_inv (m : Z) (ph : LifecyclePhase) (t : Z) (h : list Event) : Prop := {
  hi_early : before_running ph → omap issued h = [];
  hi_issued : ∀ a g request decision b, h = a ++ Issued g request decision :: b →
                minted m t g request decision ∧ (ph = Running → Forall (λ e, is_move e = false) b);
  hi_covered : ∀ a g u ph' b, h = a ++ Redeemed g u ph' :: b → covered m a g u ph';
}.

Lemma hist_plain m ph t h e :
  issued e = None → redeemed e = None → is_move e = false → hist_inv m ph t h → hist_inv m ph t (h ++ [e]).
Proof.
  intros Hi Hr Hm [He Hs Hc]. split.
  - intros Hph. rewrite omap_app, He by done. cbn. by rewrite Hi.
  - intros a g request decision b [(_ & _ & ->)|(b' & -> & Hh)]%snoc_split; [done|].
    destruct (Hs _ _ _ _ _ Hh) as [? Hrun]. split; [done|]. intros Hph. apply Forall_app. auto.
  - intros a g u ph' b [(_ & _ & ->)|(b' & -> & Hh)]%snoc_split; [done|]. by eapply Hc.
Qed.

Lemma hist_tick m ph t t' h : t ≤ t' → hist_inv m ph t h → hist_inv m ph t' h.
Proof.
  intros Ht [He Hs Hc]. split; [done| |done]. intros a g request decision b Hh.
  destruct (Hs _ _ _ _ _ Hh) as [(? & ? & ?) ?]. split; [|done]. split; [done|]. split; [lia|done].
Qed.

Lemma hist_move m t h l l' next :
  transition_to next l = Ok l' → hist_inv m (phase l) t h → hist_inv m next t (h ++ [Moved next]).
Proof.
  intros Ht [He Hs Hc].
  assert (Hc' : can_transition_to (phase l) next = true).
  { unfold transition_to in Ht. by destruct (can_transition_to (phase l) next). }
  split.
  - intros Hph. rewrite omap_app, He; [done|]. unfold before_running in *.
    destruct (phase l), next; try discriminate; try set_solver.
  - intros a g request decision b [(_ & _ & ?)|(b' & -> & Hh)]%snoc_split; [done|].
    destruct (Hs _ _ _ _ _ Hh) as [? _]. split; [done|]. intros ->.
    assert (Hpl : before_running (phase l)) by (unfold before_running; destruct (phase l); try discriminate; set_solver).
    exfalso. apply He in Hpl. rewrite Hh, omap_app in Hpl. cbn in Hpl. by destruct (omap issued a).
  - intros a g u ph' b [(_ & _ & ?)|(b' & -> & Hh)]%snoc_split; [done|]. by eapply Hc.
Qed.

Lemma hist_issue m ph t h g request decision :
  ph = Running → minted m t g request decision → hist_inv m ph t h →
  hist_inv m ph t (h ++ [Issued g request decision]).
Proof.
  intros -> Hg [He Hs Hc]. split.
  - intros Hph. unfold before_running in Hph. set_solver.
  - intros a g' request' decision' b [(-> & _ & [= <- <- <-])|(b' & -> & Hh)]%snoc_split; [done|].
    destruct (Hs _ _ _ _ _ Hh) as [? Hrun]. split; [done|]. intros _. apply Forall_app. split; [auto|]. by constructor.
  - intros a g' u ph' b [(_ & _ & ?)|(b' & -> & Hh)]%snoc_split; [done|]. by eapply Hc.
Qed.

Lemma hist_redeem m ph t h g :
  ph = Running → t ≤ DURATION_MAX → t ≤ g_expires_at g → g ∈ omap issued h → hist_inv m ph t h →
  hist_inv m ph t (h ++ [Redeemed g t ph]).
Proof.
  intros -> Ht Hexp Hg [He Hs Hc]. split.
  - intros Hph. unfold before_running in Hph. set_solver.
  - intros a g' request' decision' b [(_ & _ & ?)|(b' & -> & Hh)]%snoc_split; [done|].
    destruct (Hs _ _ _ _ _ Hh) as [? Hrun]. split; [done|]. intros _. apply Forall_app. split; [auto|]. by constructor.
  - intros a g' u ph' b [(-> & -> & [= <- <- <-])|(b' & -> & Hh)]%snoc_split; [|by eapply Hc].
    apply list_elem_of_omap in Hg as (e & Hin & Hg). destruct e as [| |g' request decision| | |]; try done. injection Hg as ->.
    apply list_elem_of_split in Hin as (earlier & between & Hh).
    destruct (Hs _ _ _ _ _ Hh) as [(Ha & Hm & Hu) Hrun].
    exists earlier, between, request, decision. split; [done|]. split; [auto|]. split; [done|]. split; [done|].
    split; [done|]. by apply Hu.
Qed.

Record inv (m : Z) (s : State) : Prop := {
  in_epoch : epoch_of_phase (lc s);
  in_issuer : max_ttl (issuer s) = m;
  in_now : now s ≤ DURATION_MAX;
  in_pending : ∀ id p, pending s !! id = Some p → pd_minted_at p ≤ now s;
  in_hist : hist_inv m (phase (lc s)) (now s) (history s);
  in_grants : held s ++ omap spent (history s) ≡ₚ omap issued (history s);
}.

Lemma inv_new m : inv m (state_new m).
Proof.
  split; [apply lifecycle_new_inv|done|done| | |done].
  - intros id p Hp. cbn in Hp. by rewrite lookup_empty in Hp.
  - split; [done|..]; intros []; done.
Qed.

(** An open gate means the daemon is running. *)
Lemma open_gate l e : epoch_of_phase l → gate_current (gate l) = Some e → phase l = Running.
Proof.
  intros (_ & _ & _ & Hg & _). rewrite Hg. case_decide; done.
Qed.

(** Giving up the [i]-th grant moves it from the held ones to the spent ones. *)
Lemma spend_grants (l spent_ : list (Grant T)) i g :
  l !! i = Some g → delete i l ++ (spent_ ++ [g]) ≡ₚ l ++ spent_.
Proof.
  intros Hi. rewrite (delete_Permutation l i g Hi) at 2. rewrite app_assoc. by rewrite Permutation_app_comm.
Qed.

Lemma minted_finish i gt e t now_ request subject a g i' :
  t ≤ now_ → issue_finish i gt e t request subject (Ok a) = Ok (g, i') →
  minted (max_ttl i) now_ g request a ∧ max_ttl i' = max_ttl i ∧ gate_current gt = Some e.
Proof.
  intros Ht. unfold issue_finish. cbn. case_decide as Hg; [|done]. intros [= <- <-]. split; [|done].
  split; [done|]. split; [done|]. cbn. intros u Hu. unfold instant_checked_add.
  destruct (Z.leb_spec (t + (au_ttl a `min` max_ttl i)) DURATION_MAX); cbn; lia.
Qed.

Lemma authority_step m op s s' : inv m s → step op s = Some s' → inv m s'.
Proof.
  intros [He Hm Hn Hp Hh Hg] Hstep. destruct op as [t|next|id request subject|id decision|id|i|i]; cbn in Hstep.
  - destruct (_ && _) eqn:E; [|done]. injection Hstep as <-. apply andb_true_iff in E as [E1 E2].
    apply Z.leb_le in E1, E2. split; cbn; try done; [|by eapply hist_tick].
    intros id p Hid. specialize (Hp id p Hid). lia.
  - destruct (transition_to next (lc s)) as [l|e] eqn:E; [|injection Hstep as <-; by split].
    injection Hstep as <-. split; cbn; try done; [by eapply lifecycle_transition| |].
    + rewrite (transition_phase _ _ _ E). by eapply hist_move.
    + by rewrite !omap_app, !app_nil_r.
  - destruct (pending s !! id) as [p|] eqn:Ei; [done|]. destruct (issue_begin _ _) as [[e t]|d] eqn:Eb; injection Hstep as <-.
    + unfold issue_begin in Eb. apply bind_Ok in Eb as (e' & _ & [= -> <-]). split; cbn; try done.
      intros id' p'. rewrite lookup_insert_Some. intros [[_ <-]|[_ ?]]; [done|by eapply Hp].
    + split; cbn; try done; [by apply hist_plain|]. by rewrite !omap_app, !app_nil_r.
  - destruct (pending s !! id) as [p|] eqn:Ei; [|done]. cbn in Hstep.
    assert (Hp' : ∀ id' p', delete id (pending s) !! id' = Some p' → pd_minted_at p' ≤ now s).
    { intros id' p'. rewrite lookup_delete_Some. intros [_ ?]. by eapply Hp. }
    destruct (issue_finish _ _ _ _ _ _ decision) as [[g i]|d] eqn:Ef, decision as [a|d']; injection Hstep as <-.
    + destruct (minted_finish _ _ _ _ (now s) _ _ _ _ _ (Hp id p Ei) Ef) as (Hmt & Hmax & Hgate). rewrite Hm in Hmt, Hmax.
      split; cbn; try done.
      * apply hist_issue; [by eapply open_gate|done|done].
      * rewrite !omap_app. cbn. rewrite app_nil_r, <- Hg, <- !app_assoc. by rewrite (Permutation_app_comm [g]).
    + done.
    + split; cbn; try done; [by apply hist_plain|]. by rewrite !omap_app, !app_nil_r.
    + split; cbn; try done; [by apply hist_plain|]. by rewrite !omap_app, !app_nil_r.
  - injection Hstep as <-. split; cbn; try done. intros id' p'. rewrite lookup_delete_Some. intros [_ ?]. by eapply Hp.
  - destruct (held s !! i) as [g|] eqn:Ei; [|done]. cbn in Hstep.
    assert (Hgr : ∀ e, spent e = Some g → issued e = None →
      delete i (held s) ++ omap spent (history s ++ [e]) ≡ₚ omap issued (history s ++ [e])).
    { intros e Hsp His. rewrite !omap_app. cbn. rewrite Hsp, His, app_nil_r, <- Hg. by apply spend_grants. }
    assert (Hin : g ∈ omap issued (history s)).
    { rewrite <- Hg. apply elem_of_app. left. by eapply list_elem_of_lookup_2. }
    unfold redeem in Hstep. case_decide as Hgate; [destruct (Z.gtb_spec (now s) (g_expires_at g)) as [Hx|Hx]|];
      injection Hstep as <-; split; cbn; try done; try (by apply hist_plain); try (by apply Hgr).
    apply hist_redeem; [by eapply open_gate|done..].
  - destruct (held s !! i) as [g|] eqn:Ei; [|done]. cbn in Hstep. injection Hstep as <-. split; cbn; try done; [by apply hist_plain|].
    rewrite !omap_app. cbn. rewrite app_nil_r, <- Hg. by apply spend_grants.
Qed.

Lemma inv_run m ops s s' : inv m s → run ops s = Some s' → inv m s'.
Proof.
  revert s. induction ops as [|op ops IH]; intros s Hs; cbn; [by intros [= <-]|].
  destruct (step op s) as [s1|] eqn:E; [|done]. cbn. apply IH. by eapply authority_step.
Qed.

Lemma redeemed_spent (h : list Event) : omap redeemed h ⊆+ omap spent h.
Proof. induction h as [|e h IH]; [done|]. cbn. destruct e; cbn; try done; [by apply submseteq_skip|by apply submseteq_cons..]. Qed.

End Runs.
Arguments State T : clear implicits.
Arguments Event T : clear implicits.
Arguments Op T : clear implicits.
Arguments Pending T : clear implicits.

(** The reference authority allows exactly what the principal can do itself. *)
Lemma capability_authorize_spec ttl request a :
  capability_authorize ttl request = Ok a ↔
  a = mkAuthorization ttl None ∧
  ∀ c, c ∈ required_capabilities (ar_action request) → c ∈ pr_capabilities (ar_principal request).
Proof.
  unfold capability_authorize, missing_from. set (held := pr_capabilities _).
  assert (Hiff : filter (λ c, contains held c = false) (required_capabilities (ar_action request)) = [] ↔
                 ∀ c, c ∈ required_capabilities (ar_action request) → c ∈ held).
  { induction (required_capabilities (ar_action request)) as [|c l IH]; [split; [set_solver|done]|].
    rewrite filter_cons. destruct (decide (c ∈ held)) as [Hc|Hc].
    - rewrite decide_False by (unfold contains; rewrite bool_decide_true; done). rewrite IH. set_solver.
    - rewrite decide_True by (unfold contains; by rewrite bool_decide_false). split; [done|set_solver]. }
  rewrite <- Hiff. destruct (filter _ _); split; [intros [= <-]; done|by intros [-> _]|done|by intros [_ ?]].
Qed.

(** C22. A grant is one decision for one action. In every run of issuing, redeeming, clock and
    life-cycle steps, a successful redemption happens while the daemon runs, in
    the same run the authority allowed that request in with no phase change in
    between, no later than both the authority's and the issuer's lifetimes allow; and the
    redemptions are a sub-multiset of the grants issued, so none is redeemed twice. *)
Theorem action_grants_single_use {T} (m : Z) (ops : list (Op T)) (s : State T) :
  run ops (state_new m) = Some s →
  (∀ before g u ph after, history s = before ++ Redeemed g u ph :: after → covered m before g u ph) ∧
  omap redeemed (history s) ⊆+ omap issued (history s).
Proof.
  intros Hrun. pose proof (inv_run _ _ _ _ (inv_new m) Hrun) as [_ _ _ _ Hh Hg]. split.
  - apply (hi_covered _ _ _ _ Hh).
  - rewrite <- Hg. etrans; [apply redeemed_spent|]. apply submseteq_inserts_l. done.
Qed.

Definition demo_request : ActionRequest :=
  mkRequest (lit "engine") (mkPrincipal (lit "operator-1") [Network]) (CallProvider (lit "p") (lit "m")) None.

(** Two grants under one run: one is redeemed in time, the other after the drain began. *)
Definition demo_ops : list (Op Z) :=
  [Move Initializing; Move Initialized; Move Starting; Move Running;
   Ask 0 demo_request 7; Ask 1 demo_request 8; Tick 5;
   Answer 0 (capability_authorize 100 demo_request); Answer 1 (capability_authorize 100 demo_request);
   Redeem 0; Move Draining; Redeem 0].

Lemma action_grants_single_use_witness :
  ∃ s, run demo_ops (state_new 30) = Some s ∧
       (omap redeemed (history s), (λ e, match e with Refused g d => Some (g_subject g, d) | _ => None end) <$> last (history s)) =
         ([mkGrant 7 1 1 (lit "call-provider p/m") 30 0 30], Some (Some (8, EpochClosed))) ∧
       omap redeemed (history s) ⊆+ omap issued (history s).
Proof.
  eexists. destruct (action_grants_single_use 30 demo_ops _ ltac:(vm_compute; reflexivity)) as [_ Hsub].
  split; [vm_compute; reflexivity|]. split; [vm_compute; reflexivity|exact Hsub].
Defined.

End CompositionAuthority.
