(* ===== verification/CompositionEgress.v ===== *)
(** * Egress

    Models [crates/claw-application/src/composition/egress.rs]: parsing a
    destination, the allowlist, resolving it once and checking every address that
    came back, and the resolved endpoint that carries those addresses. The URL
    parser is a third-party crate; [UrlParser] holds the operations the code
    calls. The DNS port's answer and the clock's reading are arguments. Text is
    its UTF-8 bytes, which is how the code compares it. *)

From S2P Require Import Prelude Utf8 Text NetAddr Ssrf Composition CompositionAuthority.

Module CompositionEgress.
Import Net Composition CompositionAuthority.

Definition SECOND : Z := 1000000000.

Definition DEFAULT_MAX_RESOLUTION_AGE : Z := 30 * SECOND.

Inductive Scheme := Https | Http.

#[export] Instance Scheme_eq_dec : EqDecision Scheme.
Proof. solve_decision. Defined.

Definition scheme_str (s : Scheme) : bytes := match s with Https => lit "https" | Http => lit "http" end.

Definition default_port (s : Scheme) : Z := match s with Https => 443 | Http => 80 end.

(** The operations of the [url] crate that the code calls. *)
Record UrlParser := mkUrlParser {
  Url : Type;
  url_parse : bytes → result bytes Url;
  url_scheme : Url → bytes;
  url_username : Url → bytes;
  url_password : Url → option bytes;
  url_host_str : Url → option bytes;
  url_port : Url → option Z;
}.

(** ** Values *)

Definition UNPARSEABLE_DESTINATION : bytes := lit "<unparseable>".
Definition HOSTLESS_DESTINATION : bytes := lit "<no host>".

(** [RedactedUrl::new]: scheme, host and port, never the rest. *)
Definition redacted_url (lib : UrlParser) (raw : bytes) : bytes :=
  match url_parse lib raw with
  | Err _ => UNPARSEABLE_DESTINATION
  | Ok parsed =>
      match url_host_str lib parsed with
      | None => url_scheme lib parsed ++ lit "://" ++ HOSTLESS_DESTINATION
      | Some host =>
          match url_port lib parsed with
          | None => url_scheme lib parsed ++ lit "://" ++ host
          | Some port => url_scheme lib parsed ++ lit "://" ++ host ++ lit ":" ++ decimal port
          end
      end
  end.

Inductive EgressDenial :=
| InvalidUrl (url reason : bytes)
| UnsupportedScheme (scheme : bytes)
| CredentialsInUrl (url : bytes)
| MissingHost (url : bytes)
| PlainHttpRefused (host : bytes)
| HostNotAllowed (host : bytes)
| LookupFailed (host detail : bytes)
| NoAddresses (host : bytes)
| BlockedAddress (host : bytes) (address : IpAddr) (classification : bytes)
| StaleResolution (host : bytes) (age limit : Z).

Record EndpointRequest := mkEndpointRequest { er_scheme : Scheme; er_host : bytes; er_port : Z }.

(** [str::to_ascii_lowercase] *)
Definition lowercase (s : bytes) : bytes := to_ascii_lowercase <$> s.

Definition endpoint_parse (lib : UrlParser) (url : bytes) : result EgressDenial EndpointRequest :=
  match url_parse lib url with
  | Err reason => Err (InvalidUrl (redacted_url lib url) reason)
  | Ok parsed =>
      scheme ← (if decide (url_scheme lib parsed = lit "https") then Ok Https
                else if decide (url_scheme lib parsed = lit "http") then Ok Http
                else Err (UnsupportedScheme (url_scheme lib parsed)));
      if negb (bool_decide (url_username lib parsed = [])) || bool_decide (is_Some (url_password lib parsed))
      then Err (CredentialsInUrl (redacted_url lib url))
      else
        raw ← ok_or (MissingHost (redacted_url lib url)) (url_host_str lib parsed);
        let host := lowercase raw in
        if decide (host = []) then Err (MissingHost (redacted_url lib url))
        else Ok (mkEndpointRequest scheme host (default (default_port scheme) (url_port lib parsed)))
  end.

Definition endpoint_new (lib : UrlParser) (scheme : Scheme) (host : bytes) (port : Z) : result EgressDenial EndpointRequest :=
  if decide (host = []) then Err (MissingHost (redacted_url lib []))
  else Ok (mkEndpointRequest scheme (lowercase host) port).

(** ** Allowlist *)

Inductive HostPattern := Exact (host : bytes) | Suffix (suffix : bytes).

Definition dot : byte := byte_of 46.

Definition pattern_parse (pattern : bytes) : HostPattern :=
  let lowered := lowercase pattern in
  match strip_prefix (lit "*.") lowered with
  | Some suffix => Suffix suffix
  | None => Exact lowered
  end.

(** The slice starts right after an ASCII byte, so at a character boundary. *)
Definition pattern_matches (p : HostPattern) (host : bytes) : bool :=
  match p with
  | Exact expected => bool_decide (expected = host)
  | Suffix suffix =>
      if (length suffix <=? length host)%nat then
        let boundary := (length host - length suffix)%nat in
        (0 <? boundary)%nat && bool_decide (host !! (boundary - 1)%nat = Some dot) && bool_decide (drop boundary host = suffix)
      else false
  end.

Record EgressPolicy := mkPolicy {
  allowed : list HostPattern;
  allow_plain_http : bool;
  allow_private_addresses : bool;
  ep_max_resolution_age : option Z;
}.

Definition deny_all : EgressPolicy := mkPolicy [] false false None.

Definition allow_host (p : EgressPolicy) (pattern : HostPattern) : EgressPolicy :=
  mkPolicy (allowed p ++ [pattern]) (allow_plain_http p) (allow_private_addresses p) (ep_max_resolution_age p).

Definition max_resolution_age (p : EgressPolicy) : Z := default DEFAULT_MAX_RESOLUTION_AGE (ep_max_resolution_age p).

Definition permits_host (p : EgressPolicy) (host : bytes) : bool := existsb (λ pattern, pattern_matches pattern host) (allowed p).

(** ** Addresses

    The [Ipv4Addr] and [Ipv6Addr] tests of the standard library. *)

Definition v4_is_unspecified (a : Ipv4Addr) : bool := bool_decide (octets a = [0; 0; 0; 0]).
Definition v4_is_loopback (a : Ipv4Addr) : bool := oct0 a =? 127.
Definition v4_is_private (a : Ipv4Addr) : bool :=
  (oct0 a =? 10) || ((oct0 a =? 172) && ((16 <=? oct1 a) && (oct1 a <=? 31))) || ((oct0 a =? 192) && (oct1 a =? 168)).
Definition v4_is_link_local (a : Ipv4Addr) : bool := (oct0 a =? 169) && (oct1 a =? 254).
Definition v4_is_broadcast (a : Ipv4Addr) : bool := bool_decide (octets a = [255; 255; 255; 255]).
Definition v4_is_multicast (a : Ipv4Addr) : bool := (224 <=? oct0 a) && (oct0 a <=? 239).

(** [Ipv6Addr::to_ipv4]: IPv4-compatible and IPv4-mapped addresses. *)
Definition to_ipv4 (a : Ipv6Addr) : option Ipv4Addr :=
  if decide (take 5 (segments a) = [0; 0; 0; 0; 0] ∧ (seg5 a = 0 ∨ seg5 a = 0xffff)) then
    Some (mkV4 (seg6 a / 2 ^ 8) (seg6 a mod 2 ^ 8) (seg7 a / 2 ^ 8) (seg7 a mod 2 ^ 8))
  else None.

Definition classify_v4 (a : Ipv4Addr) : option bytes :=
  if v4_is_unspecified a then Some (lit "unspecified")
  else if v4_is_loopback a then Some (lit "loopback")
  else if v4_is_private a then Some (lit "private")
  else if v4_is_link_local a then Some (lit "link-local")
  else if v4_is_broadcast a then Some (lit "broadcast")
  else if v4_is_multicast a then Some (lit "multicast")
  else if (oct0 a =? 100) && ((64 <=? oct1 a) && (oct1 a <? 128)) then Some (lit "carrier-grade NAT")
  else if (oct0 a =? 192) && (oct1 a =? 0) && (oct2 a =? 0) then Some (lit "IETF protocol assignment")
  else if 240 <=? oct0 a then Some (lit "reserved")
  else None.

Definition classify_v6 (a : Ipv6Addr) : option bytes :=
  if is_unspecified a then Some (lit "unspecified")
  else if is_loopback a then Some (lit "loopback")
  else if is_multicast a then Some (lit "multicast")
  else match to_ipv4 a with
  | Some embedded => match classify_v4 embedded with Some c => Some c | None => Some (lit "IPv4-in-IPv6") end
  | None =>
      if Z.land (seg0 a) 0xfe00 =? 0xfc00 then Some (lit "unique-local")
      else if Z.land (seg0 a) 0xffc0 =? 0xfe80 then Some (lit "link-local")
      else None
  end.

Definition classify (a : IpAddr) : option bytes :=
  match a with V4 a => classify_v4 a | V6 a => classify_v6 a end.

(** ** Resolution *)

Record ResolvedEndpoint := mkEndpoint {
  re_scheme : Scheme;
  re_host : bytes;
  re_port : Z;
  re_addresses : list IpAddr;
  re_resolved_at : Z;
}.

Definition authority (e : ResolvedEndpoint) : bytes := re_host e ++ lit ":" ++ decimal (re_port e).

Definition age_at (e : ResolvedEndpoint) (now : Z) : Z := saturating_since now (re_resolved_at e).

Definition ensure_fresh (e : ResolvedEndpoint) (now limit : Z) : result EgressDenial unit :=
  if age_at e now >? limit then Err (StaleResolution (re_host e) (age_at e now) limit) else Ok tt.

(** The loop over the addresses: the first classified one is refused. *)
Fixpoint check_addresses (host : bytes) (addresses : list IpAddr) : result EgressDenial unit :=
  match addresses with
  | [] => Ok tt
  | a :: rest =>
      match classify a with
      | Some classification => Err (BlockedAddress host a classification)
      | None => check_addresses host rest
      end
  end.

(** [EgressGuard::resolve]; [lookup] is the DNS port, [now] the clock afterwards. *)
Definition resolve (policy : EgressPolicy) (lookup : bytes → result SubsystemError (list IpAddr)) (now : Z)
    (request : EndpointRequest) : result EgressDenial ResolvedEndpoint :=
  if bool_decide (er_scheme request = Http) && negb (allow_plain_http policy) then Err (PlainHttpRefused (er_host request))
  else if negb (permits_host policy (er_host request)) then Err (HostNotAllowed (er_host request))
  else
    addresses ←
      match ip_from_str (u8 <$> er_host request) with
      | Some literal => Ok [literal]
      | None =>
          match lookup (er_host request) with
          | Ok addresses => Ok addresses
          | Err error => Err (LookupFailed (er_host request) (subsystem_error_display error))
          end
      end;
    if decide (addresses = []) then Err (NoAddresses (er_host request))
    else
      _ ← (if allow_private_addresses policy then Ok tt else check_addresses (er_host request) addresses);
      Ok (mkEndpoint (er_scheme request) (er_host request) (er_port request) addresses now).

Definition resolve_url (lib : UrlParser) (policy : EgressPolicy) (lookup : bytes → result SubsystemError (list IpAddr))
    (now : Z) (url : bytes) : result EgressDenial ResolvedEndpoint :=
  request ← endpoint_parse lib url;
  resolve policy lookup now request.

(** * Allowlist *)

(** A suffix pattern matches below its suffix, at a label boundary. *)
Lemma suffix_matches suffix host :
  pattern_matches (Suffix suffix) host = true ↔ ∃ labels, host = labels ++ dot :: suffix.
Proof.
  cbn [pattern_matches]. destruct (Nat.leb_spec (length suffix) (length host)) as [Hle|Hgt]; cycle 1.
  { split; [done|]. intros [labels ->]. rewrite length_app in Hgt. cbn in Hgt. lia. }
  rewrite !andb_true_iff, !bool_decide_eq_true, Nat.ltb_lt. split.
  - intros [[Hb Hdot] Hdrop]. exists (take (length host - length suffix - 1) host).
    rewrite <- Hdrop at 2. pose proof (take_drop_middle host _ _ Hdot) as Hsplit.
    replace (S (length host - length suffix - 1)) with (length host - length suffix)%nat in Hsplit by lia. done.
  - intros [labels ->]. rewrite length_app. cbn [length].
    replace (length labels + S (length suffix) - length suffix)%nat with (S (length labels)) by lia.
    split; [split; [lia|]|].
    + replace (S (length labels) - 1)%nat with (length labels) by lia. by rewrite list_lookup_middle.
    + rewrite cons_middle, app_assoc. rewrite drop_app_length'; [done|]. rewrite length_app. cbn. lia.
Qed.

(** * Addresses *)

(** What the guard refuses, as networks. *)
Definition REFUSED_V4 : list Ssrf.Network :=
  [Ssrf.net4 0 0 0 0 32; Ssrf.net4 127 0 0 0 8; Ssrf.net4 10 0 0 0 8; Ssrf.net4 172 16 0 0 12; Ssrf.net4 192 168 0 0 16;
   Ssrf.net4 169 254 0 0 16; Ssrf.net4 255 255 255 255 32; Ssrf.net4 224 0 0 0 4; Ssrf.net4 100 64 0 0 10;
   Ssrf.net4 192 0 0 0 24; Ssrf.net4 240 0 0 0 4].

(** Unspecified, loopback, multicast, IPv4-compatible, IPv4-mapped, unique-local, link-local. *)
Definition REFUSED_V6 : list Ssrf.Network :=
  [(0, 128); (1, 128); Ssrf.net6 0xff00 0 0 0 8; (0, 96); (0xffff * 2 ^ 32, 96); Ssrf.net6 0xfc00 0 0 0 7; Ssrf.net6 0xfe80 0 0 0 10].

Definition Refused (a : IpAddr) : Prop :=
  match a with
  | V4 a => ∃ n, n ∈ REFUSED_V4 ∧ Ssrf.in_net 32 (bits_v4 a) n = true
  | V6 a => ∃ n, n ∈ REFUSED_V6 ∧ Ssrf.in_net 128 (bits_v6 a) n = true
  end.

Definition is_some {A} (o : option A) : bool := match o with Some _ => true | None => false end.

Lemma is_some_if {A} (b : bool) (x : A) o : is_some (if b then Some x else o) = b || is_some o.
Proof. by destruct b. Qed.

Lemma classify_v4_nets a : valid_v4 a → is_some (classify_v4 a) = any (Ssrf.in_net 32 (bits_v4 a)) REFUSED_V4.
Proof.
  destruct a as [a b c d]. intros Hv. unfold valid_v4, octets in Hv. cbn [oct0 oct1 oct2 oct3] in Hv.
  rewrite !Forall_cons in Hv. destruct Hv as (Ha & Hb & Hc & Hd & _). change (2 ^ 8) with 256 in *.
  unfold classify_v4. rewrite !is_some_if. cbn [is_some]. rewrite orb_false_r.
  unfold v4_is_unspecified, v4_is_loopback, v4_is_private, v4_is_link_local, v4_is_broadcast, v4_is_multicast, octets.
  cbn [oct0 oct1 oct2 oct3]. rewrite !Ssrf.bool_decide_cons, !Ssrf.bool_decide_nil, !andb_true_r.
  unfold REFUSED_V4, any. cbn [existsb].
  assert (bits_v4 (mkV4 a b c d) = a * 16777216 + b * 65536 + c * 256 + d) as Hx by (cbn; lia).
  revert Hx. generalize (bits_v4 (mkV4 a b c d)). intros x Hx. Ssrf.nets; lia.
Qed.

Lemma classify_v6_nets a : valid_v6 a → is_some (classify_v6 a) = any (Ssrf.in_net 128 (bits_v6 a)) REFUSED_V6.
Proof.
  intros Hv. unfold classify_v6. rewrite !is_some_if.
  assert (Hemb : is_some (match to_ipv4 a with
    | Some embedded => match classify_v4 embedded with Some c => Some c | None => Some (lit "IPv4-in-IPv6") end
    | None => if Z.land (seg0 a) 0xfe00 =? 0xfc00 then Some (lit "unique-local")
              else if Z.land (seg0 a) 0xffc0 =? 0xfe80 then Some (lit "link-local") else None end)
    = bool_decide (take 6 (segments a) = [0; 0; 0; 0; 0; 0]) || (bool_decide (take 6 (segments a) = [0; 0; 0; 0; 0; 0xffff])
      || ((Z.land (seg0 a) 0xfe00 =? 0xfc00) || (Z.land (seg0 a) 0xffc0 =? 0xfe80)))).
  { unfold to_ipv4. destruct a as [a b c d e f g h]. unfold segments.
    cbn [seg0 seg1 seg2 seg3 seg4 seg5 seg6 seg7 take]. rewrite !Ssrf.bool_decide_cons, !Ssrf.bool_decide_nil, !andb_true_r.
    case_decide as Hd.
    - destruct Hd as [[= -> -> -> -> ->] [-> | ->]]; cbn; by destruct (classify_v4 _).
    - rewrite !is_some_if. cbn [is_some]. rewrite orb_false_r.
      destruct (a =? 0) eqn:Ea, (b =? 0) eqn:Eb, (c =? 0) eqn:Ec, (d =? 0) eqn:Ed, (e =? 0) eqn:Ee; cbn [andb orb]; try done.
      destruct (f =? 0) eqn:Ef, (f =? 65535) eqn:Ef'; cbn [andb orb]; try done;
        (exfalso; apply Hd; split; [repeat f_equal; lia|lia]). }
  rewrite Hemb. clear Hemb. unfold is_unspecified, is_loopback, is_multicast.
  destruct a as [a b c d e f g h]. unfold valid_v6, segments in *.
  cbn [seg0 seg1 seg2 seg3 seg4 seg5 seg6 seg7 take drop] in *.
  rewrite !Forall_cons in Hv. destruct Hv as (Ha & Hb & Hc & Hd & He & Hf & Hg & Hh & _).
  rewrite !Ssrf.bool_decide_cons, !Ssrf.bool_decide_nil, !andb_true_r.
  rewrite (Ssrf.land_prefix_eqb a 8 0xff00 0xff 0xff00) by (done || lia).
  rewrite (Ssrf.land_prefix_eqb a 9 0xfe00 0x7e 0xfc00) by (done || lia).
  rewrite (Ssrf.land_prefix_eqb a 6 0xffc0 0x3fa 0xfe80) by (done || lia).
  change (2 ^ 16) with 65536 in *. unfold REFUSED_V6, any. cbn [existsb].
  assert (bits_v6 (mkV6 a b c d e f g h)
    = a * 2 ^ 112 + b * 2 ^ 96 + c * 2 ^ 80 + d * 2 ^ 64 + e * 2 ^ 48 + f * 2 ^ 32 + g * 65536 + h) as Hx
    by (unfold bits_v6; cbn; lia).
  revert Hx. generalize (bits_v6 (mkV6 a b c d e f g h)). intros x Hx.
  repeat first [apply Ssrf.orb_cong | rewrite orb_false_r]; Ssrf.net_bounds; lia.
Qed.

Lemma classify_refused a : valid_ip a → classify a = None ↔ ¬ Refused a.
Proof.
  intros Hv. assert (Hn : ∀ o : option bytes, o = None ↔ is_some o = false) by (intros []; done).
  destruct a as [a|a]; cbn [classify Refused]; rewrite Hn;
    [rewrite classify_v4_nets by done|rewrite classify_v6_nets by done];
    rewrite any_false, Forall_forall; (split;
      [intros Hall (m & Hm & E); by rewrite (Hall m Hm) in E
      |intros Hno m Hm; destruct (Ssrf.in_net _ _ m) eqn:E; [destruct Hno; eauto|done]]).
Qed.

Lemma check_addresses_Ok host l u : check_addresses host l = Ok u ↔ Forall (λ a, classify a = None) l.
Proof.
  destruct u. induction l as [|a l IH]; cbn; [by rewrite Forall_nil|]. rewrite Forall_cons.
  destruct (classify a); [naive_solver|]. rewrite IH. naive_solver.
Qed.

(** * The guard *)

(** What an acceptable URL says: its scheme, a host in lower case and a port, and no
    user name or password. *)
Record reads (lib : UrlParser) (url : bytes) (request : EndpointRequest) (parsed : Url lib) (raw : bytes) : Prop := {
  rd_url : url_parse lib url = Ok parsed;
  rd_scheme : url_scheme lib parsed = match er_scheme request with Https => lit "https" | Http => lit "http" end;
  rd_username : url_username lib parsed = [];
  rd_password : url_password lib parsed = None;
  rd_host : url_host_str lib parsed = Some raw;
  rd_some : raw ≠ [];
  rd_lower : er_host request = to_ascii_lowercase <$> raw;
  rd_port : er_port request =
    match url_port lib parsed with
    | Some port => port
    | None => match er_scheme request with Https => 443 | Http => 80 end
    end;
}.

(** A host the allowlist names, or one below a suffix of it. *)
Definition host_allowed (policy : EgressPolicy) (host : bytes) : Prop :=
  Exact host ∈ allowed policy ∨ ∃ suffix labels, Suffix suffix ∈ allowed policy ∧ host = labels ++ dot :: suffix.

(** An endpoint the policy lets through: where its addresses come from, and that
    none of them is refused. *)
Record admitted (policy : EgressPolicy) (lookup : bytes → result SubsystemError (list IpAddr)) (request : EndpointRequest)
    (addresses : list IpAddr) : Prop := {
  ad_scheme : er_scheme request = Http → allow_plain_http policy = true;
  ad_host : host_allowed policy (er_host request);
  ad_source : match ip_from_str (u8 <$> er_host request) with
              | Some literal => addresses = [literal]
              | None => lookup (er_host request) = Ok addresses
              end;
  ad_some : addresses ≠ [];
  ad_public : allow_private_addresses policy = false → ∀ a, a ∈ addresses → ¬ Refused a;
}.

Lemma permits_host_true p host : permits_host p host = true ↔ host_allowed p host.
Proof.
  unfold permits_host, host_allowed. rewrite any_true. split.
  - intros ([x|suffix] & Hin & Hm); [left|right].
    + apply bool_decide_eq_true in Hm as ->. done.
    + apply suffix_matches in Hm as [labels ->]. by exists suffix, labels.
  - intros [Hin|(suffix & labels & Hin & ->)].
    + exists (Exact host). split; [done|]. by apply bool_decide_eq_true.
    + exists (Suffix suffix). split; [done|]. apply suffix_matches. by exists labels.
Qed.

Lemma endpoint_parse_reads lib url request :
  endpoint_parse lib url = Ok request ↔ ∃ parsed raw, reads lib url request parsed raw.
Proof.
  unfold endpoint_parse. split.
  - destruct (url_parse lib url) as [parsed|] eqn:Eu; [|done]. intros (scheme & Hs & H)%bind_Ok.
    case_bool_decide as Hu; [|done]. cbn [negb orb] in H. case_bool_decide as Hp; [done|].
    apply bind_Ok in H as (raw & Hr & H). destruct (url_host_str lib parsed) as [raw'|] eqn:Eh; [|done]. injection Hr as ->.
    case_decide as Hl; [done|]. injection H as <-. exists parsed, raw.
    split; cbn; [done| |done| |done|by intros ->|done|by destruct (url_port lib parsed), scheme].
    + destruct (decide _) as [->|_] in Hs; [by injection Hs as <-|].
      destruct (decide _) as [->|_] in Hs; [by injection Hs as <-|done].
    + by destruct (url_password lib parsed); [destruct Hp|].
  - intros (parsed & raw & [-> H2 H3 H4 H5 H6 H7 H8]). apply bind_Ok. exists (er_scheme request). split.
    + rewrite H2. by destruct (er_scheme request).
    + rewrite H3, H4, H5. cbn. rewrite decide_False by (intros Hl; by apply fmap_nil_inv in Hl).
      destruct request as [s h p]. cbn in *. subst. by destruct (url_port lib parsed), s.
Qed.

Lemma resolve_request_spec policy lookup now request e :
  (∀ host l, lookup host = Ok l → Forall valid_ip l) →
  resolve policy lookup now request = Ok e ↔
  admitted policy lookup request (re_addresses e) ∧
  e = mkEndpoint (er_scheme request) (er_host request) (er_port request) (re_addresses e) now.
Proof.
  intros Hvalid. unfold resolve.
  destruct (bool_decide (er_scheme request = Http) && negb (allow_plain_http policy)) eqn:Es.
  { split; [done|]. intros [Ha _]. apply andb_true_iff in Es as [Es Ep]. apply bool_decide_eq_true in Es.
    rewrite (ad_scheme _ _ _ _ Ha Es) in Ep. done. }
  assert (Hs : er_scheme request = Http → allow_plain_http policy = true).
  { intros Hh. rewrite bool_decide_true in Es by done. by destruct (allow_plain_http policy). }
  destruct (permits_host policy (er_host request)) eqn:Eh; cbn [negb]; cycle 1.
  { split; [done|]. intros [Ha _]. apply (ad_host _ _ _ _), permits_host_true in Ha. congruence. }
  apply permits_host_true in Eh.
  set (src := match ip_from_str (u8 <$> er_host request) with Some literal => _ | None => _ end).
  assert (Hsrc : ∀ l, src = Ok l ↔ match ip_from_str (u8 <$> er_host request) with
              | Some literal => l = [literal] | None => lookup (er_host request) = Ok l end).
  { intros l. subst src. destruct (ip_from_str _); [naive_solver|]. destruct (lookup (er_host request)); naive_solver. }
  assert (Hval : ∀ l, src = Ok l → Forall valid_ip l).
  { intros l Hl%Hsrc. destruct (ip_from_str (u8 <$> er_host request)) eqn:E; [|by eapply Hvalid].
    subst l. constructor; [by eapply ip_from_str_valid|constructor]. }
  assert (Hpub : ∀ l, src = Ok l → Forall (λ a, classify a = None) l ↔ ∀ a, a ∈ l → ¬ Refused a).
  { intros l Hl%Hval. rewrite Forall_forall in *. split; intros Hall a Ha.
    - apply classify_refused; auto.
    - apply (classify_refused a); auto. }
  clearbody src. split.
  - intros (l & Hl & Hrest)%bind_Ok. case_decide as Hne; [done|]. apply bind_Ok in Hrest as (u & Hchk & [= <-]). cbn.
    split; [|done]. split; [done|done|by apply Hsrc|done|]. intros Hp. rewrite Hp in Hchk.
    apply check_addresses_Ok in Hchk. by apply Hpub.
  - intros [[_ _ Had Hne Hp] ->]. cbn in *. apply Hsrc in Had. rewrite Had. cbn. rewrite decide_False by done.
    destruct (allow_private_addresses policy); [done|].
    rewrite (proj2 (check_addresses_Ok (er_host request) (re_addresses e) tt)); [done|]. apply Hpub; [done|auto].
Qed.

(** C31. A destination is handed out exactly when the URL library reads the URL, its
    scheme is https or, where the policy allows it, http, it carries no user name and
    no password, its host, taken in lower case, is not empty and is on the allowlist
    or at a label boundary below a suffix of it, and there is at least one address,
    all of them outside the refused networks (unless the policy admits private
    addresses). The endpoint carries exactly those addresses, with that scheme, host
    and port: the literal itself when the host reads as a bare address, otherwise what
    the lookup returned (an IPv6 literal in brackets counts as a name: Example
    bracketed_literal_is_looked_up). The URL library is arbitrary, and so is the lookup
    as long as what it returns are addresses. *)
Theorem egress_exact lib policy lookup now url e :
  (∀ host l, lookup host = Ok l → Forall valid_ip l) →
  resolve_url lib policy lookup now url = Ok e ↔
  ∃ request parsed raw, reads lib url request parsed raw ∧ admitted policy lookup request (re_addresses e) ∧
    e = mkEndpoint (er_scheme request) (er_host request) (er_port request) (re_addresses e) now.
Proof.
  intros Hvalid. unfold resolve_url. rewrite bind_Ok. setoid_rewrite (λ r, resolve_request_spec policy lookup now r e Hvalid).
  setoid_rewrite endpoint_parse_reads. naive_solver.
Qed.

(** ** Against the fetch policy of [claw-security] *)

(** A refused network lies inside a special-use one. *)
Lemma refused_v4_special x m :
  m ∈ REFUSED_V4 → Ssrf.in_net 32 x m = true → ∃ k, k ∈ Ssrf.SPECIAL_V4 ∧ Ssrf.in_net 32 x k = true.
Proof.
  intros Hm Hin.
  destruct (decide (m ∈ Ssrf.SPECIAL_V4)) as [|Hno]; [by exists m|].
  assert (Hcase : m = Ssrf.net4 0 0 0 0 32 ∨ m ∈ [Ssrf.net4 255 255 255 255 32; Ssrf.net4 224 0 0 0 4; Ssrf.net4 240 0 0 0 4]).
  { unfold REFUSED_V4, Ssrf.SPECIAL_V4 in *. rewrite !elem_of_cons in *. naive_solver. }
  destruct Hcase as [->|Hc].
  - exists (Ssrf.net4 0 0 0 0 8). split; [unfold Ssrf.SPECIAL_V4; left|].
    revert Hin. do 2 Ssrf.net_bounds. lia.
  - exists (Ssrf.net4 224 0 0 0 3). split; [unfold Ssrf.SPECIAL_V4; rewrite !elem_of_cons; naive_solver|].
    rewrite !elem_of_cons, elem_of_nil in Hc. destruct Hc as [->|[->|[->|[]]]]; revert Hin; do 2 Ssrf.net_bounds; lia.
Qed.

(** The guard refuses nothing that policy lets through. *)
Lemma refused_not_public a : Refused a → ¬ Ssrf.Public a.
Proof.
  destruct a as [a|a]; intros (m & Hm & Hin) Hpub; cbn [Ssrf.Public] in Hpub.
  - destruct (refused_v4_special _ _ Hm Hin) as (k & Hk & Hin'). by rewrite (Hpub k Hk) in Hin'.
  - assert (Hs : m ∈ Ssrf.SPECIAL_V6) by (unfold REFUSED_V6, Ssrf.SPECIAL_V6 in *; rewrite !elem_of_cons in *; naive_solver).
    by rewrite (Hpub m Hs) in Hin.
Qed.

(** Addresses that policy refuses and this guard calls publicly routable: "this
    network", benchmarking, documentation, NAT64 and 6to4 around a loopback address. *)
Definition gap : list IpAddr :=
  [V4 (mkV4 0 1 2 3); V4 (mkV4 198 18 0 1); V4 (mkV4 192 0 2 1);
   V6 (mkV6 0x64 0xff9b 0 0 0 0 0x7f00 1); V6 (mkV6 0x2002 0x7f00 1 0 0 0 0 1)].

Example guard_is_weaker :
  Forall (λ a, classify a = None ∧ Ssrf.validate_public_address a = Err Ssrf.BlockedAddress) gap.
Proof. repeat constructor. Qed.

(** ** IPv6 literals

    The URL crate writes an IPv6 host in brackets, which [IpAddr::from_str] does not
    read, so such a host goes to the resolver. *)
Example bracketed_literal_is_looked_up :
  let request := mkEndpointRequest Https (lit "[2606:4700::1]") 443 in
  let policy := allow_host deny_all (pattern_parse (lit "[2606:4700::1]")) in
  resolve policy (λ _, Err (mkSubsystemError (lit "egress") Unavailable [])) 0 request =
  Err (LookupFailed (lit "[2606:4700::1]") (lit "egress: unavailable")).
Proof. vm_compute. reflexivity. Qed.

(** A parser that reads "scheme://host" and nothing more. *)
Definition plain_urls : UrlParser := {|
  Url := bytes * bytes;
  url_parse := λ s, match find_str (lit "://") s with Some (a, b) => Ok (a, b) | None => Err (lit "relative URL without a base") end;
  url_scheme := fst;
  url_username := λ _, [];
  url_password := λ _, None;
  url_host_str := λ u, Some u.2;
  url_port := λ _, None |}.

Definition demo_lookup (_ : bytes) : result SubsystemError (list IpAddr) := Ok [V4 (mkV4 93 184 216 34)].

Definition demo_policy : EgressPolicy := allow_host deny_all (pattern_parse (lit "*.example.com")).

Lemma egress_exact_witness :
  resolve_url plain_urls demo_policy demo_lookup 7 (lit "https://api.example.com") =
    Ok (mkEndpoint Https (lit "api.example.com") 443 [V4 (mkV4 93 184 216 34)] 7).
Proof.
  apply (egress_exact plain_urls demo_policy demo_lookup 7 (lit "https://api.example.com")).
  - intros host l [= <-]. constructor; [valid_addr|constructor].
  - exists (mkEndpointRequest Https (lit "api.example.com") 443), (lit "https", lit "api.example.com"), (lit "api.example.com").
    split; [split; try (vm_compute; reflexivity); discriminate|]. split; [|reflexivity].
    split; [discriminate| |reflexivity|discriminate|].
    + right. exists (lit "example.com"), (lit "api"). split; [left|reflexivity].
    + intros _ a Ha. apply list_elem_of_singleton in Ha as ->. apply classify_refused; [valid_addr|reflexivity].
Defined.

End CompositionEgress.
