(* ===== verification/CompositionService.v ===== *)
(** * The session service

    Models [crates/claw-application/src/composition/service.rs] over the values of
    [session.rs] and the port traits of [ports.rs]: opening a session, running one
    turn from settings to durable record, the capabilities handed to the engine,
    and the gateway's two methods.

    Every port is an arm of [Call] with its reply type, answered by an oracle: the
    [i]-th call returns, or the turn's future is dropped there. Reading the epoch
    gate and the clock are calls too, since both move while the service waits.
    The engine is third-party to the service: [EngineProg] is any finite
    program over the capabilities and the event sink it is given, one call at a
    time. An engine that runs two capability calls concurrently is not modelled. *)

From S2P Require Import Prelude Composition NetAddr CompositionAuthority CompositionEgress.

Module CompositionService.
Import Net Composition CompositionAuthority CompositionEgress.

(** ** Values *)

Record ResolvedSession := mkSession { rs_id : bytes; rs_principal : Principal; rs_revision : Z; rs_opened_at : Z }.

Record SessionRecord := mkSessionRecord { sr_id : bytes; sr_revision : Z; sr_turns : Z }.

Record AssembledContext := mkContext { ac_items : list bytes; ac_truncated : bool }.

Record ProviderBinding := mkBinding {
  pb_name : bytes;
  pb_origin : ResolvedEndpoint;
  pb_credential : bytes;
  pb_models : list bytes;
}.

Definition offers (b : ProviderBinding) (model : bytes) : bool := bool_decide (model ∈ pb_models b).

Record CredentialLease := mkLease { cl_name : bytes; cl_origin : ResolvedEndpoint; cl_secret : bytes }.

Definition is_bound_to (lease : CredentialLease) (endpoint : ResolvedEndpoint) : bool :=
  bool_decide (re_scheme (cl_origin lease) = re_scheme endpoint)
  && bool_decide (re_host (cl_origin lease) = re_host endpoint)
  && (re_port (cl_origin lease) =? re_port endpoint)
  && bool_decide (re_addresses (cl_origin lease) = re_addresses endpoint).

Record ProviderCall := mkProviderCall {
  pc_binding : ProviderBinding;
  pc_credential : CredentialLease;
  pc_model : bytes;
  pc_context : AssembledContext;
  pc_prompt : bytes;
}.

Record ToolRequest := mkToolRequest { tq_name : bytes; tq_arguments : bytes }.
Record ProviderReply := mkReply { rp_text : bytes; rp_requested_tools : list ToolRequest }.
Record ToolBinding := mkToolBinding { tb_name : bytes; tb_description : bytes; tb_required : CapabilitySet }.
Record ToolCall := mkToolCall { tc_binding : ToolBinding; tc_session : ResolvedSession; tc_arguments : bytes }.
Record ToolOutcome := mkToolOutcome { to_tool : bytes; to_output : bytes; to_failed : bool }.
Record CredentialRequest := mkCredentialRequest { cq_name : bytes; cq_origin : ResolvedEndpoint }.

Record TurnRequest := mkTurnRequest {
  tr_session : ResolvedSession;
  tr_prompt : bytes;
  tr_binding : ProviderBinding;
  tr_model : bytes;
  tr_context : AssembledContext;
  tr_deadline : Z;
}.

Record TurnSummary := mkSummary { ts_response : bytes; ts_provider : bytes; ts_model : bytes; ts_tool_calls : Z }.

Inductive TurnEvent :=
| Started (sequence : Z)
| AssistantDelta (sequence : Z) (text : bytes)
| ToolCompleted (sequence : Z) (outcome : ToolOutcome)
| Finished (sequence : Z) (summary : TurnSummary)
| TurnFailed (sequence : Z) (reason : bytes).

Record TurnRecord := mkTurnRecord { td_session : bytes; td_ordinal : Z; td_prompt : bytes; td_response : bytes }.

Inductive Severity := SevDebug | SevInfo | SevWarn | SevError.
Record ObservedEvent := mkObserved { oe_subsystem : SubsystemId; oe_severity : Severity; oe_message : bytes; oe_at : Z }.

Record RuntimeSettings := mkSettings {
  listen : list (IpAddr * Z);
  default_provider : bytes;
  default_model : bytes;
  max_concurrent_turns : Z;
  turn_deadline : Z;
  authorization_ttl : Z;
}.

Record GatewayRequest := mkGatewayRequest { gq_method : bytes; gq_principal : Principal; gq_session : bytes; gq_payload : bytes }.
Record GatewayResponse := mkGatewayResponse { gp_body : bytes; gp_events : Z }.

Record TurnReport := mkTurnReport {
  rep_summary : TurnSummary;
  rep_revision : Z;
  rep_provider_calls : Z;
  rep_tool_calls : Z;
  rep_events : Z;
}.

(** ** Ports *)

Inductive Call :=
| ReadGate
| ReadClock
| Authorize (request : ActionRequest) (now : Z)
| Settings
| LoadSession (id : bytes)
| ResolveProvider (provider model : bytes)
| Assemble (session : ResolvedSession) (prompt : bytes) (budget : Z)
| Catalogue (session : ResolvedSession)
| Lease (g : Grant CredentialRequest)
| Send (g : Grant ProviderCall)
| Invoke (g : Grant ToolCall)
| RunEngine (g : Grant TurnRequest)
| Emit (event : TurnEvent)
| BeginTransaction
| UpsertSession (record : SessionRecord)
| AppendTurn (record : TurnRecord)
| Commit
| Rollback
| Observe (event : ObservedEvent).

Definition reply (c : Call) : Type :=
  match c with
  | ReadGate | ReadClock => Z
  | Authorize _ _ => result Denial Authorization
  | Settings => result SubsystemError RuntimeSettings
  | LoadSession _ => result SubsystemError (option SessionRecord)
  | ResolveProvider _ _ => result SubsystemError ProviderBinding
  | Assemble _ _ _ => result SubsystemError AssembledContext
  | Catalogue _ => result SubsystemError (list ToolBinding)
  | Lease _ => result SubsystemError CredentialLease
  | Send _ => result SubsystemError ProviderReply
  | Invoke _ => result SubsystemError ToolOutcome
  | BeginTransaction | UpsertSession _ | AppendTurn _ | Commit | Rollback => result SubsystemError unit
  | RunEngine _ | Emit _ | Observe _ => unit
  end.

(** ** The monad *)

(** The issuer's serial, the counters of the turn and the calls made. *)
Record World := mkWorld {
  serial : Z;
  provider_calls : Z;
  tool_calls : Z;
  emitted : Z;
  log : list Call;
}.

Inductive Outcome (A : Type) := Done (a : A) | Dropped.
Arguments Done {A} a.
Arguments Dropped {A}.

Definition M (A : Type) : Type := World → Outcome A * World.

#[export] Instance M_ret : MRet M := λ A a w, (Done a, w).
#[export] Instance M_bind : MBind M := λ A B k m w,
  match m w with
  | (Done a, w') => k a w'
  | (Dropped, w') => (Dropped, w')
  end.

(** [c?] *)
Definition try {E A B} (m : M (result E A)) (k : A → M (result E B)) : M (result E B) :=
  r ← m;
  match r with
  | Ok a => k a
  | Err e => mret (Err e)
  end.

Notation "x <-? m ; k" := (try m (λ x, k)) (at level 20, m at level 100, k at level 200, right associativity).

Definition map_err {E F A} (f : E → F) (m : M (result E A)) : M (result F A) :=
  r ← m;
  mret (match r with Ok a => Ok a | Err e => Err (f e) end).

Definition modify (f : World → World) : M unit := λ w, (Done tt, f w).

Definition add_provider_call (w : World) : World :=
  mkWorld (serial w) (wrap_add u64_max (provider_calls w) 1) (tool_calls w) (emitted w) (log w).
Definition add_tool_call (w : World) : World :=
  mkWorld (serial w) (provider_calls w) (wrap_add u64_max (tool_calls w) 1) (emitted w) (log w).
Definition add_event (w : World) : World :=
  mkWorld (serial w) (provider_calls w) (tool_calls w) (wrap_add u64_max (emitted w) 1) (log w).
Definition with_serial (s : Z) (w : World) : World :=
  mkWorld s (provider_calls w) (tool_calls w) (emitted w) (log w).
Definition fresh_turn (w : World) : World := mkWorld (serial w) 0 0 0 (log w).

(** What the engine is given besides its grant. *)
Record TurnCapabilities := mkCapabilities {
  cap_principal : Principal;
  cap_session : ResolvedSession;
  cap_binding : ProviderBinding;
  cap_model : bytes;
  cap_catalogue : list ToolBinding;
}.

(** An engine: what it does with the capabilities until it returns. *)
Inductive EngineProg :=
| EngineReturn (r : result SubsystemError TurnSummary)
| EngineRedeem (k : result Denial TurnRequest → EngineProg)
| EngineProvider (prompt : bytes) (context : AssembledContext) (k : result SubsystemError ProviderReply → EngineProg)
| EngineTool (name arguments : bytes) (k : result SubsystemError ToolOutcome → EngineProg)
| EngineEmit (event : TurnEvent) (k : EngineProg).

Definition SECRETS : SubsystemId := lit "secrets".
Definition PROVIDERS : SubsystemId := lit "providers".
Definition TOOLS : SubsystemId := lit "tools".
Definition PERSISTENCE : SubsystemId := lit "persistence".
Definition ENGINE : SubsystemId := lit "engine".

Definition METHOD_SESSION_PROMPT : bytes := lit "session.prompt".
Definition METHOD_SESSION_DESCRIBE : bytes := lit "session.describe".

Section Service.
Context (answer : nat → ∀ c : Call, option (reply c)).
Context (engine : Grant TurnRequest → TurnCapabilities → EngineProg).
Context (max_ttl context_budget : Z).

Definition call (c : Call) : M (reply c) := λ w,
  let w' := mkWorld (serial w) (provider_calls w) (tool_calls w) (emitted w) (log w ++ [c]) in
  match answer (length (log w)) c with
  | Some r => (Done r, w')
  | None => (Dropped, w')
  end.

(** [issue] after its await. *)
Definition mint {T} (gate epoch minted_at : Z) (request : ActionRequest) (subject : T) (authorization : Authorization)
    : M (result Denial (Grant T)) := λ w,
  match issue_finish (mkIssuer max_ttl (serial w)) gate epoch minted_at request subject (Ok authorization) with
  | Ok (g, i) => (Done (Ok g), with_serial (next_serial i) w)
  | Err d => (Done (Err d), w)
  end.

(** [GrantIssuer::issue] *)
Definition issue {T} (request : ActionRequest) (subject : T) : M (result Denial (Grant T)) :=
  gate ← call ReadGate;
  match gate_current gate with
  | None => mret (Err NotRunning)
  | Some epoch =>
      minted_at ← call ReadClock;
      decision ← call (Authorize request minted_at);
      match decision with
      | Err d => mret (Err d)
      | Ok authorization =>
          gate ← call ReadGate;
          mint gate epoch minted_at request subject authorization
      end
  end.

(** [Grant::redeem] *)
Definition redeem_grant {T} (g : Grant T) : M (result Denial T) :=
  now ← call ReadClock;
  gate ← call ReadGate;
  mret (redeem gate now g).

(** ** [TurnCapabilities] *)

Definition cap_request (c : TurnCapabilities) (action : Action) : ActionRequest :=
  in_session (mkRequest ENGINE (cap_principal c) action None) (rs_id (cap_session c)).

Definition call_provider (c : TurnCapabilities) (prompt : bytes) (context : AssembledContext)
    : M (result SubsystemError ProviderReply) :=
  let binding := cap_binding c in
  credential <-? map_err (denied SECRETS) (issue (cap_request c (ReadCredential (pb_credential binding)))
                                             (mkCredentialRequest (pb_credential binding) (pb_origin binding)));
  lease <-? call (Lease credential);
  if negb (is_bound_to lease (pb_origin binding)) then
    mret (Err (mkSubsystemError SECRETS Invalid
      (lit "credential " ++ cl_name lease ++ lit " is bound to " ++ authority (cl_origin lease) ++
       lit " but the call targets " ++ authority (pb_origin binding))))
  else
    grant <-? map_err (denied PROVIDERS) (issue (cap_request c (CallProvider (pb_name binding) (cap_model c)))
                                            (mkProviderCall binding lease (cap_model c) context prompt));
    modify add_provider_call;;
    call (Send grant).

Definition call_tool (c : TurnCapabilities) (name arguments : bytes) : M (result SubsystemError ToolOutcome) :=
  match List.find (λ candidate, bool_decide (tb_name candidate = name)) (cap_catalogue c) with
  | None => mret (Err (mkSubsystemError TOOLS NotFound (name ++ lit " is not available to this turn")))
  | Some binding =>
      grant <-? map_err (denied TOOLS) (issue (cap_request c (InvokeTool (tb_name binding) (tb_required binding)))
                                          (mkToolCall binding (cap_session c) arguments));
      modify add_tool_call;;
      call (Invoke grant)
  end.

(** [CountingSink::emit] *)
Definition emit (event : TurnEvent) : M unit :=
  modify add_event;;
  call (Emit event).

(** The engine's run over its capabilities. *)
Fixpoint run_engine (grant : Grant TurnRequest) (c : TurnCapabilities) (p : EngineProg) : M (result SubsystemError TurnSummary) :=
  match p with
  | EngineReturn r => mret r
  | EngineRedeem k => r ← redeem_grant grant; run_engine grant c (k r)
  | EngineProvider prompt context k => r ← call_provider c prompt context; run_engine grant c (k r)
  | EngineTool name arguments k => r ← call_tool c name arguments; run_engine grant c (k r)
  | EngineEmit event k => emit event;; run_engine grant c k
  end.

(** ** [SessionService] *)

Definition service_request (principal : Principal) (action : Action) (session : bytes) : ActionRequest :=
  in_session (mkRequest ENGINE principal action None) session.

Definition open_session (principal : Principal) (id : bytes) : M (result SubsystemError ResolvedSession) :=
  stored <-? call (LoadSession id);
  now ← call ReadClock;
  let candidate := mkSession id principal (from_option sr_revision 0 stored) now in
  grant <-? map_err (denied ENGINE) (issue (service_request principal OpenSession id) candidate);
  map_err (denied ENGINE) (redeem_grant grant).

Definition record_turn (principal : Principal) (session : ResolvedSession) (prompt : bytes) (summary : TurnSummary)
    : M (result SubsystemError Z) :=
  grant <-? map_err (denied PERSISTENCE) (issue (service_request principal RecordTurn (rs_id session)) tt);
  _ <-? map_err (denied PERSISTENCE) (redeem_grant grant);
  let revision := wrap_add u64_max (rs_revision session) 1 in
  _ <-? call BeginTransaction;
  staged ← call (UpsertSession (mkSessionRecord (rs_id session) revision 1));
  match staged with
  | Err error => call Rollback;; mret (Err error)
  | Ok _ =>
      staged ← call (AppendTurn (mkTurnRecord (rs_id session) revision prompt (ts_response summary)));
      match staged with
      | Err error => call Rollback;; mret (Err error)
      | Ok _ =>
          _ <-? call Commit;
          mret (Ok revision)
      end
  end.

Definition turn_report (summary : TurnSummary) (revision : Z) : M (result SubsystemError TurnReport) := λ w,
  (Done (Ok (mkTurnReport summary revision (provider_calls w) (tool_calls w) (emitted w))), w).

Definition run_turn (principal : Principal) (id prompt : bytes) : M (result SubsystemError TurnReport) :=
  settings <-? call Settings;
  session <-? open_session principal id;
  binding <-? call (ResolveProvider (default_provider settings) (default_model settings));
  let model := default_model settings in
  if negb (offers binding model) then
    mret (Err (mkSubsystemError PROVIDERS Invalid (pb_name binding ++ lit " does not offer " ++ model)))
  else
    assembled <-? call (Assemble session prompt context_budget);
    catalogue <-? call (Catalogue session);
    now ← call ReadClock;
    match instant_checked_add now (turn_deadline settings) with
    | None => mret (Err (mkSubsystemError ENGINE Internal (lit "the turn deadline overflowed the monotonic timeline")))
    | Some deadline =>
        let capabilities := mkCapabilities principal session binding model catalogue in
        modify fresh_turn;;
        grant <-? map_err (denied ENGINE) (issue (service_request principal SubmitTurn id)
                                             (mkTurnRequest session prompt binding model assembled deadline));
        call (RunEngine grant);;
        outcome ← run_engine grant capabilities (engine grant capabilities);
        match outcome with
        | Err error =>
            at_ ← call ReadClock;
            call (Observe (mkObserved ENGINE SevError (lit "turn in " ++ id ++ lit " failed: " ++ subsystem_error_display error) at_));;
            mret (Err error)
        | Ok summary =>
            revision <-? record_turn principal session prompt summary;
            at_ ← call ReadClock;
            call (Observe (mkObserved ENGINE SevInfo (lit "turn in " ++ id ++ lit " completed at revision " ++ decimal revision) at_));;
            turn_report summary revision
        end
    end.

Definition describe (principal : Principal) (id : bytes) : M (result SubsystemError GatewayResponse) :=
  session <-? open_session principal id;
  stored <-? call (LoadSession id);
  let turns := from_option sr_turns 0 stored in
  mret (Ok (mkGatewayResponse
    (rs_id session ++ lit " revision " ++ decimal (rs_revision session) ++ lit " turns " ++ decimal turns) 0)).

(** [GatewayDispatch::dispatch] *)
Definition dispatch (request : GatewayRequest) : M (result SubsystemError GatewayResponse) :=
  if decide (gq_method request = METHOD_SESSION_PROMPT) then
    report <-? run_turn (gq_principal request) (gq_session request) (gq_payload request);
    mret (Ok (mkGatewayResponse (ts_response (rep_summary report)) (rep_events report)))
  else if decide (gq_method request = METHOD_SESSION_DESCRIBE) then
    describe (gq_principal request) (gq_session request)
  else mret (Err (mkSubsystemError ENGINE NotFound (lit "no such method: " ++ gq_method request))).

End Service.

Definition world_new : World := mkWorld 1 0 0 0 [].

(** ** Specification *)

(** Calls that act for the principal: they carry a grant. *)
Definition is_privileged (c : Call) : bool :=
  match c with Lease _ | Send _ | Invoke _ | RunEngine _ => true | _ => false end.

(** Calls on the transaction. *)
Definition is_store (c : Call) : bool :=
  match c with BeginTransaction | UpsertSession _ | AppendTurn _ | Commit | Rollback => true | _ => false end.

(** The grant was minted for [request], allowed by [a] at [t], in the epoch [gate] still holds. *)
Definition minted_for {T} (max_ttl : Z) (request : ActionRequest) (t : Z) (a : Authorization) (gate : Z) (g : Grant T) : Prop :=
  g_action g = action_display (ar_action request) ∧ g_minted_at g = t ∧ g_ttl g = Z.min (au_ttl a) max_ttl ∧
  gate_current gate = Some (g_epoch g).

(** The request names exactly what the call does: the credential that is leased, the
    provider and model that are called (with a credential bound to the address the
    call goes to), the tool that runs with the capabilities it needs, the turn. *)
Definition action_fits (c : Call) (action : Action) : Prop :=
  match c with
  | Lease g => action = ReadCredential (cq_name (g_subject g))
  | Send g => action = CallProvider (pb_name (pc_binding (g_subject g))) (pc_model (g_subject g)) ∧
              is_bound_to (pc_credential (g_subject g)) (pb_origin (pc_binding (g_subject g))) = true
  | Invoke g => action = InvokeTool (tb_name (tc_binding (g_subject g))) (tb_required (tc_binding (g_subject g)))
  | RunEngine g => action = SubmitTurn
  | _ => True
  end.

Definition grant_fits (max_ttl : Z) (request : ActionRequest) (t : Z) (a : Authorization) (gate : Z) (c : Call) : Prop :=
  match c with
  | Lease g => minted_for max_ttl request t a gate g
  | Send g => minted_for max_ttl request t a gate g
  | Invoke g => minted_for max_ttl request t a gate g
  | RunEngine g => minted_for max_ttl request t a gate g
  | _ => True
  end.

(** Every privileged call comes right after a decision taken for it. *)
Definition authorized_log (answer : nat → ∀ c : Call, option (reply c)) (max_ttl : Z) (principal : Principal) (id : bytes)
    (l : list Call) : Prop :=
  ∀ before c after, l = before ++ c :: after → is_privileged c = true →
  ∃ earlier request t a gate,
    before = earlier ++ [Authorize request t; ReadGate] ∧
    answer (length earlier) (Authorize request t) = Some (Ok a) ∧ answer (S (length earlier)) ReadGate = Some gate ∧
    ar_principal request = principal ∧ ar_session request = Some id ∧
    action_fits c (ar_action request) ∧ grant_fits max_ttl request t a gate c.

(** What one turn writes: its session at the next revision, and the turn under it. *)
Definition staging (id : bytes) (revision : Z) (prompt response : bytes) : list Call :=
  [BeginTransaction; UpsertSession (mkSessionRecord id revision 1); AppendTurn (mkTurnRecord id revision prompt response)].

(** A commit comes right after a complete staging, the first store calls of the turn. *)
Definition commits_staged (id prompt : bytes) (l : list Call) : Prop :=
  ∀ i, l !! i = Some Commit →
  ∃ before revision response, take i l = before ++ staging id revision prompt response ∧
    Forall (λ c, is_store c = false) before.

(** No commit succeeded. *)
Definition nothing_committed (answer : nat → ∀ c : Call, option (reply c)) (l : list Call) : Prop :=
  ∀ i, l !! i = Some Commit → ∃ e, answer i Commit = Some (Err e).

(** * Proofs *)

Definition twp {A} (m : M A) (Q : A → World → Prop) (D : World → Prop) (w : World) : Prop :=
  match m w with
  | (Done a, w') => Q a w'
  | (Dropped, w') => D w'
  end.

Lemma twp_bind {A B} (m : M A) (k : A → M B) Q D w : twp m (λ a, twp (k a) Q D) D w → twp (m ≫= k) Q D w.
Proof. unfold twp, mbind, M_bind. by destruct (m w) as [[a|] w']. Qed.

Lemma twp_mono {A} (m : M A) (Q Q' : A → World → Prop) (D D' : World → Prop) w :
  twp m Q D w → (∀ a w', Q a w' → Q' a w') → (∀ w', D w' → D' w') → twp m Q' D' w.
Proof. unfold twp. destruct (m w) as [[a|] w']; auto. Qed.

Lemma twp_ret {A} (a : A) (Q : A → World → Prop) D w : Q a w → twp (mret a) Q D w.
Proof. done. Qed.

Lemma twp_modify f (Q : unit → World → Prop) D w : Q tt (f w) → twp (modify f) Q D w.
Proof. done. Qed.

Lemma twp_try {E A B} (m : M (result E A)) (k : A → M (result E B)) Q D w :
  twp m (λ r, match r with Ok a => twp (k a) Q D | Err e => Q (Err e) end) D w → twp (try m k) Q D w.
Proof. intros Hm. unfold try. apply twp_bind. eapply twp_mono; [exact Hm| |done]. by intros [a|e] w'. Qed.

Lemma twp_map_err {E F A} (f : E → F) (m : M (result E A)) (Q : result F A → World → Prop) D w :
  twp m (λ r, Q (match r with Ok a => Ok a | Err e => Err (f e) end)) D w → twp (map_err f m) Q D w.
Proof. intros Hm. unfold map_err. by apply twp_bind. Qed.

Section Proofs.
Context (answer : nat → ∀ c : Call, option (reply c)).
Context (engine : Grant TurnRequest → TurnCapabilities → EngineProg).
Context (max_ttl context_budget : Z) (principal : Principal) (id : bytes).

Definition logged (c : Call) (w : World) : World :=
  mkWorld (serial w) (provider_calls w) (tool_calls w) (emitted w) (log w ++ [c]).

Lemma log_logged c w : log (logged c w) = log w ++ [c].
Proof. done. Qed.

Lemma twp_call c (Q : reply c → World → Prop) (D : World → Prop) w :
  (∀ r, answer (length (log w)) c = Some r → Q r (logged c w)) → (answer (length (log w)) c = None → D (logged c w)) →
  twp (call answer c) Q D w.
Proof. intros HQ HD. unfold twp, call. destruct (answer _ _) as [r|]; auto. Qed.

Abbreviation auth_log := (authorized_log answer max_ttl principal id).

Lemma auth_plain c l : is_privileged c = false → auth_log l → auth_log (l ++ [c]).
Proof.
  intros Hc Hl before c' after [(_ & _ & <-)|(b' & -> & Hh)]%snoc_split Hp; [congruence|]. by eapply Hl.
Qed.

(** The log ends with a decision for [request]. *)
Definition just_allowed (request : ActionRequest) (t : Z) (a : Authorization) (gate : Z) (l : list Call) : Prop :=
  ∃ earlier, l = earlier ++ [Authorize request t; ReadGate] ∧ answer (length earlier) (Authorize request t) = Some (Ok a) ∧
    answer (S (length earlier)) ReadGate = Some gate.

Lemma auth_privileged c l request t a gate :
  just_allowed request t a gate l → ar_principal request = principal → ar_session request = Some id →
  action_fits c (ar_action request) → grant_fits max_ttl request t a gate c →
  auth_log l → auth_log (l ++ [c]).
Proof.
  intros (earlier & Hl & Ha & Hgt) Hpr Hid Hact Hg Hauth before c' after [(_ & <- & <-)|(b' & -> & Hh)]%snoc_split Hp;
    [|by eapply Hauth].
  exists earlier, request, t, a, gate. done.
Qed.

(** What a dropped or finished step may have done before the transaction. *)
Definition quiet (w : World) : Prop := auth_log (log w) ∧ Forall (λ c, is_store c = false) (log w).

Lemma quiet_plain c w : is_privileged c = false → is_store c = false → quiet w → quiet (logged c w).
Proof. intros Hc Hs [Ha Hst]. split; [by apply auth_plain|]. apply Forall_app. split; [done|]. by constructor. Qed.

(** [m] keeps to quiet calls. *)
Definition keeps {A} (m : M A) : Prop := ∀ w, quiet w → twp m (λ _, quiet) quiet w.

Lemma quiet_ret {A} (a : A) : keeps (mret a).
Proof. by intros w Hw. Qed.

Lemma quiet_bind {A B} (m : M A) (k : A → M B) : keeps m → (∀ a, keeps (k a)) → keeps (m ≫= k).
Proof. intros Hm Hk w Hw. apply twp_bind. eapply twp_mono; [by apply Hm| |done]. intros a w' Hw'. by apply Hk. Qed.

Lemma keeps_try {E A B} (m : M (result E A)) (k : A → M (result E B)) : keeps m → (∀ a, keeps (k a)) → keeps (try m k).
Proof. intros Hm Hk. apply quiet_bind; [done|]. intros [a|e]; [done|apply quiet_ret]. Qed.

Lemma keeps_map_err {E F A} (f : E → F) (m : M (result E A)) : keeps m → keeps (map_err f m).
Proof. intros Hm. apply quiet_bind; [done|]. intros. apply quiet_ret. Qed.

Lemma keeps_call c : is_privileged c = false → is_store c = false → keeps (call answer c).
Proof. intros Hp Hs w Hw. apply twp_call; intros; by apply quiet_plain. Qed.

Lemma keeps_modify f : (∀ w, log (f w) = log w) → keeps (modify f).
Proof. intros Hf w Hw. apply twp_modify. unfold quiet. by rewrite Hf. Qed.

(** ** Issuing *)

Lemma issue_twp {T} request (subject : T) w :
  quiet w →
  twp (issue answer max_ttl request subject)
     (λ r w', quiet w' ∧ match r with
        | Err _ => True
        | Ok g => g_subject g = subject ∧ ∃ t a gate, just_allowed request t a gate (log w') ∧ minted_for max_ttl request t a gate g
        end) quiet w.
Proof.
  intros Hw. unfold issue. apply twp_bind. refine (twp_call ReadGate _ _ _ _ _); [intros gate _|by intros; apply quiet_plain].
  assert (Hw1 : quiet (logged ReadGate w)) by (by apply quiet_plain).
  destruct (gate_current gate) as [epoch|]; [|by apply twp_ret].
  apply twp_bind. refine (twp_call ReadClock _ _ _ _ _); [intros t _|by intros; apply quiet_plain].
  set (w2 := logged ReadClock (logged ReadGate w)). assert (Hw2 : quiet w2) by (by apply quiet_plain).
  apply twp_bind. refine (twp_call (Authorize request t) _ _ _ _ _); [intros decision Hans|by intros; apply quiet_plain].
  assert (Hw3 : quiet (logged (Authorize request t) w2)) by (by apply quiet_plain).
  destruct decision as [a|d]; [|by apply twp_ret].
  apply twp_bind. refine (twp_call ReadGate _ _ _ _ _); [intros gate' Hgt|by intros; apply quiet_plain].
  assert (Hw4 : quiet (logged ReadGate (logged (Authorize request t) w2))) by (by apply quiet_plain).
  unfold twp, mint, issue_finish. cbn [mbind result_bind]. case_decide; [|done]. split; [done|].
  split; [done|]. exists t, a, gate'. split; [|done]. exists (log w2). split; [cbn; by rewrite <- app_assoc|].
  split; [done|]. by rewrite log_logged, length_app, Nat.add_comm in Hgt.
Qed.

Lemma keeps_issue {T} request (subject : T) : keeps (issue answer max_ttl request subject).
Proof. intros w Hw. eapply twp_mono; [by apply issue_twp| |done]. by intros [g|d] w' [? _]. Qed.

(** Issuing for a call and making it. *)
Lemma keeps_privileged {T B} request (subject : T) e (k : Grant T → M (result SubsystemError B)) :
  (∀ g w t a gate, quiet w → just_allowed request t a gate (log w) → minted_for max_ttl request t a gate g → g_subject g = subject →
     twp (k g) (λ _, quiet) quiet w) →
  keeps (try (map_err (denied e) (issue answer max_ttl request subject)) k).
Proof.
  intros Hk w Hw. apply twp_try, twp_map_err. eapply twp_mono; [by apply issue_twp| |done].
  intros [g|d] w' [Hw' Hr]; [|done]. destruct Hr as (Hs & t & a & gate & Hj & Hm). by eapply Hk.
Qed.

Lemma privileged_twp c request t a gate w :
  quiet w → just_allowed request t a gate (log w) → ar_principal request = principal → ar_session request = Some id →
  action_fits c (ar_action request) → grant_fits max_ttl request t a gate c → is_store c = false →
  twp (call answer c) (λ _, quiet) quiet w.
Proof.
  intros [Ha Hst] Hj Hpr Hid Hact Hg Hs.
  assert (quiet (logged c w)).
  { split; [by eapply auth_privileged|]. apply Forall_app. split; [done|]. by constructor. }
  by apply twp_call.
Qed.

(** ** The turn's capabilities *)

Definition cap_ok (c : TurnCapabilities) : Prop := cap_principal c = principal ∧ rs_id (cap_session c) = id.

Lemma keeps_redeem {T} (g : Grant T) : keeps (redeem_grant answer g).
Proof.
  apply quiet_bind; [by apply (keeps_call ReadClock)|intros now]. apply quiet_bind; [by apply (keeps_call ReadGate)|intros gate].
  apply quiet_ret.
Qed.

Lemma keeps_call_provider c prompt context : cap_ok c → keeps (call_provider answer max_ttl c prompt context).
Proof.
  intros [Hpr Hid]. unfold call_provider. apply keeps_privileged. intros g w t a gate Hw Hj Hm Hs.
  apply twp_try. eapply twp_mono; [eapply (privileged_twp (Lease g)); try done; [by cbn; rewrite Hid|cbn; by rewrite Hs]| |done].
  cbn beta. intros [lease|e] w1 Hw1; [|done].
  destruct (is_bound_to lease (pb_origin (cap_binding c))) eqn:Eb; cbn [negb]; [|by apply twp_ret].
  refine (keeps_privileged _ _ _ _ _ w1 Hw1). intros g2 w2 t2 a2 gate2 Hw2 Hj2 Hm2 Hs2.
  apply twp_bind, twp_modify. eapply (privileged_twp (Send g2)); try done; [by cbn; rewrite Hid|cbn; by rewrite Hs2].
Qed.

Lemma keeps_call_tool c name arguments : cap_ok c → keeps (call_tool answer max_ttl c name arguments).
Proof.
  intros [Hpr Hid]. unfold call_tool. destruct (List.find _ _) as [binding|]; [|apply quiet_ret].
  apply keeps_privileged. intros g w t a gate Hw Hj Hm Hs. apply twp_bind, twp_modify.
  eapply (privileged_twp (Invoke g)); try done; [by cbn; rewrite Hid|cbn; by rewrite Hs].
Qed.

Lemma keeps_run_engine grant c p : cap_ok c → keeps (run_engine answer max_ttl grant c p).
Proof.
  intros Hc. induction p as [r|k IH|prompt context k IH|name arguments k IH|event k IH]; cbn [run_engine].
  - apply quiet_ret.
  - apply quiet_bind; [apply keeps_redeem|done].
  - apply quiet_bind; [by apply keeps_call_provider|done].
  - apply quiet_bind; [by apply keeps_call_tool|done].
  - apply quiet_bind; [|done]. apply quiet_bind; [by apply keeps_modify|]. intros _. by apply (keeps_call (Emit event)).
Qed.

(** ** Sessions *)

Lemma redeem_subject {T} gate now (g : Grant T) x : redeem gate now g = Ok x → x = g_subject g.
Proof. unfold redeem. repeat case_match; try done. by intros [= <-]. Qed.

Lemma redeem_twp {T} (g : Grant T) w :
  quiet w → twp (redeem_grant answer g) (λ r w', quiet w' ∧ ∀ x, r = Ok x → x = g_subject g) quiet w.
Proof.
  intros Hw. unfold redeem_grant. apply twp_bind. refine (twp_call ReadClock _ _ _ _ _); [intros now _|by intros; apply quiet_plain].
  apply twp_bind. assert (Hw1 : quiet (logged ReadClock w)) by (by apply quiet_plain).
  refine (twp_call ReadGate _ _ _ _ _); [intros gate _|by intros; apply quiet_plain]. apply twp_ret.
  split; [by apply quiet_plain|]. apply redeem_subject.
Qed.

(** The revision a session was opened at, as the store answered. *)
Definition loaded (l : list Call) (revision : Z) : Prop :=
  ∃ i stored, l !! i = Some (LoadSession id) ∧ answer i (LoadSession id) = Some (Ok stored) ∧
              revision = from_option sr_revision 0 stored.

(** Every computation only adds to the log. *)
Definition extends {A} (m : M A) : Prop := ∀ w, log w `prefix_of` log (m w).2.

Lemma extends_ret {A} (a : A) : extends (mret a).
Proof. by intros w. Qed.

Lemma extends_bind {A B} (m : M A) (k : A → M B) : extends m → (∀ a, extends (k a)) → extends (m ≫= k).
Proof.
  intros Hm Hk w. unfold mbind, M_bind. specialize (Hm w). destruct (m w) as [[a|] w']; [|done].
  etrans; [exact Hm|apply Hk].
Qed.

Lemma extends_call c : extends (call answer c).
Proof. intros w. unfold call. destruct (answer _ _); cbn; by apply prefix_app_r. Qed.

Lemma extends_modify f : (∀ w, log (f w) = log w) → extends (modify f).
Proof. intros Hf w. cbn. by rewrite Hf. Qed.

Lemma extends_try {E A B} (m : M (result E A)) (k : A → M (result E B)) : extends m → (∀ a, extends (k a)) → extends (try m k).
Proof. intros Hm Hk. apply extends_bind; [done|]. intros [a|e]; [done|apply extends_ret]. Qed.

Lemma extends_map_err {E F A} (f : E → F) (m : M (result E A)) : extends m → extends (map_err f m).
Proof. intros Hm. apply extends_bind; [done|]. intros. apply extends_ret. Qed.

Lemma extends_issue {T} request (subject : T) : extends (issue answer max_ttl request subject).
Proof.
  apply extends_bind; [apply (extends_call ReadGate)|]. intros gate. destruct (gate_current gate); [|apply extends_ret].
  apply extends_bind; [apply (extends_call ReadClock)|]. intros t. apply extends_bind; [apply (extends_call (Authorize request t))|].
  intros [a|d]; [|apply extends_ret]. apply extends_bind; [apply (extends_call ReadGate)|]. intros gate' w.
  unfold mint, issue_finish. cbn. by case_decide.
Qed.

Lemma extends_redeem {T} (g : Grant T) : extends (redeem_grant answer g).
Proof.
  apply extends_bind; [apply (extends_call ReadClock)|intros now]. apply extends_bind; [apply (extends_call ReadGate)|intros gate].
  apply extends_ret.
Qed.

Lemma extends_call_provider c prompt context : extends (call_provider answer max_ttl c prompt context).
Proof.
  apply extends_try; [apply extends_map_err, extends_issue|intros g]. apply extends_try; [apply (extends_call (Lease g))|intros lease].
  case_match; [apply extends_ret|]. apply extends_try; [apply extends_map_err, extends_issue|intros g'].
  apply extends_bind; [by apply extends_modify|intros _]. apply (extends_call (Send g')).
Qed.

Lemma extends_run_engine grant c p : extends (run_engine answer max_ttl grant c p).
Proof.
  induction p as [r|k IH|prompt context k IH|name arguments k IH|event k IH]; cbn [run_engine].
  - apply extends_ret.
  - apply extends_bind; [apply extends_redeem|done].
  - apply extends_bind; [apply extends_call_provider|done].
  - apply extends_bind; [|done]. unfold call_tool. destruct (List.find _ _) as [binding|]; [|apply extends_ret].
    apply extends_try; [apply extends_map_err, extends_issue|intros g].
    apply extends_bind; [by apply extends_modify|intros _]. apply (extends_call (Invoke g)).
  - apply extends_bind; [|done]. apply extends_bind; [by apply extends_modify|intros _]. apply (extends_call (Emit event)).
Qed.

(** [twp] with what [extends] adds. *)
Lemma twp_extends {A} (m : M A) Q D w : extends m → twp m Q D w → twp m (λ a w', Q a w' ∧ log w `prefix_of` log w') D w.
Proof. intros Hm. specialize (Hm w). unfold twp. destruct (m w) as [[a|] w']; auto. Qed.

Lemma loaded_prefix l l' revision : l `prefix_of` l' → loaded l revision → loaded l' revision.
Proof.
  intros Hl (i & stored & Hi & Hrest). exists i, stored. split; [|done]. by eapply prefix_lookup_Some.
Qed.

Lemma open_session_twp w :
  quiet w →
  twp (open_session answer max_ttl principal id)
     (λ r w', quiet w' ∧ match r with Ok s => rs_id s = id ∧ loaded (log w') (rs_revision s) | Err _ => True end) quiet w.
Proof.
  intros Hw. unfold open_session. apply twp_try.
  refine (twp_call (LoadSession id) _ _ _ _ _); [intros r Hans|by intros; apply quiet_plain].
  assert (Hw1 : quiet (logged (LoadSession id) w)) by (by apply quiet_plain). destruct r as [stored|e]; [|done].
  assert (Hload : loaded (log (logged (LoadSession id) w)) (from_option sr_revision 0 stored)).
  { exists (length (log w)), stored. split; [|done]. cbn. by rewrite lookup_app_r, Nat.sub_diag. }
  set (w1 := logged (LoadSession id) w) in *. clearbody w1.
  apply twp_bind. refine (twp_call ReadClock _ _ _ _ _); [intros now _|by intros; apply quiet_plain].
  assert (Hw2 : quiet (logged ReadClock w1)) by (by apply quiet_plain).
  assert (Hload2 : loaded (log (logged ReadClock w1)) (from_option sr_revision 0 stored)).
  { eapply loaded_prefix; [|exact Hload]. by apply prefix_app_r. }
  set (w2 := logged ReadClock w1) in *. clearbody w2.
  apply twp_try, twp_map_err. eapply twp_mono; [apply twp_extends; [apply extends_issue|by apply issue_twp]| |done].
  intros [g|d] w3 [[Hw3 Hg] Hpre]; [|done]. destruct Hg as [Hs _].
  apply twp_map_err. eapply twp_mono; [apply twp_extends; [apply extends_redeem|by apply (redeem_twp g)]| |done].
  intros [x|d] w4 [[Hw4 Hx] Hpre']; [|done]. split; [done|]. rewrite (Hx x eq_refl), Hs. split; [done|].
  cbn. eapply loaded_prefix; [|exact Hload2]. by etrans.
Qed.

(** ** Recording *)

Lemma no_store_commit l i : Forall (λ c, is_store c = false) l → l !! i = Some Commit → False.
Proof. intros Hl Hi. rewrite Forall_lookup in Hl. by specialize (Hl i Commit Hi). Qed.

Lemma quiet_staged prompt l : Forall (λ c, is_store c = false) l → commits_staged id prompt l.
Proof. intros Hl i Hi. by destruct (no_store_commit l i Hl Hi). Qed.

Lemma quiet_nothing l : Forall (λ c, is_store c = false) l → nothing_committed answer l.
Proof. intros Hl i Hi. by destruct (no_store_commit l i Hl Hi). Qed.

(** The only commit of [before ++ staging ++ Commit :: after]. *)
Lemma commit_position before st after i :
  Forall (λ c, is_store c = false) before → Forall (λ c, is_store c = false) after → Commit ∉ st →
  (before ++ st ++ Commit :: after) !! i = Some Commit → i = length (before ++ st).
Proof.
  intros Hb Ha Hst. rewrite app_assoc. intros Hi. apply lookup_app_Some in Hi as [Hi|[Hlen Hi]].
  - exfalso. apply list_elem_of_lookup_2, elem_of_app in Hi as [Hi|Hi]; [|done].
    rewrite Forall_forall in Hb. by specialize (Hb _ Hi).
  - destruct (i - length (before ++ st))%nat as [|k] eqn:E; [lia|]. cbn in Hi. by destruct (no_store_commit after k Ha Hi).
Qed.

Lemma commit_free l : Commit ∉ l → ∀ prompt, commits_staged id prompt l ∧ nothing_committed answer l.
Proof. intros Hl prompt. split; intros i Hi%list_elem_of_lookup_2; done. Qed.

Lemma staging_free rev prompt response k : Commit ∉ take k (staging id rev prompt response).
Proof.
  intros Hin. assert (Hin' : Commit ∈ staging id rev prompt response).
  { eapply elem_of_submseteq; [exact Hin|]. apply sublist_submseteq, sublist_take. }
  unfold staging in Hin'. rewrite !elem_of_cons, elem_of_nil in Hin'. naive_solver.
Qed.

Lemma quiet_free l : Forall (λ c, is_store c = false) l → Commit ∉ l.
Proof. intros Hl Hin. rewrite Forall_forall in Hl. by specialize (Hl _ Hin). Qed.

(** The states a turn can end in once the transaction has begun. *)
Definition after_begin (prompt : bytes) (l : list Call) : Prop := auth_log l ∧ commits_staged id prompt l.

Lemma auth_store c l : is_store c = true → auth_log l → auth_log (l ++ [c]).
Proof. intros Hc. apply auth_plain. by destruct c. Qed.

Lemma record_turn_twp session prompt summary w :
  quiet w → rs_id session = id →
  twp (record_turn answer max_ttl principal session prompt summary)
     (λ r w', auth_log (log w') ∧
        match r with
        | Ok revision => revision = wrap_add u64_max (rs_revision session) 1 ∧
            ∃ before, log w' = before ++ staging id revision prompt (ts_response summary) ++ [Commit] ∧
              Forall (λ c, is_store c = false) before ∧ log w `prefix_of` before ∧
              answer (length before + 3) Commit = Some (Ok tt)
        | Err _ => commits_staged id prompt (log w') ∧ nothing_committed answer (log w')
        end)
     (λ w', after_begin prompt (log w')) w.
Proof.
  intros Hw Hid. unfold record_turn. rewrite Hid.
  assert (Hquiet : ∀ w', quiet w' → after_begin prompt (log w')) by (intros w' [? ?]; split; [done|by apply quiet_staged]).
  apply twp_try, twp_map_err. eapply twp_mono; [apply twp_extends; [apply extends_issue|by apply issue_twp]| |done].
  intros [g|d] w1 [[Hw1 _] Hpre1]; [|destruct Hw1; split; [done|]; split; [by apply quiet_staged|by apply quiet_nothing]].
  apply twp_try, twp_map_err. eapply twp_mono; [apply twp_extends; [apply extends_redeem|by apply (redeem_twp g)]| |done].
  intros [x|d] w2 [[Hw2 _] Hpre2]; [|destruct Hw2; split; [done|]; split; [by apply quiet_staged|by apply quiet_nothing]].
  assert (Hpre : log w `prefix_of` log w2) by (by etrans). clear Hpre1 Hpre2 w1 Hw1 x g.
  destruct Hw2 as [Ha Hns]. pose proof (quiet_free _ Hns) as Hfree.
  set (rev := wrap_add u64_max (rs_revision session) 1). set (st := staging id rev prompt (ts_response summary)).
  assert (Hstop : ∀ k extra l, l = log w2 ++ take k st ++ extra → Commit ∉ extra → auth_log l →
    auth_log l ∧ commits_staged id prompt l ∧ nothing_committed answer l).
  { intros k extra l -> He Hl. split; [done|]. apply commit_free. rewrite !elem_of_app.
    pose proof (staging_free rev prompt (ts_response summary) k). naive_solver. }
  assert (Hdrop : ∀ k extra l, l = log w2 ++ take k st ++ extra → Commit ∉ extra → auth_log l → after_begin prompt l).
  { intros k extra l Hl He Hal. destruct (Hstop k extra l Hl He Hal) as (? & ? & _). by split. }
  assert (Hnil : Commit ∉ []) by apply not_elem_of_nil.
  assert (Hrb : Commit ∉ [Rollback]) by (by rewrite list_elem_of_singleton).
  apply twp_try. assert (Ha3 := auth_store BeginTransaction _ eq_refl Ha).
  refine (twp_call BeginTransaction _ _ _ _ _); [intros r _|by intros _; apply (Hdrop 1%nat [])].
  destruct r as [[]|e]; [|by apply (Hstop 1%nat [])].
  set (w3 := logged BeginTransaction w2). set (up := UpsertSession (mkSessionRecord id rev 1)).
  assert (Ha4 := auth_store up _ eq_refl Ha3).
  assert (Hl4 : log (logged up w3) = log w2 ++ take 2 st) by (cbn; by rewrite <- app_assoc).
  apply twp_bind. refine (twp_call up _ _ _ _ _); [intros r _|intros _; apply (Hdrop 2%nat []); [by rewrite Hl4, app_nil_r|done..]].
  destruct r as [[]|e]; cycle 1.
  { apply twp_bind. assert (Ha5 := auth_store Rollback _ eq_refl Ha4).
    refine (twp_call Rollback _ _ _ _ _); [intros r _; apply twp_ret; apply (Hstop 2%nat [Rollback])|intros _; apply (Hdrop 2%nat [Rollback])];
      try done; rewrite (log_logged Rollback), Hl4, <- app_assoc; done. }
  set (w4 := logged up w3) in *. set (ap := AppendTurn (mkTurnRecord id rev prompt (ts_response summary))).
  assert (Ha5 := auth_store ap _ eq_refl Ha4).
  assert (Hl5 : log (logged ap w4) = log w2 ++ take 3 st) by (rewrite (log_logged ap), Hl4, <- app_assoc; done).
  apply twp_bind. refine (twp_call ap _ _ _ _ _); [intros r _|intros _; apply (Hdrop 3%nat []); [by rewrite Hl5, app_nil_r|done..]].
  destruct r as [[]|e]; cycle 1.
  { apply twp_bind. assert (Ha6 := auth_store Rollback _ eq_refl Ha5).
    refine (twp_call Rollback _ _ _ _ _); [intros r _; apply twp_ret; apply (Hstop 3%nat [Rollback])|intros _; apply (Hdrop 3%nat [Rollback])];
      try done; rewrite (log_logged Rollback), Hl5, <- app_assoc; done. }
  set (w5 := logged ap w4) in *. assert (Ha6 := auth_store Commit _ eq_refl Ha5).
  assert (Hl6 : log (logged Commit w5) = log w2 ++ st ++ [Commit]) by (rewrite (log_logged Commit), Hl5, <- app_assoc; done).
  assert (Hst : commits_staged id prompt (log w2 ++ st ++ [Commit])).
  { intros i Hi. apply commit_position in Hi as ->; [|done|constructor|exact (staging_free rev prompt (ts_response summary) 3)].
    exists (log w2), rev, (ts_response summary). split; [|done]. rewrite app_assoc, take_app_length. done. }
  apply twp_try. refine (twp_call Commit _ _ _ _ _); [intros r Hans|intros _; split; [exact Ha6|by rewrite Hl6]].
  assert (Hlen : length (log w5) = (length (log w2) + 3)%nat) by (rewrite Hl5, length_app; done).
  destruct r as [[]|e].
  - apply twp_ret. split; [exact Ha6|]. split; [done|]. exists (log w2). rewrite Hlen in Hans. done.
  - split; [exact Ha6|]. rewrite Hl6. split; [done|]. intros i Hi.
    apply commit_position in Hi as ->; [|done|constructor|exact (staging_free rev prompt (ts_response summary) 3)].
    exists e. rewrite length_app. rewrite Hlen in Hans. exact Hans.
Qed.

(** ** The turn *)

(** Quiet so far, on a session opened at [revision]. *)
Definition opened (revision : Z) (w : World) : Prop := quiet w ∧ loaded (log w) revision.

Lemma opened_keeps {A} (m : M A) revision w : keeps m → extends m → opened revision w → twp m (λ _, opened revision) quiet w.
Proof.
  intros Hk He [Hq Hl]. eapply twp_mono; [apply twp_extends; [done|by apply Hk]| |done].
  intros a w' [Hq' Hp]. split; [done|]. by eapply loaded_prefix.
Qed.

Lemma opened_call c (Q : reply c → World → Prop) (D : World → Prop) revision w :
  is_privileged c = false → is_store c = false → opened revision w →
  (∀ r, opened revision (logged c w) → Q r (logged c w)) → (quiet (logged c w) → D (logged c w)) →
  twp (call answer c) Q D w.
Proof.
  intros Hp Hs [Hq Hl] HQ HD. assert (Hq' : quiet (logged c w)) by (by apply quiet_plain).
  apply twp_call; intros; [apply HQ|auto]. split; [done|]. eapply loaded_prefix; [|exact Hl]. by apply prefix_app_r.
Qed.

(** A turn that ended without reaching the transaction. *)
Definition unrecorded (prompt : bytes) (w : World) : Prop :=
  auth_log (log w) ∧ commits_staged id prompt (log w) ∧ nothing_committed answer (log w).

Lemma quiet_unrecorded prompt w : quiet w → unrecorded prompt w.
Proof. intros [Ha Hs]. split; [done|]. split; [by apply quiet_staged|by apply quiet_nothing]. Qed.

(** What a reported turn left behind. *)
Definition recorded (prompt : bytes) (report : TurnReport) (l : list Call) : Prop :=
  ∃ before ev revision,
    l = before ++ staging id (rep_revision report) prompt (ts_response (rep_summary report)) ++ [Commit; ReadClock; Observe ev] ∧
    Forall (λ c, is_store c = false) before ∧ answer (length before + 3) Commit = Some (Ok tt) ∧
    loaded before revision ∧ rep_revision report = wrap_add u64_max revision 1.

Lemma finish_twp session prompt summary w :
  opened (rs_revision session) w → rs_id session = id →
  twp (revision <-? record_turn answer max_ttl principal session prompt summary;
      at_ ← call answer ReadClock;
      call answer (Observe (mkObserved ENGINE SevInfo (lit "turn in " ++ id ++ lit " completed at revision " ++ decimal revision) at_));;
      turn_report summary revision)
     (λ r w', auth_log (log w') ∧ match r with Ok report => recorded prompt report (log w') | Err _ => unrecorded prompt w' end)
     (λ w', after_begin prompt (log w')) w.
Proof.
  intros [Hq Hl] Hid. apply twp_try. eapply twp_mono; [by apply record_turn_twp| |done].
  cbn beta. intros [rev|e] w1 [Ha Hr]; [|split; [done|by split]].
  destruct Hr as (Hrev & before & Hlog & Hns & Hpre & Hans).
  assert (Hload : loaded before (rs_revision session)) by (by eapply loaded_prefix).
  assert (Hst : ∀ after, Forall (λ c, is_store c = false) after →
    commits_staged id prompt (before ++ staging id rev prompt (ts_response summary) ++ Commit :: after)).
  { intros after Haft i Hi. apply commit_position in Hi as ->; [|done|done|exact (staging_free rev prompt (ts_response summary) 3)].
    exists before, rev, (ts_response summary). split; [|done]. rewrite app_assoc, take_app_length. done. }
  assert (Hlog' : ∀ extra, log w1 ++ extra = before ++ staging id rev prompt (ts_response summary) ++ Commit :: extra).
  { intros extra. by rewrite Hlog, <- !app_assoc. }
  apply twp_bind. refine (twp_call ReadClock _ _ _ _ _).
  2:{ intros _. split; [by apply (auth_plain ReadClock)|]. rewrite log_logged, Hlog'. apply Hst. by repeat constructor. }
  intros at_ _. apply twp_bind. set (ev := mkObserved _ _ _ _). assert (Ha2 := auth_plain ReadClock _ eq_refl Ha).
  assert (Ha3 := auth_plain (Observe ev) _ eq_refl Ha2).
  assert (Hl3 : log (logged (Observe ev) (logged ReadClock w1)) =
    before ++ staging id rev prompt (ts_response summary) ++ [Commit; ReadClock; Observe ev]).
  { rewrite !log_logged, <- app_assoc. apply Hlog'. }
  refine (twp_call (Observe ev) _ _ _ _ _).
  2:{ intros _. split; [exact Ha3|]. rewrite Hl3. apply Hst. by repeat constructor. }
  intros _ _. unfold twp, turn_report. split; [exact Ha3|]. exists before, ev, (rs_revision session). by rewrite Hl3.
Qed.

Lemma run_turn_twp prompt w :
  quiet w →
  twp (run_turn answer engine max_ttl context_budget principal id prompt)
     (λ r w', auth_log (log w') ∧ match r with Ok report => recorded prompt report (log w') | Err _ => unrecorded prompt w' end)
     (λ w', after_begin prompt (log w')) w.
Proof.
  intros Hw. unfold run_turn.
  assert (Hdrop : ∀ w', quiet w' → after_begin prompt (log w')) by (intros w' [? ?]; split; [done|by apply quiet_staged]).
  assert (Hend : ∀ w', quiet w' → auth_log (log w') ∧ unrecorded prompt w').
  { intros w' Hq. split; [apply Hq|by apply quiet_unrecorded]. }
  apply twp_try. refine (twp_call Settings _ _ _ _ _); [intros r _|by intros; apply Hdrop, quiet_plain].
  assert (Hw1 : quiet (logged Settings w)) by (by apply quiet_plain). destruct r as [settings|e]; [|by apply Hend].
  apply twp_try. eapply twp_mono; [by apply open_session_twp| |done]. cbn beta.
  intros [session|e] w2 [Hw2 Hs]; [|by apply Hend]. destruct Hs as [Hid Hload].
  assert (Hop : opened (rs_revision session) w2) by done. clear Hw1 Hw2 Hload.
  assert (Hcall : ∀ c, is_privileged c = false → is_store c = false → ∀ w', opened (rs_revision session) w' →
    ∀ Q : reply c → World → Prop, (∀ r, opened (rs_revision session) (logged c w') → Q r (logged c w')) →
    twp (call answer c) Q (λ w', after_begin prompt (log w')) w').
  { intros c Hc Hc' w' Ho Q HQ. eapply opened_call; [done|done|exact Ho|done|]. intros; by apply Hdrop. }
  apply twp_try. refine (Hcall (ResolveProvider _ _) eq_refl eq_refl w2 Hop _ _). intros [binding|e] Ho; [|by apply Hend; destruct Ho].
  case_match; [apply twp_ret; by apply Hend; destruct Ho|].
  apply twp_try. refine (Hcall (Assemble _ _ _) eq_refl eq_refl _ Ho _ _). intros [assembled|e] Ho1; [|by apply Hend; destruct Ho1].
  apply twp_try. refine (Hcall (Catalogue _) eq_refl eq_refl _ Ho1 _ _). intros [catalogue|e] Ho2; [|by apply Hend; destruct Ho2].
  apply twp_bind. refine (Hcall ReadClock eq_refl eq_refl _ Ho2 _ _). intros now Ho3.
  destruct (instant_checked_add _ _) as [deadline|]; [|apply twp_ret; by apply Hend; destruct Ho3].
  apply twp_bind, twp_modify. match goal with |- twp _ _ _ (fresh_turn ?x) => set (w3 := x) in * end. clearbody w3.
  assert (Ho4 : opened (rs_revision session) (fresh_turn w3)) by done.
  apply twp_try, twp_map_err.
  eapply twp_mono; [apply twp_extends; [apply extends_issue|apply issue_twp; by destruct Ho4]| |done].
  intros [g|d] w4 [[Hw4 Hg] Hpre]; [|by apply Hend]. destruct Hg as (Hs & t & a & gate & Hj & Hm).
  assert (Hl4 : loaded (log w4) (rs_revision session)) by (eapply loaded_prefix; [exact Hpre|by destruct Ho4]).
  apply twp_bind. eapply twp_mono; [apply twp_extends; [apply (extends_call (RunEngine g))|
    eapply (privileged_twp (RunEngine g)); try done; exact Hj]| |done].
  cbn beta. intros _ w5 [Hw5 Hpre5]. assert (Ho5 : opened (rs_revision session) w5) by (split; [done|by eapply loaded_prefix]).
  apply twp_bind. eapply twp_mono; [apply opened_keeps; [by apply keeps_run_engine|apply extends_run_engine|exact Ho5]| |done].
  cbn beta. intros [summary|error] w6 Ho6; [by apply finish_twp|].
  apply twp_bind. refine (Hcall ReadClock eq_refl eq_refl _ Ho6 _ _). intros at_ Ho7.
  apply twp_bind. refine (Hcall (Observe _) eq_refl eq_refl _ Ho7 _ _). intros _ Ho8. apply twp_ret. by apply Hend; destruct Ho8.
Qed.

Lemma keeps_describe : keeps (describe answer max_ttl principal id).
Proof.
  intros w Hw. unfold describe. apply twp_try. eapply twp_mono; [by apply open_session_twp| |done].
  intros [session|e] w1 [Hw1 _]; [|done].
  by apply (keeps_try _ _ (keeps_call (LoadSession id) eq_refl eq_refl) (λ _, quiet_ret _)).
Qed.

End Proofs.

Lemma quiet_new answer max_ttl principal id : quiet answer max_ttl principal id world_new.
Proof. split; [|by constructor]. intros before c after H. by destruct before. Qed.

(** What a gateway request leaves in the log, by how it ended. *)
Definition dispatched (answer : nat → ∀ c : Call, option (reply c)) (request : GatewayRequest)
    (o : Outcome (result SubsystemError GatewayResponse)) (l : list Call) : Prop :=
  match o with
  | Done (Ok response) =>
      (gq_method request = METHOD_SESSION_PROMPT ∧ ∃ report, recorded answer (gq_session request) (gq_payload request) report l ∧
         gp_body response = ts_response (rep_summary report)) ∨
      (gq_method request = METHOD_SESSION_DESCRIBE ∧ Forall (λ c, is_store c = false) l)
  | Done (Err _) => commits_staged (gq_session request) (gq_payload request) l ∧ nothing_committed answer l
  | Dropped => commits_staged (gq_session request) (gq_payload request) l
  end.

Lemma dispatch_twp answer engine max_ttl budget request :
  let w := (dispatch answer engine max_ttl budget request world_new).2 in
  authorized_log answer max_ttl (gq_principal request) (gq_session request) (log w) ∧
  dispatched answer request (dispatch answer engine max_ttl budget request world_new).1 (log w).
Proof.
  pose proof (quiet_new answer max_ttl (gq_principal request) (gq_session request)) as Hq.
  enough (Hwp : twp (dispatch answer engine max_ttl budget request)
    (λ r w', authorized_log answer max_ttl (gq_principal request) (gq_session request) (log w') ∧ dispatched answer request (Done r) (log w'))
    (λ w', authorized_log answer max_ttl (gq_principal request) (gq_session request) (log w') ∧ dispatched answer request Dropped (log w'))
    world_new).
  { unfold twp in Hwp. by destruct (dispatch _ _ _ _ _ _) as [[r|] w']. }
  unfold dispatch. case_decide as Hm; [|case_decide as Hd].
  - apply twp_try. eapply twp_mono; [by apply run_turn_twp| |by intros w' []]. cbn beta.
    intros [report|e] w' [Ha Hr]; [|split; [done|]; apply Hr].
    apply twp_ret. split; [done|]. left. by eauto.
  - eapply twp_mono; [by apply keeps_describe| |].
    + intros [r|e] w' [Ha Hs]; (split; [done|]); [by right|]. split; [by apply quiet_staged|by apply quiet_nothing].
    + intros w' [Ha Hs]. split; [done|]. by apply quiet_staged.
  - apply twp_ret. destruct Hq as [Ha Hs]. split; [done|]. split; [by apply quiet_staged|by apply quiet_nothing].
Qed.

(** ** A turn *)

Definition demo_origin : ResolvedEndpoint := mkEndpoint Https (lit "api.example") 443 [] 5.
Definition demo_binding : ProviderBinding := mkBinding (lit "acme") demo_origin (lit "key") [lit "m1"].
Definition demo_principal : Principal := mkPrincipal (lit "operator") [].

(** Ports that allow and do everything; the lease is filed against [origin]. *)
Definition demo_answer (origin : ResolvedEndpoint) (n : nat) (c : Call) : option (reply c) :=
  match c return option (reply c) with
  | ReadGate => Some 1
  | ReadClock => Some 10
  | Authorize _ _ => Some (Ok (mkAuthorization 100 None))
  | Settings => Some (Ok (mkSettings [] (lit "acme") (lit "m1") 1 60 30))
  | LoadSession id => Some (Ok (Some (mkSessionRecord id 4 1)))
  | ResolveProvider _ _ => Some (Ok demo_binding)
  | Assemble _ _ _ => Some (Ok (mkContext [] false))
  | Catalogue _ => Some (Ok [])
  | Lease g => Some (Ok (mkLease (cq_name (g_subject g)) origin (lit "secret")))
  | Send _ => Some (Ok (mkReply (lit "hello") []))
  | Invoke g => Some (Ok (mkToolOutcome (tb_name (tc_binding (g_subject g))) [] false))
  | BeginTransaction | UpsertSession _ | AppendTurn _ | Commit | Rollback => Some (Ok tt)
  | RunEngine _ | Emit _ | Observe _ => Some tt
  end.

(** An engine that answers with what the provider said. *)
Definition demo_engine (grant : Grant TurnRequest) (c : TurnCapabilities) : EngineProg :=
  EngineProvider (lit "hi") (mkContext [] false) (λ r,
    EngineReturn (match r with Ok p => Ok (mkSummary (rp_text p) (lit "acme") (lit "m1") 0) | Err e => Err e end)).

Definition demo_request : GatewayRequest := mkGatewayRequest METHOD_SESSION_PROMPT demo_principal (lit "s1") (lit "hi").

(** The turn is sent, and stored at the revision after the loaded one. *)
Example demo_turn :
  let '(o, w) := dispatch (demo_answer demo_origin) demo_engine 30 1024 demo_request world_new in
  o = Done (Ok (mkGatewayResponse (lit "hello") 0)) ∧ provider_calls w = 1 ∧
  List.filter is_store (log w) = staging (lit "s1") 5 (lit "hi") (lit "hello") ++ [Commit] ∧
  length (List.filter is_privileged (log w)) = 3%nat.
Proof. vm_compute. done. Qed.

(** A credential filed against another port is not sent, and nothing is stored. *)
Example misfiled_credential :
  let '(o, w) := dispatch (demo_answer (mkEndpoint Https (lit "api.example") 8443 [] 5)) demo_engine 30 1024 demo_request world_new in
  o = Done (Err (mkSubsystemError SECRETS Invalid
        (lit "credential key is bound to api.example:8443 but the call targets api.example:443"))) ∧
  provider_calls w = 0 ∧ List.filter is_store (log w) = [].
Proof. vm_compute. done. Qed.

(** C16. Every action a gateway request takes for its principal is authorized on its
    own. Whatever the ports answer, whatever the engine does with its capabilities,
    calling them one at a time, and wherever the future is dropped, each lease of a credential, each provider
    call, each tool run and each hand-over to the engine comes right after the
    authority allowed a request of the calling principal, in the addressed session,
    that names exactly that action (the credential, the provider and model, the tool
    and its capabilities), carries a grant minted for it, capped at the issuer's
    maximum lifetime, in the epoch the gate held after the decision; and a provider
    call carries a credential bound to the address the call goes to. *)
Theorem turn_actions_authorized answer engine max_ttl budget request :
  authorized_log answer max_ttl (gq_principal request) (gq_session request)
    (log (dispatch answer engine max_ttl budget request world_new).2).
Proof. apply dispatch_twp. Qed.

(** A gateway request records a turn exactly when it reports one. A successful
    prompt has committed once: the session at the revision after the one it was
    loaded at and the turn under that revision, with the prompt and the response it
    reports, staged right before the commit and before any other write; a describe
    never opens a transaction; a request that failed has no successful commit; and
    even one that was dropped half way only ever commits a complete staging. *)
Theorem turn_is_recorded_once answer engine max_ttl budget request :
  let '(o, w) := dispatch answer engine max_ttl budget request world_new in dispatched answer request o (log w).
Proof.
  pose proof (dispatch_twp answer engine max_ttl budget request) as [_ H]. by destruct (dispatch _ _ _ _ _ _).
Qed.

End CompositionService.
