(* ===== verification/TurnState.v ===== *)
(** * Session turns: the state contract and the machine that follows it

    Models [crates/claw-application/src/model/session.rs] (the states a turn can be in,
    the events that move it and the table of legal transitions) and
    [crates/claw-runtime/src/session.rs] (the machine that follows the table and
    remembers where a paused turn came from). *)

From S2P Require Import Prelude.

Module TurnState.

Inductive SessionState :=
| Draft | Queued | Starting | Running | WaitingForApproval | WaitingForAnswer
| Paused | Blocked | Failed | Cancelled | Completed | CompletedWithChanges.

Inductive SessionEvent :=
| Enqueue | Start | Stream | RequestApproval | ResolveApproval | AskQuestion | ProvideAnswer
| Pause | Resume | Block | Unblock | Complete | CompleteWithChanges | Cancel | Fail_.

Inductive SessionTransition := To (s : SessionState) | RestorePrePause.

Record IllegalTransition := mkIllegal { from_state : SessionState; refused_event : SessionEvent }.

#[export] Instance SessionState_eq_dec : EqDecision SessionState.
Proof. solve_decision. Defined.
#[export] Instance SessionEvent_eq_dec : EqDecision SessionEvent.
Proof. solve_decision. Defined.

Definition ALL_STATES : list SessionState :=
  [Draft; Queued; Starting; Running; WaitingForApproval; WaitingForAnswer;
   Paused; Blocked; Failed; Cancelled; Completed; CompletedWithChanges].

Definition ALL_EVENTS : list SessionEvent :=
  [Enqueue; Start; Stream; RequestApproval; ResolveApproval; AskQuestion; ProvideAnswer;
   Pause; Resume; Block; Unblock; Complete; CompleteWithChanges; Cancel; Fail_].

Definition state_label (s : SessionState) : bytes :=
  match s with
  | Draft => lit "draft"
  | Queued => lit "queued"
  | Starting => lit "starting"
  | Running => lit "running"
  | WaitingForApproval => lit "waiting_for_approval"
  | WaitingForAnswer => lit "waiting_for_answer"
  | Paused => lit "paused"
  | Blocked => lit "blocked"
  | Failed => lit "failed"
  | Cancelled => lit "cancelled"
  | Completed => lit "completed"
  | CompletedWithChanges => lit "completed_with_changes"
  end.

Definition event_label (e : SessionEvent) : bytes :=
  match e with
  | Enqueue => lit "enqueue"
  | Start => lit "start"
  | Stream => lit "stream"
  | RequestApproval => lit "request_approval"
  | ResolveApproval => lit "resolve_approval"
  | AskQuestion => lit "ask_question"
  | ProvideAnswer => lit "provide_answer"
  | Pause => lit "pause"
  | Resume => lit "resume"
  | Block => lit "block"
  | Unblock => lit "unblock"
  | Complete => lit "complete"
  | CompleteWithChanges => lit "complete_with_changes"
  | Cancel => lit "cancel"
  | Fail_ => lit "fail"
  end.

Definition is_terminal (s : SessionState) : bool :=
  match s with Failed | Cancelled | Completed | CompletedWithChanges => true | _ => false end.

Definition is_in_flight (s : SessionState) : bool :=
  match s with Starting | Running | WaitingForApproval | WaitingForAnswer => true | _ => false end.

Definition is_pausable (s : SessionState) : bool :=
  match s with Queued | Starting | Running | WaitingForApproval | WaitingForAnswer => true | _ => false end.

Definition transition (s : SessionState) (e : SessionEvent) : result IllegalTransition SessionTransition :=
  match s, e with
  | Draft, Enqueue | Blocked, Unblock => Ok (To Queued)
  | Queued, Start => Ok (To Starting)
  | Starting, Stream | WaitingForApproval, ResolveApproval | WaitingForAnswer, ProvideAnswer => Ok (To Running)
  | Running, RequestApproval => Ok (To WaitingForApproval)
  | Running, AskQuestion => Ok (To WaitingForAnswer)
  | (Queued | Starting | Running | WaitingForApproval | WaitingForAnswer), Pause => Ok (To Paused)
  | Paused, Resume => Ok RestorePrePause
  | (Queued | Starting | Running | WaitingForApproval | WaitingForAnswer), Block => Ok (To Blocked)
  | Running, Complete => Ok (To Completed)
  | Running, CompleteWithChanges => Ok (To CompletedWithChanges)
  | (Draft | Queued | Starting | Running | WaitingForApproval | WaitingForAnswer | Paused | Blocked), Cancel => Ok (To Cancelled)
  | (Draft | Queued | Starting | Running | WaitingForApproval | WaitingForAnswer | Paused | Blocked), Fail_ => Ok (To Failed)
  | _, _ => Err (mkIllegal s e)
  end.

Inductive StateMachineError := Illegal (e : IllegalTransition) | InconsistentSnapshot (reason : bytes).

Record TurnStateMachine := mkMachine { state : SessionState; pre_pause_state : option SessionState; transitions : Z }.

Definition machine_new : TurnStateMachine := mkMachine Draft None 0.

Definition restore (s : SessionState) (pre : option SessionState) : result StateMachineError TurnStateMachine :=
  match s, pre with
  | Paused, Some previous =>
      if is_pausable previous then Ok (mkMachine s pre 0)
      else Err (InconsistentSnapshot (lit "pre-pause state is not pausable"))
  | Paused, None => Err (InconsistentSnapshot (lit "paused turns must record a pre-pause state"))
  | _, Some _ => Err (InconsistentSnapshot (lit "only paused turns may record a pre-pause state"))
  | _, None => Ok (mkMachine s pre 0)
  end.

Definition accepts (m : TurnStateMachine) (e : SessionEvent) : bool := is_ok (transition (state m) e).

(** [apply]; the second component is the machine afterwards. *)
Definition apply (m : TurnStateMachine) (e : SessionEvent) : result StateMachineError SessionState * TurnStateMachine :=
  let moved next pre := (Ok next, mkMachine next pre (sat_add u64_max (transitions m) 1)) in
  match transition (state m) e with
  | Err i => (Err (Illegal i), m)
  | Ok (To Paused) => moved Paused (Some (state m))
  | Ok (To target) => moved target None
  | Ok RestorePrePause =>
      match pre_pause_state m with
      | Some previous => moved previous None
      | None => (Err (InconsistentSnapshot (lit "paused turns must record a pre-pause state")), m)
      end
  end.

(** ** The machine's invariant *)

(** What [restore] accepts: a pausable state is remembered exactly while paused. *)
Definition consistent (m : TurnStateMachine) : Prop :=
  match pre_pause_state m with
  | Some previous => state m = Paused ∧ is_pausable previous = true
  | None => state m ≠ Paused
  end.

Lemma restore_consistent s pre m : restore s pre = Ok m ↔ m = mkMachine s pre 0 ∧ consistent m.
Proof.
  unfold restore, consistent. destruct s, pre as [p|]; cbn; try (split; [intros [= <-]; done|by intros [-> ?]]);
    try (split; [done|by intros [-> [? ?]]]); try (split; [done|by intros [-> ?]]).
  destruct (is_pausable p) eqn:E; (split; [intros H; inversion H; subst; done|intros [-> [_ Hp]]; cbn in Hp]); [done|congruence].
Qed.

Lemma apply_consistent m e r m' : consistent m → apply m e = (r, m') → consistent m'.
Proof.
  intros Hm. unfold apply. destruct m as [s pre n], s, e; cbn; try (by intros [= <- <-]);
    destruct pre as [p|]; cbn in *; try (by intros [= <- <-]); destruct Hm as [? Hp]; try done;
    intros [= <- <-]; unfold consistent; cbn; by destruct p.
Qed.

(** A consistent machine refuses exactly what the table refuses, and never for want of
    a remembered state. *)
Lemma apply_spec m e : consistent m →
  match transition (state m) e with
  | Ok (To target) => ∃ m', apply m e = (Ok target, m') ∧ state m' = target
  | Ok RestorePrePause => ∃ previous m', pre_pause_state m = Some previous ∧ apply m e = (Ok previous, m') ∧ state m' = previous
  | Err i => apply m e = (Err (Illegal i), m)
  end.
Proof.
  intros Hm. unfold apply. destruct m as [s pre n], s, e; cbn; try done; try (eexists; split; reflexivity);
    (destruct pre as [p|]; cbn in Hm; [by eauto|done]).
Qed.

Lemma terminal_refuses s e : is_terminal s = true → is_ok (transition s e) = false.
Proof. by destruct s, e. Qed.

End TurnState.
