(* ===== verification/TurnStream.v ===== *)
(** * Assembling a provider's stream

    Models [crates/claw-runtime/src/stream.rs] over the message values of
    [crates/claw-application/src/model/message.rs] and the chunks of
    [crates/claw-application/src/ports/provider.rs]: one assistant message is put
    together from interleaved chunks, every event carries the next number, and an
    interrupted stream can be continued from what was saved of it. *)

From S2P Require Import Prelude Utf8.

Module TurnStream.

(** ** Values *)

Record ToolCall := mkCall { call_id : str; name : str; arguments : str }.
Record PendingToolCall := mkPending { pt_call_id : str; pt_name : str; partial_arguments : str }.
Record AssistantMessage := mkMessage { am_text : str; am_reasoning : str; am_tool_calls : list ToolCall }.
Record PartialAssistantMessage := mkPartial {
  pm_text : str;
  pm_reasoning : str;
  pm_tool_calls : list ToolCall;
  pending_tool_calls : list PendingToolCall;
  pm_next_sequence : Z;
}.

Inductive ProviderChunk :=
| TextDelta (text : str)
| ReasoningDelta (text : str)
| ToolCallBegin (call_id name : str)
| ToolCallArgumentsDelta (call_id fragment : str)
| ToolCallEnd (call_id : str)
| MessageEnd.

#[export] Instance ProviderChunk_eq_dec : EqDecision ProviderChunk.
Proof. solve_decision. Defined.

Inductive StreamError :=
| DuplicateToolCall (id : str)
| UnknownToolCall (id : str)
| EmptyToolName (id : str)
| ContentAfterEnd
| UnterminatedToolCall (id : str)
| MessageTooLarge (limit actual : Z).

Inductive StreamPayload :=
| PTextDelta (delta : str)
| PReasoningDelta (delta : str)
| ToolCallStarted (call_id name : str)
| ToolCallCompleted (call : ToolCall)
| MessageCompleted (message : AssistantMessage).

Record StreamEvent := mkEvent { sequence : Z; payload : StreamPayload }.

Record OpenToolCall := mkOpen { oc_call_id : str; oc_name : str; oc_arguments : str }.

Record StreamAssembler := mkAssembler {
  text : str;
  reasoning : str;
  tool_calls : list ToolCall;
  open : list OpenToolCall;
  assembled : Z;
  next_sequence : Z;
  limit : Z;
  ended : bool;
}.

(** [str::len] *)
Definition size (s : str) : Z := len (as_bytes s).

(** [iter().map(f).sum()] *)
Fixpoint sum_of {A} (f : A → Z) (l : list A) : Z :=
  match l with
  | [] => 0
  | x :: l => f x + sum_of f l
  end.

Definition MAX_ASSEMBLED_BYTES : Z := 4 * 1024 * 1024.

(** ** [StreamAssembler] *)

Definition with_limit (limit : Z) : StreamAssembler := mkAssembler [] [] [] [] 0 0 limit false.

Definition assembler_new : StreamAssembler := with_limit MAX_ASSEMBLED_BYTES.

Definition resume (partial : PartialAssistantMessage) (limit : Z) : StreamAssembler :=
  let open := (λ p, mkOpen (pt_call_id p) (pt_name p) (partial_arguments p)) <$> pending_tool_calls partial in
  let assembled := size (pm_text partial) + size (pm_reasoning partial)
    + sum_of (λ c, size (name c) + size (arguments c)) (pm_tool_calls partial)
    + sum_of (λ o, size (oc_name o) + size (oc_arguments o)) open in
  mkAssembler (pm_text partial) (pm_reasoning partial) (pm_tool_calls partial) open assembled
    (pm_next_sequence partial) limit false.

Definition is_known (a : StreamAssembler) (id : str) : bool :=
  existsb (λ o, bool_decide (oc_call_id o = id)) (open a) || existsb (λ c, bool_decide (call_id c = id)) (tool_calls a).

Definition reserve (a : StreamAssembler) (additional : Z) : result StreamError unit :=
  let actual := sat_add u64_max (assembled a) additional in
  if limit a <? actual then Err (MessageTooLarge (limit a) actual) else Ok tt.

(** [emit] *)
Definition emit (a : StreamAssembler) (p : StreamPayload) : list StreamEvent * StreamAssembler :=
  ([mkEvent (next_sequence a) p],
   mkAssembler (text a) (reasoning a) (tool_calls a) (open a) (assembled a) (sat_add u64_max (next_sequence a) 1) (limit a) (ended a)).

(** [open.iter_mut().find(..)] and [push_str] on what it found. *)
Fixpoint push_fragment (id fragment : str) (open : list OpenToolCall) : option (list OpenToolCall) :=
  match open with
  | [] => None
  | o :: rest =>
      if decide (oc_call_id o = id) then Some (mkOpen (oc_call_id o) (oc_name o) (oc_arguments o ++ fragment) :: rest)
      else (o ::.) <$> push_fragment id fragment rest
  end.

(** [open.iter().position(..)] and [open.remove(index)]. *)
Fixpoint take_open (id : str) (open : list OpenToolCall) : option (OpenToolCall * list OpenToolCall) :=
  match open with
  | [] => None
  | o :: rest =>
      if decide (oc_call_id o = id) then Some (o, rest)
      else '(found, rest) ← take_open id rest; Some (found, o :: rest)
  end.

Definition message_of (a : StreamAssembler) : AssistantMessage := mkMessage (text a) (reasoning a) (tool_calls a).

(** Every refusal comes before the first change, so [push] returns the new state only
    on success. *)
Definition push (a : StreamAssembler) (c : ProviderChunk) : result StreamError (list StreamEvent * StreamAssembler) :=
  if ended a then Err ContentAfterEnd
  else
    match c with
    | TextDelta t =>
        if decide (t = []) then Ok ([], a)
        else
          _ ← reserve a (size t);
          Ok (emit (mkAssembler (text a ++ t) (reasoning a) (tool_calls a) (open a) (sat_add u64_max (assembled a) (size t))
                      (next_sequence a) (limit a) (ended a)) (PTextDelta t))
    | ReasoningDelta t =>
        if decide (t = []) then Ok ([], a)
        else
          _ ← reserve a (size t);
          Ok (emit (mkAssembler (text a) (reasoning a ++ t) (tool_calls a) (open a) (sat_add u64_max (assembled a) (size t))
                      (next_sequence a) (limit a) (ended a)) (PReasoningDelta t))
    | ToolCallBegin id n =>
        if decide (trim n = []) then Err (EmptyToolName id)
        else if is_known a id then Err (DuplicateToolCall id)
        else
          _ ← reserve a (size n);
          Ok (emit (mkAssembler (text a) (reasoning a) (tool_calls a) (open a ++ [mkOpen id n []])
                      (sat_add u64_max (assembled a) (size n)) (next_sequence a) (limit a) (ended a)) (ToolCallStarted id n))
    | ToolCallArgumentsDelta id fragment =>
        _ ← reserve a (size fragment);
        open' ← ok_or (UnknownToolCall id) (push_fragment id fragment (open a));
        Ok ([], mkAssembler (text a) (reasoning a) (tool_calls a) open' (sat_add u64_max (assembled a) (size fragment))
                  (next_sequence a) (limit a) (ended a))
    | ToolCallEnd id =>
        '(o, rest) ← ok_or (UnknownToolCall id) (take_open id (open a));
        let call := mkCall (oc_call_id o) (oc_name o) (oc_arguments o) in
        Ok (emit (mkAssembler (text a) (reasoning a) (tool_calls a ++ [call]) rest (assembled a) (next_sequence a) (limit a)
                    (ended a)) (ToolCallCompleted call))
    | MessageEnd =>
        match open a with
        | o :: _ => Err (UnterminatedToolCall (oc_call_id o))
        | [] =>
            Ok (emit (mkAssembler (text a) (reasoning a) (tool_calls a) (open a) (assembled a) (next_sequence a) (limit a) true)
                  (MessageCompleted (message_of a)))
        end
    end.

Definition finish (a : StreamAssembler) : option AssistantMessage := if ended a then Some (message_of a) else None.

Definition into_partial (a : StreamAssembler) : PartialAssistantMessage :=
  mkPartial (text a) (reasoning a) (tool_calls a)
    ((λ o, mkPending (oc_call_id o) (oc_name o) (oc_arguments o)) <$> open a) (next_sequence a).

(** The caller's loop over the chunks of a stream, up to the first refusal. *)
Fixpoint push_all (a : StreamAssembler) (cs : list ProviderChunk) : result StreamError (list StreamEvent * StreamAssembler) :=
  match cs with
  | [] => Ok ([], a)
  | c :: cs =>
      '(es, a) ← push a c;
      '(rest, a) ← push_all a cs;
      Ok (es ++ rest, a)
  end.

(** ** What a stream means

    Everything an assembled message holds, read off the chunks themselves. *)

Definition begun (cs : list ProviderChunk) : list str := omap (λ c, match c with ToolCallBegin id _ => Some id | _ => None end) cs.
Definition closed (cs : list ProviderChunk) : list str := omap (λ c, match c with ToolCallEnd id => Some id | _ => None end) cs.
Definition streaming (cs : list ProviderChunk) : list str := filter (.∉ closed cs) (begun cs).

Definition said (cs : list ProviderChunk) : str := concat (omap (λ c, match c with TextDelta t => Some t | _ => None end) cs).
Definition thought (cs : list ProviderChunk) : str := concat (omap (λ c, match c with ReasoningDelta t => Some t | _ => None end) cs).
Definition name_of (cs : list ProviderChunk) (id : str) : str :=
  default [] (head (omap (λ c, match c with ToolCallBegin i n => if decide (i = id) then Some n else None | _ => None end) cs)).
Definition arguments_of (cs : list ProviderChunk) (id : str) : str :=
  concat (omap (λ c, match c with ToolCallArgumentsDelta i f => if decide (i = id) then Some f else None | _ => None end) cs).
Definition call_of (cs : list ProviderChunk) (id : str) : ToolCall := mkCall id (name_of cs id) (arguments_of cs id).

Definition chunk_size (c : ProviderChunk) : Z :=
  match c with
  | TextDelta t | ReasoningDelta t => size t
  | ToolCallBegin _ n => size n
  | ToolCallArgumentsDelta _ f => size f
  | _ => 0
  end.
Definition total (cs : list ProviderChunk) : Z := sum_of chunk_size cs.

Definition message (cs : list ProviderChunk) : AssistantMessage := mkMessage (said cs) (thought cs) (call_of cs <$> closed cs).

(** The event of [c] after [before]. *)
Definition payload_of (before : list ProviderChunk) (c : ProviderChunk) : list StreamPayload :=
  match c with
  | TextDelta [] | ReasoningDelta [] | ToolCallArgumentsDelta _ _ => []
  | TextDelta t => [PTextDelta t]
  | ReasoningDelta t => [PReasoningDelta t]
  | ToolCallBegin id n => [ToolCallStarted id n]
  | ToolCallEnd id => [ToolCallCompleted (call_of before id)]
  | MessageEnd => [MessageCompleted (message before)]
  end.

Fixpoint payloads (before cs : list ProviderChunk) : list StreamPayload :=
  match cs with
  | [] => []
  | c :: cs => payload_of before c ++ payloads (before ++ [c]) cs
  end.

(** Numbered without a gap, from zero. *)
Definition events (cs : list ProviderChunk) : list StreamEvent :=
  imap (λ i p, mkEvent (Z.of_nat i) p) (payloads [] cs).

(** A stream keeps the contract when every chunk is in order: nothing after the end, calls
    opened once under a name, fragments and ends only for calls that are streaming, no
    end while one is, and within the size limit. *)
Definition chunk_ok (limit : Z) (before : list ProviderChunk) (c : ProviderChunk) : Prop :=
  MessageEnd ∉ before ∧ total before + chunk_size c ≤ limit ∧
  match c with
  | TextDelta _ | ReasoningDelta _ => True
  | ToolCallBegin id n => trim n ≠ [] ∧ id ∉ begun before
  | ToolCallArgumentsDelta id _ | ToolCallEnd id => id ∈ streaming before
  | MessageEnd => streaming before = []
  end.

Definition legal (limit : Z) (cs : list ProviderChunk) : Prop :=
  ∀ before c after, cs = before ++ c :: after → chunk_ok limit before c.

(** The assembler after [cs]. *)
Definition assembled_from (limit : Z) (cs : list ProviderChunk) : StreamAssembler :=
  mkAssembler (said cs) (thought cs) (call_of cs <$> closed cs)
    ((λ id, mkOpen id (name_of cs id) (arguments_of cs id)) <$> streaming cs)
    (total cs) (len (payloads [] cs)) limit (bool_decide (MessageEnd ∈ cs)).

(** * Proofs *)

Lemma size_app s s' : size (s ++ s') = size s + size s'.
Proof. unfold size, len, as_bytes. rewrite fmap_app, concat_app, length_app. lia. Qed.

Lemma size_nonneg s : 0 ≤ size s.
Proof. unfold size, len. lia. Qed.

Lemma size_pos s : s ≠ [] → 1 ≤ size s.
Proof.
  destruct s as [|c s]; [done|intros _]. change (c :: s) with ([c] ++ s). rewrite size_app.
  enough (1 ≤ size [c]) by (pose proof (size_nonneg s); lia).
  unfold size, len, as_bytes, encode_char. cbn. repeat case_match; cbn; lia.
Qed.

Lemma sum_of_app {A} (f : A → Z) l l' : sum_of f (l ++ l') = sum_of f l + sum_of f l'.
Proof. induction l as [|x l IH]; cbn; [done|]. rewrite IH. lia. Qed.

Lemma sum_of_fmap {A B} (f : B → Z) (g : A → B) l : sum_of f (g <$> l) = sum_of (f ∘ g) l.
Proof. induction l as [|x l IH]; cbn; [done|]. by rewrite IH. Qed.

Lemma total_snoc cs c : total (cs ++ [c]) = total cs + chunk_size c.
Proof. unfold total. rewrite sum_of_app. cbn. lia. Qed.

Lemma chunk_size_nonneg c : 0 ≤ chunk_size c.
Proof. destruct c; cbn; auto using size_nonneg with lia. Qed.

Lemma total_nonneg cs : 0 ≤ total cs.
Proof. induction cs as [|c cs IH]; cbn; [done|]. pose proof (chunk_size_nonneg c). unfold total in *. lia. Qed.

Lemma payloads_app before cs cs' : payloads before (cs ++ cs') = payloads before cs ++ payloads (before ++ cs) cs'.
Proof.
  revert before. induction cs as [|c cs IH]; intros before; cbn; [by rewrite app_nil_r|].
  rewrite IH, <- !app_assoc. done.
Qed.

Lemma payloads_snoc cs c : payloads [] (cs ++ [c]) = payloads [] cs ++ payload_of cs c.
Proof. rewrite payloads_app. cbn. by rewrite app_nil_r. Qed.

(** ** Legal streams *)

Lemma legal_snoc l cs c : legal l (cs ++ [c]) ↔ legal l cs ∧ chunk_ok l cs c.
Proof.
  split.
  - intros Hl. split; [|by apply (Hl cs c [])]. intros before c' after ->. apply (Hl before c' (after ++ [c])).
    by rewrite <- app_assoc.
  - intros [Hl Hc] before c' after [(-> & <- & <-)|(after' & -> & ->)]%snoc_split; [done|]. by eapply Hl.
Qed.

Section Legal.
Context (l : Z) (Hl : 0 ≤ l).

Lemma begun_snoc cs c : begun (cs ++ [c]) = begun cs ++ match c with ToolCallBegin id _ => [id] | _ => [] end.
Proof. unfold begun. rewrite omap_app. by destruct c. Qed.

Lemma closed_snoc cs c : closed (cs ++ [c]) = closed cs ++ match c with ToolCallEnd id => [id] | _ => [] end.
Proof. unfold closed. rewrite omap_app. by destruct c. Qed.

Lemma elem_of_streaming cs id : id ∈ streaming cs ↔ id ∈ begun cs ∧ id ∉ closed cs.
Proof. unfold streaming. rewrite list_elem_of_filter. tauto. Qed.

(** Calls are opened once, closed once and after they were opened. *)
Record calls_ok (cs : list ProviderChunk) : Prop := mkCallsOk {
  co_begun : NoDup (begun cs);
  co_closed : NoDup (closed cs);
  co_sub : ∀ id, id ∈ closed cs → id ∈ begun cs;
  co_args : ∀ id, id ∉ begun cs → arguments_of cs id = [];
  co_total : total cs ≤ l;
  co_payloads : len (payloads [] cs) ≤ total cs + len (closed cs) + (if decide (MessageEnd ∈ cs) then 1 else 0);
  co_count : len (begun cs) ≤ total cs;
}.

Lemma len_snoc {A} (xs : list A) ys : len (xs ++ ys) = len xs + len ys.
Proof. unfold len. rewrite length_app. lia. Qed.

Lemma len_single {A} (x : A) : len [x] = 1.
Proof. done. Qed.

Lemma payload_count cs c :
  (∀ id n, c = ToolCallBegin id n → n ≠ []) →
  len (payload_of cs c) ≤ chunk_size c + match c with ToolCallEnd _ | MessageEnd => 1 | _ => 0 end.
Proof.
  intros Hn. pose proof (chunk_size_nonneg c).
  destruct c as [[|x t]|[|x t]|id n|id f|id|]; cbn [payload_of chunk_size] in *; rewrite ?len_single; change (@len StreamPayload []) with 0; try lia.
  - pose proof (size_pos (x :: t) ltac:(done)). lia.
  - pose proof (size_pos (x :: t) ltac:(done)). lia.
  - pose proof (size_pos n (Hn id n eq_refl)). lia.
Qed.

Lemma arguments_snoc cs c id : arguments_of (cs ++ [c]) id =
  arguments_of cs id ++ match c with ToolCallArgumentsDelta i f => if decide (i = id) then f else [] | _ => [] end.
Proof.
  unfold arguments_of. rewrite omap_app, concat_app. f_equal. destruct c; try done. cbn. case_decide; cbn; [|done].
  by rewrite app_nil_r.
Qed.

Lemma name_snoc cs c id :
  (id ∈ begun cs ∨ ∀ n, c ≠ ToolCallBegin id n) → name_of (cs ++ [c]) id = name_of cs id.
Proof.
  unfold name_of. rewrite omap_app. intros [Hin|Hc].
  - induction cs as [|c' cs IH]; [by apply elem_of_nil in Hin|]. cbn in *. destruct c'; try (by apply IH).
    case_decide as Hd; [done|]. apply elem_of_cons in Hin as [->|Hin]; [done|by apply IH].
  - destruct c; cbn; rewrite ?app_nil_r; try done. rewrite decide_False by naive_solver. by rewrite app_nil_r.
Qed.

Lemma name_begun cs id n : id ∉ begun cs → name_of (cs ++ [ToolCallBegin id n]) id = n.
Proof.
  unfold name_of. rewrite omap_app. intros Hin.
  induction cs as [|c cs IH]; [cbn; by rewrite decide_True|]. cbn in *. destruct c; try (by apply IH).
  apply not_elem_of_cons in Hin as [Hne Hin]. rewrite decide_False by done. by apply IH.
Qed.

Lemma trim_nil : trim [] = [].
Proof. done. Qed.

Lemma calls_ok_step cs c : calls_ok cs → chunk_ok l cs c → calls_ok (cs ++ [c]).
Proof.
  intros [Hb Hc Hs Ha Ht Hp Hn] (Hend & Htot & Hok).
  assert (Hname : ∀ id n, c = ToolCallBegin id n → n ≠ []).
  { intros id n -> ->. by destruct Hok as [[] _]. }
  pose proof (payload_count cs c Hname) as Hpc. rewrite decide_False in Hp by done.
  split; rewrite ?begun_snoc, ?closed_snoc, ?total_snoc, ?payloads_snoc, ?len_snoc.
  - apply NoDup_app. split; [done|]. destruct c; try (split; [set_solver|apply NoDup_nil_2]).
    destruct Hok as [_ Hid]. split; [set_solver|apply NoDup_singleton].
  - apply NoDup_app. split; [done|]. destruct c; try (split; [set_solver|apply NoDup_nil_2]).
    apply elem_of_streaming in Hok. split; [set_solver|apply NoDup_singleton].
  - intros id. rewrite !elem_of_app. intros [Hi|Hi]; [by left; apply Hs|left]. destruct c; try (by apply elem_of_nil in Hi).
    apply list_elem_of_singleton in Hi as ->. by apply elem_of_streaming in Hok as [? _].
  - intros id Hid. rewrite arguments_snoc. rewrite Ha by set_solver. destruct c; try done. case_decide; [|done]. subst.
    apply elem_of_streaming in Hok. set_solver.
  - lia.
  - destruct c; rewrite ?(len_nil (A:=str)), ?(len_single (A:=str)); try (case_decide; lia).
    rewrite decide_True by set_solver. lia.
  - pose proof (chunk_size_nonneg c) as Hcs. destruct c as [| |id n| | |]; rewrite ?(len_nil (A:=str)), ?(len_single (A:=str)); try lia.
    pose proof (size_pos n (Hname _ _ eq_refl)). cbn [chunk_size]. lia.
Qed.

Lemma legal_calls_ok cs : legal l cs → calls_ok cs.
Proof.
  induction cs as [|c cs IH] using rev_ind; intros Hlegal.
  - split; cbn; try done; apply NoDup_nil_2.
  - apply legal_snoc in Hlegal as [H1 H2]. apply calls_ok_step; auto.
Qed.

(** ** Streaming calls *)

Lemma streaming_nodup cs : calls_ok cs → NoDup (streaming cs).
Proof. intros [Hb _ _ _ _ _ _]. by apply NoDup_filter. Qed.

Lemma streaming_snoc cs c :
  calls_ok cs → chunk_ok l cs c →
  streaming (cs ++ [c]) =
  match c with
  | ToolCallBegin id _ => streaming cs ++ [id]
  | ToolCallEnd id => filter (.≠ id) (streaming cs)
  | _ => streaming cs
  end.
Proof.
  intros Hco (_ & _ & Hok). unfold streaming. rewrite begun_snoc, closed_snoc.
  destruct c as [| |id n| |id|]; rewrite ?app_nil_r; try done.
  - rewrite filter_app, filter_cons_True, filter_nil; [done|]. intros Hin. apply (co_sub _ Hco) in Hin. by destruct Hok.
  - rewrite list_filter_filter. apply list_filter_iff. intros i. rewrite elem_of_app, list_elem_of_singleton. naive_solver.
Qed.

Lemma push_fragment_in (n g : str → str) id f ids :
  NoDup ids → id ∈ ids →
  push_fragment id f ((λ i, mkOpen i (n i) (g i)) <$> ids) =
  Some ((λ i, mkOpen i (n i) (g i ++ if decide (id = i) then f else [])) <$> ids).
Proof.
  induction 1 as [|i ids Hi Hnd IH]; [by intros ?%elem_of_nil|]. intros Hid. cbn. case_decide as Hd.
  - subst i. rewrite decide_True by done. do 2 f_equal. apply list_fmap_ext. intros k j Hj.
    rewrite decide_False; [by rewrite app_nil_r|]. intros ->. by apply list_elem_of_lookup_2 in Hj.
  - rewrite decide_False by done. rewrite app_nil_r. apply elem_of_cons in Hid as [?|Hid]; [done|]. by rewrite (IH Hid).
Qed.

Lemma push_fragment_notin (n g : str → str) id f ids :
  id ∉ ids → push_fragment id f ((λ i, mkOpen i (n i) (g i)) <$> ids) = None.
Proof.
  induction ids as [|i ids IH]; [done|]. intros [Hne Hid]%not_elem_of_cons. cbn. rewrite decide_False by done. by rewrite IH.
Qed.

Lemma take_open_in (n g : str → str) id ids :
  NoDup ids → id ∈ ids →
  take_open id ((λ i, mkOpen i (n i) (g i)) <$> ids) =
  Some (mkOpen id (n id) (g id), (λ i, mkOpen i (n i) (g i)) <$> filter (.≠ id) ids).
Proof.
  induction 1 as [|i ids Hi Hnd IH]; [by intros ?%elem_of_nil|]. intros Hid. rewrite filter_cons.
  cbn [take_open fmap list_fmap oc_call_id]. destruct (decide (i = id)) as [->|Hd].
  - rewrite decide_False by naive_solver. do 3 f_equal. symmetry. apply filter_id. by intros j Hj ->.
  - rewrite decide_True by done. apply elem_of_cons in Hid as [?|Hid]; [done|]. by rewrite (IH Hid).
Qed.

Lemma take_open_notin (n g : str → str) id ids :
  id ∉ ids → take_open id ((λ i, mkOpen i (n i) (g i)) <$> ids) = None.
Proof.
  induction ids as [|i ids IH]; [done|]. intros [Hne Hid]%not_elem_of_cons. cbn. rewrite decide_False by done. by rewrite IH.
Qed.

(** ** One chunk *)

Definition numbered (n : Z) (ps : list StreamPayload) : list StreamEvent := imap (λ i p, mkEvent (n + Z.of_nat i) p) ps.

Context (Hroom : 2 * l + 1 < u64_max).

Lemma sequence_room cs : calls_ok cs → MessageEnd ∉ cs → len (payloads [] cs) < u64_max.
Proof.
  intros [Hb Hc Hs _ Ht Hp Hn] Hend. rewrite decide_False in Hp by done.
  assert (len (closed cs) ≤ len (begun cs)).
  { unfold len. apply inj_le, submseteq_length, NoDup_submseteq; auto. }
  pose proof (total_nonneg cs). lia.
Qed.

Lemma said_snoc cs c : said (cs ++ [c]) = said cs ++ match c with TextDelta t => t | _ => [] end.
Proof. unfold said. rewrite omap_app, concat_app. destruct c; cbn; by rewrite ?app_nil_r. Qed.

Lemma thought_snoc cs c : thought (cs ++ [c]) = thought cs ++ match c with ReasoningDelta t => t | _ => [] end.
Proof. unfold thought. rewrite omap_app, concat_app. destruct c; cbn; by rewrite ?app_nil_r. Qed.

(** A chunk leaves the calls that are no longer streaming alone. *)
Lemma closed_calls_kept cs c : calls_ok cs → chunk_ok l cs c → call_of (cs ++ [c]) <$> closed cs = call_of cs <$> closed cs.
Proof.
  intros Hco (_ & _ & Hok). apply list_fmap_ext. intros k id Hid%list_elem_of_lookup_2.
  unfold call_of. rewrite name_snoc by (left; by apply (co_sub _ Hco)). f_equal. rewrite arguments_snoc.
  destruct c; rewrite ?app_nil_r; try done. case_decide as Hd; [|by rewrite app_nil_r]. subst.
  by apply elem_of_streaming in Hok as [_ ?].
Qed.

(** What a chunk does to a call that is streaming. *)
Lemma open_calls_kept cs c (ids : list str) :
  (∀ id, id ∈ ids → id ∈ begun cs) → (∀ id f, c ≠ ToolCallArgumentsDelta id f) →
  (λ id, mkOpen id (name_of (cs ++ [c]) id) (arguments_of (cs ++ [c]) id)) <$> ids =
  (λ id, mkOpen id (name_of cs id) (arguments_of cs id)) <$> ids.
Proof.
  intros Hids Hc. apply list_fmap_ext. intros k id Hid%list_elem_of_lookup_2.
  rewrite name_snoc by (left; by apply Hids). f_equal. rewrite arguments_snoc. destruct c; rewrite ?app_nil_r; try done. naive_solver.
Qed.

Lemma streaming_begun cs id : id ∈ streaming cs → id ∈ begun cs.
Proof. by intros [? _]%elem_of_streaming. Qed.

Lemma is_known_spec cs id :
  calls_ok cs → is_known (assembled_from l cs) id = true ↔ id ∈ begun cs.
Proof.
  intros Hco. unfold is_known. cbn. rewrite orb_true_iff, !existsb_exists. split.
  - intros [(o & Ho & Hid)|(c & Hc & Hid)]; apply bool_decide_eq_true in Hid; subst.
    + apply list_elem_of_In, list_elem_of_fmap in Ho as (i & -> & Hi). by apply streaming_begun.
    + apply list_elem_of_In, list_elem_of_fmap in Hc as (i & -> & Hi). by apply (co_sub _ Hco).
  - intros Hin. destruct (decide (id ∈ closed cs)) as [Hc|Hc].
    + right. exists (call_of cs id). split; [|by apply bool_decide_eq_true]. apply list_elem_of_In. by apply list_elem_of_fmap_2.
    + left. exists (mkOpen id (name_of cs id) (arguments_of cs id)). split; [|by apply bool_decide_eq_true].
      apply list_elem_of_In, list_elem_of_fmap. exists id. split; [done|]. by apply elem_of_streaming.
Qed.

Lemma reserve_spec cs n u : calls_ok cs → 0 ≤ n → reserve (assembled_from l cs) n = Ok u ↔ total cs + n ≤ l.
Proof.
  intros Hco Hn. unfold reserve. cbn. pose proof (co_total _ Hco). pose proof (total_nonneg cs). unfold sat_add.
  destruct u. destruct (Z.ltb_spec l (Z.min (total cs + n) u64_max)); split; try done; lia.
Qed.

Lemma sat_total cs n : total cs + n ≤ l → sat_add u64_max (total cs) n = total cs + n.
Proof. unfold sat_add. pose proof (total_nonneg cs). lia. Qed.

Abbreviation opened cs := (λ id, mkOpen id (name_of cs id) (arguments_of cs id)).

Lemma assembled_snoc cs c :
  calls_ok cs → chunk_ok l cs c →
  assembled_from l (cs ++ [c]) =
  mkAssembler
    (said cs ++ match c with TextDelta t => t | _ => [] end)
    (thought cs ++ match c with ReasoningDelta t => t | _ => [] end)
    ((call_of cs <$> closed cs) ++ match c with ToolCallEnd id => [call_of cs id] | _ => [] end)
    match c with
    | ToolCallBegin id n => (opened cs <$> streaming cs) ++ [mkOpen id n []]
    | ToolCallArgumentsDelta id f =>
        (λ i, mkOpen i (name_of cs i) (arguments_of cs i ++ if decide (id = i) then f else [])) <$> streaming cs
    | ToolCallEnd id => opened cs <$> filter (.≠ id) (streaming cs)
    | _ => opened cs <$> streaming cs
    end
    (total cs + chunk_size c) (len (payloads [] cs) + len (payload_of cs c)) l
    (match c with MessageEnd => true | _ => false end).
Proof.
  intros Hco Hck. pose proof Hck as (Hend & _ & Hok). unfold assembled_from.
  rewrite said_snoc, thought_snoc, total_snoc, payloads_snoc, len_snoc, (streaming_snoc cs c Hco Hck), closed_snoc, fmap_app,
    closed_calls_kept by done. f_equal.
  - f_equal. destruct c; try done. cbn. unfold call_of. rewrite name_snoc, arguments_snoc, app_nil_r by (right; done). done.
  - destruct c as [| |id n|id f|id|]; try (apply open_calls_kept; [by intros ?; apply streaming_begun|done]).
    + rewrite fmap_app, open_calls_kept; [|by intros ?; apply streaming_begun|done]. f_equal. cbn. destruct Hok as [_ Hid].
      rewrite name_begun, arguments_snoc, app_nil_r, (co_args _ Hco) by done. done.
    + apply list_fmap_ext. intros k i Hi%list_elem_of_lookup_2. rewrite name_snoc by (left; by apply streaming_begun).
      by rewrite arguments_snoc.
    + apply open_calls_kept; [|done]. intros i [_ Hi]%list_elem_of_filter. by apply streaming_begun.
  - destruct c; try (apply bool_decide_eq_false; set_solver). apply bool_decide_eq_true. set_solver.
Qed.

Lemma push_ok cs c :
  calls_ok cs → chunk_ok l cs c →
  push (assembled_from l cs) c = Ok (numbered (len (payloads [] cs)) (payload_of cs c), assembled_from l (cs ++ [c])).
Proof.
  intros Hco Hck. rewrite (assembled_snoc cs c Hco Hck). destruct Hck as (Hend & Htot & Hok).
  pose proof (sequence_room cs Hco Hend) as Hseq.
  assert (Hnext : sat_add u64_max (len (payloads [] cs)) 1 = len (payloads [] cs) + 1) by (unfold sat_add; lia).
  assert (Hres : reserve (assembled_from l cs) (chunk_size c) = Ok tt) by (apply reserve_spec; [done|apply chunk_size_nonneg|done]).
  pose proof (sat_total cs (chunk_size c) Htot) as Hsat.
  unfold push, emit. cbn [ended assembled_from]. rewrite bool_decide_eq_false_2 by done.
  destruct c as [t|t|id n|id f|id|]; cbn [chunk_size] in *.
  - case_decide as Ht.
    + subst t. cbn. unfold assembled_from. rewrite bool_decide_eq_false_2, !app_nil_r, !Z.add_0_r by done. done.
    + rewrite Hres. cbn. rewrite Hsat, Hnext, !app_nil_r. destruct t; [done|]. cbn. by rewrite Z.add_0_r.
  - case_decide as Ht.
    + subst t. cbn. unfold assembled_from. rewrite bool_decide_eq_false_2, !app_nil_r, !Z.add_0_r by done. done.
    + rewrite Hres. cbn. rewrite Hsat, Hnext, !app_nil_r. destruct t; [done|]. cbn. by rewrite Z.add_0_r.
  - destruct Hok as [Hn Hid]. rewrite decide_False by done.
    destruct (is_known (assembled_from l cs) id) eqn:Ek; [by apply is_known_spec in Ek|].
    rewrite Hres. cbn. rewrite Hsat, Hnext, !app_nil_r, Z.add_0_r. done.
  - rewrite Hres. cbn. rewrite push_fragment_in by (done || by apply streaming_nodup). cbn.
    rewrite Hsat, !app_nil_r, Z.add_0_r. done.
  - cbn. rewrite take_open_in by (done || by apply streaming_nodup). cbn.
    rewrite Hnext, !app_nil_r, !Z.add_0_r. done.
  - cbn. rewrite Hok. cbn. rewrite Hnext, !app_nil_r, !Z.add_0_r. done.
Qed.

Lemma push_accepts cs c r : calls_ok cs → push (assembled_from l cs) c = Ok r → chunk_ok l cs c.
Proof.
  intros Hco. unfold push. cbn [ended assembled_from]. case_bool_decide as Hend; [done|]. intros Hp. split; [done|].
  pose proof (co_total _ Hco) as Ht.
  destruct c as [t|t|id n|id f|id|]; cbn [chunk_size].
  - case_decide as Hn; [subst t; split; [change (size []) with 0; lia|done]|].
    apply bind_Ok in Hp as (u & Hr & _). apply reserve_spec in Hr; [done|done|apply size_nonneg].
  - case_decide as Hn; [subst t; split; [change (size []) with 0; lia|done]|].
    apply bind_Ok in Hp as (u & Hr & _). apply reserve_spec in Hr; [done|done|apply size_nonneg].
  - case_decide as Hn; [done|]. destruct (is_known _ _) eqn:Ek; [done|]. apply bind_Ok in Hp as (u & Hr & _).
    apply reserve_spec in Hr; [|done|apply size_nonneg]. split; [done|]. split; [done|]. intros Hid.
    apply (is_known_spec cs id Hco) in Hid. congruence.
  - apply bind_Ok in Hp as (u & Hr & Hf). apply reserve_spec in Hr; [|done|apply size_nonneg]. split; [done|].
    apply bind_Ok in Hf as (o & Hf%ok_or_Ok & _). apply dec_stable. intros Hid. cbn in Hf. by rewrite push_fragment_notin in Hf.
  - apply bind_Ok in Hp as ([o rest] & Hf%ok_or_Ok & _). split; [lia|]. apply dec_stable. intros Hid. cbn in Hf.
    by rewrite take_open_notin in Hf.
  - split; [lia|]. cbn in Hp. by destruct (streaming cs).
Qed.

Lemma push_all_app a cs cs' :
  push_all a (cs ++ cs') = ('(es, a) ← push_all a cs; '(es', a) ← push_all a cs'; Ok (es ++ es', a)).
Proof.
  revert a. induction cs as [|c cs IH]; intros a; cbn.
  - destruct (push_all a cs') as [[es' a']|e]; done.
  - destruct (push a c) as [[es a1]|e]; [cbn|done]. rewrite IH. destruct (push_all a1 cs) as [[es1 a2]|e]; [cbn|done].
    destruct (push_all a2 cs') as [[es2 a3]|e]; [cbn|done]. by rewrite app_assoc.
Qed.

Lemma events_snoc cs c : events (cs ++ [c]) = events cs ++ numbered (len (payloads [] cs)) (payload_of cs c).
Proof.
  unfold events, numbered. rewrite payloads_snoc, imap_app. f_equal. apply imap_ext. intros i p _. cbn. f_equal. unfold len. lia.
Qed.

Lemma push_all_exact cs r :
  push_all (with_limit l) cs = Ok r ↔ legal l cs ∧ r = (events cs, assembled_from l cs).
Proof.
  revert r. induction cs as [|c cs IH] using rev_ind; intros r.
  - split; [intros [= <-]; split; [by intros [] ? ?|done]|by intros [_ ->]].
  - rewrite push_all_app, bind_Ok, legal_snoc. split.
    + intros ([es a] & H1 & H2). apply IH in H1 as [Hlegal [= -> ->]]. pose proof (legal_calls_ok cs Hlegal) as Hco.
      cbn in H2. destruct (push (assembled_from l cs) c) as [[es' a']|e] eqn:Ep; [|done]. cbn in H2. injection H2 as <-.
      pose proof (push_accepts cs c _ Hco Ep) as Hck. split; [done|]. rewrite (push_ok cs c Hco Hck) in Ep.
      injection Ep as <- <-. by rewrite events_snoc, app_nil_r.
    + intros [[Hlegal Hck] ->]. pose proof (legal_calls_ok cs Hlegal) as Hco. exists (events cs, assembled_from l cs).
      split; [by apply IH|]. cbn. rewrite (push_ok cs c Hco Hck). cbn. by rewrite events_snoc, app_nil_r.
Qed.

(** ** Continuing an interrupted stream *)

Definition recount (a : StreamAssembler) : Z :=
  size (text a) + size (reasoning a) + sum_of (λ c, size (name c) + size (arguments c)) (tool_calls a)
  + sum_of (λ o, size (oc_name o) + size (oc_arguments o)) (open a).

Lemma sum_of_ext {A} (f g : A → Z) xs : (∀ x, x ∈ xs → f x = g x) → sum_of f xs = sum_of g xs.
Proof. induction xs as [|x xs IH]; intros H; cbn; [done|]. rewrite H by left. rewrite IH; [done|]. intros y Hy. apply H. by right. Qed.

Lemma sum_of_without (f : str → Z) id ids :
  NoDup ids → id ∈ ids → sum_of f ids = f id + sum_of f (filter (.≠ id) ids).
Proof.
  induction 1 as [|i ids Hi Hnd IH]; [by intros ?%elem_of_nil|]. intros Hid. rewrite filter_cons.
  destruct (decide (i = id)) as [->|Hne].
  - rewrite decide_False by naive_solver. cbn. f_equal. f_equal. symmetry. apply filter_id. by intros j Hj ->.
  - rewrite decide_True by done. cbn. apply elem_of_cons in Hid as [?|Hid]; [done|]. rewrite (IH Hid). lia.
Qed.

Lemma recount_assembled cs : legal l cs → recount (assembled_from l cs) = total cs.
Proof.
  induction cs as [|c cs IH] using rev_ind; [done|]. intros [Hlegal Hck]%legal_snoc. specialize (IH Hlegal).
  pose proof (legal_calls_ok cs Hlegal) as Hco. rewrite (assembled_snoc cs c Hco Hck), total_snoc, <- IH.
  pose proof (streaming_nodup cs Hco) as Hnd. destruct Hck as (_ & _ & Hok). change (size []) with 0 in *.
  unfold recount. cbn. rewrite !sum_of_fmap in *. rewrite !size_app, sum_of_app.
  destruct c as [t|t|id n|id f|id|]; cbn; change (size []) with 0; rewrite ?sum_of_app, ?sum_of_fmap; cbn; change (size []) with 0; try lia.
  - rewrite !(sum_of_without _ id (streaming cs)) by done. unfold compose. cbn. rewrite decide_True, size_app by done.
    rewrite (sum_of_ext (λ x, size (name_of cs x) + size (arguments_of cs x ++ (if decide (id = x) then f else [])))
               (λ x, size (name_of cs x) + size (arguments_of cs x)) (filter (.≠ id) (streaming cs))); [lia|].
    intros x [Hx _]%list_elem_of_filter. rewrite decide_False by done. by rewrite app_nil_r.
  - rewrite !(sum_of_without (_ ∘ (λ i, mkOpen i (name_of cs i) (arguments_of cs i))) id (streaming cs)) by done. unfold compose. cbn. lia.
Qed.

Lemma resume_partial cs :
  legal l cs → MessageEnd ∉ cs → resume (into_partial (assembled_from l cs)) l = assembled_from l cs.
Proof.
  intros Hlegal Hend. pose proof (recount_assembled cs Hlegal) as Hr. unfold recount in Hr. unfold resume, into_partial. cbn in *.
  unfold assembled_from. rewrite bool_decide_eq_false_2 by done. rewrite <- Hr. f_equal.
  - rewrite <- !list_fmap_compose. done.
  - rewrite <- !list_fmap_compose. done.
Qed.

End Legal.

(** C27. The assembler accepts exactly the streams that keep the contract (nothing after
    the end, calls opened once under a name, fragments and ends only for calls that
    are streaming, no end while one is, at most four mebibytes) and turns one into
    exactly what it says: the texts in order, each tool call with its own
    fragments however they interleave, and one event per change, numbered from zero
    without a gap. A stream interrupted anywhere and continued from its saved part
    gives the same events and the same message as one that was not. *)
Theorem stream_assembly_exact cs :
  (∀ r, push_all assembler_new cs = Ok r ↔
        legal MAX_ASSEMBLED_BYTES cs ∧ r = (events cs, assembled_from MAX_ASSEMBLED_BYTES cs)) ∧
  (∀ before after es a, cs = before ++ after → push_all assembler_new before = Ok (es, a) → ended a = false →
     push_all assembler_new cs =
       ('(rest, a) ← push_all (resume (into_partial a) MAX_ASSEMBLED_BYTES) after; Ok (es ++ rest, a))) ∧
  (∀ es a, push_all assembler_new cs = Ok (es, a) → finish a = if decide (MessageEnd ∈ cs) then Some (message cs) else None).
Proof.
  assert (Hl : 0 ≤ MAX_ASSEMBLED_BYTES) by done. assert (Hroom : 2 * MAX_ASSEMBLED_BYTES + 1 < u64_max) by done.
  split; [by apply push_all_exact|]. split.
  - intros before after es a -> Hb He. rewrite push_all_app, Hb. cbn.
    apply (push_all_exact _ Hl Hroom) in Hb as [Hlegal [= -> ->]]. cbn in He. apply bool_decide_eq_false in He.
    by rewrite resume_partial.
  - intros es a H. apply (push_all_exact _ Hl Hroom) in H as [_ [= -> ->]]. unfold finish. cbn.
    case_decide; [by rewrite bool_decide_eq_true_2|by rewrite bool_decide_eq_false_2].
Qed.

(** Two calls whose fragments interleave, interrupted in the middle. *)
Example interleaved_calls :
  let cs := [TextDelta (chars "ok"); ToolCallBegin (chars "a") (chars "ls"); ToolCallBegin (chars "b") (chars "rm");
             ToolCallArgumentsDelta (chars "a") (chars "1"); ToolCallArgumentsDelta (chars "b") (chars "2");
             ToolCallArgumentsDelta (chars "a") (chars "3"); ToolCallEnd (chars "b"); ToolCallEnd (chars "a"); MessageEnd] in
  (λ r, (len r.1, finish r.2)) <$> push_all assembler_new cs =
  Ok (6, Some (mkMessage (chars "ok") [] [mkCall (chars "b") (chars "rm") (chars "2"); mkCall (chars "a") (chars "ls") (chars "13")])).
Proof. vm_compute. reflexivity. Qed.

End TurnStream.
