(* ===== verification/TurnPorts.v ===== *)
(** * What a turn talks to

    The values and ports of [crates/claw-application/src/ports] a turn of
    [crates/claw-runtime/src/runtime.rs] uses, and the monad its functions run in.

    Every port is an arm of [Call] with its reply type. An oracle answers the [i]-th
    call, or cuts the turn short there: its task was aborted, or is still waiting.
    Signals that others set (cancellation, revocation, pause) are read by calls too,
    and a [select!] is one call whose reply says which branch won. The log keeps
    every call with its reply. The clock is read at a time that depends on the
    number of calls made so far. *)

From S2P Require Import Prelude Utf8 Approval Goals GoalService TurnState TurnStream.

Module TurnPorts.
Import TurnState TurnStream.

(** ** Tools *)

Record ToolDescriptor := mkDescriptor {
  td_name : str;
  summary : str;
  requires_approval : bool;
  mutates_workspace : bool;
}.

Inductive ToolStatus := StOk | StFailed | StDenied | StCancelled | StTimedOut.

#[export] Instance ToolStatus_eq_dec : EqDecision ToolStatus.
Proof. solve_decision. Defined.

Definition is_failure (s : ToolStatus) : bool := match s with StOk => false | _ => true end.

Record ToolOutcome := mkOutcome {
  to_call_id : str;
  to_status : ToolStatus;
  to_output : str;
  changed_workspace : bool;
}.

Record ToolInvocation := mkInvocation { in_session : str; in_turn : Z; in_call : ToolCall }.

Inductive InternalToolAuditPhase := Authorized | AuditCompleted | AuditFailed.

Abbreviation PortError := Approval.PortError.
Abbreviation Authority := Approval.InvocationAuthority.
Abbreviation Binding := Approval.ToolBinding.

#[export] Instance ToolBinding_eq_dec : EqDecision Binding.
Proof. solve_decision. Defined.

Inductive ToolExecutionError :=
| ApprovalFailed (e : Approval.ApprovalError)
| OutcomeUnknown (detail : str).

(** How the race between the invocation, its deadline and its cancellation ended. *)
Inductive Interruption := MidFlight | PastDeadline.
Inductive Race :=
| Finished (r : result PortError ToolOutcome)
| Interrupted (i : Interruption).

(** ** The provider *)

Inductive UsageReporting := Unreported | PartialUsage | CompleteUsage.
Inductive ProviderResponseFinish := FinishStop | FinishToolCalls | FinishLength | FinishContentFilter.

#[export] Instance UsageReporting_eq_dec : EqDecision UsageReporting.
Proof. solve_decision. Defined.
#[export] Instance ProviderResponseFinish_eq_dec : EqDecision ProviderResponseFinish.
Proof. solve_decision. Defined.

Record ProviderResponseReport := mkReport {
  pr_provider : str;
  pr_model : str;
  response_id : option str;
  usage_reporting : UsageReporting;
  input_tokens : Z;
  output_tokens : Z;
  cached_input_tokens : Z;
  reasoning_tokens : Z;
  finish_reason : ProviderResponseFinish;
}.

#[export] Instance ProviderResponseReport_eq_dec : EqDecision ProviderResponseReport.
Proof. solve_decision. Defined.

Definition valid_identity (value : str) : bool :=
  negb (bool_decide (value = [])) && (len (as_bytes value) <=? 512) && negb (existsb (λ c, is_control c || is_whitespace c) value).

(** [ProviderResponseReport::validate] *)
Definition validate (r : ProviderResponseReport) : result PortError unit :=
  if negb (valid_identity (pr_provider r)) || negb (valid_identity (pr_model r))
     || Approval.some_and (λ id, negb (valid_identity id)) (response_id r)
     || (u64_max <? input_tokens r + output_tokens r)
     || (input_tokens r <? cached_input_tokens r)
     || (output_tokens r <? reasoning_tokens r)
     || (bool_decide (usage_reporting r = Unreported) && (negb (input_tokens r =? 0) || negb (output_tokens r =? 0)))
  then Err (Approval.Invalid (chars "provider response accounting is inconsistent"))
  else Ok tt.

Record ProviderRoundRecord := mkRound { round : Z; response : option ProviderResponseReport }.

#[export] Instance ProviderRoundRecord_eq_dec : EqDecision ProviderRoundRecord.
Proof. solve_decision. Defined.

Definition MAX_PROVIDER_ROUND_RECORDS : Z := 1024.

(** The loop of [validate_sequence], from position [index]. *)
Fixpoint validate_rounds (index : Z) (records : list ProviderRoundRecord) : result PortError unit :=
  match records with
  | [] => Ok tt
  | record :: records =>
      if negb ((index <=? u32_max) && (index =? round record)) then
        Err (Approval.Invalid (chars "provider accounting rounds are not contiguous"))
      else
        _ ← match response record with Some r => validate r | None => Ok tt end;
        validate_rounds (index + 1) records
  end.

(** [ProviderRoundRecord::validate_sequence] *)
Definition validate_sequence (records : list ProviderRoundRecord) : result PortError unit :=
  if MAX_PROVIDER_ROUND_RECORDS <? len records then Err (Approval.Invalid (chars "provider accounting round limit exceeded"))
  else validate_rounds 0 records.

Inductive PromptMessage :=
| System (text : str)
| User (text : str)
| Assistant (text : str) (tool_calls : list ToolCall)
| PromptToolResult (call_id output : str) (failed : bool).

Record ProviderRequest := mkRequest {
  rq_session : str;
  rq_turn : Z;
  rq_round : Z;
  messages : list PromptMessage;
  tool_names : list str;
  rq_model : option str;
}.

(** ** State *)

Record SessionSnapshot := mkSnapshot {
  ss_session : str;
  ss_turn : Z;
  ss_state : SessionState;
  ss_pre_pause : option SessionState;
  ss_updated_at : Z;
  ss_revision : Z;
}.

Record TurnRecord := mkTurnRecord {
  tr_session : str;
  tr_turn : Z;
  tr_state : SessionState;
  tr_message : option AssistantMessage;
  tr_partial : option PartialAssistantMessage;
  provider_rounds : list ProviderRoundRecord;
  tr_updated_at : Z;
}.

Record ProviderRoundJournal := mkJournal {
  pj_session : str;
  pj_turn : Z;
  rounds : list ProviderRoundRecord;
  pj_revision : Z;
  closed : bool;
  pj_updated_at : Z;
}.

(** [ProviderRoundJournal::validate_update] *)
Definition validate_update (self : ProviderRoundJournal) (previous : option ProviderRoundJournal) : result PortError unit :=
  _ ← validate_sequence (rounds self);
  let conflict := Err (Approval.Conflict (chars "provider journal update is stale or not append-only")) in
  if closed self || bool_decide (rounds self = []) then conflict
  else
    match previous with
    | None =>
        match rounds self with
        | [r] => if (pj_revision self =? 0) && bool_decide (response r = None) then Ok tt else conflict
        | _ => conflict
        end
    | Some previous =>
        if closed previous || negb (bool_decide (pj_session previous = pj_session self)) || negb (pj_turn previous =? pj_turn self)
           || negb (pj_revision self =? pj_revision previous) || bool_decide (rounds previous = []) then conflict
        else
          let n := length (rounds previous) in
          if bool_decide (length (rounds self) = S n) && bool_decide (take n (rounds self) = rounds previous)
             && bool_decide (response <$> last (rounds self) = Some None) then Ok tt
          else
            let last := (n - 1)%nat in
            if bool_decide (length (rounds self) = n) && bool_decide (take last (rounds self) = take last (rounds previous))
               && bool_decide (response <$> rounds previous !! last = Some None)
               && negb (bool_decide (response <$> rounds self !! last = Some None)) then Ok tt
            else conflict
    end.

(** ** Context *)

Inductive BootstrapReason := NewSession | Restart.

Inductive ContextItem :=
| UserInput (text : str)
| AssistantText (text : str)
| AssistantToolCalls (text : str) (tool_calls : list ToolCall)
| ToolResult (tool_name output : str) (failed : bool)
| ToolCallResult (call_id tool_name output : str) (failed : bool)
| GoalStatement (objective : str)
| GoalCleared
| SystemNote (text : str).

Record ContextState := mkContextState {
  item_count : Z;
  used_tokens : Z;
  token_budget : Z;
  needs_compaction : bool;
  compacted_items : Z;
}.

Record CompactionReport := mkCompaction { removed_items : Z; reclaimed_tokens : Z; cr_state : ContextState }.
Record AssembledContext := mkAssembled { ac_messages : list PromptMessage; ac_state : ContextState }.

(** ** Events and errors *)

(** The errors a turn can end with. *)
Inductive RuntimeError :=
| Port (e : PortError)
| State (e : StateMachineError)
| StreamRejected (e : StreamError)
| Tool (e : ToolExecutionError)
| Goal (e : Service.GoalError)
| Identifier (reason : str).

(** [RuntimeEventKind]; the reason of a failure is the text of the error. *)
Inductive RuntimeEventKind :=
| StateChanged (from to : SessionState)
| StreamProduced (event : StreamEvent)
| AwaitingApproval (call : ToolCall)
| ToolStarted (call : ToolCall)
| ToolFinished (outcome : ToolOutcome)
| RoundFinished (round tool_calls : Z)
| ContextCompacted (removed_items reclaimed_tokens : Z)
| GoalUpdated (goal : Goals.GoalRecord)
| TurnFailed (reason : RuntimeError).

(** ** Calls *)

Inductive ChunkRace := NextChunkIs (r : result PortError (option ProviderChunk)) | ChunkCancelled.
Inductive PauseRace := PauseSent | PauseSenderGone | PauseCancelled.

Inductive Call :=
| IsCancelled
| IsShutdown
| IsRevoked (a : Authority)
| PauseRequested
| PauseChanged
| Emit (kind : RuntimeEventKind)
| SaveSession (s : SessionSnapshot)
| SaveJournal (j : ProviderRoundJournal)
| SaveTurn (r : TurnRecord)
| Bootstrap (session : str) (reason : BootstrapReason) (token_budget at_ : Z)
| Ingest (session : str) (turn : Z) (item : ContextItem) (at_ : Z)
| Assemble (session : str) (turn round : Z)
| Maintain (session : str) (at_ : Z)
| Compact (session : str) (reclaim_tokens at_ : Z)
| GoalStart (session objective : str)
| GoalActive (session : str)
| GoalApply (session : str) (action : Service.GoalAction)
| Describe
| SelectedModel (session : str) (at_ : Z)
| Remembered (session tool : str)
| StartRound (r : ProviderRequest)
| ResponseReport
| NextChunk
| BindAuthorized (i : ToolInvocation) (a : Authority)
| RequestApproval (t : Approval.ApprovalTicket) (bound : option (Authority * Binding))
| RequestGoalApproval (t : Approval.ApprovalTicket) (bound : Authority * Binding)
| NextInvocation
| NextGoal
| Invoke (i : ToolInvocation) (bound : option (Authority * Binding))
| CancelTool (call_id : str)
| AuditInternal (i : ToolInvocation) (a : Authority) (b : Binding) (phase : InternalToolAuditPhase).

Definition reply (c : Call) : Type :=
  match c with
  | IsCancelled | IsShutdown | IsRevoked _ | PauseRequested => bool
  | PauseChanged => PauseRace
  | Emit _ => unit
  | SaveSession _ | SaveJournal _ => result PortError Z
  | SaveTurn _ | CancelTool _ | AuditInternal _ _ _ _ => result PortError unit
  | Bootstrap _ _ _ _ | Ingest _ _ _ _ | Maintain _ _ => result PortError ContextState
  | Assemble _ _ _ => result PortError AssembledContext
  | Compact _ _ _ => result PortError CompactionReport
  | GoalStart _ _ | GoalApply _ _ => result Service.GoalError Goals.GoalRecord
  | GoalActive _ => result Service.GoalError (option Goals.GoalRecord)
  | Describe => list ToolDescriptor
  | SelectedModel _ _ => option str
  | Remembered _ _ => option Approval.ApprovalDecision
  | StartRound _ => option (result PortError unit)
  | ResponseReport => option ProviderResponseReport
  | NextChunk => ChunkRace
  | BindAuthorized _ _ => result PortError Binding
  | RequestApproval _ _ => result Approval.ApprovalError Approval.ApprovalOutcome
  | RequestGoalApproval _ _ => option (result Approval.ApprovalError Approval.ApprovalOutcome)
  | NextInvocation | NextGoal => option Z
  | Invoke _ _ => Race
  end.

(** A call with its reply, or the one the turn was cut short at. *)
Inductive Entry := entry (c : Call) (r : option (reply c)).

(** ** The monad *)

Inductive Outcome (A : Type) := Done (a : A) | Cut | Panicked.
Arguments Done {A}.
Arguments Cut {A}.
Arguments Panicked {A}.

(** The variables of the turn and the calls it has made. *)
Record World (L : Type) := mkWorld { locals : L; log : list Entry }.
Arguments mkWorld {L}.
Arguments locals {L}.
Arguments log {L}.

Definition M (L A : Type) : Type := World L → Outcome A * World L.

#[export] Instance M_ret {L} : MRet (M L) := λ A a w, (Done a, w).
#[export] Instance M_bind {L} : MBind (M L) := λ A B k m w,
  match m w with
  | (Done a, w) => k a w
  | (Cut, w) => (Cut, w)
  | (Panicked, w) => (Panicked, w)
  end.

(** [m?] followed by [k] *)
Definition try {L E A B} (m : M L (result E A)) (k : A → M L (result E B)) : M L (result E B) :=
  r ← m;
  match r with
  | Ok a => k a
  | Err e => mret (Err e)
  end.

Definition map_err {L E F A} (f : E → F) (m : M L (result E A)) : M L (result F A) :=
  r ← m;
  mret (match r with Ok a => Ok a | Err e => Err (f e) end).

(** [expect] on an [Option]. *)
Definition expect {L A} (o : option A) : M L A := λ w, match o with Some a => (Done a, w) | None => (Panicked, w) end.

Definition cut {L A} : M L A := λ w, (Cut, w).
Definition get {L A} (f : L → A) : M L A := λ w, (Done (f (locals w)), w).
Definition set {L} (f : L → L) : M L unit := λ w, (Done tt, mkWorld (f (locals w)) (log w)).

Section Calls.
Context {L : Type} (answer : list Entry → ∀ c : Call, option (reply c)) (clock : list Entry → Z).

Definition call (c : Call) : M L (reply c) := λ w,
  let r := answer (log w) c in
  let w' := mkWorld (locals w) (log w ++ [entry c r]) in
  match r with
  | Some a => (Done a, w')
  | None => (Cut, w')
  end.

(** [ports.clock.now()] *)
Definition now : M L Z := λ w, (Done (clock (log w)), w).

End Calls.

Notation "x <-? m ; k" := (try m (λ x, k)) (at level 20, m at level 100, k at level 200, only parsing).

(** ** Weakest preconditions

    [Q] holds where the program returns, [D] where it is cut short; it never panics. *)

Definition wpt {L A} (m : M L A) (Q : A → World L → Prop) (D : World L → Prop) (w : World L) : Prop :=
  match m w with
  | (Done a, w') => Q a w'
  | (Cut, w') => D w'
  | (Panicked, _) => False
  end.

Section Wp.
Context {L : Type}.
Implicit Types w : World L.

Lemma wpt_bind {A B} (m : M L A) (k : A → M L B) Q D w : wpt m (λ a, wpt (k a) Q D) D w → wpt (m ≫= k) Q D w.
Proof. unfold wpt, mbind, M_bind. by destruct (m w) as [[a| |] w']. Qed.

Lemma wpt_mono {A} (m : M L A) (Q Q' : A → World L → Prop) (D D' : World L → Prop) w :
  wpt m Q D w → (∀ a w', Q a w' → Q' a w') → (∀ w', D w' → D' w') → wpt m Q' D' w.
Proof. unfold wpt. destruct (m w) as [[a| |] w']; auto. Qed.

Lemma wpt_ret {A} (a : A) (Q : A → World L → Prop) D w : Q a w → wpt (mret a) Q D w.
Proof. done. Qed.

Lemma wpt_get {A} (f : L → A) (Q : A → World L → Prop) D w : Q (f (locals w)) w → wpt (get f) Q D w.
Proof. done. Qed.

Lemma wpt_set (f : L → L) (Q : unit → World L → Prop) D w : Q tt (mkWorld (f (locals w)) (log w)) → wpt (set f) Q D w.
Proof. done. Qed.

Lemma wpt_cut {A} (Q : A → World L → Prop) (D : World L → Prop) w : D w → wpt cut Q D w.
Proof. done. Qed.

Lemma wpt_now clock (Q : Z → World L → Prop) D w : (∀ t, Q t w) → wpt (now clock) Q D w.
Proof. unfold wpt, now. auto. Qed.

Lemma wpt_try {E A B} (m : M L (result E A)) (k : A → M L (result E B)) Q D w :
  wpt m (λ r, match r with Ok a => wpt (k a) Q D | Err e => Q (Err e) end) D w → wpt (try m k) Q D w.
Proof. intros Hm. unfold try. apply wpt_bind. eapply wpt_mono; [exact Hm| |done]. by intros [a|e] w'. Qed.

Lemma wpt_map_err {E F A} (f : E → F) (m : M L (result E A)) (Q : result F A → World L → Prop) D w :
  wpt m (λ r, Q (match r with Ok a => Ok a | Err e => Err (f e) end)) D w → wpt (map_err f m) Q D w.
Proof. intros Hm. unfold map_err. by apply wpt_bind. Qed.

Lemma wpt_call answer c (Q : reply c → World L → Prop) (D : World L → Prop) w :
  (∀ r, Q r (mkWorld (locals w) (log w ++ [entry c (Some r)]))) → D (mkWorld (locals w) (log w ++ [entry c None])) →
  wpt (call answer c) Q D w.
Proof. intros HQ HD. unfold wpt, call. destruct (answer (log w) c) as [r|]; auto. Qed.

Lemma wpt_expect {A} (o : option A) (Q : A → World L → Prop) D w : (∃ a, o = Some a ∧ Q a w) → wpt (expect o) Q D w.
Proof. by intros (a & -> & HQ). Qed.

End Wp.

End TurnPorts.
