(* ===== verification/TurnTools.v ===== *)
(** * Running a tool for a turn

    Models [crates/claw-runtime/src/tool.rs] (the executor: authority, existence,
    binding, approval, deadline, and what the adapter's answer is taken to mean) and
    [execute_authorized_goal] of [crates/claw-runtime/src/goal_tool.rs] (the same gates
    for the runtime's own goal tool, with its audit records). *)

From S2P Require Import Prelude Utf8 Approval Goals GoalService TurnState TurnStream TurnPorts.

Module TurnTools.
Import TurnState TurnStream TurnPorts.

Section Tools.
Context {L : Type} (answer : list Entry → ∀ c : Call, option (reply c)).

(** [serde_json] on a goal action, and the texts of errors. *)
Context (decode_goal : str → result str Service.GoalAction) (goal_error_text : Service.GoalError → str)
  (port_error_text : PortError → str).

Abbreviation call := (call (L := L) answer).

(** ** [InvocationAuthority] *)

Definition is_revoked (a : Authority) : M L bool :=
  match Approval.revocation a with
  | Some _ => call (IsRevoked a)
  | None => mret false
  end.

Definition can_execute (a : Authority) : M L bool :=
  match Approval.access a with
  | Approval.ReadOnly => mret false
  | _ => revoked ← is_revoked a; mret (negb revoked)
  end.

Definition is_owner (a : Authority) : M L bool :=
  match Approval.access a with
  | Approval.Owner => revoked ← is_revoked a; mret (negb revoked)
  | _ => mret false
  end.

(** [authority.as_ref().is_some_and(f)] *)
Definition authority_and (f : Authority → M L bool) (o : option Authority) : M L bool :=
  match o with Some a => f a | None => mret false end.

Definition not_ (m : M L bool) : M L bool := b ← m; mret (negb b).

(** [m || k] *)
Definition or_else (m k : M L bool) : M L bool := b ← m; if b : bool then mret true else k.

(** ** [ToolExecutor] *)

Definition terminal (call_id : str) (status : ToolStatus) (output : str) : ToolOutcome :=
  mkOutcome call_id status output false.

Definition describe (name : str) : M L (option ToolDescriptor) :=
  catalogue ← call Describe;
  mret (List.find (λ d, bool_decide (td_name d = name)) catalogue).

Definition ticket_of (i : ToolInvocation) : Approval.ApprovalTicket :=
  Approval.mkTicket (in_session i) (in_turn i) (call_id (in_call i)) (name (in_call i)) (arguments (in_call i)).

(** What an approval means for the call: go on, or end it here. *)
Definition refusal (call_id : str) (o : Approval.ApprovalOutcome) : option ToolOutcome :=
  match o with
  | Approval.Decided (Approval.mkDecision Approval.Deny _) _ =>
      Some (terminal call_id StDenied (chars "operator denied the call"))
  | Approval.Withdrawn Approval.TimedOut =>
      Some (terminal call_id StTimedOut (chars "no approval decision before the deadline"))
  | Approval.Withdrawn Approval.Cancelled =>
      Some (terminal call_id StCancelled (chars "cancelled while awaiting approval"))
  | Approval.Decided _ _ => None
  end.

(** The approval gate: [Ok None] lets the call go on. *)
Definition approve (d : ToolDescriptor) (i : ToolInvocation) (bound : option (Authority * Binding))
    : M L (result ToolExecutionError (option ToolOutcome)) :=
  if requires_approval d then
    o <-? map_err ApprovalFailed (call (RequestApproval (ticket_of i) bound));
    mret (Ok (refusal (call_id (in_call i)) o))
  else mret (Ok None).

Definition renamed (i : ToolInvocation) (id : str) : ToolInvocation :=
  mkInvocation (in_session i) (in_turn i) (mkCall id (name (in_call i)) (arguments (in_call i))).

(** The identity the adapter sees: the host's own for an authenticated call. *)
Definition adapter_identity (i : ToolInvocation) (authority : option Authority) : M L (result str ToolInvocation) :=
  match authority with
  | None => mret (Ok i)
  | Some _ =>
      ordinal ← call NextInvocation;
      match ordinal with
      | None => mret (Err (chars "host invocation identity exhausted"))
      | Some ordinal =>
          match Approval.parse_identifier (chars "runtime-tool-" ++ (u8 <$> decimal ordinal)) with
          | Err _ => mret (Err (chars "host invocation identity is invalid"))
          | Ok id => mret (Ok (renamed i id))
          end
      end
  end.

(** The race and what its end is taken to mean. *)
Definition run_bound (original : str) (d : ToolDescriptor) (i : ToolInvocation) (bound : option (Authority * Binding))
    : M L (result ToolExecutionError ToolOutcome) :=
  let adapter_id := call_id (in_call i) in
  race ← call (Invoke i bound);
  match race with
  | Finished (Err (Approval.CommittedButNotDurable detail | Approval.OutcomeUnknown detail)) => mret (Err (OutcomeUnknown detail))
  | Finished (Err e) => mret (Ok (mkOutcome original StFailed (port_error_text e) false))
  | Finished (Ok o) =>
      mret (Ok (if decide (to_call_id o = adapter_id) then mkOutcome original (to_status o) (to_output o) (changed_workspace o)
                else terminal original StFailed (chars "tool returned another invocation's result")))
  | Interrupted interruption =>
      _ ← call (CancelTool adapter_id);
      mret (if bool_decide (is_Some bound) && mutates_workspace d then
              Err (OutcomeUnknown (chars "mutating invocation was interrupted; reconcile its audit and result before retry"))
            else
              Ok (match interruption with
                  | MidFlight => terminal original StCancelled (chars "cancelled mid-flight")
                  | PastDeadline => terminal original StTimedOut (chars "exceeded the call deadline")
                  end))
  end.

(** From the last check to the adapter's answer. *)
Definition run_checked (d : ToolDescriptor) (i : ToolInvocation) (bound : option (Authority * Binding))
    : M L (result ToolExecutionError ToolOutcome) :=
  let original := call_id (in_call i) in
  stopped ← or_else (call IsCancelled) (authority_and is_revoked (fst <$> bound));
  if stopped : bool then mret (Ok (terminal original StCancelled (chars "cancelled before execution")))
  else
    identity ← adapter_identity i (fst <$> bound);
    match identity with
    | Err reason => mret (Ok (terminal original StFailed reason))
    | Ok adapted => run_bound original d adapted bound
    end.

(** [ToolExecutor::execute_authorized]. Once bound, the authority and its binding travel
    together, so the source's mixed arms cannot occur. *)
Definition execute_authorized (i : ToolInvocation) (authority : option Authority) : M L (result ToolExecutionError ToolOutcome) :=
  let original := call_id (in_call i) in
  barred ← authority_and (λ a, not_ (can_execute a)) authority;
  if barred : bool then mret (Ok (terminal original StDenied (chars "caller is not authorized to execute tools")))
  else
    descriptor ← describe (name (in_call i));
    match descriptor with
    | None => mret (Ok (mkOutcome original StFailed (chars "unknown tool: " ++ name (in_call i)) false))
    | Some d =>
        cancelled ← call IsCancelled;
        if cancelled : bool then mret (Ok (terminal original StCancelled (chars "cancelled")))
        else
          bound ← match authority with
                  | None => mret (Ok None)
                  | Some a => b ← call (BindAuthorized i a); mret ((λ b, Some (a, b)) <$> b)
                  end;
          match bound with
          | Err e => mret (Ok (terminal original StFailed (port_error_text e)))
          | Ok bound =>
              refused <-? approve d i bound;
              match refused with
              | Some outcome => mret (Ok outcome)
              | None => run_checked d i bound
              end
          end
    end.

(** ** The goal tool *)

Definition GOAL_TOOL_NAME : str := chars "update_goal".

Definition goal_tool_descriptor : ToolDescriptor :=
  mkDescriptor GOAL_TOOL_NAME (chars "Set, advance or close the durable session goal") true false.

Record AuthorizedGoalOutcome := mkGoalOutcome { ag_record : option Goals.GoalRecord; ag_outcome : ToolOutcome }.

Definition refused_goal (call_id : str) (status : ToolStatus) (output : str) : AuthorizedGoalOutcome :=
  mkGoalOutcome None (terminal call_id status output).

(** [parse_goal_action], an error as its text. *)
Definition parse_goal (arguments : str) : result str Service.GoalAction :=
  match decode_goal (trim arguments) with
  | Err detail => Err (chars "malformed " ++ GOAL_TOOL_NAME ++ chars " arguments: " ++ detail)
  | Ok (Service.CloseGoal status as action) =>
      if Goals.is_closed status then Ok action else Err (Goals.label status ++ chars " is not a terminal goal status")
  | Ok action => Ok action
  end.

(** [format!("goal {} is {} at revision {}")] *)
Definition goal_text (g : Goals.GoalRecord) : str :=
  chars "goal " ++ Goals.goal_id g ++ chars " is " ++ Goals.label (Goals.status g) ++ chars " at revision "
    ++ (u8 <$> decimal (Goals.revision g)).

Definition goal_refusal (call_id : str) (o : Approval.ApprovalOutcome) : option AuthorizedGoalOutcome :=
  match o with
  | Approval.Decided (Approval.mkDecision Approval.Deny _) _ =>
      Some (refused_goal call_id StDenied (chars "operator denied the goal call"))
  | Approval.Withdrawn Approval.Cancelled => Some (refused_goal call_id StCancelled (chars "goal approval was withdrawn"))
  | Approval.Withdrawn Approval.TimedOut => Some (refused_goal call_id StTimedOut (chars "goal approval was withdrawn"))
  | Approval.Decided _ _ => None
  end.

(** [tools.bind_authorized(..).as_ref() != Ok(&binding)] *)
Definition binding_changed (i : ToolInvocation) (a : Authority) (b : Binding) : M L bool :=
  again ← call (BindAuthorized i a);
  mret (match again with Ok b' => negb (bool_decide (b' = b)) | Err _ => true end).

(** An audit record that must be written. *)
Definition must_audit (i : ToolInvocation) (a : Authority) (b : Binding) (phase : InternalToolAuditPhase)
    : M L (result ToolExecutionError unit) :=
  map_err (λ e, OutcomeUnknown (port_error_text e)) (call (AuditInternal i a b phase)).

(** From the authorized record to the completed one. *)
Definition apply_goal (original : str) (i : ToolInvocation) (a : Authority) (b : Binding) (action : Service.GoalAction)
    : M L (result ToolExecutionError AuthorizedGoalOutcome) :=
  applied ← call (GoalApply (in_session i) action);
  match applied with
  | Err error =>
      _ <-? must_audit i a b AuditFailed;
      match error with
      | Service.Port _ => mret (Err (OutcomeUnknown (goal_error_text error)))
      | _ => mret (Ok (refused_goal original StFailed (goal_error_text error)))
      end
  | Ok record =>
      _ <-? must_audit i a b AuditCompleted;
      mret (Ok (mkGoalOutcome (Some record) (mkOutcome original StOk (goal_text record) false)))
  end.

Definition audited_goal (original : str) (i : ToolInvocation) (a : Authority) (b : Binding) (action : Service.GoalAction)
    : M L (result ToolExecutionError AuthorizedGoalOutcome) :=
  authorized ← call (AuditInternal i a b Authorized);
  match authorized with
  | Err e => mret (Ok (refused_goal original StFailed (port_error_text e)))
  | Ok _ =>
      withdrawn ← or_else (call IsCancelled) (or_else (call IsShutdown) (or_else (not_ (is_owner a)) (binding_changed i a b)));
      if withdrawn : bool then
        _ <-? must_audit i a b AuditFailed;
        mret (Ok (refused_goal original StCancelled (chars "goal authority was withdrawn before mutation")))
      else apply_goal original i a b action
  end.

(** From the operator's decision to the outcome. *)
Definition approved_goal (i : ToolInvocation) (a : Authority) (b : Binding) (action : Service.GoalAction)
    : M L (result ToolExecutionError AuthorizedGoalOutcome) :=
  let original := call_id (in_call i) in
  withdrawn ← or_else (call IsCancelled) (or_else (call IsShutdown) (not_ (is_owner a)));
  if withdrawn : bool then
    mret (Ok (refused_goal original StCancelled (chars "goal authority was withdrawn before execution")))
  else
    changed ← binding_changed i a b;
    if changed : bool then mret (Ok (refused_goal original StDenied (chars "goal binding changed after approval")))
    else
      ordinal ← call NextGoal;
      match ordinal with
      | None => mret (Ok (refused_goal original StFailed (chars "runtime goal identity exhausted")))
      | Some ordinal =>
          match Approval.parse_identifier (chars "runtime-goal-" ++ (u8 <$> decimal ordinal)) with
          | Err _ => mret (Ok (refused_goal original StFailed (chars "runtime goal identity is invalid")))
          | Ok id => audited_goal original (renamed i id) a b action
          end
      end.

Definition execute_authorized_goal (i : ToolInvocation) (a : Authority) : M L (result ToolExecutionError AuthorizedGoalOutcome) :=
  let original := call_id (in_call i) in
  if negb (bool_decide (name (in_call i) = GOAL_TOOL_NAME)) then
    mret (Ok (refused_goal original StFailed (chars "runtime goal entry received another tool name")))
  else
    owner ← is_owner a;
    if negb owner then mret (Ok (refused_goal original StDenied (chars "goal mutation requires an authenticated owner")))
    else
      stopped ← or_else (call IsCancelled) (call IsShutdown);
      if stopped : bool then mret (Ok (refused_goal original StCancelled (chars "goal call cancelled before approval")))
      else
        match parse_goal (arguments (in_call i)) with
        | Err text => mret (Ok (refused_goal original StFailed text))
        | Ok action =>
            bound ← call (BindAuthorized i a);
            match bound with
            | Err e => mret (Ok (refused_goal original StDenied (port_error_text e)))
            | Ok b =>
                decision ← call (RequestGoalApproval (ticket_of i) (a, b));
                match decision with
                | None => mret (Ok (refused_goal original StCancelled (chars "runtime stopped before goal approval")))
                | Some (Err e) => mret (Err (ApprovalFailed e))
                | Some (Ok o) =>
                    match goal_refusal original o with
                    | Some outcome => mret (Ok outcome)
                    | None => approved_goal i a b action
                    end
                end
            end
        end.

End Tools.

End TurnTools.
