(* ===== verification/TurnLoop.v ===== *)
(** * The turn loop

    Models [TurnExecution] of [crates/claw-runtime/src/runtime.rs]: a turn from its first
    snapshot to its record, through provider rounds, tool calls and context upkeep. The
    variables the source passes by [&mut] are the locals of the monad, so they survive an
    early return the way they do there. *)

From S2P Require Import Prelude Utf8 Approval Goals GoalService TurnState TurnStream TurnPorts TurnTools.

Module TurnLoop.
Import TurnState TurnStream TurnPorts TurnTools.

Record DirectTool := mkDirect { dt_name : str; dt_arguments : str }.

Record TurnOptions := mkOptions {
  opt_model : option str;
  tools_enabled : bool;
  quiet : bool;
  opt_goal : option str;
  direct_tool : option DirectTool;
  authority : option Authority;
}.

(** The limits of [RuntimeConfig] a turn reads. *)
Record TurnConfig := mkConfig {
  max_rounds : Z;
  context_token_budget : Z;
  max_observed_provider_tokens : option Z;
  goal_tool_enabled : bool;
  require_tool_authority : bool;
}.

(** The local variables of [run] and [drive], and the [revision] of the execution. *)
Record Locals := mkLocals {
  machine : TurnStateMachine;
  round_count : Z;
  tool_outcomes : list ToolOutcome;
  message : option AssistantMessage;
  partial : option PartialAssistantMessage;
  journal : ProviderRoundJournal;
  revision : Z;
}.

Definition with_machine (m : TurnStateMachine) (l : Locals) : Locals :=
  mkLocals m (round_count l) (tool_outcomes l) (message l) (partial l) (journal l) (revision l).
Definition with_round_count (n : Z) (l : Locals) : Locals :=
  mkLocals (machine l) n (tool_outcomes l) (message l) (partial l) (journal l) (revision l).
Definition push_outcome (o : ToolOutcome) (l : Locals) : Locals :=
  mkLocals (machine l) (round_count l) (tool_outcomes l ++ [o]) (message l) (partial l) (journal l) (revision l).
Definition with_message (m : option AssistantMessage) (l : Locals) : Locals :=
  mkLocals (machine l) (round_count l) (tool_outcomes l) m (partial l) (journal l) (revision l).
Definition with_partial (p : option PartialAssistantMessage) (l : Locals) : Locals :=
  mkLocals (machine l) (round_count l) (tool_outcomes l) (message l) p (journal l) (revision l).
Definition with_journal (j : ProviderRoundJournal) (l : Locals) : Locals :=
  mkLocals (machine l) (round_count l) (tool_outcomes l) (message l) (partial l) j (revision l).
Definition with_revision (r : Z) (l : Locals) : Locals :=
  mkLocals (machine l) (round_count l) (tool_outcomes l) (message l) (partial l) (journal l) r.

(** [*rounds = rounds.saturating_add(1)] *)
Definition next_round (l : Locals) : Locals := with_round_count (sat_add u32_max (round_count l) 1) l.

Record TurnOutcome := mkTurnOutcome {
  tu_session : str;
  tu_turn : Z;
  tu_state : SessionState;
  tu_message : option AssistantMessage;
  tu_partial : option PartialAssistantMessage;
  tu_rounds : Z;
  tu_tool_outcomes : list ToolOutcome;
}.

(** ** Provider accounting *)

(** The loop of [provider_budget_available]. *)
Fixpoint observed_usage (used : Z) (records : list ProviderRoundRecord) : result PortError Z :=
  match records with
  | [] => Ok used
  | record :: records =>
      match response record with
      | Some r =>
          if bool_decide (usage_reporting r = CompleteUsage) then
            if u64_max <? used + input_tokens r + output_tokens r then
              Err (Approval.Invalid (chars "reported provider usage exceeds its accounting range"))
            else observed_usage (used + input_tokens r + output_tokens r) records
          else Err (Approval.Invalid (chars "provider usage is unknown; another budgeted request is not permitted"))
      | None => Err (Approval.Invalid (chars "provider usage is unknown; another budgeted request is not permitted"))
      end
  end.

Definition provider_budget_available (limit : option Z) (records : list ProviderRoundRecord) : result PortError bool :=
  match limit with
  | None => Ok true
  | Some limit =>
      _ ← validate_sequence records;
      used ← observed_usage 0 records;
      Ok (used <? limit)
  end.

(** [capture_provider_report]: the record afterwards and whether it changed. *)
Definition capture_provider_report (record : ProviderRoundRecord) (report : option ProviderResponseReport)
    : result PortError (ProviderRoundRecord * bool) :=
  _ ← match report with Some r => validate r | None => Ok tt end;
  if bool_decide (response record ≠ None) && bool_decide (response record ≠ report) then
    Err (Approval.Invalid (chars "provider changed its confirmed response accounting"))
  else Ok (mkRound (round record) report, bool_decide (response record ≠ report)).

(** The response terminal contradicts the completed stream. *)
Definition terminal_mismatch (report : ProviderResponseReport) (calls : list ToolCall) : bool :=
  match finish_reason report with
  | FinishLength | FinishContentFilter => true
  | FinishToolCalls => bool_decide (calls = [])
  | FinishStop => negb (bool_decide (calls = []))
  end.

Section Turn.
Context (answer : list Entry → ∀ c : Call, option (reply c)) (clock : list Entry → Z).
Context (decode_goal : str → result str Service.GoalAction) (encode_goal : str → option str).
Context (goal_error_text : Service.GoalError → str) (port_error_text : PortError → str).
Context (config : TurnConfig) (options : TurnOptions).
Context (session_id : str) (turn : Z) (reason : BootstrapReason) (input : str).

(** How often a stream or a paused turn is polled before the run is cut short. *)
Context (polls : nat).

Abbreviation M := (M Locals).
Abbreviation call := (call (L := Locals) answer).
Abbreviation now := (now (L := Locals) clock).
Abbreviation is_revoked := (TurnTools.is_revoked (L := Locals) answer).
Abbreviation can_execute := (TurnTools.can_execute (L := Locals) answer).
Abbreviation is_owner := (TurnTools.is_owner (L := Locals) answer).

Definition port {A} (m : M (result PortError A)) : M (result RuntimeError A) := map_err Port m.

(** ** Persistence and events *)

Definition emit (kind : RuntimeEventKind) : M unit := call (Emit kind).

Definition persist_session : M (result RuntimeError unit) :=
  m ← get machine;
  r ← get revision;
  at_ ← now;
  saved <-? port (call (SaveSession (mkSnapshot session_id turn (state m) (pre_pause_state m) at_ r)));
  set (with_revision saved);;
  mret (Ok tt).

Definition advance (event : SessionEvent) : M (result RuntimeError unit) :=
  m ← get machine;
  let '(r, m') := apply m event in
  set (with_machine m');;
  match r with
  | Err e => mret (Err (State e))
  | Ok to =>
      _ <-? persist_session;
      emit (StateChanged (state m) to);;
      mret (Ok tt)
  end.

(** [if machine.accepts(event) { self.advance(machine, event).await?; }] *)
Definition advance_if (event : SessionEvent) : M (result RuntimeError unit) :=
  m ← get machine;
  if accepts m event then advance event else mret (Ok tt).

(** [persist_provider_journal], returning the journal with its new revision. *)
Definition persist_provider_journal (j : ProviderRoundJournal) : M (result RuntimeError ProviderRoundJournal) :=
  at_ ← now;
  let j := mkJournal (pj_session j) (pj_turn j) (rounds j) (pj_revision j) (closed j) at_ in
  r <-? port (call (SaveJournal j));
  mret (Ok (mkJournal (pj_session j) (pj_turn j) (rounds j) r (closed j) at_)).

(** The journal with other rounds, once it is saved. *)
Definition save_rounds (rs : list ProviderRoundRecord) : M (result RuntimeError unit) :=
  j ← get journal;
  saved <-? persist_provider_journal (mkJournal (pj_session j) (pj_turn j) rs (pj_revision j) (closed j) (pj_updated_at j));
  set (with_journal saved);;
  mret (Ok tt).

Definition persist_provider_report (report : option ProviderResponseReport) : M (result RuntimeError unit) :=
  j ← get journal;
  record ← expect (last (rounds j));
  match capture_provider_report record report with
  | Err e => mret (Err (Port e))
  | Ok (record', changed) =>
      if changed : bool then save_rounds (removelast (rounds j) ++ [record']) else mret (Ok tt)
  end.

(** [persist_provider_report(journal, stream.response_report())] *)
Definition persist_response : M (result RuntimeError unit) :=
  report ← call ResponseReport;
  persist_provider_report report.

Definition persist_turn : M (result RuntimeError unit) :=
  l ← get id;
  at_ ← now;
  port (call (SaveTurn (mkTurnRecord session_id turn (state (machine l)) (message l) (partial l) (rounds (journal l)) at_))).

Definition ingest (item : ContextItem) : M (result RuntimeError unit) :=
  at_ ← now;
  _ <-? port (call (Ingest session_id turn item at_));
  mret (Ok tt).

Definition relieve_pressure (s : ContextState) : M (result RuntimeError unit) :=
  if negb (needs_compaction s) then mret (Ok tt)
  else
    at_ ← now;
    report <-? port (call (Compact session_id (Z.max (sat_sub (used_tokens s) (token_budget s)) 1) at_));
    emit (ContextCompacted (removed_items report) (reclaimed_tokens report));;
    mret (Ok tt).

(** ** Pausing *)

Fixpoint paused_loop (fuel : nat) : M (result RuntimeError bool) :=
  match fuel with
  | O => cut
  | S fuel =>
      changed ← call PauseChanged;
      match changed with
      | PauseCancelled => _ <-? advance Cancel; mret (Ok true)
      | PauseSenderGone => _ <-? advance Resume; mret (Ok false)
      | PauseSent =>
          still ← call PauseRequested;
          if still : bool then paused_loop fuel else _ <-? advance Resume; mret (Ok false)
      end
  end.

Definition quiesce : M (result RuntimeError bool) :=
  stopped ← or_else (call IsCancelled) (authority_and is_revoked (authority options));
  if stopped : bool then _ <-? advance Cancel; mret (Ok true)
  else
    pausing ← call PauseRequested;
    if negb pausing then mret (Ok false)
    else _ <-? advance Pause; paused_loop polls.

(** ** Tools *)

Definition invocation (c : ToolCall) : ToolInvocation := mkInvocation session_id turn c.

Definition run_goal_tool (c : ToolCall) : M (result RuntimeError ToolOutcome) :=
  barred ← authority_and (λ a, not_ (is_owner a)) (authority options);
  if barred : bool then
    mret (Ok (terminal (call_id c) StDenied (chars "goal mutation requires an authenticated owner")))
  else
    applied <-? match authority options with
                | Some a =>
                    r <-? map_err Tool (execute_authorized_goal answer decode_goal goal_error_text port_error_text (invocation c) a);
                    mret (Ok match ag_record r with Some g => inl g | None => inr (ag_outcome r) end)
                | None =>
                    match parse_goal decode_goal (arguments c) with
                    | Err text => mret (Ok (inr (mkOutcome (call_id c) StFailed text false)))
                    | Ok action =>
                        r ← call (GoalApply session_id action);
                        mret match r with
                             | Ok g => Ok (inl g)
                             | Err (Service.Port (Service.PortCommittedButNotDurable _ | Service.PortOutcomeUnknown _) as e) => Err (Goal e)
                             | Err e => Ok (inr (mkOutcome (call_id c) StFailed (goal_error_text e) false))
                             end
                    end
                end;
    match applied with
    | inr outcome => mret (Ok outcome)
    | inl g =>
        emit (GoalUpdated g);;
        _ <-? ingest (if Goals.is_closed (Goals.status g) then GoalCleared else GoalStatement (Goals.objective g));
        mret (Ok (mkOutcome (call_id c) StOk (goal_text g) false))
    end.

Definition execute (c : ToolCall) : M (result RuntimeError ToolOutcome) :=
  map_err Tool (execute_authorized answer port_error_text (invocation c) (authority options)).

Definition tool_catalogue : M (list ToolDescriptor) :=
  catalogue ← call Describe;
  mret (if goal_tool_enabled config then catalogue ++ [goal_tool_descriptor] else catalogue).

(** [if approval { advance(RequestApproval); emit(AwaitingApproval) } else { emit(ToolStarted) }] *)
Definition announce (approval : bool) (c : ToolCall) : M (result RuntimeError unit) :=
  if approval then
    _ <-? advance TurnState.RequestApproval;
    emit (AwaitingApproval c);;
    mret (Ok tt)
  else emit (ToolStarted c);; mret (Ok tt).

Definition settle (approval : bool) : M (result RuntimeError unit) :=
  if approval then advance ResolveApproval else mret (Ok tt).

(** One call of the goal tool; [true] when the turn ends there. *)
Definition goal_call (c : ToolCall) : M (result RuntimeError bool) :=
  approved ← authority_and is_owner (authority options);
  _ <-? announce approved c;
  outcome <-? run_goal_tool c;
  _ <-? settle approved;
  _ <-? ingest (ToolCallResult (call_id c) (name c) (to_output outcome) (is_failure (to_status outcome)));
  emit (ToolFinished outcome);;
  set (push_outcome outcome);;
  stopped ← or_else (call IsCancelled) (authority_and is_revoked (authority options));
  if stopped : bool then _ <-? advance Cancel; mret (Ok true) else mret (Ok false).

(** One call of a tool; the workspace flag and whether the turn ends there. *)
Definition tool_call (catalogue : list ToolDescriptor) (changed : bool) (c : ToolCall) : M (result RuntimeError (bool * bool)) :=
  requires ← match List.find (λ d, bool_decide (td_name d = name c)) catalogue with
             | Some d =>
                 if requires_approval d then
                   match authority options with
                   | Some _ => mret true
                   | None => remembered ← call (Remembered session_id (name c)); mret (bool_decide (remembered = None))
                   end
                 else mret false
             | None => mret false
             end;
  _ <-? announce requires c;
  outcome <-? execute c;
  _ <-? settle requires;
  let changed := changed || changed_workspace outcome in
  _ <-? ingest (ToolCallResult (to_call_id outcome) (name c) (to_output outcome) (is_failure (to_status outcome)));
  emit (ToolFinished outcome);;
  set (push_outcome outcome);;
  stopped ← or_else (mret (bool_decide (to_status outcome = StCancelled))) (call IsCancelled);
  if stopped : bool then _ <-? advance Cancel; mret (Ok (changed, true)) else mret (Ok (changed, false)).

(** The calls of a round, in order; [None] when the turn ended. *)
Fixpoint call_loop (catalogue : list ToolDescriptor) (changed : bool) (calls : list ToolCall) : M (result RuntimeError (option bool)) :=
  match calls with
  | [] => mret (Ok (Some changed))
  | c :: calls =>
      if goal_tool_enabled config && bool_decide (name c = GOAL_TOOL_NAME) then
        stop <-? goal_call c;
        if stop : bool then mret (Ok None) else call_loop catalogue changed calls
      else
        r <-? tool_call catalogue changed c;
        if r.2 : bool then mret (Ok None) else call_loop catalogue r.1 calls
  end.

(** ** A provider round *)

(** Forwards the events of a chunk and collects the calls it completed. *)
Fixpoint forward (events : list StreamEvent) (calls : list ToolCall) : M (list ToolCall) :=
  match events with
  | [] => mret calls
  | e :: events =>
      let calls := match payload e with ToolCallCompleted c => calls ++ [c] | _ => calls end in
      let hidden := quiet options && match payload e with PTextDelta _ | PReasoningDelta _ => true | _ => false end in
      (if hidden then mret tt else emit (StreamProduced e));;
      forward events calls
  end.

(** The stream of a round; [None] when the turn was cancelled. *)
Fixpoint chunk_loop (fuel : nat) (a : StreamAssembler) (calls : list ToolCall)
    : M (result RuntimeError (option (StreamAssembler * list ToolCall))) :=
  match fuel with
  | O => cut
  | S fuel =>
      chunk ← call NextChunk;
      match chunk with
      | ChunkCancelled =>
          set (with_partial (Some (into_partial a)));;
          _ <-? persist_response;
          _ <-? advance Cancel;
          mret (Ok None)
      | NextChunkIs (Err e) =>
          set (with_partial (Some (into_partial a)));;
          set next_round;;
          _ <-? persist_response;
          mret (Err (Port e))
      | NextChunkIs (Ok None) => mret (Ok (Some (a, calls)))
      | NextChunkIs (Ok (Some c)) =>
          match push a c with
          | Err e =>
              set (with_partial (Some (into_partial a)));;
              set next_round;;
              _ <-? persist_response;
              mret (Err (StreamRejected e))
          | Ok (es, a') => calls ← forward es calls; chunk_loop fuel a' calls
          end
      end
  end.

(** From the closed stream to the ingested message: the calls it asks for. *)
Definition complete_round (round : Z) (a : StreamAssembler) (calls : list ToolCall) : M (result RuntimeError unit) :=
  set next_round;;
  confirmed ← persist_response;
  match confirmed with
  | Err e => set (with_partial (Some (into_partial a)));; mret (Err e)
  | Ok _ =>
      if negb (ended a) then
        set (with_partial (Some (into_partial a)));;
        mret (Err (StreamRejected (UnterminatedToolCall (from_option call_id (chars "unknown") (head calls)))))
      else
        j ← get journal;
        if Approval.some_and (λ r, terminal_mismatch r calls) (last (rounds j) ≫= response) then
          set (with_partial (Some (into_partial a)));;
          mret (Err (Port (Approval.Invalid (chars "provider response terminal does not match the completed stream"))))
        else
          completed ← expect (finish a);
          _ <-? ingest (if bool_decide (calls = []) then AssistantText (am_text completed)
                        else AssistantToolCalls (am_text completed) (am_tool_calls completed));
          set (with_message (Some completed));;
          emit (RoundFinished round (len calls));;
          mret (Ok tt)
  end.

(** Admitting a round: the journal names it before it is sent. *)
Definition admit_round (round : Z) : M (result RuntimeError unit) :=
  j ← get journal;
  if MAX_PROVIDER_ROUND_RECORDS <=? len (rounds j) then
    mret (Err (Port (Approval.Invalid (chars "provider accounting round limit exceeded"))))
  else save_rounds (rounds j ++ [mkRound round None]).

(** Sends the round; [false] when the turn was cancelled instead. *)
Definition open_round (round : Z) (prompt : list PromptMessage) (tool_names : list str) (model : option str) : M (result RuntimeError bool) :=
  cancelled ← call IsCancelled;
  if cancelled : bool then _ <-? advance Cancel; mret (Ok false)
  else
    opened ← call (StartRound (mkRequest session_id turn round prompt tool_names model));
    match opened with
    | None => _ <-? advance Cancel; mret (Ok false)
    | Some (Err e) => mret (Err (Port e))
    | Some (Ok _) =>
        _ <-? persist_response;
        _ <-? advance_if Stream;
        mret (Ok true)
    end.

(** What the calls of a round lead to: the flag for the next round, or the end. *)
Definition after_round (catalogue : list ToolDescriptor) (changed : bool) (calls : list ToolCall) : M (result RuntimeError (option bool)) :=
  if bool_decide (calls = []) then
    _ <-? advance (if changed then CompleteWithChanges else Complete);
    mret (Ok None)
  else if negb (tools_enabled options) then
    _ <-? advance Block;
    mret (Ok None)
  else
    barred ← if require_tool_authority config then not_ (authority_and can_execute (authority options)) else mret false;
    if barred : bool then
      _ <-? advance Block;
      mret (Ok None)
    else
      more <-? call_loop catalogue changed calls;
      match more with
      | None => mret (Ok None)
      | Some changed =>
          at_ ← now;
          s <-? port (call (Maintain session_id at_));
          _ <-? relieve_pressure s;
          mret (Ok (Some changed))
      end.

(** One iteration; [None] when the turn ended. *)
Definition one_round (catalogue : list ToolDescriptor) (model : option str) (changed : bool) : M (result RuntimeError (option bool)) :=
  stop <-? quiesce;
  if stop : bool then mret (Ok None)
  else
    j ← get journal;
    match provider_budget_available (max_observed_provider_tokens config) (rounds j) with
    | Err e => mret (Err (Port e))
    | Ok false => _ <-? advance Block; mret (Ok None)
    | Ok true =>
        round ← get round_count;
        prompt <-? port (call (Assemble session_id turn round));
        _ <-? admit_round round;
        opened <-? open_round round (ac_messages prompt) (td_name <$> catalogue) model;
        if negb opened then mret (Ok None)
        else
          recovered ← get partial;
          set (with_partial None);;
          streamed <-? chunk_loop polls (match recovered with Some p => resume p MAX_ASSEMBLED_BYTES | None => assembler_new end) [];
          match streamed with
          | None => mret (Ok None)
          | Some (a, calls) =>
              _ <-? complete_round round a calls;
              after_round catalogue changed calls
          end
    end.

(** The rounds that are left are enough: each one counts. *)
Fixpoint round_loop (fuel : nat) (catalogue : list ToolDescriptor) (model : option str) (changed : bool) : M (result RuntimeError unit) :=
  round ← get round_count;
  if round <? max_rounds config then
    match fuel with
    | O => expect None
    | S fuel =>
        more <-? one_round catalogue model changed;
        match more with
        | None => mret (Ok tt)
        | Some changed => round_loop fuel catalogue model changed
        end
    end
  else advance Block.

(** ** The turn *)

Definition drive_direct_tool (tool : DirectTool) : M (result RuntimeError unit) :=
  stop <-? quiesce;
  if stop : bool then mret (Ok tt)
  else
    id <-? map_err Identifier (mret (Approval.parse_identifier (chars "runtime-direct-tool")));
    let c := mkCall id (dt_name tool) (dt_arguments tool) in
    _ <-? ingest (UserInput (chars "Native tool command: " ++ name c));
    _ <-? advance Stream;
    catalogue ← tool_catalogue;
    let requires := Approval.some_and requires_approval (List.find (λ d, bool_decide (td_name d = name c)) catalogue) in
    _ <-? announce requires c;
    outcome <-? (if goal_tool_enabled config && bool_decide (name c = GOAL_TOOL_NAME) then run_goal_tool c else execute c);
    _ <-? settle requires;
    _ <-? ingest (ToolResult (name c) (to_output outcome) (is_failure (to_status outcome)));
    emit (ToolFinished outcome);;
    set (with_message (Some (mkMessage (to_output outcome) [] [c])));;
    stopped ← or_else (mret (bool_decide (to_status outcome = StCancelled)))
                (or_else (call IsCancelled) (authority_and is_revoked (authority options)));
    set (push_outcome outcome);;
    advance (if stopped : bool then Cancel
             else if is_failure (to_status outcome) then Block
             else if changed_workspace outcome then CompleteWithChanges else Complete).

(** A goal directive under an authority; [false] when the turn ended there. *)
Definition authorized_directive (objective : str) : M (result RuntimeError bool) :=
  id <-? map_err Identifier (mret (Approval.parse_identifier (chars "runtime-goal-directive")));
  match encode_goal objective with
  | None => mret (Err (Port (Approval.Invalid (chars "goal directive encoding failed"))))
  | Some encoded =>
      let c := mkCall id GOAL_TOOL_NAME encoded in
      _ <-? advance_if Stream;
      _ <-? announce true c;
      outcome <-? run_goal_tool c;
      _ <-? settle true;
      emit (ToolFinished outcome);;
      set (push_outcome outcome);;
      match to_status outcome with
      | StOk => mret (Ok true)
      | StCancelled => _ <-? advance Cancel; mret (Ok false)
      | _ => _ <-? advance Block; mret (Ok false)
      end
  end.

(** The goal directive of the options; [false] when the turn ended there. *)
Definition goal_directive : M (result RuntimeError bool) :=
  match opt_goal options with
  | None => mret (Ok true)
  | Some objective =>
      match authority options with
      | Some _ => authorized_directive objective
      | None =>
          g <-? map_err Goal (call (GoalStart session_id objective));
          emit (GoalUpdated g);;
          mret (Ok true)
      end
  end.

(** The tools the provider is offered. *)
Definition offered : M (list ToolDescriptor) :=
  allowed ← (if tools_enabled options then
               if require_tool_authority config then authority_and can_execute (authority options) else mret true
             else mret false);
  if allowed : bool then
    catalogue ← tool_catalogue;
    (fix keep (ds : list ToolDescriptor) : M (list ToolDescriptor) :=
       match ds with
       | [] => mret []
       | d :: ds =>
           kept ← (if bool_decide (td_name d = GOAL_TOOL_NAME) then
                     match authority options with Some a => is_owner a | None => mret true end
                   else mret true);
           rest ← keep ds;
           mret (if kept : bool then d :: rest else rest)
       end) catalogue
  else mret [].

Definition drive : M (result RuntimeError unit) :=
  at_ ← now;
  _ <-? port (call (Bootstrap session_id reason (context_token_budget config) at_));
  match direct_tool options with
  | Some tool => drive_direct_tool tool
  | None =>
      continue <-? goal_directive;
      if negb continue then mret (Ok tt)
      else
        goal <-? map_err Goal (call (GoalActive session_id));
        _ <-? ingest (match goal with Some g => GoalStatement (Goals.objective g) | None => GoalCleared end);
        _ <-? ingest (UserInput input);
        catalogue ← offered;
        model ← match opt_model options with
                | Some m => mret (Some m)
                | None => at_ ← now; call (SelectedModel session_id at_)
                end;
        round_loop (Z.to_nat (max_rounds config)) catalogue model false
  end.

Definition run : M (result RuntimeError TurnOutcome) :=
  _ <-? advance Enqueue;
  _ <-? advance Start;
  result ← drive;
  match result with
  | Err error =>
      _ <-? advance_if Fail_;
      emit (TurnFailed error);;
      _ <-? persist_turn;
      mret (Err error)
  | Ok _ =>
      _ <-? persist_turn;
      l ← get id;
      mret (Ok (mkTurnOutcome session_id turn (state (machine l)) (message l) (partial l) (round_count l) (tool_outcomes l)))
  end.

End Turn.

(** The execution of a turn loaded at [revision]. *)
Definition locals_new (session_id : str) (turn revision at_ : Z) : Locals :=
  mkLocals machine_new 0 [] None None (mkJournal session_id turn [] 0 false at_) revision.

End TurnLoop.
