(* ===== verification/TurnProtocol.v ===== *)
(** * What a turn promises

    Four protocols over the calls of a turn ([TurnLoop]), each a step relation on a state
    of its own: what is saved of the session and announced of it, how provider rounds are
    accounted for, how tool calls are answered, and what precedes a tool's effect. Every
    run follows all four, wherever it is cut short. *)

From S2P Require Import Prelude Utf8 Approval Goals GoalService TurnState TurnStream TurnPorts TurnTools TurnLoop.

Module TurnProtocol.
Import TurnState TurnStream TurnPorts TurnTools TurnLoop.

(** ** Runs of a protocol *)

Inductive path {S : Type} (R : S → Entry → S → Prop) (s : S) : list Entry → S → Prop :=
| path_nil : path R s [] s
| path_snoc l s1 e s2 : path R s l s1 → R s1 e s2 → path R s (l ++ [e]) s2.

(** The log is a run of the protocol. *)
Definition follows {S} (R : S → Entry → S → Prop) (s : S) (l : list Entry) : Prop := ∃ s', path R s l s'.

(** ** Session states *)

(** What the store holds of the session, what it was last asked to hold, and the move
    that has not been announced. *)
Record SessionView := mkView {
  stored : SessionState * option SessionState;
  submitted : SessionState * option SessionState;
  stored_revision : Z;
  unannounced : option (SessionState * SessionState);
}.

(** One event of the contract leads from one stored state to the other. *)
Definition legal_move (from to : SessionState * option SessionState) : Prop :=
  ∃ e r n m, apply (mkMachine from.1 from.2 n) e = (Ok r, m) ∧ to = (state m, pre_pause_state m).

Definition session_step (session : str) (turn : Z) (s : SessionView) (e : Entry) (s' : SessionView) : Prop :=
  match e with
  | entry c r =>
      match c return option (reply c) → Prop with
      | SaveSession snap => λ r,
          ss_session snap = session ∧ ss_turn snap = turn ∧ ss_revision snap = stored_revision s ∧
          let v := (ss_state snap, ss_pre_pause snap) in
          unannounced s = None ∧ legal_move (stored s) v ∧ legal_move (submitted s) v ∧
          (stored s = submitted s ∨ v = (Failed, None)) ∧
          s' = match r with
               | Some (Ok revision) => mkView v v revision (Some ((submitted s).1, ss_state snap))
               | _ => mkView (stored s) v (stored_revision s) None
               end
      | Emit (StateChanged from to) => λ _,
          unannounced s = Some (from, to) ∧ s' = mkView (stored s) (submitted s) (stored_revision s) None
      | SaveTurn t => λ _,
          tr_session t = session ∧ tr_turn t = turn ∧ unannounced s = None ∧ tr_state t = (submitted s).1 ∧
          (stored s = submitted s ∨ legal_move (stored s) (submitted s)) ∧ s' = s
      | _ => λ _, s' = s
      end r
  end.

(** ** Provider accounting *)

(** The journal the store acknowledged, and whether its last round was sent. *)
Record Accounting := mkAccounting { acknowledged : option ProviderRoundJournal; sent : bool }.

Definition acknowledged_rounds (s : Accounting) : list ProviderRoundRecord := from_option rounds [] (acknowledged s).

(** The usage of the earlier rounds is known and below the limit. *)
Definition within_budget (limit : option Z) (records : list ProviderRoundRecord) : Prop :=
  match limit with
  | None => True
  | Some limit => ∃ used, observed_usage 0 records = Ok used ∧ used < limit
  end.

Definition accounting_step (config : TurnConfig) (session : str) (turn : Z) (s : Accounting) (e : Entry) (s' : Accounting) : Prop :=
  match e with
  | entry c r =>
      match c return option (reply c) → Prop with
      | SaveJournal j => λ r,
          validate_update j (acknowledged s) = Ok tt ∧ pj_session j = session ∧ pj_turn j = turn ∧
          s' = match r with
               | Some (Ok revision) =>
                   mkAccounting (Some (mkJournal session turn (rounds j) revision (closed j) (pj_updated_at j)))
                     (bool_decide (length (rounds j) = length (acknowledged_rounds s)) && sent s)
               | _ => s
               end
      | StartRound q => λ _,
          sent s = false ∧
          (∃ earlier, acknowledged_rounds s = earlier ++ [mkRound (rq_round q) None] ∧ rq_round q = len earlier ∧
             within_budget (max_observed_provider_tokens config) earlier) ∧
          rq_session q = session ∧ rq_turn q = turn ∧ rq_round q < max_rounds config ∧
          s' = mkAccounting (acknowledged s) true
      | SaveTurn t => λ _, provider_rounds t = acknowledged_rounds s ∧ s' = s
      | _ => λ _, s' = s
      end r
  end.

(** ** Tool calls and their answers *)

(** The calls of the last assistant message that have no result yet, in order. *)
Definition answer_step (options : TurnOptions) (session : str) (turn : Z) (waiting : list ToolCall) (e : Entry) (waiting' : list ToolCall)
    : Prop :=
  match e with
  | entry c r =>
      match c return option (reply c) → Prop with
      | Ingest _ _ (AssistantToolCalls _ calls) _ => λ r,
          waiting = [] ∧ waiting' = match r with Some (Ok _) => calls | _ => waiting end
      | Ingest _ _ (ToolCallResult id n _ _) _ => λ r,
          ∃ c rest, waiting = c :: rest ∧ call_id c = id ∧ name c = n ∧ waiting' = match r with Some (Ok _) => rest | _ => waiting end
      | StartRound _ => λ _, waiting = [] ∧ waiting' = waiting
      | Invoke i bound => λ _,
          in_session i = session ∧ in_turn i = turn ∧ fst <$> bound = authority options ∧
          match waiting with
          | c :: _ => tools_enabled options = true ∧ name (in_call i) = name c ∧ arguments (in_call i) = arguments c
          | [] => ∃ t, direct_tool options = Some t ∧ name (in_call i) = dt_name t ∧ arguments (in_call i) = dt_arguments t
          end ∧ waiting' = waiting
      | _ => λ _, waiting' = waiting
      end r
  end.

(** ** What precedes an effect *)

(** The tools last described, the binding last made, the approvals not used yet. *)
Record Clearance := mkClearance {
  described : list ToolDescriptor;
  bound_to : option (ToolInvocation * (Authority * Binding));
  granted : option (Approval.ApprovalTicket * option (Authority * Binding));
  goal_granted : option (Approval.ApprovalTicket * (Authority * Binding));
  audited : option (Authority * Binding);
}.

(** The same tool with the same arguments, for the same turn; the adapter may know the
    call under another identity. *)
Definition same_request (i i' : ToolInvocation) : Prop :=
  in_session i = in_session i' ∧ in_turn i = in_turn i' ∧ name (in_call i) = name (in_call i') ∧
  arguments (in_call i) = arguments (in_call i').

Definition ticket_for (t : Approval.ApprovalTicket) (i : ToolInvocation) : Prop :=
  Approval.t_session_id t = in_session i ∧ Approval.t_turn t = in_turn i ∧ Approval.t_tool_name t = name (in_call i) ∧
  Approval.t_arguments t = arguments (in_call i).

Definition clearance_step (parse_goal : str → result str Service.GoalAction) (options : TurnOptions) (session : str)
    (s : Clearance) (e : Entry) (s' : Clearance) : Prop :=
  match e with
  | entry c r =>
      match c return option (reply c) → Prop with
      | Describe => λ r,
          s' = match r with Some ds => mkClearance ds None None (goal_granted s) (audited s) | None => s end
      | BindAuthorized i a => λ r,
          s' = match r with
               | Some (Ok b) => mkClearance (described s) (Some (i, (a, b))) (granted s) (goal_granted s) (audited s)
               | _ => s
               end
      | RequestApproval t bound => λ r,
          s' = mkClearance (described s) (bound_to s)
                 (match r with Some (Ok o) => if Approval.is_approved o then Some (t, bound) else None | _ => None end)
                 (goal_granted s) (audited s)
      | Invoke i bound => λ _,
          (∃ d, List.find (λ d, bool_decide (td_name d = name (in_call i))) (described s) = Some d ∧
             (requires_approval d = true → ∃ t, granted s = Some (t, bound) ∧ ticket_for t i)) ∧
          (∀ ab, bound = Some ab → ∃ i0, bound_to s = Some (i0, ab) ∧ same_request i0 i) ∧
          s' = mkClearance (described s) None None (goal_granted s) (audited s)
      | RequestGoalApproval t bound => λ r,
          s' = mkClearance (described s) (bound_to s) (granted s)
                 (match r with Some (Some (Ok o)) => if Approval.is_approved o then Some (t, bound) else None | _ => None end) None
      | AuditInternal i a b Authorized => λ r,
          (∃ t, goal_granted s = Some (t, (a, b)) ∧ ticket_for t i) ∧
          s' = mkClearance (described s) (bound_to s) (granted s) (goal_granted s)
                 (match r with Some (Ok _) => Some (a, b) | _ => None end)
      | GoalApply session' action => λ _,
          session' = session ∧
          match authority options with
          | None => s' = s
          | Some a => ∃ t b, goal_granted s = Some (t, (a, b)) ∧ audited s = Some (a, b) ∧ Approval.t_session_id t = session ∧
                        parse_goal (Approval.t_arguments t) = Ok action ∧
                        s' = mkClearance (described s) (bound_to s) (granted s) None None
          end
      | GoalStart session' _ => λ _, session' = session ∧ authority options = None ∧ s' = s
      | _ => λ _, s' = s
      end r
  end.

(** * Proofs *)

(** Calls none of the protocols is about. *)
Definition neutral (c : Call) : bool :=
  match c with
  | IsCancelled | IsShutdown | IsRevoked _ | PauseRequested | PauseChanged | Bootstrap _ _ _ _ | Assemble _ _ _ | Maintain _ _
  | Compact _ _ _ | GoalActive _ | SelectedModel _ _ | Remembered _ _ | ResponseReport | NextChunk | NextInvocation | NextGoal
  | CancelTool _ => true
  | Emit kind => match kind with StateChanged _ _ => false | _ => true end
  | Ingest _ _ item _ => match item with AssistantToolCalls _ _ | ToolCallResult _ _ _ _ => false | _ => true end
  | AuditInternal _ _ _ phase => match phase with Authorized => false | _ => true end
  | _ => false
  end.

(** ** How a run ends *)

(** The last call is a save the store refused. *)
Definition refused (l : list Entry) : Prop :=
  ∃ l0 e, (∃ s, l = l0 ++ [entry (SaveSession s) (Some (Err e))]) ∨ (∃ t, l = l0 ++ [entry (SaveTurn t) (Some (Err e))]).

(** The states a turn that ended on its own is recorded in. *)
Definition ended_state (s : SessionState) : bool :=
  bool_decide (s ∈ [Cancelled; Blocked; Completed; CompletedWithChanges]).

(** The record of the turn is the last thing saved, and says what the caller is told. *)
Definition recorded (session : str) (turn first_revision : Z) (r : result RuntimeError TurnOutcome) (l : list Entry) : Prop :=
  match r with
  | Ok o =>
      ended_state (tu_state o) = true ∧ tu_session o = session ∧ tu_turn o = turn ∧
      ∃ l0 t, l = l0 ++ [entry (SaveTurn t) (Some (Ok tt))] ∧ tr_state t = tu_state o ∧ tr_message t = tu_message o ∧
        tr_partial t = tu_partial o ∧
        ∃ s, path (session_step session turn) (mkView (Draft, None) (Draft, None) first_revision None) l0 s ∧ stored s = (tu_state o, None)
  | Err e =>
      refused l ∨
      ∃ l0 t, l = l0 ++ [entry (Emit (TurnFailed e)) (Some tt); entry (SaveTurn t) (Some (Ok tt))] ∧ is_terminal (tr_state t) = true
  end.

Section Proofs.
Context (answer : list Entry → ∀ c : Call, option (reply c)) (clock : list Entry → Z).
Context (decode_goal : str → result str Service.GoalAction) (encode_goal : str → option str).
Context (goal_error_text : Service.GoalError → str) (port_error_text : PortError → str).
Context (config : TurnConfig) (options : TurnOptions).
Context (session_id : str) (turn first_revision : Z).

Abbreviation W := (World Locals).
Abbreviation M := (TurnPorts.M Locals).
Abbreviation call := (TurnPorts.call (L := Locals) answer).
Abbreviation now := (TurnPorts.now (L := Locals) clock).

Definition view0 : SessionView := mkView (Draft, None) (Draft, None) first_revision None.
Definition accounting0 : Accounting := mkAccounting None false.
Definition clearance0 : Clearance := mkClearance [] None None None None.

Abbreviation sstep := (session_step session_id turn).
Abbreviation bstep := (accounting_step config session_id turn).
Abbreviation qstep := (answer_step options session_id turn).
Abbreviation cstep := (clearance_step (parse_goal decode_goal) options session_id).

(** Where the four protocols are after the log. *)
Record Good (a : SessionView) (b : Accounting) (q : list ToolCall) (d : Clearance) (l : list Entry) : Prop := mkGood {
  g_session : path sstep view0 l a;
  g_accounting : path bstep accounting0 l b;
  g_answers : path qstep [] l q;
  g_clearance : path cstep clearance0 l d;
}.

Lemma good_step a b q d l e a' b' q' d' :
  Good a b q d l → sstep a e a' → bstep b e b' → qstep q e q' → cstep d e d' → Good a' b' q' d' (l ++ [e]).
Proof. intros [] ? ? ? ?. split; by eapply path_snoc. Qed.

Lemma good_neutral a b q d l c r : neutral c = true → Good a b q d l → Good a b q d (l ++ [entry c r]).
Proof.
  intros Hc Hg. apply (good_step a b q d l); [done|destruct c; try done..].
  all: cbn in *; try (destruct kind; done); try (destruct item; done); try (destruct phase; done).
Qed.

Definition DInv (w : W) : Prop := ∃ a b q d, Good a b q d (log w).

(** The journal of the turn is the one the store acknowledged. *)
Record journal_ok (b : Accounting) (j : ProviderRoundJournal) : Prop := mkJournalOk {
  jo_session : pj_session j = session_id;
  jo_turn : pj_turn j = turn;
  jo_closed : closed j = false;
  jo_valid : validate_sequence (rounds j) = Ok tt;
  jo_acknowledged : match acknowledged b with
                    | None => rounds j = [] ∧ pj_revision j = 0
                    | Some k => rounds j ≠ [] ∧ rounds k = rounds j ∧ pj_revision k = pj_revision j ∧ closed k = false ∧
                                pj_session k = session_id ∧ pj_turn k = turn
                    end;
}.

Lemma acknowledged_journal b j : journal_ok b j → acknowledged_rounds b = rounds j.
Proof.
  intros [_ _ _ _ Hack]. unfold acknowledged_rounds.
  destruct (acknowledged b) as [k|]; cbn; [by destruct Hack as (_ & -> & _)|by destruct Hack as [-> _]].
Qed.

Definition view (l : Locals) : SessionState * option SessionState := (state (machine l), pre_pause_state (machine l)).

(** Stored, submitted and announced. *)
Definition in_step (a : SessionView) (v : SessionState * option SessionState) : Prop :=
  stored a = v ∧ submitted a = v ∧ unannounced a = None.

(** Submitted, and possibly not stored. *)
Definition lagging (a : SessionView) (v : SessionState * option SessionState) : Prop :=
  submitted a = v ∧ unannounced a = None ∧ (stored a = v ∨ legal_move (stored a) v).

Lemma in_step_lagging a v : in_step a v → lagging a v.
Proof. intros (Hs & Hm & Hu). repeat split; auto. Qed.

(** The turn at [v], with [n] rounds counted, the accounting [js], its last round sent or
    not, and the calls [q] waiting for their results. *)
Record At (v : SessionState * option SessionState) (n : Z) (p : option PartialAssistantMessage) (js : list ProviderRoundRecord) (snt : bool) (q : list ToolCall)
    (d : Clearance) (w : W) : Prop := mkAt {
  at_view : SessionView;
  at_accounting : Accounting;
  at_good : Good at_view at_accounting q d (log w);
  at_stored : in_step at_view v;
  at_memory : view (locals w) = v;
  at_revision : stored_revision at_view = revision (locals w);
  at_journal : journal_ok at_accounting (journal (locals w));
  at_rounds : rounds (journal (locals w)) = js;
  at_sent : sent at_accounting = snt;
  at_count : round_count (locals w) = n;
  at_partial : partial (locals w) = p;
}.

(** A turn that failed: what is in memory may be one move ahead of what is stored. *)
Record Broken (w : W) : Prop := mkBroken {
  br_view : SessionView;
  br_accounting : Accounting;
  br_waiting : list ToolCall;
  br_clearance : Clearance;
  br_good : Good br_view br_accounting br_waiting br_clearance (log w);
  br_stored : lagging br_view (view (locals w));
  br_revision : stored_revision br_view = revision (locals w);
  br_journal : journal_ok br_accounting (journal (locals w));
}.

Lemma at_dinv v n p js snt q d w : At v n p js snt q d w → DInv w.
Proof. intros [a b Hg]. by exists a, b, q, d. Qed.

Lemma at_broken v n p js snt q d w : At v n p js snt q d w → Broken w.
Proof. intros [a b Hg Hs Hm Hr Hj _ _ _ _]. apply (mkBroken w a b q d); try done. rewrite Hm. by apply in_step_lagging. Qed.

Lemma broken_dinv w : Broken w → DInv w.
Proof. intros [a b q d Hg]. by exists a, b, q, d. Qed.

Lemma at_neutral v n p js snt q d w c r :
  neutral c = true → At v n p js snt q d w → At v n p js snt q d (mkWorld (locals w) (log w ++ [entry c r])).
Proof. intros Hc [a b Hg Hs Hm Hr Hj Hrs Hst Hn Hpt]. apply (mkAt _ _ _ _ _ _ _ _ a b); try done. by apply good_neutral. Qed.

(** How a fallible step ends. The transition table never refuses it. *)
Definition POST {A} (Q : A → W → Prop) (r : result RuntimeError A) (w : W) : Prop :=
  match r with
  | Ok a => Q a w
  | Err e => (∀ x, e ≠ State x) ∧ Broken w
  end.

Lemma try_post {A B} (m : M (result RuntimeError A)) (k : A → M (result RuntimeError B)) (Q : A → W → Prop) (Q' : B → W → Prop) w :
  wpt m (POST Q) DInv w → (∀ a w', Q a w' → wpt (k a) (POST Q') DInv w') → wpt (try m k) (POST Q') DInv w.
Proof. intros Hm Hk. apply wpt_try. eapply wpt_mono; [exact Hm| |done]. intros [a|e] w' H; [by apply Hk|exact H]. Qed.

Lemma ok_post {A} (a : A) (Q : A → W → Prop) w : Q a w → wpt (mret (Ok a)) (POST Q) DInv w.
Proof. done. Qed.

Lemma post_mono {A} (m : M (result RuntimeError A)) (Q Q' : A → W → Prop) w :
  wpt m (POST Q) DInv w → (∀ a w', Q a w' → Q' a w') → wpt m (POST Q') DInv w.
Proof. intros Hm HQ. eapply wpt_mono; [exact Hm| |done]. intros [a|e] w' H; [by apply HQ|exact H]. Qed.

Lemma err_post {A} e v n p js snt q d (Q : A → W → Prop) w :
  (∀ x, e ≠ State x) → At v n p js snt q d w → wpt (mret (Err e)) (POST Q) DInv w.
Proof. intros He HA. split; [done|by eapply at_broken]. Qed.

Lemma set_post {B} (f : Locals → Locals) (k : unit → M B) Q w :
  wpt (k tt) Q DInv (mkWorld (f (locals w)) (log w)) → wpt (set f ≫= k) Q DInv w.
Proof. intros H. by apply wpt_bind, wpt_set. Qed.

Lemma get_post {A B} (f : Locals → A) (k : A → M B) Q w : wpt (k (f (locals w))) Q DInv w → wpt (get f ≫= k) Q DInv w.
Proof. intros H. by apply wpt_bind, wpt_get. Qed.

Lemma now_post {B} (k : Z → M B) Q w : (∀ t, wpt (k t) Q DInv w) → wpt (now ≫= k) Q DInv w.
Proof. intros H. by apply wpt_bind, wpt_now. Qed.

Section Steps.
Context (v : SessionState * option SessionState) (n : Z) (p : option PartialAssistantMessage) (js : list ProviderRoundRecord) (snt : bool) (q : list ToolCall)
  (d : Clearance).

Lemma call_neutral {B} c (k : reply c → M B) (Q : B → W → Prop) w :
  neutral c = true → At v n p js snt q d w → (∀ r w', At v n p js snt q d w' → wpt (k r) Q DInv w') → wpt (call c ≫= k) Q DInv w.
Proof.
  intros Hc HA Hk. apply wpt_bind, wpt_call.
  - intros r. by apply Hk, at_neutral.
  - eapply at_dinv. by apply at_neutral.
Qed.

Lemma call_at c w : neutral c = true → At v n p js snt q d w → wpt (call c) (λ _, At v n p js snt q d) DInv w.
Proof.
  intros Hc HA. apply wpt_call; [intros r; by apply at_neutral|]. eapply at_dinv. by apply at_neutral.
Qed.

Lemma map_post {E A B} (f : E → RuntimeError) (m : M (result E A)) (k : A → M (result RuntimeError B)) (Q : B → W → Prop) w :
  (∀ e x, f e ≠ State x) → wpt m (λ _, At v n p js snt q d) DInv w →
  (∀ r w', At v n p js snt q d w' → wpt (k r) (POST Q) DInv w') → wpt (try (map_err f m) k) (POST Q) DInv w.
Proof.
  intros Hf Hm Hk. apply wpt_try, wpt_map_err. eapply wpt_mono; [exact Hm| |done].
  intros [a|e] w' HA; [by apply Hk|]. split; [intros x; apply Hf|by eapply at_broken].
Qed.

Lemma port_post {A B} (m : M (result PortError A)) (k : A → M (result RuntimeError B)) (Q : B → W → Prop) w :
  wpt m (λ _, At v n p js snt q d) DInv w →
  (∀ r w', At v n p js snt q d w' → wpt (k r) (POST Q) DInv w') → wpt (try (port m) k) (POST Q) DInv w.
Proof. by apply map_post. Qed.

Lemma set_at f w :
  (∀ l, machine (f l) = machine l ∧ journal (f l) = journal l ∧ revision (f l) = revision l) →
  At v n p js snt q d w → At v (round_count (f (locals w))) (partial (f (locals w))) js snt q d (mkWorld (f (locals w)) (log w)).
Proof.
  intros Hf [a b Hg Hs Hm Hr Hj Hrs Hst Hn Hpt]. destruct (Hf (locals w)) as (E1 & E2 & E3).
  apply (mkAt _ _ _ _ _ _ _ _ a b); cbn; try done; unfold view in *; rewrite ?E1, ?E2, ?E3; done.
Qed.

(** ** The steps of a turn *)

Definition moves (v : SessionState * option SessionState) (e : SessionEvent) (v' : SessionState * option SessionState) : Prop :=
  ∀ k, ∃ r m, apply (mkMachine v.1 v.2 k) e = (Ok r, m) ∧ v' = (state m, pre_pause_state m).

Lemma ingest_post item w :
  neutral (Ingest session_id turn item 0) = true → At v n p js snt q d w →
  wpt (ingest answer clock session_id turn item) (POST (λ _, At v n p js snt q d)) DInv w.
Proof.
  intros Hc HA. unfold ingest. apply now_post. intros t. refine (port_post (call (Ingest _ _ _ _)) _ _ _ _ _).
  - by apply (call_at (Ingest session_id turn item t)).
  - intros r w' HA'. by apply ok_post.
Qed.

Lemma emit_post {B} kind (k : unit → M B) (Q : B → W → Prop) w :
  neutral (Emit kind) = true → At v n p js snt q d w → (∀ w', At v n p js snt q d w' → wpt (k tt) Q DInv w') →
  wpt (emit answer kind ≫= k) Q DInv w.
Proof. intros Hc HA Hk. refine (call_neutral (Emit kind) k _ _ Hc HA _). by intros [] w' HA'; apply Hk. Qed.

Lemma apply_state m e r m' : apply m e = (Ok r, m') → state m' = r.
Proof. unfold apply. destruct (transition _ _) as [[[]|]|]; try (by intros [= <- <-]). destruct (pre_pause_state m); by intros [= <- <-]. Qed.

Lemma moves_legal e v' : moves v e v' → legal_move v v'.
Proof. intros H. destruct (H 0) as (r & m & Ha & ->). by exists e, r, 0, m. Qed.

(** Saving a move and announcing it. *)
Lemma good_saved a b l snap r :
  Good a b q d l → ss_session snap = session_id → ss_turn snap = turn → ss_revision snap = stored_revision a → unannounced a = None →
  let v := (ss_state snap, ss_pre_pause snap) in
  legal_move (stored a) v → legal_move (submitted a) v → stored a = submitted a ∨ v = (Failed, None) →
  Good (match r with
        | Some (Ok rev) => mkView v v rev (Some ((submitted a).1, ss_state snap))
        | _ => mkView (stored a) v (stored_revision a) None
        end) b q d (l ++ [entry (SaveSession snap) r]).
Proof. intros Hg ? ? ? ? v0 ? ? ?. by apply (good_step a b q d l). Qed.

Lemma good_announced a b l from to r :
  Good a b q d l → unannounced a = Some (from, to) →
  Good (mkView (stored a) (submitted a) (stored_revision a) None) b q d (l ++ [entry (Emit (StateChanged from to)) r]).
Proof. intros Hg ?. by apply (good_step a b q d l). Qed.

(** A move of the machine, from wherever the store is. *)
Lemma advance_from e v' w a b :
  moves v e v' → Good a b q d (log w) → view (locals w) = v → submitted a = v → unannounced a = None →
  legal_move (stored a) v' → stored a = v ∨ v' = (Failed, None) →
  stored_revision a = revision (locals w) → journal_ok b (journal (locals w)) →
  rounds (journal (locals w)) = js → sent b = snt → round_count (locals w) = n → partial (locals w) = p →
  wpt (advance answer clock session_id turn e) (POST (λ _, At v' n p js snt q d)) DInv w.
Proof.
  intros Hv Hg Hm Hsub Hun Hlegal Hlag Hr Hj Hrs Hst Hn Hpt. pose proof (moves_legal e v' Hv) as Hmove.
  unfold advance. apply get_post. destruct (Hv (transitions (machine (locals w)))) as (r & m & Ha & Hv').
  assert (Hmach : mkMachine v.1 v.2 (transitions (machine (locals w))) = machine (locals w)).
  { unfold view in Hm. destruct (machine (locals w)) as [s pre k]. by inversion Hm. }
  rewrite Hmach in Ha. rewrite Ha. pose proof (apply_state _ _ _ _ Ha) as Hst'. apply set_post.
  apply wpt_try. unfold persist_session. apply get_post, get_post, now_post. intros t. apply wpt_try, wpt_map_err.
  cbn [locals machine with_machine revision]. set (snap := mkSnapshot _ _ _ _ _ _).
  assert (Hsn : (ss_state snap, ss_pre_pause snap) = v') by done.
  assert (Hsave : ∀ res, Good (match res with
        | Some (Ok rev) => mkView v' v' rev (Some (v.1, ss_state snap))
        | _ => mkView (stored a) v' (stored_revision a) None
        end) b q d (log w ++ [entry (SaveSession snap) res])).
  { intros res. rewrite <- Hsub, <- Hsn. apply good_saved; try done; rewrite ?Hsn, ?Hsub; done. }
  refine (wpt_call answer (SaveSession snap) _ _ _ _ _); cbn [locals log]; [|eexists _, b, q, d; apply Hsave].
  intros [rev|err].
  - apply set_post, wpt_ret, wpt_bind. cbn [locals log].
    assert (Hann : ∀ u, Good (mkView v' v' rev None) b q d
      ((log w ++ [entry (SaveSession snap) (Some (Ok rev))]) ++ [entry (Emit (StateChanged (state (machine (locals w))) r)) u])).
    { intros u. apply (good_announced (mkView v' v' rev (Some (v.1, ss_state snap)))); [apply (Hsave (Some (Ok rev)))|].
      cbn. unfold view in Hm. rewrite <- Hm. cbn. by rewrite Hst'. }
    refine (wpt_call answer (Emit (StateChanged (state (machine (locals w))) r)) _ _ _ _ _).
    + intros u. apply ok_post. cbn [locals log]. apply (mkAt _ _ _ _ _ _ _ _ (mkView v' v' rev None) b); try done. apply Hann.
    + eexists _, b, q, d. apply Hann.
  - split; [done|]. apply (mkBroken _ (mkView (stored a) v' (stored_revision a) None) b q d); cbn; [exact (Hsave (Some (Err err)))| |done|done].
    unfold view. cbn. rewrite <- Hv'. split; [done|]. split; [done|]. by right.
Qed.

Lemma advance_post e v' w :
  moves v e v' → At v n p js snt q d w →
  wpt (advance answer clock session_id turn e) (POST (λ _, At v' n p js snt q d)) DInv w.
Proof.
  intros Hv [a b Hg (Hs & Hsub & Hu) Hm Hr Hj Hrs Hst Hn Hpt]. eapply advance_from; try done; [|by left].
  rewrite Hs. by eapply moves_legal.
Qed.

(** ** Tools *)

(** Calls only the clearance is about. *)
Definition clears (c : Call) : bool :=
  match c with
  | Describe | BindAuthorized _ _ | RequestApproval _ _ | RequestGoalApproval _ _ | AuditInternal _ _ _ _ | GoalApply _ _
  | GoalStart _ _ => true
  | _ => false
  end.

Lemma at_clear d' w c r :
  clears c = true → cstep d (entry c r) d' → At v n p js snt q d w → At v n p js snt q d' (mkWorld (locals w) (log w ++ [entry c r])).
Proof.
  intros Hc Hd [a b Hg Hs Hm Hr Hj Hrs Hst Hn Hpt]. apply (mkAt _ _ _ _ _ _ _ _ a b); try done.
  apply (good_step a b q d (log w)); try done; by destruct c.
Qed.

End Steps.

(** [m] leaves the turn where it is. *)
Definition stays {A} (m : M A) : Prop :=
  ∀ v n p js snt q d w, At v n p js snt q d w → wpt m (λ _, At v n p js snt q d) DInv w.

Lemma bind_stays {A B} (m : M A) (k : A → M B) v n p js snt q d (Q : B → W → Prop) w :
  stays m → At v n p js snt q d w → (∀ r w', At v n p js snt q d w' → wpt (k r) Q DInv w') → wpt (m ≫= k) Q DInv w.
Proof. intros Hm HA Hk. apply wpt_bind. eapply wpt_mono; [by apply Hm| |done]. intros a w' HA'. by apply Hk. Qed.

Lemma stays_ret {A} (a : A) : stays (mret a).
Proof. by intros v n p js snt q d w HA. Qed.

Lemma stays_call c : neutral c = true → stays (call c).
Proof. intros Hc v n p js snt q d w HA. by apply call_at. Qed.

Lemma stays_bind {A B} (m : M A) (k : A → M B) : stays m → (∀ a, stays (k a)) → stays (m ≫= k).
Proof. intros Hm Hk v n p js snt q d w HA. eapply bind_stays; [done|exact HA|]. intros a w' HA'. by apply Hk. Qed.

Lemma stays_not m : stays m → stays (not_ m).
Proof. intros Hm. apply stays_bind; [done|intros; apply stays_ret]. Qed.

Lemma stays_or m k : stays m → stays k → stays (or_else m k).
Proof. intros Hm Hk. apply stays_bind; [done|intros []; [apply stays_ret|done]]. Qed.

Lemma stays_revoked a : stays (TurnTools.is_revoked answer a).
Proof. unfold TurnTools.is_revoked. case_match; [by apply (stays_call (IsRevoked a))|apply stays_ret]. Qed.

Lemma stays_can_execute a : stays (TurnTools.can_execute answer a).
Proof.
  unfold TurnTools.can_execute. case_match; try apply stays_ret;
    (apply stays_bind; [apply stays_revoked|intros; apply stays_ret]).
Qed.

Lemma stays_owner a : stays (TurnTools.is_owner answer a).
Proof.
  unfold TurnTools.is_owner. case_match; try apply stays_ret;
    (apply stays_bind; [apply stays_revoked|intros; apply stays_ret]).
Qed.

Lemma stays_authority f o : (∀ a, stays (f a)) → stays (authority_and f o).
Proof. intros Hf. destruct o; [apply Hf|apply stays_ret]. Qed.

Create HintDb turn.
Hint Resolve stays_ret stays_call stays_bind stays_not stays_or stays_revoked stays_can_execute stays_owner stays_authority : turn.
Hint Extern 1 (neutral _ = true) => reflexivity : turn.

Lemma stays_cancelled : stays (call IsCancelled).
Proof. by apply (stays_call IsCancelled). Qed.
Lemma stays_shutdown : stays (call IsShutdown).
Proof. by apply (stays_call IsShutdown). Qed.
Hint Resolve stays_cancelled stays_shutdown : turn.

(** The invocation is one the waiting calls, or the command of the turn, ask for. *)
Definition asked_for (q : list ToolCall) (i : ToolInvocation) : Prop :=
  in_session i = session_id ∧ in_turn i = turn ∧
  match q with
  | c :: _ => tools_enabled options = true ∧ name (in_call i) = name c ∧ arguments (in_call i) = arguments c
  | [] => ∃ t, direct_tool options = Some t ∧ name (in_call i) = dt_name t ∧ arguments (in_call i) = dt_arguments t
  end.

Section Execute.
Context (v : SessionState * option SessionState) (n : Z) (p : option PartialAssistantMessage) (js : list ProviderRoundRecord) (snt : bool) (q : list ToolCall).

(** At some clearance, with an outcome for the call it was asked for. *)
Definition executed (id : str) (r : result ToolExecutionError ToolOutcome) (w : W) : Prop :=
  (∃ d, At v n p js snt q d w) ∧ match r with Ok o => to_call_id o = id | Err _ => True end.

Lemma ends_here id o d w : At v n p js snt q d w → to_call_id o = id → wpt (mret (Ok o)) (executed id) DInv w.
Proof. intros HA Ho. split; [by exists d|done]. Qed.

(** Ready to run: described, approved if it has to be, bound if there is an authority. *)
Definition cleared (i : ToolInvocation) (bound : option (Authority * Binding)) (dsc : ToolDescriptor) (d : Clearance) : Prop :=
  List.find (λ d, bool_decide (td_name d = name (in_call i))) (described d) = Some dsc ∧
  (requires_approval dsc = true → ∃ t, granted d = Some (t, bound) ∧ ticket_for t i) ∧
  (∀ ab, bound = Some ab → ∃ i0, bound_to d = Some (i0, ab) ∧ same_request i0 i).

Lemma cleared_renamed i id bound dsc d : cleared i bound dsc d → cleared (renamed i id) bound dsc d.
Proof. done. Qed.

Lemma run_bound_post id dsc i bound d w :
  At v n p js snt q d w → cleared i bound dsc d → asked_for q i → fst <$> bound = authority options →
  wpt (run_bound answer port_error_text id dsc i bound) (executed id) DInv w.
Proof.
  intros HA (Hf & Hg & Hb) (Hs & Ht & Hq) Hau. unfold run_bound. apply wpt_bind.
  assert (Hstep : ∀ r, ∃ d', At v n p js snt q d' (mkWorld (locals w) (log w ++ [entry (Invoke i bound) r]))).
  { intros r. destruct HA as [a b HG H1 H2 H3 H4 H5 H6 H7 H8]. exists (mkClearance (described d) None None (goal_granted d) (audited d)).
    apply (mkAt _ _ _ _ _ _ _ _ a b); try done. apply (good_step a b q d (log w)); try done. cbn. eauto. }
  refine (wpt_call answer (Invoke i bound) _ _ _ _ _); [intros race; destruct (Hstep (Some race)) as [d' HA']|
    destruct (Hstep None) as [d' HA']; by eapply at_dinv].
  destruct race as [[o|e]|interruption].
  - eapply ends_here; [done|]. by case_decide.
  - destruct e; try (by eapply ends_here); (split; [by exists d'|done]).
  - refine (bind_stays _ _ _ _ _ _ _ _ _ _ _ (stays_call (CancelTool _) eq_refl) HA' _). intros _ w' HA2.
    split; [by exists d'|]. destruct (bool_decide _ && _); [done|]. by destruct interruption.
Qed.

Lemma run_checked_post dsc i bound d w :
  At v n p js snt q d w → cleared i bound dsc d → asked_for q i → fst <$> bound = authority options →
  wpt (run_checked answer port_error_text dsc i bound) (executed (call_id (in_call i))) DInv w.
Proof.
  intros HA Hc Hq Hau. unfold run_checked. eapply bind_stays; [auto with turn|exact HA|]. intros stopped w1 HA1.
  destruct stopped; [by eapply ends_here|]. unfold adapter_identity. destruct (fst <$> bound) as [a|] eqn:Ea.
  - apply wpt_bind. apply wpt_bind. refine (wpt_mono _ _ _ _ _ _ (call_at _ _ _ _ _ _ _ NextInvocation w1 eq_refl HA1) _ _); [|done].
    intros [ordinal|] w2 HA2; [|by eapply ends_here]. destruct (Approval.parse_identifier _) as [id|e]; [|by eapply ends_here].
    cbn. eapply run_bound_post; [done|by apply cleared_renamed|done|]. by rewrite Ea.
  - apply wpt_bind, wpt_ret. eapply run_bound_post; [done|done|done|]. by rewrite Ea.
Qed.

Lemma approve_post dsc i bound d w :
  At v n p js snt q d w →
  List.find (λ d, bool_decide (td_name d = name (in_call i))) (described d) = Some dsc →
  (∀ ab, bound = Some ab → bound_to d = Some (i, ab)) →
  wpt (approve answer dsc i bound)
    (λ r w', ∃ d', At v n p js snt q d' w' ∧
       match r with
       | Ok None => cleared i bound dsc d'
       | Ok (Some o) => to_call_id o = call_id (in_call i)
       | Err _ => True
       end) DInv w.
Proof.
  intros HA Hf Hb. unfold approve. destruct (requires_approval dsc) eqn:Er.
  - apply wpt_try, wpt_map_err. refine (wpt_call answer (RequestApproval (ticket_of i) bound) _ _ _ _ _).
    2:{ eapply at_dinv. eapply at_clear; [done| |exact HA]. done. }
    intros [o|e]; (eexists; split; [eapply at_clear; [done| |exact HA]; done|]); [|done].
    destruct o as [[[] sc] rem|[]]; cbn; try done. split; [done|]. split.
    + intros _. exists (ticket_of i). done.
    + intros ab Hab. exists i. split; [by apply Hb|done].
  - exists d. split; [done|]. split; [done|]. split; [congruence|]. intros ab Hab. exists i. split; [by apply Hb|done].
Qed.

Lemma describe_post {B} nm (k : option ToolDescriptor → M B) (Q : B → W → Prop) d w :
  At v n p js snt q d w →
  (∀ r w' d', At v n p js snt q d' w' → List.find (λ d, bool_decide (td_name d = nm)) (described d') = r → wpt (k r) Q DInv w') →
  wpt (describe answer nm ≫= k) Q DInv w.
Proof.
  intros HA Hk. apply wpt_bind. unfold describe. apply wpt_bind. refine (wpt_call answer Describe _ _ _ _ _).
  - intros ds. apply wpt_ret. eapply Hk; [eapply at_clear; [done| |exact HA]; done|done].
  - eapply at_dinv. eapply at_clear; [done| |exact HA]. done.
Qed.

Lemma execute_authorized_post i d w :
  At v n p js snt q d w → asked_for q i →
  wpt (execute_authorized answer port_error_text i (authority options)) (executed (call_id (in_call i))) DInv w.
Proof.
  intros HA Hq. unfold execute_authorized. eapply bind_stays; [auto with turn|exact HA|]. intros barred w1 HA1.
  destruct barred; [by eapply ends_here|]. eapply describe_post; [exact HA1|]. intros [dsc|] w2 d2 HA2 Hf; [|by eapply ends_here].
  eapply bind_stays; [auto with turn|exact HA2|]. intros [] w3 HA3; [by eapply ends_here|].
  assert (Hgo : ∀ bound d' w', At v n p js snt q d' w' → described d' = described d2 → fst <$> bound = authority options →
    (∀ ab, bound = Some ab → bound_to d' = Some (i, ab)) →
    wpt (try (approve answer dsc i bound) (λ refused, match refused with
           | Some outcome => mret (Ok outcome) | None => run_checked answer port_error_text dsc i bound end))
      (executed (call_id (in_call i))) DInv w').
  { intros bound d' w' HA' Hd Hau Hb. apply wpt_try. eapply wpt_mono; [apply (approve_post dsc i bound d' w'); try done; by rewrite Hd| |done].
    intros [[o|]|e] w4 (d4 & HA4 & H4); [by eapply ends_here|by eapply run_checked_post|]. split; [by exists d4|done]. }
  destruct (authority options) as [a|] eqn:Ea.
  - apply wpt_bind, wpt_bind. refine (wpt_call answer (BindAuthorized i a) _ _ _ _ _).
    2:{ eapply at_dinv. eapply at_clear; [done| |exact HA3]. done. }
    intros [b|e]; apply wpt_ret; cbn.
    + eapply Hgo; [eapply at_clear; [done| |exact HA3]; done|done|done|]. by intros ab [= <-].
    + eapply ends_here; [|done]. eapply at_clear; [done| |exact HA3]. done.
  - apply wpt_bind, wpt_ret. by eapply Hgo.
Qed.

(** ** The goal tool *)

(** [m] leaves the turn where it is, with the clearance of its goal call. *)
Definition keeps_goal {A} (m : M A) : Prop :=
  ∀ d w, At v n p js snt q d w →
  wpt m (λ _ w', ∃ d', At v n p js snt q d' w' ∧ goal_granted d' = goal_granted d ∧ audited d' = audited d) DInv w.

Lemma stays_keeps_goal {A} (m : M A) : stays m → keeps_goal m.
Proof. intros Hm d w HA. eapply wpt_mono; [by apply Hm| |done]. intros a w' HA'. by exists d. Qed.

Lemma or_keeps_goal m k : keeps_goal m → keeps_goal k → keeps_goal (or_else m k).
Proof.
  intros Hm Hk d w HA. apply wpt_bind. eapply wpt_mono; [by apply Hm| |done]. intros [] w' (d' & HA' & Hg & Ha).
  - exists d'. done.
  - eapply wpt_mono; [by apply Hk| |done]. intros b w2 (d2 & HA2 & Hg2 & Ha2). exists d2. by rewrite Hg2, Ha2.
Qed.

Lemma binding_changed_keeps i a b : keeps_goal (binding_changed answer i a b).
Proof.
  intros d w HA. apply wpt_bind. refine (wpt_call answer (BindAuthorized i a) _ _ _ _ _).
  - intros [b'|e]; (eexists; split; [eapply at_clear; [done| |exact HA]; done|done]).
  - eapply at_dinv. eapply at_clear; [done| |exact HA]. done.
Qed.

Lemma keeps_goal_bind {A B} (m : M A) (k : A → M B) (Q : B → W → Prop) d w :
  keeps_goal m → At v n p js snt q d w →
  (∀ r w' d', At v n p js snt q d' w' → goal_granted d' = goal_granted d → audited d' = audited d → wpt (k r) Q DInv w') →
  wpt (m ≫= k) Q DInv w.
Proof.
  intros Hm HA Hk. apply wpt_bind. eapply wpt_mono; [by apply Hm| |done]. intros r w' (d' & HA' & Hg & Ha). by eapply Hk.
Qed.

Definition goal_executed (id : str) (r : result ToolExecutionError AuthorizedGoalOutcome) (w : W) : Prop :=
  (∃ d, At v n p js snt q d w) ∧ match r with Ok o => to_call_id (ag_outcome o) = id | Err _ => True end.

Lemma goal_ends id o d w : At v n p js snt q d w → to_call_id (ag_outcome o) = id → wpt (mret (Ok o)) (goal_executed id) DInv w.
Proof. intros HA Ho. split; [by exists d|done]. Qed.

Lemma must_audit_post id i a b phase (r : result ToolExecutionError AuthorizedGoalOutcome) d w :
  phase ≠ Authorized → At v n p js snt q d w → match r with Ok o => to_call_id (ag_outcome o) = id | Err _ => True end →
  wpt (try (must_audit answer port_error_text i a b phase) (λ _, mret r)) (goal_executed id) DInv w.
Proof.
  intros Hp HA Hr. apply wpt_try, wpt_map_err.
  assert (Hn : neutral (AuditInternal i a b phase) = true) by (by destruct phase).
  eapply wpt_mono; [exact (call_at v n p js snt q d (AuditInternal i a b phase) w Hn HA)| |done].
  intros [u|e] w' HA'; (split; [by exists d|]); done.
Qed.

Context (a : Authority) (Hauthority : authority options = Some a).

Lemma apply_goal_post id i b action d w t :
  At v n p js snt q d w → in_session i = session_id → goal_granted d = Some (t, (a, b)) → audited d = Some (a, b) →
  Approval.t_session_id t = session_id → parse_goal decode_goal (Approval.t_arguments t) = Ok action →
  wpt (apply_goal answer goal_error_text port_error_text id i a b action) (goal_executed id) DInv w.
Proof.
  intros HA Hs Hg Ha Ht Hp. unfold apply_goal. apply wpt_bind.
  assert (Hstep : ∀ r, At v n p js snt q (mkClearance (described d) (bound_to d) (granted d) None None)
    (mkWorld (locals w) (log w ++ [entry (GoalApply (in_session i) action) r]))).
  { intros r. eapply at_clear; [done| |exact HA]. cbn. rewrite Hauthority. split; [done|]. by exists t, b. }
  refine (wpt_call answer (GoalApply (in_session i) action) _ _ _ _ _); [intros r|by eapply at_dinv]. specialize (Hstep (Some r)).
  destruct r as [g|e]; [by eapply must_audit_post|]. destruct e; by eapply must_audit_post.
Qed.

Lemma audited_goal_post id i b action d w t :
  At v n p js snt q d w → in_session i = session_id → goal_granted d = Some (t, (a, b)) → ticket_for t i →
  parse_goal decode_goal (Approval.t_arguments t) = Ok action →
  wpt (audited_goal answer goal_error_text port_error_text id i a b action) (goal_executed id) DInv w.
Proof.
  intros HA Hs Hg Ht Hp. unfold audited_goal. apply wpt_bind. refine (wpt_call answer (AuditInternal i a b Authorized) _ _ _ _ _).
  2:{ eapply at_dinv. eapply at_clear; [done| |exact HA]. split; [by exists t|done]. }
  intros [u|e].
  2:{ eapply goal_ends; [|done]. eapply at_clear; [done| |exact HA]. split; [by exists t|done]. }
  eapply keeps_goal_bind; [|eapply at_clear; [done| |exact HA]; split; [by exists t|done]|].
  { repeat (apply or_keeps_goal; [apply stays_keeps_goal; auto with turn|]). apply binding_changed_keeps. }
  intros [] w1 d1 HA1 Hg1 Ha1; [by eapply must_audit_post|]. eapply apply_goal_post; try done; [by rewrite Hg1|].
  destruct Ht as (Ht & _). by rewrite Ht.
Qed.

Lemma approved_goal_post i b action d w :
  At v n p js snt q d w → in_session i = session_id → goal_granted d = Some (ticket_of i, (a, b)) →
  parse_goal decode_goal (arguments (in_call i)) = Ok action →
  wpt (approved_goal answer goal_error_text port_error_text i a b action) (goal_executed (call_id (in_call i))) DInv w.
Proof.
  intros HA Hs Hg Hp. unfold approved_goal. eapply bind_stays; [auto with turn|exact HA|]. intros [] w1 HA1; [by eapply goal_ends|].
  eapply keeps_goal_bind; [apply binding_changed_keeps|exact HA1|]. intros [] w2 d2 HA2 Hg2 _; [by eapply goal_ends|].
  refine (call_neutral _ _ _ _ _ _ _ NextGoal _ _ _ eq_refl HA2 _). intros [ordinal|] w3 HA3; [|by eapply goal_ends].
  destruct (Approval.parse_identifier _) as [id|e]; [|by eapply goal_ends].
  eapply audited_goal_post; [exact HA3|done|by rewrite Hg2|done|done].
Qed.

Lemma execute_goal_post i d w :
  At v n p js snt q d w → in_session i = session_id →
  wpt (execute_authorized_goal answer decode_goal goal_error_text port_error_text i a) (goal_executed (call_id (in_call i))) DInv w.
Proof.
  intros HA Hs. unfold execute_authorized_goal. case_bool_decide; [|by eapply goal_ends]. cbn [negb].
  eapply bind_stays; [auto with turn|exact HA|]. intros [] w1 HA1; [|by eapply goal_ends]. cbn [negb].
  eapply bind_stays; [auto with turn|exact HA1|]. intros [] w2 HA2; [by eapply goal_ends|].
  destruct (parse_goal decode_goal _) as [action|text] eqn:Ep; [|by eapply goal_ends].
  apply wpt_bind. refine (wpt_call answer (BindAuthorized i a) _ _ _ _ _).
  2:{ eapply at_dinv. eapply at_clear; [done| |exact HA2]. done. }
  intros [b|e]; [|eapply goal_ends; [|done]; eapply at_clear; [done| |exact HA2]; done].
  assert (HA3 := at_clear _ _ _ _ _ _ _ _ _ (BindAuthorized i a) (Some (Ok b)) eq_refl eq_refl HA2). cbn [locals log] in HA3.
  apply wpt_bind. refine (wpt_call answer (RequestGoalApproval (ticket_of i) (a, b)) _ _ _ _ _).
  2:{ eapply at_dinv. eapply at_clear; [done| |exact HA3]. done. }
  intros r. assert (HA4 := at_clear _ _ _ _ _ _ _ _ _ (RequestGoalApproval (ticket_of i) (a, b)) (Some r) eq_refl eq_refl HA3).
  destruct r as [[o|e]|]; [|split; [by eexists|done]|by eapply goal_ends].
  destruct o as [[[] sc] rem|[]]; cbn [goal_refusal]; try (by eapply goal_ends). by eapply approved_goal_post.
Qed.

End Execute.

(** ** The turn's own steps *)

Definition AtE v n p js snt q (w : W) : Prop := ∃ d, At v n p js snt q d w.

Lemma ate_broken v n p js snt q w : AtE v n p js snt q w → Broken w.
Proof. intros [d HA]. by eapply at_broken. Qed.

Lemma advance_at e v v' n p js snt q w :
  moves v e v' → AtE v n p js snt q w →
  wpt (advance answer clock session_id turn e) (POST (λ _, AtE v' n p js snt q)) DInv w.
Proof. intros Hv [d HA]. eapply post_mono; [by eapply advance_post|]. intros ? w' ?. by exists d. Qed.

Lemma then_advance {B} e v v' n p js snt q (k : unit → M (result RuntimeError B)) (Q : B → W → Prop) w :
  moves v e v' → AtE v n p js snt q w → (∀ w', AtE v' n p js snt q w' → wpt (k tt) (POST Q) DInv w') →
  wpt (try (advance answer clock session_id turn e) k) (POST Q) DInv w.
Proof. intros Hv HA Hk. eapply try_post; [by eapply advance_at|]. by intros [] w' HA'; apply Hk. Qed.

Lemma then_emit {B} kind v n p js snt q (k : unit → M B) (Q : B → W → Prop) w :
  neutral (Emit kind) = true → AtE v n p js snt q w → (∀ w', AtE v n p js snt q w' → wpt (k tt) Q DInv w') →
  wpt (emit answer kind ≫= k) Q DInv w.
Proof. intros Hc [d HA] Hk. eapply emit_post; [done|exact HA|]. intros w' HA'. apply Hk. by exists d. Qed.

Lemma then_ingest {B} item v n p js snt q (k : unit → M (result RuntimeError B)) (Q : B → W → Prop) w :
  neutral (Ingest session_id turn item 0) = true → AtE v n p js snt q w →
  (∀ w', AtE v n p js snt q w' → wpt (k tt) (POST Q) DInv w') →
  wpt (try (ingest answer clock session_id turn item) k) (POST Q) DInv w.
Proof.
  intros Hc [d HA] Hk. eapply try_post; [eapply ingest_post; [done|exact HA]|]. intros [] w' HA'. apply Hk. by exists d.
Qed.

Lemma then_stays {A B} (m : M A) (k : A → M B) v n p js snt q (Q : B → W → Prop) w :
  stays m → AtE v n p js snt q w → (∀ r w', AtE v n p js snt q w' → wpt (k r) Q DInv w') → wpt (m ≫= k) Q DInv w.
Proof. intros Hm [d HA] Hk. eapply bind_stays; [done|exact HA|]. intros r w' HA'. apply Hk. by exists d. Qed.

Lemma then_port {A B} (m : M (result PortError A)) (k : A → M (result RuntimeError B)) v n p js snt q (Q : B → W → Prop) w :
  stays m → AtE v n p js snt q w → (∀ r w', AtE v n p js snt q w' → wpt (k r) (POST Q) DInv w') →
  wpt (try (port m) k) (POST Q) DInv w.
Proof. intros Hm [d HA] Hk. eapply port_post; [by apply Hm|]. intros r w' HA'. apply Hk. by exists d. Qed.

(** The result of the call that waits first. *)
Lemma then_result {B} c rest out failed v n p js snt (k : unit → M (result RuntimeError B)) (Q : B → W → Prop) w :
  AtE v n p js snt (c :: rest) w → (∀ w', AtE v n p js snt rest w' → wpt (k tt) (POST Q) DInv w') →
  wpt (try (ingest answer clock session_id turn (ToolCallResult (call_id c) (name c) out failed)) k) (POST Q) DInv w.
Proof.
  intros [d [a b Hg Hs Hm Hr Hj Hrs Hst Hn Hpt]] Hk. apply wpt_try. unfold ingest. apply now_post. intros t.
  set (item := ToolCallResult _ _ _ _). apply wpt_try, wpt_map_err.
  assert (Hgood : ∀ r : option (result PortError ContextState),
    Good a b (match r with Some (Ok _) => rest | _ => c :: rest end) d (log w ++ [entry (Ingest session_id turn item t) r])).
  { intros r. apply (good_step a b (c :: rest) d (log w)); try done. cbn. exists c, rest. done. }
  refine (wpt_call answer (Ingest session_id turn item t) _ _ _ _ _).
  - intros r. pose proof (Hgood (Some r)) as HG. destruct r as [u|e].
    + apply wpt_ret. apply Hk. exists d. by apply (mkAt _ _ _ _ _ _ _ _ a b).
    + split; [done|]. apply (mkBroken _ a b (c :: rest) d); try done. cbn. rewrite Hm. by apply in_step_lagging.
  - exists a, b, (c :: rest), d. apply (Hgood None).
Qed.

(** An assignment to the variables the protocols are not about. *)
Lemma then_set {B} f v n n' p p' js snt q (k : unit → M B) (Q : B → W → Prop) w :
  (∀ l, machine (f l) = machine l ∧ journal (f l) = journal l ∧ revision (f l) = revision l) →
  (∀ l, round_count l = n → partial l = p → round_count (f l) = n' ∧ partial (f l) = p') →
  AtE v n p js snt q w → (∀ w', AtE v n' p' js snt q w' → wpt (k tt) Q DInv w') → wpt (set f ≫= k) Q DInv w.
Proof.
  intros Hf Hnp [d HA] Hk. apply set_post, Hk. exists d. pose proof (set_at _ _ _ _ _ _ _ f w Hf HA) as HA'.
  destruct (Hnp (locals w)) as [E1 E2]; [by eapply at_count|by eapply at_partial|]. by rewrite E1, E2 in HA'.
Qed.

Abbreviation running := ((Running, None) : SessionState * option SessionState).
Abbreviation waiting := ((WaitingForApproval, None) : SessionState * option SessionState).

(** How a turn that ends on its own leaves the session. *)
Definition settled (v : SessionState * option SessionState) : Prop :=
  v ∈ [(Cancelled, None); (Blocked, None); (Completed, None); (CompletedWithChanges, None)].

Definition Ended (w : W) : Prop := ∃ v n p js snt q, settled v ∧ AtE v n p js snt q w.

Lemma ended_at v n p js snt q w : settled v → AtE v n p js snt q w → Ended w.
Proof. intros Hv HA. by exists v, n, p, js, snt, q. Qed.

Lemma settled_cancelled : settled (Cancelled, None).
Proof. left. Qed.
Lemma settled_blocked : settled (Blocked, None).
Proof. right. left. Qed.

Ltac moves := intros ?; eexists _, _; split; reflexivity.

(** *** Accounting *)

Definition response_ok (x : ProviderRoundRecord) : Prop :=
  match response x with Some r => validate r = Ok tt | None => True end.

Lemma validate_rounds_snoc i xs x :
  validate_rounds i (xs ++ [x]) = Ok tt ↔
  validate_rounds i xs = Ok tt ∧ i + len xs ≤ u32_max ∧ round x = i + len xs ∧ response_ok x.
Proof.
  revert i. induction xs as [|y xs IH]; intros i.
  - change (len []) with 0. rewrite Z.add_0_r. cbn. unfold response_ok.
    assert (Hr : (match response x with Some r => validate r | None => Ok tt end) = Ok tt ↔
                 match response x with Some r => validate r = Ok tt | None => True end) by (destruct (response x); done).
    rewrite <- Hr. destruct (Z.leb_spec i u32_max), (Z.eqb_spec i (round x)); cbn;
      (split; [|intros (_ & Hi & Hx & Hv); first [lia|by rewrite Hv]]); try done.
    destruct (match response x with Some r => validate r | None => Ok tt end) as [[]|]; done.
  - replace (i + len (y :: xs)) with (i + 1 + len xs) by (unfold len; cbn; lia).
    cbn. destruct (negb _); [naive_solver|]. destruct (match response y with Some r => validate r | None => Ok tt end) as [[]|]; cbn; [apply IH|naive_solver].
Qed.

Lemma validate_sequence_snoc xs x :
  validate_sequence (xs ++ [x]) = Ok tt ↔
  validate_sequence xs = Ok tt ∧ len xs < MAX_PROVIDER_ROUND_RECORDS ∧ round x = len xs ∧ response_ok x.
Proof.
  unfold validate_sequence, MAX_PROVIDER_ROUND_RECORDS. unfold len at 1. rewrite length_app. cbn [length].
  replace (Z.of_nat (length xs + 1)) with (len xs + 1) by (unfold len; lia).
  destruct (Z.ltb_spec 1024 (len xs + 1)), (Z.ltb_spec 1024 (len xs)); try lia.
  - naive_solver.
  - split; [done|naive_solver lia].
  - rewrite validate_rounds_snoc. unfold u32_max. naive_solver lia.
Qed.

(** Saving the journal with one more round, or with the first report of its last one. *)
Lemma journal_update b j rs t :
  journal_ok b j → validate_sequence rs = Ok tt →
  (rs = rounds j ++ [mkRound (len (rounds j)) None] ∨
   ∃ earlier k r, rounds j = earlier ++ [mkRound k None] ∧ rs = earlier ++ [mkRound k (Some r)]) →
  validate_update (mkJournal (pj_session j) (pj_turn j) rs (pj_revision j) (closed j) t) (acknowledged b) = Ok tt.
Proof.
  intros [Hs Ht Hc Hv Hack] Hval Hrs. unfold validate_update. cbn [rounds closed pj_revision pj_session pj_turn]. rewrite Hval, Hc.
  cbn [mbind result_bind orb]. rewrite bool_decide_eq_false_2; [|destruct Hrs as [->|(e & k & r & _ & ->)]; by intros [_ ?]%app_nil].
  destruct (acknowledged b) as [k|].
  - destruct Hack as (Hne & Hk & Hrev & Hkc & Hks & Hkt). rewrite Hkc, Hks, Hkt, Hs, Ht, Hrev, Hk.
    rewrite bool_decide_eq_true_2, !Z.eqb_refl, (bool_decide_eq_false_2 (rounds j = [])) by done. cbn [orb negb].
    destruct Hrs as [->|(earlier & i & r & Hj & ->)].
    + rewrite length_app, take_app_length, last_snoc. cbn [length]. rewrite Nat.add_1_r, !bool_decide_eq_true_2 by done. done.
    + rewrite Hj, !length_app. cbn [length]. rewrite Nat.add_1_r. rewrite bool_decide_eq_false_2 by lia. cbn [andb].
      replace (S (length earlier) - 1)%nat with (length earlier) by lia.
      rewrite !take_app_length, !lookup_app_r, Nat.sub_diag by lia. cbn. rewrite !bool_decide_eq_true_2 by done.
      rewrite bool_decide_eq_false_2 by done. done.
  - destruct Hack as [Hj Hr]. destruct Hrs as [->|(earlier & i & r & Hj' & _)]; [|rewrite Hj in Hj'; by destruct earlier].
    rewrite Hj. cbn. rewrite Hr. cbn. done.
Qed.

Lemma save_rounds_post v n p js snt q w rs :
  AtE v n p js snt q w → validate_sequence rs = Ok tt →
  (rs = js ++ [mkRound (len js) None] ∨ ∃ earlier i r, js = earlier ++ [mkRound i None] ∧ rs = earlier ++ [mkRound i (Some r)]) →
  wpt (save_rounds answer clock rs) (POST (λ _, AtE v n p rs (bool_decide (length rs = length js) && snt) q)) DInv w.
Proof.
  intros [d [a b Hg Hs Hm Hr Hj Hrs Hst Hn Hpt]] Hval Hup. rewrite <- Hrs in Hup |- *. unfold save_rounds, persist_provider_journal.
  apply get_post, wpt_try, now_post. intros t. apply wpt_try, wpt_map_err.
  set (j := journal (locals w)) in *. cbn [pj_session pj_turn rounds pj_revision closed].
  set (j' := mkJournal (pj_session j) (pj_turn j) rs (pj_revision j) (closed j) t).
  pose proof (journal_update b j rs t Hj Hval Hup) as Hvu. fold j' in Hvu. pose proof (acknowledged_journal b j Hj) as Hcount.
  destruct Hj as [Hjs Hjt Hjc Hjv Hack].
  assert (Hkept : ∀ r : option (result PortError Z), (∀ rev, r ≠ Some (Ok rev)) → Good a b q d (log w ++ [entry (SaveJournal j') r])).
  { intros r Hnr. apply (good_step a b q d (log w)); try done. cbn. do 3 (split; [done|]). destruct r as [[rev|]|]; [by destruct (Hnr rev)|done..]. }
  refine (wpt_call answer (SaveJournal j') _ _ _ _ _); [|by exists a, b, q, d; apply Hkept].
  intros [rev|e].
  - apply wpt_ret, set_post, ok_post. exists d.
    apply (mkAt _ _ _ _ _ _ _ _ a (mkAccounting (Some (mkJournal session_id turn rs rev (closed j) t))
             (bool_decide (length rs = length (acknowledged_rounds b)) && sent b))); cbn; try done.
    + apply (good_step a b q d (log w)); done.
    + split; cbn; try done. split; [|done]. destruct Hup as [->|(e & k & r & _ & ->)]; by intros [_ ?]%app_nil.
    + by rewrite Hcount, Hst.
  - split; [done|]. apply (mkBroken _ a b q d); cbn; [by apply Hkept| |done|done]. rewrite Hm. by apply in_step_lagging.
Qed.

Lemma at_valid v n p js snt q w : AtE v n p js snt q w → validate_sequence js = Ok tt.
Proof. intros [d [a b Hg Hs Hm Hr [] Hrs Hst Hn Hpt]]. by rewrite <- Hrs. Qed.

Lemma at_room v n p js snt q w : AtE v n p js snt q w → len js ≤ MAX_PROVIDER_ROUND_RECORDS.
Proof. intros HA%at_valid. unfold validate_sequence in HA. destruct (Z.ltb_spec MAX_PROVIDER_ROUND_RECORDS (len js)); [done|lia]. Qed.

Lemma err_ate {A} e v n p js snt q (Q : A → W → Prop) w :
  (∀ x, e ≠ State x) → AtE v n p js snt q w → wpt (mret (Err e)) (POST Q) DInv w.
Proof. intros He HA. split; [done|by eapply ate_broken]. Qed.

(** The report of the last round, the first time it is known. *)
Lemma report_post v n p js snt q w report :
  AtE v n p js snt q w → js ≠ [] →
  wpt (persist_provider_report answer clock report)
    (POST (λ _ w', ∃ js', AtE v n p js' snt q w' ∧ length js' = length js)) DInv w.
Proof.
  intros HA Hne. pose proof (at_valid _ _ _ _ _ _ _ HA) as Hval. pose proof HA as [d HA0].
  unfold persist_provider_report. apply get_post. rewrite (at_rounds _ _ _ _ _ _ _ _ HA0). clear HA0.
  destruct js as [|x earlier _] using rev_ind; [done|]. rewrite last_snoc, removelast_last.
  apply wpt_bind, wpt_expect. exists x. split; [done|]. apply validate_sequence_snoc in Hval as (He & Hl & Hx & _).
  assert (Hsame : wpt (mret (Ok tt)) (POST (λ _ w', ∃ js', AtE v n p js' snt q w' ∧ length js' = length (earlier ++ [x]))) DInv w).
  { by exists (earlier ++ [x]). }
  destruct x as [i [r0|]]; cbn [round response] in *; unfold capture_provider_report; cbn [round response].
  - destruct (match report with Some r => validate r | None => Ok tt end) as [[]|e]; [|by eapply err_ate].
    cbn [mbind result_bind]. rewrite (bool_decide_eq_true_2 (Some r0 ≠ None)) by done. cbn [andb].
    case_bool_decide; [by eapply err_ate|done].
  - destruct report as [r|]; [|done]. destruct (validate r) as [[]|e] eqn:Er; [|by eapply err_ate]. cbn.
    eapply post_mono; [eapply save_rounds_post; [exact HA| |]|].
    + apply validate_sequence_snoc. done.
    + right. by exists earlier, i, r.
    + intros ? w' HA'. exists (earlier ++ [mkRound i (Some r)]). rewrite !length_app in HA' |- *. by rewrite bool_decide_eq_true_2 in HA'.
Qed.

Lemma response_post v n p js snt q w :
  AtE v n p js snt q w → js ≠ [] →
  wpt (persist_response answer clock) (POST (λ _ w', ∃ js', AtE v n p js' snt q w' ∧ length js' = length js)) DInv w.
Proof.
  intros HA Hne. unfold persist_response.
  refine (then_stays (call ResponseReport) _ _ _ _ _ _ _ _ _ (stays_call ResponseReport eq_refl) HA _). intros r w' HA'. by apply report_post.
Qed.

Lemma then_response {B} v n p js snt q (k : unit → M (result RuntimeError B)) (Q : B → W → Prop) w :
  AtE v n p js snt q w → js ≠ [] →
  (∀ js' w', AtE v n p js' snt q w' → length js' = length js → wpt (k tt) (POST Q) DInv w') →
  wpt (try (persist_response answer clock) k) (POST Q) DInv w.
Proof. intros HA Hne Hk. eapply try_post; [by eapply response_post|]. intros [] w' (js' & HA' & Hl). by eapply Hk. Qed.

Lemma admit_round_post v n p js snt q w :
  AtE v n p js snt q w → len js = n →
  wpt (admit_round answer clock n) (POST (λ _, AtE v n p (js ++ [mkRound n None]) false q)) DInv w.
Proof.
  intros HA Hn. pose proof (at_valid _ _ _ _ _ _ _ HA) as Hval. pose proof HA as [d HA0].
  unfold admit_round. apply get_post. rewrite (at_rounds _ _ _ _ _ _ _ _ HA0). clear HA0. subst n.
  destruct (Z.leb_spec MAX_PROVIDER_ROUND_RECORDS (len js)); [by eapply err_ate|].
  eapply post_mono; [eapply save_rounds_post; [exact HA| |by left]|].
  - apply validate_sequence_snoc. done.
  - intros ? w' HA'. rewrite length_app, bool_decide_eq_false_2 in HA' by (cbn; lia). done.
Qed.

(** *** Ending and pausing *)

(** The states a turn works in. *)
Definition live (s : SessionState) : Prop := s = Starting ∨ s = Running.

Lemma moves_cancel s pre : is_terminal s = false → moves (s, pre) Cancel (Cancelled, None).
Proof. intros Hs k. exists Cancelled, (mkMachine Cancelled None (sat_add u64_max k 1)). by destruct s. Qed.

Lemma moves_block s : is_in_flight s = true → moves (s, None) Block (Blocked, None).
Proof. intros Hs k. exists Blocked, (mkMachine Blocked None (sat_add u64_max k 1)). by destruct s. Qed.

Lemma live_flight s : live s → is_in_flight s = true.
Proof. by intros [->| ->]. Qed.

Lemma live_open s : live s → is_terminal s = false.
Proof. by intros [->| ->]. Qed.

Hint Resolve moves_cancel moves_block live_flight live_open settled_cancelled settled_blocked : turn.

(** The last move of a turn. *)
Lemma end_turn {B} e v v' n p js snt q (x : B) (Q : B → W → Prop) w :
  moves v e v' → settled v' → AtE v n p js snt q w → (∀ w', Ended w' → Q x w') →
  wpt (try (advance answer clock session_id turn e) (λ _, mret (Ok x))) (POST Q) DInv w.
Proof. intros Hv Hs HA HQ. eapply then_advance; [done|exact HA|]. intros w' HA'. apply ok_post, HQ. by eapply ended_at. Qed.

(** Either the turn ended, or it is where it was. *)
Definition stopped_or (Q : W → Prop) (stop : bool) (w : W) : Prop := if stop then Ended w else Q w.

Lemma paused_loop_post fuel s n p js snt q w :
  live s → AtE (Paused, Some s) n p js snt q w →
  wpt (paused_loop answer clock session_id turn fuel) (POST (stopped_or (AtE (s, None) n p js snt q))) DInv w.
Proof.
  intros Hs. revert w. induction fuel as [|fuel IH]; intros w HA; cbn [paused_loop].
  { apply wpt_cut. by eapply broken_dinv, ate_broken. }
  assert (Hresume : ∀ w', AtE (Paused, Some s) n p js snt q w' →
    wpt (try (advance answer clock session_id turn Resume) (λ _, mret (Ok false))) (POST (stopped_or (AtE (s, None) n p js snt q))) DInv w').
  { intros w' HA'. eapply (then_advance Resume _ (s, None)); [|exact HA'|by intros w2 HA2]. destruct Hs as [-> | ->]; moves. }
  refine (then_stays (call PauseChanged) _ _ _ _ _ _ _ _ _ (stays_call PauseChanged eq_refl) HA _). intros [] w1 HA1.
  - refine (then_stays (call PauseRequested) _ _ _ _ _ _ _ _ _ (stays_call PauseRequested eq_refl) HA1 _). intros [] w2 HA2; auto.
  - auto.
  - eapply end_turn; [|apply settled_cancelled|exact HA1|done]. auto with turn.
Qed.

Context (polls : nat).

Lemma stays_stopped : stays (or_else (call IsCancelled) (authority_and (TurnTools.is_revoked answer) (authority options))).
Proof. auto with turn. Qed.

Lemma quiesce_post s n p js snt q w :
  live s → AtE (s, None) n p js snt q w →
  wpt (quiesce answer clock options session_id turn polls) (POST (stopped_or (AtE (s, None) n p js snt q))) DInv w.
Proof.
  intros Hs HA. unfold quiesce. eapply then_stays; [apply stays_stopped|exact HA|]. intros [] w1 HA1.
  { eapply end_turn; [|apply settled_cancelled|exact HA1|done]. auto with turn. }
  refine (then_stays (call PauseRequested) _ _ _ _ _ _ _ _ _ (stays_call PauseRequested eq_refl) HA1 _). intros [] w2 HA2; [|done].
  eapply then_advance; [|exact HA2|intros w3 HA3; by apply paused_loop_post]. destruct Hs as [-> | ->]; moves.
Qed.

Lemma then_stream {B} s n p js snt q (k : unit → M (result RuntimeError B)) (Q : B → W → Prop) w :
  live s → AtE (s, None) n p js snt q w → (∀ w', AtE running n p js snt q w' → wpt (k tt) (POST Q) DInv w') →
  wpt (try (advance_if answer clock session_id turn Stream) k) (POST Q) DInv w.
Proof.
  intros Hs HA Hk. eapply (try_post _ _ (λ _, AtE running n p js snt q)); [|intros [] w' HA'; by apply Hk].
  unfold advance_if. apply get_post. pose proof HA as [d HA0]. pose proof (at_memory _ _ _ _ _ _ _ _ HA0) as Hm. clear HA0.
  unfold view in Hm. injection Hm as Hm _. unfold accepts. rewrite Hm. destruct Hs as [-> | ->]; [|done].
  apply (advance_at Stream (Starting, None)); [moves|done].
Qed.

(** *** A provider round *)

Lemma start_round_at s n p js q0 w q prompt names model r :
  AtE (s, None) n p (js ++ [mkRound q0 None]) false q w → q = [] → q0 = len js → within_budget (max_observed_provider_tokens config) js →
  q0 < max_rounds config →
  AtE (s, None) n p (js ++ [mkRound q0 None]) true q
    (mkWorld (locals w) (log w ++ [entry (StartRound (mkRequest session_id turn q0 prompt names model)) r])).
Proof.
  intros [d [a b Hg Hs Hm Hr Hj Hrs Hst Hn Hpt]] -> Hq Hb Hmax. exists d.
  apply (mkAt _ _ _ _ _ _ _ _ a (mkAccounting (acknowledged b) true)); try done.
  - apply (good_step a b [] d (log w)); try done. cbn. split; [done|]. split; [|done]. exists js. split; [|done].
    rewrite <- Hrs. by apply acknowledged_journal.
  - destruct Hj. by split.
Qed.

Lemma open_round_post s n p js w prompt names model :
  live s → AtE (s, None) n p (js ++ [mkRound n None]) false [] w → n = len js → within_budget (max_observed_provider_tokens config) js →
  n < max_rounds config →
  wpt (open_round answer clock session_id turn n prompt names model)
    (POST (λ (opened : bool) w', if opened then ∃ js', AtE running n p js' true [] w' ∧ len js' = n + 1 else Ended w')) DInv w.
Proof.
  intros Hs HA Hn Hb Hmax. unfold open_round. eapply then_stays; [apply stays_cancelled|exact HA|]. intros [] w1 HA1.
  { eapply end_turn; [|apply settled_cancelled|exact HA1|done]. auto with turn. }
  set (request := mkRequest _ _ _ _ _ _). apply wpt_bind.
  assert (Hsent := λ r, start_round_at s n p js n w1 [] prompt names model r HA1 eq_refl Hn Hb Hmax).
  refine (wpt_call answer (StartRound request) _ _ _ _ _); [|by eapply broken_dinv, ate_broken].
  intros r. specialize (Hsent (Some r)). destruct r as [[u|e]|].
  - eapply then_response; [exact Hsent|by intros [_ ?]%app_nil|]. intros js' w2 HA2 Hl.
    assert (Hlen : len js' = n + 1) by (unfold len in *; rewrite length_app in Hl; cbn in Hl; lia).
    eapply then_stream; [done|exact HA2|]. intros w3 HA3. apply ok_post. by exists js'.
  - by eapply err_ate.
  - eapply end_turn; [|apply settled_cancelled|exact Hsent|done]. auto with turn.
Qed.

Definition completed_calls (es : list StreamEvent) : list ToolCall :=
  omap (λ e, match payload e with ToolCallCompleted c => Some c | _ => None end) es.

Lemma push_calls a c es a' : push a c = Ok (es, a') → tool_calls a' = tool_calls a ++ completed_calls es.
Proof.
  unfold push. destruct (ended a); [done|]. destruct c; cbn; unfold mbind, result_bind, TurnStream.emit; repeat case_match; intros Heq; simplify_eq;
    cbn; rewrite ?app_nil_r; done.
Qed.

Lemma forward_post es calls v n p js snt q w :
  AtE v n p js snt q w →
  wpt (forward answer options es calls) (λ r w', AtE v n p js snt q w' ∧ r = calls ++ completed_calls es) DInv w.
Proof.
  revert calls w. induction es as [|e es IH]; intros calls w HA; cbn [forward].
  { apply wpt_ret. by rewrite app_nil_r. }
  set (calls' := match payload e with ToolCallCompleted c => calls ++ [c] | _ => calls end).
  assert (Hc : calls ++ completed_calls (e :: es) = calls' ++ completed_calls es).
  { unfold calls'. cbn. destruct (payload e); cbn; rewrite <- ?app_assoc; done. }
  rewrite Hc. destruct (quiet options && _); [by apply IH|]. eapply then_emit; [done|exact HA|]. intros w' HA'. by apply IH.
Qed.

(** The partial message is kept, the round counted, and its report with it. *)
Lemma recover_fails {A} e x v n p js snt q (Q : A → W → Prop) w :
  (∀ x, e ≠ State x) → js ≠ [] → AtE v n p js snt q w →
  wpt (set (with_partial (Some x)) ;; set next_round ;; try (persist_response answer clock) (λ _, mret (Err e))) (POST Q) DInv w.
Proof.
  intros He Hne HA. eapply (then_set _ v n n p (Some x)); [done|done|exact HA|]. intros w1 HA1.
  eapply (then_set _ v n (sat_add u32_max n 1) (Some x) (Some x)); [done|by intros l <- Hl|exact HA1|]. intros w2 HA2.
  eapply then_response; [exact HA2|done|]. intros js' w3 HA3 _. by eapply err_ate.
Qed.

Lemma chunk_loop_post fuel a n p js w :
  AtE running n p js true [] w → js ≠ [] →
  wpt (chunk_loop answer clock options session_id turn fuel a (tool_calls a))
    (POST (λ r w', match r with
                   | None => Ended w'
                   | Some (a', calls) => AtE running n p js true [] w' ∧ calls = tool_calls a'
                   end)) DInv w.
Proof.
  intros HA Hne. revert a w HA. induction fuel as [|fuel IH]; intros a w HA; cbn [chunk_loop].
  { apply wpt_cut. by eapply broken_dinv, ate_broken. }
  refine (then_stays (call NextChunk) _ _ _ _ _ _ _ _ _ (stays_call NextChunk eq_refl) HA _). intros [[[c|]|e]|] w1 HA1.
  - destruct (push a c) as [[es a']|e] eqn:Ep.
    + apply wpt_bind. eapply wpt_mono; [by apply forward_post| |done]. intros r w2 [HA2 ->].
      rewrite <- (push_calls _ _ _ _ Ep). by apply IH.
    + by eapply recover_fails.
  - by apply ok_post.
  - by eapply recover_fails.
  - eapply (then_set _ _ n n p (Some (into_partial a))); [done|done|exact HA1|]. intros w2 HA2. eapply then_response; [exact HA2|done|].
    intros js' w3 HA3 _. eapply end_turn; [|apply settled_cancelled|exact HA3|done]. auto with turn.
Qed.

Lemma broken_set f w :
  (∀ l, machine (f l) = machine l ∧ journal (f l) = journal l ∧ revision (f l) = revision l) →
  Broken w → Broken (mkWorld (f (locals w)) (log w)).
Proof.
  intros Hf [a b q d Hg Hl Hr Hj]. destruct (Hf (locals w)) as (E1 & E2 & E3).
  apply (mkBroken _ a b q d); cbn; try done; unfold view in *; rewrite ?E1, ?E2, ?E3; done.
Qed.

(** The assistant's calls are ingested, and wait for their results. *)
Lemma then_assistant {B} txt calls v n p js snt (k : unit → M (result RuntimeError B)) (Q : B → W → Prop) w :
  AtE v n p js snt [] w → (∀ w', AtE v n p js snt calls w' → wpt (k tt) (POST Q) DInv w') →
  wpt (try (ingest answer clock session_id turn (AssistantToolCalls txt calls)) k) (POST Q) DInv w.
Proof.
  intros [d [a b Hg Hs Hm Hr Hj Hrs Hst Hn Hpt]] Hk. apply wpt_try. unfold ingest. apply now_post. intros t.
  set (item := AssistantToolCalls _ _). apply wpt_try, wpt_map_err.
  assert (Hgood : ∀ r : option (result PortError ContextState),
    Good a b (match r with Some (Ok _) => calls | _ => [] end) d (log w ++ [entry (Ingest session_id turn item t) r])).
  { intros r. by apply (good_step a b [] d (log w)). }
  refine (wpt_call answer (Ingest session_id turn item t) _ _ _ _ _).
  - intros r. pose proof (Hgood (Some r)) as HG. destruct r as [u|e].
    + apply wpt_ret. apply Hk. exists d. by apply (mkAt _ _ _ _ _ _ _ _ a b).
    + split; [done|]. apply (mkBroken _ a b [] d); try done. cbn. rewrite Hm. by apply in_step_lagging.
  - exists a, b, [], d. apply (Hgood None).
Qed.

Lemma keep_partial {A} e x v n p js snt q (Q : A → W → Prop) w :
  (∀ x, e ≠ State x) → AtE v n p js snt q w → wpt (set (with_partial (Some x)) ;; mret (Err e)) (POST Q) DInv w.
Proof. intros He HA. eapply (then_set _ v n n p (Some x)); [done|done|exact HA|]. intros w1 HA1. by eapply err_ate. Qed.

Lemma complete_round_post a n js w :
  0 ≤ n → AtE running n None js true [] w → len js = n + 1 →
  wpt (complete_round answer clock session_id turn n a (tool_calls a))
    (POST (λ _ w', ∃ js', AtE running (n + 1) None js' true (tool_calls a) w' ∧ len js' = n + 1)) DInv w.
Proof.
  intros Hn HA Hlen. pose proof (at_room _ _ _ _ _ _ _ HA) as Hroom. assert (Hne : js ≠ []) by (intros ->; by rewrite len_nil in Hlen; lia).
  unfold complete_round. eapply (then_set _ _ n (n + 1) None None); [done| |exact HA|].
  { intros l <- Hl. split; [|done]. cbn. unfold sat_add, u32_max, MAX_PROVIDER_ROUND_RECORDS in *. lia. }
  intros w1 HA1. apply wpt_bind. eapply wpt_mono; [by apply response_post| |done]. intros [[]|e] w2 H2.
  2:{ destruct H2 as [He Hb]. apply set_post. split; [done|]. by apply broken_set. }
  destruct H2 as (js' & HA2 & Hl). destruct (ended a) eqn:Eend; [|by eapply keep_partial]. cbn [negb]. apply get_post.
  destruct (Approval.some_and _ _); [by eapply keep_partial|]. apply wpt_bind, wpt_expect. unfold finish. rewrite Eend.
  exists (message_of a). split; [done|]. cbn [message_of am_text am_tool_calls].
  assert (Hdone : ∀ w3, AtE running (n + 1) None js' true (tool_calls a) w3 →
    wpt (set (with_message (Some (message_of a))) ;; TurnLoop.emit answer (RoundFinished n (len (tool_calls a))) ;; mret (Ok tt))
      (POST (λ _ w', ∃ js', AtE running (n + 1) None js' true (tool_calls a) w' ∧ len js' = n + 1)) DInv w3).
  { intros w3 HA3. eapply (then_set _ _ (n + 1) (n + 1) None None); [done|done|exact HA3|]. intros w4 HA4.
    eapply then_emit; [done|exact HA4|]. intros w5 HA5. apply ok_post. exists js'. split; [done|]. unfold len in *. lia. }
  case_bool_decide as Hc; [rewrite Hc in Hdone |- *; by eapply then_ingest|]. by eapply then_assistant.
Qed.

(** *** Tool calls *)

Definition asking (approval : bool) : SessionState * option SessionState := if approval then waiting else running.

Lemma asking_open approval : is_terminal (asking approval).1 = false.
Proof. by destruct approval. Qed.

Lemma then_announce {B} approval c n p js snt q (k : unit → M (result RuntimeError B)) (Q : B → W → Prop) w :
  AtE running n p js snt q w → (∀ w', AtE (asking approval) n p js snt q w' → wpt (k tt) (POST Q) DInv w') →
  wpt (try (announce answer clock session_id turn approval c) k) (POST Q) DInv w.
Proof.
  intros HA Hk. eapply (try_post _ _ (λ _, AtE (asking approval) n p js snt q)); [|intros [] w' HA'; by apply Hk].
  destruct approval; cbn [announce asking].
  - eapply (then_advance _ running waiting); [moves|exact HA|]. intros w1 HA1. eapply then_emit; [done|exact HA1|]. by intros w2 HA2.
  - eapply then_emit; [done|exact HA|]. by intros w2 HA2.
Qed.

Lemma then_settle {B} approval n p js snt q (k : unit → M (result RuntimeError B)) (Q : B → W → Prop) w :
  AtE (asking approval) n p js snt q w → (∀ w', AtE running n p js snt q w' → wpt (k tt) (POST Q) DInv w') →
  wpt (try (settle answer clock session_id turn approval) k) (POST Q) DInv w.
Proof.
  intros HA Hk. destruct approval; cbn [settle asking] in *; [|by apply wpt_try, Hk].
  eapply (then_advance _ waiting running); [moves|exact HA|]. done.
Qed.

Abbreviation run_goal_tool := (TurnLoop.run_goal_tool answer clock decode_goal goal_error_text port_error_text options session_id turn).

(** The goal's new state is announced and ingested. *)
Lemma goal_told_post v n p js snt q (o : ToolOutcome) g w :
  AtE v n p js snt q w →
  wpt (TurnLoop.emit answer (GoalUpdated g) ;;
       _ <-? ingest answer clock session_id turn
               (if Goals.is_closed (Goals.status g) then GoalCleared else GoalStatement (Goals.objective g));
       mret (Ok o)) (POST (λ _, AtE v n p js snt q)) DInv w.
Proof.
  intros HA. eapply then_emit; [done|exact HA|]. intros w1 HA1. eapply then_ingest; [|exact HA1|by intros w2 HA2]. by case_match.
Qed.

Lemma run_goal_tool_post c v n p js snt q w :
  AtE v n p js snt q w → wpt (run_goal_tool c) (POST (λ _, AtE v n p js snt q)) DInv w.
Proof.
  intros HA. unfold TurnLoop.run_goal_tool. eapply then_stays; [auto with turn|exact HA|]. intros [] w1 HA1; [done|].
  eapply (try_post _ _ (λ _, AtE v n p js snt q)); [|intros [g|o] w2 HA2; [by apply goal_told_post|done]].
  destruct (authority options) as [a|] eqn:Ea.
  - apply wpt_try, wpt_map_err. destruct HA1 as [d HA1].
    eapply wpt_mono; [eapply (execute_goal_post v n p js snt q a Ea (invocation session_id turn c)); [exact HA1|done]| |done].
    intros [r|e] w2 [HA2 _]; [done|split; [done|by eapply ate_broken]].
  - destruct (parse_goal decode_goal (arguments c)) as [action|text]; [|done]. destruct HA1 as [d HA1]. apply wpt_bind.
    assert (Hstep : ∀ r, AtE v n p js snt q (mkWorld (locals w1) (log w1 ++ [entry (GoalApply session_id action) r]))).
    { intros r. exists d. eapply at_clear; [done| |exact HA1]. cbn. by rewrite Ea. }
    refine (wpt_call answer (GoalApply session_id action) _ _ _ _ _); [|by eapply broken_dinv, ate_broken].
    intros r. specialize (Hstep (Some r)). destruct r as [g|e]; [done|].
    repeat case_match; simplify_eq; first [done|by eapply err_ate].
Qed.

Lemma execute_post c v n p js snt q w :
  AtE v n p js snt q w → asked_for q (invocation session_id turn c) →
  wpt (execute answer port_error_text options session_id turn c)
    (POST (λ o w', AtE v n p js snt q w' ∧ to_call_id o = call_id c)) DInv w.
Proof.
  intros [d HA] Hq. unfold execute. apply wpt_map_err. eapply wpt_mono; [by eapply execute_authorized_post| |done].
  intros [o|e] w' [HA' Ho]; [done|]. split; [done|by eapply ate_broken].
Qed.

(** Whether the turn goes on after a call. *)
Lemma go_on_post {B} stopped n p js snt q (x y : B) (Q : B → W → Prop) w :
  AtE running n p js snt q w → (∀ w', Ended w' → Q x w') → (∀ w', AtE running n p js snt q w' → Q y w') →
  wpt (if stopped : bool then try (advance answer clock session_id turn Cancel) (λ _, mret (Ok x)) else mret (Ok y)) (POST Q) DInv w.
Proof.
  intros HA Hx Hy. destruct stopped; [|apply ok_post; auto]. eapply end_turn; [|apply settled_cancelled|exact HA|done]. auto with turn.
Qed.

Abbreviation goal_call := (TurnLoop.goal_call answer clock decode_goal goal_error_text port_error_text options session_id turn).

Lemma goal_call_post c rest n p js snt w :
  AtE running n p js snt (c :: rest) w → wpt (goal_call c) (POST (stopped_or (AtE running n p js snt rest))) DInv w.
Proof.
  intros HA. unfold TurnLoop.goal_call. eapply then_stays; [auto with turn|exact HA|]. intros approval w1 HA1.
  eapply then_announce; [exact HA1|]. intros w2 HA2. eapply try_post; [by eapply run_goal_tool_post|]. intros o w3 HA3.
  eapply then_settle; [exact HA3|]. intros w4 HA4. eapply then_result; [exact HA4|]. intros w5 HA5.
  eapply then_emit; [done|exact HA5|]. intros w6 HA6. eapply (then_set _ _ n n p p); [done|done|exact HA6|]. intros w7 HA7.
  eapply then_stays; [apply stays_stopped|exact HA7|]. intros stopped w8 HA8. by eapply go_on_post.
Qed.

Lemma tool_call_post catalogue changed c rest n p js snt w :
  AtE running n p js snt (c :: rest) w → tools_enabled options = true →
  wpt (tool_call answer clock port_error_text options session_id turn catalogue changed c)
    (POST (λ r, stopped_or (AtE running n p js snt rest) r.2)) DInv w.
Proof.
  intros HA Hen. unfold tool_call. eapply then_stays; [|exact HA|].
  { repeat case_match; try apply stays_ret. apply stays_bind; [by apply (stays_call (Remembered _ _))|intros; apply stays_ret]. }
  intros approval w1 HA1. eapply then_announce; [exact HA1|]. intros w2 HA2. eapply try_post; [by eapply execute_post|].
  intros o w3 [HA3 Ho]. eapply then_settle; [exact HA3|]. intros w4 HA4. rewrite Ho. eapply then_result; [exact HA4|]. intros w5 HA5.
  eapply then_emit; [done|exact HA5|]. intros w6 HA6. eapply (then_set _ _ n n p p); [done|done|exact HA6|]. intros w7 HA7.
  eapply then_stays; [auto with turn|exact HA7|]. intros stopped w8 HA8. by eapply go_on_post.
Qed.

Abbreviation call_loop := (TurnLoop.call_loop answer clock decode_goal goal_error_text port_error_text config options session_id turn).

Lemma call_loop_post catalogue calls changed n p js snt w :
  AtE running n p js snt calls w → tools_enabled options = true →
  wpt (call_loop catalogue changed calls)
    (POST (λ r w', match r with Some _ => AtE running n p js snt [] w' | None => Ended w' end)) DInv w.
Proof.
  intros HA Hen. revert changed w HA. induction calls as [|c calls IH]; intros changed w HA; cbn [TurnLoop.call_loop]; [done|].
  destruct (_ && _).
  - eapply try_post; [by apply goal_call_post|]. intros [] w1 H1; [done|by apply IH].
  - eapply try_post; [by apply tool_call_post|]. intros [changed' []] w1 H1; [done|by apply IH].
Qed.

(** *** The rounds of a turn *)

Lemma finish_turn e v v' n p js snt q w :
  moves v e v' → settled v' → AtE v n p js snt q w → wpt (advance answer clock session_id turn e) (POST (λ _, Ended)) DInv w.
Proof. intros Hv Hs HA. eapply post_mono; [by eapply advance_at|]. intros [] w' HA'. by eapply ended_at. Qed.

Lemma completes (changed : bool) : ∃ v, moves running (if changed then CompleteWithChanges else Complete) v ∧ settled v.
Proof.
  destruct changed; [exists (CompletedWithChanges, None)|exists (Completed, None)]; (split; [moves|unfold settled; set_solver]).
Qed.

Lemma then_relieve {B} s v n p js snt q (k : unit → M (result RuntimeError B)) (Q : B → W → Prop) w :
  AtE v n p js snt q w → (∀ w', AtE v n p js snt q w' → wpt (k tt) (POST Q) DInv w') →
  wpt (try (relieve_pressure answer clock session_id s) k) (POST Q) DInv w.
Proof.
  intros HA Hk. eapply (try_post _ _ (λ _, AtE v n p js snt q)); [|intros [] w' HA'; by apply Hk].
  unfold relieve_pressure. destruct (negb _); [done|]. apply now_post. intros t.
  refine (then_port (call (Compact _ _ _)) _ _ _ _ _ _ _ _ _ (stays_call (Compact _ _ _) eq_refl) HA _). intros r w1 HA1.
  eapply then_emit; [done|exact HA1|]. by intros w2 HA2.
Qed.

Abbreviation after_round := (TurnLoop.after_round answer clock decode_goal goal_error_text port_error_text config options session_id turn).

(** The turn ended, or has no call waiting. *)
Definition ended_or (Q : W → Prop) (r : option bool) (w : W) : Prop := match r with Some _ => Q w | None => Ended w end.

Lemma after_round_post catalogue changed calls n p js snt w :
  AtE running n p js snt calls w →
  wpt (after_round catalogue changed calls) (POST (ended_or (AtE running n p js snt []))) DInv w.
Proof.
  intros HA. unfold TurnLoop.after_round. case_bool_decide as Hc.
  { destruct (completes changed) as (v & Hv & Hs). by eapply end_turn. }
  destruct (tools_enabled options) eqn:Hen; cbn [negb].
  2:{ eapply end_turn; [|apply settled_blocked|exact HA|done]. auto with turn. }
  eapply then_stays; [destruct (require_tool_authority config); auto with turn|exact HA|]. intros [] w1 HA1.
  { eapply end_turn; [|apply settled_blocked|exact HA1|done]. auto with turn. }
  eapply try_post; [by eapply call_loop_post|]. intros [changed'|] w2 H2; [|done]. apply now_post. intros t.
  refine (then_port (call (Maintain _ _)) _ _ _ _ _ _ _ _ _ (stays_call (Maintain _ _) eq_refl) H2 _). intros r w3 HA3.
  eapply then_relieve; [exact HA3|]. by intros w4 HA4.
Qed.

Lemma budget_available limit rs : provider_budget_available limit rs = Ok true → within_budget limit rs.
Proof.
  unfold provider_budget_available, within_budget. destruct limit as [l|]; [|done]. destruct (validate_sequence rs) as [[]|]; [|done].
  cbn. destruct (observed_usage 0 rs) as [used|]; [|done]. cbn. intros [= Hl]. exists used. split; [done|lia].
Qed.

Abbreviation one_round := (TurnLoop.one_round answer clock decode_goal goal_error_text port_error_text config options session_id turn polls).

(** Between rounds: every round counted, every call answered. *)
Definition Between (n : Z) (w : W) : Prop := ∃ s js snt, live s ∧ AtE (s, None) n None js snt [] w ∧ len js = n.

Lemma one_round_post catalogue model changed n w :
  Between n w → n < max_rounds config →
  wpt (one_round catalogue model changed) (POST (ended_or (Between (n + 1)))) DInv w.
Proof.
  intros (s & js & snt & Hs & HA & Hl) Hmax. unfold TurnLoop.one_round. eapply try_post; [by eapply quiesce_post|].
  intros [] w1 HA1; [done|]. cbn [stopped_or] in HA1. apply get_post. pose proof HA1 as [d HA0].
  rewrite (at_rounds _ _ _ _ _ _ _ _ HA0). clear HA0 d.
  destruct (provider_budget_available _ js) as [[]|e] eqn:Eb; [|eapply end_turn; [|apply settled_blocked|exact HA1|done]; auto with turn|by eapply err_ate].
  apply budget_available in Eb. apply get_post. destruct (HA1) as [d HA0]. rewrite (at_count _ _ _ _ _ _ _ _ HA0). clear HA0 d.
  refine (then_port (call (Assemble _ _ _)) _ _ _ _ _ _ _ _ _ (stays_call (Assemble _ _ _) eq_refl) HA1 _). intros prompt w2 HA2.
  eapply try_post; [by eapply admit_round_post|]. intros [] w3 HA3.
  eapply try_post; [by eapply open_round_post|]. intros [] w4 H4; [|done]. destruct H4 as (js4 & HA4 & Hl4). apply get_post.
  pose proof HA4 as [d HA0]. rewrite (at_partial _ _ _ _ _ _ _ _ HA0). clear HA0 d.
  eapply (then_set _ _ n n None None); [done|done|exact HA4|]. intros w5 HA5.
  assert (Hn : 0 ≤ n) by (unfold len in Hl; lia).
  eapply try_post; [eapply (chunk_loop_post polls assembler_new); [exact HA5|intros ->; rewrite len_nil in Hl4; lia]|].
  intros [[a calls]|] w6 H6; [|done]. destruct H6 as [HA6 ->].
  eapply try_post; [by eapply complete_round_post|]. intros [] w7 (js7 & HA7 & Hl7).
  eapply post_mono; [by eapply after_round_post|]. intros [c|] w8 H8; [|done]. exists Running, js7, true. split; [by right|done].
Qed.

Abbreviation round_loop := (TurnLoop.round_loop answer clock decode_goal goal_error_text port_error_text config options session_id turn polls).

Lemma round_loop_post fuel catalogue model changed n w :
  Between n w → (Z.to_nat (max_rounds config - n) ≤ fuel)%nat →
  wpt (round_loop fuel catalogue model changed) (POST (λ _, Ended)) DInv w.
Proof.
  revert n changed w. induction fuel as [|fuel IH]; intros n changed w HB Hf; pose proof HB as (s & js & snt & Hs & HA & Hl);
    cbn [TurnLoop.round_loop]; apply get_post; pose proof HA as [d HA0]; rewrite (at_count _ _ _ _ _ _ _ _ HA0); clear HA0 d;
    destruct (Z.ltb_spec n (max_rounds config)); try (eapply finish_turn; [|apply settled_blocked|exact HA]; by auto with turn).
  - lia.
  - eapply try_post; [by apply one_round_post|]. intros [c|] w1 H1; [|done]. apply (IH (n + 1)); [done|lia].
Qed.

(** *** The turn *)

Lemma then_catalogue {B} v n p js snt q (k : list ToolDescriptor → M B) (Q : B → W → Prop) w :
  AtE v n p js snt q w → (∀ ds w', AtE v n p js snt q w' → wpt (k ds) Q DInv w') → wpt (tool_catalogue answer config ≫= k) Q DInv w.
Proof.
  intros [d HA] Hk. apply wpt_bind. unfold tool_catalogue. apply wpt_bind.
  assert (Hstep : ∀ r, AtE v n p js snt q (mkWorld (locals w) (log w ++ [entry Describe r]))).
  { intros r. eexists. eapply at_clear; [done|reflexivity|exact HA]. }
  refine (wpt_call answer Describe _ _ _ _ _); [|by eapply broken_dinv, ate_broken]. intros ds. apply wpt_ret. by apply Hk.
Qed.

Lemma then_identifier {A B} (r : result str A) v n p js snt q (k : A → M (result RuntimeError B)) (Q : B → W → Prop) w :
  AtE v n p js snt q w → (∀ a, wpt (k a) (POST Q) DInv w) → wpt (try (map_err Identifier (mret r)) k) (POST Q) DInv w.
Proof. intros HA Hk. apply wpt_try, wpt_map_err, wpt_ret. destruct r as [a|e]; [apply Hk|]. split; [done|by eapply ate_broken]. Qed.

Lemma direct_end (stopped : bool) o : ∃ v,
  moves running (if stopped then Cancel else if is_failure (to_status o) then Block
                 else if changed_workspace o then CompleteWithChanges else Complete) v ∧ settled v.
Proof.
  destruct stopped; [by exists (Cancelled, None); auto with turn|]. destruct (is_failure _); [|apply completes].
  by exists (Blocked, None); auto with turn.
Qed.

Lemma direct_tool_post tool n p js snt w :
  direct_tool options = Some tool → AtE (Starting, None) n p js snt [] w →
  wpt (drive_direct_tool answer clock decode_goal goal_error_text port_error_text config options session_id turn polls tool)
    (POST (λ _, Ended)) DInv w.
Proof.
  intros Ht HA. unfold drive_direct_tool. eapply try_post; [eapply quiesce_post; [by left|exact HA]|]. intros [] w1 HA1; [done|].
  cbn [stopped_or] in HA1. eapply then_identifier; [exact HA1|]. intros id. eapply then_ingest; [done|exact HA1|]. intros w2 HA2.
  eapply (then_advance _ (Starting, None) running); [moves|exact HA2|]. intros w3 HA3.
  eapply then_catalogue; [exact HA3|]. intros catalogue w4 HA4. eapply then_announce; [exact HA4|]. intros w5 HA5.
  set (approval := Approval.some_and _ _) in *. set (c := mkCall _ _ _).
  eapply (try_post _ _ (λ _, AtE (asking approval) n p js snt [])).
  { destruct (_ && _); [by apply run_goal_tool_post|]. eapply post_mono; [apply execute_post; [exact HA5|]|by intros o w' [? _]].
    split; [done|]. split; [done|]. by exists tool. }
  intros o w6 HA6. eapply then_settle; [exact HA6|]. intros w7 HA7. eapply then_ingest; [done|exact HA7|]. intros w8 HA8.
  eapply then_emit; [done|exact HA8|]. intros w9 HA9. eapply (then_set _ _ n n p p); [done|done|exact HA9|]. intros w10 HA10.
  eapply then_stays; [auto with turn|exact HA10|]. intros stopped w11 HA11.
  eapply (then_set _ _ n n p p); [done|done|exact HA11|]. intros w12 HA12.
  destruct (direct_end stopped o) as (v & Hv & Hs). by eapply finish_turn.
Qed.

(** The turn goes on where it was live, or it ended. *)
Definition going n p js snt (go : bool) (w : W) : Prop := if go then ∃ s, live s ∧ AtE (s, None) n p js snt [] w else Ended w.

Lemma authorized_directive_post objective n p js snt w :
  AtE (Starting, None) n p js snt [] w →
  wpt (authorized_directive answer clock decode_goal encode_goal goal_error_text port_error_text options session_id turn objective)
    (POST (going n p js snt)) DInv w.
Proof.
  intros HA. unfold authorized_directive. eapply then_identifier; [exact HA|]. intros id.
  destruct (encode_goal objective) as [encoded|]; [|by eapply err_ate].
  eapply then_stream; [by left|exact HA|]. intros w1 HA1. eapply then_announce; [exact HA1|]. intros w2 HA2.
  eapply try_post; [by apply run_goal_tool_post|]. intros o w3 HA3. eapply then_settle; [exact HA3|]. intros w4 HA4.
  eapply then_emit; [done|exact HA4|]. intros w5 HA5. eapply (then_set _ _ n n p p); [done|done|exact HA5|]. intros w6 HA6.
  destruct (to_status o).
  1: { apply ok_post. exists Running. split; [by right|done]. }
  3: eapply end_turn; [|apply settled_cancelled|exact HA6|done]; by auto with turn.
  all: eapply end_turn; [|apply settled_blocked|exact HA6|done]; by auto with turn.
Qed.

Lemma goal_directive_post n p js snt w :
  AtE (Starting, None) n p js snt [] w →
  wpt (goal_directive answer clock decode_goal encode_goal goal_error_text port_error_text options session_id turn)
    (POST (going n p js snt)) DInv w.
Proof.
  intros HA. unfold goal_directive. destruct (opt_goal options) as [objective|]; [|by exists Starting; split; [left|]].
  destruct (authority options) as [a|] eqn:Ea; [by apply authorized_directive_post|].
  apply wpt_try, wpt_map_err. destruct HA as [d HA].
  assert (Hstep : ∀ r, AtE (Starting, None) n p js snt [] (mkWorld (locals w) (log w ++ [entry (GoalStart session_id objective) r]))).
  { intros r. exists d. eapply at_clear; [done| |exact HA]. cbn. by rewrite Ea. }
  refine (wpt_call answer (GoalStart session_id objective) _ _ _ _ _); [|by eapply broken_dinv, ate_broken].
  intros r. specialize (Hstep (Some r)). destruct r as [g|e]; [|split; [done|by eapply ate_broken]].
  eapply then_emit; [done|exact Hstep|]. intros w1 HA1. apply ok_post. exists Starting. by split; [left|].
Qed.

Lemma then_offered {B} v n p js snt q (k : list ToolDescriptor → M B) (Q : B → W → Prop) w :
  AtE v n p js snt q w → (∀ ds w', AtE v n p js snt q w' → wpt (k ds) Q DInv w') → wpt (offered answer config options ≫= k) Q DInv w.
Proof.
  intros HA Hk. apply wpt_bind. unfold offered. eapply then_stays; [|exact HA|].
  { destruct (tools_enabled options), (require_tool_authority config); auto with turn. }
  intros [] w1 HA1; [|by apply wpt_ret, Hk]. eapply then_catalogue; [exact HA1|]. intros ds w2 HA2.
  match goal with |- wpt (?keep ds) _ _ _ => assert (Hkeep : ∀ ds, stays (keep ds)) end.
  { clear. intros ds. induction ds as [|x ds IH]; [apply stays_ret|]. apply stays_bind.
    - case_bool_decide; [|apply stays_ret]. destruct (authority options); auto with turn.
    - intros kept. apply stays_bind; [exact IH|]. intros rest. apply stays_ret. }
  destruct HA2 as [d HA2]. eapply wpt_mono; [by apply Hkeep| |done]. intros ds' w3 HA3. apply Hk. by exists d.
Qed.

Context (reason : BootstrapReason) (input : str).
Abbreviation drive := (TurnLoop.drive answer clock decode_goal encode_goal goal_error_text port_error_text config options session_id turn
  reason input polls).

Lemma drive_post snt w : AtE (Starting, None) 0 None [] snt [] w → wpt drive (POST (λ _, Ended)) DInv w.
Proof.
  intros HA. unfold TurnLoop.drive. apply now_post. intros t.
  refine (then_port (call (Bootstrap _ _ _ _)) _ _ _ _ _ _ _ _ _ (stays_call (Bootstrap _ _ _ _) eq_refl) HA _). intros r w1 HA1.
  destruct (direct_tool options) as [tool|] eqn:Et; [by eapply direct_tool_post|].
  eapply try_post; [by apply goal_directive_post|]. intros [] w2 H2; [|done]. destruct H2 as (s & Hs & HA2). cbn [negb].
  destruct HA2 as [d HA2]. eapply (map_post _ _ _ _ _ _ _ Goal); [done|by apply (call_at _ _ _ _ _ _ _ (GoalActive session_id))|].
  intros g w3 HA3. eapply then_ingest; [|by exists d|]; [by destruct g|]. intros w4 HA4. eapply then_ingest; [done|exact HA4|]. intros w5 HA5.
  eapply then_offered; [exact HA5|]. intros catalogue w6 HA6. eapply then_stays; [|exact HA6|].
  { destruct (opt_model options); [apply stays_ret|]. intros v n p js snt' q d' w' HA'. apply wpt_bind, wpt_now. intros t'.
    by apply (call_at _ _ _ _ _ _ _ (SelectedModel _ _)). }
  intros model w7 HA7. apply (round_loop_post _ _ _ _ 0); [|lia]. by exists s, [], snt.
Qed.

Lemma terminal_moves s pre v : legal_move (s, pre) v → is_terminal s = false.
Proof.
  intros (e & r & k & m & Ha & _). destruct (is_terminal s) eqn:E; [|done]. apply (terminal_refuses s e) in E. unfold apply in Ha. cbn in Ha.
  by destruct (transition s e).
Qed.

Lemma moves_fail s pre : is_terminal s = false → moves (s, pre) Fail_ (Failed, None).
Proof. intros Hs k. exists Failed, (mkMachine Failed None (sat_add u64_max k 1)). by destruct s. Qed.

Lemma accepts_fail m : accepts m Fail_ = negb (is_terminal (state m)).
Proof. unfold accepts. by destruct (state m). Qed.

(** After an error the session fails, from wherever the store has it. *)
Lemma fail_post w :
  Broken w →
  wpt (advance_if answer clock session_id turn Fail_) (POST (λ _ w', Broken w' ∧ is_terminal (state (machine (locals w'))) = true)) DInv w.
Proof.
  intros HB. pose proof HB as [a b q d Hg (Hsub & Hu & Hlag) Hr Hj]. unfold advance_if. apply get_post. rewrite accepts_fail.
  destruct (is_terminal _) eqn:Et; [done|]. cbn [negb].
  assert (Hlegal : legal_move (stored a) (Failed, None)).
  { destruct (stored a) as [s pre]. apply (moves_legal (s, pre) Fail_), moves_fail. destruct Hlag as [Hv|Hv].
    - unfold view in Hv. by injection Hv as -> _.
    - by eapply terminal_moves. }
  eapply post_mono; [eapply (advance_from (view (locals w)) _ _ _ _ q d Fail_ (Failed, None)); try done; [by apply moves_fail|by right]|].
  intros ? w' HA'. split; [exact (at_broken _ _ _ _ _ _ _ _ HA')|]. pose proof (at_memory _ _ _ _ _ _ _ _ HA') as Hm. unfold view in Hm. by injection Hm as -> _.
Qed.

(** The record of the turn, from its variables. *)
Lemma persist_turn_post w :
  Broken w →
  wpt (persist_turn answer clock session_id turn)
    (λ r w', DInv w' ∧ locals w' = locals w ∧ ∃ t, tr_state t = state (machine (locals w)) ∧ tr_message t = message (locals w) ∧
       tr_partial t = partial (locals w) ∧
       match r with
       | Ok _ => log w' = log w ++ [entry (SaveTurn t) (Some (Ok tt))]
       | Err e => (∀ x, e ≠ State x) ∧ refused (log w')
       end) DInv w.
Proof.
  intros [a b q d Hg (Hsub & Hu & Hlag) Hr Hj]. unfold persist_turn. apply get_post, now_post. intros at_. apply wpt_map_err.
  set (t := mkTurnRecord _ _ _ _ _ _ _).
  assert (Hgood : ∀ r, Good a b q d (log w ++ [entry (SaveTurn t) r])).
  { intros r. apply (good_step a b q d (log w)); try done; cbn.
    - rewrite Hsub. done.
    - split; [|done]. symmetry. by apply acknowledged_journal. }
  refine (wpt_call answer (SaveTurn t) _ _ _ _ _); [|exists a, b, q, d; apply (Hgood None)]. intros r.
  split; [exists a, b, q, d; apply (Hgood (Some r))|]. split; [done|]. exists t. do 3 (split; [done|]). destruct r as [[]|e]; [done|].
  split; [done|]. exists (log w), e. right. by exists t.
Qed.

(** An advance that fails did so because its snapshot was refused. *)
Lemma advance_refused e w :
  wpt (advance answer clock session_id turn e)
    (λ r w', match r with Err (Port _) => refused (log w') | Err (State _) => True | Err _ => False | Ok _ => True end) (λ _, True) w.
Proof.
  unfold advance. apply wpt_bind, wpt_get. destruct (apply _ e) as [[to|x] m]; apply wpt_bind, wpt_set; [|done].
  apply wpt_try. unfold persist_session. apply wpt_bind, wpt_get, wpt_bind, wpt_get, wpt_bind, wpt_now. intros at_.
  apply wpt_try, wpt_map_err. refine (wpt_call answer (SaveSession _) _ _ _ _ _); [|done]. cbn. intros [rev|err].
  - apply wpt_bind, wpt_set, wpt_ret, wpt_bind. by refine (wpt_call answer (Emit _) _ _ _ _ _).
  - eexists _, err. left. by eexists.
Qed.

Lemma wpt_conj {A} (m : M A) (Q Q' : A → W → Prop) (D D' : W → Prop) w :
  wpt m Q D w → wpt m Q' D' w → wpt m (λ a w', Q a w' ∧ Q' a w') (λ w', D w' ∧ D' w') w.
Proof. unfold wpt. by destruct (m w) as [[a| |] w']. Qed.
Lemma broken_neutral w c r : neutral c = true → Broken w → Broken (mkWorld (locals w) (log w ++ [entry c r])).
Proof. intros Hc [a b q d Hg Hl Hr Hj]. apply (mkBroken _ a b q d); try done. by apply good_neutral. Qed.

Definition RUN (r : result RuntimeError TurnOutcome) (w : W) : Prop :=
  DInv w ∧ (∀ x, r ≠ Err (State x)) ∧ recorded session_id turn first_revision r (log w).

(** The run is over where a snapshot is refused outside [drive]. *)
Lemma run_try {A} (m : M (result RuntimeError A)) (k : A → M (result RuntimeError TurnOutcome)) (Q : A → W → Prop) w :
  wpt m (POST Q) DInv w →
  wpt m (λ r w', match r with Err (Port _) => refused (log w') | Err (State _) => True | Err _ => False | Ok _ => True end) (λ _, True) w →
  (∀ a w', Q a w' → wpt (k a) RUN DInv w') → wpt (try m k) RUN DInv w.
Proof.
  intros Hm Hr Hk. apply wpt_try. eapply wpt_mono; [exact (wpt_conj _ _ _ _ _ _ Hm Hr)| |by intros w' []].
  intros [a|e] w' [H Href]; [by apply Hk|]. destruct H as [He Hb]. split; [by apply broken_dinv|].
  split; [intros x [= ->]; by eapply He|]. left. destruct e; try done. by destruct (He e).
Qed.

Lemma fail_refused w :
  wpt (advance_if answer clock session_id turn Fail_)
    (λ r w', match r with Err (Port _) => refused (log w') | Err (State _) => True | Err _ => False | Ok _ => True end) (λ _, True) w.
Proof. unfold advance_if. apply wpt_bind, wpt_get. destruct (accepts _ _); [apply advance_refused|done]. Qed.

(** A turn that failed is announced and recorded as such. *)
Lemma failed_run_post error w :
  (∀ x, error ≠ State x) → Broken w → is_terminal (state (machine (locals w))) = true →
  wpt (TurnLoop.emit answer (TurnFailed error) ;; _ <-? persist_turn answer clock session_id turn; mret (Err error)) RUN DInv w.
Proof.
  intros He HB Ht. apply wpt_bind. pose proof (λ r : option unit, broken_neutral w (Emit (TurnFailed error)) r eq_refl HB) as HB'.
  refine (wpt_call answer (Emit (TurnFailed error)) _ _ _ _ _); [|by apply broken_dinv]. intros [].
  apply wpt_try. eapply wpt_mono; [by apply persist_turn_post| |done]. cbn [locals log].
  intros [u|e] w' (Hd & _ & t & Hst & _ & _ & Hl).
  - split; [done|]. split; [intros x [= ->]; by eapply He|]. right. exists (log w), t. rewrite Hl, <- app_assoc. by rewrite Hst.
  - destruct Hl as [He' Hl]. split; [done|]. split; [intros x [= ->]; by eapply He'|]. by left.
Qed.

Lemma settled_state v : settled v → v = (v.1, None) ∧ ended_state v.1 = true.
Proof. unfold settled. rewrite !elem_of_cons, elem_of_nil. by intros [-> |[-> |[-> |[-> |[]]]]]. Qed.

(** A turn that ended is recorded the way its outcome says. *)
Lemma ended_run_post w :
  Ended w →
  wpt (_ <-? persist_turn answer clock session_id turn;
       l ← get id;
       mret (Ok (mkTurnOutcome session_id turn (state (machine l)) (message l) (partial l) (round_count l) (tool_outcomes l))))
    RUN DInv w.
Proof.
  intros (v & n & p & js & snt & q & Hs & HA). apply wpt_try. eapply wpt_mono; [by eapply persist_turn_post, ate_broken| |done].
  intros [u|e] w' (Hd & Hloc & t & Hst & Hmsg & Hpar & Hl).
  2:{ destruct Hl as [He Hl]. split; [done|]. split; [intros x [= ->]; by eapply He|]. by left. }
  apply get_post, wpt_ret. split; [done|]. split; [done|]. destruct HA as [d [a b Hg (Hsto & _) Hm _ _ _ _ _ _]].
  destruct (settled_state v Hs) as [Hv Hend]. unfold view in Hm. rewrite <- Hm in *. cbn in Hv, Hend. injection Hv as Hpre.
  cbn. unfold id. rewrite Hloc. do 3 (split; [done|]). exists (log w), t. do 4 (split; [done|]). exists a. split; [apply Hg|].
  by rewrite Hsto, Hpre.
Qed.

Abbreviation run := (TurnLoop.run answer clock decode_goal encode_goal goal_error_text port_error_text config options session_id turn
  reason input polls).

Lemma run_post at_ : wpt run RUN DInv (mkWorld (locals_new session_id turn first_revision at_) []).
Proof.
  assert (HA : AtE (Draft, None) 0 None [] false [] (mkWorld (locals_new session_id turn first_revision at_) [])).
  { exists clearance0. apply (mkAt _ _ _ _ _ _ _ _ view0 accounting0); try done. by split; constructor. }
  revert HA. generalize (mkWorld (locals_new session_id turn first_revision at_) []). intros w HA. unfold TurnLoop.run.
  eapply run_try; [apply (advance_at Enqueue (Draft, None) (Queued, None)); [moves|exact HA]|apply advance_refused|]. intros [] w1 HA1.
  eapply run_try; [apply (advance_at Start (Queued, None) (Starting, None)); [moves|exact HA1]|apply advance_refused|]. intros [] w2 HA2.
  apply wpt_bind. eapply wpt_mono; [by apply (drive_post false)| |done]. intros [[]|error] w3 H3; [by apply ended_run_post|].
  destruct H3 as [He HB]. eapply run_try; [by apply fail_post|apply fail_refused|]. intros [] w4 [HB4 Ht]. by apply failed_run_post.
Qed.

Lemma run_logged at_ : DInv (run (mkWorld (locals_new session_id turn first_revision at_) [])).2.
Proof.
  pose proof (run_post at_) as H. unfold wpt in H. destruct (run _) as [[r| |] w]; [by destruct H|done|done].
Qed.

End Proofs.

Section Claims.
Context (answer : list Entry → ∀ c : Call, option (reply c)) (clock : list Entry → Z).
Context (decode_goal : str → result str Service.GoalAction) (encode_goal : str → option str).
Context (goal_error_text : Service.GoalError → str) (port_error_text : PortError → str).
Context (config : TurnConfig) (options : TurnOptions) (session_id : str) (turn first_revision at_ : Z).
Context (reason : BootstrapReason) (input : str) (polls : nat).

(** The turn, from the revision its session was loaded at. *)
Definition whole_run : Outcome (result RuntimeError TurnOutcome) * World Locals :=
  run answer clock decode_goal encode_goal goal_error_text port_error_text config options session_id turn reason input polls
    (mkWorld (locals_new session_id turn first_revision at_) []).

(** C4. Every state of a turn is durable before it is announced, and every announced move is a legal move of the
    session contract from the state announced before it; a snapshot carries the revision the store gave last; after
    a refused snapshot the only one submitted is the failure. The turn never panics and never fails for an illegal
    transition, whatever its ports answer and wherever it is cut short. *)
Theorem session_moves_durable :
  follows (session_step session_id turn) (mkView (Draft, None) (Draft, None) first_revision None) (log whole_run.2) ∧
  whole_run.1 ≠ Panicked ∧ ∀ x, whole_run.1 ≠ Done (Err (State x)).
Proof.
  unfold whole_run. pose proof (run_post answer clock decode_goal encode_goal goal_error_text port_error_text config options session_id
    turn first_revision polls reason input at_) as H. unfold wpt in H. destruct (run _ _ _ _ _ _ _ _ _ _ _ _ _ _) as [[r| |] w]; [|split; [|done]|done].
  - destruct H as ((a & b & q & d & Hg) & Hr & _). split; [by exists a; apply Hg|]. split; [done|]. intros x [= ->]. by eapply Hr.
  - destruct H as (a & b & q & d & Hg). by exists a; apply Hg.
Qed.

(** C6. The journal names a provider round before the round is sent, with the rounds before it accounted for and
    within the budget; every journal the store is given is an update it accepts; a round is sent once, below the
    turn's limit; the turn's record holds the acknowledged rounds. *)
Theorem rounds_accounted_ahead :
  follows (accounting_step config session_id turn) (mkAccounting None false) (log whole_run.2).
Proof.
  unfold whole_run. destruct (run_logged answer clock decode_goal encode_goal goal_error_text port_error_text config options session_id
    turn first_revision polls reason input at_) as (a & b & q & d & Hg). exists b. apply Hg.
Qed.

(** C7. The calls an assistant message asks for are answered one by one in their order, and all of them before the
    provider is asked again; a tool runs only for the call that waits first, or for the command of the turn, with
    that call's name and arguments, under the authority of the turn. *)
Theorem calls_answered_in_order : follows (answer_step options session_id turn) [] (log whole_run.2).
Proof.
  unfold whole_run. destruct (run_logged answer clock decode_goal encode_goal goal_error_text port_error_text config options session_id
    turn first_revision polls reason input at_) as (a & b & q & d & Hg). exists q. apply Hg.
Qed.

(** C2. A tool runs only as it was last described, under the binding made for that very request, and where its
    description demands it after an approval of that request that nothing else used; an authenticated goal change
    is approved and its authorization audited first, and applies the action that was approved. *)
Theorem effects_are_cleared :
  follows (clearance_step (parse_goal decode_goal) options session_id) (mkClearance [] None None None None) (log whole_run.2).
Proof.
  unfold whole_run. destruct (run_logged answer clock decode_goal encode_goal goal_error_text port_error_text config options session_id
    turn first_revision polls reason input at_) as (a & b & q & d & Hg). exists d. apply Hg.
Qed.

End Claims.

End TurnProtocol.
