(* ===== verification/TurnEnding.v ===== *)
(** * Every turn ends

    Where every call of a turn ([TurnLoop]) is answered, and the provider's streams and the
    turn's pauses come to an end, the turn returns, and its record is the last thing it saved. *)

From S2P Require Import Prelude Utf8 Approval Goals GoalService TurnState TurnStream TurnPorts TurnTools TurnLoop TurnProtocol.

Module TurnEnding.
Import TurnState TurnStream TurnPorts TurnTools TurnLoop TurnProtocol.

Definition chunks_read (l : list Entry) : nat :=
  length (List.filter (λ e, match e with entry NextChunk _ => true | _ => false end) l).

Definition pauses_read (l : list Entry) : nat :=
  length (List.filter (λ e, match e with entry PauseChanged _ => true | _ => false end) l).

Section Ending.
Context (answer : list Entry → ∀ c : Call, option (reply c)) (clock : list Entry → Z).
Context (decode_goal : str → result str Service.GoalAction) (encode_goal : str → option str).
Context (goal_error_text : Service.GoalError → str) (port_error_text : PortError → str).
Context (config : TurnConfig) (options : TurnOptions) (session_id : str) (turn first_revision at_ : Z).
Context (reason : BootstrapReason) (input : str) (polls : nat).
Context (answered : ∀ l c, is_Some (answer l c)).
Context (streams_end : ∀ l c, (polls ≤ S (chunks_read l))%nat → answer l NextChunk ≠ Some (NextChunkIs (Ok (Some c)))).
Context (pauses_end : ∀ l, (polls ≤ S (pauses_read l))%nat → answer l PauseChanged ≠ Some PauseSent).
Context (some_polls : polls ≠ O).

Abbreviation W := (World Locals).
Abbreviation M := (TurnPorts.M Locals).

(** [m] is not cut short at [w], and the log only grows. *)
Definition comes_back {A} (m : M A) (w : W) : Prop := (m w).1 ≠ Cut ∧ ∃ es, log (m w).2 = log w ++ es.
Definition ends {A} (m : M A) : Prop := ∀ w, comes_back m w.

Lemma ends_ret {A} (a : A) : ends (mret a).
Proof. intros w. split; [done|]. exists []. by rewrite app_nil_r. Qed.
Lemma ends_get {A} (f : Locals → A) : ends (get f).
Proof. intros w. split; [done|]. exists []. by rewrite app_nil_r. Qed.
Lemma ends_set f : ends (set f).
Proof. intros w. split; [done|]. exists []. by rewrite app_nil_r. Qed.
Lemma ends_now : ends (now clock).
Proof. intros w. split; [done|]. exists []. by rewrite app_nil_r. Qed.
Lemma ends_expect {A} (o : option A) : ends (expect o).
Proof. intros w. unfold comes_back, expect. destruct o; (split; [done|exists []; by rewrite app_nil_r]). Qed.

Lemma ends_call c : ends (call answer c).
Proof. intros w. unfold comes_back, call. destruct (answered (log w) c) as [r ->]. split; [done|by eexists]. Qed.

Lemma back_bind {A B} (m : M A) (k : A → M B) w :
  comes_back m w → (∀ a w', m w = (Done a, w') → (∃ es, log w' = log w ++ es) → comes_back (k a) w') → comes_back (m ≫= k) w.
Proof.
  unfold comes_back, mbind, M_bind. intros [Hm [es Hes]] Hk. destruct (m w) as [[a| |] w'] eqn:E; cbn in *; [|done|by eauto].
  destruct (Hk a w' eq_refl ltac:(by exists es)) as [Hc [es' Hes']]. split; [done|]. exists (es ++ es'). by rewrite Hes', Hes, app_assoc.
Qed.

Lemma ends_bind {A B} (m : M A) (k : A → M B) : ends m → (∀ a, ends (k a)) → ends (m ≫= k).
Proof. intros Hm Hk w. apply back_bind; [apply Hm|intros; apply Hk]. Qed.

Lemma ends_try {E A B} (m : M (result E A)) (k : A → M (result E B)) : ends m → (∀ a, ends (k a)) → ends (try m k).
Proof. intros Hm Hk. apply ends_bind; [done|]. intros [a|e]; [apply Hk|apply ends_ret]. Qed.

Lemma ends_map_err {E F A} (f : E → F) (m : M (result E A)) : ends m → ends (map_err f m).
Proof. intros Hm. apply ends_bind; [done|]. intros. apply ends_ret. Qed.

Lemma ends_authority f o : (∀ a, ends (f a)) → ends (authority_and f o).
Proof. intros Hf. destruct o; [apply Hf|apply ends_ret]. Qed.
Lemma ends_not m : ends m → ends (not_ m).
Proof. intros Hm. apply ends_bind; [done|]. intros. apply ends_ret. Qed.
Lemma ends_or m k : ends m → ends k → ends (or_else m k).
Proof. intros Hm Hk. apply ends_bind; [done|]. intros []; [apply ends_ret|done]. Qed.

(** One step of a body: the monad's rules, or a branch. *)
Ltac ends_step :=
  lazymatch goal with
  | |- ends (mret _) => apply ends_ret
  | |- ends (get _) => apply ends_get
  | |- ends (set _) => apply ends_set
  | |- ends (now _) => apply ends_now
  | |- ends (expect _) => apply ends_expect
  | |- ends (call answer ?c) => exact (ends_call c)
  | |- ends (map_err _ _) => apply ends_map_err
  | |- ends (try _ _) => apply ends_try; [|intros ?]
  | |- ends (_ ≫= _) => apply ends_bind; [|intros ?]
  | |- ends (authority_and _ _) => apply ends_authority; intros ?
  | |- ends (or_else _ _) => apply ends_or
  | |- ends (not_ _) => apply ends_not
  | |- ends (match _ with _ => _ end) => case_match
  | |- _ => first [assumption | progress auto with ends]
  end.
Ltac ends := intros; repeat ends_step.

Create HintDb ends.

Lemma ends_revoked a : ends (TurnTools.is_revoked answer a).
Proof. unfold TurnTools.is_revoked. ends. Qed.
Hint Resolve ends_revoked : ends.
Lemma ends_can_execute a : ends (TurnTools.can_execute answer a).
Proof. unfold TurnTools.can_execute. ends. Qed.
Lemma ends_owner a : ends (TurnTools.is_owner answer a).
Proof. unfold TurnTools.is_owner. ends. Qed.
Hint Resolve ends_can_execute ends_owner : ends.

Lemma ends_advance e : ends (advance answer clock session_id turn e).
Proof. unfold advance, persist_session, port, TurnLoop.emit. ends. Qed.
Hint Resolve ends_advance : ends.

Lemma ends_advance_if e : ends (advance_if answer clock session_id turn e).
Proof. unfold advance_if. ends. Qed.
Lemma ends_save rs : ends (save_rounds answer clock rs).
Proof. unfold save_rounds, persist_provider_journal, port. ends. Qed.
Hint Resolve ends_advance_if ends_save : ends.
Lemma ends_response : ends (persist_response answer clock).
Proof. unfold persist_response, persist_provider_report. ends. Qed.
Lemma ends_ingest item : ends (ingest answer clock session_id turn item).
Proof. unfold ingest, port. ends. Qed.
Lemma ends_relieve s : ends (relieve_pressure answer clock session_id s).
Proof. unfold relieve_pressure, port, TurnLoop.emit. ends. Qed.
Lemma ends_persist_turn : ends (persist_turn answer clock session_id turn).
Proof. unfold persist_turn, port. ends. Qed.
Lemma ends_catalogue : ends (tool_catalogue answer config).
Proof. unfold tool_catalogue. ends. Qed.
Lemma ends_announce b c : ends (announce answer clock session_id turn b c).
Proof. unfold announce, TurnLoop.emit. ends. Qed.
Lemma ends_settle b : ends (settle answer clock session_id turn b).
Proof. unfold settle. ends. Qed.
Hint Resolve ends_response ends_ingest ends_relieve ends_persist_turn ends_catalogue ends_announce ends_settle : ends.

Lemma ends_run_bound id d i bound : ends (run_bound answer port_error_text id d i bound).
Proof. unfold run_bound. ends. Qed.
Hint Resolve ends_run_bound : ends.
Lemma ends_execute c : ends (execute answer port_error_text options session_id turn c).
Proof. unfold execute, execute_authorized, describe, approve, run_checked, adapter_identity. ends. Qed.
Lemma ends_goal_tool c : ends (run_goal_tool answer clock decode_goal goal_error_text port_error_text options session_id turn c).
Proof.
  unfold run_goal_tool, execute_authorized_goal, approved_goal, audited_goal, apply_goal, binding_changed, must_audit, TurnLoop.emit. ends.
Qed.
Hint Resolve ends_execute ends_goal_tool : ends.
Lemma ends_goal_call c : ends (goal_call answer clock decode_goal goal_error_text port_error_text options session_id turn c).
Proof. unfold goal_call, TurnLoop.emit. ends. Qed.
Lemma ends_tool_call ds b c : ends (tool_call answer clock port_error_text options session_id turn ds b c).
Proof. unfold tool_call, TurnLoop.emit. ends. Qed.
Hint Resolve ends_goal_call ends_tool_call : ends.
Lemma ends_call_loop ds b cs : ends (call_loop answer clock decode_goal goal_error_text port_error_text config options session_id turn ds b cs).
Proof. revert b. induction cs as [|c cs IH]; intros b; cbn [call_loop]; ends. Qed.
Lemma ends_forward es cs : ends (forward answer options es cs).
Proof. revert cs. induction es as [|e es IH]; intros cs; cbn [forward]; unfold TurnLoop.emit; ends. Qed.
Hint Resolve ends_call_loop ends_forward : ends.
Lemma ends_after ds b cs : ends (after_round answer clock decode_goal goal_error_text port_error_text config options session_id turn ds b cs).
Proof. unfold after_round, port. ends. Qed.
Lemma ends_complete r a cs : ends (complete_round answer clock session_id turn r a cs).
Proof. unfold complete_round, TurnLoop.emit. ends. Qed.
Lemma ends_open r m ns o : ends (open_round answer clock session_id turn r m ns o).
Proof. unfold open_round. ends. Qed.
Lemma ends_admit_round r : ends (admit_round answer clock r).
Proof. unfold admit_round. ends. Qed.
Hint Resolve ends_after ends_complete ends_open ends_admit_round : ends.

(** ** The two loops that wait for others *)

Lemma back_ends {A} (m : M A) w : ends m → comes_back m w.
Proof. auto. Qed.

Lemma chunks_grow l es : (chunks_read l ≤ chunks_read (l ++ es))%nat.
Proof. unfold chunks_read. rewrite List.filter_app, length_app. lia. Qed.

(** What the call at the head of a body answered, and the log it leaves. *)
Lemma back_call {B} c (k : reply c → M B) w :
  (∀ r, answer (log w) c = Some r → comes_back (k r) (mkWorld (locals w) (log w ++ [entry c (Some r)]))) →
  comes_back (call answer c ≫= k) w.
Proof.
  intros Hk. apply back_bind; [apply ends_call|]. intros r w'. unfold call. destruct (answer (log w) c) as [r'|] eqn:E; [|done].
  intros [= <- <-] _. by apply Hk.
Qed.

Lemma back_chunk_loop fuel a cs w :
  (polls ≤ fuel + chunks_read (log w))%nat → fuel ≠ O → comes_back (chunk_loop answer clock options session_id turn fuel a cs) w.
Proof.
  revert a cs w. induction fuel as [|fuel IH]; intros a cs w Hf Hne; [done|]. cbn [chunk_loop].
  apply (back_call NextChunk). intros [[[c|]|e]|] Ha; [|apply back_ends; ends..].
  destruct (push a c) as [[es a']|e]; [|apply back_ends; ends].
  assert (Hmore : (S (chunks_read (log w)) < polls)%nat) by (apply Nat.nle_gt; intros Hle; by apply (streams_end _ c Hle)).
  apply back_bind; [apply ends_forward|]. intros cs' w' _ [more Hlog]. cbn [log] in Hlog.
  apply IH; [|lia]. rewrite Hlog. etrans; [|apply Nat.add_le_mono_l, chunks_grow]. unfold chunks_read at 1.
  rewrite List.filter_app, length_app. cbn. fold (chunks_read (log w)). lia.
Qed.

Lemma back_paused_loop fuel w :
  (polls ≤ fuel + pauses_read (log w))%nat → fuel ≠ O → comes_back (paused_loop answer clock session_id turn fuel) w.
Proof.
  revert w. induction fuel as [|fuel IH]; intros w Hf Hne; [done|]. cbn [paused_loop].
  apply (back_call PauseChanged). intros [] Ha; [|apply back_ends; ends..].
  assert (Hmore : (S (pauses_read (log w)) < polls)%nat) by (apply Nat.nle_gt; intros Hle; by apply (pauses_end _ Hle)).
  apply (back_call PauseRequested). intros [] _; [|apply back_ends; ends]. apply IH; [|lia].
  unfold pauses_read. cbn. rewrite !List.filter_app, !length_app. cbn. fold (pauses_read (log w)). lia.
Qed.

Lemma ends_quiesce : ends (quiesce answer clock options session_id turn polls).
Proof. unfold quiesce. ends. intros w. apply back_paused_loop; [lia|done]. Qed.
Hint Resolve ends_quiesce : ends.

Lemma ends_one_round ds o b :
  ends (one_round answer clock decode_goal goal_error_text port_error_text config options session_id turn polls ds o b).
Proof. unfold one_round, port. ends; intros w; (apply back_chunk_loop; [lia|done]). Qed.
Hint Resolve ends_one_round : ends.

Lemma ends_round_loop fuel ds o b :
  ends (round_loop answer clock decode_goal goal_error_text port_error_text config options session_id turn polls fuel ds o b).
Proof. revert b. induction fuel as [|fuel IH]; intros b; cbn [round_loop]; ends. Qed.

Lemma ends_direct_tool t :
  ends (drive_direct_tool answer clock decode_goal goal_error_text port_error_text config options session_id turn polls t).
Proof. unfold drive_direct_tool, TurnLoop.emit. ends. Qed.

Lemma ends_directive :
  ends (goal_directive answer clock decode_goal encode_goal goal_error_text port_error_text options session_id turn).
Proof. unfold goal_directive, authorized_directive, TurnLoop.emit. ends. Qed.

Lemma ends_offered : ends (offered answer config options).
Proof.
  unfold offered. ends. match goal with |- ends (_ ?ds) => generalize ds end.
  intros ds. induction ds as [|d ds IH]; ends.
Qed.
Hint Resolve ends_round_loop ends_direct_tool ends_directive ends_offered : ends.

Abbreviation run :=
  (run answer clock decode_goal encode_goal goal_error_text port_error_text config options session_id turn reason input polls).

Lemma ends_run : ends run.
Proof. unfold TurnLoop.run, drive, port, TurnLoop.emit. ends. Qed.

(** C8. A turn whose calls are answered, whose provider ends its streams and whose pauses end, returns. Either it
    succeeded: its session is stored in the state it ended in, and the record saved last has that state and the
    message the caller gets. Or it failed: a save was refused, or the failure was announced and a record with a
    terminal state saved. *)
Theorem turn_ends_recorded :
  ∃ r w, run (mkWorld (locals_new session_id turn first_revision at_) []) = (Done r, w) ∧
    recorded session_id turn first_revision r (log w).
Proof.
  destruct (ends_run (mkWorld (locals_new session_id turn first_revision at_) [])) as [Hcut _].
  pose proof (run_post answer clock decode_goal encode_goal goal_error_text port_error_text config options session_id
    turn first_revision polls reason input at_) as H. unfold wpt in H. destruct (run _) as [[r| |] w]; [|done|done].
  exists r, w. split; [done|]. by destruct H as (_ & _ & H).
Qed.

End Ending.

(** ** A turn that asks for a tool

    The provider asks for a tool that needs an approval, the operator approves it, the tool
    changes the workspace, and the provider ends the turn with a message. *)

Definition demo_chunks : list ProviderChunk :=
  [ToolCallBegin (chars "call-1") (chars "write_file"); ToolCallArgumentsDelta (chars "call-1") (chars "{}"); ToolCallEnd (chars "call-1");
   MessageEnd].

Definition demo_answer (l : list Entry) (c : Call) : option (reply c) :=
  let calm := mkContextState 1 10 100 false 0 in
  match c return option (reply c) with
  | IsCancelled | IsShutdown | IsRevoked _ | PauseRequested => Some false
  | PauseChanged => Some PauseSenderGone
  | Emit _ => Some tt
  | SaveSession s => Some (Ok (ss_revision s + 1))
  | SaveJournal j => Some (Ok (pj_revision j + 1))
  | SaveTurn _ | CancelTool _ | AuditInternal _ _ _ _ => Some (Ok tt)
  | Bootstrap _ _ _ _ | Ingest _ _ _ _ | Maintain _ _ => Some (Ok calm)
  | Assemble _ _ _ => Some (Ok (mkAssembled [User (chars "write it")] calm))
  | Compact _ _ _ => Some (Ok (mkCompaction 0 0 calm))
  | GoalStart _ _ | GoalApply _ _ => Some (Err (Service.NoActiveGoal))
  | GoalActive _ => Some (Ok None)
  | Describe => Some [mkDescriptor (chars "write_file") [] true true]
  | SelectedModel _ _ | Remembered _ _ | ResponseReport => Some None
  | StartRound _ => Some (Some (Ok tt))
  | NextChunk =>
      Some (NextChunkIs (Ok (match chunks_read l with
                             | 0 | 1 | 2 | 3 => demo_chunks !! chunks_read l
                             | 5 => Some (TextDelta (chars "done"))
                             | 6 => Some MessageEnd
                             | _ => None
                             end%nat)))
  | BindAuthorized _ _ => Some (Ok (Approval.mkBinding [] 0 None))
  | RequestApproval _ _ => Some (Ok (Approval.Decided (Approval.mkDecision Approval.Approve Approval.Once) false))
  | RequestGoalApproval _ _ => Some None
  | NextInvocation | NextGoal => Some (Some 1)
  | Invoke i _ => Some (Finished (Ok (mkOutcome (call_id (in_call i)) StOk (chars "written") true)))
  end.

Definition demo_config : TurnConfig := mkConfig 8 100 None true false.
Definition demo_options : TurnOptions := mkOptions None true false None None None.

Definition demo_run :=
  run demo_answer (λ l, len l) (λ _, Err []) (λ _, None) (λ _, []) (λ _, []) demo_config demo_options (chars "s") 1 NewSession
    (chars "write it") 16 (mkWorld (locals_new (chars "s") 1 0 0) []).

(** The tool is described, approved and run between the two rounds. *)
Example demo_ends :
  (∃ o, demo_run.1 = Done (Ok o) ∧ tu_state o = CompletedWithChanges ∧ tu_rounds o = 2 ∧
     tu_message o = Some (mkMessage (chars "done") [] [])) ∧
  omap (λ e, match e with
             | entry (StartRound q) _ => Some (0, rq_round q)
             | entry (RequestApproval _ _) _ => Some (1, 0)
             | entry (Invoke _ _) _ => Some (2, 0)
             | _ => None
             end) (log demo_run.2) = [(0, 0); (1, 0); (2, 0); (0, 1)].
Proof. split; [eexists; split; [vm_compute; reflexivity|done]|vm_compute; reflexivity]. Qed.

(** The store refuses the last snapshot of the same turn. *)
Definition refusing_answer (l : list Entry) (c : Call) : option (reply c) :=
  match c return option (reply c) with
  | SaveSession s => Some (if is_terminal (ss_state s) then Err (Approval.Unavailable []) else Ok (ss_revision s + 1))
  | c => demo_answer l c
  end.

(** The caller gets an error and a failure is announced, yet the turn is recorded as completed while its session is
    stored as running. *)
Example refused_completion_is_recorded :
  let r := run refusing_answer (λ l, len l) (λ _, Err []) (λ _, None) (λ _, []) (λ _, []) demo_config demo_options (chars "s") 1
             NewSession (chars "write it") 16 (mkWorld (locals_new (chars "s") 1 0 0) []) in
  r.1 = Done (Err (Port (Approval.Unavailable []))) ∧
  omap (λ e, match e with
             | entry (SaveSession s) (Some (Ok _)) => Some (inl (ss_state s))
             | entry (SaveTurn t) _ => Some (inr (tr_state t))
             | _ => None
             end) (log r.2)
  = [inl Queued; inl Starting; inl Running; inl WaitingForApproval; inl Running; inr CompletedWithChanges].
Proof. split; vm_compute; reflexivity. Qed.

Lemma turn_ends_recorded_witness :
  ∃ r w, demo_run = (Done r, w) ∧ recorded (chars "s") 1 0 r (log w).
Proof.
  apply (turn_ends_recorded demo_answer); [|intros l c Hl|done|done].
  - intros l c. destruct c; by eexists.
  - destruct (chunks_read l) as [|[|[|[|[|[|[|]]]]]]] eqn:E; [lia..|]. cbn. by rewrite E.
Defined.

End TurnEnding.
