(* ===== verification/Suspension.v ===== *)
(** * Suspending the runtime

    Models [crates/claw-runtime/src/suspend.rs]: the controller that stops admitting work,
    waits for the work in flight and hands a lease to the host. Every locked section is a
    function on the controller; [act] runs them as the atomic steps of any number of
    callers, with the notification that wakes a waiting [prepare]. *)

From S2P Require Import Prelude Utf8 Approval.

Module Suspension.

Inductive SuspensionPhase := Active | Draining | Suspended.

#[export] Instance SuspensionPhase_eq_dec : EqDecision SuspensionPhase.
Proof. solve_decision. Defined.

Definition phase_label (p : SuspensionPhase) : bytes :=
  match p with
  | Active => lit "active"
  | Draining => lit "draining"
  | Suspended => lit "suspended"
  end.

Definition admits_work (p : SuspensionPhase) : bool := match p with Active => true | _ => false end.

Record SuspendLease := mkLease { lease_id : str; reason : str; granted_at : Z; expires_at : Z }.

#[export] Instance SuspendLease_eq_dec : EqDecision SuspendLease.
Proof. solve_decision. Defined.

Record SuspensionStatus := mkStatus {
  st_phase : SuspensionPhase;
  st_in_flight : Z;
  st_lease : option SuspendLease;
  observed_at : Z;
}.

Record PrepareRequest := mkPrepare { rq_lease_id : str; rq_reason : str; drain_timeout : Z; lease_ttl : Z }.

Inductive PrepareOutcome := Quiesced (l : SuspendLease) | DrainTimedOut (in_flight : Z).

Inductive SuspendError :=
| AlreadySuspended (lease_id : str)
| AlreadyDraining (lease_id : str)
| NotSuspended
| LeaseMismatch (expected presented : str)
| DeadlineOverflow.

(** [ControllerState] *)
Record Controller := mkController { phase : SuspensionPhase; in_flight : Z; lease : option SuspendLease }.

Definition controller_new : Controller := mkController Active 0 None.

(** ** The locked sections *)

Definition expire_locked (now : Z) (c : Controller) : Controller :=
  match phase c, lease c with
  | Suspended, Some l => if expires_at l <=? now then mkController Active (in_flight c) None else c
  | _, _ => c
  end.

(** [admit]; the error is the phase of [WorkRefused]. *)
Definition admit_work (now : Z) (c : Controller) : result SuspensionPhase unit * Controller :=
  let c := expire_locked now c in
  if negb (admits_work (phase c)) then (Err (phase c), c)
  else (Ok tt, mkController (phase c) (sat_add u64_max (in_flight c) 1) (lease c)).

(** [WorkPermit::drop]; whether it was the last one. *)
Definition drop_permit (c : Controller) : bool * Controller :=
  let n := sat_sub (in_flight c) 1 in
  (n =? 0, mkController (phase c) n (lease c)).

(** [status], with its two readings of the clock. *)
Definition status (now observed : Z) (c : Controller) : SuspensionStatus * Controller :=
  let c := expire_locked now c in
  (mkStatus (phase c) (in_flight c) (lease c) observed, c).

Definition owning_lease_id (c : Controller) (requested : str) : str := from_option lease_id requested (lease c).

(** [DrainGuard::arm] *)
Definition arm (l : SuspendLease) (c : Controller) : Controller := mkController Draining (in_flight c) (Some l).

(** [DrainGuard::drop] of an armed guard *)
Definition guard_drop (id : str) (c : Controller) : Controller :=
  if bool_decide (phase c = Draining) && Approval.some_and (λ l, bool_decide (lease_id l = id)) (lease c)
  then mkController Active (in_flight c) None
  else c.

(** [prepare] up to the drain: the lease and the deadline of the drain. *)
Definition prepare_begin (granted now : Z) (r : PrepareRequest) (c : Controller)
    : result SuspendError (SuspendLease * Z) * Controller :=
  match Approval.checked_add granted (drain_timeout r), Approval.checked_add granted (lease_ttl r) with
  | Some deadline, Some expires =>
      let l := mkLease (rq_lease_id r) (rq_reason r) granted expires in
      let c := expire_locked now c in
      match phase c with
      | Draining => (Err (AlreadyDraining (owning_lease_id c (rq_lease_id r))), c)
      | Suspended => (Err (AlreadySuspended (owning_lease_id c (rq_lease_id r))), c)
      | Active => (Ok (l, deadline), arm l c)
      end
  | _, _ => (Err DeadlineOverflow, c)
  end.

(** [prepare] after the drain. *)
Definition prepare_end (l : SuspendLease) (drained : bool) (c : Controller) : PrepareOutcome * Controller :=
  if drained then (Quiesced (default l (lease c)), mkController Suspended (in_flight c) (lease c))
  else (DrainTimedOut (in_flight c), mkController Active (in_flight c) None).

Definition resume (now observed : Z) (id : str) (c : Controller) : result SuspendError SuspensionStatus * Controller :=
  let c := expire_locked now c in
  match lease c with
  | None => (Err NotSuspended, c)
  | Some l =>
      if negb (bool_decide (phase c = Suspended)) then (Err NotSuspended, c)
      else if negb (bool_decide (lease_id l = id)) then (Err (LeaseMismatch (lease_id l) id), c)
      else (Ok (mkStatus Active (in_flight c) None observed), mkController Active (in_flight c) None)
  end.

(** ** Callers *)

(** Where a [prepare] is. From [Registering] on it owns the drain: its waiter is
    registered before the count is read, and remembers a notification. *)
Inductive Stage :=
| Requested (r : PrepareRequest)
| Registering (l : SuspendLease) (deadline : Z)
| Checking (l : SuspendLease) (deadline : Z) (notified : bool)
| Parked (l : SuspendLease) (deadline : Z) (notified : bool)
| Woken (l : SuspendLease) (deadline : Z)
| TimedOut (l : SuspendLease) (deadline : Z)
| Decided (l : SuspendLease) (drained : bool)
| Returned (r : result SuspendError PrepareOutcome)
| Abandoned.

(** The controller, the permits that exist, the callers that dropped the last permit and
    have not notified yet, and the prepares. *)
Record World := mkWorld { ctl : Controller; permits : Z; notifying : nat; prepares : gmap Z Stage }.

Definition world_new : World := mkWorld controller_new 0 0 ∅.

Inductive Event :=
| EAdmit (now : Z)
| ERelease
| ENotify
| EStatus (now : Z)
| EResume (now : Z) (id : str)
| ERequest (k : Z) (r : PrepareRequest)
| EBegin (k granted now : Z)
| EStep (k : Z)
| EDeadline (k now : Z)
| EAbandon (k : Z).

(** [wait_for_drain] and the end of [prepare], one section at a time. *)
Definition stage_step (c : Controller) (s : Stage) : option (Stage * Controller) :=
  match s with
  | Registering l d => Some (Checking l d false, c)
  | Checking l d notified => Some (if in_flight c =? 0 then Decided l true else Parked l d notified, c)
  | Parked l d true => Some (Woken l d, c)
  | Woken l d => Some (if in_flight c =? 0 then Decided l true else Registering l d, c)
  | TimedOut l d => Some (Decided l (in_flight c =? 0), c)
  | Decided l drained => let '(o, c) := prepare_end l drained c in Some (Returned (Ok o), c)
  | _ => None
  end.

(** [notify_waiters] reaches the waiters that are registered. *)
Definition notify (s : Stage) : Stage :=
  match s with
  | Checking l d _ => Checking l d true
  | Parked l d _ => Parked l d true
  | s => s
  end.

(** One step; [None] where the step is not possible. There are fewer permits than a
    machine word counts, since each of them is a value in memory. *)
Definition act (e : Event) (w : World) : option World :=
  match e with
  | EAdmit now =>
      match admit_work now (ctl w) with
      | (Ok _, c) => if permits w <? u64_max then Some (mkWorld c (permits w + 1) (notifying w) (prepares w)) else None
      | (Err _, c) => Some (mkWorld c (permits w) (notifying w) (prepares w))
      end
  | ERelease =>
      if permits w =? 0 then None
      else
        let '(last, c) := drop_permit (ctl w) in
        Some (mkWorld c (permits w - 1) (if last then S (notifying w) else notifying w) (prepares w))
  | ENotify =>
      match notifying w with
      | O => None
      | S n => Some (mkWorld (ctl w) (permits w) n (notify <$> prepares w))
      end
  | EStatus now => Some (mkWorld (status now now (ctl w)).2 (permits w) (notifying w) (prepares w))
  | EResume now id => Some (mkWorld (resume now now id (ctl w)).2 (permits w) (notifying w) (prepares w))
  | ERequest k r =>
      match prepares w !! k with
      | None => Some (mkWorld (ctl w) (permits w) (notifying w) (<[k := Requested r]> (prepares w)))
      | Some _ => None
      end
  | EBegin k granted now =>
      match prepares w !! k with
      | Some (Requested r) =>
          match prepare_begin granted now r (ctl w) with
          | (Ok (l, deadline), c) => Some (mkWorld c (permits w) (notifying w) (<[k := Registering l deadline]> (prepares w)))
          | (Err e, c) => Some (mkWorld c (permits w) (notifying w) (<[k := Returned (Err e)]> (prepares w)))
          end
      | _ => None
      end
  | EStep k =>
      s ← prepares w !! k;
      '(s', c) ← stage_step (ctl w) s;
      Some (mkWorld c (permits w) (notifying w) (<[k := s']> (prepares w)))
  | EDeadline k now =>
      match prepares w !! k with
      | Some (Parked l d _) =>
          if d <=? now then Some (mkWorld (ctl w) (permits w) (notifying w) (<[k := TimedOut l d]> (prepares w))) else None
      | _ => None
      end
  | EAbandon k =>
      match prepares w !! k with
      | Some (Requested _) => Some (mkWorld (ctl w) (permits w) (notifying w) (<[k := Abandoned]> (prepares w)))
      | Some (Parked l _ _) =>
          Some (mkWorld (guard_drop (lease_id l) (ctl w)) (permits w) (notifying w) (<[k := Abandoned]> (prepares w)))
      | _ => None
      end
  end.

Fixpoint run (es : list Event) (w : World) : option World :=
  match es with
  | [] => Some w
  | e :: es => w ← act e w; run es w
  end.

Definition reachable (w : World) : Prop := ∃ es, run es world_new = Some w.

(** ** The invariant *)

(** The lease of the drain a prepare owns. *)
Definition draining (s : Stage) : option SuspendLease :=
  match s with
  | Registering l _ | Checking l _ _ | Parked l _ _ | Woken l _ | TimedOut l _ | Decided l _ => Some l
  | _ => None
  end.

(** Who owns the phase. *)
Definition owned (w : World) : Prop :=
  match phase (ctl w) with
  | Active => lease (ctl w) = None ∧ ∀ k s, prepares w !! k = Some s → draining s = None
  | Draining => ∃ k s l, prepares w !! k = Some s ∧ draining s = Some l ∧ lease (ctl w) = Some l ∧
                  ∀ k' s', prepares w !! k' = Some s' → draining s' ≠ None → k' = k
  | Suspended => permits w = 0 ∧ (∃ l, lease (ctl w) = Some l) ∧ ∀ k s, prepares w !! k = Some s → draining s = None
  end.

Record Inv (w : World) : Prop := mkInv {
  inv_count : in_flight (ctl w) = permits w;
  inv_range : 0 ≤ permits w ≤ u64_max;
  inv_owned : owned w;
  inv_decided : ∀ k l, prepares w !! k = Some (Decided l true) → permits w = 0;
  (** A waiter that is parked on an idle runtime has been notified, or will be. *)
  inv_parked : ∀ k l d, prepares w !! k = Some (Parked l d false) → permits w = 0 → notifying w ≠ O;
}.

Lemma suspend_inv_new : Inv world_new.
Proof. split; cbn; try done. Qed.

(** Expiring a lease leaves a consistent controller that admits work. *)
Lemma expire_cases now c :
  expire_locked now c = c ∨
  ∃ l, phase c = Suspended ∧ lease c = Some l ∧ expires_at l ≤ now ∧ expire_locked now c = mkController Active (in_flight c) None.
Proof.
  unfold expire_locked. destruct (phase c), (lease c) as [l|] eqn:El; auto. destruct (Z.leb_spec (expires_at l) now); [|by left].
  right. by exists l.
Qed.

Lemma expire_inv now w : Inv w → Inv (mkWorld (expire_locked now (ctl w)) (permits w) (notifying w) (prepares w)).
Proof.
  intros Hi. destruct (expire_cases now (ctl w)) as [->|(l & Hp & Hl & _ & ->)]; [by destruct w|].
  destruct Hi as [Hc Hr Ho Hd Hpk]. unfold owned in Ho. rewrite Hp in Ho. destruct Ho as (_ & _ & Hno). by split.
Qed.

(** Replacing a stage by one that owns the same. *)
Lemma owned_swap c p n ps k s s' :
  owned (mkWorld c p n ps) → ps !! k = Some s → draining s' = draining s → owned (mkWorld c p n (<[k := s']> ps)).
Proof.
  unfold owned. cbn. intros Ho Hk Hd.
  assert (Hnone : (∀ j t, ps !! j = Some t → draining t = None) → ∀ j t, <[k := s']> ps !! j = Some t → draining t = None).
  { intros Hall j t [[-> <-]|[_ Hj]]%lookup_insert_Some; [|by eapply Hall]. rewrite Hd. by eapply Hall. }
  destruct (phase c); [naive_solver| |naive_solver]. destruct Ho as (k0 & s0 & l & Hk0 & Hs0 & Hl & Huniq).
  exists k0. destruct (decide (k0 = k)) as [->|Hne].
  - exists s', l. rewrite lookup_insert_eq. assert (s0 = s) as -> by congruence. split; [done|]. split; [by rewrite Hd|]. split; [done|].
    intros j t [[-> <-]|[_ Hj]]%lookup_insert_Some Ht; [done|]. by eapply Huniq.
  - exists s0, l. rewrite lookup_insert_ne by done. split; [done|]. split; [done|]. split; [done|].
    intros j t [[-> <-]|[_ Hj]]%lookup_insert_Some Ht; [|by eapply Huniq]. eapply Huniq; [exact Hk|]. by rewrite <- Hd.
Qed.

(** A new stage that neither claims an idle runtime nor waits for a notification. *)
Lemma suspend_inv_insert c p n ps k s' :
  in_flight c = p → 0 ≤ p ≤ u64_max → owned (mkWorld c p n (<[k := s']> ps)) →
  (∀ l, s' ≠ Decided l true) → (∀ l d, s' ≠ Parked l d false) →
  (∀ j l, ps !! j = Some (Decided l true) → p = 0) → (∀ j l d, ps !! j = Some (Parked l d false) → p = 0 → n ≠ O) →
  Inv (mkWorld c p n (<[k := s']> ps)).
Proof.
  intros Hc Hr Ho H1 H2 Hd Hpk. split; cbn; [done|done|done| |].
  - intros j l [[-> E]|[_ Hj]]%lookup_insert_Some; [by destruct (H1 l)|by eapply Hd].
  - intros j l d [[-> E]|[_ Hj]]%lookup_insert_Some; [by destruct (H2 l d)|by eapply Hpk].
Qed.

(** A new stage that owns nothing. *)
Lemma owned_idle c p n ps k s' :
  owned (mkWorld c p n ps) → (∀ s, ps !! k = Some s → draining s = None) → draining s' = None →
  owned (mkWorld c p n (<[k := s']> ps)).
Proof.
  unfold owned. cbn. intros Ho Hk Hd.
  assert (Hnone : (∀ j t, ps !! j = Some t → draining t = None) → ∀ j t, <[k := s']> ps !! j = Some t → draining t = None).
  { intros Hall j t [[-> <-]|[_ Hj]]%lookup_insert_Some; [done|by eapply Hall]. }
  destruct (phase c); [naive_solver| |naive_solver]. destruct Ho as (k0 & s0 & l & Hk0 & Hs0 & Hl & Huniq).
  exists k0, s0, l. assert (k ≠ k0) by (intros ->; apply Hk in Hk0; congruence). rewrite lookup_insert_ne by done. split; [done|]. split; [done|].
  split; [done|]. intros j t [[-> <-]|[_ Hj]]%lookup_insert_Some Ht; [done|]. by eapply Huniq.
Qed.

(** The owner gives the drain up: nobody owns it. *)
Lemma owner_leaves c p n ps k s s' :
  owned (mkWorld c p n ps) → ps !! k = Some s → draining s ≠ None → draining s' = None →
  phase c = Draining ∧ lease c = draining s ∧ ∀ j t, <[k := s']> ps !! j = Some t → draining t = None.
Proof.
  unfold owned. cbn. intros Ho Hk Hs Hs'. destruct (phase c).
  - destruct Ho as [_ Hall]. by apply Hall in Hk.
  - destruct Ho as (k0 & s0 & l & Hk0 & Hs0 & Hl & Huniq). assert (k = k0) as -> by (by eapply Huniq).
    assert (s0 = s) as -> by congruence. split; [done|]. split; [congruence|].
    intros j t [[-> <-]|[Hne Hj]]%lookup_insert_Some; [done|]. destruct (draining t) eqn:E; [|done]. destruct Hne. symmetry.
    eapply Huniq; [exact Hj|congruence].
  - destruct Ho as (_ & _ & Hall). by apply Hall in Hk.
Qed.

Lemma resume_cases now id c :
  (resume now now id c).2 = expire_locked now c ∨
  ∃ l, phase (expire_locked now c) = Suspended ∧ lease (expire_locked now c) = Some l ∧ lease_id l = id ∧
    (resume now now id c).2 = mkController Active (in_flight (expire_locked now c)) None.
Proof.
  unfold resume. destruct (lease (expire_locked now c)) as [l|] eqn:El; [|by left]. case_bool_decide as Hp; [|by left]. cbn [negb].
  case_bool_decide; [|by left]. right. by exists l.
Qed.

Lemma stage_step_inv k s s' c w :
  Inv w → prepares w !! k = Some s → stage_step (ctl w) s = Some (s', c) →
  Inv (mkWorld c (permits w) (notifying w) (<[k := s']> (prepares w))).
Proof.
  intros Hi Hk Hs. pose proof Hi as [Hc Hr Ho Hd Hpk]. destruct w as [c0 p n ps]. cbn in *.
  assert (Hkeep : draining s' = draining s → c = c0 →
    (∀ l, s' = Decided l true → p = 0) → (∀ l d, s' = Parked l d false → p = 0 → n ≠ O) →
    Inv (mkWorld c p n (<[k := s']> ps))).
  { intros Hd' -> H1 H2. split; cbn; [done|done|by eapply owned_swap| |].
    - intros j l [[-> E]|[_ Hj]]%lookup_insert_Some; [by eapply H1|by eapply Hd].
    - intros j l d [[-> E]|[_ Hj]]%lookup_insert_Some; [by eapply H2|by eapply Hpk]. }
  destruct s; cbn in Hs; try done.
  - injection Hs as <- <-. by apply Hkeep.
  - injection Hs as <- <-. destruct (Z.eqb_spec (in_flight c0) 0); apply Hkeep; try done; intros; congruence.
  - destruct notified; [|done]. injection Hs as <- <-. by apply Hkeep.
  - injection Hs as <- <-. destruct (Z.eqb_spec (in_flight c0) 0); apply Hkeep; try done; intros; congruence.
  - injection Hs as <- <-. apply Hkeep; try done. intros l' E. injection E as _ E. rewrite <- Hc. by apply Z.eqb_eq.
  - destruct (prepare_end l drained c0) as [o c1] eqn:Ee. injection Hs as <- <-.
    destruct (owner_leaves c0 p n ps k _ (Returned (Ok o)) Ho Hk) as (Hph & Hl & Hall); [done|done|].
    unfold prepare_end in Ee. destruct drained; injection Ee as <- <-; apply suspend_inv_insert; try done.
    split; [by eapply Hd|]. split; [by exists l|done].
Qed.

Lemma admit_inv now w w' : Inv w → act (EAdmit now) w = Some w' → Inv w'.
Proof.
  intros Hi Ha. apply (expire_inv now) in Hi. cbn in Ha. unfold admit_work in Ha. set (c := expire_locked now (ctl w)) in *.
  destruct (admits_work (phase c)) eqn:Ep; cbn in Ha; [|by injection Ha as <-].
  destruct (Z.ltb_spec (permits w) u64_max); [|done]. injection Ha as <-. destruct Hi as [Hc Hr Ho Hd Hpk]. cbn in *.
  destruct (phase c) eqn:Ephase; try done. unfold owned in Ho. cbn in Ho. rewrite Ephase in Ho. destruct Ho as [Hl Hall].
  split; cbn; [unfold sat_add; rewrite Hc; lia|lia|done| |].
  - intros k l Hk. by apply Hall in Hk.
  - intros k l d Hk. by apply Hall in Hk.
Qed.

Lemma release_inv w w' : Inv w → act ERelease w = Some w' → Inv w'.
Proof.
  intros [Hc Hr Ho Hd Hpk]. cbn. destruct (Z.eqb_spec (permits w) 0); [done|]. intros [= <-].
  assert (Hsub : sat_sub (in_flight (ctl w)) 1 = permits w - 1) by (unfold sat_sub; lia). rewrite Hsub. split; cbn; [done|lia| | |].
  - unfold owned in *. cbn. destruct (phase (ctl w)); [done|done|]. by destruct Ho.
  - intros k l Hk. apply Hd in Hk. lia.
  - intros k l d Hk Hp. rewrite (proj2 (Z.eqb_eq _ _) Hp). done.
Qed.

Lemma draining_notify s : draining (notify s) = draining s.
Proof. by destruct s. Qed.

Lemma notify_inv w w' : Inv w → act ENotify w = Some w' → Inv w'.
Proof.
  intros [Hc Hr Ho Hd Hpk]. cbn. destruct (notifying w) as [|n]; [done|]. intros [= <-].
  assert (Hlook : ∀ k s, (notify <$> prepares w) !! k = Some s → ∃ s0, prepares w !! k = Some s0 ∧ s = notify s0).
  { intros k s Hk. rewrite lookup_fmap_Some in Hk. destruct Hk as (s0 & <- & Hs). by exists s0. }
  split; cbn; [done|done| | |].
  - unfold owned in *. cbn. destruct (phase (ctl w)).
    + destruct Ho as [Hl Hall]. split; [done|]. intros k s (s0 & Hk & ->)%Hlook. rewrite draining_notify. by eapply Hall.
    + destruct Ho as (k & s & l & Hk & Hs & Hl & Huniq). exists k, (notify s), l. rewrite lookup_fmap, Hk, draining_notify.
      split; [done|]. split; [done|]. split; [done|]. intros k' s' (s0 & Hk' & ->)%Hlook. rewrite draining_notify. by eapply Huniq.
    + destruct Ho as (Hp & Hl & Hall). split; [done|]. split; [done|]. intros k s (s0 & Hk & ->)%Hlook. rewrite draining_notify. by eapply Hall.
  - intros k l (s0 & Hk & Hs)%Hlook. destruct s0; simplify_eq/=. by eapply Hd.
  - intros k l d (s0 & Hk & Hs)%Hlook. by destruct s0.
Qed.

Lemma begin_inv k granted now w w' : Inv w → act (EBegin k granted now) w = Some w' → Inv w'.
Proof.
  intros Hi. cbn. destruct (prepares w !! k) as [[r| | | | | | | |]|] eqn:Hk; try done. unfold prepare_begin.
  assert (Hidle : ∀ c res, Inv (mkWorld c (permits w) (notifying w) (prepares w)) → draining (Returned res) = None →
    Inv (mkWorld c (permits w) (notifying w) (<[k := Returned res]> (prepares w)))).
  { intros c res [Hc Hr Ho Hd Hpk] _. apply suspend_inv_insert; try done.
    eapply owned_idle; [done| |done]. intros s Hs. rewrite Hk in Hs. by injection Hs as <-. }
  destruct (Approval.checked_add granted (drain_timeout r)) as [deadline|], (Approval.checked_add granted (lease_ttl r)) as [expires|];
    try (intros [= <-]; apply Hidle; [by destruct w|done]).
  apply (expire_inv now) in Hi. set (c := expire_locked now (ctl w)) in *. destruct (phase c) eqn:Ep; intros [= <-]; try (by apply Hidle).
  destruct Hi as [Hc Hr Ho Hd Hpk]. unfold owned in Ho. cbn in *. rewrite Ep in Ho. destruct Ho as [_ Hall]. apply suspend_inv_insert; try done.
  unfold owned. cbn. eexists k, _, _. rewrite lookup_insert_eq. split; [done|]. split; [done|]. split; [done|].
  intros j s [[-> <-]|[_ Hj]]%lookup_insert_Some Hs; [done|]. apply Hall in Hj. congruence.
Qed.

(** An abandoned prepare gives the drain it owns back. *)
Lemma abandon_inv k w w' : Inv w → act (EAbandon k) w = Some w' → Inv w'.
Proof.
  intros [Hc Hr Ho Hd Hpk]. cbn. destruct (prepares w !! k) as [[r| | |l d b| | | | |]|] eqn:Hk; try done; intros [= <-].
  - apply suspend_inv_insert; try done. eapply owned_idle; [by destruct w| |done]. intros s Hs. rewrite Hk in Hs. by injection Hs as <-.
  - destruct w as [c p n ps]. cbn in *. destruct (owner_leaves c p n ps k _ Abandoned Ho Hk) as (Hph & Hl & Hall); [done|done|].
    unfold guard_drop. rewrite Hph, Hl. cbn. rewrite !bool_decide_eq_true_2 by done. cbn. by apply suspend_inv_insert.
Qed.

Lemma suspend_act_inv e w w' : Inv w → act e w = Some w' → Inv w'.
Proof.
  intros Hi. destruct e.
  - by apply admit_inv.
  - by apply release_inv.
  - by apply notify_inv.
  - intros [= <-]. by apply expire_inv.
  - intros [= <-]. apply (expire_inv now) in Hi. destruct (resume_cases now id (ctl w)) as [->|(l & Hp & Hl & _ & ->)]; [done|].
    destruct Hi as [Hc Hr Ho Hd Hpk]. unfold owned in Ho. cbn in *. rewrite Hp in Ho. destruct Ho as (Hz & _ & Hall). by split.
  - cbn. destruct (prepares w !! k) eqn:Hk; [done|]. intros [= <-]. destruct Hi as [Hc Hr Ho Hd Hpk]. apply suspend_inv_insert; try done.
    eapply owned_idle; [by destruct w| |done]. congruence.
  - by apply begin_inv.
  - cbn. destruct (prepares w !! k) as [s|] eqn:Hk; [|done]. cbn. destruct (stage_step (ctl w) s) as [[s' c]|] eqn:Es; [|done]. intros [= <-].
    by eapply stage_step_inv.
  - cbn. destruct (prepares w !! k) as [[| | |l d b| | | | |]|] eqn:Hk; try done. destruct (Z.leb_spec d now); [|done]. intros [= <-].
    destruct Hi as [Hc Hr Ho Hd Hpk]. apply suspend_inv_insert; try done. eapply owned_swap; [by destruct w|done|done].
  - by apply abandon_inv.
Qed.

Lemma suspend_run_inv es w w' : Inv w → run es w = Some w' → Inv w'.
Proof.
  revert w. induction es as [|e es IH]; intros w Hi; cbn; [by intros [= <-]|]. destruct (act e w) as [w1|] eqn:Ea; [|done]. cbn.
  apply IH. by eapply suspend_act_inv.
Qed.

Lemma suspend_reachable_inv w : reachable w → Inv w.
Proof. intros [es Hes]. eapply suspend_run_inv; [apply suspend_inv_new|done]. Qed.

(** ** What suspension promises *)

(** The clock reading a step takes under the lock. *)
Definition clock_of (e : Event) : option Z :=
  match e with
  | EAdmit now | EStatus now | EResume now _ | EBegin _ _ now => Some now
  | _ => None
  end.

Lemma expire_holds now c l :
  phase c = Suspended → lease c = Some l → now < expires_at l → expire_locked now c = c.
Proof. unfold expire_locked. intros -> -> Hn. by rewrite (proj2 (Z.leb_gt _ _) Hn). Qed.

(** Nothing but its owner or its end takes a suspension away. *)
Lemma suspended_step e w w' l :
  Inv w → phase (ctl w) = Suspended → lease (ctl w) = Some l → act e w = Some w' →
  (∀ now, clock_of e = Some now → now < expires_at l) → (∀ now, e ≠ EResume now (lease_id l)) →
  phase (ctl w') = Suspended ∧ lease (ctl w') = Some l.
Proof.
  intros Hi Hp Hl Ha Hclock Hresume. pose proof (inv_owned w Hi) as Ho. unfold owned in Ho. rewrite Hp in Ho. destruct Ho as (Hz & _ & Hall).
  assert (Hexp : ∀ now, clock_of e = Some now → expire_locked now (ctl w) = ctl w).
  { intros now Hn. eapply expire_holds; [done|exact Hl|by apply Hclock]. }
  destruct e; cbn in Ha.
  - unfold admit_work in Ha. rewrite Hexp, Hp in Ha by done. cbn in Ha. by injection Ha as <-.
  - rewrite Hz in Ha. done.
  - destruct (notifying w); [done|]. by injection Ha as <-.
  - injection Ha as <-. cbn. by rewrite Hexp.
  - injection Ha as <-. cbn. unfold resume. rewrite Hexp, Hl, bool_decide_eq_true_2 by done. cbn.
    rewrite bool_decide_eq_false_2; [done|]. intros <-. by destruct (Hresume now).
  - destruct (prepares w !! k); [done|]. by injection Ha as <-.
  - destruct (prepares w !! k) as [[]|]; try done. unfold prepare_begin in Ha. rewrite (Hexp now), Hp in Ha by done.
    repeat case_match; simplify_eq; done.
  - destruct (prepares w !! k) as [s|] eqn:Hk; [|done]. apply Hall in Hk. by destruct s.
  - destruct (prepares w !! k) as [[]|] eqn:Hk; try done. by apply Hall in Hk.
  - destruct (prepares w !! k) as [[]|] eqn:Hk; try done; [by injection Ha as <-|by apply Hall in Hk].
Qed.

(** Over every interleaving of admissions, releases, prepares (resolved, timed out or dropped) and resumes: while
    the runtime is suspended no work is in flight and none is admitted, and it stays suspended under the same lease
    until that lease is presented or has expired; while it drains, exactly one prepare owns the drain, so that
    dropping it hands the runtime back. *)
Theorem suspension_holds w :
  reachable w →
  (phase (ctl w) = Suspended →
     permits w = 0 ∧
     ∃ l, lease (ctl w) = Some l ∧
       ∀ e w', act e w = Some w' → (∀ now, clock_of e = Some now → now < expires_at l) → (∀ now, e ≠ EResume now (lease_id l)) →
         phase (ctl w') = Suspended ∧ lease (ctl w') = Some l ∧ permits w' = 0) ∧
  (phase (ctl w) = Draining →
     ∃ k s l, prepares w !! k = Some s ∧ draining s = Some l ∧ lease (ctl w) = Some l ∧
       (∀ k' s', prepares w !! k' = Some s' → draining s' ≠ None → k' = k) ∧
       (∀ w', act (EAbandon k) w = Some w' → ctl w' = mkController Active (permits w) None)) ∧
  (phase (ctl w) = Active → lease (ctl w) = None).
Proof.
  intros Hr%suspend_reachable_inv. pose proof (inv_owned w Hr) as Ho. unfold owned in Ho. split; [|split]; intros Hp; rewrite Hp in Ho.
  - destruct Ho as (Hz & [l Hl] & _). split; [done|]. exists l. split; [done|]. intros e w' Ha Hc Hn.
    destruct (suspended_step e w w' l) as [Hp' Hl']; try done. split; [done|]. split; [done|]. pose proof (suspend_act_inv e w w' Hr Ha) as Hi.
    apply inv_owned in Hi. unfold owned in Hi. rewrite Hp' in Hi. by destruct Hi.
  - destruct Ho as (k & s & l & Hk & Hs & Hl & Huniq). exists k, s, l. do 4 (split; [done|]). intros w' Ha. cbn in Ha. rewrite Hk in Ha.
    destruct s; try done. cbn in Hs. injection Hs as ->. injection Ha as <-. cbn. unfold guard_drop. rewrite Hp, Hl. cbn.
    rewrite !bool_decide_eq_true_2 by done. by rewrite (inv_count w Hr).
  - by destruct Ho.
Qed.

(** A lease of one second, granted and held. *)
Definition held_events : list Event :=
  [EAdmit 0; ERequest 1 (mkPrepare (chars "lease") (chars "update") 500 1000); EBegin 1 10 10; EStep 1; EStep 1; ERelease; ENotify; EStep 1;
   EStep 1; EStep 1].

Lemma suspension_holds_witness :
  ∃ w, reachable w ∧ phase (ctl w) = Suspended ∧ permits w = 0.
Proof.
  destruct (run held_events world_new) as [w|] eqn:E; [|vm_compute in E; discriminate E]. exists w.
  assert (Hr : reachable w) by (by exists held_events). assert (Hp : phase (ctl w) = Suspended) by (vm_compute in E; by injection E as <-).
  split; [done|]. split; [done|]. by destruct (suspension_holds w Hr) as [H _]; destruct (H Hp).
Defined.

(** ** A drain ends *)

(** Steps of the prepare [k] and of notifiers suspend the runtime under [l]. *)
Definition finishes (k : Z) (l : SuspendLease) (w : World) : Prop :=
  ∃ es w', Forall (λ e, e = ENotify ∨ e = EStep k) es ∧ run es w = Some w' ∧
    prepares w' !! k = Some (Returned (Ok (Quiesced l))) ∧ phase (ctl w') = Suspended.

Lemma finishes_step e k l w w1 : e = ENotify ∨ e = EStep k → act e w = Some w1 → finishes k l w1 → finishes k l w.
Proof.
  intros He Ha (es & w' & Hes & Hrun & H). exists (e :: es), w'. split; [by constructor|]. cbn. rewrite Ha. done.
Qed.

(** One step of the prepare, to a stage from which it finishes. *)
Lemma finishes_stage k l w s s' :
  prepares w !! k = Some s → stage_step (ctl w) s = Some (s', ctl w) →
  finishes k l (mkWorld (ctl w) (permits w) (notifying w) (<[k := s']> (prepares w))) → finishes k l w.
Proof. intros Hk Hs. apply (finishes_step (EStep k)); [by right|]. cbn. rewrite Hk. cbn. by rewrite Hs. Qed.

Lemma decided_finishes k l w : Inv w → prepares w !! k = Some (Decided l true) → finishes k l w.
Proof.
  intros Hi Hk. pose proof (inv_owned w Hi) as Ho.
  destruct (owner_leaves (ctl w) (permits w) (notifying w) (prepares w) k _ Abandoned ltac:(by destruct w) Hk) as (_ & Hl & _); [done|done|].
  exists [EStep k]. eexists. split; [by constructor; [right|]|]. cbn. rewrite Hk. cbn. rewrite Hl. cbn. split; [done|]. cbn.
  by rewrite lookup_insert_eq.
Qed.

Lemma stage_swap k l w s s' :
  Inv w → prepares w !! k = Some s → stage_step (ctl w) s = Some (s', ctl w) →
  (Inv (mkWorld (ctl w) (permits w) (notifying w) (<[k := s']> (prepares w))) → finishes k l (mkWorld (ctl w) (permits w) (notifying w) (<[k := s']> (prepares w)))) →
  finishes k l w.
Proof. intros Hi Hk Hs Hf. eapply finishes_stage; [done|done|]. by apply Hf, (stage_step_inv k s s' (ctl w)). Qed.

Lemma drain_finishes w k s l :
  Inv w → prepares w !! k = Some s → draining s = Some l → s ≠ Decided l false → permits w = 0 → finishes k l w.
Proof.
  intros Hi Hk Hd Hf Hz. assert (Hidle : in_flight (ctl w) =? 0 = true) by (rewrite (inv_count w Hi); by apply Z.eqb_eq).
  assert (Hread : ∀ w0 s0, Inv w0 → ctl w0 = ctl w → prepares w0 !! k = Some s0 →
    stage_step (ctl w) s0 = Some (Decided l true, ctl w) → finishes k l w0).
  { intros w0 s0 Hi0 Hc Hk0 Hs0. eapply stage_swap; [done|done|by rewrite Hc|]. intros Hi1. apply decided_finishes; [done|]. cbn.
    apply lookup_insert_eq. }
  assert (Hwoken : ∀ w0 d, Inv w0 → ctl w0 = ctl w → prepares w0 !! k = Some (Parked l d true) → finishes k l w0).
  { intros w0 d Hi0 Hc Hk0. eapply stage_swap; [done|done|reflexivity|]. intros Hi1. eapply (Hread _ (Woken l d)); [done|done|apply lookup_insert_eq|].
    cbn. by rewrite Hidle. }
  destruct s; cbn in Hd; simplify_eq.
  - eapply stage_swap; [done|done|reflexivity|]. intros Hi1. eapply (Hread _ (Checking l deadline false)); [done|done|apply lookup_insert_eq|].
    cbn. by rewrite Hidle.
  - eapply Hread; [done|done|done|]. cbn. by rewrite Hidle.
  - destruct notified; [by eapply Hwoken|]. pose proof (inv_parked w Hi k _ _ Hk Hz) as Hn.
    destruct (notifying w) as [|n] eqn:En; [done|].
    assert (Ha : act ENotify w = Some (mkWorld (ctl w) (permits w) n (notify <$> prepares w))) by (cbn; by rewrite En).
    eapply (finishes_step ENotify); [by left|exact Ha|]. eapply Hwoken; [by eapply suspend_act_inv|done|]. cbn. by rewrite lookup_fmap, Hk.
  - eapply Hread; [done|done|done|]. cbn. by rewrite Hidle.
  - eapply Hread; [done|done|done|]. cbn. by rewrite Hidle.
  - destruct drained; [by apply decided_finishes|done].
Qed.

(** No wake-up is lost: as soon as the last permit is dropped, whatever came in between, the prepare that waits
    for it suspends the runtime and returns its lease, by its own steps and those of the caller that dropped the
    permit alone (unless its deadline had already decided against it). *)
Theorem drain_is_noticed w k s l :
  reachable w → prepares w !! k = Some s → draining s = Some l → s ≠ Decided l false → permits w = 0 →
  ∃ es w', Forall (λ e, e = ENotify ∨ e = EStep k) es ∧ run es w = Some w' ∧
    prepares w' !! k = Some (Returned (Ok (Quiesced l))) ∧ phase (ctl w') = Suspended.
Proof. intros Hr%suspend_reachable_inv. by apply drain_finishes. Qed.

(** A prepare that has parked, with the permit it waits for dropped and not yet announced. *)
Lemma drain_is_noticed_witness :
  ∃ es w', Forall (λ e, e = ENotify ∨ e = EStep 1) es ∧
    (w ← run (take 6 held_events) world_new; run es w) = Some w' ∧ phase (ctl w') = Suspended.
Proof.
  destruct (run (take 6 held_events) world_new) as [w|] eqn:E; [|vm_compute in E; discriminate E].
  assert (Hr : reachable w) by (by exists (take 6 held_events)). vm_compute in E. injection E as <-.
  destruct (drain_is_noticed _ 1 (Parked (mkLease (chars "lease") (chars "update") 10 1010) 510 false) (mkLease (chars "lease") (chars "update") 10 1010) Hr)
    as (es & w' & Hes & Hrun & _ & Hp); [vm_compute; reflexivity|reflexivity|done|reflexivity|]. by exists es, w'.
Defined.

(** The term of a lease runs while the runtime drains: a drain that outlasts it hands back a lease that has expired,
    and the next caller is admitted although the host was told that the runtime is suspended. *)
Example expired_lease_is_granted :
  ∃ w w' l, run [EAdmit 0; ERequest 1 (mkPrepare (chars "lease") (chars "update") 5000 1000); EBegin 1 10 10; EStep 1; EStep 1; ERelease;
                 ENotify; EStep 1; EStep 1; EStep 1] world_new = Some w ∧
    prepares w !! 1 = Some (Returned (Ok (Quiesced l))) ∧ expires_at l = 1010 ∧
    act (EAdmit 4000) w = Some w' ∧ permits w' = 1 ∧ phase (ctl w') = Active.
Proof. eexists _, _, _. split; [vm_compute; reflexivity|]. split; [vm_compute; reflexivity|]. by vm_compute. Qed.

End Suspension.
